(* ===== verification/_CoqProject ===== *)
-Q . S2P
Prelude.v
BTree.v
Text.v
Json.v
JsonAccept.v
JsonCanon.v
JsonExample.v
Collections.v
Storage.v
StorageFacts.v
AppendLog.v
AppendLogFacts.v
CollectionFacts.v
CollectionViews.v
CollectionStorage.v
CollectionSidecar.v
SidecarFacts.v
CollectionPersisted.v
Durability.v
DurabilityExample.v
Protocol.v
Dispatcher.v
Versioning.v
Arena.v
NodeState.v
Receive.v
NodeInv.v
Phases.v
Rewire.v
RewireFacts.v
Engine.v
EngineRun.v
EngineLogic.v
EngineInv.v
EngineFuel.v
EngineQuiet.v
EngineSpec.v
Spreadsheet.v
SpreadsheetExample.v
Scenarios.v
Operators.v
Combinators.v
OperatorFacts.v
CombinatorFacts.v
OperatorRun.v
OperatorScenarios.v
Pages.v
MessageBus.v
MessageBusFacts.v
MessageBusScenarios.v
Resilience.v
WorkQueue.v
WorkQueueFacts.v
WorkQueueScenarios.v
WorkQueueAdmission.v
WorkQueueAdmissionScenarios.v
Bridge.v
BridgeFacts.v
BridgeLink.v
BridgeScenarios.v
RemoteCall.v
RemoteCallFacts.v
RemoteCallScenarios.v
Protobuf.v
ProtobufFacts.v
ProtobufScenarios.v
WireEdge.v
WireEdgeFacts.v
WireEdgeLink.v
WireEdgeScenarios.v
FileBackend.v
FileBackendFacts.v
ReadThrough.v
ReadThroughFacts.v
Envelopes.v
EnvelopesFacts.v
StorageScenarios.v
