(* ===== verification/Prelude.v ===== *)
(** * GraphReFly (graphrefly-rs): a verification library

    GraphReFly is a single-threaded reactive graph engine.  Nodes live in an
    arena, hold a cached value and per-dependency bookkeeping, and exchange waves
    of tiered messages: phase one of a wave marks everything downstream DIRTY,
    phase two settles it with DATA or RESOLVED.  Around it sit collections that
    announce every mutation on a node, and storage that keeps them: canonical
    JSON, key-value tiers in memory and in files, append logs, lookups over several
    tiers, content-addressed entries, checksummed frames, and a sidecar that
    persists a collection from its announced changes.  On top come the operators, whose bodies run
    inside nodes, and the first of the recipes: a message bus, a work queue that
    is fed by it, and the resilience policies the queue uses; and the wire bridge
    that carries values between two graphs, with remote calls over it.  This
    library models these from src/crates/graphrefly/src and proves what their
    operations promise.

    ** The parts: the engine

    - [Protocol]: protocol.rs.  The message type, its tier table, and the shaping
      of a wave at the head of [Core::down].
    - [Dispatcher]: dispatcher.rs.  The two fn pools ([Module Pool]) and the
      dispatcher over them ([Module Dispatcher]), with 32-bit slot generations.
    - [Versioning]: versioning.rs.  The runtime version of a node.  The canonical
      JSON bytes of a value ([any_to_strict_json], serde_json) are the parameter
      [CanonicalData].
    - [Arena]: [GraphCore] of node.rs, generic in the slot payload: allocation,
      generation-checked keys, pins, and the release of a slot ([Module Arena]).
    - [NodeState]: the columns of a node slot, [NodeOpts], the requests and the
      queued tasks of node.rs, the [Ctx] of ctx.rs, the batch frame record of
      batch.rs, and [World]: the arenas, the dispatcher and the thread-locals.
    - [Receive]: the pure part of the node handlers, slot to slot: receiving a
      message from a dep ([collect_receive], one definition per match arm), the
      prologue and epilogue of a run, one outgoing message ([collect_down]),
      deactivation, the reset after a panic, and the pause and pull guards.
    - [Rewire]: the pure part of a dependency change: the two identity matchings,
      the upstream search of the cycle check, the rebuild of the vectors.
    - [Engine]: every operation of node.rs, batch.rs and ctx.rs that can call back
      into user code, as state-passing functions over [World]: the wave owner and
      its panic recovery, the delivery scope, [down], [up], pause and pull,
      subscription and activation, rewire, the committed-boundary queue, and the
      batch frame.

    The operations re-enter each other through user closures and subscriber
    sinks.  They are written against a parameter [rec], indexed by the operation
    called ([Task]), and [exec] ties the knot.  Every definition keeps the name of
    the function it models; [collect_receive] is
    [collect_receive_from_dep_action_from_graph], [collect_down] is
    [collect_down_action_from_graph], [decide_maybe_run] is
    [decide_maybe_run_from_graph], [reset_wave_flags] is [reset_wave_flags_inner]
    and [drain_roots] is [drain_boundary_for_roots] of batch.rs, whose loop is
    that of [drain_committed_boundaries].

    ** The parts: collections and storage

    - [BTree], [Text]: the ordered map, the stable sort and the decimal text of
      the standard library that the files below use, with their laws.
    - [Json]: json.rs and, with [Storage], identity.rs.  The strict validator, the
      canonical printer, the duplicate-key scanner and the strict decoder.
      serde_json is the parameter [SerdeJson]; what it documents and the theorems
      use is [SerdeJsonLaws] of [JsonAccept], which [JsonExample] instantiates.
    - [Collections]: data_structures.rs.  The backends and the collections over
      them ([ListOps], [LogOps], [IndexOps], [MapOps]), and the bodies of the
      snapshot, tail, slice, page, scan and merge nodes.
    - [Storage]: the first part of storage.rs.  Physical keys and file names, the
      key-value tier as a record of operations ([KvStorageTier]) with its contract
      ([KvSpec]), and the in-memory tier that discharges it.
    - [AppendLog]: the single- and multi-writer append logs of storage.rs.
    - [CollectionStorage]: the frames of storage.rs, the fold of logged changes
      onto a snapshot, and loading.
    - [FileBackend]: the file backend of storage.rs ([Module Files]), over the calls
      of the file system it makes; the tiers that encode their values over a byte
      backend ([Module CodecKv]); file-backed logs.
    - [ReadThrough]: [tiered_read_through] of storage.rs: the tiers in order, the
      loader, the promotions.
    - [Envelopes]: the rest of storage.rs: content-addressed entries
      ([Module ContentAddressed]), the frames of a write-ahead log ([Module Wal]),
      change envelopes ([Module Envelope]) and observed events ([Module Observe]).
    - [CollectionSidecar]: adapters/reactive_collection_storage.rs.  The state the
      closures of [persist_collection] share ([Sidecar]), its subscription
      ([on_change]) and its controls, and the two [open_persistent_*] functions
      for lists and logs.

    A collection's mutation calls its backend and emits one change
    ([ListOps.emit]); the sidecar receives the changes ([on_change]), mirrors and
    queues them, and writes them through an [AppendLogTier] and a
    [KvStorageTier]; [load_reactive_list_state] reads both back, and
    [open_persistent_reactive_list] restores the collection and attaches a new
    sidecar.  A tier may be the in-memory one or one over files ([codec_kv_storage] of
    [Files.backend]); the theorems about a content-addressed store or an append log
    ask of their tier that it is a map ([KvSpec]), which the in-memory tier is.  The versions and epochs of the in-memory tier are 64-bit counters
    that are only incremented, and are integers here.

    ** The parts: operators and recipes

    - [Operators], [Combinators]: operators.rs and combinators.rs.  An operator is
      its options and its body, a [Prog] over the effects of [Ctx]; one definition
      per function, with the state its closure keeps between runs.
    - [OperatorRun]: the meaning of a body on its own ([run_body]), and the theorem
      that the engine gives it the same meaning on a live node.
    - [Pages]: a page of a projection, and walking its cursor.
    - [MessageBus]: messaging.rs.  The state of the runtime node, its reducer (one
      definition per command), retention, dead letters, subscriptions, and the
      answers of the projections, in [Module Bus].
    - [Resilience]: resilience.rs.  Backoff and retry policies, the retry and the
      breaker status node, the rate limiter.
    - [WorkQueue]: work_queue.rs.  Commands, records and works, the reducer (one
      definition per command), admission, the projections and the handle, in
      [Module Queue].
    - [WorkQueueAdmission]: the admission loop of the queue over the bus.
    - [Bridge]: adapters/bridge.rs, the wire bridge.  Envelopes and their two
      validators, the events node (commands, acknowledgements, timeouts and
      retries, inbound envelopes), the nodes that project its events, the ports and
      the change of their sources, in [Module Wire].
    - [RemoteCall]: adapters/bridge.rs, remote calls.  The table of the requests in
      flight, the responses, results, status and errors nodes of a caller, and the
      responder with its handlers, in [Module Remote].
    - [Protobuf]: adapters/bridge_protobuf.rs.  The writer and the reader of fields,
      the parser and the encoder of each message, the two validators and the entry
      points of the codec, in [Module Proto].
    - [WireEdge]: adapters/bridge.rs, wire edge groups.  The events node of a group
      (which values are sent, the frames of a cohort, the frames that come in), the
      gate that collects a cause and releases it, and the status, in [Module Edge].

    The nodes of a recipe share one state through a closure; a handler is a
    function over that state ([reduce_message_bus_command],
    [reduce_queue_command]) and the runtime node is a fold over its batch.  The
    queue depends on the bus through the pages it pulls and the acknowledgements
    it sends ([admission_poll]), and on [Resilience] through its retry policy.
    A bridge takes its retry policy from [Resilience] too; the nodes of a remote
    call read the commands and the events of a bridge, and a responder sends its
    answers as commands of one.  An edge group makes commands of one, in frames of the
    protobuf form, and reads its inbound port.

    ** Modelling decisions

    - A call returns, unwinds with a panic payload, or runs out of fuel
      ([Outcome]); the state survives an unwind, as [catch_unwind] sees it.
      [Drop] guards are [with_guard]: their update also runs on an unwind.
    - Closures are identities in the state.  Their meaning is the parameter
      [UserCode]: a fn maps its context, a sink its message and a hook nothing to
      a [Prog], a tree of the public calls user code can make.  Closures
      therefore have no state of their own beyond [ctx.state_get] and
      [ctx.state_set], and external sinks and hooks may call anything.
    - An error is its Display text.  A dep's index box and a commit token are
      cells of [World], so their sharing is modelled.
    - Counters of 64 bits that are only ever incremented are integers, except
      where the code checks or wraps them (slot generations, delivery ids, the
      version counter).
    - [w_log] records what external sinks, hooks and topology observers saw; its
      [EvEmit] and [EvRun] entries are ghosts, one per message a node emits and
      one per fn invocation.
    - The recipes read a clock: the bus a sequence of readings ([BusConfig]), the
      queue the time each input brings.  A [HashSet] iterates in an order of its
      own, the parameter [HashOrder].  Sequence numbers of 64 bits that are only
      incremented are integers; an [after_seq] a client supplies is taken to be
      below 2^64 - 1, and the 32-bit attempt of a work panics on overflow.
    - The file backend works in one directory.  A call of the file system works,
      fails, or is the one the process dies in ([Fate]), in any order; the death of
      a process is an unwinding that nothing in the backend catches.  What a power
      failure leaves of a file that was synced, renamed or linked is not modelled.
    - SHA-256 is a parameter: where a hash stands for its input the theorems say
      that or exhibit two inputs that collide.  The forms serde derives for the
      structs of storage.rs are written out, with the fields in the order of the
      map of serde_json.
    - Node handles held by user code keep their nodes alive: the reference counts
      of temporary handles and the pins taken around calls are not threaded
      through [Engine].  [Arena] models them, with the release of a slot.
    - [rewire_plan] merges the no-overlap fast path of [rewire_apply] with the
      general path: on a disjoint dep list nothing is kept and both do the same.
    - A second mutable borrow of an arena or a pool (a [BorrowMutError] panic) is
      not modelled; the code releases every borrow before a callback.

    ** Fuel

    [exec] bounds the nesting of re-entrant calls.  [exec_fuel_irrelevant] shows
    that any two fuels with which a call ends give the same outcome, so theorems
    about a call that ends hold for every larger fuel.  [source_two_phase] and
    [drain_waiting_terminates] give explicit sufficient fuels (two, and one per
    queued request); the scenarios end within 40 or 60.  User code may loop for
    ever, so no fuel is enough for every program.  The upstream search needs as
    much fuel as the graph has dep edges plus two; [reachable_upstream_spec]
    proves that it always answers.

    The reader of protobuf fields takes a turn per byte and one more
    ([reading_ends]).  The recipes have no fuel but the number of turns: [queue_pages_cover] takes one
    page per item and one more, [admission_exactly_once] one turn per hundred
    messages.

    ** The theorems

    - Data structures.  [Dispatcher] and [Arena]: a freed handle or key never
      resolves again, registration and allocation are fresh and disturb nothing.
      [Versioning]: the counter counts the accepted values within the
      safe-integer bound, versions chain.  [Protocol]: wave shaping.
    - One node ([NodeInv]): the vectors stay parallel and [pending] counts the
      dirty deps; a wave over any set of deps forwards one DIRTY and asks for one
      recompute, on the last settle; no run without its guards; what a run reads;
      deactivation and panic recovery.
    - Rewire ([RewireFacts]): the matchings agree, the rebuild keeps the state of
      every kept dep, the search is exact.
    - The engine as a whole.  [EngineLogic] states the laws a state invariant and
      a transition relation must satisfy on the primitive steps (the classes
      [EngineBase] and [EngineLogic]) and derives that every operation, every
      interleaving of user code and every panic keeps them.  [EngineInv] and
      [EngineQuiet] are its instances: structural invariants and terminal-is-
      forever; and that nothing is left in flight between calls.  [EngineFuel]
      proves the fuel irrelevant.
    - Single operations ([EngineSpec]): two-phase delivery of a source, rejected
      waves and directions, panic containment, batch capture, the boundary queue,
      acyclicity of accepted rewires.
    - A whole network ([Phases], [EngineRun], [Spreadsheet]): on any acyclic
      network of derived nodes built by the engine, one write from outside is one
      evaluation of the network's equations, each affected node computing once
      and its sinks seeing one DIRTY and one value; any sequence of writes ends,
      and leaves every node at the value of its equation.  [SpreadsheetExample]
      runs it.
    - Whole programs ([Scenarios]), with the node functions and the values left
      abstract: diamonds, batches, pauses, panics, feedback, rewires; and two
      behaviours at odds with the code's own comments, [data_after_complete] and
      [hook_defeats_cycle_check].

    - JSON ([JsonAccept], [JsonCanon]): scanning ends on every input, canonical
      text passes every check, strict decoding inverts strict encoding and accepts
      nothing else, canonical bytes identify values.
    - Storage ([StorageFacts], [AppendLogFacts]): file names identify keys, the
      in-memory tier is a map, versioned writes detect every conflict, and an
      append log over any map-like tier is the list of the values appended.
    - Files ([FileBackendFacts]): whatever calls fail and wherever a process dies,
      the backends of one directory are one map from namespace and key to content:
      an operation has happened whole or not at all, and an answer or an error
      tells which; and where the calls work the operations answer.
    - Lookups and frames ([ReadThroughFacts], [EnvelopesFacts]): a lookup takes its
      tiers in order, an error does not stop it, and a promotion never overwrites
      a concurrent write; a content-addressed entry is found by every context that
      says the same; frames, envelopes and events survive their codecs, and a
      checksum belongs to one frame.  [StorageScenarios] runs these.
    - Collections ([CollectionFacts], [CollectionViews]): the changes emitted take
      the buffer before to the buffer after, panicking calls included; snapshot
      nodes and the running fold are current for that reason; and
      [scan_stale_after_batch], where a batch makes the fold lag.
    - Durability ([SidecarFacts], [CollectionPersisted], [Durability]): whatever
      writes fail and whenever the process stops, loading gives the collection
      after a prefix of its changes, and after all of them once flushed.
      [DurabilityExample] runs these theorems on concrete stores.

    - Operators ([OperatorFacts], [CombinatorFacts], [OperatorRun]): over any
      grouping of the values into runs an operator computes the list function it is
      named after; [OperatorScenarios] shows where a terminal in the same wave
      changes that.
    - The bus ([MessageBusFacts]): the retained messages of a topic are a suffix of
      what was published, numbered without holes; a subscriber that is not flagged
      has missed nothing; pages cover.  [MessageBusScenarios] has the runs and a
      hole in the retention.
    - The queue ([WorkQueueFacts]): the works are the replay of the record log;
      leases exclude each other and fence their holders; final works stay final;
      retries are bounded; claims are oldest first; a command runs once.
      [WorkQueueScenarios] runs it.
    - Bus and queue together ([WorkQueueAdmission]): every message from the cursor
      on is admitted once and in order; [WorkQueueAdmissionScenarios] shows that a
      seek back stops the loop.
    - The bridge ([BridgeFacts]): the events node refines a session machine
      ([bstep]): sends are numbered, retries bounded, an envelope is settled once,
      and the status shows the session up to the retry of a CLOSE
      ([close_retry_hides_pending]).  Two bridges over a channel that loses, repeats
      and reorders ([BridgeLink]): what a side receives is a prefix of what the other
      sent, a retry makes progress, and [lost_unpending_wedges] shows what is never
      sent again.  [BridgeScenarios] has the runs.
    - Remote calls ([RemoteCallFacts]): the tables stay consistent, a response
      answers a request, the responder answers the session of its bridge, and a call
      over two quiet bridges comes back with what the handler returned.
      [RemoteCallScenarios] has the runs, a request that is sent again, and an
      aborted handler.
    - The protobuf form ([ProtobufFacts]): reading ends on any bytes, decoding
      inverts encoding, and an envelope has one canonical form, if it passes the
      validator.  [ProtobufScenarios] shows which envelopes of a bridge do: none,
      if the bridge has no clock.
    - Wire edge groups ([WireEdgeFacts], [WireEdgeLink]): the gate releases whole
      cohorts, a cause once as far as it remembers, and of any part of the frames a
      group sends the cohorts that are complete; a frame that comes twice loses its
      cohort, and of several values of one run a later cohort sends the first.
      [WireEdgeScenarios] has the runs.

    ** Not modelled, and planned

    Of the engine's files: the release and restore of a node's runtime for
    checkpoints, the environment and async drivers, worker pools, the JSON form
    of versions, [Debug] impls, and the typed wrappers of [Node].  Of
    data_structures.rs: the reactive map views and the checkpoint serialisation of
    buffers, on which opening a map or an index depends.  Of storage.rs: the
    directories above the one of a file backend.  Of messaging.rs and work_queue.rs: the wiring of nodes into the
    graph and its releases, and the JSON-schema check of a payload.  Of
    resilience.rs: the timeout bundle.  Of adapters/bridge.rs: the
    wiring of the nodes of a bridge, a call and a group.  Of the crate: the graph layer (graph.rs),
    checkpoints, the higher-order operators, time and sources, and the other
    recipes.  The planned order is the graph layer, checkpoints,
    then the recipes. *)

From stdpp Require Import base list option strings numbers.

(** ** Scope and notations *)

Declare Scope rx_scope.
Delimit Scope rx_scope with rx.

(** ** Outcomes

    A Rust call either returns, unwinds with a panic payload, or (in the model
    only) runs out of fuel.  The state survives an unwind: [catch_unwind] sees
    the mutations made before the panic. *)

(** The payload of a panic: the host-boundary abort marker of
    [host_boundary.rs], a [&str] or [String] message, or any other value. *)
Inductive Payload :=
| HostBoundaryAbort
| PanicStr (s : string)
| PanicOther.

#[export] Instance Payload_eq_dec : EqDecision Payload.
Proof. solve_decision. Defined.

Definition is_host_boundary_abort_payload (p : Payload) : bool :=
  match p with HostBoundaryAbort => true | _ => false end.

Inductive Outcome (S A : Type) :=
| Ret (a : A) (s : S)
| Unwind (p : Payload) (s : S)
| OutOfFuel.
Arguments Ret {S A} a s.
Arguments Unwind {S A} p s.
Arguments OutOfFuel {S A}.

Definition M (S A : Type) : Type := S → Outcome S A.

Section Monad.
Context {S : Type}.

Definition ret {A} (a : A) : M S A := λ s, Ret a s.

Definition bind {A B} (m : M S A) (k : A → M S B) : M S B := λ s,
  match m s with
  | Ret a s' => k a s'
  | Unwind p s' => Unwind p s'
  | OutOfFuel => OutOfFuel
  end.

Definition panic {A} (p : Payload) : M S A := λ s, Unwind p s.
Definition no_fuel {A} : M S A := λ _, OutOfFuel.
Definition gets {A} (f : S → A) : M S A := λ s, Ret (f s) s.
Definition modify (f : S → S) : M S unit := λ s, Ret tt (f s).

(** [catch_unwind(AssertUnwindSafe(body))]. *)
Definition catch_unwind {A} (m : M S A) : M S (A + Payload) := λ s,
  match m s with
  | Ret a s' => Ret (inl a) s'
  | Unwind p s' => Ret (inr p) s'
  | OutOfFuel => OutOfFuel
  end.

(** A drop guard: [f] runs when the scope of [m] is left, also by unwinding. *)
Definition with_guard {A} (m : M S A) (f : S → S) : M S A := λ s,
  match m s with
  | Ret a s' => Ret a (f s')
  | Unwind p s' => Unwind p (f s')
  | OutOfFuel => OutOfFuel
  end.

Definition assert_or (b : bool) (msg : string) : M S unit :=
  if b then ret tt else panic (PanicStr msg).

Definition expect {A} (o : option A) (msg : string) : M S A :=
  match o with Some a => ret a | None => panic (PanicStr msg) end.

Definition when (b : bool) (m : M S unit) : M S unit :=
  if b then m else ret tt.

Fixpoint for_each {A} (l : list A) (f : A → M S unit) : M S unit :=
  match l with
  | [] => ret tt
  | a :: l' => bind (f a) (λ _, for_each l' f)
  end.

(** A loop that threads a local accumulator. *)
Fixpoint fold_each {A B} (l : list A) (f : B → A → M S B) (b : B) : M S B :=
  match l with
  | [] => ret b
  | a :: l' => bind (f b a) (fold_each l' f)
  end.

(** An operation on a part of the state: a method of a field. *)
Definition zoom {T A} (get : S → T) (set : T → S → S) (m : M T A) : M S A := λ s,
  match m (get s) with
  | Ret a t => Ret a (set t s)
  | Unwind p t => Unwind p (set t s)
  | OutOfFuel => OutOfFuel
  end.
End Monad.

(** ** Results *)

(** [Result<A, E>]. *)
Inductive Result (E A : Type) :=
| Ok (a : A)
| Err (e : E).
Arguments Ok {E A} a.
Arguments Err {E A} e.

#[export] Instance Result_eq_dec {E A} `{EqDecision E, EqDecision A} : EqDecision (Result E A).
Proof. solve_decision. Defined.

Definition rbind {E A B} (r : Result E A) (k : A → Result E B) : Result E B :=
  match r with Ok a => k a | Err e => Err e end.

(** The [?] operator inside a stateful function that returns a [Result]. *)
Definition mrbind {S E A B} (m : M S (Result E A)) (k : A → M S (Result E B)) :
  M S (Result E B) :=
  bind m (λ r, match r with Ok a => k a | Err e => ret (Err e) end).

(** [collect::<Result<Vec<_>, _>>()] of a mapped iterator: stops at the first error. *)
Fixpoint try_map {E A B} (f : A → Result E B) (l : list A) : Result E (list B) :=
  match l with
  | [] => Ok []
  | a :: l' => rbind (f a) (λ b, rbind (try_map f l') (λ bs, Ok (b :: bs)))
  end.

(** A loop with an early return of an error. *)
Fixpoint try_fold {E A B} (f : B → A → Result E B) (b : B) (l : list A) : Result E B :=
  match l with
  | [] => Ok b
  | a :: l' => rbind (f b a) (λ b', try_fold f b' l')
  end.

Lemma for_each_app {S A} (l1 l2 : list A) (f : A → M S unit) s :
  for_each (l1 ++ l2) f s = bind (for_each l1 f) (λ _, for_each l2 f) s.
Proof.
  revert s. induction l1 as [|a l1 IH]; intros s; [done|]. simpl. unfold bind in *.
  destruct (f a s); [apply IH|done..].
Qed.

(** Running a step whose outcome is known. *)
Lemma bind_step {S A B} (m : M S A) (k : A → M S B) s a s' :
  m s = Ret a s' → bind m k s = k a s'.
Proof. unfold bind. by intros ->. Qed.

Lemma mrbind_step {S E A B} (m : M S (Result E A)) (k : A → M S (Result E B)) s a s' :
  m s = Ret (Ok a) s' → mrbind m k s = k a s'.
Proof. unfold mrbind, bind. by intros ->. Qed.

Lemma mrbind_err {S E A B} (m : M S (Result E A)) (k : A → M S (Result E B)) s e s' :
  m s = Ret (Err e) s' → mrbind m k s = Ret (Err e) s'.
Proof. unfold mrbind, bind. by intros ->. Qed.

Lemma try_fold_app {E A B} (f : B → A → Result E B) b l1 l2 :
  try_fold f b (l1 ++ l2) = rbind (try_fold f b l1) (λ b', try_fold f b' l2).
Proof.
  revert b. induction l1 as [|a l1 IH]; intros b; simpl; [done|].
  destruct (f b a); simpl; [apply IH|done].
Qed.

Notation "'let?' x := r 'in' k" := (rbind r (λ x, k))
  (at level 10, x pattern, r at level 200, k at level 200) : rx_scope.
Notation "'let!?' x := m 'in' k" := (mrbind m (λ x, k))
  (at level 10, x pattern, m at level 200, k at level 200) : rx_scope.

Notation "'let!' x := m 'in' k" := (bind m (λ x, k))
  (at level 10, x pattern, m at level 200, k at level 200) : rx_scope.
Notation "m ;;; k" := (bind m (λ _, k))
  (at level 100, k at level 200, right associativity) : rx_scope.

(** ** Partial-correctness judgements

    [post m s Q E]: if [m] from [s] returns then [Q] holds, if it unwinds then
    [E] holds.  Running out of fuel is excluded by separate theorems. *)

Section Post.
Context {S : Type}.

Definition post {A} (m : M S A) (s : S) (Q : A → S → Prop) (E : Payload → S → Prop) : Prop :=
  match m s with
  | Ret a s' => Q a s'
  | Unwind p s' => E p s'
  | OutOfFuel => True
  end.

Lemma post_bind {A B} (m : M S A) (k : A → M S B) s Q E :
  post m s (λ a s', post (k a) s' Q E) E → post (bind m k) s Q E.
Proof. unfold post, bind. by destruct (m s). Qed.

Lemma post_gets {A B} (f : S → A) (k : A → M S B) s Q E :
  post (k (f s)) s Q E → post (bind (gets f) k) s Q E.
Proof. done. Qed.

Lemma post_modify {B} f (k : unit → M S B) s Q E :
  post (k tt) (f s) Q E → post (bind (modify f) k) s Q E.
Proof. done. Qed.

Lemma post_conseq {A} (m : M S A) s (Q Q' : A → S → Prop) (E E' : Payload → S → Prop) :
  post m s Q E → (∀ a s', Q a s' → Q' a s') → (∀ p s', E p s' → E' p s') → post m s Q' E'.
Proof. unfold post. destruct (m s); eauto. Qed.

Lemma post_catch {A} (m : M S A) s Q E :
  post m s (λ a s', Q (inl a) s') (λ p s', Q (inr p) s') → post (catch_unwind m) s Q E.
Proof. unfold post, catch_unwind. by destruct (m s). Qed.

Lemma post_guard {A} (m : M S A) f s (Q : A → S → Prop) (E : Payload → S → Prop) :
  post m s (λ a s', Q a (f s')) (λ p s', E p (f s')) → post (with_guard m f) s Q E.
Proof. unfold post, with_guard. by destruct (m s). Qed.
End Post.

(** [total m s Q]: [m] from [s] returns, and [Q] holds then. *)
Section Total.
Context {S : Type}.

Definition total {A} (m : M S A) (s : S) (Q : A → S → Prop) : Prop :=
  match m s with Ret a s' => Q a s' | _ => False end.

Lemma total_ret {A} (a : A) s (Q : A → S → Prop) : Q a s → total (ret a) s Q.
Proof. done. Qed.

Lemma total_bind {A B} (m : M S A) (k : A → M S B) s Q :
  total m s (λ a s', total (k a) s' Q) → total (bind m k) s Q.
Proof. unfold total, bind. by destruct (m s). Qed.

Lemma total_mrbind {E A B} (m : M S (Result E A)) (k : A → M S (Result E B)) s Q :
  total m s (λ r s', match r with Ok a => total (k a) s' Q | Err e => Q (Err e) s' end) →
  total (mrbind m k) s Q.
Proof. unfold total, mrbind, bind, ret. destruct (m s) as [[a|e] s'| |]; done. Qed.

Lemma total_step {A B} (m : M S A) (k : A → M S B) s a s' Q :
  m s = Ret a s' → total (k a) s' Q → total (bind m k) s Q.
Proof. intros Hm. unfold total. by rewrite (bind_step _ _ _ _ _ Hm). Qed.

Lemma total_ok {E A B} (m : M S (Result E A)) (k : A → M S (Result E B)) s a s' Q :
  m s = Ret (Ok a) s' → total (k a) s' Q → total (mrbind m k) s Q.
Proof. intros Hm. unfold total. by rewrite (mrbind_step _ _ _ _ _ Hm). Qed.

Lemma total_err {E A B} (m : M S (Result E A)) (k : A → M S (Result E B)) s e s' (Q : Result E B → S → Prop) :
  m s = Ret (Err e) s' → Q (Err e) s' → total (mrbind m k) s Q.
Proof. intros Hm. unfold total. by rewrite (mrbind_err _ _ _ _ _ Hm). Qed.

Lemma total_conseq {A} (m : M S A) s (Q Q' : A → S → Prop) :
  total m s Q → (∀ a s', Q a s' → Q' a s') → total m s Q'.
Proof. unfold total. destruct (m s); eauto. Qed.
End Total.

(** [ok I R m]: from every state satisfying the invariant [I], [m] ends (by
    returning or by unwinding) in a state that satisfies [I] and is related by
    [R] to the initial one. *)
Section Ok.
Context {S : Type} (I : S → Prop) (R : S → S → Prop).

Definition ok {A} (m : M S A) : Prop :=
  ∀ s, I s → post m s (λ _ s', I s' ∧ R s s') (λ _ s', I s' ∧ R s s').

Context `{!PreOrder R}.

Lemma ok_ret {A} (a : A) : ok (ret a).
Proof. intros s Hs. by split. Qed.

Lemma ok_panic {A} p : ok (@panic S A p).
Proof. intros s Hs. by split. Qed.

Lemma ok_no_fuel {A} : ok (@no_fuel S A).
Proof. by intros s Hs. Qed.

Lemma ok_gets {A} (f : S → A) : ok (gets f).
Proof. intros s Hs. by split. Qed.

Lemma ok_modify f : (∀ s, I s → I (f s) ∧ R s (f s)) → ok (modify f).
Proof. intros H s Hs. by apply H. Qed.

Lemma ok_bind {A B} (m : M S A) (k : A → M S B) :
  ok m → (∀ a, ok (k a)) → ok (bind m k).
Proof.
  intros Hm Hk s Hs. apply post_bind. eapply post_conseq; [by apply Hm| |done].
  intros a s' [Hs' HR]. eapply post_conseq; [by apply Hk|..];
    (intros ?? [??]; split; [done|by etrans]).
Qed.

Lemma ok_catch {A} (m : M S A) : ok m → ok (catch_unwind m).
Proof. intros Hm s Hs. apply post_catch. by apply Hm. Qed.

Lemma ok_guard {A} (m : M S A) f :
  ok m → (∀ s, I s → I (f s) ∧ R s (f s)) → ok (with_guard m f).
Proof.
  intros Hm Hf s Hs. apply post_guard.
  eapply post_conseq; [by apply Hm|..];
    (intros ?? [Hi Hr]; destruct (Hf _ Hi); split; [done|by etrans]).
Qed.

(** Sequencing an [ok] step inside a direct proof of a postcondition; [s0] is
    the state the relation is counted from. *)
Lemma post_ok {A} (m : M S A) s0 s :
  ok m → I s → R s0 s → post m s (λ _ s', I s' ∧ R s0 s') (λ _ s', I s' ∧ R s0 s').
Proof.
  intros Hm Hs HR. eapply post_conseq; [by apply Hm|..];
    (intros ?? [??]; split; [done|by etrans]).
Qed.

Lemma post_ok_bind {A B} (m : M S A) (k : A → M S B) s0 s Q E :
  ok m → I s → R s0 s → (∀ a s', I s' → R s0 s' → post (k a) s' Q E) →
  (∀ p s', I s' → R s0 s' → E p s') → post (bind m k) s Q E.
Proof.
  intros Hm Hs HR Hk HE. apply post_bind. eapply post_conseq; [by eapply post_ok|..];
    intros ?? [??]; auto.
Qed.

Lemma post_ok_catch {A B} (m : M S A) (k : A + Payload → M S B) s0 s Q E :
  ok m → I s → R s0 s → (∀ r s', I s' → R s0 s' → post (k r) s' Q E) →
  post (bind (catch_unwind m) k) s Q E.
Proof.
  intros Hm Hs HR Hk. apply post_bind, post_catch. eapply post_conseq; [by eapply post_ok|..];
    intros ?? [??]; auto.
Qed.

Lemma ok_assert b msg : ok (assert_or b msg).
Proof. unfold assert_or. destruct b; [apply ok_ret|apply ok_panic]. Qed.

Lemma ok_expect {A} (o : option A) msg : ok (expect o msg).
Proof. unfold expect. destruct o; [apply ok_ret|apply ok_panic]. Qed.

Lemma ok_when b (m : M S unit) : ok m → ok (when b m).
Proof. unfold when. destruct b; [done|intros; apply ok_ret]. Qed.

Lemma ok_for_each {A} (l : list A) f : (∀ a, ok (f a)) → ok (for_each l f).
Proof. intros Hf. induction l; simpl; [apply ok_ret|by apply ok_bind]. Qed.

Lemma ok_fold_each {A B} (l : list A) (f : B → A → M S B) b :
  (∀ b a, ok (f b a)) → ok (fold_each l f b).
Proof. intros Hf. revert b. induction l; intros b; simpl; [apply ok_ret|by apply ok_bind]. Qed.
End Ok.

(** The structural rules of [ok], for [eauto] and the tactic [ok_step]. *)
Create HintDb rx_ok discriminated.
#[export] Hint Constants Opaque : rx_ok.

Ltac ok_step :=
  lazymatch goal with
  | |- ok _ _ (bind _ _) => apply ok_bind; [exact _| |intros ?]
  | |- ok _ _ (ret _) => apply ok_ret; exact _
  | |- ok _ _ (panic _) => apply ok_panic; exact _
  | |- ok _ _ no_fuel => apply ok_no_fuel
  | |- ok _ _ (gets _) => apply ok_gets; exact _
  | |- ok _ _ (catch_unwind _) => apply ok_catch
  | |- ok _ _ (assert_or _ _) => apply ok_assert; exact _
  | |- ok _ _ (expect _ _) => apply ok_expect; exact _
  | |- ok _ _ (when _ _) => apply ok_when; [exact _|]
  | |- ok _ _ (for_each _ _) => apply ok_for_each; [exact _|intros ?]
  | |- ok _ _ (fold_each _ _ _) => apply ok_fold_each; [exact _|intros ??]
  | |- ok _ _ (match ?x with _ => _ end) => destruct x
  | |- ok _ _ (let '(_, _) := ?x in _) => destruct x
  end.

(** ** Fuel

    [approx m m']: [m'] returns what [m] returns whenever [m] has enough fuel. *)
Section Approx.
Context {S : Type}.

Definition approx {A} (m m' : M S A) : Prop := ∀ s, m s = OutOfFuel ∨ m' s = m s.

Lemma approx_refl {A} (m : M S A) : approx m m.
Proof. intros s. by right. Qed.

Lemma approx_no_fuel {A} (m : M S A) : approx no_fuel m.
Proof. intros s. by left. Qed.

Lemma approx_bind {A B} (m m' : M S A) (k k' : A → M S B) :
  approx m m' → (∀ a, approx (k a) (k' a)) → approx (bind m k) (bind m' k').
Proof.
  intros Hm Hk s. unfold bind. destruct (Hm s) as [->| ->]; [by left|].
  destruct (m s); [apply Hk|by right..].
Qed.

Lemma approx_catch {A} (m m' : M S A) : approx m m' → approx (catch_unwind m) (catch_unwind m').
Proof.
  intros Hm s. unfold catch_unwind. destruct (Hm s) as [->| ->]; [by left|]. by right.
Qed.

Lemma approx_guard {A} (m m' : M S A) f : approx m m' → approx (with_guard m f) (with_guard m' f).
Proof.
  intros Hm s. unfold with_guard. destruct (Hm s) as [->| ->]; [by left|]. by right.
Qed.

Lemma approx_when b (m m' : M S unit) : approx m m' → approx (when b m) (when b m').
Proof. destruct b; [done|intros; apply approx_refl]. Qed.

Lemma approx_for_each {A} (l : list A) f f' :
  (∀ a, approx (f a) (f' a)) → approx (for_each l f) (for_each l f').
Proof. intros Hf. induction l; simpl; [apply approx_refl|by apply approx_bind]. Qed.

Lemma approx_fold_each {A B} (l : list A) (f f' : B → A → M S B) b :
  (∀ b a, approx (f b a) (f' b a)) → approx (fold_each l f b) (fold_each l f' b).
Proof.
  intros Hf. revert b. induction l; intros b; simpl; [apply approx_refl|by apply approx_bind].
Qed.
End Approx.

Create HintDb rx_approx discriminated.

(** One structural step of an approximation proof; [approx_auto] repeats it and
    uses the operations already proved. *)
Ltac approx_step :=
  lazymatch goal with
  | |- approx ?m ?m => apply approx_refl
  | |- approx (bind _ _) (bind _ _) => apply approx_bind; [|intros ?]
  | |- approx (catch_unwind _) _ => apply approx_catch
  | |- approx (with_guard _ _) _ => apply approx_guard
  | |- approx (when _ _) _ => apply approx_when
  | |- approx (for_each _ _) _ => apply approx_for_each; intros ?
  | |- approx (fold_each _ _ _) _ => apply approx_fold_each; intros ??
  | |- approx (match ?x with _ => _ end) _ => destruct x
  end.
Ltac approx_rec :=
  lazymatch goal with
  | |- approx (?r ?t) (?r' ?t) => is_var r; match goal with H : _ |- _ => exact (H t) end
  end.
Ltac approx_auto := repeat first [solve [auto with rx_approx nocore] | approx_rec | approx_step].

(** ** Options *)

Definition is_some {A} (o : option A) : bool := match o with Some _ => true | None => false end.

(** ** Lists as Rust vectors *)

(** [vec.fill] of the first [n] cells. *)
Definition fill_n {A} (n : nat) (x : A) (l : list A) : list A :=
  replicate (min n (length l)) x ++ drop n l.

Lemma length_fill_n {A} n (x : A) l : length (fill_n n x l) = length l.
Proof. unfold fill_n. rewrite length_app, length_replicate, length_drop. lia. Qed.

Lemma fill_n_all {A} (x : A) l : fill_n (length l) x l = replicate (length l) x.
Proof. unfold fill_n. rewrite drop_all, app_nil_r, Nat.min_id. done. Qed.

Lemma fill_n_len {A} k (x : A) l : length l = k → fill_n k x l = replicate k x.
Proof. intros <-. apply fill_n_all. Qed.

(** [iter().filter(p).count()]. *)
Definition count_if {A} (p : A → bool) (l : list A) : nat := length (List.filter p l).

(** Number of [true] cells of a flag vector. *)
Definition count_true (l : list bool) : nat := count_if (λ b, b) l.

Lemma count_true_app l1 l2 : count_true (l1 ++ l2) = count_true l1 + count_true l2.
Proof. unfold count_true, count_if. by rewrite List.filter_app, length_app. Qed.

Lemma count_true_insert_false l i :
  l !! i = Some true → S (count_true (<[i:=false]> l)) = count_true l.
Proof.
  revert i. induction l as [|b l IH]; intros [|i] H; simplify_eq/=; [done|].
  apply IH in H. unfold count_true, count_if in *. destruct b; simpl; lia.
Qed.

Lemma count_true_insert_true l i :
  l !! i = Some false → count_true (<[i:=true]> l) = S (count_true l).
Proof.
  revert i. induction l as [|b l IH]; intros [|i] H; simplify_eq/=; [done|].
  apply IH in H. unfold count_true, count_if in *. destruct b; simpl; lia.
Qed.

Lemma count_true_replicate_false n : count_true (replicate n false) = 0.
Proof. induction n; [done|]. exact IHn. Qed.

Lemma count_true_le_length l : count_true l ≤ length l.
Proof. unfold count_true, count_if. apply List.filter_length_le. Qed.

(** [Vec::position] / [iter().position(p)]. *)
Fixpoint position {A} (p : A → bool) (l : list A) : option nat :=
  match l with
  | [] => None
  | a :: l' => if p a then Some 0 else S <$> position p l'
  end.

Lemma position_Some {A} (p : A → bool) l i :
  position p l = Some i → ∃ a, l !! i = Some a ∧ p a = true.
Proof.
  revert i. induction l as [|a l IH]; intros i H; simplify_eq/=.
  destruct (p a) eqn:Hp; simplify_eq/=; [by exists a|].
  destruct (position p l) eqn:Hl; simplify_eq/=. by apply IH.
Qed.

Lemma position_None {A} (p : A → bool) l :
  position p l = None → ∀ a, a ∈ l → p a = false.
Proof.
  induction l as [|a l IH]; simpl; intros H b Hb; [by apply elem_of_nil in Hb|].
  destruct (p a) eqn:Hp; [done|]. destruct (position p l); [done|].
  apply elem_of_cons in Hb as [->|Hb]; eauto.
Qed.

(** Case analysis on the first match or conditional in the goal. *)
Ltac case_split :=
  match goal with
  | |- context [match ?x with _ => _ end] => destruct x eqn:?
  end.
