(* ===== verification/BTree.v ===== *)
(** * Ordered keys and the standard ordered map

    The part of [std::collections::BTreeMap] the collections use, as strictly
    sorted association lists, and a stable sort by a comparator
    ([slice::sort_by]). *)

From stdpp Require Import base option list.
From Stdlib Require Import Sorted.
From S2P Require Import Prelude.

(** [Ord], agreeing with equality. *)
Class OrdKey (K : Type) := {
  key_cmp : K → K → comparison;
  key_cmp_eq : ∀ a b, key_cmp a b = Eq ↔ a = b;
  key_cmp_sym : ∀ a b, key_cmp b a = CompOpp (key_cmp a b);
  key_cmp_trans : ∀ a b c, key_cmp a b = Lt → key_cmp b c = Lt → key_cmp a c = Lt
}.

Section Ord.
Context {K : Type} `{!OrdKey K}.

#[export] Instance ord_eq_dec : EqDecision K.
Proof.
  intros a b. destruct (key_cmp a b) eqn:H.
  - left. by apply key_cmp_eq.
  - right. intros Hab%key_cmp_eq. congruence.
  - right. intros Hab%key_cmp_eq. congruence.
Defined.

Definition key_lt (a b : K) : bool := match key_cmp a b with Lt => true | _ => false end.
Definition key_le (a b : K) : bool := match key_cmp a b with Gt => false | _ => true end.

Lemma key_cmp_refl a : key_cmp a a = Eq.
Proof. by apply key_cmp_eq. Qed.

Lemma key_cmp_lt_irrefl a : key_cmp a a ≠ Lt.
Proof. by rewrite key_cmp_refl. Qed.

Lemma key_cmp_gt a b : key_cmp a b = Gt ↔ key_cmp b a = Lt.
Proof. rewrite (key_cmp_sym a b). by destruct (key_cmp a b). Qed.
End Ord.

(** ** The map *)

Definition BTree (K V : Type) : Type := list (K * V).

Section OrderedMap.
Context {K V : Type} `{!OrdKey K}.
Implicit Types m : BTree K V.

Fixpoint bt_get (k : K) m : option V :=
  match m with
  | [] => None
  | (k', v) :: m' => if decide (k = k') then Some v else bt_get k m'
  end.

Fixpoint bt_insert (k : K) (v : V) m : BTree K V :=
  match m with
  | [] => [(k, v)]
  | (k', v') :: m' =>
      match key_cmp k k' with
      | Lt => (k, v) :: m
      | Eq => (k, v) :: m'
      | Gt => (k', v') :: bt_insert k v m'
      end
  end.

Fixpoint bt_remove (k : K) m : BTree K V :=
  match m with
  | [] => []
  | (k', v') :: m' => if decide (k = k') then m' else (k', v') :: bt_remove k m'
  end.

(** [collect::<BTreeMap<_, _>>()]: a later entry replaces an earlier one. *)
Definition bt_of_list (l : list (K * V)) : BTree K V :=
  foldl (λ m kv, bt_insert kv.1 kv.2 m) [] l.

(** [range(start..end)]. *)
Definition bt_range (lo hi : K) m : list (K * V) :=
  List.filter (λ kv, key_le lo kv.1 && key_lt kv.1 hi) m.

(** The keys increase strictly. *)
Definition bt_wf m : Prop := StronglySorted (λ a b, key_cmp a.1 b.1 = Lt) m.

Lemma bt_get_insert k v m : bt_get k (bt_insert k v m) = Some v.
Proof.
  induction m as [|[k' v'] m IH]; simpl; [by rewrite decide_True|].
  destruct (key_cmp k k') eqn:Hc; simpl; [by rewrite decide_True..|].
  rewrite decide_False; [done|]. intros <-. by rewrite key_cmp_refl in Hc.
Qed.

Lemma bt_get_insert_ne k k' v m : k ≠ k' → bt_get k (bt_insert k' v m) = bt_get k m.
Proof.
  intros Hne. induction m as [|[k2 v2] m IH]; simpl; [by rewrite decide_False|].
  destruct (key_cmp k' k2) eqn:Hc; simpl.
  - apply key_cmp_eq in Hc as <-. by rewrite !decide_False.
  - by rewrite (decide_False (P := k = k')).
  - by rewrite IH.
Qed.

Lemma bt_lookup_insert k k' v m : bt_get k (bt_insert k' v m) = if decide (k = k') then Some v else bt_get k m.
Proof. case_decide as Hk; [subst; apply bt_get_insert|by apply bt_get_insert_ne]. Qed.

Lemma bt_insert_insert k v v' m : bt_insert k v (bt_insert k v' m) = bt_insert k v m.
Proof.
  induction m as [|[k2 v2] m IH]; simpl; [by rewrite key_cmp_refl|].
  destruct (key_cmp k k2) eqn:Hc; simpl; rewrite ?key_cmp_refl, ?Hc; [done..|by rewrite IH].
Qed.

(** Mapping the values keeps the keys. *)
Lemma bt_get_map (f : V → V) k m : bt_get k ((λ kv, (kv.1, f kv.2)) <$> m) = f <$> bt_get k m.
Proof. induction m as [|[k' v'] m IH]; simpl; [done|]. by case_decide. Qed.

Lemma bt_map_wf (f : V → V) m : bt_wf m → bt_wf ((λ kv, (kv.1, f kv.2)) <$> m).
Proof.
  unfold bt_wf. induction 1 as [|[k v] m Hm IH Hall]; simpl; constructor; [done|].
  apply Forall_fmap. eapply Forall_impl; [exact Hall|]. by intros [].
Qed.

Lemma bt_insert_forall (P : K * V → Prop) k v m :
  P (k, v) → Forall P m → Forall P (bt_insert k v m).
Proof.
  intros Hp. induction 1 as [|[k' v'] m Hx Hm IH]; simpl; [by constructor|].
  destruct (key_cmp k k'); repeat (constructor; try done).
Qed.

Lemma bt_insert_wf k v m : bt_wf m → bt_wf (bt_insert k v m).
Proof.
  unfold bt_wf. induction 1 as [|[k' v'] m Hm IH Hall]; simpl; [repeat constructor|].
  destruct (key_cmp k k') eqn:Hc.
  - apply key_cmp_eq in Hc as <-. by constructor.
  - constructor; [by constructor|]. constructor; [done|].
    eapply Forall_impl; [exact Hall|]. intros [k2 v2] H2. simpl in *. by eapply key_cmp_trans.
  - constructor; [done|]. apply bt_insert_forall; [by apply key_cmp_gt|done].
Qed.

Lemma bt_of_list_wf l : bt_wf (bt_of_list l).
Proof.
  unfold bt_of_list. cut (∀ m, bt_wf m → bt_wf (foldl (λ m kv, bt_insert kv.1 kv.2 m) m l)).
  { intros Hc. apply Hc. constructor. }
  induction l as [|[k v] l IH]; intros m Hm; [done|]. apply IH. by apply bt_insert_wf.
Qed.

Lemma bt_remove_forall (P : K * V → Prop) k m : Forall P m → Forall P (bt_remove k m).
Proof. induction 1 as [|[k' v'] m Hx Hm IH]; simpl; [done|]. case_decide; [done|by constructor]. Qed.

Lemma bt_remove_wf k m : bt_wf m → bt_wf (bt_remove k m).
Proof.
  unfold bt_wf. induction 1 as [|[k' v'] m Hm IH Hall]; simpl; [constructor|].
  case_decide; [done|]. constructor; [done|]. by apply bt_remove_forall.
Qed.

Lemma bt_remove_absent k m : bt_get k m = None → bt_remove k m = m.
Proof.
  induction m as [|[k' v'] m IH]; simpl; [done|]. case_decide; [done|]. intros Hg. by rewrite IH.
Qed.

Lemma bt_get_none k m : Forall (λ kv, key_cmp k kv.1 = Lt) m → bt_get k m = None.
Proof.
  induction 1 as [|[k' v'] m Hx Hm IH]; simpl in *; [done|]. rewrite decide_False; [done|].
  intros <-. by apply key_cmp_lt_irrefl in Hx.
Qed.

Lemma bt_get_remove k m : bt_wf m → bt_get k (bt_remove k m) = None.
Proof.
  induction 1 as [|[k' v'] m Hm IH Hall]; simpl; [done|].
  case_decide as Hk; [subst; by apply bt_get_none|]. simpl. by rewrite decide_False.
Qed.

Lemma bt_get_remove_ne k k' m : k ≠ k' → bt_get k (bt_remove k' m) = bt_get k m.
Proof.
  intros Hne. induction m as [|[k2 v2] m IH]; simpl; [done|].
  case_decide as Hk; simpl; [subst; by rewrite decide_False|]. by rewrite IH.
Qed.

(** A well-formed map is determined by its lookups. *)
Lemma bt_ext m m' : bt_wf m → bt_wf m' → (∀ k, bt_get k m = bt_get k m') → m = m'.
Proof.
  intros Hm. revert m'. induction Hm as [|[k v] m Hm IH Hall]; intros m' Hm' Hg.
  - destruct m' as [|[k' v'] m']; [done|]. specialize (Hg k'). simpl in Hg. by rewrite decide_True in Hg.
  - destruct Hm' as [|[k' v'] m' Hm' Hall'].
    { specialize (Hg k). simpl in Hg. by rewrite decide_True in Hg. }
    assert (k = k') as <-.
    { destruct (decide (k = k')) as [|Hk]; [done|]. pose proof (Hg k) as H1. pose proof (Hg k') as H2.
      simpl in H1, H2. rewrite decide_True, decide_False in H1 by done.
      rewrite decide_False, decide_True in H2 by done. exfalso.
      destruct (key_cmp k k') eqn:Hc; [by apply key_cmp_eq in Hc|..].
      - rewrite bt_get_none in H1; [done|]. eapply Forall_impl; [exact Hall'|].
        intros [k2 v2] Hx. simpl in *. by eapply key_cmp_trans.
      - apply key_cmp_gt in Hc. rewrite bt_get_none in H2; [done|].
        eapply Forall_impl; [exact Hall|]. intros [k2 v2] Hx. simpl in *. by eapply key_cmp_trans. }
    f_equal.
    + specialize (Hg k). simpl in Hg. rewrite !decide_True in Hg by done. by injection Hg as ->.
    + apply IH; [done|]. intros k2. specialize (Hg k2). simpl in Hg. case_decide as Hk; [|done].
      subst. by rewrite !bt_get_none.
Qed.

Lemma bt_get_range lo hi k m :
  bt_get k (bt_range lo hi m) = if key_le lo k && key_lt k hi then bt_get k m else None.
Proof.
  induction m as [|[k' v'] m IH]; simpl; [by case_match|].
  destruct (key_le lo k' && key_lt k' hi) eqn:Hr; simpl; rewrite IH.
  - case_decide as Hk; [|done]. subst. by rewrite Hr.
  - case_decide as Hk; [|done]. subst. rewrite Hr. done.
Qed.

Lemma bt_get_elem k v m : bt_get k m = Some v → (k, v) ∈ m.
Proof.
  induction m as [|[k' v'] m IH]; simpl; [done|].
  case_decide; [intros [= ->]; subst; by left|]. intros Hg. right. by apply IH.
Qed.

Lemma bt_elem_get k v m : bt_wf m → (k, v) ∈ m → bt_get k m = Some v.
Proof.
  induction 1 as [|[k' v'] m Hm IH Hall]; simpl; [by intros ?%elem_of_nil|].
  intros [[= -> ->]|Hin]%elem_of_cons; [by rewrite decide_True|].
  rewrite decide_False; [by apply IH|]. intros ->. rewrite Forall_forall in Hall.
  apply (key_cmp_lt_irrefl k'). by apply (Hall (k', v)).
Qed.

Lemma bt_wf_nodup m : bt_wf m → NoDup m.*1.
Proof.
  induction 1 as [|[k v] m Hm IH Hall]; simpl; [constructor|]. constructor; [|done].
  intros ([k' v'] & -> & Hin)%list_elem_of_fmap. rewrite Forall_forall in Hall.
  by apply (key_cmp_lt_irrefl k'), (Hall (k', v')).
Qed.

(** Collecting a list without duplicate keys keeps every entry. *)
Lemma bt_get_of_list l k : NoDup l.*1 → bt_get k (bt_of_list l) = bt_get k l.
Proof.
  unfold bt_of_list. intros Hnd.
  cut (∀ m, bt_get k (foldl (λ m kv, bt_insert kv.1 kv.2 m) m l)
            = match bt_get k l with Some v => Some v | None => bt_get k m end).
  { intros ->. simpl. by destruct (bt_get k l). }
  induction l as [|[k' v'] l IH]; intros m; simpl; [done|].
  apply NoDup_cons in Hnd as [Hk Hnd]. rewrite (IH Hnd). simpl.
  case_decide as Hkk; [|by rewrite bt_get_insert_ne].
  subst. rewrite bt_get_insert. destruct (bt_get k' l) as [v2|] eqn:H2; [|done].
  exfalso. apply Hk. apply bt_get_elem in H2. by apply (list_elem_of_fmap_2' fst l (k', v2)).
Qed.

Lemma bt_of_list_id m : bt_wf m → bt_of_list m = m.
Proof.
  intros Hm. apply bt_ext; [apply bt_of_list_wf|done|]. intros k. apply bt_get_of_list.
  by apply bt_wf_nodup.
Qed.
End OrderedMap.

(** ** A stable sort *)

Section Sort.
Context {A : Type} (cmp : A → A → comparison).

(** [x] goes before the first element that is strictly greater. *)
Fixpoint sort_insert (x : A) (l : list A) : list A :=
  match l with
  | [] => [x]
  | y :: l' => match cmp x y with Gt => y :: sort_insert x l' | _ => x :: l end
  end.

Definition sort_by (l : list A) : list A := foldr sort_insert [] l.

Lemma sort_insert_perm x l : sort_insert x l ≡ₚ x :: l.
Proof.
  induction l as [|y l IH]; simpl; [done|]. destruct (cmp x y); [done..|].
  rewrite IH. by constructor.
Qed.

Lemma sort_by_perm l : sort_by l ≡ₚ l.
Proof. induction l as [|x l IH]; simpl; [done|]. by rewrite sort_insert_perm, IH. Qed.

Definition cmp_le (a b : A) : Prop := cmp a b ≠ Gt.

Lemma sort_insert_sorted x l :
  (∀ a b, cmp b a = CompOpp (cmp a b)) → (∀ a b c, cmp_le a b → cmp_le b c → cmp_le a c) →
  StronglySorted cmp_le l → StronglySorted cmp_le (sort_insert x l).
Proof.
  intros Hsym Htr. induction 1 as [|y l Hl IH Hall]; simpl; [repeat constructor|].
  assert (cmp_le x y → Forall (cmp_le x) (y :: l)) as Hle.
  { intros Hxy. constructor; [done|]. eapply Forall_impl; [exact Hall|]. intros z Hz. by eapply Htr. }
  destruct (cmp x y) eqn:Hc; [constructor; [by constructor|apply Hle; unfold cmp_le; congruence]..|].
  constructor; [done|]. rewrite sort_insert_perm. constructor; [|done].
  unfold cmp_le. by rewrite (Hsym x y), Hc.
Qed.

Lemma sort_by_sorted l :
  (∀ a b, cmp b a = CompOpp (cmp a b)) → (∀ a b c, cmp_le a b → cmp_le b c → cmp_le a c) →
  StronglySorted cmp_le (sort_by l).
Proof.
  intros Hsym Htr. induction l as [|x l IH]; simpl; [constructor|]. by apply sort_insert_sorted.
Qed.
End Sort.
