(* ===== verification/Text.v ===== *)
(** * Bytes and decimal text

    Rust strings as byte lists where the code works on bytes, the decimal forms
    of the standard library ([to_string], [parse], [{:020}]) with their round
    trips, and the byte order of [str]. *)

From Stdlib Require Import Ascii String Sorted.
From stdpp Require Import base list option numbers strings.
From S2P Require Import Prelude.
From S2P Require Import BTree.

Notation bytes := (list ascii).

Definition bytes_of (s : string) : bytes := list_ascii_of_string s.
Definition str_of (b : bytes) : string := string_of_list_ascii b.

Lemma bytes_of_str b : bytes_of (str_of b) = b.
Proof. apply list_ascii_of_string_of_list_ascii. Qed.

Lemma str_of_bytes s : str_of (bytes_of s) = s.
Proof. apply string_of_list_ascii_of_string. Qed.

Lemma bytes_of_app s t : bytes_of (s +:+ t) = bytes_of s ++ bytes_of t.
Proof. induction s as [|c s IH]; simpl; [done|]. unfold bytes_of in *. simpl. by rewrite IH. Qed.

#[export] Instance bytes_of_inj : Inj (=) (=) bytes_of.
Proof. intros s t Hst. by rewrite <- (str_of_bytes s), Hst, str_of_bytes. Qed.

(** [str::cmp]: the order of the bytes. *)
Lemma string_compare_trans a b c :
  String.compare a b = Lt → String.compare b c = Lt → String.compare a c = Lt.
Proof.
  revert b c. induction a as [|x a IH]; intros [|y b] [|z c]; simpl; try done.
  unfold Ascii.compare. destruct (N.compare_spec (N_of_ascii x) (N_of_ascii y)) as [Hxy|Hxy|Hxy];
    destruct (N.compare_spec (N_of_ascii y) (N_of_ascii z)) as [Hyz|Hyz|Hyz]; try done; intros Ha Hb.
  - rewrite Hxy, Hyz, N.compare_refl. by eapply IH.
  - rewrite Hxy. by apply N.compare_lt_iff in Hyz as ->.
  - rewrite <- Hyz. by apply N.compare_lt_iff in Hxy as ->.
  - assert (N_of_ascii x < N_of_ascii z)%N as Hxz by lia. by apply N.compare_lt_iff in Hxz as ->.
Qed.

Lemma string_compare_refl a : String.compare a a = Eq.
Proof. induction a as [|x a IH]; simpl; [done|]. unfold Ascii.compare. by rewrite N.compare_refl. Qed.

#[export] Program Instance string_key : OrdKey string := {| key_cmp := String.compare |}.
Next Obligation.
  intros a b. split; [apply String.compare_eq_iff|intros ->; apply string_compare_refl].
Qed.
Next Obligation. intros a b. apply String.compare_antisym. Qed.
Next Obligation. intros a b c. apply string_compare_trans. Qed.

(** [s.starts_with(prefix)] and [s.strip_prefix(prefix)]. *)
Fixpoint strip_prefix (prefix l : bytes) : option bytes :=
  match prefix, l with
  | [], _ => Some l
  | c :: prefix', d :: l' => if decide (c = d) then strip_prefix prefix' l' else None
  | _ :: _, [] => None
  end.

Definition starts_with (prefix l : bytes) : bool := bool_decide (is_Some (strip_prefix prefix l)).

Lemma strip_prefix_app prefix l : strip_prefix prefix (prefix ++ l) = Some l.
Proof. induction prefix as [|c p IH]; simpl; [done|]. by rewrite decide_True. Qed.

Lemma strip_prefix_Some prefix l r : strip_prefix prefix l = Some r ↔ l = prefix ++ r.
Proof.
  split; [|intros ->; apply strip_prefix_app].
  revert l. induction prefix as [|c p IH]; intros [|d l] Hr; simplify_eq/=; [done..|].
  case_decide; [|done]. subst. f_equal. by apply IH.
Qed.

(** ** Decimal digits *)

Definition digit (n : N) : ascii := ascii_of_N (48 + n).
Definition digit_val (c : ascii) : N := N_of_ascii c - 48.
Definition is_digit (c : ascii) : bool := ((48 <=? N_of_ascii c) && (N_of_ascii c <=? 57))%N.

(** The value of a run of digits. *)
Definition dec_val (l : bytes) : N := foldl (λ n c, n * 10 + digit_val c)%N 0%N l.

Fixpoint dec_fuel (fuel : nat) (n : N) (acc : bytes) : bytes :=
  match fuel with
  | 0 => acc
  | S fuel =>
      let acc := digit (n mod 10) :: acc in
      if (n / 10 =? 0)%N then acc else dec_fuel fuel (n / 10) acc
  end.

(** [u128::to_string]. *)
Definition dec_of_N (n : N) : bytes := dec_fuel (S (N.size_nat n)) n [].

(** [i128::to_string]. *)
Definition dec_of_Z (z : Z) : bytes :=
  match z with
  | Zneg p => "-"%char :: dec_of_N (Npos p)
  | _ => dec_of_N (Z.to_N z)
  end.

(** [format!("{:0width$}")] of an unsigned integer. *)
Definition dec_padded (width : nat) (n : N) : bytes :=
  replicate (width - length (dec_of_N n)) "0"%char ++ dec_of_N n.

Lemma digit_code n : (n < 10)%N → N_of_ascii (digit n) = (48 + n)%N.
Proof. intros Hn. unfold digit. apply N_ascii_embedding. lia. Qed.

Lemma digit_val_digit n : (n < 10)%N → digit_val (digit n) = n.
Proof. intros Hn. unfold digit_val. rewrite digit_code by done. lia. Qed.

Lemma is_digit_digit n : (n < 10)%N → is_digit (digit n) = true.
Proof. intros Hn. unfold is_digit. rewrite digit_code by done. apply andb_true_iff. split; apply N.leb_le; lia. Qed.

Lemma digit_digit_val c : is_digit c = true → digit (digit_val c) = c.
Proof.
  unfold is_digit, digit, digit_val. intros [H1%N.leb_le H2%N.leb_le]%andb_true_iff.
  replace (48 + (N_of_ascii c - 48))%N with (N_of_ascii c) by lia. apply ascii_N_embedding.
Qed.

Lemma digit_val_lt c : is_digit c = true → (digit_val c < 10)%N.
Proof. unfold is_digit, digit_val. intros [H1%N.leb_le H2%N.leb_le]%andb_true_iff. lia. Qed.

Lemma digit_val_0 c : is_digit c = true → digit_val c = 0%N → c = "0"%char.
Proof. intros Hc H0. rewrite <- (digit_digit_val c Hc), H0. done. Qed.

Lemma dec_val_app l1 l2 : dec_val (l1 ++ l2) = (dec_val l1 * 10 ^ N.of_nat (length l2) + dec_val l2)%N.
Proof.
  unfold dec_val. rewrite foldl_app. generalize (foldl (λ n c, n * 10 + digit_val c)%N 0%N l1) as a.
  induction l2 as [|c l2 IH] using rev_ind; intros a; simpl; [lia|].
  rewrite !foldl_app, length_app. simpl. rewrite IH.
  replace (N.of_nat (length l2 + 1)) with (N.succ (N.of_nat (length l2))) by lia.
  rewrite N.pow_succ_r'. lia.
Qed.

Lemma dec_val_zeros k l : dec_val (replicate k "0"%char ++ l) = dec_val l.
Proof. induction k as [|k IH]; [done|]. exact IH. Qed.

Lemma dec_fuel_acc fuel n acc : dec_fuel fuel n acc = dec_fuel fuel n [] ++ acc.
Proof.
  revert n acc. induction fuel as [|fuel IH]; intros n acc; simpl; [done|].
  destruct (n / 10 =? 0)%N; [done|]. rewrite (IH _ (_ :: acc)), (IH _ [_]). by rewrite <- app_assoc.
Qed.

Lemma div10_pow k n : (n < 10 ^ N.succ k)%N → (n / 10 < 10 ^ k)%N.
Proof. rewrite N.pow_succ_r'. intros Hn. apply N.Div0.div_lt_upper_bound. lia. Qed.

Lemma dec_val_one n : (n < 10)%N → dec_val [digit n] = n.
Proof. intros Hn. unfold dec_val. simpl foldl. rewrite digit_val_digit by done. lia. Qed.

(** With [n < 10 ^ fuel] the printer prints all of [n], in at most [fuel] digits. *)
Lemma dec_fuel_spec fuel n :
  (n < 10 ^ N.of_nat fuel)%N →
  dec_val (dec_fuel fuel n []) = n ∧ forallb is_digit (dec_fuel fuel n []) = true ∧
  length (dec_fuel fuel n []) ≤ fuel.
Proof.
  revert n. induction fuel as [|fuel IH]; intros n Hn.
  { rewrite N.pow_0_r in Hn. split_and!; [unfold dec_val; simpl; lia|done|done]. }
  assert (n mod 10 < 10)%N as Hm by (apply N.mod_lt; done).
  assert (n = 10 * (n / 10) + n mod 10)%N as Hdm by (apply N.div_mod; done).
  cbn [dec_fuel]. destruct (n / 10 =? 0)%N eqn:H0.
  - apply N.eqb_eq in H0. rewrite dec_val_one by done. cbn [forallb length].
    rewrite is_digit_digit by done. split_and!; [lia|done|lia].
  - rewrite dec_fuel_acc, dec_val_app, dec_val_one by done. rewrite Nat2N.inj_succ in Hn. apply div10_pow in Hn.
    destruct (IH _ Hn) as (Hv & Hd & Hl). rewrite Hv, forallb_app, Hd, length_app.
    cbn [forallb length]. rewrite is_digit_digit by done. split_and!; [simpl; lia|done|lia].
Qed.

Lemma fuel_pos fuel n : n ≠ 0%N → (n < 10 ^ N.of_nat fuel)%N → 0 < fuel.
Proof. destruct fuel; [|lia]. change (10 ^ N.of_nat 0)%N with 1%N. lia. Qed.

Lemma dec_fuel_enough fuel fuel' n :
  (n < 10 ^ N.of_nat fuel)%N → 0 < fuel → fuel ≤ fuel' → dec_fuel fuel n [] = dec_fuel fuel' n [].
Proof.
  revert fuel' n. induction fuel as [|fuel IH]; intros [|fuel'] n Hn H0 Hf; [lia..|].
  simpl. destruct (n / 10 =? 0)%N eqn:Hd; [done|].
  rewrite (dec_fuel_acc fuel), (dec_fuel_acc fuel'). f_equal. rewrite Nat2N.inj_succ in Hn.
  apply div10_pow in Hn. apply N.eqb_neq in Hd. apply IH; [done| |lia].
  by eapply fuel_pos.
Qed.

Lemma N_size_pow n : (n < 10 ^ N.of_nat (S (N.size_nat n)))%N.
Proof.
  apply N.lt_le_trans with (2 ^ N.of_nat (N.size_nat n))%N.
  - destruct n as [|p]; [done|]. simpl. induction p as [p IH|p IH|]; [..|done].
    all: simpl Pos.size_nat; rewrite Nat2N.inj_succ, N.pow_succ_r'; lia.
  - rewrite Nat2N.inj_succ. etrans; [|apply N.pow_le_mono_r; [done|apply N.le_succ_diag_r]].
    apply N.pow_le_mono_l. lia.
Qed.

Lemma dec_of_N_spec n :
  dec_val (dec_of_N n) = n ∧ forallb is_digit (dec_of_N n) = true.
Proof. destruct (dec_fuel_spec _ n (N_size_pow n)) as (Hv & Hd & _). done. Qed.

Lemma dec_of_N_val n : dec_val (dec_of_N n) = n.
Proof. apply dec_of_N_spec. Qed.

Lemma dec_of_N_digits n : forallb is_digit (dec_of_N n) = true.
Proof. apply dec_of_N_spec. Qed.

#[export] Instance dec_of_N_inj : Inj (=) (=) dec_of_N.
Proof. intros m n Hmn. by rewrite <- (dec_of_N_val m), Hmn, dec_of_N_val. Qed.

Lemma length_dec_of_N_le k n : (n < 10 ^ N.of_nat k)%N → 0 < k → length (dec_of_N n) ≤ k.
Proof.
  intros Hn Hk. unfold dec_of_N. destruct (decide (k ≤ S (N.size_nat n))) as [Hle|Hgt].
  - rewrite <- (dec_fuel_enough k) by done. by apply dec_fuel_spec.
  - rewrite (dec_fuel_enough _ k); [|apply N_size_pow|lia|lia]. by apply dec_fuel_spec.
Qed.

(** No leading zero: the first digit is zero only for zero itself. *)
Lemma dec_fuel_head fuel n :
  0 < fuel → (n < 10 ^ N.of_nat fuel)%N →
  ∃ d l, dec_fuel fuel n [] = digit d :: l ∧ (d < 10)%N ∧ (d = 0%N → n = 0%N ∧ l = []).
Proof.
  revert n. induction fuel as [|fuel IH]; intros n H0 Hn; [lia|]. cbn [dec_fuel].
  assert (n mod 10 < 10)%N as Hm by (apply N.mod_lt; done).
  assert (n = 10 * (n / 10) + n mod 10)%N as Hdm by (apply N.div_mod; done).
  destruct (n / 10 =? 0)%N eqn:Hz.
  - apply N.eqb_eq in Hz. exists (n mod 10)%N, []. split_and!; [done..|]. intros Hm0. split; [lia|done].
  - apply N.eqb_neq in Hz. rewrite dec_fuel_acc. rewrite Nat2N.inj_succ in Hn. apply div10_pow in Hn.
    destruct (IH (n / 10)%N) as (d & l & -> & Hd & Hd0); [|done|].
    { by eapply fuel_pos. }
    exists d, (l ++ [digit (n mod 10)]). split_and!; [done..|]. intros ->. destruct Hd0; [done|lia].
Qed.

Lemma dec_of_N_head n :
  ∃ d l, dec_of_N n = digit d :: l ∧ (d < 10)%N ∧ (d = 0%N → n = 0%N ∧ l = []).
Proof. apply dec_fuel_head; [lia|apply N_size_pow]. Qed.

Lemma dec_of_N_nonempty n : dec_of_N n ≠ [].
Proof. destruct (dec_of_N_head n) as (d & l & -> & _). done. Qed.

(** A run of digits with no leading zero is the decimal form of its value. *)
Lemma digits_lt l : forallb is_digit l = true → (dec_val l < 10 ^ N.of_nat (length l))%N.
Proof.
  induction l as [|c l IH] using rev_ind; [done|]. rewrite forallb_app, dec_val_app, length_app.
  intros [Hl Hc]%andb_true_iff. simpl in Hc. rewrite andb_true_r in Hc.
  specialize (IH Hl). apply digit_val_lt in Hc. cbn [length].
  replace (dec_val [c]) with (digit_val c) by (unfold dec_val; simpl; lia).
  replace (N.of_nat (length l + 1)) with (N.succ (N.of_nat (length l))) by lia.
  rewrite N.pow_succ_r'. simpl (10 ^ _)%N. change (10 ^ N.of_nat 1)%N with 10%N. nia.
Qed.

Lemma dec_fuel_digits c l :
  forallb is_digit (c :: l) = true → c ≠ "0"%char →
  dec_fuel (S (length l)) (dec_val (c :: l)) [] = c :: l.
Proof.
  intros Hd Hc. induction l as [|d l IH] using rev_ind.
  - cbn [length dec_fuel]. simpl in Hd. rewrite andb_true_r in Hd. pose proof (digit_val_lt _ Hd).
    replace (dec_val [c]) with (digit_val c) by (unfold dec_val; simpl; lia).
    rewrite N.mod_small, N.div_small by done. simpl. by rewrite digit_digit_val.
  - rewrite app_comm_cons, forallb_app in Hd. apply andb_true_iff in Hd as [Hl Hx].
    simpl in Hx. rewrite andb_true_r in Hx. specialize (IH Hl). pose proof (digit_val_lt _ Hx) as Hlt.
    rewrite length_app. cbn [length]. rewrite Nat.add_1_r. rewrite app_comm_cons, dec_val_app.
    remember (S (length l)) as fuel eqn:Hf.
    replace (dec_val [d]) with (digit_val d) by (unfold dec_val; simpl; lia).
    change (10 ^ N.of_nat (length [d]))%N with 10%N. cbn [dec_fuel].
    rewrite N.add_comm, N.Div0.mod_add, N.div_add, N.mod_small, N.div_small, N.add_0_l by done.
    rewrite digit_digit_val by done.
    assert (dec_val (c :: l) ≠ 0%N) as Hne.
    { intros H0. apply Hc. apply digit_val_0; [simpl in Hl; by apply andb_true_iff in Hl as [? _]|].
      change (c :: l) with ([c] ++ l) in H0. rewrite dec_val_app in H0.
      replace (dec_val [c]) with (digit_val c) in H0 by (unfold dec_val; simpl; lia).
      assert (10 ^ N.of_nat (length l) ≠ 0)%N by (apply N.pow_nonzero; done). nia. }
    apply N.eqb_neq in Hne as ->. rewrite dec_fuel_acc, IH. done.
Qed.

Lemma dec_of_N_digits_id c l :
  forallb is_digit (c :: l) = true → c ≠ "0"%char → dec_of_N (dec_val (c :: l)) = c :: l.
Proof.
  intros Hd Hc. rewrite <- (dec_fuel_digits c l) at 2 by done. unfold dec_of_N.
  destruct (decide (S (length l) ≤ S (N.size_nat (dec_val (c :: l))))) as [Hle|Hgt].
  - symmetry. apply dec_fuel_enough; [|lia|done]. by apply (digits_lt (c :: l)).
  - apply dec_fuel_enough; [apply N_size_pow|lia|lia].
Qed.

(** Padded forms. *)
Lemma dec_padded_val width n : dec_val (dec_padded width n) = n.
Proof. unfold dec_padded. by rewrite dec_val_zeros, dec_of_N_val. Qed.

Lemma dec_padded_digits width n : forallb is_digit (dec_padded width n) = true.
Proof.
  unfold dec_padded. rewrite forallb_app, dec_of_N_digits, andb_true_r.
  by induction (width - length (dec_of_N n)).
Qed.

Lemma length_dec_padded width n :
  (n < 10 ^ N.of_nat width)%N → 0 < width → length (dec_padded width n) = width.
Proof.
  intros Hn Hw. unfold dec_padded. rewrite length_app, length_replicate.
  pose proof (length_dec_of_N_le width n Hn Hw). lia.
Qed.

(** [u64] and [usize] in a message. *)
Definition u64_string (n : N) : string := str_of (dec_of_N n).

Lemma u64_string_inj n m : u64_string n = u64_string m → n = m.
Proof.
  unfold u64_string. intros He%(f_equal bytes_of). rewrite !bytes_of_str in He.
  by rewrite <- (dec_of_N_val n), He, dec_of_N_val.
Qed.
