(* ===== verification/Json.v ===== *)
(** * Strict canonical JSON (json.rs, identity.rs)

    [serde_json::Value] with its numbers, the strict validator, the canonical
    printer, the duplicate-key scanner, the strict decoder and the decimal
    integer strings.  The parts of serde_json the code calls (the text of a
    string, of a float, and the two parsers) are the parameters of
    [SerdeJson], with the documented facts the theorems use in
    [SerdeJsonLaws].

    Its own theorems are the scanner's: it ends on every input.  [JsonAccept]
    shows that it accepts every canonical text, [JsonCanon] that canonical text
    determines the value, and the round trips. *)

From Stdlib Require Import Ascii String SpecFloat.
From stdpp Require Import base list option numbers strings pretty.
From Stdlib Require Import Sorted.
From S2P Require Import Prelude.
From S2P Require Import BTree.
From S2P Require Import Text.

Local Open Scope rx_scope.

(** ** Values *)

(** [serde_json::Number]. *)
Inductive Number :=
| PosInt (n : Z)
| NegInt (n : Z)
| Float (f : spec_float).

(** [serde_json::Value]; an object is a [BTreeMap<String, Value>]. *)
Inductive Value :=
| Null
| Bool (b : bool)
| Num (n : Number)
| Str (s : string)
| Arr (values : list Value)
| Obj (map : list (string * Value)).

Section ValueInd.
Context (P : Value → Prop)
  (Hnull : P Null) (Hbool : ∀ b, P (Bool b)) (Hnum : ∀ n, P (Num n)) (Hstr : ∀ s, P (Str s))
  (Harr : ∀ values, Forall P values → P (Arr values))
  (Hobj : ∀ map, Forall (λ kv, P kv.2) map → P (Obj map)).

Fixpoint Value_ind' (v : Value) : P v :=
  match v with
  | Null => Hnull
  | Bool b => Hbool b
  | Num n => Hnum n
  | Str s => Hstr s
  | Arr values =>
      Harr values ((fix go l : Forall P l :=
        match l with [] => Forall_nil_2 _ | v :: l' => Forall_cons_2 _ _ _ (Value_ind' v) (go l') end)
        values)
  | Obj map =>
      Hobj map ((fix go l : Forall (λ kv, P kv.2) l :=
        match l with
        | [] => Forall_nil_2 _
        | kv :: l' => Forall_cons_2 _ _ _ (Value_ind' kv.2) (go l')
        end) map)
  end.
End ValueInd.

Inductive JsonCodecError :=
| Encode (message : string)
| Decode (message : string)
| Validation (message : string).

Definition JsonCodecResult (A : Type) : Type := Result JsonCodecError A.

(** [Display]. *)
Definition codec_error_string (e : JsonCodecError) : string :=
  match e with
  | Encode message => "json encode failed: " +:+ message
  | Decode message => "json decode failed: " +:+ message
  | Validation message => message
  end.

(** What the code calls of serde_json and of [Debug for str]. *)
Class SerdeJson := {
  json_string : string → bytes;                   (* serde_json::to_string(&str) *)
  float_string : spec_float → bytes;              (* Display of a float Number *)
  parse_json_string : bytes → Result string string;  (* serde_json::from_str::<String> *)
  parse_json : bytes → Result string Value;       (* serde_json::from_str::<Value> *)
  debug_str : string → string                     (* {:?} of a str *)
}.

Definition JS_MAX_SAFE_INTEGER : Z := 9007199254740991.

Definition as_i64 (n : Number) : option Z :=
  match n with
  | PosInt n => if (n <=? 2 ^ 63 - 1)%Z then Some n else None
  | NegInt n => Some n
  | Float _ => None
  end.

Definition as_u64 (n : Number) : option Z :=
  match n with PosInt n => Some n | _ => None end.

(** [value.fract() == 0.0] of a finite float [m * 2 ^ e], and its integer value. *)
Definition fract_zero (m : positive) (e : Z) : bool :=
  (0 <=? e)%Z || (Zpos m mod 2 ^ (- e) =? 0)%Z.

Definition trunc_abs (m : positive) (e : Z) : Z :=
  if (0 <=? e)%Z then (Zpos m * 2 ^ e)%Z else (Zpos m / 2 ^ (- e))%Z.

(** [abs < f64::MIN_POSITIVE], with [f64::MIN_POSITIVE = 2 ^ -1022]. *)
Definition below_min_positive (m : positive) (e : Z) : bool :=
  (e <? -1022)%Z && (Zpos m <? 2 ^ (-1022 - e))%Z.

(** [format!("{value:.0}")] of a float with no fraction. *)
Definition fixed0_string (s : bool) (m : positive) (e : Z) : bytes :=
  dec_of_Z (if s then (- trunc_abs m e)%Z else trunc_abs m e).

(** [a.encode_utf16()], from the UTF-8 bytes. *)
Fixpoint code_points (l : bytes) : list N :=
  match l with
  | [] => []
  | a :: l1 =>
      let a := N_of_ascii a in
      if (a <? 128)%N then a :: code_points l1 else
      match l1 with
      | [] => []
      | b :: l2 =>
          let b := (N_of_ascii b mod 64)%N in
          if (a <? 224)%N then (a mod 32 * 64 + b)%N :: code_points l2 else
          match l2 with
          | [] => []
          | c :: l3 =>
              let c := (N_of_ascii c mod 64)%N in
              if (a <? 240)%N then (a mod 16 * 4096 + b * 64 + c)%N :: code_points l3 else
              match l3 with
              | [] => []
              | d :: l4 =>
                  let d := (N_of_ascii d mod 64)%N in
                  (a mod 8 * 262144 + b * 4096 + c * 64 + d)%N :: code_points l4
              end
          end
      end
  end.

Definition utf16_units (cp : N) : list N :=
  if (cp <? 65536)%N then [cp]
  else [55296 + (cp - 65536) / 1024; 56320 + (cp - 65536) mod 1024]%N.

Definition encode_utf16 (s : string) : list N := code_points (bytes_of s) ≫= utf16_units.

Fixpoint list_cmp (l l' : list N) : comparison :=
  match l, l' with
  | [], [] => Eq
  | [], _ => Lt
  | _, [] => Gt
  | x :: l, y :: l' => match (x ?= y)%N with Eq => list_cmp l l' | c => c end
  end.

Definition cmp_js_utf16 (a b : string) : comparison := list_cmp (encode_utf16 a) (encode_utf16 b).

Section Json.
Context `{!SerdeJson}.

(** [number.to_string()]. *)
Definition number_string (n : Number) : bytes :=
  match n with PosInt z | NegInt z => dec_of_Z z | Float f => float_string f end.

(** ** The strict validator *)

Definition number_error (path tail : string) : JsonCodecError :=
  Validation ("strictJsonCodec: JSON number at " +:+ path +:+ tail).

Definition integer_error (path : string) : JsonCodecError :=
  Validation ("strictJsonCodec: JSON integer at " +:+ path +:+ " is outside the safe integer range").

(** The checks of a float; an integer that passed its own check is exact as a
    float and passes them. *)
Definition validate_float (f : spec_float) (path : string) : JsonCodecResult unit :=
  match f with
  | S754_finite _ m e =>
      if below_min_positive m e then
        Err (number_error path " is subnormal and not strict canonical JSON compatible")
      else if fract_zero m e && (JS_MAX_SAFE_INTEGER <? trunc_abs m e)%Z then Err (integer_error path)
      else Ok tt
  | _ => Ok tt
  end.

Definition validate_number (n : Number) (path : string) : JsonCodecResult unit :=
  let text := str_of (number_string n) in
  if bool_decide (text = "-0.0") || bool_decide (text = "-0") then
    Err (number_error path " is not strict canonical JSON compatible")
  else
    let safe :=
      match as_i64 n with
      | Some v => (- JS_MAX_SAFE_INTEGER <=? v)%Z && (v <=? JS_MAX_SAFE_INTEGER)%Z
      | None => match as_u64 n with Some v => (v <=? JS_MAX_SAFE_INTEGER)%Z | None => true end
      end in
    if safe then match n with Float f => validate_float f path | _ => Ok tt end
    else Err (integer_error path).

Fixpoint validate_strict_json_value_inner (v : Value) (path : string) (depth : nat) :
    JsonCodecResult unit :=
  if 128 <? depth then
    Err (Validation ("strictJsonCodec: JSON value at " +:+ path +:+ " exceeds maximum depth 128"))
  else
  match v with
  | Obj map =>
      (fix go (map : list (string * Value)) : JsonCodecResult unit :=
         match map with
         | [] => Ok tt
         | (key, v) :: map =>
             let? _ := validate_strict_json_value_inner v (path +:+ "." +:+ key) (S depth) in
             go map
         end) map
  | Arr values =>
      (fix go (index : nat) (values : list Value) : JsonCodecResult unit :=
         match values with
         | [] => Ok tt
         | v :: values =>
             let? _ := validate_strict_json_value_inner v
                         (path +:+ "[" +:+ pretty index +:+ "]") (S depth) in
             go (S index) values
         end) 0 values
  | Num number => validate_number number path
  | Null | Bool _ | Str _ => Ok tt
  end.

Definition validate_strict_json_value (v : Value) (path : string) : JsonCodecResult unit :=
  validate_strict_json_value_inner v path 0.

(** ** The canonical printer *)

Definition canonical_number_string (n : Number) : bytes :=
  match as_i64 n with
  | Some v => dec_of_Z v
  | None =>
      match as_u64 n with
      | Some v => dec_of_Z v
      | None =>
          match n with
          | Float (S754_zero _) => bytes_of "0"
          | Float (S754_finite s m e) =>
              if fract_zero m e && (trunc_abs m e <=? JS_MAX_SAFE_INTEGER)%Z
              then fixed0_string s m e else number_string n
          | _ => number_string n
          end
      end
  end.

(** A separated sequence: [out.push(',')] before every item but the first. *)
Definition join_items (items : list bytes) : bytes :=
  match items with
  | [] => []
  | i :: items => i ++ mjoin ((λ i, ","%char :: i) <$> items)
  end.

(** The keys of an object in printing order. *)
Definition sorted_keys {A} (map : list (string * A)) : list string :=
  sort_by cmp_js_utf16 map.*1.

(** The text of a string never fails, so neither does the printer. *)
Fixpoint canonical_json_string (v : Value) : bytes :=
  match v with
  | Null => bytes_of "null"
  | Bool true => bytes_of "true"
  | Bool false => bytes_of "false"
  | Num number => canonical_number_string number
  | Str s => json_string s
  | Arr values =>
      "["%char :: join_items (canonical_json_string <$> values) ++ ["]"%char]
  | Obj map =>
      let printed := (λ kv, (kv.1, canonical_json_string kv.2)) <$> map in
      "{"%char ::
        join_items ((λ key, json_string key ++ ":"%char :: default [] (bt_get key printed))
                      <$> sorted_keys map) ++ ["}"%char]
  end.

Definition stable_json_string (v : Value) : JsonCodecResult bytes :=
  let? _ := validate_strict_json_value v "$" in
  Ok (canonical_json_string v).

Definition strict_canonical_json_bytes (v : Value) : JsonCodecResult bytes := stable_json_string v.

(** ** The duplicate-key scanner

    [text] is the input and [index] the byte position.  A [while] loop that
    skips a class of bytes is [skip_while]; the recursive descent is [scan],
    indexed by the parser called ([ScanTask]): a value, the loop of
    [parse_object] with the keys seen, and the loop of [parse_array]. *)

Record Scanner := mkScanner { text : bytes; index : nat }.

Inductive ScanTask :=
| ScanValue (path : string)
| ScanObject (path : string) (keys : list string)
| ScanArray (path : string) (item : nat).

Definition Scan (A : Type) : Type := M Scanner (JsonCodecResult A).

Definition scan_ok : Scan unit := ret (Ok tt).

Definition fail {A} (message : string) : Scan A :=
  ret (Err (Validation ("strictJsonCodec: " +:+ message))).

Definition near (what : string) (i : nat) : string := what +:+ " near byte " +:+ pretty i.

Definition peek (s : Scanner) : option ascii := text s !! index s.

Definition advance (n : nat) : M Scanner unit :=
  modify (λ s, mkScanner (text s) (index s + n)).

Fixpoint count_while (p : ascii → bool) (l : bytes) : nat :=
  match l with c :: l' => if p c then S (count_while p l') else 0 | [] => 0 end.

Definition skip_while (p : ascii → bool) : M Scanner unit :=
  modify (λ s, mkScanner (text s) (index s + count_while p (drop (index s) (text s)))).

Definition dquote : ascii := ascii_of_nat 34.
Definition backslash : ascii := ascii_of_nat 92.

Definition is_ws (c : ascii) : bool :=
  match N_of_ascii c with 32 | 10 | 13 | 9 => true | _ => false end%N.

Definition skip_whitespace : M Scanner unit := skip_while is_ws.

(** Bytes up to and including the closing quote, the opening one passed. *)
Fixpoint string_end (l : bytes) : option nat :=
  match l with
  | [] => None
  | c :: l' =>
      if decide (c = dquote) then Some 1
      else if decide (c = backslash) then
        match l' with [] => None | _ :: l'' => (λ n, 2 + n) <$> string_end l'' end
      else S <$> string_end l'
  end.

Definition read_json_string : Scan string :=
  let! start := gets index in
  let! rest := gets (λ s, drop (S start) (text s)) in
  match string_end rest with
  | Some n =>
      advance (S n) ;;;
      let! token := gets (λ s, take (S n) (drop start (text s))) in
      match parse_json_string token with
      | Ok s => ret (Ok s)
      | Err err => fail ("malformed JSON string: " +:+ err)
      end
  | None => fail "unterminated JSON string"
  end.

Definition consume_literal (literal : string) : Scan unit :=
  let! s := gets id in
  if starts_with (bytes_of literal) (drop (index s) (text s))
  then advance (String.length literal) ;;; scan_ok
  else fail (near "malformed JSON" (index s)).

Definition peek_is (p : ascii → bool) : M Scanner bool :=
  gets (λ s, match peek s with Some c => p c | None => false end).

Definition is_char (c : string) (a : ascii) : bool := bool_decide (c = String a EmptyString).

(** The three parts of a number; [false] is the malformed case. *)
Definition int_part : M Scanner bool :=
  let! c := gets peek in
  match c with
  | Some c =>
      if is_char "0" c then advance 1 ;;; ret true
      else if is_digit c then advance 1 ;;; skip_while is_digit ;;; ret true
      else ret false
  | None => ret false
  end.

Definition frac_part : M Scanner bool :=
  let! dot := peek_is (is_char ".") in
  if dot then
    advance 1 ;;;
    let! d := peek_is is_digit in
    skip_while is_digit ;;; ret d
  else ret true.

Definition exp_part : M Scanner bool :=
  let! exp := peek_is (λ c, is_char "e" c || is_char "E" c) in
  if exp then
    advance 1 ;;;
    let! sign := peek_is (λ c, is_char "+" c || is_char "-" c) in
    when sign (advance 1) ;;;
    let! d := peek_is is_digit in
    skip_while is_digit ;;; ret d
  else ret true.

Definition consume_number : Scan unit :=
  let! start := gets index in
  let malformed : Scan unit := fail (near "malformed JSON number" start) in
  let! minus := peek_is (is_char "-") in
  when minus (advance 1) ;;;
  let! int_ok := int_part in
  if negb int_ok then malformed else
  let! frac_ok := frac_part in
  if negb frac_ok then malformed else
  let! exp_ok := exp_part in
  if negb exp_ok then malformed else scan_ok.

Section ScanStep.
Context (rec : ScanTask → Scan unit).

Definition parse_object (path : string) : Scan unit :=
  advance 1 ;;;
  skip_whitespace ;;;
  let! close := peek_is (is_char "}") in
  if close then advance 1 ;;; scan_ok else rec (ScanObject path []).

Definition parse_array (path : string) : Scan unit :=
  advance 1 ;;;
  skip_whitespace ;;;
  let! close := peek_is (is_char "]") in
  if close then advance 1 ;;; scan_ok else rec (ScanArray path 0).

Definition parse_value (path : string) : Scan unit :=
  skip_whitespace ;;;
  let! c := gets peek in
  let! i := gets index in
  match c with
  | None => fail (near "malformed JSON" i)
  | Some c =>
      if is_char "{" c then parse_object path
      else if is_char "[" c then parse_array path
      else if bool_decide (c = dquote) then let!? _ := read_json_string in scan_ok
      else if is_char "t" c then consume_literal "true"
      else if is_char "f" c then consume_literal "false"
      else if is_char "n" c then consume_literal "null"
      else if is_char "-" c || is_digit c then consume_number
      else fail (near "malformed JSON" i)
  end.

Definition parse_object_loop (path : string) (keys : list string) : Scan unit :=
  let! s := gets id in
  if length (text s) <=? index s then fail "unterminated JSON object" else
  skip_whitespace ;;;
  let! open := peek_is (λ c, bool_decide (c = dquote)) in
  let! i := gets index in
  if negb open then fail (near "expected object key" i) else
  let!? key := read_json_string in
  if bool_decide (key ∈ keys) then
    ret (Err (Validation ("strictJsonCodec: duplicate object key " +:+ debug_str key +:+ " at " +:+ path)))
  else
  skip_whitespace ;;;
  let! colon := peek_is (is_char ":") in
  let! i := gets index in
  if negb colon then fail (near "expected ':' after object key" i) else
  advance 1 ;;;
  let!? _ := rec (ScanValue (path +:+ "." +:+ key)) in
  skip_whitespace ;;;
  let! c := gets peek in
  let! i := gets index in
  match c with
  | Some c =>
      if is_char "," c then advance 1 ;;; rec (ScanObject path (keys ++ [key]))
      else if is_char "}" c then advance 1 ;;; scan_ok
      else fail (near "expected ',' or '}'" i)
  | None => fail (near "expected ',' or '}'" i)
  end.

Definition parse_array_loop (path : string) (item : nat) : Scan unit :=
  let! s := gets id in
  if length (text s) <=? index s then fail "unterminated JSON array" else
  let!? _ := rec (ScanValue (path +:+ "[" +:+ pretty item +:+ "]")) in
  skip_whitespace ;;;
  let! c := gets peek in
  let! i := gets index in
  match c with
  | Some c =>
      if is_char "," c then advance 1 ;;; rec (ScanArray path (S item))
      else if is_char "]" c then advance 1 ;;; scan_ok
      else fail (near "expected ',' or ']'" i)
  | None => fail (near "expected ',' or ']'" i)
  end.

Definition scan_step (t : ScanTask) : Scan unit :=
  match t with
  | ScanValue path => parse_value path
  | ScanObject path keys => parse_object_loop path keys
  | ScanArray path item => parse_array_loop path item
  end.
End ScanStep.

Fixpoint scan (fuel : nat) (t : ScanTask) : Scan unit :=
  match fuel with
  | 0 => no_fuel
  | S fuel => scan_step (scan fuel) t
  end.

(** Enough for every text: [scan_terminates]. *)
Definition scan_fuel (text : bytes) : nat := 2 * length text + 3.

Definition assert_no_duplicate_json_object_keys (t : bytes) : M Scanner (JsonCodecResult unit) :=
  modify (λ _, mkScanner t 0) ;;;
  let!? _ := scan (scan_fuel t) (ScanValue "$") in
  skip_whitespace ;;;
  let! i := gets index in
  if negb (i =? length t) then
    ret (Err (Validation (near "strictJsonCodec: trailing JSON token" i)))
  else scan_ok.

(** ** The strict decoder *)

(** [std::str::from_utf8] succeeds; the text of its error is a parameter. *)
Definition strict_json_decode (utf8 : bytes → option string) (b : bytes) :
    M Scanner (JsonCodecResult Value) :=
  match utf8 b with
  | Some err => ret (Err (Decode err))
  | None =>
      let!? _ := assert_no_duplicate_json_object_keys b in
      match parse_json b with
      | Err err => ret (Err (Decode err))
      | Ok decoded =>
          ret (let? canonical := strict_canonical_json_bytes decoded in
               if bool_decide (b = canonical) then Ok decoded
               else Err (Validation "strictJsonCodec: bytes are not canonical stable JSON"))
      end
  end.
End Json.

(** ** Decimal integer strings *)

Definition is_decimal_integer_string (value : bytes) : bool :=
  if bool_decide (value = bytes_of "0") then true else
  let rest := default value (strip_prefix (bytes_of "-") value) in
  negb (bool_decide (rest = [])) && negb (starts_with (bytes_of "0") rest) &&
  forallb is_digit rest && negb (bool_decide (value = bytes_of "-0")).

Definition is_non_negative_decimal_integer_string (value : bytes) : bool :=
  if bool_decide (value = bytes_of "0") then true else
  negb (bool_decide (value = [])) && negb (starts_with (bytes_of "-") value) &&
  negb (starts_with (bytes_of "0") value) && forallb is_digit value.

Definition assert_decimal_integer_string (value : bytes) (label : string) : JsonCodecResult bytes :=
  if is_decimal_integer_string value then Ok value
  else Err (Validation (label +:+ " must be a canonical decimal integer string")).

Definition assert_non_negative_decimal_integer_string (value : bytes) (label : string) :
    JsonCodecResult bytes :=
  if is_non_negative_decimal_integer_string value then Ok value
  else Err (Validation (label +:+ " must be a canonical non-negative decimal integer string")).

Definition i128_to_decimal_string (value : Z) : bytes := dec_of_Z value.
Definition u128_to_non_negative_decimal_string (value : Z) : bytes := dec_of_Z value.

(** [parse::<i128>()] and [parse::<u128>()] of a string of the accepted shape. *)
Definition parse_integer (value : bytes) : Z :=
  match strip_prefix (bytes_of "-") value with
  | Some rest => (- Z.of_N (dec_val rest))%Z
  | None => Z.of_N (dec_val value)
  end.

Definition pos_overflow : string := "number too large to fit in target type".
Definition neg_overflow : string := "number too small to fit in target type".

Definition decimal_string_to_i128 (value : bytes) : JsonCodecResult Z :=
  let? value := assert_decimal_integer_string value "decimal integer" in
  let n := parse_integer value in
  if (2 ^ 127 <=? n)%Z then
    Err (Validation ("decimal integer is outside i128 range: " +:+ pos_overflow))
  else if (n <? - 2 ^ 127)%Z then
    Err (Validation ("decimal integer is outside i128 range: " +:+ neg_overflow))
  else Ok n.

Definition non_negative_decimal_string_to_u128 (value : bytes) : JsonCodecResult Z :=
  let? value := assert_non_negative_decimal_integer_string value "decimal integer" in
  let n := parse_integer value in
  if (2 ^ 128 <=? n)%Z then
    Err (Validation ("decimal integer is outside u128 range: " +:+ pos_overflow))
  else Ok n.

(** ** Termination of the scanner *)

(** What every scanner call keeps: the text, and the direction. *)
Definition advanced (s s' : Scanner) : Prop := text s' = text s ∧ index s ≤ index s'.

#[export] Instance advanced_preorder : PreOrder advanced.
Proof. split; [done|]. intros s1 s2 s3 [??] [??]. split; [congruence|lia]. Qed.

(** The budget of a task: twice the bytes left, and one more to enter a loop. *)
Definition scan_need (t : ScanTask) (s : Scanner) : nat :=
  2 * (length (text s) - index s) + match t with ScanValue _ => 1 | _ => 2 end.

Section ScannerFacts.
Context `{!SerdeJson}.

(** [run m s]: [m] returns from [s], keeping the text and not moving back. *)
Definition run {A} (m : M Scanner A) (s : Scanner) : Prop := total m s (λ _ s', advanced s s').

Lemma run_bind {A B} (m : M Scanner A) (k : A → M Scanner B) s :
  run m s → (∀ a s', m s = Ret a s' → advanced s s' → run (k a) s') → run (bind m k) s.
Proof.
  unfold run, total, bind. destruct (m s) as [a s'| |]; [|done..]. intros Hs Hk.
  specialize (Hk a s' eq_refl Hs). destruct (k a s'); [|done..]. by etrans.
Qed.

Lemma run_mrbind {A B} (m : Scan A) (k : A → Scan B) s :
  run m s → (∀ a s', m s = Ret (Ok a) s' → advanced s s' → run (k a) s') → run (mrbind m k) s.
Proof.
  intros Hm Hk. apply run_bind; [done|]. intros [a|e] s' Hs Ha; [by apply Hk|]. by split.
Qed.

Lemma run_ret {A} (a : A) s : run (ret a) s.
Proof. by split. Qed.

Lemma run_gets {A} (f : Scanner → A) s : run (gets f) s.
Proof. by split. Qed.

Lemma run_advance n s : run (advance n) s.
Proof. split; simpl; [done|lia]. Qed.

Lemma run_skip_while p s : run (skip_while p) s.
Proof. split; simpl; [done|lia]. Qed.

Lemma run_skip_whitespace s : run skip_whitespace s.
Proof. apply run_skip_while. Qed.

Lemma run_when b m s : run m s → run (when b m) s.
Proof. destruct b; [done|intros; apply run_ret]. Qed.

Lemma run_fail {A} msg s : run (@fail A msg) s.
Proof. apply run_ret. Qed.

Ltac run_step :=
  lazymatch goal with
  | |- run (bind _ _) _ => apply run_bind; [|intros ? ? ? ?]
  | |- run (mrbind _ _) _ => apply run_mrbind; [|intros ? ? ? ?]
  | |- run (ret _) _ => apply run_ret
  | |- run scan_ok _ => apply run_ret
  | |- run (fail _) _ => apply run_fail
  | |- run (gets _) _ => apply run_gets
  | |- run (peek_is _) _ => apply run_gets
  | |- run (advance _) _ => apply run_advance
  | |- run (skip_while _) _ => apply run_skip_while
  | |- run skip_whitespace _ => apply run_skip_while
  | |- run (when _ _) _ => apply run_when
  | |- run (let _ := _ in _) _ => cbv zeta
  | |- run (if ?b then _ else _) _ => destruct b eqn:?
  | |- run (match ?x with _ => _ end) _ => destruct x eqn:?
  end.
Ltac run_auto := repeat run_step.

Lemma run_read_json_string s : run read_json_string s.
Proof. unfold read_json_string. run_auto. Qed.

Lemma run_consume_literal l s : run (consume_literal l) s.
Proof. unfold consume_literal. run_auto. Qed.

Lemma run_consume_number s : run consume_number s.
Proof. unfold consume_number, int_part, frac_part, exp_part. run_auto. Qed.

Lemma peek_lt s c : peek s = Some c → index s < length (text s).
Proof. apply lookup_lt_Some. Qed.

(** Facts about the primitive steps taken, as arithmetic on positions. *)
Ltac scan_facts :=
  repeat match goal with
  | H : gets _ _ = Ret _ _ |- _ => injection H as ? ?
  | H : peek_is _ _ = Ret _ _ |- _ => injection H as ? ?
  | H : advance _ _ = Ret _ _ |- _ => injection H as ? ?
  | H : advanced _ _ |- _ => destruct H as [?%(f_equal length) ?]
  end; subst;
  repeat match goal with
  | H : peek _ = Some _ |- _ => apply peek_lt in H
  | H : (_ <=? _) = false |- _ => apply Nat.leb_gt in H
  end; simpl in *.

(** Every byte read pays for two nested calls, so the budget is never spent. *)
Lemma scan_runs fuel t s : scan_need t s ≤ fuel → run (scan fuel t) s.
Proof.
  revert t s. induction fuel as [|fuel IH]; intros t s Hf; [unfold scan_need in Hf; destruct t; lia|].
  unfold scan_need in *. simpl.
  destruct t as [path|path keys|path item]; simpl.
  - unfold parse_value, parse_object, parse_array. run_auto.
    all: try apply run_read_json_string; try apply run_consume_literal;
      try apply run_consume_number; apply IH; scan_facts; lia.
  - unfold parse_object_loop. run_auto; try apply run_read_json_string; apply IH; scan_facts; lia.
  - unfold parse_array_loop. run_auto; apply IH; scan_facts; lia.
Qed.
End ScannerFacts.
