(* ===== verification/JsonAccept.v ===== *)
(** * Canonical JSON passes the scanner

    The shape of the numbers, strings and values the printer of [Json] makes, and
    that the duplicate-key scanner accepts them all. *)

From Stdlib Require Import Ascii String SpecFloat.
From stdpp Require Import base list option numbers strings pretty.
From Stdlib Require Import Sorted.
From S2P Require Import Prelude.
From S2P Require Import BTree.
From S2P Require Import Text.
From S2P Require Import Json.

Local Open Scope rx_scope.

(** ** Canonical text passes the scanner *)

(** The body of a JSON string literal: no bare quote, and a backslash takes the
    next byte with it. *)
Inductive literal_body : bytes → Prop :=
| lb_nil : literal_body []
| lb_plain c l : c ≠ dquote → c ≠ backslash → literal_body l → literal_body (c :: l)
| lb_escape c l : literal_body l → literal_body (backslash :: c :: l).

Definition digits1 (l : bytes) : Prop := l ≠ [] ∧ forallb is_digit l = true.

(** The number grammar of JSON. *)
Definition number_text (l : bytes) (integer : bool) : Prop :=
  ∃ sign int frac exp, l = sign ++ int ++ frac ++ exp ∧
    (sign = [] ∨ sign = ["-"%char]) ∧
    (int = ["0"%char] ∨ digits1 int ∧ ∃ c ds, int = c :: ds ∧ c ≠ "0"%char) ∧
    (frac = [] ∨ ∃ ds, frac = "."%char :: ds ∧ digits1 ds) ∧
    (exp = [] ∨ ∃ e esign ds, exp = e :: esign ++ ds ∧ (e = "e"%char ∨ e = "E"%char) ∧
       (esign = [] ∨ esign = ["+"%char] ∨ esign = ["-"%char]) ∧ digits1 ds) ∧
    (integer = true ↔ frac = [] ∧ exp = []).

(** What the theorems use of serde_json: a string's text is a literal that parses
    back, and a float with a fraction prints as a JSON number that is not an
    integer, distinct floats apart (it prints the shortest text that reads back);
    negative zero prints its sign. *)
Class SerdeJsonLaws `{!SerdeJson} : Prop := {
  json_string_literal s : ∃ body, json_string s = dquote :: body ++ [dquote] ∧ literal_body body;
  parse_json_string_text s : parse_json_string (json_string s) = Ok s;
  float_string_number s m e :
    fract_zero m e = false → number_text (float_string (S754_finite s m e)) false;
  float_string_inj s m e s' m' e' :
    fract_zero m e = false → fract_zero m' e' = false →
    float_string (S754_finite s m e) = float_string (S754_finite s' m' e') →
    S754_finite s m e = S754_finite s' m' e';
  float_string_neg_zero : float_string (S754_zero true) = bytes_of "-0.0"
}.

(** A number inside its type: 64-bit integers and finite floats. *)
Definition number_wf (n : Number) : Prop :=
  match n with
  | PosInt n => (0 ≤ n < 2 ^ 64)%Z
  | NegInt n => (- 2 ^ 63 ≤ n < 0)%Z
  | Float (S754_zero _) | Float (S754_finite _ _ _) => True
  | Float _ => False
  end.

(** Objects are ordered maps, and every number satisfies [P]. *)
Fixpoint value_all (P : Number → Prop) (v : Value) : Prop :=
  match v with
  | Num n => P n
  | Arr values =>
      (fix go l := match l with [] => True | v :: l => value_all P v ∧ go l end) values
  | Obj map =>
      bt_wf map ∧
      (fix go (l : list (string * Value)) :=
         match l with [] => True | kv :: l => value_all P kv.2 ∧ go l end) map
  | _ => True
  end.

Definition value_wf : Value → Prop := value_all number_wf.

Lemma value_all_arr P values : value_all P (Arr values) ↔ Forall (value_all P) values.
Proof.
  simpl. induction values as [|v l IH]; [by split|]. rewrite Forall_cons. by rewrite IH.
Qed.

Lemma value_all_obj P map :
  value_all P (Obj map) ↔ bt_wf map ∧ Forall (λ kv, value_all P kv.2) map.
Proof.
  simpl. apply and_iff_compat_l. induction map as [|v l IH]; [by split|].
  rewrite Forall_cons. by rewrite IH.
Qed.

(** A scanner that has read [pre] and has [suf] before it. *)
Definition pos (pre suf : bytes) : Scanner := mkScanner (pre ++ suf) (length pre).

Lemma peek_pos pre suf : peek (pos pre suf) = head suf.
Proof. unfold peek, pos. simpl. rewrite lookup_app_r by done. rewrite Nat.sub_diag. by destruct suf. Qed.

Lemma drop_pos pre suf : drop (index (pos pre suf)) (text (pos pre suf)) = suf.
Proof. unfold pos. simpl. apply drop_app_length. Qed.

Lemma pos_app pre l suf : mkScanner (pre ++ l ++ suf) (length pre + length l) = pos (pre ++ l) suf.
Proof. unfold pos. by rewrite <- app_assoc, length_app. Qed.

Lemma advance_pos pre l suf : advance (length l) (pos pre (l ++ suf)) = Ret tt (pos (pre ++ l) suf).
Proof. unfold advance, modify. simpl. by rewrite pos_app. Qed.

Lemma advance1_pos pre c suf : advance 1 (pos pre (c :: suf)) = Ret tt (pos (pre ++ [c]) suf).
Proof. apply (advance_pos pre [c]). Qed.

Lemma count_while_app p l suf :
  forallb p l = true → match suf with [] => True | c :: _ => p c = false end →
  count_while p (l ++ suf) = length l.
Proof.
  intros Hl Hs. induction l as [|d l IH]; simpl in *.
  - destruct suf; simpl; [done|by rewrite Hs].
  - apply andb_true_iff in Hl as [-> Hl]. by rewrite IH.
Qed.

(** [p] fails on the first byte of [suf], if any. *)
Definition stops (p : ascii → bool) (suf : bytes) : Prop :=
  match suf with [] => True | c :: _ => p c = false end.

Lemma skip_while_pos p pre l suf :
  forallb p l = true → stops p suf →
  skip_while p (pos pre (l ++ suf)) = Ret tt (pos (pre ++ l) suf).
Proof.
  intros Hl Hs. unfold skip_while, modify. rewrite drop_pos, count_while_app by done.
  simpl. by rewrite pos_app.
Qed.

Lemma skip_none_pos p pre suf : stops p suf → skip_while p (pos pre suf) = Ret tt (pos pre suf).
Proof.
  intros Hs. pose proof (skip_while_pos p pre [] suf eq_refl Hs) as H. by rewrite app_nil_r in H.
Qed.

Lemma string_end_body body rest :
  literal_body body → string_end (body ++ dquote :: rest) = Some (S (length body)).
Proof.
  induction 1 as [|c l Hq Hb Hl IH|c l Hl IH]; simpl; [done|..].
  - rewrite decide_False, decide_False by done. by rewrite IH.
  - rewrite IH. done.
Qed.

Lemma drop_succ_app {A} (x : A) l1 l2 : drop (S (length l1)) (l1 ++ x :: l2) = l2.
Proof. induction l1 as [|y l1 IH]; [done|]. exact IH. Qed.

Lemma peek_is_pos p pre suf :
  peek_is p (pos pre suf) = Ret (match suf with [] => false | c :: _ => p c end) (pos pre suf).
Proof. unfold peek_is, gets. rewrite peek_pos. by destruct suf. Qed.

Lemma gets_peek_pos pre suf : gets peek (pos pre suf) = Ret (head suf) (pos pre suf).
Proof. unfold gets. by rewrite peek_pos. Qed.

Section Accept.
Context `{!SerdeJson} `{!SerdeJsonLaws}.

Lemma read_json_string_pos pre s suf :
  read_json_string (pos pre (json_string s ++ suf)) = Ret (Ok s) (pos (pre ++ json_string s) suf).
Proof.
  destruct (json_string_literal s) as (body & Hs & Hb). unfold read_json_string.
  erewrite bind_step by reflexivity. erewrite bind_step by reflexivity.
  cbv beta. unfold pos at 1 2. cbn [text index].
  assert (drop (Datatypes.S (length pre)) (pre ++ json_string s ++ suf) = body ++ dquote :: suf) as ->.
  { rewrite Hs. simpl. rewrite <- app_assoc. apply drop_succ_app. }
  rewrite string_end_body by done.
  assert (Datatypes.S (Datatypes.S (length body)) = length (json_string s)) as ->.
  { rewrite Hs. simpl. rewrite length_app. simpl. lia. }
  rewrite (bind_step _ _ _ _ _ (advance_pos pre (json_string s) suf)).
  erewrite bind_step by reflexivity. simpl.
  assert (take (length (json_string s)) (drop (length pre) ((pre ++ json_string s) ++ suf))
          = json_string s) as ->.
  { rewrite <- app_assoc, drop_app_length, take_app_length. done. }
  by rewrite parse_json_string_text.
Qed.

Definition number_stop (suf : bytes) : Prop :=
  stops (λ c, is_digit c || is_char "." c || is_char "e" c || is_char "E" c) suf.

Lemma number_stop_digit suf : number_stop suf → stops is_digit suf.
Proof. destruct suf; simpl; [done|]. by intros [[[? _]%orb_false_iff _]%orb_false_iff _]%orb_false_iff. Qed.

Lemma digits1_inv l : digits1 l → ∃ c ds, l = c :: ds ∧ is_digit c = true ∧ forallb is_digit ds = true.
Proof.
  intros [Hl Hd]. destruct l as [|c ds]; [done|]. simpl in Hd. apply andb_true_iff in Hd as [??].
  by exists c, ds.
Qed.

(** A run of digits read after a marker byte. *)
Lemma read_digits_pos pre ds suf :
  digits1 ds → stops is_digit suf →
  (let! d := peek_is is_digit in skip_while is_digit ;;; ret d) (pos pre (ds ++ suf))
  = Ret true (pos (pre ++ ds) suf).
Proof.
  intros Hd Hs. destruct (digits1_inv ds Hd) as (c & l & -> & Hc & Hl).
  rewrite (bind_step _ _ _ _ _ (peek_is_pos _ _ _)). simpl app at 1. cbn match.
  rewrite Hc. rewrite (bind_step _ _ _ _ _ (skip_while_pos _ _ (c :: l) suf (proj2 Hd) Hs)). done.
Qed.
End Accept.

Section AcceptNumber.

(** The parts of a number, each stopped by what follows it. *)
Lemma exp_head (exp suf : bytes) :
  (exp = [] ∨ ∃ e esign ds, exp = e :: esign ++ ds ∧ (e = "e"%char ∨ e = "E"%char) ∧
     (esign = [] ∨ esign = ["+"%char] ∨ esign = ["-"%char]) ∧ digits1 ds) →
  number_stop suf → stops (λ c, is_digit c || is_char "." c) (exp ++ suf).
Proof.
  intros [->|(e & esign & ds & -> & [->| ->] & _)] Hs; [|done..].
  destruct suf; simpl in *; [done|]. by apply orb_false_iff in Hs as [[-> _]%orb_false_iff _].
Qed.

Lemma sign_pos {A} pre sign suf (k : unit → M Scanner A) :
  (sign = [] ∨ sign = ["-"%char]) → stops (is_char "-") suf →
  (let! minus := peek_is (is_char "-") in bind (when minus (advance 1)) k) (pos pre (sign ++ suf))
  = k tt (pos (pre ++ sign) suf).
Proof.
  intros [->| ->] Hs; rewrite (bind_step _ _ _ _ _ (peek_is_pos _ _ _)).
  - rewrite app_nil_r. simpl. destruct suf as [|c suf]; [done|]. by rewrite Hs.
  - simpl. by rewrite (bind_step _ _ _ _ _ (advance1_pos _ _ _)).
Qed.

Lemma is_char_neq c d : is_char (String c EmptyString) d = bool_decide (c = d).
Proof. unfold is_char. apply bool_decide_ext. split; [by intros [= ->]|by intros ->]. Qed.

Lemma int_part_pos pre int suf :
  (int = ["0"%char] ∨ digits1 int ∧ ∃ c ds, int = c :: ds ∧ c ≠ "0"%char) →
  stops is_digit suf →
  int_part (pos pre (int ++ suf)) = Ret true (pos (pre ++ int) suf).
Proof.
  intros Hi Hs. unfold int_part. rewrite (bind_step _ _ _ _ _ (gets_peek_pos _ _)).
  destruct Hi as [->|([_ Hd] & c & ds & -> & Hc)].
  - simpl. by rewrite (bind_step _ _ _ _ _ (advance1_pos _ _ _)).
  - simpl in Hd. apply andb_true_iff in Hd as [Hd1 Hd]. cbn [app head].
    rewrite is_char_neq, bool_decide_eq_false_2, Hd1 by congruence.
    rewrite (bind_step _ _ _ _ _ (advance1_pos _ _ _)).
    rewrite (bind_step _ _ _ _ _ (skip_while_pos _ _ _ _ Hd Hs)). simpl. by rewrite <- app_assoc.
Qed.

Lemma frac_part_pos pre frac suf :
  (frac = [] ∨ ∃ ds, frac = "."%char :: ds ∧ digits1 ds) →
  stops (λ c, is_digit c || is_char "." c) suf →
  frac_part (pos pre (frac ++ suf)) = Ret true (pos (pre ++ frac) suf).
Proof.
  intros Hf Hs. unfold frac_part. rewrite (bind_step _ _ _ _ _ (peek_is_pos _ _ _)).
  destruct Hf as [->|(ds & -> & Hd)].
  - rewrite app_nil_r. destruct suf as [|c suf]; [done|]. simpl.
    simpl in Hs. by apply orb_false_iff in Hs as [_ ->].
  - simpl. rewrite (bind_step _ _ _ _ _ (advance1_pos _ _ _)).
    rewrite read_digits_pos; [by rewrite <- app_assoc|done|].
    destruct suf; simpl in *; [done|]. by apply orb_false_iff in Hs as [-> _].
Qed.

Lemma exp_part_pos pre exp suf :
  (exp = [] ∨ ∃ e esign ds, exp = e :: esign ++ ds ∧ (e = "e"%char ∨ e = "E"%char) ∧
     (esign = [] ∨ esign = ["+"%char] ∨ esign = ["-"%char]) ∧ digits1 ds) →
  number_stop suf → exp_part (pos pre (exp ++ suf)) = Ret true (pos (pre ++ exp) suf).
Proof.
  intros He Hs. unfold exp_part. rewrite (bind_step _ _ _ _ _ (peek_is_pos _ _ _)).
  destruct He as [->|(e & esign & ds & -> & He & Hes & Hd)].
  - rewrite app_nil_r. destruct suf as [|c suf]; [done|]. simpl.
    simpl in Hs. apply orb_false_iff in Hs as [[_ ->]%orb_false_iff ->]. done.
  - simpl. assert (is_char "e" e || is_char "E" e = true) as -> by (by destruct He as [->| ->]).
    rewrite (bind_step _ _ _ _ _ (advance1_pos _ _ _)), <- app_assoc.
    pose proof (number_stop_digit _ Hs) as Hs'.
    rewrite (bind_step _ _ _ _ _ (peek_is_pos _ _ _)).
    assert (when (match esign ++ ds ++ suf with [] => false
              | c :: _ => is_char "+" c || is_char "-" c end) (advance 1)
              (pos (pre ++ [e]) (esign ++ ds ++ suf))
            = Ret tt (pos (pre ++ e :: esign) (ds ++ suf))) as Hw.
    { destruct Hes as [->|Hes].
      - destruct (digits1_inv ds Hd) as (c & l & -> & Hc & _). simpl.
        assert (is_char "+" c || is_char "-" c = false) as ->; [|done].
        rewrite !is_char_neq. apply orb_false_iff. split; apply bool_decide_eq_false_2; intros <-; done.
      - assert (∃ x, esign = [x] ∧ is_char "+" x || is_char "-" x = true) as (x & -> & Hx)
          by (destruct Hes as [->| ->]; eauto).
        simpl. rewrite Hx. simpl. rewrite advance1_pos, <- app_assoc. done. }
    rewrite (bind_step _ _ _ _ _ Hw), read_digits_pos by done.
    rewrite <- app_assoc. done.
Qed.

Lemma consume_number_pos pre l b suf :
  number_text l b → number_stop suf →
  consume_number (pos pre (l ++ suf)) = Ret (Ok tt) (pos (pre ++ l) suf).
Proof.
  intros (sign & int & frac & exp & -> & Hsign & Hint & Hfrac & Hexp & _) Hs.
  pose proof (exp_head exp suf Hexp Hs) as He.
  assert (stops is_digit (frac ++ exp ++ suf)) as Hf.
  { destruct Hfrac as [->|(ds & -> & _)]; [|done]. simpl.
    destruct (exp ++ suf); simpl in *; [done|]. by apply orb_false_iff in He as [-> _]. }
  assert (stops (is_char "-") (int ++ frac ++ exp ++ suf)) as Hm.
  { destruct Hint as [->|(Hd & _)]; [done|]. destruct (digits1_inv int Hd) as (c & ds & -> & Hc & _).
    simpl. rewrite is_char_neq. apply bool_decide_eq_false_2. by intros <-. }
  unfold consume_number. rewrite (bind_step (gets index) _ _ _ _ eq_refl).
  rewrite <- !app_assoc, sign_pos by done.
  rewrite (bind_step _ _ _ _ _ (int_part_pos _ _ _ Hint Hf)). cbn [negb].
  rewrite (bind_step _ _ _ _ _ (frac_part_pos _ _ _ Hfrac He)). cbn [negb].
  rewrite (bind_step _ _ _ _ _ (exp_part_pos _ _ _ Hexp Hs)). cbn [negb].
  by rewrite !app_assoc.
Qed.
End AcceptNumber.

(** ** Numbers *)

(** The integer a JSON integer text stands for. *)
Definition int_number (z : Z) : Number := if (0 <=? z)%Z then PosInt z else NegInt z.

(** The number the canonical text of [n] reads back as. *)
Definition norm_number (n : Number) : Number :=
  match n with
  | Float (S754_zero _) => PosInt 0
  | Float (S754_finite s m e) =>
      if fract_zero m e && (trunc_abs m e <=? JS_MAX_SAFE_INTEGER)%Z
      then int_number (if s then - trunc_abs m e else trunc_abs m e)%Z else n
  | _ => n
  end.

Lemma digits1_dec n : digits1 (dec_of_N n).
Proof. split; [apply dec_of_N_nonempty|apply dec_of_N_digits]. Qed.

Lemma int_text n :
  dec_of_N n = ["0"%char] ∨
  digits1 (dec_of_N n) ∧ ∃ c ds, dec_of_N n = c :: ds ∧ c ≠ "0"%char.
Proof.
  destruct (dec_of_N_head n) as (d & l & Hn & Hd & H0). destruct (decide (d = 0%N)) as [->|Hne].
  - destruct H0 as [_ ->]; [done|]. by left.
  - right. split; [apply digits1_dec|]. exists (digit d), l. split; [done|]. intros Heq.
    apply Hne. rewrite <- (digit_val_digit d Hd), Heq. done.
Qed.

Lemma number_text_dec z : number_text (dec_of_Z z) true.
Proof.
  destruct z as [|p|p].
  - exists [], (dec_of_N 0), [], []. split_and!; [done|by left|apply int_text|by left|by left|done].
  - exists [], (dec_of_N (Npos p)), [], [].
    split_and!; [by rewrite !app_nil_r|by left|apply int_text|by left|by left|done].
  - exists ["-"%char], (dec_of_N (Npos p)), [], [].
    split_and!; [by rewrite !app_nil_r|by right|apply int_text|by left|by left|done].
Qed.

Lemma dec_head_not_minus n l : dec_of_N n ≠ "-"%char :: l.
Proof.
  intros Hn. destruct (dec_of_N_head n) as (d & l' & Hd & Hlt & _). rewrite Hd in Hn.
  injection Hn as Hm _. apply (f_equal N_of_ascii) in Hm. rewrite digit_code in Hm by done.
  change (N_of_ascii "-") with 45%N in Hm. lia.
Qed.

#[export] Instance dec_of_Z_inj : Inj (=) (=) dec_of_Z.
Proof.
  intros [|p|p] [|q|q] Heq; simpl in Heq; try done.
  all: try (symmetry in Heq; by apply dec_head_not_minus in Heq).
  all: try (by apply dec_head_not_minus in Heq).
  all: try injection Heq as Heq; apply dec_of_N_inj in Heq; congruence.
Qed.

Definition number_char (c : ascii) : bool :=
  is_digit c || is_char "." c || is_char "e" c || is_char "E" c || is_char "+" c || is_char "-" c.

Definition int_char (c : ascii) : bool := is_digit c || is_char "-" c.

Lemma forallb_digit_weaken p l :
  (∀ c, is_digit c = true → p c = true) → forallb is_digit l = true → forallb p l = true.
Proof. rewrite !List.forallb_forall. auto. Qed.

(** Every byte of a number is a number byte; an integer has digits and a sign
    only, any other number a point or an exponent. *)
Lemma number_text_chars l b :
  number_text l b →
  forallb number_char l = true ∧ forallb int_char l = b.
Proof.
  intros (sign & int & frac & exp & -> & Hsign & Hint & Hfrac & Hexp & Hb).
  assert (∀ c, is_digit c = true → number_char c = true) as Hn
    by (intros c Hc; unfold number_char; by rewrite Hc).
  assert (∀ c, is_digit c = true → int_char c = true) as Hi
    by (intros c Hc; unfold int_char; by rewrite Hc).
  assert (forallb number_char sign = true ∧ forallb int_char sign = true) as [Hs1 Hs2]
    by (destruct Hsign as [->| ->]; done).
  assert (forallb is_digit int = true) as Hd by (destruct Hint as [->|[[_ ?] _]]; done).
  rewrite !forallb_app, Hs1, Hs2, (forallb_digit_weaken _ _ Hn Hd), (forallb_digit_weaken _ _ Hi Hd).
  simpl. assert (forallb number_char frac = true ∧ (forallb int_char frac = true ↔ frac = [])) as [Hf1 Hf2].
  { destruct Hfrac as [->|(ds & -> & _ & Hds)]; [done|]. simpl.
    by rewrite (forallb_digit_weaken _ _ Hn Hds). }
  assert (forallb number_char exp = true ∧ (forallb int_char exp = true ↔ exp = [])) as [He1 He2].
  { destruct Hexp as [->|(e & esign & ds & -> & He & Hes & _ & Hds)]; [done|]. simpl.
    rewrite !forallb_app, (forallb_digit_weaken _ _ Hn Hds).
    destruct He as [->| ->], Hes as [->|[->| ->]]; simpl; split; done. }
  rewrite Hf1, He1. split; [done|]. apply eq_bool_prop_intro. rewrite !Is_true_true.
  rewrite andb_true_iff, Hf2, He2. symmetry. exact Hb.
Qed.

Lemma number_text_kind l : number_text l true → number_text l false → False.
Proof. intros [_ H1]%number_text_chars [_ H2]%number_text_chars. congruence. Qed.

Section Numbers.
Context `{!SerdeJson} `{!SerdeJsonLaws}.

Definition number_strict (n : Number) : Prop :=
  number_wf n ∧ ∀ path, validate_number n path = Ok tt.

(** A strict number prints as an integer, or is a float with a fraction. *)
Lemma canonical_number_cases n :
  number_strict n →
  (∃ z, canonical_number_string n = dec_of_Z z ∧ norm_number n = int_number z) ∨
  (∃ s m e, n = Float (S754_finite s m e) ∧ fract_zero m e = false ∧
     canonical_number_string n = float_string (S754_finite s m e) ∧ norm_number n = n).
Proof.
  intros [Hwf Hv]. specialize (Hv EmptyString).
  destruct n as [z|z|[s|s| |s m e]]; simpl in Hwf; try done.
  - left. exists z. unfold canonical_number_string, int_number. simpl.
    destruct (z <=? _)%Z; rewrite (proj2 (Z.leb_le 0 z)) by lia; done.
  - left. exists z. unfold canonical_number_string, int_number. simpl.
    rewrite (proj2 (Z.leb_gt 0 z)) by lia. done.
  - left. by exists 0%Z.
  - unfold canonical_number_string. simpl. destruct (fract_zero m e) eqn:Hf.
    + left. unfold validate_number in Hv. simpl in Hv. case_match; [done|].
      destruct (below_min_positive m e); [done|]. rewrite Hf in Hv. simpl in Hv.
      destruct (JS_MAX_SAFE_INTEGER <? trunc_abs m e)%Z eqn:Hlt; [done|].
      apply Z.ltb_ge in Hlt. rewrite (proj2 (Z.leb_le _ _) Hlt). simpl.
      exists (if s then - trunc_abs m e else trunc_abs m e)%Z. done.
    + right. by exists s, m, e.
Qed.

Lemma canonical_number_text n :
  number_strict n → ∃ b, number_text (canonical_number_string n) b.
Proof.
  intros [(z & -> & _)|(s & m & e & _ & Hf & -> & _)]%canonical_number_cases.
  - exists true. apply number_text_dec.
  - exists false. by apply float_string_number.
Qed.

(** The text of a number determines it, up to the form of an integer. *)
Lemma canonical_number_inj n n' :
  number_strict n → number_strict n' →
  canonical_number_string n = canonical_number_string n' → norm_number n = norm_number n'.
Proof.
  intros Hn Hn' Heq.
  destruct (canonical_number_cases n Hn) as [(z & Hz & ->)|(s & m & e & -> & Hf & Hs & ->)];
    destruct (canonical_number_cases n' Hn') as [(z' & Hz' & ->)|(s' & m' & e' & -> & Hf' & Hs' & ->)].
  - rewrite Hz, Hz' in Heq. by apply dec_of_Z_inj in Heq as ->.
  - exfalso. rewrite Hz, Hs' in Heq. eapply number_text_kind; [apply (number_text_dec z)|].
    rewrite Heq. by apply float_string_number.
  - exfalso. rewrite Hz', Hs in Heq. eapply number_text_kind; [apply (number_text_dec z')|].
    rewrite <- Heq. by apply float_string_number.
  - rewrite Hs, Hs' in Heq. f_equal. by apply float_string_inj.
Qed.
End Numbers.

(** ** The entries of an object, in printing order *)

Definition entries (map : list (string * Value)) : list (string * Value) :=
  (λ k, (k, default Null (bt_get k map))) <$> sorted_keys map.

Lemma bt_get_fmap {A B} (f : A → B) (k : string) (m : list (string * A)) :
  bt_get k ((λ kv, (kv.1, f kv.2)) <$> m) = f <$> bt_get k m.
Proof. induction m as [|[k' v'] m IH]; simpl; [done|]. by case_decide. Qed.

Lemma bt_get_key {A} (k : string) (m : list (string * A)) :
  k ∈ m.*1 → ∃ v, bt_get k m = Some v ∧ (k, v) ∈ m.
Proof.
  induction m as [|[k' v'] m IH]; simpl; [by intros ?%elem_of_nil|].
  intros [->|Hk]%elem_of_cons; [rewrite decide_True by done; eauto using list_elem_of_here|].
  case_decide as Hkk; [subst; eauto using list_elem_of_here|].
  destruct (IH Hk) as (v & Hv & Hin). exists v. split; [done|]. by right.
Qed.

Lemma sorted_keys_perm {A} (m : list (string * A)) : sorted_keys m ≡ₚ m.*1.
Proof. apply sort_by_perm. Qed.

Lemma entries_keys m : (entries m).*1 = sorted_keys m.
Proof.
  unfold entries. rewrite <- list_fmap_compose. apply list_fmap_id.
Qed.

Lemma entries_forall (P : string * Value → Prop) m : Forall P m → Forall P (entries m).
Proof.
  rewrite !Forall_forall. intros HP kv Hin. unfold entries in Hin.
  apply list_elem_of_fmap in Hin as (k & -> & Hk). rewrite sorted_keys_perm in Hk.
  destruct (bt_get_key k m Hk) as (v & -> & Hv). by apply HP.
Qed.

Lemma entries_nodup m : bt_wf m → NoDup (entries m).*1.
Proof. intros Hm. rewrite entries_keys, sorted_keys_perm. by apply bt_wf_nodup. Qed.

Lemma bt_get_nodup {A} (k : string) v (m : list (string * A)) :
  NoDup m.*1 → (k, v) ∈ m → bt_get k m = Some v.
Proof.
  induction m as [|[k' v'] m IH]; simpl; [by intros _ ?%elem_of_nil|].
  intros [Hk Hnd]%NoDup_cons [[= -> ->]|Hin]%elem_of_cons; [by rewrite decide_True|].
  rewrite decide_False; [by apply IH|]. intros ->. apply Hk.
  by apply (list_elem_of_fmap_2' fst m (k', v)).
Qed.

Lemma bt_get_entries k m : bt_wf m → bt_get k (entries m) = bt_get k m.
Proof.
  intros Hm. destruct (bt_get k m) as [v|] eqn:Hv.
  - apply bt_get_nodup; [by apply entries_nodup|]. unfold entries. apply list_elem_of_fmap.
    exists k. rewrite Hv. split; [done|]. rewrite sorted_keys_perm. apply bt_get_elem in Hv.
    by apply (list_elem_of_fmap_2' fst m (k, v)).
  - destruct (bt_get k (entries m)) as [v|] eqn:He; [|done]. exfalso.
    apply bt_get_elem, (list_elem_of_fmap_2 fst) in He. simpl in He.
    rewrite entries_keys, sorted_keys_perm in He. apply bt_get_key in He as (v' & He & _). congruence.
Qed.

Section Entries.
Context `{!SerdeJson}.

Definition print_entry (kv : string * Value) : bytes :=
  json_string kv.1 ++ ":"%char :: canonical_json_string kv.2.

Lemma canonical_obj m :
  canonical_json_string (Obj m) = "{"%char :: join_items (print_entry <$> entries m) ++ ["}"%char].
Proof.
  simpl. f_equal. f_equal. f_equal. unfold entries. rewrite <- list_fmap_compose.
  apply list_fmap_ext. intros i k Hk. unfold print_entry. simpl. do 2 f_equal.
  apply list_elem_of_lookup_2 in Hk. rewrite sorted_keys_perm in Hk.
  destruct (bt_get_key k m Hk) as (v & Hv & _). by rewrite bt_get_fmap, Hv.
Qed.

Lemma canonical_arr values :
  canonical_json_string (Arr values) =
    "["%char :: join_items (canonical_json_string <$> values) ++ ["]"%char].
Proof. done. Qed.

Lemma join_items_cons {A} (f : A → bytes) x l :
  l ≠ [] → join_items (f <$> x :: l) = f x ++ ","%char :: join_items (f <$> l).
Proof. by destruct l. Qed.

Lemma join_items_one {A} (f : A → bytes) x : join_items (f <$> [x]) = f x.
Proof. apply app_nil_r. Qed.

(** ** Acceptance *)

Context `{!SerdeJsonLaws}.

Definition value_strict : Value → Prop := value_all number_strict.

(** The first byte of a canonical value starts a value and nothing else. *)
Definition starts_value (c : ascii) : Prop :=
  is_ws c = false ∧ is_char "]" c = false ∧ is_char "}" c = false.

Lemma canonical_head v :
  value_strict v → ∃ c l, canonical_json_string v = c :: l ∧ starts_value c.
Proof.
  destruct v as [|[]|n|s|values|m]; intros Hv; simpl; try (eexists _, _; done).
  - destruct (canonical_number_text n Hv) as [b Hb].
    destruct (number_text_chars _ _ Hb) as [Hc _].
    destruct Hb as (sign & int & frac & exp & Hl & Hsign & Hint & _). rewrite Hl in *.
    assert (∃ c l, sign ++ int ++ frac ++ exp = c :: l) as (c & l & Hcl).
    { destruct Hsign as [->| ->]; [|by eexists _, _]. destruct Hint as [->|(_ & c & ds & -> & _)];
        by eexists _, _. }
    exists c, l. split; [done|]. rewrite Hcl in Hc. simpl in Hc. apply andb_true_iff in Hc as [Hc _].
    unfold number_char in Hc. unfold starts_value. clear -Hc. by destruct c as [[] [] [] [] [] [] [] []].
  - destruct (json_string_literal s) as (body & -> & _). by eexists _, _.
Qed.

Definition accepts (v : Value) : Prop :=
  ∀ path pre post fuel, number_stop post →
    length (canonical_json_string v ++ post) * 2 + 1 ≤ fuel →
    scan fuel (ScanValue path) (pos pre (canonical_json_string v ++ post))
    = Ret (Ok tt) (pos (pre ++ canonical_json_string v) post).

Lemma in_text pre suf : suf ≠ [] → (length (text (pos pre suf)) <=? index (pos pre suf)) = false.
Proof.
  intros Hs. apply Nat.leb_gt. simpl. rewrite length_app. destruct suf; [done|simpl; lia].
Qed.

Lemma skip_ws_pos pre c suf :
  is_ws c = false → skip_whitespace (pos pre (c :: suf)) = Ret tt (pos pre (c :: suf)).
Proof. intros Hc. by apply skip_none_pos. Qed.

Lemma gets_id (s : Scanner) : gets id s = Ret s s.
Proof. done. Qed.

Lemma gets_index_pos pre suf : gets index (pos pre suf) = Ret (length pre) (pos pre suf).
Proof. done. Qed.

Lemma scan_value fuel path : scan (S fuel) (ScanValue path) = parse_value (scan fuel) path.
Proof. done. Qed.

Lemma scan_array fuel path item :
  scan (S fuel) (ScanArray path item) = parse_array_loop (scan fuel) path item.
Proof. done. Qed.

Lemma scan_object fuel path keys :
  scan (S fuel) (ScanObject path keys) = parse_object_loop (scan fuel) path keys.
Proof. done. Qed.

Lemma array_loop values :
  values ≠ [] → Forall value_strict values → Forall accepts values →
  ∀ pre path item post fuel,
    length (join_items (canonical_json_string <$> values) ++ "]"%char :: post) * 2 + 2 ≤ fuel →
    scan fuel (ScanArray path item)
      (pos pre (join_items (canonical_json_string <$> values) ++ "]"%char :: post))
    = Ret (Ok tt) (pos (pre ++ join_items (canonical_json_string <$> values) ++ ["]"%char]) post).
Proof.
  induction values as [|v values IH]; [done|]. intros _ [Hs Hss]%Forall_cons [Hv Hvs]%Forall_cons.
  intros pre path item post [|fuel] Hf; [lia|]. rewrite scan_array. unfold parse_array_loop.
  destruct (canonical_head v Hs) as (c & l & Hcl & _).
  rewrite (bind_step _ _ _ _ _ (gets_id _)).
  destruct (decide (values = [])) as [->|Hne].
  - rewrite !join_items_one in *. rewrite in_text by (by rewrite Hcl). cbv iota.
    rewrite length_app in Hf. simpl in Hf.
    rewrite (mrbind_step _ _ _ _ _ (Hv _ pre ("]"%char :: post) fuel eq_refl ltac:(rewrite length_app; simpl; lia))).
    rewrite (bind_step _ _ _ _ _ (skip_ws_pos _ "]"%char post eq_refl)).
    rewrite (bind_step _ _ _ _ _ (gets_peek_pos _ _)), (bind_step _ _ _ _ _ (gets_index_pos _ _)).
    simpl. rewrite (bind_step _ _ _ _ _ (advance1_pos _ _ _)). by rewrite <- app_assoc.
  - rewrite join_items_cons in * by done. rewrite <- (app_assoc (canonical_json_string v)) in *.
    cbn [app] in *. rewrite in_text by (by rewrite Hcl). cbv iota. rewrite length_app in Hf. cbn [length] in Hf.
    rewrite (mrbind_step _ _ _ _ _ (Hv _ pre (","%char :: join_items (canonical_json_string <$> values) ++ "]"%char :: post)
               fuel eq_refl ltac:(rewrite length_app; cbn [length]; lia))).
    rewrite (bind_step _ _ _ _ _ (skip_ws_pos _ ","%char _ eq_refl)).
    rewrite (bind_step _ _ _ _ _ (gets_peek_pos _ _)), (bind_step _ _ _ _ _ (gets_index_pos _ _)).
    cbn [head]. change (is_char "," ",") with true. cbv iota.
    rewrite (bind_step _ _ _ _ _ (advance1_pos _ _ _)).
    rewrite IH; [|done..|lia]. f_equal. f_equal. by rewrite <- !app_assoc.
Qed.

(** One entry of an object up to its value. *)
Lemma object_entry kv pre path keys fuel post :
  value_strict kv.2 → accepts kv.2 → kv.1 ∉ keys → number_stop post →
  length (print_entry kv ++ post) * 2 + 2 ≤ S fuel →
  parse_object_loop (scan fuel) path keys (pos pre (print_entry kv ++ post)) =
  (skip_whitespace ;;;
   let! c := gets peek in
   let! i := gets index in
   match c with
   | Some c =>
       if is_char "," c then advance 1 ;;; scan fuel (ScanObject path (keys ++ [kv.1]))
       else if is_char "}" c then advance 1 ;;; scan_ok
       else fail (near "expected ',' or '}'" i)
   | None => fail (near "expected ',' or '}'" i)
   end) (pos (pre ++ print_entry kv) post).
Proof.
  intros Hs Hv Hk Hp Hf. unfold parse_object_loop. rewrite (bind_step _ _ _ _ _ (gets_id _)).
  destruct (json_string_literal kv.1) as (body & Hbody & _).
  destruct (canonical_head kv.2 Hs) as (c & l & Hcl & _).
  unfold print_entry in *. rewrite <- app_assoc in *. rewrite in_text by (by rewrite Hbody). cbv iota.
  rewrite (bind_step _ _ (pos pre (json_string kv.1 ++ (":"%char :: canonical_json_string kv.2) ++ post)) tt
             (pos pre (json_string kv.1 ++ (":"%char :: canonical_json_string kv.2) ++ post))).
  2: { rewrite Hbody. by apply skip_ws_pos. }
  rewrite (bind_step _ _ _ _ _ (peek_is_pos _ _ _)), (bind_step _ _ _ _ _ (gets_index_pos _ _)).
  assert (∀ suf, match json_string kv.1 ++ suf with [] => false | c :: _ => bool_decide (c = dquote) end
                 = true) as Hopen by (intros suf; by rewrite Hbody).
  rewrite Hopen. cbn [negb].
  rewrite (mrbind_step _ _ _ _ _ (read_json_string_pos _ _ _)).
  rewrite bool_decide_eq_false_2 by done. cbn [app].
  rewrite (bind_step _ _ _ _ _ (skip_ws_pos _ ":"%char _ eq_refl)).
  rewrite (bind_step _ _ _ _ _ (peek_is_pos _ _ _)), (bind_step _ _ _ _ _ (gets_index_pos _ _)).
  change (is_char ":" ":") with true. cbn [negb].
  rewrite (bind_step _ _ _ _ _ (advance1_pos _ _ _)).
  rewrite (mrbind_step _ _ _ _ _ (Hv _ _ post fuel Hp ltac:(rewrite !length_app in *; cbn [length] in *; lia))).
  by rewrite <- !app_assoc.
Qed.

Lemma object_loop (es : list (string * Value)) :
  es ≠ [] → Forall (λ kv, value_strict kv.2) es → Forall (λ kv, accepts kv.2) es →
  ∀ pre path keys post fuel, NoDup (keys ++ es.*1) →
    length (join_items (print_entry <$> es) ++ "}"%char :: post) * 2 + 2 ≤ fuel →
    scan fuel (ScanObject path keys) (pos pre (join_items (print_entry <$> es) ++ "}"%char :: post))
    = Ret (Ok tt) (pos (pre ++ join_items (print_entry <$> es) ++ ["}"%char]) post).
Proof.
  induction es as [|kv es IH]; [done|]. intros _ [Hs Hss]%Forall_cons [Hv Hvs]%Forall_cons.
  intros pre path keys post [|fuel] Hnd Hf; [lia|]. rewrite scan_object.
  assert (kv.1 ∉ keys) as Hk.
  { intros Hin. apply NoDup_app in Hnd as (_ & Hd & _). apply (Hd _ Hin). simpl. by left. }
  destruct (decide (es = [])) as [->|Hne].
  - rewrite !join_items_one in *. rewrite object_entry by done.
    rewrite (bind_step _ _ _ _ _ (skip_ws_pos _ "}"%char post eq_refl)).
    rewrite (bind_step _ _ _ _ _ (gets_peek_pos _ _)), (bind_step _ _ _ _ _ (gets_index_pos _ _)).
    cbn [head]. change (is_char "," "}") with false. change (is_char "}" "}") with true. cbv iota.
    rewrite (bind_step _ _ _ _ _ (advance1_pos _ _ _)). by rewrite <- app_assoc.
  - rewrite join_items_cons in * by done. rewrite <- (app_assoc (print_entry kv)) in *. cbn [app] in *.
    rewrite object_entry by done.
    rewrite (bind_step _ _ _ _ _ (skip_ws_pos _ ","%char _ eq_refl)).
    rewrite (bind_step _ _ _ _ _ (gets_peek_pos _ _)), (bind_step _ _ _ _ _ (gets_index_pos _ _)).
    cbn [head]. change (is_char "," ",") with true. cbv iota.
    rewrite (bind_step _ _ _ _ _ (advance1_pos _ _ _)).
    rewrite IH; [|done..| |].
    + f_equal. f_equal. by rewrite <- !app_assoc.
    + rewrite <- app_assoc. exact Hnd.
    + rewrite length_app in Hf. cbn [length] in Hf. lia.
Qed.

Lemma parse_value_pos rec path pre c suf :
  is_ws c = false →
  parse_value rec path (pos pre (c :: suf)) =
  (if is_char "{" c then parse_object rec path
   else if is_char "[" c then parse_array rec path
   else if bool_decide (c = dquote) then let!? _ := read_json_string in scan_ok
   else if is_char "t" c then consume_literal "true"
   else if is_char "f" c then consume_literal "false"
   else if is_char "n" c then consume_literal "null"
   else if is_char "-" c || is_digit c then consume_number
   else fail (near "malformed JSON" (length pre))) (pos pre (c :: suf)).
Proof.
  intros Hc. unfold parse_value. rewrite (bind_step _ _ _ _ _ (skip_ws_pos _ _ suf Hc)).
  by rewrite (bind_step _ _ _ _ _ (gets_peek_pos _ _)), (bind_step _ _ _ _ _ (gets_index_pos _ _)).
Qed.

Lemma consume_literal_pos lit pre suf :
  consume_literal lit (pos pre (bytes_of lit ++ suf)) = Ret (Ok tt) (pos (pre ++ bytes_of lit) suf).
Proof.
  unfold consume_literal. rewrite (bind_step _ _ _ _ _ (gets_id _)), drop_pos.
  unfold starts_with. rewrite strip_prefix_app, bool_decide_eq_true_2 by done.
  assert (String.length lit = length (bytes_of lit)) as ->.
  { induction lit as [|c lit IH]; [done|]. unfold bytes_of in *. simpl. by rewrite IH. }
  by rewrite (bind_step _ _ _ _ _ (advance_pos _ _ _)).
Qed.

Lemma number_head l b :
  number_text l b → ∃ c l', l = c :: l' ∧ is_char "-" c || is_digit c = true.
Proof.
  intros (sign & int & frac & exp & -> & Hsign & Hint & _).
  destruct Hsign as [->| ->]; [|by eexists _, _]. destruct Hint as [->|(Hd & _)]; [by eexists _, _|].
  destruct (digits1_inv int Hd) as (c & ds & -> & Hc & _). exists c, (ds ++ frac ++ exp).
  split; [done|]. rewrite Hc. apply orb_true_r.
Qed.

Lemma number_head_other c :
  is_char "-" c || is_digit c = true →
  is_ws c = false ∧ is_char "{" c = false ∧ is_char "[" c = false ∧ bool_decide (c = dquote) = false ∧
  is_char "t" c = false ∧ is_char "f" c = false ∧ is_char "n" c = false.
Proof. by destruct c as [[] [] [] [] [] [] [] []]. Qed.

Lemma array_accepted values : Forall value_strict values → Forall accepts values → accepts (Arr values).
Proof.
  intros Hs Hv path pre post [|fuel] Hp Hf; [lia|]. rewrite scan_value, canonical_arr in *.
  cbn [app] in *. rewrite <- app_assoc in *. cbn [app length] in *.
  rewrite parse_value_pos by done. change (is_char "{" "[") with false. change (is_char "[" "[") with true.
  cbv iota. unfold parse_array. rewrite (bind_step _ _ _ _ _ (advance1_pos _ _ _)).
  destruct (decide (values = [])) as [->|Hne].
  - cbn [join_items fmap list_fmap app] in *. rewrite (bind_step _ _ _ _ _ (skip_ws_pos _ "]"%char post eq_refl)).
    rewrite (bind_step _ _ _ _ _ (peek_is_pos _ _ _)). change (is_char "]" "]") with true. cbv iota.
    rewrite (bind_step _ _ _ _ _ (advance1_pos _ _ _)). by rewrite <- app_assoc.
  - assert (∃ c l, join_items (canonical_json_string <$> values) = c :: l ∧ starts_value c)
      as (c & l & Hcl & Hws & Hc & _).
    { destruct values as [|v values]; [done|]. apply Forall_cons in Hs as [Hs _].
      destruct (canonical_head v Hs) as (c & l & Hcl & Hc). rewrite fmap_cons. unfold join_items.
      rewrite Hcl. by eexists _, _. }
    rewrite (bind_step _ _ (pos (pre ++ ["["%char]) (join_items (canonical_json_string <$> values) ++ "]"%char :: post)) tt
      (pos (pre ++ ["["%char]) (join_items (canonical_json_string <$> values) ++ "]"%char :: post)))
      by (rewrite Hcl; by apply skip_ws_pos).
    rewrite (bind_step _ _ _ _ _ (peek_is_pos _ _ _)).
    assert (∀ suf, match join_items (canonical_json_string <$> values) ++ suf with
              [] => false | c :: _ => is_char "]" c end = false) as -> by (intros; by rewrite Hcl).
    cbv iota. rewrite array_loop by (done || lia). by rewrite <- app_assoc.
Qed.

Lemma object_accepted m :
  bt_wf m → Forall (λ kv, value_strict kv.2) m → Forall (λ kv, accepts kv.2) m → accepts (Obj m).
Proof.
  intros Hm Hs Hv path pre post [|fuel] Hp Hf; [lia|]. rewrite scan_value, canonical_obj in *.
  cbn [app] in *. rewrite <- app_assoc in *. cbn [app length] in *.
  rewrite parse_value_pos by done. change (is_char "{" "{") with true.
  cbv iota. unfold parse_object. rewrite (bind_step _ _ _ _ _ (advance1_pos _ _ _)).
  apply entries_nodup in Hm. apply entries_forall in Hs, Hv. revert Hm Hs Hv Hf.
  generalize (entries m) as es. intros es Hm Hs Hv Hf.
  destruct (decide (es = [])) as [->|Hne].
  - cbn [join_items fmap list_fmap app] in *. rewrite (bind_step _ _ _ _ _ (skip_ws_pos _ "}"%char post eq_refl)).
    rewrite (bind_step _ _ _ _ _ (peek_is_pos _ _ _)). change (is_char "}" "}") with true. cbv iota.
    rewrite (bind_step _ _ _ _ _ (advance1_pos _ _ _)). by rewrite <- app_assoc.
  - assert (∃ l, join_items (print_entry <$> es) = dquote :: l) as (l & Hcl).
    { destruct es as [|kv es]; [done|]. rewrite fmap_cons. unfold join_items, print_entry at 1.
      destruct (json_string_literal kv.1) as (body & -> & _). by eexists. }
    rewrite (bind_step _ _ (pos (pre ++ ["{"%char]) (join_items (print_entry <$> es) ++ "}"%char :: post)) tt
      (pos (pre ++ ["{"%char]) (join_items (print_entry <$> es) ++ "}"%char :: post)))
      by (rewrite Hcl; by apply skip_ws_pos).
    rewrite (bind_step _ _ _ _ _ (peek_is_pos _ _ _)).
    assert (∀ suf, match join_items (print_entry <$> es) ++ suf with
              [] => false | c :: _ => is_char "}" c end = false) as -> by (intros; by rewrite Hcl).
    cbv iota. rewrite object_loop by (done || lia). by rewrite <- app_assoc.
Qed.

(** The scanner accepts every canonical value, wherever it stands. *)
Lemma canonical_accepted v : value_strict v → accepts v.
Proof.
  induction v as [|b|n|s|values IH|m IH] using Value_ind'; intros Hs.
  1-4: intros path pre post [|fuel] Hp Hf; [lia|]; rewrite scan_value.
  - change (canonical_json_string Null ++ post) with ("n"%char :: bytes_of "ull" ++ post).
    rewrite parse_value_pos by done. exact (consume_literal_pos "null" pre post).
  - destruct b.
    + change (canonical_json_string (Bool true) ++ post) with ("t"%char :: bytes_of "rue" ++ post).
      rewrite parse_value_pos by done. exact (consume_literal_pos "true" pre post).
    + change (canonical_json_string (Bool false) ++ post) with ("f"%char :: bytes_of "alse" ++ post).
      rewrite parse_value_pos by done. exact (consume_literal_pos "false" pre post).
  - destruct (canonical_number_text n Hs) as [b Hb]. destruct (number_head _ _ Hb) as (c & l & Hcl & Hc).
    simpl canonical_json_string in *. destruct (number_head_other c Hc) as (H1 & H2 & H3 & H4 & H5 & H6 & H7).
    pose proof (consume_number_pos pre _ _ post Hb Hp) as Hn. rewrite Hcl in *. cbn [app] in *.
    rewrite parse_value_pos by done. by rewrite H2, H3, H4, H5, H6, H7, Hc.
  - simpl canonical_json_string. pose proof (read_json_string_pos pre s post) as Hr.
    destruct (json_string_literal s) as (body & Hbody & _). rewrite Hbody in *. cbn [app] in *.
    rewrite parse_value_pos by done. change (is_char "{" dquote) with false.
    change (is_char "[" dquote) with false. rewrite bool_decide_eq_true_2 by done. cbv iota.
    by rewrite (mrbind_step _ _ _ _ _ Hr).
  - apply value_all_arr in Hs. apply array_accepted; [done|]. apply Forall_forall. intros v Hin.
    rewrite Forall_forall in IH, Hs. apply IH; [done|by apply Hs].
  - apply value_all_obj in Hs as [Hm Hs]. apply object_accepted; [done..|]. apply Forall_forall. intros v Hin.
    rewrite Forall_forall in IH, Hs. apply IH; [done|by apply Hs].
Qed.
End Entries.
