(* ===== verification/JsonCanon.v ===== *)
(** * Canonical JSON identifies values

    Canonical bytes determine a value up to the form of its numbers, strict
    decoding inverts strict encoding and accepts canonical bytes only, and the
    decimal integer strings round trip. *)

From Stdlib Require Import Ascii String SpecFloat.
From stdpp Require Import base list option numbers strings pretty.
From Stdlib Require Import Sorted.
From S2P Require Import Prelude.
From S2P Require Import BTree.
From S2P Require Import Text.
From S2P Require Import Json.
From S2P Require Import JsonAccept.

Local Open Scope rx_scope.

(** ** Canonical text determines the value *)

Fixpoint norm_value (v : Value) : Value :=
  match v with
  | Num n => Num (norm_number n)
  | Arr values => Arr (norm_value <$> values)
  | Obj m => Obj ((λ kv, (kv.1, norm_value kv.2)) <$> m)
  | v => v
  end.

Lemma app_split (p : ascii → bool) l l' post post' :
  forallb p l = true → forallb p l' = true → stops p post → stops p post' →
  l ++ post = l' ++ post' → l = l' ∧ post = post'.
Proof.
  revert l'. induction l as [|c l IH]; intros [|c' l'] Hl Hl' Hp Hp' Heq; simpl in *.
  - done.
  - subst post. simpl in Hp. by rewrite Hp in Hl'.
  - subst post'. simpl in Hp'. by rewrite Hp' in Hl.
  - injection Heq as -> Heq. apply andb_true_iff in Hl as [_ Hl], Hl' as [_ Hl'].
    by destruct (IH l' Hl Hl' Hp Hp' Heq) as [-> ->].
Qed.

Section JoinInj.
Context {A B : Type} (print : A → bytes) (norm : A → B) (close : ascii) (good : A → Prop).

(** [print a] tells [norm a] and where it ends. *)
Definition determined (a : A) : Prop :=
  ∀ a' post post', good a' → stops number_char post → stops number_char post' →
    print a ++ post = print a' ++ post' → norm a = norm a' ∧ post = post'.

Context (Hclose : number_char close = false) (Hcomma : close ≠ ","%char).
Context (Hhead : ∀ a, good a → ∃ c l, print a = c :: l ∧ c ≠ close).

Lemma join_determined l l' post post' :
  Forall good l → Forall determined l → Forall good l' →
  join_items (print <$> l) ++ close :: post = join_items (print <$> l') ++ close :: post' →
  norm <$> l = norm <$> l' ∧ post = post'.
Proof.
  revert l'. induction l as [|a l IH]; intros l' Hg Hd Hg' Heq.
  - destruct l' as [|a' l']; [by injection Heq as ->|]. exfalso.
    apply Forall_cons in Hg' as [Ha' _]. destruct (Hhead a' Ha') as (c & t & Hc & Hne).
    rewrite fmap_cons in Heq. unfold join_items in Heq. rewrite Hc in Heq. simpl in Heq. congruence.
  - apply Forall_cons in Hg as [Ha Hg], Hd as [Hda Hd]. destruct l' as [|a' l'].
    { exfalso. destruct (Hhead a Ha) as (c & t & Hc & Hne). rewrite fmap_cons in Heq.
      unfold join_items in Heq. rewrite Hc in Heq. simpl in Heq. congruence. }
    apply Forall_cons in Hg' as [Ha' Hg'].
    assert (∀ x (k : list A), join_items (print <$> x :: k) ++ close :: post =
              print x ++ (mjoin ((λ i, ","%char :: i) <$> (print <$> k)) ++ close :: post)) as Hsp
      by (intros; by rewrite fmap_cons; simpl; rewrite <- app_assoc).
    assert (∀ x (k : list A), join_items (print <$> x :: k) ++ close :: post' =
              print x ++ (mjoin ((λ i, ","%char :: i) <$> (print <$> k)) ++ close :: post')) as Hsp'
      by (intros; by rewrite fmap_cons; simpl; rewrite <- app_assoc).
    rewrite Hsp, Hsp' in Heq. apply Hda in Heq as [Hn Heq]; [|done|by destruct l|by destruct l'].
    rewrite !fmap_cons, Hn.
    destruct l as [|b l], l' as [|b' l']; simpl in Heq.
    + by injection Heq as ->.
    + congruence.
    + congruence.
    + injection Heq as Heq. destruct (IH (b' :: l') Hg Hd Hg') as [Hl ->]; [|split; congruence].
      rewrite !fmap_cons. simpl. rewrite <- !app_assoc in *. exact Heq.
Qed.
End JoinInj.

Section Determined.
Context `{!SerdeJson} `{!SerdeJsonLaws}.

#[export] Instance json_string_inj : Inj (=) (=) json_string.
Proof.
  intros s s' Heq. apply (f_equal parse_json_string) in Heq. rewrite !parse_json_string_text in Heq.
  congruence.
Qed.

Lemma json_string_determined s s' post post' :
  json_string s ++ post = json_string s' ++ post' → s = s' ∧ post = post'.
Proof.
  intros Heq. assert (length (json_string s) = length (json_string s')) as Hlen.
  { destruct (json_string_literal s) as (b & Hs & Hb), (json_string_literal s') as (b' & Hs' & Hb').
    rewrite Hs, Hs' in Heq |- *. simpl in Heq. injection Heq as Heq. rewrite <- !app_assoc in Heq.
    apply (f_equal string_end) in Heq. simpl in Heq. rewrite !string_end_body in Heq by done.
    injection Heq as Heq. simpl. rewrite !length_app, Heq. done. }
  destruct (app_inj_1 _ _ _ _ Hlen Heq) as [Hs ->]. by apply json_string_inj in Hs as ->.
Qed.

(** The kind of a value, and of the first byte of its text. *)
Definition value_kind (v : Value) : nat :=
  match v with
  | Null => 0 | Bool true => 1 | Bool false => 2 | Num _ => 3 | Str _ => 4 | Arr _ => 5 | Obj _ => 6
  end.

Definition char_kind (c : ascii) : nat :=
  if is_char "n" c then 0 else if is_char "t" c then 1 else if is_char "f" c then 2
  else if bool_decide (c = dquote) then 4 else if is_char "[" c then 5
  else if is_char "{" c then 6 else 3.

Lemma canonical_kind v :
  value_strict v → ∃ c l, canonical_json_string v = c :: l ∧ char_kind c = value_kind v.
Proof.
  destruct v as [|[]|n|s|values|m]; intros Hv; try (eexists _, _; done).
  - destruct (canonical_number_text n Hv) as [b Hb]. destruct (number_head _ _ Hb) as (c & l & Hcl & Hc).
    exists c, l. split; [done|]. destruct (number_head_other c Hc) as (_ & H2 & H3 & H4 & H5 & H6 & H7).
    unfold char_kind. by rewrite H2, H3, H4, H5, H6, H7.
  - destruct (json_string_literal s) as (body & Hs & _). simpl. rewrite Hs. by eexists _, _.
Qed.

Definition entry_norm (kv : string * Value) : string * Value := (kv.1, norm_value kv.2).

Lemma entry_determined kv :
  determined canonical_json_string norm_value value_strict kv.2 →
  determined print_entry entry_norm (λ kv, value_strict kv.2) kv.
Proof.
  intros Hd kv' post post' Hg Hp Hp' Heq. unfold print_entry in Heq. rewrite <- !app_assoc in Heq.
  apply json_string_determined in Heq as [Hk Heq]. injection Heq as Heq.
  destruct (Hd _ _ _ Hg Hp Hp' Heq) as [Hv ->]. unfold entry_norm. by rewrite Hk, Hv.
Qed.

Lemma norm_entries (m m' : list (string * Value)) :
  bt_wf m → bt_wf m' → entry_norm <$> entries m = entry_norm <$> entries m' →
  entry_norm <$> m = entry_norm <$> m'.
Proof.
  intros Hm Hm' Heq. assert (∀ l : list (string * Value), bt_wf l → bt_wf (entry_norm <$> l)) as Hwf.
  { clear. intros l. unfold bt_wf. induction 1 as [|kv m Hm IH Hall]; simpl; constructor; [done|].
    apply Forall_fmap. eapply Forall_impl; [exact Hall|]. by intros kv'. }
  apply bt_ext; [auto..|]. intros k. apply (f_equal (bt_get k)) in Heq. unfold entry_norm in *.
  rewrite !bt_get_fmap, !bt_get_entries in Heq by done. by rewrite !bt_get_fmap.
Qed.

(** Equal texts come from equal values, up to the form of their numbers. *)
Lemma canonical_determined v :
  value_strict v → determined canonical_json_string norm_value value_strict v.
Proof.
  induction v as [|b|n|s|values IH|m IH] using Value_ind'; intros Hs v' post post' Hs' Hp Hp' Heq.
  all: destruct (canonical_kind _ Hs) as (c & l & Hcl & Hc).
  all: destruct (canonical_kind _ Hs') as (c' & l' & Hcl' & Hc').
  all: assert (value_kind v' = char_kind c) as Hk
    by (rewrite Hcl, Hcl' in Heq; simpl in Heq; injection Heq as -> _; done).
  all: rewrite Hc in Hk; clear Hcl Hcl' Hc Hc'.
  all: destruct v' as [|b'|n'|s'|values'|m']; try destruct b; try destruct b'; try done.
  - by injection Heq.
  - by injection Heq.
  - by injection Heq.
  - destruct (canonical_number_text n Hs) as [b Hb], (canonical_number_text n' Hs') as [b' Hb'].
    simpl in Heq. apply (app_split number_char) in Heq as [Hn ->]; [|by eapply number_text_chars..|done|done].
    split; [|done]. simpl. f_equal. by apply canonical_number_inj.
  - simpl in Heq. by apply json_string_determined in Heq as [-> ->].
  - rewrite !canonical_arr in Heq. simpl in Heq. injection Heq as Heq. rewrite <- !app_assoc in Heq.
    apply value_all_arr in Hs, Hs'.
    apply (join_determined canonical_json_string norm_value "]"%char value_strict) in Heq as [Hn ->];
      [|done|done| |done| |done].
    + simpl. by rewrite Hn.
    + intros v Hv. destruct (canonical_head v Hv) as (a & t & -> & _ & Hne & _).
      exists a, t. split; [done|]. by intros ->.
    + rewrite Forall_forall in *. intros v Hin. apply IH; [done|]. by apply Hs.
  - rewrite !canonical_obj in Heq. simpl in Heq. injection Heq as Heq. rewrite <- !app_assoc in Heq.
    apply value_all_obj in Hs as [Hm Hs], Hs' as [Hm' Hs'].
    apply (join_determined print_entry entry_norm "}"%char (λ kv, value_strict kv.2)) in Heq as [Hn ->];
      [|done|done| |by apply entries_forall| |by apply entries_forall].
    + split; [|done]. simpl. f_equal. by apply norm_entries.
    + intros kv _. destruct (json_string_literal kv.1) as (body & Hb & _). unfold print_entry.
      rewrite Hb. by eexists _, _.
    + apply entries_forall. rewrite Forall_forall in *. intros kv Hin. apply entry_determined.
      apply IH; [done|]. by apply Hs.
Qed.
End Determined.

(** ** The validator, position by position *)

Section Validate.
Context `{!SerdeJson}.

Lemma validate_arr values path depth :
  validate_strict_json_value_inner (Arr values) path depth = Ok tt ↔
  depth ≤ 128 ∧ ∀ i v, values !! i = Some v →
    validate_strict_json_value_inner v (path +:+ "[" +:+ pretty i +:+ "]") (S depth) = Ok tt.
Proof.
  cbn [validate_strict_json_value_inner]. destruct (128 <? depth) eqn:Hd.
  { apply Nat.ltb_lt in Hd. split; [done|]. intros [? _]. lia. }
  apply Nat.ltb_ge in Hd.
  match goal with |- ?go 0 values = _ ↔ _ => set (loop := go) end.
  assert (∀ l i, loop i l = Ok tt ↔ ∀ j v, l !! j = Some v →
    validate_strict_json_value_inner v (path +:+ "[" +:+ pretty (i + j) +:+ "]") (S depth) = Ok tt) as Hl.
  { clear. induction l as [|v l IH]; intros i; [done|]. cbn [loop]. unfold rbind.
    split.
    - destruct (validate_strict_json_value_inner _ _ _) as [[]|] eqn:Hv; [|done].
      intros Hl [|j] v' Hj; [injection Hj as <-; by rewrite Nat.add_0_r|].
      rewrite Nat.add_succ_r. by apply (proj1 (IH (S i)) Hl j).
    - intros Hall. pose proof (Hall 0 v eq_refl) as Hz. rewrite Nat.add_0_r in Hz. rewrite Hz.
      apply (IH (S i)). intros j v' Hj. pose proof (Hall (S j) v' Hj) as Hj'.
      by rewrite Nat.add_succ_r in Hj'. }
  rewrite (Hl values 0). naive_solver.
Qed.

Lemma validate_obj map path depth :
  validate_strict_json_value_inner (Obj map) path depth = Ok tt ↔
  depth ≤ 128 ∧ ∀ k v, (k, v) ∈ map →
    validate_strict_json_value_inner v (path +:+ "." +:+ k) (S depth) = Ok tt.
Proof.
  cbn [validate_strict_json_value_inner]. destruct (128 <? depth) eqn:Hd.
  { apply Nat.ltb_lt in Hd. split; [done|]. intros [? _]. lia. }
  apply Nat.ltb_ge in Hd. transitivity (∀ k v, (k, v) ∈ map →
    validate_strict_json_value_inner v (path +:+ "." +:+ k) (S depth) = Ok tt); [|naive_solver].
  induction map as [|[k v] map IH]; [split; [by intros _ ?? ?%elem_of_nil|done]|].
  unfold rbind at 1. split.
  - destruct (validate_strict_json_value_inner _ _ _) as [[]|] eqn:Hv; [|done].
    intros Hl k' v' [[= -> ->]|Hin]%elem_of_cons; [done|]. by apply (proj1 IH Hl).
  - intros Hall. rewrite (Hall k v) by (by left). apply IH. intros k' v' Hin. apply Hall. by right.
Qed.

Lemma validate_number_path n path path' :
  validate_number n path = Ok tt → validate_number n path' = Ok tt.
Proof.
  unfold validate_number, validate_float. intros Hv. repeat case_match; try done.
Qed.

(** The validator's verdict on the numbers. *)
Lemma validate_strict v path depth :
  value_wf v → validate_strict_json_value_inner v path depth = Ok tt → value_strict v.
Proof.
  revert path depth. induction v as [|b|n|s|values IH|m IH] using Value_ind'; intros path depth Hwf Hv;
    try done.
  - cbn [validate_strict_json_value_inner] in Hv. destruct (128 <? depth); [done|].
    split; [done|]. intros path'. by eapply validate_number_path.
  - apply value_all_arr. apply value_all_arr in Hwf. apply validate_arr in Hv as [_ Hv].
    rewrite Forall_forall in *. intros v Hin. destruct (list_elem_of_lookup_1 _ _ Hin) as [i Hi].
    eapply IH; [done|by apply Hwf|by apply (Hv i)].
  - apply value_all_obj. apply value_all_obj in Hwf as [Hm Hwf]. apply validate_obj in Hv as [_ Hv].
    split; [done|]. rewrite Forall_forall in *. intros [k v] Hin.
    eapply (IH (k, v)); [done|by apply (Hwf (k, v))|by apply (Hv k)].
Qed.

Context `{!SerdeJsonLaws}.

Lemma dec_not_minus_zero z tail :
  dec_of_Z z ≠ "-"%char :: "0"%char :: tail.
Proof.
  destruct z as [|p|p]; simpl; [done|apply dec_head_not_minus|]. intros [= Hp].
  destruct (dec_of_N_head (Npos p)) as (d & l & Hd & Hlt & Hz). rewrite Hd in Hp. injection Hp as Hc _.
  destruct Hz; [|done]. by rewrite <- (digit_val_digit d Hlt), Hc.
Qed.

Lemma validate_int z path :
  (- JS_MAX_SAFE_INTEGER <= z <= JS_MAX_SAFE_INTEGER)%Z → validate_number (int_number z) path = Ok tt.
Proof.
  intros Hz. assert (number_string (int_number z) = dec_of_Z z) as Ht
    by (unfold int_number; by destruct (0 <=? z)%Z).
  unfold validate_number. rewrite Ht.
  assert (∀ s, dec_of_Z z ≠ bytes_of s → str_of (dec_of_Z z) ≠ s) as Hne.
  { intros s Hs <-. apply Hs. by rewrite bytes_of_str. }
  rewrite bool_decide_eq_false_2 by apply (Hne "-0.0"), dec_not_minus_zero.
  rewrite bool_decide_eq_false_2 by apply (Hne "-0"), dec_not_minus_zero. simpl.
  assert (as_i64 (int_number z) = Some z) as ->.
  { unfold int_number, JS_MAX_SAFE_INTEGER in *. destruct (0 <=? z)%Z; [|done]. simpl.
    rewrite (proj2 (Z.leb_le _ _)); [done|]. lia. }
  rewrite (proj2 (Z.leb_le _ _)) by apply Hz. rewrite (proj2 (Z.leb_le _ _)) by apply Hz. simpl.
  unfold int_number. by destruct (0 <=? z)%Z.
Qed.

Lemma validate_norm_number n path :
  number_strict n → validate_number (norm_number n) path = Ok tt.
Proof.
  intros [Hwf Hv]. destruct n as [z|z|[s|s| |s m e]]; simpl in *; try done.
  destruct (fract_zero m e && (trunc_abs m e <=? JS_MAX_SAFE_INTEGER)%Z) eqn:Hc; [|done].
    apply andb_true_iff in Hc as [_ Hc%Z.leb_le]. apply validate_int.
    assert (0 ≤ trunc_abs m e)%Z.
    { unfold trunc_abs. destruct (0 <=? e)%Z eqn:He.
      - apply Z.leb_le in He. apply Z.mul_nonneg_nonneg; [lia|by apply Z.pow_nonneg].
      - apply Z.div_pos; [lia|]. apply Z.leb_gt in He. apply Z.pow_pos_nonneg; lia. }
    unfold JS_MAX_SAFE_INTEGER in *. destruct s; lia.
Qed.

Lemma validate_norm v path depth :
  value_wf v → validate_strict_json_value_inner v path depth = Ok tt →
  validate_strict_json_value_inner (norm_value v) path depth = Ok tt.
Proof.
  revert path depth. induction v as [|b|n|s|values IH|m IH] using Value_ind'; intros path depth Hwf Hv;
    try done.
  - cbn [validate_strict_json_value_inner norm_value] in *. destruct (128 <? depth); [done|].
    apply validate_norm_number. split; [done|]. intros path'. by eapply validate_number_path.
  - cbn [norm_value]. apply value_all_arr in Hwf. apply validate_arr in Hv as [Hd Hv].
    apply validate_arr. split; [done|]. intros i v Hi. apply list_lookup_fmap_Some in Hi as (v0 & -> & Hi).
    rewrite Forall_forall in *. pose proof (list_elem_of_lookup_2 _ _ _ Hi).
    apply IH; [done|by apply Hwf|by apply Hv].
  - cbn [norm_value]. apply value_all_obj in Hwf as [Hm Hwf]. apply validate_obj in Hv as [Hd Hv].
    apply validate_obj. split; [done|]. intros k v Hin. apply list_elem_of_fmap in Hin as ([k0 v0] & [= -> ->] & Hin).
    rewrite Forall_forall in *. apply (IH (k0, v0)); [done|by apply (Hwf (k0, v0))|by apply Hv].
Qed.

Lemma canonical_norm_number n : number_wf n → canonical_number_string (norm_number n) = canonical_number_string n.
Proof.
  assert (∀ z, canonical_number_string (int_number z) = dec_of_Z z) as Hint.
  { intros z. unfold canonical_number_string, int_number. destruct (0 <=? z)%Z; simpl; [|done].
    by destruct (z <=? _)%Z. }
  intros Hwf. destruct n as [z|z|[s|s| |s m e]]; simpl in *; try done.
  destruct (fract_zero m e && (trunc_abs m e <=? JS_MAX_SAFE_INTEGER)%Z) eqn:Hc; [|done].
  rewrite Hint. unfold canonical_number_string. simpl. by rewrite Hc.
Qed.

Lemma entries_norm (m : list (string * Value)) : entries (entry_norm <$> m) = entry_norm <$> entries m.
Proof.
  unfold entries. rewrite <- list_fmap_compose.
  assert (sorted_keys (entry_norm <$> m) = sorted_keys m) as ->.
  { unfold sorted_keys. f_equal. rewrite <- list_fmap_compose. by apply list_fmap_ext. }
  apply list_fmap_ext. intros i k Hk. unfold entry_norm. simpl. rewrite bt_get_fmap.
  by destruct (bt_get k m).
Qed.

Lemma canonical_norm v : value_wf v → canonical_json_string (norm_value v) = canonical_json_string v.
Proof.
  induction v as [|b|n|s|values IH|m IH] using Value_ind'; intros Hwf; try done.
  - by apply canonical_norm_number.
  - cbn [norm_value]. rewrite !canonical_arr. do 3 f_equal. rewrite <- list_fmap_compose.
    apply value_all_arr in Hwf. rewrite Forall_forall in *. apply list_fmap_ext. intros i v Hi.
    apply list_elem_of_lookup_2 in Hi. apply IH; [done|by apply Hwf].
  - cbn [norm_value]. change (λ kv, (kv.1, norm_value kv.2)) with entry_norm. rewrite !canonical_obj.
    do 3 f_equal. rewrite entries_norm, <- list_fmap_compose. apply value_all_obj in Hwf as [Hm Hwf].
    assert (Forall (λ kv, canonical_json_string (norm_value kv.2) = canonical_json_string kv.2) m) as Hall.
    { rewrite Forall_forall in *. intros kv Hin. apply IH; [done|by apply Hwf]. }
    apply entries_forall in Hall. rewrite Forall_forall in Hall. apply list_fmap_ext.
    intros i kv Hi. apply list_elem_of_lookup_2 in Hi. unfold print_entry. simpl. by rewrite Hall.
Qed.
End Validate.

(** ** The contract of the strict codec *)

Section Codec.
Context `{!SerdeJson} `{!SerdeJsonLaws}.

(** C34: scanning for duplicate keys ends on every input, well-formed or not. *)
Theorem scanner_terminates (t : bytes) (s : Scanner) :
  ∃ r s', assert_no_duplicate_json_object_keys t s = Ret r s'.
Proof.
  unfold assert_no_duplicate_json_object_keys. rewrite (bind_step _ _ s tt (mkScanner t 0) eq_refl).
  pose proof (scan_runs (scan_fuel t) (ScanValue "$") (mkScanner t 0)) as Hr.
  unfold run, total, mrbind, bind in *.
  destruct (scan (scan_fuel t) (ScanValue "$") (mkScanner t 0)) as [[[]|e] s'| |] eqn:Hs;
    [|by eauto|exfalso..]; [|apply Hr; unfold scan_need, scan_fuel; simpl; lia..].
  simpl. case_match; by eauto.
Qed.

Lemma canonical_scans v b s :
  value_wf v → stable_json_string v = Ok b →
  ∃ s', assert_no_duplicate_json_object_keys b s = Ret (Ok tt) s'.
Proof.
  intros Hwf Hb. unfold stable_json_string, validate_strict_json_value in Hb.
  destruct (validate_strict_json_value_inner v "$" 0) as [[]|] eqn:Hv; [|done]. injection Hb as <-.
  pose proof (validate_strict v _ _ Hwf Hv) as Hs.
  unfold assert_no_duplicate_json_object_keys.
  rewrite (bind_step _ _ s tt (mkScanner (canonical_json_string v) 0) eq_refl).
  pose proof (canonical_accepted v Hs "$" [] [] (scan_fuel (canonical_json_string v)) I) as Ha.
  rewrite app_nil_r in Ha. cbn [app] in Ha. unfold scan_fuel in *.
  change (mkScanner (canonical_json_string v) 0) with (pos [] (canonical_json_string v)).
  rewrite (mrbind_step _ _ _ _ _ (Ha ltac:(lia))).
  rewrite (bind_step skip_whitespace _ _ _ _ (skip_none_pos is_ws _ [] I)).
  rewrite (bind_step _ _ _ _ _ (gets_index_pos _ _)). rewrite Nat.eqb_refl. simpl. by eauto.
Qed.

(** Strict decoding inverts strict encoding: whenever a well-formed value
    encodes, its bytes pass the scanner and the canonical check and decode to the
    value, with every number in the form its text reads back as. *)
Theorem strict_round_trip v b utf8 s :
  value_wf v → strict_canonical_json_bytes v = Ok b → utf8 b = None →
  parse_json b = Ok (norm_value v) →
  ∃ s', strict_json_decode utf8 b s = Ret (Ok (norm_value v)) s'.
Proof.
  intros Hwf Hb Hu Hp. destruct (canonical_scans v b s Hwf Hb) as (s' & Hs').
  unfold strict_json_decode. rewrite Hu, (mrbind_step _ _ _ _ _ Hs'), Hp. exists s'.
  unfold strict_canonical_json_bytes, stable_json_string, validate_strict_json_value in *.
  destruct (validate_strict_json_value_inner v "$" 0) as [[]|] eqn:Hv; [|done]. injection Hb as <-.
  rewrite validate_norm, canonical_norm by done. simpl. by rewrite bool_decide_eq_true_2.
Qed.

(** The canonical bytes identify a value: two well-formed values with the
    same strict canonical bytes are equal up to the form of their numbers. *)
Theorem canonical_bytes_identify v v' b :
  value_wf v → value_wf v' →
  strict_canonical_json_bytes v = Ok b → strict_canonical_json_bytes v' = Ok b →
  norm_value v = norm_value v'.
Proof.
  unfold strict_canonical_json_bytes, stable_json_string, validate_strict_json_value. intros Hwf Hwf' Hb Hb'.
  destruct (validate_strict_json_value_inner v "$" 0) as [[]|] eqn:Hv; [|done].
  destruct (validate_strict_json_value_inner v' "$" 0) as [[]|] eqn:Hv'; [|done].
  injection Hb as <-. injection Hb' as Hb'.
  apply (canonical_determined v (validate_strict _ _ _ Hwf Hv) v' [] []
           (validate_strict _ _ _ Hwf' Hv') I I).
  by rewrite Hb'.
Qed.

(** Strict decoding accepts canonical bytes only. *)
Theorem strict_decode_canonical utf8 b v s s' :
  strict_json_decode utf8 b s = Ret (Ok v) s' → strict_canonical_json_bytes v = Ok b.
Proof.
  unfold strict_json_decode. destruct (utf8 b); [done|]. unfold mrbind, bind.
  destruct (assert_no_duplicate_json_object_keys b s) as [[[]|] s1| |]; [|done..].
  destruct (parse_json b) as [d|]; [|done]. unfold rbind, ret.
  destruct (strict_canonical_json_bytes d) as [c|] eqn:Hc; [|done].
  case_bool_decide; [|done]. intros [= <- _]. by subst.
Qed.
End Codec.

(** ** Decimal strings *)

Lemma starts_with_zero c l : starts_with (bytes_of "0") (c :: l) = bool_decide (c = "0"%char).
Proof.
  unfold starts_with. simpl. destruct (decide ("0"%char = c)) as [<-|Hc].
  - by rewrite !bool_decide_eq_true_2.
  - rewrite !bool_decide_eq_false_2; [done|congruence|by intros [? ?]].
Qed.

Lemma strip_minus l : strip_prefix (bytes_of "-") ("-"%char :: l) = Some l.
Proof. apply (strip_prefix_app (bytes_of "-")). Qed.

Lemma strip_minus_digits l : forallb is_digit l = true → strip_prefix (bytes_of "-") l = None.
Proof.
  destruct l as [|c l]; [done|]. simpl. intros [Hc _]%andb_true_iff. rewrite decide_False; [done|].
  intros <-. done.
Qed.

(** The shape test of digits without a sign. *)
Lemma digits_shape l :
  l ≠ [] → starts_with (bytes_of "0") l = false → forallb is_digit l = true →
  dec_of_N (dec_val l) = l ∧ dec_val l ≠ 0%N.
Proof.
  destruct l as [|c l]; [done|]. intros _ Hz Hd. rewrite starts_with_zero in Hz.
  apply bool_decide_eq_false in Hz. pose proof (dec_of_N_digits_id c l Hd Hz) as Hid.
  split; [done|]. intros H0. rewrite H0 in Hid. injection Hid as <- <-. done.
Qed.

Lemma dec_shape n :
  n ≠ 0%N → dec_of_N n ≠ [] ∧ starts_with (bytes_of "0") (dec_of_N n) = false ∧
  forallb is_digit (dec_of_N n) = true ∧ dec_of_N n ≠ bytes_of "0".
Proof.
  intros Hn. split_and!; [apply dec_of_N_nonempty| |apply dec_of_N_digits|].
  - destruct (dec_of_N_head n) as (d & l & -> & Hd & Hz). rewrite starts_with_zero.
    apply bool_decide_eq_false_2. intros Heq. destruct Hz; [|done].
    by rewrite <- (digit_val_digit d Hd), Heq.
  - intros Heq. apply Hn. by rewrite <- (dec_of_N_val n), Heq.
Qed.

(** The canonical decimal strings are the printed integers. *)
Lemma decimal_shape b : is_decimal_integer_string b = true ↔ ∃ z, b = dec_of_Z z.
Proof.
  unfold is_decimal_integer_string. split.
  - case_bool_decide as Hb; [intros _; by exists 0%Z|].
    destruct (strip_prefix (bytes_of "-") b) as [rest|] eqn:Hs; simpl.
    + apply strip_prefix_Some in Hs as ->. intros [[[Hne Hz]%andb_true_iff Hd]%andb_true_iff _]%andb_true_iff.
      apply negb_true_iff, bool_decide_eq_false in Hne. apply negb_true_iff in Hz.
      destruct (digits_shape rest Hne Hz Hd) as [Hid H0]. exists (- Z.of_N (dec_val rest))%Z.
      rewrite <- Hid at 1. by destruct (dec_val rest).
    + intros [[[Hne Hz]%andb_true_iff Hd]%andb_true_iff _]%andb_true_iff.
      apply negb_true_iff, bool_decide_eq_false in Hne. apply negb_true_iff in Hz.
      destruct (digits_shape b Hne Hz Hd) as [Hid H0]. exists (Z.of_N (dec_val b)).
      rewrite <- Hid at 1. by destruct (dec_val b).
  - intros [z ->]. case_bool_decide as Hb; [done|]. destruct z as [|p|p]; [done|..].
    + destruct (dec_shape (Npos p)) as (H1 & H2 & H3 & _); [done|]. simpl dec_of_Z.
      pose proof (dec_head_not_minus (Npos p) (bytes_of "0")) as Hm. revert H1 H2 H3 Hm.
      generalize (dec_of_N (Npos p)) as l. intros l H1 H2 H3 Hm. rewrite strip_minus_digits by done.
      cbv [from_option id]. rewrite H2, H3. by rewrite !bool_decide_eq_false_2.
    + destruct (dec_shape (Npos p)) as (H1 & H2 & H3 & H4); [done|]. simpl dec_of_Z. revert H1 H2 H3 H4.
      generalize (dec_of_N (Npos p)) as l. intros l H1 H2 H3 H4. rewrite strip_minus. cbv [from_option id].
      rewrite H2, H3. rewrite !bool_decide_eq_false_2; [done| |done]. intros [= Heq]. by apply H4.
Qed.

Lemma non_negative_shape b :
  is_non_negative_decimal_integer_string b = true ↔ ∃ n : N, b = dec_of_Z (Z.of_N n).
Proof.
  unfold is_non_negative_decimal_integer_string. split.
  - case_bool_decide as Hb; [intros _; by exists 0%N|].
    intros [[[Hne _]%andb_true_iff Hz]%andb_true_iff Hd]%andb_true_iff.
    apply negb_true_iff, bool_decide_eq_false in Hne. apply negb_true_iff in Hz.
    destruct (digits_shape b Hne Hz Hd) as [Hid H0]. exists (dec_val b).
    rewrite <- Hid at 1. by destruct (dec_val b).
  - intros [n ->]. case_bool_decide as Hb; [done|]. destruct n as [|p]; [done|].
    destruct (dec_shape (Npos p)) as (H1 & H2 & H3 & _); [done|]. simpl dec_of_Z. revert H1 H2 H3.
    generalize (dec_of_N (Npos p)) as l. intros l H1 H2 H3. rewrite H2, H3.
    unfold starts_with. rewrite strip_minus_digits by done. by rewrite !bool_decide_eq_false_2.
Qed.

Lemma parse_integer_dec z : parse_integer (dec_of_Z z) = z.
Proof.
  unfold parse_integer. destruct z as [|p|p]; [done|..]; simpl dec_of_Z.
  - by rewrite strip_minus_digits, dec_of_N_val by apply dec_of_N_digits.
  - by rewrite strip_minus, dec_of_N_val.
Qed.

(** The accepted decimal strings of an [i128] are exactly the printed ones,
    and reading one back gives the integer. *)
Theorem i128_string_round_trip (b : bytes) (n : Z) :
  decimal_string_to_i128 b = Ok n ↔ (- 2 ^ 127 ≤ n < 2 ^ 127)%Z ∧ b = i128_to_decimal_string n.
Proof.
  unfold decimal_string_to_i128, assert_decimal_integer_string, i128_to_decimal_string. split.
  - destruct (is_decimal_integer_string b) eqn:Hs; [|done]. apply decimal_shape in Hs as [z ->].
    simpl rbind. rewrite parse_integer_dec. destruct (2 ^ 127 <=? z)%Z eqn:H1; [done|].
    destruct (z <? - 2 ^ 127)%Z eqn:H2; [done|]. intros [= <-].
    apply Z.leb_gt in H1. apply Z.ltb_ge in H2. done.
  - intros [Hn ->]. rewrite (proj2 (decimal_shape _)) by eauto. simpl rbind. rewrite parse_integer_dec.
    rewrite (proj2 (Z.leb_gt _ _)), (proj2 (Z.ltb_ge _ _)) by lia. done.
Qed.

Theorem u128_string_round_trip (b : bytes) (n : Z) :
  non_negative_decimal_string_to_u128 b = Ok n ↔
  (0 ≤ n < 2 ^ 128)%Z ∧ b = u128_to_non_negative_decimal_string n.
Proof.
  unfold non_negative_decimal_string_to_u128, assert_non_negative_decimal_integer_string,
    u128_to_non_negative_decimal_string. split.
  - destruct (is_non_negative_decimal_integer_string b) eqn:Hs; [|done].
    apply non_negative_shape in Hs as [z ->]. simpl rbind. rewrite parse_integer_dec.
    destruct (2 ^ 128 <=? Z.of_N z)%Z eqn:H1; [done|]. intros [= <-]. apply Z.leb_gt in H1.
    split; [lia|done].
  - intros [Hn ->]. rewrite (proj2 (non_negative_shape _)) by (exists (Z.to_N n); by rewrite Z2N.id by lia).
    simpl rbind. rewrite parse_integer_dec, (proj2 (Z.leb_gt _ _)) by lia. done.
Qed.
