(* ===== verification/JsonExample.v ===== *)
(** * A concrete text layer for the JSON theorems

    An escaping of quotes and backslashes and a float notation that satisfy
    [SerdeJsonLaws], and the theorems of [JsonCanon] applied to one document. *)

From Stdlib Require Import Ascii String SpecFloat.
From stdpp Require Import base list option numbers strings pretty.
From Stdlib Require Import Sorted.
From S2P Require Import Prelude.
From S2P Require Import BTree.
From S2P Require Import Text.
From S2P Require Import Json.
From S2P Require Import JsonAccept.
From S2P Require Import JsonCanon.

Definition escape_char (c : ascii) : bytes :=
  if decide (c = dquote) then [backslash; c]
  else if decide (c = backslash) then [backslash; c] else [c].

Definition escape (l : bytes) : bytes := l ≫= escape_char.

(** The bytes of a literal after its opening quote. *)
Fixpoint unescape (l : bytes) : Result string bytes :=
  match l with
  | [] => Err "unterminated"
  | c :: l' =>
      if decide (c = dquote) then Ok []
      else if decide (c = backslash) then
        match l' with [] => Err "escape" | c :: l'' => rbind (unescape l'') (λ r, Ok (c :: r)) end
      else rbind (unescape l') (λ r, Ok (c :: r))
  end.

Definition quote (s : string) : bytes := dquote :: escape (bytes_of s) ++ [dquote].

Definition unquote (b : bytes) : Result string string :=
  match b with
  | _ :: l => rbind (unescape l) (λ r, Ok (str_of r))
  | [] => Err "empty"
  end.

Definition float_text (f : spec_float) : bytes :=
  match f with
  | S754_zero true => bytes_of "-0.0"
  | S754_finite s m e =>
      (if s then ["-"%char] else []) ++ dec_of_N (Npos m) ++ bytes_of ".5" ++ ("e"%char :: dec_of_Z e)
  | _ => bytes_of "0.0"
  end.

(** The sample document: keys out of order, an integral and a fractional float,
    a quote in a string. *)
Definition sample : Value :=
  Obj [("a"%string, Arr [Num (Float (S754_finite false 3 0)); Num (Float (S754_finite true 5 (-1))); Null]);
       ("b"%string, Str (str_of [dquote; "x"%char; backslash]));
       ("c"%string, Obj [("k"%string, Bool true); ("l"%string, Num (NegInt (-7)))])].

#[export] Instance sample_serde : SerdeJson := {|
  json_string := quote;
  float_string := float_text;
  parse_json_string := unquote;
  parse_json := λ _, Ok (norm_value sample);
  debug_str := id
|}.

Lemma escape_cons c l : escape (c :: l) = escape_char c ++ escape l.
Proof. done. Qed.

Lemma escape_literal l : literal_body (escape l).
Proof.
  induction l as [|c l IH]; [constructor|]. rewrite escape_cons. unfold escape_char.
  case_decide; [by constructor|]. case_decide; by constructor.
Qed.

Lemma unescape_escape l : unescape (escape l ++ [dquote]) = Ok l.
Proof.
  induction l as [|c l IH]; [done|]. rewrite escape_cons. unfold escape_char.
  destruct (decide (c = dquote)) as [->|Hq]; [cbn [app]; simpl; by rewrite IH|].
  destruct (decide (c = backslash)) as [->|Hb]; simpl; [by rewrite IH|].
  rewrite decide_False, decide_False by done. by rewrite IH.
Qed.

Lemma exp_text e : ∃ esign ds, dec_of_Z e = esign ++ ds ∧
  (esign = [] ∨ esign = ["+"%char] ∨ esign = ["-"%char]) ∧ digits1 ds.
Proof.
  destruct e as [|p|p].
  - exists [], (dec_of_N 0). split_and!; [done|by left|apply digits1_dec].
  - exists [], (dec_of_N (Npos p)). split_and!; [done|by left|apply digits1_dec].
  - exists ["-"%char], (dec_of_N (Npos p)). split_and!; [done|by right; right|apply digits1_dec].
Qed.

#[export] Instance sample_laws : SerdeJsonLaws.
Proof.
  split.
  - intros s. exists (escape (bytes_of s)). split; [done|apply escape_literal].
  - intros s. simpl. rewrite unescape_escape. simpl. by rewrite str_of_bytes.
  - intros s m e _. destruct (exp_text e) as (esign & ds & He & Hes & Hds).
    exists (if s then ["-"%char] else []), (dec_of_N (Npos m)), (bytes_of ".5"), ("e"%char :: esign ++ ds).
    simpl. rewrite He. split_and!; [done|destruct s; auto|apply int_text| | |].
    + right. exists ["5"%char]. split; [done|by split].
    + right. exists "e"%char, esign, ds. split_and!; auto.
    + split; [done|]. by intros [? _].
  - intros s m e s' m' e' _ _ Heq. simpl in Heq.
    assert (s = s' ∧ dec_of_N (Npos m) ++ bytes_of ".5" ++ ("e"%char :: dec_of_Z e)
              = dec_of_N (Npos m') ++ bytes_of ".5" ++ ("e"%char :: dec_of_Z e')) as [<- Hd].
    { pose proof (dec_of_N_head (Npos m)) as (d & l & Hm & Hlt & _).
      pose proof (dec_of_N_head (Npos m')) as (d' & l' & Hm' & Hlt' & _).
      pose proof (dec_head_not_minus (Npos m)) as Hn. pose proof (dec_head_not_minus (Npos m')) as Hn'.
      rewrite Hm in Hn, Heq |- *. rewrite Hm' in Hn', Heq |- *.
      destruct s, s'; simpl in Heq; [split; [done|exact (f_equal (drop 1) Heq)]| | |by split].
      - injection Heq as Hc _. exfalso. apply (Hn' l'). by rewrite <- Hc.
      - injection Heq as Hc _. exfalso. apply (Hn l). by rewrite Hc. }
    apply (app_split is_digit) in Hd as [Hm He]; [|apply dec_of_N_digits..|done|done].
    apply dec_of_N_inj in Hm. injection Hm as <-. injection He as He. apply dec_of_Z_inj in He as <-. done.
  - done.
Qed.

Ltac wf_value :=
  simpl; unfold bt_wf; split_and!;
  repeat first [done | lia | split | apply SSorted_nil | apply SSorted_cons | apply Forall_nil_2 | apply Forall_cons_2].

Lemma sample_wf : value_wf sample.
Proof. wf_value. Qed.

(** The bytes [sample] encodes to. *)
Definition sample_bytes : bytes := canonical_json_string sample.

Lemma sample_encodes : strict_canonical_json_bytes sample = Ok sample_bytes.
Proof. by vm_compute. Qed.

Lemma strict_round_trip_witness :
  ∃ s', strict_json_decode (λ _, None) sample_bytes (mkScanner [] 0) = Ret (Ok (norm_value sample)) s'.
Proof.
  apply (strict_round_trip sample sample_bytes (λ _, None)).
  - exact sample_wf.
  - exact sample_encodes.
  - reflexivity.
  - reflexivity.
Defined.

(** The same document with the integer written as an integer. *)
Definition sample' : Value := norm_value sample.

Lemma canonical_bytes_identify_witness : norm_value sample = norm_value sample'.
Proof.
  apply (canonical_bytes_identify sample sample' sample_bytes).
  - exact sample_wf.
  - wf_value.
  - exact sample_encodes.
  - by vm_compute.
Defined.

Lemma strict_decode_canonical_witness : strict_canonical_json_bytes (norm_value sample) = Ok sample_bytes.
Proof.
  apply (strict_decode_canonical (λ _, None) sample_bytes (norm_value sample) (mkScanner [] 0)
           (mkScanner sample_bytes (length sample_bytes))).
  by vm_compute.
Defined.

(** What the scanner rejects. *)
Example duplicate_key_rejected :
  match assert_no_duplicate_json_object_keys
          ("{"%char :: quote "k" ++ bytes_of ":1," ++ quote "k" ++ bytes_of ":2}") (mkScanner [] 0) with
  | Ret (Err (Validation m)) _ => m = "strictJsonCodec: duplicate object key k at $"%string
  | _ => False
  end.
Proof. by vm_compute. Qed.
