(* ===== verification/Collections.v ===== *)
(** * Reactive collections (data_structures.rs)

    The list, log, index and map collections: a backend (the buffer and its
    version) and, around it, the operations that emit one change per mutation on
    the collection's delta node.  A call of [delta.down(vec![Data(change)])]
    appends the change to the [emitted] trace of the state: what the delta
    node's subscribers receive, in order, when no batch is open.  Subscribers
    that re-enter the collection are not modelled.

    [Module ListOps], [Module LogOps], [Module IndexOps] and [Module MapOps] hold
    the backends and their collections; [Section Snapshot] the pull-gated
    snapshot node, [Section Scan] the running fold of a log.  The theorems that
    relate the emitted changes to the buffers are in [CollectionFacts] and
    [CollectionViews]. *)

From stdpp Require Import base list option strings pretty numbers.
From Stdlib Require Import Sorted.
From S2P Require Import Prelude.
From S2P Require Import BTree.

Local Open Scope rx_scope.

(** ** Changes *)

Inductive ListChange (T : Type) :=
| ListAppend (value : T)
| ListAppendMany (values : list T)
| ListInsert (index : nat) (value : T)
| ListInsertMany (index : nat) (values : list T)
| ListPop (index : nat) (value : T)
| ListTrimHead (n : nat)
| ListClear (count : nat).
Arguments ListAppend {T}. Arguments ListAppendMany {T}. Arguments ListInsert {T}.
Arguments ListInsertMany {T}. Arguments ListPop {T}. Arguments ListTrimHead {T}.
Arguments ListClear {T}.

Inductive LogChange (T : Type) :=
| LogAppend (value : T)
| LogAppendMany (values : list T)
| LogTrimHead (n : nat)
| LogClear (count : nat).
Arguments LogAppend {T}. Arguments LogAppendMany {T}. Arguments LogTrimHead {T}.
Arguments LogClear {T}.

Inductive IndexChange (K S V : Type) :=
| IndexUpsert (primary : K) (secondary : S) (value : V)
| IndexDelete (primary : K)
| IndexDeleteMany (primaries : list K)
| IndexClear (count : nat).
Arguments IndexUpsert {K S V}. Arguments IndexDelete {K S V}.
Arguments IndexDeleteMany {K S V}. Arguments IndexClear {K S V}.

Inductive MapChange (K V : Type) :=
| MapSet (key : K) (value : V)
| MapDelete (key : K) (previous : V)
| MapClear (count : nat).
Arguments MapSet {K V}. Arguments MapDelete {K V}. Arguments MapClear {K V}.

Record IndexRow (K S V : Type) := mkIndexRow { primary : K; secondary : S; value : V }.
Arguments mkIndexRow {K S V}. Arguments primary {K S V}. Arguments secondary {K S V}.
Arguments value {K S V}.

(** ** Shared helpers *)

(** [u64::wrapping_add(1)]. *)
Definition wrapping_succ (v : Z) : Z := ((v + 1) mod 2 ^ 64)%Z.

(** [isize::MAX] of a 64-bit target. *)
Definition isize_max : Z := (2 ^ 63 - 1)%Z.

(** A read index counts from the end when negative; [len] must fit an [isize]. *)
Definition normalize_read_index (index : Z) (len : nat) : option nat :=
  if decide (Z.of_nat len ≤ isize_max)%Z then
    let i := if decide (0 ≤ index)%Z then index else (Z.of_nat len + index)%Z in
    if decide (0 ≤ i ∧ i < Z.of_nat len)%Z then Some (Z.to_nat i) else None
  else None.

(** The new buffer and the number of values dropped from its head. *)
Definition trim_head_overflow {S T} (buf : list T) (max_size : option nat) : M S (list T * nat) :=
  match max_size with
  | None => ret (buf, 0)
  | Some max_size =>
      assert_or (0 <? max_size) "max_size must be a positive integer" ;;;
      if length buf <=? max_size then ret (buf, 0)
      else
        let removed := length buf - max_size in
        ret (drop removed buf, removed)
  end.

(** ** Lists *)

Module ListOps.
Section ListOps.
Context {T : Type}.

Record ListBackend := mkListBackend { buf : list T; version : Z }.

Definition set_buf (b : list T) (s : ListBackend) : ListBackend := mkListBackend b (version s).

Definition bump (s : ListBackend) : ListBackend := mkListBackend (buf s) (wrapping_succ (version s)).

Definition backend_new {S} (initial : list T) (max_size : option nat) : M S ListBackend :=
  let! (initial, _) := trim_head_overflow initial max_size in
  ret (mkListBackend initial 0).

Definition backend_snapshot (s : ListBackend) : list T := buf s.
Definition backend_len (s : ListBackend) : nat := length (buf s).

Definition backend_at (s : ListBackend) (index : Z) : option T :=
  i ← normalize_read_index index (length (buf s)); buf s !! i.

Definition backend_append (v : T) : M ListBackend unit :=
  modify (λ s, bump (set_buf (buf s ++ [v]) s)).

Definition backend_append_many (values : list T) : M ListBackend unit :=
  if decide (values = []) then ret tt else modify (λ s, bump (set_buf (buf s ++ values) s)).

(** [Vec::insert] and [Vec::splice(index..index, _)] on an index in range. *)
Definition vec_splice (index : nat) (values l : list T) : list T :=
  take index l ++ values ++ drop index l.

Definition backend_insert (index : nat) (v : T) : M ListBackend unit :=
  let! b := gets buf in
  assert_or (index <=? length b)
    ("insert: index " +:+ pretty index +:+ " out of range [0, " +:+ pretty (length b) +:+ "]") ;;;
  modify (λ s, bump (set_buf (vec_splice index [v] (buf s)) s)).

Definition backend_insert_many (index : nat) (values : list T) : M ListBackend unit :=
  let! b := gets buf in
  assert_or (index <=? length b)
    ("insert_many: index " +:+ pretty index +:+ " out of range [0, " +:+ pretty (length b) +:+ "]") ;;;
  if decide (values = []) then ret tt
  else modify (λ s, bump (set_buf (vec_splice index values (buf s)) s)).

Definition backend_pop (index : option Z) : M ListBackend (nat * T) :=
  let! b := gets buf in
  assert_or (negb (length b =? 0)) "pop from empty list" ;;;
  let raw := default (-1)%Z index in
  let! i := expect (normalize_read_index raw (length b))
              ("pop: index " +:+ pretty raw +:+ " out of range") in
  let! v := expect (b !! i) "removal index should be < len" in
  modify (λ s, bump (set_buf (delete i (buf s)) s)) ;;;
  ret (i, v).

Definition backend_clear : M ListBackend nat :=
  let! n := gets (λ s, length (buf s)) in
  if n =? 0 then ret 0
  else modify (λ s, bump (set_buf [] s)) ;;; ret n.

Definition backend_enforce_max_size (max_size : option nat) : M ListBackend nat :=
  let! b := gets buf in
  let! (b, removed) := trim_head_overflow b max_size in
  modify (set_buf b) ;;;
  when (0 <? removed) (modify bump) ;;;
  ret removed.

(** The collection; [emitted] is the trace of its delta node. *)
Record ReactiveList := mkReactiveList {
  backend : ListBackend;
  max_size : option nat;
  emitted : list (ListChange T)
}.

Definition set_backend (b : ListBackend) (s : ReactiveList) : ReactiveList :=
  mkReactiveList b (max_size s) (emitted s).

Definition on_backend {A} : M ListBackend A → M ReactiveList A := zoom backend set_backend.

Definition new {S} (initial : list T) (max_size : option nat) : M S ReactiveList :=
  assert_or (negb (bool_decide (max_size = Some 0)))
    "reactive_list: max_size must be a positive integer" ;;;
  let! b := backend_new initial max_size in
  ret (mkReactiveList b max_size []).

Definition len (s : ReactiveList) : nat := backend_len (backend s).
Definition is_empty (s : ReactiveList) : bool := len s =? 0.
Definition at_ (s : ReactiveList) (index : Z) : option T := backend_at (backend s) index.
Definition to_vec (s : ReactiveList) : list T := backend_snapshot (backend s).

(** [self.delta.down(vec![Message::Data(Rc::new(change))])]. *)
Definition emit (change : ListChange T) : M ReactiveList unit :=
  modify (λ s, mkReactiveList (backend s) (max_size s) (emitted s ++ [change])).

Definition emit_trimmed (max_size : option nat) : M ReactiveList unit :=
  let! n := on_backend (backend_enforce_max_size max_size) in
  when (0 <? n) (emit (ListTrimHead n)).

Definition enforce_capacity : M ReactiveList unit :=
  let! m := gets max_size in emit_trimmed m.

Definition append (v : T) : M ReactiveList unit :=
  on_backend (backend_append v) ;;;
  emit (ListAppend v) ;;;
  enforce_capacity.

Definition append_many (values : list T) : M ReactiveList unit :=
  if decide (values = []) then ret tt else
  on_backend (backend_append_many values) ;;;
  emit (ListAppendMany values) ;;;
  enforce_capacity.

Definition insert (index : nat) (v : T) : M ReactiveList unit :=
  on_backend (backend_insert index v) ;;;
  emit (ListInsert index v) ;;;
  enforce_capacity.

Definition insert_many (index : nat) (values : list T) : M ReactiveList unit :=
  on_backend (backend_insert_many index values) ;;;
  if decide (values = []) then ret tt else
  emit (ListInsertMany index values) ;;;
  enforce_capacity.

Definition pop (index : option Z) : M ReactiveList T :=
  let! (index, v) := on_backend (backend_pop index) in
  emit (ListPop index v) ;;;
  ret v.

Definition clear : M ReactiveList unit :=
  let! count := on_backend backend_clear in
  when (0 <? count) (emit (ListClear count)).

(** The input fold of [append_from]: every value of the source's batch. *)
Definition append_from_step (values : list T) : M ReactiveList unit :=
  for_each values (λ v,
    on_backend (backend_append v) ;;;
    emit (ListAppend v) ;;;
    let! m := gets max_size in emit_trimmed m).

(** The public mutations, for sequences of calls; a call that panics leaves the
    state its unwinding leaves. *)
Inductive ListOp :=
| OpAppend (v : T)
| OpAppendMany (values : list T)
| OpInsert (index : nat) (v : T)
| OpInsertMany (index : nat) (values : list T)
| OpPop (index : option Z)
| OpClear
| OpAppendFrom (values : list T).

Definition run_op (op : ListOp) : M ReactiveList unit :=
  match op with
  | OpAppend v => append v
  | OpAppendMany values => append_many values
  | OpInsert index v => insert index v
  | OpInsertMany index values => insert_many index values
  | OpPop index => pop index ;;; ret tt
  | OpClear => clear
  | OpAppendFrom values => append_from_step values
  end.

Definition run_ops (ops : list ListOp) : M ReactiveList unit :=
  for_each ops (λ op, catch_unwind (run_op op) ;;; ret tt).
End ListOps.
Arguments ListBackend : clear implicits.
Arguments ReactiveList : clear implicits.
Arguments ListOp : clear implicits.
End ListOps.

(** ** Logs *)

Module LogOps.
Section LogOps.
Context {T : Type}.

Record LogBackend := mkLogBackend { buf : list T; version : Z; max_size : option nat }.

Definition set_buf (b : list T) (s : LogBackend) : LogBackend :=
  mkLogBackend b (version s) (max_size s).

Definition bump (s : LogBackend) : LogBackend :=
  mkLogBackend (buf s) (wrapping_succ (version s)) (max_size s).

Definition backend_new {S} (initial : list T) (max_size : option nat) : M S LogBackend :=
  let! (initial, _) := trim_head_overflow initial max_size in
  ret (mkLogBackend initial 0 max_size).

Definition backend_snapshot (s : LogBackend) : list T := buf s.
Definition backend_len (s : LogBackend) : nat := length (buf s).

Definition backend_at (s : LogBackend) (index : Z) : option T :=
  i ← normalize_read_index index (length (buf s)); buf s !! i.

Definition backend_enforce_max_size : M LogBackend nat :=
  let! b := gets buf in
  let! m := gets max_size in
  let! (b, removed) := trim_head_overflow b m in
  modify (set_buf b) ;;;
  when (0 <? removed) (modify bump) ;;;
  ret removed.

Definition backend_append (v : T) : M LogBackend nat :=
  modify (λ s, bump (set_buf (buf s ++ [v]) s)) ;;;
  backend_enforce_max_size.

Definition backend_append_many (values : list T) : M LogBackend nat :=
  if decide (values = []) then ret 0
  else modify (λ s, bump (set_buf (buf s ++ values) s)) ;;; backend_enforce_max_size.

Definition backend_clear : M LogBackend nat :=
  let! n := gets (λ s, length (buf s)) in
  if n =? 0 then ret 0
  else modify (λ s, bump (set_buf [] s)) ;;; ret n.

Definition backend_trim_head (n : nat) : M LogBackend nat :=
  if n =? 0 then ret 0 else
  let! b := gets buf in
  let removed := min n (length b) in
  if removed =? 0 then ret 0
  else modify (λ s, bump (set_buf (drop removed (buf s)) s)) ;;; ret removed.

(** The collection; [emitted] is the trace of its delta node. *)
Record ReactiveLog := mkReactiveLog { backend : LogBackend; emitted : list (LogChange T) }.

Definition on_backend {A} : M LogBackend A → M ReactiveLog A :=
  zoom backend (λ b s, mkReactiveLog b (emitted s)).

Definition new {S} (initial : list T) (max_size : option nat) : M S ReactiveLog :=
  assert_or (negb (bool_decide (max_size = Some 0)))
    "reactive_log: max_size must be a positive integer" ;;;
  let! b := backend_new initial max_size in
  ret (mkReactiveLog b []).

Definition len (s : ReactiveLog) : nat := backend_len (backend s).
Definition is_empty (s : ReactiveLog) : bool := len s =? 0.
Definition at_ (s : ReactiveLog) (index : Z) : option T := backend_at (backend s) index.
Definition to_vec (s : ReactiveLog) : list T := backend_snapshot (backend s).

Definition emit (change : LogChange T) : M ReactiveLog unit :=
  modify (λ s, mkReactiveLog (backend s) (emitted s ++ [change])).

Definition emit_log_trimmed (n : nat) : M ReactiveLog unit :=
  when (0 <? n) (emit (LogTrimHead n)).

Definition append (v : T) : M ReactiveLog unit :=
  let! trimmed := on_backend (backend_append v) in
  emit (LogAppend v) ;;;
  emit_log_trimmed trimmed.

Definition append_many (values : list T) : M ReactiveLog unit :=
  if decide (values = []) then ret tt else
  let! trimmed := on_backend (backend_append_many values) in
  emit (LogAppendMany values) ;;;
  emit_log_trimmed trimmed.

Definition clear : M ReactiveLog unit :=
  let! count := on_backend backend_clear in
  when (0 <? count) (emit (LogClear count)).

Definition trim_head (n : nat) : M ReactiveLog unit :=
  let! removed := on_backend (backend_trim_head n) in
  emit_log_trimmed removed.

(** The input fold of [attach]: every value of the source's batch. *)
Definition attach_step (values : list T) : M ReactiveLog unit :=
  for_each values (λ v,
    let! trimmed := on_backend (backend_append v) in
    emit (LogAppend v) ;;;
    emit_log_trimmed trimmed).

(** The derived views read the whole buffer on every delta. *)
Definition tail_fn (n : nat) (all : list T) : list T := drop (length all - n) all.

(** [all[start..end]]. *)
Definition sub_slice (start stop : nat) (all : list T) : list T := take (stop - start) (drop start all).

Definition slice_fn (start : nat) (stop : option nat) (all : list T) : list T :=
  let stop := min (default (length all) stop) (length all) in
  sub_slice (min start stop) stop all.

(** [usize::saturating_add]. *)
Definition saturating_add (a b : nat) : nat :=
  if decide (Z.of_nat a + Z.of_nat b < 2 ^ 64)%Z then a + b else Z.to_nat (2 ^ 64 - 1).

Definition page_fn (offset limit : nat) (all : list T) : list T :=
  sub_slice (min offset (length all)) (min (saturating_add offset limit) (length all)) all.

Inductive LogOp :=
| OpAppend (v : T)
| OpAppendMany (values : list T)
| OpClear
| OpTrimHead (n : nat)
| OpAttach (values : list T).

Definition run_op (op : LogOp) : M ReactiveLog unit :=
  match op with
  | OpAppend v => append v
  | OpAppendMany values => append_many values
  | OpClear => clear
  | OpTrimHead n => trim_head n
  | OpAttach values => attach_step values
  end.

Definition run_ops (ops : list LogOp) : M ReactiveLog unit :=
  for_each ops (λ op, catch_unwind (run_op op) ;;; ret tt).

(** *** The running fold [scan] *)

Section Scan.
Context {A : Type} (initial : A) (step : A → T → A).

Record LogScanState := mkLogScanState { acc : A; processed : nat }.

Definition appended_count (change : LogChange T) : nat :=
  match change with
  | LogAppend _ => 1
  | LogAppendMany values => length values
  | LogTrimHead _ | LogClear _ => 0
  end.

Definition is_reset (change : LogChange T) : bool :=
  match change with LogTrimHead _ | LogClear _ => true | _ => false end.

(** One run of the scan node: the changes of its batch, the buffer read, and the
    state it keeps; the new state and the value emitted, if any. *)
Definition scan_fn (changes : list (LogChange T)) (all : list T) (previous : option LogScanState) :
    LogScanState * option A :=
  let appended := sum_list (appended_count <$> changes) in
  let reset_change := existsb is_reset changes in
  let state := default (mkLogScanState initial 0) previous in
  let state :=
    if reset_change || (length all <? processed state) then mkLogScanState initial 0 else state in
  if (0 <? appended) && (length all <? saturating_add (processed state) appended)
  then (state, None)
  else
    let state := mkLogScanState (foldl step (acc state) (drop (processed state) all)) (length all) in
    (state, Some (acc state)).
End Scan.
End LogOps.
Arguments LogBackend : clear implicits.
Arguments ReactiveLog : clear implicits.
Arguments LogOp : clear implicits.
Arguments LogScanState : clear implicits.
End LogOps.

(** [merge_reactive_logs]: one run forwards every change, dep by dep. *)
Definition merge_fn {T} (batches : list (list (LogChange T))) : list (LogChange T) := concat batches.

(** ** Indexes *)

Module IndexOps.
Section IndexOps.
Context {K S V : Type} `{!OrdKey K} `{!OrdKey S}.

Record IndexBackend := mkIndexBackend { rows : BTree K (S * V); version : Z }.

Definition set_rows (r : BTree K (S * V)) (s : IndexBackend) : IndexBackend :=
  mkIndexBackend r (version s).

Definition bump (s : IndexBackend) : IndexBackend :=
  mkIndexBackend (rows s) (wrapping_succ (version s)).

Definition backend_new (initial : list (IndexRow K S V)) : IndexBackend :=
  mkIndexBackend (bt_of_list ((λ row, (primary row, (secondary row, value row))) <$> initial)) 0.

Definition backend_len (s : IndexBackend) : nat := length (rows s).
Definition backend_has (s : IndexBackend) (p : K) : bool :=
  match bt_get p (rows s) with Some _ => true | None => false end.
Definition backend_get (s : IndexBackend) (p : K) : option V := snd <$> bt_get p (rows s).

(** [a.secondary.cmp(&b.secondary).then_with(|| a.primary.cmp(&b.primary))]. *)
Definition row_cmp (a b : IndexRow K S V) : comparison :=
  match key_cmp (secondary a) (secondary b) with
  | Eq => key_cmp (primary a) (primary b)
  | c => c
  end.

Definition row_of (kv : K * (S * V)) : IndexRow K S V := mkIndexRow kv.1 kv.2.1 kv.2.2.

Definition backend_snapshot (s : IndexBackend) : list (IndexRow K S V) :=
  sort_by row_cmp (row_of <$> rows s).

Definition backend_range_by_primary (s : IndexBackend) (start stop : K) : list V :=
  if key_le stop start then [] else (λ kv, kv.2.2) <$> bt_range start stop (rows s).

Definition backend_upsert (p : K) (sec : S) (v : V) : M IndexBackend unit :=
  modify (λ s, bump (set_rows (bt_insert p (sec, v) (rows s)) s)).

Definition backend_delete (p : K) : M IndexBackend bool :=
  let! removed := gets (λ s, backend_has s p) in
  modify (λ s, set_rows (bt_remove p (rows s)) s) ;;;
  when removed (modify bump) ;;;
  ret removed.

Definition backend_delete_many (primaries : list K) : M IndexBackend (list K) :=
  let! removed :=
    fold_each primaries (λ removed p,
      let! has := gets (λ s, backend_has s p) in
      modify (λ s, set_rows (bt_remove p (rows s)) s) ;;;
      ret (if has then removed ++ [p] else removed)) [] in
  when (negb (bool_decide (removed = []))) (modify bump) ;;;
  ret removed.

Definition backend_clear : M IndexBackend nat :=
  let! count := gets (λ s, length (rows s)) in
  if count =? 0 then ret 0
  else modify (λ s, bump (set_rows [] s)) ;;; ret count.

Record ReactiveIndex :=
  mkReactiveIndex { backend : IndexBackend; emitted : list (IndexChange K S V) }.

Definition on_backend {A} : M IndexBackend A → M ReactiveIndex A :=
  zoom backend (λ b s, mkReactiveIndex b (emitted s)).

Definition new (initial : list (IndexRow K S V)) : ReactiveIndex :=
  mkReactiveIndex (backend_new initial) [].

Definition len (s : ReactiveIndex) : nat := backend_len (backend s).
Definition is_empty (s : ReactiveIndex) : bool := len s =? 0.
Definition has (s : ReactiveIndex) (p : K) : bool := backend_has (backend s) p.
Definition get (s : ReactiveIndex) (p : K) : option V := backend_get (backend s) p.
Definition to_vec (s : ReactiveIndex) : list (IndexRow K S V) := backend_snapshot (backend s).
Definition range_by_primary (s : ReactiveIndex) (start stop : K) : list V :=
  backend_range_by_primary (backend s) start stop.

Definition emit (change : IndexChange K S V) : M ReactiveIndex unit :=
  modify (λ s, mkReactiveIndex (backend s) (emitted s ++ [change])).

Definition upsert (p : K) (sec : S) (v : V) : M ReactiveIndex unit :=
  on_backend (backend_upsert p sec v) ;;;
  emit (IndexUpsert p sec v).

Definition delete (p : K) : M ReactiveIndex unit :=
  let! removed := on_backend (backend_delete p) in
  when removed (emit (IndexDelete p)).

Definition delete_many (primaries : list K) : M ReactiveIndex unit :=
  let! removed := on_backend (backend_delete_many primaries) in
  when (negb (bool_decide (removed = []))) (emit (IndexDeleteMany removed)).

Definition clear : M ReactiveIndex unit :=
  let! count := on_backend backend_clear in
  when (0 <? count) (emit (IndexClear count)).

Inductive IndexOp :=
| OpUpsert (p : K) (sec : S) (v : V)
| OpDelete (p : K)
| OpDeleteMany (primaries : list K)
| OpClear.

Definition run_op (op : IndexOp) : M ReactiveIndex unit :=
  match op with
  | OpUpsert p sec v => upsert p sec v
  | OpDelete p => delete p
  | OpDeleteMany primaries => delete_many primaries
  | OpClear => clear
  end.

Definition run_ops (ops : list IndexOp) : M ReactiveIndex unit := for_each ops run_op.
End IndexOps.
Arguments IndexBackend : clear implicits.
Arguments ReactiveIndex : clear implicits.
Arguments IndexOp : clear implicits.
End IndexOps.

(** ** Maps *)

Module MapOps.
Section MapOps.
Context {K V : Type} `{!OrdKey K}.

Record MapBackend := mkMapBackend { rows : BTree K V; version : Z }.

Definition set_rows (r : BTree K V) (s : MapBackend) : MapBackend := mkMapBackend r (version s).

Definition bump (s : MapBackend) : MapBackend :=
  mkMapBackend (rows s) (wrapping_succ (version s)).

Definition backend_new (initial : list (K * V)) : MapBackend := mkMapBackend (bt_of_list initial) 0.

Definition backend_len (s : MapBackend) : nat := length (rows s).
Definition backend_get (s : MapBackend) (k : K) : option V := bt_get k (rows s).
Definition backend_has (s : MapBackend) (k : K) : bool :=
  match bt_get k (rows s) with Some _ => true | None => false end.
Definition backend_snapshot (s : MapBackend) : BTree K V := rows s.
Definition backend_entries_snapshot (s : MapBackend) : list (K * V) := rows s.

Definition backend_selected_snapshot (predicate : V → K → bool) (s : MapBackend) : BTree K V :=
  bt_of_list (List.filter (λ kv, predicate kv.2 kv.1) (rows s)).

Definition backend_set (k : K) (v : V) : M MapBackend unit :=
  modify (λ s, bump (set_rows (bt_insert k v (rows s)) s)).

Definition backend_delete (k : K) : M MapBackend (option V) :=
  let! previous := gets (λ s, bt_get k (rows s)) in
  modify (λ s, set_rows (bt_remove k (rows s)) s) ;;;
  when (bool_decide (is_Some previous)) (modify bump) ;;;
  ret previous.

Definition backend_clear : M MapBackend nat :=
  let! count := gets (λ s, length (rows s)) in
  if count =? 0 then ret 0
  else modify (λ s, bump (set_rows [] s)) ;;; ret count.

Record ReactiveMap := mkReactiveMap { backend : MapBackend; emitted : list (MapChange K V) }.

Definition on_backend {A} : M MapBackend A → M ReactiveMap A :=
  zoom backend (λ b s, mkReactiveMap b (emitted s)).

Definition new (initial : list (K * V)) : ReactiveMap := mkReactiveMap (backend_new initial) [].

Definition len (s : ReactiveMap) : nat := backend_len (backend s).
Definition is_empty (s : ReactiveMap) : bool := len s =? 0.
Definition has (s : ReactiveMap) (k : K) : bool := backend_has (backend s) k.
Definition get (s : ReactiveMap) (k : K) : option V := backend_get (backend s) k.
Definition to_map (s : ReactiveMap) : BTree K V := backend_snapshot (backend s).

Definition emit (change : MapChange K V) : M ReactiveMap unit :=
  modify (λ s, mkReactiveMap (backend s) (emitted s ++ [change])).

Definition set (k : K) (v : V) : M ReactiveMap unit :=
  on_backend (backend_set k v) ;;;
  emit (MapSet k v).

Definition set_many (entries : list (K * V)) : M ReactiveMap unit :=
  for_each entries (λ kv, set kv.1 kv.2).

Definition delete (k : K) : M ReactiveMap unit :=
  let! previous := on_backend (backend_delete k) in
  match previous with Some previous => emit (MapDelete k previous) | None => ret tt end.

Definition delete_many (keys : list K) : M ReactiveMap unit := for_each keys delete.

Definition clear : M ReactiveMap unit :=
  let! count := on_backend backend_clear in
  when (0 <? count) (emit (MapClear count)).

Inductive MapOp :=
| OpSet (k : K) (v : V)
| OpSetMany (entries : list (K * V))
| OpDelete (k : K)
| OpDeleteMany (keys : list K)
| OpClear.

Definition run_op (op : MapOp) : M ReactiveMap unit :=
  match op with
  | OpSet k v => set k v
  | OpSetMany entries => set_many entries
  | OpDelete k => delete k
  | OpDeleteMany keys => delete_many keys
  | OpClear => clear
  end.

Definition run_ops (ops : list MapOp) : M ReactiveMap unit := for_each ops run_op.
End MapOps.
Arguments MapBackend : clear implicits.
Arguments ReactiveMap : clear implicits.
Arguments MapOp : clear implicits.
End MapOps.

(** ** The snapshot node

    The four snapshot nodes share one body: it keeps the version it last emitted
    in [ctx.state] and emits the buffer when the version has moved. *)

Section Snapshot.
Context {B A : Type} (version : B → Z) (snapshot : B → A).

Definition snapshot_fn (backend : B) (last : option Z) : option Z * option A :=
  if bool_decide (last = Some (version backend)) then (last, None)
  else (Some (version backend), Some (snapshot backend)).
End Snapshot.
