(* ===== verification/Storage.v ===== *)
(** * Storage tiers (storage.rs)

    Storage errors, the physical keys and file names of the file backend, the
    interface of a key-value tier, and the in-memory tier with its opaque
    generations.

    [KvStorageTier] is the trait object: a record of operations over the state
    its stores live in.  [KvSpec] is the contract its clients rely on, stated
    against an abstract view of the store; [memory_kv_spec] discharges it.  The
    names the file backend gives its keys are here, its operations in
    [FileBackend]. *)

From Stdlib Require Import Ascii String.
From stdpp Require Import base gmap list option numbers strings.
From S2P Require Import Prelude.
From S2P Require Import BTree.
From S2P Require Import Text.

Local Open Scope rx_scope.

(** ** Errors *)

Inductive StorageError :=
| Unsupported (label capability : string)
| ContentAddressedMiss (key : string)
| Backend (message : string).

Definition StorageResult (A : Type) : Type := Result StorageError A.

(** [Display]. *)
Definition storage_error_string (e : StorageError) : string :=
  match e with
  | Unsupported label capability => label +:+ ": KV tier does not support " +:+ capability
  | ContentAddressedMiss key => "content-addressed lookup miss in read-strict mode: " +:+ key
  | Backend message => message
  end.

(** ** Physical keys

    serde_json's text of a list of strings and its reader. *)
Class TupleText := {
  tuple_text : list string → string;               (* serde_json::to_string(&[&str]) *)
  parse_tuple : string → option (list string);     (* serde_json::from_str::<Vec<String>> *)
  parse_tuple_text l : parse_tuple (tuple_text l) = Some l
}.

Section Keys.
Context `{!TupleText}.

Definition storage_tuple_key (parts : list string) : string := tuple_text parts.
Definition parse_storage_tuple_key (value : string) : option (list string) := parse_tuple value.

(** identity.rs. *)
Definition canonical_tuple_key (parts : list string) : string := tuple_text parts.
Definition compound_tuple_key (prefix : string) (parts : list string) : string :=
  prefix +:+ ":" +:+ canonical_tuple_key parts.

Definition storage_physical_key (namespace logical_key : string) : string :=
  "storage-namespace" +:+ ":" +:+ storage_tuple_key [namespace; logical_key].

Definition strip_str (prefix s : string) : option string :=
  str_of <$> strip_prefix (bytes_of prefix) (bytes_of s).

Definition decode_storage_physical_key (namespace raw_key malformed_message : string) :
    StorageResult (option string) :=
  match strip_str "storage-namespace:" raw_key with
  | None => Ok None
  | Some tuple_key =>
      match parse_storage_tuple_key tuple_key with
      | None => Err (Backend malformed_message)
      | Some tuple =>
          if bool_decide (head tuple ≠ Some namespace) then Ok None
          else match tuple with [_; key] => Ok (Some key) | _ => Err (Backend malformed_message) end
      end
  end.

Definition content_addressed_storage_key (prefix hash_hex : string) : string :=
  prefix +:+ ":" +:+ storage_tuple_key [hash_hex].

(** ** File names *)

Definition is_alnum (c : ascii) : bool :=
  let n := N_of_ascii c in
  (is_digit c || ((65 <=? n) && (n <=? 90)) || ((97 <=? n) && (n <=? 122)))%N.

Definition is_stem_char (c : ascii) : bool :=
  is_alnum c || bool_decide (c = "_"%char) || bool_decide (c = "-"%char).

Definition hex_nibble (v : N) : ascii :=
  if (v <=? 9)%N then ascii_of_N (48 + v) else ascii_of_N (97 + (v - 10)).

Definition stem_char (c : ascii) : bytes :=
  if is_stem_char c then [c]
  else ["%"%char; hex_nibble (N_of_ascii c / 16); hex_nibble (N_of_ascii c mod 16)].

Definition key_to_file_stem (key : bytes) : bytes := key ≫= stem_char.

(** [char::to_digit(16)]. *)
Definition to_digit16 (c : ascii) : option N :=
  let n := N_of_ascii c in
  if is_digit c then Some (n - 48)%N
  else if ((97 <=? n) && (n <=? 102))%N then Some (n - 87)%N
  else if ((65 <=? n) && (n <=? 70))%N then Some (n - 55)%N
  else None.

Definition is_ascii (c : ascii) : bool := (N_of_ascii c <? 128)%N.

(** The decoding loop; an escape needs its two digits inside the stem. *)
Fixpoint decode_stem (l : bytes) : option bytes :=
  match l with
  | [] => Some []
  | c :: l1 =>
      let plain := if is_ascii c then cons c <$> decode_stem l1 else None in
      if bool_decide (c = "%"%char) then
        match l1 with
        | a :: b :: l3 =>
            hi ← to_digit16 a;
            lo ← to_digit16 b;
            out ← decode_stem l3;
            Some (ascii_of_N (N.lor (N.shiftl hi 4) lo) :: out)
        | _ => plain
        end
      else plain
  end.

(** [utf8] is [String::from_utf8(..).is_ok()]. *)
Definition file_stem_to_key (utf8 : bytes → bool) (stem : bytes) : option bytes :=
  out ← decode_stem stem;
  if utf8 out then
    if bool_decide (key_to_file_stem out = stem) then Some out else None
  else None.

Definition contains (sub l : bytes) : bool :=
  existsb (λ n, starts_with sub (drop n l)) (seq 0 (S (length l))).

Definition validate_extension (extension : bytes) : StorageResult unit :=
  let valid :=
    (2 <=? length extension) && starts_with (bytes_of ".") extension &&
    negb (contains (bytes_of "..") extension) && negb (contains (bytes_of "/") extension) &&
    negb (contains [ascii_of_N 92] extension) && negb (contains [ascii_of_N 0] extension) &&
    forallb (λ c, is_alnum c || bool_decide (c = "."%char) || bool_decide (c = "_"%char)
                  || bool_decide (c = "-"%char)) extension in
  if valid then Ok tt
  else Err (Backend "fileBackend: extension must be a simple suffix such as .bin").

(** The file a key is stored in, and back. *)
Definition file_name (namespace : string) (extension : bytes) (key : string) : bytes :=
  bytes_of "k-" ++ key_to_file_stem (bytes_of (storage_physical_key namespace key)) ++ extension.

(** [filename.ends_with(extension)], and what is before it. *)
Definition strip_suffix (suffix l : bytes) : option bytes :=
  reverse <$> strip_prefix (reverse suffix) (reverse l).

Definition key_from_filename (utf8 : bytes → bool) (namespace : string) (extension filename : bytes) :
    StorageResult (option string) :=
  if starts_with (bytes_of ".") filename then Ok None else
  match strip_suffix extension filename with
  | None => Ok None
  | Some stem =>
      match strip_prefix (bytes_of "k-") stem with
      | None => Ok None
      | Some raw_stem =>
          match file_stem_to_key utf8 raw_stem with
          | None => Ok None
          | Some key =>
              decode_storage_physical_key namespace (str_of key) "fileBackend: malformed stored key"
          end
      end
  end.
End Keys.

(** ** Key-value tiers *)

Record KvGeneration := mkKvGeneration {
  gen_store_id : Z;
  gen_epoch : Z;
  gen_key : string;
  gen_version : Z
}.

Inductive KvVersionedRead (T : Type) :=
| Hit (value : T) (generation : KvGeneration)
| Miss (generation : KvGeneration).
Arguments Hit {T}. Arguments Miss {T}.

Definition read_generation {T} (r : KvVersionedRead T) : KvGeneration :=
  match r with Hit _ g | Miss g => g end.

(** [dyn KvStorageTier<T>] over the state [S] its stores live in. *)
Record KvStorageTier (S T : Type) := mkKvStorageTier {
  kv_get : string → M S (StorageResult (option T));
  kv_set : string → T → M S (StorageResult unit);
  kv_put_if_absent : string → T → M S (StorageResult bool);
  kv_delete : string → M S (StorageResult unit);
  kv_list : string → M S (StorageResult (list string));
  kv_supports_versioned : bool;
  kv_get_versioned : string → M S (StorageResult (KvVersionedRead T));
  kv_set_if_match : string → T → KvGeneration → M S (StorageResult bool)
}.
Arguments mkKvStorageTier {S T}. Arguments kv_get {S T}. Arguments kv_set {S T}.
Arguments kv_put_if_absent {S T}. Arguments kv_delete {S T}. Arguments kv_list {S T}.
Arguments kv_supports_versioned {S T}. Arguments kv_get_versioned {S T}.
Arguments kv_set_if_match {S T}.

(** A prefix test on strings. *)
Definition has_prefix (prefix key : string) : bool := starts_with (bytes_of prefix) (bytes_of key).

(** What a tier promises its clients: it is a map from keys to values. *)
Class KvSpec {S T} (tier : KvStorageTier S T) (view : S → gmap string T) : Prop := {
  kv_get_spec k s : kv_get tier k s = Ret (Ok (view s !! k)) s;
  kv_set_spec k v s :
    ∃ s', kv_set tier k v s = Ret (Ok tt) s' ∧ view s' = <[k := v]> (view s);
  kv_put_if_absent_spec k v s :
    ∃ s', kv_put_if_absent tier k v s = Ret (Ok (bool_decide (view s !! k = None))) s' ∧
      view s' = match view s !! k with Some _ => view s | None => <[k := v]> (view s) end;
  kv_delete_spec k s :
    ∃ s', kv_delete tier k s = Ret (Ok tt) s' ∧ view s' = delete k (view s);
  kv_list_spec prefix s :
    ∃ l, kv_list tier prefix s = Ret (Ok l) s ∧ NoDup l ∧
      ∀ k, k ∈ l ↔ is_Some (view s !! k) ∧ has_prefix prefix k = true
}.

(** ** The in-memory tier *)

Module MemoryKv.
Section MemoryKv.
Context {T : Type}.

Record MemoryEntry := mkMemoryEntry { value : T; version : Z }.

Record MemoryKv := mkMemoryKv {
  store_id : Z;
  epoch : Z;
  entries : gmap string MemoryEntry;
  tombstones : gmap string Z;
  next_version : Z
}.

(** [memory_kv()], given the id drawn from [NEXT_STORE_ID]. *)
Definition memory_kv (id : Z) : MemoryKv := mkMemoryKv id 0 ∅ ∅ 1.

Definition bump_version : M MemoryKv Z :=
  let! version := gets next_version in
  modify (λ s, mkMemoryKv (store_id s) (epoch s) (entries s) (tombstones s) (version + 1)) ;;;
  ret version.

Definition current_version (key : string) (s : MemoryKv) : Z :=
  match entries s !! key with
  | Some entry => version entry
  | None => default 0%Z (tombstones s !! key)
  end.

Definition generation_for (key : string) (s : MemoryKv) : KvGeneration :=
  mkKvGeneration (store_id s) (epoch s) key (current_version key s).

Definition clear : M MemoryKv unit :=
  modify (λ s, mkMemoryKv (store_id s) (epoch s + 1) ∅ ∅ 1).

Definition get (key : string) : M MemoryKv (StorageResult (option T)) :=
  gets (λ s, Ok (value <$> entries s !! key)).

Definition set (key : string) (v : T) : M MemoryKv (StorageResult unit) :=
  let! version := bump_version in
  modify (λ s, mkMemoryKv (store_id s) (epoch s) (<[key := mkMemoryEntry v version]> (entries s))
                 (base.delete key (tombstones s)) (next_version s)) ;;;
  ret (Ok tt).

Definition put_if_absent (key : string) (v : T) : M MemoryKv (StorageResult bool) :=
  let! present := gets (λ s, bool_decide (is_Some (entries s !! key))) in
  if present then ret (Ok false) else
  let!? _ := set key v in ret (Ok true).

Definition delete (key : string) : M MemoryKv (StorageResult unit) :=
  let! present := gets (λ s, bool_decide (is_Some (entries s !! key))) in
  modify (λ s, mkMemoryKv (store_id s) (epoch s) (base.delete key (entries s)) (tombstones s) (next_version s)) ;;;
  (if present then
     let! version := bump_version in
     modify (λ s, mkMemoryKv (store_id s) (epoch s) (entries s) (<[key := version]> (tombstones s)) (next_version s))
   else ret tt) ;;;
  ret (Ok tt).

Definition list (prefix : string) : M MemoryKv (StorageResult (list string)) :=
  gets (λ s, Ok (sort_by String.compare
                   (List.filter (has_prefix prefix) (map_to_list (entries s)).*1))).

Definition get_versioned (key : string) : M MemoryKv (StorageResult (KvVersionedRead T)) :=
  gets (λ s, Ok (match entries s !! key with
                 | Some entry => Hit (value entry) (mkKvGeneration (store_id s) (epoch s) key (version entry))
                 | None => Miss (generation_for key s)
                 end)).

(** The guard of [set_if_match]. *)
Definition gen_matches (key : string) (g : KvGeneration) (s : MemoryKv) : bool :=
  negb (negb (gen_store_id g =? store_id s)%Z || negb (gen_epoch g =? epoch s)%Z
        || negb (bool_decide (gen_key g = key)) || negb (gen_version g =? current_version key s)%Z).

Definition set_if_match (key : string) (v : T) (g : KvGeneration) : M MemoryKv (StorageResult bool) :=
  let! matches := gets (gen_matches key g) in
  if negb matches then ret (Ok false) else
  let!? _ := set key v in ret (Ok true).

Definition tier : KvStorageTier MemoryKv T :=
  mkKvStorageTier get set put_if_absent delete list true get_versioned set_if_match.

(** [dict_kv]. *)
Definition dict_kv (id : Z) (kvs : Datatypes.list (string * T)) : M MemoryKv unit :=
  modify (λ _, memory_kv id) ;;;
  for_each kvs (λ kv, let! _ := set kv.1 kv.2 in ret tt).
End MemoryKv.
Arguments MemoryEntry : clear implicits.
Arguments MemoryKv : clear implicits.
End MemoryKv.
