(* ===== verification/StorageFacts.v ===== *)
(** * Facts about keys, file names and the in-memory tier

    A key survives its file name, namespaces do not see each other's files, the
    in-memory tier is a map, and [set_if_match] succeeds exactly when nothing has
    written the key since its generation was read. *)

From Stdlib Require Import Ascii String.
From stdpp Require Import base gmap list option numbers strings.
From S2P Require Import Prelude.
From S2P Require Import BTree.
From S2P Require Import Text.
From S2P Require Import Storage.

Local Open Scope rx_scope.

(** ** File names *)

Lemma hex_round_trip c :
  to_digit16 (hex_nibble (N_of_ascii c / 16)) = Some (N_of_ascii c / 16)%N ∧
  to_digit16 (hex_nibble (N_of_ascii c mod 16)) = Some (N_of_ascii c mod 16)%N ∧
  ascii_of_N (N.lor (N.shiftl (N_of_ascii c / 16) 4) (N_of_ascii c mod 16)) = c.
Proof. by destruct c as [[] [] [] [] [] [] [] []]. Qed.

Lemma stem_char_plain c : is_stem_char c = true → is_ascii c = true ∧ bool_decide (c = "%"%char) = false.
Proof. by destruct c as [[] [] [] [] [] [] [] []]. Qed.

Lemma decode_stem_char c l :
  decode_stem (stem_char c ++ l) = cons c <$> decode_stem l.
Proof.
  unfold stem_char. destruct (is_stem_char c) eqn:Hc.
  - destruct (stem_char_plain c Hc) as [Ha Hp]. simpl. by rewrite Ha, Hp.
  - destruct (hex_round_trip c) as (Hhi & Hlo & Hv). simpl. rewrite Hhi, Hlo. simpl.
    destruct (decode_stem l); simpl; [by rewrite Hv|done].
Qed.

Lemma decode_stem_key key : decode_stem (key_to_file_stem key) = Some key.
Proof.
  induction key as [|c key IH]; [done|]. change (key_to_file_stem (c :: key)) with
    (stem_char c ++ key_to_file_stem key). by rewrite decode_stem_char, IH.
Qed.

Lemma file_stem_round_trip utf8 key :
  utf8 key = true → file_stem_to_key utf8 (key_to_file_stem key) = Some key.
Proof.
  intros Hu. unfold file_stem_to_key. rewrite decode_stem_key. simpl. rewrite Hu.
  by rewrite bool_decide_eq_true_2.
Qed.

Lemma strip_suffix_app l suffix : strip_suffix suffix (l ++ suffix) = Some l.
Proof.
  unfold strip_suffix. rewrite reverse_app, strip_prefix_app. simpl. by rewrite reverse_involutive.
Qed.

Lemma strip_str_app prefix s : strip_str prefix (prefix +:+ s) = Some s.
Proof. unfold strip_str. rewrite bytes_of_app, strip_prefix_app. simpl. by rewrite str_of_bytes. Qed.

Lemma decode_physical_key `{!TupleText} ns ns' key msg :
  decode_storage_physical_key ns (storage_physical_key ns' key) msg
  = Ok (if decide (ns = ns') then Some key else None).
Proof.
  unfold decode_storage_physical_key, storage_physical_key.
  change ("storage-namespace" +:+ ":" +:+ storage_tuple_key [ns'; key]) with
    ("storage-namespace:" +:+ storage_tuple_key [ns'; key]).
  rewrite strip_str_app. unfold parse_storage_tuple_key, storage_tuple_key. rewrite parse_tuple_text.
  simpl head. case_decide as Hd.
  - subst. rewrite bool_decide_eq_false_2; [done|]. by intros [].
  - rewrite bool_decide_eq_true_2; [done|]. intros [= Heq]. by subst.
Qed.

(** Listing a directory finds exactly the keys of its own namespace: the file
    name of a key decodes to that key in its namespace and is skipped in any
    other. *)
Theorem file_name_round_trip `{!TupleText} utf8 ns ns' ext key :
  utf8 (bytes_of (storage_physical_key ns' key)) = true →
  key_from_filename utf8 ns ext (file_name ns' ext key)
  = Ok (if decide (ns = ns') then Some key else None).
Proof.
  intros Hu. unfold key_from_filename, file_name. rewrite app_assoc, strip_suffix_app, strip_prefix_app.
  rewrite file_stem_round_trip by done. rewrite str_of_bytes, decode_physical_key.
  unfold starts_with. simpl. by case_match.
Qed.

(** ** The in-memory tier is a map *)

Lemma elem_of_filter_bool {A} (p : A → bool) l x : x ∈ List.filter p l ↔ x ∈ l ∧ p x = true.
Proof. rewrite !list_elem_of_In. apply List.filter_In. Qed.

Lemma NoDup_filter_bool {A} (p : A → bool) l : NoDup l → NoDup (List.filter p l).
Proof.
  induction 1 as [|x l Hx Hl IH]; simpl; [constructor|]. destruct (p x); [|done].
  constructor; [|done]. rewrite elem_of_filter_bool. naive_solver.
Qed.

Section MemoryFacts.
Import MemoryKv.
Context {T : Type}.

Definition view (s : MemoryKv T) : gmap string T := value <$> entries s.

Lemma set_runs key (v : T) s :
  set key v s = Ret (Ok tt) (mkMemoryKv (store_id s) (epoch s)
    (<[key := mkMemoryEntry v (next_version s)]> (entries s)) (base.delete key (tombstones s))
    (next_version s + 1)).
Proof. done. Qed.

Lemma view_set key (v : T) s s' : set key v s = Ret (Ok tt) s' → view s' = <[key := v]> (view s).
Proof. intros [= <-]. unfold view. simpl. by rewrite fmap_insert. Qed.

Lemma view_lookup key (s : MemoryKv T) : view s !! key = value <$> entries s !! key.
Proof. apply lookup_fmap. Qed.

#[export] Instance memory_kv_spec : KvSpec (@tier T) view.
Proof.
  split; simpl.
  - intros k s. unfold get, gets. by rewrite view_lookup.
  - intros k v s. eexists. split; [apply set_runs|by eapply view_set].
  - intros k v s. unfold put_if_absent, bind, gets. rewrite view_lookup.
    destruct (entries s !! k) as [e|] eqn:He; simpl.
    + by eexists.
    + unfold mrbind, bind. rewrite set_runs.
      eexists. split; [done|]. by eapply view_set.
  - intros k s. unfold delete, bind, gets, modify. destruct (entries s !! k) as [e|] eqn:He; simpl.
    + eexists. split; [done|].
      unfold view. simpl. by rewrite fmap_delete.
    + eexists. split; [done|].
      unfold view. simpl. by rewrite fmap_delete.
  - intros prefix s. unfold list, gets. eexists. split; [done|].
    assert (NoDup (map_to_list (entries s)).*1) as Hnd by apply NoDup_fst_map_to_list.
    split.
    + rewrite sort_by_perm. by apply NoDup_filter_bool.
    + intros k. rewrite sort_by_perm, elem_of_filter_bool, view_lookup, fmap_is_Some.
      rewrite list_elem_of_fmap. split.
      * intros [([k' e] & -> & Hin%elem_of_map_to_list) Hp]. simpl in *. by rewrite Hin.
      * intros [[e He] Hp]. split; [|done]. exists (k, e). by rewrite elem_of_map_to_list.
Qed.

(** *** Compare and set *)

Inductive KvOp :=
| KSet (key : string) (v : T)
| KPutIfAbsent (key : string) (v : T)
| KDelete (key : string)
| KSetIfMatch (key : string) (v : T) (g : KvGeneration)
| KClear.

Definition kv_step (op : KvOp) : M (MemoryKv T) unit :=
  match op with
  | KSet k v => set k v ;;; ret tt
  | KPutIfAbsent k v => put_if_absent k v ;;; ret tt
  | KDelete k => delete k ;;; ret tt
  | KSetIfMatch k v g => set_if_match k v g ;;; ret tt
  | KClear => clear
  end.

(** [op] changes the entry of [key] when it runs from [s]. *)
Definition writes (key : string) (op : KvOp) (s : MemoryKv T) : bool :=
  match op with
  | KSet k _ => bool_decide (k = key)
  | KPutIfAbsent k _ => bool_decide (k = key) && bool_decide (entries s !! k = None)
  | KDelete k => bool_decide (k = key) && bool_decide (is_Some (entries s !! k))
  | KSetIfMatch k _ g => bool_decide (k = key) && gen_matches k g s
  | KClear => true
  end.

Fixpoint kv_run (ops : Datatypes.list KvOp) (s : MemoryKv T) : MemoryKv T :=
  match ops with
  | [] => s
  | op :: ops => match kv_step op s with Ret _ s' => kv_run ops s' | _ => s end
  end.

Fixpoint any_write (key : string) (ops : Datatypes.list KvOp) (s : MemoryKv T) : bool :=
  match ops with
  | [] => false
  | op :: ops =>
      writes key op s || match kv_step op s with Ret _ s' => any_write key ops s' | _ => false end
  end.

(** Versions handed out are below the counter, and the epoch only grows. *)
Definition kv_inv (s : MemoryKv T) : Prop := (0 < next_version s)%Z ∧ ∀ k, (current_version k s < next_version s)%Z.

(** [key] has moved past version [v] of epoch [e]. *)
Definition kv_newer (e v : Z) (key : string) (s : MemoryKv T) : Prop :=
  (e < epoch s)%Z ∨ epoch s = e ∧ (v < current_version key s)%Z.

Definition kv_kept (op : KvOp) (s : MemoryKv T) : Prop :=
  kv_step op s = Ret tt s ∧ ∀ key, writes key op s = false.

(** [op] writes [k] alone, at the version the counter gives. *)
Definition kv_wrote (op : KvOp) (s : MemoryKv T) (k : string) : Prop :=
  ∃ s', kv_step op s = Ret tt s' ∧ epoch s' = epoch s ∧ store_id s' = store_id s ∧
    next_version s' = (next_version s + 1)%Z ∧
    (∀ key, current_version key s' = if decide (k = key) then next_version s else current_version key s) ∧
    ∀ key, writes key op s = bool_decide (k = key).

Definition kv_cleared (op : KvOp) (s : MemoryKv T) : Prop :=
  ∃ s', kv_step op s = Ret tt s' ∧ epoch s' = (epoch s + 1)%Z ∧ store_id s' = store_id s ∧
    next_version s' = 1%Z ∧ (∀ key, current_version key s' = 0%Z) ∧ ∀ key, writes key op s = true.

Lemma kv_wrote_set op s k (v : T) :
  kv_step op s = (set k v ;;; ret tt) s → (∀ key, writes key op s = bool_decide (k = key)) →
  kv_wrote op s k.
Proof.
  intros Hs Hw. unfold kv_wrote. rewrite Hs. unfold bind. rewrite set_runs. eexists. split; [done|]. split_and!; [done..| |done].
  intros key. unfold current_version. simpl. case_decide as Hk.
  - subst. by rewrite lookup_insert_eq.
  - by rewrite lookup_insert_ne, lookup_delete_ne.
Qed.

Lemma kv_step_cases op s : kv_kept op s ∨ (∃ k, kv_wrote op s k) ∨ kv_cleared op s.
Proof.
  destruct op as [k v|k v|k|k v g|].
  - right; left. exists k. by apply (kv_wrote_set _ _ _ v).
  - destruct (entries s !! k) as [e|] eqn:He.
    + left. split.
      * simpl. unfold put_if_absent, bind, gets. rewrite He, bool_decide_eq_true_2 by done. done.
      * intros key. simpl. rewrite He, (bool_decide_eq_false_2 (Some e = None)) by done. apply andb_false_r.
    + right; left. exists k. apply (kv_wrote_set _ _ _ v).
      * simpl. unfold put_if_absent, bind, gets. rewrite He, bool_decide_eq_false_2 by (by intros []). done.
      * intros key. simpl. rewrite He, (bool_decide_eq_true_2 (None = None)) by done. apply andb_true_r.
  - destruct (entries s !! k) as [e|] eqn:He.
    + right; left. exists k. eexists. split.
      { simpl. unfold delete, bind, gets, modify. rewrite He, bool_decide_eq_true_2 by done. done. }
      split_and!; [done..| |].
      * intros key. unfold current_version. simpl. case_decide as Hk.
        -- subst. by rewrite lookup_delete_eq, lookup_insert_eq.
        -- by rewrite lookup_delete_ne, lookup_insert_ne.
      * intros key. simpl. rewrite He, (bool_decide_eq_true_2 (is_Some (Some e))) by done. apply andb_true_r.
    + left. split.
      * simpl. unfold delete, bind, gets, modify. rewrite He, bool_decide_eq_false_2 by (by intros []).
        simpl. unfold ret. f_equal. rewrite delete_id by done. by destruct s.
      * intros key. simpl. rewrite He, (bool_decide_eq_false_2 (is_Some None)) by (by intros []).
        apply andb_false_r.
  - destruct (gen_matches k g s) eqn:Hg.
    + right; left. exists k. apply (kv_wrote_set _ _ _ v).
      * simpl. unfold set_if_match, bind, gets. rewrite Hg. done.
      * intros key. simpl. rewrite Hg. apply andb_true_r.
    + left. split.
      * simpl. unfold set_if_match, bind, gets. by rewrite Hg.
      * intros key. simpl. rewrite Hg. apply andb_false_r.
  - right; right. by eexists.
Qed.

Lemma kv_run_spec key ops s :
  kv_inv s →
  kv_inv (kv_run ops s) ∧ store_id (kv_run ops s) = store_id s ∧
  if any_write key ops s then kv_newer (epoch s) (current_version key s) key (kv_run ops s)
  else epoch (kv_run ops s) = epoch s ∧ current_version key (kv_run ops s) = current_version key s.
Proof.
  revert s. induction ops as [|op ops IH]; intros s [Hp Hi]; [done|]. cbn [kv_run any_write].
  destruct (kv_step_cases op s) as [[Hs Hw]|[(k & s' & Hs & He & Hid & Hn & Hv & Hw)|
    (s' & Hs & He & Hid & Hn & Hv & Hw)]]; rewrite Hs, Hw.
  - simpl. by apply IH.
  - assert (kv_inv s') as Hi'.
    { split; [lia|]. intros key'. rewrite Hv, Hn. case_decide; [lia|]. specialize (Hi key'). lia. }
    destruct (IH s' Hi') as (Hr & Hid' & Hc). split; [done|]. split; [congruence|].
    specialize (Hi key). rewrite Hv, He in Hc. unfold kv_newer in *.
    case_bool_decide as Hk; simpl; rewrite ?decide_True, ?decide_False in Hc by done;
      destruct (any_write key ops s'); lia.
  - assert (kv_inv s') as Hi' by (split; [lia|]; intros key'; rewrite Hv, Hn; lia).
    destruct (IH s' Hi') as (Hr & Hid' & Hc). split; [done|]. split; [congruence|].
    simpl. rewrite He in Hc. unfold kv_newer in *. destruct (any_write key ops s'); lia.
Qed.

(** A versioned write is an exact conflict detector: after reading the
    generation of [key], and any operations on the store by anyone, the write
    succeeds if and only if none of them wrote [key]. *)
Theorem set_if_match_detects key ops s r (v : T) :
  kv_inv s → get_versioned key s = Ret (Ok r) s →
  ∃ s', set_if_match key v (read_generation r) (kv_run ops s)
        = Ret (Ok (negb (any_write key ops s))) s'.
Proof.
  intros Hi Hr.
  assert (read_generation r = generation_for key s) as ->.
  { unfold get_versioned, gets in Hr. injection Hr as <-. unfold generation_for, current_version.
    by destruct (entries s !! key). }
  destruct (kv_run_spec key ops s Hi) as (_ & Hid & Hc).
  unfold set_if_match, bind, gets, gen_matches, generation_for. simpl.
  rewrite Hid, Z.eqb_refl, bool_decide_eq_true_2 by done. simpl. rewrite orb_false_r.
  unfold kv_newer in Hc. destruct (any_write key ops s).
  - assert ((epoch s =? epoch (kv_run ops s))%Z && (current_version key s =? current_version key (kv_run ops s))%Z
            = false) as Hf.
    { apply andb_false_iff. rewrite !Z.eqb_neq. lia. }
    eexists. rewrite <- negb_andb, Hf. done.
  - destruct Hc as [-> ->]. rewrite !Z.eqb_refl. by eexists.
Qed.
End MemoryFacts.
Arguments KvOp : clear implicits.

(** ** Compound keys *)

Lemma compound_tuple_key_inj `{!TupleText} prefix l l' : compound_tuple_key prefix l = compound_tuple_key prefix l' → l = l'.
Proof.
  unfold compound_tuple_key, canonical_tuple_key. intros He%(f_equal bytes_of).
  rewrite !bytes_of_app in He. apply app_inv_head, app_inv_head, (f_equal str_of) in He. rewrite !str_of_bytes in He.
  apply (f_equal parse_tuple) in He. rewrite !parse_tuple_text in He. by injection He.
Qed.
