(* ===== verification/AppendLog.v ===== *)
(** * Append logs (storage.rs)

    A log over a key-value tier: entry [seq] is stored under
    [prefix/seq] with [seq] padded to twenty digits.  The definitions are generic
    in the tier; the theorems hold for every tier that satisfies [KvSpec] and
    relate it to the plain list of the values appended ([log_repr]). *)

From Stdlib Require Import Ascii String Sorted.
From stdpp Require Import base gmap list option numbers strings.
From S2P Require Import Prelude.
From S2P Require Import BTree.
From S2P Require Import Text.
From S2P Require Import Storage.

Local Open Scope rx_scope.

Definition APPEND_LOG_SEQ_PAD : nat := 20.
Definition u64_bound : N := 18446744073709551616.

Record AppendLogEntry (T : Type) := mkAppendLogEntry { key : string; seq_ : N; value : T }.
Arguments mkAppendLogEntry {T}. Arguments key {T}. Arguments seq_ {T}. Arguments value {T}.

Record AppendLogReadOptions := mkAppendLogReadOptions { after : option N; limit : option nat }.

Record AppendLogPage (T : Type) := mkAppendLogPage {
  entries : list (AppendLogEntry T);
  next_after : option N;
  done_ : bool
}.
Arguments mkAppendLogPage {T}. Arguments entries {T}. Arguments next_after {T}. Arguments done_ {T}.

Definition append_log_key (prefix : string) (seq : N) : string :=
  prefix +:+ "/" +:+ str_of (dec_padded APPEND_LOG_SEQ_PAD seq).

Definition seq_from_key (prefix key : string) : StorageResult N :=
  match strip_str (prefix +:+ "/") key with
  | None => Err (Backend ("append log key outside prefix: " +:+ key))
  | Some raw =>
      let raw := bytes_of raw in
      if negb (forallb is_digit raw) then
        Err (Backend ("append log key has a non-numeric sequence: " +:+ key))
      else if negb (length raw =? APPEND_LOG_SEQ_PAD) then
        Err (Backend ("append log key sequence must be 20 padded digits: " +:+ key))
      else if (dec_val raw <? u64_bound)%N then Ok (dec_val raw)
      else Err (Backend ("append log key sequence is outside the u64 range: " +:+ key))
  end.

(** [iter().max()]. *)
Definition max_of (l : list N) : option N :=
  match l with [] => None | x :: l => Some (foldl N.max x l) end.

Definition seq_overflow {A} (prefix : string) : StorageResult A :=
  Err (Backend ("append log next sequence is outside the u64 range: " +:+ prefix)).

Definition next_seq_from_keys (prefix : string) (keys : list string) : StorageResult N :=
  let? seqs := try_map (seq_from_key prefix) keys in
  match max_of seqs with
  | None => Ok 0%N
  | Some max_seq => if (max_seq + 1 <? u64_bound)%N then Ok (max_seq + 1)%N else seq_overflow prefix
  end.

Definition size_from_keys (prefix : string) (keys : list string) : StorageResult nat :=
  let? _ := try_map (seq_from_key prefix) keys in Ok (length keys).

(** A loop of fallible calls that collects their results. *)
Fixpoint mtry_map {S E A B} (f : A → M S (Result E B)) (l : list A) : M S (Result E (list B)) :=
  match l with
  | [] => ret (Ok [])
  | a :: l => let!? b := f a in let!? bs := mtry_map f l in ret (Ok (b :: bs))
  end.

Section AppendLog.
Context {St T : Type} (kv : KvStorageTier St T) (prefix : string).

(** The keys of the log with their sequences. *)
Definition listed : M St (StorageResult (list (string * N))) :=
  let!? keys := kv_list kv (prefix +:+ "/") in
  ret (try_map (λ key, let? seq := seq_from_key prefix key in Ok (key, seq)) keys).

Definition after_seq (after : option N) (seq : N) : bool :=
  match after with None => true | Some a => (a <? seq)%N end.

Definition read_append_log_entries (opts : AppendLogReadOptions) :
    M St (StorageResult (list (AppendLogEntry T))) :=
  let!? keys := listed in
  let keys := List.filter (λ ks, after_seq (after opts) ks.2) keys in
  let keys := sort_by (λ a b, N.compare a.2 b.2) keys in
  let keys := match limit opts with Some limit => take limit keys | None => keys end in
  mtry_map (λ ks,
    let!? found := kv_get kv ks.1 in
    match found with
    | Some v => ret (Ok (mkAppendLogEntry ks.1 ks.2 v))
    | None => ret (Err (Backend ("append log listed key is missing: " +:+ ks.1)))
    end) keys.

Definition delete_append_log_entries_after (seq : N) : M St (StorageResult unit) :=
  let!? keys := listed in
  let!? _ := mtry_map (λ ks, if (seq <? ks.2)%N then kv_delete kv ks.1 else ret (Ok tt)) keys in
  ret (Ok tt).

(** *** One writer *)

Definition next_seq : M St (StorageResult N) :=
  let!? keys := kv_list kv (prefix +:+ "/") in
  ret (next_seq_from_keys prefix keys).

Definition append (v : T) : M St (StorageResult (AppendLogEntry T)) :=
  let!? seq := next_seq in
  let key := append_log_key prefix seq in
  let!? _ := kv_set kv key v in
  ret (Ok (mkAppendLogEntry key seq v)).

Definition read (opts : AppendLogReadOptions) : M St (StorageResult (list (AppendLogEntry T))) :=
  read_append_log_entries opts.

Definition truncate_after (seq : N) : M St (StorageResult unit) :=
  delete_append_log_entries_after seq.

Definition size : M St (StorageResult nat) :=
  let!? keys := kv_list kv (prefix +:+ "/") in
  ret (size_from_keys prefix keys).

(** *** Many writers *)

(** One pass of the loop of [append]: the next pass, or the result. *)
Fixpoint multi_append_loop (fuel max_attempts : nat) (v : T) (seq : N) (attempts : nat) :
    M St (StorageResult (AppendLogEntry T)) :=
  match fuel with
  | 0 => no_fuel
  | S fuel =>
      let!? (seq, attempts) :=
        if max_attempts <=? attempts then
          let!? refreshed := next_seq in ret (Ok (N.max seq refreshed, 0))
        else ret (Ok (seq, attempts)) in
      let attempts := S attempts in
      let key := append_log_key prefix seq in
      let!? stored := kv_put_if_absent kv key v in
      if stored then ret (Ok (mkAppendLogEntry key seq v)) else
      if (seq + 1 <? u64_bound)%N
      then multi_append_loop fuel max_attempts v (seq + 1) attempts
      else ret (seq_overflow prefix)
  end.

Definition multi_append (fuel max_attempts : nat) (v : T) : M St (StorageResult (AppendLogEntry T)) :=
  let!? seq := next_seq in
  multi_append_loop fuel max_attempts v seq 0.

Definition multi_truncate_after (seq : N) : M St (StorageResult unit) :=
  ret (Err (Backend ("multi_writer_append_log_storage.truncate_after: unsupported "
                       +:+ "without a stronger compaction capability"))).
End AppendLog.

Definition multi_writer_append_log_storage (max_attempts : nat) : StorageResult unit :=
  if max_attempts =? 0 then
    Err (Backend "multi_writer_append_log_storage: max_attempts must be positive")
  else Ok tt.

(** *** Pages

    [dyn AppendLogStorageTier<T>]: what the page reader and the collection
    sidecars use of a log. *)
Record AppendLogTier (S T : Type) := mkAppendLogTier {
  log_append : T → M S (StorageResult (AppendLogEntry T));
  log_read : AppendLogReadOptions → M S (StorageResult (list (AppendLogEntry T)))
}.
Arguments mkAppendLogTier {S T}. Arguments log_append {S T}. Arguments log_read {S T}.

Definition append_log_tier {S T} (kv : KvStorageTier S T) (prefix : string) : AppendLogTier S T :=
  mkAppendLogTier (append kv prefix) (read kv prefix).

Definition usize_max : Z := (2 ^ 64 - 1)%Z.

Definition read_append_log_page {S T} (log : AppendLogTier S T) (opts : AppendLogReadOptions) :
    M S (StorageResult (AppendLogPage T)) :=
  let lim := default 100 (limit opts) in
  if lim =? 0 then ret (Err (Backend "read_append_log_page: limit must be positive")) else
  if bool_decide (Z.of_nat lim = usize_max) then
    ret (Err (Backend "read_append_log_page: limit must leave room for one lookahead entry"))
  else
    let!? es := log_read log (mkAppendLogReadOptions (after opts) (Some (lim + 1))) in
    let is_done := length es <=? lim in
    let es := if lim <? length es then take lim es else es in
    let next := match last es with Some e => Some (seq_ e) | None => after opts end in
    ret (Ok (mkAppendLogPage es next is_done)).
