(* ===== verification/AppendLogFacts.v ===== *)
(** * An append log is the list of the values appended

    For every key-value tier that is a map ([KvSpec]): the log's operations
    compute the operations of a plain list on the values the tier holds under the
    prefix, whatever else it holds. *)

From Stdlib Require Import Ascii String Sorted Permutation.
From stdpp Require Import base gmap list sorting option numbers strings.
From S2P Require Import Prelude.
From S2P Require Import BTree.
From S2P Require Import Text.
From S2P Require Import Storage.
From S2P Require Import StorageFacts.
From S2P Require Import AppendLog.

Local Open Scope rx_scope.

(** ** Generic loops *)

Lemma try_map_ok {E A B} (f : A → Result E B) (g : A → B) l :
  Forall (λ a, f a = Ok (g a)) l → try_map f l = Ok (g <$> l).
Proof. induction 1 as [|a l Ha Hl IH]; simpl; [done|]. by rewrite Ha, IH. Qed.

Lemma mtry_map_pure {S E A B} (f : A → M S (Result E B)) (g : A → B) l s :
  Forall (λ a, f a s = Ret (Ok (g a)) s) l → mtry_map f l s = Ret (Ok (g <$> l)) s.
Proof.
  induction 1 as [|a l Ha Hl IH]; simpl; [done|]. unfold mrbind at 1, bind. rewrite Ha.
  unfold mrbind, bind. by rewrite IH.
Qed.

Lemma max_of_spec l m : max_of l = Some m → m ∈ l ∧ ∀ x, x ∈ l → (x <= m)%N.
Proof.
  destruct l as [|y l]; [done|]. intros [= <-]. revert y. induction l as [|z l IH]; intros y; simpl.
  - split; [by left|]. intros x [->|[]%elem_of_nil]%elem_of_cons. lia.
  - destruct (IH (N.max y z)) as [Hin Hle]. split.
    + apply elem_of_cons in Hin as [Heq|Hin]; [|by right; right].
      rewrite Heq. destruct (N.max_spec y z) as [[_ ->]|[_ ->]]; [right; left|left].
    + intros x [->|[->|Hx]%elem_of_cons]%elem_of_cons.
      * etrans; [|by apply (Hle (N.max y z)); left]. lia.
      * etrans; [|by apply (Hle (N.max y z)); left]. lia.
      * apply Hle. by right.
Qed.

(** ** Keys *)

Lemma u64_digits n : (n < u64_bound)%N → (n < 10 ^ N.of_nat APPEND_LOG_SEQ_PAD)%N.
Proof. intros Hn. etrans; [exact Hn|done]. Qed.

Lemma key_app prefix seq :
  append_log_key prefix seq = (prefix +:+ "/") +:+ str_of (dec_padded APPEND_LOG_SEQ_PAD seq).
Proof. unfold append_log_key. apply bytes_of_inj. by rewrite !bytes_of_app, app_assoc. Qed.

Lemma seq_from_append_log_key prefix seq :
  (seq < u64_bound)%N → seq_from_key prefix (append_log_key prefix seq) = Ok seq.
Proof.
  intros Hs. unfold seq_from_key. rewrite key_app, strip_str_app, bytes_of_str, dec_padded_digits.
  rewrite length_dec_padded, dec_padded_val by (done || by apply u64_digits || (unfold APPEND_LOG_SEQ_PAD; lia)).
  simpl. by rewrite (proj2 (N.ltb_lt _ _)).
Qed.

Lemma append_log_key_inj prefix m n : append_log_key prefix m = append_log_key prefix n → m = n.
Proof.
  rewrite !key_app. intros Heq. apply (f_equal bytes_of) in Heq. rewrite !bytes_of_app in Heq.
  apply app_inv_head in Heq. rewrite !bytes_of_str in Heq. apply (f_equal dec_val) in Heq.
  by rewrite !dec_padded_val in Heq.
Qed.

Lemma append_log_key_prefix prefix n : has_prefix (prefix +:+ "/") (append_log_key prefix n) = true.
Proof.
  unfold has_prefix, starts_with. rewrite key_app.
  rewrite (bytes_of_app (prefix +:+ "/")), strip_prefix_app. by apply bool_decide_eq_true_2.
Qed.

(** ** The log as a list *)

Section Log.
Context {St T : Type} (kv : KvStorageTier St T) (view : St → gmap string T) `{!KvSpec kv view}.
Context (prefix : string).

Notation log_key i := (append_log_key prefix (N.of_nat i)).

(** The store [m] holds exactly [vals] under the prefix. *)
Definition log_repr (m : gmap string T) (vals : list T) : Prop :=
  (N.of_nat (length vals) <= u64_bound)%N ∧
  ∀ k v, has_prefix (prefix +:+ "/") k = true →
    (m !! k = Some v ↔ ∃ i, k = log_key i ∧ vals !! i = Some v).

(** The entry of the [i]-th value. *)
Definition entry_at (i : nat) (v : T) : AppendLogEntry T := mkAppendLogEntry (log_key i) (N.of_nat i) v.

Definition log_entries (vals : list T) : list (AppendLogEntry T) := imap entry_at vals.

(** The position reading starts at. *)
Definition read_start (after : option N) : nat :=
  match after with None => 0 | Some a => S (N.to_nat a) end.

Definition read_slice (opts : AppendLogReadOptions) (vals : list T) : list (AppendLogEntry T) :=
  let es := drop (read_start (after opts)) (log_entries vals) in
  match limit opts with Some n => take n es | None => es end.

Lemma repr_lookup m vals i v : log_repr m vals → vals !! i = Some v → m !! log_key i = Some v.
Proof. intros [_ Hm] Hi. apply Hm; [apply append_log_key_prefix|by exists i]. Qed.

Lemma repr_small m vals i : log_repr m vals → i < length vals → (N.of_nat i < u64_bound)%N.
Proof. intros [Hl _] Hi. lia. Qed.

(** The keys a listing returns are those of the positions, in some order. *)
Lemma repr_listed vals s :
  log_repr (view s) vals →
  ∃ idx, kv_list kv (prefix +:+ "/") s = Ret (Ok ((λ i, log_key i) <$> idx)) s ∧
    idx ≡ₚ seq 0 (length vals).
Proof.
  intros Hr. destruct (kv_list_spec (prefix +:+ "/") s) as (l & Hl & Hnd & Hin).
  assert (l ≡ₚ map (λ i, log_key i) (seq 0 (length vals))) as Hp.
  { apply NoDup_Permutation; [done| |].
    - apply NoDup_fmap_2; [|apply NoDup_seq]. intros i j Hij%append_log_key_inj. lia.
    - intros k. rewrite Hin, list_elem_of_fmap. split.
      + intros [[v Hv] Hp]. apply Hr in Hv as (i & -> & Hi); [|done]. exists i. split; [done|].
        apply elem_of_seq. apply lookup_lt_Some in Hi. lia.
      + intros (i & -> & Hi). apply elem_of_seq in Hi.
        destruct (lookup_lt_is_Some_2 vals i) as [v Hv]; [lia|].
        split; [|apply append_log_key_prefix]. exists v. by eapply repr_lookup. }
  apply Permutation_map_inv in Hp as (idx & -> & Hp). by exists idx.
Qed.

Lemma idx_small m vals idx :
  log_repr m vals → idx ≡ₚ seq 0 (length vals) →
  Forall (λ i, seq_from_key prefix (log_key i) = Ok (N.of_nat i)) idx.
Proof.
  intros Hr Hp. rewrite Hp. apply Forall_forall. intros i Hi%elem_of_seq.
  apply seq_from_append_log_key. eapply repr_small; [done|lia].
Qed.

Lemma listed_runs vals s :
  log_repr (view s) vals →
  ∃ idx, listed kv prefix s = Ret (Ok ((λ i, (log_key i, N.of_nat i)) <$> idx)) s ∧
    idx ≡ₚ seq 0 (length vals).
Proof.
  intros Hr. destruct (repr_listed vals s Hr) as (idx & Hl & Hp). exists idx. split; [|done].
  unfold listed, mrbind, bind. rewrite Hl. unfold ret. f_equal.
  rewrite (try_map_ok _ (λ k, match seq_from_key prefix k with Ok n => (k, n) | Err _ => (k, 0%N) end)).
  - f_equal. rewrite <- list_fmap_compose. apply list_fmap_ext. intros j i Hj. simpl.
    pose proof (idx_small _ _ _ Hr Hp) as Hs. rewrite Forall_forall in Hs.
    by rewrite (Hs i) by by apply list_elem_of_lookup_2 in Hj.
  - apply Forall_fmap. eapply Forall_impl; [by eapply idx_small|]. intros i Hi. simpl. by rewrite Hi.
Qed.

Lemma next_seq_runs vals s :
  log_repr (view s) vals →
  next_seq kv prefix s = Ret (if (N.of_nat (length vals) <? u64_bound)%N
                              then Ok (N.of_nat (length vals)) else seq_overflow prefix) s.
Proof.
  intros Hr. destruct (repr_listed vals s Hr) as (idx & Hl & Hp).
  unfold next_seq, mrbind, bind. rewrite Hl. unfold ret. f_equal. unfold next_seq_from_keys.
  rewrite (try_map_ok _ (λ k, match seq_from_key prefix k with Ok n => n | Err _ => 0%N end)).
  2: { apply Forall_fmap. eapply Forall_impl; [by eapply idx_small|]. intros i Hi. simpl. by rewrite Hi. }
  assert ((λ k, match seq_from_key prefix k with Ok n => n | Err _ => 0%N end) <$> ((λ i, log_key i) <$> idx)
          = N.of_nat <$> idx) as ->.
  { rewrite <- list_fmap_compose. apply list_fmap_ext. intros j i Hj. simpl.
    pose proof (idx_small _ _ _ Hr Hp) as Hs. rewrite Forall_forall in Hs.
    by rewrite (Hs i) by by apply list_elem_of_lookup_2 in Hj. }
  simpl rbind. destruct (max_of (N.of_nat <$> idx)) as [m|] eqn:Hm.
  - apply max_of_spec in Hm as [Hin Hle]. apply list_elem_of_fmap in Hin as (i & -> & Hi).
    rewrite Hp in Hi. apply elem_of_seq in Hi.
    assert (N.of_nat (length vals - 1) ≤ N.of_nat i)%N as Hlast.
    { apply Hle. apply list_elem_of_fmap_2. rewrite Hp. apply elem_of_seq. lia. }
    by replace (N.of_nat i + 1)%N with (N.of_nat (length vals)) by lia.
  - destruct idx; [|done]. apply Permutation_length in Hp. rewrite length_seq in Hp. simpl in Hp.
    by rewrite <- Hp.
Qed.

(** Appending writes the next position. *)
Lemma repr_snoc m vals v :
  log_repr m vals → (N.of_nat (length vals) < u64_bound)%N →
  log_repr (<[log_key (length vals) := v]> m) (vals ++ [v]).
Proof.
  intros [Hl Hm] Hlt. split; [rewrite length_app; simpl; lia|]. intros k w Hk.
  destruct (decide (k = log_key (length vals))) as [->|Hne].
  - rewrite lookup_insert_eq. split.
    + intros [= ->]. exists (length vals). split; [done|]. by apply list_lookup_middle.
    + intros (i & Hi%append_log_key_inj & Hv). apply Nat2N.inj in Hi as <-.
      rewrite list_lookup_middle in Hv by done. done.
  - rewrite lookup_insert_ne by done. rewrite (Hm k w Hk). split; intros (i & -> & Hi); exists i; split; try done.
    + by apply lookup_app_l_Some.
    + apply lookup_app_Some in Hi as [Hi|[Hge Hi]]; [done|]. exfalso. apply Hne.
      apply list_lookup_singleton_Some in Hi as [Hi _]. by replace i with (length vals) by lia.
Qed.

(** Appending to a log adds one value at its end under the next sequence, and
    fails with an error, changing nothing, when the sequences are used up. *)
Lemma append_runs vals v s :
  log_repr (view s) vals →
  ∃ s', append kv prefix v s =
          Ret (if (N.of_nat (length vals) <? u64_bound)%N then Ok (entry_at (length vals) v)
               else seq_overflow prefix) s' ∧
        log_repr (view s') (if (N.of_nat (length vals) <? u64_bound)%N then vals ++ [v] else vals).
Proof.
  intros Hr. unfold append. unfold mrbind at 1, bind. rewrite (next_seq_runs vals s Hr).
  destruct (N.of_nat (length vals) <? u64_bound)%N eqn:Hlt; [|by eexists].
  destruct (kv_set_spec (log_key (length vals)) v s) as (s' & Hs & Hv).
  unfold mrbind, bind. rewrite Hs. exists s'. split; [done|]. rewrite Hv.
  apply repr_snoc; [done|]. by apply N.ltb_lt.
Qed.

(** *** Reading *)

Lemma filter_seq a k n :
  List.filter (λ i, (N.of_nat a <? N.of_nat i)%N) (seq k n) = drop (S a - k) (seq k n).
Proof.
  revert k. induction n as [|n IH]; intros k; simpl; [by rewrite drop_nil|].
  destruct (N.of_nat a <? N.of_nat k)%N eqn:Hk.
  - apply N.ltb_lt in Hk. rewrite IH. replace (S a - k) with 0 by lia. replace (S a - S k) with 0 by lia. done.
  - apply N.ltb_ge in Hk. rewrite IH. destruct (S a - k) as [|d] eqn:Hd; [lia|]. simpl.
    f_equal. lia.
Qed.

Definition log_pair (i : nat) : string * N := (log_key i, N.of_nat i).

Lemma filter_pairs (after : option N) n :
  List.filter (λ ks, after_seq after ks.2) (log_pair <$> seq 0 n) = log_pair <$> drop (read_start after) (seq 0 n).
Proof.
  transitivity (log_pair <$> List.filter (λ i, after_seq after (N.of_nat i)) (seq 0 n)).
  - induction (seq 0 n) as [|i l IH]; [done|]. rewrite fmap_cons. cbn [List.filter snd log_pair].
    rewrite IH. by destruct (after_seq after (N.of_nat i)).
  - f_equal. destruct after as [a|]; simpl.
    + pose proof (filter_seq (N.to_nat a) 0 n) as Hf. rewrite N2Nat.id, Nat.sub_0_r in Hf. exact Hf.
    + induction (seq 0 n) as [|i l IH]; [done|]. simpl. by rewrite IH, drop_0.
Qed.

Lemma filter_bool_perm {A} (p : A → bool) l l' : l ≡ₚ l' → List.filter p l ≡ₚ List.filter p l'.
Proof.
  induction 1 as [|x l l' _ IH|x y l|]; simpl; [done| | |by etrans].
  - destruct (p x); [by constructor|done].
  - destruct (p x), (p y); try done. by constructor.
Qed.

Definition seq_cmp (a b : string * N) : comparison := N.compare a.2 b.2.

Lemma log_pairs_sorted l : StronglySorted lt l → StronglySorted (cmp_le seq_cmp) (log_pair <$> l).
Proof.
  induction 1 as [|i l Hl IH Hall]; simpl; constructor; [done|]. apply Forall_fmap.
  eapply Forall_impl; [exact Hall|]. intros j Hj. unfold cmp_le, seq_cmp. simpl.
  apply N.compare_le_iff. lia.
Qed.

Lemma seq_sorted_lt k n : StronglySorted lt (seq k n).
Proof.
  revert k. induction n as [|n IH]; intros k; simpl; constructor; [done|].
  apply Forall_forall. intros j Hj%elem_of_seq. lia.
Qed.

Lemma StronglySorted_drop {A} (R : A → A → Prop) k l : StronglySorted R l → StronglySorted R (drop k l).
Proof.
  revert l. induction k as [|k IH]; intros l Hl; [done|]. destruct l as [|x l]; [done|]. simpl. apply IH.
  by inversion Hl.
Qed.

(** Whatever the order of the listing, sorting by sequence gives the tail. *)
Lemma sorted_listing after idx n :
  idx ≡ₚ seq 0 n →
  sort_by seq_cmp (List.filter (λ ks, after_seq after ks.2) (log_pair <$> idx))
  = log_pair <$> drop (read_start after) (seq 0 n).
Proof.
  intros Hp. eapply (StronglySorted_unique_strong (cmp_le seq_cmp)).
  - intros x y Hx Hy Hxy Hyx.
    assert (x ∈ log_pair <$> idx ∧ y ∈ log_pair <$> idx) as [Hx' Hy'].
    { rewrite sort_by_perm in Hx. apply elem_of_filter_bool in Hx as [Hx _]. split; [done|].
      rewrite Hp. apply list_elem_of_fmap in Hy as (j & -> & Hj). apply list_elem_of_fmap_2.
      by eapply subseteq_drop. }
    apply list_elem_of_fmap in Hx' as (i & -> & _), Hy' as (j & -> & _).
    unfold cmp_le, seq_cmp in *. simpl in *. assert (i = j) as ->; [|done].
    rewrite N.compare_le_iff in Hxy, Hyx. lia.
  - apply sort_by_sorted.
    + intros a b. apply N.compare_antisym.
    + intros a b c. unfold cmp_le, seq_cmp. rewrite !N.compare_le_iff. by etrans.
  - apply log_pairs_sorted, StronglySorted_drop, seq_sorted_lt.
  - rewrite sort_by_perm. rewrite <- filter_pairs. apply filter_bool_perm. by rewrite Hp.
Qed.

Lemma mtry_map_forall2 {A B} (f : A → M St (StorageResult B)) l bs s :
  Forall2 (λ a b, f a s = Ret (Ok b) s) l bs → mtry_map f l s = Ret (Ok bs) s.
Proof.
  induction 1 as [|a b l bs Ha Hl IH]; simpl; [done|]. unfold mrbind at 1, bind. rewrite Ha.
  unfold mrbind, bind. by rewrite IH.
Qed.

Lemma length_log_entries vals : length (log_entries vals) = length vals.
Proof. apply length_imap. Qed.

(** Reading returns the slice of the appended values the options ask for, in
    order, each with its key and sequence, and changes nothing. *)
Lemma read_runs vals opts s :
  log_repr (view s) vals → read kv prefix opts s = Ret (Ok (read_slice opts vals)) s.
Proof.
  intros Hr. destruct (listed_runs vals s Hr) as (idx & Hl & Hp).
  unfold read, read_append_log_entries. unfold mrbind at 1, bind. rewrite Hl.
  change (λ i, (log_key i, N.of_nat i)) with log_pair.
  change (λ a b : string * N, (a.2 ?= b.2)%N) with seq_cmp.
  rewrite (sorted_listing _ _ _ Hp).
  match goal with |- mtry_map ?f _ _ = _ => set (get := f) end.
  assert (Forall2 (λ ks e, get ks s = Ret (Ok e) s)
            (log_pair <$> drop (read_start (after opts)) (seq 0 (length vals)))
            (drop (read_start (after opts)) (log_entries vals))) as Hall.
  { rewrite fmap_drop. apply Forall2_drop. apply Forall2_same_length_lookup_2.
    - by rewrite length_fmap, length_seq, length_log_entries.
    - intros i ks e Hks He. apply list_lookup_fmap_Some in Hks as (j & -> & Hj).
      apply lookup_seq in Hj as [-> Hj]. unfold log_entries in He.
      rewrite list_lookup_imap in He. destruct (vals !! i) as [v|] eqn:Hv; [|done]. injection He as <-.
      unfold get, mrbind, bind. simpl. rewrite kv_get_spec. by rewrite (repr_lookup _ _ _ _ Hr Hv). }
  unfold read_slice. destruct (limit opts) as [n|]; apply mtry_map_forall2; [by apply Forall2_take|done].
Qed.

Lemma size_runs vals s :
  log_repr (view s) vals → size kv prefix s = Ret (Ok (length vals)) s.
Proof.
  intros Hr. destruct (repr_listed vals s Hr) as (idx & Hl & Hp).
  unfold size, mrbind, bind. rewrite Hl. unfold ret, size_from_keys. f_equal.
  rewrite (try_map_ok _ (λ k, match seq_from_key prefix k with Ok n => n | Err _ => 0%N end)).
  - simpl. by rewrite length_fmap, Hp, length_seq.
  - apply Forall_fmap. eapply Forall_impl; [by eapply idx_small|]. intros i Hi. simpl. by rewrite Hi.
Qed.

(** *** Truncation *)

Definition deleted_keys (cut : N) (idx : list nat) : list string :=
  (λ i, log_key i) <$> List.filter (λ i, (cut <? N.of_nat i)%N) idx.

Lemma delete_loop cut idx s :
  ∃ r s', mtry_map (λ ks, if (cut <? ks.2)%N then kv_delete kv ks.1 else ret (Ok tt)) (log_pair <$> idx) s
          = Ret (Ok r) s' ∧
    ∀ k, view s' !! k = if decide (k ∈ deleted_keys cut idx) then None else view s !! k.
Proof.
  revert s. induction idx as [|i idx IH]; intros s.
  { exists [], s. split; [done|]. intros k. rewrite decide_False; [done|]. apply not_elem_of_nil. }
  rewrite fmap_cons. cbn [mtry_map log_pair fst snd]. unfold deleted_keys. cbn [List.filter].
  destruct (cut <? N.of_nat i)%N.
  - destruct (kv_delete_spec (log_key i) s) as (s1 & Hd & Hv). destruct (IH s1) as (r & s' & Hl & Hv').
    rewrite (mrbind_step _ _ _ _ _ Hd), (mrbind_step _ _ _ _ _ Hl).
    exists (tt :: r), s'. split; [done|]. intros k. rewrite Hv', Hv. fold (deleted_keys cut idx).
    rewrite fmap_cons. fold (deleted_keys cut idx).
    destruct (decide (k ∈ deleted_keys cut idx)) as [Hin|Hin].
    + by rewrite decide_True by by right.
    + destruct (decide (k = log_key i)) as [->|Hne].
      * rewrite lookup_delete_eq, decide_True; [done|]. by left.
      * rewrite lookup_delete_ne, decide_False; [done| |done]. by intros [?|?]%elem_of_cons.
  - destruct (IH s) as (r & s' & Hl & Hv'). rewrite (mrbind_step _ _ s tt s) by done.
    rewrite (mrbind_step _ _ _ _ _ Hl). exists (tt :: r), s'. split; [done|]. exact Hv'.
Qed.

(** Truncating keeps exactly the values up to a sequence. *)
Lemma truncate_runs vals cut s :
  log_repr (view s) vals →
  ∃ s', truncate_after kv prefix cut s = Ret (Ok tt) s' ∧
        log_repr (view s') (take (S (N.to_nat cut)) vals).
Proof.
  intros Hr. destruct (listed_runs vals s Hr) as (idx & Hl & Hp).
  destruct (delete_loop cut idx s) as (r & s' & Hd & Hv).
  unfold truncate_after, delete_append_log_entries_after. unfold mrbind at 1, bind. rewrite Hl.
  change (λ i, (log_key i, N.of_nat i)) with log_pair. unfold mrbind, bind. rewrite Hd.
  exists s'. split; [done|].
  assert (∀ i, log_key i ∈ deleted_keys cut idx ↔ N.to_nat cut < i ∧ i < length vals) as Hdel.
  { intros i. unfold deleted_keys. rewrite list_elem_of_fmap. split.
    - intros (j & ->%append_log_key_inj%Nat2N.inj & Hj). apply elem_of_filter_bool in Hj as [Hj Hc].
      rewrite Hp in Hj. apply elem_of_seq in Hj. apply N.ltb_lt in Hc. lia.
    - intros [Hc Hi]. exists i. split; [done|]. apply elem_of_filter_bool. rewrite Hp.
      rewrite elem_of_seq, N.ltb_lt. lia. }
  pose proof Hr as [Hlen Hm]. split; [rewrite length_take; lia|]. intros k v Hk. rewrite Hv. case_decide as Hin.
  - split; [done|]. intros (i & -> & Hi). apply Hdel in Hin. apply lookup_take_Some in Hi. lia.
  - rewrite (Hm k v Hk). split; intros (i & -> & Hi); exists i; (split; [done|]).
    + rewrite lookup_take_lt; [done|]. apply lookup_lt_Some in Hi as Hlt.
      destruct (decide (i < S (N.to_nat cut))); [done|]. exfalso. apply Hin, Hdel. lia.
    + by apply lookup_take_Some in Hi as [Hi _].
Qed.

(** *** The log is a list: a simulation *)

Inductive LogCall :=
| CallAppend (v : T)
| CallRead (opts : AppendLogReadOptions)
| CallTruncateAfter (seq : N)
| CallSize.

Inductive LogAnswer :=
| Appended (r : StorageResult (AppendLogEntry T))
| ReadBack (r : StorageResult (list (AppendLogEntry T)))
| Truncated (r : StorageResult unit)
| Sized (r : StorageResult nat).

Definition log_call (c : LogCall) : M St LogAnswer :=
  match c with
  | CallAppend v => let! r := append kv prefix v in ret (Appended r)
  | CallRead opts => let! r := read kv prefix opts in ret (ReadBack r)
  | CallTruncateAfter seq => let! r := truncate_after kv prefix seq in ret (Truncated r)
  | CallSize => let! r := size kv prefix in ret (Sized r)
  end.

(** The same call on the list of the values. *)
Definition list_call (c : LogCall) (vals : list T) : LogAnswer * list T :=
  match c with
  | CallAppend v =>
      if (N.of_nat (length vals) <? u64_bound)%N
      then (Appended (Ok (entry_at (length vals) v)), vals ++ [v])
      else (Appended (seq_overflow prefix), vals)
  | CallRead opts => (ReadBack (Ok (read_slice opts vals)), vals)
  | CallTruncateAfter seq => (Truncated (Ok tt), take (S (N.to_nat seq)) vals)
  | CallSize => (Sized (Ok (length vals)), vals)
  end.

Fixpoint list_calls (cs : list LogCall) (vals : list T) : list LogAnswer * list T :=
  match cs with
  | [] => ([], vals)
  | c :: cs =>
      let '(a, vals1) := list_call c vals in
      let '(answers, vals2) := list_calls cs vals1 in (a :: answers, vals2)
  end.

(** The calls in order, with their answers. *)
Fixpoint log_calls (cs : list LogCall) : M St (list LogAnswer) :=
  match cs with
  | [] => ret []
  | c :: cs => let! a := log_call c in let! answers := log_calls cs in ret (a :: answers)
  end.

Lemma log_call_simulates c vals s :
  log_repr (view s) vals →
  ∃ s', log_call c s = Ret (fst (list_call c vals)) s' ∧ log_repr (view s') (snd (list_call c vals)).
Proof.
  intros Hr. destruct c as [v|opts|cut|]; simpl; unfold bind.
  - destruct (append_runs vals v s Hr) as (s' & Ha & Hr'). rewrite Ha. exists s'.
    by destruct (N.of_nat (length vals) <? u64_bound)%N.
  - rewrite (read_runs vals) by done. by exists s.
  - destruct (truncate_runs vals cut s Hr) as (s' & Ha & Hr'). rewrite Ha. by exists s'.
  - rewrite (size_runs vals) by done. by exists s.
Qed.

(** C8: an append log behaves as the list of the values appended.  Over any
    key-value tier that is a map, any sequence of appends, reads, truncations and
    size queries gives the answers the list gives: sequences are the positions,
    a read is the slice its options ask for, truncation keeps the values up to a
    sequence, and an append fails without effect when the sequences are used up. *)
Theorem append_log_refines_list cs vals s :
  log_repr (view s) vals →
  ∃ s', log_calls cs s = Ret (fst (list_calls cs vals)) s' ∧ log_repr (view s') (snd (list_calls cs vals)).
Proof.
  revert vals s. induction cs as [|c cs IH]; intros vals s Hr; simpl; [by exists s|].
  destruct (log_call_simulates c vals s Hr) as (s1 & Hc & Hr1). unfold bind. rewrite Hc.
  destruct (list_call c vals) as [a vals1]. destruct (IH vals1 s1 Hr1) as (s2 & Hcs & Hr2). simpl. rewrite Hcs.
  exists s2. by destruct (list_calls cs vals1).
Qed.

(** *** Pages *)

Lemma read_slice_limit vals a n :
  read_slice (mkAppendLogReadOptions a (Some n)) vals = take n (drop (read_start a) (log_entries vals)).
Proof. done. Qed.

(** The pages of a log, each read after the last, until one says it is done. *)
Fixpoint read_pages (fuel lim : nat) (a : option N) : M St (StorageResult (list (AppendLogEntry T))) :=
  match fuel with
  | 0 => no_fuel
  | S fuel =>
      let!? page := read_append_log_page (append_log_tier kv prefix) (mkAppendLogReadOptions a (Some lim)) in
      if done_ page then ret (Ok (entries page))
      else let!? rest := read_pages fuel lim (next_after page) in ret (Ok (entries page ++ rest))
  end.

Lemma page_runs vals a lim s :
  log_repr (view s) vals → 0 < lim → (Z.of_nat lim < usize_max)%Z →
  let rest := drop (read_start a) (log_entries vals) in
  read_append_log_page (append_log_tier kv prefix) (mkAppendLogReadOptions a (Some lim)) s
  = Ret (Ok (mkAppendLogPage (take lim rest)
               (match last (take lim rest) with Some e => Some (seq_ e) | None => a end)
               (length rest <=? lim))) s.
Proof.
  intros Hr H0 Hmax rest. unfold read_append_log_page. simpl.
  rewrite (proj2 (Nat.eqb_neq lim 0)) by lia. rewrite bool_decide_eq_false_2 by lia.
  unfold mrbind, bind. rewrite (read_runs vals) by done. rewrite read_slice_limit.
  fold rest. unfold ret.
  assert (length (take (lim + 1) rest) <=? lim = (length rest <=? lim)) as ->.
  { rewrite length_take. destruct (length rest <=? lim) eqn:Hle.
    - apply Nat.leb_le in Hle. apply Nat.leb_le. lia.
    - apply Nat.leb_gt in Hle. apply Nat.leb_gt. lia. }
  assert ((if lim <? length (take (lim + 1) rest) then take lim (take (lim + 1) rest) else take (lim + 1) rest)
          = take lim rest) as ->; [|done].
  rewrite length_take. destruct (lim <? _) eqn:Hlt.
  - rewrite take_take. f_equal. lia.
  - apply Nat.ltb_ge in Hlt. rewrite !take_ge by lia. done.
Qed.
Lemma log_entries_lookup vals i v : vals !! i = Some v → log_entries vals !! i = Some (entry_at i v).
Proof. intros Hi. unfold log_entries. by rewrite list_lookup_imap, Hi. Qed.

(** Paging through a log with its cursor ends and returns every entry after
    the starting point, once and in order, whatever the page size. *)
Theorem pages_cover vals lim s :
  log_repr (view s) vals → 0 < lim → (Z.of_nat lim < usize_max)%Z →
  ∀ fuel a, length vals < fuel →
    read_pages fuel lim a s = Ret (Ok (drop (read_start a) (log_entries vals))) s.
Proof.
  intros Hr H0 Hmax fuel a Hf.
  cut (∀ fuel a, length (drop (read_start a) (log_entries vals)) < fuel →
         read_pages fuel lim a s = Ret (Ok (drop (read_start a) (log_entries vals))) s).
  { intros Hc. apply Hc. rewrite length_drop, length_log_entries. lia. }
  clear fuel a Hf. induction fuel as [|fuel IH]; intros a Hf; [lia|]. cbn [read_pages].
  rewrite (mrbind_step _ _ _ _ _ (page_runs vals a lim s Hr H0 Hmax)). cbn [done_ next_after entries].
  set (rest := drop (read_start a) (log_entries vals)) in *.
  destruct (length rest <=? lim) eqn:Hle.
  { apply Nat.leb_le in Hle. by rewrite take_ge. }
  apply Nat.leb_gt in Hle. set (p := read_start a + (lim - 1)).
  assert (p < length vals) as Hp.
  { unfold rest in Hle. rewrite length_drop, length_log_entries in Hle. unfold p. lia. }
  destruct (lookup_lt_is_Some_2 vals p Hp) as [v Hv].
  assert (last (take lim rest) = Some (entry_at p v)) as ->.
  { rewrite last_lookup, length_take. replace (pred (min lim (length rest))) with (lim - 1) by lia.
    rewrite lookup_take_lt by lia. unfold rest. rewrite lookup_drop. by apply log_entries_lookup. }
  cbn [seq_ entry_at].
  assert (drop (read_start (Some (N.of_nat p))) (log_entries vals) = drop lim rest) as Hd.
  { unfold rest. rewrite drop_drop. f_equal. simpl. rewrite Nat2N.id. unfold p. lia. }
  pose proof (IH (Some (N.of_nat p))) as IHp. rewrite Hd in IHp.
  rewrite (mrbind_step _ _ _ _ _ (IHp ltac:(rewrite length_drop; lia))). unfold ret.
  by rewrite take_drop.
Qed.

(** *** Many writers *)

Lemma put_runs vals i v s :
  log_repr (view s) vals → i ≤ length vals → (N.of_nat i < u64_bound)%N →
  ∃ s', kv_put_if_absent kv (log_key i) v s = Ret (Ok (bool_decide (i = length vals))) s' ∧
    log_repr (view s') (if decide (i = length vals) then vals ++ [v] else vals).
Proof.
  intros Hr Hi Hb. destruct (kv_put_if_absent_spec (log_key i) v s) as (s' & Hp & Hv). exists s'.
  destruct (decide (i = length vals)) as [->|Hne].
  - assert (view s !! log_key (length vals) = None) as Hn.
    { destruct (view s !! log_key (length vals)) as [w|] eqn:Hw; [|done]. exfalso.
      apply (proj2 Hr) in Hw as (j & Hj%append_log_key_inj%Nat2N.inj & Hw); [|apply append_log_key_prefix].
      apply lookup_lt_Some in Hw. lia. }
    rewrite Hn in Hp, Hv. rewrite bool_decide_eq_true_2 in Hp by done. rewrite bool_decide_eq_true_2 by done.
    split; [done|]. rewrite Hv. by apply repr_snoc.
  - destruct (lookup_lt_is_Some_2 vals i) as [w Hw]; [lia|].
    rewrite (repr_lookup _ _ _ _ Hr Hw) in Hp, Hv. rewrite bool_decide_eq_false_2 in Hp by done.
    rewrite bool_decide_eq_false_2 by done. split; [done|]. by rewrite Hv.
Qed.

(** A concurrent append whose starting sequence is stale, because other
    writers have appended since it listed the keys, still ends, and adds its value
    at the end of the log without overwriting any other. *)
Theorem multi_append_refines vals v max_attempts :
  0 < max_attempts → (N.of_nat (length vals) < u64_bound)%N →
  ∀ fuel s start attempts,
    log_repr (view s) vals → start ≤ length vals → length vals - start < fuel →
    ∃ s', multi_append_loop kv prefix fuel max_attempts v (N.of_nat start) attempts s
          = Ret (Ok (entry_at (length vals) v)) s' ∧ log_repr (view s') (vals ++ [v]).
Proof.
  intros Hmax Hlt. induction fuel as [|fuel IH]; intros s start attempts Hr Hs Hf; [lia|].
  cbn [multi_append_loop].
  assert (∃ start' attempts', start ≤ start' ≤ length vals ∧
    (if max_attempts <=? attempts then
       let!? refreshed := next_seq kv prefix in ret (Ok (N.max (N.of_nat start) refreshed, 0))
     else ret (Ok (N.of_nat start, attempts))) s = Ret (Ok (N.of_nat start', attempts')) s)
    as (start' & attempts' & Hs' & Hstep).
  { destruct (max_attempts <=? attempts).
    - exists (length vals), 0. split; [lia|]. pose proof (next_seq_runs vals s Hr) as Hn.
      rewrite (proj2 (N.ltb_lt _ _) Hlt) in Hn. rewrite (mrbind_step _ _ _ _ _ Hn). unfold ret.
      do 4 f_equal. lia.
    - exists start, attempts. split; [lia|done]. }
  rewrite (mrbind_step _ _ _ _ _ Hstep). cbn beta iota.
  destruct (put_runs vals start' v s Hr) as (s' & Hp & Hr'); [lia|lia|].
  rewrite (mrbind_step _ _ _ _ _ Hp). destruct (decide (start' = length vals)) as [->|Hne].
  - rewrite bool_decide_eq_true_2 by done. by exists s'.
  - rewrite bool_decide_eq_false_2 by done. rewrite (proj2 (N.ltb_lt _ _)) by lia.
    replace (N.of_nat start' + 1)%N with (N.of_nat (S start')) by lia. apply IH; [done|lia|lia].
Qed.
End Log.
