(* ===== verification/CollectionFacts.v ===== *)
(** * What a collection's changes say about its buffer

    The abstract meaning of each change ([list_change], [log_change],
    [map_change], [index_change]) and the theorems that every sequence of
    operations, panicking ones included, emits changes that take the buffer before
    to the buffer after, keeps the capacity, and moves the version whenever the
    buffer moves ([moved]).  The snapshot node and the running fold of a log are
    correct for that reason. *)

From stdpp Require Import base list option strings pretty numbers.
From Stdlib Require Import Sorted.
From S2P Require Import Prelude.
From S2P Require Import BTree.
From S2P Require Import Collections.

Local Open Scope rx_scope.

(** ** Replaying changes *)

(** [replay R b cs b']: the changes [cs], in order, take [b] to [b']. *)
Inductive replay {B C} (R : B → C → B → Prop) : B → list C → B → Prop :=
| replay_nil b : replay R b [] b
| replay_cons b c b1 cs b' : R b c b1 → replay R b1 cs b' → replay R b (c :: cs) b'.

Section Replay.
Context {B C : Type} (R : B → C → B → Prop).

Lemma replay_one b c b' : R b c b' → replay R b [c] b'.
Proof. intros Hr. eapply replay_cons; [exact Hr|constructor]. Qed.

Lemma replay_app b1 cs1 b2 cs2 b3 :
  replay R b1 cs1 b2 → replay R b2 cs2 b3 → replay R b1 (cs1 ++ cs2) b3.
Proof. induction 1 as [b|b c b1 cs b' Hr _ IH]; intros H2; [done|]. econstructor; eauto. Qed.
End Replay.

Inductive list_change {T} : list T → ListChange T → list T → Prop :=
| lc_append b v : list_change b (ListAppend v) (b ++ [v])
| lc_append_many b vs : list_change b (ListAppendMany vs) (b ++ vs)
| lc_insert b i v : i ≤ length b → list_change b (ListInsert i v) (take i b ++ [v] ++ drop i b)
| lc_insert_many b i vs : i ≤ length b → list_change b (ListInsertMany i vs) (take i b ++ vs ++ drop i b)
| lc_pop b i v : b !! i = Some v → list_change b (ListPop i v) (delete i b)
| lc_trim_head b n : n ≤ length b → list_change b (ListTrimHead n) (drop n b)
| lc_clear b : list_change b (ListClear (length b)) [].

Inductive log_change {T} : list T → LogChange T → list T → Prop :=
| gc_append b v : log_change b (LogAppend v) (b ++ [v])
| gc_append_many b vs : log_change b (LogAppendMany vs) (b ++ vs)
| gc_trim_head b n : n ≤ length b → log_change b (LogTrimHead n) (drop n b)
| gc_clear b : log_change b (LogClear (length b)) [].

Inductive map_change {K V} `{!OrdKey K} : BTree K V → MapChange K V → BTree K V → Prop :=
| mc_set m k v : map_change m (MapSet k v) (bt_insert k v m)
| mc_delete m k v : bt_get k m = Some v → map_change m (MapDelete k v) (bt_remove k m)
| mc_clear m : map_change m (MapClear (length m)) [].

Fixpoint bt_remove_all {K V} `{!OrdKey K} (ks : list K) (m : BTree K V) : BTree K V :=
  match ks with [] => m | k :: ks => bt_remove_all ks (bt_remove k m) end.

Inductive index_change {K S V} `{!OrdKey K} :
    BTree K (S * V) → IndexChange K S V → BTree K (S * V) → Prop :=
| ic_upsert m p sec v : index_change m (IndexUpsert p sec v) (bt_insert p (sec, v) m)
| ic_delete m p : is_Some (bt_get p m) → index_change m (IndexDelete p) (bt_remove p m)
| ic_delete_many m ps :
    NoDup ps → Forall (λ p, is_Some (bt_get p m)) ps →
    index_change m (IndexDeleteMany ps) (bt_remove_all ps m)
| ic_clear m : index_change m (IndexClear (length m)) [].

(** ** Versions *)

(** From version [v] to [v'] in at most [n] bumps, and the content is the same
    when there was none. *)
Definition moved {A} (n : nat) (v v' : Z) (a a' : A) : Prop :=
  ∃ k, k ≤ n ∧ v' = ((v + Z.of_nat k) mod 2 ^ 64)%Z ∧ (k = 0 → a' = a).

Lemma moved_refl {A} v (a : A) : (0 ≤ v < 2 ^ 64)%Z → moved 0 v v a a.
Proof. intros Hv. exists 0. split_and!; [done| |done]. rewrite Z.add_0_r, Z.mod_small; lia. Qed.

Lemma moved_trans {A} n m v1 v2 v3 (a1 a2 a3 : A) :
  moved n v1 v2 a1 a2 → moved m v2 v3 a2 a3 → moved (n + m) v1 v3 a1 a3.
Proof.
  intros (k & Hk & -> & Ha) (k' & Hk' & -> & Ha'). exists (k + k'). split_and!; [lia| |].
  - rewrite Zplus_mod_idemp_l. f_equal. lia.
  - intros H0. rewrite Ha', Ha by lia. done.
Qed.

Lemma moved_le {A} n m v v' (a a' : A) : moved n v v' a a' → n ≤ m → moved m v v' a a'.
Proof. intros (k & Hk & Hv & Ha) Hm. exists k. split_and!; [lia|done|done]. Qed.

Lemma moved_bump {A} v (a a' : A) : moved 1 v (wrapping_succ v) a a'.
Proof. exists 1. split_and!; [done| |done]. done. Qed.

Lemma wrapping_succ_range v : (0 ≤ wrapping_succ v < 2 ^ 64)%Z.
Proof. apply Z.mod_pos_bound. lia. Qed.

(** Fewer than [2 ^ 64] bumps cannot come back to the same version. *)
Lemma moved_same {A} n v v' (a a' : A) :
  (0 ≤ v < 2 ^ 64)%Z → moved n v v' a a' → (Z.of_nat n < 2 ^ 64)%Z → v' = v → a' = a.
Proof.
  intros Hv (k & Hk & -> & Ha) Hn Heq. apply Ha.
  destruct (decide (v + Z.of_nat k < 2 ^ 64)%Z) as [Hlt|Hge].
  - rewrite Z.mod_small in Heq by lia. lia.
  - rewrite <- (Z.mod_add _ (-1)) in Heq by lia. rewrite Z.mod_small in Heq by lia. lia.
Qed.

(** ** Calls *)

Section Tracks.
Context {S A B C : Type} (R : B → C → B → Prop) (inv : S → Prop).
Context (emitted : S → list C) (buf : S → B) (version : S → Z).

(** [tracked s s']: the changes emitted between the states explain the buffer. *)
Definition tracked (n : nat) (s s' : S) : Prop :=
  inv s' ∧ (∃ cs, emitted s' = emitted s ++ cs ∧ replay R (buf s) cs (buf s')) ∧
  moved n (version s) (version s') (buf s) (buf s').

Lemma tracked_trans n m s1 s2 s3 : tracked n s1 s2 → tracked m s2 s3 → tracked (n + m) s1 s3.
Proof.
  intros (_ & (cs & He & Hr) & Hm) (Hi & (cs' & He' & Hr') & Hm'). split; [done|]. split.
  - exists (cs ++ cs'). split; [by rewrite He', He, app_assoc|]. by eapply replay_app.
  - by eapply moved_trans.
Qed.

Lemma tracked_le n m s s' : tracked n s s' → n ≤ m → tracked m s s'.
Proof. intros (? & ? & ?) ?. split_and!; [done..|by eapply moved_le]. Qed.

(** A call ends, by returning or by unwinding, in a tracked state. *)
Definition tracks (n : nat) {X} (m : M S X) : Prop :=
  ∀ s, inv s → match m s with Ret _ s' | Unwind _ s' => tracked n s s' | OutOfFuel => False end.

Context (Hrange : ∀ s, inv s → (0 ≤ version s < 2 ^ 64)%Z).

Lemma tracked_refl s : inv s → tracked 0 s s.
Proof.
  intros Hi. split; [done|]. split; [exists []; split; [by rewrite app_nil_r|constructor]|].
  by apply moved_refl, Hrange.
Qed.

Lemma tracks_ret {X} n (x : X) : tracks n (ret x).
Proof. intros s Hi. eapply tracked_le; [by apply tracked_refl|lia]. Qed.

Lemma tracks_panic {X} n p : tracks n (@panic S X p).
Proof. intros s Hi. eapply tracked_le; [by apply tracked_refl|lia]. Qed.

Lemma tracks_bind {X Y} n m (x : M S X) (k : X → M S Y) :
  tracks n x → (∀ a, tracks m (k a)) → tracks (n + m) (bind x k).
Proof.
  intros Hx Hk s Hi. specialize (Hx s Hi). unfold bind. destruct (x s) as [a s1|p s1|]; [|eapply tracked_le; [exact Hx|lia]|done].
  specialize (Hk a s1 (proj1 Hx)). destruct (k a s1); [by eapply tracked_trans..|done].
Qed.

Lemma tracks_catch {X} n (x : M S X) : tracks n x → tracks n (catch_unwind x).
Proof. intros Hx s Hi. specialize (Hx s Hi). unfold catch_unwind. by destruct (x s). Qed.

Lemma tracks_for_each {X} n (l : list X) (f : X → M S unit) :
  (∀ x, tracks n (f x)) → tracks (n * length l) (for_each l f).
Proof.
  intros Hf. induction l as [|x l IH]; simpl; [apply tracks_ret|].
  rewrite Nat.mul_succ_r, Nat.add_comm. by apply tracks_bind.
Qed.

Lemma tracks_le {X} n m (x : M S X) : tracks n x → n ≤ m → tracks m x.
Proof. intros Hx Hn s Hi. specialize (Hx s Hi). destruct (x s); [by eapply tracked_le..|done]. Qed.
End Tracks.

(** ** Lists *)

Section ListFacts.
Import ListOps.
Context {T : Type}.
Implicit Types s : ReactiveList T.

(** The buffer is within its capacity, which is positive. *)
Definition fits (max : option nat) (b : list T) : Prop :=
  match max with Some m => 0 < m ∧ length b ≤ m | None => True end.

Definition list_inv (max : option nat) s : Prop :=
  max_size s = max ∧ fits max (buf (backend s)) ∧ (0 ≤ version (backend s) < 2 ^ 64)%Z.

Definition list_buf s : list T := buf (backend s).
Definition list_version s : Z := version (backend s).

Context (cap : option nat).
Notation ltracks := (tracks list_change (list_inv cap) emitted list_buf list_version).
Notation ltracked := (tracked list_change (list_inv cap) emitted list_buf list_version).

(** How many values the capacity drops. *)
Definition overflow (max : option nat) (b : list T) : nat :=
  match max with Some m => length b - m | None => 0 end.

Lemma overflow_le max (b : list T) : overflow max b ≤ length b.
Proof. unfold overflow. destruct max; lia. Qed.

Lemma trim_runs {S} max (b : list T) (s : S) :
  max ≠ Some 0 → trim_head_overflow b max s = Ret (drop (overflow max b) b, overflow max b) s.
Proof.
  intros Hm. unfold trim_head_overflow, overflow. destruct max as [m|]; [|by rewrite drop_0].
  unfold assert_or. rewrite (proj2 (Nat.ltb_lt 0 m)) by (destruct m; [done|lia]). unfold bind, ret.
  destruct (length b <=? m) eqn:Hle; [|done]. apply Nat.leb_le in Hle.
  replace (length b - m) with 0 by lia. by rewrite drop_0.
Qed.

(** The state after the head was dropped and announced. *)
Definition after_trim (n : nat) s : ReactiveList T :=
  if n =? 0 then s
  else mkReactiveList (mkListBackend (drop n (list_buf s)) (wrapping_succ (list_version s)))
         (max_size s) (emitted s ++ [ListTrimHead n]).

Lemma enforce_capacity_runs s :
  max_size s ≠ Some 0 →
  enforce_capacity s = Ret tt (after_trim (overflow (max_size s) (list_buf s)) s).
Proof.
  intros Hm. unfold enforce_capacity, emit_trimmed, on_backend, zoom, backend_enforce_max_size.
  unfold bind, gets, when. rewrite trim_runs by done. fold (list_buf s).
  unfold after_trim. destruct (overflow (max_size s) (list_buf s)) as [|n] eqn:Ho; simpl.
  - unfold set_buf, set_backend, ret. rewrite drop_0. by destruct s as [[? ?] ? ?].
  - done.
Qed.

(** A mutation that was announced, and the capacity enforced after it. *)
Lemma mutation_tracked s b c :
  list_inv cap s → list_change (list_buf s) c b →
  ltracked 2 s (after_trim (overflow (max_size s) b)
    (mkReactiveList (mkListBackend b (wrapping_succ (list_version s))) (max_size s) (emitted s ++ [c]))).
Proof.
  destruct s as [[b0 v0] max es]. intros (Hm & Hf & Hv) Hc. simpl in Hm. subst max.
  unfold after_trim, list_buf, list_version in *. simpl in *.
  destruct (overflow cap b =? 0) eqn:Ho.
  - apply Nat.eqb_eq in Ho. split; [split; [|split]|]; simpl.
    + done.
    + unfold fits, overflow in *. destruct cap; [lia|done].
    + apply wrapping_succ_range.
    + split; [exists [c]; split; [done|by apply replay_one]|]. eapply moved_le; [apply moved_bump|lia].
  - apply Nat.eqb_neq in Ho. split; [split; [|split]|]; simpl.
    + done.
    + unfold fits, overflow in *. destruct cap; [|done]. rewrite length_drop. lia.
    + apply wrapping_succ_range.
    + split.
      * exists [c; ListTrimHead (overflow cap b)]. simpl. split; [by rewrite <- app_assoc|].
        econstructor; [exact Hc|]. apply replay_one. constructor. apply overflow_le.
      * change 2 with (1 + 1). by eapply moved_trans; [apply (moved_bump _ _ b)|apply moved_bump].
Qed.

Lemma list_inv_max s : list_inv cap s → max_size s ≠ Some 0.
Proof. intros (Hm & Hf & _). rewrite Hm. destruct cap as [[]|]; simpl in Hf; [lia|done..]. Qed.

Lemma list_range s : list_inv cap s → (0 ≤ list_version s < 2 ^ 64)%Z.
Proof. by intros (_ & _ & Hv). Qed.

(** A mutation with its announcement and the capacity check, as one step. *)
Lemma mutate_runs s b c :
  list_inv cap s → list_change (list_buf s) c b →
  match (emit c ;;; enforce_capacity)
          (mkReactiveList (mkListBackend b (wrapping_succ (list_version s))) (max_size s) (emitted s)) with
  | Ret _ s' | Unwind _ s' => ltracked 2 s s'
  | OutOfFuel => False
  end.
Proof.
  intros Hi Hc. unfold bind at 1, emit, modify. simpl. rewrite enforce_capacity_runs by exact (list_inv_max s Hi).
  exact (mutation_tracked s b c Hi Hc).
Qed.

(** An operation that changes nothing. *)
Lemma unchanged_tracked n s : list_inv cap s → ltracked n s (set_backend (backend s) s).
Proof.
  intros Hi. replace (set_backend _ s) with s by by destruct s as [[? ?] ? ?].
  eapply tracked_le; [by apply (tracked_refl _ _ _ _ _ list_range)|lia].
Qed.

Lemma append_tracks v : ltracks 2 (append v).
Proof. intros s Hi. apply (mutate_runs s _ (ListAppend v)); [done|constructor]. Qed.

Lemma append_many_tracks vs : ltracks 2 (append_many vs).
Proof.
  intros s Hi. unfold append_many. destruct (decide (vs = [])) as [Hvs|Hvs]; [by apply (tracks_ret _ _ _ _ _ list_range)|].
  unfold on_backend, backend_append_many. rewrite decide_False by done.
  apply (mutate_runs s _ (ListAppendMany vs)); [done|constructor].
Qed.

Lemma insert_tracks i v : ltracks 2 (insert i v).
Proof.
  intros s Hi. unfold insert, on_backend, zoom, backend_insert, assert_or. unfold bind at 1 2 3, gets.
  destruct (i <=? length (buf (backend s))) eqn:Hle.
  - apply Nat.leb_le in Hle. apply (mutate_runs s _ (ListInsert i v)); [done|by constructor].
  - by apply unchanged_tracked.
Qed.

Lemma insert_many_tracks i vs : ltracks 2 (insert_many i vs).
Proof.
  intros s Hi. unfold insert_many, on_backend, zoom, backend_insert_many, assert_or. unfold bind at 1 2 3, gets.
  destruct (i <=? length (buf (backend s))) eqn:Hle.
  - apply Nat.leb_le in Hle. destruct (decide (vs = [])) as [Hvs|Hvs]; simpl.
    + by apply unchanged_tracked.
    + apply (mutate_runs s _ (ListInsertMany i vs)); [done|by constructor].
  - by apply unchanged_tracked.
Qed.

Lemma normalize_lt i n j : normalize_read_index i n = Some j → j < n.
Proof.
  unfold normalize_read_index. repeat case_decide; try done; intros [= <-]; lia.
Qed.

Lemma list_clear_tracks : ltracks 2 clear.
Proof.
  intros s Hi. unfold clear, on_backend, zoom, backend_clear. unfold bind at 1 2, gets.
  fold (list_buf s). destruct (length (list_buf s) =? 0) eqn:H0; simpl.
  - by apply unchanged_tracked.
  - rewrite (proj2 (Nat.ltb_lt _ _)) by (apply Nat.eqb_neq in H0; lia). simpl.
    eapply tracked_le; [|apply Nat.le_succ_diag_r]. destruct Hi as (Hm & Hf & _). split; [split; [|split]|]; simpl.
    + done.
    + unfold fits in *. destruct cap; simpl; [lia|done].
    + apply wrapping_succ_range.
    + split; [|apply moved_bump]. exists [ListClear (length (list_buf s))]. split; [done|].
      apply replay_one. constructor.
Qed.

Lemma list_pop_tracks i : ltracks 2 (pop i).
Proof.
  intros s Hi. unfold pop, on_backend, zoom, backend_pop. unfold bind at 1 2, gets. fold (list_buf s).
  assert (ltracked 2 s (set_backend (backend s) s)) as Hsame by by apply unchanged_tracked.
  unfold assert_or. destruct (negb (length (list_buf s) =? 0)); [|exact Hsame]. unfold bind at 1, ret at 1.
  unfold expect at 1. destruct (normalize_read_index _ _) as [j|] eqn:Hn; [|exact Hsame].
  apply normalize_lt in Hn. destruct (lookup_lt_is_Some_2 _ _ Hn) as [v Hv].
  unfold bind, ret, expect. rewrite Hv. simpl. eapply tracked_le; [|apply Nat.le_succ_diag_r].
  destruct Hi as (Hm & Hf & _). split; [split; [|split]|]; simpl.
  - done.
  - unfold fits, list_buf in *. destruct cap; [|done]. rewrite length_delete by by rewrite Hv. lia.
  - apply wrapping_succ_range.
  - split; [|apply moved_bump]. exists [ListPop j v]. split; [done|]. apply replay_one. by constructor.
Qed.

Lemma append_step_tracks v :
  ltracks 2 (on_backend (backend_append v) ;;; emit (ListAppend v) ;;;
             let! m := gets max_size in emit_trimmed m).
Proof. apply append_tracks. Qed.

(** The number of bumps an operation can make. *)
Definition op_cost (op : ListOp T) : nat :=
  match op with OpAppendFrom vs => 2 * length vs | _ => 2 end.

Lemma list_op_tracks op : ltracks (op_cost op) (run_op op).
Proof.
  destruct op; simpl run_op; simpl op_cost.
  - apply append_tracks.
  - apply append_many_tracks.
  - apply insert_tracks.
  - apply insert_many_tracks.
  - apply (tracks_bind _ _ _ _ _ 2 0 _ _ (list_pop_tracks _)).
    intros a. apply (tracks_ret _ _ _ _ _ list_range).
  - apply list_clear_tracks.
  - change (length values + (length values + 0)) with (2 * length values).
    apply (tracks_for_each _ _ _ _ _ list_range). intros v. apply append_step_tracks.
Qed.

Definition ops_cost (ops : list (ListOp T)) : nat := sum_list (op_cost <$> ops).

Lemma list_ops_track ops : ltracks (ops_cost ops) (run_ops ops).
Proof.
  unfold run_ops. induction ops as [|op ops IH]; [apply (tracks_ret _ _ _ _ _ list_range)|].
  cbn [for_each]. apply (tracks_bind _ _ _ _ _ (op_cost op) (ops_cost ops)); [|by intros _].
  replace (op_cost op) with (op_cost op + 0) by lia.
  apply tracks_bind; [apply tracks_catch, list_op_tracks|].
  intros a. apply (tracks_ret _ _ _ _ _ list_range).
Qed.

Lemma run_ops_returns ops s : list_inv cap s → ∃ s', run_ops ops s = Ret tt s' ∧ ltracked (ops_cost ops) s s'.
Proof.
  intros Hi. pose proof (list_ops_track ops s Hi) as Ht. destruct (run_ops ops s) as [[] s'|p s'|] eqn:Hr; [by eauto| |done].
  exfalso. clear Ht. revert s Hi Hr. induction ops as [|op ops IH]; intros s Hi Hr; [done|].
  unfold run_ops in *. cbn [for_each] in Hr. unfold bind at 1 2, catch_unwind in Hr.
  pose proof (list_op_tracks op s Hi) as Ht. destruct (run_op op s) as [a s1|q s1|]; simpl in Hr; [..|done];
    by apply (IH s1 (proj1 Ht)).
Qed.

(** C30: the changes a list emits say everything about it.  Whatever sequence of
    calls is made, panicking ones included, on a list whose capacity is positive:
    replaying the changes it emitted on the buffer before gives the buffer after;
    the buffer never exceeds the capacity; and an unchanged version (within
    [2 ^ 64] mutations) means an unchanged buffer. *)
Theorem list_changes_replay ops s :
  list_inv cap s →
  ∃ s' cs, run_ops ops s = Ret tt s' ∧
    emitted s' = emitted s ++ cs ∧ replay list_change (to_vec s) cs (to_vec s') ∧
    fits cap (to_vec s') ∧
    ((Z.of_nat (ops_cost ops) < 2 ^ 64)%Z → version (backend s') = version (backend s) → to_vec s' = to_vec s).
Proof.
  intros Hi. destruct (run_ops_returns ops s Hi) as (s' & Hr & (Hi' & (cs & He & Hc) & Hm)).
  exists s', cs. split_and!; [done..|by destruct Hi' as (_ & ? & _)|].
  intros Hn Hv. by apply (moved_same _ _ _ _ _ (list_range s Hi) Hm).
Qed.
End ListFacts.

(** ** Logs *)

Section LogFacts.
Import LogOps.
Context {T : Type}.
Implicit Types s : ReactiveLog T.

Definition log_inv (max : option nat) s : Prop :=
  max_size (backend s) = max ∧ fits max (buf (backend s)) ∧ (0 ≤ version (backend s) < 2 ^ 64)%Z.

Definition log_buf s : list T := buf (backend s).
Definition log_version s : Z := version (backend s).

Context (cap : option nat).
Notation gtracks := (tracks log_change (log_inv cap) emitted log_buf log_version).
Notation gtracked := (tracked log_change (log_inv cap) emitted log_buf log_version).

Lemma log_range s : log_inv cap s → (0 ≤ log_version s < 2 ^ 64)%Z.
Proof. by intros (_ & _ & Hv). Qed.

Lemma log_inv_max s : log_inv cap s → max_size (backend s) ≠ Some 0.
Proof. intros (Hm & Hf & _). rewrite Hm. destruct cap as [[]|]; simpl in Hf; [lia|done..]. Qed.

(** The state an append leaves: the values added, the head dropped, both announced. *)
Definition after_append (vs : list T) (c : LogChange T) s : ReactiveLog T :=
  let b := log_buf s ++ vs in
  let n := overflow (max_size (backend s)) b in
  mkReactiveLog
    (mkLogBackend (drop n b)
       (if n =? 0 then wrapping_succ (log_version s) else wrapping_succ (wrapping_succ (log_version s)))
       (max_size (backend s)))
    (emitted s ++ c :: (if n =? 0 then [] else [LogTrimHead n])).

Lemma log_enforce_runs (b : LogBackend T) :
  max_size b ≠ Some 0 →
  let n := overflow (max_size b) (buf b) in
  backend_enforce_max_size b =
    Ret n (mkLogBackend (drop n (buf b)) (if n =? 0 then version b else wrapping_succ (version b)) (max_size b)).
Proof.
  intros Hm n. unfold backend_enforce_max_size, bind, gets. rewrite trim_runs by done. subst n.
  unfold modify, when, ret. destruct (overflow (max_size b) (buf b)) as [|n] eqn:Ho; simpl; done.
Qed.

Lemma log_append_runs v s :
  max_size (backend s) ≠ Some 0 → append v s = Ret tt (after_append [v] (LogAppend v) s).
Proof.
  intros Hm. unfold append, on_backend, zoom, backend_append. unfold bind at 1 2, modify at 1.
  rewrite log_enforce_runs by done. unfold after_append, log_buf, log_version. simpl.
  destruct (overflow _ _) as [|n] eqn:Ho; unfold emit_log_trimmed, emit, when, bind, modify; simpl.
  - done.
  - by rewrite <- app_assoc.
Qed.

Lemma log_append_many_runs vs s :
  max_size (backend s) ≠ Some 0 → vs ≠ [] →
  append_many vs s = Ret tt (after_append vs (LogAppendMany vs) s).
Proof.
  intros Hm Hvs. unfold append_many. rewrite decide_False by done.
  unfold on_backend, zoom, backend_append_many. rewrite decide_False by done.
  unfold bind at 1 2, modify at 1.
  rewrite log_enforce_runs by done. unfold after_append, log_buf, log_version. simpl.
  destruct (overflow _ _) as [|n] eqn:Ho; unfold emit_log_trimmed, emit, when, bind, modify; simpl.
  - done.
  - by rewrite <- app_assoc.
Qed.

Lemma after_append_tracked vs c s :
  log_inv cap s → log_change (log_buf s) c (log_buf s ++ vs) → gtracked 2 s (after_append vs c s).
Proof.
  intros (Hm & Hf & Hv) Hc. unfold after_append. rewrite Hm.
  destruct (overflow cap (log_buf s ++ vs)) as [|n] eqn:Ho; simpl.
  - split; [split; [|split]|]; simpl; [done| |apply wrapping_succ_range|].
    + unfold fits, overflow, log_buf in *. destruct cap; simpl; [|done]. rewrite drop_0. lia.
    + split; [|eapply moved_le; [apply moved_bump|lia]].
      exists [c]. split; [done|]. apply replay_one. by rewrite drop_0 || exact Hc.
  - split; [split; [|split]|]; simpl; [done| |apply wrapping_succ_range|].
    + unfold fits, overflow, log_buf in *. destruct cap; [|done]. rewrite length_drop. lia.
    + split.
      * exists [c; LogTrimHead (S n)]. split; [done|].
        econstructor; [exact Hc|]. apply replay_one. rewrite <- Ho. constructor. apply overflow_le.
      * change 2 with (1 + 1). by eapply moved_trans; [apply (moved_bump _ _ (log_buf s ++ vs))|apply moved_bump].
Qed.

Lemma log_append_tracks v : gtracks 2 (append v).
Proof.
  intros s Hi. rewrite log_append_runs by exact (log_inv_max s Hi).
  apply after_append_tracked; [done|constructor].
Qed.

Lemma log_append_many_tracks vs : gtracks 2 (append_many vs).
Proof.
  intros s Hi. destruct (decide (vs = [])) as [->|Hvs]; [by apply (tracks_ret _ _ _ _ _ log_range)|].
  rewrite log_append_many_runs by (done || exact (log_inv_max s Hi)).
  apply after_append_tracked; [done|constructor].
Qed.

(** The state after a mutation that shortens the buffer, announced by [c]. *)
Definition shortened (b : list T) (c : LogChange T) s : ReactiveLog T :=
  mkReactiveLog (mkLogBackend b (wrapping_succ (log_version s)) (max_size (backend s))) (emitted s ++ [c]).

Lemma shortened_tracked (b : list T) c s :
  log_inv cap s → log_change (log_buf s) c b → length b ≤ length (log_buf s) →
  gtracked 2 s (shortened b c s).
Proof.
  intros (Hm & Hf & Hv) Hc Hl. split; [split; [|split]|]; simpl.
  - done.
  - unfold fits, log_buf in *. destruct cap; [lia|done].
  - apply wrapping_succ_range.
  - split; [|eapply moved_le; [apply moved_bump|lia]]. exists [c]. split; [done|]. by apply replay_one.
Qed.

Lemma log_clear_runs s :
  clear s = Ret tt (if length (log_buf s) =? 0 then s else shortened [] (LogClear (length (log_buf s))) s).
Proof.
  unfold clear, on_backend, zoom, backend_clear. unfold bind at 1 2, gets. fold (log_buf s).
  by destruct (length (log_buf s)) eqn:Hl; [destruct s|].
Qed.

Lemma log_trim_head_runs n s :
  let k := min n (length (log_buf s)) in
  trim_head n s = Ret tt (if k =? 0 then s else shortened (drop k (log_buf s)) (LogTrimHead k) s).
Proof.
  intros k. unfold trim_head, on_backend, zoom, backend_trim_head. destruct (Nat.eqb_spec n 0) as [Hn|Hn].
  - subst k. rewrite Hn. by destruct s.
  - unfold bind at 1 2, gets. fold (log_buf s) k. by destruct k; [destruct s|].
Qed.

Lemma log_same_tracks n s : log_inv cap s → gtracked n s s.
Proof. intros Hi. eapply tracked_le; [by apply (tracked_refl _ _ _ _ _ log_range)|lia]. Qed.

Lemma log_clear_tracks : gtracks 2 clear.
Proof.
  intros s Hi. rewrite log_clear_runs. destruct (_ =? 0); [by apply log_same_tracks|].
  apply shortened_tracked; [done|apply gc_clear|simpl; lia].
Qed.

Lemma log_trim_head_tracks n : gtracks 2 (trim_head n).
Proof.
  intros s Hi. rewrite log_trim_head_runs. destruct (_ =? 0); [by apply log_same_tracks|].
  apply shortened_tracked; [done|apply gc_trim_head, Nat.le_min_r|rewrite length_drop; lia].
Qed.

Definition log_op_cost (op : LogOp T) : nat :=
  match op with OpAttach vs => 2 * length vs | _ => 2 end.

Lemma log_op_tracks op : gtracks (log_op_cost op) (run_op op).
Proof.
  destruct op; simpl run_op; simpl log_op_cost.
  - apply log_append_tracks.
  - apply log_append_many_tracks.
  - apply log_clear_tracks.
  - apply log_trim_head_tracks.
  - change (length values + (length values + 0)) with (2 * length values).
    apply (tracks_for_each _ _ _ _ _ log_range). intros v. apply log_append_tracks.
Qed.
End LogFacts.

(** ** Maps *)

Section MapFacts.
Import MapOps.
Context {K V : Type} `{!OrdKey K}.
Implicit Types s : ReactiveMap K V.

Definition map_inv s : Prop := bt_wf (rows (backend s)) ∧ (0 ≤ version (backend s) < 2 ^ 64)%Z.
Definition map_rows s : BTree K V := rows (backend s).
Definition map_version s : Z := version (backend s).

Notation mtracks := (tracks map_change map_inv emitted map_rows map_version).
Notation mtracked := (tracked map_change map_inv emitted map_rows map_version).

Lemma map_eta (b : MapBackend K V) : mkMapBackend (rows b) (version b) = b.
Proof. by destruct b. Qed.

Lemma map_range s : map_inv s → (0 ≤ map_version s < 2 ^ 64)%Z.
Proof. by intros [_ Hv]. Qed.

Lemma map_mutated m c s :
  map_inv s → bt_wf m → map_change (map_rows s) c m →
  mtracked 1 s (mkReactiveMap (mkMapBackend m (wrapping_succ (map_version s))) (emitted s ++ [c])).
Proof.
  intros _ Hm Hc. split; [split; [done|apply wrapping_succ_range]|].
  split; [|apply moved_bump]. exists [c]. split; [done|by apply replay_one].
Qed.

Lemma map_unchanged s : map_inv s → mtracked 1 s (mkReactiveMap (backend s) (emitted s)).
Proof.
  intros Hi. replace (mkReactiveMap _ _) with s by by destruct s.
  eapply tracked_le; [by apply (tracked_refl _ _ _ _ _ map_range)|lia].
Qed.

Lemma map_set_tracks k v : mtracks 1 (set k v).
Proof.
  intros s Hi. apply (map_mutated _ (MapSet k v) s); [done|apply bt_insert_wf; apply Hi|constructor].
Qed.

Lemma map_delete_tracks k : mtracks 1 (delete k).
Proof.
  intros s Hi. unfold delete, on_backend, zoom, backend_delete, bind, gets, modify, when.
  destruct (bt_get k (rows (backend s))) as [v|] eqn:Hg; simpl.
  - apply (map_mutated _ (MapDelete k v) s); [done|apply bt_remove_wf; apply Hi|by constructor].
  - unfold set_rows. rewrite bt_remove_absent by done. rewrite <- (map_eta (backend s)) at 2.
    by apply map_unchanged.
Qed.

Lemma map_clear_tracks : mtracks 1 clear.
Proof.
  intros s Hi. unfold clear, on_backend, zoom, backend_clear. unfold bind at 1 2, gets.
  fold (map_rows s). destruct (length (map_rows s) =? 0) eqn:H0; simpl; [by apply map_unchanged|].
  rewrite (proj2 (Nat.ltb_lt _ _)) by (apply Nat.eqb_neq in H0; lia).
  apply (map_mutated [] (MapClear _) s); [done|constructor|constructor].
Qed.

Definition map_op_cost (op : MapOp K V) : nat :=
  match op with OpSetMany l => length l | OpDeleteMany l => length l | _ => 1 end.

Lemma map_op_tracks op : mtracks (map_op_cost op) (run_op op).
Proof.
  destruct op; simpl run_op; simpl map_op_cost.
  - apply map_set_tracks.
  - rewrite <- (Nat.mul_1_l (length _)). apply (tracks_for_each _ _ _ _ _ map_range).
    intros kv. apply map_set_tracks.
  - apply map_delete_tracks.
  - rewrite <- (Nat.mul_1_l (length _)). apply (tracks_for_each _ _ _ _ _ map_range).
    intros k. apply map_delete_tracks.
  - apply map_clear_tracks.
Qed.
End MapFacts.

(** ** Indexes *)

Section IndexFacts.
Import IndexOps.
Context {K S V : Type} `{!OrdKey K}.
Implicit Types s : ReactiveIndex K S V.

Definition index_inv s : Prop := bt_wf (rows (backend s)) ∧ (0 ≤ version (backend s) < 2 ^ 64)%Z.
Definition index_rows s : BTree K (S * V) := rows (backend s).
Definition index_version s : Z := version (backend s).

Notation itracks := (tracks index_change index_inv emitted index_rows index_version).
Notation itracked := (tracked index_change index_inv emitted index_rows index_version).

Lemma index_eta (b : IndexBackend K S V) : mkIndexBackend (rows b) (version b) = b.
Proof. by destruct b. Qed.

Lemma index_range s : index_inv s → (0 ≤ index_version s < 2 ^ 64)%Z.
Proof. by intros [_ Hv]. Qed.

Lemma index_mutated m c s :
  index_inv s → bt_wf m → index_change (index_rows s) c m →
  itracked 1 s (mkReactiveIndex (mkIndexBackend m (wrapping_succ (index_version s))) (emitted s ++ [c])).
Proof.
  intros _ Hm Hc. split; [split; [done|apply wrapping_succ_range]|].
  split; [|apply moved_bump]. exists [c]. split; [done|by apply replay_one].
Qed.

Lemma index_unchanged s : index_inv s → itracked 1 s (mkReactiveIndex (backend s) (emitted s)).
Proof.
  intros Hi. replace (mkReactiveIndex _ _) with s by by destruct s.
  eapply tracked_le; [by apply (tracked_refl _ _ _ _ _ index_range)|lia].
Qed.

Lemma index_upsert_tracks p sec v : itracks 1 (upsert p sec v).
Proof.
  intros s Hi. apply (index_mutated _ (IndexUpsert p sec v) s); [done|apply bt_insert_wf; apply Hi|constructor].
Qed.

Lemma index_delete_tracks p : itracks 1 (delete p).
Proof.
  intros s Hi. unfold delete, on_backend, zoom, backend_delete, bind, gets, modify, when, backend_has.
  destruct (bt_get p (rows (backend s))) as [v|] eqn:Hg; simpl.
  - apply (index_mutated _ (IndexDelete p) s); [done|apply bt_remove_wf; apply Hi|].
    constructor. unfold index_rows. by rewrite Hg.
  - unfold set_rows. rewrite bt_remove_absent by done. rewrite <- (index_eta (backend s)) at 2.
    by apply index_unchanged.
Qed.

Lemma index_clear_tracks : itracks 1 clear.
Proof.
  intros s Hi. unfold clear, on_backend, zoom, backend_clear. unfold bind at 1 2, gets.
  fold (index_rows s). destruct (length (index_rows s) =? 0) eqn:H0; simpl; [by apply index_unchanged|].
  rewrite (proj2 (Nat.ltb_lt _ _)) by (apply Nat.eqb_neq in H0; lia).
  apply (index_mutated [] (IndexClear _) s); [done|constructor|constructor].
Qed.

(** The keys of [ps] that are there when their turn comes. *)
Fixpoint removed_keys (ps : list K) (m : BTree K (S * V)) : list K :=
  match ps with
  | [] => []
  | p :: ps =>
      (if bool_decide (is_Some (bt_get p m)) then [p] else []) ++ removed_keys ps (bt_remove p m)
  end.

Lemma removed_keys_absent p ps m : bt_wf m → bt_get p m = None → p ∉ removed_keys ps m.
Proof.
  revert m. induction ps as [|q ps IH]; intros m Hm Hp; simpl; [apply not_elem_of_nil|].
  rewrite not_elem_of_app. split.
  - case_bool_decide as Hq; [|apply not_elem_of_nil]. rewrite list_elem_of_singleton. intros ->.
    rewrite Hp in Hq. by destruct Hq.
  - apply IH; [by apply bt_remove_wf|]. destruct (decide (p = q)) as [->|Hne]; [by apply bt_get_remove|].
    by rewrite bt_get_remove_ne.
Qed.

Lemma removed_keys_spec ps m :
  bt_wf m →
  NoDup (removed_keys ps m) ∧ Forall (λ p, is_Some (bt_get p m)) (removed_keys ps m) ∧
  bt_remove_all (removed_keys ps m) m = bt_remove_all ps m.
Proof.
  revert m. induction ps as [|q ps IH]; intros m Hm; simpl; [by split_and!; [constructor..|]|].
  destruct (IH (bt_remove q m)) as (Hn & Hf & Hr); [by apply bt_remove_wf|].
  assert (Forall (λ p, is_Some (bt_get p m)) (removed_keys ps (bt_remove q m))) as Hf'.
  { eapply Forall_impl; [|exact Hf]. intros p. destruct (decide (p = q)) as [->|Hne].
    - rewrite bt_get_remove by done. by intros [].
    - by rewrite bt_get_remove_ne. }
  case_bool_decide as Hq; simpl.
  - split_and!; [|by constructor|done]. constructor; [|done].
    apply removed_keys_absent; [by apply bt_remove_wf|by apply bt_get_remove].
  - split_and!; [done..|]. rewrite <- Hr. f_equal. symmetry. apply bt_remove_absent.
    by destruct (bt_get q m); [destruct Hq|].
Qed.

Lemma delete_many_loop ps acc (b : IndexBackend K S V) :
  fold_each ps (λ removed p,
      let! has := gets (λ b, backend_has b p) in
      modify (λ b, set_rows (bt_remove p (rows b)) b) ;;;
      ret (if has then removed ++ [p] else removed)) acc b
  = Ret (acc ++ removed_keys ps (rows b)) (mkIndexBackend (bt_remove_all ps (rows b)) (version b)).
Proof.
  revert acc b. induction ps as [|p ps IH]; intros acc b; simpl.
  - unfold ret. by rewrite app_nil_r, index_eta.
  - unfold bind at 1 2 3, gets, modify, ret at 1. rewrite IH. simpl. f_equal.
    unfold backend_has. destruct (bt_get p (rows b)) as [v|] eqn:Hg.
    + rewrite bool_decide_true by done. by rewrite <- app_assoc.
    + by rewrite bool_decide_false by (by intros []).
Qed.

Lemma bt_remove_all_wf (ps : list K) (m : BTree K (S * V)) : bt_wf m → bt_wf (bt_remove_all ps m).
Proof. revert m. induction ps; simpl; [done|]. intros m Hm. auto using bt_remove_wf. Qed.

Lemma index_delete_many_tracks ps : itracks 1 (delete_many ps).
Proof.
  intros s Hi. unfold delete_many, on_backend, zoom, backend_delete_many. unfold bind at 1 2.
  rewrite delete_many_loop. simpl.
  destruct (removed_keys_spec ps (rows (backend s)) (proj1 Hi)) as (Hn & Hf & Hr).
  destruct (removed_keys ps (rows (backend s))) as [|p ks]; simpl.
  - simpl in Hr. rewrite <- Hr, index_eta. by apply index_unchanged.
  - apply (index_mutated (bt_remove_all ps (rows (backend s))) (IndexDeleteMany (p :: ks)) s); [done| |].
    + apply bt_remove_all_wf, Hi.
    + rewrite <- Hr. by constructor.
Qed.

Lemma index_op_tracks op : itracks 1 (run_op op).
Proof.
  destruct op; simpl run_op;
    [apply index_upsert_tracks|apply index_delete_tracks|apply index_delete_many_tracks|apply index_clear_tracks].
Qed.

Lemma index_op_returns op s : ∃ s', run_op op s = Ret tt s'.
Proof.
  destruct op as [p sec v|p|ps|]; simpl; [by eexists|..].
  - unfold delete, on_backend, zoom, backend_delete, bind, gets, modify, when, ret.
    destruct (backend_has (backend s) p); by eexists.
  - unfold delete_many, on_backend, zoom, backend_delete_many. unfold bind at 1 2. rewrite delete_many_loop.
    unfold bind, when. simpl. destruct (removed_keys ps (rows (backend s))); by eexists.
  - unfold clear, on_backend, zoom, backend_clear, bind, gets.
    destruct (length (rows (backend s))); by eexists.
Qed.
End IndexFacts.
