(* ===== verification/CollectionViews.v ===== *)
(** * The views of a collection

    [Collection]: what the views need of a collection, with its instances for the
    list, the log, the map and the index.  [Section SnapshotNode]: the pull-gated
    snapshot node is current after every pull.  [Section Scan]: the running fold
    of a log follows the buffer when every change is its own wave, and
    [scan_stale_after_batch] that it does not when a batch delivers only the last
    of two changes.  The paged and tail views read the whole buffer. *)

From stdpp Require Import base list option strings numbers.
From Stdlib Require Import Sorted.
From S2P Require Import Prelude.
From S2P Require Import BTree.
From S2P Require Import Collections.
From S2P Require Import CollectionFacts.

Local Open Scope rx_scope.

(** ** The interface *)

Record Collection := {
  c_state : Type;
  c_op : Type;
  c_content : Type;
  c_delta : Type;
  c_run : c_op → M c_state unit;
  c_inv : c_state → Prop;
  c_buf : c_state → c_content;
  c_version : c_state → Z;
  c_emitted : c_state → list c_delta;
  c_change : c_content → c_delta → c_content → Prop;
  (** At most this many mutations. *)
  c_cost : c_op → nat;
  c_range s : c_inv s → (0 ≤ c_version s < 2 ^ 64)%Z;
  c_tracks op : tracks c_change c_inv c_emitted c_buf c_version (c_cost op) (c_run op)
}.

Definition list_collection (T : Type) (cap : option nat) : Collection := {|
  c_run := ListOps.run_op (T := T);
  c_inv := list_inv cap;
  c_buf := list_buf;
  c_version := list_version;
  c_emitted := ListOps.emitted;
  c_change := list_change;
  c_cost := op_cost;
  c_range := list_range cap;
  c_tracks := list_op_tracks cap
|}.

Definition log_collection (T : Type) (cap : option nat) : Collection := {|
  c_run := LogOps.run_op (T := T);
  c_inv := log_inv cap;
  c_buf := log_buf;
  c_version := log_version;
  c_emitted := LogOps.emitted;
  c_change := log_change;
  c_cost := log_op_cost;
  c_range := log_range cap;
  c_tracks := log_op_tracks cap
|}.

Definition map_collection (K V : Type) `{!OrdKey K} : Collection := {|
  c_run := MapOps.run_op (K := K) (V := V);
  c_inv := map_inv;
  c_buf := map_rows;
  c_version := map_version;
  c_emitted := MapOps.emitted;
  c_change := map_change;
  c_cost := map_op_cost;
  c_range := map_range;
  c_tracks := map_op_tracks
|}.

Definition index_collection (K S V : Type) `{!OrdKey K} : Collection := {|
  c_run := IndexOps.run_op (K := K) (S := S) (V := V);
  c_inv := index_inv;
  c_buf := index_rows;
  c_version := index_version;
  c_emitted := IndexOps.emitted;
  c_change := index_change;
  c_cost := λ _, 1;
  c_range := index_range;
  c_tracks := index_op_tracks
|}.

(** ** The snapshot node *)

Section SnapshotNode.
Context (C : Collection) {A : Type} (view : c_content C → A).

(** The node: the version in its [ctx.state] and its cached value. *)
Definition SnapshotNode : Type := option Z * option A.

(** A pull runs the node's body; an emission replaces the cache. *)
Definition pull (s : c_state C) (node : SnapshotNode) : SnapshotNode :=
  let '(last, out) := snapshot_fn (c_version C) (λ s, view (c_buf C s)) s (fst node) in
  (last, match out with Some a => Some a | None => snd node end).

(** What happens to a collection and a snapshot of it: calls, each ending by
    returning or by unwinding, and pulls. *)
Inductive Event :=
| EvCall (op : c_op C)
| EvPull.

Definition run_event (ev : Event) : M (c_state C * SnapshotNode) unit :=
  match ev with
  | EvCall op => zoom fst (λ s p, (s, snd p)) (catch_unwind (c_run C op) ;;; ret tt)
  | EvPull => modify (λ p, (fst p, pull (fst p) (snd p)))
  end.

Definition run_events (evs : list Event) : M (c_state C * SnapshotNode) unit :=
  for_each evs run_event.

Definition event_cost (ev : Event) : nat :=
  match ev with EvCall op => c_cost C op | EvPull => 0 end.

Definition events_cost (evs : list Event) : nat := sum_list (event_cost <$> evs).

(** The node shows a state of the collection at most [n] mutations ago. *)
Definition shows (n : nat) (s : c_state C) (node : SnapshotNode) : Prop :=
  c_inv C s ∧
  (fst node = None ∨
   ∃ b, c_inv C b ∧ node = (Some (c_version C b), Some (view (c_buf C b))) ∧
        moved n (c_version C b) (c_version C s) (c_buf C b) (c_buf C s)).

Lemma pull_shows n s node :
  shows n s node → (Z.of_nat n < 2 ^ 64)%Z →
  pull s node = (Some (c_version C s), Some (view (c_buf C s))) ∧ shows 0 s (pull s node).
Proof.
  intros [Hs Hn] Hlt.
  assert (pull s node = (Some (c_version C s), Some (view (c_buf C s)))) as Hp.
  { unfold pull, snapshot_fn. destruct Hn as [->|(b & Hb & -> & Hm)]; simpl; [done|].
    case_bool_decide as Hv; [|done]. injection Hv as Hv. rewrite <- Hv. do 3 f_equal.
    symmetry. by eapply (moved_same n); [apply (c_range C b Hb)|exact Hm|..]. }
  split; [done|]. rewrite Hp. split; [done|right]. exists s. split_and!; [done..|].
  by apply moved_refl, c_range.
Qed.

Lemma run_event_shows ev n s node :
  shows n s node → (Z.of_nat n < 2 ^ 64)%Z →
  ∃ s' node', run_event ev (s, node) = Ret tt (s', node') ∧ shows (n + event_cost ev) s' node'.
Proof.
  intros Hn Hlt. destruct ev as [op|]; simpl.
  - pose proof (tracks_catch _ _ _ _ _ _ _ (c_tracks C op) s (proj1 Hn)) as Ht.
    unfold zoom, bind. simpl in *. unfold catch_unwind in *. destruct Hn as [Hs Hn].
    destruct (c_run C op s) as [a s1|p s1|]; [..|done]; simpl in *;
      (exists s1, node; split; [done|]; destruct Ht as (Hi & _ & Hm); split; [done|];
       destruct Hn as [Hn|(b & Hb & -> & Hb')]; [by left|right; exists b; split_and!; [done..|];
       by eapply moved_trans]).
  - destruct (pull_shows _ _ _ Hn Hlt) as [_ Hp]. exists s, (pull s node). split; [done|].
    destruct Hp as [Hs Hp]. split; [done|]. destruct Hp as [Hp|(b & Hb & Hp & Hm)]; [by left|].
    right. exists b. split_and!; [done..|]. by eapply moved_le; [exact Hm|lia].
Qed.

Lemma run_events_shows evs n s node :
  shows n s node → (Z.of_nat (n + events_cost evs) < 2 ^ 64)%Z →
  ∃ s' node', run_events evs (s, node) = Ret tt (s', node') ∧ shows (n + events_cost evs) s' node'.
Proof.
  revert n s node. induction evs as [|ev evs IH]; intros n s node Hn Hlt.
  - exists s, node. split; [done|]. by rewrite Nat.add_0_r.
  - change (events_cost (ev :: evs)) with (event_cost ev + events_cost evs) in *.
    destruct (run_event_shows ev n s node Hn) as (s1 & node1 & Hr & Hs1); [lia|].
    destruct (IH _ s1 node1 Hs1) as (s2 & node2 & Hr2 & Hs2); [lia|].
    exists s2, node2. split; [|by rewrite Nat.add_assoc].
    unfold run_events in *. cbn [for_each]. by rewrite (bind_step _ _ _ _ _ Hr).
Qed.

(** A pull of a snapshot node shows the collection.  On any collection, after
    any calls (panicking ones included) and earlier pulls, fewer than [2 ^ 64]
    mutations in all, a pull leaves the node's cache equal to the view of the
    buffer at that moment, although the node skips its emission whenever the
    version is the one it last emitted. *)
Theorem snapshot_node_current evs s :
  c_inv C s → (Z.of_nat (events_cost evs) < 2 ^ 64)%Z →
  ∃ s' last, run_events (evs ++ [EvPull]) (s, (None, None)) = Ret tt (s', (last, Some (view (c_buf C s')))).
Proof.
  intros Hs Hlt. destruct (run_events_shows evs 0 s (None, None)) as (s' & node & Hr & Hs'); [by split; [|left]|done|].
  destruct (pull_shows _ _ _ Hs' Hlt) as [Hp _].
  exists s', (Some (c_version C s')). unfold run_events in *.
  rewrite for_each_app, (bind_step _ _ _ _ _ Hr). cbn [for_each run_event]. unfold bind, modify, ret. simpl.
  by rewrite Hp.
Qed.
End SnapshotNode.

(** ** The running fold of a log *)

Section ScanFacts.
Import LogOps.
Context {T A : Type} (initial : A) (step : A → T → A).

(** The scan node: its [ctx.state] and its cached value. *)
Definition ScanNode : Type := option (LogScanState A) * option A.

(** One run of the node on the changes of a wave. *)
Definition scan_wave (changes : list (LogChange T)) (all : list T) (node : ScanNode) : ScanNode :=
  let '(state, out) := scan_fn initial step changes all (fst node) in
  (Some state, match out with Some a => Some a | None => snd node end).

(** Every change is a wave of its own, and the node reads the buffer when it runs. *)
Definition scan_waves (changes : list (LogChange T)) (all : list T) (node : ScanNode) : ScanNode :=
  foldl (λ node c, scan_wave [c] all node) node changes.

(** A call on the log, delivered to the node.  The buffer is complete before the
    first change of a call is sent. *)
Definition scan_call (m : M (ReactiveLog T) unit) : M (ReactiveLog T * ScanNode) unit := λ p,
  let '(s, node) := p in
  match m s with
  | Ret _ s' => Ret tt (s', scan_waves (drop (length (emitted s)) (emitted s')) (to_vec s') node)
  | Unwind q s' => Unwind q (s', scan_waves (drop (length (emitted s)) (emitted s')) (to_vec s') node)
  | OutOfFuel => OutOfFuel
  end.

(** An operation, delivered; [attach] sends the changes of each value in turn. *)
Definition scan_op (op : LogOp T) : M (ReactiveLog T * ScanNode) unit :=
  match op with
  | OpAttach values => for_each values (λ v, scan_call (append v))
  | _ => scan_call (run_op op)
  end.

Definition folded (all : list T) : LogScanState A := mkLogScanState (foldl step initial all) (length all).

(** The node agrees with the buffer [all], once it has run. *)
Definition follows (all : list T) (node : ScanNode) : Prop :=
  node = (None, None) ∨ node = (Some (folded all), Some (foldl step initial all)).

Lemma scan_reset c all node :
  is_reset c = true → scan_wave [c] all node = (Some (folded all), Some (foldl step initial all)).
Proof. intros Hc. unfold scan_wave, scan_fn. destruct c; try done; simpl; rewrite drop_0; done. Qed.

Lemma scan_append c vs b node :
  follows b node → appended_count c = length vs → is_reset c = false →
  (Z.of_nat (length b + length vs) < 2 ^ 64)%Z →
  scan_wave [c] (b ++ vs) node
  = (Some (folded (b ++ vs)), Some (foldl step initial (b ++ vs))).
Proof.
  intros Hn Hc Hr Hlt. unfold scan_wave, scan_fn. simpl. rewrite Hc, Hr, Nat.add_0_r. simpl.
  unfold saturating_add. destruct Hn as [->| ->]; unfold folded; simpl.
  - rewrite decide_True by lia.
    rewrite (proj2 (Nat.ltb_ge (length (b ++ vs)) (length vs))) by (rewrite length_app; lia).
    by rewrite andb_false_r.
  - rewrite (proj2 (Nat.ltb_ge (length (b ++ vs)) (length b))) by (rewrite length_app; lia). simpl.
    rewrite decide_True by lia.
    rewrite (proj2 (Nat.ltb_ge (length (b ++ vs)) (length b + length vs))) by (rewrite length_app; lia).
    by rewrite andb_false_r, drop_app_length, <- foldl_app.
Qed.

Lemma scan_append_call vs c m s node :
  follows (log_buf s) node → appended_count c = length vs → is_reset c = false →
  (Z.of_nat (length (log_buf s) + length vs) < 2 ^ 64)%Z →
  m s = Ret tt (after_append vs c s) →
  ∃ s' node', scan_call m (s, node) = Ret tt (s', node') ∧ m s = Ret tt s' ∧ follows (log_buf s') node'.
Proof.
  intros Hn Hc Hr Hlt Hm. unfold scan_call. rewrite Hm. do 2 eexists. split_and!; [done..|].
  unfold after_append, to_vec, backend_snapshot, log_buf in *. simpl. rewrite drop_app_length.
  right. destruct (overflow _ _) as [|n]; simpl.
  - by rewrite drop_0, (scan_append c vs).
  - by apply scan_reset.
Qed.

(** The values a call may add. *)
Definition op_values (op : LogOp T) : nat :=
  match op with
  | OpAppend _ => 1
  | OpAppendMany vs | OpAttach vs => length vs
  | OpClear | OpTrimHead _ => 0
  end.

Definition ops_values (ops : list (LogOp T)) : nat := sum_list (op_values <$> ops).

(** The state of the log and its node, with the buffer at most [n] long. *)
Definition scan_inv (cap : option nat) (n : nat) (p : ReactiveLog T * ScanNode) : Prop :=
  log_inv cap (fst p) ∧ length (log_buf (fst p)) ≤ n ∧ follows (log_buf (fst p)) (snd p).

Lemma length_after_append vs c (s : ReactiveLog T) :
  length (log_buf (after_append vs c s)) ≤ length (log_buf s) + length vs.
Proof. unfold after_append, log_buf. simpl. rewrite length_drop, length_app. lia. Qed.

Lemma scan_append_inv cap n vs c m s node :
  scan_inv cap n (s, node) → appended_count c = length vs → is_reset c = false →
  log_change (log_buf s) c (log_buf s ++ vs) → (Z.of_nat (n + length vs) < 2 ^ 64)%Z →
  m s = Ret tt (after_append vs c s) →
  total (scan_call m) (s, node) (λ _ p, scan_inv cap (n + length vs) p).
Proof.
  intros (Hi & Hl & Hf) Hc Hr Hg Hlt Hm. simpl in *.
  destruct (scan_append_call vs c m s node) as (s' & node' & Hcall & Hm' & Hf'); [done..|lia|done|].
  unfold total. rewrite Hcall. rewrite Hm in Hm'. injection Hm' as <-.
  split_and!; simpl; [| |done].
  - by apply (after_append_tracked cap vs c s).
  - etrans; [apply length_after_append|]. lia.
Qed.

Lemma scan_append_total cap n v s node :
  scan_inv cap n (s, node) → (Z.of_nat (n + 1) < 2 ^ 64)%Z →
  total (scan_call (append v)) (s, node) (λ _ p, scan_inv cap (n + 1) p).
Proof.
  intros Hp Hlt. apply (scan_append_inv cap n [v] (LogAppend v)); [done..|constructor|done|].
  apply log_append_runs. by apply (log_inv_max cap), Hp.
Qed.

Lemma scan_shorten_total cap n m s node b c :
  scan_inv cap n (s, node) → is_reset c = true → log_change (log_buf s) c b →
  length b ≤ length (log_buf s) → m s = Ret tt (shortened b c s) →
  total (scan_call m) (s, node) (λ _ p, scan_inv cap n p).
Proof.
  intros (Hi & Hl & Hf) Hc Hg Hb Hm. simpl in *. unfold total, scan_call. rewrite Hm.
  unfold shortened, to_vec, backend_snapshot. simpl. rewrite drop_app_length. simpl.
  rewrite scan_reset by done. split_and!; simpl.
  - by apply (shortened_tracked cap b c s).
  - unfold log_buf in *. simpl. lia.
  - by right.
Qed.

Lemma scan_same_total cap n m s node :
  scan_inv cap n (s, node) → m s = Ret tt s → total (scan_call m) (s, node) (λ _ p, scan_inv cap n p).
Proof. intros Hp Hm. unfold total, scan_call. rewrite Hm, drop_all. done. Qed.

Lemma scan_inv_le cap n n' p : scan_inv cap n p → n ≤ n' → scan_inv cap n' p.
Proof. intros (? & ? & ?) ?. split_and!; [done|lia|done]. Qed.

Lemma scan_op_total cap n op p :
  scan_inv cap n p → (Z.of_nat (n + op_values op) < 2 ^ 64)%Z →
  total (scan_op op) p (λ _ p', scan_inv cap (n + op_values op) p').
Proof.
  destruct p as [s node]. intros Hp Hlt. pose proof (log_inv_max cap s (proj1 Hp)) as Hm.
  destruct op as [v|vs| |k|vs]; simpl in *.
  - by apply scan_append_total.
  - destruct (decide (vs = [])) as [->|Hvs].
    + rewrite Nat.add_0_r. by apply scan_same_total.
    + apply (scan_append_inv cap n vs (LogAppendMany vs)); [done..|constructor|done|].
      by apply log_append_many_runs.
  - rewrite Nat.add_0_r. pose proof (log_clear_runs s) as Hr. destruct (_ =? 0); [by apply scan_same_total|].
    eapply scan_shorten_total; [done| | | |exact Hr]; [done|apply gc_clear|simpl; lia].
  - rewrite Nat.add_0_r. pose proof (log_trim_head_runs k s) as Hr. simpl in Hr.
    destruct (_ =? 0); [by apply scan_same_total|].
    eapply scan_shorten_total; [done| | | |exact Hr];
      [done|apply gc_trim_head, Nat.le_min_r|rewrite length_drop; lia].
  - clear Hm. revert n s node Hp Hlt. induction vs as [|v vs IH]; intros n s node Hp Hlt; simpl.
    + by rewrite Nat.add_0_r.
    + simpl in Hlt. apply total_bind. eapply total_conseq; [apply (scan_append_total cap n); [done|lia]|].
      intros [] [s1 node1] Hp1. eapply total_conseq; [apply (IH (n + 1)); [done|lia]|].
      intros [] p' Hp'. eapply scan_inv_le; [exact Hp'|lia].
Qed.

Lemma scan_ops_total cap ops n p :
  scan_inv cap n p → (Z.of_nat (n + ops_values ops) < 2 ^ 64)%Z →
  total (for_each ops scan_op) p (λ _ p', scan_inv cap (n + ops_values ops) p').
Proof.
  revert n p. induction ops as [|op ops IH]; intros n p Hp Hlt; simpl; [by rewrite Nat.add_0_r|].
  change (ops_values (op :: ops)) with (op_values op + ops_values ops) in *.
  apply total_bind. eapply total_conseq; [apply (scan_op_total cap n); [done|lia]|].
  intros [] p1 Hp1. rewrite Nat.add_assoc in *. by apply IH.
Qed.

(** The running fold of a log follows the buffer.  Whatever operations are run on
    a log with a positive capacity, each change reaching the scan node in a wave of
    its own: once the node has run its value is the fold of the step over the whole
    buffer, including the values the capacity dropped and the calls that trimmed or
    cleared the log, although the node folds only the values it has not seen. *)
Theorem scan_follows_log cap ops s :
  log_inv cap s → (Z.of_nat (length (to_vec s) + ops_values ops) < 2 ^ 64)%Z →
  ∃ s' node, for_each ops scan_op (s, (None, None)) = Ret tt (s', node) ∧
    (fst node ≠ None → snd node = Some (foldl step initial (to_vec s'))).
Proof.
  intros Hi Hlt. assert (total (for_each ops scan_op) (s, (None, None))
    (λ _ p, scan_inv cap (length (to_vec s) + ops_values ops) p)) as Ht.
  { apply scan_ops_total; [split_and!; [done..|by left]|done]. }
  unfold total in Ht. destruct (for_each ops scan_op _) as [[] [s' node]|q p|]; [|done..].
  exists s', node. split; [done|]. destruct Ht as (_ & _ & Hf). simpl in Hf. by destruct Hf as [->| ->].
Qed.

(** When a batch delivers only the last of two changes (a target keeps its last
    deferred wave), a trim followed by an append leaves the node as it was: it
    takes the wave for the first half of an append that overflowed, and waits for a
    trim that never comes. *)
Theorem scan_stale_after_batch (s : ReactiveLog T) x b v :
  max_size (backend s) = None → log_buf s = x :: b →
  (Z.of_nat (length b + 2) < 2 ^ 64)%Z →
  ∃ s', (trim_head 1 ;;; append v) s = Ret tt s' ∧ to_vec s' = b ++ [v] ∧
    emitted s' = emitted s ++ [LogTrimHead 1; LogAppend v] ∧
    let node := (Some (folded (x :: b)), Some (foldl step initial (x :: b))) in
    scan_wave [LogAppend v] (to_vec s') node = node.
Proof.
  intros Hm Hb Hlt. unfold bind. rewrite log_trim_head_runs, Hb.
  replace (1 `min` length (x :: b)) with 1 by (simpl; lia). simpl drop. cbn [Nat.eqb].
  rewrite log_append_runs by (simpl; by rewrite Hm).
  eexists. split; [done|]. unfold after_append, to_vec, backend_snapshot, overflow, shortened, log_buf. simpl.
  rewrite Hm. simpl. rewrite ?drop_0. split_and!; [done|by rewrite <- app_assoc|].
  unfold scan_wave, scan_fn, folded, saturating_add. simpl. rewrite length_app. cbn [length].
  rewrite Nat.add_1_r, Nat.ltb_irrefl. cbn [acc processed]. rewrite decide_True by lia.
  by rewrite (proj2 (Nat.ltb_lt (S (length b)) _)) by lia.
Qed.
End ScanFacts.

(** ** The rows of an index *)

Section IndexView.
Import IndexOps.
Context {K S V : Type} `{!OrdKey K} `{!OrdKey S}.

Lemma key_le_trans {A} `{!OrdKey A} (a b c : A) :
  key_cmp a b ≠ Gt → key_cmp b c ≠ Gt → key_cmp a c ≠ Gt.
Proof.
  intros H1 H2. destruct (key_cmp a b) eqn:Hab; [|destruct (key_cmp b c) eqn:Hbc|done].
  - by apply key_cmp_eq in Hab as ->.
  - apply key_cmp_eq in Hbc as ->. by rewrite Hab.
  - by rewrite (key_cmp_trans a b c Hab Hbc).
  - done.
Qed.

Lemma row_cmp_sym (a b : IndexRow K S V) : row_cmp b a = CompOpp (row_cmp a b).
Proof.
  unfold row_cmp. rewrite (key_cmp_sym (secondary a) (secondary b)).
  destruct (key_cmp (secondary a) (secondary b)); simpl; [apply key_cmp_sym|done..].
Qed.

Lemma row_cmp_trans (a b c : IndexRow K S V) :
  cmp_le row_cmp a b → cmp_le row_cmp b c → cmp_le row_cmp a c.
Proof.
  unfold cmp_le, row_cmp.
  destruct (key_cmp (secondary a) (secondary b)) eqn:Hab; [|..|done].
  - apply key_cmp_eq in Hab as ->.
    destruct (key_cmp (secondary b) (secondary c)) eqn:Hbc; [apply key_le_trans|done..].
  - intros _. destruct (key_cmp (secondary b) (secondary c)) eqn:Hbc; [..|done]; intros _.
    + apply key_cmp_eq in Hbc as <-. by rewrite Hab.
    + by rewrite (key_cmp_trans _ _ _ Hab Hbc).
Qed.

(** The rows of an index are ordered by secondary key.  After any operations the
    listing is sorted by secondary key and, within one, by primary key; it has no
    two rows of one primary key; and a row is in it exactly when a lookup of its
    primary key finds it. *)
Theorem index_rows_ordered initial ops :
  ∃ s, run_ops ops (new initial) = Ret tt s ∧
    StronglySorted (λ a b : IndexRow K S V, row_cmp a b ≠ Gt) (to_vec s) ∧
    NoDup (primary <$> to_vec s) ∧
    ∀ p sec v, mkIndexRow p sec v ∈ to_vec s ↔ bt_get p (rows (backend s)) = Some (sec, v).
Proof.
  assert (index_inv (new initial)) as Hi by (split; [apply bt_of_list_wf|by simpl; lia]).
  assert (∃ s, run_ops ops (new initial) = Ret tt s ∧ index_inv s) as (s & Hr & Hs).
  { unfold run_ops. revert Hi. generalize (new initial). induction ops as [|op ops IH]; intros s Hi; [by exists s|].
    assert (∃ s1, run_op op s = Ret tt s1 ∧ index_inv s1) as (s1 & Hr & Hs).
    { pose proof (index_op_tracks op s Hi) as Ht. destruct (index_op_returns op s) as [s1 Hr].
      rewrite Hr in Ht. exists s1. split; [done|apply Ht]. }
    cbn [for_each]. rewrite (bind_step _ _ _ _ _ Hr). by apply IH. }
  exists s. split; [done|]. unfold to_vec, backend_snapshot. split_and!.
  - apply sort_by_sorted; [apply row_cmp_sym|apply row_cmp_trans].
  - rewrite sort_by_perm. rewrite <- list_fmap_compose.
    by apply (bt_wf_nodup (rows (backend s))), Hs.
  - intros p sec v. rewrite sort_by_perm, list_elem_of_fmap. split.
    + intros ([p' [sec' v']] & [= -> -> ->] & Hin). by apply bt_elem_get; [apply Hs|].
    + intros Hg. exists (p, (sec, v)). split; [done|]. by apply bt_get_elem.
Qed.
End IndexView.
