(* ===== verification/CollectionStorage.v ===== *)
(** * Stored collections (storage.rs)

    The frames a collection is stored in, the snapshot and the change log it is
    loaded from, and the fold of the logged changes onto the snapshot.  User types
    enter through [Serde] (their [Serialize] and [Deserialize] impls, and those
    derived for the change types); the store and the log are tiers of [Storage]
    and [AppendLog].

    The functions that storage.rs and adapters/reactive_collection_storage.rs each
    have a copy of ([find_map_key], [strict_json_identity] and so on) take the
    wrapper [je] each uses for JSON errors. *)

From Stdlib Require Import Ascii String.
From stdpp Require Import base gmap list option numbers strings pretty.
From S2P Require Import Prelude.
From S2P Require Import BTree.
From S2P Require Import Text.
From S2P Require Import Json.
From S2P Require Import Collections.
From S2P Require Import Storage.
From S2P Require Import AppendLog.

Local Open Scope rx_scope.

(** ** Frames *)

Inductive ReactiveCollectionKind := KindList | KindLog | KindMap | KindIndex.

#[export] Instance kind_eq_dec : EqDecision ReactiveCollectionKind.
Proof. solve_decision. Defined.

(** The serialized name and the [Debug] text of a kind. *)
Definition kind_name (k : ReactiveCollectionKind) : string :=
  match k with
  | KindList => "reactiveList" | KindLog => "reactiveLog"
  | KindMap => "reactiveMap" | KindIndex => "reactiveIndex"
  end.

Definition kind_debug (k : ReactiveCollectionKind) : string :=
  match k with
  | KindList => "ReactiveList" | KindLog => "ReactiveLog"
  | KindMap => "ReactiveMap" | KindIndex => "ReactiveIndex"
  end.

Record ReactiveCollectionSnapshotFrame := mkSnapshotFrame {
  sf_format : string;
  sf_version : Z;
  sf_kind : ReactiveCollectionKind;
  change_cursor : Z;
  sf_snapshot : Value
}.

Record ReactiveCollectionChangeFrame := mkChangeFrame {
  cf_format : string;
  cf_version : Z;
  cf_kind : ReactiveCollectionKind;
  cf_change : Value
}.

Definition REACTIVE_COLLECTION_SNAPSHOT_FORMAT : string := "graphrefly.reactive-collection.snapshot.v1".
Definition REACTIVE_COLLECTION_CHANGE_FORMAT : string := "graphrefly.reactive-collection.change.v1".
Definition REACTIVE_COLLECTION_FRAME_VERSION : Z := 1.

(** An integer as a [Number]. *)
Definition num (z : Z) : Value := Num (if (0 <=? z)%Z then PosInt z else NegInt z).

(** What [serde_json::to_value] makes of a frame. *)
Definition snapshot_frame_value (f : ReactiveCollectionSnapshotFrame) : Value :=
  Obj [("changeCursor", num (change_cursor f)); ("format", Str (sf_format f));
       ("kind", Str (kind_name (sf_kind f))); ("snapshot", sf_snapshot f);
       ("version", num (sf_version f))].

Definition change_frame_value (f : ReactiveCollectionChangeFrame) : Value :=
  Obj [("change", cf_change f); ("format", Str (cf_format f));
       ("kind", Str (kind_name (cf_kind f))); ("version", num (cf_version f))].

Definition backend {A} (message : string) : StorageResult A := Err (Backend message).

(** [map_err]. *)
Definition map_err {E E' A} (f : E → E') (r : Result E A) : Result E' A :=
  match r with Ok a => Ok a | Err e => Err (f e) end.

(** [storage_json_error] and [storage_serde_json_error] of storage.rs. *)
Definition storage_json_error (e : JsonCodecError) : StorageError := Backend (codec_error_string e).
Definition storage_serde_json_error (e : string) : StorageError :=
  Backend ("reactiveCollection JSON error: " +:+ e).

(** [Serialize] and [Deserialize] of a type, through [serde_json::Value]. *)
Class Serde (T : Type) := {
  to_value : T → Result string Value;
  from_value : Value → Result string T
}.

Section CollectionStorage.
Context `{!SerdeJson}.

Definition reactive_collection_snapshot_key (prefix : string) : StorageResult string :=
  if bool_decide (prefix = "") then
    backend "reactive_collection_snapshot_key: storage_prefix must be non-empty"
  else Ok (prefix +:+ "/snapshot").

Definition assert_reactive_collection_snapshot_frame (f : ReactiveCollectionSnapshotFrame) :
    StorageResult unit :=
  if bool_decide (sf_format f ≠ REACTIVE_COLLECTION_SNAPSHOT_FORMAT) then
    backend ("reactiveCollection snapshot frame: unsupported format " +:+ sf_format f)
  else if negb (sf_version f =? REACTIVE_COLLECTION_FRAME_VERSION)%Z then
    backend ("reactiveCollection snapshot frame: unsupported version " +:+ pretty (sf_version f))
  else if (change_cursor f <? -1)%Z then
    backend "reactiveCollection snapshot frame: changeCursor must be -1 or a non-negative integer"
  else
    let? _ := map_err storage_json_error (strict_canonical_json_bytes (snapshot_frame_value f)) in
    Ok tt.

Definition assert_reactive_collection_change_frame (f : ReactiveCollectionChangeFrame) :
    StorageResult unit :=
  if bool_decide (cf_format f ≠ REACTIVE_COLLECTION_CHANGE_FORMAT) then
    backend ("reactiveCollection change frame: unsupported format " +:+ cf_format f)
  else if negb (cf_version f =? REACTIVE_COLLECTION_FRAME_VERSION)%Z then
    backend ("reactiveCollection change frame: unsupported version " +:+ pretty (cf_version f))
  else
    let? _ := map_err storage_json_error (strict_canonical_json_bytes (change_frame_value f)) in
    Ok tt.

Definition reactive_collection_snapshot_frame (kind : ReactiveCollectionKind) (cursor : Z) (snapshot : Value) :
    StorageResult ReactiveCollectionSnapshotFrame :=
  let frame := mkSnapshotFrame REACTIVE_COLLECTION_SNAPSHOT_FORMAT REACTIVE_COLLECTION_FRAME_VERSION
                 kind cursor snapshot in
  let? _ := assert_reactive_collection_snapshot_frame frame in
  Ok frame.

Definition reactive_collection_change_frame (kind : ReactiveCollectionKind) (change : Value) :
    StorageResult ReactiveCollectionChangeFrame :=
  let frame := mkChangeFrame REACTIVE_COLLECTION_CHANGE_FORMAT REACTIVE_COLLECTION_FRAME_VERSION
                 kind change in
  let? _ := assert_reactive_collection_change_frame frame in
  Ok frame.

(** [i64::try_from]. *)
Definition seq_to_snapshot_cursor (seq : N) : StorageResult Z :=
  if (Z.of_N seq <=? 2 ^ 63 - 1)%Z then Ok (Z.of_N seq)
  else backend "reactiveCollection cursor exceeds i64 range".

(** [cursor.map(seq_to_snapshot_cursor).transpose()?.unwrap_or(-1)]. *)
Definition cursor_value (cursor : option N) : StorageResult Z :=
  match cursor with Some seq => seq_to_snapshot_cursor seq | None => Ok (-1)%Z end.

(** ** Identities *)

Section Identity.
Context (je : JsonCodecError → StorageError).

Definition strict_json_identity {T} `{!Serde T} (x : T) : StorageResult bytes :=
  let? v := map_err storage_serde_json_error (to_value x) in
  map_err je (strict_canonical_json_bytes v).

Definition strict_json_equal {T} `{!Serde T} (left right : T) : StorageResult bool :=
  let? l := map_err storage_serde_json_error (to_value left) in
  let? r := map_err storage_serde_json_error (to_value right) in
  let? l := map_err je (strict_canonical_json_bytes l) in
  let? r := map_err je (strict_canonical_json_bytes r) in
  Ok (bool_decide (l = r)).

Section Rows.
Context {K Sec V : Type} `{!Serde K}.

(** The loop of [find_map_key]: the first entry of the same identity. *)
Fixpoint find_identity {X} (key : X → K) (entries : list X) (target : bytes) (index : nat) :
    StorageResult (option nat) :=
  match entries with
  | [] => Ok None
  | candidate :: entries =>
      let? id := strict_json_identity (key candidate) in
      if bool_decide (id = target) then Ok (Some index)
      else find_identity key entries target (S index)
  end.

Definition find_map_key (entries : list (K * V)) (key : K) : StorageResult (option nat) :=
  let? target := strict_json_identity key in
  find_identity fst entries target 0.

Definition find_index_primary (rows : list (IndexRow K Sec V)) (p : K) : StorageResult (option nat) :=
  let? target := strict_json_identity p in
  find_identity primary rows target 0.

(** The positions of the keys to remove; nothing is removed when one is missing. *)
Fixpoint primary_indexes (rows : list (IndexRow K Sec V)) (primaries : list K) (label : string)
    (index : nat) (seen : list bytes) : StorageResult (list nat) :=
  match primaries with
  | [] => Ok []
  | p :: primaries =>
      let? id := strict_json_identity p in
      if existsb (λ existing, bool_decide (existing = id)) seen then
        backend (label +:+ " " +:+ pretty index +:+ " duplicates an earlier primary")
      else
        let? found := find_index_primary rows p in
        match found with
        | None => backend (label +:+ " " +:+ pretty index +:+ " is missing")
        | Some row_index =>
            let? indexes := primary_indexes rows primaries label (S index) (seen ++ [id]) in
            Ok (row_index :: indexes)
        end
  end.

Definition remove_index_primaries (rows : list (IndexRow K Sec V)) (primaries : list K) (label : string) :
    StorageResult (list (IndexRow K Sec V)) :=
  let? indexes := primary_indexes rows primaries label 0 [] in
  Ok (foldl (λ rows index, delete index rows) rows (sort_by (λ a b, Nat.compare b a) indexes)).

(** The loop of the two uniqueness checks. *)
Fixpoint unique_identities {X} (key : X → K) (entries : list X) (message : nat → string)
    (index : nat) (seen : list bytes) : StorageResult unit :=
  match entries with
  | [] => Ok tt
  | x :: entries =>
      let? id := strict_json_identity (key x) in
      if existsb (λ existing, bool_decide (existing = id)) seen then backend (message index)
      else unique_identities key entries message (S index) (seen ++ [id])
  end.

Definition assert_unique_map_keys (entries : list (K * V)) (label : string) : StorageResult unit :=
  unique_identities fst entries
    (λ index, label +:+ ": entry " +:+ pretty index +:+ " duplicates an earlier key") 0 [].

Definition assert_unique_index_primaries (rows : list (IndexRow K Sec V)) (label : string) :
    StorageResult unit :=
  unique_identities primary rows
    (λ index, label +:+ ": row " +:+ pretty index +:+ " duplicates an earlier primary") 0 [].
End Rows.
End Identity.

(** ** Folding a logged change

    The state folded is dropped when a fold fails, so only its result matters.  A
    position found by [find_map_key] is in range, so the [None] branch of the
    lookup after it is never taken. *)

Section Folds.
Let je := storage_json_error.

Definition fold_list_change {T} `{!Serde T, !Serde (ListChange T)} (state : list T)
    (frame : ReactiveCollectionChangeFrame) : StorageResult (list T) :=
  let? change := map_err storage_serde_json_error (from_value (T := ListChange T) (cf_change frame)) in
  match change with
  | ListAppend v => Ok (state ++ [v])
  | ListAppendMany vs => Ok (state ++ vs)
  | ListInsert index v =>
      if length state <? index then
        backend ("reactiveList fold: insert index " +:+ pretty index +:+ " is out of bounds for len "
                   +:+ pretty (length state))
      else Ok (ListOps.vec_splice index [v] state)
  | ListInsertMany index vs =>
      if length state <? index then
        backend ("reactiveList fold: insertMany index " +:+ pretty index +:+ " is out of bounds for len "
                   +:+ pretty (length state))
      else Ok (ListOps.vec_splice index vs state)
  | ListPop index v =>
      match state !! index with
      | None =>
          backend ("reactiveList fold: pop index " +:+ pretty index +:+ " is out of bounds for len "
                     +:+ pretty (length state))
      | Some actual =>
          let? same := strict_json_equal je actual v in
          if negb same then backend "reactiveList fold: pop value does not match stored state"
          else Ok (delete index state)
      end
  | ListTrimHead n =>
      if length state <? n then
        backend ("reactiveList fold: trimHead " +:+ pretty n +:+ " exceeds len " +:+ pretty (length state))
      else Ok (drop n state)
  | ListClear count =>
      if negb (count =? length state) then
        backend ("reactiveList fold: clear count " +:+ pretty count +:+ " does not match len "
                   +:+ pretty (length state))
      else Ok []
  end.

Definition fold_log_change {T} `{!Serde (LogChange T)} (state : list T)
    (frame : ReactiveCollectionChangeFrame) : StorageResult (list T) :=
  let? change := map_err storage_serde_json_error (from_value (T := LogChange T) (cf_change frame)) in
  match change with
  | LogAppend v => Ok (state ++ [v])
  | LogAppendMany vs => Ok (state ++ vs)
  | LogTrimHead n =>
      if length state <? n then
        backend ("reactiveLog fold: trimHead " +:+ pretty n +:+ " exceeds len " +:+ pretty (length state))
      else Ok (drop n state)
  | LogClear count =>
      if negb (count =? length state) then
        backend ("reactiveLog fold: clear count " +:+ pretty count +:+ " does not match len "
                   +:+ pretty (length state))
      else Ok []
  end.

Definition fold_map_change {K V} `{!Serde K, !Serde V, !Serde (MapChange K V)} (state : list (K * V))
    (frame : ReactiveCollectionChangeFrame) : StorageResult (list (K * V)) :=
  let? change := map_err storage_serde_json_error (from_value (T := MapChange K V) (cf_change frame)) in
  match change with
  | MapSet key v =>
      let? found := find_map_key je state key in
      Ok (match found with Some index => <[index := (key, v)]> state | None => state ++ [(key, v)] end)
  | MapDelete key previous =>
      let? found := find_map_key je state key in
      match found with
      | None => backend "reactiveMap fold: delete key is missing"
      | Some index =>
          match state !! index with
          | None => Ok state
          | Some (_, actual) =>
              let? same := strict_json_equal je actual previous in
              if negb same then backend "reactiveMap fold: delete previous value does not match stored state"
              else Ok (delete index state)
          end
      end
  | MapClear count =>
      if negb (count =? length state) then
        backend ("reactiveMap fold: clear count " +:+ pretty count +:+ " does not match len "
                   +:+ pretty (length state))
      else Ok []
  end.

Definition fold_index_change {K Sec V} `{!Serde K, !Serde (IndexChange K Sec V)}
    (state : list (IndexRow K Sec V)) (frame : ReactiveCollectionChangeFrame) :
    StorageResult (list (IndexRow K Sec V)) :=
  let? change := map_err storage_serde_json_error (from_value (T := IndexChange K Sec V) (cf_change frame)) in
  match change with
  | IndexUpsert p sec v =>
      let row := mkIndexRow p sec v in
      let? found := find_index_primary je state p in
      Ok (match found with Some index => <[index := row]> state | None => state ++ [row] end)
  | IndexDelete p =>
      let? found := find_index_primary je state p in
      match found with
      | None => backend "reactiveIndex fold: delete primary is missing"
      | Some index => Ok (delete index state)
      end
  | IndexDeleteMany ps =>
      remove_index_primaries je state ps "reactiveIndex fold: deleteMany primary"
  | IndexClear count =>
      if negb (count =? length state) then
        backend ("reactiveIndex fold: clear count " +:+ pretty count +:+ " does not match len "
                   +:+ pretty (length state))
      else Ok []
  end.
End Folds.

(** ** Loading *)

Record LoadOptions (St : Type) := mkLoadOptions {
  lo_storage_prefix : option string;
  lo_snapshot_key : option string;
  lo_change_log : option (AppendLogTier St ReactiveCollectionChangeFrame)
}.
Arguments mkLoadOptions {St}. Arguments lo_storage_prefix {St}. Arguments lo_snapshot_key {St}.
Arguments lo_change_log {St}.

Inductive RestoreSource := SourceEmpty | SourceChanges | SourceSnapshot | SourceSnapshotAndChanges.

Record RestoreState (T : Type) := mkRestoreState {
  rs_kind : ReactiveCollectionKind;
  rs_state : T;
  rs_source : RestoreSource;
  rs_snapshot_meta : bool * Z;           (* found, change_cursor *)
  rs_changes_meta : nat * Z;             (* applied, cursor *)
  rs_cursor : option N;
  rs_snapshot_found : bool;
  rs_changes_applied : nat
}.
Arguments mkRestoreState {T}. Arguments rs_kind {T}. Arguments rs_state {T}. Arguments rs_source {T}.
Arguments rs_snapshot_meta {T}. Arguments rs_changes_meta {T}. Arguments rs_cursor {T}.
Arguments rs_snapshot_found {T}. Arguments rs_changes_applied {T}.

Definition resolve_collection_snapshot_key {St} (options : LoadOptions St) : StorageResult string :=
  match lo_snapshot_key options with
  | Some key =>
      if bool_decide (key = "") then backend "reactiveCollection load: snapshot_key must be non-empty"
      else Ok key
  | None =>
      match lo_storage_prefix options with
      | None => backend "reactiveCollection load: storage_prefix or snapshot_key is required"
      | Some prefix => reactive_collection_snapshot_key prefix
      end
  end.

Definition load_collection_snapshot {St T} `{!Serde T}
    (store : KvStorageTier St ReactiveCollectionSnapshotFrame) (options : LoadOptions St)
    (kind : ReactiveCollectionKind) : M St (StorageResult (option T * option N * bool)) :=
  let!? key := ret (resolve_collection_snapshot_key options) in
  let!? found := kv_get store key in
  match found with
  | None => ret (Ok (None, None, false))
  | Some frame =>
      let!? _ := ret (assert_reactive_collection_snapshot_frame frame) in
      if bool_decide (sf_kind frame ≠ kind) then
        ret (backend ("reactiveCollection snapshot frame: expected " +:+ kind_debug kind +:+ ", got "
                        +:+ kind_debug (sf_kind frame)))
      else
        let!? state := ret (map_err storage_serde_json_error (from_value (sf_snapshot frame))) in
        let cursor := if (change_cursor frame <? 0)%Z then None else Some (Z.to_N (change_cursor frame)) in
        ret (Ok (Some state, cursor, true))
  end.

(** One turn of the loop over the entries: the state, the cursor and the sequence
    expected next. *)
Definition fold_entry {T} (kind : ReactiveCollectionKind)
    (fold : T → ReactiveCollectionChangeFrame → StorageResult T)
    (acc : T * option N * N) (entry : AppendLogEntry ReactiveCollectionChangeFrame) :
    StorageResult (T * option N * N) :=
  let '(state, _, expected) := acc in
  if negb (seq_ entry =? expected)%N then
    backend ("reactiveCollection load: non-contiguous change log sequence, expected " +:+ pretty expected
               +:+ ", got " +:+ pretty (seq_ entry))
  else
    let? _ := assert_reactive_collection_change_frame (AppendLog.value entry) in
    if bool_decide (cf_kind (AppendLog.value entry) ≠ kind) then
      backend ("reactiveCollection change frame: expected " +:+ kind_debug kind +:+ ", got "
                 +:+ kind_debug (cf_kind (AppendLog.value entry)))
    else
      let? state := fold state (AppendLog.value entry) in
      if (expected + 1 <? u64_bound)%N then Ok (state, Some (seq_ entry), (expected + 1)%N)
      else backend "reactiveCollection load: change log sequence overflow".

(** [cursor.map_or(0, |seq| seq.saturating_add(1))]. *)
Definition first_expected (cursor : option N) : N :=
  match cursor with None => 0%N | Some seq => N.min (seq + 1) (u64_bound - 1) end.

Definition fold_collection_changes {St T} (state : T) (cursor : option N)
    (change_log : option (AppendLogTier St ReactiveCollectionChangeFrame))
    (kind : ReactiveCollectionKind)
    (fold : T → ReactiveCollectionChangeFrame → StorageResult T) :
    M St (StorageResult (T * option N * Z * nat)) :=
  let!? snapshot_cursor := ret (cursor_value cursor) in
  match change_log with
  | None => ret (Ok (state, cursor, snapshot_cursor, 0))
  | Some log =>
      let!? entries := log_read log (mkAppendLogReadOptions cursor None) in
      let!? (state, cursor, _) :=
        ret (try_fold (fold_entry kind fold) (state, cursor, first_expected cursor) entries) in
      ret (Ok (state, cursor, snapshot_cursor, length entries))
  end.

Definition restore_state {T} (kind : ReactiveCollectionKind) (state : T) (snapshot_found : bool)
    (snapshot_cursor : Z) (changes_applied : nat) (cursor : option N) : StorageResult (RestoreState T) :=
  let? change_cursor := cursor_value cursor in
  let source :=
    match snapshot_found, 0 <? changes_applied with
    | false, false => SourceEmpty
    | false, true => SourceChanges
    | true, false => SourceSnapshot
    | true, true => SourceSnapshotAndChanges
    end in
  Ok (mkRestoreState kind state source (snapshot_found, snapshot_cursor)
        (changes_applied, change_cursor) cursor snapshot_found changes_applied).

Definition load_reactive_list_state {St T} `{!Serde T, !Serde (list T), !Serde (ListChange T)}
    (store : KvStorageTier St ReactiveCollectionSnapshotFrame) (options : LoadOptions St) :
    M St (StorageResult (RestoreState (list T))) :=
  let!? (snapshot, cursor, snapshot_found) := load_collection_snapshot store options KindList in
  let!? (state, cursor, snapshot_cursor, changes_applied) :=
    fold_collection_changes (default [] snapshot) cursor (lo_change_log options) KindList fold_list_change in
  ret (restore_state KindList state snapshot_found snapshot_cursor changes_applied cursor).

Definition load_reactive_log_state {St T} `{!Serde (list T), !Serde (LogChange T)}
    (store : KvStorageTier St ReactiveCollectionSnapshotFrame) (options : LoadOptions St) :
    M St (StorageResult (RestoreState (list T))) :=
  let!? (snapshot, cursor, snapshot_found) := load_collection_snapshot store options KindLog in
  let!? (state, cursor, snapshot_cursor, changes_applied) :=
    fold_collection_changes (default [] snapshot) cursor (lo_change_log options) KindLog fold_log_change in
  ret (restore_state KindLog state snapshot_found snapshot_cursor changes_applied cursor).

Definition load_reactive_map_state {St K V}
    `{!Serde K, !Serde V, !Serde (list (K * V)), !Serde (MapChange K V)}
    (store : KvStorageTier St ReactiveCollectionSnapshotFrame) (options : LoadOptions St) :
    M St (StorageResult (RestoreState (list (K * V)))) :=
  let!? (snapshot, cursor, snapshot_found) := load_collection_snapshot store options KindMap in
  let state := default [] snapshot in
  let!? _ := ret (assert_unique_map_keys storage_json_error state "reactiveMap snapshot") in
  let!? (state, cursor, snapshot_cursor, changes_applied) :=
    fold_collection_changes state cursor (lo_change_log options) KindMap fold_map_change in
  let!? _ := ret (assert_unique_map_keys storage_json_error state "reactiveMap restore") in
  ret (restore_state KindMap state snapshot_found snapshot_cursor changes_applied cursor).

Definition load_reactive_index_state {St K Sec V}
    `{!Serde K, !Serde (list (IndexRow K Sec V)), !Serde (IndexChange K Sec V)}
    (store : KvStorageTier St ReactiveCollectionSnapshotFrame) (options : LoadOptions St) :
    M St (StorageResult (RestoreState (list (IndexRow K Sec V)))) :=
  let!? (snapshot, cursor, snapshot_found) := load_collection_snapshot store options KindIndex in
  let state := default [] snapshot in
  let!? _ := ret (assert_unique_index_primaries storage_json_error state "reactiveIndex snapshot") in
  let!? (state, cursor, snapshot_cursor, changes_applied) :=
    fold_collection_changes state cursor (lo_change_log options) KindIndex fold_index_change in
  let!? _ := ret (assert_unique_index_primaries storage_json_error state "reactiveIndex restore") in
  ret (restore_state KindIndex state snapshot_found snapshot_cursor changes_applied cursor).
End CollectionStorage.

Arguments mkLoadOptions {St}. Arguments lo_storage_prefix {St}. Arguments lo_snapshot_key {St}.
Arguments lo_change_log {St}. Arguments LoadOptions : clear implicits.
Arguments mkRestoreState {T}. Arguments rs_kind {T}. Arguments rs_state {T}. Arguments rs_source {T}.
Arguments rs_snapshot_meta {T}. Arguments rs_changes_meta {T}. Arguments rs_cursor {T}.
Arguments rs_snapshot_found {T}. Arguments rs_changes_applied {T}. Arguments RestoreState : clear implicits.
