(* ===== verification/CollectionSidecar.v ===== *)
(** * Persistence sidecars (adapters/reactive_collection_storage.rs)

    A sidecar subscribes to the delta node of a collection, mirrors its buffer,
    queues a frame per change, and writes the queue to the change log, or the
    mirror to the snapshot store, when it is flushed or asked for a snapshot.

    [Sidecar] is the state its closures share, with the stores ([store]) and the
    four fact nodes ([Facts], the last value set on each).  [persist_collection]
    attaches it; [on_change] is the body of its subscription; [flush], [snapshot]
    and [dispose] are its controls.  Subscribers of the fact nodes that call back
    into the collection are not modelled. *)

From Stdlib Require Import Ascii String.
From stdpp Require Import base gmap list option numbers strings pretty.
From S2P Require Import Prelude.
From S2P Require Import BTree.
From S2P Require Import Text.
From S2P Require Import Json.
From S2P Require Import Collections.
From S2P Require Import Storage.
From S2P Require Import AppendLog.
From S2P Require Import CollectionStorage.

Local Open Scope rx_scope.

(** ** Facts *)

Inductive PersistenceStatus := Starting | Ready | Flushing | Errored | Disposed.

#[export] Instance status_eq_dec : EqDecision PersistenceStatus.
Proof. solve_decision. Defined.

Record PersistenceCursor := mkPersistenceCursor {
  pc_collection : ReactiveCollectionKind;
  pc_change_seq : option N;
  pc_snapshot_writes : N;
  pc_change_writes : N
}.

Record PersistenceStatusFact := mkPersistenceStatusFact {
  ps_state : PersistenceStatus;
  ps_pending : N;
  ps_writes : N;
  ps_errors : N;
  ps_cursor : PersistenceCursor
}.

Record PersistenceErrorFact := mkPersistenceErrorFact {
  pe_phase : string;
  pe_message : string;
  pe_cursor : PersistenceCursor
}.

Definition collection_name (k : ReactiveCollectionKind) : string := kind_name k.

Definition status_name (s : PersistenceStatus) : string :=
  match s with
  | Starting => "starting" | Ready => "ready" | Flushing => "flushing"
  | Errored => "errored" | Disposed => "disposed"
  end.

(** [usize::MAX], and [u64::MAX], of a 64-bit target. *)
Definition usize_max_N : N := 18446744073709551615.
Definition sat_add (a b : N) : N := N.min (a + b) usize_max_N.

(** [Value::get], [as_str], [as_u64] and [as_i64]. *)
Definition get_field (v : Value) (key : string) : option Value :=
  match v with Obj map => bt_get (K := string) key map | _ => None end.
Definition as_str (v : Value) : option string := match v with Str s => Some s | _ => None end.
Definition value_u64 (v : Value) : option N := match v with Num n => Z.to_N <$> as_u64 n | _ => None end.
Definition value_i64 (v : Value) : option Z := match v with Num n => as_i64 n | _ => None end.
Definition is_object (v : Value) : bool := match v with Obj _ => true | _ => false end.

Definition cursor_json (collection : ReactiveCollectionKind) (cursor : option N)
    (snapshot_writes change_writes : N) : Value :=
  let change_seq :=
    match cursor with Some seq => Z.min (Z.of_N seq) (2 ^ 63 - 1) | None => (-1)%Z end in
  Obj [("changeSeq", num change_seq); ("changeWrites", num (Z.of_N change_writes));
       ("collection", Str (collection_name collection)); ("kind", Str "persistence.cursor");
       ("snapshotWrites", num (Z.of_N snapshot_writes))].

Definition status_json (state : PersistenceStatus) (pending : nat) (errors : N) (cursor : Value) : Value :=
  let field key := default 0%N (get_field cursor key ≫= value_u64) in
  Obj [("cursor", cursor); ("errors", num (Z.of_N errors)); ("pending", num (Z.of_nat pending));
       ("state", Str (status_name state));
       ("writes", num (Z.of_N (sat_add (field "snapshotWrites") (field "changeWrites"))))].

Definition ok_or {A} (o : option A) (message : string) : StorageResult A :=
  match o with Some a => Ok a | None => backend message end.

Definition parse_usize_field (v : option Value) (label : string) : StorageResult N :=
  ok_or (v ≫= value_u64) (label +:+ " must be a non-negative integer").

Definition parse_status (value : string) : StorageResult PersistenceStatus :=
  if bool_decide (value = "starting") then Ok Starting
  else if bool_decide (value = "ready") then Ok Ready
  else if bool_decide (value = "flushing") then Ok Flushing
  else if bool_decide (value = "errored") then Ok Errored
  else if bool_decide (value = "disposed") then Ok Disposed
  else backend ("reactiveCollection status.state is unsupported: " +:+ value).

Definition parse_collection_kind (value : string) : StorageResult ReactiveCollectionKind :=
  if bool_decide (value = "reactiveList") then Ok KindList
  else if bool_decide (value = "reactiveLog") then Ok KindLog
  else if bool_decide (value = "reactiveMap") then Ok KindMap
  else if bool_decide (value = "reactiveIndex") then Ok KindIndex
  else backend ("reactiveCollection cursor.collection is unsupported: " +:+ value).

Definition parse_cursor_fact (v : Value) : StorageResult PersistenceCursor :=
  if negb (is_object v) then backend "reactiveCollection cursor fact must be an object"
  else if bool_decide (get_field v "kind" ≫= as_str ≠ Some "persistence.cursor") then
    backend "reactiveCollection cursor.kind must be persistence.cursor"
  else
    let? name := ok_or (get_field v "collection" ≫= as_str)
                   "reactiveCollection cursor.collection is missing" in
    let? collection := parse_collection_kind name in
    let? change_seq := ok_or (get_field v "changeSeq" ≫= value_i64)
                         "reactiveCollection cursor.changeSeq is missing" in
    let change_seq := if (change_seq <? 0)%Z then None else Some (Z.to_N change_seq) in
    let? snapshot_writes := parse_usize_field (get_field v "snapshotWrites")
                              "reactiveCollection cursor.snapshotWrites" in
    let? change_writes := parse_usize_field (get_field v "changeWrites")
                            "reactiveCollection cursor.changeWrites" in
    Ok (mkPersistenceCursor collection change_seq snapshot_writes change_writes).

Definition parse_status_fact (v : Value) : StorageResult PersistenceStatusFact :=
  if negb (is_object v) then backend "reactiveCollection status fact must be an object" else
  let? name := ok_or (get_field v "state" ≫= as_str) "reactiveCollection status.state is missing" in
  let? state := parse_status name in
  let? pending := parse_usize_field (get_field v "pending") "reactiveCollection status.pending" in
  let? writes := parse_usize_field (get_field v "writes") "reactiveCollection status.writes" in
  let? errors := parse_usize_field (get_field v "errors") "reactiveCollection status.errors" in
  let? cursor := ok_or (get_field v "cursor") "reactiveCollection status.cursor is missing" in
  let? cursor := parse_cursor_fact cursor in
  Ok (mkPersistenceStatusFact state pending writes errors cursor).

Definition parse_error_fact (v : Value) : StorageResult PersistenceErrorFact :=
  if negb (is_object v) then backend "reactiveCollection error fact must be an object" else
  let? phase := ok_or (get_field v "phase" ≫= as_str) "reactiveCollection error.phase is missing" in
  let? message := ok_or (get_field v "message" ≫= as_str) "reactiveCollection error.message is missing" in
  let? cursor := ok_or (get_field v "cursor") "reactiveCollection error.cursor is missing" in
  let? cursor := parse_cursor_fact cursor in
  Ok (mkPersistenceErrorFact phase message cursor).

(** ** The mirror *)

Definition sidecar_json_error (e : JsonCodecError) : StorageError :=
  Backend ("reactiveCollection JSON error: " +:+ codec_error_string e).

Section Mirror.
Context `{!SerdeJson}.
Let je := sidecar_json_error.

Definition reject {S} (message : string) : M S (StorageResult unit) := ret (backend message).
Definition store_as {S} (s : S) : M S (StorageResult unit) := modify (λ _, s) ;;; ret (Ok tt).

Definition apply_list_snapshot_change {T} `{!Serde T} (change : ListChange T) :
    M (list T) (StorageResult unit) :=
  let! snapshot := gets id in
  match change with
  | ListAppend v => store_as (snapshot ++ [v])
  | ListAppendMany vs => store_as (snapshot ++ vs)
  | ListInsert index v =>
      if length snapshot <? index then
        reject "reactiveList persistence mirror: insert index out of bounds"
      else store_as (ListOps.vec_splice index [v] snapshot)
  | ListInsertMany index vs =>
      if length snapshot <? index then
        reject "reactiveList persistence mirror: insertMany index out of bounds"
      else store_as (ListOps.vec_splice index vs snapshot)
  | ListPop index v =>
      match snapshot !! index with
      | None => reject "reactiveList persistence mirror: pop index out of bounds"
      | Some actual =>
          modify (λ _, delete index snapshot) ;;;
          let!? same := ret (strict_json_equal je actual v) in
          if negb same then reject "reactiveList persistence mirror: pop value does not match stored state"
          else ret (Ok tt)
      end
  | ListTrimHead n =>
      if length snapshot <? n then reject "reactiveList persistence mirror: trimHead out of bounds"
      else store_as (drop n snapshot)
  | ListClear count =>
      if negb (count =? length snapshot) then
        reject "reactiveList persistence mirror: clear count does not match stored state"
      else store_as []
  end.

Definition apply_log_snapshot_change {T} (change : LogChange T) : M (list T) (StorageResult unit) :=
  let! snapshot := gets id in
  match change with
  | LogAppend v => store_as (snapshot ++ [v])
  | LogAppendMany vs => store_as (snapshot ++ vs)
  | LogTrimHead n =>
      if length snapshot <? n then reject "reactiveLog persistence mirror: trimHead out of bounds"
      else store_as (drop n snapshot)
  | LogClear count =>
      if negb (count =? length snapshot) then
        reject "reactiveLog persistence mirror: clear count does not match stored state"
      else store_as []
  end.

Definition apply_map_snapshot_change {K V} `{!Serde K, !Serde V} (change : MapChange K V) :
    M (list (K * V)) (StorageResult unit) :=
  let! snapshot := gets id in
  match change with
  | MapSet key v =>
      let!? found := ret (find_map_key je snapshot key) in
      match found with
      | Some index => store_as (<[index := (key, v)]> snapshot)
      | None => store_as (snapshot ++ [(key, v)])
      end
  | MapDelete key previous =>
      let!? found := ret (find_map_key je snapshot key) in
      match found with
      | None => reject "reactiveMap persistence mirror: delete key is missing"
      | Some index =>
          match snapshot !! index with
          | None => ret (Ok tt)
          | Some (_, actual) =>
              let!? same := ret (strict_json_equal je actual previous) in
              if negb same then
                reject "reactiveMap persistence mirror: delete previous value does not match stored state"
              else store_as (delete index snapshot)
          end
      end
  | MapClear count =>
      if negb (count =? length snapshot) then
        reject "reactiveMap persistence mirror: clear count does not match stored state"
      else store_as []
  end.

Definition apply_index_snapshot_change {K Sec V} `{!Serde K} (change : IndexChange K Sec V) :
    M (list (IndexRow K Sec V)) (StorageResult unit) :=
  let! snapshot := gets id in
  match change with
  | IndexUpsert p sec v =>
      let row := mkIndexRow p sec v in
      let!? found := ret (find_index_primary je snapshot p) in
      match found with
      | Some index => store_as (<[index := row]> snapshot)
      | None => store_as (snapshot ++ [row])
      end
  | IndexDelete p =>
      let!? found := ret (find_index_primary je snapshot p) in
      match found with
      | None => reject "reactiveIndex persistence mirror: delete primary is missing"
      | Some index => store_as (delete index snapshot)
      end
  | IndexDeleteMany ps =>
      let!? rows := ret (remove_index_primaries je snapshot ps
                           "reactiveIndex persistence mirror: deleteMany primary") in
      store_as rows
  | IndexClear count =>
      if negb (count =? length snapshot) then
        reject "reactiveIndex persistence mirror: clear count does not match stored state"
      else store_as []
  end.
End Mirror.

(** ** The sidecar *)

Record Counters := mkCounters {
  cursor_cell : option N;
  snapshot_writes : N;
  change_writes : N;
  error_count : N
}.

Record Flags := mkFlags {
  snapshot_dirty : bool;
  cadence_snapshot_due : bool;
  changes_since_snapshot : N;
  disposed : bool;
  errored : bool
}.

Record Facts := mkFacts { ready : bool; status : Value; error : Value; cursor : Value }.

Record Sidecar (St Sn : Type) := mkSidecar {
  store : St;
  mirror : Sn;                                   (* snapshot_state *)
  pending_changes : list ReactiveCollectionChangeFrame;
  counters : Counters;
  flags : Flags;
  facts : Facts
}.
Arguments mkSidecar {St Sn}. Arguments store {St Sn}. Arguments mirror {St Sn}.
Arguments pending_changes {St Sn}. Arguments counters {St Sn}. Arguments flags {St Sn}.
Arguments facts {St Sn}.

Record PersistOptions (St : Type) := mkPersistOptions {
  (** [None] without a graph; otherwise [graph.contains_core(&delta)]. *)
  po_graph : option bool;
  po_storage_prefix : option string;
  po_snapshot_key : option string;
  po_snapshot_store : KvStorageTier St ReactiveCollectionSnapshotFrame;
  po_change_log : option (AppendLogTier St ReactiveCollectionChangeFrame);
  po_snapshot_on_attach : bool;
  po_snapshot_every_changes : option N
}.
Arguments mkPersistOptions {St}. Arguments po_graph {St}. Arguments po_storage_prefix {St}.
Arguments po_snapshot_key {St}. Arguments po_snapshot_store {St}. Arguments po_change_log {St}.
Arguments po_snapshot_on_attach {St}. Arguments po_snapshot_every_changes {St}.

Definition resolve_snapshot_key {St} (options : PersistOptions St) : StorageResult string :=
  match po_snapshot_key options with
  | Some key =>
      if bool_decide (key = "") then backend "persistReactiveCollection: snapshot_key must be non-empty"
      else Ok key
  | None =>
      match po_storage_prefix options with
      | None => backend "persistReactiveCollection: storage_prefix or snapshot_key is required"
      | Some prefix => reactive_collection_snapshot_key prefix
      end
  end.

Section Sidecar.
Context `{!SerdeJson} {St Sn C : Type} `{!Serde Sn, !Serde C}.
Context (kind : ReactiveCollectionKind) (snapshot_key : string)
  (snapshot_store : KvStorageTier St ReactiveCollectionSnapshotFrame)
  (change_log : option (AppendLogTier St ReactiveCollectionChangeFrame))
  (snapshot_every_changes : option N)
  (apply_change : C → M Sn (StorageResult unit)).

Notation Side := (Sidecar St Sn).
Implicit Types s : Side.

(** [|change| serde_json::to_value(change).map_err(storage_json_error)]. *)
Definition encode_change (change : C) : StorageResult Value :=
  map_err storage_serde_json_error (to_value change).

Definition on_store {A} : M St A → M Side A :=
  zoom store (λ st s, mkSidecar st (mirror s) (pending_changes s) (counters s) (flags s) (facts s)).

Definition on_mirror {A} : M Sn A → M Side A :=
  zoom mirror (λ m s, mkSidecar (store s) m (pending_changes s) (counters s) (flags s) (facts s)).

Definition set_pending (f : list ReactiveCollectionChangeFrame → list ReactiveCollectionChangeFrame) :
    M Side unit :=
  modify (λ s, mkSidecar (store s) (mirror s) (f (pending_changes s)) (counters s) (flags s) (facts s)).

Definition set_counters (f : Counters → Counters) : M Side unit :=
  modify (λ s, mkSidecar (store s) (mirror s) (pending_changes s) (f (counters s)) (flags s) (facts s)).

Definition set_flags (f : Flags → Flags) : M Side unit :=
  modify (λ s, mkSidecar (store s) (mirror s) (pending_changes s) (counters s) (f (flags s)) (facts s)).

Definition set_facts (f : Facts → Facts) : M Side unit :=
  modify (λ s, mkSidecar (store s) (mirror s) (pending_changes s) (counters s) (flags s) (f (facts s))).

Definition set_ready (b : bool) : M Side unit :=
  set_facts (λ f, mkFacts b (status f) (error f) (cursor f)).
Definition set_status (v : Value) : M Side unit :=
  set_facts (λ f, mkFacts (ready f) v (error f) (cursor f)).
Definition set_error (v : Value) : M Side unit :=
  set_facts (λ f, mkFacts (ready f) (status f) v (cursor f)).
Definition set_cursor (v : Value) : M Side unit :=
  set_facts (λ f, mkFacts (ready f) (status f) (error f) v).

(** The cursor fact of the counters, and the status fact over it. *)
Definition cursor_now (c : Counters) : Value :=
  cursor_json kind (cursor_cell c) (snapshot_writes c) (change_writes c).

Definition status_now (state : PersistenceStatus) (s : Side) : Value :=
  status_json state (length (pending_changes s)) (error_count (counters s)) (cursor_now (counters s)).

Definition report (state : PersistenceStatus) : M Side unit :=
  let! v := gets (status_now state) in set_status v.

(** [drain_pending_changes]: a frame leaves the queue once it is in the log. *)
Fixpoint drain_frames (log : AppendLogTier St ReactiveCollectionChangeFrame)
    (frames : list ReactiveCollectionChangeFrame) : M Side (StorageResult unit) :=
  match frames with
  | [] => ret (Ok tt)
  | frame :: frames =>
      let!? entry := on_store (log_append log frame) in
      set_counters (λ c, mkCounters (Some (seq_ entry)) (snapshot_writes c)
                           (sat_add (change_writes c) 1) (error_count c)) ;;;
      let! c := gets counters in
      set_cursor (cursor_json kind (Some (seq_ entry)) (snapshot_writes c) (change_writes c)) ;;;
      set_pending tail ;;;
      drain_frames log frames
  end.

Definition drain_pending_changes : M Side (StorageResult unit) :=
  match change_log with
  | None => set_pending (λ _, []) ;;; ret (Ok tt)
  | Some log => let! frames := gets pending_changes in drain_frames log frames
  end.

Definition write_snapshot : M Side (StorageResult unit) :=
  let!? _ := drain_pending_changes in
  let! cell := gets (λ s, cursor_cell (counters s)) in
  let!? cursor_v := ret (cursor_value cell) in
  let! state := gets mirror in
  let!? snapshot_value := ret (map_err storage_serde_json_error (to_value state)) in
  let!? frame := ret (reactive_collection_snapshot_frame kind cursor_v snapshot_value) in
  let!? _ := on_store (kv_set snapshot_store snapshot_key frame) in
  set_counters (λ c, mkCounters (cursor_cell c) (sat_add (snapshot_writes c) 1)
                       (change_writes c) (error_count c)) ;;;
  let! cursor_v := gets (λ s, cursor_now (counters s)) in
  let! is_errored := gets (λ s, errored (flags s)) in
  when (negb is_errored)
    (set_ready true ;;;
     set_flags (λ f, mkFlags false false (changes_since_snapshot f) (disposed f) (errored f)) ;;;
     set_ready true ;;;
     report Ready ;;;
     set_error Null ;;;
     set_cursor cursor_v) ;;;
  ret (Ok tt).

Definition record_persistence_error (phase : string) (err : StorageError) : M Side unit :=
  set_flags (λ f, mkFlags (snapshot_dirty f) (cadence_snapshot_due f) (changes_since_snapshot f)
                    (disposed f) true) ;;;
  set_counters (λ c, mkCounters (cursor_cell c) (snapshot_writes c) (change_writes c)
                       (sat_add (error_count c) 1)) ;;;
  let! cursor_v := gets (λ s, cursor_now (counters s)) in
  set_ready false ;;;
  report Errored ;;;
  set_error (Obj [("cursor", cursor_v); ("message", Str (storage_error_string err));
                  ("phase", Str phase)]).

Definition flush : M Side (StorageResult unit) :=
  let! f := gets flags in
  if disposed f then ret (Ok tt)
  else if errored f then
    ret (backend "reactiveCollection persistence is errored; inspect error fact")
  else
    let writes_snapshot :=
      (match change_log with None => snapshot_dirty f | Some _ => false end) || cadence_snapshot_due f in
    let! result :=
      if writes_snapshot then write_snapshot
      else
        let!? _ := drain_pending_changes in
        set_ready true ;;;
        report Ready ;;;
        set_error Null ;;;
        ret (Ok tt) in
    match result with
    | Ok _ => ret (Ok tt)
    | Err err =>
        record_persistence_error (if writes_snapshot then "snapshot" else "change") err ;;;
        ret (Err err)
    end.

Definition snapshot : M Side (StorageResult unit) :=
  let! f := gets flags in
  if disposed f then ret (backend "reactiveCollection persistence is disposed")
  else
    let! result := write_snapshot in
    match result with
    | Ok _ => ret (Ok tt)
    | Err err => record_persistence_error "snapshot" err ;;; ret (Err err)
    end.

(** A frame waits for the log; without one the mirror is dirty. *)
Definition queue_frame (frame : ReactiveCollectionChangeFrame) : M Side unit :=
  match change_log with
  | Some _ => set_pending (λ frames, frames ++ [frame])
  | None => set_flags (λ f, mkFlags true (cadence_snapshot_due f) (changes_since_snapshot f)
                              (disposed f) (errored f))
  end.

(** The subscription: what one change does. *)
Definition on_change (change : C) : M Side unit :=
  let! f := gets flags in
  if disposed f || errored f then ret tt else
  set_ready false ;;;
  report Flushing ;;;
  let! result :=
    (let!? _ := on_mirror (apply_change change) in
     let!? change_value := ret (encode_change change) in
     let!? frame := ret (reactive_collection_change_frame kind change_value) in
     queue_frame frame ;;;
     ret (Ok tt)) in
  match result with
  | Ok _ =>
      set_error Null ;;;
      let! since := gets (λ s, changes_since_snapshot (flags s)) in
      let next := sat_add since 1 in
      let due := match snapshot_every_changes with Some every => (every <=? next)%N | None => false end in
      set_flags (λ f, mkFlags (snapshot_dirty f) (if due then true else cadence_snapshot_due f)
                        (if due then 0%N else next) (disposed f) (errored f))
  | Err err => record_persistence_error "change" err
  end.

(** The boxed disposer; [ReactiveCollectionPersistence] runs it once, by [dispose]
    or when it is dropped. *)
Definition dispose : M Side unit :=
  set_flags (λ f, mkFlags (snapshot_dirty f) (cadence_snapshot_due f) (changes_since_snapshot f)
                    true (errored f)) ;;;
  set_pending (λ _, []) ;;;
  set_flags (λ f, mkFlags (snapshot_dirty f) false (changes_since_snapshot f) (disposed f) (errored f)) ;;;
  set_ready false ;;;
  report Disposed.

(** The cells and facts a sidecar starts with. *)
Definition initial_sidecar (st : St) (state : Sn) (initial_cursor : option N) : Side :=
  let c := mkCounters initial_cursor 0 0 0 in
  mkSidecar st state [] c (mkFlags false false 0 false false)
    (mkFacts false (status_json Starting 0 0 (cursor_now c)) Null (cursor_now c)).

(** The first write, on attach. *)
Definition attach (snapshot_on_attach : bool) : M Side unit :=
  if snapshot_on_attach then
    let! result := write_snapshot in
    match result with
    | Ok _ => ret tt
    | Err err => record_persistence_error "snapshot" err
    end
  else set_ready true ;;; report Ready.

(** What happens to an attached sidecar. *)
Inductive SidecarEvent :=
| EvChange (change : C)
| EvFlush
| EvSnapshot
| EvDispose.

Definition run_event (ev : SidecarEvent) : M Side unit :=
  match ev with
  | EvChange change => on_change change
  | EvFlush => let! _ := flush in ret tt
  | EvSnapshot => let! _ := snapshot in ret tt
  | EvDispose => let! f := gets flags in if disposed f then ret tt else dispose
  end.

Definition run_events (evs : list SidecarEvent) : M Side unit := for_each evs run_event.
End Sidecar.

Section Persist.
Context `{!SerdeJson} {St : Type}.

Definition persist_collection {Sn} `{!Serde Sn} (kind : ReactiveCollectionKind) (snapshot_state : Sn)
    (options : PersistOptions St) (initial_cursor : option N) :
    M St (StorageResult (Sidecar St Sn)) :=
  let!? key := ret (resolve_snapshot_key options) in
  if bool_decide (po_snapshot_every_changes options = Some 0%N) then
    ret (backend "persistReactiveCollection: snapshot_every_changes must be positive")
  else
    match po_graph options with
    | None =>
        ret (backend "persistReactiveCollection: graph is required for graph-visible sidecar facts")
    | Some false =>
        ret (backend "persistReactiveCollection: collection delta belongs to a different graph or is not graph-registered")
    | Some true => λ st,
        match attach kind key (po_snapshot_store options) (po_change_log options)
                (po_snapshot_on_attach options) (initial_sidecar kind st snapshot_state initial_cursor) with
        | Ret _ s => Ret (Ok s) (store s)
        | Unwind p s => Unwind p (store s)
        | OutOfFuel => OutOfFuel
        end
    end.

(** The collection's buffer as the sidecar mirrors it. *)
Definition persist_reactive_list_with_cursor {T} `{!Serde (list T)} (c : ListOps.ReactiveList T)
    (options : PersistOptions St) (initial_cursor : option N) :=
  persist_collection KindList (ListOps.to_vec c) options initial_cursor.

Definition persist_reactive_log_with_cursor {T} `{!Serde (list T)} (c : LogOps.ReactiveLog T)
    (options : PersistOptions St) (initial_cursor : option N) :=
  persist_collection KindLog (LogOps.to_vec c) options initial_cursor.

Definition persist_reactive_map_with_cursor {K V} `{!OrdKey K, !Serde (list (K * V))}
    (c : MapOps.ReactiveMap K V) (options : PersistOptions St) (initial_cursor : option N) :=
  persist_collection (Sn := list (K * V)) KindMap (MapOps.to_map c) options initial_cursor.

Definition persist_reactive_index_with_cursor {K Sec V}
    `{!OrdKey K, !OrdKey Sec, !Serde (list (IndexRow K Sec V))}
    (c : IndexOps.ReactiveIndex K Sec V) (options : PersistOptions St) (initial_cursor : option N) :=
  persist_collection KindIndex (IndexOps.to_vec c) options initial_cursor.

Definition persist_reactive_list {T} `{!Serde (list T)} (c : ListOps.ReactiveList T)
    (options : PersistOptions St) := persist_reactive_list_with_cursor c options None.
Definition persist_reactive_log {T} `{!Serde (list T)} (c : LogOps.ReactiveLog T)
    (options : PersistOptions St) := persist_reactive_log_with_cursor c options None.
Definition persist_reactive_map {K V} `{!OrdKey K, !Serde (list (K * V))}
    (c : MapOps.ReactiveMap K V) (options : PersistOptions St) :=
  persist_reactive_map_with_cursor c options None.
Definition persist_reactive_index {K Sec V}
    `{!OrdKey K, !OrdKey Sec, !Serde (list (IndexRow K Sec V))}
    (c : IndexOps.ReactiveIndex K Sec V) (options : PersistOptions St) :=
  persist_reactive_index_with_cursor c options None.

(** *** Opening: load, restore, persist *)

Definition load_options (options : PersistOptions St) : LoadOptions St :=
  mkLoadOptions (po_storage_prefix options) (po_snapshot_key options) (po_change_log options).

(** The initial values are used when nothing was stored. *)
Definition or_initial {T} (empty : bool) (initial : T) (rs : RestoreState T) : RestoreState T :=
  if empty then
    mkRestoreState (rs_kind rs) initial (rs_source rs) (rs_snapshot_meta rs) (rs_changes_meta rs)
      (rs_cursor rs) (rs_snapshot_found rs) (rs_changes_applied rs)
  else rs.

Definition nothing_stored {T} (rs : RestoreState T) : bool :=
  negb (rs_snapshot_found rs) && (rs_changes_applied rs =? 0).

(** data_structures.rs; [new] panics on a capacity of zero. *)
Definition restore_reactive_list {S T} (rs : RestoreState (list T)) (max_size : option nat) :
    M S (StorageResult (ListOps.ReactiveList T)) :=
  if bool_decide (rs_kind rs ≠ KindList) then
    ret (backend "restore_reactive_list: restore state kind must be reactiveList")
  else let! c := ListOps.new (rs_state rs) max_size in ret (Ok c).

Definition restore_reactive_log {S T} (rs : RestoreState (list T)) (max_size : option nat) :
    M S (StorageResult (LogOps.ReactiveLog T)) :=
  if bool_decide (rs_kind rs ≠ KindLog) then
    ret (backend "restore_reactive_log: restore state kind must be reactiveLog")
  else let! c := LogOps.new (rs_state rs) max_size in ret (Ok c).

Definition open_persistent_reactive_list {T} `{!Serde T, !Serde (list T), !Serde (ListChange T)}
    (initial : list T) (max_size : option nat) (options : PersistOptions St) :
    M St (StorageResult (ListOps.ReactiveList T * Sidecar St (list T))) :=
  let!? rs := load_reactive_list_state (po_snapshot_store options) (load_options options) in
  let rs := or_initial (nothing_stored rs) initial rs in
  let!? collection := restore_reactive_list rs max_size in
  let!? persistence := persist_reactive_list_with_cursor collection options (rs_cursor rs) in
  ret (Ok (collection, persistence)).

Definition open_persistent_reactive_log {T} `{!Serde (list T), !Serde (LogChange T)}
    (initial : list T) (max_size : option nat) (options : PersistOptions St) :
    M St (StorageResult (LogOps.ReactiveLog T * Sidecar St (list T))) :=
  let!? rs := load_reactive_log_state (po_snapshot_store options) (load_options options) in
  let rs := or_initial (nothing_stored rs) initial rs in
  let!? collection := restore_reactive_log rs max_size in
  let!? persistence := persist_reactive_log_with_cursor collection options (rs_cursor rs) in
  ret (Ok (collection, persistence)).
End Persist.
