(* ===== verification/SidecarFacts.v ===== *)
(** * What a sidecar stores is what the collection was

    [StoresSpec]: what a sidecar relies on of its stores, failures included.
    [Persisted]: what it relies on of a kind of collection.  [durable]: a store
    from which [load_state] restores a given content.  The theorems: whatever
    changes arrive, whichever writes fail and whenever the process stops, loading
    gives the content after a prefix of the changes; and the content after all of
    them when a flush has just succeeded. *)

From Stdlib Require Import Ascii String.
From stdpp Require Import base gmap list option numbers strings pretty.
From S2P Require Import Prelude.
From S2P Require Import BTree.
From S2P Require Import Json.
From S2P Require Import Collections.
From S2P Require Import CollectionFacts.
From S2P Require Import Storage.
From S2P Require Import AppendLog.
From S2P Require Import AppendLogFacts.
From S2P Require Import CollectionStorage.
From S2P Require Import CollectionSidecar.

Local Open Scope rx_scope.

(** ** The interfaces *)

(** The stores of a sidecar: [sview] is the snapshot frame under its key, [lview]
    the frames of its log, while the stores are in order ([sok]).  A write that
    fails leaves both as they were. *)
Class StoresSpec {St} (key : string) (kv : KvStorageTier St ReactiveCollectionSnapshotFrame)
    (log : option (AppendLogTier St ReactiveCollectionChangeFrame))
    (sok : St → Prop) (sview : St → option ReactiveCollectionSnapshotFrame)
    (lview : St → list ReactiveCollectionChangeFrame) : Prop := {
  stores_get st : sok st → kv_get kv key st = Ret (Ok (sview st)) st;
  stores_set frame st :
    sok st →
    ∃ r st', kv_set kv key frame st = Ret r st' ∧ sok st' ∧ lview st' = lview st ∧
      sview st' = match r with Ok _ => Some frame | Err _ => sview st end;
  stores_append l frame st :
    sok st → log = Some l → (N.of_nat (length (lview st) + 1) < u64_bound)%N →
    ∃ r st', log_append l frame st = Ret r st' ∧ sok st' ∧ sview st' = sview st ∧
      match r with
      | Ok entry => seq_ entry = N.of_nat (length (lview st)) ∧ lview st' = lview st ++ [frame]
      | Err _ => lview st' = lview st
      end;
  stores_read l after st :
    sok st → log = Some l →
    ∃ entries, log_read l (mkAppendLogReadOptions after None) st = Ret (Ok entries) st ∧
      (λ e, (seq_ e, AppendLog.value e)) <$> entries
      = drop (read_start after) (imap (λ i f, (N.of_nat i, f)) (lview st))
}.

(** A kind of collection: its content [B] and its changes, and the sequence [Sn]
    that mirrors it and is stored. *)
Class Persisted {SJ : SerdeJson} {B X C : Type} {HS : Serde (list X)} {HC : Serde C}
    (R : B → C → B → Prop) (repr : list X → B → Prop)
    (apply : C → M (list X) (StorageResult unit))
    (fold : list X → ReactiveCollectionChangeFrame → StorageResult (list X))
    (check : list X → string → StorageResult unit) : Prop := {
  persisted_apply sn b c b' :
    repr sn b → R b c b' → ∃ sn', apply c sn = Ret (Ok tt) sn' ∧ repr sn' b';
  persisted_fold sn b c b' frame :
    repr sn b → R b c b' → to_value c = Ok (cf_change frame) →
    ∃ sn', fold sn frame = Ok sn' ∧ repr sn' b';
  persisted_check sn b label : repr sn b → check sn label = Ok tt;
  persisted_stored (sn : list X) v : to_value sn = Ok v → from_value v = Ok sn
}.

(** ** Loading, once for the four kinds *)

Section Load.
Context `{SJ : SerdeJson} {St B X C : Type} {HS : Serde (list X)} {HC : Serde C}.
Context (kind : ReactiveCollectionKind) (fold : list X → ReactiveCollectionChangeFrame → StorageResult (list X))
  (check : list X → string → StorageResult unit) (label1 label2 : string).

Definition load_state (store : KvStorageTier St ReactiveCollectionSnapshotFrame) (options : LoadOptions St) :
    M St (StorageResult (RestoreState (list X))) :=
  let!? (snapshot, cursor, snapshot_found) := load_collection_snapshot store options kind in
  let state := default [] snapshot in
  let!? _ := ret (check state label1) in
  let!? (state, cursor, snapshot_cursor, changes_applied) :=
    fold_collection_changes state cursor (lo_change_log options) kind fold in
  let!? _ := ret (check state label2) in
  ret (restore_state kind state snapshot_found snapshot_cursor changes_applied cursor).
End Load.

Definition no_check {X} (_ : list X) (_ : string) : StorageResult unit := Ok tt.

Lemma load_list_generic `{SerdeJson} {St T} `{!Serde T, !Serde (list T), !Serde (ListChange T)}
    store (options : LoadOptions St) :
  load_reactive_list_state store options = load_state KindList fold_list_change no_check "" "" store options.
Proof. reflexivity. Qed.

Lemma load_log_generic `{SerdeJson} {St T} `{!Serde (list T), !Serde (LogChange T)}
    store (options : LoadOptions St) :
  load_reactive_log_state store options = load_state KindLog fold_log_change no_check "" "" store options.
Proof. reflexivity. Qed.

Lemma load_map_generic `{SerdeJson} {St K V} `{!Serde K, !Serde V, !Serde (list (K * V)), !Serde (MapChange K V)}
    store (options : LoadOptions St) :
  load_reactive_map_state store options
  = load_state KindMap fold_map_change (assert_unique_map_keys storage_json_error)
      "reactiveMap snapshot" "reactiveMap restore" store options.
Proof. reflexivity. Qed.

Lemma load_index_generic `{SerdeJson} {St K Sec V}
    `{!Serde K, !Serde (list (IndexRow K Sec V)), !Serde (IndexChange K Sec V)}
    store (options : LoadOptions St) :
  load_reactive_index_state store options
  = load_state KindIndex fold_index_change (assert_unique_index_primaries storage_json_error)
      "reactiveIndex snapshot" "reactiveIndex restore" store options.
Proof. reflexivity. Qed.

(** ** Durable content *)

Section Durable.
Context {SJ : SerdeJson} {St B X C : Type} {HS : Serde (list X)} {HC : Serde C}.
Context (kind : ReactiveCollectionKind) (key : string)
  (kv : KvStorageTier St ReactiveCollectionSnapshotFrame)
  (log : option (AppendLogTier St ReactiveCollectionChangeFrame))
  (sok : St → Prop) (sview : St → option ReactiveCollectionSnapshotFrame)
  (lview : St → list ReactiveCollectionChangeFrame)
  `{Hstores : !StoresSpec key kv log sok sview lview}.
Context (R : B → C → B → Prop) (repr : list X → B → Prop)
  (apply : C → M (list X) (StorageResult unit))
  (fold : list X → ReactiveCollectionChangeFrame → StorageResult (list X))
  (check : list X → string → StorageResult unit)
  `{Hp : !Persisted R repr apply fold check}.
Context (b_empty : B) (Hempty : repr [] b_empty).

(** A frame holds a change. *)
Definition encodes (c : C) (f : ReactiveCollectionChangeFrame) : Prop :=
  to_value c = Ok (cf_change f) ∧ cf_kind f = kind ∧ assert_reactive_collection_change_frame f = Ok tt.

(** The cursor stands at the end of the log. *)
Definition at_end (cursor : option N) (st : St) : Prop :=
  log = None ∨ read_start cursor = length (lview st).

(** The frames a load reads after the snapshot. *)
Definition unread (cursor : option N) (st : St) : list ReactiveCollectionChangeFrame :=
  match log with None => [] | Some _ => drop (read_start cursor) (lview st) end.

(** The content of the snapshot part of a store, and its cursor. *)
Definition snapshot_part (st : St) (cursor : option N) (b : B) : Prop :=
  match sview st with
  | None => cursor = None ∧ b = b_empty
  | Some f =>
      assert_reactive_collection_snapshot_frame f = Ok tt ∧ sf_kind f = kind ∧
      cursor_value cursor = Ok (change_cursor f) ∧
      ∃ sn, from_value (sf_snapshot f) = Ok sn ∧ repr sn b
  end.

(** [st] holds the content [b]. *)
Definition durable (st : St) (b : B) : Prop :=
  sok st ∧ ∃ cursor b0 cs,
    snapshot_part st cursor b0 ∧ (log = None ∨ read_start cursor ≤ length (lview st)) ∧
    Forall2 encodes cs (unread cursor st) ∧ replay R b0 cs b.

(** Every sequence number and cursor in use fits. *)
Definition roomy (n : nat) (st : St) : Prop := (Z.of_nat (length (lview st) + n) < 2 ^ 63)%Z.

Lemma cursor_value_inv cursor z :
  cursor_value cursor = Ok z →
  (if (z <? 0)%Z then None else Some (Z.to_N z)) = cursor.
Proof.
  destruct cursor as [seq|]; simpl; [|by intros [= <-]]. unfold seq_to_snapshot_cursor.
  case_match; [|done]. intros [= <-]. rewrite (proj2 (Z.ltb_ge _ _)) by lia. by rewrite N2Z.id.
Qed.

Lemma cursor_value_small cursor n :
  read_start cursor ≤ n → (Z.of_nat n < 2 ^ 63)%Z → ∃ z, cursor_value cursor = Ok z.
Proof.
  destruct cursor as [seq|]; simpl; [|by eexists]. intros Hn Hlt. unfold seq_to_snapshot_cursor.
  rewrite (proj2 (Z.leb_le _ _)) by lia. by eexists.
Qed.

(** The entries the loop expects, from sequence [n] on. *)
Definition entries_from (n : nat) (frames : list ReactiveCollectionChangeFrame)
    (entries : list (AppendLogEntry ReactiveCollectionChangeFrame)) : Prop :=
  (λ e, (seq_ e, AppendLog.value e)) <$> entries = imap (λ i f, (N.of_nat (n + i), f)) frames.

Lemma fold_entries_run cs : ∀ frames entries n sn b b' cursor,
  Forall2 encodes cs frames → replay R b cs b' → repr sn b → entries_from n frames entries →
  read_start cursor = n → (Z.of_nat (n + length frames) < 2 ^ 63)%Z →
  ∃ sn' cursor' e', try_fold (fold_entry kind fold) (sn, cursor, N.of_nat n) entries = Ok (sn', cursor', e') ∧
    repr sn' b' ∧ read_start cursor' = n + length frames.
Proof.
  induction cs as [|c cs IH]; intros frames entries n sn b b' cursor Hf Hr Hsn He Hn Hlt.
  - apply Forall2_nil_inv_l in Hf as ->. unfold entries_from in He. simpl in He.
    apply fmap_nil_inv in He as ->. inversion Hr; subst. exists sn, cursor, (N.of_nat (read_start cursor)). simpl.
    split_and!; [done|done|lia].
  - apply Forall2_cons_inv_l in Hf as (f & frames' & (Hc & Hk & Ha) & Hf & ->).
    inversion Hr as [|? ? b1 ? ? Hrc Hrest]; subst. unfold entries_from in He. simpl in He.
    destruct entries as [|[ek es ev] entries]; simpl in He; [done|]. injection He as Hes Hev He.
    simpl in *. subst es ev.
    destruct (persisted_fold sn b c b1 f Hsn Hrc Hc) as (sn1 & Hfold & Hsn1).
    rewrite Nat.add_0_r. rewrite N.eqb_refl. simpl. rewrite Ha. simpl.
    rewrite bool_decide_eq_false_2 by (intros Hne; by apply Hne). rewrite Hfold. simpl.
    rewrite (proj2 (N.ltb_lt _ _)) by (unfold u64_bound; lia). simpl.
    destruct (IH frames' entries (S (read_start cursor)) sn1 b1 b' (Some (N.of_nat (read_start cursor))) Hf Hrest Hsn1)
      as (sn' & cursor' & e' & Ht & Hsn' & Hc').
    + unfold entries_from. etrans; [exact He|]. apply imap_ext. intros i x _. simpl. f_equal. lia.
    + simpl. lia.
    + simpl in Hlt. lia.
    + replace (N.of_nat (read_start cursor) + 1)%N with (N.of_nat (S (read_start cursor))) by lia.
      exists sn', cursor', e'. split_and!; [done|done|lia].
Qed.

Lemma first_expected_start cursor n :
  read_start cursor ≤ n → (Z.of_nat n < 2 ^ 63)%Z → first_expected cursor = N.of_nat (read_start cursor).
Proof. destruct cursor as [seq|]; simpl; [|done]. unfold u64_bound. lia. Qed.

Lemma imap_drop {A D} (g : nat → A → D) n l : drop n (imap g l) = imap (λ i, g (n + i)) (drop n l).
Proof.
  revert g l. induction n as [|n IH]; intros g [|x l]; try done. simpl. rewrite (IH (g ∘ S) l).
  by apply imap_ext.
Qed.

Lemma load_snapshot_runs (options : LoadOptions St) st cursor b0 :
  sok st → resolve_collection_snapshot_key options = Ok key → snapshot_part st cursor b0 →
  ∃ snap found, load_collection_snapshot kv options kind st = Ret (Ok (snap, cursor, found)) st ∧
    repr (default [] snap) b0 ∧ (is_Some (sview st) → found = true).
Proof.
  intros Hok Hkey Hs. unfold load_collection_snapshot. rewrite Hkey. unfold mrbind at 1, bind, ret.
  rewrite (mrbind_step _ _ _ _ _ (stores_get st Hok)). unfold snapshot_part in Hs.
  destruct (sview st) as [f|].
  - destruct Hs as (Ha & Hk & Hc & sn & Hv & Hsn). unfold mrbind at 1, bind, ret. rewrite Ha.
    rewrite bool_decide_eq_false_2 by (intros Hne; by apply Hne). rewrite Hv. simpl.
    unfold mrbind, bind, ret. rewrite (cursor_value_inv _ _ Hc). by exists (Some sn), true.
  - destruct Hs as [-> ->]. exists None, false. split_and!; [done|done|by intros []].
Qed.

Lemma fold_changes_runs st cursor b0 cs b sn n :
  sok st → Forall2 encodes cs (unread cursor st) → replay R b0 cs b → repr sn b0 →
  (log = None ∨ read_start cursor ≤ length (lview st)) → roomy n st →
  (log = None → ∃ z, cursor_value cursor = Ok z) →
  ∃ sn' cursor' z k, fold_collection_changes sn cursor log kind fold st = Ret (Ok (sn', cursor', z, k)) st ∧
    repr sn' b ∧ (log = None → cursor' = cursor) ∧ at_end cursor' st.
Proof.
  intros Hok Hf Hr Hsn Hl Hroom Hz. unfold roomy in Hroom. unfold fold_collection_changes, at_end.
  assert (∃ z, cursor_value cursor = Ok z) as [z Hcv].
  { destruct Hl as [Hl|Hl]; [by apply Hz|]. apply (cursor_value_small _ _ Hl). lia. }
  unfold mrbind at 1, bind, ret. rewrite Hcv. unfold unread in Hf. destruct log as [l|] eqn:Hlog.
  - destruct Hl as [|Hl]; [done|]. destruct (stores_read l cursor st Hok eq_refl) as (entries & Hread & He).
    rewrite (mrbind_step _ _ _ _ _ Hread). rewrite (first_expected_start _ _ Hl) by lia.
    rewrite imap_drop in He.
    destruct (fold_entries_run cs _ entries (read_start cursor) sn b0 b cursor Hf Hr Hsn He eq_refl)
      as (sn' & cursor' & e' & Ht & Hsn' & Hc').
    { rewrite length_drop. lia. }
    rewrite Ht. unfold mrbind, bind, ret. do 4 eexists. split_and!; [done|done|done|right].
    rewrite Hc', length_drop. lia.
  - apply Forall2_nil_inv_r in Hf as ->. inversion Hr; subst. do 4 eexists. split_and!; [done|done|done|by left].
Qed.

(** Loading a store that holds [b] gives [b], and a cursor to go on from. *)
Lemma load_durable (options : LoadOptions St) l1 l2 st b n :
  resolve_collection_snapshot_key options = Ok key → lo_change_log options = log →
  durable st b → roomy n st →
  ∃ rs, load_state kind fold check l1 l2 kv options st = Ret (Ok rs) st ∧
    repr (rs_state rs) b ∧ rs_kind rs = kind ∧ at_end (rs_cursor rs) st ∧
    (∃ z, cursor_value (rs_cursor rs) = Ok z) ∧ (is_Some (sview st) → rs_snapshot_found rs = true).
Proof.
  intros Hkey Hlog (Hok & cursor & b0 & cs & Hs & Hl & Hf & Hr) Hroom.
  destruct (load_snapshot_runs options st cursor b0 Hok Hkey Hs) as (snap & found & Hload & Hsn & Hfound).
  assert (∃ z, cursor_value cursor = Ok z) as Hz.
  { unfold snapshot_part in Hs. destruct (sview st); [|destruct Hs as [-> _]; by eexists].
    destruct Hs as (_ & _ & Hc & _). by eexists. }
  destruct (fold_changes_runs st cursor b0 cs b _ n Hok Hf Hr Hsn Hl Hroom (λ _, Hz))
    as (sn' & cursor' & z & k & Hfold & Hsn' & Hcur & Hend).
  unfold load_state. rewrite (mrbind_step _ _ _ _ _ Hload). simpl.
  rewrite (mrbind_step _ _ _ tt st) by by unfold ret; rewrite (persisted_check _ b0).
  rewrite Hlog, (mrbind_step _ _ _ _ _ Hfold). simpl.
  rewrite (mrbind_step _ _ _ tt st) by by unfold ret; rewrite (persisted_check _ b).
  assert (∃ z', cursor_value cursor' = Ok z') as [z' Hz'].
  { destruct Hend as [Hend|Hend]; [by rewrite Hcur|]. unfold roomy in Hroom.
    apply (cursor_value_small _ (length (lview st))); lia. }
  unfold restore_state. rewrite Hz'. simpl. unfold ret. eexists. split; [done|]. simpl.
  split_and!; [done|done|done|by exists z'|done].
Qed.
(** ** Writes *)

Lemma durable_same st st' b :
  sok st' → sview st' = sview st → lview st' = lview st → durable st b → durable st' b.
Proof.
  intros Hok Hs Hl (_ & cursor & b0 & cs & Hp' & Hle & Hf & Hr). split; [done|]. exists cursor, b0, cs.
  unfold snapshot_part, unread in *. by rewrite Hs, Hl.
Qed.

Lemma durable_append st st' b c b' f :
  log ≠ None → sok st' → sview st' = sview st → lview st' = lview st ++ [f] →
  encodes c f → R b c b' → durable st b → durable st' b'.
Proof.
  intros Hlog Hok Hs Hl He Hrc (_ & cursor & b0 & cs & Hp' & Hle & Hf & Hr). destruct Hle as [|Hle]; [done|]. split; [done|].
  exists cursor, b0, (cs ++ [c]). unfold snapshot_part, unread in *. rewrite Hs. split_and!; [done| | |].
  - right. rewrite Hl, length_app. lia.
  - destruct log; [|done]. rewrite Hl, drop_app_le by done. apply Forall2_app; [done|apply Forall2_cons; by split].
  - eapply replay_app; [done|]. by apply replay_one.
Qed.

Lemma at_end_append cursor st st' f seq :
  log ≠ None → at_end cursor st → lview st' = lview st ++ [f] → seq = N.of_nat (length (lview st)) →
  at_end (Some seq) st'.
Proof. intros Hlog _ Hl ->. right. rewrite Hl, length_app. simpl. lia. Qed.

Lemma durable_snapshot st st' cursor z sn b f v :
  at_end cursor st → cursor_value cursor = Ok z → repr sn b → to_value sn = Ok v →
  reactive_collection_snapshot_frame kind z v = Ok f →
  sok st' → sview st' = Some f → lview st' = lview st → durable st' b.
Proof.
  intros Hend Hz Hsn Hv Hf Hok Hs Hl. split; [done|]. unfold reactive_collection_snapshot_frame in Hf.
  destruct (assert_reactive_collection_snapshot_frame _) as [[]|] eqn:Ha; [|done]. injection Hf as <-.
  exists cursor, b, []. unfold snapshot_part, unread, at_end in *. rewrite Hs, Hl. split_and!.
  - done.
  - done.
  - done.
  - exists sn. split; [|done]. by apply persisted_stored.
  - destruct Hend as [->|Hend]; [by left|right; lia].
  - destruct log; [|constructor]. destruct Hend as [|Hend]; [done|]. rewrite Hend, drop_all. constructor.
  - constructor.
Qed.

(** ** The sidecar *)

Notation Side := (Sidecar St (list X)).
Implicit Types s : Side.

(** The stores and the queue: the queue holds [mid], the changes from the durable
    content [bd] to [bm]. *)
Definition queue_inv (mid : list C) (bd bm : B) s : Prop :=
  durable (store s) bd ∧ replay R bd mid bm ∧ Forall2 encodes mid (pending_changes s) ∧
  at_end (cursor_cell (counters s)) (store s) ∧ (∃ z, cursor_value (cursor_cell (counters s)) = Ok z) ∧
  (log = None → mid = [] ∧ pending_changes s = []).

(** Entries in the log and in the queue, and [n] to come. *)
Definition side_room (n : nat) s : Prop :=
  (Z.of_nat (length (lview (store s)) + length (pending_changes s) + n) < 2 ^ 63)%Z.

(** What a write of the queue leaves alone. *)
Definition same_core s s' : Prop :=
  mirror s' = mirror s ∧ flags s' = flags s ∧
  length (lview (store s')) + length (pending_changes s') = length (lview (store s)) + length (pending_changes s).

Lemma queue_inv_ext mid bd bm s s' :
  store s' = store s → pending_changes s' = pending_changes s → cursor_cell (counters s') = cursor_cell (counters s) →
  queue_inv mid bd bm s → queue_inv mid bd bm s'.
Proof. unfold queue_inv. by intros -> -> ->. Qed.

(** The queue after a write that stopped before the changes [m2]. *)
Definition drained (mid : list C) (bd bm : B) s (r : StorageResult unit) s' : Prop :=
  ∃ m1 m2 bd', mid = m1 ++ m2 ∧ replay R bd m1 bd' ∧ queue_inv m2 bd' bm s' ∧ same_core s s' ∧
    (r = Ok tt → m2 = []).

Lemma drain_frames_spec l mid : ∀ bd bm s n,
  log = Some l → queue_inv mid bd bm s → side_room n s →
  total (drain_frames kind l (pending_changes s)) s (drained mid bd bm s).
Proof.
  induction mid as [|c mid IH]; intros bd bm s n Hlog Hq Hroom;
    pose proof Hq as (Hd & Hr & Hf & Hend & [z Hz] & _).
  - apply Forall2_nil_inv_l in Hf as Hnil. rewrite Hnil. simpl. exists [], [], bd.
    split_and!; [done|constructor|done|by split_and!|done].
  - apply Forall2_cons_inv_l in Hf as (f & frames & He & Hf & Heq). rewrite Heq. simpl.
    inversion Hr as [|? ? b1 ? ? Hrc Hrest]; subst. unfold side_room in Hroom. rewrite Heq in Hroom. simpl in Hroom.
    destruct (stores_append l f (store s) (proj1 Hd) Hlog) as (r & st' & Ha & Hok' & Hs & Hres); [unfold u64_bound; lia|].
    assert (log ≠ None) as Hsome by congruence.
    destruct r as [entry|e].
    + destruct Hres as [Hseq Hl].
      unfold total. erewrite mrbind_step by (unfold on_store, zoom; rewrite Ha; reflexivity).
      unfold bind, set_counters, set_cursor, set_facts, set_pending, modify, gets. simpl. rewrite Heq. simpl.
      match goal with |- match drain_frames _ _ _ ?s1 with _ => _ end =>
        set (s2 := s1); assert (queue_inv mid b1 bm s2) as Hq2 end.
      { unfold queue_inv, s2. simpl. split_and!.
        - by eapply durable_append.
        - done.
        - done.
        - by eapply at_end_append.
        - apply (cursor_value_small (Some (seq_ entry)) (length (lview st'))); [|rewrite Hl, length_app; simpl; lia].
          rewrite Hl, length_app, Hseq. simpl. lia.
        - done. }
      specialize (IH b1 bm s2 n Hlog Hq2).
      assert (side_room n s2) as Hroom2.
      { unfold side_room, s2. simpl. rewrite Hl, length_app. simpl. lia. }
      specialize (IH Hroom2). unfold total in IH. change frames with (pending_changes s2).
      destruct (drain_frames kind l (pending_changes s2) s2) as [r s'|p s'|]; [|done..].
      destruct IH as (m1 & m2 & bd' & -> & Hr1 & Hq' & (Hm' & Hfl' & Hlen') & Hok).
      exists (c :: m1), m2, bd'. split_and!; [done|by econstructor|done| |done].
      unfold same_core. rewrite Hm', Hfl', Hlen', Heq. unfold s2. simpl. rewrite Hl, length_app. simpl.
      split_and!; [done..|lia].
    + unfold total. erewrite mrbind_err by (unfold on_store, zoom; rewrite Ha; reflexivity).
      exists [], (c :: mid), bd. split_and!; [done|constructor| | |done].
      * split_and!; simpl; [by eapply durable_same|done| |  |by exists z|done].
        -- rewrite Heq. by constructor.
        -- unfold at_end in *. by rewrite Hres.
      * split_and!; [done..|]. simpl. by rewrite Hres.
Qed.
Lemma drain_spec mid bd bm s n :
  queue_inv mid bd bm s → side_room n s →
  total (drain_pending_changes kind log) s (drained mid bd bm s).
Proof.
  intros Hq Hroom. assert (log = None ∨ ∃ l, log = Some l) as [Hlog|[l Hlog]] by (destruct log; eauto).
  - assert (drain_pending_changes kind log s = (set_pending (λ _, []) ;;; ret (Ok tt)) s) as Heq by by rewrite Hlog.
    unfold total. rewrite Heq. destruct Hq as (Hd & Hr & Hf & Hend & Hz & Hnone). destruct (Hnone Hlog) as [-> Hpend].
    exists [], [], bd. split_and!; simpl; try done; [apply replay_nil|split_and!; simpl; [done|done|by rewrite Hpend]].
  - assert (drain_pending_changes kind log s = drain_frames kind l (pending_changes s) s) as Heq by by rewrite Hlog.
    unfold total. rewrite Heq. by apply (drain_frames_spec l mid bd bm s n).
Qed.

Notation wsnap := (write_snapshot kind key kv log).

(** A snapshot: everything mirrored is durable, or the queue is shorter. *)
Definition snapped (mid : list C) (bd bm bx : B) s (r : StorageResult unit) s' : Prop :=
  match r with
  | Ok _ =>
      queue_inv [] bx bx s' ∧ is_Some (sview (store s')) ∧ mirror s' = mirror s ∧
      disposed (flags s') = disposed (flags s) ∧ errored (flags s') = errored (flags s) ∧
      (errored (flags s) = false → snapshot_dirty (flags s') = false) ∧
      length (lview (store s')) + length (pending_changes s')
      = length (lview (store s)) + length (pending_changes s)
  | Err _ => drained mid bd bm s r s'
  end.

(** The queue after the mirror was written. *)
Lemma queue_snapped s s' b z st' :
  durable st' b → pending_changes s = [] → store s' = st' → pending_changes s' = [] →
  at_end (cursor_cell (counters s)) (store s) → lview st' = lview (store s) →
  cursor_cell (counters s') = cursor_cell (counters s) →
  cursor_value (cursor_cell (counters s)) = Ok z → queue_inv [] b b s'.
Proof.
  intros Hd Hp0 Hst Hp' Hend Hl Hc Hz. unfold queue_inv, at_end in *. rewrite Hst, Hp', Hc, Hl.
  split_and!; try done; [apply replay_nil|by exists z].
Qed.

Lemma write_snapshot_spec mid bd bm bx s n :
  queue_inv mid bd bm s → side_room n s → repr (mirror s) bx →
  total wsnap s (snapped mid bd bm bx s).
Proof.
  intros Hq Hroom Hx. unfold write_snapshot. apply total_mrbind.
  eapply total_conseq; [by apply (drain_spec mid bd bm s n)|]. intros r s1 Hdr.
  destruct r as [[]|e]; [|done]. destruct Hdr as (m1 & m2 & bd' & Hmid & Hr1 & Hq1 & (Hmir & Hfl & Hlen) & Hok).
  assert (∀ e s', s' = s1 → drained mid bd bm s (Err e) s') as Herr.
  { intros e s' ->. exists m1, m2, bd'. split_and!; [done..|by intros [=]]. }
  rewrite (Hok eq_refl) in *. clear m2 Hok.
  destruct Hq1 as (Hd1 & Hb1 & Hf1 & Hend1 & [z Hz1] & Hnone1). apply Forall2_nil_inv_l in Hf1 as Hp1.
  eapply total_step; [done|].
  eapply total_ok; [by unfold ret; rewrite Hz1|]. eapply total_step; [done|].
  destruct (to_value (mirror s1)) as [v|e] eqn:Hv; [|eapply total_err; [done|by apply Herr]].
  eapply total_ok; [done|].
  destruct (reactive_collection_snapshot_frame kind z v) as [f|e] eqn:Hf; [|eapply total_err; [done|by apply Herr]].
  eapply total_ok; [done|].
  destruct (stores_set f (store s1) (proj1 Hd1)) as (r & st' & Hset & Hok' & Hl & Hs).
  destruct r as [[]|e].
  - eapply total_ok; [unfold on_store, zoom; by rewrite Hset|].
    assert (durable st' bx) as Hd'.
    { apply (durable_snapshot (store s1) st' _ z (mirror s1) bx f v Hend1 Hz1); [by rewrite Hmir|done..]. }
    unfold total, bind, set_counters, modify, gets. simpl. rewrite Hfl. unfold when.
    destruct (errored (flags s)) eqn:Herred; simpl.
    + unfold snapped. simpl. rewrite ?Hfl.
      split_and!; [by apply (queue_snapped s1 _ bx z st')|by rewrite Hs|done|done|done|by rewrite Herred|by rewrite Hl].
    + unfold snapped. simpl. rewrite ?Hfl.
      split_and!; [by apply (queue_snapped s1 _ bx z st')|by rewrite Hs|done|done|done|done|by rewrite Hl].
  - eapply total_err; [unfold on_store, zoom; by rewrite Hset|].
    exists m1, [], bd'. split_and!; [done|done| | |done].
    + unfold queue_inv. simpl. split_and!; [by eapply durable_same|done|done|by unfold at_end; rewrite Hl|by exists z|done].
    + split_and!; simpl; [done|done|by rewrite Hl].
Qed.
(** ** Events *)

Context (every : option N).

(** The history of a sidecar attached at content [b0]: the changes [all] lead to
    [b]; those before the durable content [bd] are [pre], those queued [mid], those
    mirrored and not queued [mid2], those ignored after an error [post]. *)
Definition live (bd : B) (mid mid2 post : list C) (b : B) s : Prop :=
  ∃ bm bx, queue_inv mid bd bm s ∧ replay R bm mid2 bx ∧ repr (mirror s) bx ∧ replay R bx post b.

Definition side_inv (b0 : B) (all : list C) (b : B) s : Prop :=
  ∃ pre mid mid2 post bd,
    all = pre ++ mid ++ mid2 ++ post ∧ replay R b0 pre bd ∧ durable (store s) bd ∧
    replay R bd (mid ++ mid2 ++ post) b ∧
    (disposed (flags s) = true ∨ live bd mid mid2 post b s) ∧
    (disposed (flags s) = false → errored (flags s) = false →
     post = [] ∧ (log ≠ None ∨ snapshot_dirty (flags s) = false → mid2 = [])).

(** Nothing but the facts, the counts and the flags differs. *)
Definition same_data s s' : Prop :=
  store s' = store s ∧ pending_changes s' = pending_changes s ∧
  cursor_cell (counters s') = cursor_cell (counters s) ∧ mirror s' = mirror s.

Lemma live_same bd mid mid2 post b s s' : same_data s s' → live bd mid mid2 post b s → live bd mid mid2 post b s'.
Proof.
  intros (Hst & Hp' & Hc & Hm) (bm & bx & Hq & Hr & Hx & Hpost). exists bm, bx. rewrite Hm.
  split_and!; try done. by eapply queue_inv_ext.
Qed.

(** Recording an error keeps everything but the readiness. *)
Lemma record_runs phase e s :
  ∃ s', record_persistence_error kind phase e s = Ret tt s' ∧ same_data s s' ∧
    disposed (flags s') = disposed (flags s) ∧ errored (flags s') = true.
Proof. eexists. by split_and!. Qed.

Lemma record_inv phase e b0 all b s n :
  side_inv b0 all b s → side_room n s →
  total (record_persistence_error kind phase e) s (λ _ s', side_inv b0 all b s' ∧ side_room n s').
Proof.
  intros (pre & mid & mid2 & post & bd & Hall & Hpre & Hd & Hrest & Hlive & _) Hroom.
  destruct (record_runs phase e s) as (s' & Hr & Hsame & Hdis & Herr). unfold total. rewrite Hr.
  pose proof Hsame as (Hst & Hp' & _). split.
  - exists pre, mid, mid2, post, bd. rewrite Hst, Hdis. split_and!; [done..| |by rewrite Herr].
    destruct Hlive as [Hl|Hl]; [by left|right]. by eapply live_same.
  - unfold side_room in *. by rewrite Hst, Hp'.
Qed.

(** A write of the queue, or of the mirror, keeps the history. *)
Lemma drained_inv b0 pre mid mid2 post bd bm bx b s (r : StorageResult unit) s' n :
  replay R b0 pre bd → queue_inv mid bd bm s → replay R bm mid2 bx → repr (mirror s) bx → replay R bx post b →
  (errored (flags s) = false → post = [] ∧ (log ≠ None ∨ snapshot_dirty (flags s) = false → mid2 = [])) →
  side_room n s → drained mid bd bm s r s' →
  side_inv b0 (pre ++ mid ++ mid2 ++ post) b s' ∧ side_room n s' ∧
  (r = Ok tt → mid2 = [] → post = [] → durable (store s') b).
Proof.
  intros Hpre Hq Hr2 Hx Hpost Hok Hroom (m1 & m2 & bd' & -> & Hr1 & Hq' & (Hmir & Hfl & Hlen) & Hrok).
  pose proof Hq' as (Hd' & Hrest' & _). split_and!.
  - exists (pre ++ m1), m2, mid2, post, bd'. split_and!.
    + by rewrite <- !app_assoc.
    + by eapply replay_app.
    + done.
    + eapply replay_app; [exact Hrest'|]. by eapply replay_app.
    + right. exists bm, bx. rewrite Hmir. by split_and!.
    + rewrite Hfl. by intros _.
  - unfold side_room in *. by rewrite Hlen.
  - intros Hr -> ->. apply Hrok in Hr as ->. inversion Hrest'; subst. inversion Hr2; subst. by inversion Hpost; subst.
Qed.
Lemma snapped_inv b0 pre mid mid2 post bd bm bx b s r s' n :
  replay R b0 pre bd → queue_inv mid bd bm s → replay R bm mid2 bx → repr (mirror s) bx → replay R bx post b →
  (errored (flags s) = false → post = [] ∧ (log ≠ None ∨ snapshot_dirty (flags s) = false → mid2 = [])) →
  side_room n s → snapped mid bd bm bx s r s' →
  side_inv b0 (pre ++ mid ++ mid2 ++ post) b s' ∧ side_room n s' ∧
  (r = Ok tt → post = [] → durable (store s') b).
Proof.
  intros Hpre Hq Hr2 Hx Hpost Hok Hroom Hsn. destruct r as [[]|e].
  - destruct Hsn as (Hq' & _ & Hmir & Hdis & Herr & Hdirty & Hlen). pose proof Hq as (_ & Hmid & _).
    pose proof Hq' as (Hd' & _). split_and!.
    + exists (pre ++ mid ++ mid2), [], [], post, bx. split_and!.
      * by rewrite <- !app_assoc.
      * eapply replay_app; [exact Hpre|]. by eapply replay_app.
      * done.
      * done.
      * right. exists bx, bx. rewrite Hmir. split_and!; [done|apply replay_nil|done|done].
      * rewrite Herr. intros _ He. by destruct (Hok He) as [-> _].
    + unfold side_room in *. by rewrite Hlen.
    + intros _ ->. by inversion Hpost; subst.
  - destruct (drained_inv b0 pre mid mid2 post bd bm bx b s (Err e) s' n Hpre Hq Hr2 Hx Hpost Hok Hroom Hsn) as (? & ? & _).
    by split_and!.
Qed.

(** The parts of the history of a sidecar that is not disposed. *)
Lemma side_live b0 all b s :
  side_inv b0 all b s → disposed (flags s) = false →
  ∃ pre mid mid2 post bd bm bx, all = pre ++ mid ++ mid2 ++ post ∧ replay R b0 pre bd ∧
    queue_inv mid bd bm s ∧ replay R bm mid2 bx ∧ repr (mirror s) bx ∧ replay R bx post b ∧
    (errored (flags s) = false → post = [] ∧ (log ≠ None ∨ snapshot_dirty (flags s) = false → mid2 = [])).
Proof.
  intros (pre & mid & mid2 & post & bd & Hall & Hpre & Hd & Hrest & Hlive & Hok) Hdis.
  destruct Hlive as [Hl|(bm & bx & Hq & Hr2 & Hx & Hpost)]; [by rewrite Hl in Hdis|].
  exists pre, mid, mid2, post, bd, bm, bx. split_and!; try done. intros He. by apply Hok.
Qed.

Notation flush_ := (flush kind key kv log).
Notation snapshot_ := (snapshot kind key kv log).

Lemma flush_inv b0 all b s n :
  side_inv b0 all b s → side_room n s →
  total flush_ s (λ r s', side_inv b0 all b s' ∧ side_room n s' ∧
    (r = Ok tt → disposed (flags s) = false → durable (store s') b)).
Proof.
  intros Hi Hroom. unfold flush. eapply total_step; [done|].
  destruct (disposed (flags s)) eqn:Hdis; [by split_and!|].
  destruct (errored (flags s)) eqn:Herr; [by split_and!|].
  destruct (side_live b0 all b s Hi Hdis) as (pre & mid & mid2 & post & bd & bm & bx & -> & Hpre & Hq & Hr2 & Hx & Hpost & Hok).
  destruct (Hok Herr) as [-> Hm2].
  set (writes := (match log with None => _ | Some _ => _ end) || _). destruct writes eqn:Hw; apply total_bind.
  - eapply total_conseq; [by apply (write_snapshot_spec mid bd bm bx s n)|]. intros r s' Hsn.
    destruct (snapped_inv b0 pre mid mid2 [] bd bm bx b s r s' n Hpre Hq Hr2 Hx Hpost Hok Hroom Hsn) as (Hi' & Hroom' & Hd).
    destruct r as [[]|e]; [split_and!; [done|done|intros _ _; by apply Hd]|]. apply total_bind.
    eapply total_conseq; [by apply (record_inv "snapshot" e _ _ _ _ n Hi')|]. intros [] s2 [Hi2 Hroom2]. by split_and!.
  - assert (mid2 = []) as ->.
    { apply Hm2. destruct log; [by left|right]. by apply orb_false_iff in Hw as [Hw _]. }
    apply total_mrbind. eapply total_conseq; [by apply (drain_spec mid bd bm s n)|]. intros r s' Hdr.
    destruct (drained_inv b0 pre mid [] [] bd bm bx b s r s' n Hpre Hq Hr2 Hx Hpost Hok Hroom Hdr) as (Hi' & Hroom' & Hd).
    destruct r as [[]|e].
    + unfold total, bind, set_ready, report, set_status, set_error, set_facts, modify, gets. simpl.
      specialize (Hd eq_refl eq_refl eq_refl). split_and!; [|done|done].
      destruct Hi' as (p & m & m2 & q & bd2 & H1 & H2 & H3 & H4 & H5 & H6). exists p, m, m2, q, bd2. by split_and!.
    + apply total_bind. eapply total_conseq; [by apply (record_inv "change" e _ _ _ _ n Hi')|].
      intros [] s2 [Hi2 Hroom2]. by split_and!.
Qed.

Lemma snapshot_inv b0 all b s n :
  side_inv b0 all b s → side_room n s →
  total snapshot_ s (λ r s', side_inv b0 all b s' ∧ side_room n s').
Proof.
  intros Hi Hroom. unfold snapshot. eapply total_step; [done|].
  destruct (disposed (flags s)) eqn:Hdis; [by split_and!|].
  destruct (side_live b0 all b s Hi Hdis) as (pre & mid & mid2 & post & bd & bm & bx & -> & Hpre & Hq & Hr2 & Hx & Hpost & Hok).
  apply total_bind. eapply total_conseq; [by apply (write_snapshot_spec mid bd bm bx s n)|]. intros r s' Hsn.
  destruct (snapped_inv b0 pre mid mid2 post bd bm bx b s r s' n Hpre Hq Hr2 Hx Hpost Hok Hroom Hsn) as (Hi' & Hroom' & _).
  destruct r as [[]|e]; [by split_and!|]. apply total_bind.
  eapply total_conseq; [by apply (record_inv "snapshot" e _ _ _ _ n Hi')|]. intros [] s2 [Hi2 Hroom2]. by split_and!.
Qed.

Lemma dispose_inv b0 all b s n :
  side_inv b0 all b s → side_room n s →
  total (dispose (Sn := list X) kind) s (λ _ s', side_inv b0 all b s' ∧ side_room n s').
Proof.
  intros (pre & mid & mid2 & post & bd & Hall & Hpre & Hd & Hrest & _ & _) Hroom.
  unfold total, dispose, bind, set_flags, set_pending, set_ready, report, set_status, set_facts, modify, gets. simpl.
  split; [|unfold side_room in *; simpl; lia].
  exists pre, mid, mid2, post, bd. split_and!; simpl; try done. by left.
Qed.
Lemma ignored_inv b0 all b c b' s :
  side_inv b0 all b s → R b c b' → disposed (flags s) = true ∨ errored (flags s) = true →
  side_inv b0 (all ++ [c]) b' s.
Proof.
  intros (pre & mid & mid2 & post & bd & -> & Hpre & Hd & Hrest & Hlive & Hok) Hc Hoff.
  exists pre, mid, mid2, (post ++ [c]), bd. split_and!; [by rewrite <- !app_assoc|done|done| | |].
  - rewrite !app_assoc. eapply replay_app; [|by apply replay_one]. by rewrite <- !app_assoc.
  - destruct Hlive as [Hl|(bm & bx & Hq & Hr2 & Hx & Hpost)]; [by left|right]. exists bm, bx.
    split_and!; try done. eapply replay_app; [done|by apply replay_one].
  - intros Hdis Herr. by destruct Hoff; congruence.
Qed.

(** A change that could not be recorded is an error; the mirror has it. *)
Lemma failed_change_inv phase e b0 pre mid mid2 bd bm bx c b' s s' n :
  replay R b0 pre bd → queue_inv mid bd bm s → replay R bm mid2 bx → R bx c b' → repr (mirror s') b' →
  store s' = store s → pending_changes s' = pending_changes s → cursor_cell (counters s') = cursor_cell (counters s) →
  side_room (S n) s →
  total (record_persistence_error kind phase e) s'
    (λ _ s'', side_inv b0 (pre ++ mid ++ mid2 ++ [c]) b' s'' ∧ side_room n s'').
Proof.
  intros Hpre Hq Hr2 Hc Hx Hst Hp' Hcell Hroom.
  destruct (record_runs phase e s') as (s2 & Hr & (Hst2 & Hp2 & Hc2 & Hm2) & _ & Herr). unfold total. rewrite Hr.
  pose proof Hq as (Hd & Hmid & _). split.
  - exists pre, mid, (mid2 ++ [c]), [], bd. rewrite app_nil_r, Hst2, Hst. split_and!; [done|done|done| | |].
    + eapply replay_app; [exact Hmid|]. eapply replay_app; [exact Hr2|]. by apply replay_one.
    + right. exists bm, b'. split_and!.
      * eapply queue_inv_ext; [..|exact Hq]; congruence.
      * eapply replay_app; [exact Hr2|by apply replay_one].
      * by rewrite Hm2.
      * apply replay_nil.
    + by rewrite Herr.
  - unfold side_room in *. rewrite Hst2, Hst, Hp2, Hp'. lia.
Qed.

Lemma change_frame_encodes c v f :
  to_value c = Ok v → reactive_collection_change_frame kind v = Ok f → encodes c f.
Proof.
  intros Hv Hf. unfold reactive_collection_change_frame in Hf.
  destruct (assert_reactive_collection_change_frame _) as [[]|] eqn:Ha; [|done]. by injection Hf as <-.
Qed.

Lemma queue_frame_dirty f s :
  log = None →
  queue_frame log f s = Ret tt (mkSidecar (store s) (mirror s) (pending_changes s) (counters s)
    (mkFlags true (cadence_snapshot_due (flags s)) (changes_since_snapshot (flags s)) (disposed (flags s))
       (errored (flags s))) (facts s)).
Proof. intros Hlog. unfold queue_frame. by rewrite Hlog. Qed.

Lemma queue_frame_pends l f s :
  log = Some l →
  queue_frame log f s = Ret tt (mkSidecar (store s) (mirror s) (pending_changes s ++ [f]) (counters s)
    (flags s) (facts s)).
Proof. intros Hlog. unfold queue_frame. by rewrite Hlog. Qed.

Notation on_change_ := (on_change kind log every apply).

Lemma on_change_inv b0 all b c b' s n :
  side_inv b0 all b s → R b c b' → side_room (S n) s →
  total (on_change_ c) s (λ _ s', side_inv b0 (all ++ [c]) b' s' ∧ side_room n s').
Proof.
  intros Hi Hc Hroom. assert (side_room n s) as Hroom' by (unfold side_room in *; lia).
  unfold on_change. eapply total_step; [done|].
  destruct (disposed (flags s)) eqn:Hdis; [split; [apply (ignored_inv b0 all b); by auto|done]|].
  destruct (errored (flags s)) eqn:Herr; [split; [apply (ignored_inv b0 all b); by auto|done]|]. simpl.
  destruct (side_live b0 all b s Hi Hdis) as (pre & mid & mid2 & post & bd & bm & bx & -> & Hpre & Hq & Hr2 & Hx & Hpost & Hok).
  destruct (Hok Herr) as [-> Hm2]. inversion Hpost; subst. rewrite app_nil_r, <- !app_assoc. clear Hpost Hok.
  destruct (persisted_apply (mirror s) b c b' Hx Hc) as (sn' & Happ & Hsn').
  eapply total_step; [done|]. eapply total_step; [done|].
  apply total_bind, total_mrbind. unfold total at 1, on_mirror, zoom. simpl. rewrite Happ. apply total_mrbind.
  unfold encode_change, ret at 1, total at 1.
  destruct (to_value c) as [v|e] eqn:Hv; simpl.
  2: { eapply failed_change_inv; try done. }
  apply total_mrbind. unfold ret at 1, total at 1.
  destruct (reactive_collection_change_frame kind v) as [f|e] eqn:Hf.
  2: { eapply failed_change_inv; try done. }
  pose proof (change_frame_encodes c v f Hv Hf) as He. pose proof Hq as (Hd & Hmid & Hen & Hend & Hz & Hnone).
  assert (log = None ∨ ∃ l, log = Some l) as [Hlog|[l Hlog]] by (destruct log; eauto).
  - destruct (Hnone Hlog) as [-> Hpend].
    eapply total_step; [by apply queue_frame_dirty|].
    unfold total, bind, ret, set_error, set_facts, set_flags, modify, gets. simpl. split.
    + exists pre, [], (mid2 ++ [c]), [], bd. rewrite app_nil_r. simpl. split_and!; [done|done|done| | |].
      * inversion Hmid; subst. eapply replay_app; [exact Hr2|by apply replay_one].
      * right. exists bm, b'. split_and!; [by split_and!| |done|apply replay_nil].
        eapply replay_app; [exact Hr2|by apply replay_one].
      * intros _ _. split; [done|]. by intros [?|?].
    + done.
  - assert (log ≠ None) as Hsome by congruence. assert (mid2 = []) as -> by (apply Hm2; by left).
    inversion Hr2; subst. eapply total_step; [by apply (queue_frame_pends l)|].
    unfold total, bind, ret, set_error, set_facts, set_flags, modify, gets. simpl. split.
    + exists pre, (mid ++ [c]), [], [], bd. rewrite app_nil_r. simpl. split_and!; [done|done|done| | |].
      * eapply replay_app; [exact Hmid|by apply replay_one].
      * right. exists b', b'. split_and!; [|apply replay_nil|done|apply replay_nil].
        split_and!; simpl; [done| | |done|done|done].
        -- eapply replay_app; [exact Hmid|by apply replay_one].
        -- apply Forall2_app; [done|]. by apply Forall2_cons.
      * done.
    + unfold side_room in *. simpl. rewrite length_app. simpl. lia.
Qed.
(** The changes among some events. *)
Definition changes_of (evs : list (SidecarEvent (C := C))) : list C :=
  omap (λ ev, match ev with EvChange c => Some c | _ => None end) evs.

Notation run_ := (run_events kind key kv log every apply).

Lemma run_events_inv evs : ∀ b0 all b b' s n,
  side_inv b0 all b s → replay R b (changes_of evs) b' → side_room (length (changes_of evs) + n) s →
  total (run_ evs) s (λ _ s', side_inv b0 (all ++ changes_of evs) b' s' ∧ side_room n s').
Proof.
  induction evs as [|ev evs IH]; intros b0 all b b' s n Hi Hr Hroom.
  - inversion Hr; subst. split; [by rewrite app_nil_r|done].
  - unfold run_events in *. cbn [for_each]. apply total_bind. destruct ev as [c| | |].
    + change (changes_of (EvChange c :: evs)) with (c :: changes_of evs) in *.
      inversion Hr as [|? ? b1 ? ? Hc Hrest]; subst.
      eapply total_conseq; [apply (on_change_inv b0 all b c b1 s (length (changes_of evs) + n) Hi Hc Hroom)|].
      intros [] s1 [Hi1 Hroom1]. rewrite cons_middle, app_assoc. by eapply IH.
    + apply total_bind. eapply total_conseq; [by apply (flush_inv b0 all b s _ Hi Hroom)|].
      intros r s1 (Hi1 & Hroom1 & _). apply total_ret. by eapply IH.
    + apply total_bind. eapply total_conseq; [by apply (snapshot_inv b0 all b s _ Hi Hroom)|].
      intros r s1 (Hi1 & Hroom1). apply total_ret. by eapply IH.
    + simpl. eapply total_step; [done|]. destruct (disposed (flags s)); [by eapply IH|].
      eapply total_conseq; [by apply (dispose_inv b0 all b s _ Hi Hroom)|].
      intros [] s1 (Hi1 & Hroom1). by eapply IH.
Qed.

(** *** Attaching *)

Lemma attach_inv on_attach st sn cursor bd b n :
  durable st bd → at_end cursor st → (∃ z, cursor_value cursor = Ok z) → repr sn b →
  on_attach = true ∨ bd = b → roomy n st →
  total (attach kind key kv log on_attach) (initial_sidecar kind st sn cursor)
    (λ _ s, (errored (flags s) = false →
               side_inv b [] b s ∧ (on_attach = true → is_Some (sview (store s)))) ∧
             disposed (flags s) = false ∧ side_room n s).
Proof.
  intros Hd Hend Hz Hsn Hon Hroom. set (s0 := initial_sidecar kind st sn cursor).
  assert (queue_inv [] bd bd s0) as Hq by (split_and!; done || by apply replay_nil).
  assert (side_room n s0) as Hroom0 by (unfold side_room, roomy in *; simpl; lia).
  unfold attach. destruct on_attach.
  - apply total_bind. eapply total_conseq; [by apply (write_snapshot_spec [] bd bd b s0 n)|].
    intros r s1 Hsn1. destruct r as [[]|e].
    + destruct Hsn1 as (Hq1 & Hfound & Hmir & Hdis & Herr & _ & Hlen). split_and!.
      * intros _. pose proof Hq1 as (Hd1 & _). split; [|done]. exists [], [], [], [], b.
        split_and!; try done; try apply replay_nil. right. exists b, b. rewrite Hmir.
        split_and!; try done; apply replay_nil.
      * by rewrite Hdis.
      * unfold side_room in *. by rewrite Hlen.
    + destruct Hsn1 as (m1 & m2 & bd' & _ & _ & _ & (_ & Hfl & Hlen) & _).
      destruct (record_runs "snapshot" e s1) as (s2 & Hr & (Hst & Hp2 & _) & Hdis & Herr). unfold total. rewrite Hr.
      split_and!; [by rewrite Herr|by rewrite Hdis, Hfl|]. unfold side_room in *. by rewrite Hst, Hp2, Hlen.
  - destruct Hon as [Hon| ->]; [done|]. unfold total, bind, set_ready, report, set_status, set_facts, modify, gets. simpl.
    split_and!; [|done|done]. intros _. split; [|done]. exists [], [], [], [], b.
    split_and!; try done; try apply replay_nil. right. exists b, b. split_and!; try done; apply replay_nil.
Qed.
(** *** The theorems *)

(** A sidecar attached without error to stores that hold [bd], with a collection
    that holds [b0]: the write on attach makes [b0] durable, and without it the
    stores must hold it already. *)
Definition attached (options : PersistOptions St) (sn : list X) (cursor : option N) (st : St) (bd b0 : B) s : Prop :=
  resolve_snapshot_key options = Ok key ∧ po_snapshot_store options = kv ∧ po_change_log options = log ∧
  po_snapshot_every_changes options = every ∧
  durable st bd ∧ at_end cursor st ∧ (∃ z, cursor_value cursor = Ok z) ∧ repr sn b0 ∧
  (po_snapshot_on_attach options = true ∨ bd = b0) ∧
  persist_collection kind sn options cursor st = Ret (Ok s) (store s) ∧ errored (flags s) = false.

Lemma attached_inv options sn cursor st bd b0 s n :
  attached options sn cursor st bd b0 s → roomy n st →
  side_inv b0 [] b0 s ∧ side_room n s ∧ (po_snapshot_on_attach options = true → is_Some (sview (store s))).
Proof.
  intros (Hkey & Hkv & Hlog & Hev & Hd & Hend & Hz & Hsn & Hon & Hper & Herr) Hroom.
  unfold persist_collection in Hper. rewrite Hkey in Hper. unfold mrbind at 1, bind, ret at 1 in Hper.
  destruct (bool_decide _); [done|]. destruct (po_graph options) as [[]|]; [|done..].
  pose proof (attach_inv (po_snapshot_on_attach options) st sn cursor bd b0 n Hd Hend Hz Hsn Hon Hroom) as Ha.
  rewrite Hkv, Hlog in Hper. unfold total in Ha. destruct (attach _ _ _ _ _ _) as [[] s1|p s1|]; [|done..].
  injection Hper as -> _. destruct Ha as (Hi & _ & Hroom'). destruct (Hi Herr). by split_and!.
Qed.

Lemma sidecar_run options sn cursor st bd b0 s evs b :
  attached options sn cursor st bd b0 s → replay R b0 (changes_of evs) b →
  roomy (length (changes_of evs)) st →
  total (run_ evs) s (λ _ s', side_inv b0 (changes_of evs) b s' ∧ side_room 0 s').
Proof.
  intros Ha Hr Hroom. destruct (attached_inv _ _ _ _ _ _ _ _ Ha Hroom) as (Hi & Hroom' & _).
  apply (run_events_inv evs b0 [] b0 b s 0 Hi Hr). by rewrite Nat.add_0_r.
Qed.

(** Whenever the process stops, loading gives the content after a prefix of the
    changes. *)
Lemma sidecar_durable options sn cursor st bd b0 s evs b l1 l2 lopts :
  attached options sn cursor st bd b0 s → replay R b0 (changes_of evs) b →
  roomy (length (changes_of evs)) st →
  resolve_collection_snapshot_key lopts = Ok key → lo_change_log lopts = log →
  ∃ s' pre post bl rs, run_ evs s = Ret tt s' ∧
    changes_of evs = pre ++ post ∧ replay R b0 pre bl ∧ replay R bl post b ∧
    load_state kind fold check l1 l2 kv lopts (store s') = Ret (Ok rs) (store s') ∧ repr (rs_state rs) bl.
Proof.
  intros Ha Hr Hroom Hkey Hlog. pose proof (sidecar_run _ _ _ _ _ _ _ _ _ Ha Hr Hroom) as Hrun.
  unfold total in Hrun. destruct (run_ evs s) as [[] s'|p s'|]; [|done..].
  destruct Hrun as ((pre & mid & mid2 & post & bl & Hall & Hpre & Hd & Hrest & _) & Hroom').
  destruct (load_durable lopts l1 l2 (store s') bl 0 Hkey Hlog Hd) as (rs & Hload & Hrs & _).
  { unfold roomy, side_room in *. lia. }
  exists s', pre, (mid ++ mid2 ++ post), bl, rs. by split_and!.
Qed.

(** After a flush that succeeds, loading gives the content itself, and a cursor
    from which a sidecar can go on. *)
Lemma flush_durable options sn cursor st bd b0 s evs b l1 l2 lopts s1 s2 :
  attached options sn cursor st bd b0 s → replay R b0 (changes_of evs) b →
  roomy (length (changes_of evs)) st →
  resolve_collection_snapshot_key lopts = Ok key → lo_change_log lopts = log →
  run_ evs s = Ret tt s1 → disposed (flags s1) = false → flush_ s1 = Ret (Ok tt) s2 →
  ∃ rs, load_state kind fold check l1 l2 kv lopts (store s2) = Ret (Ok rs) (store s2) ∧
    repr (rs_state rs) b ∧ rs_kind rs = kind ∧ at_end (rs_cursor rs) (store s2) ∧ durable (store s2) b ∧
    (∃ z, cursor_value (rs_cursor rs) = Ok z) ∧ roomy 0 (store s2).
Proof.
  intros Ha Hr Hroom Hkey Hlog Hrun Hdis Hflush. pose proof (sidecar_run _ _ _ _ _ _ _ _ _ Ha Hr Hroom) as Ht.
  unfold total in Ht. rewrite Hrun in Ht. destruct Ht as [Hi Hroom1].
  pose proof (flush_inv _ _ _ _ _ Hi Hroom1) as Hf. unfold total in Hf. rewrite Hflush in Hf.
  destruct Hf as (_ & Hroom2 & Hd). specialize (Hd eq_refl Hdis).
  assert (roomy 0 (store s2)) as Hroom3 by (unfold roomy, side_room in *; lia).
  destruct (load_durable lopts l1 l2 (store s2) b 0 Hkey Hlog Hd Hroom3) as (rs & ? & ? & ? & ? & ? & _).
  exists rs. by split_and!.
Qed.
End Durable.

(** ** A sidecar that wrote a snapshot on attach

    Its stores hold a snapshot from then on: the laws of the stores restrict to the
    states that hold one. *)

Section Found.
Context {SJ : SerdeJson} {St B X C : Type} {HS : Serde (list X)} {HC : Serde C}.
Context (kind : ReactiveCollectionKind) (key : string)
  (kv : KvStorageTier St ReactiveCollectionSnapshotFrame)
  (log : option (AppendLogTier St ReactiveCollectionChangeFrame))
  (sok : St → Prop) (sview : St → option ReactiveCollectionSnapshotFrame)
  (lview : St → list ReactiveCollectionChangeFrame)
  `{Hstores : !StoresSpec key kv log sok sview lview}.
Context (R : B → C → B → Prop) (repr : list X → B → Prop)
  (apply : C → M (list X) (StorageResult unit))
  (fold : list X → ReactiveCollectionChangeFrame → StorageResult (list X))
  (check : list X → string → StorageResult unit)
  `{Hp : !Persisted R repr apply fold check}.
Context (b_empty : B) (Hempty : repr [] b_empty) (every : option N).

Definition found_ok (st : St) : Prop := sok st ∧ is_Some (sview st).

Lemma stores_found : StoresSpec key kv log found_ok sview lview.
Proof.
  split.
  - intros st [Hok _]. by apply stores_get.
  - intros frame st [Hok Hs]. destruct (stores_set frame st Hok) as (r & st' & Hset & Hok' & Hl & Hv).
    exists r, st'. split_and!; [done|split; [done|]|done|done]. rewrite Hv. by destruct r.
  - intros l frame st [Hok Hs] Hlog Hlt.
    destruct (stores_append l frame st Hok Hlog Hlt) as (r & st' & Ha & Hok' & Hv & Hres).
    exists r, st'. split_and!; [done|split; [done|]|done|done]. by rewrite Hv.
  - intros l after st [Hok _] Hlog. by apply stores_read.
Qed.

Lemma durable_found st b :
  durable kind log sok sview lview R repr b_empty st b → is_Some (sview st) →
  durable kind log found_ok sview lview R repr b_empty st b.
Proof. intros [Hok Hd] Hs. by split. Qed.

Lemma side_inv_found b0 all b (s : Sidecar St (list X)) :
  side_inv kind log sok sview lview R repr b_empty b0 all b s → is_Some (sview (store s)) →
  side_inv kind log found_ok sview lview R repr b_empty b0 all b s.
Proof.
  intros (pre & mid & mid2 & post & bd & H1 & H2 & H3 & H4 & H5 & H6) Hs.
  exists pre, mid, mid2, post, bd. split_and!; try done; [by apply durable_found|].
  destruct H5 as [H5|(bm & bx & (Hd & Hq) & Hx)]; [by left|right]. exists bm, bx. split; [|done].
  split; [by apply durable_found|done].
Qed.

(** [flush_durable], with the snapshot found. *)
Lemma flush_durable_found options sn cursor st bd b0 s evs b l1 l2 lopts s1 s2 :
  attached kind key kv log sok sview lview R repr b_empty every options sn cursor st bd b0 s →
  po_snapshot_on_attach options = true → replay R b0 (changes_of evs) b →
  roomy lview (length (changes_of evs)) st →
  resolve_collection_snapshot_key lopts = Ok key → lo_change_log lopts = log →
  run_events kind key kv log every apply evs s = Ret tt s1 → disposed (flags s1) = false →
  flush kind key kv log s1 = Ret (Ok tt) s2 →
  ∃ rs, load_state kind fold check l1 l2 kv lopts (store s2) = Ret (Ok rs) (store s2) ∧
    repr (rs_state rs) b ∧ rs_kind rs = kind ∧ rs_snapshot_found rs = true ∧
    durable kind log sok sview lview R repr b_empty (store s2) b ∧
    at_end log lview (rs_cursor rs) (store s2) ∧ (∃ z, cursor_value (rs_cursor rs) = Ok z) ∧
    roomy lview 0 (store s2).
Proof.
  intros Ha Hon Hr Hroom Hkey Hlog Hrun Hdis Hflush.
  destruct (attached_inv kind key kv log sok sview lview R repr apply fold check b_empty every
              _ _ _ _ _ _ _ _ Ha Hroom) as (Hi & Hroom' & Hfound). specialize (Hfound Hon).
  apply side_inv_found in Hi; [|done]. pose proof stores_found as Hstores'.
  pose proof (run_events_inv kind key kv log found_ok sview lview R repr apply fold check b_empty every
                evs b0 [] b0 b s 0 Hi Hr) as Ht.
  rewrite Nat.add_0_r in Ht. specialize (Ht Hroom'). unfold total in Ht. rewrite Hrun in Ht. destruct Ht as [Hi1 Hroom1].
  pose proof (flush_inv kind key kv log found_ok sview lview R repr apply fold check b_empty _ _ _ _ _ Hi1 Hroom1) as Hf.
  unfold total in Hf. rewrite Hflush in Hf. destruct Hf as (_ & Hroom2 & Hd). specialize (Hd eq_refl Hdis).
  destruct (load_durable kind key kv log found_ok sview lview R repr apply fold check b_empty Hempty
              lopts l1 l2 (store s2) b 0 Hkey Hlog Hd) as (rs & Hload & Hrs & Hk & Hend & Hz & Hsome).
  { unfold roomy, side_room in *. lia. }
  destruct Hd as [[Hok Hv] Hd].
  exists rs. split_and!; try done; [by apply Hsome|]. unfold roomy, side_room in *. lia.
Qed.
End Found.
