(* ===== verification/CollectionPersisted.v ===== *)
(** * The four kinds of collection can be persisted

    Instances of [Persisted] for the list, the log, the map and the index: the
    sidecar's mirror and the loader's fold both implement the meaning of the
    changes ([CollectionFacts]).  A map is mirrored in insertion order, so the
    mirror is a permutation of the rows.  User types satisfy [SerdeRound] (what is
    written is read back) and [SerdeKey] (every value has a JSON identity, and
    distinct values have distinct ones). *)

From Stdlib Require Import Ascii String Sorted Permutation.
From stdpp Require Import base gmap list option numbers strings pretty.
From S2P Require Import Prelude.
From S2P Require Import BTree.
From S2P Require Import Text.
From S2P Require Import Json.
From S2P Require Import Collections.
From S2P Require Import CollectionFacts.
From S2P Require Import Storage.
From S2P Require Import AppendLog.
From S2P Require Import CollectionStorage.
From S2P Require Import CollectionSidecar.
From S2P Require Import SidecarFacts.

Local Open Scope rx_scope.

(** ** User types *)

Class SerdeRound (T : Type) `{!Serde T} : Prop :=
  serde_round (x : T) v : to_value x = Ok v → from_value v = Ok x.

Class SerdeKey {SJ : SerdeJson} (T : Type) {HS : Serde T} : Prop := {
  identity_total je (x : T) : ∃ b, strict_json_identity je x = Ok b;
  identity_inj je (x y : T) b : strict_json_identity je x = Ok b → strict_json_identity je y = Ok b → x = y
}.

Section Identities.
Context {SJ : SerdeJson} {K : Type} {HK : Serde K} `{!SerdeKey K} `{!EqDecision K}.
Context (je : JsonCodecError → StorageError).

Lemma strict_json_equal_refl (x : K) : strict_json_equal je x x = Ok true.
Proof.
  destruct (identity_total je x) as [b Hb]. unfold strict_json_identity in Hb. unfold strict_json_equal.
  destruct (map_err _ (to_value x)) as [v|]; simpl in *; [|done]. rewrite Hb. simpl. by rewrite bool_decide_eq_true_2.
Qed.

(** The search by identity is the search by key. *)
Lemma find_identity_spec {X} (key : X → K) k l target i :
  strict_json_identity je k = Ok target →
  find_identity je key l target i = Ok ((λ j, i + j) <$> position (λ x, bool_decide (key x = k)) l).
Proof.
  intros Hk. revert i. induction l as [|x l IH]; intros i; simpl; [done|].
  destruct (identity_total je (key x)) as [b Hb]. rewrite Hb. simpl.
  destruct (decide (b = target)) as [->|Hne].
  - rewrite bool_decide_eq_true_2 by done. rewrite bool_decide_eq_true_2 by by eapply identity_inj.
    simpl. by rewrite Nat.add_0_r.
  - rewrite bool_decide_eq_false_2 by done. rewrite bool_decide_eq_false_2 by (intros Hxk; rewrite Hxk in Hb; congruence).
    rewrite IH. destruct (position _ l); simpl; [|done]. do 2 f_equal. lia.
Qed.

Lemma find_key_spec {X} (key : X → K) k l :
  (let? target := strict_json_identity je k in find_identity je key l target 0)
  = Ok (position (λ x, bool_decide (key x = k)) l).
Proof.
  destruct (identity_total je k) as [b Hb]. rewrite Hb. simpl. rewrite (find_identity_spec key k l b 0 Hb).
  by destruct (position _ l).
Qed.

(** Distinct keys pass the uniqueness checks. *)
Lemma unique_spec {X} (key : X → K) (l : list X) message seen i :
  NoDup (key <$> l) → (∀ x, x ∈ l → ∀ b, strict_json_identity je (key x) = Ok b → b ∉ seen) →
  unique_identities je key l message i seen = Ok tt.
Proof.
  revert seen i. induction l as [|x l IH]; intros seen i Hnd Hseen; [done|]. simpl.
  destruct (identity_total je (key x)) as [b Hb]. rewrite Hb. simpl.
  assert (b ∉ seen) as Hn by (apply (Hseen x); [by left|done]).
  destruct (existsb _ seen) eqn:He.
  { exfalso. apply existsb_exists in He as (b' & Hin & Heq%bool_decide_eq_true). subst b'.
    apply Hn. by apply list_elem_of_In. }
  apply NoDup_cons in Hnd as [Hx Hnd]. apply IH; [done|]. intros y Hy b' Hb'. rewrite not_elem_of_app. split.
  - apply (Hseen y); [by right|done].
  - rewrite list_elem_of_singleton. intros ->. apply Hx. rewrite (identity_inj je (key x) (key y) b); [|done..].
    by apply (list_elem_of_fmap_2 key).
Qed.
End Identities.

(** ** Positions *)

Lemma position_split {A} (p : A → bool) l i :
  position p l = Some i → ∃ x, l = take i l ++ x :: drop (S i) l ∧ p x = true ∧ l !! i = Some x.
Proof.
  intros Hp. destruct (position_Some _ _ _ Hp) as (x & Hx & Hpx). exists x. split; [|done].
  symmetry. by apply take_drop_middle.
Qed.

Lemma delete_middle {A} (l : list A) i : delete i l = take i l ++ drop (S i) l.
Proof. apply delete_take_drop. Qed.

Lemma insert_middle {A} (l : list A) i x : i < length l → <[i := x]> l = take i l ++ x :: drop (S i) l.
Proof. intros Hi. by apply insert_take_drop. Qed.

Lemma lookup_delete_perm {A} (l : list A) i x : l !! i = Some x → l ≡ₚ x :: delete i l.
Proof.
  intros Hi. rewrite delete_middle. rewrite <- (take_drop_middle l i x Hi) at 1.
  by rewrite Permutation_middle.
Qed.

(** Deleting positions from the last to the first. *)
Lemma delete_positions {A} (l : list A) (idx : list nat) (xs : list A) :
  StronglySorted (λ a b, b < a) idx → Forall2 (λ i x, l !! i = Some x) idx xs →
  l ≡ₚ xs ++ foldl (λ l i, delete i l) l idx.
Proof.
  intros Hs. revert l xs. induction Hs as [|i idx Hs IH Hall]; intros l xs Hf.
  - by apply Forall2_nil_inv_l in Hf as ->.
  - apply Forall2_cons_inv_l in Hf as (x & xs' & Hx & Hf & ->). simpl.
    rewrite (lookup_delete_perm l i x Hx) at 1. constructor. apply IH.
    clear -Hf Hall. induction Hf as [|j y idx xs' Hy Hf IH]; [constructor|].
    apply Forall_cons in Hall as [Hj Hall]. constructor; [|by apply IH]. by rewrite list_lookup_delete_lt.
Qed.

Lemma lookup_all {A} (l : list A) idx :
  Forall (λ i, is_Some (l !! i)) idx → Forall2 (λ i x, l !! i = Some x) idx (omap (l !!.) idx).
Proof.
  induction 1 as [|i idx [x Hx] Hf IH]; simpl; [constructor|]. rewrite Hx. by constructor.
Qed.

Lemma lookup_omap {A} (l : list A) idx xs :
  Forall2 (λ i x, l !! i = Some x) idx xs → xs = omap (l !!.) idx ∧ Forall (λ i, is_Some (l !! i)) idx.
Proof.
  induction 1 as [|i x idx xs Hx Hf [-> Hall]]; simpl; [done|]. rewrite Hx. split; [done|]. by constructor.
Qed.

(** A decreasing list of distinct positions. *)
Lemma sorted_strict (idx : list nat) :
  StronglySorted (cmp_le (λ a b, Nat.compare b a)) idx → NoDup idx → StronglySorted (λ a b, b < a) idx.
Proof.
  induction 1 as [|i idx Hs IH Hall]; intros Hnd; [constructor|]. apply NoDup_cons in Hnd as [Hi Hnd].
  constructor; [by apply IH|]. rewrite Forall_forall in *. intros j Hj. specialize (Hall j Hj).
  unfold cmp_le in Hall. rewrite Nat.compare_gt_iff in Hall. assert (j ≠ i) by (by intros ->). lia.
Qed.

(** ** Rows *)

Section Rows.
Context {K V : Type} `{!OrdKey K}.
Implicit Types m : BTree K V.

Lemma bt_remove_perm k v m : bt_get k m = Some v → m ≡ₚ (k, v) :: bt_remove k m.
Proof.
  induction m as [|[k' v'] m IH]; simpl; [done|]. case_decide as Hk; [by intros [= ->]; subst|].
  intros Hg. rewrite (IH Hg) at 1. by rewrite Permutation_swap.
Qed.

Lemma bt_insert_perm k v m : bt_wf m → bt_insert k v m ≡ₚ (k, v) :: bt_remove k m.
Proof.
  induction 1 as [|[k' v'] m Hm IH Hall]; simpl; [done|]. destruct (key_cmp k k') eqn:Hc.
  - apply key_cmp_eq in Hc as <-. by rewrite decide_True.
  - rewrite decide_False; [|by intros ->; rewrite key_cmp_refl in Hc].
    rewrite bt_remove_absent; [done|]. apply bt_get_none. eapply Forall_impl; [exact Hall|].
    intros [k2 v2] H2. by eapply key_cmp_trans.
  - rewrite decide_False; [|by intros ->; rewrite key_cmp_refl in Hc]. rewrite IH. by rewrite Permutation_swap.
Qed.
End Rows.

(** ** Lists and logs *)

Section Lists.
Context {SJ : SerdeJson} {T : Type} {HT : Serde T} {HS : Serde (list T)} `{!SerdeRound (list T)}.

#[export] Instance list_persisted {HC : Serde (ListChange T)} `{!SerdeKey T, !SerdeRound (ListChange T)} :
  Persisted list_change (=) apply_list_snapshot_change fold_list_change no_check.
Proof.
  split; [| |done|apply serde_round].
  - intros sn b c b' -> Hc. unfold apply_list_snapshot_change. exists b'. split; [|done].
    destruct Hc as [b v|b vs|b i v Hi|b i vs Hi|b i v Hi|b n Hn|b]; unfold bind, gets; simpl.
    + done.
    + done.
    + by rewrite (proj2 (Nat.ltb_ge _ _)).
    + by rewrite (proj2 (Nat.ltb_ge _ _)).
    + rewrite Hi. unfold mrbind, bind, modify, ret. by rewrite strict_json_equal_refl.
    + by rewrite (proj2 (Nat.ltb_ge _ _)).
    + by rewrite Nat.eqb_refl.
  - intros sn b c b' frame -> Hc Hv. unfold fold_list_change. rewrite (serde_round _ _ Hv). exists b'. split; [|done].
    simpl. destruct Hc as [b v|b vs|b i v Hi|b i vs Hi|b i v Hi|b n Hn|b].
    + done.
    + done.
    + by rewrite (proj2 (Nat.ltb_ge _ _)).
    + by rewrite (proj2 (Nat.ltb_ge _ _)).
    + rewrite Hi. by rewrite strict_json_equal_refl.
    + by rewrite (proj2 (Nat.ltb_ge _ _)).
    + by rewrite Nat.eqb_refl.
Qed.

#[export] Instance log_persisted {HC : Serde (LogChange T)} `{!SerdeRound (LogChange T)} :
  Persisted log_change (=) apply_log_snapshot_change fold_log_change no_check.
Proof.
  split; [| |done|apply serde_round].
  - intros sn b c b' -> Hc. unfold apply_log_snapshot_change. exists b'. split; [|done].
    destruct Hc as [b v|b vs|b n Hn|b]; unfold bind, gets; simpl; [done|done| |by rewrite Nat.eqb_refl].
    by rewrite (proj2 (Nat.ltb_ge _ _)).
  - intros sn b c b' frame -> Hc Hv. unfold fold_log_change. rewrite (serde_round _ _ Hv). exists b'. split; [|done].
    simpl. destruct Hc as [b v|b vs|b n Hn|b]; [done|done| |by rewrite Nat.eqb_refl].
    by rewrite (proj2 (Nat.ltb_ge _ _)).
Qed.
End Lists.

(** ** Maps *)

Section Maps.
Context {SJ : SerdeJson} {K V : Type} `{!OrdKey K} {HK : Serde K} {HV : Serde V}.
Context `{!SerdeKey K, !SerdeKey V}.

(** The mirror of a map holds its rows, in some order. *)
Definition map_repr (l : list (K * V)) (m : BTree K V) : Prop := bt_wf m ∧ l ≡ₚ m.

Lemma map_repr_nodup l m : map_repr l m → NoDup l.*1.
Proof. intros [Hwf Hp]. rewrite Hp. by apply bt_wf_nodup. Qed.

Lemma position_key {X} (key : X → K) k (l : list X) :
  position (λ x, bool_decide (key x = k)) l = None → k ∉ key <$> l.
Proof.
  intros Hp (x & -> & Hx)%list_elem_of_fmap. pose proof (position_None _ _ Hp x Hx) as Hn.
  simpl in Hn. by rewrite bool_decide_eq_true_2 in Hn.
Qed.

Lemma bt_get_listed k (m : BTree K V) : k ∉ m.*1 → bt_get k m = None.
Proof.
  intros Hk. destruct (bt_get k m) as [v|] eqn:Hg; [|done]. exfalso. apply Hk.
  apply bt_get_elem in Hg. by apply (list_elem_of_fmap_2' fst m (k, v)).
Qed.

(** The mirror with one key changed. *)
Definition mirror_set (l : list (K * V)) (k : K) (v : V) : list (K * V) :=
  match position (λ x, bool_decide (x.1 = k)) l with
  | Some i => <[i := (k, v)]> l
  | None => l ++ [(k, v)]
  end.

Lemma mirror_set_repr l m k v : map_repr l m → map_repr (mirror_set l k v) (bt_insert k v m).
Proof.
  intros [Hwf Hp]. split; [by apply bt_insert_wf|]. rewrite bt_insert_perm by done. unfold mirror_set.
  destruct (position _ l) as [i|] eqn:Hpos.
  - destruct (position_split _ _ _ Hpos) as ([k' v'] & Hl & Hk%bool_decide_eq_true & Hi). simpl in Hk. subst k'.
    rewrite insert_middle by by eapply lookup_lt_Some. rewrite <- Permutation_middle. constructor.
    assert (bt_get k m = Some v') as Hg.
    { apply bt_elem_get; [done|]. rewrite <- Hp. by eapply list_elem_of_lookup_2. }
    rewrite (bt_remove_perm k v' m Hg), Hl, <- Permutation_middle in Hp. by apply Permutation_cons_inv in Hp.
  - apply position_key in Hpos. rewrite bt_remove_absent.
    + rewrite Hp. by rewrite Permutation_app_comm.
    + apply bt_get_listed. by rewrite <- Hp.
Qed.

Lemma mirror_delete_repr l m k v :
  map_repr l m → bt_get k m = Some v →
  ∃ i, position (λ x, bool_decide (x.1 = k)) l = Some i ∧ l !! i = Some (k, v) ∧
    map_repr (delete i l) (bt_remove k m).
Proof.
  intros [Hwf Hp] Hg. pose proof (bt_get_elem k v m Hg) as Hin. rewrite <- Hp in Hin.
  destruct (position _ l) as [i|] eqn:Hpos.
  2: { exfalso. apply position_key in Hpos. apply Hpos. by apply (list_elem_of_fmap_2' fst l (k, v)). }
  exists i. destruct (position_split _ _ _ Hpos) as ([k' v'] & _ & Hk%bool_decide_eq_true & Hi). simpl in Hk. subst k'.
  assert (bt_get k m = Some v') as Hg'.
  { apply bt_elem_get; [done|]. rewrite <- Hp. by eapply list_elem_of_lookup_2. }
  rewrite Hg in Hg'. injection Hg' as <-. split; [done|]. split; [done|]. split; [by apply bt_remove_wf|].
  rewrite (bt_remove_perm k v m Hg), (lookup_delete_perm l i (k, v) Hi) in Hp. by apply Permutation_cons_inv in Hp.
Qed.

#[export] Instance map_persisted {HS : Serde (list (K * V))} {HC : Serde (MapChange K V)}
    `{!SerdeRound (list (K * V)), !SerdeRound (MapChange K V)} :
  Persisted map_change map_repr apply_map_snapshot_change fold_map_change
    (assert_unique_map_keys storage_json_error).
Proof.
  split; [| | |apply serde_round].
  - intros l m c m' Hr Hc. unfold apply_map_snapshot_change, bind, gets, find_map_key. simpl.
    destruct Hc as [m k v|m k v Hg|m]; rewrite ?find_key_spec; unfold mrbind, bind, ret.
    + exists (mirror_set l k v). split; [|by apply mirror_set_repr]. unfold mirror_set.
      by destruct (position _ l).
    + destruct (mirror_delete_repr l m k v Hr Hg) as (i & Hpos & Hi & Hr'). rewrite Hpos, Hi.
      rewrite strict_json_equal_refl. by exists (delete i l).
    + exists []. rewrite (Permutation_length (proj2 Hr)), Nat.eqb_refl. split; [done|]. by split; [constructor|].
  - intros l m c m' frame Hr Hc Hv. unfold fold_map_change, find_map_key. rewrite (serde_round _ _ Hv). simpl.
    destruct Hc as [m k v|m k v Hg|m]; rewrite ?find_key_spec.
    + exists (mirror_set l k v). split; [|by apply mirror_set_repr]. unfold mirror_set. simpl.
      by destruct (position _ l).
    + destruct (mirror_delete_repr l m k v Hr Hg) as (i & Hpos & Hi & Hr'). rewrite Hpos. simpl. rewrite Hi.
      rewrite strict_json_equal_refl. by exists (delete i l).
    + exists []. rewrite (Permutation_length (proj2 Hr)), Nat.eqb_refl. split; [done|]. by split; [constructor|].
  - intros l m label Hr. apply unique_spec; [by eapply map_repr_nodup|].
    intros x _ b _. apply not_elem_of_nil.
Qed.
End Maps.

(** ** Indexes *)

Section Indexes.
Context {SJ : SerdeJson} {K Sec V : Type} `{!OrdKey K} {HK : Serde K} `{!SerdeKey K}.
Notation Row := (IndexRow K Sec V).
Notation irows m := (fmap (M := list) (IndexOps.row_of (K := K) (S := Sec) (V := V)) m).

(** The mirror of an index holds its rows, in some order. *)
Definition index_repr (l : list Row) (m : BTree K (Sec * V)) : Prop := bt_wf m ∧ l ≡ₚ irows m.

Lemma row_primaries (m : BTree K (Sec * V)) : primary <$> irows m = m.*1.
Proof. by rewrite <- list_fmap_compose. Qed.

Lemma index_repr_nodup l m : index_repr l m → NoDup (primary <$> l).
Proof. intros [Hwf Hp]. rewrite Hp, row_primaries. by apply bt_wf_nodup. Qed.

Lemma index_repr_get l m row :
  index_repr l m → row ∈ l ↔ bt_get (primary row) m = Some (secondary row, Collections.value row).
Proof.
  intros [Hwf Hp]. rewrite Hp, list_elem_of_fmap. split.
  - intros ([p [sec v]] & -> & Hin). by apply bt_elem_get.
  - intros Hg%bt_get_elem. exists (primary row, (secondary row, Collections.value row)). split; [by destruct row|done].
Qed.

Lemma index_position l m p sec v :
  index_repr l m → bt_get p m = Some (sec, v) →
  ∃ i, position (λ x, bool_decide (primary x = p)) l = Some i ∧ l !! i = Some (mkIndexRow p sec v).
Proof.
  intros Hr Hg. assert (mkIndexRow p sec v ∈ l) as Hin by by apply (index_repr_get l m).
  destruct (position _ l) as [i|] eqn:Hpos.
  2: { exfalso. apply position_key in Hpos. apply Hpos. by apply (list_elem_of_fmap_2' primary l (mkIndexRow p sec v)). }
  exists i. split; [done|].
  destruct (position_split _ _ _ Hpos) as (row & _ & Hk%bool_decide_eq_true & Hi).
  assert (row ∈ l) as Hrow by by eapply list_elem_of_lookup_2.
  apply (index_repr_get l m) in Hrow; [|done]. rewrite Hk, Hg in Hrow. injection Hrow as -> ->.
  rewrite <- Hk. by destruct row.
Qed.

Definition mirror_upsert (l : list Row) (row : Row) : list Row :=
  match position (λ x, bool_decide (primary x = primary row)) l with
  | Some i => <[i := row]> l
  | None => l ++ [row]
  end.

Lemma irow_remove (p : K) (sec : Sec) (v : V) (m : BTree K (Sec * V)) :
  bt_get p m = Some (sec, v) → irows m ≡ₚ mkIndexRow p sec v :: irows (bt_remove p m).
Proof. intros Hg. by rewrite (bt_remove_perm p (sec, v) m Hg) at 1. Qed.

Lemma mirror_upsert_repr l m p sec v :
  index_repr l m → index_repr (mirror_upsert l (mkIndexRow p sec v)) (bt_insert p (sec, v) m).
Proof.
  intros Hr. pose proof Hr as [Hwf Hp]. split; [by apply bt_insert_wf|]. rewrite bt_insert_perm by done.
  unfold mirror_upsert. destruct (position _ l) as [i|] eqn:Hpos; simpl in Hpos.
  - destruct (position_split _ _ _ Hpos) as (row & Hl & Hk%bool_decide_eq_true & Hi).
    rewrite insert_middle by by eapply lookup_lt_Some. rewrite <- Permutation_middle. constructor.
    assert (row ∈ l) as Hrow by by eapply list_elem_of_lookup_2. apply (index_repr_get l m) in Hrow; [|done].
    destruct row as [q sec' v']. simpl in Hk, Hrow. subst q.
    rewrite (irow_remove _ _ _ _ Hrow), Hl, <- Permutation_middle in Hp. by apply Permutation_cons_inv in Hp.
  - apply position_key in Hpos. rewrite bt_remove_absent.
    + rewrite Hp. by rewrite Permutation_app_comm.
    + apply bt_get_listed. by rewrite <- row_primaries, <- Hp.
Qed.

Lemma index_delete_repr l m p sec v i :
  index_repr l m → bt_get p m = Some (sec, v) → l !! i = Some (mkIndexRow p sec v) →
  index_repr (delete i l) (bt_remove p m).
Proof.
  intros [Hwf Hp] Hg Hi. split; [by apply bt_remove_wf|].
  rewrite (irow_remove p sec v m Hg), (lookup_delete_perm l i _ Hi) in Hp. by apply Permutation_cons_inv in Hp.
Qed.

(** The rows of some keys, and the others. *)
Lemma remove_all_perm (ps : list K) : ∀ m : BTree K (Sec * V),
  bt_wf m → NoDup ps → Forall (λ p, is_Some (bt_get p m)) ps →
  ∃ xs, Forall2 (λ p x, primary x = p ∧ bt_get p m = Some (secondary x, Collections.value x)) ps xs ∧
    irows m ≡ₚ xs ++ irows (bt_remove_all ps m) ∧ bt_wf (bt_remove_all ps m).
Proof.
  induction ps as [|p ps IH]; intros m Hwf Hnd Hf; [by exists []|].
  apply NoDup_cons in Hnd as [Hp Hnd]. apply Forall_cons in Hf as [[[sec v] Hg] Hf].
  assert (∀ q, q ∈ ps → bt_get q (bt_remove p m) = bt_get q m) as Hother.
  { intros q Hq. apply bt_get_remove_ne. by intros ->. }
  destruct (IH (bt_remove p m)) as (xs & Hxs & Hperm & Hwf'); [by apply bt_remove_wf|done| |].
  { rewrite Forall_forall in *. intros q Hq. rewrite Hother by done. by apply Hf. }
  exists (mkIndexRow p sec v :: xs). split_and!; [|by rewrite (irow_remove p sec v m Hg), Hperm|done].
  constructor; [done|]. rewrite Forall2_lookup in *. intros i. specialize (Hxs i).
  destruct (ps !! i) as [q|] eqn:Hq; [|inversion Hxs; constructor]. inversion Hxs as [? x [Hx Hgx]|]; subst. constructor.
  split; [done|]. rewrite <- Hgx. symmetry. apply Hother. by eapply list_elem_of_lookup_2.
Qed.

Lemma existsb_seen (seen : list bytes) b :
  existsb (λ existing, bool_decide (existing = b)) seen = false ↔ b ∉ seen.
Proof.
  split.
  - intros He Hin%list_elem_of_In. apply not_true_iff_false in He. apply He. apply existsb_exists. exists b.
    split; [done|]. by apply bool_decide_eq_true.
  - intros Hn. apply not_true_iff_false. intros (b' & Hin & Heq%bool_decide_eq_true)%existsb_exists. subst b'.
    by apply Hn, list_elem_of_In.
Qed.

(** The positions found for present, distinct keys. *)
Lemma primary_indexes_spec je l m label ps : ∀ i seen,
  index_repr l m → NoDup ps → Forall (λ p, is_Some (bt_get p m)) ps →
  (∀ p, p ∈ ps → ∀ b, strict_json_identity je p = Ok b → b ∉ seen) →
  ∃ idx, primary_indexes je l ps label i seen = Ok idx ∧
    Forall2 (λ p j, ∃ sec v, bt_get p m = Some (sec, v) ∧ l !! j = Some (mkIndexRow p sec v)) ps idx.
Proof.
  induction ps as [|p ps IH]; intros i seen Hr Hnd Hf Hseen; [by exists []|]. simpl.
  apply NoDup_cons in Hnd as [Hp Hnd]. apply Forall_cons in Hf as [[[sec v] Hg] Hf].
  destruct (identity_total je p) as [b Hb]. rewrite Hb. cbn [rbind].
  rewrite (proj2 (existsb_seen seen b)) by (apply (Hseen p); [by left|done]).
  unfold find_index_primary. rewrite find_key_spec.
  destruct (index_position l m p sec v Hr Hg) as (j & Hpos & Hj). rewrite Hpos. cbn [rbind].
  destruct (IH (S i) (seen ++ [b]) Hr Hnd Hf) as (idx & Hidx & Hall).
  { intros q Hq b' Hb'. rewrite not_elem_of_app. split; [apply (Hseen q); [by right|done]|].
    rewrite list_elem_of_singleton. intros ->. apply Hp. by rewrite (identity_inj je p q b). }
  rewrite Hidx. exists (j :: idx). split; [done|]. constructor; [by exists sec, v|done].
Qed.
(** The rows removed are those of the keys. *)
Lemma remove_primaries_repr je l m label ps :
  index_repr l m → NoDup ps → Forall (λ p, is_Some (bt_get p m)) ps →
  ∃ l', remove_index_primaries je l ps label = Ok l' ∧ index_repr l' (bt_remove_all ps m).
Proof.
  intros Hr Hnd Hf. pose proof Hr as [Hwf Hp].
  destruct (primary_indexes_spec je l m label ps 0 [] Hr Hnd Hf) as (idx & Hidx & Hall).
  { intros p _ b _. apply not_elem_of_nil. }
  destruct (remove_all_perm ps m Hwf Hnd Hf) as (xs & Hxs & Hperm & Hwf').
  unfold remove_index_primaries. rewrite Hidx. simpl. eexists. split; [done|]. split; [done|].
  assert (Forall2 (λ j x, l !! j = Some x) idx xs) as Hrows.
  { clear -Hall Hxs. revert xs Hxs. induction Hall as [|p j ps idx (sec & v & Hg & Hj) Hall IH]; intros xs Hxs.
    - apply Forall2_nil_inv_l in Hxs as ->. constructor.
    - apply Forall2_cons_inv_l in Hxs as (x & xs' & [Hx Hgx] & Hxs & ->). constructor; [|by apply IH].
      rewrite Hg in Hgx. injection Hgx as -> ->. rewrite Hj, <- Hx. by destruct x. }
  assert (NoDup idx) as Hni.
  { apply NoDup_alt. intros a b j Ha Hb.
    destruct (Forall2_lookup_r _ _ _ _ _ Hall Ha) as (p & Hpa & sec & v & _ & Hja).
    destruct (Forall2_lookup_r _ _ _ _ _ Hall Hb) as (q & Hqb & sec' & v' & _ & Hjb).
    rewrite Hja in Hjb. injection Hjb as -> _ _. by eapply NoDup_lookup. }
  set (sorted := sort_by _ idx).
  assert (sorted ≡ₚ idx) as Hsp by apply sort_by_perm.
  assert (l ≡ₚ omap (l !!.) sorted ++ foldl (λ l i, delete i l) l sorted) as Hdel.
  { apply delete_positions; [|apply lookup_all].
    - apply sorted_strict; [|by rewrite Hsp]. apply sort_by_sorted.
      + intros a b. apply Nat.compare_antisym.
      + intros a b c. unfold cmp_le. rewrite !Nat.compare_gt_iff. lia.
    - rewrite Hsp. exact (proj2 (lookup_omap _ _ _ Hrows)). }
  set (rest := foldl _ l sorted) in *. assert (omap (l !!.) sorted ≡ₚ xs) as Hsx.
  { rewrite (proj1 (lookup_omap _ _ _ Hrows)). by apply omap_Permutation. }
  rewrite Hsx, Hp, Hperm in Hdel. by apply Permutation_app_inv_l in Hdel.
Qed.

Lemma mirror_upsert_runs {S} je (l : list Row) p sec v (k : list Row → S) :
  (let? found := find_index_primary je l p in
   Ok (k (match found with Some i => <[i := mkIndexRow p sec v]> l | None => l ++ [mkIndexRow p sec v] end)))
  = (Ok (k (mirror_upsert l (mkIndexRow p sec v))) : StorageResult S).
Proof. unfold find_index_primary. rewrite find_key_spec. unfold mirror_upsert. simpl. by destruct (position _ l). Qed.

Lemma some_pair (m : BTree K (Sec * V)) p : is_Some (bt_get p m) → ∃ sec v, bt_get p m = Some (sec, v).
Proof. intros [[sec v] Hg]. by exists sec, v. Qed.

#[export] Instance index_persisted {HS : Serde (list Row)} {HC : Serde (IndexChange K Sec V)}
    `{!SerdeRound (list Row), !SerdeRound (IndexChange K Sec V)} :
  Persisted index_change index_repr apply_index_snapshot_change fold_index_change
    (assert_unique_index_primaries storage_json_error).
Proof.
  split; [| | |apply serde_round].
  - intros l m c m' Hr Hc. unfold apply_index_snapshot_change, bind, gets. simpl.
    destruct Hc as [m p sec v|m p Hg|m ps Hnd Hf|m]; unfold mrbind, bind, ret.
    + exists (mirror_upsert l (mkIndexRow p sec v)). split; [|by apply mirror_upsert_repr].
      unfold find_index_primary. rewrite find_key_spec. unfold mirror_upsert. simpl. by destruct (position _ l).
    + destruct (some_pair m p Hg) as (sec & v & Hg'). destruct (index_position l m p sec v Hr Hg') as (i & Hpos & Hi).
      unfold find_index_primary. rewrite find_key_spec, Hpos. exists (delete i l). split; [done|].
      by eapply index_delete_repr.
    + destruct (remove_primaries_repr sidecar_json_error l m
        "reactiveIndex persistence mirror: deleteMany primary" ps Hr Hnd Hf) as (l' & Hl' & Hr').
      rewrite Hl'. by exists l'.
    + exists []. rewrite (Permutation_length (proj2 Hr)), length_fmap, Nat.eqb_refl. split; [done|].
      by split; [constructor|].
  - intros l m c m' frame Hr Hc Hv. unfold fold_index_change. rewrite (serde_round _ _ Hv). cbn [map_err rbind].
    destruct Hc as [m p sec v|m p Hg|m ps Hnd Hf|m].
    + exists (mirror_upsert l (mkIndexRow p sec v)). split; [|by apply mirror_upsert_repr].
      apply (mirror_upsert_runs storage_json_error l p sec v id).
    + destruct (some_pair m p Hg) as (sec & v & Hg'). destruct (index_position l m p sec v Hr Hg') as (i & Hpos & Hi).
      unfold find_index_primary. rewrite find_key_spec, Hpos. exists (delete i l). split; [done|].
      by eapply index_delete_repr.
    + by apply (remove_primaries_repr storage_json_error l m).
    + exists []. rewrite (Permutation_length (proj2 Hr)), length_fmap, Nat.eqb_refl. split; [done|].
      by split; [constructor|].
  - intros l m label Hr. apply unique_spec; [by eapply index_repr_nodup|].
    intros x _ b _. apply not_elem_of_nil.
Qed.
End Indexes.

(** ** The facts *)

Lemma value_u64_num n : value_u64 (num (Z.of_N n)) = Some n.
Proof. unfold num. rewrite (proj2 (Z.leb_le _ _)) by lia. simpl. by rewrite N2Z.id. Qed.

Lemma parse_usize_num n label : parse_usize_field (Some (num (Z.of_N n))) label = Ok n.
Proof.
  unfold parse_usize_field. change (Some (num (Z.of_N n)) ≫= value_u64) with (value_u64 (num (Z.of_N n))). by rewrite value_u64_num.
Qed.

Lemma value_i64_num z : (-1 ≤ z ≤ 2 ^ 63 - 1)%Z → value_i64 (num z) = Some z.
Proof. intros Hz. unfold num. destruct (0 <=? z)%Z; [|done]. simpl. by rewrite (proj2 (Z.leb_le _ _)) by lia. Qed.

Lemma parse_status_name state : parse_status (status_name state) = Ok state.
Proof. by destruct state. Qed.

Lemma parse_kind_name kind : parse_collection_kind (collection_name kind) = Ok kind.
Proof. by destruct kind. Qed.

(** The cursor as it is reported: clamped to [i64::MAX]. *)
Definition reported_cursor (cursor : option N) : option N :=
  (λ seq, N.min seq 9223372036854775807) <$> cursor.

Lemma parse_cursor_json kind cursor sw cw :
  parse_cursor_fact (cursor_json kind cursor sw cw)
  = Ok (mkPersistenceCursor kind (reported_cursor cursor) sw cw).
Proof.
  set (seq := match cursor with Some seq => Z.min (Z.of_N seq) (2 ^ 63 - 1) | None => (-1)%Z end).
  unfold parse_cursor_fact. set (v := cursor_json kind cursor sw cw).
  assert (get_field v "collection" ≫= as_str = Some (collection_name kind)) as Hcol by done.
  assert (get_field v "changeSeq" ≫= value_i64 = Some seq) as Hseq.
  { change (value_i64 (num seq) = Some seq). apply value_i64_num. unfold seq. destruct cursor; lia. }
  assert (get_field v "snapshotWrites" = Some (num (Z.of_N sw))) as Hsw by done.
  assert (get_field v "changeWrites" = Some (num (Z.of_N cw))) as Hcw by done.
  assert (is_object v = true) as -> by done.
  assert (bool_decide (get_field v "kind" ≫= as_str ≠ Some "persistence.cursor") = false) as -> by done.
  rewrite Hcol, Hseq, Hsw, Hcw, !parse_usize_num. unfold ok_or. cbn [negb rbind]. rewrite parse_kind_name.
  cbn [rbind]. do 2 f_equal. unfold seq. destruct cursor as [n|]; simpl; [|done].
  rewrite (proj2 (Z.ltb_ge _ _)) by lia. f_equal. lia.
Qed.

(** The facts a sidecar publishes read back as its state: the phase, the length
    of the queue, the numbers of writes and errors, and the cursor, which is
    reported as it is up to [i64::MAX]. *)
Theorem status_fact_round_trip {St Sn} kind state (s : Sidecar St Sn) :
  let c := counters s in
  parse_status_fact (status_now kind state s)
  = Ok (mkPersistenceStatusFact state (N.of_nat (length (pending_changes s)))
          (sat_add (snapshot_writes c) (change_writes c)) (error_count c)
          (mkPersistenceCursor kind (reported_cursor (cursor_cell c)) (snapshot_writes c) (change_writes c))).
Proof.
  intros c. unfold status_now, parse_status_fact, cursor_now. fold c.
  set (cur := cursor_json kind (cursor_cell c) (snapshot_writes c) (change_writes c)).
  assert (get_field cur "snapshotWrites" ≫= value_u64 = Some (snapshot_writes c)) as Hsw by exact (value_u64_num _).
  assert (get_field cur "changeWrites" ≫= value_u64 = Some (change_writes c)) as Hcw by exact (value_u64_num _).
  set (v := status_json state (length (pending_changes s)) (error_count c) cur).
  assert (get_field v "state" ≫= as_str = Some (status_name state)) as -> by done.
  assert (get_field v "pending" = Some (num (Z.of_N (N.of_nat (length (pending_changes s)))))) as ->
    by by rewrite nat_N_Z.
  assert (get_field v "errors" = Some (num (Z.of_N (error_count c)))) as -> by done.
  assert (get_field v "cursor" = Some cur) as -> by done.
  assert (get_field v "writes" = Some (num (Z.of_N (sat_add (snapshot_writes c) (change_writes c))))) as ->.
  { unfold v, status_json. by rewrite Hsw, Hcw. }
  assert (is_object v = true) as -> by done.
  rewrite !parse_usize_num. unfold ok_or. cbn [negb rbind]. rewrite parse_status_name. cbn [rbind].
  unfold cur. by rewrite parse_cursor_json.
Qed.
