(* ===== verification/Durability.v ===== *)
(** * Persist, stop, reopen

    A snapshot tier and an append log over a second tier are stores a sidecar can
    rely on ([pair_stores], from [KvSpec] and the facts of [AppendLogFacts]).  The
    theorems put the parts together for the whole program: the changes a collection
    emits, the sidecar that stores them, and the function that opens the collection
    again. *)

From Stdlib Require Import Ascii String Sorted Permutation.
From stdpp Require Import base gmap fin_map_dom list option numbers strings pretty.
From S2P Require Import Prelude.
From S2P Require Import BTree.
From S2P Require Import Text.
From S2P Require Import Json.
From S2P Require Import Collections.
From S2P Require Import CollectionFacts.
From S2P Require Import Storage.
From S2P Require Import AppendLog.
From S2P Require Import AppendLogFacts.
From S2P Require Import CollectionStorage.
From S2P Require Import CollectionSidecar.
From S2P Require Import SidecarFacts.
From S2P Require Import CollectionPersisted.

Local Open Scope rx_scope.

(** ** Stores side by side *)

Section Pair.
Context {A B : Type}.

Definition on_fst {X} (m : M A X) : M (A * B) X := zoom fst (λ a p, (a, snd p)) m.
Definition on_snd {X} (m : M B X) : M (A * B) X := zoom snd (λ b p, (fst p, b)) m.

Definition fst_tier {T} (kv : KvStorageTier A T) : KvStorageTier (A * B) T :=
  mkKvStorageTier (λ k, on_fst (kv_get kv k)) (λ k v, on_fst (kv_set kv k v))
    (λ k v, on_fst (kv_put_if_absent kv k v)) (λ k, on_fst (kv_delete kv k)) (λ p, on_fst (kv_list kv p))
    (kv_supports_versioned kv) (λ k, on_fst (kv_get_versioned kv k)) (λ k v g, on_fst (kv_set_if_match kv k v g)).

Definition snd_log {T} (log : AppendLogTier B T) : AppendLogTier (A * B) T :=
  mkAppendLogTier (λ v, on_snd (log_append log v)) (λ o, on_snd (log_read log o)).
End Pair.

(** The values of a log, from its store. *)
Section LogView.
Context {T : Type} (prefix : string).

Fixpoint values_from (fuel i : nat) (m : gmap string T) : list T :=
  match fuel with
  | 0 => []
  | S fuel =>
      match m !! append_log_key prefix (N.of_nat i) with
      | Some v => v :: values_from fuel (S i) m
      | None => []
      end
  end.

Definition log_values (m : gmap string T) : list T := values_from (S (base.size m)) 0 m.

Lemma values_from_repr (vals : list T) (m : gmap string T) fuel i :
  log_repr prefix m vals → length vals - i < fuel → values_from fuel i m = drop i vals.
Proof.
  intros Hr. revert i. induction fuel as [|fuel IH]; intros i Hf; [lia|]. simpl.
  destruct (vals !! i) as [v|] eqn:Hv.
  - rewrite (repr_lookup prefix m vals i v Hr Hv), (drop_S _ v) by done. f_equal. apply IH.
    apply lookup_lt_Some in Hv. lia.
  - rewrite drop_ge by by apply lookup_ge_None. destruct (m !! _) as [w|] eqn:Hw; [|done]. exfalso.
    apply (proj2 Hr) in Hw as (j & Hj%append_log_key_inj%Nat2N.inj & Hw); [|apply append_log_key_prefix].
    congruence.
Qed.

Lemma repr_size (vals : list T) (m : gmap string T) : log_repr prefix m vals → length vals ≤ base.size m.
Proof.
  intros Hr. rewrite <- (size_dom (D := gset string) m).
  set (keys := (λ i, append_log_key prefix (N.of_nat i)) <$> seq 0 (length vals)).
  assert (NoDup keys) as Hnd.
  { apply NoDup_fmap_2; [|apply NoDup_seq]. intros i j Hij%append_log_key_inj. lia. }
  assert (length vals = base.size (list_to_set keys : gset string)) as ->.
  { rewrite size_list_to_set by done. unfold keys. by rewrite length_fmap, length_seq. }
  apply subseteq_size. intros k. rewrite elem_of_list_to_set. unfold keys.
  intros (i & -> & Hi%elem_of_seq)%list_elem_of_fmap. apply elem_of_dom.
  destruct (lookup_lt_is_Some_2 vals i) as [v Hv]; [lia|]. exists v. by eapply repr_lookup.
Qed.

Lemma log_values_repr (vals : list T) (m : gmap string T) : log_repr prefix m vals → log_values m = vals.
Proof.
  intros Hr. unfold log_values. rewrite (values_from_repr vals m _ 0 Hr); [done|].
  pose proof (repr_size vals m Hr). lia.
Qed.
End LogView.

Section PairStores.
Context {A B : Type} (snaps : KvStorageTier A ReactiveCollectionSnapshotFrame)
  (frames : KvStorageTier B ReactiveCollectionChangeFrame)
  (view1 : A → gmap string ReactiveCollectionSnapshotFrame) (view2 : B → gmap string ReactiveCollectionChangeFrame)
  `{!KvSpec snaps view1, !KvSpec frames view2}.
Context (key prefix : string).

Definition pair_log : AppendLogTier (A * B) ReactiveCollectionChangeFrame :=
  snd_log (append_log_tier frames prefix).

Definition pair_ok (p : A * B) : Prop := ∃ vals, log_repr prefix (view2 (snd p)) vals.
Definition pair_snapshot (p : A * B) : option ReactiveCollectionSnapshotFrame := view1 (fst p) !! key.
Definition pair_frames (p : A * B) : list ReactiveCollectionChangeFrame := log_values prefix (view2 (snd p)).

#[export] Instance pair_stores :
  StoresSpec key (fst_tier snaps) (Some pair_log) pair_ok pair_snapshot pair_frames.
Proof.
  split.
  - intros [a b] _. unfold fst_tier, on_fst, zoom. simpl. by rewrite kv_get_spec.
  - intros frame [a b] Hok. destruct (kv_set_spec (KvSpec := KvSpec0) key frame a) as (a' & Hset & Hv).
    exists (Ok tt), (a', b). unfold fst_tier, on_fst, zoom, pair_snapshot. simpl. rewrite Hset, Hv.
    by rewrite lookup_insert_eq.
  - intros l frame [a b] [vals Hr] [= <-] Hlt. unfold pair_frames in *. simpl in *.
    rewrite (log_values_repr prefix vals _ Hr) in *.
    destruct (append_runs frames view2 prefix vals frame b Hr) as (b' & Happ & Hr'). rewrite (proj2 (N.ltb_lt _ _)) in Happ, Hr' by lia.
    eexists _, (a, b'). unfold pair_log, snd_log, on_snd, zoom. simpl. rewrite Happ. split; [done|].
    split; [by exists (vals ++ [frame])|]. split; [done|]. simpl. split; [done|].
    by apply log_values_repr.
  - intros l after [a b] [vals Hr] [= <-]. unfold pair_frames. simpl in *.
    rewrite (log_values_repr prefix vals _ Hr).
    eexists. unfold pair_log, snd_log, on_snd, zoom. simpl.
    rewrite (read_runs frames view2 prefix vals _ b Hr). split; [done|].
    unfold read_slice, log_entries. simpl. rewrite fmap_drop, fmap_imap. done.
Qed.
End PairStores.

(** A sidecar and the loader agree on the key. *)
Lemma resolve_same {St} (options : PersistOptions St) key :
  resolve_snapshot_key options = Ok key → resolve_collection_snapshot_key (load_options options) = Ok key.
Proof.
  unfold resolve_snapshot_key, resolve_collection_snapshot_key. simpl.
  destruct (po_snapshot_key options) as [k|]; [by case_bool_decide|].
  by destruct (po_storage_prefix options).
Qed.

(** A list whose capacity the values respect is built from them. *)
Lemma list_new_fits {S T} (max : option nat) (b : list T) (st : S) :
  fits max b → (let! c := ListOps.new b max in ret (Ok (E := StorageError) c)) st
             = Ret (Ok (ListOps.mkReactiveList (ListOps.mkListBackend b 0) max [])) st.
Proof.
  intros Hf. unfold ListOps.new, ListOps.backend_new, trim_head_overflow, assert_or.
  destruct max as [m|]; [|done]. destruct Hf as [H0 Hle].
  rewrite bool_decide_eq_false_2 by (intros [= ->]; lia). simpl. unfold bind, ret.
  rewrite (proj2 (Nat.ltb_lt 0 m)) by done. by rewrite (proj2 (Nat.leb_le _ _)).
Qed.

(** Attaching a sidecar returns one. *)
Lemma persist_returns {SJ : SerdeJson} {St X} {HS : Serde (list X)} kind (sn : list X) (options : PersistOptions St) cursor key st :
  resolve_snapshot_key options = Ok key → po_snapshot_every_changes options ≠ Some 0%N →
  po_graph options = Some true →
  total (attach kind key (po_snapshot_store options) (po_change_log options) (po_snapshot_on_attach options))
    (initial_sidecar kind st sn cursor) (λ _ _, True) →
  ∃ side st', persist_collection kind sn options cursor st = Ret (Ok side) st'.
Proof.
  intros Hk Hev Hg Ht. unfold persist_collection. rewrite Hk. unfold mrbind, bind, ret.
  rewrite bool_decide_eq_false_2 by done. rewrite Hg. unfold total in Ht.
  destruct (attach _ _ _ _ _ _) as [[] s|p s|]; [|done..]. by eexists _, _.
Qed.

(** ** The list, end to end *)

Section ListDurability.
Context {SJ : SerdeJson} {St T : Type} {HT : Serde T} {HS : Serde (list T)} {HC : Serde (ListChange T)}
  `{!SerdeKey T, !SerdeRound (list T), !SerdeRound (ListChange T)}.
Context (key : string) (options : PersistOptions St) (sok : St → Prop)
  (sview : St → option ReactiveCollectionSnapshotFrame) (lview : St → list ReactiveCollectionChangeFrame)
  `{Hstores : !StoresSpec key (po_snapshot_store options) (po_change_log options) sok sview lview}.

(** Stores that hold [content], with [cursor] at the end of their log. *)
Definition list_stored (cursor : option N) (st : St) (content : list T) : Prop :=
  durable KindList (po_change_log options) sok sview lview list_change eq [] st content ∧
  at_end (po_change_log options) lview cursor st ∧ ∃ z, cursor_value cursor = Ok z.

(** [persist_reactive_list_with_cursor] gave [s] for the collection [c], without an
    error on attach. *)
Definition list_persisted (c : ListOps.ReactiveList T) (cursor : option N) (st : St) (s : Sidecar St (list T)) : Prop :=
  resolve_snapshot_key options = Ok key ∧
  persist_reactive_list_with_cursor c options cursor st = Ret (Ok s) (store s) ∧ errored (flags s) = false.

Notation list_run := (run_events KindList key (po_snapshot_store options) (po_change_log options)
                        (po_snapshot_every_changes options) apply_list_snapshot_change).

Lemma list_attached c cursor st content s :
  list_stored cursor st content → po_snapshot_on_attach options = true ∨ content = ListOps.to_vec c →
  list_persisted c cursor st s →
  attached KindList key (po_snapshot_store options) (po_change_log options) sok sview lview list_change eq []
    (po_snapshot_every_changes options) options (ListOps.to_vec c) cursor st content (ListOps.to_vec c) s.
Proof. intros (Hd & He & Hz) Hon (Hk & Hp & Hn). by split_and!. Qed.


End ListDurability.
