(* ===== verification/DurabilityExample.v ===== *)
(** * The storage theorems at work

    Concrete stores and types for the theorems of [StorageFacts], [AppendLogFacts],
    [CollectionFacts], [CollectionViews], [CollectionPersisted] and [Durability]:
    in-memory tiers, a list of booleans with the JSON form serde derives for its
    changes, and a store whose writes start to fail. *)

From Stdlib Require Import Ascii String Sorted Permutation.
From stdpp Require Import base gmap list option numbers strings pretty.
From S2P Require Import Prelude.
From S2P Require Import BTree.
From S2P Require Import Text.
From S2P Require Import Json.
From S2P Require Import JsonExample.
From S2P Require Import Collections.
From S2P Require Import CollectionFacts.
From S2P Require Import CollectionViews.
From S2P Require Import Storage.
From S2P Require Import StorageFacts.
From S2P Require Import AppendLog.
From S2P Require Import AppendLogFacts.
From S2P Require Import CollectionStorage.
From S2P Require Import CollectionSidecar.
From S2P Require Import SidecarFacts.
From S2P Require Import CollectionPersisted.
From S2P Require Import Durability.

Local Open Scope rx_scope.

(** ** The JSON form of a list of booleans and of its changes *)

#[local] Instance serde_bool : Serde bool := {|
  to_value b := Ok (Bool b);
  from_value v := match v with Bool b => Ok b | _ => Err "invalid type: expected a boolean" end
|}.

#[local] Instance serde_bools : Serde (list bool) := {|
  to_value l := Ok (Arr (Bool <$> l));
  from_value v := match v with Arr l => try_map from_value l | _ => Err "invalid type: expected a sequence" end
|}.

Definition usize_value (n : nat) : Value := num (Z.of_nat n).
Definition value_usize (v : Value) : Result string nat :=
  match v with Num (PosInt z) => Ok (Z.to_nat z) | _ => Err "invalid type: expected usize" end.

#[local] Instance serde_list_change : Serde (ListChange bool) := {|
  to_value c :=
    let bools vs := Arr (Bool <$> vs) in
    Ok (match c with
        | ListAppend v => Obj [("kind", Str "append"); ("value", Bool v)]
        | ListAppendMany vs => Obj [("kind", Str "appendMany"); ("values", bools vs)]
        | ListInsert i v => Obj [("index", usize_value i); ("kind", Str "insert"); ("value", Bool v)]
        | ListInsertMany i vs => Obj [("index", usize_value i); ("kind", Str "insertMany"); ("values", bools vs)]
        | ListPop i v => Obj [("index", usize_value i); ("kind", Str "pop"); ("value", Bool v)]
        | ListTrimHead n => Obj [("kind", Str "trimHead"); ("n", usize_value n)]
        | ListClear n => Obj [("count", usize_value n); ("kind", Str "clear")]
        end);
  from_value v :=
    let field key := match get_field v key with Some v => Ok v | None => Err ("missing field " +:+ key) end in
    let index key := let? v := field key in value_usize v in
    let value key := let? v := field key in from_value (T := bool) v in
    let values key := let? v := field key in from_value (T := list bool) v in
    match get_field v "kind" with
    | Some (Str kind) =>
        if bool_decide (kind = "append") then let? v := value "value" in Ok (ListAppend v)
        else if bool_decide (kind = "appendMany") then let? vs := values "values" in Ok (ListAppendMany vs)
        else if bool_decide (kind = "insert") then
          let? i := index "index" in let? v := value "value" in Ok (ListInsert i v)
        else if bool_decide (kind = "insertMany") then
          let? i := index "index" in let? vs := values "values" in Ok (ListInsertMany i vs)
        else if bool_decide (kind = "pop") then
          let? i := index "index" in let? v := value "value" in Ok (ListPop i v)
        else if bool_decide (kind = "trimHead") then let? n := index "n" in Ok (ListTrimHead n)
        else if bool_decide (kind = "clear") then let? n := index "count" in Ok (ListClear n)
        else Err "unknown variant"
    | _ => Err "missing field kind"
    end
|}.

Lemma bools_round (l : list bool) : try_map (from_value (T := bool)) (Bool <$> l) = Ok l.
Proof.
  induction l as [|b l IH]; [done|].
  change (try_map (from_value (T := bool)) (Bool <$> b :: l))
    with (let? bs := try_map (from_value (T := bool)) (Bool <$> l) in Ok (E := string) (b :: bs)).
  by rewrite IH.
Qed.

Lemma usize_round n : value_usize (usize_value n) = Ok n.
Proof. unfold usize_value, num. rewrite (proj2 (Z.leb_le _ _)) by lia. simpl. by rewrite Nat2Z.id. Qed.

#[local] Instance bools_serde_round : SerdeRound (list bool).
Proof. intros l v [= <-]. apply bools_round. Qed.

#[local] Instance list_change_round : SerdeRound (ListChange bool).
Proof.
  intros c v [= <-]. destruct c as [v|vs|i v|i vs|i v|n|n].
  - done.
  - exact (f_equal (λ r, let? vs := r in Ok (ListAppendMany vs)) (bools_round vs)).
  - exact (f_equal (λ r, let? i := r in Ok (ListInsert i v)) (usize_round i)).
  - etrans; [exact (f_equal (λ r, let? i := r in let? vs := from_value (T := list bool) (Arr (Bool <$> vs)) in
                               Ok (ListInsertMany i vs)) (usize_round i))|].
    exact (f_equal (λ r, let? vs := r in Ok (ListInsertMany i vs)) (bools_round vs)).
  - exact (f_equal (λ r, let? i := r in Ok (ListPop i v)) (usize_round i)).
  - exact (f_equal (λ r, let? n := r in Ok (ListTrimHead n)) (usize_round n)).
  - exact (f_equal (λ r, let? n := r in Ok (ListClear n)) (usize_round n)).
Qed.

#[local] Instance bool_key : SerdeKey bool.
Proof.
  split.
  - intros je []; by eexists.
  - intros je [] [] b; [done| | |done]; unfold strict_json_identity; cbn; congruence.
Qed.

(** ** Stores that fail after some writes *)

Section Flaky.
Context {S : Type} (writes : nat).

Definition disk_full {A} : StorageResult A := backend "disk full".

(** The operations of the stores, and the writes that will still succeed. *)
Definition calm {A} (m : M S A) : M (S * nat) A := zoom fst (λ s p, (s, snd p)) m.

Definition limited {A} (m : M S (StorageResult A)) : M (S * nat) (StorageResult A) :=
  let! n := gets snd in
  match n with
  | 0 => ret disk_full
  | Datatypes.S n => modify (λ p, (fst p, n)) ;;; calm m
  end.

Definition flaky_tier {T} (kv : KvStorageTier S T) : KvStorageTier (S * nat) T :=
  mkKvStorageTier (λ k, calm (kv_get kv k)) (λ k v, limited (kv_set kv k v))
    (λ k v, limited (kv_put_if_absent kv k v)) (λ k, limited (kv_delete kv k)) (λ p, calm (kv_list kv p))
    (kv_supports_versioned kv) (λ k, calm (kv_get_versioned kv k)) (λ k v g, limited (kv_set_if_match kv k v g)).

Definition flaky_log {T} (log : AppendLogTier S T) : AppendLogTier (S * nat) T :=
  mkAppendLogTier (λ v, limited (log_append log v)) (λ o, calm (log_read log o)).

#[export] Instance flaky_stores key kv log sok sview lview :
  StoresSpec key kv (Some log) sok sview lview →
  StoresSpec key (flaky_tier kv) (Some (flaky_log log)) (λ p, sok (fst p)) (λ p, sview (fst p)) (λ p, lview (fst p)).
Proof.
  intros Hs. split.
  - intros [s n] Hok. unfold flaky_tier, calm, zoom. simpl. by rewrite stores_get.
  - intros frame [s [|n]] Hok; simpl in *.
    + by exists disk_full, (s, 0).
    + destruct (stores_set frame s Hok) as (r & s' & Hset & Hspec). exists r, (s', n).
      unfold limited, calm, zoom, bind, gets, modify. simpl. by rewrite Hset.
  - intros l frame [s [|n]] Hok [= <-] Hlt; simpl in *.
    + by exists disk_full, (s, 0).
    + destruct (stores_append log frame s Hok eq_refl Hlt) as (r & s' & Ha & Hspec). exists r, (s', n).
      unfold limited, calm, zoom, bind, gets, modify. simpl. by rewrite Ha.
  - intros l after [s n] Hok [= <-]. destruct (stores_read log after s Hok eq_refl) as (es & Hread & He).
    exists es. unfold flaky_log, calm, zoom. simpl. by rewrite Hread.
Qed.
End Flaky.

(** ** A session *)

Definition mem : Type :=
  (MemoryKv.MemoryKv ReactiveCollectionSnapshotFrame * MemoryKv.MemoryKv ReactiveCollectionChangeFrame) * nat.

Definition fresh (writes : nat) : mem := ((MemoryKv.memory_kv 1, MemoryKv.memory_kv 2), writes).

Definition options : PersistOptions mem := {|
  po_graph := Some true;
  po_storage_prefix := Some "todo";
  po_snapshot_key := None;
  po_snapshot_store := flaky_tier (fst_tier MemoryKv.tier);
  po_change_log := Some (flaky_log (pair_log MemoryKv.tier "todo/changes"));
  po_snapshot_on_attach := true;
  po_snapshot_every_changes := Some 3%N
|}.

Definition key : string := "todo/snapshot".

Definition ok_mem (p : mem) : Prop := pair_ok view "todo/changes" (fst p).
Definition snap_mem (p : mem) : option ReactiveCollectionSnapshotFrame := pair_snapshot view key (fst p).
Definition log_mem (p : mem) : list ReactiveCollectionChangeFrame := pair_frames view "todo/changes" (fst p).

#[local] Instance session_stores :
  StoresSpec key (po_snapshot_store options) (po_change_log options) ok_mem snap_mem log_mem.
Proof. apply (flaky_stores key (fst_tier MemoryKv.tier)). apply (pair_stores MemoryKv.tier MemoryKv.tier view view). Qed.

(** A list of at most three booleans and some calls on it, one of which panics. *)
Definition todo : ListOps.ReactiveList bool := ListOps.mkReactiveList (ListOps.mkListBackend [true] 0) (Some 3) [].
Definition todo_ops : list (ListOps.ListOp bool) :=
  [ListOps.OpAppendMany [false; true]; ListOps.OpInsert 9 true; ListOps.OpInsert 1 false; ListOps.OpPop None].
Definition todo_after : ListOps.ReactiveList bool :=
  match ListOps.run_ops todo_ops todo with Ret _ s => s | _ => todo end.
Definition todo_changes : list (ListChange bool) := ListOps.emitted todo_after.

(** The sidecar attached to [todo], and what reaches it: the changes of the calls,
    with a flush after the second. *)
Definition sidecar (writes : nat) : Sidecar mem (list bool) :=
  match persist_reactive_list_with_cursor todo options None (fresh writes) with
  | Ret (Ok s) _ => s
  | _ => initial_sidecar KindList (fresh writes) [] None
  end.

Definition session : list (SidecarEvent (C := ListChange bool)) :=
  match todo_changes with
  | c1 :: c2 :: cs => EvChange c1 :: EvChange c2 :: EvFlush :: (EvChange <$> cs)
  | cs => EvChange <$> cs
  end.

Lemma empty_repr prefix : log_repr prefix (∅ : gmap string ReactiveCollectionChangeFrame) [].
Proof.
  split; [done|]. intros k v _. rewrite lookup_empty. split; [done|]. by intros (i & _ & Hi).
Qed.

Lemma fresh_ok writes : ok_mem (fresh writes).
Proof. exists []. apply empty_repr. Qed.

Lemma fresh_log writes : log_mem (fresh writes) = [].
Proof. apply (log_values_repr _ []). apply empty_repr. Qed.

Lemma fresh_stored writes : list_stored options ok_mem snap_mem log_mem None (fresh writes) [].
Proof.
  split_and!; [|right; by rewrite fresh_log|by exists (-1)%Z].
  split; [apply fresh_ok|]. exists None, [], []. split_and!.
  - by split.
  - right. simpl. lia.
  - unfold unread. simpl. rewrite fresh_log. constructor.
  - apply replay_nil.
Qed.

Definition run_session (writes : nat) : Outcome (Sidecar mem (list bool)) unit :=
  run_events KindList key (po_snapshot_store options) (po_change_log options) (po_snapshot_every_changes options)
    apply_list_snapshot_change session (sidecar writes).

Lemma todo_inv : list_inv (Some 3) todo.
Proof. split_and!; [done|split; simpl; lia|done..]. Qed.

Lemma fresh_roomy writes : roomy log_mem (length todo_changes) (fresh writes).
Proof. unfold roomy. rewrite fresh_log. by vm_compute. Qed.


Example crash_content :
  match run_session 2 with
  | Ret _ s =>
      match load_reactive_list_state (T := bool) (po_snapshot_store options) (load_options options) (store s) with
      | Ret (Ok rs) _ => Some (rs_state rs, errored (flags s))
      | _ => None
      end
  | _ => None
  end = Some ([true; false; true], true).
Proof. vm_compute. reflexivity. Qed.

(** With room on the disk the session ends in a flush that succeeds. *)
Definition before_flush : Sidecar mem (list bool) :=
  match run_session 100 with Ret _ s => s | _ => sidecar 100 end.
Definition after_flush : Sidecar mem (list bool) :=
  match flush KindList key (po_snapshot_store options) (po_change_log options) before_flush with
  | Ret _ s => s
  | _ => before_flush
  end.


(** ** The other theorems *)

Lemma list_changes_replay_witness :
  ∃ s' cs, ListOps.run_ops todo_ops todo = Ret tt s' ∧
    ListOps.emitted s' = ListOps.emitted todo ++ cs ∧ replay list_change (ListOps.to_vec todo) cs (ListOps.to_vec s') ∧
    fits (Some 3) (ListOps.to_vec s') ∧
    ((Z.of_nat (ops_cost todo_ops) < 2 ^ 64)%Z →
     ListOps.version (ListOps.backend s') = ListOps.version (ListOps.backend todo) → ListOps.to_vec s' = ListOps.to_vec todo).
Proof. apply (list_changes_replay (Some 3) todo_ops todo). apply todo_inv. Defined.

Definition todo_events : list (Event (list_collection bool (Some 3))) :=
  [EvCall (list_collection bool (Some 3)) (ListOps.OpAppend false); EvPull _;
   EvCall (list_collection bool (Some 3)) (ListOps.OpPop None)].

Lemma snapshot_node_current_witness :
  ∃ s' last, CollectionViews.run_events (list_collection bool (Some 3)) id (todo_events ++ [EvPull _]) (todo, (None, None))
             = Ret tt (s', (last, Some (list_buf s'))).
Proof.
  apply (snapshot_node_current (list_collection bool (Some 3)) id todo_events todo); [apply todo_inv|by vm_compute].
Defined.

Definition numbers : LogOps.ReactiveLog nat := LogOps.mkReactiveLog (LogOps.mkLogBackend [1; 2] 0 (Some 3)) [].
Definition number_ops : list (LogOps.LogOp nat) :=
  [LogOps.OpAppend 3; LogOps.OpAppend 4; LogOps.OpTrimHead 1; LogOps.OpAttach [5; 6]].

Lemma scan_follows_log_witness :
  ∃ s' node, for_each number_ops (scan_op 0 Nat.add) (numbers, (None, None)) = Ret tt (s', node) ∧
    (fst node ≠ None → snd node = Some (foldl Nat.add 0 (LogOps.to_vec s'))).
Proof.
  apply (scan_follows_log 0 Nat.add (Some 3) number_ops numbers); [|by vm_compute].
  split_and!; [done|split; simpl; lia|done..].
Defined.

Lemma scan_stale_after_batch_witness :
  let log := LogOps.mkReactiveLog (LogOps.mkLogBackend [1; 2; 3] 0 None) [] in
  ∃ s', (LogOps.trim_head 1 ;;; LogOps.append 9) log = Ret tt s' ∧ LogOps.to_vec s' = [2; 3] ++ [9] ∧
    LogOps.emitted s' = LogOps.emitted log ++ [LogTrimHead 1; LogAppend 9] ∧
    let node := (Some (folded 0 Nat.add [1; 2; 3]), Some (foldl Nat.add 0 [1; 2; 3])) in
    scan_wave 0 Nat.add [LogAppend 9] (LogOps.to_vec s') node = node.
Proof.
  apply (scan_stale_after_batch 0 Nat.add (LogOps.mkReactiveLog (LogOps.mkLogBackend [1; 2; 3] 0 None) []) 1 [2; 3] 9);
    [done|done|by vm_compute].
Defined.

(** *** Append logs *)

Definition log_store : Type := MemoryKv.MemoryKv bool.

Lemma new_log_repr : log_repr "log" (view (MemoryKv.memory_kv (T := bool) 0)) [].
Proof.
  unfold view. simpl. rewrite fmap_empty. split; [done|]. intros k v _. rewrite lookup_empty.
  split; [done|]. by intros (i & _ & Hi).
Qed.

Lemma append_log_refines_list_witness :
  let calls := [CallAppend true; CallAppend false; CallTruncateAfter 0; CallAppend false;
                CallRead (mkAppendLogReadOptions (Some 0%N) (Some 5)); CallSize] in
  ∃ s', log_calls MemoryKv.tier "log" calls (MemoryKv.memory_kv 0) = Ret (fst (list_calls "log" calls [])) s' ∧
        log_repr "log" (view s') [true; false].
Proof.
  intros calls. apply (append_log_refines_list MemoryKv.tier view "log" calls [] (MemoryKv.memory_kv 0)).
  apply new_log_repr.
Defined.

(** A log of three values. *)
Definition three : log_store :=
  match log_calls MemoryKv.tier "log" [CallAppend true; CallAppend false; CallAppend true] (MemoryKv.memory_kv 0) with
  | Ret _ s => s
  | _ => MemoryKv.memory_kv 0
  end.

Lemma three_repr : log_repr "log" (view three) [true; false; true].
Proof.
  destruct (append_runs MemoryKv.tier view "log" [] true _ new_log_repr) as (s1 & H1 & R1).
  destruct (append_runs MemoryKv.tier view "log" [true] false s1 R1) as (s2 & H2 & R2).
  destruct (append_runs MemoryKv.tier view "log" [true; false] true s2 R2) as (s3 & H3 & R3).
  replace three with s3; [exact R3|]. unfold three. simpl. unfold bind. rewrite H1. unfold ret. rewrite H2, H3. done.
Qed.

Lemma pages_cover_witness :
  read_pages MemoryKv.tier "log" 4 2 (Some 0%N) three
  = Ret (Ok (drop (read_start (Some 0%N)) (log_entries "log" [true; false; true]))) three.
Proof. apply (pages_cover MemoryKv.tier view "log" [true; false; true] 2 three three_repr); [lia|done|simpl; lia]. Defined.

Lemma multi_append_refines_witness :
  ∃ s', multi_append_loop MemoryKv.tier "log" 5 2 false (N.of_nat 1) 0 three
        = Ret (Ok (entry_at "log" (length [true; false; true]) false)) s' ∧
        log_repr "log" (view s') ([true; false; true] ++ [false]).
Proof.
  apply (multi_append_refines MemoryKv.tier view "log" [true; false; true] false 2);
    [lia|done|apply three_repr|simpl; lia|simpl; lia].
Defined.

(** *** Keys and generations *)

(** A text of a tuple: each part with its special bytes escaped, and a comma. *)
Definition comma : ascii := ascii_of_nat 44.
Definition part_text (s : string) : bytes := key_to_file_stem (bytes_of s) ++ [comma].

Fixpoint split_parts (acc l : bytes) : option (list string) :=
  match l with
  | [] => if bool_decide (acc = []) then Some [] else None
  | c :: l =>
      if bool_decide (c = comma) then
        part ← decode_stem (reverse acc); rest ← split_parts [] l; Some (str_of part :: rest)
      else split_parts (c :: acc) l
  end.

Lemma split_part acc l rest :
  Forall (λ c, c ≠ comma) l →
  split_parts acc (l ++ comma :: rest)
  = (part ← decode_stem (reverse acc ++ l); rest ← split_parts [] rest; Some (str_of part :: rest)).
Proof.
  intros Hl. revert acc. induction Hl as [|c l Hc Hl IH]; intros acc.
  - simpl. by rewrite app_nil_r.
  - simpl. rewrite bool_decide_eq_false_2 by done. rewrite IH. by rewrite reverse_cons, <- app_assoc.
Qed.

Lemma stem_char_no_comma c : Forall (λ c, c ≠ comma) (stem_char c).
Proof. destruct c as [[] [] [] [] [] [] [] []]; repeat constructor; discriminate. Qed.

Lemma stem_no_comma l : Forall (λ c, c ≠ comma) (key_to_file_stem l).
Proof. apply Forall_bind, Forall_true. intros c. apply stem_char_no_comma. Qed.

#[export] Instance escaped_tuples : TupleText.
Proof.
  refine {| tuple_text l := str_of (l ≫= part_text); parse_tuple s := split_parts [] (bytes_of s) |}.
  intros l. rewrite bytes_of_str. induction l as [|s l IH]; [done|].
  change ((s :: l) ≫= part_text) with (part_text s ++ (l ≫= part_text)). unfold part_text at 1.
  rewrite <- app_assoc. simpl app. rewrite split_part by apply stem_no_comma.
  simpl. rewrite decode_stem_key. simpl. rewrite IH. simpl. by rewrite str_of_bytes.
Defined.

Lemma file_name_round_trip_witness :
  key_from_filename (λ _, true) "cache" (bytes_of ".bin") (file_name "cache" (bytes_of ".bin") "a/b")
  = Ok (if decide ("cache" = "cache") then Some "a/b" else None).
Proof. apply (file_name_round_trip (λ _, true) "cache" "cache" (bytes_of ".bin") "a/b"). reflexivity. Defined.

(** A store with one key, read; then another key is written, and the first. *)
Definition one_key : MemoryKv.MemoryKv nat := kv_run [KSet "a" 1] (MemoryKv.memory_kv 7).

Lemma one_key_inv : kv_inv one_key.
Proof.
  apply (kv_run_spec "a" [KSet "a" 1] (MemoryKv.memory_kv 7)). split; [done|]. intros k.
  unfold MemoryKv.current_version. simpl. by rewrite !lookup_empty.
Qed.

Definition read_a : KvVersionedRead nat :=
  match MemoryKv.get_versioned "a" one_key with
  | Ret (Ok r) _ => r
  | _ => Miss (mkKvGeneration 0 0 "a" 0)
  end.

Lemma set_if_match_detects_witness :
  let other := [KSet "b" 5] in
  let same := [KSet "b" 5; KDelete "a"] in
  (∃ s', MemoryKv.set_if_match "a" 2 (read_generation read_a) (kv_run other one_key)
         = Ret (Ok (negb (any_write "a" other one_key))) s') ∧
  (∃ s', MemoryKv.set_if_match "a" 2 (read_generation read_a) (kv_run same one_key)
         = Ret (Ok (negb (any_write "a" same one_key))) s').
Proof.
  intros other same. split.
  - apply (set_if_match_detects "a" other one_key read_a 2 one_key_inv). vm_compute. reflexivity.
  - apply (set_if_match_detects "a" same one_key read_a 2 one_key_inv). vm_compute. reflexivity.
Defined.
