(* ===== verification/Protocol.v ===== *)
(** * Wave protocol data ([protocol.rs]) and the shaping of one wave

    The tier table, the closed message set, the upstream filter, and the three
    pure passes [Core::down] (node.rs) makes over a wave before emitting it:
    the stable sort by tier, the collapse of repeated INVALIDATE, and the
    partition into a deferred and an immediate part. *)

From stdpp Require Import base list option strings numbers sorting.
From S2P Require Import Prelude.

(** [LockId(pub String)]: opaque, compared by equality only. *)
Definition LockId : Type := string.

Inductive Tier :=
| Start_t | Control_t | Notification_t | Value_t | Settle_t | Terminal_t | Teardown_t.

#[export] Instance Tier_eq_dec : EqDecision Tier.
Proof. solve_decision. Defined.

Module Tier.
Definition as_u8 (t : Tier) : nat :=
  match t with
  | Start_t => 0 | Control_t => 1 | Notification_t => 2 | Value_t => 3
  | Settle_t => 4 | Terminal_t => 5 | Teardown_t => 6
  end.

Definition is_immediate (t : Tier) : bool := bool_decide (as_u8 t < as_u8 Value_t).
Definition is_batch_deferred (t : Tier) : bool := negb (is_immediate t).
Definition is_pause_buffered (t : Tier) : bool :=
  match t with Value_t | Settle_t => true | _ => false end.
End Tier.

(** Explicit pull demand payload; [params] is an erased value. *)
Record PullDemand (V : Type) := mkPullDemand {
  pull_id : LockId;
  params : option V
}.
Arguments mkPullDemand {V} _ _.
Arguments pull_id {V} _.
Arguments params {V} _.

(** The error channel is untyped ([Box<dyn Error>]); the code only ever formats
    it with its [Display] text, which is what the model keeps. *)
Definition GraphError : Type := string.

Inductive Message (T : Type) :=
| Start
| Pause (lock : LockId)
| Resume (lock : LockId)
| Pull (demand : PullDemand T)
| Dirty
| Data (v : T)
| Resolved
| Invalidate
| Complete
| Error (e : GraphError)
| Teardown.
Arguments Start {T}.
Arguments Pause {T} lock.
Arguments Resume {T} lock.
Arguments Pull {T} demand.
Arguments Dirty {T}.
Arguments Data {T} v.
Arguments Resolved {T}.
Arguments Invalidate {T}.
Arguments Complete {T}.
Arguments Error {T} e.
Arguments Teardown {T}.

Section Messages.
Context {T : Type}.
Implicit Types m : Message T.
Implicit Types w : list (Message T).

Definition tier m : Tier :=
  match m with
  | Start => Start_t
  | Pause _ | Resume _ | Pull _ => Control_t
  | Dirty => Notification_t
  | Data _ | Resolved => Value_t
  | Invalidate => Settle_t
  | Complete | Error _ => Terminal_t
  | Teardown => Teardown_t
  end.

Definition is_up_allowed m : bool :=
  match m with
  | Dirty | Pause _ | Resume _ | Pull _ | Invalidate | Teardown => true
  | _ => false
  end.

(** The kind tag printed by the hand-written [Debug]. *)
Definition kind_tag m : string :=
  match m with
  | Start => "START" | Pause _ => "PAUSE" | Resume _ => "RESUME" | Pull _ => "PULL"
  | Dirty => "DIRTY" | Data _ => "DATA" | Resolved => "RESOLVED"
  | Invalidate => "INVALIDATE" | Complete => "COMPLETE" | Error _ => "ERROR"
  | Teardown => "TEARDOWN"
  end.

Definition is_invalidate m : bool := match m with Invalidate => true | _ => false end.
Definition is_data m : bool := match m with Data _ => true | _ => false end.
Definition is_resolved m : bool := match m with Resolved => true | _ => false end.
Definition is_terminal_msg m : bool :=
  match m with Complete | Error _ => true | _ => false end.

(** [sorted.sort_by_key(|m| m.tier().as_u8())]: Rust's stable sort. *)
Fixpoint tier_insert m w : list (Message T) :=
  match w with
  | [] => [m]
  | m' :: w' =>
      if bool_decide (Tier.as_u8 (tier m) ≤ Tier.as_u8 (tier m')) then m :: m' :: w'
      else m' :: tier_insert m w'
  end.

Definition sort_by_tier w : list (Message T) := foldr tier_insert [] w.

(** The [retain] pass with its [seen] flag. *)
Fixpoint retain_first_invalidate (seen : bool) w : list (Message T) :=
  match w with
  | [] => []
  | Invalidate :: w' =>
      if seen then retain_first_invalidate true w'
      else Invalidate :: retain_first_invalidate true w'
  | m :: w' => m :: retain_first_invalidate seen w'
  end.

Definition collapse_invalidates w : list (Message T) :=
  if bool_decide (1 < count_if is_invalidate w)
  then retain_first_invalidate false w
  else w.

(** [into_iter().partition(p)]. *)
Definition partition (p : Message T → bool) w : list (Message T) * list (Message T) :=
  (List.filter p w, List.filter (λ m, negb (p m)) w).

Definition split_batch_deferred w := partition (λ m, Tier.is_batch_deferred (tier m)) w.
Definition split_pause_buffered w := partition (λ m, Tier.is_pause_buffered (tier m)) w.

(** Tier-3 exclusivity: a wave never mixes DATA and RESOLVED. *)
Definition tier3_exclusive w : bool :=
  negb (bool_decide (1 ≤ count_if is_data w) && existsb is_resolved w).

Definition has_tier3 w : bool := existsb (λ m, is_data m || is_resolved m) w.

Definition tier_le m m' : Prop := Tier.as_u8 (tier m) ≤ Tier.as_u8 (tier m').

Lemma tier_insert_perm m w : tier_insert m w ≡ₚ m :: w.
Proof.
  induction w as [|m' w IH]; simpl; [done|].
  case_bool_decide; [done|]. rewrite IH. by constructor.
Qed.

Lemma sort_by_tier_perm w : sort_by_tier w ≡ₚ w.
Proof. induction w as [|m w IH]; simpl; [done|]. by rewrite tier_insert_perm, IH. Qed.

Lemma tier_insert_sorted m w : Sorted tier_le w → Sorted tier_le (tier_insert m w).
Proof.
  induction 1 as [|m' w Hs IH Hd]; simpl; [by repeat constructor|].
  case_bool_decide as Hle; [by repeat constructor|].
  constructor; [done|]. unfold tier_le in *.
  destruct Hd as [|m'' w Hd]; simpl; [constructor; lia|].
  case_bool_decide; constructor; lia.
Qed.

Lemma sort_by_tier_sorted w : Sorted tier_le (sort_by_tier w).
Proof. induction w; simpl; [constructor|by apply tier_insert_sorted]. Qed.

Lemma tier_insert_filter (p : Message T → bool) m w :
  (∀ m', p m' = true → p m = true → tier m' = tier m) →
  List.filter p (tier_insert m w) = List.filter p (m :: w).
Proof.
  intros Hp. induction w as [|m' w IH]; simpl; [done|].
  case_bool_decide as Hle; [done|]. simpl in *. rewrite IH.
  destruct (p m') eqn:Hm', (p m) eqn:Hm; try done.
  rewrite (Hp m') in Hle by done. lia.
Qed.

(** Messages of one tier keep their relative order. *)
Lemma sort_by_tier_stable t w :
  List.filter (λ m, bool_decide (tier m = t)) (sort_by_tier w)
  = List.filter (λ m, bool_decide (tier m = t)) w.
Proof.
  induction w as [|m w IH]; simpl; [done|].
  rewrite tier_insert_filter; simpl; [by rewrite IH|].
  intros m'. rewrite !bool_decide_eq_true. congruence.
Qed.

Lemma retain_first_invalidate_count seen w :
  count_if is_invalidate (retain_first_invalidate seen w)
  = if seen then 0 else min 1 (count_if is_invalidate w).
Proof.
  revert seen. unfold count_if.
  induction w as [|m w IH]; intros seen; simpl; [by destruct seen|].
  destruct m; simpl; try apply IH. destruct seen; simpl; [apply IH|by rewrite IH].
Qed.

Lemma retain_first_invalidate_others seen w :
  List.filter (λ m, negb (is_invalidate m)) (retain_first_invalidate seen w)
  = List.filter (λ m, negb (is_invalidate m)) w.
Proof.
  revert seen. induction w as [|m w IH]; intros seen; simpl; [done|].
  destruct m; simpl; try (by rewrite IH). destruct seen; simpl; apply IH.
Qed.

Lemma collapse_invalidates_count w :
  count_if is_invalidate (collapse_invalidates w) = min 1 (count_if is_invalidate w).
Proof.
  unfold collapse_invalidates. case_bool_decide; [apply retain_first_invalidate_count|lia].
Qed.

Lemma collapse_invalidates_others w :
  List.filter (λ m, negb (is_invalidate m)) (collapse_invalidates w)
  = List.filter (λ m, negb (is_invalidate m)) w.
Proof.
  unfold collapse_invalidates. case_bool_decide; [apply retain_first_invalidate_others|done].
Qed.

Lemma retain_first_invalidate_sub seen w : retain_first_invalidate seen w `sublist_of` w.
Proof.
  revert seen. induction w as [|m w IH]; intros seen; simpl; [constructor|].
  destruct m; simpl; try (by constructor). destruct seen; by constructor.
Qed.

Lemma collapse_invalidates_sub w : collapse_invalidates w `sublist_of` w.
Proof.
  unfold collapse_invalidates. case_bool_decide; [apply retain_first_invalidate_sub|done].
Qed.

Lemma sorted_sublist w w' : w `sublist_of` w' → StronglySorted tier_le w' → StronglySorted tier_le w.
Proof.
  induction 1 as [|m w w' Hs IH|m w w' Hs IH]; intros H; [constructor|..];
    apply StronglySorted_inv in H as [H1 H2]; [|by apply IH].
  constructor; [by apply IH|]. rewrite Forall_forall in *. intros x Hx. apply H2.
  by eapply elem_of_sublist.
Qed.

(** The wave that [down] works on after its first two passes. *)
Definition shape_wave w : list (Message T) := collapse_invalidates (sort_by_tier w).

Lemma tier_le_trans : Transitive tier_le.
Proof. unfold tier_le. intros ???. lia. Qed.

Lemma shape_wave_sorted w : StronglySorted tier_le (shape_wave w).
Proof.
  eapply sorted_sublist; [apply collapse_invalidates_sub|].
  apply Sorted_StronglySorted; [apply tier_le_trans|apply sort_by_tier_sorted].
Qed.
End Messages.

Lemma is_batch_deferred_iff t :
  Tier.is_batch_deferred t = true ↔ Tier.as_u8 Value_t ≤ Tier.as_u8 t.
Proof. destruct t; simpl; split; intros; try done; lia. Qed.

(** The wave [Core::down] emits is sorted by tier, keeps the order of the
    messages of every tier other than the INVALIDATE tier exactly as submitted,
    and carries at most one INVALIDATE (and one iff the input had any). *)
Theorem shape_wave_spec {T} (w : list (Message T)) :
  StronglySorted tier_le (shape_wave w)
  ∧ (∀ t, t ≠ Settle_t →
       List.filter (λ m, bool_decide (tier m = t)) (shape_wave w)
       = List.filter (λ m, bool_decide (tier m = t)) w)
  ∧ count_if is_invalidate (shape_wave w) = min 1 (count_if is_invalidate w).
Proof.
  split; [apply shape_wave_sorted|split].
  - intros t Ht. rewrite <-(sort_by_tier_stable t w). unfold shape_wave.
    assert (∀ l : list (Message T), List.filter (λ m, bool_decide (tier m = t)) l
      = List.filter (λ m, bool_decide (tier m = t)) (List.filter (λ m, negb (is_invalidate m)) l))
      as Hf.
    { induction l as [|m l IH]; [done|]. simpl.
      destruct m; simpl; try case_bool_decide; simpl; rewrite ?bool_decide_true by done;
        try congruence; rewrite ?IH; try done; by rewrite ?bool_decide_false. }
    rewrite (Hf (collapse_invalidates _)), collapse_invalidates_others. symmetry. apply Hf.
  - unfold shape_wave. rewrite collapse_invalidates_count. f_equal. unfold count_if.
    assert (∀ l : list (Message T), List.filter is_invalidate l
      = List.filter (λ m, bool_decide (tier m = Settle_t)) l) as Hf.
    { intros l. apply List.filter_ext. intros []; try done. }
    by rewrite !Hf, sort_by_tier_stable.
Qed.
