(* ===== verification/Dispatcher.v ===== *)
(** * The dispatcher ([dispatcher.rs]): slotmap pools of node fns

    A pool addresses fns by [(handle_id, generation)]; a freed slot is recycled
    with a bumped generation, so that a handle kept after its node died never
    resolves to the slot's next tenant (up to generation wrap-around). *)

From stdpp Require Import base list option strings numbers gmap countable.
From S2P Require Import Prelude.

Local Open Scope Z_scope.

Definition u32 (z : Z) : Z := z `mod` 2^32.

(** [Handle]: inert routing data. *)
Record Handle := mkHandle {
  pool_id : Z;
  handle_id : Z;
  generation : Z
}.

#[export] Instance Handle_eq_dec : EqDecision Handle.
Proof. solve_decision. Defined.

#[export] Instance Handle_countable : Countable Handle.
Proof.
  refine (inj_countable' (λ h, (pool_id h, handle_id h, generation h))
            (λ t, let '(p, i, g) := t in mkHandle p i g) _).
  by intros [].
Defined.

Inductive PoolKind := Sync | Async.

#[export] Instance PoolKind_eq_dec : EqDecision PoolKind.
Proof. solve_decision. Defined.

(** Per-handle profile counters. *)
Record ProfileStat := mkProfileStat {
  invokes : Z;
  total_duration_ns : Z;
  last_duration_ns : Z
}.

(** One slotmap entry; [F] is the type of stored fns ([NodeFn]). *)
Record Slot (F : Type) := mkSlot { slot_f : option F; slot_generation : Z }.
Arguments mkSlot {F} _ _.
Arguments slot_f {F} _.
Arguments slot_generation {F} _.

(** A dispatch pool; [free] is the Rust vector, pushed and popped at its end. *)
Record Pool (F : Type) := mkPool { kind : PoolKind; slots : list (Slot F); free : list nat }.
Arguments mkPool {F} _ _ _.
Arguments kind {F} _.
Arguments slots {F} _.
Arguments free {F} _.

Record DispatcherInner (F : Type) := mkDispatcher {
  pools : list (Pool F);
  recording : bool;
  stats : gmap Handle ProfileStat
}.
Arguments mkDispatcher {F} _ _ _.
Arguments pools {F} _.
Arguments recording {F} _.
Arguments stats {F} _.

Module Pool.
Section Ops.
Context {F : Type}.
Abbreviation Pool := (Pool F).

Definition new (k : PoolKind) : Pool := mkPool k [] [].

(** [register]: [None] is the index panic of [self.slots[id]]. *)
Definition register (p : Pool) (f : F) : option (Pool * (Z * Z)) :=
  match reverse (free p) with
  | id :: rest =>
      slot ← slots p !! id;
      Some (mkPool (kind p)
              (<[id := mkSlot (Some f) (slot_generation slot)]> (slots p)) (reverse rest),
            (Z.of_nat id, slot_generation slot))
  | [] =>
      let id := u32 (Z.of_nat (length (slots p))) in
      Some (mkPool (kind p) (slots p ++ [mkSlot (Some f) 0]) (free p), (id, 0))
  end.

Definition unregister (p : Pool) (id gen : Z) : Pool :=
  match slots p !! Z.to_nat id with
  | Some slot =>
      if bool_decide (slot_generation slot = gen) && bool_decide (is_Some (slot_f slot)) then
        mkPool (kind p)
          (<[Z.to_nat id := mkSlot None (u32 (slot_generation slot + 1))]> (slots p))
          (free p ++ [Z.to_nat id])
      else p
  | None => p
  end.

Definition get (p : Pool) (id gen : Z) : option F :=
  slot ← slots p !! Z.to_nat id;
  if bool_decide (slot_generation slot = gen) then slot_f slot else None.
End Ops.
End Pool.

Definition SYNC_POOL_ID : Z := 0.
Definition ASYNC_POOL_ID : Z := 1.

Module Dispatcher.
Section Ops.
Context {F : Type}.
Abbreviation DispatcherInner := (DispatcherInner F).

Definition new : DispatcherInner :=
  mkDispatcher [Pool.new Sync; Pool.new Async] false ∅.

Definition set_recording (d : DispatcherInner) (on : bool) : DispatcherInner :=
  mkDispatcher (pools d) on (stats d).

Definition stat_for (d : DispatcherInner) (h : Handle) : option ProfileStat := stats d !! h.

Definition register_in (d : DispatcherInner) (pid : Z) (f : F) : option (DispatcherInner * Handle) :=
  p ← pools d !! Z.to_nat pid;
  '(p', (id, gen)) ← Pool.register p f;
  Some (mkDispatcher (<[Z.to_nat pid := p']> (pools d)) (recording d) (stats d),
        mkHandle pid id gen).

Definition register (d : DispatcherInner) (f : F) := register_in d SYNC_POOL_ID f.
Definition register_async (d : DispatcherInner) (f : F) := register_in d ASYNC_POOL_ID f.

(** [register_with] (node.rs): the pool kind picks the pool. *)
Definition register_with (d : DispatcherInner) (k : PoolKind) (f : F) :=
  match k with Sync => register d f | Async => register_async d f end.

Definition pool_kind (d : DispatcherInner) (pid : Z) : option PoolKind :=
  kind <$> pools d !! Z.to_nat pid.

Definition unregister (d : DispatcherInner) (h : Handle) : option DispatcherInner :=
  p ← pools d !! Z.to_nat (pool_id h);
  Some (mkDispatcher
          (<[Z.to_nat (pool_id h) := Pool.unregister p (handle_id h) (generation h)]> (pools d))
          (recording d) (delete h (stats d))).

(** The lookup half of [invoke]: the fn is cloned out before it is called.
    The outer [None] is the index panic of [pools[pool_id]]. *)
Definition lookup_fn (d : DispatcherInner) (h : Handle) : option (option F) :=
  (λ p, Pool.get p (handle_id h) (generation h)) <$> pools d !! Z.to_nat (pool_id h).

(** [InvokeProfileGuard::drop]. *)
Definition record_invoke (d : DispatcherInner) (h : Handle) (elapsed : Z) : DispatcherInner :=
  let stat := default (mkProfileStat 0 0 0) (stats d !! h) in
  mkDispatcher (pools d) (recording d)
    (<[h := mkProfileStat (invokes stat + 1) (total_duration_ns stat + elapsed) elapsed]> (stats d)).
End Ops.
End Dispatcher.

(** ** Pool invariant *)

Section PoolFacts.
Context {F : Type}.
Implicit Types p : Pool F.
Implicit Types s : Slot F.

(** The free list holds exactly the vacated slots, each once. *)
Record pool_wf (p : Pool F) : Prop := {
  wf_free_nodup : NoDup (free p);
  wf_free : ∀ id, id ∈ free p ↔ ∃ s, slots p !! id = Some s ∧ slot_f s = None;
  wf_gen : ∀ id s, slots p !! id = Some s → 0 ≤ slot_generation s < 2^32;
}.

Lemma pool_wf_new k : pool_wf (Pool.new k).
Proof.
  constructor; simpl; [constructor| |done].
  intros id. split; [by intros ?%elem_of_nil|]. by intros (s & H & _).
Qed.

(** What [register] did, by cases on the free list. *)
Lemma register_inv p f p' id gen :
  Pool.register p f = Some (p', (id, gen)) →
  (∃ i s, free p = free p' ++ [i] ∧ slots p !! i = Some s ∧ id = Z.of_nat i ∧
     gen = slot_generation s ∧ slots p' = <[i := mkSlot (Some f) gen]> (slots p))
  ∨ (free p = [] ∧ free p' = [] ∧ id = u32 (Z.of_nat (length (slots p))) ∧ gen = 0 ∧
     slots p' = slots p ++ [mkSlot (Some f) 0]).
Proof.
  unfold Pool.register. destruct (reverse (free p)) as [|i rest] eqn:Hr.
  - intros [= <- <- <-]. right. simpl.
    apply (f_equal reverse) in Hr. rewrite reverse_involutive in Hr. by rewrite Hr.
  - destruct (slots p !! i) as [s|] eqn:Hs; simpl; [|done].
    intros [= <- <- <-]. left. exists i, s. simpl.
    apply (f_equal reverse) in Hr. rewrite reverse_involutive, reverse_cons in Hr. by rewrite Hr.
Qed.

Lemma register_total p f : pool_wf p → is_Some (Pool.register p f).
Proof.
  intros Hwf. unfold Pool.register. destruct (reverse (free p)) as [|i rest] eqn:Hr; [done|].
  assert (i ∈ free p) as Hi by (rewrite <-elem_of_reverse, Hr; by left).
  apply (wf_free p Hwf) in Hi as (s & -> & _). done.
Qed.

Lemma register_kind p f p' r : Pool.register p f = Some (p', r) → kind p' = kind p.
Proof.
  unfold Pool.register. destruct (reverse (free p)) as [|i ?]; [by intros [= <- _]|].
  destruct (slots p !! i); simpl; [by intros [= <- _]|done].
Qed.

Lemma pool_wf_register p f p' r :
  pool_wf p → Pool.register p f = Some (p', r) → pool_wf p'.
Proof.
  destruct r as [id gen]. intros Hwf Hreg.
  destruct (register_inv _ _ _ _ _ Hreg)
    as [(i & s & Hfree & Hs & -> & -> & Hslots)|(Hf & Hf' & -> & -> & Hslots)].
  - pose proof (wf_free_nodup p Hwf) as Hnd. rewrite Hfree in Hnd.
    apply list.NoDup_app in Hnd as (Hnd & Hni & _).
    assert (i ∉ free p') as Hi' by (intros Hi; apply (Hni i Hi); by left).
    assert (i < length (slots p))%nat by (by eapply lookup_lt_Some).
    constructor; [done| |].
    + intros j. rewrite Hslots. destruct (decide (i = j)) as [<-|Hij].
      * rewrite list_lookup_insert_eq by done. split; [done|].
        by intros (s' & [= <-] & ?).
      * rewrite list_lookup_insert_ne by done. rewrite <-(wf_free p Hwf), Hfree.
        set_solver.
    + intros j s'. rewrite Hslots. destruct (decide (i = j)) as [<-|Hij].
      * rewrite list_lookup_insert_eq by done. intros [= <-]. simpl.
        by apply (wf_gen p Hwf i).
      * rewrite list_lookup_insert_ne by done. apply (wf_gen p Hwf).
  - constructor.
    + rewrite Hf'. constructor.
    + intros j. rewrite Hslots, Hf'. split; [by intros ?%elem_of_nil|].
      intros (s & Hs & Hn). apply lookup_app_Some in Hs as [Hs|[_ Hs]].
      * assert (j ∈ free p) as Hj by (apply (wf_free p Hwf); eauto). by rewrite Hf in Hj.
      * destruct (j - length (slots p))%nat as [|?]; simpl in Hs; by simplify_eq/=.
    + intros j s. rewrite Hslots. intros [Hs|[_ Hs]]%lookup_app_Some; [by apply (wf_gen p Hwf j)|].
      destruct (j - length (slots p))%nat as [|?]; simpl in Hs; simplify_eq/=. lia.
Qed.

Lemma unregister_inv p id gen :
  (∃ s, slots p !! Z.to_nat id = Some s ∧ slot_generation s = gen ∧ is_Some (slot_f s)
      ∧ Pool.unregister p id gen
        = mkPool (kind p) (<[Z.to_nat id := mkSlot None (u32 (gen + 1))]> (slots p))
            (free p ++ [Z.to_nat id]))
  ∨ Pool.unregister p id gen = p.
Proof.
  unfold Pool.unregister. destruct (slots p !! Z.to_nat id) as [s|] eqn:Hs; [|by right].
  destruct (bool_decide _) eqn:H1; simpl; [|by right].
  destruct (bool_decide (is_Some _)) eqn:H2; [|by right].
  apply bool_decide_eq_true in H1 as <-. apply bool_decide_eq_true in H2. left. by exists s.
Qed.

Lemma pool_wf_unregister p id gen : pool_wf p → pool_wf (Pool.unregister p id gen).
Proof.
  intros Hwf. destruct (unregister_inv p id gen) as [(s & Hs & <- & [f Hf] & ->)| ->]; [|done].
  set (i := Z.to_nat id) in *.
  assert (i < length (slots p))%nat by (by eapply lookup_lt_Some).
  assert (i ∉ free p) as Hi.
  { rewrite (wf_free p Hwf). intros (s' & ? & ?). congruence. }
  constructor; simpl.
  - apply list.NoDup_app. split; [by apply wf_free_nodup|]. split; [|apply NoDup_singleton]. set_solver.
  - intros j. destruct (decide (i = j)) as [<-|Hij].
    + rewrite list_lookup_insert_eq by done. split; [by eauto|]. set_solver.
    + rewrite list_lookup_insert_ne, <-(wf_free p Hwf) by done. set_solver.
  - intros j s'. destruct (decide (i = j)) as [<-|Hij].
    + rewrite list_lookup_insert_eq by done. intros [= <-]. simpl. unfold u32.
      apply Z.mod_pos_bound. lia.
    + rewrite list_lookup_insert_ne by done. apply (wf_gen p Hwf).
Qed.

(** ** Pool behaviour *)

Lemma get_register_same p f p' id gen :
  pool_wf p → Z.of_nat (length (slots p)) < 2^32 →
  Pool.register p f = Some (p', (id, gen)) → Pool.get p' id gen = Some f.
Proof.
  intros Hwf Hlen Hreg. unfold Pool.get.
  destruct (register_inv _ _ _ _ _ Hreg)
    as [(i & s & _ & Hs & -> & -> & ->)|(_ & _ & -> & -> & ->)].
  - rewrite Nat2Z.id, list_lookup_insert_eq by (by eapply lookup_lt_Some). simpl.
    by rewrite bool_decide_true.
  - unfold u32. rewrite Z.mod_small, Nat2Z.id by lia.
    rewrite lookup_app_r, Nat.sub_diag by done. done.
Qed.

(** A live entry other than the one [register] writes is untouched. *)
Lemma get_register_other p f p' r id gen g :
  pool_wf p → Pool.register p f = Some (p', r) →
  Pool.get p id gen = Some g → Pool.get p' id gen = Some g.
Proof.
  destruct r as [rid rgen]. intros Hwf Hreg. unfold Pool.get.
  destruct (slots p !! Z.to_nat id) as [s|] eqn:Hs; simpl; [|done].
  destruct (register_inv _ _ _ _ _ Hreg)
    as [(i & s' & Hfree & Hs' & _ & -> & ->)|(_ & _ & _ & _ & ->)].
  - destruct (decide (i = Z.to_nat id)) as [->|Hne].
    + assert (Z.to_nat id ∈ free p) as Hin by (rewrite Hfree; set_solver).
      apply (wf_free p Hwf) in Hin as (s'' & ? & ?). simplify_eq.
      case_bool_decide; congruence.
    + by rewrite list_lookup_insert_ne, Hs by done.
  - by rewrite (lookup_app_l_Some _ _ _ _ Hs).
Qed.

Lemma get_unregister_other p id gen id' gen' :
  Z.to_nat id ≠ Z.to_nat id' → Pool.get (Pool.unregister p id gen) id' gen' = Pool.get p id' gen'.
Proof.
  intros Hne. destruct (unregister_inv p id gen) as [(s & _ & _ & _ & ->)| ->]; [|done].
  unfold Pool.get. simpl. by rewrite list_lookup_insert_ne.
Qed.

(** ** Stale handles *)

Inductive PoolOp := OpRegister (f : F) | OpUnregister (id gen : Z).

(** One operation on a pool; an index panic leaves it as it was. *)
Definition pool_op (p : Pool F) (o : PoolOp) : Pool F :=
  match o with
  | OpRegister f => match Pool.register p f with Some (p', _) => p' | None => p end
  | OpUnregister id gen => Pool.unregister p id gen
  end.

Definition pool_ops (p : Pool F) (os : list PoolOp) : Pool F := foldl pool_op p os.

Lemma pool_op_wf p o : pool_wf p → pool_wf (pool_op p o).
Proof.
  intros Hwf. destruct o; simpl; [|by apply pool_wf_unregister].
  destruct (Pool.register p f) as [[p' r]|] eqn:H; [|done]. by eapply pool_wf_register.
Qed.

(** Distance of a slot's generation from [gen], counted modulo [2^32]. *)
Definition gen_dist (gen : Z) (s : Slot F) : Z := u32 (slot_generation s - gen).

(** One operation advances the generation of a slot by at most one. *)
Lemma pool_op_gen p o i s :
  pool_wf p → slots p !! i = Some s →
  ∃ s', slots (pool_op p o) !! i = Some s' ∧
    (slot_generation s' = slot_generation s ∨ slot_generation s' = u32 (slot_generation s + 1)).
Proof.
  intros Hwf Hs. destruct o as [f|id gen]; simpl.
  - destruct (Pool.register p f) as [[p' [rid rgen]]|] eqn:Hreg; [|by eauto].
    destruct (register_inv _ _ _ _ _ Hreg)
      as [(j & s' & _ & Hs' & _ & -> & ->)|(_ & _ & _ & _ & ->)].
    + destruct (decide (j = i)) as [->|Hne].
      * rewrite list_lookup_insert_eq by (by eapply lookup_lt_Some).
        eexists; split; [done|]. simpl. simplify_eq. by left.
      * rewrite list_lookup_insert_ne by done. eauto.
    + rewrite (lookup_app_l_Some _ _ _ _ Hs). eauto.
  - destruct (unregister_inv p id gen) as [(s' & Hs' & <- & _ & ->)| ->]; [|by eauto].
    simpl. destruct (decide (Z.to_nat id = i)) as [<-|Hne].
    + rewrite list_lookup_insert_eq by (by eapply lookup_lt_Some).
      simplify_eq. eexists; split; [done|]. simpl. simplify_eq. by right.
    + rewrite list_lookup_insert_ne by done. eauto.
Qed.

Lemma gen_dist_step gen s s' :
  slot_generation s' = slot_generation s ∨ slot_generation s' = u32 (slot_generation s + 1) →
  gen_dist gen s < 2^32 - 1 →
  gen_dist gen s ≤ gen_dist gen s' ≤ gen_dist gen s + 1.
Proof.
  unfold gen_dist, u32. intros [->| ->] Hlt; [generalize ((slot_generation s - gen) mod 2^32); lia|].
  rewrite Zminus_mod_idemp_l.
  replace (slot_generation s + 1 - gen) with (slot_generation s - gen + 1) by lia.
  rewrite (Zplus_mod _ 1), (Z.mod_small 1) by lia.
  pose proof (Z.mod_pos_bound (slot_generation s - gen) (2^32) ltac:(lia)).
  rewrite (Z.mod_small (_ + _)) by lia. lia.
Qed.

Lemma pool_ops_gen_dist os p i s gen :
  pool_wf p → slots p !! i = Some s →
  gen_dist gen s + Z.of_nat (length os) ≤ 2^32 - 1 →
  ∃ s', slots (pool_ops p os) !! i = Some s' ∧ gen_dist gen s ≤ gen_dist gen s'.
Proof.
  revert p s. induction os as [|o os IH]; intros p s Hwf Hs Hlen; simpl in *;
    [by exists s|].
  destruct (pool_op_gen p o i s Hwf Hs) as (s1 & Hs1 & Hgen).
  assert (gen_dist gen s < 2^32 - 1) as Hlt by lia.
  pose proof (gen_dist_step gen s s1 Hgen Hlt).
  destruct (IH (pool_op p o) s1) as (s2 & Hs2 & Hle); [by apply pool_op_wf|done|lia|].
  exists s2. split; [done|lia].
Qed.

(** A handle whose fn was unregistered stays dead: whatever registrations
    and unregistrations follow (fewer than [2^32 - 1] of them, the room the
    32-bit generation gives), it never resolves to a fn again, so a stale
    invoke is a no-op and never a misfire into the slot's next tenant. *)
Theorem stale_handle_dead p id gen f os :
  pool_wf p → Pool.get p id gen = Some f →
  Z.of_nat (length os) < 2^32 - 1 →
  Pool.get (pool_ops (Pool.unregister p id gen) os) id gen = None.
Proof.
  intros Hwf Hget Hlen. unfold Pool.get in Hget.
  destruct (slots p !! Z.to_nat id) as [s|] eqn:Hs; simpl in Hget; [|done].
  case_bool_decide as Hg; [|done].
  assert (slots (Pool.unregister p id gen) !! Z.to_nat id = Some (mkSlot None (u32 (gen + 1))))
    as Hs'.
  { unfold Pool.unregister. rewrite Hs, !bool_decide_true by (by rewrite ?Hget). simpl.
    subst gen. by rewrite list_lookup_insert_eq by (by eapply lookup_lt_Some). }
  assert (gen_dist gen (mkSlot None (u32 (gen + 1))) = 1) as Hd.
  { unfold gen_dist, u32. simpl. rewrite Zminus_mod_idemp_l.
    replace (gen + 1 - gen) with 1 by lia. done. }
  destruct (pool_ops_gen_dist os (Pool.unregister p id gen) (Z.to_nat id) _ gen
    ltac:(by apply pool_wf_unregister) Hs' ltac:(lia)) as (s2 & Hs2 & Hle).
  unfold Pool.get. rewrite Hs2. simpl. case_bool_decide as Hg2; [|done].
  rewrite Hd in Hle. unfold gen_dist, u32 in Hle. rewrite Hg2, Z.sub_diag in Hle.
  rewrite Z.mod_0_l in Hle by lia. lia.
Qed.

(** On a well-formed pool [register] never indexes out of bounds, keeps the
    pool well-formed, the fresh handle resolves to the fn just registered, and
    every handle that resolved before still resolves to the same fn. *)
Theorem register_spec p f :
  pool_wf p → Z.of_nat (length (slots p)) < 2^32 →
  ∃ p' id gen, Pool.register p f = Some (p', (id, gen)) ∧ pool_wf p' ∧
    Pool.get p' id gen = Some f ∧ Pool.get p id gen = None ∧
    (∀ id' gen' g, Pool.get p id' gen' = Some g → Pool.get p' id' gen' = Some g).
Proof.
  intros Hwf Hlen. destruct (register_total p f Hwf) as [[p' [id gen]] Hreg].
  exists p', id, gen. split_and!; [done|by eapply pool_wf_register|by eapply get_register_same| |
    intros; by eapply get_register_other].
  unfold Pool.get. destruct (register_inv _ _ _ _ _ Hreg)
    as [(i & s & Hfree & Hs & -> & -> & _)|(_ & _ & -> & -> & _)].
  - rewrite Nat2Z.id, Hs. simpl. rewrite bool_decide_true by done.
    assert (i ∈ free p) as (s' & ? & ?)%(wf_free p Hwf) by (rewrite Hfree; set_solver).
    by simplify_eq.
  - unfold u32. rewrite Z.mod_small, Nat2Z.id by lia. by rewrite lookup_ge_None_2.
Qed.
End PoolFacts.
Arguments PoolOp : clear implicits.

(** A pool with one live fn, freed and recycled. *)
Lemma stale_handle_dead_witness :
  Pool.get (pool_ops (Pool.unregister (mkPool Sync [mkSlot (Some 7%nat) 0] []) 0 0)
              [OpRegister 8%nat]) 0 0 = None.
Proof.
  apply (stale_handle_dead _ _ _ 7%nat); [|reflexivity|reflexivity].
  eapply (pool_wf_register (Pool.new Sync) 7%nat); [apply pool_wf_new|reflexivity].
Defined.

Lemma register_spec_witness :
  ∃ p' id gen, Pool.register ((Pool.new Sync : Pool nat)) 7%nat = Some (p', (id, gen)) ∧ pool_wf p' ∧
    Pool.get p' id gen = Some 7%nat ∧ Pool.get ((Pool.new Sync : Pool nat)) id gen = None ∧
    (∀ id' gen' g, Pool.get ((Pool.new Sync : Pool nat)) id' gen' = Some g → Pool.get p' id' gen' = Some g).
Proof. apply register_spec; [apply pool_wf_new|reflexivity]. Defined.
