(* ===== verification/Versioning.v ===== *)
(** * Node runtime versions ([versioning.rs])

    Policies, the per-DATA advance of a version, and the default FNV-1a hash.
    Turning an erased DATA value into canonical JSON bytes goes through
    [serde_json]; the model takes it through the interface [CanonicalData]. *)

From stdpp Require Import base list option strings numbers.
From S2P Require Import Prelude.

Local Open Scope Z_scope.

(** What versioning needs of [any_to_strict_json] followed by
    [strict_canonical_json_bytes]: an error text or canonical bytes, for a DATA
    value and for the seed that stands for absent DATA. *)
Class CanonicalData (V : Type) := {
  data_bytes : V → string + list Z;
  absent_seed_bytes : string + list Z
}.

Definition MAX_SAFE_INTEGER : Z := 9007199254740991.
Definition u64 (z : Z) : Z := z `mod` 2^64.

Definition NodeVersionHashFn : Type := list Z → string.

Inductive NodeVersioningPolicy :=
| PolicyDisabled
| PolicyLevel0
| PolicyLevel1 (hash : option NodeVersionHashFn).

Inductive ResolvedNodeVersioningPolicy :=
| Disabled
| Level0
| Level1 (hash : NodeVersionHashFn).

Inductive NodeVersion :=
| V0 (counter : Z)
| V1 (counter : Z) (cid : string) (prev : option string).

#[export] Instance NodeVersion_eq_dec : EqDecision NodeVersion.
Proof. solve_decision. Defined.

Definition level (v : NodeVersion) : Z := match v with V0 _ => 0 | V1 _ _ _ => 1 end.
Definition counter (v : NodeVersion) : Z := match v with V0 c | V1 c _ _ => c end.

(** ** The default hash *)

(** One byte of [fnv1a64]. *)
Definition fnv_step (hash byte : Z) : Z :=
  u64 (Z.lxor hash byte * 1099511628211).

Definition fnv1a64_hash (bytes : list Z) : Z :=
  foldl fnv_step 14695981039346656037 bytes.

Definition hex_digit (d : Z) : Ascii.ascii :=
  let n := Z.to_nat d in
  Ascii.ascii_of_nat (if bool_decide (n < 10)%nat then 48 + n else 87 + n)%nat.

(** [format!("{hash:016x}")] for a [u64]: [n] digits, most significant first. *)
Fixpoint hex_pad (n : nat) (h : Z) (acc : string) : string :=
  match n with
  | O => acc
  | S n' => hex_pad n' (Z.shiftr h 4) (String (hex_digit (Z.land h 15)) acc)
  end.

Definition fnv1a64 (bytes : list Z) : string := hex_pad 16 (fnv1a64_hash bytes) EmptyString.

Definition default_node_version_hash (bytes : list Z) : string :=
  ("fnv1a64:" +:+ fnv1a64 bytes)%string.

Definition resolve_node_versioning_policy (p : option NodeVersioningPolicy)
    : ResolvedNodeVersioningPolicy :=
  match p with
  | Some PolicyDisabled => Disabled
  | None | Some PolicyLevel0 => Level0
  | Some (PolicyLevel1 h) => Level1 (default default_node_version_hash h)
  end.

(** [Ok]/[Err] as a sum, the error text on the left. *)
Definition next_counter (current : option NodeVersion) : string + Z :=
  match current with
  | None => inr 1
  | Some v =>
      let c := counter v + 1 in
      if bool_decide (2^64 ≤ c) then
        inl "node versioning: counter overflow while advancing node runtime version (D109)"%string
      else if bool_decide (MAX_SAFE_INTEGER < c) then
        inl "node versioning: counter exceeded the strict JSON safe-integer range (D109)"%string
      else inr c
  end.

Section Versions.
Context {V : Type} `{!CanonicalData V}.

Definition hash_node_data (hash : NodeVersionHashFn) (value : option V) : string + string :=
  match (match value with Some v => data_bytes v | None => absent_seed_bytes end) with
  | inl e => inl e
  | inr bytes => inr (hash bytes)
  end.

Definition create_node_version (p : ResolvedNodeVersioningPolicy) (initial : option V)
    : string + option NodeVersion :=
  match p with
  | Disabled => inr None
  | Level0 => inr (Some (V0 0))
  | Level1 h =>
      match hash_node_data h initial with
      | inl e => inl e
      | inr cid => inr (Some (V1 0 cid None))
      end
  end.

Definition assert_node_version_data_compatible (p : ResolvedNodeVersioningPolicy) (v : V)
    : string + unit :=
  match p with
  | Level1 _ => match data_bytes v with inl e => inl e | inr _ => inr tt end
  | _ => inr tt
  end.

Definition advance_node_version (current : option NodeVersion)
    (p : ResolvedNodeVersioningPolicy) (v : V) : string + option NodeVersion :=
  match p with
  | Disabled => inr None
  | Level0 =>
      match next_counter current with
      | inl e => inl e
      | inr c => inr (Some (V0 c))
      end
  | Level1 h =>
      let previous := match current with Some (V1 _ cid _) => Some cid | _ => None end in
      match next_counter current with
      | inl e => inl e
      | inr c =>
          match hash_node_data h (Some v) with
          | inl e => inl e
          | inr cid => inr (Some (V1 c cid previous))
          end
      end
  end.

(** Folding the advance over a sequence of DATA values. *)
Fixpoint advance_all (p : ResolvedNodeVersioningPolicy) (current : option NodeVersion)
    (vs : list V) : string + option NodeVersion :=
  match vs with
  | [] => inr current
  | v :: vs' =>
      match advance_node_version current p v with
      | inl e => inl e
      | inr next => advance_all p next vs'
      end
  end.

(** The versions a policy can have: none when disabled, the policy's level
    otherwise, with a counter in the safe-integer range. *)
Definition version_ok (p : ResolvedNodeVersioningPolicy) (v : option NodeVersion) : Prop :=
  match p, v with
  | Disabled, None => True
  | Level0, Some (V0 c) => 0 ≤ c ≤ MAX_SAFE_INTEGER
  | Level1 _, Some (V1 c _ prev) => 0 ≤ c ≤ MAX_SAFE_INTEGER ∧ (c = 0 ↔ prev = None)
  | _, _ => False
  end.

Lemma next_counter_inv cur c :
  next_counter (Some cur) = inr c → c = counter cur + 1 ∧ c ≤ MAX_SAFE_INTEGER.
Proof. simpl. repeat case_bool_decide; intros; simplify_eq. lia. Qed.

Lemma create_node_version_ok p initial v :
  create_node_version p initial = inr v → version_ok p v.
Proof.
  unfold create_node_version. destruct p; [by intros [= <-]|by intros [= <-]|].
  destruct (hash_node_data hash initial); [done|]. by intros [= <-].
Qed.

Lemma advance_ok p cur v next :
  version_ok p cur → advance_node_version cur p v = inr next →
  version_ok p next ∧
  (p ≠ Disabled → counter <$> next = (λ c, counter c + 1) <$> cur).
Proof.
  intros Hok. unfold advance_node_version. destruct p; [by intros [= <-]|..];
    destruct cur as [[c|c cid prev]|]; simpl in Hok; try done;
    destruct (next_counter _) as [|c'] eqn:Hc; try done;
    apply next_counter_inv in Hc as [-> Hle]; simpl in *.
  - intros [= <-]. split; [simpl; lia|done].
  - destruct (hash_node_data _ _); [done|]. intros [= <-]. split; [|done].
    simpl. split; [lia|]. split; [lia|done].
Qed.

(** Starting from a freshly created version, accepting DATA values one at a
    time keeps the version at the policy's level with a counter that never
    leaves the JSON safe-integer range and that equals the number of values
    accepted; a V1 version has a parent iff at least one value was accepted. *)
Theorem version_counts_data p initial v0 vs v :
  create_node_version p initial = inr v0 → advance_all p v0 vs = inr v →
  version_ok p v ∧ (p ≠ Disabled → counter <$> v = Some (Z.of_nat (length vs))).
Proof.
  intros Hc. assert (p ≠ Disabled → counter <$> v0 = Some 0) as H0.
  { unfold create_node_version in Hc. destruct p; simplify_eq/=; [done|done|].
    intros _. destruct (hash_node_data _ _); by simplify_eq/=. }
  apply create_node_version_ok in Hc as Hok.
  assert (∀ v0 n, version_ok p v0 → (p ≠ Disabled → counter <$> v0 = Some n) →
    advance_all p v0 vs = inr v →
    version_ok p v ∧ (p ≠ Disabled → counter <$> v = Some (n + Z.of_nat (length vs)))) as Hgen.
  { clear. induction vs as [|x vs IH]; intros v0 n Hok Hn H; simpl in *.
    { simplify_eq. split; [done|]. rewrite Z.add_0_r. done. }
    destruct (advance_node_version v0 p x) as [|v1] eqn:Ha; [done|].
    destruct (advance_ok _ _ _ _ Hok Ha) as [Hok1 Hc1].
    destruct (IH v1 (n + 1) Hok1) as [? Hlen]; [|done|].
    - intros Hp. rewrite Hc1 by done. specialize (Hn Hp). destruct v0; by simplify_eq/=.
    - split; [done|]. intros Hp. rewrite Hlen by done. f_equal. lia. }
  intros H. by apply (Hgen v0 0).
Qed.

(** A version chains: the parent recorded by a V1 advance is the content id
    the version had before, whatever the hash policy. *)
Theorem version_chain h c cid prev v next :
  advance_node_version (Some (V1 c cid prev)) (Level1 h) v = inr next →
  ∃ cid', next = Some (V1 (c + 1) cid' (Some cid)) ∧ hash_node_data h (Some v) = inr cid'.
Proof.
  unfold advance_node_version. destruct (next_counter _) as [|c'] eqn:Hc; [done|].
  apply next_counter_inv in Hc as [-> _].
  destruct (hash_node_data h (Some v)) as [|cid']; [done|]. intros [= <-]. by exists cid'.
Qed.
End Versions.

Lemma fnv1a64_hash_range bytes : 0 ≤ fnv1a64_hash bytes < 2^64.
Proof.
  unfold fnv1a64_hash. induction bytes as [|b bytes _] using rev_ind; simpl; [lia|].
  rewrite foldl_app. simpl. unfold fnv_step, u64. apply Z.mod_pos_bound. lia.
Qed.

Lemma hex_pad_length n h acc : String.length (hex_pad n h acc) = (n + String.length acc)%nat.
Proof. revert h acc. induction n; intros; simpl; [done|]. rewrite IHn. simpl. lia. Qed.

(** The reference vectors of FNV-1a 64: the empty input and ["a"]. *)
Example fnv1a64_empty : fnv1a64 [] = "cbf29ce484222325"%string.
Proof. vm_compute. reflexivity. Qed.

Example fnv1a64_a : fnv1a64 [97] = "af63dc4c8601ec8c"%string.
Proof. vm_compute. reflexivity. Qed.

#[local] Instance CanonicalData_Z : CanonicalData Z :=
  {| data_bytes z := inr [z]; absent_seed_bytes := inr [] |}.

Lemma version_counts_data_witness :
  version_ok (Level1 fnv1a64) (Some (V1 2 (fnv1a64 [6]) (Some (fnv1a64 [5])))) ∧
  (Level1 fnv1a64 ≠ Disabled →
   counter <$> Some (V1 2 (fnv1a64 [6]) (Some (fnv1a64 [5]))) = Some (Z.of_nat (length [5; 6]))).
Proof. apply (version_counts_data _ None (Some (V1 0 (fnv1a64 []) None))); reflexivity. Defined.

Lemma version_chain_witness :
  ∃ cid', Some (V1 1 (fnv1a64 [9]) (Some (fnv1a64 [])))
    = Some (V1 (0 + 1) cid' (Some (fnv1a64 []))) ∧
    hash_node_data fnv1a64 (Some 9) = inr cid'.
Proof. apply (version_chain fnv1a64 0 (fnv1a64 []) None 9). reflexivity. Defined.
