(* ===== verification/Arena.v ===== *)
(** * The graph-local node arena ([GraphCore] in node.rs)

    Slots are addressed by [NodeKey] (index and generation).  The Rust arena
    keeps eight parallel slot vectors that are always filled and vacated
    together; the model keeps one vector whose payload [T] is the tuple of the
    eight.  [B] is the type of queued boundary tasks. *)

From stdpp Require Import base option strings numbers sets list.
From S2P Require Import Prelude.

Local Open Scope Z_scope.

Record NodeKey := mkNodeKey { key_id : nat; key_generation : Z }.

#[export] Instance NodeKey_eq_dec : EqDecision NodeKey.
Proof. solve_decision. Defined.

Record GraphCore (T B : Type) := mkGraphCore {
  g_slots : list (option T);
  g_generations : list Z;
  g_touched_waves : list Z;
  g_pins : list Z;
  g_free : list nat;
  g_deferred_boundary : list B;
  g_draining_boundary : bool
}.
Arguments mkGraphCore {T B} _ _ _ _ _ _ _.
Arguments g_slots {T B} _.
Arguments g_generations {T B} _.
Arguments g_touched_waves {T B} _.
Arguments g_pins {T B} _.
Arguments g_free {T B} _.
Arguments g_deferred_boundary {T B} _.
Arguments g_draining_boundary {T B} _.

Module Arena.
Section Ops.
Context {T B : Type}.
Abbreviation GraphCore := (GraphCore T B).
Implicit Types g : GraphCore.

Definition new : GraphCore := mkGraphCore [] [] [] [] [] [] false.

(** [alloc]: [None] is the panic on generation overflow (or on an index out of
    bounds, which [arena_wf] excludes). *)
Definition alloc g (slot : T) : option (GraphCore * nat) :=
  match reverse (g_free g) with
  | id :: rest =>
      gen ← g_generations g !! id;
      let next_generation := gen + 1 in
      if bool_decide (2^64 ≤ next_generation) then None else
      Some (mkGraphCore (<[id := Some slot]> (g_slots g))
              (<[id := next_generation]> (g_generations g))
              (<[id := 0]> (g_touched_waves g)) (<[id := 0]> (g_pins g))
              (reverse rest) (g_deferred_boundary g) (g_draining_boundary g), id)
  | [] =>
      Some (mkGraphCore (g_slots g ++ [Some slot]) (g_generations g ++ [0])
              (g_touched_waves g ++ [0]) (g_pins g ++ [0])
              (g_free g) (g_deferred_boundary g) (g_draining_boundary g),
            length (g_slots g))
  end.

Definition key_for g (id : nat) : option NodeKey := mkNodeKey id <$> g_generations g !! id.

Definition is_live g (id : nat) : bool :=
  match g_slots g !! id with Some (Some _) => true | _ => false end.

Definition is_live_key g (k : NodeKey) : bool :=
  bool_decide (g_generations g !! key_id k = Some (key_generation k)) && is_live g (key_id k).

(** [get] and its relatives: [None] is the panic
    "Core points at a stale or freed GraphCore slot". *)
Definition get g (k : NodeKey) : option T :=
  if is_live_key g k then mjoin (g_slots g !! key_id k) else None.

(** The [get_*_mut] family: apply [f] to the slot of a live key. *)
Definition upd g (k : NodeKey) (f : T → T) : GraphCore :=
  if is_live_key g k then
    mkGraphCore (alter (fmap f) (key_id k) (g_slots g)) (g_generations g) (g_touched_waves g)
      (g_pins g) (g_free g) (g_deferred_boundary g) (g_draining_boundary g)
  else g.

Definition set_pins g (ps : list Z) : GraphCore :=
  mkGraphCore (g_slots g) (g_generations g) (g_touched_waves g) ps
    (g_free g) (g_deferred_boundary g) (g_draining_boundary g).

(** [pin_live_key]; the overflow panic of the counter is out of reach of a
    64-bit count and not modelled. *)
Definition pin_live_key g (k : NodeKey) : GraphCore * bool :=
  if is_live_key g k then (set_pins g (alter (Z.add 1) (key_id k) (g_pins g)), true)
  else (g, false).

Definition release_pin g (k : NodeKey) : GraphCore :=
  if bool_decide (g_generations g !! key_id k = Some (key_generation k)) then
    set_pins g (alter (λ p, if bool_decide (0 < p) then p - 1 else p) (key_id k) (g_pins g))
  else g.

Definition pin_count g (k : NodeKey) : Z :=
  if bool_decide (g_generations g !! key_id k = Some (key_generation k)) then
    default 0 (g_pins g !! key_id k)
  else 0.

Definition take_live g (k : NodeKey) : option (GraphCore * T) :=
  t ← get g k;
  Some (mkGraphCore (<[key_id k := None]> (g_slots g)) (g_generations g) (g_touched_waves g)
          (g_pins g) (g_free g) (g_deferred_boundary g) (g_draining_boundary g), t).

Definition push_free g (id : nat) : GraphCore :=
  mkGraphCore (g_slots g) (g_generations g) (g_touched_waves g) (g_pins g)
    (g_free g ++ [id]) (g_deferred_boundary g) (g_draining_boundary g).

(** [free_slot_if_unreferenced]: the last handle of a slot is gone ([refs] is
    the handle count).  The cleanup callbacks between vacating the slot and
    recycling its index are user code and run on the returned payload. *)
Definition free_slot_if_unreferenced g (k : NodeKey) (refs : Z) : GraphCore * option T :=
  if bool_decide (refs ≠ 0) then (g, None)
  else if bool_decide (pin_count g k ≠ 0) then (g, None)
  else match take_live g k with
       | None => (g, None)
       | Some (g', t) => (push_free g' (key_id k), Some t)
       end.
End Ops.
End Arena.

Section ArenaFacts.
Context {T B : Type}.
Implicit Types g : GraphCore T B.

(** The vectors are parallel and the free list names vacated slots only. *)
Record arena_wf g : Prop := {
  wf_gens : length (g_generations g) = length (g_slots g);
  wf_touched : length (g_touched_waves g) = length (g_slots g);
  wf_pins : length (g_pins g) = length (g_slots g);
  wf_gfree_nodup : NoDup (g_free g);
  wf_gfree : ∀ id, id ∈ g_free g → g_slots g !! id = Some None;
}.

Lemma is_live_lookup g id : Arena.is_live g id = true ↔ ∃ t, g_slots g !! id = Some (Some t).
Proof.
  unfold Arena.is_live. destruct (g_slots g !! id) as [[t|]|]; (split; [intros ?; by eauto|intros [? ?]; by simplify_eq]).
Qed.

Lemma is_live_key_spec g k :
  Arena.is_live_key g k = true
  ↔ g_generations g !! key_id k = Some (key_generation k) ∧ ∃ t, g_slots g !! key_id k = Some (Some t).
Proof.
  unfold Arena.is_live_key. by rewrite andb_true_iff, bool_decide_eq_true, is_live_lookup.
Qed.

Lemma get_is_live g k : is_Some (Arena.get g k) ↔ Arena.is_live_key g k = true.
Proof.
  unfold Arena.get. destruct (Arena.is_live_key g k) eqn:H; [|split; [by intros [? ?]|done]].
  apply is_live_key_spec in H as [_ [t ->]]. simpl. naive_solver.
Qed.

Lemma is_live_key_upd g k f k' : Arena.is_live_key (Arena.upd g k f) k' = Arena.is_live_key g k'.
Proof.
  unfold Arena.upd. destruct (Arena.is_live_key g k); [|done].
  unfold Arena.is_live_key, Arena.is_live. simpl. f_equal.
  destruct (decide (key_id k = key_id k')) as [->|?].
  - rewrite list_lookup_alter_eq. by destruct (g_slots g !! key_id k') as [[?|]|].
  - by rewrite list_lookup_alter_ne.
Qed.

(** The functional-map laws of [get] and [upd]. *)
Lemma get_upd_same g k f : Arena.get (Arena.upd g k f) k = f <$> Arena.get g k.
Proof.
  unfold Arena.get. rewrite is_live_key_upd. unfold Arena.upd.
  destruct (Arena.is_live_key g k); [|done]. simpl. rewrite list_lookup_alter_eq.
  by destruct (g_slots g !! key_id k) as [[?|]|].
Qed.

Lemma get_upd_other g k f k' : k ≠ k' → Arena.get (Arena.upd g k f) k' = Arena.get g k'.
Proof.
  intros Hne. unfold Arena.get. rewrite is_live_key_upd. unfold Arena.upd.
  destruct (Arena.is_live_key g k) eqn:Hk; [|done].
  destruct (Arena.is_live_key g k') eqn:Hk'; [|done]. simpl.
  destruct (decide (key_id k = key_id k')) as [Heq|?]; [|by rewrite list_lookup_alter_ne].
  apply is_live_key_spec in Hk as [H1 _]. apply is_live_key_spec in Hk' as [H2 _].
  rewrite Heq, H2 in H1. destruct k, k'; simpl in *; congruence.
Qed.

Lemma get_upd g k f k' :
  Arena.get (Arena.upd g k f) k' = if decide (k = k') then f <$> Arena.get g k else Arena.get g k'.
Proof. destruct (decide (k = k')) as [<-|]; [apply get_upd_same|by apply get_upd_other]. Qed.

Lemma arena_wf_new : arena_wf (Arena.new : GraphCore T B).
Proof. constructor; simpl; [done..|constructor|]. by intros id ?%elem_of_nil. Qed.

Lemma alloc_inv g t g' id :
  Arena.alloc g t = Some (g', id) →
  (g_free g = g_free g' ++ [id] ∧ (∃ gen, g_generations g !! id = Some gen ∧ gen + 1 < 2^64 ∧
     g_generations g' = <[id := gen + 1]> (g_generations g)) ∧
   g_slots g' = <[id := Some t]> (g_slots g))
  ∨ (g_free g = [] ∧ g_free g' = [] ∧ id = length (g_slots g) ∧
     g_slots g' = g_slots g ++ [Some t] ∧ g_generations g' = g_generations g ++ [0]).
Proof.
  unfold Arena.alloc. destruct (reverse (g_free g)) as [|i rest] eqn:Hr;
    apply (f_equal reverse) in Hr; rewrite reverse_involutive in Hr.
  - intros [= <- <-]. right. simpl. by rewrite Hr.
  - destruct (g_generations g !! i) as [gen|] eqn:Hg; simpl; [|done].
    case_bool_decide; [done|]. intros [= <- <-]. left. simpl.
    rewrite Hr, reverse_cons. split_and!; [done| |done]. exists gen. split_and!; [done|lia|done].
Qed.

Lemma arena_wf_alloc g t g' id : arena_wf g → Arena.alloc g t = Some (g', id) → arena_wf g'.
Proof.
  intros Hwf Ha. pose proof (alloc_inv _ _ _ _ Ha) as Hinv.
  assert (length (g_touched_waves g') = length (g_slots g') ∧ length (g_pins g') = length (g_slots g'))
    as [Hlt Hlp].
  { unfold Arena.alloc in Ha. pose proof (wf_touched g Hwf). pose proof (wf_pins g Hwf).
    destruct (reverse _); [by simplify_eq/=; rewrite !length_app; simpl; lia|].
    destruct (_ !! _); simplify_eq/=. case_bool_decide; simplify_eq/=. by rewrite !length_insert. }
  pose proof (wf_gens g Hwf).
  destruct Hinv as [(Hf & (gen & _ & _ & Hg) & Hs)|(Hf & Hf' & -> & Hs & Hg)].
  - pose proof (wf_gfree_nodup g Hwf) as Hnd. rewrite Hf in Hnd.
    apply list.NoDup_app in Hnd as (Hnd & Hni & _).
    rewrite Hs, length_insert in Hlt, Hlp.
    constructor; rewrite ?Hg, ?Hs, ?length_insert; [done|done|done|done|].
    intros i Hi. rewrite list_lookup_insert_ne.
    + apply (wf_gfree g Hwf). rewrite Hf. set_solver.
    + intros ->. apply (Hni i Hi). set_solver.
  - rewrite Hs, length_app in Hlt, Hlp.
    constructor; rewrite ?Hg, ?Hs, ?Hf', ?length_app; simpl in *; [lia|lia|lia|constructor|].
    by intros i ?%elem_of_nil.
Qed.

Lemma arena_wf_upd g k f : arena_wf g → arena_wf (Arena.upd g k f).
Proof.
  intros Hwf. unfold Arena.upd. destruct (Arena.is_live_key g k) eqn:Hk; [|done].
  apply is_live_key_spec in Hk as [_ [t Ht]].
  constructor; simpl; rewrite ?length_alter; try apply Hwf.
  intros id Hid. pose proof (wf_gfree g Hwf id Hid).
  rewrite list_lookup_alter_ne; [done|]. intros <-. congruence.
Qed.

Lemma take_live_inv g k g' t :
  Arena.take_live g k = Some (g', t) →
  Arena.get g k = Some t ∧ g_slots g' = <[key_id k := None]> (g_slots g) ∧
  g_generations g' = g_generations g ∧ g_free g' = g_free g ∧
  g_touched_waves g' = g_touched_waves g ∧ g_pins g' = g_pins g.
Proof.
  unfold Arena.take_live. destruct (Arena.get g k); simpl; [|done]. by intros [= <- <-].
Qed.

Lemma get_Some g k t :
  Arena.get g k = Some t ↔
  g_generations g !! key_id k = Some (key_generation k) ∧ g_slots g !! key_id k = Some (Some t).
Proof.
  unfold Arena.get. destruct (Arena.is_live_key g k) eqn:H.
  - apply is_live_key_spec in H as [H [t' Ht]]. rewrite Ht. simpl. naive_solver.
  - split; [done|]. intros [H1 H2].
    assert (Arena.is_live_key g k = true) by (apply is_live_key_spec; eauto). congruence.
Qed.

Lemma arena_wf_free g k refs : arena_wf g → arena_wf (Arena.free_slot_if_unreferenced g k refs).1.
Proof.
  intros Hwf. unfold Arena.free_slot_if_unreferenced. repeat case_bool_decide; try done.
  destruct (Arena.take_live g k) as [[g' t]|] eqn:Ht; [|done]. simpl.
  apply take_live_inv in Ht as (Hget & Hs & Hg & Hf & Htw & Hp).
  apply get_Some in Hget as [_ Hslot].
  assert (key_id k ∉ g_free g') as Hni.
  { rewrite Hf. intros Hin%(wf_gfree g Hwf). congruence. }
  constructor; simpl; rewrite ?Hs, ?Hg, ?Htw, ?Hp, ?length_insert; try apply Hwf.
  - apply list.NoDup_app. split; [rewrite Hf; by apply Hwf|]. split; [|apply NoDup_singleton].
    set_solver.
  - intros id. rewrite elem_of_app, list_elem_of_singleton. intros [Hid| ->].
    + destruct (decide (key_id k = id)) as [<-|]; [by destruct Hni|].
      rewrite list_lookup_insert_ne by done. apply Hwf. by rewrite <-Hf.
    + apply list_lookup_insert_eq. by eapply lookup_lt_Some.
Qed.

(** ** Stale keys *)

(** The operations that change which keys are live. *)
Inductive ArenaOp :=
| ArAlloc (t : T)
| ArUpd (k : NodeKey) (f : T → T)
| ArPin (k : NodeKey)
| ArRelease (k : NodeKey)
| ArDropHandle (k : NodeKey) (refs : Z).

Definition arena_op g (o : ArenaOp) : GraphCore T B :=
  match o with
  | ArAlloc t => match Arena.alloc g t with Some (g', _) => g' | None => g end
  | ArUpd k f => Arena.upd g k f
  | ArPin k => (Arena.pin_live_key g k).1
  | ArRelease k => Arena.release_pin g k
  | ArDropHandle k refs => (Arena.free_slot_if_unreferenced g k refs).1
  end.

(** A key is spent once its slot's generation moved on, or is about to. *)
Definition spent g (k : NodeKey) : Prop :=
  ∃ gen, g_generations g !! key_id k = Some gen ∧
    (key_generation k < gen ∨ key_generation k = gen ∧ g_slots g !! key_id k = Some None).

Lemma spent_dead g k : spent g k → Arena.is_live_key g k = false.
Proof.
  intros (gen & Hg & Hc). apply not_true_iff_false. rewrite is_live_key_spec.
  intros [H1 [t H2]]. destruct Hc as [?|[? ?]]; simplify_eq. lia.
Qed.

Lemma arena_op_wf g o : arena_wf g → arena_wf (arena_op g o).
Proof.
  intros Hwf. destruct o; simpl.
  - destruct (Arena.alloc g t) as [[g' id]|] eqn:H; [by eapply arena_wf_alloc|done].
  - by apply arena_wf_upd.
  - unfold Arena.pin_live_key. destruct (Arena.is_live_key g k); simpl; [|done].
    constructor; simpl; rewrite ?length_alter; apply Hwf.
  - unfold Arena.release_pin. case_bool_decide; [|done].
    constructor; simpl; rewrite ?length_alter; apply Hwf.
  - by apply arena_wf_free.
Qed.

Lemma spent_step g o k : arena_wf g → spent g k → spent (arena_op g o) k.
Proof.
  intros Hwf (gen & Hg & Hc). destruct o as [t|k' f|k'|k'|k' refs]; simpl.
  - destruct (Arena.alloc g t) as [[g' id]|] eqn:Ha; [|by exists gen].
    destruct (alloc_inv _ _ _ _ Ha) as [(Hf & (gen' & Hg' & _ & Hgens) & Hs)|(_ & _ & -> & Hs & Hgens)].
    + destruct (decide (id = key_id k)) as [->|Hne].
      * exists (gen' + 1). rewrite Hgens, list_lookup_insert_eq by (by eapply lookup_lt_Some).
        simplify_eq. split; [done|]. left. lia.
      * exists gen. by rewrite Hgens, Hs, !list_lookup_insert_ne.
    + exists gen. rewrite Hgens, Hs, (lookup_app_l_Some _ _ _ _ Hg). split; [done|].
      destruct Hc as [?|[? Hc]]; [by left|right]. by rewrite (lookup_app_l_Some _ _ _ _ Hc).
  - exists gen. unfold Arena.upd. destruct (Arena.is_live_key g k'); [|done]. simpl.
    split; [done|]. destruct Hc as [?|[? Hc]]; [by left|right]. split; [done|].
    destruct (decide (key_id k' = key_id k)) as [->|?].
    + by rewrite list_lookup_alter_eq, Hc.
    + by rewrite list_lookup_alter_ne.
  - exists gen. unfold Arena.pin_live_key. by destruct (Arena.is_live_key g k').
  - exists gen. unfold Arena.release_pin. by case_bool_decide.
  - exists gen. unfold Arena.free_slot_if_unreferenced. repeat case_bool_decide; try done.
    destruct (Arena.take_live g k') as [[g' t]|] eqn:Ht; [|done].
    apply take_live_inv in Ht as (_ & Hs & Hgens & _). simpl. rewrite Hgens, Hs.
    split; [done|]. destruct Hc as [?|[? Hc]]; [by left|right]. split; [done|].
    destruct (decide (key_id k' = key_id k)) as [->|?].
    + apply list_lookup_insert_eq. by eapply lookup_lt_Some.
    + by rewrite list_lookup_insert_ne.
Qed.

(** A key whose slot was freed is dead forever: no sequence of
    allocations, updates, pins and handle drops makes it resolve again
    (generations never wrap, [alloc] panics instead). *)
Theorem freed_key_never_live g k t os :
  arena_wf g → (Arena.free_slot_if_unreferenced g k 0).2 = Some t →
  Arena.get (foldl arena_op (Arena.free_slot_if_unreferenced g k 0).1 os) k = None.
Proof.
  intros Hwf Hfree.
  assert (spent (Arena.free_slot_if_unreferenced g k 0).1 k) as Hsp.
  { unfold Arena.free_slot_if_unreferenced in *. repeat case_bool_decide; try done.
    destruct (Arena.take_live g k) as [[g' t']|] eqn:Ht; [|done]. simpl in *.
    apply take_live_inv in Ht as (Hget & Hs & Hg & _). apply get_Some in Hget as [Hgen Hslot].
    exists (key_generation k). simpl. rewrite Hg, Hs. split; [done|]. right. split; [done|].
    apply list_lookup_insert_eq. by eapply lookup_lt_Some. }
  apply (arena_wf_free g k 0) in Hwf. revert Hwf Hsp.
  generalize (Arena.free_slot_if_unreferenced g k 0).1. clear.
  induction os as [|o os IH]; intros g Hwf Hsp; simpl.
  - unfold Arena.get. by rewrite (spent_dead _ _ Hsp).
  - apply IH; [by apply arena_op_wf|by apply spent_step].
Qed.

Lemma get_None g k :
  (g_generations g !! key_id k ≠ Some (key_generation k)
   ∨ ∀ t, g_slots g !! key_id k ≠ Some (Some t)) → Arena.get g k = None.
Proof.
  intros H. destruct (Arena.get g k) eqn:Hk; [|done]. apply get_Some in Hk as [? ?]. naive_solver.
Qed.

Lemma alloc_get g t g' id :
  arena_wf g → Arena.alloc g t = Some (g', id) →
  ∃ k, Arena.key_for g' id = Some k ∧ Arena.get g k = None ∧ Arena.get g' k = Some t ∧
    (∀ k', k' ≠ k → Arena.get g' k' = Arena.get g k').
Proof.
  intros Hwf Ha. unfold Arena.key_for. pose proof (wf_gens g Hwf) as Hlen.
  assert (∀ k', Arena.get g k' = None → (∀ x, Arena.get g' k' = Some x → False) →
    Arena.get g' k' = Arena.get g k') as Hnone by (intros k' ->; destruct (Arena.get g' k'); naive_solver).
  destruct (alloc_inv _ _ _ _ Ha) as [(Hf & (gen & Hg & _ & Hgens) & Hs)|(_ & _ & -> & Hs & Hgens)].
  - assert (g_slots g !! id = Some None) as Hn.
    { apply (wf_gfree g Hwf). rewrite Hf. set_solver. }
    pose proof (lookup_lt_Some _ _ _ Hn) as Hlt. pose proof (lookup_lt_Some _ _ _ Hg) as Hltg.
    rewrite Hgens, list_lookup_insert_eq by done. simpl.
    exists (mkNodeKey id (gen + 1)). split_and!; [done|..].
    + apply get_None. right. simpl. congruence.
    + apply get_Some. simpl. by rewrite Hgens, Hs, !list_lookup_insert_eq.
    + intros [id' gen'] Hne. destruct (decide (id = id')) as [<-|Hid].
      * apply Hnone; [apply get_None; right; simpl; congruence|].
        intros x [Hx _]%get_Some. simpl in Hx. rewrite Hgens, list_lookup_insert_eq in Hx by done.
        by simplify_eq.
      * unfold Arena.get, Arena.is_live_key, Arena.is_live. simpl.
        by rewrite Hgens, Hs, !list_lookup_insert_ne.
  - rewrite Hgens, <-Hlen, lookup_app_r, Nat.sub_diag by done. simpl.
    exists (mkNodeKey (length (g_generations g)) 0). split_and!; [done|..].
    + apply get_None. left. simpl. rewrite lookup_ge_None_2 by lia. done.
    + apply get_Some. simpl. rewrite Hgens, Hs, Hlen, !lookup_app_r, Nat.sub_diag by lia.
      rewrite <-Hlen, Nat.sub_diag. done.
    + intros [id' gen'] Hne. destruct (decide (id' < length (g_slots g))%nat) as [Hlt|Hge].
      * unfold Arena.get, Arena.is_live_key, Arena.is_live. simpl.
        by rewrite Hgens, Hs, !lookup_app_l by lia.
      * apply Hnone.
        { apply get_None. left. simpl. rewrite lookup_ge_None_2 by lia. done. }
        intros x [Hx _]%get_Some. simpl in Hx. rewrite Hgens, lookup_app_r in Hx by lia.
        apply list_lookup_singleton_Some in Hx as [Hx <-]. apply Hne. f_equal. lia.
Qed.

(** [alloc] hands out a key that was not live before, resolves it to the
    payload stored, and changes the resolution of no other key. *)
Theorem alloc_fresh g t g' id :
  arena_wf g → Arena.alloc g t = Some (g', id) →
  arena_wf g' ∧ ∃ k, Arena.key_for g' id = Some k ∧ Arena.get g k = None
    ∧ Arena.get g' k = Some t ∧ ∀ k', k' ≠ k → Arena.get g' k' = Arena.get g k'.
Proof. intros Hwf Ha. split; [by eapply arena_wf_alloc|by apply alloc_get]. Qed.
End ArenaFacts.
Arguments ArenaOp : clear implicits.

Lemma freed_key_never_live_witness :
  let g := mkGraphCore [Some 5%nat] [0] [0] [0] [] ([] : list unit) false in
  Arena.get (foldl arena_op (Arena.free_slot_if_unreferenced g (mkNodeKey 0 0) 0).1 [ArAlloc 6%nat])
    (mkNodeKey 0 0) = None.
Proof.
  apply (freed_key_never_live _ _ 5%nat); [|reflexivity].
  apply (arena_wf_alloc (Arena.new : GraphCore nat unit) 5%nat _ 0%nat); [apply arena_wf_new|reflexivity].
Defined.

Lemma alloc_fresh_witness :
  let g := mkGraphCore [Some 5%nat] [0] [0] [0] [] ([] : list unit) false in
  let g' := mkGraphCore [Some 5; Some 6]%nat [0; 0] [0; 0] [0; 0] [] ([] : list unit) false in
  arena_wf g' ∧ ∃ k, Arena.key_for g' 1 = Some k ∧ Arena.get g k = None
    ∧ Arena.get g' k = Some 6%nat ∧ ∀ k', k' ≠ k → Arena.get g' k' = Arena.get g k'.
Proof.
  apply (alloc_fresh (mkGraphCore [Some 5%nat] [0] [0] [0] [] ([] : list unit) false) 6%nat);
    [|reflexivity].
  apply (arena_wf_alloc (Arena.new : GraphCore nat unit) 5%nat _ 0%nat); [apply arena_wf_new|reflexivity].
Defined.
