(* ===== verification/NodeState.v ===== *)
(** * The state of the wave engine (node.rs, ctx.rs, batch.rs)

    One record per Rust struct, the user-code interface (what a node fn sees
    and may do), and the world the engine's operations transform.  [set_<f>]
    updates one field of a record. *)

From stdpp Require Import base option strings numbers gmap list.
From S2P Require Import Prelude Protocol Dispatcher Versioning Arena.

Local Open Scope Z_scope.

(** ** Node state *)

Module Status.
Inductive t := Sentinel | Pending | Dirty | Settled | Resolved | Completed | Errored.

#[global] Instance t_eq_dec : EqDecision t.
Proof. solve_decision. Defined.

Definition is_fresh (s : t) : bool := match s with Settled | Resolved => true | _ => false end.
Definition is_terminal (s : t) : bool := match s with Completed | Errored => true | _ => false end.
End Status.

Module Pausable.
(** [Pausable::{True, ResumeAll, False}]. *)
Inductive t := On | ResumeAll | Off.

#[global] Instance t_eq_dec : EqDecision t.
Proof. solve_decision. Defined.
End Pausable.

(** A node handle: the arena it lives in and its generation-checked key. *)
Record Core := mkCore { c_graph : nat; c_key : NodeKey }.

#[export] Instance Core_eq_dec : EqDecision Core.
Proof. solve_decision. Defined.

Definition same_graph (a b : Core) : bool := bool_decide (c_graph a = c_graph b).
Definition ptr_eq (a b : Core) : bool := bool_decide (a = b).

(** Rust closures are opaque: the state stores an identity and the meaning of
    the identity is a parameter of the engine ([UserCode] below). *)
Definition FnId : Type := nat.
Definition SinkId : Type := nat.
Definition HookId : Type := nat.

Inductive DepTerminal := DepComplete | DepError (msg : string).

Inductive WaveData (V : Type) := WData (v : V) | WSentinel.
Arguments WData {V} v.
Arguments WSentinel {V}.

(** A message, and a wave, of erased values. *)
Abbreviation Msg V := (Message V).
Abbreviation Wave V := (list (Message V)).

(** Per-dependency wave bookkeeping: parallel vectors, one cell per dep. *)
Record DepState (V : Type) := mkDepState {
  ds_batch : list (option (list V));
  ds_batch_waves : list (list (list (WaveData V)));
  ds_batch_wave_id : list (option Z);
  ds_prev : list (option V);
  ds_has_data : list bool;
  ds_dirty : list bool;
  ds_tier : list Z;
  ds_pending : Z;
  ds_terminal : list (option DepTerminal);
  ds_terminal_wave : list (option DepTerminal)
}.
Arguments mkDepState {V} _ _ _ _ _ _ _ _ _ _.
Arguments ds_batch {V} _.
Arguments ds_batch_waves {V} _.
Arguments ds_batch_wave_id {V} _.
Arguments ds_prev {V} _.
Arguments ds_has_data {V} _.
Arguments ds_dirty {V} _.
Arguments ds_tier {V} _.
Arguments ds_pending {V} _.
Arguments ds_terminal {V} _.
Arguments ds_terminal_wave {V} _.
Definition set_ds_batch {V : Type} (g : (list (option (list V))) → (list (option (list V)))) (r : DepState V) : DepState V :=
  mkDepState (g (ds_batch r)) (ds_batch_waves r) (ds_batch_wave_id r) (ds_prev r) (ds_has_data r) (ds_dirty r) (ds_tier r) (ds_pending r) (ds_terminal r) (ds_terminal_wave r).
Definition set_ds_batch_waves {V : Type} (g : (list (list (list (WaveData V)))) → (list (list (list (WaveData V))))) (r : DepState V) : DepState V :=
  mkDepState (ds_batch r) (g (ds_batch_waves r)) (ds_batch_wave_id r) (ds_prev r) (ds_has_data r) (ds_dirty r) (ds_tier r) (ds_pending r) (ds_terminal r) (ds_terminal_wave r).
Definition set_ds_batch_wave_id {V : Type} (g : (list (option Z)) → (list (option Z))) (r : DepState V) : DepState V :=
  mkDepState (ds_batch r) (ds_batch_waves r) (g (ds_batch_wave_id r)) (ds_prev r) (ds_has_data r) (ds_dirty r) (ds_tier r) (ds_pending r) (ds_terminal r) (ds_terminal_wave r).
Definition set_ds_prev {V : Type} (g : (list (option V)) → (list (option V))) (r : DepState V) : DepState V :=
  mkDepState (ds_batch r) (ds_batch_waves r) (ds_batch_wave_id r) (g (ds_prev r)) (ds_has_data r) (ds_dirty r) (ds_tier r) (ds_pending r) (ds_terminal r) (ds_terminal_wave r).
Definition set_ds_has_data {V : Type} (g : (list bool) → (list bool)) (r : DepState V) : DepState V :=
  mkDepState (ds_batch r) (ds_batch_waves r) (ds_batch_wave_id r) (ds_prev r) (g (ds_has_data r)) (ds_dirty r) (ds_tier r) (ds_pending r) (ds_terminal r) (ds_terminal_wave r).
Definition set_ds_dirty {V : Type} (g : (list bool) → (list bool)) (r : DepState V) : DepState V :=
  mkDepState (ds_batch r) (ds_batch_waves r) (ds_batch_wave_id r) (ds_prev r) (ds_has_data r) (g (ds_dirty r)) (ds_tier r) (ds_pending r) (ds_terminal r) (ds_terminal_wave r).
Definition set_ds_tier {V : Type} (g : (list Z) → (list Z)) (r : DepState V) : DepState V :=
  mkDepState (ds_batch r) (ds_batch_waves r) (ds_batch_wave_id r) (ds_prev r) (ds_has_data r) (ds_dirty r) (g (ds_tier r)) (ds_pending r) (ds_terminal r) (ds_terminal_wave r).
Definition set_ds_pending {V : Type} (g : Z → Z) (r : DepState V) : DepState V :=
  mkDepState (ds_batch r) (ds_batch_waves r) (ds_batch_wave_id r) (ds_prev r) (ds_has_data r) (ds_dirty r) (ds_tier r) (g (ds_pending r)) (ds_terminal r) (ds_terminal_wave r).
Definition set_ds_terminal {V : Type} (g : (list (option DepTerminal)) → (list (option DepTerminal))) (r : DepState V) : DepState V :=
  mkDepState (ds_batch r) (ds_batch_waves r) (ds_batch_wave_id r) (ds_prev r) (ds_has_data r) (ds_dirty r) (ds_tier r) (ds_pending r) (g (ds_terminal r)) (ds_terminal_wave r).
Definition set_ds_terminal_wave {V : Type} (g : (list (option DepTerminal)) → (list (option DepTerminal))) (r : DepState V) : DepState V :=
  mkDepState (ds_batch r) (ds_batch_waves r) (ds_batch_wave_id r) (ds_prev r) (ds_has_data r) (ds_dirty r) (ds_tier r) (ds_pending r) (ds_terminal r) (g (ds_terminal_wave r)).

(** Transient wave and mutation flags. *)
Record NodeWaveState := mkNodeWaveState {
  emitted_dirty_this_wave : bool;
  emitted_tier3_this_wave : bool;
  inside_run_wave : bool;
  in_dep_mutation : bool;
  rewire_run_pending : bool;
  batch_dirty_owed : bool
}.
Definition set_emitted_dirty_this_wave (g : bool → bool) (r : NodeWaveState) : NodeWaveState :=
  mkNodeWaveState (g (emitted_dirty_this_wave r)) (emitted_tier3_this_wave r) (inside_run_wave r) (in_dep_mutation r) (rewire_run_pending r) (batch_dirty_owed r).
Definition set_emitted_tier3_this_wave (g : bool → bool) (r : NodeWaveState) : NodeWaveState :=
  mkNodeWaveState (emitted_dirty_this_wave r) (g (emitted_tier3_this_wave r)) (inside_run_wave r) (in_dep_mutation r) (rewire_run_pending r) (batch_dirty_owed r).
Definition set_inside_run_wave (g : bool → bool) (r : NodeWaveState) : NodeWaveState :=
  mkNodeWaveState (emitted_dirty_this_wave r) (emitted_tier3_this_wave r) (g (inside_run_wave r)) (in_dep_mutation r) (rewire_run_pending r) (batch_dirty_owed r).
Definition set_in_dep_mutation (g : bool → bool) (r : NodeWaveState) : NodeWaveState :=
  mkNodeWaveState (emitted_dirty_this_wave r) (emitted_tier3_this_wave r) (inside_run_wave r) (g (in_dep_mutation r)) (rewire_run_pending r) (batch_dirty_owed r).
Definition set_rewire_run_pending (g : bool → bool) (r : NodeWaveState) : NodeWaveState :=
  mkNodeWaveState (emitted_dirty_this_wave r) (emitted_tier3_this_wave r) (inside_run_wave r) (in_dep_mutation r) (g (rewire_run_pending r)) (batch_dirty_owed r).
Definition set_batch_dirty_owed (g : bool → bool) (r : NodeWaveState) : NodeWaveState :=
  mkNodeWaveState (emitted_dirty_this_wave r) (emitted_tier3_this_wave r) (inside_run_wave r) (in_dep_mutation r) (rewire_run_pending r) (g (batch_dirty_owed r)).

(** The node's own value. *)
Record NodeValueState (V : Type) := mkNodeValueState {
  v_cache : option V;
  v_has_data : bool;
  v_status : Status.t;
  v_terminal : bool
}.
Arguments mkNodeValueState {V} _ _ _ _.
Arguments v_cache {V} _.
Arguments v_has_data {V} _.
Arguments v_status {V} _.
Arguments v_terminal {V} _.
Definition set_v_cache {V : Type} (g : (option V) → (option V)) (r : NodeValueState V) : NodeValueState V :=
  mkNodeValueState (g (v_cache r)) (v_has_data r) (v_status r) (v_terminal r).
Definition set_v_has_data {V : Type} (g : bool → bool) (r : NodeValueState V) : NodeValueState V :=
  mkNodeValueState (v_cache r) (g (v_has_data r)) (v_status r) (v_terminal r).
Definition set_v_status {V : Type} (g : Status.t → Status.t) (r : NodeValueState V) : NodeValueState V :=
  mkNodeValueState (v_cache r) (v_has_data r) (g (v_status r)) (v_terminal r).
Definition set_v_terminal {V : Type} (g : bool → bool) (r : NodeValueState V) : NodeValueState V :=
  mkNodeValueState (v_cache r) (v_has_data r) (v_status r) (g (v_terminal r)).

(** The unsubscribe closure of a dep edge: the dep and the subscription id. *)
Definition Unsub : Type := Core * Z.

(** Edge bookkeeping; an [idx_box] is a shared cell holding a callback's dep index. *)
Record DepEdges (V : Type) := mkDepEdges {
  e_value : NodeValueState V;
  e_wave : NodeWaveState;
  e_state : DepState V;
  e_unsubs : list (option Unsub);
  e_idx_boxes : list nat;
  e_restored_activation_handshake : list bool
}.
Arguments mkDepEdges {V} _ _ _ _ _ _.
Arguments e_value {V} _.
Arguments e_wave {V} _.
Arguments e_state {V} _.
Arguments e_unsubs {V} _.
Arguments e_idx_boxes {V} _.
Arguments e_restored_activation_handshake {V} _.
Definition set_e_value {V : Type} (g : (NodeValueState V) → (NodeValueState V)) (r : DepEdges V) : DepEdges V :=
  mkDepEdges (g (e_value r)) (e_wave r) (e_state r) (e_unsubs r) (e_idx_boxes r) (e_restored_activation_handshake r).
Definition set_e_wave {V : Type} (g : NodeWaveState → NodeWaveState) (r : DepEdges V) : DepEdges V :=
  mkDepEdges (e_value r) (g (e_wave r)) (e_state r) (e_unsubs r) (e_idx_boxes r) (e_restored_activation_handshake r).
Definition set_e_state {V : Type} (g : (DepState V) → (DepState V)) (r : DepEdges V) : DepEdges V :=
  mkDepEdges (e_value r) (e_wave r) (g (e_state r)) (e_unsubs r) (e_idx_boxes r) (e_restored_activation_handshake r).
Definition set_e_unsubs {V : Type} (g : (list (option Unsub)) → (list (option Unsub))) (r : DepEdges V) : DepEdges V :=
  mkDepEdges (e_value r) (e_wave r) (e_state r) (g (e_unsubs r)) (e_idx_boxes r) (e_restored_activation_handshake r).
Definition set_e_idx_boxes {V : Type} (g : (list nat) → (list nat)) (r : DepEdges V) : DepEdges V :=
  mkDepEdges (e_value r) (e_wave r) (e_state r) (e_unsubs r) (g (e_idx_boxes r)) (e_restored_activation_handshake r).
Definition set_e_restored_activation_handshake {V : Type} (g : (list bool) → (list bool)) (r : DepEdges V) : DepEdges V :=
  mkDepEdges (e_value r) (e_wave r) (e_state r) (e_unsubs r) (e_idx_boxes r) (g (e_restored_activation_handshake r)).

(** Deps, and the graph layer's topology observer if one is installed. *)
Record NodeTopologySlot := mkNodeTopologySlot {
  deps : list Core;
  topology_deps_changed : option nat
}.
Definition set_deps (g : (list Core) → (list Core)) (r : NodeTopologySlot) : NodeTopologySlot :=
  mkNodeTopologySlot (g (deps r)) (topology_deps_changed r).
Definition set_topology_deps_changed (g : (option nat) → (option nat)) (r : NodeTopologySlot) : NodeTopologySlot :=
  mkNodeTopologySlot (deps r) (g (topology_deps_changed r)).

(** Callable metadata; the dispatcher itself is part of the world. *)
Record NodeCallSlot := mkNodeCallSlot {
  factory : option string;
  handle : option Handle
}.
Definition set_factory (g : (option string) → (option string)) (r : NodeCallSlot) : NodeCallSlot :=
  mkNodeCallSlot (g (factory r)) (handle r).
Definition set_handle (g : (option Handle) → (option Handle)) (r : NodeCallSlot) : NodeCallSlot :=
  mkNodeCallSlot (factory r) (g (handle r)).

(** Construction-time configuration. *)
Record NodeConfigSlot := mkNodeConfigSlot {
  partial : bool;
  pausable : Pausable.t;
  cfg_pull_id : option LockId;
  complete_when_deps_complete : bool;
  error_when_deps_error : bool;
  terminal_as_real_input : bool
}.
Definition set_partial (g : bool → bool) (r : NodeConfigSlot) : NodeConfigSlot :=
  mkNodeConfigSlot (g (partial r)) (pausable r) (cfg_pull_id r) (complete_when_deps_complete r) (error_when_deps_error r) (terminal_as_real_input r).
Definition set_pausable (g : Pausable.t → Pausable.t) (r : NodeConfigSlot) : NodeConfigSlot :=
  mkNodeConfigSlot (partial r) (g (pausable r)) (cfg_pull_id r) (complete_when_deps_complete r) (error_when_deps_error r) (terminal_as_real_input r).
Definition set_cfg_pull_id (g : (option LockId) → (option LockId)) (r : NodeConfigSlot) : NodeConfigSlot :=
  mkNodeConfigSlot (partial r) (pausable r) (g (cfg_pull_id r)) (complete_when_deps_complete r) (error_when_deps_error r) (terminal_as_real_input r).
Definition set_complete_when_deps_complete (g : bool → bool) (r : NodeConfigSlot) : NodeConfigSlot :=
  mkNodeConfigSlot (partial r) (pausable r) (cfg_pull_id r) (g (complete_when_deps_complete r)) (error_when_deps_error r) (terminal_as_real_input r).
Definition set_error_when_deps_error (g : bool → bool) (r : NodeConfigSlot) : NodeConfigSlot :=
  mkNodeConfigSlot (partial r) (pausable r) (cfg_pull_id r) (complete_when_deps_complete r) (g (error_when_deps_error r)) (terminal_as_real_input r).
Definition set_terminal_as_real_input (g : bool → bool) (r : NodeConfigSlot) : NodeConfigSlot :=
  mkNodeConfigSlot (partial r) (pausable r) (cfg_pull_id r) (complete_when_deps_complete r) (error_when_deps_error r) (g (terminal_as_real_input r)).

(** Lifecycle state that persists across waves. *)
Record NodeRunState := mkNodeRunState {
  has_called_fn_once : bool
}.
Definition set_has_called_fn_once (g : bool → bool) (r : NodeRunState) : NodeRunState :=
  mkNodeRunState (g (has_called_fn_once r)).

(** Runtime version. *)
Record NodeVersionState := mkNodeVersionState {
  vs_policy : ResolvedNodeVersioningPolicy;
  vs_value : option NodeVersion
}.
Definition set_vs_policy (g : ResolvedNodeVersioningPolicy → ResolvedNodeVersioningPolicy) (r : NodeVersionState) : NodeVersionState :=
  mkNodeVersionState (g (vs_policy r)) (vs_value r).
Definition set_vs_value (g : (option NodeVersion) → (option NodeVersion)) (r : NodeVersionState) : NodeVersionState :=
  mkNodeVersionState (vs_policy r) (g (vs_value r)).

Inductive SubscriberKind := External | GraphObserver.

(** A subscriber callback: the edge callback of a child node (which reads its
    current dep index from a box), or a client's sink. *)
Inductive Sink := DepSink (child : Core) (idx_box : nat) | ExtSink (s : SinkId).

Record SubscriberEntry := mkSubscriberEntry {
  sub_id : Z;
  sub_kind : SubscriberKind;
  sub_sink : Sink
}.

(** Node-local sidecars. *)
Record NodeAux (V : Type) := mkNodeAux {
  subscribers : list SubscriberEntry;
  next_sub_id : Z;
  activated : bool;
  a_state : option V;
  state_persist : bool;
  on_deactivation : list HookId;
  on_invalidate : list HookId;
  pull_demand_owed : option (PullDemand V);
  active_pull : option (PullDemand V);
  in_deliver_demand : bool;
  pull_dirty_owed : bool;
  pause_lockset : list LockId;
  paused_dep_wave_occurred : bool;
  pause_buffer : list (Wave V)
}.
Arguments mkNodeAux {V} _ _ _ _ _ _ _ _ _ _ _ _ _ _.
Arguments subscribers {V} _.
Arguments next_sub_id {V} _.
Arguments activated {V} _.
Arguments a_state {V} _.
Arguments state_persist {V} _.
Arguments on_deactivation {V} _.
Arguments on_invalidate {V} _.
Arguments pull_demand_owed {V} _.
Arguments active_pull {V} _.
Arguments in_deliver_demand {V} _.
Arguments pull_dirty_owed {V} _.
Arguments pause_lockset {V} _.
Arguments paused_dep_wave_occurred {V} _.
Arguments pause_buffer {V} _.
Definition set_subscribers {V : Type} (g : (list SubscriberEntry) → (list SubscriberEntry)) (r : NodeAux V) : NodeAux V :=
  mkNodeAux (g (subscribers r)) (next_sub_id r) (activated r) (a_state r) (state_persist r) (on_deactivation r) (on_invalidate r) (pull_demand_owed r) (active_pull r) (in_deliver_demand r) (pull_dirty_owed r) (pause_lockset r) (paused_dep_wave_occurred r) (pause_buffer r).
Definition set_next_sub_id {V : Type} (g : Z → Z) (r : NodeAux V) : NodeAux V :=
  mkNodeAux (subscribers r) (g (next_sub_id r)) (activated r) (a_state r) (state_persist r) (on_deactivation r) (on_invalidate r) (pull_demand_owed r) (active_pull r) (in_deliver_demand r) (pull_dirty_owed r) (pause_lockset r) (paused_dep_wave_occurred r) (pause_buffer r).
Definition set_activated {V : Type} (g : bool → bool) (r : NodeAux V) : NodeAux V :=
  mkNodeAux (subscribers r) (next_sub_id r) (g (activated r)) (a_state r) (state_persist r) (on_deactivation r) (on_invalidate r) (pull_demand_owed r) (active_pull r) (in_deliver_demand r) (pull_dirty_owed r) (pause_lockset r) (paused_dep_wave_occurred r) (pause_buffer r).
Definition set_a_state {V : Type} (g : (option V) → (option V)) (r : NodeAux V) : NodeAux V :=
  mkNodeAux (subscribers r) (next_sub_id r) (activated r) (g (a_state r)) (state_persist r) (on_deactivation r) (on_invalidate r) (pull_demand_owed r) (active_pull r) (in_deliver_demand r) (pull_dirty_owed r) (pause_lockset r) (paused_dep_wave_occurred r) (pause_buffer r).
Definition set_state_persist {V : Type} (g : bool → bool) (r : NodeAux V) : NodeAux V :=
  mkNodeAux (subscribers r) (next_sub_id r) (activated r) (a_state r) (g (state_persist r)) (on_deactivation r) (on_invalidate r) (pull_demand_owed r) (active_pull r) (in_deliver_demand r) (pull_dirty_owed r) (pause_lockset r) (paused_dep_wave_occurred r) (pause_buffer r).
Definition set_on_deactivation {V : Type} (g : (list HookId) → (list HookId)) (r : NodeAux V) : NodeAux V :=
  mkNodeAux (subscribers r) (next_sub_id r) (activated r) (a_state r) (state_persist r) (g (on_deactivation r)) (on_invalidate r) (pull_demand_owed r) (active_pull r) (in_deliver_demand r) (pull_dirty_owed r) (pause_lockset r) (paused_dep_wave_occurred r) (pause_buffer r).
Definition set_on_invalidate {V : Type} (g : (list HookId) → (list HookId)) (r : NodeAux V) : NodeAux V :=
  mkNodeAux (subscribers r) (next_sub_id r) (activated r) (a_state r) (state_persist r) (on_deactivation r) (g (on_invalidate r)) (pull_demand_owed r) (active_pull r) (in_deliver_demand r) (pull_dirty_owed r) (pause_lockset r) (paused_dep_wave_occurred r) (pause_buffer r).
Definition set_pull_demand_owed {V : Type} (g : (option (PullDemand V)) → (option (PullDemand V))) (r : NodeAux V) : NodeAux V :=
  mkNodeAux (subscribers r) (next_sub_id r) (activated r) (a_state r) (state_persist r) (on_deactivation r) (on_invalidate r) (g (pull_demand_owed r)) (active_pull r) (in_deliver_demand r) (pull_dirty_owed r) (pause_lockset r) (paused_dep_wave_occurred r) (pause_buffer r).
Definition set_active_pull {V : Type} (g : (option (PullDemand V)) → (option (PullDemand V))) (r : NodeAux V) : NodeAux V :=
  mkNodeAux (subscribers r) (next_sub_id r) (activated r) (a_state r) (state_persist r) (on_deactivation r) (on_invalidate r) (pull_demand_owed r) (g (active_pull r)) (in_deliver_demand r) (pull_dirty_owed r) (pause_lockset r) (paused_dep_wave_occurred r) (pause_buffer r).
Definition set_in_deliver_demand {V : Type} (g : bool → bool) (r : NodeAux V) : NodeAux V :=
  mkNodeAux (subscribers r) (next_sub_id r) (activated r) (a_state r) (state_persist r) (on_deactivation r) (on_invalidate r) (pull_demand_owed r) (active_pull r) (g (in_deliver_demand r)) (pull_dirty_owed r) (pause_lockset r) (paused_dep_wave_occurred r) (pause_buffer r).
Definition set_pull_dirty_owed {V : Type} (g : bool → bool) (r : NodeAux V) : NodeAux V :=
  mkNodeAux (subscribers r) (next_sub_id r) (activated r) (a_state r) (state_persist r) (on_deactivation r) (on_invalidate r) (pull_demand_owed r) (active_pull r) (in_deliver_demand r) (g (pull_dirty_owed r)) (pause_lockset r) (paused_dep_wave_occurred r) (pause_buffer r).
Definition set_pause_lockset {V : Type} (g : (list LockId) → (list LockId)) (r : NodeAux V) : NodeAux V :=
  mkNodeAux (subscribers r) (next_sub_id r) (activated r) (a_state r) (state_persist r) (on_deactivation r) (on_invalidate r) (pull_demand_owed r) (active_pull r) (in_deliver_demand r) (pull_dirty_owed r) (g (pause_lockset r)) (paused_dep_wave_occurred r) (pause_buffer r).
Definition set_paused_dep_wave_occurred {V : Type} (g : bool → bool) (r : NodeAux V) : NodeAux V :=
  mkNodeAux (subscribers r) (next_sub_id r) (activated r) (a_state r) (state_persist r) (on_deactivation r) (on_invalidate r) (pull_demand_owed r) (active_pull r) (in_deliver_demand r) (pull_dirty_owed r) (pause_lockset r) (g (paused_dep_wave_occurred r)) (pause_buffer r).
Definition set_pause_buffer {V : Type} (g : (list (Wave V)) → (list (Wave V))) (r : NodeAux V) : NodeAux V :=
  mkNodeAux (subscribers r) (next_sub_id r) (activated r) (a_state r) (state_persist r) (on_deactivation r) (on_invalidate r) (pull_demand_owed r) (active_pull r) (in_deliver_demand r) (pull_dirty_owed r) (pause_lockset r) (paused_dep_wave_occurred r) (g (pause_buffer r)).

(** The eight parallel arena slots of one node. *)
Record NodeSlot (V : Type) := mkNodeSlot {
  n_topo : NodeTopologySlot;
  n_call : NodeCallSlot;
  n_config : NodeConfigSlot;
  n_run : NodeRunState;
  n_edges : DepEdges V;
  n_version : NodeVersionState;
  n_aux : NodeAux V
}.
Arguments mkNodeSlot {V} _ _ _ _ _ _ _.
Arguments n_topo {V} _.
Arguments n_call {V} _.
Arguments n_config {V} _.
Arguments n_run {V} _.
Arguments n_edges {V} _.
Arguments n_version {V} _.
Arguments n_aux {V} _.
Definition set_n_topo {V : Type} (g : NodeTopologySlot → NodeTopologySlot) (r : NodeSlot V) : NodeSlot V :=
  mkNodeSlot (g (n_topo r)) (n_call r) (n_config r) (n_run r) (n_edges r) (n_version r) (n_aux r).
Definition set_n_call {V : Type} (g : NodeCallSlot → NodeCallSlot) (r : NodeSlot V) : NodeSlot V :=
  mkNodeSlot (n_topo r) (g (n_call r)) (n_config r) (n_run r) (n_edges r) (n_version r) (n_aux r).
Definition set_n_config {V : Type} (g : NodeConfigSlot → NodeConfigSlot) (r : NodeSlot V) : NodeSlot V :=
  mkNodeSlot (n_topo r) (n_call r) (g (n_config r)) (n_run r) (n_edges r) (n_version r) (n_aux r).
Definition set_n_run {V : Type} (g : NodeRunState → NodeRunState) (r : NodeSlot V) : NodeSlot V :=
  mkNodeSlot (n_topo r) (n_call r) (n_config r) (g (n_run r)) (n_edges r) (n_version r) (n_aux r).
Definition set_n_edges {V : Type} (g : (DepEdges V) → (DepEdges V)) (r : NodeSlot V) : NodeSlot V :=
  mkNodeSlot (n_topo r) (n_call r) (n_config r) (n_run r) (g (n_edges r)) (n_version r) (n_aux r).
Definition set_n_version {V : Type} (g : NodeVersionState → NodeVersionState) (r : NodeSlot V) : NodeSlot V :=
  mkNodeSlot (n_topo r) (n_call r) (n_config r) (n_run r) (n_edges r) (g (n_version r)) (n_aux r).
Definition set_n_aux {V : Type} (g : (NodeAux V) → (NodeAux V)) (r : NodeSlot V) : NodeSlot V :=
  mkNodeSlot (n_topo r) (n_call r) (n_config r) (n_run r) (n_edges r) (n_version r) (g (n_aux r)).

(** Shorthands for the nested updates. *)
Definition on_value {V} (g : NodeValueState V → NodeValueState V) := set_n_edges (set_e_value g).
Definition on_wave {V} (g : NodeWaveState → NodeWaveState) : NodeSlot V → NodeSlot V :=
  set_n_edges (set_e_wave g).
Definition on_state {V} (g : DepState V → DepState V) := set_n_edges (set_e_state g).
Definition on_aux {V} (g : NodeAux V → NodeAux V) := set_n_aux g.
Definition n_value {V} (n : NodeSlot V) : NodeValueState V := e_value (n_edges n).
Definition n_wave {V} (n : NodeSlot V) : NodeWaveState := e_wave (n_edges n).
Definition n_state {V} (n : NodeSlot V) : DepState V := e_state (n_edges n).
Definition n_deps {V} (n : NodeSlot V) : list Core := deps (n_topo n).

Section Init.
Context {V : Type}.

(** [DepState::new]. *)
Definition DepState_new (dep_count : nat) : DepState V :=
  mkDepState (replicate dep_count None) (replicate dep_count []) (replicate dep_count None)
    (replicate dep_count None) (replicate dep_count false) (replicate dep_count false)
    (replicate dep_count 0) 0 (replicate dep_count None) (replicate dep_count None).

Definition NodeWaveState_new : NodeWaveState := mkNodeWaveState false false false false false false.

Definition NodeValueState_new : NodeValueState V := mkNodeValueState None false Status.Sentinel false.

(** [DepEdges::new]; [boxes] are the freshly allocated placeholder boxes. *)
Definition DepEdges_new (dep_count : nat) (boxes : list nat) : DepEdges V :=
  mkDepEdges NodeValueState_new NodeWaveState_new (DepState_new dep_count)
    (replicate dep_count None) boxes (replicate dep_count false).

Definition NodeAux_new : NodeAux V :=
  mkNodeAux [] 0 false None false [] [] None None false false [] false [].
End Init.

(** Node construction options. *)
Record NodeOpts := mkNodeOpts {
  opt_factory : option string;
  opt_pool : PoolKind;
  opt_pausable : Pausable.t;
  opt_partial : bool;
  opt_pull_id : option LockId;
  opt_complete_when_deps_complete : bool;
  opt_error_when_deps_error : bool;
  opt_terminal_as_real_input : bool;
  opt_versioning : option NodeVersioningPolicy
}.

Definition NodeOpts_default : NodeOpts :=
  mkNodeOpts None Sync Pausable.On false None true true false None.

Definition NodeConfigSlot_from_opts (o : NodeOpts) : NodeConfigSlot :=
  mkNodeConfigSlot (opt_partial o) (opt_pausable o) None
    (opt_complete_when_deps_complete o) (opt_error_when_deps_error o)
    (opt_terminal_as_real_input o).

(** ** User code *)

(** A deferred self-rewire request. *)
Inductive RewireRequest :=
| RewireAdd (dep : Core) (f : FnId)
| RewireRemove (dep : Core) (f : FnId)
| RewireSet (ds : list Core) (f : FnId).

Record DepRecord (V : Type) := mkDepRecord {
  wave_data : list (list (WaveData V));
  prev_data : option V;
  latest : option V;
  dr_terminal : option DepTerminal
}.
Arguments mkDepRecord {V} _ _ _ _.
Arguments wave_data {V} _.
Arguments prev_data {V} _.
Arguments latest {V} _.
Arguments dr_terminal {V} _.

(** The fn-body context. *)
Record Ctx (V : Type) := mkCtx {
  ctx_node : Core;
  dep_records : list (DepRecord V);
  ctx_pull : option (PullDemand V)
}.
Arguments mkCtx {V} _ _ _.
Arguments ctx_node {V} _.
Arguments dep_records {V} _.
Arguments ctx_pull {V} _.

Section CtxReads.
Context {V : Type}.
Implicit Types ctx : Ctx V.

Definition ctx_dep_len ctx : nat := length (dep_records ctx).
Definition ctx_data ctx (i : nat) : option V := dep_records ctx !! i ≫= latest.
Definition ctx_terminal ctx (i : nat) : option DepTerminal := dep_records ctx !! i ≫= dr_terminal.

(** [batches(i)]: the DATA payloads of dep [i], one list per dep wave. *)
Definition wave_values (w : list (WaveData V)) : list V :=
  omap (λ d, match d with WData v => Some v | WSentinel => None end) w.
Definition ctx_batches ctx (i : nat) : list (list V) :=
  match dep_records ctx !! i with
  | Some r => wave_values <$> wave_data r
  | None => []
  end.
Definition ctx_batch ctx (i : nat) : list V := concat (ctx_batches ctx i).
End CtxReads.

(** What user code can do, one public call at a time.  The first group is the
    [Ctx] surface of a running node fn, the second the public node API that any
    closure (or the client program) can reach through captured handles. *)
Inductive Prog (V : Type) :=
| PRet
| PPanic (p : Payload)
| PDown (msgs : Wave V) (k : Prog V)
| PUp (msgs : Wave V) (toward_dep : option nat) (k : Prog V)
| PUpNext (msgs : Wave V) (toward_dep : option nat) (k : Prog V)
| PDownNext (msgs : Wave V) (k : Prog V)
| PRewireNext (req : RewireRequest) (k : Prog V)
| PStateGet (k : option V → Prog V)
| PStateSet (v : V) (k : Prog V)
| PStatePersist (on : bool) (k : Prog V)
| POnInvalidate (h : HookId) (k : Prog V)
| POnDeactivation (h : HookId) (k : Prog V)
| PNodeDown (c : Core) (msgs : Wave V) (k : Prog V)
| PNodeUp (c : Core) (msgs : Wave V) (toward_dep : option nat) (k : Prog V)
| PSubscribe (c : Core) (s : SinkId) (k : option Z → Prog V)
| PUnsubscribe (c : Core) (id : Z) (k : Prog V)
| PRewire (c : Core) (req : RewireRequest) (k : Prog V)
| PBatch (body : Prog V) (k : Prog V)
| PBatchRollback (k : Prog V)
| PNewNode (graph : nat) (ds : list Core) (f : option FnId) (initial : option V)
    (o : NodeOpts) (k : Core → Prog V)
| PReadCache (c : Core) (k : option V → Prog V).
Arguments PRet {V}.
Arguments PPanic {V} p.
Arguments PDown {V} msgs k.
Arguments PUp {V} msgs toward_dep k.
Arguments PUpNext {V} msgs toward_dep k.
Arguments PDownNext {V} msgs k.
Arguments PRewireNext {V} req k.
Arguments PStateGet {V} k.
Arguments PStateSet {V} v k.
Arguments PStatePersist {V} on k.
Arguments POnInvalidate {V} h k.
Arguments POnDeactivation {V} h k.
Arguments PNodeDown {V} c msgs k.
Arguments PNodeUp {V} c msgs toward_dep k.
Arguments PSubscribe {V} c s k.
Arguments PUnsubscribe {V} c id k.
Arguments PRewire {V} c req k.
Arguments PBatch {V} body k.
Arguments PBatchRollback {V} k.
Arguments PNewNode {V} graph ds f initial o k.
Arguments PReadCache {V} c k.

(** The meaning of closure identities, and the clock [invoke] reads when the
    profile recorder is on ([Instant::now], by running number). *)
Record UserCode (V : Type) := mkUserCode {
  fn_code : FnId → Ctx V → Prog V;
  sink_code : SinkId → Msg V → Prog V;
  hook_code : HookId → Prog V;
  elapsed_ns : nat → Z
}.
Arguments mkUserCode {V} _ _ _ _.
Arguments fn_code {V} _ _ _.
Arguments sink_code {V} _ _ _.
Arguments hook_code {V} _ _.
Arguments elapsed_ns {V} _ _.

(** ** Decisions and actions *)

Inductive MaybeRunDecision := Skip | Passthrough | Run.

(** What a node must do after a dep message, computed before any re-entrant call. *)
Record InWaveDepReceiveAction (V : Type) := mkInWaveDepReceiveAction {
  emit_teardown_subscribers : bool;
  emit_dirty : bool;
  do_invalidate : bool;
  invalidate_as_invalidate_msg : bool;
  had_node_data_before_invalidate : bool;
  clear_undirty_after_invalidate : bool;
  defer_maybe_run : bool;
  maybe_run_decision : MaybeRunDecision;
  down_msgs : option (Wave V);
  do_settle_after_absorbed_terminal : bool;
  fire_demand : bool
}.
Arguments mkInWaveDepReceiveAction {V} _ _ _ _ _ _ _ _ _ _ _.
Arguments emit_teardown_subscribers {V} _.
Arguments emit_dirty {V} _.
Arguments do_invalidate {V} _.
Arguments invalidate_as_invalidate_msg {V} _.
Arguments had_node_data_before_invalidate {V} _.
Arguments clear_undirty_after_invalidate {V} _.
Arguments defer_maybe_run {V} _.
Arguments maybe_run_decision {V} _.
Arguments down_msgs {V} _.
Arguments do_settle_after_absorbed_terminal {V} _.
Arguments fire_demand {V} _.
Definition set_emit_teardown_subscribers {V : Type} (g : bool → bool) (r : InWaveDepReceiveAction V) : InWaveDepReceiveAction V :=
  mkInWaveDepReceiveAction (g (emit_teardown_subscribers r)) (emit_dirty r) (do_invalidate r) (invalidate_as_invalidate_msg r) (had_node_data_before_invalidate r) (clear_undirty_after_invalidate r) (defer_maybe_run r) (maybe_run_decision r) (down_msgs r) (do_settle_after_absorbed_terminal r) (fire_demand r).
Definition set_emit_dirty {V : Type} (g : bool → bool) (r : InWaveDepReceiveAction V) : InWaveDepReceiveAction V :=
  mkInWaveDepReceiveAction (emit_teardown_subscribers r) (g (emit_dirty r)) (do_invalidate r) (invalidate_as_invalidate_msg r) (had_node_data_before_invalidate r) (clear_undirty_after_invalidate r) (defer_maybe_run r) (maybe_run_decision r) (down_msgs r) (do_settle_after_absorbed_terminal r) (fire_demand r).
Definition set_do_invalidate {V : Type} (g : bool → bool) (r : InWaveDepReceiveAction V) : InWaveDepReceiveAction V :=
  mkInWaveDepReceiveAction (emit_teardown_subscribers r) (emit_dirty r) (g (do_invalidate r)) (invalidate_as_invalidate_msg r) (had_node_data_before_invalidate r) (clear_undirty_after_invalidate r) (defer_maybe_run r) (maybe_run_decision r) (down_msgs r) (do_settle_after_absorbed_terminal r) (fire_demand r).
Definition set_invalidate_as_invalidate_msg {V : Type} (g : bool → bool) (r : InWaveDepReceiveAction V) : InWaveDepReceiveAction V :=
  mkInWaveDepReceiveAction (emit_teardown_subscribers r) (emit_dirty r) (do_invalidate r) (g (invalidate_as_invalidate_msg r)) (had_node_data_before_invalidate r) (clear_undirty_after_invalidate r) (defer_maybe_run r) (maybe_run_decision r) (down_msgs r) (do_settle_after_absorbed_terminal r) (fire_demand r).
Definition set_had_node_data_before_invalidate {V : Type} (g : bool → bool) (r : InWaveDepReceiveAction V) : InWaveDepReceiveAction V :=
  mkInWaveDepReceiveAction (emit_teardown_subscribers r) (emit_dirty r) (do_invalidate r) (invalidate_as_invalidate_msg r) (g (had_node_data_before_invalidate r)) (clear_undirty_after_invalidate r) (defer_maybe_run r) (maybe_run_decision r) (down_msgs r) (do_settle_after_absorbed_terminal r) (fire_demand r).
Definition set_clear_undirty_after_invalidate {V : Type} (g : bool → bool) (r : InWaveDepReceiveAction V) : InWaveDepReceiveAction V :=
  mkInWaveDepReceiveAction (emit_teardown_subscribers r) (emit_dirty r) (do_invalidate r) (invalidate_as_invalidate_msg r) (had_node_data_before_invalidate r) (g (clear_undirty_after_invalidate r)) (defer_maybe_run r) (maybe_run_decision r) (down_msgs r) (do_settle_after_absorbed_terminal r) (fire_demand r).
Definition set_defer_maybe_run {V : Type} (g : bool → bool) (r : InWaveDepReceiveAction V) : InWaveDepReceiveAction V :=
  mkInWaveDepReceiveAction (emit_teardown_subscribers r) (emit_dirty r) (do_invalidate r) (invalidate_as_invalidate_msg r) (had_node_data_before_invalidate r) (clear_undirty_after_invalidate r) (g (defer_maybe_run r)) (maybe_run_decision r) (down_msgs r) (do_settle_after_absorbed_terminal r) (fire_demand r).
Definition set_maybe_run_decision {V : Type} (g : MaybeRunDecision → MaybeRunDecision) (r : InWaveDepReceiveAction V) : InWaveDepReceiveAction V :=
  mkInWaveDepReceiveAction (emit_teardown_subscribers r) (emit_dirty r) (do_invalidate r) (invalidate_as_invalidate_msg r) (had_node_data_before_invalidate r) (clear_undirty_after_invalidate r) (defer_maybe_run r) (g (maybe_run_decision r)) (down_msgs r) (do_settle_after_absorbed_terminal r) (fire_demand r).
Definition set_down_msgs {V : Type} (g : (option (Wave V)) → (option (Wave V))) (r : InWaveDepReceiveAction V) : InWaveDepReceiveAction V :=
  mkInWaveDepReceiveAction (emit_teardown_subscribers r) (emit_dirty r) (do_invalidate r) (invalidate_as_invalidate_msg r) (had_node_data_before_invalidate r) (clear_undirty_after_invalidate r) (defer_maybe_run r) (maybe_run_decision r) (g (down_msgs r)) (do_settle_after_absorbed_terminal r) (fire_demand r).
Definition set_do_settle_after_absorbed_terminal {V : Type} (g : bool → bool) (r : InWaveDepReceiveAction V) : InWaveDepReceiveAction V :=
  mkInWaveDepReceiveAction (emit_teardown_subscribers r) (emit_dirty r) (do_invalidate r) (invalidate_as_invalidate_msg r) (had_node_data_before_invalidate r) (clear_undirty_after_invalidate r) (defer_maybe_run r) (maybe_run_decision r) (down_msgs r) (g (do_settle_after_absorbed_terminal r)) (fire_demand r).
Definition set_fire_demand {V : Type} (g : bool → bool) (r : InWaveDepReceiveAction V) : InWaveDepReceiveAction V :=
  mkInWaveDepReceiveAction (emit_teardown_subscribers r) (emit_dirty r) (do_invalidate r) (invalidate_as_invalidate_msg r) (had_node_data_before_invalidate r) (clear_undirty_after_invalidate r) (defer_maybe_run r) (maybe_run_decision r) (down_msgs r) (do_settle_after_absorbed_terminal r) (g (fire_demand r)).

Definition action_default {V} : InWaveDepReceiveAction V :=
  mkInWaveDepReceiveAction false false false false false false false Skip None false false.

Definition has_work {V} (a : InWaveDepReceiveAction V) : bool :=
  emit_teardown_subscribers a || emit_dirty a || do_invalidate a || defer_maybe_run a
  || match maybe_run_decision a with Skip => false | _ => true end
  || do_settle_after_absorbed_terminal a || fire_demand a
  || match down_msgs a with Some (_ :: _) => true | _ => false end.

(** The two shapes of [DownAction]; [subs] is the subscriber snapshot. *)
Inductive DownAction (V : Type) :=
| DownEmit (msg : Msg V) (subs : list Sink)
| DownInvalidate (hooks : list HookId).
Arguments DownEmit {V} msg subs.
Arguments DownInvalidate {V} hooks.

(** ** The world *)

(** A queued committed-boundary task; [committed] is a shared commit token. *)
Inductive BoundaryTask (V : Type) :=
| BRewire (target : Core) (req : RewireRequest) (committed : nat)
| BExternalRewire (target : Core) (req : RewireRequest) (committed : nat)
| BUp (target : Core) (msgs : Wave V) (toward_dep : option nat) (committed : nat)
| BDown (target : Core) (msgs : Wave V) (committed : nat).
Arguments BRewire {V} target req committed.
Arguments BExternalRewire {V} target req committed.
Arguments BUp {V} target msgs toward_dep committed.
Arguments BDown {V} target msgs committed.

Definition task_committed {V} (t : BoundaryTask V) : nat :=
  match t with BRewire _ _ c | BExternalRewire _ _ c | BUp _ _ _ c | BDown _ _ c => c end.

Inductive DeferredDeliveryKind := KRun | KAbsorbedSettle.

#[export] Instance DeferredDeliveryKind_eq_dec : EqDecision DeferredDeliveryKind.
Proof. solve_decision. Defined.

(** The scope a wave owner installs; boundary roots are arena ids. *)
Record WaveScope := mkWaveScope {
  owner_graph_id : nat;
  wave_id : Z;
  ws_boundary_roots : list nat;
  touched : list Core;
  blamed : option Core
}.
Definition set_owner_graph_id (g : nat → nat) (r : WaveScope) : WaveScope :=
  mkWaveScope (g (owner_graph_id r)) (wave_id r) (ws_boundary_roots r) (touched r) (blamed r).
Definition set_wave_id (g : Z → Z) (r : WaveScope) : WaveScope :=
  mkWaveScope (owner_graph_id r) (g (wave_id r)) (ws_boundary_roots r) (touched r) (blamed r).
Definition set_ws_boundary_roots (g : (list nat) → (list nat)) (r : WaveScope) : WaveScope :=
  mkWaveScope (owner_graph_id r) (wave_id r) (g (ws_boundary_roots r)) (touched r) (blamed r).
Definition set_touched (g : (list Core) → (list Core)) (r : WaveScope) : WaveScope :=
  mkWaveScope (owner_graph_id r) (wave_id r) (ws_boundary_roots r) (g (touched r)) (blamed r).
Definition set_blamed (g : (option Core) → (option Core)) (r : WaveScope) : WaveScope :=
  mkWaveScope (owner_graph_id r) (wave_id r) (ws_boundary_roots r) (touched r) (g (blamed r)).

(** The batch frame of the thread. *)
Record ActiveBatch (V : Type) := mkActiveBatch {
  b_targets : list Core;
  b_order : list nat;
  b_deferred : list (option (Wave V));
  b_boundary_roots : list nat;
  b_committed : nat;
  b_rolled_back : bool;
  b_collecting : bool
}.
Arguments mkActiveBatch {V} _ _ _ _ _ _ _.
Arguments b_targets {V} _.
Arguments b_order {V} _.
Arguments b_deferred {V} _.
Arguments b_boundary_roots {V} _.
Arguments b_committed {V} _.
Arguments b_rolled_back {V} _.
Arguments b_collecting {V} _.
Definition set_b_targets {V : Type} (g : (list Core) → (list Core)) (r : ActiveBatch V) : ActiveBatch V :=
  mkActiveBatch (g (b_targets r)) (b_order r) (b_deferred r) (b_boundary_roots r) (b_committed r) (b_rolled_back r) (b_collecting r).
Definition set_b_order {V : Type} (g : (list nat) → (list nat)) (r : ActiveBatch V) : ActiveBatch V :=
  mkActiveBatch (b_targets r) (g (b_order r)) (b_deferred r) (b_boundary_roots r) (b_committed r) (b_rolled_back r) (b_collecting r).
Definition set_b_deferred {V : Type} (g : (list (option (Wave V))) → (list (option (Wave V)))) (r : ActiveBatch V) : ActiveBatch V :=
  mkActiveBatch (b_targets r) (b_order r) (g (b_deferred r)) (b_boundary_roots r) (b_committed r) (b_rolled_back r) (b_collecting r).
Definition set_b_boundary_roots {V : Type} (g : (list nat) → (list nat)) (r : ActiveBatch V) : ActiveBatch V :=
  mkActiveBatch (b_targets r) (b_order r) (b_deferred r) (g (b_boundary_roots r)) (b_committed r) (b_rolled_back r) (b_collecting r).
Definition set_b_committed {V : Type} (g : nat → nat) (r : ActiveBatch V) : ActiveBatch V :=
  mkActiveBatch (b_targets r) (b_order r) (b_deferred r) (b_boundary_roots r) (g (b_committed r)) (b_rolled_back r) (b_collecting r).
Definition set_b_rolled_back {V : Type} (g : bool → bool) (r : ActiveBatch V) : ActiveBatch V :=
  mkActiveBatch (b_targets r) (b_order r) (b_deferred r) (b_boundary_roots r) (b_committed r) (g (b_rolled_back r)) (b_collecting r).
Definition set_b_collecting {V : Type} (g : bool → bool) (r : ActiveBatch V) : ActiveBatch V :=
  mkActiveBatch (b_targets r) (b_order r) (b_deferred r) (b_boundary_roots r) (b_committed r) (b_rolled_back r) (g (b_collecting r)).

(** Observable and ghost events, oldest first: what client sinks received,
    hooks and topology observers that ran, and (ghost) every message a node
    emitted to its subscriber snapshot and every fn invocation. *)
Inductive Event (V : Type) :=
| EvSink (s : SinkId) (m : Msg V)
| EvHook (h : HookId)
| EvTopology (observer : nat) (c : Core) (old_deps new_deps : list Core)
| EvEmit (c : Core) (m : Msg V)
| EvRun (c : Core).
Arguments EvSink {V} s m.
Arguments EvHook {V} h.
Arguments EvTopology {V} observer c old_deps new_deps.
Arguments EvEmit {V} c m.
Arguments EvRun {V} c.

Abbreviation Graph V := (GraphCore (NodeSlot V) (BoundaryTask V)).

(** The graph arenas, the dispatcher, and the thread-locals of node.rs and batch.rs. *)
Record World (V : Type) := mkWorld {
  w_graphs : gmap nat (Graph V);
  w_disp : DispatcherInner FnId;
  w_wave : option WaveScope;
  w_next_wave_scope_id : Z;
  w_delivery_depth : nat;
  w_next_delivery_id : Z;
  w_current_delivery_id : Z;
  w_deferred_actions : list (DeferredDeliveryKind * Core);
  w_active_batch : option (ActiveBatch V);
  w_boxes : list Z;
  w_tokens : list bool;
  w_recorded : nat;
  w_log : list (Event V)
}.
Arguments mkWorld {V} _ _ _ _ _ _ _ _ _ _ _ _ _.
Arguments w_graphs {V} _.
Arguments w_disp {V} _.
Arguments w_wave {V} _.
Arguments w_next_wave_scope_id {V} _.
Arguments w_delivery_depth {V} _.
Arguments w_next_delivery_id {V} _.
Arguments w_current_delivery_id {V} _.
Arguments w_deferred_actions {V} _.
Arguments w_active_batch {V} _.
Arguments w_boxes {V} _.
Arguments w_tokens {V} _.
Arguments w_recorded {V} _.
Arguments w_log {V} _.
Definition set_w_graphs {V : Type} (g : (gmap nat (Graph V)) → (gmap nat (Graph V))) (r : World V) : World V :=
  mkWorld (g (w_graphs r)) (w_disp r) (w_wave r) (w_next_wave_scope_id r) (w_delivery_depth r) (w_next_delivery_id r) (w_current_delivery_id r) (w_deferred_actions r) (w_active_batch r) (w_boxes r) (w_tokens r) (w_recorded r) (w_log r).
Definition set_w_disp {V : Type} (g : (DispatcherInner FnId) → (DispatcherInner FnId)) (r : World V) : World V :=
  mkWorld (w_graphs r) (g (w_disp r)) (w_wave r) (w_next_wave_scope_id r) (w_delivery_depth r) (w_next_delivery_id r) (w_current_delivery_id r) (w_deferred_actions r) (w_active_batch r) (w_boxes r) (w_tokens r) (w_recorded r) (w_log r).
Definition set_w_wave {V : Type} (g : (option WaveScope) → (option WaveScope)) (r : World V) : World V :=
  mkWorld (w_graphs r) (w_disp r) (g (w_wave r)) (w_next_wave_scope_id r) (w_delivery_depth r) (w_next_delivery_id r) (w_current_delivery_id r) (w_deferred_actions r) (w_active_batch r) (w_boxes r) (w_tokens r) (w_recorded r) (w_log r).
Definition set_w_next_wave_scope_id {V : Type} (g : Z → Z) (r : World V) : World V :=
  mkWorld (w_graphs r) (w_disp r) (w_wave r) (g (w_next_wave_scope_id r)) (w_delivery_depth r) (w_next_delivery_id r) (w_current_delivery_id r) (w_deferred_actions r) (w_active_batch r) (w_boxes r) (w_tokens r) (w_recorded r) (w_log r).
Definition set_w_delivery_depth {V : Type} (g : nat → nat) (r : World V) : World V :=
  mkWorld (w_graphs r) (w_disp r) (w_wave r) (w_next_wave_scope_id r) (g (w_delivery_depth r)) (w_next_delivery_id r) (w_current_delivery_id r) (w_deferred_actions r) (w_active_batch r) (w_boxes r) (w_tokens r) (w_recorded r) (w_log r).
Definition set_w_next_delivery_id {V : Type} (g : Z → Z) (r : World V) : World V :=
  mkWorld (w_graphs r) (w_disp r) (w_wave r) (w_next_wave_scope_id r) (w_delivery_depth r) (g (w_next_delivery_id r)) (w_current_delivery_id r) (w_deferred_actions r) (w_active_batch r) (w_boxes r) (w_tokens r) (w_recorded r) (w_log r).
Definition set_w_current_delivery_id {V : Type} (g : Z → Z) (r : World V) : World V :=
  mkWorld (w_graphs r) (w_disp r) (w_wave r) (w_next_wave_scope_id r) (w_delivery_depth r) (w_next_delivery_id r) (g (w_current_delivery_id r)) (w_deferred_actions r) (w_active_batch r) (w_boxes r) (w_tokens r) (w_recorded r) (w_log r).
Definition set_w_deferred_actions {V : Type} (g : (list (DeferredDeliveryKind * Core)) → (list (DeferredDeliveryKind * Core))) (r : World V) : World V :=
  mkWorld (w_graphs r) (w_disp r) (w_wave r) (w_next_wave_scope_id r) (w_delivery_depth r) (w_next_delivery_id r) (w_current_delivery_id r) (g (w_deferred_actions r)) (w_active_batch r) (w_boxes r) (w_tokens r) (w_recorded r) (w_log r).
Definition set_w_active_batch {V : Type} (g : (option (ActiveBatch V)) → (option (ActiveBatch V))) (r : World V) : World V :=
  mkWorld (w_graphs r) (w_disp r) (w_wave r) (w_next_wave_scope_id r) (w_delivery_depth r) (w_next_delivery_id r) (w_current_delivery_id r) (w_deferred_actions r) (g (w_active_batch r)) (w_boxes r) (w_tokens r) (w_recorded r) (w_log r).
Definition set_w_boxes {V : Type} (g : (list Z) → (list Z)) (r : World V) : World V :=
  mkWorld (w_graphs r) (w_disp r) (w_wave r) (w_next_wave_scope_id r) (w_delivery_depth r) (w_next_delivery_id r) (w_current_delivery_id r) (w_deferred_actions r) (w_active_batch r) (g (w_boxes r)) (w_tokens r) (w_recorded r) (w_log r).
Definition set_w_tokens {V : Type} (g : (list bool) → (list bool)) (r : World V) : World V :=
  mkWorld (w_graphs r) (w_disp r) (w_wave r) (w_next_wave_scope_id r) (w_delivery_depth r) (w_next_delivery_id r) (w_current_delivery_id r) (w_deferred_actions r) (w_active_batch r) (w_boxes r) (g (w_tokens r)) (w_recorded r) (w_log r).
Definition set_w_recorded {V : Type} (g : nat → nat) (r : World V) : World V :=
  mkWorld (w_graphs r) (w_disp r) (w_wave r) (w_next_wave_scope_id r) (w_delivery_depth r) (w_next_delivery_id r) (w_current_delivery_id r) (w_deferred_actions r) (w_active_batch r) (w_boxes r) (w_tokens r) (g (w_recorded r)) (w_log r).
Definition set_w_log {V : Type} (g : (list (Event V)) → (list (Event V))) (r : World V) : World V :=
  mkWorld (w_graphs r) (w_disp r) (w_wave r) (w_next_wave_scope_id r) (w_delivery_depth r) (w_next_delivery_id r) (w_current_delivery_id r) (w_deferred_actions r) (w_active_batch r) (w_boxes r) (w_tokens r) (w_recorded r) (g (w_log r)).

(** The thread-locals at program start; arena 0 is the default one. *)
Definition World_init {V} : World V :=
  mkWorld {[0%nat := Arena.new]} Dispatcher.new None 1 0 1 0 [] None [] [] 0 [].

Section Access.
Context {V : Type}.
Implicit Types w : World V.

Definition get_node w (c : Core) : option (NodeSlot V) :=
  g ← w_graphs w !! c_graph c; Arena.get g (c_key c).

Definition upd_node (c : Core) (f : NodeSlot V → NodeSlot V) w : World V :=
  set_w_graphs (alter (λ g, Arena.upd g (c_key c) f) (c_graph c)) w.

Lemma get_node_upd w c f c' :
  get_node (upd_node c f w) c' = if decide (c = c') then f <$> get_node w c else get_node w c'.
Proof.
  unfold get_node, upd_node. simpl. rewrite lookup_alter.
  destruct (decide (c_graph c = c_graph c')) as [Heq|Hne].
  - rewrite <-Heq. destruct (w_graphs w !! c_graph c) as [g|] eqn:Hg; simpl; [|by case_decide].
    rewrite get_upd. destruct c as [cg ck], c' as [cg' ck']; simpl in *. subst cg'.
    repeat case_decide; congruence.
  - rewrite decide_False by congruence. done.
Qed.

Lemma get_node_upd_same w c f : get_node (upd_node c f w) c = f <$> get_node w c.
Proof. by rewrite get_node_upd, decide_True. Qed.

Lemma get_node_upd_ne w c f c' : c ≠ c' → get_node (upd_node c f w) c' = get_node w c'.
Proof. intros. by rewrite get_node_upd, decide_False. Qed.
End Access.
