(* ===== verification/Receive.v ===== *)
(** * The node-local half of the wave engine (node.rs)

    Everything a node does to its own slot while the arena is borrowed: the
    per-dep bookkeeping, the reaction to a dep message, the run prologue and
    epilogue, the effect of one outgoing message, deactivation and recovery.
    None of these calls out; [Engine.v] sequences them with the re-entrant
    calls. *)

From stdpp Require Import base option strings numbers gmap list.
From S2P Require Import Prelude Protocol Dispatcher Versioning Arena NodeState.

Local Open Scope Z_scope.

Section Receive.
Context {V : Type}.
Implicit Types s : DepState V.
Implicit Types n : NodeSlot V.

(** ** [impl DepState] *)

Definition is_nil {A} (l : list A) : bool := match l with [] => true | _ => false end.

Definition all_settled (real_input : bool) s : bool :=
  forallb (λ i, default false (ds_has_data s !! i)
             || (real_input && is_some (default None (ds_terminal s !! i))))
    (seq 0 (length (ds_has_data s))).

(** [current_wave_mut]: open a wave list for delivery [d] unless it is open. *)
Definition current_wave_mut (d : Z) (idx : nat) s : DepState V :=
  if bool_decide (ds_batch_wave_id s !! idx = Some (Some d)) then s
  else set_ds_batch_wave_id <[idx := Some d]>
         (set_ds_batch_waves (alter (λ ws, ws ++ [[]]) idx) s).

Fixpoint alter_last {A} (f : A → A) (l : list A) : list A :=
  match l with
  | [] => []
  | [x] => [f x]
  | x :: l' => x :: alter_last f l'
  end.

(** [current_wave_mut(idx).push(item)]. *)
Definition push_wave_item (d : Z) (idx : nat) (item : WaveData V) s : DepState V :=
  set_ds_batch_waves (alter (alter_last (λ w, w ++ [item])) idx) (current_wave_mut d idx s).

Definition record_wave_data (d : Z) (idx : nat) (v : V) s := push_wave_item d idx (WData v) s.

Definition record_wave_sentinel (d : Z) (idx : nat) s : DepState V * bool :=
  (push_wave_item d idx WSentinel s,
   bool_decide (ds_batch_wave_id s !! idx = Some (Some d))).

Definition wave_triggers (wave : list (WaveData V)) : bool :=
  is_nil wave || existsb (λ i, match i with WData _ => true | WSentinel => false end) wave.

Definition has_run_triggering_projection s : bool :=
  existsb (existsb wave_triggers) (ds_batch_waves s).

Definition clear_wave_projection (idx : nat) s : DepState V :=
  set_ds_batch_wave_id <[idx := None]> (set_ds_batch_waves <[idx := []]> s).

Definition record_resolved_wave (d : Z) (idx : nat) s := current_wave_mut d idx s.

(** [if dirty[idx] { dirty[idx] = false; pending -= 1; }]. *)
Definition settle_dirty (idx : nat) s : DepState V :=
  match ds_dirty s !! idx with
  | Some true => set_ds_dirty <[idx := false]> (set_ds_pending (λ p, p - 1) s)
  | _ => s
  end.

(** ** Guards read by several operations *)

Definition paused n : bool := negb (is_nil (pause_lockset (n_aux n))).
Definition pull_quiet n : bool :=
  is_some (cfg_pull_id (n_config n)) && negb (is_some (active_pull (n_aux n))).
Definition all_deps_settled n : bool :=
  all_settled (terminal_as_real_input (n_config n)) (n_state n).
Definition gate_open n : bool :=
  has_called_fn_once (n_run n) || partial (n_config n) || all_deps_settled n.
Definition pausable_on n : bool := bool_decide (pausable (n_config n) = Pausable.On).

(** ** [decide_maybe_run_from_graph] *)

Definition decide_maybe_run n : NodeSlot V * MaybeRunDecision :=
  if in_dep_mutation (n_wave n) then (on_wave (set_rewire_run_pending (λ _, true)) n, Skip)
  else if pausable_on n && (paused n || pull_quiet n) then
    (on_aux (set_paused_dep_wave_occurred (λ _, true)) n, Skip)
  else if bool_decide (0 < ds_pending (n_state n)) then (n, Skip)
  else if negb (is_some (handle (n_call n))) then (n, Passthrough)
  else if negb (gate_open n) then (n, Skip)
  else (n, Run).

(** [set_maybe_run_action]; [in_delivery] is [delivery_in_flight()]. *)
Definition set_maybe_run_action (in_delivery : bool) n (a : InWaveDepReceiveAction V)
    : NodeSlot V * InWaveDepReceiveAction V :=
  if in_delivery then (n, set_defer_maybe_run (λ _, true) a)
  else let '(n', dec) := decide_maybe_run n in (n', set_maybe_run_decision (λ _, dec) a).

(** ** [collect_receive_from_dep_action_from_graph], one definition per arm *)

Definition receive_invalidate (d : Z) (idx : nat) n : NodeSlot V * InWaveDepReceiveAction V :=
  let s0 := set_ds_batch <[idx := None]>
              (set_ds_has_data <[idx := false]> (set_ds_prev <[idx := None]> (n_state n))) in
  let '(s1, had_current_projection) := record_wave_sentinel d idx s0 in
  let s2 := if negb had_current_projection && negb (has_run_triggering_projection s1)
            then clear_wave_projection idx s1 else s1 in
  let s3 := settle_dirty idx s2 in
  let n1 := on_state (λ _, s3) n in
  let n2 := if paused_dep_wave_occurred (n_aux n1)
               && forallb (λ b, negb (is_some b)) (ds_batch s3)
            then on_aux (set_paused_dep_wave_occurred (λ _, false)) n1 else n1 in
  let had_data := v_has_data (n_value n2) in
  let undirty_no_settle :=
    bool_decide (ds_pending s3 = 0) && emitted_dirty_this_wave (n_wave n2) in
  let is_paused := paused n2 || pull_quiet n in
  let buffer_own_invalidate :=
    is_paused && bool_decide (pausable (n_config n) = Pausable.ResumeAll) in
  let a0 := set_had_node_data_before_invalidate (λ _, had_data)
              (set_do_invalidate (λ _, true)
                (set_invalidate_as_invalidate_msg (λ _, buffer_own_invalidate && had_data)
                  action_default)) in
  let a1 := if undirty_no_settle then
              if negb had_data then set_down_msgs (λ _, Some [Resolved]) a0
              else set_clear_undirty_after_invalidate (λ _, true) a0
            else a0 in
  (n2, set_fire_demand (λ _, true) a1).

Definition receive_dirty (idx : nat) n : NodeSlot V * InWaveDepReceiveAction V :=
  match ds_dirty (n_state n) !! idx with
  | Some true => (n, action_default)
  | _ =>
      let n1 := on_state (λ s, set_ds_tier <[idx := 2]>
                  (set_ds_pending (λ p, p + 1) (set_ds_dirty <[idx := true]> s))) n in
      if pull_quiet n || emitted_dirty_this_wave (n_wave n) then (n1, action_default)
      else (on_value (set_v_status (λ _, Status.Dirty))
              (on_wave (set_emitted_dirty_this_wave (λ _, true)) n1),
            set_emit_dirty (λ _, true) action_default)
  end.

(** The bookkeeping shared by the DATA and RESOLVED arms once the dep's own
    cells are written: drain the dirty mark and note a wave skipped by a pause. *)
Definition settle_dep (idx : nat) n : NodeSlot V * bool :=
  let n1 := on_state (settle_dirty idx) n in
  let pending_drained := bool_decide (ds_pending (n_state n1) = 0) in
  let n2 := if negb pending_drained && pausable_on n1
               && negb (in_dep_mutation (n_wave n1)) && (paused n1 || pull_quiet n1)
            then on_aux (set_paused_dep_wave_occurred (λ _, true)) n1 else n1 in
  (n2, pending_drained).

Definition settle_dep_action (in_delivery : bool) (idx : nat) n
    : NodeSlot V * InWaveDepReceiveAction V :=
  let '(n1, pending_drained) := settle_dep idx n in
  if pending_drained then
    let '(n2, a) := set_maybe_run_action in_delivery n1 action_default in
    (n2, set_fire_demand (λ _, true) a)
  else (n1, action_default).

Definition push_batch (v : V) (b : option (list V)) : option (list V) :=
  match b with Some vs => Some (vs ++ [v]) | None => Some [v] end.

Definition receive_data (in_delivery : bool) (d : Z) (idx : nat) (v : V) n
    : NodeSlot V * InWaveDepReceiveAction V :=
  match e_restored_activation_handshake (n_edges n) !! idx with
  | Some true =>
      (on_state (λ s, set_ds_batch <[idx := None]> (set_ds_tier <[idx := 3]>
         (set_ds_has_data <[idx := true]> (set_ds_prev <[idx := Some v]> s)))) n,
       action_default)
  | _ =>
      settle_dep_action in_delivery idx
        (on_state (λ s, set_ds_tier <[idx := 3]> (set_ds_has_data <[idx := true]>
           (record_wave_data d idx v (set_ds_batch (alter (push_batch v) idx) s)))) n)
  end.

Definition receive_resolved (in_delivery : bool) (d : Z) (idx : nat) n
    : NodeSlot V * InWaveDepReceiveAction V :=
  settle_dep_action in_delivery idx
    (on_state (λ s, set_ds_tier <[idx := 3]> (record_resolved_wave d idx s)) n).

Definition receive_terminal (in_delivery : bool) (idx : nat) (dep_term : DepTerminal) n
    : NodeSlot V * InWaveDepReceiveAction V :=
  let n1 := on_state (λ s, settle_dirty idx
              (set_ds_terminal_wave <[idx := Some dep_term]>
                (set_ds_terminal <[idx := Some dep_term]> s))) n in
  let all_deps_terminal :=
    negb (is_nil (n_deps n1)) && forallb is_some (ds_terminal (n_state n1)) in
  let '(n2, a) :=
    match dep_term with
    | DepError msg =>
        if error_when_deps_error (n_config n)
        then (n1, Some (set_down_msgs (λ _, Some [Error msg]) action_default)) else (n1, None)
    | DepComplete => (n1, None)
    end in
  let '(n3, a3) :=
    match a with
    | Some a => (n2, a)
    | None =>
        if terminal_as_real_input (n_config n) then set_maybe_run_action in_delivery n2 action_default
        else if complete_when_deps_complete (n_config n) && all_deps_terminal
        then (n2, set_down_msgs (λ _, Some [Complete]) action_default)
        else (n2, set_do_settle_after_absorbed_terminal (λ _, true) action_default)
    end in
  (n3, set_fire_demand (λ _, true) a3).

Definition receive_teardown n : NodeSlot V * InWaveDepReceiveAction V :=
  (n, set_down_msgs (λ _, Some [Complete; Teardown]) action_default).

(** The dispatch on the message. *)
Definition receive_live (in_delivery : bool) (d : Z) (idx : nat) (msg : Msg V) n
    : NodeSlot V * InWaveDepReceiveAction V :=
  match msg with
  | Invalidate => receive_invalidate d idx n
  | Dirty => receive_dirty idx n
  | Data v => receive_data in_delivery d idx v n
  | Resolved => receive_resolved in_delivery d idx n
  | Error e => receive_terminal in_delivery idx (DepError e) n
  | Complete => receive_terminal in_delivery idx DepComplete n
  | Teardown => receive_teardown n
  | Start | Pause _ | Resume _ | Pull _ => (n, action_default)
  end.

Definition collect_receive (in_delivery : bool) (d : Z) (idx : nat) (msg : Msg V) n
    : NodeSlot V * option (InWaveDepReceiveAction V) :=
  if v_terminal (n_value n) then
    (n, match msg with
        | Teardown => Some (set_emit_teardown_subscribers (λ _, true) action_default)
        | _ => None
        end)
  else
    let '(n', a) := receive_live in_delivery d idx msg n in
    (n', if has_work a then Some a else None).

(** Whether the arm of [msg] indexes the per-dep vectors (and so would panic
    on an index out of bounds). *)
Definition indexes_dep (msg : Msg V) : bool :=
  match msg with
  | Invalidate | Dirty | Data _ | Resolved | Complete | Error _ => true
  | _ => false
  end.

(** ** The run prologue and epilogue ([run_wave]) *)

Definition dep_record s (i : nat) : DepRecord V :=
  let prev := default None (ds_prev s !! i) in
  mkDepRecord (default [] (ds_batch_waves s !! i)) prev
    (match default None (ds_batch s !! i) with
     | Some b => match last b with Some v => Some v | None => prev end
     | None => prev
     end)
    (default None (ds_terminal_wave s !! i)).

Definition run_dep_records n : list (DepRecord V) :=
  dep_record (n_state n) <$> seq 0 (length (n_deps n)).

(** Taking the wave projections out of the slot and raising the run flags; the
    cleanup hooks of the previous run are dropped. *)
Definition begin_run n : NodeSlot V :=
  let k := length (n_deps n) in
  on_aux (λ a, set_on_invalidate (λ _, []) (set_on_deactivation (λ _, []) a))
    (on_wave (λ w, set_emitted_tier3_this_wave (λ _, false) (set_inside_run_wave (λ _, true) w))
      (set_n_run (set_has_called_fn_once (λ _, true))
        (on_state (λ s, set_ds_terminal_wave (fill_n k None)
            (set_ds_batch_wave_id (fill_n k None) (set_ds_batch_waves (fill_n k []) s))) n))).

(** Roll the per-dep state forward: the last DATA of the wave becomes [prev]. *)
Definition roll_prev (b : option (list V)) (prev : option V) : option V :=
  match b ≫= last with Some v => Some v | None => prev end.

Definition end_run (keep_dirty : bool) n : NodeSlot V :=
  let n1 := on_state (λ s, set_ds_batch (λ bs, replicate (length bs) None)
              (set_ds_prev (λ ps, zip_with roll_prev (ds_batch s) ps) s)) n in
  if keep_dirty then n1
  else on_wave (λ w, set_emitted_tier3_this_wave (λ _, false)
                       (set_emitted_dirty_this_wave (λ _, false) w)) n1.

(** [passthrough_emit]: the latest DATA of dep 0, consumed. *)
Definition passthrough_take n : NodeSlot V * option V :=
  let v := default None (ds_batch (n_state n) !! 0%nat) ≫= last in
  (on_state (λ s,
     set_ds_batch_wave_id <[0%nat := None]> (set_ds_batch_waves <[0%nat := []]>
       (set_ds_batch <[0%nat := None]>
         (match v with Some x => set_ds_prev <[0%nat := Some x]> s | None => s end)))) n, v).

(** ** One outgoing message ([collect_down_action_from_graph]) *)

Definition snapshot_subscribers n : list Sink := sub_sink <$> subscribers (n_aux n).

(** The demand and pause state a terminal message discards. *)
Definition discard_pending_work (a : NodeAux V) : NodeAux V :=
  set_pause_buffer (λ _, []) (set_paused_dep_wave_occurred (λ _, false)
    (set_pull_dirty_owed (λ _, false) (set_in_deliver_demand (λ _, false)
      (set_active_pull (λ _, None) (set_pull_demand_owed (λ _, None) a))))).

Definition become_terminal (st : Status.t) n : NodeSlot V :=
  on_aux discard_pending_work
    (on_value (λ v, set_v_status (λ _, st) (set_v_terminal (λ _, true) v)) n).

Definition clear_cache (v : NodeValueState V) : NodeValueState V :=
  set_v_status (λ _, Status.Sentinel) (set_v_has_data (λ _, false) (set_v_cache (λ _, None) v)).

Definition collect_down (msg : Msg V) (next_version : option NodeVersion) n
    : NodeSlot V * option (DownAction V) :=
  let subs := snapshot_subscribers n in
  match msg with
  | Dirty =>
      if emitted_dirty_this_wave (n_wave n) then (n, None)
      else (on_value (set_v_status (λ _, Status.Dirty))
              (on_wave (set_emitted_dirty_this_wave (λ _, true)) n), Some (DownEmit Dirty subs))
  | Data v =>
      (on_wave (set_emitted_tier3_this_wave (λ _, true))
         (on_value (λ x, set_v_status (λ _, Status.Settled)
            (set_v_has_data (λ _, true) (set_v_cache (λ _, Some v) x)))
            (set_n_version (set_vs_value (λ _, next_version)) n)),
       Some (DownEmit (Data v) subs))
  | Resolved =>
      (on_wave (set_emitted_tier3_this_wave (λ _, true))
         (on_value (λ x, set_v_status
            (λ _, if v_has_data x then Status.Resolved else Status.Sentinel) x) n),
       Some (DownEmit Resolved subs))
  | Invalidate =>
      if negb (v_has_data (n_value n)) then (n, None)
      else (on_value clear_cache n, Some (DownInvalidate (on_invalidate (n_aux n))))
  | Complete =>
      if v_terminal (n_value n) then (n, None)
      else (become_terminal Status.Completed n, Some (DownEmit Complete subs))
  | Error e =>
      if v_terminal (n_value n) then (n, None)
      else (become_terminal Status.Errored n, Some (DownEmit (Error e) subs))
  | Teardown => (n, Some (DownEmit Teardown subs))
  | Start | Pause _ | Resume _ | Pull _ => (n, None)
  end.

(** ** Lifecycle and recovery *)

(** [deactivate]'s slot update; the unsubscribe closures and the hooks it
    returns run afterwards. *)
Definition deactivate_slot n : NodeSlot V * (list Unsub * list HookId) :=
  let k := length (n_deps n) in
  let unsubs := omap id (e_unsubs (n_edges n)) in
  let hooks := on_deactivation (n_aux n) in
  let is_compute := is_some (handle (n_call n)) || negb (is_nil (n_deps n)) in
  let n1 := set_n_edges (λ e, set_e_idx_boxes (λ _, []) (set_e_unsubs (λ _, []) e))
              (on_aux (λ a, set_on_deactivation (λ _, []) (set_activated (λ _, false) a)) n) in
  let n2 := if is_compute then on_value clear_cache n1 else n1 in
  let n3 := on_state (λ s,
      set_ds_terminal_wave (fill_n k None) (set_ds_terminal (fill_n k None)
      (set_ds_tier (fill_n k 0) (set_ds_dirty (fill_n k false)
      (set_ds_has_data (fill_n k false) (set_ds_prev (fill_n k None)
      (set_ds_batch_wave_id (fill_n k None) (set_ds_batch_waves (fill_n k [])
      (set_ds_batch (fill_n k None) (set_ds_pending (λ _, 0) s)))))))))) n2 in
  let n4 := on_wave (set_emitted_dirty_this_wave (λ _, false))
              (set_n_run (set_has_called_fn_once (λ _, false))
                (set_n_edges (set_e_restored_activation_handshake
                   (λ l, replicate (length l) false)) n3)) in
  let n5 := on_aux (λ a,
      discard_pending_work (set_pause_lockset (λ _, []) (set_on_invalidate (λ _, [])
        (if state_persist a then a else set_a_state (λ _, None) a)))) n4 in
  (n5, (unsubs, hooks)).

(** [reset_wave_flags_inner]: the recovery of a node that took part in a wave
    that panicked. *)
Definition reset_wave_flags n : NodeSlot V :=
  let k := length (n_deps n) in
  on_state (λ s, set_ds_dirty (fill_n k false) (set_ds_terminal_wave (fill_n k None)
      (set_ds_batch_wave_id (fill_n k None) (set_ds_batch_waves (fill_n k [])
      (set_ds_batch (fill_n k None) (set_ds_pending (λ _, 0) s))))))
    (on_wave (λ w, set_emitted_tier3_this_wave (λ _, false)
        (set_emitted_dirty_this_wave (λ _, false) (set_inside_run_wave (λ _, false) w))) n).

(** ** Pause and pull guards *)

(** [should_buffer_on_pause]; [is_async] is [call_is_async]. *)
Definition should_buffer_on_pause (is_async : bool) n : bool :=
  match pausable (n_config n) with
  | Pausable.Off => false
  | m =>
      if negb (paused n) && negb (pull_quiet n) then false
      else match m with
           | Pausable.ResumeAll => true
           | _ =>
               (pull_quiet n && negb (inside_run_wave (n_wave n)) && is_nil (n_deps n))
               || (negb (inside_run_wave (n_wave n)) && is_async && negb (is_nil (n_deps n)))
           end
  end.

Definition can_fire_demand n : bool :=
  if negb (is_some (cfg_pull_id (n_config n))) || v_terminal (n_value n)
     || negb (bool_decide (ds_pending (n_state n) = 0)) || paused n
  then false
  else negb (is_some (handle (n_call n)) && negb (gate_open n)).

(** The undirty condition after a run. *)
Definition owes_undirty (is_async : bool) n : bool :=
  emitted_dirty_this_wave (n_wave n) && negb (emitted_tier3_this_wave (n_wave n))
  && negb (v_terminal (n_value n)) && negb is_async.
End Receive.
