(* ===== verification/NodeInv.v ===== *)
(** * Invariants of one node's slot

    The parallel per-dep vectors keep the length of the dep list, and
    [ds_pending] counts the dirty deps.  Every node-local operation of
    [Receive.v] preserves both; the theorems say what a receive decides, what
    one outgoing message does, and what deactivation and recovery leave. *)

From stdpp Require Import base option strings numbers gmap list.
From S2P Require Import Prelude Protocol Dispatcher Versioning Arena NodeState Receive.

Local Open Scope Z_scope.

Section NodeInv.
Context {V : Type}.
Implicit Types s : DepState V.
Implicit Types n : NodeSlot V.

(** ** The invariants *)

Record vectors_wf (k : nat) s : Prop := {
  wf_batch : length (ds_batch s) = k;
  wf_batch_waves : length (ds_batch_waves s) = k;
  wf_batch_wave_id : length (ds_batch_wave_id s) = k;
  wf_prev : length (ds_prev s) = k;
  wf_has_data : length (ds_has_data s) = k;
  wf_dirty : length (ds_dirty s) = k;
  wf_tier : length (ds_tier s) = k;
  wf_terminal : length (ds_terminal s) = k;
  wf_terminal_wave : length (ds_terminal_wave s) = k
}.

Definition slot_vectors_wf n : Prop :=
  vectors_wf (length (n_deps n)) (n_state n)
  ∧ length (e_restored_activation_handshake (n_edges n)) = length (n_deps n).

Definition pending_ok s : Prop := ds_pending s = Z.of_nat (count_true (ds_dirty s)).

Definition node_inv n : Prop := slot_vectors_wf n ∧ pending_ok (n_state n).

(** What the invariants read of a slot. *)
Definition same_edges n n' : Prop :=
  n_topo n' = n_topo n ∧ n_state n' = n_state n
  ∧ e_restored_activation_handshake (n_edges n') = e_restored_activation_handshake (n_edges n).

Lemma same_edges_inv n n' : same_edges n n' → node_inv n → node_inv n'.
Proof.
  unfold node_inv, slot_vectors_wf, n_deps. intros (Ht & Hs & Hh). by rewrite Ht, Hs, Hh.
Qed.

Ltac solve_same := repeat case_split; (split; [|split]); reflexivity.

(** ** The vector operations keep the lengths *)

Ltac solve_wf :=
  intros []; split; simpl;
  rewrite ?length_insert, ?length_alter, ?length_fill_n, ?length_replicate, ?length_zip_with; lia.

Lemma current_wave_mut_wf k d i s : vectors_wf k s → vectors_wf k (current_wave_mut d i s).
Proof. unfold current_wave_mut. case_split; [done|solve_wf]. Qed.

Lemma push_wave_item_wf k d i x s : vectors_wf k s → vectors_wf k (push_wave_item d i x s).
Proof. intros H. apply (current_wave_mut_wf _ d i) in H. revert H. unfold push_wave_item. solve_wf. Qed.

Lemma settle_dirty_wf k i s : vectors_wf k s → vectors_wf k (settle_dirty i s).
Proof. unfold settle_dirty. destruct (ds_dirty s !! i) as [[]|]; [solve_wf|done..]. Qed.

Lemma clear_wave_projection_wf k i s : vectors_wf k s → vectors_wf k (clear_wave_projection i s).
Proof. solve_wf. Qed.

Lemma current_wave_mut_dirty d i s :
  ds_dirty (current_wave_mut d i s) = ds_dirty s
  ∧ ds_pending (current_wave_mut d i s) = ds_pending s.
Proof. unfold current_wave_mut. by case_split. Qed.

Lemma push_wave_item_dirty d i x s :
  ds_dirty (push_wave_item d i x s) = ds_dirty s
  ∧ ds_pending (push_wave_item d i x s) = ds_pending s.
Proof. unfold push_wave_item. simpl. apply current_wave_mut_dirty. Qed.

Lemma pending_ok_eq s s' :
  ds_dirty s' = ds_dirty s → ds_pending s' = ds_pending s → pending_ok s → pending_ok s'.
Proof. unfold pending_ok. by intros -> ->. Qed.

(** ** The dirty count *)

Lemma settle_dirty_pending i s : pending_ok s → pending_ok (settle_dirty i s).
Proof.
  unfold pending_ok, settle_dirty. destruct (ds_dirty s !! i) as [[]|] eqn:Hi; simpl; [|done..].
  intros H. pose proof (count_true_insert_false _ _ Hi). lia.
Qed.

Definition mark_dep_dirty (i : nat) s : DepState V :=
  set_ds_tier <[i := 2]> (set_ds_pending (λ p, p + 1) (set_ds_dirty <[i := true]> s)).

Lemma mark_dep_dirty_pending i s :
  ds_dirty s !! i = Some false → pending_ok s → pending_ok (mark_dep_dirty i s).
Proof.
  unfold pending_ok. simpl. intros Hi H. rewrite (count_true_insert_true _ _ Hi). lia.
Qed.

Lemma mark_dep_dirty_wf k i s : vectors_wf k s → vectors_wf k (mark_dep_dirty i s).
Proof. unfold mark_dep_dirty. solve_wf. Qed.

(** The cell writes of the DATA arm, on the handshake and on the live path. *)
Definition handshake_data (i : nat) (v : V) s : DepState V :=
  set_ds_batch <[i := None]> (set_ds_tier <[i := 3]>
    (set_ds_has_data <[i := true]> (set_ds_prev <[i := Some v]> s))).

Definition wave_data_cells (d : Z) (i : nat) (v : V) s : DepState V :=
  set_ds_tier <[i := 3]> (set_ds_has_data <[i := true]>
    (record_wave_data d i v (set_ds_batch (alter (push_batch v) i) s))).

Lemma handshake_data_wf k i v s : vectors_wf k s → vectors_wf k (handshake_data i v s).
Proof. unfold handshake_data. solve_wf. Qed.

Lemma wave_data_cells_wf k d i v s : vectors_wf k s → vectors_wf k (wave_data_cells d i v s).
Proof.
  intros Hw. assert (vectors_wf k (set_ds_batch (alter (push_batch v) i) s)) as Hw'
    by (revert Hw; solve_wf).
  apply (push_wave_item_wf _ d i (WData v)) in Hw'. revert Hw'.
  unfold wave_data_cells, record_wave_data. generalize (push_wave_item d i (WData v)
    (set_ds_batch (alter (push_batch v) i) s)) as s'. intros s'. solve_wf.
Qed.

Definition resolved_cells (d : Z) (i : nat) s : DepState V :=
  set_ds_tier <[i := 3]> (record_resolved_wave d i s).

Lemma resolved_cells_wf k d i s : vectors_wf k s → vectors_wf k (resolved_cells d i s).
Proof.
  intros Hw%(current_wave_mut_wf _ d i). revert Hw. unfold resolved_cells, record_resolved_wave.
  generalize (current_wave_mut d i s) as s'. intros s'. solve_wf.
Qed.

Lemma wave_data_cells_dirty d i v s :
  ds_dirty (wave_data_cells d i v s) = ds_dirty s
  ∧ ds_pending (wave_data_cells d i v s) = ds_pending s.
Proof. apply (push_wave_item_dirty d i (WData v) (set_ds_batch (alter (push_batch v) i) s)). Qed.

Lemma settle_dirty_lookup i j s :
  ds_dirty (settle_dirty i s) !! j
  = if decide (i = j) then (λ _, false) <$> ds_dirty s !! j else ds_dirty s !! j.
Proof.
  unfold settle_dirty. destruct (decide (i = j)) as [<-|Hne].
  - destruct (ds_dirty s !! i) as [[]|] eqn:Hi; simpl; rewrite ?Hi; try done.
    by rewrite list_lookup_insert_eq by (by eapply lookup_lt_Some).
  - destruct (ds_dirty s !! i) as [[]|] eqn:Hi; simpl; [|done..].
    by rewrite list_lookup_insert_ne.
Qed.

(** ** Steps that touch neither the vectors nor the topology *)

Lemma decide_maybe_run_same n : same_edges n (decide_maybe_run n).1.
Proof. unfold decide_maybe_run. solve_same. Qed.

Lemma set_maybe_run_action_same b n a : same_edges n (set_maybe_run_action b n a).1.
Proof.
  unfold set_maybe_run_action. destruct b; [solve_same|].
  pose proof (decide_maybe_run_same n). by destruct (decide_maybe_run n).
Qed.

Lemma settle_dep_same i n : same_edges (on_state (settle_dirty i) n) (settle_dep i n).1.
Proof. unfold settle_dep. solve_same. Qed.

Lemma on_state_inv (f : DepState V → DepState V) n :
  (∀ k s, vectors_wf k s → vectors_wf k (f s)) → (∀ s, pending_ok s → pending_ok (f s)) →
  node_inv n → node_inv (on_state f n).
Proof. intros Hf Hp [[Hw Hh] Hq]. split; [split; [by apply Hf|done]|by apply Hp]. Qed.

Lemma settle_dep_inv i n : node_inv n → node_inv (settle_dep i n).1.
Proof.
  intros H. eapply same_edges_inv; [apply settle_dep_same|].
  by apply on_state_inv; [intros; apply settle_dirty_wf|intros; apply settle_dirty_pending|].
Qed.

Lemma settle_dep_action_inv b i n : node_inv n → node_inv (settle_dep_action b i n).1.
Proof.
  intros H%(settle_dep_inv i). unfold settle_dep_action.
  destruct (settle_dep i n) as [n1 []]; simpl in *; [|done].
  pose proof (set_maybe_run_action_same b n1 action_default) as Hs.
  destruct (set_maybe_run_action b n1 action_default). by eapply same_edges_inv.
Qed.

(** ** Each arm of the receive *)

Lemma receive_invalidate_inv d i n : node_inv n → node_inv (receive_invalidate d i n).1.
Proof.
  intros [[Hw Hh] Hp]. unfold receive_invalidate, record_wave_sentinel. simpl.
  match goal with |- context [set_ds_batch ?a ?b] => set (s0 := set_ds_batch a b) end.
  assert (vectors_wf (length (n_deps n)) s0) as Hw0 by (revert Hw; subst s0; solve_wf).
  apply (push_wave_item_wf _ d i WSentinel) in Hw0.
  destruct (push_wave_item_dirty d i WSentinel s0) as [Hd Hq].
  assert (pending_ok (push_wave_item d i WSentinel s0)) as Hp0
    by (eapply pending_ok_eq; [exact Hd|exact Hq|exact Hp]).
  set (s1 := push_wave_item d i WSentinel s0) in *. clearbody s1.
  match goal with |- context [settle_dirty i ?x] => set (s2 := x) end.
  assert (vectors_wf (length (n_deps n)) s2) as Hw2
    by (subst s2; case_match; [by apply clear_wave_projection_wf|done]).
  assert (pending_ok s2) as Hp2 by (subst s2; by case_match).
  clearbody s2. apply (settle_dirty_wf _ i) in Hw2. apply (settle_dirty_pending i) in Hp2.
  case_match; (split; [split|]; done).
Qed.

Lemma receive_dirty_inv i n :
  (i < length (n_deps n))%nat → node_inv n → node_inv (receive_dirty i n).1.
Proof.
  intros Hi [[Hw Hh] Hp]. unfold receive_dirty.
  destruct (ds_dirty (n_state n) !! i) as [[]|] eqn:Hd; [by split; [split|]| |].
  - assert (node_inv (on_state (mark_dep_dirty i) n)) as Hn.
    { split; [split; [by apply mark_dep_dirty_wf|done]|by apply mark_dep_dirty_pending]. }
    case_split; (eapply same_edges_inv; [|exact Hn]; solve_same).
  - apply lookup_ge_None in Hd. destruct Hw. lia.
Qed.

Lemma receive_data_inv b d i v n : node_inv n → node_inv (receive_data b d i v n).1.
Proof.
  intros [[Hw Hh] Hp]. unfold receive_data.
  assert (node_inv (on_state (wave_data_cells d i v) n)) as Hlive.
  { split; [split; [by apply wave_data_cells_wf|done]|].
    destruct (wave_data_cells_dirty d i v (n_state n)) as [Hd Hq].
    eapply pending_ok_eq; [exact Hd|exact Hq|exact Hp]. }
  repeat case_split; [|by apply settle_dep_action_inv..].
  split; [split; [by apply (handshake_data_wf _ i v)|done]|exact Hp].
Qed.

Lemma receive_resolved_inv b d i n : node_inv n → node_inv (receive_resolved b d i n).1.
Proof.
  intros [[Hw Hh] Hp]. apply settle_dep_action_inv. split; [split; [|done]|].
  - by apply (resolved_cells_wf _ d i).
  - destruct (current_wave_mut_dirty d i (n_state n)) as [Hd Hq].
    eapply pending_ok_eq; [exact Hd|exact Hq|exact Hp].
Qed.

Lemma receive_terminal_inv b i t n : node_inv n → node_inv (receive_terminal b i t n).1.
Proof.
  intros Hn. unfold receive_terminal.
  set (n1 := on_state _ n).
  assert (node_inv n1) as Hn1.
  { apply on_state_inv; [|intros s Hs; by apply settle_dirty_pending|done].
    intros k s Hs. apply settle_dirty_wf. revert Hs. solve_wf. }
  clearbody n1. clear Hn.
  assert (∀ a, node_inv (set_maybe_run_action b n1 a).1) as Hset
    by (intros a; by eapply same_edges_inv; [apply set_maybe_run_action_same|]).
  specialize (Hset action_default).
  destruct t; repeat case_match; simplify_eq/=; try done;
    match goal with H : set_maybe_run_action _ _ _ = _ |- _ => by rewrite H in Hset end.
Qed.

Lemma receive_live_inv b d i m n :
  (indexes_dep m = true → (i < length (n_deps n))%nat) →
  node_inv n → node_inv (receive_live b d i m n).1.
Proof.
  intros Hi Hn.
  destruct m; simpl in *; first
    [ done | apply receive_invalidate_inv; done | apply receive_dirty_inv; auto; done
    | apply receive_data_inv; done | apply receive_resolved_inv; done
    | apply receive_terminal_inv; done ].
Qed.

Lemma collect_receive_keeps b d i m n :
  (indexes_dep m = true → (i < length (n_deps n))%nat) →
  node_inv n → node_inv (collect_receive b d i m n).1.
Proof.
  intros Hi Hn. unfold collect_receive. destruct (v_terminal (n_value n)); [done|].
  pose proof (receive_live_inv b d i m n Hi Hn) as H. by destruct (receive_live b d i m n).
Qed.

(** ** A whole wave at one node *)

(** The node folds a sequence of dep messages; [b] is [delivery_in_flight()]. *)
Fixpoint receive_seq (b : bool) (d : Z) n (l : list (nat * Msg V))
    : NodeSlot V * list (option (InWaveDepReceiveAction V)) :=
  match l with
  | [] => (n, [])
  | (i, m) :: l' =>
      let '(n1, a) := collect_receive b d i m n in
      let '(n2, rest) := receive_seq b d n1 l' in (n2, a :: rest)
  end.

(** A live, unpaused compute node whose gate is open, with the deps [D] dirty. *)
Record collecting (D : list nat) n : Prop := {
  col_inv : node_inv n;
  col_dirty : ∀ i, ds_dirty (n_state n) !! i = Some true ↔ i ∈ D;
  col_live : v_terminal (n_value n) = false;
  col_mutation : in_dep_mutation (n_wave n) = false;
  col_paused : paused n = false;
  col_pull : pull_quiet n = false;
  col_handle : is_some (handle (n_call n)) = true;
  col_called : has_called_fn_once (n_run n) = true;
  col_handshake : ∀ i, e_restored_activation_handshake (n_edges n) !! i ≠ Some true
}.

Definition settle_msg (m : Msg V) : bool := match m with Data _ | Resolved => true | _ => false end.

Definition requests_run (b : bool) (a : InWaveDepReceiveAction V) : Prop :=
  if b then defer_maybe_run a = true else maybe_run_decision a = Run.

Lemma count_true_zero (l : list bool) : count_true l = 0%nat ↔ ∀ i, l !! i ≠ Some true.
Proof.
  induction l as [|x l IH]; [split; [done|intros _; done]|].
  split.
  - intros H i Hi. destruct x; [done|]. destruct i as [|i]; [done|]. by eapply IH.
  - intros H. destruct x; [by destruct (H 0%nat)|]. apply IH. intros i. apply (H (S i)).
Qed.

Lemma pending_zero D n : collecting D n → ds_pending (n_state n) = 0 ↔ D = [].
Proof.
  intros [[_ Hp] Hd]. rewrite Hp. split.
  - intros H0. destruct D as [|i D]; [done|]. exfalso.
    assert (count_true (ds_dirty (n_state n)) = 0%nat) as Hz by lia.
    rewrite count_true_zero in Hz. apply (Hz i), Hd. by left.
  - intros ->. cut (count_true (ds_dirty (n_state n)) = 0%nat); [lia|].
    apply count_true_zero. intros i Hi%Hd. by apply elem_of_nil in Hi.
Qed.

(** Two slots that differ only in per-dep cells and the emitted-dirty mark. *)
Definition same_guards n n' : Prop :=
  n_topo n' = n_topo n ∧ n_call n' = n_call n ∧ n_config n' = n_config n ∧ n_run n' = n_run n
  ∧ n_aux n' = n_aux n ∧ v_terminal (n_value n') = v_terminal (n_value n)
  ∧ in_dep_mutation (n_wave n') = in_dep_mutation (n_wave n)
  ∧ e_restored_activation_handshake (n_edges n') = e_restored_activation_handshake (n_edges n).

Lemma collecting_guards D D' n n' :
  collecting D n → same_guards n n' → node_inv n' →
  (∀ i, ds_dirty (n_state n') !! i = Some true ↔ i ∈ D') → collecting D' n'.
Proof.
  intros [] (Ht & Hc & Hg & Hr & Ha & Hv & Hm & Hh) Hi Hd. unfold paused, pull_quiet in *.
  split; unfold paused, pull_quiet; rewrite ?Hc, ?Hg, ?Hr, ?Ha, ?Hv, ?Hm, ?Hh; done.
Qed.

Lemma receive_dirty_step b d D n i :
  collecting D n → (i < length (n_deps n))%nat → i ∉ D →
  let '(n', a) := collect_receive b d i Dirty n in
  collecting (i :: D) n' ∧ ds_batch (n_state n') = ds_batch (n_state n) ∧ n_topo n' = n_topo n
  ∧ emitted_dirty_this_wave (n_wave n') = true
  ∧ a = if emitted_dirty_this_wave (n_wave n) then None
        else Some (set_emit_dirty (λ _, true) action_default).
Proof.
  intros Hc Hi Hn. unfold collect_receive. rewrite (col_live _ _ Hc). simpl.
  pose proof (receive_dirty_inv i n Hi (col_inv _ _ Hc)) as Hinv. revert Hinv.
  unfold receive_dirty.
  assert (is_Some (ds_dirty (n_state n) !! i)) as [x Hx].
  { apply lookup_lt_is_Some. destruct Hc as [[[[] _] _]]. lia. }
  rewrite Hx. destruct x; [by apply (col_dirty _ _ Hc) in Hx|].
  rewrite (col_pull _ _ Hc). simpl.
  assert (∀ j, <[i:=true]> (ds_dirty (n_state n)) !! j = Some true ↔ j ∈ i :: D) as Hd.
  { intros j. rewrite elem_of_cons. destruct (decide (i = j)) as [<-|Hne].
    - rewrite list_lookup_insert_eq by (by eapply lookup_lt_Some). naive_solver.
    - rewrite list_lookup_insert_ne by done. rewrite (col_dirty _ _ Hc j). naive_solver. }
  destruct (emitted_dirty_this_wave (n_wave n)) eqn:He; simpl; intros Hinv;
    (split_and!; [|done..]); (eapply collecting_guards; [done| |done|done]); by repeat split.
Qed.

(** The cells a settle message writes, before the shared bookkeeping. *)
Definition settle_cells (d : Z) (i : nat) (m : Msg V) s : DepState V :=
  match m with Data v => wave_data_cells d i v s | _ => resolved_cells d i s end.

Lemma settle_cells_dirty d i m s :
  settle_msg m = true →
  ds_dirty (settle_cells d i m s) = ds_dirty s ∧ ds_pending (settle_cells d i m s) = ds_pending s.
Proof.
  destruct m; try done; intros _; [apply wave_data_cells_dirty|apply current_wave_mut_dirty].
Qed.

Lemma settle_cells_batch d i m s :
  ds_batch (settle_cells d i m s)
  = match m with Data v => alter (push_batch v) i (ds_batch s) | _ => ds_batch s end.
Proof.
  destruct m; simpl; unfold resolved_cells, wave_data_cells, record_wave_data,
    record_resolved_wave, push_wave_item, current_wave_mut; simpl; by repeat case_split.
Qed.

Lemma settle_dirty_batch i s : ds_batch (settle_dirty i s) = ds_batch s.
Proof. unfold settle_dirty. by repeat case_split. Qed.

Lemma receive_settle_eq b d i m n :
  settle_msg m = true → e_restored_activation_handshake (n_edges n) !! i ≠ Some true →
  receive_live b d i m n = settle_dep_action b i (on_state (settle_cells d i m) n).
Proof.
  destruct m; try done; intros _ Hh; simpl; unfold receive_data.
  by destruct (e_restored_activation_handshake (n_edges n) !! i) as [[]|].
Qed.

Lemma decide_run n :
  in_dep_mutation (n_wave n) = false → paused n = false → pull_quiet n = false →
  ds_pending (n_state n) = 0 → is_some (handle (n_call n)) = true →
  has_called_fn_once (n_run n) = true → decide_maybe_run n = (n, Run).
Proof.
  intros H1 H2 H3 H4 H5 H6. unfold decide_maybe_run, gate_open.
  rewrite H1, H2, H3, H4, H5, H6. simpl. by rewrite andb_false_r.
Qed.

Lemma receive_settle_step b d D n i m :
  collecting D n → settle_msg m = true → i ∈ D →
  let D' := List.filter (λ j, negb (bool_decide (j = i))) D in
  let '(n', a) := collect_receive b d i m n in
  collecting D' n' ∧ n_topo n' = n_topo n
  ∧ ds_batch (n_state n') = ds_batch (settle_cells d i m (n_state n))
  ∧ match D' with
    | [] => ∃ a', a = Some a' ∧ requests_run b a'
    | _ => a = None
    end.
Proof.
  intros Hc Hm Hi. simpl. set (D' := List.filter _ D).
  pose proof (receive_live_inv b d i m n) as Hinv. unfold collect_receive.
  rewrite (col_live _ _ Hc), (receive_settle_eq b d i m n Hm (col_handshake _ _ Hc i)) in *.
  set (n1 := on_state (settle_dirty i) (on_state (settle_cells d i m) n)).
  destruct (settle_cells_dirty d i m (n_state n) Hm) as [Hsd Hsp].
  assert (∀ j, ds_dirty (n_state n1) !! j = Some true ↔ j ∈ D') as Hd.
  { intros j. subst n1 D'. rewrite list_elem_of_In, List.filter_In, <-list_elem_of_In.
    rewrite negb_true_iff, bool_decide_eq_false, <-(col_dirty _ _ Hc j). simpl.
    unfold n_state, on_state. simpl. rewrite settle_dirty_lookup.
    change (e_state (n_edges n)) with (n_state n). rewrite Hsd.
    case_decide; [|naive_solver]. destruct (ds_dirty (n_state n) !! j); naive_solver. }
  assert (node_inv n1) as Hn1.
  { destruct (col_inv _ _ Hc) as [[Hw Hh] Hp]. apply on_state_inv;
      [intros; by apply settle_dirty_wf|intros; by apply settle_dirty_pending|].
    split; [split; [|done]|].
    - destruct m; try done; [by apply wave_data_cells_wf|by apply resolved_cells_wf].
    - eapply pending_ok_eq; [exact Hsd|exact Hsp|exact Hp]. }
  assert (collecting D' n1) as Hc1
    by (eapply collecting_guards; [exact Hc|by repeat split|done|done]).
  assert (ds_batch (n_state n1) = ds_batch (settle_cells d i m (n_state n))) as Hb
    by apply settle_dirty_batch.
  unfold settle_dep_action, settle_dep. fold n1.
  rewrite (col_paused _ _ Hc1), (col_pull _ _ Hc1). simpl. rewrite andb_false_r.
  case_bool_decide as Hz.
  - pose proof (proj1 (pending_zero _ _ Hc1) Hz) as HD. rewrite HD in *.
    unfold set_maybe_run_action. destruct b; simpl.
    + split_and!; [done..|]. by eexists.
    + rewrite decide_run by (first [done|by destruct Hc1]). simpl.
      split_and!; [done..|]. by eexists.
  - destruct D' as [|j D'']; [by destruct Hz; apply (pending_zero _ _ Hc1)|]. done.
Qed.

Lemma dirty_seq b d D n l :
  collecting D n → emitted_dirty_this_wave (n_wave n) = true → NoDup l →
  (∀ i, i ∈ l → (i < length (n_deps n))%nat ∧ i ∉ D) →
  let '(n', acts) := receive_seq b d n ((λ i, (i, Dirty)) <$> l) in
  collecting (reverse l ++ D) n' ∧ n_topo n' = n_topo n ∧ acts = replicate (length l) None.
Proof.
  revert D n. induction l as [|i l IH]; intros D n Hc He Hnd Hl; simpl; [done|].
  apply NoDup_cons in Hnd as [Hil Hnd]. destruct (Hl i) as [Hi HiD]; [by left|].
  pose proof (receive_dirty_step b d D n i Hc Hi HiD) as Hs.
  destruct (collect_receive b d i Dirty n) as [n1 a].
  destruct Hs as (Hc1 & _ & Ht & He1 & Ha). rewrite He in Ha.
  assert (∀ j, j ∈ l → (j < length (n_deps n1))%nat ∧ j ∉ i :: D) as Hl1.
  { intros j Hj. destruct (Hl j) as [? ?]; [by right|]. unfold n_deps. rewrite Ht.
    split; [done|]. rewrite elem_of_cons. intros [->|]; done. }
  specialize (IH (i :: D) n1 Hc1 He1 Hnd Hl1).
  destruct (receive_seq b d n1 _) as [n2 rest]. destruct IH as (Hc2 & Ht2 & ->).
  rewrite reverse_cons, <-(assoc_L (++)), Ht2, Ht, Ha. done.
Qed.

Lemma settle_seq b d D n l :
  collecting D n → l ≠ [] → NoDup l.*1 → (∀ i, i ∈ D ↔ i ∈ l.*1) →
  Forall (λ im, settle_msg im.2 = true) l →
  (∀ i, i ∈ l.*1 → (i < length (ds_batch (n_state n)))%nat) →
  let '(n', acts) := receive_seq b d n l in
  collecting [] n' ∧ (∃ a, acts = replicate (length l - 1) None ++ [Some a] ∧ requests_run b a)
  ∧ (∀ i, i ∉ l.*1 → ds_batch (n_state n') !! i = ds_batch (n_state n) !! i)
  ∧ (∀ i v, (i, Data v) ∈ l →
       ∃ vs, ds_batch (n_state n') !! i = Some (Some vs) ∧ last vs = Some v).
Proof.
  revert D n. induction l as [|[i m] l IH]; intros D n Hc Hne Hnd HD Hm Hlt; [done|]. simpl in *.
  apply NoDup_cons in Hnd as [Hil Hnd]. apply Forall_cons in Hm as [Hmi Hm]. simpl in Hmi.
  assert (i ∈ D) as HiD by (apply HD; by left).
  pose proof (receive_settle_step b d D n i m Hc Hmi HiD) as Hs. simpl in Hs.
  destruct (collect_receive b d i m n) as [n1 a]. destruct Hs as (Hc1 & Ht & Hb & Ha).
  rewrite settle_cells_batch in Hb.
  set (D' := List.filter _ D) in *.
  assert (∀ j, j ∈ D' ↔ j ∈ l.*1) as HD'.
  { intros j. subst D'. rewrite list_elem_of_In, List.filter_In, <-list_elem_of_In, HD.
    rewrite negb_true_iff, bool_decide_eq_false, elem_of_cons. naive_solver. }
  assert (∀ j, j ≠ i → ds_batch (n_state n1) !! j = ds_batch (n_state n) !! j) as Hother.
  { intros j Hj. rewrite Hb. destruct m; try done. by rewrite list_lookup_alter_ne. }
  assert (∀ v, m = Data v → ∃ vs, ds_batch (n_state n1) !! i = Some (Some vs) ∧ last vs = Some v)
    as Hself.
  { intros v ->. rewrite Hb, list_lookup_alter_eq.
    destruct (lookup_lt_is_Some_2 (ds_batch (n_state n)) i) as [x ->]; [apply Hlt; by left|].
    simpl. destruct x as [vs|]; simpl; eexists; (split; [done|]); [apply last_snoc|done]. }
  assert (length (ds_batch (n_state n1)) = length (ds_batch (n_state n))) as Hlen.
  { rewrite Hb. destruct m; try done. by rewrite length_alter. }
  destruct l as [|im l].
  - assert (D' = []) as HDn.
    { destruct D' as [|j D'']; [done|]. exfalso. apply (elem_of_nil j), HD'. by left. }
    rewrite HDn in *. destruct Ha as (a' & -> & Hr). simpl.
    split_and!; [done|by exists a'|..].
    + intros j Hj. apply Hother. intros ->. apply Hj. by left.
    + intros j v [[= -> <-]|Hin]%elem_of_cons; [by apply Hself|by apply elem_of_nil in Hin].
  - assert (a = None) as ->.
    { destruct D' as [|j D'']; [|done]. exfalso.
      apply (elem_of_nil im.1), HD'. by left. }
    specialize (IH D' n1 Hc1 ltac:(done) Hnd HD' Hm).
    destruct (receive_seq b d n1 (im :: l)) as [n2 rest].
    destruct IH as (Hc2 & (a' & -> & Hr) & Hsame & Hdata).
    { intros j Hj. rewrite Hlen. apply Hlt. by right. }
    split_and!; [done|exists a'; simpl; by rewrite Nat.sub_0_r|..].
    + intros j [Hji Hjl]%not_elem_of_cons. rewrite Hsame by done. by apply Hother.
    + intros j v [[= -> <-]|Hin]%elem_of_cons; [|by apply Hdata].
      rewrite Hsame by done. by apply Hself.
Qed.

(** What a decision to run immediately says of the slot it is taken on. *)
Lemma set_maybe_run_guarded n n' a :
  set_maybe_run_action false n action_default = (n', a) → maybe_run_decision a = Run →
  in_dep_mutation (n_wave n') = false ∧ ds_pending (n_state n') ≤ 0
  ∧ is_some (handle (n_call n')) = true ∧ gate_open n' = true
  ∧ (pausable (n_config n') = Pausable.On → paused n' = false ∧ pull_quiet n' = false).
Proof.
  unfold set_maybe_run_action. destruct (decide_maybe_run n) as [n1 dec] eqn:Hd.
  intros; simplify_eq/=. revert Hd. unfold decide_maybe_run, pausable_on.
  repeat case_split; intros; simplify_eq/=.
  repeat match goal with
    | H : negb _ = false |- _ => apply negb_false_iff in H
    | H : bool_decide _ = false |- _ => apply bool_decide_eq_false in H
    end.
  split_and!; [done|lia|done..|]. intros Hon. by destruct (paused _), (pull_quiet _);
    rewrite ?Hon in *.
Qed.

(** A run is only ever decided through [set_maybe_run_action]. *)
Lemma receive_live_run d i m n n' a :
  receive_live false d i m n = (n', a) → maybe_run_decision a = Run →
  ∃ n1 a1, set_maybe_run_action false n1 action_default = (n', a1) ∧ maybe_run_decision a1 = Run.
Proof.
  assert (∀ n0, settle_dep_action false i n0 = (n', a) → maybe_run_decision a = Run →
    ∃ n1 a1, set_maybe_run_action false n1 action_default = (n', a1)
      ∧ maybe_run_decision a1 = Run) as Hsettle.
  { intros n0. unfold settle_dep_action. repeat case_split; intros; simplify_eq/=. eauto. }
  destruct m; simpl; try (intros; simplify_eq/=; done).
  - unfold receive_dirty. repeat case_split; intros; simplify_eq/=.
  - unfold receive_data. repeat case_split; intros; simplify_eq/=; eauto.
  - unfold receive_resolved. eauto.
  - unfold receive_invalidate. repeat case_split; intros; simplify_eq/=.
  - unfold receive_terminal. repeat case_match; intros; simplify_eq/=; eauto.
  - unfold receive_terminal. repeat case_match; intros; simplify_eq/=; eauto.
  - unfold receive_teardown. intros; simplify_eq/=.
Qed.

(** ** Theorems *)

(** Every message a live node receives from a dep keeps its per-dep vectors
    parallel to its dep list and [pending] equal to the number of dirty deps. *)
Theorem receive_keeps_inv b d i m n :
  node_inv n → (i < length (n_deps n))%nat → node_inv (collect_receive b d i m n).1.
Proof. intros. by apply collect_receive_keeps. Qed.


(** Whatever the message and the state, an immediate recompute is decided
    only for a live node with every dep mark drained, a registered fn, an open
    first-run gate, no dep mutation in flight, and (in pausable mode) neither
    paused nor waiting for a pull demand. *)
Theorem receive_run_guarded d i m n n' a :
  collect_receive false d i m n = (n', Some a) → maybe_run_decision a = Run →
  v_terminal (n_value n) = false ∧ in_dep_mutation (n_wave n') = false
  ∧ ds_pending (n_state n') ≤ 0 ∧ is_some (handle (n_call n')) = true ∧ gate_open n' = true
  ∧ (pausable (n_config n') = Pausable.On → paused n' = false ∧ pull_quiet n' = false).
Proof.
  unfold collect_receive. destruct (v_terminal (n_value n)); [by destruct m; intros; simplify_eq/=|].
  destruct (receive_live false d i m n) as [n1 a1] eqn:Hlive.
  destruct (has_work a1); intros ? Hrun; simplify_eq. split; [done|].
  destruct (receive_live_run _ _ _ _ _ _ Hlive Hrun) as (n1 & a1 & Hset & Hrun1).
  by eapply set_maybe_run_guarded.
Qed.

(** The values a run reads, and what is left when it ends. *)

Lemma lookup_replicate_default {A} (x : A) k i : default x (replicate k x !! i) = x.
Proof. destruct (replicate k x !! i) eqn:H; [|done]. by apply lookup_replicate in H as [-> _]. Qed.

(** The per-dep cells after [begin_run] and [end_run]. *)
Definition rolled (k : nat) s : DepState V :=
  let s1 := set_ds_terminal_wave (fill_n k None)
              (set_ds_batch_wave_id (fill_n k None) (set_ds_batch_waves (fill_n k []) s)) in
  set_ds_batch (λ bs, replicate (length bs) None)
    (set_ds_prev (λ ps, zip_with roll_prev (ds_batch s1) ps) s1).

Lemma rolled_wf k s : vectors_wf k s → vectors_wf k (rolled k s).
Proof. unfold rolled. solve_wf. Qed.

Lemma rolled_record k s i :
  vectors_wf k s → (i < k)%nat →
  dep_record (rolled k s) i
  = mkDepRecord [] (latest (dep_record s i)) (latest (dep_record s i)) None.
Proof.
  intros [] Hi. unfold dep_record, rolled. simpl.
  rewrite <-wf_batch_waves0 at 1. rewrite <-wf_terminal_wave0 at 1. rewrite !fill_n_all.
  rewrite !lookup_replicate_default.
  destruct (lookup_lt_is_Some_2 (ds_batch s) i) as [b Hb]; [lia|].
  destruct (lookup_lt_is_Some_2 (ds_prev s) i) as [p Hpv]; [lia|].
  rewrite lookup_zip_with, Hpv, Hb. simpl.
  f_equal; unfold roll_prev; destruct b as [vs|]; simpl; by try destruct (last vs).
Qed.

(** The value a run reads for a dep ([latest]) is exactly what the epilogue
    rolls into [prev], so the next run reads it again if the dep stays silent;
    and after the run no wave projection, batch or wave terminal is left. *)
Theorem run_rolls_records keep n i :
  node_inv n → (i < length (n_deps n))%nat →
  let n' := end_run keep (begin_run n) in
  dep_record (n_state n') i
  = mkDepRecord [] (latest (dep_record (n_state n) i)) (latest (dep_record (n_state n) i)) None
  ∧ node_inv n'.
Proof.
  intros [[Hw Hh] Hp] Hi n'.
  assert (n_state n' = rolled (length (n_deps n)) (n_state n)) as Hs by (by destruct keep).
  split; [by rewrite Hs; apply rolled_record|].
  split; [|by destruct keep]. split; [|by destruct keep].
  rewrite Hs. replace (n_deps n') with (n_deps n) by (by destruct keep). by apply rolled_wf.
Qed.

(** The slot of a node whose deps have never delivered anything. *)
Lemma cleared_state k s :
  vectors_wf k s →
  set_ds_terminal_wave (fill_n k None) (set_ds_terminal (fill_n k None)
    (set_ds_tier (fill_n k 0) (set_ds_dirty (fill_n k false)
    (set_ds_has_data (fill_n k false) (set_ds_prev (fill_n k None)
    (set_ds_batch_wave_id (fill_n k None) (set_ds_batch_waves (fill_n k [])
    (set_ds_batch (fill_n k None) (set_ds_pending (λ _, 0) s)))))))))
  = DepState_new k.
Proof.
  intros []. unfold DepState_new, set_ds_terminal_wave. simpl. by rewrite !fill_n_len.
Qed.

(** Deactivation resets a node to its construction state: fresh per-dep
    cells, no pending pause, pull or terminal work, not activated, and every
    live dep subscription returned for detaching.  A compute node also loses
    its cached value (RAM); a source keeps it (ROM); a terminal flag survives. *)
Theorem deactivate_fresh n :
  node_inv n →
  let '(n', (unsubs, hooks)) := deactivate_slot n in
  n_state n' = DepState_new (length (n_deps n))
  ∧ (∀ u, u ∈ unsubs ↔ Some u ∈ e_unsubs (n_edges n)) ∧ hooks = on_deactivation (n_aux n)
  ∧ e_unsubs (n_edges n') = [] ∧ activated (n_aux n') = false
  ∧ has_called_fn_once (n_run n') = false ∧ pause_lockset (n_aux n') = []
  ∧ pause_buffer (n_aux n') = [] ∧ pull_demand_owed (n_aux n') = None
  ∧ subscribers (n_aux n') = subscribers (n_aux n)
  ∧ n_value n' = (if is_some (handle (n_call n)) || negb (is_nil (n_deps n))
                  then clear_cache (n_value n) else n_value n)
  ∧ node_inv n'.
Proof.
  intros [[Hw Hh] Hp].
  assert (n_state (deactivate_slot n).1 = DepState_new (length (n_deps n))) as Hs.
  { unfold deactivate_slot. destruct (_ || _); apply cleared_state; exact Hw. }
  assert (∀ u, u ∈ omap id (e_unsubs (n_edges n)) ↔ Some u ∈ e_unsubs (n_edges n)) as Hu.
  { intros u. rewrite list_elem_of_omap. split; [by intros (o & Ho & <-)|by eexists]. }
  assert (node_inv (deactivate_slot n).1) as Hinv.
  { unfold node_inv, slot_vectors_wf, pending_ok.
    replace (n_deps (deactivate_slot n).1) with (n_deps n)
      by (unfold deactivate_slot; by destruct (_ || _)).
    rewrite Hs. split; [split|].
    - split; simpl; by rewrite length_replicate.
    - unfold deactivate_slot. destruct (_ || _); simpl; by rewrite length_replicate.
    - simpl. by rewrite count_true_replicate_false. }
  revert Hs Hinv. unfold deactivate_slot. simpl.
  destruct (_ || _); simpl; intros Hs Hinv; (destruct (state_persist _); by split_and!).
Qed.

Definition reset_cells (k : nat) s : DepState V :=
  set_ds_dirty (fill_n k false) (set_ds_terminal_wave (fill_n k None)
    (set_ds_batch_wave_id (fill_n k None) (set_ds_batch_waves (fill_n k [])
    (set_ds_batch (fill_n k None) (set_ds_pending (λ _, 0) s))))).

Lemma reset_cells_wf k m s : vectors_wf k s → vectors_wf k (reset_cells m s).
Proof. unfold reset_cells. solve_wf. Qed.

(** Panic recovery leaves every touched node consistent, with nothing
    pending and no wave projection, and does not touch its value, its terminal
    flag, the values its deps delivered before, or the deps' terminal marks. *)
Theorem reset_recovers n :
  slot_vectors_wf n →
  let n' := reset_wave_flags n in
  node_inv n' ∧ ds_pending (n_state n') = 0
  ∧ (∀ i, ds_dirty (n_state n') !! i ≠ Some true)
  ∧ inside_run_wave (n_wave n') = false ∧ emitted_dirty_this_wave (n_wave n') = false
  ∧ n_value n' = n_value n ∧ ds_prev (n_state n') = ds_prev (n_state n)
  ∧ ds_has_data (n_state n') = ds_has_data (n_state n)
  ∧ ds_terminal (n_state n') = ds_terminal (n_state n).
Proof.
  intros [Hw Hh] n'.
  assert (ds_dirty (n_state n') = replicate (length (n_deps n)) false) as Hd.
  { destruct Hw. unfold n', reset_wave_flags. simpl. by apply fill_n_len. }
  pose proof (reset_cells_wf _ (length (n_deps n)) _ Hw) as Hw'.
  split_and!; try done.
  - split; [by split|]. unfold pending_ok. rewrite Hd. by rewrite count_true_replicate_false.
  - intros i. rewrite Hd. intros [? _]%lookup_replicate. done.
Qed.
End NodeInv.

(** ** Witnesses *)

(** A compute node with two deps that has run once and is quiescent. *)
Definition ex_core (i : nat) : Core := mkCore 0 (mkNodeKey i 0).
Definition ex_slot : NodeSlot Z :=
  mkNodeSlot (mkNodeTopologySlot [ex_core 0; ex_core 1] None)
    (mkNodeCallSlot None (Some (mkHandle 0 0 0))) (NodeConfigSlot_from_opts NodeOpts_default)
    (mkNodeRunState true) (DepEdges_new 2 [0; 1]%nat)
    (mkNodeVersionState (resolve_node_versioning_policy None) None) NodeAux_new.

Lemma ex_slot_inv : node_inv ex_slot.
Proof. repeat split. Qed.

Lemma ex_slot_collecting : collecting [] ex_slot.
Proof.
  split; [apply ex_slot_inv| |done..|].
  - intros [|[|i]]; (split; [done|]); intros Hi; by apply elem_of_nil in Hi.
  - by intros [|[|i]].
Qed.

Lemma receive_keeps_inv_witness :
  node_inv ex_slot ∧ node_inv (collect_receive false 1 0 (Data 7) ex_slot).1.
Proof. split; [apply ex_slot_inv|]. apply receive_keeps_inv; [apply ex_slot_inv|simpl; lia]. Defined.


Lemma receive_run_guarded_witness :
  ∃ n' a, collect_receive false 1 0 (Data 7) ex_slot = (n', Some a) ∧ gate_open n' = true.
Proof.
  let r := eval vm_compute in (collect_receive false 1 0 (Data 7) ex_slot) in
  match r with
  | (?n', Some ?a) => exists n', a; pose proof (receive_run_guarded 1 0 (Data 7) ex_slot n' a) as H
  end.
  split; [vm_compute; reflexivity|].
  apply H; [vm_compute; reflexivity|reflexivity].
Defined.

(** The same node after a DATA from its first dep. *)
Definition ex_slot_data : NodeSlot Z :=
  Eval vm_compute in (collect_receive false 1 0 (Data 7) ex_slot).1.

Lemma run_rolls_records_witness :
  dep_record (n_state (end_run false (begin_run ex_slot_data))) 0
  = mkDepRecord [] (Some 7) (Some 7) None
  ∧ node_inv (end_run false (begin_run ex_slot_data)).
Proof. apply (run_rolls_records false ex_slot_data 0); [repeat split|simpl; lia]. Defined.

Lemma deactivate_fresh_witness :
  n_state (deactivate_slot ex_slot).1 = DepState_new 2.
Proof. apply (deactivate_fresh ex_slot ex_slot_inv). Defined.

Lemma reset_recovers_witness :
  ds_pending (n_state (reset_wave_flags (collect_receive false 1 0 Dirty ex_slot).1)) = 0.
Proof. apply (reset_recovers (collect_receive false 1 0 Dirty ex_slot).1). repeat split. Defined.
