(* ===== verification/Phases.v ===== *)
(** * One settled node through one wave

    A node of a quiet network (live, not paused, not in a mutation, its fn
    already called once) goes through a wave in phases: idle, dirty, settling,
    running, idle again.  [slot_ph n0 p n] says that the slot [n] is the slot
    [n0] in phase [p]; each lemma says what one node-local operation of the
    engine does to the phase. *)

From stdpp Require Import base option strings numbers gmap list.
From S2P Require Import Prelude Protocol Dispatcher Versioning Arena NodeState Receive NodeInv.

Local Open Scope Z_scope.

(** The part of a slot that changes during a wave. *)
Record Phase (V : Type) := mkPhase {
  ph_val : V;
  ph_emit : bool;
  ph_t3 : bool;
  ph_inside : bool;
  ph_dirty : list bool;
  ph_in : list V;
  ph_new : list (option V);
  ph_room : nat
}.
Arguments mkPhase {V} _ _ _ _ _ _ _ _.
Arguments ph_val {V} _.
Arguments ph_emit {V} _.
Arguments ph_t3 {V} _.
Arguments ph_inside {V} _.
Arguments ph_dirty {V} _.
Arguments ph_in {V} _.
Arguments ph_new {V} _.
Arguments ph_room {V} _.

Section Phases.
Context {V : Type} `{!CanonicalData V}.
Implicit Types p : Phase V.
Implicit Types n : NodeSlot V.

(** What a quiet network asks of a slot beside its phase. *)
Record plain_slot n : Prop := {
  pl_pause : pause_lockset (n_aux n) = [];
  pl_pull : cfg_pull_id (n_config n) = None;
  pl_pull_dirty : pull_dirty_owed (n_aux n) = false;
  pl_invalidate : on_invalidate (n_aux n) = [];
  pl_deactivation : on_deactivation (n_aux n) = [];
  pl_handshake : ∀ i, e_restored_activation_handshake (n_edges n) !! i ≠ Some true;
  pl_called : handle (n_call n) ≠ None → has_called_fn_once (n_run n) = true
}.

(** The versions of [k] further values exist. *)
Definition room (k : nat) n : Prop :=
  ∀ vs : list V, (length vs ≤ k)%nat →
    ∃ nv, advance_all (vs_policy (n_version n)) (vs_value (n_version n)) vs = inr nv.

Record slot_ph n0 p n : Prop := {
  sp_topo : n_topo n = n_topo n0;
  sp_call : n_call n = n_call n0;
  sp_config : n_config n = n_config n0;
  sp_run : n_run n = n_run n0;
  sp_aux : n_aux n = n_aux n0;
  sp_handshake : e_restored_activation_handshake (n_edges n)
                 = e_restored_activation_handshake (n_edges n0);
  sp_cache : v_cache (n_value n) = Some (ph_val p);
  sp_has_data : v_has_data (n_value n) = true;
  sp_live : v_terminal (n_value n) = false;
  sp_wave : n_wave n = mkNodeWaveState (ph_emit p) (ph_t3 p) (ph_inside p) false false false;
  sp_dirty : ds_dirty (n_state n) = ph_dirty p;
  sp_pending : ds_pending (n_state n) = Z.of_nat (count_true (ph_dirty p));
  sp_prev : ds_prev (n_state n) = Some <$> ph_in p;
  sp_batch : ds_batch (n_state n) = ((λ o : option V, (λ v : V, [v]) <$> o) <$> ph_new p);
  sp_len_dirty : length (ph_dirty p) = length (n_deps n0);
  sp_len_in : length (ph_in p) = length (n_deps n0);
  sp_len_new : length (ph_new p) = length (n_deps n0);
  sp_room : room (ph_room p) n
}.

(** ** Phase changes *)

Definition ph_mark (i : nat) p : Phase V :=
  mkPhase (ph_val p) true (ph_t3 p) (ph_inside p) (<[i := true]> (ph_dirty p)) (ph_in p)
    (ph_new p) (ph_room p).
Definition ph_raise p : Phase V :=
  mkPhase (ph_val p) true (ph_t3 p) (ph_inside p) (ph_dirty p) (ph_in p) (ph_new p) (ph_room p).
Definition ph_settle (i : nat) (v : V) p : Phase V :=
  mkPhase (ph_val p) (ph_emit p) (ph_t3 p) (ph_inside p) (<[i := false]> (ph_dirty p)) (ph_in p)
    (<[i := Some v]> (ph_new p)) (ph_room p).
Definition ph_produce (v : V) p : Phase V :=
  mkPhase v (ph_emit p) true (ph_inside p) (ph_dirty p) (ph_in p) (ph_new p) (pred (ph_room p)).
Definition ph_enter p : Phase V :=
  mkPhase (ph_val p) (ph_emit p) false true (ph_dirty p) (ph_in p) (ph_new p) (ph_room p).
Definition ph_leave p : Phase V :=
  mkPhase (ph_val p) (ph_emit p) (ph_t3 p) false (ph_dirty p) (ph_in p) (ph_new p) (ph_room p).

(** The values a run reads: the new ones where a dep has settled with DATA. *)
Definition ph_inputs p : list V := zip_with (λ v o, default v o) (ph_in p) (ph_new p).

Definition ph_finish p : Phase V :=
  mkPhase (ph_val p) false false (ph_inside p) (ph_dirty p) (ph_inputs p)
    (replicate (length (ph_new p)) None) (ph_room p).
Definition ph_calm p : Phase V :=
  mkPhase (ph_val p) false false (ph_inside p) (ph_dirty p) (ph_in p) (ph_new p) (ph_room p).

(** ** Reads *)

Lemma slot_ph_deps n0 p n : slot_ph n0 p n → n_deps n = n_deps n0.
Proof. intros H. unfold n_deps. by rewrite (sp_topo _ _ _ H). Qed.

Lemma slot_ph_subs n0 p n : slot_ph n0 p n → snapshot_subscribers n = snapshot_subscribers n0.
Proof. intros H. unfold snapshot_subscribers. by rewrite (sp_aux _ _ _ H). Qed.

Lemma slot_ph_quiet n0 p n :
  plain_slot n0 → slot_ph n0 p n → paused n = false ∧ pull_quiet n = false.
Proof.
  intros Hp H. unfold paused, pull_quiet.
  rewrite (sp_aux _ _ _ H), (sp_config _ _ _ H), (pl_pause _ Hp), (pl_pull _ Hp). done.
Qed.

Lemma slot_ph_buffer n0 p n b :
  plain_slot n0 → slot_ph n0 p n → should_buffer_on_pause b n = false.
Proof.
  intros Hp H. unfold should_buffer_on_pause.
  destruct (slot_ph_quiet _ _ _ Hp H) as [-> ->]. by destruct (pausable (n_config n)).
Qed.

Lemma slot_ph_can_fire n0 p n : plain_slot n0 → slot_ph n0 p n → can_fire_demand n = false.
Proof.
  intros Hp H. unfold can_fire_demand. by rewrite (sp_config _ _ _ H), (pl_pull _ Hp).
Qed.

(** ** Versions *)

Lemma room_advance k n v :
  room (S k) n →
  ∃ nv, advance_node_version (vs_value (n_version n)) (vs_policy (n_version n)) v = inr nv
        ∧ room k (set_n_version (set_vs_value (λ _, nv)) n).
Proof.
  intros Hr. destruct (Hr [v]) as [nv' Hv]; [simpl; lia|]. simpl in Hv.
  destruct (advance_node_version _ _ v) as [e|nv] eqn:Ha; [done|]. exists nv. split; [done|].
  intros vs Hl. destruct (Hr (v :: vs)) as [nv'' Hvs]; [simpl; lia|].
  simpl in Hvs. rewrite Ha in Hvs. by exists nv''.
Qed.

Lemma advance_compatible cur pol (v : V) nv :
  advance_node_version cur pol v = inr nv → assert_node_version_data_compatible pol v = inr tt.
Proof.
  destruct pol as [| |h]; simpl; [done..|]. unfold hash_node_data.
  destruct (next_counter cur); [done|]. by destruct (data_bytes v).
Qed.

Lemma room_S k n : room (S k) n → room k n.
Proof. intros Hr vs Hl. apply Hr. lia. Qed.

(** ** Node-local operations *)

Ltac slot_open H :=
  destruct H; unfold n_wave, n_state, n_value, room in *; simpl in *; split;
  unfold n_wave, n_state, n_value, room;
  simpl; rewrite ?length_insert, ?length_replicate, ?length_zip_with; auto; try lia.

Lemma collect_dirty n0 p n b d i :
  plain_slot n0 → slot_ph n0 p n → ph_dirty p !! i = Some false →
  ∃ n', collect_receive b d i Dirty n
        = (n', if ph_emit p then None else Some (set_emit_dirty (λ _, true) action_default))
        ∧ slot_ph n0 (ph_mark i p) n'.
Proof.
  intros Hp H Hi. destruct (slot_ph_quiet _ _ _ Hp H) as [_ Hq].
  unfold collect_receive. rewrite (sp_live _ _ _ H). simpl. unfold receive_dirty.
  rewrite (sp_dirty _ _ _ H), Hi, Hq. simpl.
  assert (emitted_dirty_this_wave (n_wave n) = ph_emit p) as He by by rewrite (sp_wave _ _ _ H).
  assert (slot_ph n0 (ph_mark i p) (on_wave (set_emitted_dirty_this_wave (λ _, true))
            (on_state (mark_dep_dirty i) n))) as Hmark.
  { slot_open H.
    - by rewrite sp_wave0.
    - by rewrite sp_dirty0.
    - rewrite sp_pending0, (count_true_insert_true _ _ Hi). lia. }
  rewrite He. destruct (ph_emit p) eqn:Hpe; simpl; eexists; (split; [done|]).
  - slot_open H.
    + by rewrite sp_wave0, Hpe.
    + by rewrite sp_dirty0.
    + rewrite sp_pending0, (count_true_insert_true _ _ Hi). lia.
  - slot_open Hmark. by rewrite length_insert in sp_len_dirty0.
Qed.
Lemma alter_push_new (l : list (option V)) i v :
  l !! i = Some None →
  alter (push_batch v) i ((λ o : option V, (λ x : V, [x]) <$> o) <$> l)
  = (λ o : option V, (λ x : V, [x]) <$> o) <$> <[i := Some v]> l.
Proof.
  revert i. induction l as [|o l IH]; intros [|i] Hi; simpl in *; try done.
  - by injection Hi as ->.
  - f_equal. by apply IH.
Qed.

Lemma settle_data n0 p n d i v :
  plain_slot n0 → slot_ph n0 p n → ph_dirty p !! i = Some true → ph_new p !! i = Some None →
  ∃ n', (let '(n', a) := settle_dep_action true i (on_state (wave_data_cells d i v) n) in
         (n', if has_work a then Some a else None))
        = (n', if bool_decide (count_true (ph_dirty (ph_settle i v p)) = 0%nat)
               then Some (set_fire_demand (λ _, true)
                            (set_defer_maybe_run (λ _, true) action_default))
               else None)
        ∧ slot_ph n0 (ph_settle i v p) n'.
Proof.
  intros Hp H Hi Hn. destruct (slot_ph_quiet _ _ _ Hp H) as [Hpz Hpq].
  destruct (wave_data_cells_dirty d i v (n_state n)) as [Hd Hpd].
  set (n1 := on_state (settle_dirty i) (on_state (wave_data_cells d i v) n)).
  assert (n_state n1 = set_ds_dirty <[i := false]> (set_ds_pending (λ x, x - 1)
            (wave_data_cells d i v (n_state n)))) as Hst.
  { change (n_state n1) with (settle_dirty i (wave_data_cells d i v (n_state n))).
    unfold settle_dirty. by rewrite Hd, (sp_dirty _ _ _ H), Hi. }
  assert (slot_ph n0 (ph_settle i v p) n1) as H1.
  { assert (ds_prev (n_state n1) = ds_prev (n_state n)
            ∧ ds_batch (n_state n1) = alter (push_batch v) i (ds_batch (n_state n))) as [Hpr Hb].
    { rewrite Hst. simpl. unfold current_wave_mut. by case_split. }
    assert (ds_dirty (n_state n1) = <[i := false]> (ds_dirty (n_state n))
            ∧ ds_pending (n_state n1) = ds_pending (n_state n) - 1) as [Hdd Hpp].
    { rewrite Hst. simpl in *. by rewrite Hd, Hpd. }
    clear Hst Hd Hpd. pose proof (count_true_insert_false _ _ Hi) as Hcnt.
    destruct H; split; try done; simpl; rewrite ?length_insert; auto.
    - by rewrite Hdd, sp_dirty0.
    - rewrite Hpp, sp_pending0. lia.
    - by rewrite Hpr.
    - rewrite Hb, sp_batch0. by apply alter_push_new. }
  clear Hst. unfold settle_dep_action, settle_dep. fold n1.
  destruct (slot_ph_quiet _ _ _ Hp H1) as [-> ->]. simpl orb. rewrite andb_false_r.
  rewrite (sp_pending _ _ _ H1). exists n1.
  destruct (bool_decide_reflect (count_true (ph_dirty (ph_settle i v p)) = 0%nat)) as [Hz|Hz].
  - rewrite bool_decide_true by lia. done.
  - rewrite bool_decide_false by lia. done.
Qed.

(** DATA from dep [i] inside a delivery: the mark goes, the value is kept, and a
    node with no mark left is queued for the delivery boundary. *)
Lemma collect_data n0 p n d i v :
  plain_slot n0 → slot_ph n0 p n → ph_dirty p !! i = Some true → ph_new p !! i = Some None →
  ∃ n', collect_receive true d i (Data v) n
        = (n', if bool_decide (count_true (ph_dirty (ph_settle i v p)) = 0%nat)
               then Some (set_fire_demand (λ _, true)
                            (set_defer_maybe_run (λ _, true) action_default))
               else None)
        ∧ slot_ph n0 (ph_settle i v p) n'.
Proof.
  intros Hp H Hi Hn. unfold collect_receive. rewrite (sp_live _ _ _ H). simpl. unfold receive_data.
  rewrite (sp_handshake _ _ _ H). pose proof (pl_handshake _ Hp i) as Hh.
  destruct (e_restored_activation_handshake (n_edges n0) !! i) as [[]|]; [done|..]; clear Hh.
  all: change (on_state _ n) with (on_state (wave_data_cells d i v) n).
  all: by apply settle_data.
Qed.

(** ** One outgoing DATA *)
Lemma collect_down_data n0 p n v nv k :
  slot_ph n0 p n → ph_room p = S k →
  advance_node_version (vs_value (n_version n)) (vs_policy (n_version n)) v = inr nv →
  room k (set_n_version (set_vs_value (λ _, nv)) n) →
  ∃ n', collect_down (Data v) nv n = (n', Some (DownEmit (Data v) (snapshot_subscribers n0)))
        ∧ slot_ph n0 (ph_produce v p) n'.
Proof.
  intros H Hk Hv Hr. eexists. split.
  - simpl. by rewrite (slot_ph_subs _ _ _ H).
  - slot_open H; [by rewrite sp_wave0|]. by rewrite Hk.
Qed.

Lemma raise_ph n0 p n :
  slot_ph n0 p n →
  slot_ph n0 (ph_raise p) (on_value (set_v_status (λ _, Status.Dirty))
                             (on_wave (set_emitted_dirty_this_wave (λ _, true)) n)).
Proof. intros H. slot_open H. by rewrite sp_wave0. Qed.

Lemma calm_ph n0 p n :
  slot_ph n0 p n →
  slot_ph n0 (ph_calm p) (on_wave (λ w, set_emitted_tier3_this_wave (λ _, false)
                            (set_emitted_dirty_this_wave (λ _, false) w)) n).
Proof. intros H. slot_open H. by rewrite sp_wave0. Qed.

Lemma leave_ph n0 p n :
  slot_ph n0 p n → slot_ph n0 (ph_leave p) (on_wave (set_inside_run_wave (λ _, false)) n).
Proof. intros H. slot_open H. by rewrite sp_wave0. Qed.

(** ** Running *)

Lemma begin_ph n0 p n :
  plain_slot n0 → handle (n_call n0) ≠ None → slot_ph n0 p n → slot_ph n0 (ph_enter p) (begin_run n).
Proof.
  intros Hp Hh H. pose proof (pl_called _ Hp Hh) as Hc. pose proof (pl_invalidate _ Hp) as Hi.
  pose proof (pl_deactivation _ Hp) as Hd. slot_open H.
  - rewrite sp_run0. by destruct (n_run n0) as []; simpl in *; subst.
  - rewrite sp_aux0. destruct (n_aux n0). simpl in *. by subst.
  - by rewrite sp_wave0.
Qed.

Lemma run_inputs n0 p n :
  slot_ph n0 p n → latest <$> run_dep_records n = Some <$> ph_inputs p.
Proof.
  intros H. apply list_eq. intros i. rewrite !list_lookup_fmap.
  unfold run_dep_records. rewrite list_lookup_fmap, (slot_ph_deps _ _ _ H).
  destruct (decide (i < length (n_deps n0))%nat) as [Hi|Hi].
  - rewrite lookup_seq_lt by done. simpl.
    destruct (lookup_lt_is_Some_2 (ph_in p) i) as [x Hx]; [by rewrite (sp_len_in _ _ _ H)|].
    destruct (lookup_lt_is_Some_2 (ph_new p) i) as [o Ho]; [by rewrite (sp_len_new _ _ _ H)|].
    unfold ph_inputs. rewrite lookup_zip_with, Hx. simpl. rewrite Ho. simpl.
    unfold dep_record. simpl. rewrite (sp_prev _ _ _ H), (sp_batch _ _ _ H), !list_lookup_fmap, Hx, Ho.
    by destruct o.
  - rewrite lookup_seq_ge by lia. simpl. rewrite lookup_ge_None_2; [done|].
    unfold ph_inputs. rewrite length_zip_with, (sp_len_in _ _ _ H). lia.
Qed.

Lemma roll_inputs (ns : list (option V)) (vs : list V) :
  zip_with roll_prev ((λ o : option V, (λ x : V, [x]) <$> o) <$> ns) (Some <$> vs)
  = Some <$> zip_with (λ v o, default v o) vs ns.
Proof.
  revert vs. induction ns as [|o ns IH]; intros [|v vs]; simpl; try done.
  rewrite IH. by destruct o.
Qed.

Lemma finish_ph n0 p n :
  slot_ph n0 p n → slot_ph n0 (ph_finish p) (end_run false n).
Proof.
  intros H. slot_open H.
  - by rewrite sp_wave0.
  - by rewrite sp_batch0, sp_prev0, roll_inputs.
  - rewrite sp_batch0, length_fmap, fmap_replicate. done.
  - unfold ph_inputs. rewrite length_zip_with. lia.
Qed.

Lemma decide_run_ph n0 p n :
  plain_slot n0 → handle (n_call n0) ≠ None → slot_ph n0 p n → count_true (ph_dirty p) = 0%nat →
  decide_maybe_run n = (n, Run).
Proof.
  intros Hp Hh H H0. destruct (slot_ph_quiet _ _ _ Hp H) as [Hz Hq].
  apply decide_run; [by rewrite (sp_wave _ _ _ H)|done|done|..].
  - by rewrite (sp_pending _ _ _ H), H0.
  - rewrite (sp_call _ _ _ H). by destruct (handle (n_call n0)).
  - rewrite (sp_run _ _ _ H). by apply pl_called.
Qed.
End Phases.
