(* ===== verification/Rewire.v ===== *)
(** * Runtime topology rewire: the pure part (node.rs)

    Projecting a request onto a dep list, deduplication, the cycle check, the
    matching of kept deps (a quadratic and a hashed algorithm, proved equal),
    and the rebuild of the per-dep vectors in the new order. *)

From stdpp Require Import base option strings numbers sets gmap fin_sets relations list.
From S2P Require Import Prelude Protocol Dispatcher Versioning Arena NodeState Receive.

(** ** Requests *)

Definition contains_core (c : Core) (l : list Core) : bool := existsb (ptr_eq c) l.

(** [project_deps]. *)
Definition project_deps (req : RewireRequest) (current : list Core) : list Core :=
  match req with
  | RewireSet ds _ => ds
  | RewireAdd dep _ => if contains_core dep current then current else current ++ [dep]
  | RewireRemove dep _ => List.filter (λ d, negb (ptr_eq dep d)) current
  end.

Definition req_fn (req : RewireRequest) : FnId :=
  match req with RewireSet _ f | RewireAdd _ f | RewireRemove _ f => f end.

(** [into_deps_and_fn]. *)
Definition into_deps_and_fn (req : RewireRequest) (current : list Core) : list Core * FnId :=
  (project_deps req current, req_fn req).

(** [validate_deps_same_graph]. *)
Definition deps_same_graph (req : RewireRequest) (owner : Core) : bool :=
  match req with
  | RewireSet ds _ => forallb (λ d, same_graph d owner) ds
  | RewireAdd dep _ => same_graph dep owner
  | RewireRemove _ _ => true
  end.

(** [dedup_cores]: first-seen order. *)
Fixpoint dedup_cores_from (seen : list Core) (l : list Core) : list Core :=
  match l with
  | [] => []
  | c :: l' =>
      if contains_core c seen then dedup_cores_from seen l'
      else c :: dedup_cores_from (c :: seen) l'
  end.
Definition dedup_cores (l : list Core) : list Core := dedup_cores_from [] l.

(** [same_ordered_deps]: equal lengths and pairwise equal identities. *)
Definition same_ordered_deps (old_deps new_deps : list Core) : bool :=
  bool_decide (length old_deps = length new_deps)
  && forallb (λ '(a, b), ptr_eq a b) (zip old_deps new_deps).

Definition same_graph_no_overlap (old_deps new_deps : list Core) : bool :=
  negb (existsb (λ d, contains_core d old_deps) new_deps).

(** ** Matching kept deps *)

Definition Matching : Type := list (option nat) * list (option nat).

(** One iteration of the quadratic loop: the first unclaimed occurrence. *)
Definition match_step (new_deps : list Core) (acc : Matching) (old : nat * Core) : Matching :=
  let '(old_to_new, new_to_old) := acc in
  match position (λ '(d, o), ptr_eq old.2 d && negb (is_some o)) (zip new_deps new_to_old) with
  | Some new_idx => (<[old.1 := Some new_idx]> old_to_new, <[new_idx := Some old.1]> new_to_old)
  | None => acc
  end.

Definition match_quadratic (old_deps new_deps : list Core) : Matching :=
  foldl (match_step new_deps)
    (replicate (length old_deps) None, replicate (length new_deps) None)
    (imap pair old_deps).

(** The hashed loop: [first_old_by_key] maps an identity to its first index and
    gives it up when claimed.  A hash map is its set of bindings: the model
    keeps an association list with unique keys. *)
Definition first_old_by_key (old_deps : list Core) : list (Core * nat) :=
  foldl (λ m '(i, d), if existsb (λ e, ptr_eq d e.1) m then m else m ++ [(d, i)]) []
    (imap pair old_deps).

Definition hash_step (acc : list (Core * nat) * Matching) (new : nat * Core)
    : list (Core * nat) * Matching :=
  let '(m, (old_to_new, new_to_old)) := acc in
  match List.find (λ e, ptr_eq new.2 e.1) m with
  | Some (_, old_idx) =>
      (List.filter (λ e, negb (ptr_eq new.2 e.1)) m,
       (<[old_idx := Some new.1]> old_to_new, <[new.1 := Some old_idx]> new_to_old))
  | None => acc
  end.

Definition match_hashed (old_deps new_deps : list Core) : Matching :=
  (foldl hash_step
     (first_old_by_key old_deps,
      (replicate (length old_deps) None, replicate (length new_deps) None))
     (imap pair new_deps)).2.

(** The size switch. *)
Definition match_deps (old_deps new_deps : list Core) : Matching :=
  if bool_decide (length old_deps * length new_deps ≤ 64)%nat
  then match_quadratic old_deps new_deps else match_hashed old_deps new_deps.

(** ** The cycle check *)

Section Reach.
Context {V B : Type}.
Implicit Types g : GraphCore (NodeSlot V) B.

(** [reachable_upstream]'s loop; the top of the stack is the list head. *)
Fixpoint dfs_upstream (fuel : nat) g (target : NodeKey) (seen : list NodeKey)
    (stack : list NodeKey) : option bool :=
  match fuel with
  | O => None
  | S fuel' =>
      match stack with
      | [] => Some false
      | key :: stack' =>
          if bool_decide (key ∈ seen) then dfs_upstream fuel' g target seen stack'
          else
            let seen' := key :: seen in
            match Arena.get g key with
            | None => dfs_upstream fuel' g target seen' stack'
            | Some n =>
                if bool_decide (key = target) then Some true
                else dfs_upstream fuel' g target seen' (reverse (c_key <$> n_deps n) ++ stack')
            end
      end
  end.

(** Total number of edges out of the slots, bounding the number of pushes. *)
Definition slot_degree (o : option (NodeSlot V)) : nat :=
  match o with Some n => length (n_deps n) | None => 0 end.
Definition edge_count g : nat := sum_list (slot_degree <$> g_slots g).

Definition reachable_upstream g (from target : NodeKey) : option bool :=
  if negb (Arena.is_live_key g target) then Some false
  else dfs_upstream (edge_count g + 2) g target [] [from].
End Reach.

(** ** Rebuilding the per-dep vectors *)

Section Rebuild.
Context {V : Type}.

(** Cell [j] of a rebuilt vector: the kept dep's cell, or a fresh one. *)
Definition pick {A} (fresh : A) (l : list A) (o : option nat) : A :=
  match o with Some i => default fresh (l !! i) | None => fresh end.

Definition rebuild_state (new_to_old : list (option nat)) (s : DepState V) : DepState V :=
  mkDepState (pick None (ds_batch s) <$> new_to_old) (pick [] (ds_batch_waves s) <$> new_to_old)
    (pick None (ds_batch_wave_id s) <$> new_to_old) (pick None (ds_prev s) <$> new_to_old)
    (pick false (ds_has_data s) <$> new_to_old) (pick false (ds_dirty s) <$> new_to_old)
    (pick 0%Z (ds_tier s) <$> new_to_old) (ds_pending s)
    (pick None (ds_terminal s) <$> new_to_old) (pick None (ds_terminal_wave s) <$> new_to_old).

(** The kept boxes keep their cell, the others are the placeholders. *)
Definition rebuild_boxes (new_to_old : list (option nat)) (old_boxes placeholders : list nat)
    : list nat :=
  zip_with (λ o b, match o with Some i => default b (old_boxes !! i) | None => b end)
    new_to_old placeholders.

Definition rebuild_slot (new_deps : list Core) (new_to_old : list (option nat))
    (placeholders : list nat) (n : NodeSlot V) : NodeSlot V :=
  set_n_topo (set_deps (λ _, new_deps))
    (set_n_edges (λ e,
       mkDepEdges (e_value e) (e_wave e) (rebuild_state new_to_old (e_state e))
         (pick None (e_unsubs e) <$> new_to_old)
         (rebuild_boxes new_to_old (e_idx_boxes e) placeholders)
         (replicate (length new_deps) false)) n).
End Rebuild.
