(* ===== verification/RewireFacts.v ===== *)
(** * Theorems about topology rewire

    Deduplication keeps the first occurrence of each dep; the quadratic and the
    hashed matching compute the same partial bijection; the cycle check
    terminates and decides reachability; an accepted change of deps keeps the
    graph acyclic; the rebuilt per-dep vectors keep the state of the kept deps. *)

From stdpp Require Import base option strings numbers sets gmap fin_sets relations list.
From S2P Require Import Prelude Protocol Dispatcher Versioning Arena NodeState Receive NodeInv.
From S2P Require Import Rewire.

(** ** First indices *)

Section Idx.

Definition idx (c : Core) (l : list Core) : option nat := position (ptr_eq c) l.

Lemma contains_core_spec c l : contains_core c l = true ↔ c ∈ l.
Proof.
  unfold contains_core. rewrite existsb_exists. split.
  - intros (d & Hd%list_elem_of_In & ->%bool_decide_eq_true). done.
  - intros H. exists c. split; [by apply list_elem_of_In|by apply bool_decide_eq_true].
Qed.

Lemma contains_core_false c l : contains_core c l = false ↔ c ∉ l.
Proof. rewrite <-contains_core_spec. by destruct (contains_core c l). Qed.

Lemma idx_None c l : idx c l = None ↔ c ∉ l.
Proof.
  induction l as [|d l IH]; [split; [intros _; apply not_elem_of_nil|done]|].
  unfold idx in *. simpl. unfold ptr_eq at 1. case_bool_decide; subst; simpl.
  - split; [done|]. intros []. by left.
  - rewrite fmap_None, IH, not_elem_of_cons. naive_solver.
Qed.

Lemma idx_Some c l i : idx c l = Some i ↔ l !! i = Some c ∧ ∀ j, (j < i)%nat → l !! j ≠ Some c.
Proof.
  revert i. induction l as [|d l IH]; intros i; [split; [done|by intros [? _]]|].
  unfold idx in *. simpl. unfold ptr_eq at 1. case_bool_decide as Hd; subst; simpl.
  - split; [intros [= <-]; split; [done|lia]|].
    intros [Hi Hlt]. destruct i as [|i]; [done|]. destruct (Hlt 0%nat); [lia|done].
  - rewrite fmap_Some. split.
    + intros (j & Hj & ->). apply IH in Hj as [Hj Hlt]. split; [done|].
      intros [|k] Hk; simpl; [naive_solver|]. apply Hlt. lia.
    + destruct i as [|i]; simpl; [naive_solver|]. intros [Hi Hlt]. exists i. split; [|done].
      apply IH. split; [done|]. intros j Hj. apply (Hlt (S j)). lia.
Qed.

Lemma idx_app c l k :
  idx c (l ++ k) = match idx c l with Some i => Some i | None => (Nat.add (length l)) <$> idx c k end.
Proof.
  unfold idx. induction l as [|d l IH]; simpl; [by destruct (position (ptr_eq c) k)|].
  destruct (ptr_eq c d); [done|]. rewrite IH. destruct (position (ptr_eq c) l); [done|]. simpl.
  by destruct (position (ptr_eq c) k).
Qed.

Lemma idx_snoc c l d :
  idx c (l ++ [d]) = match idx c l with
                     | Some i => Some i
                     | None => if ptr_eq c d then Some (length l) else None
                     end.
Proof.
  rewrite idx_app. destruct (idx c l); [done|]. unfold idx. simpl.
  destruct (ptr_eq c d); simpl; [by rewrite Nat.add_0_r|done].
Qed.

Lemma idx_NoDup c l i : NoDup l → l !! i = Some c → idx c l = Some i.
Proof.
  intros Hnd Hi. apply idx_Some. split; [done|]. intros j Hj Hc.
  assert (i = j) by (by eapply NoDup_lookup). lia.
Qed.
End Idx.

(** ** Deduplication *)

Lemma dedup_from_spec seen l :
  NoDup (dedup_cores_from seen l)
  ∧ (∀ c, c ∈ dedup_cores_from seen l ↔ c ∈ l ∧ c ∉ seen)
  ∧ dedup_cores_from seen l `sublist_of` l.
Proof.
  revert seen. induction l as [|d l IH]; intros seen; simpl.
  - split_and!; [constructor|set_solver|done].
  - destruct (contains_core d seen) eqn:Hd.
    + apply contains_core_spec in Hd. destruct (IH seen) as (H1 & H2 & H3).
      split_and!; [done| |by apply sublist_cons]. intros c. rewrite H2. set_solver.
    + apply contains_core_false in Hd. destruct (IH (d :: seen)) as (H1 & H2 & H3). split_and!.
      * constructor; [|done]. rewrite H2. set_solver.
      * intros c. rewrite elem_of_cons, H2. set_unfold. destruct (decide (c = d)); naive_solver.
      * by apply sublist_skip.
Qed.

Lemma dedup_from_id seen l :
  NoDup l → (∀ c, c ∈ l → c ∉ seen) → dedup_cores_from seen l = l.
Proof.
  revert seen. induction l as [|d l IH]; intros seen Hnd Hs; simpl; [done|].
  apply NoDup_cons in Hnd as [Hd Hnd].
  rewrite (proj2 (contains_core_false d seen)) by (apply Hs; by left).
  f_equal. apply IH; [done|]. intros c Hc. rewrite not_elem_of_cons.
  split; [by intros ->|apply Hs; by right].
Qed.

(** The dep list a rewire installs names every requested dep once, in the
    order of first occurrence, and nothing else. *)
Theorem dedup_cores_spec l :
  NoDup (dedup_cores l) ∧ (∀ c, c ∈ dedup_cores l ↔ c ∈ l) ∧ dedup_cores l `sublist_of` l
  ∧ (NoDup l → dedup_cores l = l).
Proof.
  destruct (dedup_from_spec [] l) as (H1 & H2 & H3). split_and!; [done| |done|].
  - intros c. unfold dedup_cores. rewrite H2. set_solver.
  - intros Hnd. apply dedup_from_id; [done|]. intros c _. apply not_elem_of_nil.
Qed.

(** ** Matching kept deps *)

(** The specification: an old dep is kept when it is the first occurrence of
    its identity and the identity is requested. *)
Definition kept_old (l new_deps : list Core) : list (option nat) :=
  imap (λ i c, if bool_decide (idx c l = Some i) then idx c new_deps else None) l.
Definition kept_new (l new_deps : list Core) : list (option nat) := (λ c, idx c l) <$> new_deps.
Definition spec_match (old_deps new_deps : list Core) : Matching :=
  (kept_old old_deps new_deps, kept_new old_deps new_deps).

Lemma position_ext {A} (p q : A → bool) l :
  (∀ a, a ∈ l → p a = q a) → position p l = position q l.
Proof.
  induction l as [|a l IH]; intros H; simpl; [done|]. rewrite (H a) by (by left).
  destruct (q a); [done|]. f_equal. apply IH. intros b Hb. apply H. by right.
Qed.

Lemma position_false {A} (p : A → bool) l : (∀ a, a ∈ l → p a = false) → position p l = None.
Proof.
  intros H. rewrite (position_ext p (λ _, false)) by done. clear H.
  induction l as [|a l IH]; simpl; [done|by rewrite IH].
Qed.

Lemma position_zip_fmap {A B} (p : A * B → bool) (f : A → B) l :
  position p (zip l (f <$> l)) = position (λ a, p (a, f a)) l.
Proof. induction l as [|a l IH]; simpl; [done|]. destruct (p (a, f a)); [done|]. by f_equal. Qed.

Lemma length_kept_old l k : length (kept_old l k) = length l.
Proof. apply length_imap. Qed.

Lemma kept_old_lookup l k i c :
  l !! i = Some c →
  kept_old l k !! i = Some (if bool_decide (idx c l = Some i) then idx c k else None).
Proof. intros H. unfold kept_old. by rewrite list_lookup_imap, H. Qed.

Lemma kept_old_snoc l x new :
  kept_old (l ++ [x]) new = kept_old l new ++ [if bool_decide (x ∈ l) then None else idx x new].
Proof.
  unfold kept_old. rewrite imap_app. f_equal.
  - apply imap_ext. intros i c Hi. rewrite idx_snoc.
    destruct (idx c l) eqn:He; [done|]. apply idx_None in He.
    destruct He. by eapply list_elem_of_lookup_2.
  - simpl. f_equal. rewrite Nat.add_0_r, idx_snoc.
    destruct (idx x l) as [i|] eqn:He.
    + apply idx_Some in He as [He _]. pose proof (lookup_lt_Some _ _ _ He).
      rewrite (bool_decide_true (x ∈ l)) by (by eapply list_elem_of_lookup_2).
      rewrite bool_decide_false; [done|]. intros [= ->]. lia.
    + apply idx_None in He. rewrite (bool_decide_false (x ∈ l)) by done.
      unfold ptr_eq. rewrite (bool_decide_true (x = x)) by done. by rewrite bool_decide_true.
Qed.

Lemma kept_new_snoc l x new :
  NoDup new →
  kept_new (l ++ [x]) new
  = match (if bool_decide (x ∈ l) then None else idx x new) with
    | Some j => <[j := Some (length l)]> (kept_new l new)
    | None => kept_new l new
    end.
Proof.
  intros Hnd. unfold kept_new. apply list_eq. intros j. rewrite list_lookup_fmap.
  assert (∀ c, idx c (l ++ [x]) = if bool_decide (x ∈ l) then idx c l else
    if bool_decide (c = x) then Some (length l) else idx c l) as Hidx.
  { intros c. rewrite idx_snoc. unfold ptr_eq. destruct (idx c l) eqn:He.
    - repeat case_bool_decide; try done. subst. apply idx_Some in He as [He _].
      destruct H. by eapply list_elem_of_lookup_2.
    - apply idx_None in He. repeat case_bool_decide; naive_solver. }
  case_bool_decide as Hx.
  - rewrite list_lookup_fmap. destruct (new !! j); simpl; [|done].
    by rewrite Hidx.
  - destruct (idx x new) as [k|] eqn:Hk.
    + apply idx_Some in Hk as [Hk _]. destruct (decide (j = k)) as [->|Hne].
      * rewrite list_lookup_insert_eq by (rewrite length_fmap; by eapply lookup_lt_Some).
        rewrite Hk. simpl. by rewrite Hidx, bool_decide_true.
      * rewrite list_lookup_insert_ne, list_lookup_fmap by done.
        destruct (new !! j) as [c|] eqn:Hj; simpl; [|done]. rewrite Hidx.
        rewrite bool_decide_false; [done|]. intros ->. by destruct Hne; eapply NoDup_lookup.
    + apply idx_None in Hk. rewrite list_lookup_fmap.
      destruct (new !! j) as [c|] eqn:Hj; simpl; [|done]. rewrite Hidx.
      rewrite bool_decide_false; [done|]. intros ->. destruct Hk. by eapply list_elem_of_lookup_2.
Qed.

Lemma match_step_spec l x r new :
  NoDup new →
  match_step new (kept_old l new ++ replicate (S r) None, kept_new l new) (length l, x)
  = (kept_old (l ++ [x]) new ++ replicate r None, kept_new (l ++ [x]) new).
Proof.
  intros Hnd. unfold match_step. rewrite kept_old_snoc, (kept_new_snoc l x new Hnd). cbn [fst snd].
  assert (position (λ '(d, o), ptr_eq x d && negb (is_some o)) (zip new (kept_new l new))
          = if bool_decide (x ∈ l) then None else idx x new) as ->.
  { unfold kept_new. rewrite position_zip_fmap. case_bool_decide as Hx.
    - apply position_false. intros d Hd. unfold ptr_eq. case_bool_decide; subst; [|done].
      destruct (idx d l) eqn:He; [done|]. by apply idx_None in He.
    - apply position_ext. intros d Hd. unfold ptr_eq. case_bool_decide; subst; [|done].
      by rewrite (proj2 (idx_None d l)). }
  rewrite <-(assoc_L (++)). destruct (if bool_decide _ then _ else _) as [j|]; simpl; [|done].
  f_equal. rewrite <-(length_kept_old l new) at 1. by rewrite insert_app_r_alt, Nat.sub_diag.
Qed.

Lemma match_quadratic_spec old_deps new_deps :
  NoDup new_deps → match_quadratic old_deps new_deps = spec_match old_deps new_deps.
Proof.
  intros Hnd. unfold match_quadratic.
  assert (∀ l r, foldl (match_step new_deps)
    (replicate (length l + r) None, replicate (length new_deps) None) (imap pair l)
    = (kept_old l new_deps ++ replicate r None, kept_new l new_deps)) as H.
  { intros l. induction l as [|x l IH] using rev_ind; intros r.
    - simpl. f_equal. unfold kept_new. symmetry. apply list_eq. intros j.
      rewrite list_lookup_fmap. destruct (new_deps !! j) eqn:Hj; simpl.
      + symmetry. apply lookup_replicate_2. by eapply lookup_lt_Some.
      + symmetry. apply lookup_ge_None. rewrite length_replicate. by apply lookup_ge_None.
    - rewrite imap_app, foldl_app, length_app. simpl.
      replace (length l + 1 + r) with (length l + S r) by lia.
      rewrite IH, Nat.add_0_r. by apply match_step_spec. }
  specialize (H old_deps 0). rewrite Nat.add_0_r in H. rewrite H. simpl.
  unfold spec_match. by rewrite app_nil_r.
Qed.

Abbreviation hash_find c m := (List.find (λ e : Core * nat, ptr_eq c e.1) m).

Lemma find_app {A} (p : A → bool) l k :
  List.find p (l ++ k) = match List.find p l with Some a => Some a | None => List.find p k end.
Proof. induction l as [|a l IH]; simpl; [done|]. by destruct (p a). Qed.

Lemma find_filter_ne c x m :
  hash_find c (List.filter (λ e, negb (ptr_eq x e.1)) m)
  = if bool_decide (c = x) then None else hash_find c m.
Proof.
  induction m as [|[d i] m IH]; simpl; [by case_bool_decide|].
  destruct (ptr_eq x d) eqn:Hx; simpl; rewrite IH; clear IH; revert Hx; unfold ptr_eq;
    repeat case_bool_decide; congruence.
Qed.

Lemma first_old_spec c old_deps :
  hash_find c (first_old_by_key old_deps) = pair c <$> idx c old_deps.
Proof.
  unfold first_old_by_key.
  assert (∀ l c, hash_find c (foldl (λ m '(i, d), if existsb (λ e, ptr_eq d e.1) m
    then m else m ++ [(d, i)]) [] (imap pair l)) = pair c <$> idx c l) as H; [|apply H].
  clear. intros l. induction l as [|x l IH] using rev_ind; intros c; [done|].
  rewrite imap_app, foldl_app. simpl. rewrite Nat.add_0_r. set (m := foldl _ _ _) in *.
  assert (existsb (λ e, ptr_eq x e.1) m = contains_core x l) as ->.
  { specialize (IH x). destruct (contains_core x l) eqn:Hx.
    - apply contains_core_spec in Hx. destruct (idx x l) as [i|] eqn:Hi; [|by apply idx_None in Hi].
      simpl in IH. apply List.find_some in IH as [Hin He]. apply existsb_exists. eauto.
    - apply contains_core_false, idx_None in Hx. rewrite Hx in IH. simpl in IH.
      apply not_true_iff_false. intros (e & Hin & He)%existsb_exists.
      by rewrite (List.find_none _ _ IH e Hin) in He. }
  rewrite idx_snoc. destruct (contains_core x l) eqn:Hx.
  - rewrite IH. destruct (idx c l) eqn:Hc; [done|]. unfold ptr_eq. case_bool_decide; [|done].
    subst. apply idx_None in Hc. by apply contains_core_spec in Hx.
  - rewrite find_app, IH. destruct (idx c l) eqn:Hc; simpl; [done|].
    unfold ptr_eq. simpl. case_bool_decide; by subst.
Qed.

Lemma kept_old_request_snoc old q x :
  x ∉ q →
  kept_old old (q ++ [x]) = match idx x old with
                            | Some i => <[i := Some (length q)]> (kept_old old q)
                            | None => kept_old old q
                            end.
Proof.
  intros Hx. apply list_eq. intros i.
  assert (∀ i c, old !! i = Some c → kept_old old (q ++ [x]) !! i =
    if bool_decide (idx x old = Some i) then Some (Some (length q)) else kept_old old q !! i) as H.
  { intros i' c Hc. rewrite !(kept_old_lookup _ _ _ _ Hc), idx_snoc. unfold ptr_eq.
    destruct (decide (c = x)) as [->|Hne].
    - rewrite (proj2 (idx_None x q) Hx), (bool_decide_true (x = x)) by done.
      by case_bool_decide.
    - rewrite (bool_decide_false (c = x)) by done.
      rewrite (bool_decide_false (idx x old = Some i')).
      { by destruct (idx c q). }
      intros [Hi _]%idx_Some. congruence. }
  destruct (old !! i) as [c|] eqn:Hc.
  - rewrite (H i c Hc). case_bool_decide as Hi.
    + rewrite Hi. rewrite list_lookup_insert_eq; [done|].
      rewrite length_kept_old. by eapply lookup_lt_Some.
    + destruct (idx x old) as [k|]; [|done]. rewrite list_lookup_insert_ne; [done|congruence].
  - apply lookup_ge_None in Hc. rewrite !(lookup_ge_None_2 _ i); [done|..].
    + destruct (idx x old); rewrite ?length_insert, length_kept_old; lia.
    + rewrite length_kept_old. lia.
Qed.

Lemma match_hashed_spec old_deps new_deps :
  NoDup new_deps → match_hashed old_deps new_deps = spec_match old_deps new_deps.
Proof.
  intros Hnd. unfold match_hashed.
  assert (∀ q r, NoDup q → ∃ m,
    foldl hash_step (first_old_by_key old_deps,
      (replicate (length old_deps) None, replicate (length q + r) None)) (imap pair q)
    = (m, (kept_old old_deps q, ((λ c, idx c old_deps) <$> q) ++ replicate r None))
    ∧ ∀ c, hash_find c m = if bool_decide (c ∈ q) then None else pair c <$> idx c old_deps) as H.
  { intros q. induction q as [|x q IH] using rev_ind; intros r Hq.
    - exists (first_old_by_key old_deps). split; [|intros; apply first_old_spec].
      simpl. do 2 f_equal. symmetry. apply list_eq. intros i. unfold kept_old.
      rewrite list_lookup_imap. destruct (old_deps !! i) eqn:Hi; simpl.
      + rewrite lookup_replicate_2 by (by eapply lookup_lt_Some). by case_bool_decide.
      + symmetry. apply lookup_ge_None. rewrite length_replicate. by apply lookup_ge_None.
    - apply list.NoDup_app in Hq as (Hq & Hx & _).
      assert (x ∉ q) as Hxq by (intros Hin; apply (Hx x Hin); by left).
      destruct (IH (S r) Hq) as (m & Hf & Hm).
      rewrite imap_app, foldl_app, length_app. simpl.
      replace (length q + 1 + r) with (length q + S r) by lia. rewrite Hf, Nat.add_0_r. simpl.
      specialize (Hm x) as Hmx. rewrite bool_decide_false in Hmx by done. rewrite Hmx.
      rewrite kept_old_request_snoc, fmap_app, <-(assoc_L (++)) by done. simpl.
      assert (∀ c, c ∈ q ++ [x] ↔ c ∈ q ∨ c = x) as Hqx by (intros c; set_solver).
      destruct (idx x old_deps) as [i|] eqn:Hi; simpl.
      + eexists. split.
        { do 2 f_equal. rewrite <-(length_fmap (λ c, idx c old_deps) q).
          by rewrite insert_app_r_alt, Nat.sub_diag. }
        intros c. rewrite find_filter_ne, Hm. specialize (Hqx c).
        repeat case_bool_decide; naive_solver.
      + exists m. split; [done|]. intros c. rewrite Hm. specialize (Hqx c).
        repeat case_bool_decide; try naive_solver.
        assert (c = x) as -> by naive_solver. by rewrite Hi. }
  destruct (H new_deps 0 Hnd) as (m & Hf & _). rewrite Nat.add_0_r in Hf. rewrite Hf. simpl.
  unfold spec_match, kept_new. by rewrite app_nil_r.
Qed.

(** The two matching algorithms of a rewire (quadratic below the size
    switch, hashed above) compute the same thing: the dep at new index [j]
    keeps the state of the first old index with the same identity, and the two
    index maps are inverse to each other. *)
Theorem match_deps_spec old_deps new_deps :
  NoDup new_deps →
  match_quadratic old_deps new_deps = match_hashed old_deps new_deps
  ∧ match_deps old_deps new_deps = spec_match old_deps new_deps
  ∧ ∀ i j, (match_deps old_deps new_deps).1 !! i = Some (Some j)
           ↔ (match_deps old_deps new_deps).2 !! j = Some (Some i).
Proof.
  intros Hnd.
  assert (match_deps old_deps new_deps = spec_match old_deps new_deps) as Heq.
  { unfold match_deps. case_bool_decide; [by apply match_quadratic_spec|by apply match_hashed_spec]. }
  split_and!; [by rewrite match_quadratic_spec, match_hashed_spec|done|].
  intros i j. rewrite Heq. simpl. unfold kept_new. rewrite list_lookup_fmap, fmap_Some. split.
  - intros Hi. destruct (old_deps !! i) as [c|] eqn:Hc.
    + rewrite (kept_old_lookup _ _ _ _ Hc) in Hi. case_bool_decide as Hf; simplify_eq.
      exists c. split; [|done]. by apply idx_Some in Hi as [].
    + apply lookup_ge_None in Hc. rewrite lookup_ge_None_2 in Hi; [done|].
      by rewrite length_kept_old.
  - intros (c & Hj & Hi). symmetry in Hi. assert (old_deps !! i = Some c) as Hc by (by apply idx_Some in Hi as []).
    rewrite (kept_old_lookup _ _ _ _ Hc), bool_decide_true by done. by rewrite (idx_NoDup _ _ _ Hnd Hj).
Qed.

(** ** The cycle check *)

Section Reach.
Context {V B : Type}.
Implicit Types g : GraphCore (NodeSlot V) B.

(** A live node's dep edges. *)
Definition dep_edge g (a b : NodeKey) : Prop :=
  ∃ n, Arena.get g a = Some n ∧ b ∈ c_key <$> n_deps n.

(** The degrees still to be pushed once the keys [seen] have been expanded. *)
Definition slot_weight g (seen : list NodeKey) (id : nat) (o : option (NodeSlot V)) : nat :=
  match g_generations g !! id with
  | Some gen => if bool_decide (mkNodeKey id gen ∈ seen) then 0 else slot_degree o
  | None => slot_degree o
  end.
Definition weight g seen : nat := sum_list (imap (slot_weight g seen) (g_slots g)).

Lemma sum_list_imap_split {A} (f f' : nat → A → nat) (l : list A) i a k :
  l !! i = Some a → f i a = f' i a + k → (∀ j x, j ≠ i → f j x = f' j x) →
  sum_list (imap f l) = sum_list (imap f' l) + k.
Proof.
  revert f f' i. induction l as [|x l IH]; intros f f' i Hi Ha Hne; [done|].
  destruct i as [|i]; simpl in *; simplify_eq.
  - rewrite Ha. rewrite (imap_ext (f ∘ S) (f' ∘ S) l); [lia|]. intros. by apply Hne.
  - rewrite (Hne 0 x) by done. rewrite (IH (f ∘ S) (f' ∘ S) i Hi); [lia|done|].
    intros j y Hj. apply Hne. congruence.
Qed.

Lemma weight_nil g : weight g [] = edge_count g.
Proof.
  unfold weight, edge_count. f_equal. apply list_eq. intros i.
  rewrite list_lookup_imap, list_lookup_fmap. destruct (g_slots g !! i); simpl; [|done].
  f_equal. unfold slot_weight. by destruct (g_generations g !! i).
Qed.

Lemma weight_cons g seen k n :
  k ∉ seen → Arena.get g k = Some n →
  weight g seen = weight g (k :: seen) + length (n_deps n).
Proof.
  intros Hk Hn. apply get_Some in Hn as [Hg Hs]. unfold weight.
  eapply sum_list_imap_split; [exact Hs|..].
  - unfold slot_weight. rewrite Hg. destruct k as [id gen]; simpl in *.
    rewrite bool_decide_false, bool_decide_true by set_solver. done.
  - intros j x Hj. unfold slot_weight. destruct (g_generations g !! j); [|done].
    apply f_equal with (f := λ b : bool, if b then 0 else slot_degree x).
    apply bool_decide_ext. rewrite elem_of_cons. split; [by right|].
    intros [Heq|]; [|done]. destruct k; simplify_eq/=.
Qed.

Lemma weight_cons_le g seen k : weight g (k :: seen) ≤ weight g seen.
Proof.
  unfold weight. generalize (g_slots g) as l. intros l.
  assert (∀ i o, slot_weight g (k :: seen) i o ≤ slot_weight g seen i o) as H.
  { intros i o. unfold slot_weight. destruct (g_generations g !! i); [|done].
    repeat case_bool_decide; try lia. set_solver. }
  revert H. generalize (slot_weight g (k :: seen)) (slot_weight g seen).
  induction l as [|x l IH]; intros f f' H; simpl; [done|].
  specialize (H 0 x) as H0. specialize (IH (f ∘ S) (f' ∘ S)).
  etrans; [apply Nat.add_le_mono; [exact H0|apply IH; intros; apply H]|done].
Qed.

(** With enough fuel the search returns, and its answer is exact: [seen] is
    closed under edges up to the stack, and everything met is reachable. *)
Lemma dfs_upstream_spec g from target fuel seen stack :
  length stack + weight g seen < fuel →
  from ∈ seen ++ stack →
  (∀ k, k ∈ seen ++ stack → rtc (dep_edge g) from k) →
  (∀ k b, k ∈ seen → dep_edge g k b → b ∈ seen ++ stack) →
  (∀ k, k ∈ seen → k ≠ target) →
  Arena.is_live_key g target = true →
  ∃ b, dfs_upstream fuel g target seen stack = Some b
       ∧ (b = true ↔ rtc (dep_edge g) from target).
Proof.
  revert seen stack. induction fuel as [|fuel IH]; intros seen stack Hf Hfrom Hr Hc Ht Hl; [lia|].
  simpl. destruct stack as [|k stack].
  - exists false. split; [done|]. split; [done|]. intros Hreach. exfalso.
    rewrite app_nil_r in *. eapply (Ht target); [|done].
    assert (∀ x y, rtc (dep_edge g) x y → x ∈ seen → y ∈ seen) as Hclosed.
    { intros x y Hxy. induction Hxy as [|x y z Hxy _ IHr]; [done|]. intros Hx.
      apply IHr. by apply (Hc x y). }
    by eapply Hclosed.
  - case_bool_decide as Hk.
    + apply IH; [simpl in *; lia|..]; try done.
      * set_solver.
      * intros x Hx. apply Hr. set_solver.
      * intros x b Hx Hxb. specialize (Hc x b Hx Hxb). set_solver.
    + assert (rtc (dep_edge g) from k) as Hrk by (apply Hr; set_solver).
      destruct (Arena.get g k) as [n|] eqn:Hn.
      * case_bool_decide as Hkt.
        { exists true. subst. done. }
        apply IH; try done.
        -- rewrite (weight_cons _ _ _ _ Hk Hn) in Hf.
           rewrite length_app, length_reverse, length_fmap. simpl in *. lia.
        -- set_solver.
        -- intros x Hx. destruct (decide (x ∈ seen ++ k :: stack)) as [?|Hnx]; [by apply Hr|].
           eapply rtc_r; [exact Hrk|]. exists n. split; [done|].
           apply elem_of_reverse. set_solver.
        -- intros x b [->|Hx]%elem_of_cons Hxb.
           ++ destruct Hxb as (n' & Hn' & Hb). rewrite Hn in Hn'. simplify_eq.
              apply elem_of_reverse in Hb. set_solver.
           ++ specialize (Hc x b Hx Hxb). set_solver.
        -- intros x [->|Hx]%elem_of_cons; [done|by apply Ht].
      * apply IH; try done.
        -- pose proof (weight_cons_le g seen k). simpl in *. lia.
        -- set_solver.
        -- intros x Hx. apply Hr. set_solver.
        -- intros x b [->|Hx]%elem_of_cons Hxb.
           ++ destruct Hxb as (n' & Hn' & _). by rewrite Hn in Hn'.
           ++ specialize (Hc x b Hx Hxb). set_solver.
        -- intros x [->|Hx]%elem_of_cons; [|by apply Ht]. intros ->.
           apply get_is_live in Hl as [? Hl]. by rewrite Hn in Hl.
Qed.

Lemma reachable_upstream_exact g from target :
  ∃ b, reachable_upstream g from target = Some b
       ∧ (b = true ↔ Arena.is_live_key g target = true ∧ rtc (dep_edge g) from target).
Proof.
  unfold reachable_upstream. destruct (Arena.is_live_key g target) eqn:Hl; simpl.
  - edestruct (dfs_upstream_spec g from target (edge_count g + 2) [] [from]) as (b & Hb & Hiff);
      [..|exists b; split; [exact Hb|naive_solver]]; try done.
    + rewrite weight_nil. simpl. lia.
    + set_solver.
    + intros k ->%list_elem_of_singleton. done.
    + set_solver.
    + set_solver.
  - exists false. naive_solver.
Qed.

(** The cycle check of a rewire always answers (its fuel is the number of
    dep edges plus two) and answers exactly whether the target is a live node
    reachable from the candidate dep along the deps of live nodes. *)
Theorem reachable_upstream_spec g from target :
  reachable_upstream g from target ≠ None
  ∧ (reachable_upstream g from target = Some true
     ↔ Arena.is_live_key g target = true ∧ rtc (dep_edge g) from target).
Proof.
  destruct (reachable_upstream_exact g from target) as (b & -> & Hb).
  split; [done|]. rewrite <-Hb. naive_solver.
Qed.

(** ** Acyclicity *)

Definition acyclic g : Prop := ∀ k, ¬ tc (dep_edge g) k k.

(** A graph whose edges go down in slot index is acyclic. *)
Lemma acyclic_index g :
  (∀ a b, dep_edge g a b → key_id b < key_id a) → acyclic g.
Proof.
  intros He k Hk. assert (∀ a b, tc (dep_edge g) a b → key_id b < key_id a) as H.
  { intros a b Hab. induction Hab as [a b Hab|a b d Hab _ IH]; [by apply He|].
    etrans; [exact IH|by apply He]. }
  specialize (H k k Hk). lia.
Qed.

(** Replacing the deps of [c] by nodes that do not reach [c] keeps the graph
    acyclic. *)
Lemma acyclic_set_deps g c f :
  acyclic g →
  (∀ n b, Arena.get g c = Some n → b ∈ c_key <$> n_deps (f n) → ¬ rtc (dep_edge g) b c) →
  acyclic (Arena.upd g c f).
Proof.
  intros Ha Hd k Hk. set (g' := Arena.upd g c f) in *.
  assert (∀ a b, dep_edge g' a b → dep_edge g a b ∨ a = c ∧ ¬ rtc (dep_edge g) b c) as Hedge.
  { intros a b (n & Hn & Hb). unfold g' in Hn. rewrite get_upd in Hn. case_decide as Hac.
    - subst a. right. split; [done|]. destruct (Arena.get g c) as [n0|] eqn:Hg; simplify_eq/=.
      by eapply Hd.
    - left. by exists n. }
  (* a path of the new graph either is a path of the old one or passes [c] *)
  assert (∀ a b, rtc (dep_edge g') a b → rtc (dep_edge g) a b ∨ rtc (dep_edge g) a c) as Hpath.
  { intros a b Hab. induction Hab as [a|a b d Hab _ IH]; [by left|].
    destruct (Hedge _ _ Hab) as [He|[-> _]]; [|by right].
    destruct IH as [IH|IH]; [left|right]; by eapply rtc_l. }
  (* from [c] on, a path of the new graph never comes back to [c] *)
  assert (¬ tc (dep_edge g') c c) as Hc.
  { intros Hcc. assert (∃ b, dep_edge g' c b ∧ rtc (dep_edge g') b c) as (b & Hcb & Hbc).
    { inversion Hcc; subst; [by exists c|eexists; by split; [|apply tc_rtc]]. }
    assert (rtc (dep_edge g) b c) as Hbc' by (by destruct (Hpath _ _ Hbc)).
    destruct (Hedge _ _ Hcb) as [He|[_ Hn]]; [|done].
    apply (Ha c). eapply tc_rtc_r; [by apply tc_once|done]. }
  (* and a cycle elsewhere is either a cycle of the old graph or passes [c] *)
  assert (∀ a b, tc (dep_edge g') a b →
    tc (dep_edge g) a b ∨ rtc (dep_edge g') a c ∧ tc (dep_edge g') c b) as Hcut.
  { intros a b Hab. induction Hab as [a b Hab|a b d Hab Hbd IH].
    - destruct (Hedge _ _ Hab) as [He|[-> _]]; [left|right]; [by apply tc_once|].
      split; [done|by apply tc_once].
    - destruct (Hedge _ _ Hab) as [He|[-> _]]; [|right; split; [done|by eapply tc_l]].
      destruct IH as [IH|[IH1 IH2]]; [left; by eapply tc_l|right; split; [by eapply rtc_l|done]]. }
  destruct (Hcut _ _ Hk) as [Hold|[Hkc Hck]]; [by apply (Ha k)|].
  apply Hc. by eapply tc_rtc_r.
Qed.
End Reach.

(** ** Rebuilding the per-dep vectors *)

Lemma count_true_cons b l : count_true (b :: l) = (if b then 1 else 0) + count_true l.
Proof. by destruct b. Qed.

(** The indices of the [true] cells. *)
Definition true_indices (l : list bool) : list nat :=
  List.filter (λ i, default false (l !! i)) (seq 0 (length l)).

Lemma elem_of_true_indices l i : i ∈ true_indices l ↔ l !! i = Some true.
Proof.
  unfold true_indices. rewrite list_elem_of_In, List.filter_In, <-list_elem_of_In, elem_of_seq. split.
  - intros [_ H]. by destruct (l !! i) as [[]|].
  - intros H. rewrite H. pose proof (lookup_lt_Some _ _ _ H). split; [lia|done].
Qed.

Lemma NoDup_true_indices l : NoDup (true_indices l).
Proof. unfold true_indices. apply NoDup_ListNoDup, List.NoDup_filter, List.seq_NoDup. Qed.

Lemma length_true_indices l : length (true_indices l) = count_true l.
Proof.
  induction l as [|b l IH] using rev_ind; [done|].
  unfold true_indices in *. rewrite length_app, Nat.add_1_r, seq_S, List.filter_app, length_app.
  rewrite count_true_app, <-IH. f_equal.
  - f_equal. apply List.filter_ext_in. intros i Hi%in_seq. by rewrite lookup_app_l by lia.
  - simpl. rewrite lookup_app_r, Nat.sub_diag by lia. by destruct b.
Qed.

Lemma count_true_inj (f : nat → nat) l1 l2 :
  (∀ j, l1 !! j = Some true → l2 !! f j = Some true) →
  (∀ j j', l1 !! j = Some true → l1 !! j' = Some true → f j = f j' → j = j') →
  count_true l1 ≤ count_true l2.
Proof.
  intros Hf Hinj. rewrite <-!length_true_indices, <-(length_fmap f (true_indices l1)).
  apply submseteq_length, NoDup_submseteq.
  - apply NoDup_fmap_2_strong, NoDup_true_indices. intros j j'.
    rewrite !elem_of_true_indices. eauto.
  - intros i (j & -> & Hj)%list_elem_of_fmap. apply elem_of_true_indices.
    by apply Hf, elem_of_true_indices.
Qed.

Section RebuildFacts.
Context {V : Type}.
Implicit Types n : NodeSlot V.

(** The dirty marks of the deps that are not kept. *)
Definition removed_dirty_marks (old_to_new : list (option nat)) (dirty : list bool) : list bool :=
  zip_with (λ o d, negb (is_some o) && d) old_to_new dirty.

Lemma count_split (o2n : list (option nat)) dirty :
  length o2n = length dirty →
  count_true dirty = count_true (zip_with (λ o d, is_some o && d) o2n dirty)
                     + count_true (removed_dirty_marks o2n dirty).
Proof.
  revert dirty. unfold removed_dirty_marks. induction o2n as [|o o2n IH]; intros [|d dirty] H; try done.
  simpl. rewrite !count_true_cons, (IH dirty) by (simpl in H; lia). destruct o, d; simpl; lia.
Qed.

Lemma kept_new_lookup old new j i :
  kept_new old new !! j = Some (Some i) ↔ ∃ c, new !! j = Some c ∧ idx c old = Some i.
Proof.
  unfold kept_new. rewrite list_lookup_fmap, fmap_Some. naive_solver.
Qed.

Lemma kept_old_Some old new j i :
  NoDup new → kept_new old new !! j = Some (Some i) → kept_old old new !! i = Some (Some j).
Proof.
  intros Hnd (c & Hj & Hi)%kept_new_lookup. pose proof Hi as Hi'. apply idx_Some in Hi' as [Hc _].
  by rewrite (kept_old_lookup _ _ _ _ Hc), bool_decide_true, (idx_NoDup _ _ _ Hnd Hj).
Qed.

Lemma kept_old_inv old new j i :
  kept_old old new !! i = Some (Some j) → kept_new old new !! j = Some (Some i).
Proof.
  intros Hi. destruct (old !! i) as [c|] eqn:Hc.
  - rewrite (kept_old_lookup _ _ _ _ Hc) in Hi. case_bool_decide; simplify_eq.
    apply kept_new_lookup. exists c. split; [|done]. by apply idx_Some in Hi as [].
  - apply lookup_ge_None in Hc. rewrite lookup_ge_None_2 in Hi; [done|].
    by rewrite length_kept_old.
Qed.

Lemma count_kept old new dirty :
  NoDup new → length dirty = length old →
  count_true (pick false dirty <$> kept_new old new)
  = count_true (zip_with (λ o d, is_some o && d) (kept_old old new) dirty).
Proof.
  intros Hnd Hlen.
  assert (∀ j, (pick false dirty <$> kept_new old new) !! j = Some true ↔
    ∃ i, kept_new old new !! j = Some (Some i) ∧ dirty !! i = Some true) as H1.
  { intros j. rewrite list_lookup_fmap, fmap_Some. split.
    - intros ([i|] & Hj & Hp); [|done]. exists i. split; [done|]. simpl in Hp.
      by destruct (dirty !! i) as [[]|].
    - intros (i & Hj & Hi). exists (Some i). split; [done|]. simpl. by rewrite Hi. }
  assert (∀ i, zip_with (λ o d, is_some o && d) (kept_old old new) dirty !! i = Some true ↔
    ∃ j, kept_old old new !! i = Some (Some j) ∧ dirty !! i = Some true) as H2.
  { intros i. rewrite lookup_zip_with. split.
    - destruct (kept_old old new !! i) as [[j|]|]; simpl; [|by destruct (dirty !! i)|done].
      destruct (dirty !! i) as [[]|]; simpl; [|done..]. eauto.
    - intros (j & -> & ->). done. }
  apply Nat.le_antisymm.
  - apply (count_true_inj (λ j, default 0 (mjoin (kept_new old new !! j)))).
    + intros j (i & Hj & Hi)%H1. apply H2. rewrite Hj. simpl. exists j.
      split; [by apply kept_old_Some|done].
    + intros j j' (i & Hj & _)%H1 (i' & Hj' & _)%H1. rewrite Hj, Hj'. simpl. intros ->.
      apply (kept_old_Some _ _ _ _ Hnd) in Hj, Hj'. congruence.
  - apply (count_true_inj (λ i, default 0 (mjoin (kept_old old new !! i)))).
    + intros i (j & Hi & Hd)%H2. apply H1. rewrite Hi. simpl. exists i.
      split; [by apply kept_old_inv|done].
    + intros i i' (j & Hi & _)%H2 (j' & Hi' & _)%H2. rewrite Hi, Hi'. simpl. intros ->.
      apply kept_old_inv in Hi, Hi'. congruence.
Qed.

(** A rewire that drops the dirty contribution of each removed dep and
    rebuilds the vectors in the new order leaves a consistent slot over the new
    deps, and every kept dep carries its whole state (data, wave projections,
    dirty mark, terminal mark, shared index box) to its new index. *)
Theorem rebuild_keeps_kept n new_deps placeholders :
  node_inv n → NoDup new_deps → length placeholders = length new_deps →
  let m := match_deps (n_deps n) new_deps in
  let dropped := count_true (removed_dirty_marks m.1 (ds_dirty (n_state n))) in
  let n' := rebuild_slot new_deps m.2 placeholders
              (on_state (set_ds_pending (λ p, p - Z.of_nat dropped)%Z) n) in
  node_inv n' ∧ n_deps n' = new_deps
  ∧ length (e_idx_boxes (n_edges n')) = length new_deps
  ∧ ∀ i j d, n_deps n !! i = Some d → idx d (n_deps n) = Some i → new_deps !! j = Some d →
      dep_record (n_state n') j = dep_record (n_state n) i
      ∧ ds_dirty (n_state n') !! j = ds_dirty (n_state n) !! i
      ∧ ds_has_data (n_state n') !! j = ds_has_data (n_state n) !! i
      ∧ ds_terminal (n_state n') !! j = ds_terminal (n_state n) !! i
      ∧ (∀ b, e_idx_boxes (n_edges n) !! i = Some b → e_idx_boxes (n_edges n') !! j = Some b).
Proof.
  intros [[Hw Hh] Hp] Hnd Hpl m dropped n'.
  assert (m = spec_match (n_deps n) new_deps) as Hm.
  { unfold m, match_deps.
    case_bool_decide; [by apply match_quadratic_spec|by apply match_hashed_spec]. }
  assert (length m.2 = length new_deps) as Hlen by (rewrite Hm; apply length_fmap).
  assert (vectors_wf (length new_deps) (n_state n')) as Hw'.
  { split; unfold n', rebuild_slot, n_state; simpl; rewrite length_fmap; exact Hlen. }
  assert (length (e_idx_boxes (n_edges n')) = length new_deps) as Hb.
  { unfold n', rebuild_slot, rebuild_boxes. simpl. rewrite length_zip_with. lia. }
  split_and!; [|done|done|].
  - split; [split; [exact Hw'|]|].
    + unfold n', rebuild_slot. simpl. apply length_replicate.
    + unfold pending_ok, n', rebuild_slot, dropped, n_state. simpl.
      change (e_state (n_edges n)) with (n_state n). destruct Hw.
      unfold pending_ok in Hp. rewrite Hp, Hm. simpl. rewrite count_kept by done.
      rewrite (count_split (kept_old (n_deps n) new_deps)); [lia|].
      by rewrite length_kept_old.
  - intros i j d Hi Hfirst Hj. destruct Hw.
    assert (m.2 !! j = Some (Some i)) as Hji by (rewrite Hm; apply kept_new_lookup; eauto).
    pose proof (lookup_lt_Some _ _ _ Hi) as Hlt.
    unfold dep_record, n', rebuild_slot, rebuild_state, n_state. simpl.
    change (e_state (n_edges n)) with (n_state n).
    rewrite !list_lookup_fmap, Hji. simpl.
    assert (∀ {A} (x : A) l, length l = length (n_deps n) → Some (default x (l !! i)) = l !! i) as Hd.
    { intros A x l Hl. destruct (lookup_lt_is_Some_2 l i) as [y ->]; [lia|done]. }
    split_and!; [done|by apply Hd..|].
    intros b Hbi. unfold rebuild_boxes. rewrite lookup_zip_with, Hji. simpl.
    destruct (lookup_lt_is_Some_2 placeholders j) as [y ->]; [rewrite Hpl; by eapply lookup_lt_Some|].
    simpl. by rewrite Hbi.
Qed.
End RebuildFacts.

(** ** Witnesses *)

Lemma match_deps_spec_witness :
  let old_deps := [ex_core 0; ex_core 1; ex_core 0] in
  let new_deps := [ex_core 2; ex_core 0] in
  match_quadratic old_deps new_deps = match_hashed old_deps new_deps
  ∧ match_deps old_deps new_deps = ([Some 1; None; None], [None; Some 0]).
Proof.
  intros old_deps new_deps. destruct (match_deps_spec old_deps new_deps) as (H1 & H2 & _).
  - by apply (bool_decide_unpack _), I.
  - split; [exact H1|]. rewrite H2. reflexivity.
Defined.

(** The second dep went dirty, then moved to the front of the new dep list. *)
Definition ex_slot_dirty : NodeSlot Z := Eval vm_compute in (receive_dirty 1 ex_slot).1.

Lemma rebuild_keeps_kept_witness :
  let n' := rebuild_slot [ex_core 1; ex_core 2] [Some 1; None] [5; 6]
              (on_state (set_ds_pending (λ p, p - 0)%Z) ex_slot_dirty) in
  node_inv n' ∧ ds_dirty (n_state n') !! 0 = Some true.
Proof.
  destruct (rebuild_keeps_kept ex_slot_dirty [ex_core 1; ex_core 2] [5; 6]) as (H1 & _ & _ & H2).
  - repeat split.
  - by apply (bool_decide_unpack _), I.
  - reflexivity.
  - split; [exact H1|]. destruct (H2 1 0 (ex_core 1)) as (_ & H3 & _); [reflexivity..|].
    exact H3.
Defined.
