(* ===== verification/Engine.v ===== *)
(** * The wave engine (node.rs, batch.rs, ctx.rs)

    Every re-entrant operation of [Core], the wave-owner catch boundary, the
    committed-boundary drain and the batch frame, as state-passing functions
    over [World].  A call that can re-enter the engine goes through [rec], which
    [exec] ties at the end of the file; [rec] is indexed by the called operation
    ([Task]) and [exec] bounds the depth of such calls by its fuel. *)

From stdpp Require Import base option strings numbers gmap list.
From S2P Require Import Prelude Protocol Dispatcher Versioning Arena NodeState Receive Rewire.

Local Open Scope Z_scope.
Local Open Scope rx_scope.

(** The fired demands of one [up] call. *)
Definition UpRouteState : Type := list (LockId * Core).

(** The operations that are called re-entrantly. *)
Inductive Task (V : Type) :=
| TDown (c : Core) (msgs : Wave V)
| TUpMsg (c : Core) (m : Msg V) (toward_dep : option nat) (route : UpRouteState)
| TActivate (c : Core)
| TDeactivate (c : Core)
| TReceive (c : Core) (idx : nat) (m : Msg V)
| TRunWave (c : Core)
| TProg (self : option Core) (p : Prog V)
| TDrainRuns
| TDrainGraph (g : nat)
| TDrainLoop (g : nat) (escaped : option Payload) (blocked : nat).
Arguments TDown {V} c msgs.
Arguments TUpMsg {V} c m toward_dep route.
Arguments TActivate {V} c.
Arguments TDeactivate {V} c.
Arguments TReceive {V} c idx m.
Arguments TRunWave {V} c.
Arguments TProg {V} self p.
Arguments TDrainRuns {V}.
Arguments TDrainGraph {V} g.
Arguments TDrainLoop {V} g escaped blocked.

Definition res {V} (t : Task V) : Type :=
  match t with
  | TUpMsg _ _ _ _ => UpRouteState
  | TDrainLoop _ _ _ => option Payload
  | _ => unit
  end.

Section Engine.
Context {V : Type} `{!CanonicalData V} (uc : UserCode V).
Abbreviation MW := (M (World V)).

(** ** Short borrows *)

Definition stale_msg : string := "Core points at a stale or freed GraphCore slot".
Definition index_msg : string := "index out of bounds".

Definition node (c : Core) : MW (NodeSlot V) :=
  let! o := gets (λ w, get_node w c) in expect o stale_msg.

(** [with_*_mut(f)]: one mutation of a live slot, with a result. *)
Definition with_slot {A} (c : Core) (f : NodeSlot V → NodeSlot V * A) : MW A :=
  let! n := node c in
  modify (upd_node c (λ _, (f n).1)) ;;;
  ret (f n).2.

Definition upd (c : Core) (f : NodeSlot V → NodeSlot V) : MW unit :=
  node c ;;; modify (upd_node c f).

Definition is_live (c : Core) : MW bool := gets (λ w, is_some (get_node w c)).

Definition log (e : Event V) : MW unit := modify (set_w_log (λ l, l ++ [e])).

Definition alloc_box (v : Z) : MW nat :=
  let! b := gets (λ w, length (w_boxes w)) in
  modify (set_w_boxes (λ l, l ++ [v])) ;;; ret b.

Fixpoint alloc_boxes (n : nat) : MW (list nat) :=
  match n with
  | O => ret []
  | S n' =>
      let! b := alloc_box (-1) in
      let! bs := alloc_boxes n' in ret (b :: bs)
  end.

Definition set_box (b : nat) (v : Z) : MW unit := modify (set_w_boxes <[b := v]>).

Definition new_token (v : bool) : MW nat :=
  let! t := gets (λ w, length (w_tokens w)) in
  modify (set_w_tokens (λ l, l ++ [v])) ;;; ret t.

Definition token_set (t : nat) : MW bool := gets (λ w, default false (w_tokens w !! t)).

Definition upd_graph (g : nat) (f : Graph V → Graph V) : MW unit :=
  modify (set_w_graphs (alter f g)).

Definition set_queue (f : list (BoundaryTask V) → list (BoundaryTask V)) (g : Graph V) : Graph V :=
  mkGraphCore (g_slots g) (g_generations g) (g_touched_waves g) (g_pins g) (g_free g)
    (f (g_deferred_boundary g)) (g_draining_boundary g).
Definition set_draining (b : bool) (g : Graph V) : Graph V :=
  mkGraphCore (g_slots g) (g_generations g) (g_touched_waves g) (g_pins g) (g_free g)
    (g_deferred_boundary g) b.
Definition queue_of (g : nat) (w : World V) : list (BoundaryTask V) :=
  match w_graphs w !! g with Some gr => g_deferred_boundary gr | None => [] end.
Definition draining_of (g : nat) (w : World V) : bool :=
  match w_graphs w !! g with Some gr => g_draining_boundary gr | None => false end.

(** ** The wave scope *)

Definition wave_in_flight (w : World V) : bool := is_some (w_wave w).
Definition delivery_in_flight (w : World V) : bool := bool_decide (0 < w_delivery_depth w)%nat.

(** [WaveScope::pin_once]: enroll a live node once per wave.  The arena's
    [touched_waves] stamp decides "once". *)
Definition pin_once (c : Core) (w : World V) : World V :=
  match w_wave w, w_graphs w !! c_graph c with
  | Some scope, Some g =>
      if negb (Arena.is_live_key g (c_key c)) then w
      else if bool_decide (g_touched_waves g !! key_id (c_key c) = Some (wave_id scope)) then w
      else
        set_w_wave (λ _, Some (set_touched (λ l, l ++ [c]) scope))
          (set_w_graphs (alter (λ g, mkGraphCore (g_slots g) (g_generations g)
              (<[key_id (c_key c) := wave_id scope]> (g_touched_waves g)) (g_pins g) (g_free g)
              (g_deferred_boundary g) (g_draining_boundary g)) (c_graph c)) w)
  | _, _ => w
  end.

Definition wave_register (c : Core) : MW unit := modify (pin_once c).

Definition wave_set_blamed (c : Core) : MW unit :=
  modify (set_w_wave (fmap (set_blamed (λ _, Some c)))).

Definition wave_register_boundary_root (c : Core) : MW unit :=
  modify (set_w_wave (fmap (λ scope,
    if bool_decide (owner_graph_id scope = c_graph c)
       || bool_decide (c_graph c ∈ ws_boundary_roots scope)
    then scope else set_ws_boundary_roots (λ l, l ++ [c_graph c]) scope))).

(** ** batch.rs: the frame *)

Definition boundary_drains_blocked (w : World V) : bool := is_some (w_active_batch w).
Definition collecting_batch (w : World V) : bool :=
  match w_active_batch w with Some b => b_collecting b | None => false end.
Definition active_batch_committed_token (w : World V) : option nat := b_committed <$> w_active_batch w.

Definition register_boundary_root (c : Core) : MW unit :=
  modify (set_w_active_batch (fmap (λ b,
    if bool_decide (c_graph c ∈ b_boundary_roots b) then b
    else set_b_boundary_roots (λ l, l ++ [c_graph c]) b))).

(** [defer_to_batch]: the result says whether the slice was captured. *)
Definition defer_to_batch (c : Core) (wave : Wave V) : MW bool :=
  let! w := gets id in
  match w_active_batch w with
  | None => ret false
  | Some b =>
      if negb (b_collecting b) then ret false
      else
        match position (ptr_eq c) (b_targets b) with
        | Some index =>
            modify (set_w_active_batch (fmap (set_b_deferred <[index := Some wave]>))) ;;; ret true
        | None =>
            if negb (is_some (get_node w c)) then ret false
            else
              modify (set_w_active_batch (fmap (λ b,
                set_b_targets (λ l, l ++ [c])
                  (set_b_deferred (λ l, l ++ [Some wave])
                    (set_b_order (λ l, l ++ [length (b_targets b)]) b))))) ;;;
              ret true
        end
  end.

(** [committed_after_batch_for_target]. *)
Definition committed_after_batch_for_target (c : Core) (w : World V) : option nat :=
  match w_active_batch w with
  | Some b =>
      if b_collecting b
         && existsb (λ '(t, d), ptr_eq t c && is_some d) (zip (b_targets b) (b_deferred b))
      then Some (b_committed b) else None
  | None => None
  end.

(** ** Boundary queues *)

Definition defer_boundary (owner : Core) (t : BoundaryTask V) : MW unit :=
  wave_register_boundary_root owner ;;;
  register_boundary_root owner ;;;
  upd_graph (c_graph owner) (set_queue (λ q, q ++ [t])).

(** [clear_deferred_boundary_root]: keep the committed tasks. *)
Definition clear_deferred_boundary_root (g : nat) : MW unit :=
  let! toks := gets w_tokens in
  upd_graph g (set_queue (List.filter (λ t, default false (toks !! task_committed t)))).

Definition clear_all_deferred_boundary_root (g : nat) : MW unit :=
  upd_graph g (set_queue (λ _, [])).

Definition clear_all_deferred_boundaries (core_roots task_roots : list nat) : MW unit :=
  for_each core_roots clear_all_deferred_boundary_root ;;;
  for_each task_roots clear_all_deferred_boundary_root.

(** Keep the first escaped panic. *)
Definition remember_first (escaped : option Payload) (p : Payload) : option Payload :=
  match escaped with Some e => Some e | None => Some p end.

Definition clear_deferred_delivery_actions : MW unit := modify (set_w_deferred_actions (λ _, [])).

Definition panic_to_error (p : Payload) : GraphError :=
  match p with PanicStr s => s | _ => "node fn panicked"%string end.

Definition reset_touched (c : Core) : MW unit := modify (upd_node c reset_wave_flags).

Section Ops.
Variable rec : ∀ t : Task V, MW (res t).

(** ** Delivery to subscribers *)

Definition deliver_sink (s : Sink) (m : Msg V) : MW unit :=
  match s with
  | DepSink child b =>
      let! i := gets (λ w, default (-1) (w_boxes w !! b)) in
      if bool_decide (i < 0) then ret tt else rec (TReceive child (Z.to_nat i) m)
  | ExtSink sk => log (EvSink sk m) ;;; rec (TProg None (sink_code uc sk m))
  end.

Definition deliver_subscriber_snapshot (subs : list Sink) (m : Msg V) : MW unit :=
  for_each subs (λ s, deliver_sink s m).

Definition emit_to_subs (c : Core) (m : Msg V) : MW unit :=
  let! n := node c in
  log (EvEmit c m) ;;;
  deliver_subscriber_snapshot (snapshot_subscribers n) m.

Definition run_hook (h : HookId) : MW unit :=
  log (EvHook h) ;;; rec (TProg None (hook_code uc h)).

(** ** The committed boundary *)

Definition drain_roots (core_roots task_roots : list nat) : MW unit :=
  let! escaped := fold_each (core_roots ++ task_roots) (λ escaped g,
    let! r := catch_unwind (rec (TDrainGraph g)) in
    match r with
    | inl _ => ret escaped
    | inr p =>
        if is_host_boundary_abort_payload p then
          clear_all_deferred_boundaries core_roots task_roots ;;; panic p
        else ret (remember_first escaped p)
    end) None in
  match escaped with Some p => panic p | None => ret tt end.

Definition drain_committed_boundaries := drain_roots.

(** ** The wave owner *)

Definition install_scope (owner : Core) (w : World V) : World V :=
  set_w_wave (λ _, Some (mkWaveScope (c_graph owner) (w_next_wave_scope_id w) [] [] None))
    (set_w_next_wave_scope_id (λ i, i + 1) w).

(** The recovery after a caught panic: reset the touched nodes, drop the
    wave-local delivery queue, and either rethrow a host abort or surface the
    failure as ERROR on the blamed node. *)
Definition recover_wave {A} (owner : Core) (scope : WaveScope) (p : Payload)
    (on_error : MW A) : MW A :=
  for_each (touched scope) reset_touched ;;;
  clear_deferred_delivery_actions ;;;
  if is_host_boundary_abort_payload p then
    clear_all_deferred_boundary_root (c_graph owner) ;;;
    for_each (ws_boundary_roots scope) clear_all_deferred_boundary_root ;;;
    panic p
  else
    let blamed := match blamed scope with
                  | Some b => if contains_core b (touched scope) then b else owner
                  | None => owner
                  end in
    catch_unwind (rec (TDown blamed [Error (panic_to_error p)])) ;;;
    clear_deferred_delivery_actions ;;;
    on_error.

Definition with_wave_owner {A} (owner : Core) (body on_error : MW A) : MW A :=
  let! in_flight := gets wave_in_flight in
  if in_flight then body
  else
    modify (install_scope owner) ;;;
    let! result := catch_unwind body in
    let! scope_opt := gets w_wave in
    modify (set_w_wave (λ _, None)) ;;;
    let! scope := expect scope_opt "wave owner installed a scope" in
    let! a := match result with
              | inl a => ret a
              | inr p => recover_wave owner scope p on_error
              end in
    let! blocked := gets boundary_drains_blocked in
    when (negb blocked) (drain_committed_boundaries [c_graph owner] (ws_boundary_roots scope)) ;;;
    ret a.

Definition owned_down (c : Core) (msgs : Wave V) : MW unit :=
  with_wave_owner c (rec (TDown c msgs)) (ret tt).

(** ** Deferred delivery actions *)

Definition defer_delivery_action_until_boundary (c : Core) (k : DeferredDeliveryKind) : MW unit :=
  modify (set_w_deferred_actions (λ l,
    if existsb (λ '(k', c'), bool_decide (k' = k) && ptr_eq c' c) l then l else l ++ [(k, c)])).

(** ** Deciding and running *)

Definition passthrough_emit (c : Core) : MW unit :=
  let! n := node c in
  assert_or (negb (is_nil (ds_batch (n_state n)))) index_msg ;;;
  let! v := with_slot c passthrough_take in
  match v with Some v => rec (TDown c [Data v]) | None => ret tt end.

Definition maybe_run (c : Core) : MW unit :=
  let! defer := gets delivery_in_flight in
  if defer then defer_delivery_action_until_boundary c KRun
  else
    let! dec := with_slot c decide_maybe_run in
    match dec with
    | Skip => ret tt
    | Passthrough => passthrough_emit c
    | Run => rec (TRunWave c)
    end.

Definition try_run (c : Core) : MW unit :=
  let! n := node c in
  if bool_decide (0 < ds_pending (n_state n)) then ret tt
  else if negb (is_some (handle (n_call n))) then passthrough_emit c
  else if negb (has_called_fn_once (n_run n)) then
    when (partial (n_config n) || all_deps_settled n) (rec (TRunWave c))
  else rec (TRunWave c).

Definition settle_after_absorbed_terminal (c : Core) : MW unit :=
  let! defer := gets delivery_in_flight in
  if defer then defer_delivery_action_until_boundary c KAbsorbedSettle
  else
    let! n := node c in
    if negb (bool_decide (ds_pending (n_state n) = 0) && emitted_dirty_this_wave (n_wave n))
    then ret tt
    else
      let saw_data := existsb (λ b, match b with Some (_ :: _) => true | _ => false end)
                        (ds_batch (n_state n)) in
      when saw_data (maybe_run c) ;;;
      let! n' := node c in
      when (emitted_dirty_this_wave (n_wave n')) (rec (TDown c [Resolved])).

Definition apply_deferred (a : DeferredDeliveryKind * Core) : MW unit :=
  let '(k, c) := a in
  let! o := gets (λ w, get_node w c) in
  match o with
  | None => ret tt
  | Some n =>
      if v_terminal (n_value n) then ret tt
      else match k with
           | KRun => maybe_run c
           | KAbsorbedSettle => settle_after_absorbed_terminal c
           end
  end.

Definition drain_deferred_runs : MW unit :=
  let! actions := gets w_deferred_actions in
  if is_nil actions then ret tt
  else
    modify (set_w_deferred_actions (λ _, [])) ;;;
    for_each [KRun; KAbsorbedSettle] (λ k,
      for_each actions (λ a, when (bool_decide (a.1 = k)) (apply_deferred a))) ;;;
    rec TDrainRuns.

(** [DeliveryGuard::enter], [finish] and its [Drop]. *)
Definition enter_delivery (w : World V) : World V :=
  let i := w_next_delivery_id w in
  set_w_delivery_depth S (set_w_current_delivery_id (λ _, i)
    (set_w_next_delivery_id (λ _, Z.max ((i + 1) `mod` 2^64) 1) w)).

Definition leave_delivery (prev_id : Z) (w : World V) : World V :=
  set_w_delivery_depth pred (set_w_current_delivery_id (λ _, prev_id) w).

Definition with_delivery_scope (body : MW unit) : MW unit :=
  let! prev_id := gets w_current_delivery_id in
  modify enter_delivery ;;;
  let! r := catch_unwind body in
  modify (leave_delivery prev_id) ;;;
  match r with
  | inl _ =>
      let! nested := gets delivery_in_flight in
      when (negb nested) (rec TDrainRuns)
  | inr p => panic p
  end.

(** ** Downstream emission *)

Definition emit_dirty_once (c : Core) : MW unit :=
  let! subs := with_slot c (λ n,
    if emitted_dirty_this_wave (n_wave n) then (n, None)
    else (on_value (set_v_status (λ _, Status.Dirty))
            (on_wave (set_emitted_dirty_this_wave (λ _, true)) n),
          Some (snapshot_subscribers n))) in
  match subs with
  | Some subs => log (EvEmit c Dirty) ;;; deliver_subscriber_snapshot subs Dirty
  | None => ret tt
  end.

(** [mark_dirty] differs from [emit_dirty_once] in always setting the status. *)
Definition mark_dirty (c : Core) : MW unit :=
  upd c (on_value (set_v_status (λ _, Status.Dirty))) ;;; emit_dirty_once c.

Definition invalidate (c : Core) : MW unit :=
  let! hooks := with_slot c (λ n,
    if negb (v_has_data (n_value n)) then (n, None)
    else (on_value clear_cache n, Some (on_invalidate (n_aux n)))) in
  match hooks with
  | None => ret tt
  | Some hooks => for_each hooks run_hook ;;; emit_to_subs c Invalidate
  end.

Definition is_async_node (c : Core) : MW bool :=
  let! n := node c in
  let! d := gets w_disp in
  match handle (n_call n) with
  | None => ret false
  | Some h =>
      let! k := expect (Dispatcher.pool_kind d (pool_id h)) index_msg in
      ret (bool_decide (k = Async))
  end.

Definition next_version_for (n : NodeSlot V) (m : Msg V) : MW (option NodeVersion) :=
  match m with
  | Data v =>
      match advance_node_version (vs_value (n_version n)) (vs_policy (n_version n)) v with
      | inl e => panic (PanicStr e)
      | inr nv => ret nv
      end
  | _ => ret None
  end.

(** The slot update of one message, and the ghost record of its emission. *)
Definition commit_down (c : Core) (m : Msg V) (nv : option NodeVersion)
    : MW (option (DownAction V)) :=
  let! a := with_slot c (collect_down m nv) in
  match a with
  | Some (DownEmit m' _) => log (EvEmit c m')
  | _ => ret tt
  end ;;;
  ret a.

Definition collect_down_action (c : Core) (m : Msg V) : MW (option (DownAction V)) :=
  let! n := node c in
  let! nv := next_version_for n m in
  commit_down c m nv.

Definition apply_down_action (c : Core) (a : DownAction V) : MW unit :=
  match a with
  | DownEmit m subs => deliver_subscriber_snapshot subs m
  | DownInvalidate hooks => for_each hooks run_hook ;;; emit_to_subs c Invalidate
  end.

Definition emit_message (c : Core) (m : Msg V) : MW unit :=
  let! a := collect_down_action c m in
  match a with Some a => apply_down_action c a | None => ret tt end.

Definition assert_versions (n : NodeSlot V) (w : Wave V) : MW unit :=
  for_each w (λ m,
    match m with
    | Data v =>
        match assert_node_version_data_compatible (vs_policy (n_version n)) v with
        | inl e => panic (PanicStr e)
        | inr _ => ret tt
        end
    | _ => ret tt
    end).

(** The batch capture of [down]: [None] when the wave was captured (and [down]
    returns), else the wave to go on with. *)
Definition capture_in_batch (c : Core) (inside : bool) (sorted : Wave V) : MW (option (Wave V)) :=
  let! collecting := gets collecting_batch in
  if negb inside && collecting then
    let '(deferred, rest) := split_batch_deferred sorted in
    let! captured := (if is_nil deferred then ret false else defer_to_batch c deferred) in
    if captured then
      let! n := node c in
      when (negb (emitted_dirty_this_wave (n_wave n))) (emit_dirty_once c) ;;;
      upd c (on_wave (set_batch_dirty_owed (λ _, true))) ;;;
      ret None
    else ret (if is_nil rest then None else Some rest)
  else ret (Some sorted).

(** The pause buffering of [down], with the same result convention. *)
Definition buffer_on_pause (c : Core) (sorted : Wave V) : MW (option (Wave V)) :=
  let! is_async := is_async_node c in
  let! n := node c in
  if should_buffer_on_pause is_async n then
    let '(buffered, rest) := split_pause_buffered sorted in
    when (negb (is_nil buffered))
      (upd c (λ n, on_aux (set_pause_buffer (λ l, l ++ [buffered]))
                     (on_wave (set_emitted_tier3_this_wave (λ _, true)) n))) ;;;
    ret (if is_nil rest then None else Some rest)
  else ret (Some sorted).

Definition mixed_msg : string :=
  "down: a wave cannot mix DATA and RESOLVED (tier-3 exclusivity, R-resolved-undirty / D49)".

(** [down] after capture and buffering: exclusivity, DIRTY synthesis, delivery. *)
Definition emit_wave (c : Core) (inside : bool) (sorted : Wave V) : MW unit :=
  assert_or (tier3_exclusive sorted) mixed_msg ;;;
  let! n := node c in
  when (has_tier3 sorted && (negb inside || pull_dirty_owed (n_aux n))) (emit_dirty_once c) ;;;
  with_delivery_scope (for_each sorted (emit_message c)) ;;;
  when (negb inside)
    (upd c (on_wave (λ w, set_emitted_tier3_this_wave (λ _, false)
                            (set_emitted_dirty_this_wave (λ _, false) w)))).

Definition down (c : Core) (msgs : Wave V) : MW unit :=
  let! n := node c in
  let inside := inside_run_wave (n_wave n) in
  if v_terminal (n_value n) then ret tt
  else
    wave_register c ;;;
    let sorted := shape_wave msgs in
    let! n1 := node c in
    assert_versions n1 sorted ;;;
    let! o := capture_in_batch c inside sorted in
    match o with
    | None => ret tt
    | Some sorted =>
        let! o := buffer_on_pause c sorted in
        match o with
        | None => ret tt
        | Some sorted => emit_wave c inside sorted
        end
    end.

(** ** Pull demand *)

(** The [PullDelivery] guard. *)
Definition end_pull (c : Core) (w : World V) : World V :=
  upd_node c (on_aux (λ a, set_pull_dirty_owed (λ _, false)
    (set_in_deliver_demand (λ _, false) (set_active_pull (λ _, None) a)))) w.

Definition arm_pull_run (n : NodeSlot V) : NodeSlot V :=
  on_wave (set_emitted_dirty_this_wave (λ _, false)) (on_aux (set_pull_dirty_owed (λ _, true)) n).

Definition fire_pull_demand (c : Core) : MW unit :=
  let! buf := with_slot c (λ n, (on_aux (set_pause_buffer (λ _, [])) n, pause_buffer (n_aux n))) in
  let! n := node c in
  if negb (is_nil buf) then
    if pausable_on n then
      match last buf with Some wave => rec (TDown c wave) | None => ret tt end
    else for_each buf (λ wave, rec (TDown c wave))
  else if paused_dep_wave_occurred (n_aux n) then
    if negb (bool_decide (ds_pending (n_state n) = 0))
       || (is_some (handle (n_call n)) && negb (gate_open n))
    then ret tt
    else
      upd c (λ n, arm_pull_run (on_aux (set_paused_dep_wave_occurred (λ _, false)) n)) ;;;
      try_run c
  else
    when (is_some (handle (n_call n))) (upd c arm_pull_run ;;; try_run c).

Definition deliver_pull_demand (c : Core) (demand : PullDemand V) : MW unit :=
  upd c (on_aux (λ a, set_in_deliver_demand (λ _, true) (set_active_pull (λ _, Some demand) a))) ;;;
  with_guard (fire_pull_demand c) (end_pull c).

Definition fire_owed_demand_if_ready (c : Core) : MW unit :=
  let! n := node c in
  if in_deliver_demand (n_aux n) || negb (can_fire_demand n) then ret tt
  else
    let! demand := with_slot c (λ n,
      (on_aux (set_pull_demand_owed (λ _, None)) n, pull_demand_owed (n_aux n))) in
    match demand with Some d => deliver_pull_demand c d | None => ret tt end.

Definition on_demand (c : Core) (demand : PullDemand V) : MW unit :=
  let! should_deliver := with_slot c (λ n,
    if negb (is_some (cfg_pull_id (n_config n))) || in_deliver_demand (n_aux n) then (n, false)
    else (on_aux (set_pull_demand_owed (λ _, Some demand)) n, true)) in
  when should_deliver (fire_owed_demand_if_ready c).

(** ** Receiving from a dep *)

Definition apply_action (c : Core) (a : InWaveDepReceiveAction V) : MW unit :=
  when (emit_teardown_subscribers a) (emit_to_subs c Teardown) ;;;
  when (emit_dirty a) (emit_to_subs c Dirty) ;;;
  when (do_invalidate a)
    (if invalidate_as_invalidate_msg a && had_node_data_before_invalidate a
     then rec (TDown c [Invalidate]) else invalidate c) ;;;
  when (clear_undirty_after_invalidate a)
    (if had_node_data_before_invalidate a
     then upd c (on_wave (set_emitted_dirty_this_wave (λ _, false)))
     else rec (TDown c [Resolved])) ;;;
  when (defer_maybe_run a) (defer_delivery_action_until_boundary c KRun) ;;;
  match maybe_run_decision a with
  | Skip => ret tt
  | Passthrough => passthrough_emit c
  | Run => rec (TRunWave c)
  end ;;;
  match down_msgs a with Some msgs => rec (TDown c msgs) | None => ret tt end ;;;
  when (do_settle_after_absorbed_terminal a) (settle_after_absorbed_terminal c) ;;;
  when (fire_demand a) (fire_owed_demand_if_ready c).

Definition receive_from_dep (c : Core) (idx : nat) (m : Msg V) : MW unit :=
  let! w := gets id in
  match get_node w c with
  | None => ret tt
  | Some n =>
      wave_register c ;;;
      assert_or (negb (indexes_dep m) || v_terminal (n_value n)
                 || bool_decide (idx < length (n_deps n))%nat) index_msg ;;;
      let! a := with_slot c
        (collect_receive (delivery_in_flight w) (w_current_delivery_id w) idx m) in
      match a with Some a => apply_action c a | None => ret tt end
  end.

(** ** Running the fn *)

Definition invoke (c : Core) (h : Handle) (ctx : Ctx V) : MW unit :=
  let! d := gets w_disp in
  let! fo := expect (Dispatcher.lookup_fn d h) index_msg in
  match fo with
  | None => ret tt
  | Some f =>
      log (EvRun c) ;;;
      if recording d then
        with_guard (rec (TProg (Some c) (fn_code uc f ctx)))
          (λ w, set_w_recorded S
                  (set_w_disp (λ d, Dispatcher.record_invoke d h (elapsed_ns uc (w_recorded w))) w))
      else rec (TProg (Some c) (fn_code uc f ctx))
  end.

(** The fn call between raising and lowering [inside_run_wave]. *)
Definition guarded_invoke (c : Core) (h : Handle) (ctx : Ctx V) : MW unit :=
  upd c begin_run ;;;
  wave_set_blamed c ;;;
  with_guard (invoke c h ctx) (upd_node c (on_wave (set_inside_run_wave (λ _, false)))).

Definition feedback_msg : string :=
  "synchronous feedback cycle: node fn re-entered its own wave (R-reentrancy / D37)".

Definition run_wave (c : Core) : MW unit :=
  wave_register c ;;;
  let! n := node c in
  if inside_run_wave (n_wave n) then panic (PanicStr feedback_msg)
  else
    let! h := expect (handle (n_call n)) "run_wave ⇒ handle present" in
    let! is_async := is_async_node c in
    let ctx := mkCtx c (run_dep_records n) (active_pull (n_aux n)) in
    guarded_invoke c h ctx ;;;
    let! n1 := node c in
    let undirty := owes_undirty is_async n1 in
    when undirty (rec (TDown c [Resolved])) ;;;
    let! n2 := node c in
    let keep := undirty && (batch_dirty_owed (n_wave n2) || emitted_tier3_this_wave (n_wave n2)) in
    upd c (end_run keep).

(** ** Subscriptions and lifecycle *)

(** Registration: the new id and the message to push after START. *)
Definition subscribe_begin (c : Core) (s : Sink) (kind : SubscriberKind)
    : MW (Z * option (Msg V)) :=
  let! n := node c in
  let sid := next_sub_id (n_aux n) in
  upd c (on_aux (λ a, set_subscribers (λ l, l ++ [mkSubscriberEntry sid kind s])
                        (set_next_sub_id (λ i, i + 1) a))) ;;;
  if is_some (cfg_pull_id (n_config n)) then ret (sid, None)
  else if v_has_data (n_value n) then
    let! v := expect (v_cache (n_value n)) "has_data ⇒ cache present" in ret (sid, Some (Data v))
  else if bool_decide (v_status (n_value n) = Status.Dirty) then ret (sid, Some Dirty)
  else ret (sid, None).

(** The push-on-subscribe handshake and the lazy activation. *)
Definition subscribe_finish (c : Core) (s : Sink) (push : option (Msg V)) : MW unit :=
  deliver_sink s Start ;;;
  match push with Some m => deliver_sink s m | None => ret tt end ;;;
  let! n := node c in
  when (negb (activated (n_aux n))) (rec (TActivate c)).

Definition unsubscribe (c : Core) (sid : Z) : MW unit :=
  let! live := is_live c in
  if negb live then ret tt
  else
    let! became_empty := with_slot c (λ n,
      let kept := List.filter (λ e, negb (bool_decide (sub_id e = sid))) (subscribers (n_aux n)) in
      (on_aux (set_subscribers (λ _, kept)) n,
       bool_decide (length kept < length (subscribers (n_aux n)))%nat && is_nil kept)) in
    when became_empty (rec (TDeactivate c)).

Definition subscribe_dep (c : Core) (idx : nat) (dep : Core) : MW unit :=
  let! b := alloc_box (Z.of_nat idx) in
  let! sp := subscribe_begin dep (DepSink c b) External in
  let! r := catch_unwind (subscribe_finish dep (DepSink c b) sp.2) in
  match r with
  | inr p =>
      let! n := node c in
      when (in_dep_mutation (n_wave n)) (catch_unwind (unsubscribe dep sp.1) ;;; ret tt) ;;;
      panic p
  | inl _ =>
      let! n := node c in
      let e := n_edges n in
      assert_or (bool_decide (idx < length (e_unsubs e))%nat
                 && bool_decide (idx < length (e_idx_boxes e))%nat
                 && bool_decide (idx < length (e_restored_activation_handshake e))%nat) index_msg ;;;
      upd c (set_n_edges (λ e, set_e_restored_activation_handshake <[idx := false]>
        (set_e_idx_boxes <[idx := b]> (set_e_unsubs <[idx := Some (dep, sp.1)]> e))))
  end.

Definition activate (c : Core) : MW unit :=
  let! n := node c in
  let ds := n_deps n in
  let! boxes := alloc_boxes (length ds) in
  upd c (λ n, set_n_edges (λ e, set_e_idx_boxes (λ _, boxes)
                (set_e_unsubs (λ _, replicate (length ds) None) e))
                (on_aux (set_activated (λ _, true)) n)) ;;;
  for_each (imap pair ds) (λ '(idx, dep), subscribe_dep c idx dep) ;;;
  let! n := node c in
  when (is_nil (n_deps n) && is_some (handle (n_call n)) && negb (has_called_fn_once (n_run n)))
    (rec (TRunWave c)).

Definition deactivate (c : Core) : MW unit :=
  let! uh := with_slot c deactivate_slot in
  for_each uh.1 (λ '(dep, sid), unsubscribe dep sid) ;;;
  for_each uh.2 run_hook.

(** ** Upstream control *)

Definition on_resume (c : Core) : MW unit :=
  let! n := node c in
  if v_terminal (n_value n) then upd c (on_aux discard_pending_work)
  else
    let! buf := with_slot c (λ n,
      (on_aux (set_pause_buffer (λ _, [])) n, pause_buffer (n_aux n))) in
    for_each buf (λ wave, rec (TDown c wave)) ;;;
    let! fire := with_slot c (λ n, (on_aux (set_paused_dep_wave_occurred (λ _, false)) n,
                                    paused_dep_wave_occurred (n_aux n))) in
    when fire (try_run c).

Definition pause_acquire (c : Core) (lock : LockId) : MW unit :=
  upd c (on_aux (set_pause_lockset (λ l, if bool_decide (lock ∈ l) then l else l ++ [lock]))).

Definition pause_release (c : Core) (lock : LockId) : MW unit :=
  let! resumed := with_slot c (λ n,
    if bool_decide (lock ∈ pause_lockset (n_aux n)) then
      let l := List.filter (λ x, negb (bool_decide (x = lock))) (pause_lockset (n_aux n)) in
      (on_aux (set_pause_lockset (λ _, l)) n, Some (is_nil l))
    else (n, None)) in
  match resumed with
  | None => ret tt
  | Some resumed =>
      let! n := node c in
      (if resumed && negb (is_some (cfg_pull_id (n_config n))) then
         on_resume c ;;;
         let! blocked := gets boundary_drains_blocked in
         when blocked (register_boundary_root c)
       else if resumed then
         let! blocked := gets boundary_drains_blocked in
         when blocked (register_boundary_root c)
       else ret tt) ;;;
      fire_owed_demand_if_ready c
  end.

(** [dup_control]; [None] is the [unreachable!] arm. *)
Definition dup_control (m : Msg V) : option (Msg V) :=
  match m with
  | Pause _ | Resume _ | Pull _ | Dirty | Invalidate | Teardown => Some m
  | _ => None
  end.

Definition to_target (dep : Core) (m : Msg V) (route : UpRouteState) : MW UpRouteState :=
  let! live := is_live dep in
  if live then rec (TUpMsg dep m None route) else ret route.

Definition forward_up (c : Core) (m : Msg V) (toward_dep : option nat) (route : UpRouteState)
    : MW UpRouteState :=
  let! n := node c in
  match toward_dep with
  | Some i =>
      match n_deps n !! i with Some dep => to_target dep m route | None => ret route end
  | None =>
      fold_each (n_deps n) (λ route dep,
        let! m' := expect (dup_control m) "up forwards only control messages" in
        to_target dep m' route) route
  end.

(** [mark_demand]: was the demand already fired at this holder? *)
Definition mark_demand (lock : LockId) (holder : Core) (route : UpRouteState)
    : UpRouteState * bool :=
  if existsb (λ '(l, h), bool_decide (l = lock) && ptr_eq h holder) route then (route, true)
  else (route ++ [(lock, holder)], false).

Definition up_msg (c : Core) (m : Msg V) (toward_dep : option nat) (route : UpRouteState)
    : MW UpRouteState :=
  let! n := node c in
  match m with
  | Pause lock => pause_acquire c lock ;;; ret route
  | Resume lock =>
      if bool_decide (lock ∈ pause_lockset (n_aux n)) then pause_release c lock ;;; ret route
      else forward_up c m toward_dep route
  | Pull demand =>
      if bool_decide (cfg_pull_id (n_config n) = Some (Protocol.pull_id demand)) then
        let '(route', already) := mark_demand (Protocol.pull_id demand) c route in
        when (negb already) (on_demand c demand) ;;; ret route'
      else forward_up c m toward_dep route
  | other =>
      if is_nil (n_deps n) then
        when (is_invalidate other) (rec (TDown c [Invalidate])) ;;; ret route
      else forward_up c other toward_dep route
  end.

Definition down_only_msg (m : Msg V) : string :=
  ("ctx.up: " +:+ kind_tag m +:+ " is down-only; up carries control tiers only (R-ctx-up)")%string.

Definition up (c : Core) (msgs : Wave V) (toward_dep : option nat) : MW unit :=
  for_each msgs (λ m, assert_or (is_up_allowed m) (down_only_msg m)) ;;;
  fold_each msgs (λ route m, rec (TUpMsg c m toward_dep route)) [] ;;;
  ret tt.

Definition owned_up (c : Core) (msgs : Wave V) (toward_dep : option nat) : MW unit :=
  with_wave_owner c (up c msgs toward_dep) (ret tt).
End Ops.

(** ** Rewire *)

Section RewireOps.
Variable rec : ∀ t : Task V, MW (res t).

Definition swap_fn_preserving_pool (c : Core) (f : FnId) : MW unit :=
  let! n := node c in
  let! d := gets w_disp in
  let old_handle := handle (n_call n) in
  let! k := match old_handle with
            | Some h => expect (Dispatcher.pool_kind d (pool_id h)) index_msg
            | None => ret Sync
            end in
  let! dh := expect (Dispatcher.register_with d k f) index_msg in
  modify (set_w_disp (λ _, dh.1)) ;;;
  upd c (set_n_call (set_handle (λ _, Some dh.2))) ;;;
  match old_handle with
  | Some oh =>
      let! d' := expect (Dispatcher.unregister dh.1 oh) index_msg in
      modify (set_w_disp (λ _, d'))
  | None => ret tt
  end.

Definition settle_rewire (c : Core) : MW unit :=
  let! n := node c in
  if pausable_on n && paused n then upd c (on_aux (set_paused_dep_wave_occurred (λ _, true)))
  else if bool_decide (0 < ds_pending (n_state n)) then ret tt
  else if negb (is_some (handle (n_call n))) then passthrough_emit rec c
  else if negb (gate_open n) then ret tt
  else mark_dirty rec c ;;; rec (TRunWave c).

(** One removed dep: drop its dirty contribution, drain its box, detach it. *)
Definition remove_dep (c : Core) (removed_dirty : bool) (old_idx : nat) : MW bool :=
  let! n := node c in
  let! dirty := expect (ds_dirty (n_state n) !! old_idx) index_msg in
  when dirty (upd c (on_state (set_ds_pending (λ p, p - 1)))) ;;;
  match e_idx_boxes (n_edges n) !! old_idx with Some b => set_box b (-1) | None => ret tt end ;;;
  let unsub := default None (e_unsubs (n_edges n) !! old_idx) in
  upd c (set_n_edges (set_e_unsubs <[old_idx := None]>)) ;;;
  match unsub with Some (dep, sid) => unsubscribe rec dep sid | None => ret tt end ;;;
  ret (removed_dirty || dirty).

(** Reroute the kept deps' boxes to their new index. *)
Definition reroute_boxes (c : Core) (new_to_old : list (option nat)) : MW unit :=
  let! n := node c in
  for_each (imap pair new_to_old) (λ '(j, o),
    match o with
    | Some old_idx =>
        match e_idx_boxes (n_edges n) !! old_idx with
        | Some b => set_box b (Z.of_nat j)
        | None => ret tt
        end
    | None => ret tt
    end).

Definition notify_topology_deps_changed (c : Core) (old_deps new_deps : list Core) : MW unit :=
  let! n := node c in
  match topology_deps_changed (n_topo n) with
  | Some o => log (EvTopology o c old_deps new_deps)
  | None => ret tt
  end.

Definition clear_dep_mutation (c : Core) (w : World V) : World V :=
  upd_node c (on_wave (set_in_dep_mutation (λ _, false))) w.

(** The unique settle after the mutation. *)
Definition rewire_settle (c : Core) (removed_dirty : bool) (new_deps : list Core) : MW unit :=
  let! n := node c in
  let should_settle := removed_dirty && bool_decide (ds_pending (n_state n) = 0)
                       && bool_decide (v_status (n_value n) = Status.Dirty) in
  let zero_dep_undirty := should_settle && is_nil new_deps in
  when (should_settle && negb (is_nil new_deps))
    (upd c (on_wave (set_rewire_run_pending (λ _, true)))) ;;;
  upd c (on_wave (set_in_dep_mutation (λ _, false))) ;;;
  let! run_pending := with_slot c (λ n,
    (on_wave (set_rewire_run_pending (λ _, false)) n, rewire_run_pending (n_wave n))) in
  if run_pending then settle_rewire c
  else if zero_dep_undirty then
    let! n := node c in
    if emitted_dirty_this_wave (n_wave n) then rec (TDown c [Resolved])
    else upd c (on_value (λ v, set_v_status
                 (λ _, if v_has_data v then Status.Settled else Status.Sentinel) v))
  else ret tt.

(** The matching the mutation works with: nothing is kept on the no-overlap
    fast path. *)
Definition rewire_plan (old_deps new_deps : list Core) : Matching :=
  if bool_decide (length old_deps = length new_deps) && same_graph_no_overlap old_deps new_deps
  then (replicate (length old_deps) None, replicate (length new_deps) None)
  else match_deps old_deps new_deps.

Definition rewire_mutate (c : Core) (old_deps new_deps : list Core) (f : FnId) : MW unit :=
  let '(old_to_new, new_to_old) := rewire_plan old_deps new_deps in
  let removed := omap (λ '(i, o), if is_some o then None else Some i) (imap pair old_to_new) in
  let added := omap (λ '(i, (d, o)), if is_some o then None else Some (i, d))
                 (imap pair (zip new_deps new_to_old)) in
  let! n := node c in
  let was_active := activated (n_aux n) in
  swap_fn_preserving_pool c f ;;;
  let! removed_dirty := fold_each removed (remove_dep c) false in
  let! placeholders := alloc_boxes (length new_deps) in
  reroute_boxes c new_to_old ;;;
  upd c (rebuild_slot new_deps new_to_old placeholders) ;;;
  when was_active (for_each added (λ '(idx, d), subscribe_dep rec c idx d)) ;;;
  notify_topology_deps_changed c old_deps new_deps ;;;
  let! n := node c in
  if v_terminal (n_value n) then ret tt else rewire_settle c removed_dirty new_deps.

(** A body run with [in_dep_mutation] raised. *)
Definition in_mutation (c : Core) (body : MW unit) : MW unit :=
  upd c (on_wave (λ w, set_rewire_run_pending (λ _, false) (set_in_dep_mutation (λ _, true) w))) ;;;
  with_guard body (clear_dep_mutation c).

Definition rewire_apply (c : Core) (new_deps : list Core) (f : FnId) : MW unit :=
  let! n := node c in
  let old_deps := n_deps n in
  in_mutation c
    (if same_ordered_deps old_deps new_deps then swap_fn_preserving_pool c f
     else rewire_mutate c old_deps new_deps f).

Definition cross_graph_msg : string :=
  "rewire: dep belongs to a different graph; cross-graph deps require a wire bridge (D22/R-graph-domain)".
Definition terminal_owner_msg : string :=
  "rewire: node is terminal (completed/errored) — cannot rewire (R-rewire / D42)".
Definition mid_fn_msg : string :=
  "rewire: mid-fn topology mutation — a fn mutating its own deps mid-wave is the feedback cycle (R-rewire / D37)".
Definition reentrant_msg : string :=
  "rewire: reentrant dep mutation — another replace_deps/subscribe_dep/unsubscribe_dep is in flight (R-rewire)".
Definition self_dep_msg : string := "rewire: self-dependency rejected (R-rewire / D42)".
Definition cycle_msg : string :=
  "rewire: would create a cycle — dep already transitively depends on this node (R-rewire / D42)".
Definition terminal_dep_msg : string :=
  "rewire: cannot add a non-resubscribable terminal dep — would wedge (R-rewire / D42)".

(** [reachable_upstream(d, self)]. *)
Definition check_reachable (d c : Core) : MW bool :=
  if negb (same_graph d c) then ret false
  else
    let! g := gets (λ w, w_graphs w !! c_graph d) in
    match g ≫= (λ g, reachable_upstream g (c_key d) (c_key c)) with
    | Some b => ret b
    | None => no_fuel
    end.

Definition check_added_dep (c d : Core) : MW unit :=
  let! cyc := check_reachable d c in
  assert_or (negb cyc) cycle_msg ;;;
  let! nd := node d in
  assert_or (negb (v_terminal (n_value nd))) terminal_dep_msg.

Definition check_rewire (c : Core) (new_deps : list Core) (allow_terminal_owner : bool) : MW unit :=
  let! n := node c in
  assert_or (allow_terminal_owner || negb (v_terminal (n_value n))) terminal_owner_msg ;;;
  assert_or (negb (inside_run_wave (n_wave n))) mid_fn_msg ;;;
  assert_or (negb (in_dep_mutation (n_wave n))) reentrant_msg ;;;
  assert_or (negb (contains_core c new_deps)) self_dep_msg ;;;
  for_each (List.filter (λ d, negb (contains_core d (n_deps n))) new_deps) (check_added_dep c).

Definition rewire_inner (c : Core) (ds : list Core) (f : FnId) (allow_terminal_owner : bool)
    : MW unit :=
  let new_deps := dedup_cores ds in
  assert_or (forallb (λ d, same_graph d c) new_deps) cross_graph_msg ;;;
  let! committed := gets (committed_after_batch_for_target c) in
  match (if allow_terminal_owner then None else committed) with
  | Some tok => defer_boundary c (BExternalRewire c (RewireSet new_deps f) tok)
  | None =>
      check_rewire c new_deps allow_terminal_owner ;;;
      with_wave_owner rec c (rewire_apply c new_deps f) (ret tt)
  end.

Definition apply_external_rewire (c : Core) (req : RewireRequest) : MW unit :=
  let! n := node c in
  let '(ds, f) := into_deps_and_fn req (n_deps n) in
  rewire_inner c ds f false.

Definition external_rewire (c : Core) (req : RewireRequest) : MW unit :=
  assert_or (deps_same_graph req c) cross_graph_msg ;;;
  let! committed := gets (committed_after_batch_for_target c) in
  match committed with
  | Some tok => defer_boundary c (BExternalRewire c req tok)
  | None => apply_external_rewire c req
  end.

(** The token of a [*_next] request: the batch's, or an already set one. *)
Definition request_token : MW nat :=
  let! t := gets active_batch_committed_token in
  match t with Some t => ret t | None => new_token true end.

Definition request_rewire_next (c : Core) (req : RewireRequest) : MW unit :=
  let! t := request_token in defer_boundary c (BRewire c req t).
Definition request_up_next (c : Core) (msgs : Wave V) (toward_dep : option nat) : MW unit :=
  let! t := request_token in defer_boundary c (BUp c msgs toward_dep t).
Definition request_down_next (c : Core) (msgs : Wave V) : MW unit :=
  let! t := request_token in defer_boundary c (BDown c msgs t).

(** A stale remove (the identity is already absent) is a full no-op; a rejected
    rewire surfaces as ERROR on the node. *)
Definition apply_rewire_next (c : Core) (req : RewireRequest) : MW unit :=
  let! n := node c in
  let present := match req with
                 | RewireRemove dep _ => contains_core dep (n_deps n)
                 | _ => true
                 end in
  if negb present then ret tt
  else
    let '(ds, f) := into_deps_and_fn req (n_deps n) in
    let! outcome := catch_unwind (rewire_inner c ds f true) in
    match outcome with
    | inl _ => ret tt
    | inr p =>
        if is_host_boundary_abort_payload p then panic p
        else owned_down rec c [Error (panic_to_error p)]
    end.

(** ** Draining the committed boundary *)

Definition node_paused (c : Core) : MW bool :=
  let! n := node c in ret (paused n).

(** The target of a task, if it lives in the drained arena. *)
Definition task_target_live (g : nat) (c : Core) : MW bool :=
  if bool_decide (c_graph c = g) then is_live c else ret false.

(** [run_boundary_task]: a returned task is blocked and goes back in the queue. *)
Definition run_boundary_task (g : nat) (t : BoundaryTask V) : MW (option (BoundaryTask V)) :=
  let! committed := token_set (task_committed t) in
  if negb committed then ret None
  else
    match t with
    | BRewire c req _ =>
        let! live := task_target_live g c in
        if negb live then ret None
        else
          let! p := node_paused c in
          if p then ret (Some t) else apply_rewire_next c req ;;; ret None
    | BExternalRewire c req _ =>
        let! live := task_target_live g c in
        when live (apply_external_rewire c req) ;;; ret None
    | BUp c msgs toward_dep _ =>
        let! live := task_target_live g c in
        if negb live then ret None
        else
          let! p := node_paused c in
          if p then ret (Some t) else owned_up rec c msgs toward_dep ;;; ret None
    | BDown c msgs _ =>
        let! live := task_target_live g c in
        when live (owned_down rec c msgs) ;;; ret None
    end.

Definition pop_boundary (g : nat) : MW (option (BoundaryTask V)) :=
  let! q := gets (queue_of g) in
  match q with
  | [] => ret None
  | t :: q' => upd_graph g (set_queue (λ _, q')) ;;; ret (Some t)
  end.

(** One iteration of the drain loop; the result is the first escaped panic. *)
Definition drain_loop (g : nat) (escaped : option Payload) (blocked : nat) : MW (option Payload) :=
  let! task := pop_boundary g in
  match task with
  | None => ret escaped
  | Some t =>
      let! r := catch_unwind (run_boundary_task g t) in
      match r with
      | inl (Some t) =>
          upd_graph g (set_queue (λ q, q ++ [t])) ;;;
          let! queued := gets (λ w, length (queue_of g w)) in
          if bool_decide (queued ≤ S blocked)%nat then ret escaped
          else rec (TDrainLoop g escaped (S blocked))
      | inl None => rec (TDrainLoop g escaped 0%nat)
      | inr p =>
          if is_host_boundary_abort_payload p then
            upd_graph g (set_queue (λ _, [])) ;;; panic p
          else rec (TDrainLoop g (remember_first escaped p) 0%nat)
      end
  end.

Definition stop_draining (g : nat) (w : World V) : World V :=
  set_w_graphs (alter (set_draining false) g) w.

(** A drain run with [draining_boundary] raised. *)
Definition draining_scope (g : nat) (body : MW (option Payload)) : MW (option Payload) :=
  upd_graph g (set_draining true) ;;; with_guard body (stop_draining g).

Definition drain_deferred_rewires_for_graph (g : nat) : MW unit :=
  let! draining := gets (draining_of g) in
  let! q := gets (queue_of g) in
  if draining || is_nil q then ret tt
  else
    let! escaped := draining_scope g (rec (TDrainLoop g None 0%nat)) in
    match escaped with Some p => panic p | None => ret tt end.

(** ** The batch frame *)

Definition commit_batched_wave (c : Core) (wave : Wave V) : MW unit :=
  upd c (on_wave (set_batch_dirty_owed (λ _, false))) ;;; owned_down rec c wave.

Definition rollback_batched (c : Core) : MW unit :=
  let! should_balance := with_slot c (λ n,
    (on_wave (set_batch_dirty_owed (λ _, false)) n, batch_dirty_owed (n_wave n))) in
  when should_balance (owned_down rec c [Resolved]).

(** The live target of a batch entry ([BatchTarget::borrowed_core]). *)
Definition if_live (c : Core) (m : MW unit) : MW unit :=
  let! live := is_live c in when live m.

Definition commit (targets : list Core) (deferred : list (option (Wave V))) : MW unit :=
  for_each (imap pair deferred) (λ '(i, w),
    match w with
    | Some wave =>
        let! c := expect (targets !! i) index_msg in if_live c (commit_batched_wave c wave)
    | None => ret tt
    end).

Definition rollback (targets : list Core) (order : list nat) : MW unit :=
  for_each order (λ i,
    let! c := expect (targets !! i) index_msg in if_live c (rollback_batched c)).

Definition push_unique (roots : list nat) (g : nat) : list nat :=
  if bool_decide (g ∈ roots) then roots else roots ++ [g].

Definition boundary_graph_roots (targets : list Core) (order : list nat)
    (deferred : list (option (Wave V))) : list nat :=
  let by_order := foldl (λ roots i,
    match targets !! i with Some c => push_unique roots (c_graph c) | None => roots end) [] order in
  foldl (λ roots '(i, w),
    match w, targets !! i with
    | Some _, Some c => push_unique roots (c_graph c)
    | _, _ => roots
    end) by_order (imap pair deferred).

Definition append_boundary_roots (task_roots core_roots boundary_roots : list nat) : list nat :=
  foldl (λ roots g,
    if bool_decide (g ∈ core_roots) || bool_decide (g ∈ roots) then roots else roots ++ [g])
    task_roots boundary_roots.

Definition take_late_boundary_roots : MW (list nat) :=
  let! w := gets id in
  match w_active_batch w with
  | Some b =>
      modify (set_w_active_batch (fmap (set_b_boundary_roots (λ _, [])))) ;;;
      ret (b_boundary_roots b)
  | None => ret []
  end.

Definition clear_active : MW unit := modify (set_w_active_batch (λ _, None)).

Definition clear_boundary_for_roots (core_roots task_roots : list nat) : MW unit :=
  for_each core_roots clear_deferred_boundary_root ;;;
  for_each task_roots clear_deferred_boundary_root.

(** [take_for_finish]: stop collecting and move the frame's lists out. *)
Definition take_for_finish : MW (ActiveBatch V) :=
  let! o := gets w_active_batch in
  let! b := expect o "batch frame installed" in
  modify (set_w_active_batch (fmap (λ b,
    mkActiveBatch [] [] [] [] (b_committed b) (b_rolled_back b) false))) ;;;
  ret b.

(** The result is the payload of a panic of the rollback itself. *)
Definition rollback_and_cleanup (targets : list Core) (order task_roots : list nat)
    : MW (option Payload) :=
  let core_roots := boundary_graph_roots targets order [] in
  let! result := catch_unwind (rollback targets order) in
  let! late := take_late_boundary_roots in
  let task_roots' := append_boundary_roots task_roots core_roots late in
  clear_active ;;;
  clear_boundary_for_roots core_roots task_roots' ;;;
  ret (match result with inl _ => None | inr p => Some p end).

Definition batch (body : MW unit) : MW unit :=
  let! active := gets w_active_batch in
  if is_some active then body
  else
    let! tok := new_token false in
    modify (set_w_active_batch (λ _, Some (mkActiveBatch [] [] [] [] tok false true))) ;;;
    let! result := catch_unwind body in
    let! fin := take_for_finish in
    let core_roots := boundary_graph_roots (b_targets fin) (b_order fin) (b_deferred fin) in
    let task_roots := append_boundary_roots [] core_roots (b_boundary_roots fin) in
    match result with
    | inl _ =>
        if b_rolled_back fin then
          let! r := rollback_and_cleanup (b_targets fin) (b_order fin) task_roots in
          match r with Some p => panic p | None => ret tt end
        else
          let! commit_result := catch_unwind (commit (b_targets fin) (b_deferred fin)) in
          let! late := take_late_boundary_roots in
          let task_roots' := append_boundary_roots task_roots core_roots late in
          match commit_result with
          | inr p => clear_active ;;; clear_boundary_for_roots core_roots task_roots' ;;; panic p
          | inl _ =>
              modify (set_w_tokens <[b_committed fin := true]>) ;;;
              clear_active ;;;
              drain_roots rec core_roots task_roots'
          end
    | inr p =>
        let! r := rollback_and_cleanup (b_targets fin) (b_order fin) task_roots in
        match r with Some rp => panic rp | None => panic p end
    end.

Definition batch_rollback : MW unit :=
  modify (set_w_active_batch (fmap (set_b_rolled_back (λ _, true)))).

(** ** The public node API *)

Definition construct_msg : string :=
  "node construction: dep belongs to a different graph; cross-graph deps require a wire bridge (D22/R-graph-domain)".
Definition pull_pausable_msg : string :=
  "pullId + pausable:false is invalid (R-pull / R-pause-modes)".

(** [g.alloc(..)] and the key of the new slot. *)
Definition alloc_slot (g : nat) (slot : NodeSlot V) : MW Core :=
  let! gr := gets (λ w, w_graphs w !! g) in
  let! gi := expect (gr ≫= λ gr, Arena.alloc gr slot) "GraphCore generation overflow on slot reuse" in
  modify (set_w_graphs <[g := gi.1]>) ;;;
  let! k := expect (Arena.key_for gi.1 gi.2) index_msg in
  ret (mkCore g k).

Definition new_in_arena (g : nat) (ds : list Core) (h : option Handle) (initial : option V)
    (o : NodeOpts) : MW Core :=
  for_each ds (λ d, assert_or (bool_decide (c_graph d = g)) construct_msg) ;;;
  let policy := resolve_node_versioning_policy (opt_versioning o) in
  let! version := match create_node_version policy initial with
                  | inl e => panic (PanicStr ("node versioning: " +:+ e)%string)
                  | inr v => ret v
                  end in
  let! boxes := alloc_boxes (length ds) in
  let edges := DepEdges_new (length ds) boxes in
  let edges := match initial with
               | Some v => set_e_value (λ _, mkNodeValueState (Some v) true Status.Settled false) edges
               | None => edges
               end in
  let slot := mkNodeSlot (mkNodeTopologySlot ds None) (mkNodeCallSlot None h)
                (NodeConfigSlot_from_opts o) (mkNodeRunState false) edges
                (mkNodeVersionState policy version) NodeAux_new in
  alloc_slot g slot.

(** [state_opts], [producer_opts] and [derived_opts] in an explicit arena. *)
Definition new_node (g : nat) (ds : list Core) (f : option FnId) (initial : option V) (o : NodeOpts)
    : MW Core :=
  match f with
  | None => new_in_arena g ds None initial o
  | Some f =>
      assert_or (negb (is_some (opt_pull_id o)
                       && bool_decide (opt_pausable o = Pausable.Off))) pull_pausable_msg ;;;
      let! d := gets w_disp in
      let! dh := expect (Dispatcher.register_with d (opt_pool o) f) index_msg in
      modify (set_w_disp (λ _, dh.1)) ;;;
      let! c := new_in_arena g ds (Some dh.2) initial o in
      upd c (λ n, set_n_call (set_factory (λ _, opt_factory o))
                    (match opt_pull_id o with
                     | Some p =>
                         on_aux (λ a, set_active_pull (λ _, None) (set_pull_demand_owed (λ _, None) a))
                           (set_n_config (set_cfg_pull_id (λ _, Some p)) n)
                     | None => n
                     end)) ;;;
      ret c
  end.

Definition subscribe_terminal_msg : string :=
  "subscribe: node is terminal and non-resubscribable — the stream is permanently over (R-terminal / D17)".

(** [Node::subscribe]: the id the unsubscribe handle carries is recorded before
    the handshake, so that the error path can still detach the sink. *)
Definition subscribe (c : Core) (s : Sink) (kind : SubscriberKind) : MW (option Z) :=
  let! n := node c in
  assert_or (negb (v_terminal (n_value n))) subscribe_terminal_msg ;;;
  let sid := next_sub_id (n_aux n) in
  let! r := catch_unwind (with_wave_owner rec c
    (let! sp := subscribe_begin c s kind in
     subscribe_finish rec c s sp.2 ;;; ret (Some sp.1))
    (ret (Some sid))) in
  match r with
  | inl o => ret o
  | inr p => when (is_host_boundary_abort_payload p) (unsubscribe rec c sid) ;;; panic p
  end.

Definition self_or_panic (self : option Core) : MW Core :=
  expect self "ctx used outside a node fn".

Fixpoint run_prog (self : option Core) (p : Prog V) : MW unit :=
  match p with
  | PRet => ret tt
  | PPanic p => panic p
  | PDown msgs k =>
      let! c := self_or_panic self in rec (TDown c msgs) ;;; run_prog self k
  | PUp msgs toward_dep k =>
      let! c := self_or_panic self in up rec c msgs toward_dep ;;; run_prog self k
  | PUpNext msgs toward_dep k =>
      let! c := self_or_panic self in request_up_next c msgs toward_dep ;;; run_prog self k
  | PDownNext msgs k =>
      let! c := self_or_panic self in request_down_next c msgs ;;; run_prog self k
  | PRewireNext req k =>
      let! c := self_or_panic self in request_rewire_next c req ;;; run_prog self k
  | PStateGet k =>
      let! c := self_or_panic self in
      let! n := node c in run_prog self (k (a_state (n_aux n)))
  | PStateSet v k =>
      let! c := self_or_panic self in
      upd c (on_aux (set_a_state (λ _, Some v))) ;;; run_prog self k
  | PStatePersist on k =>
      let! c := self_or_panic self in
      upd c (on_aux (set_state_persist (λ _, on))) ;;; run_prog self k
  | POnInvalidate h k =>
      let! c := self_or_panic self in
      upd c (on_aux (set_on_invalidate (λ l, l ++ [h]))) ;;; run_prog self k
  | POnDeactivation h k =>
      let! c := self_or_panic self in
      upd c (on_aux (set_on_deactivation (λ l, l ++ [h]))) ;;; run_prog self k
  | PNodeDown c msgs k => owned_down rec c msgs ;;; run_prog self k
  | PNodeUp c msgs toward_dep k => owned_up rec c msgs toward_dep ;;; run_prog self k
  | PSubscribe c s k => let! o := subscribe c (ExtSink s) External in run_prog self (k o)
  | PUnsubscribe c sid k => unsubscribe rec c sid ;;; run_prog self k
  | PRewire c req k => external_rewire c req ;;; run_prog self k
  | PBatch body k => batch (run_prog self body) ;;; run_prog self k
  | PBatchRollback k => batch_rollback ;;; run_prog self k
  | PNewNode g ds f initial o k =>
      let! c := new_node g ds f initial o in run_prog self (k c)
  | PReadCache c k => let! n := node c in run_prog self (k (v_cache (n_value n)))
  end.

(** One step of the interpreter: the body of each re-entrant operation. *)
Definition exec_task (t : Task V) : MW (res t) :=
  match t return MW (res t) with
  | TDown c msgs => down rec c msgs
  | TUpMsg c m toward_dep route => up_msg rec c m toward_dep route
  | TActivate c => activate rec c
  | TDeactivate c => deactivate rec c
  | TReceive c idx m => receive_from_dep rec c idx m
  | TRunWave c => run_wave rec c
  | TProg self p => run_prog self p
  | TDrainRuns => drain_deferred_runs rec
  | TDrainGraph g => drain_deferred_rewires_for_graph g
  | TDrainLoop g escaped blocked => drain_loop g escaped blocked
  end.
End RewireOps.

(** ** Tying the knot *)

Fixpoint exec (fuel : nat) (t : Task V) : MW (res t) :=
  match fuel with
  | O => no_fuel
  | S fuel' => exec_task (exec fuel') t
  end.

(** A client program run against the engine. *)
Definition run_client (fuel : nat) (p : Prog V) (w : World V) : Outcome (World V) unit :=
  exec fuel (TProg None p) w.
End Engine.
