(* ===== verification/EngineRun.v ===== *)
(** * Total-correctness rules for engine calls

    [runs m w Q]: with every large enough fuel, the computation [m] (which makes
    its re-entrant calls through its argument) returns from [w], with a result
    and a world that satisfy [Q].  Unlike [post] and [ok] it promises that the
    call returns. *)

From stdpp Require Import base option strings numbers gmap list.
From S2P Require Import Prelude Protocol Dispatcher Versioning Arena NodeState Receive Rewire.
From S2P Require Import Engine.

Local Open Scope rx_scope.

Section Runs.
Context {V : Type} `{!CanonicalData V} (uc : UserCode V).
Abbreviation MW := (M (World V)).
Abbreviation Rec := (∀ t : Task V, MW (res t)).
Implicit Types w : World V.

Definition runs {A} (m : Rec → MW A) w (Q : A → World V → Prop) : Prop :=
  ∃ f0 a w', Q a w' ∧ ∀ f, f0 ≤ f → m (exec uc f) w = Ret a w'.

Lemma runs_det {A} (m : Rec → MW A) w a w' (Q : A → World V → Prop) :
  (∀ r, m r w = Ret a w') → Q a w' → runs m w Q.
Proof. intros Hm HQ. exists 0, a, w'. split; [done|]. intros f _. apply Hm. Qed.

Lemma runs_conseq {A} (m : Rec → MW A) w (Q Q' : A → World V → Prop) :
  runs m w Q → (∀ a w', Q a w' → Q' a w') → runs m w Q'.
Proof. intros (f0 & a & w' & HQ & Hm) H. exists f0, a, w'. auto. Qed.

Lemma runs_bind {A B} (m : Rec → MW A) (k : Rec → A → MW B) w Q :
  runs m w (λ a w', runs (λ r, k r a) w' Q) → runs (λ r, bind (m r) (k r)) w Q.
Proof.
  intros (f0 & a & w' & (f1 & b & w'' & HQ & Hk) & Hm). exists (max f0 f1), b, w''.
  split; [done|]. intros f Hf. unfold bind. rewrite Hm by lia. apply Hk. lia.
Qed.

(** The step of a deterministic prefix that makes no call. *)
Lemma runs_step {A B} (m : MW A) (k : Rec → A → MW B) w a w' Q :
  m w = Ret a w' → runs (λ r, k r a) w' Q → runs (λ r, bind m (k r)) w Q.
Proof. intros Hm Hk. apply (runs_bind (λ _, m)). by apply (runs_det _ _ a w'). Qed.

(** The same for a prefix that is handed the calls but makes none here. *)
Lemma runs_pure {A B} (m : Rec → MW A) (k : Rec → A → MW B) w a w' Q :
  (∀ r, m r w = Ret a w') → runs (λ r, k r a) w' Q → runs (λ r, bind (m r) (k r)) w Q.
Proof. intros Hm Hk. apply runs_bind. by apply (runs_det _ _ a w'). Qed.

Lemma runs_ret {A} (a : A) w (Q : A → World V → Prop) : Q a w → runs (λ _, ret a) w Q.
Proof. intros HQ. by apply (runs_det _ _ a w). Qed.

Lemma runs_gets {A B} (g : World V → A) (k : Rec → A → MW B) w Q :
  runs (λ r, k r (g w)) w Q → runs (λ r, bind (gets g) (k r)) w Q.
Proof. by apply runs_step. Qed.

Lemma runs_modify {B} (g : World V → World V) (k : Rec → unit → MW B) w Q :
  runs (λ r, k r tt) (g w) Q → runs (λ r, bind (modify g) (k r)) w Q.
Proof. by apply runs_step. Qed.

Lemma runs_log {B} e (k : Rec → unit → MW B) w Q :
  runs (λ r, k r tt) (set_w_log (λ l, l ++ [e]) w) Q → runs (λ r, bind (log e) (k r)) w Q.
Proof. by apply runs_step. Qed.

Lemma runs_node {B} c n (k : Rec → NodeSlot V → MW B) w Q :
  get_node w c = Some n → runs (λ r, k r n) w Q → runs (λ r, bind (node c) (k r)) w Q.
Proof. intros Hn. apply runs_step. unfold node, bind, gets, expect. by rewrite Hn. Qed.

Lemma runs_with_slot {A B} c n (g : NodeSlot V → NodeSlot V * A) (k : Rec → A → MW B) w Q :
  get_node w c = Some n →
  runs (λ r, k r (g n).2) (upd_node c (λ _, (g n).1) w) Q →
  runs (λ r, bind (with_slot c g) (k r)) w Q.
Proof.
  intros Hn. apply runs_step. unfold with_slot, node, bind, gets, expect. by rewrite Hn.
Qed.

Lemma runs_upd {B} c n (g : NodeSlot V → NodeSlot V) (k : Rec → unit → MW B) w Q :
  get_node w c = Some n →
  runs (λ r, k r tt) (upd_node c g w) Q → runs (λ r, bind (upd c g) (k r)) w Q.
Proof. intros Hn. apply runs_step. unfold upd, node, bind, gets, expect. by rewrite Hn. Qed.

Lemma runs_upd_last c n (g : NodeSlot V → NodeSlot V) w (Q : unit → World V → Prop) :
  get_node w c = Some n → Q tt (upd_node c g w) → runs (λ _, upd c g) w Q.
Proof.
  intros Hn HQ. apply (runs_det _ _ tt (upd_node c g w)); [|done]. intros _.
  unfold upd, node, bind, gets, expect. by rewrite Hn.
Qed.

(** A re-entrant call runs the body of the operation it names. *)
Lemma runs_call (t : Task V) w (Q : res t → World V → Prop) :
  runs (λ r, exec_task uc r t) w Q → runs (λ r, r t) w Q.
Proof.
  intros (f0 & a & w' & HQ & Hm). exists (S f0), a, w'. split; [done|].
  intros [|f] Hf; [lia|]. apply Hm. lia.
Qed.

Lemma runs_exec (t : Task V) w (Q : res t → World V → Prop) :
  runs (λ r, r t) w Q → ∃ f0 a w', Q a w' ∧ ∀ f, f0 ≤ f → exec uc f t w = Ret a w'.
Proof. done. Qed.

Lemma runs_catch {A} (m : Rec → MW A) w (Q : A + Payload → World V → Prop) :
  runs m w (λ a w', Q (inl a) w') → runs (λ r, catch_unwind (m r)) w Q.
Proof.
  intros (f0 & a & w' & HQ & Hm). exists f0, (inl a), w'. split; [done|].
  intros f Hf. unfold catch_unwind. by rewrite Hm.
Qed.

Lemma runs_guard {A} (m : Rec → MW A) (g : World V → World V) w (Q : A → World V → Prop) :
  runs m w (λ a w', Q a (g w')) → runs (λ r, with_guard (m r) g) w Q.
Proof.
  intros (f0 & a & w' & HQ & Hm). exists f0, a, (g w'). split; [done|].
  intros f Hf. unfold with_guard. by rewrite Hm.
Qed.

Lemma runs_when (b : bool) (m : Rec → MW unit) w Q :
  (b = true → runs m w Q) → (b = false → Q tt w) → runs (λ r, when b (m r)) w Q.
Proof. destruct b; simpl; intros H1 H2; [by apply H1|]. apply runs_ret. by apply H2. Qed.

(** A loop, by an invariant on the part of the list already done. *)
Lemma runs_for_each {A} (l : list A) (f : Rec → A → MW unit) (I : list A → World V → Prop) w :
  I [] w →
  (∀ l1 x l2 w, l = l1 ++ x :: l2 → I l1 w → runs (λ r, f r x) w (λ _ w', I (l1 ++ [x]) w')) →
  runs (λ r, for_each l (f r)) w (λ _ w', I l w').
Proof.
  intros H0 Hstep. revert H0. generalize (app_nil_l l).
  cut (∀ l2 l1 w, l1 ++ l2 = l → I l1 w → runs (λ r, for_each l2 (f r)) w (λ _ w', I l w')).
  { intros H He. by apply H. }
  intros l2. induction l2 as [|x l2 IH]; intros l1 w' Hl HI; simpl.
  - rewrite app_nil_r in Hl. subst. by apply runs_ret.
  - apply (runs_bind (λ r, f r x)).
    eapply runs_conseq; [apply (Hstep l1 x l2 w'); [done|exact HI]|].
    intros u w'' HI'. apply (IH (l1 ++ [x])); [|done]. by rewrite <-(assoc_L (++)).
Qed.
End Runs.
