(* ===== verification/EngineLogic.v ===== *)
(** * A program logic for the engine

    [EngineBase] and [EngineLogic] list what a world invariant [I] and a reachability
    relation [R] must satisfy for the primitive effects of the engine: slot
    updates that respect [slot_rel], frame updates, the ghost log, the
    allocation of a node, the emission of one message, and the six scoped
    operations.  [exec_ok] then gives [ok I R] for every engine call, whatever
    user code does.  The invariants of the development are instances. *)

From stdpp Require Import base option strings numbers gmap list.
From S2P Require Import Prelude Protocol Dispatcher Versioning Arena NodeState Receive NodeInv.
From S2P Require Import Rewire RewireFacts Engine.

(** ** Primitive slot updates *)

Section SlotRel.
Context {V : Type}.
Implicit Types n : NodeSlot V.

(** What every slot update outside the scoped operations respects. *)
Record slot_rel n n' : Prop := {
  sr_wf : slot_vectors_wf n → slot_vectors_wf n';
  sr_terminal : v_terminal (n_value n') = v_terminal (n_value n);
  sr_inside : inside_run_wave (n_wave n') = true → inside_run_wave (n_wave n) = true;
  sr_mutation : in_dep_mutation (n_wave n') = true → in_dep_mutation (n_wave n) = true
}.

#[export] Instance slot_rel_po : PreOrder slot_rel.
Proof.
  split; [by split|]. intros n1 n2 n3 [] []. split; [tauto|congruence|tauto|tauto].
Qed.

(** Updates of the parts [slot_rel] does not look at. *)
Lemma slot_rel_aux g n : slot_rel n (on_aux g n).
Proof. by split. Qed.
Lemma slot_rel_call g n : slot_rel n (set_n_call g n).
Proof. by split. Qed.
Lemma slot_rel_run g n : slot_rel n (set_n_run g n).
Proof. by split. Qed.
Lemma slot_rel_config g n : slot_rel n (set_n_config g n).
Proof. by split. Qed.

Lemma slot_rel_wave g n :
  (inside_run_wave (g (n_wave n)) = true → inside_run_wave (n_wave n) = true) →
  (in_dep_mutation (g (n_wave n)) = true → in_dep_mutation (n_wave n) = true) →
  slot_rel n (on_wave g n).
Proof. by split. Qed.

Lemma slot_rel_value g n :
  v_terminal (g (n_value n)) = v_terminal (n_value n) → slot_rel n (on_value g n).
Proof. by split. Qed.

Lemma slot_rel_state g n :
  (∀ k s, vectors_wf k s → vectors_wf k (g s)) → slot_rel n (on_state g n).
Proof. intros Hg. split; [|done..]. intros [Hw Hh]. split; [by apply Hg|done]. Qed.

Lemma slot_rel_edges g n :
  e_value (g (n_edges n)) = e_value (n_edges n) → e_wave (g (n_edges n)) = e_wave (n_edges n) →
  e_state (g (n_edges n)) = e_state (n_edges n) →
  length (e_restored_activation_handshake (g (n_edges n)))
  = length (e_restored_activation_handshake (n_edges n)) →
  slot_rel n (set_n_edges g n).
Proof.
  intros Hv Hw Hs Hl. split; unfold slot_vectors_wf, n_state, n_value, n_wave, n_deps; simpl;
    by rewrite ?Hv, ?Hw, ?Hs, ?Hl.
Qed.

Lemma slot_rel_trans n1 n2 n3 : slot_rel n1 n2 → slot_rel n2 n3 → slot_rel n1 n3.
Proof. intros. by etrans. Qed.

End SlotRel.

(** [slot_rel] of a slot update by the shape of the update. *)
Ltac slot_rel_step :=
  match goal with
  | |- slot_rel ?n ?n => reflexivity
  | |- slot_rel _ (match ?x with _ => _ end) => destruct x
  | |- slot_rel _ (fst (match ?x with _ => _ end)) => destruct x
  | |- slot_rel _ (fst (_, _)) => cbn [fst]
  | |- slot_rel _ (on_aux _ _) => eapply slot_rel_trans; [|apply slot_rel_aux]
  | |- slot_rel _ (set_n_call _ _) => eapply slot_rel_trans; [|apply slot_rel_call]
  | |- slot_rel _ (set_n_run _ _) => eapply slot_rel_trans; [|apply slot_rel_run]
  | |- slot_rel _ (set_n_config _ _) => eapply slot_rel_trans; [|apply slot_rel_config]
  | |- slot_rel _ (on_wave _ _) => eapply slot_rel_trans; [|apply slot_rel_wave; simpl; tauto || done]
  | |- slot_rel _ (on_value _ _) => eapply slot_rel_trans; [|apply slot_rel_value; done]
  | |- slot_rel _ (set_n_edges _ _) => eapply slot_rel_trans; [|apply slot_rel_edges;
      first [reflexivity | simpl; by rewrite ?length_insert]]
  | |- slot_rel _ (on_state _ _) => eapply slot_rel_trans; [|apply slot_rel_state;
      intros ?? []; by split]
  end.
Ltac slot_rel_auto := repeat slot_rel_step.

(** The slot updates with a name. *)
Section SlotOps.
Context {V : Type}.
Implicit Types n : NodeSlot V.

Ltac solve_vectors :=
  intros []; split; simpl;
  rewrite ?length_insert, ?length_alter, ?length_fill_n, ?length_replicate, ?length_zip_with; lia.

Lemma passthrough_take_rel n : slot_rel n (passthrough_take n).1.
Proof.
  unfold passthrough_take. cbn [fst]. apply slot_rel_state. intros k s. case_split; solve_vectors.
Qed.

Lemma decide_maybe_run_rel n : slot_rel n (decide_maybe_run n).1.
Proof. unfold decide_maybe_run. slot_rel_auto. Qed.

Lemma set_maybe_run_action_rel b n a : slot_rel n (set_maybe_run_action b n a).1.
Proof.
  unfold set_maybe_run_action. destruct b; [done|].
  pose proof (decide_maybe_run_rel n). by destruct (decide_maybe_run n).
Qed.

Lemma settle_dep_action_rel b i n : slot_rel n (settle_dep_action b i n).1.
Proof.
  unfold settle_dep_action, settle_dep. etrans.
  { apply (slot_rel_state (settle_dirty i)). intros. by apply settle_dirty_wf. }
  set (n1 := on_state (settle_dirty i) n).
  set (n2 := if negb _ && _ && _ && _ then _ else n1).
  etrans; [instantiate (1 := n2); subst n2; slot_rel_auto|].
  destruct (bool_decide _); [|done].
  pose proof (set_maybe_run_action_rel b n2 action_default).
  by destruct (set_maybe_run_action b n2 action_default).
Qed.

Lemma receive_invalidate_rel d i n : slot_rel n (receive_invalidate d i n).1.
Proof.
  unfold receive_invalidate, record_wave_sentinel. cbn [fst].
  match goal with |- context [push_wave_item d i WSentinel ?x] => set (s0 := x) end.
  match goal with |- context [settle_dirty i ?x] => set (s2 := x) end.
  assert (∀ k, vectors_wf k (n_state n) → vectors_wf k (settle_dirty i s2)) as Hs.
  { intros k Hw. apply settle_dirty_wf.
    assert (vectors_wf k s0) as Hw0 by (revert Hw; subst s0; solve_vectors).
    apply (push_wave_item_wf _ d i WSentinel) in Hw0. subst s2.
    case_split; [by apply clear_wave_projection_wf|done]. }
  clearbody s2. assert (slot_rel n (on_state (λ _, settle_dirty i s2) n)) as Hr.
  { split; [|done..]. intros [Hw Hh]. split; [by apply Hs|done]. }
  etrans; [exact Hr|]. slot_rel_auto.
Qed.

Lemma receive_dirty_rel i n : slot_rel n (receive_dirty i n).1.
Proof.
  assert (slot_rel n (on_state (mark_dep_dirty i) n)) as Hr
    by (apply slot_rel_state; intros; by apply mark_dep_dirty_wf).
  unfold receive_dirty.
  destruct (ds_dirty (n_state n) !! i) as [[]|]; [done|..];
    (etrans; [exact Hr|]; unfold mark_dep_dirty; slot_rel_auto).
Qed.

Lemma receive_data_rel b d i v n : slot_rel n (receive_data b d i v n).1.
Proof.
  assert (slot_rel n (settle_dep_action b i (on_state (wave_data_cells d i v) n)).1) as Hlive.
  { etrans; [|apply settle_dep_action_rel]. apply slot_rel_state. intros.
    by apply wave_data_cells_wf. }
  unfold receive_data.
  destruct (e_restored_activation_handshake (n_edges n) !! i) as [[]|]; [|exact Hlive..].
  apply (slot_rel_state (handshake_data i v)). intros. by apply handshake_data_wf.
Qed.

Lemma receive_resolved_rel b d i n : slot_rel n (receive_resolved b d i n).1.
Proof.
  unfold receive_resolved. etrans; [|apply settle_dep_action_rel].
  apply (slot_rel_state (resolved_cells d i)). intros. by apply resolved_cells_wf.
Qed.

Lemma receive_terminal_rel b i t n : slot_rel n (receive_terminal b i t n).1.
Proof.
  unfold receive_terminal. set (n1 := on_state _ n).
  assert (slot_rel n n1) as Hr.
  { apply slot_rel_state. intros k s Hs. apply settle_dirty_wf. revert Hs. solve_vectors. }
  etrans; [exact Hr|]. clearbody n1.
  pose proof (set_maybe_run_action_rel b n1 action_default) as Hset.
  destruct t; repeat case_match; simplify_eq/=; try done;
    match goal with H : set_maybe_run_action _ _ _ = _ |- _ => by rewrite H in Hset end.
Qed.

Lemma collect_receive_rel b d i m n : slot_rel n (collect_receive b d i m n).1.
Proof.
  unfold collect_receive. destruct (v_terminal (n_value n)); [done|].
  assert (slot_rel n (receive_live b d i m n).1) as H.
  { destruct m; cbn [receive_live]; first
      [ reflexivity | apply receive_invalidate_rel | apply receive_dirty_rel
      | apply receive_data_rel | apply receive_resolved_rel | apply receive_terminal_rel ]. }
  by destruct (receive_live b d i m n).
Qed.

Lemma end_run_rel keep n : slot_rel n (end_run keep n).
Proof.
  unfold end_run. set (n1 := on_state _ n).
  assert (slot_rel n n1) as Hr by (apply slot_rel_state; intros k s; solve_vectors).
  etrans; [exact Hr|]. clearbody n1. slot_rel_auto.
Qed.

Lemma arm_pull_run_rel n : slot_rel n (arm_pull_run n).
Proof. unfold arm_pull_run. slot_rel_auto. Qed.

Lemma deactivate_slot_rel n : slot_rel n (deactivate_slot n).1.
Proof.
  unfold deactivate_slot. cbn [fst].
  split; [|by destruct (_ || _)..].
  intros [Hw Hh]. split.
  - match goal with |- vectors_wf _ ?s => assert (s = DepState_new (length (n_deps n))) as -> end.
    { destruct (_ || _); apply cleared_state; exact Hw. }
    destruct (_ || _); split; simpl; by rewrite length_replicate.
  - destruct (_ || _); simpl; by rewrite length_replicate.
Qed.

Lemma reset_wave_flags_rel n : slot_rel n (reset_wave_flags n).
Proof.
  unfold reset_wave_flags.
  etrans; [|apply (slot_rel_state (reset_cells (length (n_deps n)))); intros; by apply reset_cells_wf].
  apply slot_rel_wave; simpl; tauto || done.
Qed.

Lemma rebuild_slot_rel new_deps n2o boxes n :
  length n2o = length new_deps → slot_rel n (rebuild_slot new_deps n2o boxes n).
Proof.
  intros Hl. split; [|done..]. intros _. split.
  - split; unfold rebuild_slot, n_state; simpl; by rewrite length_fmap.
  - unfold rebuild_slot. simpl. apply length_replicate.
Qed.
End SlotOps.

(** The plan of a rewire has one entry per new dep. *)
Lemma length_match_deps old_deps new_deps :
  length (match_deps old_deps new_deps).2 = length new_deps.
Proof.
  unfold match_deps, match_quadratic, match_hashed. case_bool_decide.
  - assert (∀ l acc, length (foldl (match_step new_deps) acc l).2 = length acc.2) as Hl.
    { intros l. induction l as [|x l IH]; intros [o2n n2o]; simpl; [done|]. rewrite IH.
      unfold match_step. destruct (position _ _); simpl; [by rewrite length_insert|done]. }
    rewrite Hl. apply length_replicate.
  - assert (∀ l acc, length (foldl hash_step acc l).2.2 = length acc.2.2) as Hl.
    { intros l. induction l as [|x l IH]; intros [m [o2n n2o]]; simpl; [done|]. rewrite IH.
      unfold hash_step. destruct (List.find _ _) as [[]|]; simpl; [by rewrite length_insert|done]. }
    rewrite Hl. apply length_replicate.
Qed.

Lemma length_rewire_plan old_deps new_deps :
  length (rewire_plan old_deps new_deps).2 = length new_deps.
Proof.
  unfold rewire_plan. destruct (_ && _); [apply length_replicate|apply length_match_deps].
Qed.

(** ** The interface *)

(** Arenas that differ only in wave stamps, queues and the draining flag. *)
Record same_arena {V} (g g' : Graph V) : Prop := {
  sa_slots : g_slots g' = g_slots g;
  sa_generations : g_generations g' = g_generations g;
  sa_free : g_free g' = g_free g;
  sa_pins : g_pins g' = g_pins g;
  sa_touched : length (g_touched_waves g') = length (g_touched_waves g)
}.

(** A frame update leaves nodes, log, depth and the scope flags alone. *)
Record frame_rel {V} (w w' : World V) : Prop := {
  fr_graphs : ∀ g, option_Forall2 same_arena (w_graphs w !! g) (w_graphs w' !! g);
  fr_log : w_log w' = w_log w;
  fr_depth : w_delivery_depth w' = w_delivery_depth w;
  fr_wave : is_some (w_wave w') = is_some (w_wave w);
  fr_batch : is_some (w_active_batch w') = is_some (w_active_batch w);
  fr_draining : ∀ g, draining_of g w' = true → draining_of g w = true
}.

Lemma same_arena_get {V} (g g' : Graph V) k : same_arena g g' → Arena.get g' k = Arena.get g k.
Proof.
  intros []. unfold Arena.get, Arena.is_live_key, Arena.is_live. by rewrite sa_slots0, sa_generations0.
Qed.

Lemma frame_get_node {V} (w w' : World V) c : frame_rel w w' → get_node w' c = get_node w c.
Proof.
  intros []. unfold get_node. specialize (fr_graphs0 (c_graph c)).
  destruct fr_graphs0 as [g g' Hg|]; [|done]. simpl. by apply same_arena_get.
Qed.

Definition terminal_msg {V} (m : Msg V) : bool :=
  match m with Complete | Error _ => true | _ => false end.

(** The log entries that are not the emission of a terminal message. *)
Definition quiet_event {V} (e : Event V) : bool :=
  match e with EvEmit _ m => negb (terminal_msg m) | _ => true end.

(** A slot as node construction makes it. *)
Record fresh_slot {V} (n : NodeSlot V) : Prop := {
  fs_wf : slot_vectors_wf n;
  fs_terminal : v_terminal (n_value n) = false;
  fs_inside : inside_run_wave (n_wave n) = false;
  fs_mutation : in_dep_mutation (n_wave n) = false
}.

Class EngineBase {V} (I : World V → Prop) (R : World V → World V → Prop) := {
  el_po :: PreOrder R;
  el_slot c f w :
    I w → (∀ n, get_node w c = Some n → slot_rel n (f n)) → I (upd_node c f w) ∧ R w (upd_node c f w);
  el_frame w w' : I w → frame_rel w w' → I w' ∧ R w w';
  el_log e w : I w → quiet_event e = true →
    I (set_w_log (λ l, l ++ [e]) w) ∧ R w (set_w_log (λ l, l ++ [e]) w)
}.

(** The node allocation, the commit of one message, and the scoped operations. *)
Class EngineLogic {V} (I : World V → Prop) (R : World V → World V → Prop) `{!EngineBase I R} := {
  el_alloc g n : fresh_slot n → ok I R (alloc_slot g n);
  el_commit c m nv : ok I R (commit_down c m nv);
  el_owner {A} (rec : ∀ t, M (World V) (res t)) owner (body on_error : M (World V) A) :
    (∀ t, ok I R (rec t)) → ok I R body → ok I R on_error →
    ok I R (with_wave_owner rec owner body on_error);
  el_delivery (rec : ∀ t, M (World V) (res t)) (body : M (World V) unit) :
    (∀ t, ok I R (rec t)) → ok I R body → ok I R (with_delivery_scope rec body);
  el_invoke c (body : M (World V) unit) :
    ok I R body →
    ok I R (bind (upd c begin_run) (λ _, bind (wave_set_blamed c) (λ _,
      with_guard body (upd_node c (on_wave (set_inside_run_wave (λ _, false)))))));
  el_mutation c (body : M (World V) unit) : ok I R body → ok I R (in_mutation c body);
  el_drain g (body : M (World V) (option Payload)) : ok I R body → ok I R (draining_scope g body);
  el_batch (rec : ∀ t, M (World V) (res t)) (body : M (World V) unit) :
    (∀ t, ok I R (rec t)) → (∀ l k, ok I R (commit rec l k)) →
    (∀ l k, ok I R (rollback rec l k)) → ok I R body → ok I R (batch rec body)
}.

(** ** Frame updates *)

Section Frames.
Context {V : Type}.
Implicit Types w : World V.

Lemma same_arena_refl (g : Graph V) : same_arena g g.
Proof. by split. Qed.

Lemma graphs_refl (m : gmap nat (Graph V)) g : option_Forall2 same_arena (m !! g) (m !! g).
Proof. destruct (m !! g); constructor. apply same_arena_refl. Qed.

(** An update outside the arenas, the log, the depth and the scope flags. *)
Lemma frame_simple w w' :
  w_graphs w' = w_graphs w → w_log w' = w_log w → w_delivery_depth w' = w_delivery_depth w →
  is_some (w_wave w') = is_some (w_wave w) →
  is_some (w_active_batch w') = is_some (w_active_batch w) → frame_rel w w'.
Proof.
  intros Hg Hl Hd Hw Hb. split; try done.
  - intros g. rewrite Hg. apply graphs_refl.
  - intros g. unfold draining_of. by rewrite Hg.
Qed.

Lemma frame_queue g q w : frame_rel w (set_w_graphs (alter (set_queue q) g) w).
Proof.
  split; try done; simpl.
  - intros g'. rewrite lookup_alter. case_decide; [|apply graphs_refl].
    subst. destruct (w_graphs w !! g'); constructor. by split.
  - intros g'. unfold draining_of. simpl. rewrite lookup_alter. case_decide; [|done].
    subst. by destruct (w_graphs w !! g').
Qed.

Lemma frame_pin_once c w : frame_rel w (pin_once c w).
Proof.
  unfold pin_once. destruct (w_wave w) as [scope|] eqn:Hw; [|by apply frame_simple].
  destruct (w_graphs w !! c_graph c) as [g|] eqn:Hg; [|by apply frame_simple].
  destruct (negb _); [by apply frame_simple|]. case_bool_decide; [by apply frame_simple|].
  split; try done; simpl.
  - intros g'. rewrite lookup_alter. case_decide; [|apply graphs_refl].
    subst. rewrite Hg. constructor. split; try done. simpl. by rewrite length_insert.
  - by rewrite Hw.
  - intros g'. unfold draining_of. simpl. rewrite lookup_alter. case_decide; [|done].
    subst. by rewrite Hg.
Qed.

Lemma frame_scope f w : frame_rel w (set_w_wave (fmap f) w).
Proof. apply frame_simple; try done. simpl. by destruct (w_wave w). Qed.

Lemma frame_batch f w : frame_rel w (set_w_active_batch (fmap f) w).
Proof. apply frame_simple; try done. simpl. by destruct (w_active_batch w). Qed.
End Frames.

(** ** Every engine call *)

Section Logic.
Context {V : Type} `{!CanonicalData V} (uc : UserCode V).
Context (I : World V → Prop) (R : World V → World V → Prop) `{!EngineBase I R}.
Abbreviation OK m := (ok I R m).

(** [slot_rel] also of the named updates. *)
Ltac slot_auto :=
  repeat first
    [ slot_rel_step
    | eapply slot_rel_trans; [|apply arm_pull_run_rel]
    | eapply slot_rel_trans; [|apply end_run_rel]
    | apply passthrough_take_rel | apply decide_maybe_run_rel
    | apply collect_receive_rel | apply deactivate_slot_rel ].

Lemma ok_node c : OK (node c).
Proof. unfold node. repeat ok_step. Qed.

(** The live slot [node] returned is the one the next update sees. *)
Lemma post_node c w (Q : NodeSlot V → World V → Prop) (E : Payload → World V → Prop) :
  (∀ n, get_node w c = Some n → Q n w) → E (PanicStr stale_msg) w → post (node c) w Q E.
Proof.
  intros HQ HE. unfold node, post, bind, gets, expect.
  destruct (get_node w c); simpl; [by apply HQ|done].
Qed.

Lemma ok_slot_update c f : (∀ n, slot_rel n (f n)) → OK (modify (upd_node c f)).
Proof. intros Hf. apply ok_modify. intros w Hw. apply el_slot; [done|]. intros. apply Hf. Qed.

Lemma ok_upd c f : (∀ n, slot_rel n (f n)) → OK (upd c f).
Proof. intros Hf. unfold upd. repeat ok_step; [apply ok_node|by apply ok_slot_update]. Qed.

Lemma ok_with_slot {A} c (f : NodeSlot V → NodeSlot V * A) :
  (∀ n, slot_rel n (f n).1) → OK (with_slot c f).
Proof.
  intros Hf w Hw. unfold with_slot. apply post_bind, post_node; [|done]. intros n Hn.
  apply post_bind. unfold modify, post at 1, ret. simpl. apply el_slot; [done|]. intros n' Hn'.
  rewrite Hn in Hn'. simplify_eq. apply Hf.
Qed.

Lemma ok_frame f : (∀ w, frame_rel w (f w)) → OK (modify f).
Proof. intros Hf. apply ok_modify. intros w Hw. by apply el_frame. Qed.

Lemma ok_log e : quiet_event e = true → OK (log e).
Proof. intros He. apply ok_modify. intros w Hw. by apply el_log. Qed.

(** [ok] of a frame update, by the shape of the update. *)
Ltac frame_solve :=
  apply ok_frame; intros ?;
  first [ apply frame_queue | apply frame_pin_once | apply frame_scope | apply frame_batch
        | by apply frame_simple ].

Lemma ok_upd_queue g q : OK (upd_graph g (set_queue q)).
Proof. frame_solve. Qed.
Lemma ok_set_deferred f : OK (modify (set_w_deferred_actions f)).
Proof. frame_solve. Qed.
Lemma ok_set_disp f : OK (modify (set_w_disp f)).
Proof. frame_solve. Qed.
Lemma ok_set_tokens f : OK (modify (set_w_tokens f)).
Proof. frame_solve. Qed.
Lemma ok_set_boxes f : OK (modify (set_w_boxes f)).
Proof. frame_solve. Qed.
Lemma ok_wave_register c : OK (wave_register c).
Proof. frame_solve. Qed.
Lemma ok_wave_set_blamed c : OK (wave_set_blamed c).
Proof. frame_solve. Qed.
Lemma ok_wave_register_root c : OK (wave_register_boundary_root c).
Proof. frame_solve. Qed.
Lemma ok_batch_update f : OK (modify (set_w_active_batch (fmap f))).
Proof. frame_solve. Qed.
Lemma ok_reset_touched c : OK (reset_touched c).
Proof. apply ok_slot_update, reset_wave_flags_rel. Qed.
Lemma ok_end_pull c : OK (modify (end_pull c)).
Proof. apply ok_slot_update. intros n. slot_rel_auto. Qed.

#[local] Hint Resolve ok_node ok_upd_queue ok_set_deferred ok_set_disp ok_set_tokens ok_set_boxes
  ok_wave_register ok_wave_set_blamed ok_wave_register_root ok_batch_update ok_reset_touched : rx_ok.

(** Structural steps, slot updates, logs; and the calls back into the engine. *)
Ltac eng_step :=
  lazymatch goal with
  | |- ok _ _ (upd _ _) => apply ok_upd; intros ?; slot_auto
  | |- ok _ _ (with_slot _ _) => apply ok_with_slot; intros ?; slot_auto
  | |- ok _ _ (log _) => apply ok_log; try reflexivity
  | |- ok _ _ (?r _) => first [is_var r; match goal with H : _ |- _ => apply H end | ok_step]
  | |- _ => ok_step
  end.
Ltac eng_auto := repeat first [solve [auto with rx_ok nocore] | eng_step].

Lemma ok_alloc_box v : OK (alloc_box v).
Proof. unfold alloc_box. eng_auto. Qed.
#[local] Hint Resolve ok_alloc_box : rx_ok.

Lemma ok_alloc_boxes n : OK (alloc_boxes n).
Proof. induction n; cbn [alloc_boxes]; eng_auto. Qed.
#[local] Hint Resolve ok_alloc_boxes : rx_ok.

Lemma ok_set_box b v : OK (set_box b v).
Proof. unfold set_box. eng_auto. Qed.
#[local] Hint Resolve ok_set_box : rx_ok.

Lemma ok_new_token b : OK (new_token b).
Proof. unfold new_token. eng_auto. Qed.
#[local] Hint Resolve ok_new_token : rx_ok.

Lemma ok_token_set t : OK (token_set t).
Proof. unfold token_set. eng_auto. Qed.
#[local] Hint Resolve ok_token_set : rx_ok.

Lemma ok_is_live c : OK (is_live c).
Proof. unfold is_live. eng_auto. Qed.
#[local] Hint Resolve ok_is_live : rx_ok.

Lemma ok_register_boundary_root c : OK (register_boundary_root c).
Proof. unfold register_boundary_root. eng_auto. Qed.
#[local] Hint Resolve ok_register_boundary_root : rx_ok.

Lemma ok_defer_to_batch c w : OK (defer_to_batch c w).
Proof. unfold defer_to_batch. eng_auto. Qed.
#[local] Hint Resolve ok_defer_to_batch : rx_ok.

Lemma ok_defer_boundary c t : OK (defer_boundary c t).
Proof. unfold defer_boundary. eng_auto. Qed.
#[local] Hint Resolve ok_defer_boundary : rx_ok.

Lemma ok_clear_deferred_boundary_root g : OK (clear_deferred_boundary_root g).
Proof. unfold clear_deferred_boundary_root. eng_auto. Qed.
#[local] Hint Resolve ok_clear_deferred_boundary_root : rx_ok.

Lemma ok_clear_all_deferred_boundary_root g : OK (clear_all_deferred_boundary_root g).
Proof. unfold clear_all_deferred_boundary_root. eng_auto. Qed.
#[local] Hint Resolve ok_clear_all_deferred_boundary_root : rx_ok.

Lemma ok_clear_all_deferred_boundaries l k : OK (clear_all_deferred_boundaries l k).
Proof. unfold clear_all_deferred_boundaries. eng_auto. Qed.
#[local] Hint Resolve ok_clear_all_deferred_boundaries : rx_ok.

Lemma ok_clear_deferred_delivery_actions : OK (clear_deferred_delivery_actions).
Proof. unfold clear_deferred_delivery_actions. eng_auto. Qed.
#[local] Hint Resolve ok_clear_deferred_delivery_actions : rx_ok.

Lemma ok_defer_delivery_action_until_boundary c k : OK (defer_delivery_action_until_boundary c k).
Proof. unfold defer_delivery_action_until_boundary. eng_auto. Qed.
#[local] Hint Resolve ok_defer_delivery_action_until_boundary : rx_ok.

Lemma ok_is_async_node c : OK (is_async_node c).
Proof. unfold is_async_node. eng_auto. Qed.
#[local] Hint Resolve ok_is_async_node : rx_ok.

Lemma ok_next_version_for n m : OK (next_version_for n m).
Proof. unfold next_version_for. eng_auto. Qed.
#[local] Hint Resolve ok_next_version_for : rx_ok.

Lemma ok_assert_versions n w : OK (assert_versions n w).
Proof. unfold assert_versions. eng_auto. Qed.
#[local] Hint Resolve ok_assert_versions : rx_ok.

Lemma ok_buffer_on_pause c w : OK (buffer_on_pause c w).
Proof. unfold buffer_on_pause. eng_auto. Qed.
#[local] Hint Resolve ok_buffer_on_pause : rx_ok.

Lemma ok_subscribe_begin c s k : OK (subscribe_begin c s k).
Proof. unfold subscribe_begin. eng_auto. Qed.
#[local] Hint Resolve ok_subscribe_begin : rx_ok.

Lemma ok_pause_acquire c l : OK (pause_acquire c l).
Proof. unfold pause_acquire. eng_auto. Qed.
#[local] Hint Resolve ok_pause_acquire : rx_ok.

Lemma ok_swap_fn_preserving_pool c f : OK (swap_fn_preserving_pool c f).
Proof. unfold swap_fn_preserving_pool. eng_auto. Qed.
#[local] Hint Resolve ok_swap_fn_preserving_pool : rx_ok.

Lemma ok_reroute_boxes c l : OK (reroute_boxes c l).
Proof. unfold reroute_boxes. eng_auto. Qed.
#[local] Hint Resolve ok_reroute_boxes : rx_ok.

Lemma ok_notify_topology_deps_changed c l k : OK (notify_topology_deps_changed c l k).
Proof. unfold notify_topology_deps_changed. eng_auto. Qed.
#[local] Hint Resolve ok_notify_topology_deps_changed : rx_ok.

Lemma ok_check_reachable d c : OK (check_reachable d c).
Proof. unfold check_reachable. eng_auto. Qed.
#[local] Hint Resolve ok_check_reachable : rx_ok.

Lemma ok_check_added_dep c d : OK (check_added_dep c d).
Proof. unfold check_added_dep. eng_auto. Qed.
#[local] Hint Resolve ok_check_added_dep : rx_ok.

Lemma ok_check_rewire c l b : OK (check_rewire c l b).
Proof. unfold check_rewire. eng_auto. Qed.
#[local] Hint Resolve ok_check_rewire : rx_ok.

Lemma ok_request_token : OK (request_token).
Proof. unfold request_token. eng_auto. Qed.
#[local] Hint Resolve ok_request_token : rx_ok.

Lemma ok_request_rewire_next c q : OK (request_rewire_next c q).
Proof. unfold request_rewire_next. eng_auto. Qed.
#[local] Hint Resolve ok_request_rewire_next : rx_ok.

Lemma ok_request_up_next c w d : OK (request_up_next c w d).
Proof. unfold request_up_next. eng_auto. Qed.
#[local] Hint Resolve ok_request_up_next : rx_ok.

Lemma ok_request_down_next c w : OK (request_down_next c w).
Proof. unfold request_down_next. eng_auto. Qed.
#[local] Hint Resolve ok_request_down_next : rx_ok.

Lemma ok_node_paused c : OK (node_paused c).
Proof. unfold node_paused. eng_auto. Qed.
#[local] Hint Resolve ok_node_paused : rx_ok.

Lemma ok_task_target_live g c : OK (task_target_live g c).
Proof. unfold task_target_live. eng_auto. Qed.
#[local] Hint Resolve ok_task_target_live : rx_ok.

Lemma ok_pop_boundary g : OK (pop_boundary g).
Proof. unfold pop_boundary. eng_auto. Qed.
#[local] Hint Resolve ok_pop_boundary : rx_ok.

Lemma ok_take_late_boundary_roots : OK (take_late_boundary_roots).
Proof. unfold take_late_boundary_roots. eng_auto. Qed.
#[local] Hint Resolve ok_take_late_boundary_roots : rx_ok.

Lemma ok_take_for_finish : OK (take_for_finish).
Proof. unfold take_for_finish. eng_auto. Qed.
#[local] Hint Resolve ok_take_for_finish : rx_ok.

Lemma ok_clear_boundary_for_roots l k : OK (clear_boundary_for_roots l k).
Proof. unfold clear_boundary_for_roots. eng_auto. Qed.
#[local] Hint Resolve ok_clear_boundary_for_roots : rx_ok.

Lemma ok_batch_rollback : OK (batch_rollback).
Proof. unfold batch_rollback. eng_auto. Qed.
#[local] Hint Resolve ok_batch_rollback : rx_ok.

(** Operations that call back into the engine. *)
Section Ops.
Variable rec : ∀ t : Task V, M (World V) (res t).
Hypothesis Hrec : ∀ t, OK (rec t).

Ltac rec_step :=
  match goal with
  | |- ok _ _ (rec ?t) => exact (Hrec t)
  | _ => eng_step
  end.
#[local] Hint Extern 0 (terminal_msg _ = false) => reflexivity : rx_ok.
Ltac ops_auto := repeat first [solve [auto with rx_ok nocore] | rec_step].

Lemma ok_drain_roots l k : OK (drain_roots rec l k).
Proof. unfold drain_roots. ops_auto. Qed.
#[local] Hint Resolve ok_drain_roots : rx_ok.

Lemma ok_recover_wave {A} owner scope p (e : M (World V) A) :
  OK e → OK (recover_wave rec owner scope p e).
Proof. intros. unfold recover_wave. ops_auto. Qed.

Context `{!EngineLogic I R}.

Lemma ok_commit_down c m nv : OK (commit_down c m nv).
Proof. apply el_commit. Qed.
#[local] Hint Resolve ok_commit_down : rx_ok.

Lemma ok_owner {A} c (m e : M (World V) A) : OK m → OK e → OK (with_wave_owner rec c m e).
Proof. by apply el_owner. Qed.

Lemma ok_delivery m : OK m → OK (with_delivery_scope rec m).
Proof. by apply el_delivery. Qed.

Lemma ok_pull_scope {A} c (m : M (World V) A) : OK m → OK (with_guard m (end_pull c)).
Proof.
  intros Hm. apply ok_guard; [exact _|done|]. intros w Hw. apply el_slot; [done|].
  intros n _. slot_auto.
Qed.

Lemma ok_frame_scope {A} (m : M (World V) A) f :
  (∀ w, frame_rel w (f w)) → OK m → OK (with_guard m f).
Proof. intros Hf Hm. apply ok_guard; [exact _|done|]. intros w Hw. by apply el_frame. Qed.

Ltac scope_auto :=
  repeat (ops_auto; try first [apply ok_owner | apply ok_pull_scope
    | apply ok_frame_scope; [intros ?; by apply frame_simple|] | apply ok_delivery | apply el_mutation | apply el_drain]).

Lemma ok_deliver_sink s m : OK (deliver_sink uc rec s m).
Proof. unfold deliver_sink. ops_auto. Qed.
#[local] Hint Resolve ok_deliver_sink : rx_ok.

Lemma ok_deliver_subscriber_snapshot l m : OK (deliver_subscriber_snapshot uc rec l m).
Proof. unfold deliver_subscriber_snapshot. ops_auto. Qed.
#[local] Hint Resolve ok_deliver_subscriber_snapshot : rx_ok.

Lemma ok_emit_to_subs c m : terminal_msg m = false → OK (emit_to_subs uc rec c m).
Proof. intros. unfold emit_to_subs. ops_auto. simpl. by rewrite H. Qed.
#[local] Hint Resolve ok_emit_to_subs : rx_ok.

Lemma ok_run_hook h : OK (run_hook uc rec h).
Proof. unfold run_hook. ops_auto. Qed.
#[local] Hint Resolve ok_run_hook : rx_ok.

Lemma ok_collect_down_action c m : OK (collect_down_action c m).
Proof. unfold collect_down_action. ops_auto. Qed.
#[local] Hint Resolve ok_collect_down_action : rx_ok.

Lemma ok_owned_down c w : OK (owned_down rec c w).
Proof. unfold owned_down. scope_auto. Qed.
#[local] Hint Resolve ok_owned_down : rx_ok.

Lemma ok_passthrough_emit c : OK (passthrough_emit rec c).
Proof. unfold passthrough_emit. scope_auto. Qed.
#[local] Hint Resolve ok_passthrough_emit : rx_ok.

Lemma ok_maybe_run c : OK (maybe_run rec c).
Proof. unfold maybe_run. scope_auto. Qed.
#[local] Hint Resolve ok_maybe_run : rx_ok.

Lemma ok_try_run c : OK (try_run rec c).
Proof. unfold try_run. scope_auto. Qed.
#[local] Hint Resolve ok_try_run : rx_ok.

Lemma ok_settle_after_absorbed_terminal c : OK (settle_after_absorbed_terminal rec c).
Proof. unfold settle_after_absorbed_terminal. scope_auto. Qed.
#[local] Hint Resolve ok_settle_after_absorbed_terminal : rx_ok.

Lemma ok_apply_deferred a : OK (apply_deferred rec a).
Proof. unfold apply_deferred. scope_auto. Qed.
#[local] Hint Resolve ok_apply_deferred : rx_ok.

Lemma ok_drain_deferred_runs : OK (drain_deferred_runs rec).
Proof. unfold drain_deferred_runs. scope_auto. Qed.
#[local] Hint Resolve ok_drain_deferred_runs : rx_ok.

Lemma ok_emit_dirty_once c : OK (emit_dirty_once uc rec c).
Proof. unfold emit_dirty_once. scope_auto. Qed.
#[local] Hint Resolve ok_emit_dirty_once : rx_ok.

Lemma ok_mark_dirty c : OK (mark_dirty uc rec c).
Proof. unfold mark_dirty. scope_auto. Qed.
#[local] Hint Resolve ok_mark_dirty : rx_ok.

Lemma ok_invalidate c : OK (invalidate uc rec c).
Proof. unfold invalidate. scope_auto. Qed.
#[local] Hint Resolve ok_invalidate : rx_ok.

Lemma ok_apply_down_action c a : OK (apply_down_action uc rec c a).
Proof. unfold apply_down_action. scope_auto. Qed.
#[local] Hint Resolve ok_apply_down_action : rx_ok.

Lemma ok_emit_message c m : OK (emit_message uc rec c m).
Proof. unfold emit_message. scope_auto. Qed.
#[local] Hint Resolve ok_emit_message : rx_ok.

Lemma ok_capture_in_batch c inside w : OK (capture_in_batch uc rec c inside w).
Proof. unfold capture_in_batch. scope_auto. Qed.
#[local] Hint Resolve ok_capture_in_batch : rx_ok.

Lemma ok_emit_wave c inside w : OK (emit_wave uc rec c inside w).
Proof. unfold emit_wave. scope_auto. Qed.
#[local] Hint Resolve ok_emit_wave : rx_ok.

Lemma ok_down c w : OK (down uc rec c w).
Proof. unfold down. scope_auto. Qed.
#[local] Hint Resolve ok_down : rx_ok.

Lemma ok_fire_pull_demand c : OK (fire_pull_demand rec c).
Proof. unfold fire_pull_demand. scope_auto. Qed.
#[local] Hint Resolve ok_fire_pull_demand : rx_ok.

Lemma ok_deliver_pull_demand c d : OK (deliver_pull_demand rec c d).
Proof. unfold deliver_pull_demand. scope_auto. Qed.
#[local] Hint Resolve ok_deliver_pull_demand : rx_ok.

Lemma ok_fire_owed_demand_if_ready c : OK (fire_owed_demand_if_ready rec c).
Proof. unfold fire_owed_demand_if_ready. scope_auto. Qed.
#[local] Hint Resolve ok_fire_owed_demand_if_ready : rx_ok.

Lemma ok_on_demand c d : OK (on_demand rec c d).
Proof. unfold on_demand. scope_auto. Qed.
#[local] Hint Resolve ok_on_demand : rx_ok.

Lemma ok_apply_action c a : OK (apply_action uc rec c a).
Proof. unfold apply_action. scope_auto. Qed.
#[local] Hint Resolve ok_apply_action : rx_ok.

Lemma ok_receive_from_dep c i m : OK (receive_from_dep uc rec c i m).
Proof. unfold receive_from_dep. scope_auto. Qed.
#[local] Hint Resolve ok_receive_from_dep : rx_ok.

Lemma ok_invoke c h x : OK (invoke uc rec c h x).
Proof. unfold invoke. scope_auto. Qed.
#[local] Hint Resolve ok_invoke : rx_ok.

Lemma ok_guarded_invoke c h x : OK (guarded_invoke uc rec c h x).
Proof. unfold guarded_invoke. apply el_invoke; scope_auto. Qed.
#[local] Hint Resolve ok_guarded_invoke : rx_ok.

Lemma ok_run_wave c : OK (run_wave uc rec c).
Proof. unfold run_wave. scope_auto. Qed.
#[local] Hint Resolve ok_run_wave : rx_ok.

Lemma ok_subscribe_finish c s o : OK (subscribe_finish uc rec c s o).
Proof. unfold subscribe_finish. scope_auto. Qed.
#[local] Hint Resolve ok_subscribe_finish : rx_ok.

Lemma ok_unsubscribe c i : OK (unsubscribe rec c i).
Proof. unfold unsubscribe. scope_auto. Qed.
#[local] Hint Resolve ok_unsubscribe : rx_ok.

Lemma ok_subscribe_dep c i d : OK (subscribe_dep uc rec c i d).
Proof. unfold subscribe_dep. scope_auto. Qed.
#[local] Hint Resolve ok_subscribe_dep : rx_ok.

Lemma ok_activate c : OK (activate uc rec c).
Proof. unfold activate. scope_auto. Qed.
#[local] Hint Resolve ok_activate : rx_ok.

Lemma ok_deactivate c : OK (deactivate uc rec c).
Proof. unfold deactivate. scope_auto. Qed.
#[local] Hint Resolve ok_deactivate : rx_ok.

Lemma ok_on_resume c : OK (on_resume rec c).
Proof. unfold on_resume. scope_auto. Qed.
#[local] Hint Resolve ok_on_resume : rx_ok.

Lemma ok_pause_release c l : OK (pause_release rec c l).
Proof. unfold pause_release. scope_auto. Qed.
#[local] Hint Resolve ok_pause_release : rx_ok.

Lemma ok_to_target d m r : OK (to_target rec d m r).
Proof. unfold to_target. scope_auto. Qed.
#[local] Hint Resolve ok_to_target : rx_ok.

Lemma ok_forward_up c m d r : OK (forward_up rec c m d r).
Proof. unfold forward_up. scope_auto. Qed.
#[local] Hint Resolve ok_forward_up : rx_ok.

Lemma ok_up_msg c m d r : OK (up_msg rec c m d r).
Proof. unfold up_msg. scope_auto. Qed.
#[local] Hint Resolve ok_up_msg : rx_ok.

Lemma ok_up c w d : OK (up rec c w d).
Proof. unfold up. scope_auto. Qed.
#[local] Hint Resolve ok_up : rx_ok.

Lemma ok_owned_up c w d : OK (owned_up rec c w d).
Proof. unfold owned_up. scope_auto. Qed.
#[local] Hint Resolve ok_owned_up : rx_ok.

Lemma ok_settle_rewire c : OK (settle_rewire uc rec c).
Proof. unfold settle_rewire. scope_auto. Qed.
#[local] Hint Resolve ok_settle_rewire : rx_ok.

Lemma ok_remove_dep c b i : OK (remove_dep rec c b i).
Proof. unfold remove_dep. scope_auto. Qed.
#[local] Hint Resolve ok_remove_dep : rx_ok.

Lemma ok_rewire_settle c b ds : OK (rewire_settle uc rec c b ds).
Proof. unfold rewire_settle. scope_auto. Qed.
#[local] Hint Resolve ok_rewire_settle : rx_ok.

Lemma ok_rewire_mutate c l k f : OK (rewire_mutate uc rec c l k f).
Proof.
  unfold rewire_mutate. pose proof (length_rewire_plan l k) as Hlen.
  destruct (rewire_plan l k) as [o2n n2o]. scope_auto; by apply rebuild_slot_rel.
Qed.
#[local] Hint Resolve ok_rewire_mutate : rx_ok.

Lemma ok_rewire_apply c ds f : OK (rewire_apply uc rec c ds f).
Proof. unfold rewire_apply. scope_auto. Qed.
#[local] Hint Resolve ok_rewire_apply : rx_ok.

Lemma ok_rewire_inner c ds f b : OK (rewire_inner uc rec c ds f b).
Proof. unfold rewire_inner. scope_auto. Qed.
#[local] Hint Resolve ok_rewire_inner : rx_ok.

Lemma ok_apply_external_rewire c q : OK (apply_external_rewire uc rec c q).
Proof. unfold apply_external_rewire. scope_auto. Qed.
#[local] Hint Resolve ok_apply_external_rewire : rx_ok.

Lemma ok_external_rewire c q : OK (external_rewire uc rec c q).
Proof. unfold external_rewire. scope_auto. Qed.
#[local] Hint Resolve ok_external_rewire : rx_ok.

Lemma ok_apply_rewire_next c q : OK (apply_rewire_next uc rec c q).
Proof. unfold apply_rewire_next. scope_auto. Qed.
#[local] Hint Resolve ok_apply_rewire_next : rx_ok.

Lemma ok_run_boundary_task g t : OK (run_boundary_task uc rec g t).
Proof. unfold run_boundary_task. scope_auto. Qed.
#[local] Hint Resolve ok_run_boundary_task : rx_ok.

Lemma ok_drain_loop g o b : OK (drain_loop uc rec g o b).
Proof. unfold drain_loop. scope_auto. Qed.
#[local] Hint Resolve ok_drain_loop : rx_ok.

Lemma ok_drain_deferred_rewires_for_graph g : OK (drain_deferred_rewires_for_graph rec g).
Proof. unfold drain_deferred_rewires_for_graph. scope_auto. Qed.
#[local] Hint Resolve ok_drain_deferred_rewires_for_graph : rx_ok.

Lemma ok_commit_batched_wave c w : OK (commit_batched_wave rec c w).
Proof. unfold commit_batched_wave. scope_auto. Qed.
#[local] Hint Resolve ok_commit_batched_wave : rx_ok.

Lemma ok_rollback_batched c : OK (rollback_batched rec c).
Proof. unfold rollback_batched. scope_auto. Qed.
#[local] Hint Resolve ok_rollback_batched : rx_ok.

Lemma ok_if_live c (m : M (World V) unit) : OK m → OK (if_live c m).
Proof. intros. unfold if_live. ops_auto. Qed.

Lemma ok_commit l k : OK (commit rec l k).
Proof. unfold commit. scope_auto; try (apply ok_if_live; ops_auto). Qed.
#[local] Hint Resolve ok_commit : rx_ok.

Lemma ok_rollback l k : OK (rollback rec l k).
Proof. unfold rollback. scope_auto; try (apply ok_if_live; ops_auto). Qed.
#[local] Hint Resolve ok_rollback : rx_ok.

(** ** Node construction, user programs, and the whole interpreter *)

Lemma fresh_new_slot ds h initial o policy version boxes :
  fresh_slot (mkNodeSlot (mkNodeTopologySlot ds None) (mkNodeCallSlot None h)
    (NodeConfigSlot_from_opts o) (mkNodeRunState false)
    (match initial with
     | Some v => set_e_value (λ _, mkNodeValueState (Some v) true Status.Settled false)
                   (DepEdges_new (length ds) boxes)
     | None => DepEdges_new (length ds) boxes
     end) (mkNodeVersionState policy version) (NodeAux_new : NodeAux V)).
Proof.
  destruct initial; (split; [|done..]); (split; [|simpl; by rewrite length_replicate]);
    split; simpl; by rewrite length_replicate.
Qed.

Lemma ok_new_in_arena g ds h initial o : OK (new_in_arena g ds h initial o).
Proof. unfold new_in_arena. ops_auto. apply el_alloc, fresh_new_slot. Qed.
#[local] Hint Resolve ok_new_in_arena : rx_ok.

Lemma ok_new_node g ds f initial o : OK (new_node g ds f initial o).
Proof. unfold new_node. ops_auto. Qed.
#[local] Hint Resolve ok_new_node : rx_ok.

Lemma ok_subscribe c s k : OK (subscribe uc rec c s k).
Proof. unfold subscribe. scope_auto. Qed.
#[local] Hint Resolve ok_subscribe : rx_ok.

Lemma ok_self_or_panic self : OK (self_or_panic self).
Proof. unfold self_or_panic. ops_auto. Qed.
#[local] Hint Resolve ok_self_or_panic : rx_ok.

Lemma ok_run_prog self p : OK (run_prog uc rec self p).
Proof.
  induction p; cbn [run_prog]; scope_auto; auto.
  apply el_batch; auto using Hrec, ok_commit, ok_rollback.
Qed.

Lemma ok_exec_task t : OK (exec_task uc rec t).
Proof. destruct t; cbn [exec_task res]; scope_auto. apply ok_run_prog. Qed.
End Ops.

Context `{!EngineLogic I R}.

Lemma exec_ok fuel t : OK (exec uc fuel t).
Proof.
  revert t. induction fuel as [|fuel IH]; intros t; [apply ok_no_fuel|].
  cbn [exec]. by apply ok_exec_task.
Qed.
End Logic.

(** ** Reachable worlds *)

Section Reachable.
Context {V : Type} `{!CanonicalData V} (uc : UserCode V).

(** The world an outcome leaves, whether the call returned or unwound. *)
Definition ends {A} (o : Outcome (World V) A) (w' : World V) : Prop :=
  match o with Ret _ w'' | Unwind _ w'' => w'' = w' | OutOfFuel => False end.

Definition world_of {A} (o : Outcome (World V) A) : World V :=
  match o with Ret _ w | Unwind _ w => w | OutOfFuel => World_init end.

Definition finishes {A} (o : Outcome (World V) A) : bool :=
  match o with OutOfFuel => false | _ => true end.

Lemma ends_world_of {A} (o : Outcome (World V) A) : finishes o = true → ends o (world_of o).
Proof. by destruct o. Qed.

(** The worlds any sequence of engine calls and client programs leads to. *)
Inductive reachable : World V → Prop :=
| reach_init : reachable World_init
| reach_call fuel t w w' : reachable w → ends (exec uc fuel t w) w' → reachable w'.

Lemma reachable_client fuel p w : reachable w → finishes (run_client uc fuel p w) = true →
  reachable (world_of (run_client uc fuel p w)).
Proof.
  intros Hw Hf. apply (reach_call fuel (TProg None p) w); [exact Hw|].
  exact (ends_world_of _ Hf).
Qed.

(** An instance of the logic holds along every call. *)
Lemma exec_ends (I : World V → Prop) (R : World V → World V → Prop) `{!EngineBase I R}
    `{!EngineLogic I R} fuel t w w' :
  I w → ends (exec uc fuel t w) w' → I w' ∧ R w w'.
Proof.
  intros Hw He. pose proof (exec_ok uc I R fuel t w Hw) as H. unfold post in H.
  destruct (exec uc fuel t w); simpl in He; by subst.
Qed.

Lemma reachable_logic (I : World V → Prop) (R : World V → World V → Prop) `{!EngineBase I R}
    `{!EngineLogic I R} w :
  I World_init → reachable w → I w ∧ R World_init w.
Proof.
  intros Hi. induction 1 as [|fuel t w w' _ [IH1 IH2] He]; [by split|].
  destruct (exec_ends I R fuel t w w' IH1 He). split; [done|by etrans].
Qed.
End Reachable.
