(* ===== verification/EngineInv.v ===== *)
(** * What no engine call can break

    The structural invariant of the world (well-formed arenas, parallel
    per-dep vectors, at most one terminal emission per node) and the order its
    calls respect (nodes stay, terminal nodes stay terminal, the log grows), as
    an instance of [EngineLogic]; so they hold of every call, with any user
    code, whether the call returns or unwinds. *)

From stdpp Require Import base option strings numbers gmap list.
From S2P Require Import Prelude Protocol Dispatcher Versioning Arena NodeState Receive NodeInv.
From S2P Require Import Rewire RewireFacts Engine EngineLogic.

Section Inv.
Context {V : Type}.
Implicit Types w : World V.
Implicit Types n : NodeSlot V.

(** The COMPLETE and ERROR messages a node has emitted. *)
Definition terminal_emission (c : Core) (e : Event V) : bool :=
  match e with EvEmit c' m => ptr_eq c c' && terminal_msg m | _ => false end.
Definition terminal_count (c : Core) w : nat := count_if (terminal_emission c) (w_log w).

Definition is_terminal_node (c : Core) w : bool :=
  match get_node w c with Some n => v_terminal (n_value n) | None => false end.

Record world_inv w : Prop := {
  wi_arena : ∀ g gr, w_graphs w !! g = Some gr → arena_wf gr;
  wi_node : ∀ c n, get_node w c = Some n → slot_vectors_wf n;
  wi_terminal : ∀ c, terminal_count c w ≤ if is_terminal_node c w then 1 else 0
}.

Record world_le w w' : Prop := {
  wl_live : ∀ c, is_Some (get_node w c) → is_Some (get_node w' c);
  wl_terminal : ∀ c, is_terminal_node c w = true → is_terminal_node c w' = true;
  wl_log : w_log w `prefix_of` w_log w'
}.

#[local] Instance world_le_po : PreOrder world_le.
Proof.
  split; [by split|]. intros w1 w2 w3 [] []. split; [auto..|by etrans].
Qed.

Lemma count_if_app {A} (p : A → bool) l k : count_if p (l ++ k) = count_if p l + count_if p k.
Proof. unfold count_if. by rewrite List.filter_app, length_app. Qed.

Lemma terminal_count_quiet c w e :
  terminal_emission c e = false → terminal_count c (set_w_log (λ l, l ++ [e]) w) = terminal_count c w.
Proof.
  intros He. unfold terminal_count. simpl. rewrite count_if_app. unfold count_if at 2. simpl.
  rewrite He. simpl. lia.
Qed.

(** ** Slot updates *)

(** One slot replaced: enough for the invariant and the order. *)
Lemma slot_replaced w c f :
  world_inv w →
  (∀ n, get_node w c = Some n → slot_vectors_wf n → slot_vectors_wf (f n)) →
  (∀ n, get_node w c = Some n → v_terminal (n_value n) = true → v_terminal (n_value (f n)) = true) →
  world_inv (upd_node c f w) ∧ world_le w (upd_node c f w).
Proof.
  intros [Ha Hn Ht] Hwf Hterm.
  assert (∀ c', is_terminal_node c' w = true → is_terminal_node c' (upd_node c f w) = true) as Hmono.
  { intros c'. unfold is_terminal_node. rewrite get_node_upd. case_decide; [|done]. subst.
    destruct (get_node w c') as [n|] eqn:Hg; simpl; [|done]. by apply Hterm. }
  split; split; try done.
  - intros g gr. unfold upd_node. simpl. rewrite lookup_alter. case_decide; [|by apply Ha].
    subst. destruct (w_graphs w !! c_graph c) as [gr'|] eqn:Hg; simpl; [|done].
    intros [= <-]. apply arena_wf_upd. by eapply Ha.
  - intros c' n'. rewrite get_node_upd. case_decide; [|by apply Hn]. subst.
    destruct (get_node w c') as [n|] eqn:Hg; simpl; [|done]. intros [= <-]. eauto.
  - intros c'. specialize (Ht c'). specialize (Hmono c'). change (terminal_count c' (upd_node c f w))
      with (terminal_count c' w). destruct (is_terminal_node c' w); [by rewrite Hmono|].
    destruct (is_terminal_node c' _); lia.
  - intros c'. rewrite get_node_upd. case_decide; [|done]. subst. by intros [n ->].
Qed.

Lemma slot_rel_replaced w c f :
  world_inv w → (∀ n, get_node w c = Some n → slot_rel n (f n)) →
  world_inv (upd_node c f w) ∧ world_le w (upd_node c f w).
Proof.
  intros Hi Hf. apply slot_replaced; [done|..]; intros n Hn; destruct (Hf n Hn); [done|congruence].
Qed.

Lemma begin_run_replaced w c :
  world_inv w → world_inv (upd_node c begin_run w) ∧ world_le w (upd_node c begin_run w).
Proof.
  intros Hi. apply slot_replaced; [done|..]; intros n Hn; [|done].
  intros [[] Hh]. split; [|done]. split; unfold begin_run, n_state; simpl;
    rewrite ?length_fill_n; done.
Qed.

(** ** Frame updates and log entries *)

Lemma arenas_inv w w' :
  world_inv w → (∀ g, option_Forall2 same_arena (w_graphs w !! g) (w_graphs w' !! g)) →
  w_log w' = w_log w → world_inv w' ∧ world_le w w'.
Proof.
  intros [Ha Hn Ht] Hgr Hlog.
  assert (∀ c, get_node w' c = get_node w c) as Hget.
  { intros c. unfold get_node. destruct (Hgr (c_graph c)) as [g g' Hg|]; [|done].
    simpl. by apply same_arena_get. }
  assert (∀ c, is_terminal_node c w' = is_terminal_node c w) as Hterm
    by (intros c; unfold is_terminal_node; by rewrite Hget).
  split; split.
  - intros g gr' Hg'. specialize (Hgr g). rewrite Hg' in Hgr.
    inversion Hgr as [gr ? [] Hg|]; subst. symmetry in Hg. apply Ha in Hg as [].
    split; rewrite ?sa_slots, ?sa_generations, ?sa_free, ?sa_pins, ?sa_touched; done.
  - intros c n. rewrite Hget. apply Hn.
  - intros c. rewrite Hterm. unfold terminal_count. rewrite Hlog. apply Ht.
  - intros c. by rewrite Hget.
  - intros c. by rewrite Hterm.
  - by rewrite Hlog.
Qed.

Lemma frame_inv w w' : world_inv w → frame_rel w w' → world_inv w' ∧ world_le w w'.
Proof. intros Hi []. by apply arenas_inv. Qed.

Lemma log_inv w e :
  world_inv w → quiet_event e = true →
  world_inv (set_w_log (λ l, l ++ [e]) w) ∧ world_le w (set_w_log (λ l, l ++ [e]) w).
Proof.
  intros [Ha Hn Ht] He. split; split; try done.
  - intros c. rewrite terminal_count_quiet; [apply Ht|].
    destruct e; try done. simpl in *. by destruct (terminal_msg m), (ptr_eq c c0).
  - simpl. by apply prefix_app_r.
Qed.

#[local] Instance inv_base : EngineBase (V:=V) world_inv world_le.
Proof.
  split; [exact _|..].
  - intros. by apply slot_rel_replaced.
  - intros. by apply frame_inv.
  - intros. by apply log_inv.
Qed.

(** ** Node allocation *)

Lemma alloc_world w g gr gr' id n :
  w_graphs w !! g = Some gr → Arena.alloc gr n = Some (gr', id) → fresh_slot n → world_inv w →
  world_inv (set_w_graphs <[g := gr']> w) ∧ world_le w (set_w_graphs <[g := gr']> w).
Proof.
  intros Hg Ha [] [Hwa Hwn Hwt]. set (w' := set_w_graphs _ w).
  destruct (alloc_get gr n gr' id (Hwa _ _ Hg) Ha) as (k & _ & Hold & Hnew & Hrest).
  assert (∀ c, c ≠ mkCore g k → get_node w' c = get_node w c) as Hother.
  { intros [g' k'] Hne. unfold get_node, w'. simpl. rewrite lookup_insert. case_decide; [|done].
    subst. rewrite Hg. simpl. apply Hrest. congruence. }
  assert (get_node w' (mkCore g k) = Some n) as Hnode
    by (unfold get_node, w'; simpl; by rewrite lookup_insert_eq).
  assert (get_node w (mkCore g k) = None) as Hnone by (unfold get_node; simpl; by rewrite Hg).
  assert (∀ c, is_terminal_node c w' = is_terminal_node c w) as Hterm.
  { intros c. unfold is_terminal_node. destruct (decide (c = mkCore g k)) as [->|Hne];
      [|by rewrite Hother]. by rewrite Hnode, Hnone. }
  split; split; try done.
  - intros g' gr0. unfold w'. simpl. rewrite lookup_insert. case_decide; [|by apply Hwa].
    intros [= <-]. eapply arena_wf_alloc; [by eapply Hwa|done].
  - intros c n'. destruct (decide (c = mkCore g k)) as [->|Hne].
    + rewrite Hnode. by intros [= <-].
    + rewrite Hother by done. apply Hwn.
  - intros c. rewrite Hterm. apply Hwt.
  - intros c. destruct (decide (c = mkCore g k)) as [->|Hne]; [by rewrite Hnone; intros []|].
    by rewrite Hother.
  - intros c. by rewrite Hterm.
Qed.

Lemma alloc_ok g n : fresh_slot n → ok world_inv world_le (alloc_slot g n).
Proof.
  intros Hf w Hw. unfold alloc_slot, post, bind, gets, expect.
  destruct (w_graphs w !! g) as [gr|] eqn:Hg; simpl; [|by split].
  destruct (Arena.alloc gr n) as [[gr' id]|] eqn:Ha; simpl; [|by split].
  destruct (Arena.key_for gr' id); simpl; by eapply alloc_world.
Qed.

(** ** The commit of one message *)

(** The slot update and the ghost record of a terminal message are one step:
    the node was not terminal before, so it had emitted none. *)
Lemma collect_down_facts m nv n :
  let '(n', a) := collect_down m nv n in
  (slot_vectors_wf n → slot_vectors_wf n')
  ∧ inside_run_wave (n_wave n') = inside_run_wave (n_wave n)
  ∧ in_dep_mutation (n_wave n') = in_dep_mutation (n_wave n)
  ∧ (v_terminal (n_value n) = true → v_terminal (n_value n') = true)
  ∧ match a with
    | Some (DownEmit m' _) =>
        m' = m ∧ (terminal_msg m = true → v_terminal (n_value n) = false ∧ v_terminal (n_value n') = true)
    | _ => True
    end.
Proof.
  unfold collect_down. destruct m;
    repeat match goal with |- context [if ?b then _ else _] => destruct b eqn:? end;
    split_and!; done || congruence.
Qed.

Lemma commit_ok c m nv : ok world_inv world_le (commit_down (V:=V) c m nv).
Proof.
  intros w Hw. unfold commit_down, with_slot. do 2 apply post_bind. apply post_node; [|done].
  intros n Hn. pose proof (collect_down_facts m nv n) as Hf.
  destruct (collect_down m nv n) as [n' a]. destruct Hf as (Hwf & _ & _ & Hmono & Ha).
  destruct (slot_replaced w c (λ _, n') Hw) as [Hw1 Hle1].
  { intros n0 Hn0. rewrite Hn in Hn0. by simplify_eq. }
  { intros n0 Hn0. rewrite Hn in Hn0. by simplify_eq. }
  unfold post, bind, modify, ret. simpl. set (w1 := upd_node c (λ _, n') w) in *.
  destruct a as [[m' subs|hooks]|]; simpl; [|done..]. destruct Ha as [-> Ha].
  destruct (terminal_msg m) eqn:Htm.
  - destruct (Ha eq_refl) as [Hn0 Hn1]. split; [|split].
    + destruct Hw1 as [H1 H2 H3]. split; [done..|]. intros c'.
      unfold terminal_count. simpl. rewrite count_if_app. fold (terminal_count c' w).
      unfold count_if. simpl. rewrite Htm, andb_true_r. unfold ptr_eq. case_bool_decide as Hc; simpl.
      * subst c'. destruct Hw as [_ _ Hw]. specialize (Hw c). unfold is_terminal_node in *.
        change (get_node (set_w_log (λ l, l ++ [EvEmit c m]) w1) c) with (get_node w1 c).
        unfold w1. rewrite get_node_upd_same, Hn. simpl. rewrite Hn, Hn0 in Hw. rewrite Hn1. lia.
      * rewrite Nat.add_0_r. apply (H3 c').
    + apply Hle1.
    + apply Hle1.
    + simpl. etrans; [apply Hle1|]. by apply prefix_app_r.
  - destruct (log_inv w1 (EvEmit c m) Hw1) as [Hw2 Hle2]; [simpl; by rewrite Htm|].
    split; [done|]. by etrans.
Qed.

(** ** The scoped operations *)

(** Updates of the scope flags: any update outside the slots and the log. *)
Lemma scope_ok f :
  (∀ w, w_graphs (f w) = w_graphs w) → (∀ w, w_log (f w) = w_log w) →
  ok world_inv world_le (modify f).
Proof.
  intros Hg Hl. apply ok_modify. intros w Hw. apply arenas_inv; [done| |done].
  intros g. rewrite Hg. apply graphs_refl.
Qed.

Lemma draining_update b g w :
  world_inv w → world_inv (set_w_graphs (alter (set_draining b) g) w)
  ∧ world_le w (set_w_graphs (alter (set_draining b) g) w).
Proof.
  intros Hw. apply arenas_inv; [done| |done]. intros g'. simpl. rewrite lookup_alter.
  case_decide; [|apply graphs_refl]. subst. destruct (w_graphs w !! g'); constructor. by split.
Qed.

Ltac scope_step :=
  first [ok_step | by apply scope_ok | by apply ok_frame; intros ?; apply frame_scope
        | by apply ok_frame; intros ?; apply frame_batch].

(** Apply a lemma of the logic, with this instance. *)
Ltac by_logic H := apply H; first [exact _ | done].

#[local] Instance inv_logic : EngineLogic (V:=V) world_inv world_le.
Proof.
  split.
  - apply alloc_ok.
  - apply commit_ok.
  - intros A rec owner body on_error Hrec Hbody Herr. unfold with_wave_owner.
    repeat scope_step; try done; [|by_logic @ok_drain_roots].
    by_logic @ok_recover_wave.
  - intros rec body Hrec Hbody. unfold with_delivery_scope. repeat scope_step; [done|].
    exact (Hrec TDrainRuns).
  - intros c body Hbody. repeat scope_step.
    + unfold upd. repeat scope_step; [by_logic @ok_node|].
      apply ok_modify. intros. by apply begin_run_replaced.
    + apply ok_guard; [exact _|done|]. intros w Hw. apply slot_rel_replaced; [done|].
      intros n _. apply slot_rel_wave; done.
  - intros c body Hbody. unfold in_mutation. repeat scope_step.
    + unfold upd. repeat scope_step; [by_logic @ok_node|]. apply ok_modify. intros w Hw.
      apply slot_replaced; [done|..]; by intros.
    + apply ok_guard; [exact _|done|]. intros w Hw. apply slot_rel_replaced; [done|].
      intros n _. apply slot_rel_wave; done.
  - intros g body Hbody. unfold draining_scope. repeat scope_step.
    + apply ok_modify. intros. by apply draining_update.
    + apply ok_guard; [exact _|done|]. intros. by apply draining_update.
  - intros rec body Hrec Hcommit Hrollback Hbody.
    assert (∀ l k r, ok world_inv world_le (rollback_and_cleanup rec l k r)) as Hrb.
    { intros. unfold rollback_and_cleanup. repeat scope_step; try done;
        first [by_logic @ok_take_late_boundary_roots | by apply scope_ok
              | by_logic @ok_clear_boundary_for_roots]. }
    unfold batch. repeat scope_step; try done;
      first [by_logic @ok_new_token | by_logic @ok_take_for_finish
            | by_logic @ok_take_late_boundary_roots | apply Hrb
            | by_logic @ok_clear_boundary_for_roots | by_logic @ok_drain_roots
            | by apply scope_ok].
Qed.

Lemma world_inv_init : world_inv (World_init : World V).
Proof.
  assert (∀ c, get_node (World_init : World V) c = None) as Hget.
  { intros c. unfold get_node, World_init. simpl. rewrite lookup_singleton.
    case_decide; [|done]. simpl. unfold Arena.get, Arena.is_live_key. simpl.
    done. }
  split.
  - intros g gr. unfold World_init. simpl. rewrite lookup_singleton. case_decide; [|done].
    intros [= <-]. apply arena_wf_new.
  - intros c n. by rewrite Hget.
  - intros c. change (terminal_count c World_init) with 0. lia.
Qed.

(** ** Theorems *)

Context `{!CanonicalData V} (uc : UserCode V).


(** C31: every node emits at most one COMPLETE or ERROR in its whole life, and
    only together with becoming terminal. *)
Theorem one_terminal_emission w c :
  reachable uc w →
  terminal_count c w ≤ 1 ∧ (terminal_count c w = 1 → is_terminal_node c w = true).
Proof.
  intros Hr. destruct (reachable_logic uc world_inv world_le w world_inv_init Hr) as [[_ _ H] _].
  specialize (H c). destruct (is_terminal_node c w); [split; [lia|done]|split; lia].
Qed.

End Inv.

(** ** Witnesses *)

Definition ex_values : CanonicalData Z :=
  {| data_bytes z := inr [z]; absent_seed_bytes := inr [] |}.
Definition ex_user : UserCode Z :=
  mkUserCode (λ _ _, PRet) (λ _ _, PRet) (λ _, PRet) (λ _, 0%Z).
(** A source that is subscribed to and completed twice. *)
Definition ex_complete : Prog Z :=
  PNewNode 0 [] None (Some 5%Z) NodeOpts_default (λ s,
    PSubscribe s 0 (λ _, PNodeDown s [Complete] (PNodeDown s [Complete] PRet))).
Definition ex_completed : World Z :=
  world_of (@run_client Z ex_values ex_user 20 ex_complete World_init).

Lemma ex_completed_reachable : @reachable Z ex_values ex_user ex_completed.
Proof. apply reachable_client; [constructor|]. vm_compute. reflexivity. Qed.


(** The emission is there, and only once. *)
Lemma one_terminal_emission_witness :
  terminal_count (ex_core 0) ex_completed = 1
  ∧ is_terminal_node (ex_core 0) ex_completed = true.
Proof.
  destruct (@one_terminal_emission Z ex_values ex_user ex_completed (ex_core 0)
    ex_completed_reachable) as [_ H].
  split; [vm_compute; reflexivity|]. apply H. vm_compute. reflexivity.
Defined.

(** A DATA on the completed source. *)
Definition ex_late_task : Task Z := TProg None (PNodeDown (ex_core 0) [Data 6%Z] PRet).
Definition ex_late : Outcome (World Z) unit := @exec Z ex_values ex_user 20 ex_late_task ex_completed.

