(* ===== verification/EngineFuel.v ===== *)
(** * Fuel does not change what the engine does

    Every operation is monotone in the calls it makes back into the engine, so
    a run that ends with some fuel ends the same way with any larger fuel. *)

From stdpp Require Import base option strings numbers gmap list.
From S2P Require Import Prelude Protocol Dispatcher Versioning Arena NodeState Receive Rewire.
From S2P Require Import Engine EngineLogic EngineInv.

Section Fuel.
Context {V : Type} `{!CanonicalData V} (uc : UserCode V).

Section Ops.
Variables rec rec' : ∀ t : Task V, M (World V) (res t).
Hypothesis Hrec : ∀ t, approx (rec t) (rec' t).

Lemma approx_deliver_sink s m : approx (deliver_sink uc rec s m) (deliver_sink uc rec' s m).
Proof. unfold deliver_sink. approx_auto. Qed.
#[local] Hint Resolve approx_deliver_sink : rx_approx.

Lemma approx_deliver subs m :
  approx (deliver_subscriber_snapshot uc rec subs m) (deliver_subscriber_snapshot uc rec' subs m).
Proof. unfold deliver_subscriber_snapshot. approx_auto. Qed.
#[local] Hint Resolve approx_deliver : rx_approx.

Lemma approx_emit_to_subs c m : approx (emit_to_subs uc rec c m) (emit_to_subs uc rec' c m).
Proof. unfold emit_to_subs. approx_auto. Qed.
#[local] Hint Resolve approx_emit_to_subs : rx_approx.

Lemma approx_run_hook h : approx (run_hook uc rec h) (run_hook uc rec' h).
Proof. unfold run_hook. approx_auto. Qed.
#[local] Hint Resolve approx_run_hook : rx_approx.

Lemma approx_drain_roots l k : approx (drain_roots rec l k) (drain_roots rec' l k).
Proof. unfold drain_roots. approx_auto. Qed.
#[local] Hint Resolve approx_drain_roots : rx_approx.
Lemma approx_recover {A} owner scope p (e e' : M (World V) A) :
  approx e e' → approx (recover_wave rec owner scope p e) (recover_wave rec' owner scope p e').
Proof. intros. unfold recover_wave. approx_auto. Qed.

Lemma approx_owner {A} owner (m m' e e' : M (World V) A) :
  approx m m' → approx e e' →
  approx (with_wave_owner rec owner m e) (with_wave_owner rec' owner m' e').
Proof. intros. unfold with_wave_owner, drain_committed_boundaries.
  repeat (approx_auto; try apply approx_recover). Qed.

Lemma approx_delivery (m m' : M (World V) unit) :
  approx m m' → approx (with_delivery_scope rec m) (with_delivery_scope rec' m').
Proof. intros. unfold with_delivery_scope. approx_auto. Qed.

(** The scoped operations are entered like structure. *)
Ltac fuel_auto :=
  repeat (approx_auto; try first [apply approx_owner | apply approx_recover | apply approx_delivery]).

Lemma approx_owned_down c msgs : approx (owned_down rec c msgs) (owned_down rec' c msgs).
Proof. unfold owned_down. fuel_auto. Qed.
#[local] Hint Resolve approx_owned_down : rx_approx.

Lemma approx_passthrough_emit c : approx (passthrough_emit rec c) (passthrough_emit rec' c).
Proof. unfold passthrough_emit. fuel_auto. Qed.
#[local] Hint Resolve approx_passthrough_emit : rx_approx.

Lemma approx_maybe_run c : approx (maybe_run rec c) (maybe_run rec' c).
Proof. unfold maybe_run. fuel_auto. Qed.
#[local] Hint Resolve approx_maybe_run : rx_approx.

Lemma approx_try_run c : approx (try_run rec c) (try_run rec' c).
Proof. unfold try_run. fuel_auto. Qed.
#[local] Hint Resolve approx_try_run : rx_approx.

Lemma approx_settle_after_absorbed_terminal c : approx (settle_after_absorbed_terminal rec c) (settle_after_absorbed_terminal rec' c).
Proof. unfold settle_after_absorbed_terminal. fuel_auto. Qed.
#[local] Hint Resolve approx_settle_after_absorbed_terminal : rx_approx.

Lemma approx_apply_deferred a : approx (apply_deferred rec a) (apply_deferred rec' a).
Proof. unfold apply_deferred. fuel_auto. Qed.
#[local] Hint Resolve approx_apply_deferred : rx_approx.

Lemma approx_drain_deferred_runs : approx (drain_deferred_runs rec) (drain_deferred_runs rec').
Proof. unfold drain_deferred_runs. fuel_auto. Qed.
#[local] Hint Resolve approx_drain_deferred_runs : rx_approx.

Lemma approx_emit_dirty_once c : approx (emit_dirty_once uc rec c) (emit_dirty_once uc rec' c).
Proof. unfold emit_dirty_once. fuel_auto. Qed.
#[local] Hint Resolve approx_emit_dirty_once : rx_approx.

Lemma approx_mark_dirty c : approx (mark_dirty uc rec c) (mark_dirty uc rec' c).
Proof. unfold mark_dirty. fuel_auto. Qed.
#[local] Hint Resolve approx_mark_dirty : rx_approx.

Lemma approx_invalidate c : approx (invalidate uc rec c) (invalidate uc rec' c).
Proof. unfold invalidate. fuel_auto. Qed.
#[local] Hint Resolve approx_invalidate : rx_approx.

Lemma approx_apply_down_action c a : approx (apply_down_action uc rec c a) (apply_down_action uc rec' c a).
Proof. unfold apply_down_action. fuel_auto. Qed.
#[local] Hint Resolve approx_apply_down_action : rx_approx.

Lemma approx_emit_message c m : approx (emit_message uc rec c m) (emit_message uc rec' c m).
Proof. unfold emit_message. fuel_auto. Qed.
#[local] Hint Resolve approx_emit_message : rx_approx.

Lemma approx_capture_in_batch c inside w : approx (capture_in_batch uc rec c inside w) (capture_in_batch uc rec' c inside w).
Proof. unfold capture_in_batch. fuel_auto. Qed.
#[local] Hint Resolve approx_capture_in_batch : rx_approx.

Lemma approx_emit_wave c inside w : approx (emit_wave uc rec c inside w) (emit_wave uc rec' c inside w).
Proof. unfold emit_wave. fuel_auto. Qed.
#[local] Hint Resolve approx_emit_wave : rx_approx.

Lemma approx_down c w : approx (down uc rec c w) (down uc rec' c w).
Proof. unfold down. fuel_auto. Qed.
#[local] Hint Resolve approx_down : rx_approx.

Lemma approx_fire_pull_demand c : approx (fire_pull_demand rec c) (fire_pull_demand rec' c).
Proof. unfold fire_pull_demand. fuel_auto. Qed.
#[local] Hint Resolve approx_fire_pull_demand : rx_approx.

Lemma approx_deliver_pull_demand c d : approx (deliver_pull_demand rec c d) (deliver_pull_demand rec' c d).
Proof. unfold deliver_pull_demand. fuel_auto. Qed.
#[local] Hint Resolve approx_deliver_pull_demand : rx_approx.

Lemma approx_fire_owed_demand_if_ready c : approx (fire_owed_demand_if_ready rec c) (fire_owed_demand_if_ready rec' c).
Proof. unfold fire_owed_demand_if_ready. fuel_auto. Qed.
#[local] Hint Resolve approx_fire_owed_demand_if_ready : rx_approx.

Lemma approx_on_demand c d : approx (on_demand rec c d) (on_demand rec' c d).
Proof. unfold on_demand. fuel_auto. Qed.
#[local] Hint Resolve approx_on_demand : rx_approx.

Lemma approx_apply_action c a : approx (apply_action uc rec c a) (apply_action uc rec' c a).
Proof. unfold apply_action. fuel_auto. Qed.
#[local] Hint Resolve approx_apply_action : rx_approx.

Lemma approx_receive_from_dep c i m : approx (receive_from_dep uc rec c i m) (receive_from_dep uc rec' c i m).
Proof. unfold receive_from_dep. fuel_auto. Qed.
#[local] Hint Resolve approx_receive_from_dep : rx_approx.

Lemma approx_invoke c h x : approx (invoke uc rec c h x) (invoke uc rec' c h x).
Proof. unfold invoke. fuel_auto. Qed.
#[local] Hint Resolve approx_invoke : rx_approx.

Lemma approx_guarded_invoke c h x : approx (guarded_invoke uc rec c h x) (guarded_invoke uc rec' c h x).
Proof. unfold guarded_invoke. fuel_auto. Qed.
#[local] Hint Resolve approx_guarded_invoke : rx_approx.

Lemma approx_run_wave c : approx (run_wave uc rec c) (run_wave uc rec' c).
Proof. unfold run_wave. fuel_auto. Qed.
#[local] Hint Resolve approx_run_wave : rx_approx.

Lemma approx_subscribe_finish c s o : approx (subscribe_finish uc rec c s o) (subscribe_finish uc rec' c s o).
Proof. unfold subscribe_finish. fuel_auto. Qed.
#[local] Hint Resolve approx_subscribe_finish : rx_approx.

Lemma approx_unsubscribe c i : approx (unsubscribe rec c i) (unsubscribe rec' c i).
Proof. unfold unsubscribe. fuel_auto. Qed.
#[local] Hint Resolve approx_unsubscribe : rx_approx.

Lemma approx_subscribe_dep c i d : approx (subscribe_dep uc rec c i d) (subscribe_dep uc rec' c i d).
Proof. unfold subscribe_dep. fuel_auto. Qed.
#[local] Hint Resolve approx_subscribe_dep : rx_approx.

Lemma approx_activate c : approx (activate uc rec c) (activate uc rec' c).
Proof. unfold activate. fuel_auto. Qed.
#[local] Hint Resolve approx_activate : rx_approx.

Lemma approx_deactivate c : approx (deactivate uc rec c) (deactivate uc rec' c).
Proof. unfold deactivate. fuel_auto. Qed.
#[local] Hint Resolve approx_deactivate : rx_approx.

Lemma approx_on_resume c : approx (on_resume rec c) (on_resume rec' c).
Proof. unfold on_resume. fuel_auto. Qed.
#[local] Hint Resolve approx_on_resume : rx_approx.

Lemma approx_pause_release c l : approx (pause_release rec c l) (pause_release rec' c l).
Proof. unfold pause_release. fuel_auto. Qed.
#[local] Hint Resolve approx_pause_release : rx_approx.

Lemma approx_to_target d m r : approx (to_target rec d m r) (to_target rec' d m r).
Proof. unfold to_target. fuel_auto. Qed.
#[local] Hint Resolve approx_to_target : rx_approx.

Lemma approx_forward_up c m d r : approx (forward_up rec c m d r) (forward_up rec' c m d r).
Proof. unfold forward_up. fuel_auto. Qed.
#[local] Hint Resolve approx_forward_up : rx_approx.

Lemma approx_up_msg c m d r : approx (up_msg rec c m d r) (up_msg rec' c m d r).
Proof. unfold up_msg. fuel_auto. Qed.
#[local] Hint Resolve approx_up_msg : rx_approx.

Lemma approx_up c w d : approx (up rec c w d) (up rec' c w d).
Proof. unfold up. fuel_auto. Qed.
#[local] Hint Resolve approx_up : rx_approx.

Lemma approx_owned_up c w d : approx (owned_up rec c w d) (owned_up rec' c w d).
Proof. unfold owned_up. fuel_auto. Qed.
#[local] Hint Resolve approx_owned_up : rx_approx.

Lemma approx_settle_rewire c : approx (settle_rewire uc rec c) (settle_rewire uc rec' c).
Proof. unfold settle_rewire. fuel_auto. Qed.
#[local] Hint Resolve approx_settle_rewire : rx_approx.

Lemma approx_remove_dep c b i : approx (remove_dep rec c b i) (remove_dep rec' c b i).
Proof. unfold remove_dep. fuel_auto. Qed.
#[local] Hint Resolve approx_remove_dep : rx_approx.

Lemma approx_rewire_settle c b ds : approx (rewire_settle uc rec c b ds) (rewire_settle uc rec' c b ds).
Proof. unfold rewire_settle. fuel_auto. Qed.
#[local] Hint Resolve approx_rewire_settle : rx_approx.

Lemma approx_rewire_mutate c l k f : approx (rewire_mutate uc rec c l k f) (rewire_mutate uc rec' c l k f).
Proof. unfold rewire_mutate. fuel_auto. Qed.
#[local] Hint Resolve approx_rewire_mutate : rx_approx.

Lemma approx_in_mutation c (m m' : M (World V) unit) :
  approx m m' → approx (in_mutation c m) (in_mutation c m').
Proof. intros. unfold in_mutation. fuel_auto. Qed.

Ltac mutation_auto := repeat (fuel_auto; try apply approx_in_mutation).

Lemma approx_rewire_apply c ds f : approx (rewire_apply uc rec c ds f) (rewire_apply uc rec' c ds f).
Proof. unfold rewire_apply. mutation_auto. Qed.
#[local] Hint Resolve approx_rewire_apply : rx_approx.

Lemma approx_rewire_inner c ds f b : approx (rewire_inner uc rec c ds f b) (rewire_inner uc rec' c ds f b).
Proof. unfold rewire_inner. fuel_auto. Qed.
#[local] Hint Resolve approx_rewire_inner : rx_approx.

Lemma approx_apply_external_rewire c q : approx (apply_external_rewire uc rec c q) (apply_external_rewire uc rec' c q).
Proof. unfold apply_external_rewire. fuel_auto. Qed.
#[local] Hint Resolve approx_apply_external_rewire : rx_approx.

Lemma approx_external_rewire c q : approx (external_rewire uc rec c q) (external_rewire uc rec' c q).
Proof. unfold external_rewire. fuel_auto. Qed.
#[local] Hint Resolve approx_external_rewire : rx_approx.

Lemma approx_apply_rewire_next c q : approx (apply_rewire_next uc rec c q) (apply_rewire_next uc rec' c q).
Proof. unfold apply_rewire_next. fuel_auto. Qed.
#[local] Hint Resolve approx_apply_rewire_next : rx_approx.

Lemma approx_run_boundary_task g t : approx (run_boundary_task uc rec g t) (run_boundary_task uc rec' g t).
Proof. unfold run_boundary_task. fuel_auto. Qed.
#[local] Hint Resolve approx_run_boundary_task : rx_approx.

Lemma approx_drain_loop g o b : approx (drain_loop uc rec g o b) (drain_loop uc rec' g o b).
Proof. unfold drain_loop. fuel_auto. Qed.
#[local] Hint Resolve approx_drain_loop : rx_approx.

Lemma approx_drain_deferred_rewires_for_graph g : approx (drain_deferred_rewires_for_graph rec g) (drain_deferred_rewires_for_graph rec' g).
Proof. unfold drain_deferred_rewires_for_graph, draining_scope. fuel_auto. Qed.
#[local] Hint Resolve approx_drain_deferred_rewires_for_graph : rx_approx.

Lemma approx_commit_batched_wave c w : approx (commit_batched_wave rec c w) (commit_batched_wave rec' c w).
Proof. unfold commit_batched_wave. fuel_auto. Qed.
#[local] Hint Resolve approx_commit_batched_wave : rx_approx.

Lemma approx_rollback_batched c : approx (rollback_batched rec c) (rollback_batched rec' c).
Proof. unfold rollback_batched. fuel_auto. Qed.
#[local] Hint Resolve approx_rollback_batched : rx_approx.

Lemma approx_commit l k : approx (commit rec l k) (commit rec' l k).
Proof. unfold commit, if_live. fuel_auto. Qed.
#[local] Hint Resolve approx_commit : rx_approx.

Lemma approx_rollback l k : approx (rollback rec l k) (rollback rec' l k).
Proof. unfold rollback, if_live. fuel_auto. Qed.
#[local] Hint Resolve approx_rollback : rx_approx.

Lemma approx_rollback_and_cleanup l k r : approx (rollback_and_cleanup rec l k r) (rollback_and_cleanup rec' l k r).
Proof. unfold rollback_and_cleanup. fuel_auto. Qed.
#[local] Hint Resolve approx_rollback_and_cleanup : rx_approx.

Lemma approx_batch (m m' : M (World V) unit) :
  approx m m' → approx (batch rec m) (batch rec' m').
Proof. intros. unfold batch. fuel_auto. Qed.

Lemma approx_subscribe c s k : approx (subscribe uc rec c s k) (subscribe uc rec' c s k).
Proof. unfold subscribe. fuel_auto. Qed.
#[local] Hint Resolve approx_subscribe : rx_approx.

Lemma approx_run_prog self p : approx (run_prog uc rec self p) (run_prog uc rec' self p).
Proof.
  induction p; cbn [run_prog]; fuel_auto; eauto using approx_batch.
Qed.
#[local] Hint Resolve approx_run_prog : rx_approx.

Lemma approx_exec_task t : approx (exec_task uc rec t) (exec_task uc rec' t).
Proof. destruct t; cbn [exec_task]; fuel_auto. Qed.
End Ops.

Lemma approx_exec_S fuel t : approx (exec uc fuel t) (exec uc (S fuel) t).
Proof.
  revert t. induction fuel as [|fuel IH]; intros t; [apply approx_no_fuel|].
  cbn [exec]. by apply approx_exec_task.
Qed.

(** The outcome of an engine call does not depend on the fuel: once a call
    ends (by returning or by unwinding) with some fuel, it ends in the same way
    and in the same world with any larger fuel. *)
Theorem exec_fuel_irrelevant fuel fuel' t w :
  fuel ≤ fuel' → exec uc fuel t w ≠ OutOfFuel → exec uc fuel' t w = exec uc fuel t w.
Proof.
  induction 1 as [|fuel' Hle IH]; intros Hne; [done|].
  specialize (IH Hne). destruct (approx_exec_S fuel' t w) as [H|H]; [congruence|].
  by rewrite H.
Qed.
End Fuel.

Lemma exec_fuel_irrelevant_witness :
  @exec Z ex_values ex_user 1000 (TProg None ex_complete) World_init
  = @exec Z ex_values ex_user 20 (TProg None ex_complete) World_init.
Proof.
  apply (@exec_fuel_irrelevant Z ex_values ex_user 20 1000); [lia|].
  intros H. apply (f_equal finishes) in H. vm_compute in H. discriminate.
Defined.
