(* ===== verification/EngineQuiet.v ===== *)
(** * Every engine call closes the scopes it opens

    The thread-local frames of a wave (the wave scope, the delivery depth, the
    batch frame) and the re-entrancy flags ([inside_run_wave],
    [in_dep_mutation], [draining_boundary]) are back where they were when a
    call ends, also when user code panics: an instance of [EngineLogic] whose
    scoped operations are proved as brackets. *)

From stdpp Require Import base option strings numbers gmap list.
From S2P Require Import Prelude Protocol Dispatcher Versioning Arena NodeState Receive NodeInv.
From S2P Require Import Rewire RewireFacts Engine EngineLogic EngineInv.

Section Quiet.
Context {V : Type}.
Implicit Types w : World V.
Implicit Types n : NodeSlot V.

Definition node_inside (c : Core) w : bool :=
  match get_node w c with Some n => inside_run_wave (n_wave n) | None => false end.
Definition node_mutating (c : Core) w : bool :=
  match get_node w c with Some n => in_dep_mutation (n_wave n) | None => false end.

Definition arenas_wf w : Prop := ∀ g gr, w_graphs w !! g = Some gr → arena_wf gr.

Record quiet_le w w' : Prop := {
  ql_wave : is_some (w_wave w') = is_some (w_wave w);
  ql_depth : w_delivery_depth w' = w_delivery_depth w;
  ql_batch : is_some (w_active_batch w') = is_some (w_active_batch w);
  ql_inside : ∀ c, node_inside c w' = true → node_inside c w = true;
  ql_mutating : ∀ c, node_mutating c w' = true → node_mutating c w = true;
  ql_draining : ∀ g, draining_of g w' = true → draining_of g w = true
}.

#[local] Instance quiet_le_po : PreOrder quiet_le.
Proof.
  split; [by split|]. intros w1 w2 w3 [] []. split; [congruence..|auto|auto|auto].
Qed.

Lemma draining_upd c f g w : draining_of g (upd_node c f w) = draining_of g w.
Proof.
  unfold draining_of, upd_node. simpl. rewrite lookup_alter. case_decide; [|done]. subst.
  destruct (w_graphs w !! c_graph c); [|done]. simpl. unfold Arena.upd.
  by destruct (Arena.is_live_key _ _).
Qed.

Lemma arenas_upd c f w : arenas_wf w → arenas_wf (upd_node c f w).
Proof.
  intros Ha g gr. unfold upd_node. simpl. rewrite lookup_alter. case_decide; [|by apply Ha]. subst.
  destruct (w_graphs w !! c_graph c) eqn:Hg; simpl; [|done]. intros [= <-].
  apply arena_wf_upd. by eapply Ha.
Qed.

(** A slot update: the flags of the other nodes do not move. *)
Lemma slot_quiet w c f :
  (∀ n, get_node w c = Some n → inside_run_wave (n_wave (f n)) = true →
        inside_run_wave (n_wave n) = true) →
  (∀ n, get_node w c = Some n → in_dep_mutation (n_wave (f n)) = true →
        in_dep_mutation (n_wave n) = true) →
  quiet_le w (upd_node c f w).
Proof.
  intros Hi Hm. split; try done.
  - intros c'. unfold node_inside. rewrite get_node_upd. case_decide; [|done]. subst.
    destruct (get_node w c') eqn:Hg; simpl; [|done]. eauto.
  - intros c'. unfold node_mutating. rewrite get_node_upd. case_decide; [|done]. subst.
    destruct (get_node w c') eqn:Hg; simpl; [|done]. eauto.
  - intros g. by rewrite draining_upd.
Qed.

Lemma frame_arenas w w' : frame_rel w w' → arenas_wf w → arenas_wf w'.
Proof.
  intros [Hf _ _ _ _ _] Ha g gr' Hg'. specialize (Hf g). rewrite Hg' in Hf.
  inversion Hf as [gr ? [] Hg|]; subst. symmetry in Hg. apply Ha in Hg as [].
  split; rewrite ?sa_slots, ?sa_generations, ?sa_free, ?sa_pins, ?sa_touched; done.
Qed.

#[local] Instance quiet_base : EngineBase (V:=V) arenas_wf quiet_le.
Proof.
  split; [exact _|..].
  - intros c f w Ha Hf. split; [by apply arenas_upd|].
    apply slot_quiet; intros n Hn; by destruct (Hf n Hn).
  - intros w w' Ha Hf. split; [by eapply frame_arenas|].
    pose proof (λ c, frame_get_node w w' c Hf) as Hget. destruct Hf.
    split; try done; intros c; unfold node_inside, node_mutating; by rewrite Hget.
  - intros e w Ha _. split; [done|]. by split.
Qed.

Lemma alloc_quiet g n : fresh_slot n → ok arenas_wf quiet_le (alloc_slot g n).
Proof.
  intros [] w Hw. unfold alloc_slot, post, bind, gets, expect.
  destruct (w_graphs w !! g) as [gr|] eqn:Hg; simpl; [|by split].
  destruct (Arena.alloc gr n) as [[gr' id]|] eqn:Ha; simpl; [|by split].
  destruct (alloc_get gr n gr' id (Hw _ _ Hg) Ha) as (k & -> & Hold & Hnew & Hrest). simpl.
  set (w' := set_w_graphs _ w).
  assert (∀ c, get_node w' c = if decide (c = mkCore g k) then Some n else get_node w c) as Hget.
  { intros [g' k']. unfold get_node, w'. simpl. rewrite lookup_insert.
    destruct (decide (g = g')) as [<-|]; [|by rewrite decide_False by congruence].
    simpl. case_decide; simplify_eq; [done|]. rewrite Hg. simpl. apply Hrest. congruence. }
  split; [|split; try done].
  - intros g' gr0. unfold w'. simpl. rewrite lookup_insert. case_decide; [|by apply Hw].
    intros [= <-]. eapply arena_wf_alloc; [by eapply Hw|done].
  - intros c. unfold node_inside. rewrite Hget. case_decide; [congruence|done].
  - intros c. unfold node_mutating. rewrite Hget. case_decide; [congruence|done].
  - intros g'. unfold draining_of, w'. simpl. rewrite lookup_insert. case_decide; [|done]. subst.
    rewrite Hg. unfold Arena.alloc in Ha. destruct (reverse (g_free gr)); [by simplify_eq|].
    destruct (g_generations gr !! _); simplify_eq/=. case_bool_decide; by simplify_eq/=.
Qed.

Lemma log_quiet w e : quiet_le w (set_w_log (λ l, l ++ [e]) w).
Proof. by split. Qed.

Lemma commit_quiet c m nv : ok arenas_wf quiet_le (commit_down (V:=V) c m nv).
Proof.
  intros w Hw. unfold commit_down, with_slot. do 2 apply post_bind. apply post_node; [|done].
  intros n Hn. pose proof (collect_down_facts m nv n) as Hf.
  destruct (collect_down m nv n) as [n' a]. destruct Hf as (_ & Hi & Hm & _ & _).
  assert (quiet_le w (upd_node c (λ _, n') w)) as Hq.
  { apply slot_quiet; intros n0 Hn0; rewrite Hn in Hn0; simplify_eq; congruence. }
  pose proof (arenas_upd c (λ _, n') w Hw) as Ha.
  unfold post, bind, modify, ret. simpl.
  destruct a as [[m' subs|hooks]|]; simpl; [|done..]. split; [done|].
  etrans; [exact Hq|apply log_quiet].
Qed.

(** ** The brackets *)

(** A state that agrees with [w] up to the wave scope. *)
Lemma quiet_close_wave w w1 w2 :
  w_wave w = None → w_graphs w1 = w_graphs w → w_delivery_depth w1 = w_delivery_depth w →
  w_active_batch w1 = w_active_batch w → quiet_le w1 w2 → quiet_le w (set_w_wave (λ _, None) w2).
Proof.
  intros Hw Hg Hd Hb []. unfold node_inside, node_mutating, draining_of, get_node in *.
  rewrite Hg in *. split; simpl; [by rewrite Hw|congruence|congruence|done..].
Qed.

Lemma owner_quiet {A} (rec : ∀ t, M (World V) (res t)) owner (body on_error : M (World V) A) :
  (∀ t, ok arenas_wf quiet_le (rec t)) → ok arenas_wf quiet_le body →
  ok arenas_wf quiet_le on_error → ok arenas_wf quiet_le (with_wave_owner rec owner body on_error).
Proof.
  intros Hrec Hbody Herr w Hw. unfold with_wave_owner. apply post_gets.
  unfold wave_in_flight. destruct (w_wave w) as [scope|] eqn:Hwave; simpl; [by apply Hbody|].
  apply post_modify. set (w1 := install_scope owner w).
  eapply (post_ok_catch arenas_wf quiet_le); [exact Hbody|exact Hw|reflexivity|].
  intros r w2 Hw2 HR. apply post_gets, post_modify.
  assert (quiet_le w (set_w_wave (λ _, None) w2)) as HR2
    by (by apply (quiet_close_wave w w1 w2)).
  assert (is_some (w_wave w2) = true) as Hs by (by rewrite (ql_wave _ _ HR)).
  destruct (w_wave w2) as [sc|]; [|done]. apply post_bind. unfold post at 1. simpl.
  eapply (post_ok arenas_wf quiet_le); [|done|done].
  repeat ok_step; try done; [|apply ok_drain_roots; done || exact _].
  apply ok_recover_wave; done || exact _.
Qed.

Lemma delivery_quiet (rec : ∀ t, M (World V) (res t)) (body : M (World V) unit) :
  (∀ t, ok arenas_wf quiet_le (rec t)) → ok arenas_wf quiet_le body →
  ok arenas_wf quiet_le (with_delivery_scope rec body).
Proof.
  intros Hrec Hbody w Hw. unfold with_delivery_scope. apply post_gets, post_modify.
  eapply (post_ok_catch arenas_wf quiet_le); [exact Hbody|exact Hw|reflexivity|].
  intros r w2 Hw2 HR. apply post_modify.
  assert (quiet_le w (leave_delivery (w_current_delivery_id w) w2)) as HR2.
  { destruct HR. split; try done. simpl. by rewrite ql_depth0. }
  eapply (post_ok arenas_wf quiet_le); [|done|done].
  repeat ok_step. exact (Hrec TDrainRuns).
Qed.

(** A body run with a slot flag of [c] raised before and lowered after. *)
Lemma flag_bracket {B} c (raise lower : NodeSlot V → NodeSlot V) (body : M (World V) B) w n :
  get_node w c = Some n → ok arenas_wf quiet_le body → arenas_wf w →
  (∀ n n', (inside_run_wave (n_wave n') = true → inside_run_wave (n_wave (raise n)) = true) →
     inside_run_wave (n_wave (lower n')) = true → inside_run_wave (n_wave n) = true) →
  (∀ n n', (in_dep_mutation (n_wave n') = true → in_dep_mutation (n_wave (raise n)) = true) →
     in_dep_mutation (n_wave (lower n')) = true → in_dep_mutation (n_wave n) = true) →
  post (with_guard body (upd_node c lower)) (upd_node c raise w)
    (λ _ w', arenas_wf w' ∧ quiet_le w w') (λ _ w', arenas_wf w' ∧ quiet_le w w').
Proof.
  intros Hn Hbody Hw Hi Hm. apply post_guard.
  assert (∀ w2, arenas_wf w2 → quiet_le (upd_node c raise w) w2 →
    arenas_wf (upd_node c lower w2) ∧ quiet_le w (upd_node c lower w2)) as Hclose.
  { intros w2 Hw2 []. split; [by apply arenas_upd|]. split; try done.
    - intros c'. specialize (ql_inside0 c'). revert ql_inside0. unfold node_inside.
      rewrite !get_node_upd. case_decide; [|done]. subst. rewrite Hn. simpl.
      destruct (get_node w2 c') as [n2|]; simpl; [|done]. apply Hi.
    - intros c'. specialize (ql_mutating0 c'). revert ql_mutating0. unfold node_mutating.
      rewrite !get_node_upd. case_decide; [|done]. subst. rewrite Hn. simpl.
      destruct (get_node w2 c') as [n2|]; simpl; [|done]. apply Hm.
    - intros g. rewrite draining_upd. intros Hd%ql_draining0. by rewrite draining_upd in Hd. }
  eapply post_conseq; [apply Hbody; by apply arenas_upd|..]; intros ?? [??]; by apply Hclose.
Qed.

Lemma invoke_quiet c (body : M (World V) unit) :
  ok arenas_wf quiet_le body →
  ok arenas_wf quiet_le (bind (upd c begin_run) (λ _, bind (wave_set_blamed c) (λ _,
    with_guard body (upd_node c (on_wave (set_inside_run_wave (λ _, false))))))).
Proof.
  intros Hbody w Hw. apply post_bind. unfold upd. apply post_bind, post_node; [|done].
  intros n Hn. unfold post at 1. simpl. apply post_modify.
  change (set_w_wave ?f (upd_node c begin_run w)) with (upd_node c begin_run (set_w_wave f w)).
  set (w0 := set_w_wave _ w).
  assert (frame_rel w w0) as Hf by apply frame_scope.
  assert (arenas_wf w0 ∧ quiet_le w w0) as [Hw0 HR0] by (by apply el_frame).
  eapply post_conseq; [apply (flag_bracket c begin_run _ body w0 n); try done|..].
  - intros ?? [??]. split; [done|by etrans].
  - intros ?? [??]. split; [done|by etrans].
Qed.

Lemma mutation_quiet c (body : M (World V) unit) :
  ok arenas_wf quiet_le body → ok arenas_wf quiet_le (in_mutation c body).
Proof.
  intros Hbody w Hw. unfold in_mutation. apply post_bind. unfold upd.
  apply post_bind, post_node; [|done]. intros n Hn. unfold post at 1. simpl.
  by apply (flag_bracket c _ _ body w n).
Qed.

Lemma drain_quiet g (body : M (World V) (option Payload)) :
  ok arenas_wf quiet_le body → ok arenas_wf quiet_le (draining_scope g body).
Proof.
  intros Hbody w Hw. unfold draining_scope. apply post_modify. set (w1 := set_w_graphs _ w).
  assert (∀ b w', (∀ g', g' ≠ g → draining_of g' (set_w_graphs (alter (set_draining b) g) w')
            = draining_of g' w') ∧ (arenas_wf w' → arenas_wf (set_w_graphs (alter (set_draining b) g) w'))
            ∧ (∀ c, get_node (set_w_graphs (alter (set_draining b) g) w') c = get_node w' c)) as Hset.
  { intros b w'. split_and!.
    - intros g' Hg. unfold draining_of. simpl. by rewrite lookup_alter_ne.
    - intros Ha g' gr. simpl. rewrite lookup_alter. case_decide; [|by apply Ha]. subst.
      destruct (w_graphs w' !! g') eqn:Hg; simpl; [|done]. intros [= <-]. apply Ha in Hg as [].
      by split.
    - intros c. unfold get_node. simpl. rewrite lookup_alter. case_decide; [|done]. subst.
      by destruct (w_graphs w' !! c_graph c). }
  assert (∀ w2, draining_of g (stop_draining g w2) = false) as Hstop.
  { intros w2. unfold draining_of, stop_draining. simpl. rewrite lookup_alter_eq.
    by destruct (w_graphs w2 !! g). }
  assert (∀ w2, arenas_wf w2 → quiet_le w1 w2 →
    arenas_wf (stop_draining g w2) ∧ quiet_le w (stop_draining g w2)) as Hclose.
  { intros w2 Hw2 []. destruct (Hset false w2) as (Hd2 & Ha2 & Hg2).
    destruct (Hset true w) as (Hd1 & _ & Hg1). split; [by apply Ha2|]. split; try done.
    - intros c. specialize (ql_inside0 c). unfold node_inside in *. unfold stop_draining.
      rewrite Hg2. unfold w1 in ql_inside0. by rewrite Hg1 in ql_inside0.
    - intros c. specialize (ql_mutating0 c). unfold node_mutating in *. unfold stop_draining.
      rewrite Hg2. unfold w1 in ql_mutating0. by rewrite Hg1 in ql_mutating0.
    - intros g'. destruct (decide (g' = g)) as [->|Hne]; [by rewrite Hstop|].
      unfold stop_draining. rewrite Hd2 by done. intros Hg. specialize (ql_draining0 g' Hg).
      unfold w1 in ql_draining0. by rewrite Hd1 in ql_draining0. }
  apply post_guard. eapply post_conseq; [apply Hbody; by apply (Hset true w)|..];
    intros ?? [??]; by apply Hclose.
Qed.

(** The batch frame: [w1] is [w] with the frame installed. *)
Lemma batch_close w w1 w2 :
  w_active_batch w = None → w_graphs w1 = w_graphs w → w_delivery_depth w1 = w_delivery_depth w →
  is_some (w_wave w1) = is_some (w_wave w) → quiet_le w1 w2 →
  quiet_le w (set_w_active_batch (λ _, None) w2).
Proof.
  intros Hw Hg Hd Hb []. unfold node_inside, node_mutating, draining_of, get_node in *.
  rewrite Hg in *. split; simpl; [congruence|congruence|by rewrite Hw|done..].
Qed.

(** [take_late_boundary_roots] does not unwind. *)
Lemma post_take_late {B} w0 w (k : list nat → M (World V) B) Q E :
  arenas_wf w → quiet_le w0 w →
  (∀ late w', arenas_wf w' → quiet_le w0 w' → post (k late) w' Q E) →
  post (bind take_late_boundary_roots k) w Q E.
Proof.
  intros Hw HR Hk. unfold take_late_boundary_roots. apply post_bind, post_gets. simpl.
  destruct (w_active_batch w) as [b|]; unfold post at 1; simpl; [|by apply Hk].
  destruct (el_frame w _ Hw (frame_batch (set_b_boundary_roots (λ _, [])) w)).
  apply Hk; [done|by etrans].
Qed.

Lemma batch_quiet (rec : ∀ t, M (World V) (res t)) (body : M (World V) unit) :
  (∀ t, ok arenas_wf quiet_le (rec t)) → (∀ l k, ok arenas_wf quiet_le (commit rec l k)) →
  (∀ l k, ok arenas_wf quiet_le (rollback rec l k)) → ok arenas_wf quiet_le body →
  ok arenas_wf quiet_le (batch rec body).
Proof.
  intros Hrec Hcommit Hrollback Hbody w Hw. unfold batch. apply post_gets.
  destruct (w_active_batch w) as [b|] eqn:Hb; simpl; [by apply Hbody|].
  unfold new_token. apply post_bind, post_gets, post_modify. unfold post at 1. simpl.
  apply post_modify. set (w1 := set_w_active_batch _ _).
  assert (∀ w2, quiet_le w1 w2 → quiet_le w (set_w_active_batch (λ _, None) w2)) as Hclose
    by (intros w2; by apply (batch_close w w1)).
  assert (∀ l k r w2, arenas_wf w2 → quiet_le w1 w2 →
    post (rollback_and_cleanup rec l k r) w2 (λ _ w', arenas_wf w' ∧ quiet_le w w')
      (λ _ w', arenas_wf w' ∧ quiet_le w w')) as Hrb.
  { intros l k r w2 Hw2 HR. unfold rollback_and_cleanup.
    eapply (post_ok_catch arenas_wf quiet_le); [apply Hrollback|done|exact HR|].
    intros res w3 Hw3 HR3.
    eapply post_take_late; [done|exact HR3|]. intros late w4 Hw4 HR4. apply post_modify.
    eapply (post_ok arenas_wf quiet_le); [|done|by apply Hclose].
    repeat ok_step. apply ok_clear_boundary_for_roots; exact _. }
  eapply (post_ok_catch arenas_wf quiet_le); [exact Hbody|done|reflexivity|].
  intros r w2 Hw2 HR. unfold take_for_finish. apply post_bind, post_gets.
  assert (is_some (w_active_batch w2) = true) as Hs by (by rewrite (ql_batch _ _ HR)).
  destruct (w_active_batch w2) as [fin|] eqn:Hfin; [|done]. unfold post at 1. simpl.
  set (w3 := set_w_active_batch _ w2).
  assert (arenas_wf w3 ∧ quiet_le w1 w3) as [Hw3 HR3].
  { destruct (el_frame w2 w3 Hw2 (frame_batch _ w2)). split; [done|by etrans]. }
  clearbody w3. destruct r as [[]|p].
  - destruct (b_rolled_back fin).
    + apply post_bind. eapply post_conseq; [by apply Hrb|..]; [|done].
      intros [p|] w4 [Hw4 HR4]; by split.
    + eapply (post_ok_catch arenas_wf quiet_le); [apply Hcommit|done|exact HR3|].
      intros res w4 Hw4 HR4. eapply post_take_late; [done|exact HR4|]. intros late w5 Hw5 HR5.
      destruct res as [[]|p].
      * apply post_modify, post_modify.
        set (w6 := set_w_active_batch _ _).
        assert (quiet_le w w6) as HR6.
        { apply Hclose. etrans; [exact HR5|]. by split. }
        eapply (post_ok arenas_wf quiet_le); [|done|exact HR6].
        apply ok_drain_roots; [exact _|done].
      * apply post_modify. eapply (post_ok arenas_wf quiet_le); [|done|by apply Hclose].
        repeat ok_step. apply ok_clear_boundary_for_roots; exact _.
  - apply post_bind. eapply post_conseq; [by apply Hrb|..]; [|done].
    intros [p'|] w4 [Hw4 HR4]; by split.
Qed.

#[local] Instance quiet_logic : EngineLogic (V:=V) arenas_wf quiet_le.
Proof.
  split; intros.
  - by apply alloc_quiet.
  - apply commit_quiet.
  - by apply owner_quiet.
  - by apply delivery_quiet.
  - by apply invoke_quiet.
  - by apply mutation_quiet.
  - by apply drain_quiet.
  - by apply batch_quiet.
Qed.

Lemma arenas_wf_init : arenas_wf (World_init : World V).
Proof. destruct (world_inv_init (V:=V)). done. Qed.

(** ** Theorems *)

(** No wave, delivery, batch, run, dep mutation or drain is in flight. *)
Record quiescent w : Prop := {
  q_wave : w_wave w = None;
  q_depth : w_delivery_depth w = 0;
  q_batch : w_active_batch w = None;
  q_inside : ∀ c n, get_node w c = Some n → inside_run_wave (n_wave n) = false;
  q_mutation : ∀ c n, get_node w c = Some n → in_dep_mutation (n_wave n) = false;
  q_draining : ∀ g, draining_of g w = false
}.

Lemma quiet_quiescent w w' : quiescent w → quiet_le w w' → quiescent w'.
Proof.
  intros [] []. split.
  - rewrite q_wave0 in *. by destruct (w_wave w').
  - congruence.
  - rewrite q_batch0 in *. by destruct (w_active_batch w').
  - intros c n Hn. specialize (ql_inside0 c). unfold node_inside in *. rewrite Hn in *.
    destruct (inside_run_wave (n_wave n)); [|done]. specialize (ql_inside0 eq_refl).
    destruct (get_node w c) eqn:Hw; [|done]. by rewrite (q_inside0 _ _ Hw) in ql_inside0.
  - intros c n Hn. specialize (ql_mutating0 c). unfold node_mutating in *. rewrite Hn in *.
    destruct (in_dep_mutation (n_wave n)); [|done]. specialize (ql_mutating0 eq_refl).
    destruct (get_node w c) eqn:Hw; [|done]. by rewrite (q_mutation0 _ _ Hw) in ql_mutating0.
  - intros g. specialize (ql_draining0 g). rewrite q_draining0 in ql_draining0.
    destruct (draining_of g w'); [|done]. symmetry. by apply ql_draining0.
Qed.

Lemma quiescent_init : quiescent (World_init : World V).
Proof.
  assert (∀ c, get_node (World_init : World V) c = None) as Hget.
  { intros c. unfold get_node, World_init. simpl. rewrite lookup_singleton. by case_decide. }
  split; try done; [intros c n; by rewrite Hget..|].
  intros g. unfold draining_of, World_init. simpl. rewrite lookup_singleton. by case_decide.
Qed.

Context `{!CanonicalData V} (uc : UserCode V).

End Quiet.

(** ** Witness *)

(** A client whose batch panics after a write, and a fn that panics on run. *)
Definition ex_panics : UserCode Z :=
  mkUserCode (λ _ _, PPanic (PanicStr "boom")) (λ _ _, PRet) (λ _, PRet) (λ _, 0%Z).
Definition ex_panic_client : Prog Z :=
  PNewNode 0 [] None (Some 5%Z) NodeOpts_default (λ s,
    PNewNode 0 [s] (Some 0) None NodeOpts_default (λ d,
      PSubscribe d 0 (λ _,
        PBatch (PNodeDown s [Data 6%Z] (PPanic (PanicStr "client"))) PRet))).
Definition ex_panic_end : Outcome (World Z) unit :=
  @run_client Z ex_values ex_panics 30 ex_panic_client World_init.

