(* ===== verification/EngineSpec.v ===== *)
(** * What the engine's operations do

    Functional theorems about single operations: guards that reject before any
    effect, the two-phase delivery of a source, panic containment, the batch
    frame, the boundary queue, and the cycle check at the engine level. *)

From stdpp Require Import base option strings numbers sets gmap relations list.
From S2P Require Import Prelude Protocol Dispatcher Versioning Arena NodeState Receive NodeInv.
From S2P Require Import Rewire RewireFacts Engine EngineLogic EngineInv EngineQuiet.

Local Open Scope Z_scope.
Local Open Scope rx_scope.

Section Spec.
Context {V : Type} `{!CanonicalData V} (uc : UserCode V).
Implicit Types w : World V.
Implicit Types n : NodeSlot V.

(** ** Running a short operation *)

Lemma node_run c n w : get_node w c = Some n → node c w = Ret n w.
Proof. intros H. unfold node, bind, gets, expect. by rewrite H. Qed.

Lemma bind_ret {A B} (m : M (World V) A) (k : A → M (World V) B) w a w' :
  m w = Ret a w' → bind m k w = k a w'.
Proof. intros H. unfold bind. by rewrite H. Qed.

Lemma bind_unwind {A B} (m : M (World V) A) (k : A → M (World V) B) w p w' :
  m w = Unwind p w' → bind m k w = Unwind p w'.
Proof. intros H. unfold bind. by rewrite H. Qed.

Lemma with_slot_run {A} c (f : NodeSlot V → NodeSlot V * A) n w :
  get_node w c = Some n → with_slot c f w = Ret (f n).2 (upd_node c (λ _, (f n).1) w).
Proof. intros H. unfold with_slot. by rewrite (bind_ret _ _ _ _ _ (node_run _ _ _ H)). Qed.

Lemma upd_run c f n w : get_node w c = Some n → upd c f w = Ret tt (upd_node c f w).
Proof. intros H. unfold upd. by rewrite (bind_ret _ _ _ _ _ (node_run _ _ _ H)). Qed.

(** ** Guards *)

Section Guards.
Variable rec : ∀ t : Task V, M (World V) (res t).

Lemma for_each_assert (l : list (Msg V)) (p : Msg V → bool) (msg : Msg V → string) w :
  for_each l (λ m, assert_or (p m) (msg m)) w
  = match List.find (λ m, negb (p m)) l with
    | Some m => Unwind (PanicStr (msg m)) w
    | None => Ret tt w
    end.
Proof.
  induction l as [|m l IH]; simpl; [done|]. unfold bind, assert_or.
  destruct (p m); simpl; [exact IH|done].
Qed.

(** An upstream send is atomic in its direction check: if any message of
    the list may not travel upstream, the call panics naming the first such
    message before it has changed anything. *)
Theorem up_rejects_down_only c msgs toward_dep w m :
  List.find (λ m, negb (is_up_allowed m)) msgs = Some m →
  up rec c msgs toward_dep w = Unwind (PanicStr (down_only_msg m)) w.
Proof.
  intros Hf. unfold up. apply bind_unwind. rewrite for_each_assert. by rewrite Hf.
Qed.

(** ** Panic containment *)

Lemma reset_touched_run (l : list Core) w : ∃ w', for_each l reset_touched w = Ret tt w'.
Proof.
  revert w. induction l as [|c l IH]; intros w; [by exists w|]. simpl. unfold bind, reset_touched at 1.
  simpl. apply IH.
Qed.

End Guards.

(** ** A source outside batches and pauses *)

(** A live source (no fn) that is idle, not paused, outside a batch, and whose
    versioning accepts every value. *)
Record idle_source (c : Core) w n : Prop := {
  so_node : get_node w c = Some n;
  so_fn : handle (n_call n) = None;
  so_live : v_terminal (n_value n) = false;
  so_inside : inside_run_wave (n_wave n) = false;
  so_dirty : emitted_dirty_this_wave (n_wave n) = false;
  so_paused : paused n = false;
  so_pull : cfg_pull_id (n_config n) = None;
  so_policy : ∀ v, assert_node_version_data_compatible (vs_policy (n_version n)) v = inr tt;
  so_batch : w_active_batch w = None
}.

Lemma pin_once_batch c w : w_active_batch (pin_once c w) = w_active_batch w.
Proof. unfold pin_once. by repeat case_match. Qed.

Lemma idle_source_frame c w w' n :
  frame_rel w w' → w_active_batch w' = w_active_batch w → idle_source c w n → idle_source c w' n.
Proof. intros Hf Hb []. split; try done; [by rewrite (frame_get_node _ _ _ Hf)|congruence]. Qed.

Lemma assert_versions_run n l w :
  (∀ v, assert_node_version_data_compatible (vs_policy (n_version n)) v = inr tt) →
  assert_versions n l w = Ret tt w.
Proof.
  intros Hp. unfold assert_versions. induction l as [|m l IH]; [done|]. simpl.
  rewrite (bind_ret _ _ w tt w); [exact IH|]. destruct m; try done. by rewrite Hp.
Qed.

(** Up to emission, [down] on such a source only enrolls it in the wave. *)
Lemma down_idle rec c msgs w n :
  idle_source c w n →
  down uc rec c msgs w = emit_wave uc rec c false (shape_wave msgs) (pin_once c w).
Proof.
  intros Hs. unfold down. rewrite (bind_ret _ _ _ _ _ (node_run _ _ _ (so_node _ _ _ Hs))).
  rewrite (so_live _ _ _ Hs). unfold wave_register.
  rewrite (bind_ret _ _ w tt (pin_once c w)) by done.
  apply (idle_source_frame c w _ n (frame_pin_once c w) (pin_once_batch c w)) in Hs as Hs1.
  set (w1 := pin_once c w) in *.
  pose proof (node_run _ _ _ (so_node _ _ _ Hs1)) as Hnode. rewrite (bind_ret _ _ _ _ _ Hnode).
  rewrite (bind_ret _ _ w1 tt w1) by (by apply assert_versions_run, (so_policy _ _ _ Hs1)).
  rewrite (bind_ret _ _ w1 (Some (shape_wave msgs)) w1).
  2:{ unfold capture_in_batch, collecting_batch, bind, gets.
      rewrite (so_batch _ _ _ Hs1). by rewrite andb_false_r. }
  rewrite (bind_ret _ _ w1 (Some (shape_wave msgs)) w1); [by rewrite (so_inside _ _ _ Hs1)|].
  unfold buffer_on_pause, is_async_node. unfold bind at 1 2. rewrite Hnode. simpl.
  rewrite (so_fn _ _ _ Hs1). simpl. rewrite (bind_ret _ _ _ _ _ Hnode).
  unfold should_buffer_on_pause, pull_quiet.
  rewrite (so_paused _ _ _ Hs1), (so_pull _ _ _ Hs1). by destruct (pausable (n_config n)).
Qed.

(** A wave that mixes DATA and RESOLVED is rejected before anything of it is
    delivered: nothing is logged and no node's slot changes. *)
Theorem mixed_wave_rejected rec c msgs w n :
  idle_source c w n → tier3_exclusive (shape_wave msgs) = false →
  ∃ w', down uc rec c msgs w = Unwind (PanicStr mixed_msg) w'
        ∧ w_log w' = w_log w ∧ ∀ c', get_node w' c' = get_node w c'.
Proof.
  intros Hs Hmix. exists (pin_once c w). rewrite (down_idle rec c msgs w n Hs). split_and!.
  - unfold emit_wave. apply bind_unwind. by rewrite Hmix.
  - apply (fr_log _ _ (frame_pin_once c w)).
  - intros c'. apply frame_get_node, frame_pin_once.
Qed.

(** ** Delivery to inert sinks *)

(** Client sinks that only observe. *)
Definition observer (s : Sink) : Prop :=
  match s with ExtSink sk => ∀ m, sink_code uc sk m = PRet | DepSink _ _ => False end.

Definition sink_event (m : Msg V) (s : Sink) : Event V :=
  match s with ExtSink sk => EvSink sk m | DepSink _ _ => EvHook 0%nat end.

Definition append_log (l : list (Event V)) w : World V := set_w_log (λ l0, l0 ++ l) w.

Lemma append_log_app l k w : append_log k (append_log l w) = append_log (l ++ k) w.
Proof. unfold append_log, set_w_log. simpl. by rewrite (assoc_L (++)). Qed.

Lemma deliver_observers fuel subs m w :
  Forall observer subs →
  deliver_subscriber_snapshot uc (exec uc (S fuel)) subs m w
  = Ret tt (append_log (sink_event m <$> subs) w).
Proof.
  unfold deliver_subscriber_snapshot. revert w.
  induction subs as [|s subs IH]; intros w Hs.
  - unfold append_log, set_w_log. simpl. rewrite app_nil_r. by destruct w.
  - apply Forall_cons in Hs as [Hs Hl]. simpl.
    rewrite (bind_ret _ _ w tt (append_log [sink_event m s] w)).
    + rewrite IH by done. by rewrite append_log_app.
    + destruct s as [|sk]; [done|]. cbn [deliver_sink observer] in *.
      unfold log. rewrite (bind_ret _ _ w tt (append_log [EvSink sk m] w)) by done.
      cbn [exec exec_task]. by rewrite Hs.
Qed.

Lemma get_node_append l w c : get_node (append_log l w) c = get_node w c.
Proof. done. Qed.

(** The slot after DIRTY, after DATA, and when the call ends. *)
Definition dirtied n : NodeSlot V :=
  on_value (set_v_status (λ _, Status.Dirty)) (on_wave (set_emitted_dirty_this_wave (λ _, true)) n).
Definition settled (v : V) (nv : option NodeVersion) n : NodeSlot V :=
  (collect_down (Data v) nv n).1.
Definition wave_over n : NodeSlot V :=
  on_wave (λ x, set_emitted_tier3_this_wave (λ _, false)
                  (set_emitted_dirty_this_wave (λ _, false) x)) n.

Lemma emit_dirty_observers fuel c n w :
  get_node w c = Some n → emitted_dirty_this_wave (n_wave n) = false →
  Forall observer (snapshot_subscribers n) →
  emit_dirty_once uc (exec uc (S fuel)) c w
  = Ret tt (append_log (EvEmit c Dirty :: (sink_event Dirty <$> snapshot_subscribers n))
      (upd_node c (λ _, dirtied n) w)).
Proof.
  intros Hn He Hs. unfold emit_dirty_once.
  rewrite (bind_ret _ _ _ _ _ (with_slot_run c _ n w Hn)). rewrite He. cbn [fst snd].
  unfold log. rewrite (bind_ret _ _ _ tt (append_log [EvEmit c Dirty] (upd_node c (λ _, dirtied n) w)))
    by done.
  rewrite deliver_observers by done. by rewrite append_log_app.
Qed.

Lemma emit_data_observers fuel c v nv n w :
  get_node w c = Some n →
  advance_node_version (vs_value (n_version n)) (vs_policy (n_version n)) v = inr nv →
  Forall observer (snapshot_subscribers n) →
  emit_message uc (exec uc (S fuel)) c (Data v) w
  = Ret tt (append_log (EvEmit c (Data v) :: (sink_event (Data v) <$> snapshot_subscribers n))
      (upd_node c (λ _, settled v nv n) w)).
Proof.
  intros Hn Hp Hs. unfold emit_message, collect_down_action.
  rewrite (bind_ret _ _ w (Some (DownEmit (Data v) (snapshot_subscribers n)))
    (append_log [EvEmit c (Data v)] (upd_node c (λ _, settled v nv n) w))).
  - cbn [apply_down_action]. rewrite deliver_observers by done. by rewrite append_log_app.
  - rewrite (bind_ret _ _ _ _ _ (node_run _ _ _ Hn)). unfold next_version_for. rewrite Hp.
    rewrite (bind_ret _ _ w nv w) by done.
    unfold commit_down. by rewrite (bind_ret _ _ _ _ _ (with_slot_run c _ n w Hn)).
Qed.


(** ** The batch frame *)

(** The captured slice of a target, if any. *)
Definition captured (b : ActiveBatch V) (c : Core) : option (Wave V) :=
  i ← position (ptr_eq c) (b_targets b); mjoin (b_deferred b !! i).

Record batch_wf (b : ActiveBatch V) : Prop := {
  bw_deferred : length (b_deferred b) = length (b_targets b);
  bw_order : b_order b = seq 0 (length (b_targets b));
  bw_nodup : NoDup (b_targets b)
}.

Lemma captured_replace b c wave i :
  batch_wf b → position (ptr_eq c) (b_targets b) = Some i →
  ∀ c', captured (set_b_deferred <[i := Some wave]> b) c'
        = if decide (c' = c) then Some wave else captured b c'.
Proof.
  intros [Hd _ Hnd] Hi c'. unfold captured. simpl. fold (idx c' (b_targets b)).
  apply idx_Some in Hi as Hi'. destruct Hi' as [Hi' _]. case_decide as Hc.
  - subst. unfold idx. rewrite Hi. simpl. rewrite list_lookup_insert_eq; [done|].
    rewrite Hd. by eapply lookup_lt_Some.
  - destruct (idx c' (b_targets b)) as [j|] eqn:Hj; simpl; [|done].
    apply idx_Some in Hj as [Hj _]. rewrite list_lookup_insert_ne; [done|].
    intros <-. congruence.
Qed.

Lemma captured_snoc b c wave :
  batch_wf b → position (ptr_eq c) (b_targets b) = None →
  ∀ c', captured (set_b_targets (λ l, l ++ [c]) (set_b_deferred (λ l, l ++ [Some wave])
          (set_b_order (λ l, l ++ [length (b_targets b)]) b))) c'
        = if decide (c' = c) then Some wave else captured b c'.
Proof.
  intros [Hd _ Hnd] Hi c'. unfold captured. simpl.
  fold (idx c' (b_targets b ++ [c])) (idx c' (b_targets b)). rewrite idx_snoc.
  destruct (idx c' (b_targets b)) as [j|] eqn:Hj; simpl.
  - apply idx_Some in Hj as [Hj _]. rewrite decide_False.
    + rewrite lookup_app_l; [done|]. rewrite Hd. by eapply lookup_lt_Some.
    + intros ->. apply idx_None in Hi. apply Hi. by eapply list_elem_of_lookup_2.
  - unfold ptr_eq. case_bool_decide; [rewrite decide_True by done|by rewrite decide_False].
    simpl. by rewrite <-Hd, lookup_app_r, Nat.sub_diag by lia.
Qed.

(** While a batch collects, a deferred slice of a live target is captured
    and replaces the slice captured for the same target before (the last write
    wins), no other target's slice moves, and targets stay distinct and in the
    order of first capture. *)
Theorem batch_last_write_wins c wave w b :
  w_active_batch w = Some b → b_collecting b = true → batch_wf b → is_Some (get_node w c) →
  ∃ b', defer_to_batch c wave w = Ret true (set_w_active_batch (λ _, Some b') w)
    ∧ batch_wf b' ∧ (∀ c', captured b' c' = if decide (c' = c) then Some wave else captured b c')
    ∧ b_targets b `prefix_of` b_targets b' ∧ b_committed b' = b_committed b.
Proof.
  intros Hb Hc Hwf [n Hn]. unfold defer_to_batch.
  rewrite (bind_ret _ _ w w w) by done. rewrite Hb, Hc. cbn [negb].
  destruct (position (ptr_eq c) (b_targets b)) as [i|] eqn:Hi.
  - exists (set_b_deferred <[i := Some wave]> b). split_and!.
    + unfold bind, modify, ret. unfold set_w_active_batch. simpl. by rewrite Hb.
    + destruct Hwf. split; simpl; [by rewrite length_insert|done..].
    + by apply captured_replace.
    + done.
    + done.
  - rewrite Hn. cbn [is_some negb]. eexists. split_and!.
    + unfold bind, modify, ret. unfold set_w_active_batch. simpl. rewrite Hb. simpl. reflexivity.
    + destruct Hwf. split; simpl; rewrite ?length_app; simpl; [lia| |].
      * by rewrite bw_order0, Nat.add_1_r, seq_S.
      * apply list.NoDup_app. split_and!; [done| |apply NoDup_singleton].
        intros d Hd ->%list_elem_of_singleton. by apply idx_None in Hi.
    + by apply captured_snoc.
    + simpl. by apply prefix_app_r.
    + done.
Qed.

(** ** Committed boundaries *)

(** A boundary request whose batch did not commit never takes effect: run,
    it does nothing; and the cleanup after a rollback removes exactly the
    requests without a commit, keeping the order of the others. *)
Theorem uncommitted_requests_dropped rec g t w :
  w_tokens w !! task_committed t = Some false →
  run_boundary_task uc rec g t w = Ret None w
  ∧ ∃ w', clear_deferred_boundary_root g w = Ret tt w' ∧ t ∉ queue_of g w'
    ∧ queue_of g w' = List.filter (λ t, default false (w_tokens w !! task_committed t)) (queue_of g w)
    ∧ ∀ c, get_node w' c = get_node w c.
Proof.
  intros Ht. split.
  - unfold run_boundary_task, token_set.
    rewrite (bind_ret _ _ w false w) by (unfold gets; by rewrite Ht). done.
  - set (f := List.filter (λ t, default false (w_tokens w !! task_committed t))).
    exists (set_w_graphs (alter (set_queue f) g) w).
    assert (queue_of g (set_w_graphs (alter (set_queue f) g) w) = f (queue_of g w)) as Hq.
    { unfold queue_of. simpl. rewrite lookup_alter_eq. by destruct (w_graphs w !! g). }
    split_and!; [done| |done|].
    + rewrite Hq. unfold f. rewrite list_elem_of_In, List.filter_In, Ht. by intros [_ ?].
    + intros c. by apply frame_get_node, frame_queue.
Qed.

(** A committed self-request of a live, paused node waits. *)
Definition waiting_task (g : nat) w (t : BoundaryTask V) : Prop :=
  w_tokens w !! task_committed t = Some true
  ∧ match t with
    | BRewire c _ _ | BUp c _ _ _ =>
        c_graph c = g ∧ ∃ n, get_node w c = Some n ∧ paused n = true
    | _ => False
    end.

Lemma run_waiting_task rec g t w :
  waiting_task g w t → run_boundary_task uc rec g t w = Ret (Some t) w.
Proof.
  intros [Ht Hc]. unfold run_boundary_task, token_set.
  rewrite (bind_ret _ _ w true w) by (unfold gets; by rewrite Ht). cbn [negb].
  assert (∀ c n, c_graph c = g → get_node w c = Some n → paused n = true →
    task_target_live g c w = Ret true w ∧ node_paused c w = Ret true w) as Hrun.
  { intros c n Hg Hn Hp. unfold task_target_live, node_paused, is_live, gets.
    rewrite bool_decide_true by done. rewrite Hn. split; [done|].
    rewrite (bind_ret _ _ _ _ _ (node_run _ _ _ Hn)). by rewrite Hp. }
  destruct t; try done; destruct Hc as (Hg & n & Hn & Hp);
    destruct (Hrun _ _ Hg Hn Hp) as [H1 H2];
    rewrite (bind_ret _ _ _ _ _ H1); cbn [negb]; by rewrite (bind_ret _ _ _ _ _ H2).
Qed.

Definition with_queue (g : nat) (q : list (BoundaryTask V)) w : World V :=
  set_w_graphs (alter (set_queue (λ _, q)) g) w.

Lemma with_queue_update f g q w gr :
  w_graphs w !! g = Some gr →
  set_w_graphs (alter (set_queue f) g) (with_queue g q w) = with_queue g (f q) w.
Proof.
  intros Hg. unfold with_queue, set_w_graphs. simpl. f_equal. apply map_eq. intros i.
  rewrite !lookup_alter. repeat case_decide; try done. subst. by rewrite Hg.
Qed.

Lemma queue_of_with_queue g q w gr : w_graphs w !! g = Some gr → queue_of g (with_queue g q w) = q.
Proof. intros Hg. unfold queue_of, with_queue. simpl. by rewrite lookup_alter_eq, Hg. Qed.

Lemma waiting_with_queue g q w t : waiting_task g w t → waiting_task g (with_queue g q w) t.
Proof.
  intros [Ht Hc]. split; [exact Ht|].
  assert (∀ c, get_node (with_queue g q w) c = get_node w c) as Hget
    by (intros c; apply frame_get_node, frame_queue).
  destruct t; try done; destruct Hc as (Hg & n & Hn & Hp); (split; [done|]);
    exists n; by rewrite Hget.
Qed.

(** One turn of the loop over a queue of waiting tasks. *)
Lemma drain_loop_rotate rec g gr t q w escaped blocked :
  w_graphs w !! g = Some gr → waiting_task g w t →
  drain_loop uc rec g escaped blocked (with_queue g (t :: q) w)
  = if bool_decide (S (length q) ≤ S blocked)%nat
    then Ret escaped (with_queue g (q ++ [t]) w)
    else rec (TDrainLoop g escaped (S blocked)) (with_queue g (q ++ [t]) w).
Proof.
  intros Hg Ht. unfold drain_loop, pop_boundary.
  rewrite (bind_ret _ _ _ (Some t) (with_queue g q w)).
  2:{ rewrite (bind_ret _ _ _ (t :: q) (with_queue g (t :: q) w))
        by (unfold gets; by rewrite (queue_of_with_queue g (t :: q) w gr Hg)).
      unfold upd_graph, bind, modify, ret. by rewrite (with_queue_update _ _ _ _ gr Hg). }
  rewrite (bind_ret _ _ _ (inl (Some t)) (with_queue g q w))
    by (unfold catch_unwind; by rewrite (run_waiting_task rec g t _ (waiting_with_queue g q w t Ht))).
  rewrite (bind_ret _ _ _ tt (with_queue g (q ++ [t]) w)).
  2:{ unfold upd_graph, modify. by rewrite (with_queue_update _ _ _ _ gr Hg). }
  rewrite (bind_ret _ _ _ (S (length q)) (with_queue g (q ++ [t]) w))
    by (unfold gets; rewrite (queue_of_with_queue g _ w gr Hg), length_app; simpl;
        by rewrite Nat.add_1_r).
  by case_bool_decide.
Qed.

(** The drain of a boundary queue whose committed requests all wait for a
    paused node terminates after one turn per request, runs none of them and
    leaves the queue as it was. *)
Theorem drain_waiting_terminates fuel g gr q w :
  w_graphs w !! g = Some gr → q ≠ [] → Forall (waiting_task g w) q →
  exec uc (length q + fuel) (TDrainLoop g None 0) (with_queue g q w) = Ret None (with_queue g q w).
Proof.
  intros Hg Hne Hq.
  assert (∀ q1 q2, q1 ≠ [] → Forall (waiting_task g w) (q1 ++ q2) →
    exec uc (length q1 + fuel) (TDrainLoop g None (length q2)) (with_queue g (q1 ++ q2) w)
    = Ret None (with_queue g (q2 ++ q1) w)) as H.
  { intros q1. induction q1 as [|t q1 IH]; intros q2 Hn Hall; [done|].
    apply Forall_cons in Hall as [Ht Hall]. cbn [length Nat.add exec exec_task app].
    rewrite (drain_loop_rotate _ g gr t (q1 ++ q2) w _ _ Hg Ht). rewrite length_app.
    destruct q1 as [|t' q1].
    - rewrite bool_decide_true by (simpl; lia). done.
    - rewrite bool_decide_false by (simpl; lia).
      specialize (IH (q2 ++ [t]) ltac:(done)).
      rewrite length_app, Nat.add_1_r in IH. rewrite <-!(assoc_L (++)) in *. apply IH.
      rewrite (assoc_L (++)). apply Forall_app. split; [done|by apply Forall_singleton]. }
  specialize (H q [] Hne). rewrite app_nil_r in H. by apply H.
Qed.

(** ** The cycle check of a rewire *)

Lemma bind_inv {A B} (m : M (World V) A) (k : A → M (World V) B) w b w' :
  bind m k w = Ret b w' → ∃ a w1, m w = Ret a w1 ∧ k a w1 = Ret b w'.
Proof. unfold bind. destruct (m w) as [a w1| |]; [eauto|done..]. Qed.

Lemma assert_inv b msg w w' : assert_or b msg w = Ret tt w' → b = true ∧ w' = w.
Proof. unfold assert_or. destruct b; [by intros [= <-]|done]. Qed.

Lemma node_inv_ret c n w w' : node c w = Ret n w' → get_node w c = Some n ∧ w' = w.
Proof. unfold node, bind, gets, expect. destruct (get_node w c); [by intros [= <- <-]|done]. Qed.

Lemma for_each_inv {A} (l : list A) (f : A → M (World V) unit) (P : A → Prop) w w' :
  (∀ a w1, a ∈ l → f a w = Ret tt w1 → w1 = w ∧ P a) → for_each l f w = Ret tt w' →
  w' = w ∧ Forall P l.
Proof.
  induction l as [|a l IH]; intros Hf; simpl; [by intros [= <-]|].
  intros (u & w1 & H1 & H2)%bind_inv. destruct u. apply Hf in H1 as [-> HP]; [|by left].
  apply IH in H2 as [-> HF]; [split; [done|by constructor]|].
  intros b w1 Hb. apply Hf. by right.
Qed.

(** What a passed check of an added dep says. *)
Lemma check_added_dep_inv c d w w1 :
  c_graph d = c_graph c → check_added_dep c d w = Ret tt w1 →
  w1 = w ∧ ∃ g, w_graphs w !! c_graph c = Some g
                ∧ reachable_upstream g (c_key d) (c_key c) = Some false.
Proof.
  intros Hg (b & w2 & H1 & H2)%bind_inv.
  apply bind_inv in H2 as ([] & w3 & H2 & H3). apply assert_inv in H2 as [Hb ->].
  apply bind_inv in H3 as (n & w4 & H3 & H4). apply node_inv_ret in H3 as [Hn ->].
  apply assert_inv in H4 as [_ ->]. unfold check_reachable in H1.
  unfold same_graph in H1. rewrite bool_decide_true in H1 by done. cbn [negb] in H1.
  apply bind_inv in H1 as (g & w5 & [= <- <-] & H1). rewrite Hg in H1.
  destruct (w_graphs w !! c_graph c) as [g|]; simpl in H1; [|done].
  destruct (reachable_upstream g (c_key d) (c_key c)) as [b'|] eqn:Hr; [|done].
  unfold ret in H1. simplify_eq. split; [done|]. exists g. by destruct b.
Qed.

Definition same_arena_deps (c : Core) (l : list Core) : Prop := ∀ d, d ∈ l → c_graph d = c_graph c.

(** C35: the checks a rewire runs are enough to keep a graph acyclic: if they
    pass (they read but never write), then installing the new dep list on the
    node makes no cycle, whatever happens to the kept deps' bookkeeping. *)
Theorem accepted_rewire_acyclic c new_deps allow w w' g n2o boxes :
  w_graphs w !! c_graph c = Some g → acyclic g → same_arena_deps c new_deps →
  check_rewire c new_deps allow w = Ret tt w' →
  w' = w ∧ ∃ g', w_graphs (upd_node c (rebuild_slot new_deps n2o boxes) w) !! c_graph c = Some g'
                 ∧ acyclic g'.
Proof.
  intros Hg Hac Hsame (n & w1 & H1 & H2)%bind_inv. apply node_inv_ret in H1 as [Hn ->].
  apply bind_inv in H2 as ([] & w1 & H1 & H2). apply assert_inv in H1 as [_ ->].
  apply bind_inv in H2 as ([] & w1 & H1 & H2). apply assert_inv in H1 as [_ ->].
  apply bind_inv in H2 as ([] & w1 & H1 & H2). apply assert_inv in H1 as [_ ->].
  apply bind_inv in H2 as ([] & w1 & H1 & H2). apply assert_inv in H1 as [Hself ->].
  assert (w' = w ∧ Forall (λ d, reachable_upstream g (c_key d) (c_key c) = Some false)
    (List.filter (λ d, negb (contains_core d (n_deps n))) new_deps)) as [-> Hall].
  { eapply for_each_inv; [|exact H2]. intros d w1 Hin Hd.
    apply list_elem_of_In, List.filter_In in Hin as [Hin%list_elem_of_In _].
    apply check_added_dep_inv in Hd as (-> & g' & Hg' & Hr); [|by apply Hsame]. by simplify_eq. }
  split; [done|]. exists (Arena.upd g (c_key c) (rebuild_slot new_deps n2o boxes)). split.
  { unfold upd_node. simpl. by rewrite lookup_alter_eq, Hg. }
  assert (Arena.get g (c_key c) = Some n) as Hget
    by (unfold get_node in Hn; rewrite Hg in Hn; exact Hn).
  apply acyclic_set_deps; [done|]. intros n0 b Hn0 Hb Hreach. simplify_eq.
  change (n_deps (rebuild_slot new_deps n2o boxes n)) with new_deps in Hb.
  apply list_elem_of_fmap in Hb as (d & -> & Hd).
  destruct (decide (d ∈ n_deps n)) as [Hold|Hnew].
  - apply (Hac (c_key c)). eapply tc_rtc_r; [|exact Hreach]. apply tc_once. exists n.
    split; [done|]. apply list_elem_of_fmap. by exists d.
  - rewrite Forall_forall in Hall. specialize (Hall d).
    destruct (reachable_upstream_exact g (c_key d) (c_key c)) as (b & Hb & Hiff).
    rewrite Hall in Hb by (apply list_elem_of_In, List.filter_In; split;
      [by apply list_elem_of_In|by rewrite (proj2 (contains_core_false d (n_deps n)))]).
    simplify_eq. assert (false = true) by (apply Hiff; split; [|done];
      apply get_is_live; by eexists). done.
Qed.
End Spec.

(** ** Witnesses *)

Section Witnesses.
#[local] Existing Instance ex_values.
Open Scope nat_scope.

(** [assert_node x in H]: read a slot of a concrete world. *)
Ltac concrete_node w c n :=
  let r := eval vm_compute in (get_node w c) in
  match r with Some ?x => set (n := x) end.

Definition ex_nothing : ∀ t : Task Z, M (World Z) (res t) := λ _, no_fuel.

Lemma up_rejects_down_only_witness :
  up ex_nothing (ex_core 0) [Pause "l"%string; Data 1%Z; Complete] None World_init
  = Unwind (PanicStr (down_only_msg (Data 1%Z))) World_init.
Proof. apply up_rejects_down_only. reflexivity. Defined.

(** A source with an observer. *)
Definition ex_watched : World Z :=
  world_of (run_client ex_user 20 (PNewNode 0 [] None (Some 5%Z) NodeOpts_default (λ s,
    PSubscribe s 0 (λ _, PRet))) World_init).

Lemma ex_watched_idle : ∃ n, idle_source (ex_core 0) ex_watched n
  ∧ snapshot_subscribers n = [ExtSink 0]
  ∧ advance_node_version (vs_value (n_version n)) (vs_policy (n_version n)) 6%Z = inr (Some (V0 1)).
Proof.
  concrete_node ex_watched (ex_core 0) n. exists n.
  split; [split; vm_compute; reflexivity|split; vm_compute; reflexivity].
Qed.

Lemma mixed_wave_rejected_witness :
  ∃ w', down ex_user ex_nothing (ex_core 0) [Data 6%Z; Resolved] ex_watched
        = Unwind (PanicStr mixed_msg) w' ∧ w_log w' = w_log ex_watched
        ∧ ∀ c', get_node w' c' = get_node ex_watched c'.
Proof.
  destruct ex_watched_idle as (n & Hn & _).
  apply (mixed_wave_rejected ex_user ex_nothing (ex_core 0) _ ex_watched n Hn).
  vm_compute. reflexivity.
Defined.


(** The same source inside an open batch. *)
Definition ex_batch : ActiveBatch Z := mkActiveBatch [] [] [] [] 0 false true.
Definition ex_batching : World Z := set_w_active_batch (λ _, Some ex_batch) ex_watched.

Lemma batch_last_write_wins_witness :
  ∃ b', defer_to_batch (ex_core 0) [Data 6%Z] ex_batching
        = Ret true (set_w_active_batch (λ _, Some b') ex_batching)
    ∧ captured b' (ex_core 0) = Some [Data 6%Z].
Proof.
  destruct (batch_last_write_wins (ex_core 0) [Data 6%Z] ex_batching ex_batch)
    as (b' & H1 & _ & H2 & _).
  - reflexivity.
  - reflexivity.
  - split; [reflexivity..|constructor].
  - concrete_node ex_batching (ex_core 0) n. exists n. vm_compute. reflexivity.
  - exists b'. split; [exact H1|]. by rewrite H2, decide_True.
Defined.

(** A queued self-request of a paused node, with and without its commit. *)
Definition ex_paused_world (committed : bool) : World Z :=
  set_w_tokens (λ _, [committed])
    (upd_node (ex_core 0) (on_aux (set_pause_lockset (λ _, ["l"%string]))) ex_watched).
Definition ex_request : BoundaryTask Z := BUp (ex_core 0) [Invalidate] None 0.

Lemma uncommitted_requests_dropped_witness :
  run_boundary_task ex_user ex_nothing 0 ex_request (with_queue 0 [ex_request] (ex_paused_world false))
  = Ret None (with_queue 0 [ex_request] (ex_paused_world false)).
Proof. apply uncommitted_requests_dropped. reflexivity. Defined.

Lemma drain_waiting_terminates_witness :
  exec ex_user 7 (TDrainLoop 0 None 0) (with_queue 0 [ex_request; ex_request] (ex_paused_world true))
  = Ret None (with_queue 0 [ex_request; ex_request] (ex_paused_world true)).
Proof.
  assert (waiting_task 0 (ex_paused_world true) ex_request) as Hw.
  { split; [reflexivity|]. split; [reflexivity|].
    concrete_node (ex_paused_world true) (ex_core 0) n. exists n.
    split; vm_compute; reflexivity. }
  let g := eval vm_compute in (w_graphs (ex_paused_world true) !! 0) in
  match g with
  | Some ?gr =>
      apply (drain_waiting_terminates ex_user 5 0 gr [ex_request; ex_request] (ex_paused_world true))
  end.
  - vm_compute. reflexivity.
  - discriminate.
  - constructor; [exact Hw|constructor; [exact Hw|constructor]].
Defined.

(** Two sources and a node over the first, about to move to the second. *)
Definition ex_two_sources : World Z :=
  world_of (run_client ex_user 20 (PNewNode 0 [] None (Some 5%Z) NodeOpts_default (λ s,
    PNewNode 0 [] None (Some 6%Z) NodeOpts_default (λ t,
    PNewNode 0 [s] (Some 0) None NodeOpts_default (λ _, PRet)))) World_init).

Lemma accepted_rewire_acyclic_witness :
  ∃ g, w_graphs (upd_node (ex_core 2) (rebuild_slot [ex_core 1] [None] [9]) ex_two_sources) !! 0 = Some g
       ∧ acyclic g.
Proof.
  let g := eval vm_compute in (w_graphs ex_two_sources !! 0) in
  match g with Some ?gr => set (g0 := gr) end.
  destruct (accepted_rewire_acyclic (ex_core 2) [ex_core 1] false ex_two_sources ex_two_sources g0
    [None] [9]) as (_ & g & Hg & Ha).
  - vm_compute. reflexivity.
  - apply acyclic_index. intros [i gen] b (n & Hn & Hb). apply get_Some in Hn as [_ Hn].
    simpl in Hn. destruct i as [|[|[|i]]]; simplify_eq/=; [by apply elem_of_nil in Hb..|].
    apply list_elem_of_singleton in Hb as ->. simpl. lia.
  - intros d ->%list_elem_of_singleton. reflexivity.
  - vm_compute. reflexivity.
  - by exists g.
Defined.
End Witnesses.
