(* ===== verification/Spreadsheet.v ===== *)
(** * The engine against its specification: a spreadsheet

    The contract of the wave engine on a network of pure nodes: after a write to
    a source, every node holds the value its formula gives over the current
    sources, every affected node ran once, on final values only, and told its
    observers DIRTY and then its new value, once.  [Network] is the abstract
    spreadsheet and [eval] its meaning; [net_static] and [settled_net] say that
    a world implements it and is at rest. *)

From stdpp Require Import base option strings numbers sets gmap relations functions list.
From S2P Require Import Prelude Protocol Dispatcher Versioning Arena NodeState Receive NodeInv.
From S2P Require Import Phases Rewire RewireFacts Engine EngineRun EngineLogic EngineInv EngineQuiet.
From S2P Require Import EngineSpec.

Local Open Scope rx_scope.

Lemma length_filter_le {A} (P P' : A → Prop) `{DP : ∀ x, Decision (P x), DP' : ∀ x, Decision (P' x)}
    (l : list A) :
  (∀ x, P' x → P x) → length (filter P' l) ≤ length (filter P l).
Proof.
  intros HP. induction l as [|x l IH]; [done|]. rewrite !filter_cons. specialize (HP x).
  repeat case_decide; simpl; try lia. tauto.
Qed.

Lemma length_filter_lt {A} (P P' : A → Prop) `{DP : ∀ x, Decision (P x), DP' : ∀ x, Decision (P' x)}
    (l : list A) c :
  (∀ x, P' x → P x) → c ∈ l → P c → ¬ P' c → length (filter P' l) < length (filter P l).
Proof.
  intros HP Hc H0 H1. induction l as [|x l IH]; [set_solver|]. rewrite !filter_cons.
  pose proof (length_filter_le P P' l HP) as Hle. apply elem_of_cons in Hc as [<-|Hin].
  - rewrite decide_False, decide_True by done. simpl. lia.
  - specialize (IH Hin). specialize (HP x). repeat case_decide; simpl; try lia. tauto.
Qed.

(** ** The abstract spreadsheet *)

Record Network (V : Type) := mkNetwork {
  nw_nodes : list Core;
  nw_deps : Core → list Core;
  nw_fn : Core → option (list V → V);
  nw_rank : Core → nat
}.
Arguments mkNetwork {V} _ _ _ _.
Arguments nw_nodes {V} _.
Arguments nw_deps {V} _ _.
Arguments nw_fn {V} _ _.
Arguments nw_rank {V} _ _.

Section Spec.
Context {V : Type}.
Implicit Types N : Network V.
Implicit Types val src : Core → V.

(** Deps are nodes of a lower rank; sources have none. *)
Record network_wf N : Prop := {
  nw_closed : ∀ c d, c ∈ nw_nodes N → d ∈ nw_deps N c → d ∈ nw_nodes N ∧ (nw_rank N d < nw_rank N c)%nat;
  nw_source : ∀ c, c ∈ nw_nodes N → nw_fn N c = None → nw_deps N c = [];
  nw_derived : ∀ c F, c ∈ nw_nodes N → nw_fn N c = Some F → nw_deps N c ≠ []
}.

(** The value of a node over the values of the sources. *)
Fixpoint eval_upto (k : nat) N src (c : Core) : V :=
  match k with
  | O => src c
  | S k' =>
      match nw_fn N c with
      | None => src c
      | Some F => F (eval_upto k' N src <$> nw_deps N c)
      end
  end.
Definition eval N src (c : Core) : V := eval_upto (S (nw_rank N c)) N src c.

(** Every derived node holds its formula over the values of its deps. *)
Definition consistent N val : Prop :=
  ∀ c F, c ∈ nw_nodes N → nw_fn N c = Some F → val c = F (val <$> nw_deps N c).

Lemma consistent_eval N val src c :
  network_wf N → consistent N val →
  (∀ s, s ∈ nw_nodes N → nw_fn N s = None → val s = src s) →
  c ∈ nw_nodes N → val c = eval N src c.
Proof.
  intros Hwf Hc Hs. unfold eval.
  cut (∀ k c, c ∈ nw_nodes N → (nw_rank N c < k)%nat → val c = eval_upto k N src c); [auto|].
  intros k. induction k as [|k IH]; intros c' Hin Hk; [lia|]. simpl.
  destruct (nw_fn N c') as [F|] eqn:HF; [|by apply Hs].
  rewrite (Hc c' F Hin HF). f_equal. apply list_fmap_ext. intros i d Hd.
  apply list_elem_of_lookup_2 in Hd. destruct (nw_closed _ Hwf _ _ Hin Hd). apply IH; [done|lia].
Qed.

(** A node reads another one, directly. *)
Definition feeds N (x y : Core) : Prop := y ∈ nw_nodes N ∧ x ∈ nw_deps N y.
End Spec.

(** ** Its implementation in a world *)

Section Static.
Context {V : Type} `{!CanonicalData V} (uc : UserCode V).
Variable N : Network V.
Variable w0 : World V.
Implicit Types w : World V.
Implicit Types ph : Core → Phase V.

(** The fn reads the latest value of each dep and emits [F] of them. *)
Definition computes (f : FnId) (F : list V → V) : Prop :=
  ∀ ctx vs, latest <$> dep_records ctx = Some <$> vs → fn_code uc f ctx = PDown [Data (F vs)] PRet.

(** The dep edge a subscriber of a node serves. *)
Definition target (s : Sink) : option (Core * nat) :=
  match s with
  | DepSink ch b => (λ i, (ch, Z.to_nat i)) <$> w_boxes w0 !! b
  | ExtSink _ => None
  end.
Definition targets (n : NodeSlot V) : list (Core * nat) := omap target (snapshot_subscribers n).

Definition sink_ok (c : Core) (s : Sink) : Prop :=
  match s with
  | ExtSink sk => ∀ m, sink_code uc sk m = PRet
  | DepSink ch b => ∃ i, w_boxes w0 !! b = Some (Z.of_nat i) ∧ ch ∈ nw_nodes N
                         ∧ nw_deps N ch !! i = Some c
  end.

Record installed (c : Core) (n0 : NodeSlot V) : Prop := {
  in_node : get_node w0 c = Some n0;
  in_plain : plain_slot n0;
  in_deps : n_deps n0 = nw_deps N c;
  in_sinks : ∀ s, s ∈ snapshot_subscribers n0 → sink_ok c s;
  in_nodup : NoDup (targets n0);
  in_complete : ∀ y j, y ∈ nw_nodes N → nw_deps N y !! j = Some c → (y, j) ∈ targets n0;
  in_fn : match nw_fn N c with
          | None => handle (n_call n0) = None
          | Some F => ∃ h f, handle (n_call n0) = Some h
              ∧ Dispatcher.lookup_fn (w_disp w0) h = Some (Some f)
              ∧ Dispatcher.pool_kind (w_disp w0) (pool_id h) = Some Sync ∧ computes f F
          end
}.

Record net_static : Prop := {
  ns_wf : network_wf N;
  ns_nodup : NoDup (nw_nodes N);
  ns_installed : ∀ c, c ∈ nw_nodes N → ∃ n0, installed c n0;
  ns_recording : recording (w_disp w0) = false
}.

Record at_net ph w : Prop := {
  an_slot : ∀ c n0, c ∈ nw_nodes N → get_node w0 c = Some n0 →
              ∃ n, get_node w c = Some n ∧ slot_ph n0 (ph c) n;
  an_boxes : w_boxes w = w_boxes w0;
  an_disp : w_disp w = w_disp w0;
  an_batch : w_active_batch w = None;
  an_queue : ∀ c, c ∈ nw_nodes N → queue_of (c_graph c) w = []
}.

(** The network in phases [ph], with the delivery queue [q], the delivery depth
    [k], the log [l], inside a wave or not ([b]). *)
Record St ph (q : list (DeferredDeliveryKind * Core)) (k : nat) (l : list (Event V)) (b : bool) w
    : Prop := {
  st_net : at_net ph w;
  st_queue : w_deferred_actions w = q;
  st_depth : w_delivery_depth w = k;
  st_log : w_log w = l;
  st_wave : ws_boundary_roots <$> w_wave w = if b then Some [] else None
}.

Hypothesis Hst : net_static.

Lemma st_node ph q k l b w c :
  St ph q k l b w → c ∈ nw_nodes N →
  ∃ n0 n, installed c n0 ∧ get_node w c = Some n ∧ slot_ph n0 (ph c) n.
Proof.
  intros H Hc. destruct (ns_installed Hst c Hc) as [n0 Hn0].
  destruct (an_slot _ _ (st_net _ _ _ _ _ _ H) c n0 Hc (in_node _ _ Hn0)) as (n & Hn & Hp).
  by exists n0, n.
Qed.

Lemma installed_unique c n0 n1 : installed c n0 → installed c n1 → n0 = n1.
Proof. intros [] []. congruence. Qed.

Lemma queue_of_upd g c (f : NodeSlot V → NodeSlot V) w : queue_of g (upd_node c f w) = queue_of g w.
Proof.
  unfold queue_of, upd_node. simpl. rewrite lookup_alter. case_decide as Hg; [|done]. subst.
  destruct (w_graphs w !! c_graph c); simpl; [|done]. unfold Arena.upd. by destruct (Arena.is_live_key _ _).
Qed.

Lemma st_upd ph q k l b w c n0 n p (f : NodeSlot V → NodeSlot V) :
  St ph q k l b w → c ∈ nw_nodes N → installed c n0 → get_node w c = Some n →
  slot_ph n0 p (f n) → St (<[c := p]> ph) q k l b (upd_node c f w).
Proof.
  intros [[]] Hc Hn0 Hn Hf. split; try done. split; try done.
  - intros c' n' Hc' Hn'. rewrite get_node_upd. case_decide as Hcc.
    + subst c'. rewrite Hn. exists (f n). rewrite fn_lookup_insert.
      rewrite (in_node _ _ Hn0) in Hn'. injection Hn' as <-. done.
    + rewrite fn_lookup_insert_ne by done. by apply an_slot0.
  - intros c' Hc'. rewrite queue_of_upd. by apply an_queue0.
Qed.

Lemma st_log_event ph q k l b w e :
  St ph q k l b w → St ph q k (l ++ [e]) b (set_w_log (λ l, l ++ [e]) w).
Proof. intros [[]]. split; try done. simpl. by rewrite st_log0. Qed.

Lemma st_same ph ph' q k l b w :
  (∀ c, c ∈ nw_nodes N → ph c = ph' c) → St ph q k l b w → St ph' q k l b w.
Proof.
  intros He [[]]. split; try done. split; try done.
  intros c n0 Hc Hn. rewrite <-He by done. by apply an_slot0.
Qed.

Lemma queue_of_pin g c w : queue_of g (pin_once c w) = queue_of g w.
Proof.
  unfold pin_once. destruct (w_wave w) as [sc|]; [|done].
  destruct (w_graphs w !! c_graph c) as [gr|] eqn:Hg; [|done]. destruct (negb _); [done|].
  destruct (bool_decide _); [done|].
  unfold queue_of. simpl. rewrite lookup_alter.
  destruct (decide (c_graph c = g)); [|done]. subst. by rewrite Hg.
Qed.

Lemma st_pin ph q k l b w c : St ph q k l b w → St ph q k l b (pin_once c w).
Proof.
  intros [[]]. pose proof (frame_pin_once c w) as Hf.
  assert (w_boxes (pin_once c w) = w_boxes w ∧ w_disp (pin_once c w) = w_disp w
          ∧ w_deferred_actions (pin_once c w) = w_deferred_actions w
          ∧ w_active_batch (pin_once c w) = w_active_batch w) as (Hb & Hd & Hq & Ha).
  { unfold pin_once. by repeat case_match. }
  split.
  - split; [|congruence..|].
    + intros c' n0 Hc Hn. rewrite (frame_get_node _ _ _ Hf). by apply an_slot0.
    + intros c' Hc. rewrite queue_of_pin. by apply an_queue0.
  - congruence.
  - by rewrite (fr_depth _ _ Hf).
  - by rewrite (fr_log _ _ Hf).
  - rewrite <-st_wave0. unfold pin_once. destruct (w_wave w) as [sc|] eqn:Hw; [|by rewrite Hw].
    repeat case_match; simpl; rewrite ?Hw; done.
Qed.

(** ** What the log says of a node and of a client sink *)

Definition emits (c : Core) (d : list (Event V)) : list (Msg V) :=
  omap (λ e, match e with
             | EvEmit c' m => if bool_decide (c' = c) then Some m else None
             | _ => None
             end) d.
Definition run_events (c : Core) (d : list (Event V)) : nat :=
  count_if (λ e, match e with EvRun c' => bool_decide (c' = c) | _ => false end) d.
Definition heard (s : SinkId) (d : list (Event V)) : list (Msg V) :=
  omap (λ e, match e with
             | EvSink s' m => if bool_decide (s' = s) then Some m else None
             | _ => None
             end) d.

Definition is_ext (s : SinkId) (t : Sink) : bool :=
  match t with ExtSink s' => bool_decide (s' = s) | DepSink _ _ => false end.

(** The client sink [s] is subscribed once, to [x]. *)
Definition sole (x : Core) (s : SinkId) : Prop :=
  ∀ y n0, installed y n0 →
    count_if (is_ext s) (snapshot_subscribers n0) = if decide (y = x) then 1 else 0.

(** Every sole sink has heard what its node emitted. *)
Definition balanced (d : list (Event V)) : Prop := ∀ x s, sole x s → heard s d = emits x d.

Lemma emits_app c d d' : emits c (d ++ d') = emits c d ++ emits c d'.
Proof. apply omap_app. Qed.
Lemma heard_app c d d' : heard c (d ++ d') = heard c d ++ heard c d'.
Proof. apply omap_app. Qed.
Lemma run_events_app c d d' : run_events c (d ++ d') = run_events c d + run_events c d'.
Proof. unfold run_events, count_if. by rewrite List.filter_app, length_app. Qed.
Lemma balanced_app d d' : balanced d → balanced d' → balanced (d ++ d').
Proof. intros H H' x s Hs. by rewrite heard_app, emits_app, (H x s Hs), (H' x s Hs). Qed.

(** One message delivered to every subscriber of [c]: [P] tracks the dep edges
    served so far and the log since the delivery began. *)
Lemma deliver_runs c n0 m (P : list (Core * nat) → list (Event V) → World V → Prop) w :
  installed c n0 → P [] [] w →
  (∀ ts d w, P ts d w → w_boxes w = w_boxes w0) →
  (∀ ts d w e, (∀ c, e ≠ EvRun c) → (∀ c m, e ≠ EvEmit c m) → P ts d w →
     P ts (d ++ [e]) (set_w_log (λ l, l ++ [e]) w)) →
  (∀ ts ch i ts' d w, targets n0 = ts ++ (ch, i) :: ts' →
     ch ∈ nw_nodes N → nw_deps N ch !! i = Some c → P ts d w →
     runs uc (λ r, r (TReceive ch i m)) w (λ _ w', ∃ d', P (ts ++ [(ch, i)]) (d ++ d') w'
                                              ∧ balanced d' ∧ emits c d' = [])) →
  runs uc (λ r, deliver_subscriber_snapshot uc r (snapshot_subscribers n0) m) w
    (λ _ w', ∃ d, P (targets n0) d w' ∧ emits c d = []
             ∧ balanced (EvEmit c m :: d)).
Proof.
  intros Hin HP Hbox Hlog Hrecv. set (subs := snapshot_subscribers n0).
  eapply runs_conseq.
  - apply (runs_for_each uc subs (λ r s, deliver_sink uc r s m)
      (λ l1 w', ∃ d, P (omap target l1) d w' ∧ emits c d = []
         ∧ ∀ x s, sole x s → heard s d
             = if decide (x = c) then replicate (count_if (is_ext s) l1) m else emits x d)).
    + exists []. split_and!; try done. intros x s _. simpl. by case_decide.
    + intros l1 s l2 w1 Hl (d & HPd & Hec & Hh).
      assert (sink_ok c s) as Hs by (apply (in_sinks _ _ Hin); fold subs; rewrite Hl; set_solver).
      destruct s as [ch b|sk]; simpl in Hs.
      * destruct Hs as (i & Hb & Hch & Hdep). simpl. apply runs_gets.
        rewrite (Hbox _ _ _ HPd), Hb. simpl. rewrite bool_decide_false by lia. rewrite Nat2Z.id.
        eapply runs_conseq.
        { apply (Hrecv (omap target l1) ch i (omap target l2) d w1); try done.
          unfold targets. fold subs. rewrite Hl, omap_app. simpl. rewrite Hb. simpl. by rewrite Nat2Z.id. }
        intros _ w2 (d' & HP' & Hbal & Hec'). exists (d ++ d'). split_and!.
        -- rewrite omap_app. simpl. rewrite Hb. simpl. by rewrite Nat2Z.id.
        -- by rewrite emits_app, Hec, Hec'.
        -- intros x s Hx. rewrite heard_app, emits_app, (Hh x s Hx), (Hbal x s Hx).
           case_decide; [|done]. subst. rewrite Hec', app_nil_r. f_equal.
           unfold count_if. rewrite List.filter_app, length_app. simpl. lia.
      * simpl. apply runs_log. cbv beta. apply (runs_call uc (TProg None (sink_code uc sk m))). simpl. rewrite Hs. apply runs_ret.
        exists (d ++ [EvSink sk m]). split_and!.
        -- rewrite omap_app. simpl. rewrite app_nil_r. by apply Hlog.
        -- by rewrite emits_app, Hec.
        -- intros x s Hx. rewrite heard_app, emits_app, (Hh x s Hx). simpl.
           unfold count_if. rewrite List.filter_app, length_app. simpl.
           assert (x ≠ c → bool_decide (sk = s) = false) as Hne.
           { intros Hxc. apply bool_decide_false. intros ->.
             pose proof (Hx c n0 Hin) as Hc. rewrite decide_False in Hc by congruence.
             fold subs in Hc. rewrite Hl in Hc. unfold count_if in Hc.
             rewrite List.filter_app, length_app in Hc. simpl in Hc.
             rewrite bool_decide_true in Hc by done. simpl in Hc. lia. }
           destruct (decide (x = c)) as [Hxc|Hxc].
           ++ destruct (bool_decide (sk = s)); simpl; [|by rewrite app_nil_r, Nat.add_0_r].
              by rewrite replicate_add.
           ++ by rewrite (Hne Hxc).
  - intros _ w' (d & HPd & Hec & Hh). exists d. split_and!; try done.
    intros x s Hx. specialize (Hh x s Hx). simpl. rewrite Hh. case_decide as Hxc.
    + subst. rewrite bool_decide_true by done. rewrite Hec. pose proof (Hx c n0 Hin) as Hcnt.
      rewrite decide_True in Hcnt by done. fold subs in Hcnt. by rewrite Hcnt.
    + by rewrite bool_decide_false by congruence.
Qed.

(** ** Phase one: the DIRTY marks *)

Definition edge (y : Core) (j : nat) (x : Core) : Prop :=
  y ∈ nw_nodes N ∧ nw_deps N y !! j = Some x.
Definition dirty_at ph (e : Core * nat) : Prop := ph_dirty (ph e.1) !! e.2 = Some true.
Definition newly ph ph' (x : Core) : Prop := ph_emit (ph x) = false ∧ ph_emit (ph' x) = true.

(** The marks set between two states, [ts] being the edges marked from outside. *)
Record marks ph ph' (ts : list (Core * nat)) : Prop := {
  mk_rest : ∀ x, ph' x = mkPhase (ph_val (ph x)) (ph_emit (ph' x)) (ph_t3 (ph x)) (ph_inside (ph x))
                           (ph_dirty (ph' x)) (ph_in (ph x)) (ph_new (ph x)) (ph_room (ph x));
  mk_emit : ∀ x, ph_emit (ph x) = true → ph_emit (ph' x) = true;
  mk_dirty : ∀ e, dirty_at ph e → dirty_at ph' e;
  mk_new : ∀ y j, dirty_at ph' (y, j) → dirty_at ph (y, j) ∨ (y, j) ∈ ts
                                         ∨ ∃ x, newly ph ph' x ∧ edge y j x;
  mk_recv : ∀ y j, dirty_at ph' (y, j) → dirty_at ph (y, j) ∨ ph_emit (ph' y) = true;
  mk_cause : ∀ x, newly ph ph' x → x ∈ nw_nodes N ∧ ∃ j, dirty_at ph' (x, j);
  mk_ts : ∀ e, e ∈ ts → dirty_at ph' e
}.
(** Every node that went dirty has marked all its out-edges. *)
Definition marks_out ph ph' : Prop :=
  ∀ x y j, newly ph ph' x → edge y j x → dirty_at ph' (y, j).
(** Only nodes that went dirty have marked out-edges. *)
Definition unmarked_fresh ph : Prop :=
  ∀ x y j, ph_emit (ph x) = false → edge y j x → ¬ dirty_at ph (y, j).

Definition mark_log ph ph' (d : list (Event V)) : Prop :=
  balanced d ∧ ∀ x, emits x d = (if negb (ph_emit (ph x)) && ph_emit (ph' x) then [Dirty] else [])
                    ∧ run_events x d = 0.

Lemma newly_split ph1 ph2 ph3 x ts ts' :
  marks ph1 ph2 ts → marks ph2 ph3 ts' →
  newly ph1 ph3 x → newly ph1 ph2 x ∨ newly ph2 ph3 x.
Proof. intros _ _ [H1 H3]. destruct (ph_emit (ph2 x)) eqn:H2; [left|right]; done. Qed.

Lemma newly_mono_l ph1 ph2 ph3 x ts ts' :
  marks ph1 ph2 ts → marks ph2 ph3 ts' → newly ph1 ph2 x → newly ph1 ph3 x.
Proof. intros _ H [H1 H2]. split; [done|]. by apply (mk_emit _ _ _ H). Qed.

Lemma newly_mono_r ph1 ph2 ph3 x ts ts' :
  marks ph1 ph2 ts → marks ph2 ph3 ts' → newly ph2 ph3 x → newly ph1 ph3 x.
Proof.
  intros H _ [H1 H2]. split; [|done]. destruct (ph_emit (ph1 x)) eqn:H0; [|done].
  apply (mk_emit _ _ _ H) in H0. congruence.
Qed.

Lemma marks_refl ph : marks ph ph [].
Proof.
  split; try done; auto.
  - intros x. by destruct (ph x).
  - intros x [H1 H2]. congruence.
  - intros e He. set_solver.
Qed.

Lemma marks_trans ph1 ph2 ph3 ts ts' :
  marks ph1 ph2 ts → marks ph2 ph3 ts' → marks ph1 ph3 (ts ++ ts').
Proof.
  intros H1 H2. split.
  - intros x. rewrite (mk_rest _ _ _ H2 x) at 1. by rewrite (mk_rest _ _ _ H1 x) at 1 2 3 4 5 6.
  - intros x Hx. by apply (mk_emit _ _ _ H2), (mk_emit _ _ _ H1).
  - intros e He. by apply (mk_dirty _ _ _ H2), (mk_dirty _ _ _ H1).
  - intros y j [Hd|[Hd|(x & Hx & He)]]%(mk_new _ _ _ H2).
    + apply (mk_new _ _ _ H1) in Hd as [Hd|[Hd|(x & Hx & He)]]; [by left|set_solver|].
      right; right. exists x. split; [by eapply newly_mono_l|done].
    + set_solver.
    + right; right. exists x. split; [by eapply newly_mono_r|done].
  - intros y j [Hd|Hd]%(mk_recv _ _ _ H2); [|by right].
    apply (mk_recv _ _ _ H1) in Hd as [Hd|Hd]; [by left|]. right. by apply (mk_emit _ _ _ H2).
  - intros x Hx. eapply newly_split in Hx as [Hx|Hx]; [..|done|done].
    + destruct (mk_cause _ _ _ H1 x Hx) as (Hin & j & Hj). split; [done|]. exists j.
      by apply (mk_dirty _ _ _ H2).
    + by apply (mk_cause _ _ _ H2).
  - intros e [He|He]%elem_of_app; [|by apply (mk_ts _ _ _ H2)].
    by apply (mk_dirty _ _ _ H2), (mk_ts _ _ _ H1).
Qed.

Lemma marks_out_trans ph1 ph2 ph3 ts ts' :
  marks ph1 ph2 ts → marks ph2 ph3 ts' → marks_out ph1 ph2 → marks_out ph2 ph3 → marks_out ph1 ph3.
Proof.
  intros H1 H2 O1 O2 x y j Hx He. eapply newly_split in Hx as [Hx|Hx]; [..|done|done].
  - by eapply (mk_dirty _ _ _ H2), O1.
  - by eapply O2.
Qed.

Lemma mark_log_trans ph1 ph2 ph3 ts ts' d d' :
  marks ph1 ph2 ts → marks ph2 ph3 ts' → mark_log ph1 ph2 d → mark_log ph2 ph3 d' →
  mark_log ph1 ph3 (d ++ d').
Proof.
  intros H1 H2 [B1 L1] [B2 L2]. split; [by apply balanced_app|]. intros x.
  rewrite emits_app, run_events_app. destruct (L1 x) as [-> ->], (L2 x) as [-> ->]. split; [|done].
  pose proof (mk_emit _ _ _ H1 x) as M1. pose proof (mk_emit _ _ _ H2 x) as M2.
  destruct (ph_emit (ph1 x)), (ph_emit (ph2 x)), (ph_emit (ph3 x)); simpl; try done;
    try (by specialize (M1 eq_refl)); try (by specialize (M2 eq_refl)).
Qed.

Lemma unmarked_fresh_marks ph ph' ts :
  unmarked_fresh ph → marks ph ph' ts →
  (∀ y j x, (y, j) ∈ ts → edge y j x → ph_emit (ph' x) = true) → unmarked_fresh ph'.
Proof.
  intros Hf Hm Hts x y j Hx He Hd.
  assert (ph_emit (ph x) = false) as Hx0.
  { destruct (ph_emit (ph x)) eqn:Hx0; [|done]. apply (mk_emit _ _ _ Hm) in Hx0. congruence. }
  apply (mk_new _ _ _ Hm) in Hd as [Hd|[Hd|(x' & Hx' & He')]].
  - by apply (Hf x y j).
  - specialize (Hts y j x Hd He). congruence.
  - destruct He as [_ He], He' as [_ He']. assert (x' = x) as -> by congruence.
    destruct Hx'. congruence.
Qed.

Lemma targets_edge c n0 y j : installed c n0 → (y, j) ∈ targets n0 ↔ edge y j c.
Proof.
  intros Hin. split.
  - intros (s & Hs & Ht)%list_elem_of_omap. apply (in_sinks _ _ Hin) in Hs.
    destruct s as [ch b|sk]; simpl in *; [|done]. destruct Hs as (i & Hb & Hch & Hd).
    rewrite Hb in Ht. simpl in Ht. rewrite Nat2Z.id in Ht. injection Ht as <- <-. done.
  - intros [Hy Hj]. by apply (in_complete _ _ Hin).
Qed.

Lemma edge_rank y j x : edge y j x → x ∈ nw_nodes N ∧ (nw_rank N x < nw_rank N y)%nat.
Proof.
  intros [Hy Hj]. apply (nw_closed _ (ns_wf Hst) y x Hy). by eapply list_elem_of_lookup_2.
Qed.

Lemma st_len ph q k l b w y j x :
  St ph q k l b w → edge y j x → (j < length (ph_dirty (ph y)))%nat.
Proof.
  intros H [Hy Hj]. destruct (st_node _ _ _ _ _ _ y H Hy) as (n0 & n & Hin & _ & Hp).
  rewrite (sp_len_dirty _ _ _ Hp), (in_deps _ _ Hin). by eapply lookup_lt_Some.
Qed.

(** The state after one edge [(c, i)] was marked and nothing forwarded yet. *)
Lemma marks_one ph c i :
  c ∈ nw_nodes N → ph_dirty (ph c) !! i = Some false →
  marks ph (<[c := ph_mark i (ph c)]> ph) [(c, i)]
  ∧ ∀ x, newly ph (<[c := ph_mark i (ph c)]> ph) x → x = c.
Proof.
  intros Hc Hi. set (ph1 := <[c := ph_mark i (ph c)]> ph).
  assert (ph1 c = ph_mark i (ph c)) as H1 by apply fn_lookup_insert.
  assert (∀ x, x ≠ c → ph1 x = ph x) as Hne by (intros; by apply fn_lookup_insert_ne).
  assert (dirty_at ph1 (c, i)) as Hci.
  { unfold dirty_at. simpl. rewrite H1. simpl. apply list_lookup_insert_eq. by eapply lookup_lt_Some. }
  assert (∀ y j, dirty_at ph1 (y, j) → dirty_at ph (y, j) ∨ (y = c ∧ j = i)) as Hback.
  { intros y j. unfold dirty_at. simpl. destruct (decide (y = c)) as [->|Hy]; [|rewrite Hne; auto].
    rewrite H1. simpl. destruct (decide (j = i)) as [->|Hj]; [by auto|].
    rewrite list_lookup_insert_ne by done. auto. }
  assert (∀ x, newly ph ph1 x → x = c) as Hnew.
  { intros x [Hx0 Hx1]. destruct (decide (x = c)) as [|Hx]; [done|]. rewrite Hne in Hx1 by done. congruence. }
  split; [|done]. split.
  - intros x. destruct (decide (x = c)) as [->|Hx]; [by rewrite H1|]. rewrite !Hne by done.
    by destruct (ph x).
  - intros x Hx. destruct (decide (x = c)) as [->|Hx']; [by rewrite H1|by rewrite Hne].
  - intros [y j]. unfold dirty_at. simpl. destruct (decide (y = c)) as [->|Hy]; [|by rewrite Hne].
    rewrite H1. simpl. intros Hd. destruct (decide (j = i)) as [->|]; [congruence|].
    by rewrite list_lookup_insert_ne.
  - intros y j [Hd|[-> ->]]%Hback; [by left|set_solver].
  - intros y j [Hd|[-> ->]]%Hback; [by left|]. right. by rewrite H1.
  - intros x ->%Hnew. eauto.
  - intros e ->%list_elem_of_singleton. done.
Qed.

(** Nothing of an action without work but the forwarded DIRTY happens. *)
Lemma action_dirty_runs c (n0 n : NodeSlot V) w (Q : unit → World V → Prop) :
  get_node w c = Some n → snapshot_subscribers n = snapshot_subscribers n0 →
  runs uc (λ r, deliver_subscriber_snapshot uc r (snapshot_subscribers n0) Dirty)
    (set_w_log (λ l, l ++ [EvEmit c Dirty]) w) Q →
  runs uc (λ r, apply_action uc r c (set_emit_dirty (λ _, true) action_default)) w Q.
Proof.
  intros Hn Hs Hr. unfold apply_action. simpl. apply runs_step with (a := tt) (w' := w); [done|].
  apply (runs_bind uc (λ r, emit_to_subs uc r c Dirty)).
  unfold emit_to_subs. apply runs_node with (n := n); [done|]. rewrite Hs.
  apply runs_log. cbv beta. eapply runs_conseq; [exact Hr|].
  intros [] w' HQ. by apply (runs_det _ _ _ tt w').
Qed.

Definition unemitted ph : nat := length (filter (λ x, ph_emit (ph x) = false) (nw_nodes N)).

Lemma unemitted_le ph ph' :
  (∀ x, ph_emit (ph x) = true → ph_emit (ph' x) = true) → unemitted ph' ≤ unemitted ph.
Proof.
  intros H. apply length_filter_le. intros x Hx. specialize (H x).
  destruct (ph_emit (ph x)); [|done]. rewrite H in Hx; done.
Qed.

Lemma unemitted_lt ph ph' c :
  (∀ x, ph_emit (ph x) = true → ph_emit (ph' x) = true) →
  c ∈ nw_nodes N → ph_emit (ph c) = false → ph_emit (ph' c) = true → unemitted ph' < unemitted ph.
Proof.
  intros H Hc H0 H1. apply (length_filter_lt _ _ (nw_nodes N) c); try done; [|congruence].
  intros x Hx. specialize (H x). destruct (ph_emit (ph x)); [|done]. rewrite H in Hx; done.
Qed.

(** What [receive_dirty_runs] promises of one edge. *)
Definition dirty_edge_runs (m : nat) : Prop := ∀ ph q k l b w c i x,
  unemitted ph ≤ m → St ph q k l b w → edge c i x → ph_emit (ph x) = true →
  ph_dirty (ph c) !! i = Some false → unmarked_fresh ph →
  runs uc (λ r, r (TReceive c i Dirty)) w (λ _ w', ∃ ph' d,
    St ph' q k (l ++ d) b w' ∧ marks ph ph' [(c, i)] ∧ marks_out ph ph' ∧ mark_log ph ph' d).

(** DIRTY delivered to every subscriber of a node that is marked already. *)
Lemma deliver_dirty_runs m ph1 q k l b w c n0 :
  dirty_edge_runs m → unemitted ph1 ≤ m → St ph1 q k l b w → installed c n0 →
  ph_emit (ph1 c) = true → (∀ y j, edge y j c → ph_dirty (ph1 y) !! j = Some false) →
  unmarked_fresh ph1 →
  runs uc (λ r, deliver_subscriber_snapshot uc r (snapshot_subscribers n0) Dirty) w
    (λ _ w', ∃ ph2 d, St ph2 q k (l ++ d) b w' ∧ marks ph1 ph2 (targets n0) ∧ marks_out ph1 ph2
       ∧ (∀ x, emits x d = (if negb (ph_emit (ph1 x)) && ph_emit (ph2 x) then [Dirty] else [])
               ∧ run_events x d = 0)
       ∧ balanced (EvEmit c Dirty :: d)).
Proof.
  intros Hrec Hm HS Hin Hec Hun Hf. eapply runs_conseq.
  - apply (deliver_runs c n0 Dirty (λ ts d w', ∃ ph2, St ph2 q k (l ++ d) b w' ∧ marks ph1 ph2 ts
       ∧ marks_out ph1 ph2
       ∧ ∀ x, emits x d = (if negb (ph_emit (ph1 x)) && ph_emit (ph2 x) then [Dirty] else [])
              ∧ run_events x d = 0)); [done|..].
    + exists ph1. rewrite app_nil_r. split_and!; [done|apply marks_refl| |].
      * intros x y j [H1 H2]. congruence.
      * intros x. split; [|done]. simpl. by destruct (ph_emit (ph1 x)).
    + intros ts d w' (ph2 & HS2 & _). apply (an_boxes _ _ (st_net _ _ _ _ _ _ HS2)).
    + intros ts d w' e He1 He2 (ph2 & HS2 & Hm2 & Ho2 & Hl2). exists ph2. split_and!; try done.
      * rewrite (assoc_L (++)). by apply st_log_event.
      * intros x. rewrite emits_app, run_events_app. destruct (Hl2 x) as [-> ->].
        destruct e; simpl; rewrite ?app_nil_r; try done; [by edestruct He2|by edestruct He1].
    + intros ts ch j ts' d w' Hts Hch Hj (ph2 & HS2 & Hm2 & Ho2 & Hl2).
      assert (edge ch j c) as Hedge by done.
      assert (∀ y z x, (y, z) ∈ ts → edge y z x → x = c) as Hsrc.
      { intros y z x Hy [_ Hz]. assert ((y, z) ∈ targets n0) as Ht by (rewrite Hts; set_solver).
        apply (targets_edge _ _ _ _ Hin) in Ht as [_ Ht]. congruence. }
      assert (ph_dirty (ph2 ch) !! j = Some false) as Hj2.
      { destruct (lookup_lt_is_Some_2 (ph_dirty (ph2 ch)) j) as [[] Hb];
          [by eapply (st_len ph2)| |done].
        exfalso. apply (mk_new _ _ _ Hm2 ch j) in Hb as [Hb|[Hb|(x' & Hx' & He')]].
        - specialize (Hun ch j Hedge). unfold dirty_at in Hb. simpl in Hb. congruence.
        - pose proof (in_nodup _ _ Hin) as Hnd. rewrite Hts in Hnd.
          apply list.NoDup_app in Hnd as (_ & Hnd & _). apply (Hnd _ Hb). set_solver.
        - destruct He' as [_ He']. assert (x' = c) as -> by congruence. destruct Hx'. congruence. }
      eapply runs_conseq; [apply (Hrec ph2 q k (l ++ d) b w' ch j c); try done|].
      * etrans; [|exact Hm]. apply unemitted_le, (mk_emit _ _ _ Hm2).
      * by apply (mk_emit _ _ _ Hm2).
      * apply (unmarked_fresh_marks ph1 ph2 ts Hf Hm2). intros y z x Hy He.
        rewrite (Hsrc y z x Hy He). by apply (mk_emit _ _ _ Hm2).
      * intros _ w'' (ph3 & d' & HS3 & Hm3 & Ho3 & Hb3 & Hl3). exists d'. split_and!; [|done|].
        -- exists ph3. split_and!.
           ++ by rewrite (assoc_L (++)).
           ++ by eapply marks_trans.
           ++ by eapply marks_out_trans.
           ++ assert (mark_log ph1 ph1 []) as Hl0.
              { split; [by intros ? ?|]. intros x. split; [|done]. simpl. by destruct (ph_emit (ph1 x)). }
              intros x. rewrite emits_app, run_events_app.
              destruct (Hl2 x) as [-> ->], (Hl3 x) as [-> ->]. split; [|done].
              pose proof (mk_emit _ _ _ Hm2 x) as M1. pose proof (mk_emit _ _ _ Hm3 x) as M2.
              destruct (ph_emit (ph1 x)), (ph_emit (ph2 x)), (ph_emit (ph3 x)); simpl; try done;
                try (by specialize (M1 eq_refl)); try (by specialize (M2 eq_refl)).
        -- destruct (Hl3 c) as [-> _]. by rewrite (mk_emit _ _ _ Hm2 c Hec).
  - intros _ w' (d & (ph2 & HS2 & Hm2 & Ho2 & Hl2) & _ & Hbal). by exists ph2, d.
Qed.

(** The two steps together: mark the edge, then forward. *)
Lemma marks_forward ph ph1 ph2 c i n0 q k l b w d :
  installed c n0 → marks ph ph1 [(c, i)] → (∀ x, newly ph ph1 x → x = c) →
  ph_emit (ph c) = false → ph_emit (ph1 c) = true →
  St ph2 q k ((l ++ [EvEmit c Dirty]) ++ d) b w → marks ph1 ph2 (targets n0) → marks_out ph1 ph2 →
  (∀ x, emits x d = (if negb (ph_emit (ph1 x)) && ph_emit (ph2 x) then [Dirty] else [])
        ∧ run_events x d = 0) →
  balanced (EvEmit c Dirty :: d) →
  ∃ ph' d', St ph' q k (l ++ d') b w ∧ marks ph ph' [(c, i)] ∧ marks_out ph ph' ∧ mark_log ph ph' d'.
Proof.
  intros Hin Hm1 Hnew1 Hc0 Hc1 HS Hm2 Ho2 Hl Hbal. exists ph2, (EvEmit c Dirty :: d).
  assert (newly ph ph1 c) as Hcn by done.
  pose proof (newly_mono_l _ _ _ _ _ _ Hm1 Hm2 Hcn) as Hcn2.
  pose proof (marks_trans _ _ _ _ _ Hm1 Hm2) as Hm. split_and!.
  - by rewrite <-(assoc_L (++)) in HS.
  - destruct Hm. split; try done.
    + intros y j [Hd|[[->%list_elem_of_singleton|Hd]%elem_of_app|Hd]]%mk_new0; [by left|set_solver| |by auto].
      right; right. exists c. split; [done|]. by apply (targets_edge c n0).
    + intros e He. apply mk_ts0. set_solver.
  - intros x y j Hx He. eapply newly_split in Hx as [Hx|Hx]; [..|exact Hm1|exact Hm2].
    + rewrite (Hnew1 x Hx) in He. apply (mk_ts _ _ _ Hm2). by apply (targets_edge c n0).
    + by eapply Ho2.
  - split; [done|]. intros x. destruct (Hl x) as [He Hr]. simpl. split; [|done]. rewrite He.
    destruct (decide (c = x)) as [<-|Hcx].
    + rewrite bool_decide_true by done. destruct Hcn2 as [-> ->]. by rewrite Hc1.
    + rewrite bool_decide_false by done. pose proof (mk_emit _ _ _ Hm1 x) as M1.
      destruct (ph_emit (ph x)) eqn:E0, (ph_emit (ph1 x)) eqn:E1; simpl; try done.
      * by specialize (M1 eq_refl).
      * destruct Hcx. symmetry. by apply Hnew1.
Qed.

(** A node that receives DIRTY marks the edge and, the first time, forwards
    DIRTY to everything downstream. *)
Lemma receive_dirty_runs m : dirty_edge_runs m.
Proof.
  induction m as [m IH] using lt_wf_ind. intros ph q k l b w c i x Hm HS He Hx Hi Hf.
  pose proof (proj1 He) as Hc. destruct (edge_rank _ _ _ He) as [_ Hrank].
  destruct (st_node _ _ _ _ _ _ c HS Hc) as (n0 & n & Hin & Hn & Hp).
  apply runs_call. simpl. unfold receive_from_dep. apply runs_gets. simpl. rewrite Hn.
  apply runs_step with (a := tt) (w' := pin_once c w); [done|].
  apply st_pin with (c := c) in HS as HS1. set (w1 := pin_once c w) in *.
  destruct (st_node _ _ _ _ _ _ c HS1 Hc) as (n0' & n1 & Hin' & Hn1 & Hp1).
  rewrite (installed_unique _ _ _ Hin' Hin) in *. clear n0' Hin'.
  assert (n1 = n) as ->.
  { unfold w1 in Hn1. rewrite (frame_get_node _ _ _ (frame_pin_once c w)) in Hn1. congruence. }
  assert (i < length (n_deps n))%nat as Hlen.
  { rewrite (slot_ph_deps _ _ _ Hp), (in_deps _ _ Hin). eapply lookup_lt_Some, He. }
  apply runs_step with (a := tt) (w' := w1).
  { simpl. rewrite (sp_live _ _ _ Hp). simpl. by rewrite bool_decide_true by done. }
  destruct (collect_dirty n0 (ph c) n (delivery_in_flight w) (w_current_delivery_id w) i
              (in_plain _ _ Hin) Hp Hi) as (n' & Hcol & Hp').
  eapply runs_with_slot; [exact Hn1|]. rewrite Hcol. simpl.
  assert (St (<[c := ph_mark i (ph c)]> ph) q k l b (upd_node c (λ _, n') w1)) as HS2
    by (by eapply (st_upd _ _ _ _ _ _ c n0 n)).
  destruct (marks_one ph c i Hc Hi) as [Hm1 Hnew1].
  set (ph1 := <[c := ph_mark i (ph c)]> ph) in *. set (w2 := upd_node c (λ _, n') w1) in *.
  assert (ph1 c = ph_mark i (ph c)) as Hph1 by apply fn_lookup_insert.
  destruct (ph_emit (ph c)) eqn:Hec.
  - apply runs_ret. exists ph1, []. rewrite app_nil_r. split_and!; try done.
    + intros y z j Hy _. pose proof (Hnew1 _ Hy) as ->. destruct Hy. congruence.
    + split; [by intros ? ?|]. intros y. split; [|done]. simpl.
      destruct (decide (y = c)) as [->|Hy]; [by rewrite Hec|].
      unfold ph1. rewrite fn_lookup_insert_ne by done. by destruct (ph_emit (ph y)).
  - assert (get_node w2 c = Some n') as Hn2 by (unfold w2; by rewrite get_node_upd_same, Hn1).
    eapply action_dirty_runs; [exact Hn2|apply (slot_ph_subs _ _ _ Hp')|].
    assert (unemitted ph1 < unemitted ph) as Hlt.
    { apply (unemitted_lt ph ph1 c (mk_emit _ _ _ Hm1) Hc Hec). by rewrite Hph1. }
    assert (ph_emit (ph1 x) = true) as Hx1 by by apply (mk_emit _ _ _ Hm1).
    eapply runs_conseq; [apply (deliver_dirty_runs (pred m) ph1 q k (l ++ [EvEmit c Dirty]) b _ c n0); try done|].
    + apply IH. lia.
    + lia.
    + by apply st_log_event.
    + by rewrite Hph1.
    + intros y j He'. destruct (edge_rank _ _ _ He') as [_ Hr']. unfold ph1.
      rewrite fn_lookup_insert_ne by (intros ->; lia).
      destruct (lookup_lt_is_Some_2 (ph_dirty (ph y)) j) as [[] Hb];
        [by eapply (st_len ph)| |done]. by destruct (Hf c y j Hec He').
    + apply (unmarked_fresh_marks ph ph1 [(c, i)] Hf Hm1).
      intros y z x' [= -> ->]%list_elem_of_singleton [_ Hz]. destruct He as [_ He]. congruence.
    + intros _ w3 (ph2 & d & HS3 & Hm2 & Ho2 & Hl2 & Hbal).
      apply (marks_forward ph ph1 ph2 c i n0 q k l b w3 d); try done; by rewrite Hph1.
Qed.

(** ** Phase two: the values *)

(** A node owes its value: it sent DIRTY and nothing after it yet. *)
Definition owe (p : Phase V) : bool := ph_emit p && negb (ph_t3 p).

(** The state of a wave between two deliveries: [q] and [o] are the nodes
    scheduled to run (in the delivery queue, and in loops further out), [pend]
    the edges whose DATA is being delivered. *)
Record wave_inv ph (q o : list Core) (pend : list (Core * nat)) : Prop := {
  wi_dirty : ∀ y j x, edge y j x →
    ph_dirty (ph y) !! j = Some (owe (ph x) || bool_decide ((y, j) ∈ pend));
  wi_owe : ∀ y j, dirty_at ph (y, j) → owe (ph y) = true;
  wi_val : ∀ y j x, edge y j x → owe (ph x) = false → (y, j) ∉ pend →
    ph_inputs (ph y) !! j = Some (ph_val (ph x));
  wi_new : ∀ y j, dirty_at ph (y, j) → ph_new (ph y) !! j = Some None;
  wi_sch : ∀ y, y ∈ nw_nodes N → (y ∈ q ++ o ↔ owe (ph y) = true ∧ count_true (ph_dirty (ph y)) = 0);
  wi_nodup : NoDup (q ++ o);
  wi_nodes : ∀ y, y ∈ q ++ o → y ∈ nw_nodes N;
  wi_form : ∀ y F, y ∈ nw_nodes N → nw_fn N y = Some F → owe (ph y) = false →
    ph_val (ph y) = F (ph_inputs (ph y));
  wi_calm : ∀ y, owe (ph y) = true → ph_inside (ph y) = false ∧ 1 ≤ ph_room (ph y);
  wi_fn : ∀ y, owe (ph y) = true → nw_fn N y ≠ None
}.

(** What a stretch of a wave does to the phases: nodes that owe nothing stay as
    they are, a node that paid is calm. *)
Record evolves ph ph' : Prop := {
  ev_done : ∀ x, owe (ph x) = false → ph' x = ph x;
  ev_owe : ∀ x, owe (ph' x) = true →
    owe (ph x) = true ∧ ph_val (ph' x) = ph_val (ph x) ∧ ph_room (ph' x) = ph_room (ph x);
  ev_paid : ∀ x, owe (ph x) = true → owe (ph' x) = false →
    ph_emit (ph' x) = false ∧ ph_t3 (ph' x) = false ∧ ph_inside (ph' x) = false
    ∧ ph_new (ph' x) = replicate (length (ph_new (ph' x))) None
    ∧ ph_room (ph' x) = pred (ph_room (ph x))
}.

Definition paid ph ph' (x : Core) : bool := owe (ph x) && negb (owe (ph' x)).

(** Every node that paid ran once and emitted its new value once. *)
Definition wave_log ph ph' (d : list (Event V)) : Prop :=
  balanced d ∧ ∀ x, emits x d = (if paid ph ph' x then [Data (ph_val (ph' x))] else [])
                    ∧ run_events x d = (if paid ph ph' x then 1 else 0).

Lemma evolves_refl ph : evolves ph ph.
Proof. split; [done|by intros|]. intros x H1 H2. congruence. Qed.

Lemma evolves_trans ph1 ph2 ph3 : evolves ph1 ph2 → evolves ph2 ph3 → evolves ph1 ph3.
Proof.
  intros H1 H2. split.
  - intros x Hx. pose proof (ev_done _ _ H1 x Hx) as H12.
    rewrite (ev_done _ _ H2 x); [done|]. by rewrite H12.
  - intros x Hx. destruct (ev_owe _ _ H2 x Hx) as (Ho & -> & ->). by apply (ev_owe _ _ H1).
  - intros x Hx Hx3. destruct (owe (ph2 x)) eqn:Hx2.
    + destruct (ev_owe _ _ H1 x Hx2) as (_ & _ & <-). by apply (ev_paid _ _ H2).
    + rewrite (ev_done _ _ H2 x Hx2). by apply (ev_paid _ _ H1).
Qed.

Lemma evolves_owe_mono ph ph' x : evolves ph ph' → owe (ph x) = false → owe (ph' x) = false.
Proof. intros H Hx. by rewrite (ev_done _ _ H x Hx). Qed.

Lemma wave_log_nil ph : wave_log ph ph [].
Proof. split; [by intros ? ?|]. intros x. unfold paid. by destruct (owe (ph x)). Qed.

Lemma wave_log_trans ph1 ph2 ph3 d d' :
  evolves ph1 ph2 → evolves ph2 ph3 → wave_log ph1 ph2 d → wave_log ph2 ph3 d' →
  wave_log ph1 ph3 (d ++ d').
Proof.
  intros E1 E2 [B1 L1] [B2 L2]. split; [by apply balanced_app|]. intros x.
  rewrite emits_app, run_events_app. destruct (L1 x) as [-> ->], (L2 x) as [-> ->]. unfold paid.
  destruct (owe (ph2 x)) eqn:O2.
  - destruct (ev_owe _ _ E1 x O2) as (O1 & _). rewrite O1. simpl. by destruct (owe (ph3 x)).
  - rewrite (ev_done _ _ E2 x O2), O2. simpl. rewrite app_nil_r, Nat.add_0_r. done.
Qed.

(** ** Delivering one DATA *)

Lemma inputs_settle (p : Phase V) i v :
  ph_new p !! i = Some None → i < length (ph_in p) →
  ph_inputs (ph_settle i v p) = <[i := v]> (ph_inputs p).
Proof.
  unfold ph_inputs. simpl. generalize (ph_in p), (ph_new p). clear p. intros vs.
  revert i. induction vs as [|x vs IH]; intros i os Ho Hi; simpl in *; [lia|].
  destruct os as [|o os]; [done|]. destruct i as [|i]; simpl in *; [done|].
  f_equal. apply IH; [done|lia].
Qed.

Lemma wave_inv_settle ph q o y j x pend :
  let p' := ph_settle j (ph_val (ph x)) (ph y) in
  let ph' := <[y := p']> ph in
  let q' := if bool_decide (count_true (ph_dirty p') = 0) then [y] else [] in
  edge y j x → owe (ph x) = false → y ≠ x → (y, j) ∉ pend → j < length (ph_in (ph y)) →
  wave_inv ph q o ((y, j) :: pend) →
  wave_inv ph' (q ++ q') o pend ∧ evolves ph ph' ∧ ∀ z, owe (ph' z) = owe (ph z).
Proof.
  intros p' ph' q' He Hx Hne Hpend Hlen Hw.
  assert (ph' y = p') as Hy by apply fn_lookup_insert.
  assert (∀ z, z ≠ y → ph' z = ph z) as Hz by (intros; by apply fn_lookup_insert_ne).
  assert (∀ z, owe (ph' z) = owe (ph z)) as Howe.
  { intros z. destruct (decide (z = y)) as [->|Hzy]; [by rewrite Hy|by rewrite Hz]. }
  assert (∀ z, ph_val (ph' z) = ph_val (ph z)) as Hval.
  { intros z. destruct (decide (z = y)) as [->|Hzy]; [by rewrite Hy|by rewrite Hz]. }
  assert (ph_dirty (ph y) !! j = Some true) as Hdj.
  { rewrite (wi_dirty _ _ _ _ Hw y j x He), Hx. simpl. rewrite bool_decide_true; [done|set_solver]. }
  assert (owe (ph y) = true) as Hoy by by apply (wi_owe _ _ _ _ Hw y j).
  assert (ph_new (ph y) !! j = Some None) as Hnj by by apply (wi_new _ _ _ _ Hw y j).
  assert (∀ z i, dirty_at ph' (z, i) → dirty_at ph (z, i) ∧ (z, i) ≠ (y, j)) as Hback.
  { intros z i. unfold dirty_at. simpl. destruct (decide (z = y)) as [->|Hzy].
    - rewrite Hy. simpl. destruct (decide (i = j)) as [->|Hij].
      + rewrite list_lookup_insert_eq by (by eapply lookup_lt_Some). done.
      + rewrite list_lookup_insert_ne by done. intros Hd. split; [done|congruence].
    - rewrite Hz by done. intros Hd. split; [done|congruence]. }
  split_and!; [split|split|done].
  - intros z i x' He'. rewrite Howe. pose proof (wi_dirty _ _ _ _ Hw z i x' He') as Hd.
    destruct (decide ((z, i) = (y, j))) as [[= -> ->]|Hzi].
    + rewrite Hy. simpl. rewrite list_lookup_insert_eq by (by eapply lookup_lt_Some).
      destruct He as [_ He], He' as [_ He']. assert (x' = x) as -> by congruence.
      rewrite Hx, bool_decide_false by done. done.
    + assert (ph_dirty (ph' z) !! i = ph_dirty (ph z) !! i) as ->.
      { destruct (decide (z = y)) as [->|]; [|by rewrite Hz]. rewrite Hy. simpl.
        apply list_lookup_insert_ne. congruence. }
      rewrite Hd. do 2 f_equal. apply bool_decide_ext. set_solver.
  - intros z i [Hd _]%Hback. rewrite Howe. by apply (wi_owe _ _ _ _ Hw z i).
  - intros z i x' He' Ho Hp. rewrite Howe in Ho. rewrite Hval.
    destruct (decide (z = y)) as [->|]; [|rewrite Hz by done; apply (wi_val _ _ _ _ Hw); [done..|set_solver]].
    rewrite Hy. unfold p'. rewrite inputs_settle by done.
    destruct (decide (i = j)) as [->|Hij].
    + destruct He as [_ He], He' as [_ He']. assert (x' = x) as -> by congruence.
      apply list_lookup_insert_eq. unfold ph_inputs. rewrite length_zip_with.
      apply lookup_lt_Some in Hnj. lia.
    + rewrite list_lookup_insert_ne by done. apply (wi_val _ _ _ _ Hw); [done..|set_solver].
  - intros z i [Hd Hzi]%Hback. pose proof (wi_new _ _ _ _ Hw z i Hd) as Hn.
    destruct (decide (z = y)) as [->|]; [|by rewrite Hz]. rewrite Hy. simpl.
    rewrite list_lookup_insert_ne; [done|congruence].
  - intros z Hzn. rewrite Howe. pose proof (wi_sch _ _ _ _ Hw z Hzn) as Hs.
    destruct (decide (z = y)) as [->|Hzy].
    + rewrite Hy. assert (y ∉ q ++ o) as Hyn.
      { intros [_ H0]%Hs. by apply (proj1 (count_true_zero _) H0 j). }
      unfold q'. case_bool_decide as Hc; set_solver.
    + rewrite Hz by done. rewrite <-Hs. unfold q'. case_bool_decide; set_solver.
  - unfold q'. case_bool_decide as Hc; [|rewrite app_nil_r; apply (wi_nodup _ _ _ _ Hw)].
    assert (y ∉ q ++ o) as Hyn.
    { intros [_ H0]%(wi_sch _ _ _ _ Hw); [|apply He]. by apply (proj1 (count_true_zero _) H0 j). }
    rewrite <-(assoc_L (++)). pose proof (wi_nodup _ _ _ _ Hw) as (H1 & H2 & H3)%list.NoDup_app.
    apply list.NoDup_app. split_and!; [done| |].
    + intros z Hzq [->%list_elem_of_singleton|Hzo]%elem_of_app; [set_solver|by apply (H2 z)].
    + apply NoDup_cons. split; [set_solver|done].
  - intros z Hzq. assert (z ∈ q ++ o ∨ z = y) as [Hzo| ->].
    { unfold q' in Hzq. case_bool_decide; set_solver. }
    + by apply (wi_nodes _ _ _ _ Hw).
    + apply He.
  - intros z F Hzn HF Ho. rewrite Howe in Ho. assert (z ≠ y) as Hzy by congruence.
    rewrite Hz by done. by apply (wi_form _ _ _ _ Hw).
  - intros z Ho. rewrite Howe in Ho. pose proof (wi_calm _ _ _ _ Hw z Ho).
    destruct (decide (z = y)) as [->|]; [by rewrite Hy|by rewrite Hz].
  - intros z Ho. rewrite Howe in Ho. by apply (wi_fn _ _ _ _ Hw).
  - intros z Ho. apply Hz. congruence.
  - intros z Ho. rewrite Howe in Ho. destruct (decide (z = y)) as [->|]; [by rewrite Hy|by rewrite Hz].
  - intros z Ho Ho'. rewrite Howe in Ho'. congruence.
Qed.

Lemma st_defer ph q k l b w y :
  St ph (pair KRun <$> q) k l b w → y ∉ q →
  St ph (pair KRun <$> (q ++ [y])) k l b (set_w_deferred_actions (λ l,
    if existsb (λ '(k', c'), bool_decide (k' = KRun) && ptr_eq c' y) l then l else l ++ [(KRun, y)]) w).
Proof.
  intros [[]] Hy. split; try done. simpl. rewrite st_queue0, fmap_app.
  assert (existsb (λ '(k', c'), bool_decide (k' = KRun) && ptr_eq c' y) (pair KRun <$> q) = false) as ->;
    [|done].
  apply not_true_is_false. intros [[k' c'] [Hin Hb]]%existsb_exists.
  apply list_elem_of_In, list_elem_of_fmap in Hin as (z & [= -> ->] & Hz).
  simpl in Hb. unfold ptr_eq in Hb. apply bool_decide_eq_true in Hb as ->. done.
Qed.

(** DATA on a dirty edge: recorded, and the node queued if it was the last. *)
Lemma receive_data_runs ph q o y j x pend k l b w :
  edge y j x → owe (ph x) = false → (y, j) ∉ pend →
  wave_inv ph q o ((y, j) :: pend) → St ph (pair KRun <$> q) (S k) l b w →
  runs uc (λ r, r (TReceive y j (Data (ph_val (ph x))))) w (λ _ w', ∃ ph' q',
    St ph' (pair KRun <$> (q ++ q')) (S k) l b w' ∧ wave_inv ph' (q ++ q') o pend
    ∧ evolves ph ph' ∧ ∀ z, owe (ph' z) = owe (ph z)).
Proof.
  intros He Hx Hp Hw HS. pose proof (proj1 He) as Hy. destruct (edge_rank _ _ _ He) as [_ Hrank].
  assert (y ≠ x) as Hyx by (intros ->; lia).
  assert (ph_dirty (ph y) !! j = Some true) as Hdj.
  { rewrite (wi_dirty _ _ _ _ Hw y j x He), Hx. simpl. rewrite bool_decide_true; [done|set_solver]. }
  pose proof (wi_new _ _ _ _ Hw y j Hdj) as Hnj.
  apply runs_call. simpl. unfold receive_from_dep. apply runs_gets. simpl.
  destruct (st_node _ _ _ _ _ _ y HS Hy) as (n0 & n & Hin & Hn & Hph). rewrite Hn.
  apply runs_step with (a := tt) (w' := pin_once y w); [done|].
  apply st_pin with (c := y) in HS as HS1. set (w1 := pin_once y w) in *.
  assert (get_node w1 y = Some n) as Hn1 by (by rewrite <-Hn; apply frame_get_node, frame_pin_once).
  assert (j < length (n_deps n)) as Hlen.
  { rewrite (slot_ph_deps _ _ _ Hph), (in_deps _ _ Hin). eapply lookup_lt_Some, He. }
  apply runs_step with (a := tt) (w' := w1).
  { simpl. rewrite (sp_live _ _ _ Hph). simpl. by rewrite bool_decide_true by done. }
  assert (delivery_in_flight w = true) as ->.
  { unfold delivery_in_flight. rewrite (st_depth _ _ _ _ _ _ HS). by apply bool_decide_true; lia. }
  destruct (collect_data n0 (ph y) n (w_current_delivery_id w) j (ph_val (ph x))
              (in_plain _ _ Hin) Hph Hdj Hnj) as (n' & Hcol & Hph').
  eapply runs_with_slot; [exact Hn1|]. rewrite Hcol. cbn [fst snd].
  destruct (wave_inv_settle ph q o y j x pend He Hx Hyx Hp) as (Hw' & Hev & Howe); [|done|].
  { rewrite (sp_len_in _ _ _ Hph). by rewrite <-(slot_ph_deps _ _ _ Hph). }
  set (p' := ph_settle j (ph_val (ph x)) (ph y)) in *.
  assert (St (<[y := p']> ph) (pair KRun <$> q) (S k) l b (upd_node y (λ _, n') w1)) as HS2
    by (by eapply (st_upd _ _ _ _ _ _ y n0 n)).
  set (w2 := upd_node y (λ _, n') w1) in *.
  case_bool_decide as Hc; cbn [app] in Hw'.
  - assert (y ∉ q) as Hyq.
    { intros Hyq. apply (proj1 (count_true_zero (ph_dirty (ph y)))) with (i := j); [|done].
      apply (wi_sch _ _ _ _ Hw y Hy). set_solver. }
    apply (st_defer _ _ _ _ _ _ y) in HS2 as HS3; [|done].
    set (w3 := set_w_deferred_actions _ w2) in HS3.
    assert (get_node w3 y = Some n') as Hn3.
    { change (get_node w2 y = Some n'). unfold w2. by rewrite get_node_upd_same, Hn1. }
    unfold apply_action. simpl. do 4 (apply runs_step with (a := tt) (w' := w2); [done|]).
    apply runs_step with (a := tt) (w' := w3); [done|].
    do 3 (apply runs_step with (a := tt) (w' := w3); [done|]).
    unfold fire_owed_demand_if_ready. eapply runs_node; [exact Hn3|].
    rewrite (slot_ph_can_fire _ _ _ (in_plain _ _ Hin) Hph'), orb_true_r.
    apply runs_ret. by exists (<[y := p']> ph), [y].
  - apply runs_ret. exists (<[y := p']> ph), []. rewrite app_nil_r in *. by split_and!.
Qed.

(** The DATA of a node delivered to all its subscribers. *)
Lemma deliver_data_runs ph q o c n0 k l b w :
  installed c n0 → owe (ph c) = false → wave_inv ph q o (targets n0) →
  St ph (pair KRun <$> q) (S k) l b w →
  runs uc (λ r, deliver_subscriber_snapshot uc r (snapshot_subscribers n0) (Data (ph_val (ph c)))) w
    (λ _ w', ∃ ph' q' d, St ph' (pair KRun <$> q') (S k) (l ++ d) b w' ∧ wave_inv ph' q' o []
       ∧ evolves ph ph' ∧ (∀ z, owe (ph' z) = owe (ph z))
       ∧ (∀ x, emits x d = [] ∧ run_events x d = 0) ∧ balanced (EvEmit c (Data (ph_val (ph c))) :: d)).
Proof.
  intros Hin Hc Hw HS. set (v := ph_val (ph c)). eapply runs_conseq.
  - apply (deliver_runs c n0 (Data v) (λ ts d w', ∃ ph' q' ts',
       targets n0 = ts ++ ts' ∧ St ph' (pair KRun <$> q') (S k) (l ++ d) b w' ∧ wave_inv ph' q' o ts'
       ∧ evolves ph ph' ∧ (∀ z, owe (ph' z) = owe (ph z))
       ∧ ∀ x, emits x d = [] ∧ run_events x d = 0)); [done|..].
    + exists ph, q, (targets n0). rewrite app_nil_r. split_and!; try done. apply evolves_refl.
    + intros ts d w' (ph' & q' & ts' & _ & HS' & _). apply (an_boxes _ _ (st_net _ _ _ _ _ _ HS')).
    + intros ts d w' e He1 He2 (ph' & q' & ts' & Hts & HS' & Hw' & Hev & Ho & Hl).
      exists ph', q', ts'. split_and!; try done.
      * rewrite (assoc_L (++)). by apply st_log_event.
      * intros x. rewrite emits_app, run_events_app. destruct (Hl x) as [-> ->].
        destruct e; simpl; try done; [by edestruct He2|by edestruct He1].
    + intros ts ch j ts0 d w' Hts Hch Hj (ph' & q' & ts' & Hts' & HS' & Hw' & Hev & Ho & Hl).
      rewrite Hts in Hts'. apply app_inv_head in Hts' as <-.
      assert (ph' c = ph c) as Hphc by by apply (ev_done _ _ Hev).
      assert (owe (ph' c) = false) as Hc' by by rewrite Ho.
      eapply runs_conseq.
      { unfold v. rewrite <-Hphc. apply (receive_data_runs ph' q' o ch j c ts0 k (l ++ d) b w'); try done.
        pose proof (in_nodup _ _ Hin) as Hnd. rewrite Hts in Hnd.
        apply list.NoDup_app in Hnd as (_ & _ & Hnd). by apply NoDup_cons in Hnd as []. }
      intros [] w'' (ph2 & q2 & HS2 & Hw2 & Hev2 & Ho2). exists []. rewrite app_nil_r.
      split_and!; [|by intros ? ?|done].
      exists ph2, (q' ++ q2), ts0. split_and!; try done.
      * by rewrite <-(assoc_L (++)).
      * by eapply evolves_trans.
      * intros z. by rewrite Ho2.
  - intros _ w' (d & (ph' & q' & ts' & Hts & HS' & Hw' & Hev & Ho & Hl) & _ & Hbal).
    rewrite <-(app_nil_r (targets n0)) in Hts at 1. apply app_inv_head in Hts as <-.
    by exists ph', q', d.
Qed.

(** ** Running one node *)

Definition owing ph : nat := length (filter (λ x, owe (ph x) = true) (nw_nodes N)).

(** The promise of the drain of the delivery queue, for states with at most
    [m] nodes that owe a value. *)
Definition drain_promise (m : nat) : Prop := ∀ ph q o l w,
  owing ph ≤ m → St ph (pair KRun <$> q) 0 l true w → wave_inv ph q o [] →
  runs uc (λ r, r TDrainRuns) w (λ _ w', ∃ ph' d,
    St ph' [] 0 (l ++ d) true w' ∧ wave_inv ph' [] o [] ∧ evolves ph ph' ∧ wave_log ph ph' d).

Lemma st_depth_enter ph q k l b w : St ph q k l b w → St ph q (S k) l b (enter_delivery w).
Proof. intros [[]]. split; try done. simpl. by rewrite st_depth0. Qed.

Lemma st_depth_leave ph q k l b w i : St ph q (S k) l b w → St ph q k l b (leave_delivery i w).
Proof. intros [[]]. split; try done. simpl. by rewrite st_depth0. Qed.

(** The delivery scope of one DATA: the value is stored, every edge served, and
    the nodes it completes have run when it ends. *)
Lemma emit_data_runs m ph o c v l w n0 :
  let ph1 := <[c := ph_produce v (ph c)]> ph in
  drain_promise m → owing ph1 ≤ m → c ∈ nw_nodes N → installed c n0 → 1 ≤ ph_room (ph c) →
  St ph [] 0 l true w → wave_inv ph1 [] o (targets n0) →
  runs uc (λ r, with_delivery_scope r (for_each [Data v] (emit_message uc r c))) w
    (λ _ w', ∃ ph' d d', St ph' [] 0 (l ++ EvEmit c (Data v) :: d ++ d') true w'
       ∧ wave_inv ph' [] o [] ∧ evolves ph1 ph' ∧ wave_log ph1 ph' d'
       ∧ (∀ x, emits x d = [] ∧ run_events x d = 0) ∧ balanced (EvEmit c (Data v) :: d)).
Proof.
  intros ph1 Hdrain Hm Hc Hin Hroom HS Hw. unfold with_delivery_scope. apply runs_gets. cbv beta.
  apply runs_modify. cbv beta.
  apply st_depth_enter in HS as HS1. set (w1 := enter_delivery w) in *.
  eapply (runs_bind uc (λ r, catch_unwind (for_each [Data v] (emit_message uc r c)))).
  apply (runs_catch uc (λ r, for_each [Data v] (emit_message uc r c))).
  assert (runs uc (λ r, for_each [Data v] (emit_message uc r c)) w1 (λ _ w', ∃ ph' q' d,
     St ph' (pair KRun <$> q') 1 (l ++ EvEmit c (Data v) :: d) true w' ∧ wave_inv ph' q' o []
       ∧ evolves ph1 ph' ∧ (∀ z, owe (ph' z) = owe (ph1 z))
       ∧ (∀ x, emits x d = [] ∧ run_events x d = 0) ∧ balanced (EvEmit c (Data v) :: d))) as Hemit.
  { simpl. apply (runs_bind uc (λ r, emit_message uc r c (Data v))).
    unfold emit_message, collect_down_action.
    destruct (st_node _ _ _ _ _ _ c HS1 Hc) as (n0' & n & Hin' & Hn & Hp).
    rewrite (installed_unique _ _ _ Hin' Hin) in *. clear n0' Hin'.
    pose proof (sp_room _ _ _ Hp) as Hr. destruct (ph_room (ph c)) as [|rm] eqn:Hrm; [lia|].
    destruct (room_advance rm n v Hr) as (nv & Hnv & Hr').
    destruct (collect_down_data n0 (ph c) n v nv rm Hp Hrm Hnv Hr') as (n' & Hcol & Hp').
    apply (runs_step uc _ _ _ (Some (DownEmit (Data v) (snapshot_subscribers n0)))
             (set_w_log (λ l, l ++ [EvEmit c (Data v)]) (upd_node c (λ _, n') w1))).
    { rewrite (bind_ret _ _ _ _ _ (node_run _ _ _ Hn)). unfold next_version_for.
      rewrite Hnv. rewrite (bind_ret _ _ w1 nv w1) by done. unfold commit_down.
      rewrite (bind_ret _ _ _ _ _ (with_slot_run c _ n w1 Hn)). by rewrite Hcol. }
    simpl. assert (St ph1 [] 1 (l ++ [EvEmit c (Data v)]) true
      (set_w_log (λ l, l ++ [EvEmit c (Data v)]) (upd_node c (λ _, n') w1))) as HS2.
    { apply st_log_event. by eapply (st_upd _ _ _ _ _ _ c n0 n). }
    assert (ph_val (ph1 c) = v ∧ owe (ph1 c) = false) as [Hv Hoc].
    { unfold ph1. rewrite fn_lookup_insert. split; [done|]. unfold owe. simpl. by rewrite andb_false_r. }
    pose proof (deliver_data_runs ph1 [] o c n0 0 _ true _ Hin Hoc Hw HS2) as Hd.
    rewrite Hv in Hd. eapply runs_conseq; [exact Hd|].
    intros [] w2 (ph' & q' & d & HS3 & Hw3 & Hev & Ho & Hl & Hbal). apply runs_ret.
    exists ph', q', d. split_and!; try done. by rewrite <-(assoc_L (++)) in HS3. }
  eapply runs_conseq; [exact Hemit|].
  intros [] w2 (ph' & q' & d & HS2 & Hw2 & Hev & Ho & Hl & Hbal). cbv beta.
  apply runs_modify. cbv beta. cbv match.
  apply (st_depth_leave _ _ _ _ _ _ (w_current_delivery_id w)) in HS2.
  set (w3 := leave_delivery _ w2) in *. apply runs_gets. cbv beta.
  assert (delivery_in_flight w3 = false) as ->.
  { unfold delivery_in_flight. by rewrite (st_depth _ _ _ _ _ _ HS2). }
  simpl. eapply runs_conseq.
  { refine (Hdrain ph' q' o _ w3 _ HS2 Hw2).
    unfold owing in *. erewrite list_filter_iff; [exact Hm|]. intros x. by rewrite Ho. }
  intros [] w4 (ph2 & d' & HS4 & Hw4 & Hev4 & Hl4). exists ph2, d, d'. split_and!; try done.
  - by rewrite <-(assoc_L (++)) in HS4.
  - by eapply evolves_trans.
  - destruct Hl4 as [Hb4 Hl4]. split; [done|]. intros x. destruct (Hl4 x) as [-> ->].
    unfold paid. by rewrite Ho.
Qed.

Lemma inputs_finish (p : Phase V) :
  length (ph_in p) = length (ph_new p) → ph_inputs (ph_finish p) = ph_inputs p.
Proof.
  unfold ph_inputs at 1. simpl. intros Hl.
  assert (length (ph_inputs p) = length (ph_new p)) as Hi
    by (unfold ph_inputs; rewrite length_zip_with; lia).
  revert Hi. generalize (ph_inputs p), (ph_new p). clear p Hl. intros vs os. revert vs.
  induction os as [|o os IH]; intros [|v vs] Hl; simpl in *; try done. f_equal. apply IH. lia.
Qed.

(** The scheduled node [c] produces: its out-edges are pending. *)
Lemma wave_inv_produce ph ph2 c o n0 :
  installed c n0 → c ∈ nw_nodes N → (∀ z, z ≠ c → ph2 z = ph z) → owe (ph2 c) = false →
  ph_dirty (ph2 c) = ph_dirty (ph c) → ph_inputs (ph2 c) = ph_inputs (ph c) →
  (∀ F, nw_fn N c = Some F → ph_val (ph2 c) = F (ph_inputs (ph c))) →
  wave_inv ph [] (c :: o) [] → wave_inv ph2 [] o (targets n0).
Proof.
  intros Hin Hc Hz Hoc Hdc Hic Hform Hw.
  destruct (proj1 (wi_sch _ _ _ _ Hw c Hc)) as [Ho H0]; [set_solver|].
  pose proof (proj1 (count_true_zero _) H0) as Hnd.
  assert (∀ y, ph_dirty (ph2 y) = ph_dirty (ph y)) as Hd.
  { intros y. destruct (decide (y = c)) as [->|]; [done|]. by rewrite Hz. }
  assert (∀ y, ph_inputs (ph2 y) = ph_inputs (ph y)) as Hi.
  { intros y. destruct (decide (y = c)) as [->|]; [done|]. by rewrite Hz. }
  assert (∀ y j, dirty_at ph2 (y, j) → y ≠ c ∧ dirty_at ph (y, j)) as Hback.
  { intros y j Hy. unfold dirty_at in Hy. rewrite Hd in Hy. split; [|done]. intros ->. by apply (Hnd j). }
  pose proof (wi_nodup _ _ _ _ Hw) as [Hco Hnodup]%NoDup_cons. split.
  - intros y j x He. rewrite Hd, (wi_dirty _ _ _ _ Hw y j x He). f_equal.
    destruct (decide (x = c)) as [->|Hx].
    + rewrite Ho, Hoc. symmetry. apply bool_decide_true. by apply (targets_edge c n0).
    + rewrite Hz by done. f_equal. rewrite bool_decide_false by set_solver.
      rewrite bool_decide_false; [done|]. intros [_ Ht]%(targets_edge c n0); [|done].
      destruct He as [_ He]. congruence.
  - intros y j [Hy Hyd]%Hback. rewrite Hz by done. by apply (wi_owe _ _ _ _ Hw y j).
  - intros y j x He Hx Hp. rewrite Hi. destruct (decide (x = c)) as [->|Hxc].
    + destruct Hp. by apply (targets_edge c n0).
    + rewrite Hz in * by done. apply (wi_val _ _ _ _ Hw); [done..|set_solver].
  - intros y j [Hy Hyd]%Hback. rewrite Hz by done. by apply (wi_new _ _ _ _ Hw).
  - intros y Hy. rewrite Hd. pose proof (wi_sch _ _ _ _ Hw y Hy) as Hs. simpl in *.
    destruct (decide (y = c)) as [->|Hyc].
    + rewrite Hoc. split; [done|by intros []].
    + rewrite Hz by done. rewrite <-Hs. set_solver.
  - done.
  - intros y Hy. apply (wi_nodes _ _ _ _ Hw). set_solver.
  - intros y F Hy HF Hyo. rewrite Hi. destruct (decide (y = c)) as [->|Hyc]; [by apply Hform|].
    rewrite Hz in * by done. by apply (wi_form _ _ _ _ Hw).
  - intros y Hy. destruct (decide (y = c)) as [->|Hyc]; [congruence|].
    rewrite Hz in * by done. by apply (wi_calm _ _ _ _ Hw).
  - intros y Hy. destruct (decide (y = c)) as [->|Hyc]; [congruence|].
    rewrite Hz in * by done. by apply (wi_fn _ _ _ _ Hw).
Qed.

(** A node that owes nothing may change its bookkeeping. *)
Lemma wave_inv_rest ph ph' c q o :
  (∀ z, z ≠ c → ph' z = ph z) → owe (ph c) = false → owe (ph' c) = false →
  ph_dirty (ph' c) = ph_dirty (ph c) → ph_inputs (ph' c) = ph_inputs (ph c) →
  ph_val (ph' c) = ph_val (ph c) → wave_inv ph q o [] → wave_inv ph' q o [].
Proof.
  intros Hz Hoc Hoc' Hdc Hic Hvc Hw.
  assert (∀ y, ph_dirty (ph' y) = ph_dirty (ph y) ∧ ph_inputs (ph' y) = ph_inputs (ph y)
               ∧ ph_val (ph' y) = ph_val (ph y) ∧ owe (ph' y) = owe (ph y)) as Hs.
  { intros y. destruct (decide (y = c)) as [->|]; [by rewrite Hoc, Hoc'|by rewrite Hz]. }
  assert (∀ y j, dirty_at ph' (y, j) → y ≠ c ∧ dirty_at ph (y, j)) as Hback.
  { intros y j Hy. unfold dirty_at in Hy. simpl in Hy. rewrite (proj1 (Hs y)) in Hy. split; [|done].
    intros ->. apply (wi_owe _ _ _ _ Hw) in Hy. congruence. }
  split.
  - intros y j x He. destruct (Hs y) as (-> & _). destruct (Hs x) as (_ & _ & _ & ->).
    by apply (wi_dirty _ _ _ _ Hw).
  - intros y j [Hy Hyd]%Hback. rewrite Hz by done. by apply (wi_owe _ _ _ _ Hw y j).
  - intros y j x He Hx Hp. destruct (Hs y) as (_ & -> & _). destruct (Hs x) as (_ & _ & -> & Ho).
    rewrite Ho in Hx. by apply (wi_val _ _ _ _ Hw).
  - intros y j [Hy Hyd]%Hback. rewrite Hz by done. by apply (wi_new _ _ _ _ Hw).
  - intros y Hy. destruct (Hs y) as (-> & _ & _ & ->). by apply (wi_sch _ _ _ _ Hw).
  - apply (wi_nodup _ _ _ _ Hw).
  - apply (wi_nodes _ _ _ _ Hw).
  - intros y F Hy HF. destruct (Hs y) as (_ & -> & -> & ->). by apply (wi_form _ _ _ _ Hw).
  - intros y Hy. destruct (decide (y = c)) as [->|Hyc]; [congruence|].
    rewrite Hz in * by done. by apply (wi_calm _ _ _ _ Hw).
  - intros y. destruct (Hs y) as (_ & _ & _ & ->). apply (wi_fn _ _ _ _ Hw).
Qed.

(** The fns of the network run synchronously. *)
Lemma not_async ph q k l b w c :
  St ph q k l b w → c ∈ nw_nodes N → is_async_node c w = Ret false w.
Proof.
  intros HS Hc. destruct (st_node _ _ _ _ _ _ c HS Hc) as (n0 & n & Hin & Hn & Hp).
  unfold is_async_node. rewrite (bind_ret _ _ _ _ _ (node_run _ _ _ Hn)).
  unfold gets at 1. unfold bind at 1. rewrite (an_disp _ _ (st_net _ _ _ _ _ _ HS)).
  rewrite (sp_call _ _ _ Hp). destruct (handle (n_call n0)) as [h|] eqn:Hh; [|done].
  pose proof (in_fn _ _ Hin) as Hfn. destruct (nw_fn N c) as [F|]; [|congruence].
  destruct Hfn as (h' & f & Hh' & _ & Hk & _). assert (h' = h) as -> by congruence.
  by rewrite Hk.
Qed.

(** [down] of one DATA up to the emission. *)
Lemma down_runs ph q k l b c v w n0 Q :
  c ∈ nw_nodes N → installed c n0 → 1 ≤ ph_room (ph c) → St ph q k l b w →
  (St ph q k l b (pin_once c w) →
   runs uc (λ r, emit_wave uc r c (ph_inside (ph c)) [Data v]) (pin_once c w) Q) →
  runs uc (λ r, down uc r c [Data v]) w Q.
Proof.
  intros Hc Hin Hroom HS HQ. specialize (HQ (st_pin _ _ _ _ _ _ c HS)).
  destruct (st_node _ _ _ _ _ _ c HS Hc) as (n0' & n & Hin' & Hn & Hp).
  rewrite (installed_unique _ _ _ Hin' Hin) in *. clear n0' Hin'.
  unfold down. eapply runs_node; [exact Hn|]. rewrite (sp_wave _ _ _ Hp), (sp_live _ _ _ Hp). simpl.
  apply runs_step with (a := tt) (w' := pin_once c w); [done|]. cbv beta.
  apply (st_pin _ _ _ _ _ _ c) in HS as HS1. set (w1 := pin_once c w) in *.
  assert (get_node w1 c = Some n) as Hn1 by (by rewrite <-Hn; apply frame_get_node, frame_pin_once).
  change (shape_wave [Data v]) with [Data v].
  eapply runs_node; [exact Hn1|].
  apply runs_step with (a := tt) (w' := w1).
  { unfold assert_versions. simpl. destruct (ph_room (ph c)) as [|rm] eqn:Hrm; [lia|].
    pose proof (sp_room _ _ _ Hp) as Hr. rewrite Hrm in Hr.
    destruct (room_advance rm n v Hr) as (nv & Hnv & _).
    by rewrite (advance_compatible _ _ _ _ Hnv). }
  eapply (runs_pure uc (λ r, capture_in_batch uc r c _ [Data v]) _ _ (Some [Data v]) w1).
  { intros r. unfold capture_in_batch, bind, gets, collecting_batch.
    rewrite (an_batch _ _ (st_net _ _ _ _ _ _ HS1)). by rewrite andb_false_r. }
  cbv beta match. apply runs_step with (a := Some [Data v]) (w' := w1); [|exact HQ].
  unfold buffer_on_pause. rewrite (bind_ret _ _ _ _ _ (not_async _ _ _ _ _ _ c HS1 Hc)).
  rewrite (bind_ret _ _ _ _ _ (node_run _ _ _ Hn1)).
  by rewrite (slot_ph_buffer _ _ _ false (in_plain _ _ Hin) Hp).
Qed.

(** The emission of one DATA by a node that is inside its run: no leading DIRTY. *)
Lemma emit_wave_inside_runs c v w n0 n ph q k l b (Q : unit → World V → Prop) :
  installed c n0 → c ∈ nw_nodes N → get_node w c = Some n → St ph q k l b w →
  runs uc (λ r, with_delivery_scope r (for_each [Data v] (emit_message uc r c))) w Q →
  runs uc (λ r, emit_wave uc r c true [Data v]) w Q.
Proof.
  intros Hin Hc Hn HS HQ. destruct (st_node _ _ _ _ _ _ c HS Hc) as (n0' & n' & Hin' & Hn' & Hp).
  rewrite (installed_unique _ _ _ Hin' Hin) in *. assert (n' = n) as -> by congruence.
  unfold emit_wave. apply runs_step with (a := tt) (w' := w); [done|].
  eapply runs_node; [exact Hn|]. rewrite (sp_aux _ _ _ Hp), (pl_pull_dirty _ (in_plain _ _ Hin)). simpl.
  apply runs_step with (a := tt) (w' := w); [done|].
  apply (runs_bind uc (λ r, with_delivery_scope r (for_each [Data v] (emit_message uc r c)))).
  eapply runs_conseq; [exact HQ|]. intros [] w' H. by apply runs_ret.
Qed.

(** The call of the fn of [c], which emits [F] of its inputs. *)
Lemma invoke_runs ph l w c n0 n h f F Q :
  let v := F (ph_inputs (ph c)) in
  c ∈ nw_nodes N → installed c n0 → get_node w c = Some n → St ph [] 0 l true w →
  handle (n_call n0) = Some h → Dispatcher.lookup_fn (w_disp w0) h = Some (Some f) → computes f F →
  1 ≤ ph_room (ph c) → ph_inside (ph c) = true →
  (∀ w', St ph [] 0 (l ++ [EvRun c]) true w' →
     runs uc (λ r, with_delivery_scope r (for_each [Data v] (emit_message uc r c))) w' Q) →
  ∀ n1, latest <$> run_dep_records n1 = Some <$> ph_inputs (ph c) → ∀ d,
  runs uc (λ r, invoke uc r c h (mkCtx c (run_dep_records n1) d)) w Q.
Proof.
  intros v Hc Hin Hn HS Hh Hf HF Hroom Hinside HQ n1 Hn1 d. unfold invoke. apply runs_gets. cbv beta.
  rewrite (an_disp _ _ (st_net _ _ _ _ _ _ HS)), Hf. simpl.
  apply runs_step with (a := Some f) (w' := w); [done|]. cbv beta match.
  apply runs_log. cbv beta. rewrite (ns_recording Hst).
  apply st_log_event with (e := EvRun c) in HS. set (w1 := set_w_log _ w) in *.
  apply (runs_call uc (TProg (Some c) (fn_code uc f (mkCtx c (run_dep_records n1) d)))). simpl.
  rewrite (HF (mkCtx c (run_dep_records n1) d) (ph_inputs (ph c)) Hn1). simpl.
  apply runs_step with (a := c) (w' := w1); [done|]. cbv beta.
  apply (runs_bind uc (λ r, r (TDown c [Data v]))).
  apply (runs_call uc (TDown c [Data v])). simpl.
  apply (down_runs ph [] 0 (l ++ [EvRun c]) true c v w1 n0); [done..|].
  intros HS1. rewrite Hinside.
  destruct (st_node _ _ _ _ _ _ c HS1 Hc) as (n0' & n' & Hin' & Hn' & Hp).
  apply (emit_wave_inside_runs c v _ n0 n' ph [] 0 (l ++ [EvRun c]) true); [done..|].
  eapply runs_conseq; [by apply HQ|]. intros [] w' H. by apply runs_ret.
Qed.

Lemma st_blame ph q k l b w c :
  St ph q k l b w → St ph q k l b (set_w_wave (fmap (set_blamed (λ _, Some c))) w).
Proof. intros [[]]. split; try done. simpl. by destruct (w_wave w). Qed.

Lemma owing_lt ph ph' c :
  (∀ z, owe (ph' z) = true → owe (ph z) = true) → c ∈ nw_nodes N →
  owe (ph c) = true → owe (ph' c) = false → owing ph' < owing ph.
Proof.
  intros H Hc H0 H1. unfold owing. apply (length_filter_lt _ _ (nw_nodes N) c); auto. congruence.
Qed.

(** What the run of [c] does to the phases, from before [begin_run] to after
    [end_run], given what the delivery of its DATA did to the other nodes. *)
Lemma run_evolves ph ph1 ph' ph2 c p2 :
  owe (ph c) = true → (∀ z, z ≠ c → ph1 z = ph z) → owe (ph1 c) = false →
  evolves ph1 ph' → (∀ z, z ≠ c → ph2 z = ph' z) → ph2 c = ph_finish p2 → ph_inside p2 = false →
  ph_room p2 = pred (ph_room (ph c)) →
  evolves ph ph2.
Proof.
  intros Ho H1 H1c He H2 H2c Hins Hr. split.
  - intros z Hz. assert (z ≠ c) as Hzc by congruence.
    rewrite H2 by done. rewrite (ev_done _ _ He z); rewrite H1; done.
  - intros z Hz. destruct (decide (z = c)) as [->|Hzc]; [by rewrite H2c in Hz|].
    rewrite H2 in Hz |- * by done. rewrite <-(H1 z Hzc). by apply (ev_owe _ _ He).
  - intros z Hz Hz2. destruct (decide (z = c)) as [->|Hzc].
    + rewrite H2c. simpl. by rewrite length_replicate.
    + rewrite H2 in Hz2 |- * by done. rewrite <-(H1 z Hzc) in Hz |- *. by apply (ev_paid _ _ He).
Qed.

Lemma run_wave_log ph ph1 ph' ph2 c v d d' :
  owe (ph c) = true → (∀ z, z ≠ c → ph1 z = ph z) → owe (ph1 c) = false →
  evolves ph1 ph' → (∀ z, z ≠ c → ph2 z = ph' z) → owe (ph2 c) = false → ph_val (ph2 c) = v →
  (∀ x, emits x d = [] ∧ run_events x d = 0) → balanced (EvEmit c (Data v) :: d) →
  wave_log ph1 ph' d' → wave_log ph ph2 (EvRun c :: EvEmit c (Data v) :: d ++ d').
Proof.
  intros Ho H1 H1c He H2 H2c Hv Hd Hb [Hb' Hd'].
  change (EvRun c :: EvEmit c (Data v) :: d ++ d')
    with ([EvRun c] ++ (EvEmit c (Data v) :: d) ++ d'). split.
  - apply balanced_app; [by intros ? ?|]. by apply balanced_app.
  - intros x. rewrite !emits_app, !run_events_app. destruct (Hd' x) as [-> ->].
    assert (∀ A (a b : A), (if paid ph1 ph' x then a else b)
      = if decide (x = c) then b else if paid ph ph2 x then a else b) as Hp.
    { intros A a b. unfold paid. destruct (decide (x = c)) as [->|Hx]; [by rewrite H1c|].
      by rewrite H1, H2 by done. }
    rewrite !Hp. unfold run_events at 1. unfold count_if.
    assert (emits x (EvEmit c (Data v) :: d) = if decide (x = c) then [Data v] else []) as ->.
    { simpl. destruct (Hd x) as [-> _]. case_decide; [by rewrite bool_decide_true|].
      by rewrite bool_decide_false. }
    assert (run_events x (EvEmit c (Data v) :: d) = 0) as -> by apply (Hd x). simpl.
    destruct (decide (x = c)) as [->|Hx].
    + rewrite bool_decide_true by done. unfold paid. rewrite Ho, H2c. simpl. by rewrite Hv.
    + rewrite bool_decide_false by done. simpl. destruct (paid ph ph2 x) eqn:Hpx; [|done].
      by rewrite H2.
Qed.

(** The guarded call of the fn of [c]: the run flag up, the call, the flag down. *)
Lemma guarded_invoke_runs m ph o c l w n0 n F h f d0 :
  let v := F (ph_inputs (ph c)) in
  let ph1 := <[c := ph_produce v (ph_enter (ph c))]> ph in
  drain_promise m → owing ph ≤ S m → c ∈ nw_nodes N → installed c n0 → get_node w c = Some n →
  nw_fn N c = Some F → handle (n_call n0) = Some h →
  Dispatcher.lookup_fn (w_disp w0) h = Some (Some f) → computes f F →
  St ph [] 0 l true w → wave_inv ph [] (c :: o) [] →
  runs uc (λ r, guarded_invoke uc r c h (mkCtx c (run_dep_records n) d0)) w
    (λ _ w', ∃ ph' d d',
       St (<[c := ph_leave (ph1 c)]> ph') [] 0 (l ++ EvRun c :: EvEmit c (Data v) :: d ++ d') true w'
       ∧ wave_inv ph' [] o [] ∧ evolves ph1 ph' ∧ wave_log ph1 ph' d'
       ∧ (∀ x, emits x d = [] ∧ run_events x d = 0) ∧ balanced (EvEmit c (Data v) :: d)).
Proof.
  intros v ph1 Hdrain Hm Hc Hin Hn HF Hh Hf Hcomp HS Hw.
  destruct (proj1 (wi_sch _ _ _ _ Hw c Hc)) as [Ho H0]; [set_solver|].
  destruct (wi_calm _ _ _ _ Hw c Ho) as [Hins Hroom].
  destruct (st_node _ _ _ _ _ _ c HS Hc) as (n0' & n' & Hin' & Hn' & Hp).
  rewrite (installed_unique _ _ _ Hin' Hin) in *. assert (n' = n) as -> by congruence.
  clear n0' Hin' Hn'. unfold guarded_invoke. eapply runs_upd; [exact Hn|].
  assert (St (<[c := ph_enter (ph c)]> ph) [] 0 l true (upd_node c begin_run w)) as HS1.
  { apply (st_upd _ _ _ _ _ _ c n0 n); try done. apply begin_ph; [apply (in_plain _ _ Hin)|congruence|done]. }
  set (phe := <[c := ph_enter (ph c)]> ph) in *. set (w1 := upd_node c begin_run w) in *.
  assert (phe c = ph_enter (ph c)) as Hphe by apply fn_lookup_insert.
  apply runs_modify. apply (st_blame _ _ _ _ _ _ c) in HS1. set (w2 := set_w_wave _ w1) in *. cbv beta.
  destruct (st_node _ _ _ _ _ _ c HS1 Hc) as (n0' & n2 & Hin' & Hn2 & Hp2).
  rewrite (installed_unique _ _ _ Hin' Hin) in *. clear n0' Hin'.
  assert (∀ z, ph1 z = (<[c := ph_produce v (phe c)]> phe) z) as Heq.
  { intros z. unfold ph1. rewrite Hphe. destruct (decide (z = c)) as [->|Hz].
    - by rewrite !fn_lookup_insert.
    - unfold phe. by rewrite !fn_lookup_insert_ne. }
  assert (ph1 c = ph_produce v (ph_enter (ph c))) as H1c by apply fn_lookup_insert.
  assert (∀ z, z ≠ c → ph1 z = ph z) as H1 by (intros; by apply fn_lookup_insert_ne).
  assert (owe (ph1 c) = false) as Ho1.
  { rewrite H1c. unfold owe. simpl. by rewrite andb_false_r. }
  apply (runs_guard uc (λ r, invoke uc r c h _)).
  refine (runs_conseq _ _ _ _ _ (invoke_runs phe l w2 c n0 n2 h f F _ Hc Hin Hn2 HS1 Hh Hf Hcomp
            _ _ _ n _ d0) _).
  - by rewrite Hphe.
  - by rewrite Hphe.
  - intros w3 HS3. rewrite Hphe. change (F (ph_inputs (ph_enter (ph c)))) with v.
    refine (emit_data_runs m phe o c v (l ++ [EvRun c]) w3 n0 Hdrain _ Hc Hin _ HS3 _).
    + assert (owing ph1 < owing ph) as Hlt.
      { apply (owing_lt ph ph1 c); try done. intros z Hz.
        destruct (decide (z = c)) as [->|Hzc]; [congruence|by rewrite <-H1]. }
      assert (owing (<[c := ph_produce v (phe c)]> phe) = owing ph1) as ->; [|lia].
      unfold owing. f_equal. apply list_filter_iff. intros z. cbv beta. by rewrite Heq.
    + by rewrite Hphe.
    + apply (wave_inv_produce ph _ c o n0); try done.
      * intros z Hz. rewrite <-Heq. by apply H1.
      * by rewrite <-Heq.
      * by rewrite <-Heq, H1c.
      * by rewrite <-Heq, H1c.
      * intros F' HF'. rewrite <-Heq, H1c. assert (F' = F) as -> by congruence. done.
  - rewrite Hphe. exact (run_inputs n0 (ph c) n Hp).
  - intros [] w3 (ph' & d & d' & HS3 & Hw3 & Hev & Hl & Hd & Hb).
    assert (∀ z, owe (ph1 z) = false → ph' z = ph1 z) as Hdone.
    { intros z Hz. rewrite Heq in Hz |- *. by apply (ev_done _ _ Hev). }
    exists ph', d, d'. split_and!; try done.
    + rewrite <-(assoc_L (++)) in HS3. simpl in HS3.
      destruct (st_node _ _ _ _ _ _ c HS3 Hc) as (n0' & n3 & Hin' & Hn3 & Hp3).
      rewrite (installed_unique _ _ _ Hin' Hin) in *. clear n0' Hin'.
      apply (st_upd _ _ _ _ _ _ c n0 n3); try done. apply leave_ph. by rewrite <-(Hdone c Ho1).
    + destruct Hev. split.
      * done.
      * intros z. rewrite Heq. apply ev_owe0.
      * intros z. rewrite Heq. apply ev_paid0.
    + destruct Hl as [Hlb Hl]. split; [done|]. intros x. destruct (Hl x) as [-> ->].
      unfold paid. by rewrite Heq.
Qed.

(** One scheduled node runs: it pays, and everything it completes has run. *)
Lemma run_node_runs m ph o c l w :
  drain_promise m → owing ph ≤ S m → c ∈ nw_nodes N →
  St ph [] 0 l true w → wave_inv ph [] (c :: o) [] →
  runs uc (λ r, r (TRunWave c)) w (λ _ w', ∃ ph' d,
    St ph' [] 0 (l ++ d) true w' ∧ wave_inv ph' [] o [] ∧ evolves ph ph' ∧ wave_log ph ph' d).
Proof.
  intros Hdrain Hm Hc HS Hw.
  destruct (proj1 (wi_sch _ _ _ _ Hw c Hc)) as [Ho H0]; [set_solver|].
  destruct (wi_calm _ _ _ _ Hw c Ho) as [Hins Hroom]. pose proof (wi_fn _ _ _ _ Hw c Ho) as HF.
  destruct (nw_fn N c) as [F|] eqn:HFc; [|done]. clear HF.
  apply (runs_call uc (TRunWave c)). simpl. unfold run_wave.
  apply runs_modify. cbv beta. apply (st_pin _ _ _ _ _ _ c) in HS. set (w1 := pin_once c w) in *.
  destruct (st_node _ _ _ _ _ _ c HS Hc) as (n0 & n & Hin & Hn & Hp).
  pose proof (in_fn _ _ Hin) as Hfn. rewrite HFc in Hfn. destruct Hfn as (h & f & Hh & Hf & _ & Hcomp).
  eapply runs_node; [exact Hn|]. rewrite (sp_wave _ _ _ Hp), Hins. simpl.
  apply runs_step with (a := h) (w' := w1); [by rewrite (sp_call _ _ _ Hp), Hh|]. cbv beta.
  eapply runs_step; [exact (not_async _ _ _ _ _ _ c HS Hc)|]. cbv beta.
  set (v := F (ph_inputs (ph c))). set (ph1 := <[c := ph_produce v (ph_enter (ph c))]> ph).
  apply (runs_bind uc (λ r, guarded_invoke uc r c h _)).
  eapply runs_conseq; [by apply (guarded_invoke_runs m ph o c l w1 n0 n F h f)|].
  intros [] w2 (ph' & d & d' & HS2 & Hw2 & Hev & Hl & Hd & Hb). fold v ph1 in HS2, Hev, Hl, Hb.
  assert (ph1 c = ph_produce v (ph_enter (ph c))) as H1c by apply fn_lookup_insert.
  assert (∀ z, z ≠ c → ph1 z = ph z) as H1 by (intros; by apply fn_lookup_insert_ne).
  assert (owe (ph1 c) = false) as Ho1 by (rewrite H1c; unfold owe; simpl; by rewrite andb_false_r).
  assert (ph' c = ph1 c) as Hphc by by apply (ev_done _ _ Hev).
  set (p2 := ph_leave (ph1 c)) in *. set (ph2 := <[c := p2]> ph') in *.
  destruct (st_node _ _ _ _ _ _ c HS2 Hc) as (n0' & n2 & Hin' & Hn2 & Hp2).
  rewrite (installed_unique _ _ _ Hin' Hin) in *. clear n0' Hin'.
  assert (ph2 c = p2) as H2c by apply fn_lookup_insert. rewrite H2c in Hp2.
  eapply runs_node; [exact Hn2|].
  assert (owes_undirty false n2 = false) as ->.
  { unfold owes_undirty. rewrite (sp_wave _ _ _ Hp2). unfold p2. rewrite H1c. simpl.
    by rewrite andb_false_r. }
  apply (runs_pure uc (λ r, when false (r (TDown c [Resolved]))) _ w2 tt w2); [done|].
  eapply runs_node; [exact Hn2|]. apply (runs_upd_last uc c n2 (end_run false)); [done|].
  assert (∀ z, z ≠ c → (<[c := ph_finish p2]> ph2) z = ph' z) as H3.
  { intros z Hz. rewrite fn_lookup_insert_ne by done. by apply fn_lookup_insert_ne. }
  assert ((<[c := ph_finish p2]> ph2) c = ph_finish p2) as H3c by apply fn_lookup_insert.
  exists (<[c := ph_finish p2]> ph2), (EvRun c :: EvEmit c (Data v) :: d ++ d'). split_and!.
  - apply (st_upd _ _ _ _ _ _ c n0 n2); try done. by apply finish_ph.
  - assert (owe (ph' c) = false) as Hoc' by by rewrite Hphc.
    apply (wave_inv_rest ph' _ c); try done; rewrite H3c, ?Hphc; try done.
    rewrite inputs_finish; [done|].
    by rewrite (sp_len_in _ _ _ Hp2), (sp_len_new _ _ _ Hp2).
  - apply (run_evolves ph ph1 ph' _ c p2); try done. unfold p2. by rewrite H1c.
  - apply (run_wave_log ph ph1 ph' _ c v); try done; rewrite H3c; [done|].
    unfold p2. by rewrite H1c.
Qed.

(** ** Draining the delivery queue *)

Lemma wave_inv_shift ph q o : wave_inv ph q o [] → wave_inv ph [] (q ++ o) [].
Proof. intros []. by split. Qed.

Lemma owing_le ph ph' : evolves ph ph' → owing ph' ≤ owing ph.
Proof. intros H. apply length_filter_le. intros x Hx. by apply (ev_owe _ _ H). Qed.

Lemma owing_zero ph c : owing ph = 0 → c ∈ nw_nodes N → owe (ph c) = false.
Proof.
  intros H Hc. apply not_true_is_false. intros Ho. unfold owing in H.
  apply nil_length_inv in H. assert (c ∈ filter (λ x, owe (ph x) = true) (nw_nodes N)) as Hin
    by by apply list_elem_of_filter.
  rewrite H in Hin. set_solver.
Qed.

Lemma drain_empty_runs w (Q : unit → World V → Prop) :
  w_deferred_actions w = [] → Q tt w → runs uc (λ r, r TDrainRuns) w Q.
Proof.
  intros Hq HQ. apply (runs_call uc TDrainRuns). simpl. unfold drain_deferred_runs.
  apply runs_gets. rewrite Hq. by apply runs_ret.
Qed.

(** One queued action outside any delivery. *)
Lemma apply_deferred_runs m ph o c l w :
  drain_promise m → owing ph ≤ S m → St ph [] 0 l true w → wave_inv ph [] (c :: o) [] →
  runs uc (λ r, apply_deferred r (KRun, c)) w (λ _ w', ∃ ph' d,
    St ph' [] 0 (l ++ d) true w' ∧ wave_inv ph' [] o [] ∧ evolves ph ph' ∧ wave_log ph ph' d).
Proof.
  intros Hd Hm HS Hw. assert (c ∈ nw_nodes N) as Hc by (apply (wi_nodes _ _ _ _ Hw); set_solver).
  destruct (proj1 (wi_sch _ _ _ _ Hw c Hc)) as [Ho H0]; [set_solver|].
  destruct (st_node _ _ _ _ _ _ c HS Hc) as (n0 & n & Hin & Hn & Hp).
  unfold apply_deferred. apply runs_gets. rewrite Hn, (sp_live _ _ _ Hp). unfold maybe_run.
  apply runs_gets. unfold delivery_in_flight. rewrite (st_depth _ _ _ _ _ _ HS). simpl.
  eapply runs_with_slot; [exact Hn|].
  assert (handle (n_call n0) ≠ None) as Hh.
  { pose proof (in_fn _ _ Hin) as Hfn. pose proof (wi_fn _ _ _ _ Hw c Ho).
    destruct (nw_fn N c); [|done]. destruct Hfn as (h & f & -> & _). done. }
  rewrite (decide_run_ph n0 (ph c) n (in_plain _ _ Hin) Hh Hp H0). simpl.
  apply (run_node_runs m); try done.
  apply (st_same (<[c := ph c]> ph)); [|by apply (st_upd _ _ _ _ _ _ c n0 n)].
  intros z _. destruct (decide (z = c)) as [->|Hz]; [by rewrite fn_lookup_insert|].
  by rewrite fn_lookup_insert_ne.
Qed.

Lemma drain_runs m : drain_promise m.
Proof.
  induction m as [|m IH]; intros ph q o l w Hm HS Hw.
  { assert (q = []) as ->.
    { destruct q as [|c q]; [done|]. assert (c ∈ nw_nodes N) as Hc
        by (apply (wi_nodes _ _ _ _ Hw); set_solver).
      destruct (proj1 (wi_sch _ _ _ _ Hw c Hc)) as [Ho _]; [set_solver|].
      rewrite owing_zero in Ho; [done|lia|done]. }
    apply drain_empty_runs; [apply (st_queue _ _ _ _ _ _ HS)|]. exists ph, [].
    rewrite app_nil_r. split_and!; [done..|apply evolves_refl|apply wave_log_nil]. }
  apply (runs_call uc TDrainRuns). simpl. unfold drain_deferred_runs. apply runs_gets.
  rewrite (st_queue _ _ _ _ _ _ HS). destruct q as [|c0 q0]; [simpl|].
  { apply runs_ret. exists ph, []. rewrite app_nil_r.
    split_and!; [done..|apply evolves_refl|apply wave_log_nil]. }
  remember (c0 :: q0) as q eqn:Hq. assert (is_nil (pair KRun <$> q) = false) as -> by by subst.
  clear Hq c0 q0. apply runs_modify. cbv beta.
  assert (St ph [] 0 l true (set_w_deferred_actions (λ _, []) w)) as HS1
    by (destruct HS as [[]]; by split).
  apply wave_inv_shift in Hw. set (w1 := set_w_deferred_actions _ w) in *.
  apply (runs_bind uc (λ r, for_each [KRun; KAbsorbedSettle] (λ k,
    for_each (pair KRun <$> q) (λ a, when (bool_decide (a.1 = k)) (apply_deferred r a))))).
  assert (runs uc (λ r, for_each (pair KRun <$> q) (λ a, when (bool_decide (a.1 = KRun)) (apply_deferred r a)))
    w1 (λ _ w', ∃ ph' d, St ph' [] 0 (l ++ d) true w' ∧ wave_inv ph' [] o []
                 ∧ evolves ph ph' ∧ wave_log ph ph' d)) as Hloop.
  { eapply runs_conseq.
    - apply (runs_for_each uc (pair KRun <$> q)
        (λ r a, when (bool_decide (a.1 = KRun)) (apply_deferred r a))
        (λ l1 w', ∃ q2 ph' d, pair KRun <$> q = l1 ++ (pair KRun <$> q2) ∧ St ph' [] 0 (l ++ d) true w'
           ∧ wave_inv ph' [] (q2 ++ o) [] ∧ evolves ph ph' ∧ wave_log ph ph' d)).
      + exists q, ph, []. rewrite app_nil_r. split_and!; try done; [apply evolves_refl|apply wave_log_nil].
      + intros l1 a l2 w2 Hl (q2 & ph' & d & Hq & HS2 & Hw2 & Hev & Hlog).
        rewrite Hl in Hq. apply app_inv_head in Hq. destruct q2 as [|c q2]; [done|].
        injection Hq as -> ->. simpl.
        eapply runs_conseq; [apply (apply_deferred_runs m ph' (q2 ++ o) c (l ++ d)); try done|].
        { etrans; [by apply owing_le|done]. }
        intros [] w3 (ph2 & d2 & HS3 & Hw3 & Hev2 & Hlog2). exists q2, ph2, (d ++ d2). split_and!.
        * by rewrite Hl, <-(assoc_L (++)).
        * by rewrite (assoc_L (++)).
        * done.
        * by eapply evolves_trans.
        * by apply (wave_log_trans ph ph' ph2).
    - intros _ w2 (q2 & ph' & d & Hq & HS2 & Hw2 & Hev & Hlog).
      apply (f_equal length) in Hq. rewrite length_app, !length_fmap in Hq.
      destruct q2; [|simpl in Hq; lia]. by exists ph', d. }
  apply (runs_bind uc (λ r, for_each (pair KRun <$> q)
    (λ a, when (bool_decide (a.1 = KRun)) (apply_deferred r a)))).
  eapply runs_conseq; [exact Hloop|]. intros [] w2 (ph' & d & HS2 & Hw2 & Hev & Hlog).
  apply (runs_det _ _ _ tt w2).
  { intros r. unfold bind at 1. assert (∀ k : list Core, for_each (pair KRun <$> k)
      (λ a, when (bool_decide (a.1 = KAbsorbedSettle)) (apply_deferred r a)) w2 = Ret tt w2) as Hno.
    { intros k. induction k as [|c k IHk]; [done|]. simpl. unfold bind at 1. simpl. exact IHk. }
    simpl. by rewrite Hno. }
  apply drain_empty_runs; [apply (st_queue _ _ _ _ _ _ HS2)|]. by exists ph', d.
Qed.

(** ** Writing a source *)

(** A network at rest: no flag, no mark, every node up to date with its deps. *)
Record idle ph : Prop := {
  id_calm : ∀ c, ph_emit (ph c) = false ∧ ph_t3 (ph c) = false ∧ ph_inside (ph c) = false;
  id_clean : ∀ c j, ¬ dirty_at ph (c, j);
  id_new : ∀ c, ph_new (ph c) = replicate (length (ph_new (ph c))) None;
  id_in : ∀ y j x, edge y j x → ph_in (ph y) !! j = Some (ph_val (ph x));
  id_form : ∀ y F, y ∈ nw_nodes N → nw_fn N y = Some F → ph_val (ph y) = F (ph_in (ph y))
}.

Lemma inputs_clean (p : Phase V) :
  ph_new p = replicate (length (ph_new p)) None → length (ph_in p) = length (ph_new p) →
  ph_inputs p = ph_in p.
Proof.
  unfold ph_inputs. intros -> Hl. rewrite length_replicate in Hl. revert Hl.
  generalize (ph_in p), (length (ph_new p)). intros vs k. revert vs.
  induction k as [|k IH]; intros [|v vs] Hl; simpl in *; try done. f_equal. apply IH. lia.
Qed.

Lemma st_lens ph q k l b w c :
  St ph q k l b w → c ∈ nw_nodes N →
  length (ph_in (ph c)) = length (nw_deps N c) ∧ length (ph_new (ph c)) = length (nw_deps N c)
  ∧ length (ph_dirty (ph c)) = length (nw_deps N c).
Proof.
  intros HS Hc. destruct (st_node _ _ _ _ _ _ c HS Hc) as (n0 & n & Hin & _ & Hp).
  by rewrite (sp_len_in _ _ _ Hp), (sp_len_new _ _ _ Hp), (sp_len_dirty _ _ _ Hp), (in_deps _ _ Hin).
Qed.

Lemma idle_consistent ph q k l b w : St ph q k l b w → idle ph → consistent N (ph_val ∘ ph).
Proof.
  intros HS Hi c F Hc HF. simpl. rewrite (id_form _ Hi c F Hc HF). f_equal.
  destruct (st_lens _ _ _ _ _ _ c HS Hc) as (Hl & _). apply list_eq_same_length
    with (n := length (nw_deps N c)); [by rewrite length_fmap|done|].
  intros j x y Hj Hx Hy. rewrite list_lookup_fmap in Hy.
  destruct (nw_deps N c !! j) as [d|] eqn:Hd; [|done]. injection Hy as <-.
  rewrite (id_in _ Hi c j d) in Hx; [by injection Hx as <-|done].
Qed.

(** The source of a write has no dep. *)
Lemma source_no_edge s j x : nw_fn N s = None → ¬ edge s j x.
Proof. intros Hs [Hin Hj]. by rewrite (nw_source _ (ns_wf Hst) s Hin Hs) in Hj. Qed.

(** Marks only move up: with nothing scheduled nobody owes a value. *)
Lemma wave_over ph q k l b w y :
  St ph q k l b w → wave_inv ph [] [] [] → y ∈ nw_nodes N → owe (ph y) = false.
Proof.
  intros HS Hw. induction y as [y IH] using (well_founded_induction (well_founded_ltof _ (nw_rank N))).
  intros Hy. apply not_true_is_false. intros Ho.
  destruct (decide (count_true (ph_dirty (ph y)) = 0)) as [H0|H0].
  { assert (y ∈ ([] : list Core)); [by apply (wi_sch _ _ _ _ Hw y Hy)|set_solver]. }
  apply H0, count_true_zero. intros j Hj.
  destruct (st_lens _ _ _ _ _ _ y HS Hy) as (_ & _ & Hl).
  destruct (lookup_lt_is_Some_2 (nw_deps N y) j) as [x Hx]; [rewrite <-Hl; by eapply lookup_lt_Some|].
  assert (edge y j x) as He by done. destruct (edge_rank _ _ _ He) as [Hxn Hr].
  rewrite (wi_dirty _ _ _ _ Hw y j x He), (IH x Hr Hxn) in Hj.
  rewrite bool_decide_false in Hj by set_solver. done.
Qed.

Section Write.
Variables (ph ph2 : Core → Phase V) (s : Core) (v : V) (n0 : NodeSlot V).
Let ph1 := <[s := ph_raise (ph s)]> ph.
Let ph3 := <[s := ph_produce v (ph2 s)]> ph2.
Hypothesis Hidle : idle ph.
Hypothesis Hs : s ∈ nw_nodes N.
Hypothesis Hsrc : nw_fn N s = None.
Hypothesis Hin : installed s n0.
Hypothesis Hmarks : marks ph1 ph2 (targets n0).
Hypothesis Hout : marks_out ph1 ph2.

Lemma write_ph1 x : ph_emit (ph1 x) = bool_decide (x = s).
Proof.
  unfold ph1. destruct (decide (x = s)) as [->|Hx].
  - rewrite fn_lookup_insert. by rewrite bool_decide_true.
  - rewrite fn_lookup_insert_ne, bool_decide_false by done. apply (id_calm _ Hidle).
Qed.

Lemma write_clean1 e : ¬ dirty_at ph1 e.
Proof.
  destruct e as [y j]. unfold dirty_at, ph1. simpl. destruct (decide (y = s)) as [->|Hy].
  - rewrite fn_lookup_insert. apply (id_clean _ Hidle s j).
  - rewrite fn_lookup_insert_ne by done. apply (id_clean _ Hidle y j).
Qed.

Lemma write_rest x : ∃ e d, ph2 x = mkPhase (ph_val (ph x)) e false false d (ph_in (ph x))
                                       (ph_new (ph x)) (ph_room (ph x)).
Proof.
  rewrite (mk_rest _ _ _ Hmarks x). eexists _, _. destruct (id_calm _ Hidle x) as (_ & H1 & H2).
  unfold ph1. destruct (decide (x = s)) as [->|Hx].
  - rewrite fn_lookup_insert. simpl. rewrite H1, H2. done.
  - rewrite fn_lookup_insert_ne by done. rewrite H1, H2. done.
Qed.

(** A marked edge comes from the source or from a node that went dirty. *)
Lemma write_dirty_edge y j :
  dirty_at ph2 (y, j) →
  y ≠ s ∧ ph_emit (ph2 y) = true ∧ ∃ x, edge y j x ∧ (x = s ∨ x ≠ s ∧ ph_emit (ph2 x) = true).
Proof.
  intros Hd. assert (∃ x, edge y j x ∧ (x = s ∨ x ≠ s ∧ ph_emit (ph2 x) = true)) as (x & He & Hx).
  { destruct (mk_new _ _ _ Hmarks y j Hd) as [Hd1|[Hd1|(x & [Hx1 Hx2] & He)]].
    - by apply write_clean1 in Hd1.
    - exists s. split; [by apply (targets_edge _ n0)|by left].
    - exists x. split; [done|]. right. rewrite write_ph1 in Hx1.
      split; [by apply bool_decide_eq_false in Hx1|done]. }
  split_and!; [|destruct (mk_recv _ _ _ Hmarks y j Hd) as [Hd1|]; [by apply write_clean1 in Hd1|done]
              |by exists x].
  intros ->. by apply (source_no_edge s j x).
Qed.

Lemma write_emit_cause x : x ≠ s → ph_emit (ph2 x) = true → x ∈ nw_nodes N ∧ ∃ j, dirty_at ph2 (x, j).
Proof.
  intros Hx He. apply (mk_cause _ _ _ Hmarks). split; [|done]. rewrite write_ph1.
  by apply bool_decide_eq_false.
Qed.

Lemma write_owe x : owe (ph3 x) = bool_decide (x ≠ s) && ph_emit (ph2 x).
Proof.
  unfold ph3, owe. destruct (decide (x = s)) as [->|Hx].
  - rewrite fn_lookup_insert, bool_decide_false by tauto. simpl. by rewrite andb_false_r.
  - rewrite fn_lookup_insert_ne, bool_decide_true by done.
    destruct (write_rest x) as (e & d & ->). simpl. by rewrite andb_true_r.
Qed.

Lemma write_dirty3 e : dirty_at ph3 e ↔ dirty_at ph2 e.
Proof.
  destruct e as [y j]. unfold dirty_at, ph3. simpl. destruct (decide (y = s)) as [->|Hy].
  - by rewrite fn_lookup_insert.
  - by rewrite fn_lookup_insert_ne.
Qed.

Lemma write_same x :
  ph_in (ph3 x) = ph_in (ph x) ∧ ph_new (ph3 x) = ph_new (ph x) ∧ ph_dirty (ph3 x) = ph_dirty (ph2 x)
  ∧ ph_inside (ph3 x) = false ∧ (x ≠ s → ph_val (ph3 x) = ph_val (ph x) ∧ ph_room (ph3 x) = ph_room (ph x)).
Proof.
  destruct (write_rest x) as (e & d & He). unfold ph3. destruct (decide (x = s)) as [->|Hx].
  - rewrite fn_lookup_insert. simpl. rewrite He. done.
  - rewrite fn_lookup_insert_ne by done. rewrite He. done.
Qed.

Lemma write_wave_inv q k l b w :
  St ph2 q k l b w → (∀ c, c ∈ nw_nodes N → 1 ≤ ph_room (ph c)) → wave_inv ph3 [] [] (targets n0).
Proof.
  intros HS Hroom.
  assert (∀ x, owe (ph3 x) = true → x ≠ s ∧ ph_emit (ph2 x) = true) as Howe.
  { intros x. rewrite write_owe. by intros [?%bool_decide_eq_true ?]%andb_true_iff. }
  assert (∀ x, owe (ph3 x) = true → x ∈ nw_nodes N ∧ ∃ j, dirty_at ph2 (x, j)) as Hcause.
  { intros x [Hx He]%Howe. by apply write_emit_cause. }
  assert (∀ y, y ∈ nw_nodes N → ph_inputs (ph3 y) = ph_in (ph y)) as Hinp.
  { intros y Hy. destruct (write_same y) as (<- & Hnew & _).
    destruct (st_lens _ _ _ _ _ _ y HS Hy) as (Hl1 & Hl2 & _).
    destruct (write_rest y) as (e & d & He). rewrite He in Hl1, Hl2. simpl in Hl1, Hl2.
    apply inputs_clean.
    - rewrite Hnew. apply (id_new _ Hidle).
    - destruct (write_same y) as (-> & -> & _). congruence. }
  split; try done.
  - intros y j x He. destruct (write_same y) as (_ & _ & -> & _).
    destruct (lookup_lt_is_Some_2 (ph_dirty (ph2 y)) j) as [d Hd]; [by eapply st_len|].
    rewrite Hd. f_equal. apply eq_bool_prop_intro. split; intros H.
    + destruct d; [|done]. destruct (write_dirty_edge y j Hd) as (_ & _ & x' & He' & Hx').
      destruct He as [_ He], He' as [Hy He']. assert (x' = x) as -> by congruence.
      apply orb_True. destruct Hx' as [->|[Hx He2]].
      * right. apply bool_decide_pack. by apply (targets_edge s n0).
      * left. rewrite write_owe, He2, bool_decide_true by done. done.
    + assert (dirty_at ph2 (y, j)) as Hdd.
      { apply orb_True in H as [H|H].
        - apply Is_true_true in H. destruct (Howe x H) as [Hx He2]. apply (Hout x y j); [|done].
          split; [|done]. rewrite write_ph1. by apply bool_decide_eq_false.
        - apply bool_decide_unpack in H. by apply (mk_ts _ _ _ Hmarks). }
      unfold dirty_at in Hdd. simpl in Hdd. rewrite Hd in Hdd. injection Hdd as ->. done.
  - intros y j Hd%write_dirty3. destruct (write_dirty_edge y j Hd) as (Hy & He & _).
    rewrite write_owe, He, bool_decide_true by done. done.
  - intros y j x He Hx Hp. rewrite Hinp by apply He. assert (x ≠ s) as Hxs.
    { intros ->. apply Hp. by apply (targets_edge s n0). }
    destruct (write_same x) as (_ & _ & _ & _ & Hv). destruct (Hv Hxs) as [-> _].
    by apply (id_in _ Hidle).
  - intros y j Hd%write_dirty3. destruct (write_dirty_edge y j Hd) as (_ & _ & x & He & _).
    destruct (write_same y) as (_ & -> & _). rewrite (id_new _ Hidle y). apply lookup_replicate_2.
    destruct (st_lens _ _ _ _ _ _ y HS (proj1 He)) as (_ & Hl & _).
    destruct (write_rest y) as (e & d & Hy). rewrite Hy in Hl. simpl in Hl. rewrite Hl.
    destruct He as [_ He]. by eapply lookup_lt_Some.
  - intros y Hy. split; [set_solver|]. intros [Ho H0]. destruct (Hcause y Ho) as (_ & j & Hj).
    destruct (write_same y) as (_ & _ & Hdy & _). rewrite Hdy in H0.
    by apply (proj1 (count_true_zero _) H0 j) in Hj.
  - constructor.
  - intros y Hy. set_solver.
  - intros y F Hy HF _. rewrite Hinp by done. assert (y ≠ s) as Hys by congruence.
    destruct (write_same y) as (_ & _ & _ & _ & Hv). destruct (Hv Hys) as [-> _].
    by apply (id_form _ Hidle).
  - intros y Ho. destruct (Howe y Ho) as [Hys _]. destruct (write_same y) as (_ & _ & _ & Hi & Hv).
    destruct (Hv Hys) as [_ ->]. split; [done|]. apply Hroom, Hcause, Ho.
  - intros y Ho HF. destruct (Hcause y Ho) as (_ & j & Hj).
    destruct (write_dirty_edge y j Hj) as (_ & _ & x & He & _). by apply (source_no_edge y j x).
Qed.

(** The nodes that owe a value after the marks are those the source feeds. *)
Lemma write_affected q k l b w x :
  St ph2 q k l b w → owe (ph3 x) = true ↔ tc (feeds N) s x.
Proof.
  intros HS. split.
  - rewrite write_owe. intros [Hx He]%andb_true_iff. apply bool_decide_eq_true in Hx.
    induction x as [x IH] using (well_founded_induction (well_founded_ltof _ (nw_rank N))).
    destruct (write_emit_cause x Hx He) as (_ & j & Hj).
    destruct (write_dirty_edge x j Hj) as (_ & _ & y & Hed & Hy).
    assert (feeds N y x) as Hf by (split; [apply Hed|eapply list_elem_of_lookup_2, Hed]).
    destruct Hy as [->|[Hys Hye]]; [by apply tc_once|].
    eapply tc_r; [|exact Hf]. apply IH; [|done..]. apply (edge_rank _ _ _ Hed).
  - assert (∀ y j x, edge y j x → x = s ∨ x ≠ s ∧ ph_emit (ph2 x) = true →
              y ≠ s ∧ ph_emit (ph2 y) = true) as Hstep.
    { intros y j z Hed Hz. assert (dirty_at ph2 (y, j)) as Hd.
      { destruct Hz as [->|[Hzs Hze]].
        - apply (mk_ts _ _ _ Hmarks). by apply (targets_edge s n0).
        - apply (Hout z y j); [|done]. split; [|done]. rewrite write_ph1. by apply bool_decide_eq_false. }
      destruct (write_dirty_edge y j Hd) as (Hy & He & _). done. }
    intros Ht. cut (x ≠ s ∧ ph_emit (ph2 x) = true).
    { intros [Hx He]. rewrite write_owe, He, bool_decide_true by done. done. }
    assert (∀ y, s = y ∨ s ≠ y ∧ ph_emit (ph2 y) = true → tc (feeds N) y x →
              x ≠ s ∧ ph_emit (ph2 x) = true) as H; [|by apply (H s); [left|]].
    intros y Hy Hyx. induction Hyx as [y z [Hz [j Hj]%list_elem_of_lookup_1]|y z u [Hz [j Hj]%list_elem_of_lookup_1] _ IH].
    + apply (Hstep z j y); [done|]. destruct Hy as [->|[]]; auto.
    + destruct (Hstep z j y) as [? ?]; [done|destruct Hy as [->|[]]; auto|].
      apply IH; [done|]. by right.
Qed.

(** The wave is over: [ph'] is the state it leaves, [ph4] the one after the
    source has lowered its flags. *)
Section Over.
Variables (ph' : Core → Phase V).
Let ph4 := <[s := ph_calm (ph' s)]> ph'.
Hypothesis Hev : evolves ph3 ph'.
Hypothesis Hw : wave_inv ph' [] [] [].

Lemma over_owe q k l b w x : St ph' q k l b w → owe (ph' x) = false.
Proof.
  intros HS. apply not_true_is_false. intros Ho. destruct (ev_owe _ _ Hev x Ho) as (Ho3 & _).
  rewrite write_owe in Ho3. apply andb_true_iff in Ho3 as [Hx He]. apply bool_decide_eq_true in Hx.
  destruct (write_emit_cause x Hx He) as [Hxn _]. rewrite (wave_over _ _ _ _ _ _ x HS Hw Hxn) in Ho. done.
Qed.

Lemma over_source : ph' s = ph_produce v (ph2 s).
Proof.
  rewrite (ev_done _ _ Hev s); [apply fn_lookup_insert|].
  rewrite write_owe. by rewrite bool_decide_false by tauto.
Qed.

Lemma over_rest x : owe (ph3 x) = false → x ≠ s → ph' x = ph2 x ∧ ph_emit (ph2 x) = false.
Proof.
  intros Ho Hx. rewrite (ev_done _ _ Hev x Ho). unfold ph3 at 1.
  rewrite fn_lookup_insert_ne by done. split; [done|].
  rewrite write_owe, bool_decide_true in Ho by done. done.
Qed.

Lemma over_idle q k l b w : St ph' q k l b w → idle ph4.
Proof.
  intros HS.
  assert (∀ x, ph_dirty (ph4 x) = ph_dirty (ph' x) ∧ ph_in (ph4 x) = ph_in (ph' x)
               ∧ ph_new (ph4 x) = ph_new (ph' x) ∧ ph_val (ph4 x) = ph_val (ph' x)) as H4.
  { intros x. unfold ph4. destruct (decide (x = s)) as [->|Hx];
      [by rewrite fn_lookup_insert|by rewrite fn_lookup_insert_ne]. }
  assert (∀ x, owe (ph' x) = false) as Ho by (intros; by eapply over_owe).
  assert (∀ x, ph_new (ph' x) = replicate (length (ph_new (ph' x))) None) as Hnew.
  { intros x. destruct (owe (ph3 x)) eqn:Ho3.
    - by destruct (ev_paid _ _ Hev x Ho3 (Ho x)) as (_ & _ & _ & Hn & _).
    - rewrite (ev_done _ _ Hev x Ho3). destruct (write_same x) as (_ & -> & _).
      apply (id_new _ Hidle). }
  assert (∀ y, y ∈ nw_nodes N → ph_inputs (ph' y) = ph_in (ph' y)) as Hinp.
  { intros y Hy. destruct (st_lens _ _ _ _ _ _ y HS Hy) as (Hl1 & Hl2 & _).
    apply inputs_clean; [done|congruence]. }
  split.
  - intros x. unfold ph4. destruct (decide (x = s)) as [->|Hx].
    + rewrite fn_lookup_insert, over_source. destruct (write_rest s) as (e & d & ->). done.
    + rewrite fn_lookup_insert_ne by done. destruct (owe (ph3 x)) eqn:Ho3.
      * by destruct (ev_paid _ _ Hev x Ho3 (Ho x)) as (? & ? & ? & _).
      * destruct (over_rest x Ho3 Hx) as [-> He]. destruct (write_rest x) as (e & d & Hx2).
        rewrite Hx2 in He |- *. done.
  - intros c j. unfold dirty_at. simpl. destruct (H4 c) as (-> & _). intros Hd.
    pose proof (wi_owe _ _ _ _ Hw c j Hd) as Hc. by rewrite Ho in Hc.
  - intros c. destruct (H4 c) as (_ & _ & -> & _). apply Hnew.
  - intros y j x He. destruct (H4 y) as (_ & -> & _), (H4 x) as (_ & _ & _ & ->).
    rewrite <-Hinp by apply He. apply (wi_val _ _ _ _ Hw); [done|done|set_solver].
  - intros y F Hy HF. destruct (H4 y) as (_ & -> & _ & ->). rewrite <-Hinp by done.
    by apply (wi_form _ _ _ _ Hw).
Qed.

Lemma over_values q k l b w x :
  St ph' q k l b w → (x = s → ph_val (ph4 x) = v)
  ∧ (x ≠ s → nw_fn N x = None → ph_val (ph4 x) = ph_val (ph x))
  ∧ pred (ph_room (ph x)) ≤ ph_room (ph4 x).
Proof.
  intros HS. unfold ph4. destruct (decide (x = s)) as [->|Hx].
  - rewrite fn_lookup_insert, over_source. simpl. destruct (write_rest s) as (e & d & ->). simpl.
    split_and!; [done..|lia].
  - rewrite fn_lookup_insert_ne by done. split_and!; [done|..].
    + intros _ HF. assert (owe (ph3 x) = false) as Ho3.
      { rewrite write_owe, bool_decide_true by done. apply not_true_is_false. intros He.
        destruct (write_emit_cause x Hx He) as (_ & j & Hj).
        destruct (write_dirty_edge x j Hj) as (_ & _ & y & Hy & _). by apply (source_no_edge x j y). }
      rewrite (ev_done _ _ Hev x Ho3). destruct (write_same x) as (_ & _ & _ & _ & Hv). by apply Hv.
    + destruct (write_same x) as (_ & _ & _ & _ & Hv). destruct (Hv Hx) as [_ Hr].
      destruct (owe (ph3 x)) eqn:Ho3.
      * destruct (ev_paid _ _ Hev x Ho3) as (_ & _ & _ & _ & ->); [by eapply over_owe|].
        rewrite Hr. lia.
      * rewrite (ev_done _ _ Hev x Ho3), Hr. lia.
Qed.
End Over.
End Write.

(** What a write to [s] that leads to the values [val] lets be seen: the nodes
    downstream of [s] run once, they and [s] emit DIRTY and then their new value,
    nothing else happens, and every observer hears what its node emitted. *)
Record reaction (s : Core) (val : Core → V) (d : list (Event V)) : Prop := {
  re_emits : ∀ c, rtc (feeds N) s c → emits c d = [Dirty; Data (val c)];
  re_silent : ∀ c, ¬ rtc (feeds N) s c → emits c d = [];
  re_runs : ∀ c, tc (feeds N) s c → run_events c d = 1;
  re_no_runs : ∀ c, ¬ tc (feeds N) s c → run_events c d = 0;
  re_heard : ∀ x sk, sole x sk → heard sk d = emits x d
}.

Lemma tc_not_source x s : nw_fn N s = None → ¬ tc (feeds N) x s.
Proof.
  intros Hs Ht. induction Ht as [x y [Hin Hd]|x y z _ _ IH]; [|by apply IH].
  rewrite (nw_source _ (ns_wf Hst) y Hin Hs) in Hd. set_solver.
Qed.

(** The log of a write, from the logs of its parts. *)
Lemma write_reaction ph ph2 s v n0 ph' q k l b w d1 d2 d3 :
  let ph1 := <[s := ph_raise (ph s)]> ph in
  let ph3 := <[s := ph_produce v (ph2 s)]> ph2 in
  idle ph → s ∈ nw_nodes N → nw_fn N s = None → installed s n0 →
  marks ph1 ph2 (targets n0) → marks_out ph1 ph2 → St ph2 q k l b w →
  evolves ph3 ph' → (∀ x, owe (ph' x) = false) →
  (∀ x, emits x d1 = (if negb (ph_emit (ph1 x)) && ph_emit (ph2 x) then [Dirty] else [])
        ∧ run_events x d1 = 0) →
  balanced (EvEmit s Dirty :: d1) →
  (∀ x, emits x d2 = [] ∧ run_events x d2 = 0) → balanced (EvEmit s (Data v) :: d2) →
  wave_log ph3 ph' d3 →
  reaction s (λ x, ph_val (<[s := ph_calm (ph' s)]> ph' x))
    ((EvEmit s Dirty :: d1) ++ (EvEmit s (Data v) :: d2) ++ d3).
Proof.
  intros ph1 ph3 Hidle Hs Hsrc Hin Hm Ho HS Hev Hdone L1 B1 L2 B2 [B3 L3].
  pose proof (over_source ph ph2 s v n0 Hidle Hm ph' Hev) as Hsv.
  pose proof (λ x, write_affected ph ph2 s v n0 Hidle Hs Hsrc Hin Hm Ho q k l b w x HS) as Haff.
  pose proof (write_owe ph ph2 s v n0 Hidle Hm) as Howe. fold ph3 in Haff, Howe.
  assert (∀ x, paid ph3 ph' x = owe (ph3 x)) as Hpaid.
  { intros x. unfold paid. by rewrite Hdone, andb_true_r. }
  assert (∀ x, emits x ((EvEmit s Dirty :: d1) ++ (EvEmit s (Data v) :: d2) ++ d3)
    = if bool_decide (s = x) || owe (ph3 x)
      then [Dirty; Data (ph_val (<[s := ph_calm (ph' s)]> ph' x))] else []) as Hemits.
  { intros x. rewrite !emits_app. destruct (L3 x) as [-> _]. rewrite Hpaid. simpl.
    destruct (L1 x) as [-> _], (L2 x) as [-> _]. rewrite (write_ph1 ph s Hidle).
    destruct (decide (s = x)) as [<-|Hx].
    - rewrite !bool_decide_true by done. simpl. rewrite Howe, bool_decide_false by tauto.
      simpl. rewrite fn_lookup_insert, Hsv. done.
    - rewrite !bool_decide_false by done. simpl. rewrite fn_lookup_insert_ne by done.
      rewrite Howe, bool_decide_true by done. simpl. by destruct (ph_emit (ph2 x)). }
  assert (∀ x, run_events x ((EvEmit s Dirty :: d1) ++ (EvEmit s (Data v) :: d2) ++ d3)
    = if owe (ph3 x) then 1 else 0) as Hruns.
  { intros x. rewrite !run_events_app. destruct (L3 x) as [_ ->]. rewrite Hpaid.
    change (run_events x (EvEmit s Dirty :: d1)) with (run_events x d1).
    change (run_events x (EvEmit s (Data v) :: d2)) with (run_events x d2).
    destruct (L1 x) as [_ ->], (L2 x) as [_ ->]. done. }
  split.
  - intros x [->|Hx%Haff]%rtc_tc; rewrite Hemits; [by rewrite bool_decide_true|].
    by rewrite Hx, orb_true_r.
  - intros x Hx. rewrite Hemits, rtc_tc in *. rewrite bool_decide_false by tauto.
    destruct (owe (ph3 x)) eqn:Hox; [|done]. apply Haff in Hox. tauto.
  - intros x Hx%Haff. by rewrite Hruns, Hx.
  - intros x Hx. rewrite Hruns. destruct (owe (ph3 x)) eqn:Hox; [|done]. by apply Haff in Hox.
  - intros x sk Hsk. apply balanced_app; [done| |done]. by apply balanced_app.
Qed.

(** The leading DIRTY of a write. *)
Lemma emit_dirty_once_runs ph s n0 l w :
  let ph1 := <[s := ph_raise (ph s)]> ph in
  idle ph → s ∈ nw_nodes N → installed s n0 → St ph [] 0 l true w →
  runs uc (λ r, emit_dirty_once uc r s) w (λ _ w', ∃ ph2 d,
    St ph2 [] 0 (l ++ EvEmit s Dirty :: d) true w' ∧ marks ph1 ph2 (targets n0) ∧ marks_out ph1 ph2
    ∧ (∀ x, emits x d = (if negb (ph_emit (ph1 x)) && ph_emit (ph2 x) then [Dirty] else [])
            ∧ run_events x d = 0)
    ∧ balanced (EvEmit s Dirty :: d)).
Proof.
  intros ph1 Hidle Hs Hin HS. unfold emit_dirty_once.
  destruct (st_node _ _ _ _ _ _ s HS Hs) as (n0' & n & Hin' & Hn & Hp).
  rewrite (installed_unique _ _ _ Hin' Hin) in *. clear n0' Hin'.
  eapply runs_with_slot; [exact Hn|]. rewrite (sp_wave _ _ _ Hp).
  destruct (id_calm _ Hidle s) as (Hem & _). rewrite Hem. simpl. rewrite (slot_ph_subs _ _ _ Hp).
  apply runs_log. cbv beta.
  assert (St ph1 [] 0 l true (upd_node s (λ _, on_value (set_v_status (λ _, Status.Dirty))
      (on_wave (set_emitted_dirty_this_wave (λ _, true)) n)) w)) as HS1.
  { apply (st_upd _ _ _ _ _ _ s n0 n); try done. by apply raise_ph. }
  apply st_log_event with (e := EvEmit s Dirty) in HS1.
  assert (∀ e, ¬ dirty_at ph1 e) as Hclean by by apply write_clean1.
  eapply runs_conseq.
  { refine (deliver_dirty_runs (unemitted ph1) ph1 [] 0 _ true _ s n0 (receive_dirty_runs _) _ HS1 Hin _ _ _).
    - done.
    - unfold ph1. by rewrite fn_lookup_insert.
    - intros y j He. destruct (lookup_lt_is_Some_2 (ph_dirty (ph1 y)) j) as [[] Hb];
        [by eapply (st_len ph1)|by destruct (Hclean (y, j))|done].
    - intros x y j _ _. apply Hclean. }
  intros [] w' (ph2 & d & HS2 & Hm & Ho & Hl & Hb). exists ph2, d.
  rewrite <-(assoc_L (++)) in HS2. done.
Qed.

(** One DATA sent down from a source of a network at rest, in a wave of its own. *)
Lemma write_down_runs ph s v l w :
  idle ph → s ∈ nw_nodes N → nw_fn N s = None → (∀ c, c ∈ nw_nodes N → 1 ≤ ph_room (ph c)) →
  St ph [] 0 l true w →
  runs uc (λ r, r (TDown s [Data v])) w (λ _ w', ∃ ph4 d,
    St ph4 [] 0 (l ++ d) true w' ∧ idle ph4
    ∧ (∀ x, (x = s → ph_val (ph4 x) = v)
         ∧ (x ≠ s → nw_fn N x = None → ph_val (ph4 x) = ph_val (ph x))
         ∧ pred (ph_room (ph x)) ≤ ph_room (ph4 x))
    ∧ reaction s (λ x, ph_val (ph4 x)) d).
Proof.
  intros Hidle Hs Hsrc Hroom HS. destruct (ns_installed Hst s Hs) as [n0 Hin].
  destruct (id_calm _ Hidle s) as (_ & _ & Hins).
  apply (runs_call uc (TDown s [Data v])). simpl.
  apply (down_runs ph [] 0 l true s v w n0); [done|done|by apply Hroom|done|].
  intros HS1. rewrite Hins. unfold emit_wave.
  apply runs_step with (a := tt) (w' := pin_once s w); [done|].
  destruct (st_node _ _ _ _ _ _ s HS1 Hs) as (_ & n & _ & Hn & _). eapply runs_node; [exact Hn|]. simpl.
  apply (runs_bind uc (λ r, emit_dirty_once uc r s)).
  eapply runs_conseq; [by apply (emit_dirty_once_runs ph s n0 l)|].
  intros [] w2 (ph2 & d1 & HS2 & Hm & Ho & L1 & B1).
  pose proof (write_wave_inv ph ph2 s v n0 Hidle Hs Hsrc Hin Hm Ho _ _ _ _ _ HS2 Hroom) as Hw.
  apply (runs_bind uc (λ r, with_delivery_scope r (for_each [Data v] (emit_message uc r s)))).
  eapply runs_conseq.
  { refine (emit_data_runs (owing _) ph2 [] s v _ w2 n0 (drain_runs _) _ Hs Hin _ HS2 Hw); [done|].
    destruct (write_rest ph ph2 s n0 Hidle Hm s) as (e & d & ->). simpl. by apply Hroom. }
  intros [] w3 (ph' & d2 & d3 & HS3 & Hw3 & Hev & HL & L2 & B2).
  destruct (st_node _ _ _ _ _ _ s HS3 Hs) as (n0' & n3 & Hin' & Hn3 & Hp3).
  rewrite (installed_unique _ _ _ Hin' Hin) in *. clear n0' Hin'.
  eapply (runs_upd_last uc s n3); [done|].
  exists (<[s := ph_calm (ph' s)]> ph'), ((EvEmit s Dirty :: d1) ++ (EvEmit s (Data v) :: d2) ++ d3).
  split_and!.
  - rewrite <-(assoc_L (++)) in HS3. apply (st_upd _ _ _ _ _ _ s n0 n3); try done. by apply calm_ph.
  - by apply (over_idle ph ph2 s v n0 Hidle Hs Hsrc Hin Hm Ho ph' Hev Hw3 _ _ _ _ _ HS3).
  - intros x. by apply (over_values ph ph2 s v n0 Hidle Hsrc Hin Hm ph' Hev Hw3 _ _ _ _ _ x HS3).
  - apply (write_reaction ph ph2 s v n0 ph' _ _ _ _ _ d1 d2 d3 Hidle Hs Hsrc Hin Hm Ho HS2 Hev); try done.
    intros x. by apply (over_owe ph ph2 s v n0 Hidle Hm ph' Hev Hw3 _ _ _ _ _ x HS3).
Qed.

(** ** The wave owner *)

Lemma st_scope ph l w s :
  St ph [] 0 l false w → St ph [] 0 l true (install_scope s w).
Proof. intros [[]]. by split. Qed.

Lemma st_unscope ph l w :
  St ph [] 0 l true w → St ph [] 0 l false (set_w_wave (λ _, None) w).
Proof. intros [[]]. by split. Qed.

(** No node of the network has left work for the boundary. *)
Lemma drain_boundary_runs ph q k l b w s (Q : unit → World V → Prop) :
  St ph q k l b w → s ∈ nw_nodes N → Q tt w →
  runs uc (λ r, drain_committed_boundaries r [c_graph s] []) w Q.
Proof.
  intros HS Hs HQ. unfold drain_committed_boundaries, drain_roots. simpl.
  assert (runs uc (λ r, r (TDrainGraph (c_graph s))) w (λ _ w', w' = w)) as Hd.
  { apply (runs_call uc (TDrainGraph (c_graph s))). simpl. unfold drain_deferred_rewires_for_graph.
    apply runs_gets. apply runs_gets. rewrite (an_queue _ _ (st_net _ _ _ _ _ _ HS) s Hs), orb_true_r.
    by apply runs_ret. }
  destruct Hd as (f0 & [] & w' & -> & Hd). exists f0, tt, w. split; [done|]. intros f Hf.
  unfold bind, catch_unwind. by rewrite Hd.
Qed.

Lemma owned_write_runs ph s v l w :
  idle ph → s ∈ nw_nodes N → nw_fn N s = None → (∀ c, c ∈ nw_nodes N → 1 ≤ ph_room (ph c)) →
  St ph [] 0 l false w →
  runs uc (λ r, owned_down r s [Data v]) w (λ _ w', ∃ ph4 d,
    St ph4 [] 0 (l ++ d) false w' ∧ idle ph4
    ∧ (∀ x, (x = s → ph_val (ph4 x) = v)
         ∧ (x ≠ s → nw_fn N x = None → ph_val (ph4 x) = ph_val (ph x))
         ∧ pred (ph_room (ph x)) ≤ ph_room (ph4 x))
    ∧ reaction s (λ x, ph_val (ph4 x)) d).
Proof.
  intros Hidle Hs Hsrc Hroom HS. unfold owned_down, with_wave_owner. apply runs_gets.
  unfold wave_in_flight. pose proof (st_wave _ _ _ _ _ _ HS) as Hno.
  destruct (w_wave w) as [sc|]; [done|]. simpl. apply runs_modify.
  apply (st_scope _ _ _ s) in HS. set (w1 := install_scope s w) in *. cbv beta. clear Hno.
  apply (runs_bind uc (λ r, catch_unwind (r (TDown s [Data v])))).
  apply (runs_catch uc (λ r, r (TDown s [Data v]))).
  eapply runs_conseq; [by apply (write_down_runs ph s v l w1)|].
  intros [] w2 (ph4 & d & HS2 & Hi & Hv & Hr). apply runs_gets. apply runs_modify.
  pose proof (st_wave _ _ _ _ _ _ HS2) as Hsc. destruct (w_wave w2) as [sc|]; [|done].
  injection Hsc as Hroots. apply st_unscope in HS2. set (w3 := set_w_wave _ w2) in *. cbv beta.
  apply runs_step with (a := sc) (w' := w3); [done|]. cbv beta match.
  apply runs_step with (a := tt) (w' := w3); [done|]. apply runs_gets. unfold boundary_drains_blocked.
  rewrite (an_batch _ _ (st_net _ _ _ _ _ _ HS2)). simpl. rewrite Hroots.
  apply (runs_bind uc (λ r, drain_committed_boundaries r [c_graph s] [])).
  eapply drain_boundary_runs; [done|done|]. apply runs_ret. by exists ph4, d.
Qed.

(** ** The contract *)

(** The network at rest with the values [val], and versions left for [k] more
    values of every node. *)
Definition settled_net (k : nat) (val : Core → V) w : Prop :=
  ∃ ph, St ph [] 0 (w_log w) false w ∧ idle ph
        ∧ ∀ c, c ∈ nw_nodes N → ph_val (ph c) = val c ∧ k ≤ ph_room (ph c).

(** The cache of a node, as a client reads it. *)
Definition read_cache w (c : Core) : option V := get_node w c ≫= λ n, v_cache (n_value n).

Lemma settled_cache k val w c :
  settled_net k val w → c ∈ nw_nodes N → read_cache w c = Some (val c).
Proof.
  intros (ph & HS & _ & Hv) Hc. destruct (st_node _ _ _ _ _ _ c HS Hc) as (n0 & n & _ & Hn & Hp).
  unfold read_cache. rewrite Hn. simpl. rewrite (sp_cache _ _ _ Hp). by destruct (Hv c Hc) as [-> _].
Qed.

Lemma settled_consistent k val w : settled_net k val w → consistent N val.
Proof.
  intros (ph & HS & Hi & Hv) c F Hc HF. pose proof (idle_consistent _ _ _ _ _ _ HS Hi c F Hc HF) as He.
  simpl in He. rewrite <-(proj1 (Hv c Hc)), He. f_equal. apply list_fmap_ext. intros i d Hd.
  apply (Hv d). apply (nw_closed _ (ns_wf Hst) c d Hc). by eapply list_elem_of_lookup_2.
Qed.

Lemma settled_ext k val val' w :
  (∀ c, c ∈ nw_nodes N → val c = val' c) → settled_net k val w → settled_net k val' w.
Proof.
  intros He (ph & HS & Hi & Hv). exists ph. split_and!; [done..|]. intros c Hc.
  rewrite <-He by done. by apply Hv.
Qed.

Lemma reaction_ext s val val' d :
  s ∈ nw_nodes N → (∀ c, c ∈ nw_nodes N → val c = val' c) → reaction s val d → reaction s val' d.
Proof.
  intros Hs He [H1 H2 H3 H4 H5]. split; try done. intros c Hc. rewrite <-He; [by apply H1|].
  apply rtc_tc in Hc as [<-|Hc]; [done|]. clear -Hc. induction Hc as [x y []|]; done.
Qed.

(** One write, at the level of the wave owner. *)
Lemma owned_write_settles k val s v w :
  settled_net (S k) val w → s ∈ nw_nodes N → nw_fn N s = None →
  let val' := eval N (<[s := v]> val) in
  runs uc (λ r, owned_down r s [Data v]) w (λ _ w',
    ∃ d, w_log w' = w_log w ++ d ∧ settled_net k val' w' ∧ reaction s val' d).
Proof.
  intros Hset Hs Hsrc val'. pose proof Hset as (ph & HS & Hi & Hv).
  eapply runs_conseq.
  { apply (owned_write_runs ph s v (w_log w) w); try done. intros c Hc. destruct (Hv c Hc). lia. }
  intros [] w' (ph4 & d & HS4 & Hi4 & H4 & Hr). exists d.
  assert (∀ c, c ∈ nw_nodes N → ph_val (ph4 c) = val' c) as Hval.
  { intros c Hc. apply (consistent_eval N (ph_val ∘ ph4)); [apply (ns_wf Hst)|
      by eapply idle_consistent| |done].
    intros x Hx HF. simpl. destruct (H4 x) as (H1 & H2 & _). destruct (decide (x = s)) as [->|Hxs].
    - rewrite fn_lookup_insert. by apply H1.
    - rewrite fn_lookup_insert_ne by done. rewrite H2 by done. by apply Hv. }
  split_and!.
  - apply (st_log _ _ _ _ _ _ HS4).
  - exists ph4. rewrite (st_log _ _ _ _ _ _ HS4). split_and!; [done..|]. intros c Hc.
    split; [by apply Hval|]. destruct (H4 c) as (_ & _ & Hr4). destruct (Hv c Hc). lia.
  - by apply (reaction_ext s (λ x, ph_val (ph4 x))).
Qed.

(** The client program of a list of writes, and what they mean for the sources. *)
Fixpoint write_prog (ws : list (Core * V)) : Prog V :=
  match ws with
  | [] => PRet
  | (s, v) :: ws => PNodeDown s [Data v] (write_prog ws)
  end.
Definition assign (ws : list (Core * V)) (src : Core → V) : Core → V :=
  foldl (λ src sv, <[sv.1 := sv.2]> src) src ws.

Lemma eval_source val s : nw_fn N s = None → eval N val s = val s.
Proof. intros Hs. unfold eval. simpl. by rewrite Hs. Qed.

(** [eval] reads the sources only. *)
Lemma eval_ext src src' c :
  (∀ s, s ∈ nw_nodes N → nw_fn N s = None → src s = src' s) → c ∈ nw_nodes N →
  eval N src c = eval N src' c.
Proof.
  intros He. unfold eval.
  cut (∀ k c, c ∈ nw_nodes N → (nw_rank N c < k)%nat → eval_upto k N src c = eval_upto k N src' c);
    [auto|].
  intros k. induction k as [|k IH]; intros c' Hc Hk; [lia|]. simpl.
  destruct (nw_fn N c') as [F|] eqn:HF; [|by apply He]. f_equal. apply list_fmap_ext. intros i d Hd.
  apply list_elem_of_lookup_2 in Hd. destruct (nw_closed _ (ns_wf Hst) c' d Hc Hd).
  apply IH; [done|lia].
Qed.

Lemma assign_ext ws : ∀ src src' x, src x = src' x → assign ws src x = assign ws src' x.
Proof.
  induction ws as [|[y u] ws IH]; intros src src' x H; [done|]. apply IH. simpl.
  destruct (decide (x = y)) as [->|Hxy]; [by rewrite !fn_lookup_insert|].
  by rewrite !fn_lookup_insert_ne.
Qed.

Lemma writes_settle ws : ∀ k val w,
  settled_net (length ws + k) val w →
  (∀ s v, (s, v) ∈ ws → s ∈ nw_nodes N ∧ nw_fn N s = None) →
  runs uc (λ r, run_prog uc r None (write_prog ws)) w
    (λ _ w', settled_net k (eval N (assign ws val)) w').
Proof.
  induction ws as [|[s v] ws IH]; intros k val w Hset Hws; simpl.
  - apply runs_ret. apply (settled_ext k val); [|done]. intros c Hc.
    by apply consistent_eval; [apply (ns_wf Hst)|eapply settled_consistent| |].
  - destruct (Hws s v) as [Hs Hsrc]; [set_solver|].
    apply (runs_bind uc (λ r, owned_down r s [Data v])).
    eapply runs_conseq; [by apply (owned_write_settles (length ws + k) val)|].
    intros [] w1 (d & _ & Hset1 & _).
    eapply runs_conseq.
    { apply (IH k _ w1 Hset1). intros x u Hx. apply (Hws x u). set_solver. }
    intros [] w2 H2. eapply settled_ext; [|exact H2]. intros c Hc. apply eval_ext; [|done].
    intros x Hx HF. by apply assign_ext, eval_source.
Qed.
End Static.

(** ** The theorems *)

Section Contract.
Context {V : Type} `{!CanonicalData V} (uc : UserCode V).
Implicit Types (N : Network V) (w : World V).

(** C1: the engine implements a spreadsheet.  On a network of pure nodes at rest,
    with any shape of dependency graph, one DATA written to a source makes the
    call return (for every large enough fuel) with the network at rest again and
    every node's cache equal to its formula evaluated over the new sources; each
    node downstream of the source has run exactly once and emitted DIRTY and then
    its new value, nothing else has run or emitted, and every observer has heard
    exactly what its node emitted. *)
Theorem spreadsheet_write N w0 k val s v w :
  net_static uc N w0 → settled_net N w0 (S k) val w → s ∈ nw_nodes N → nw_fn N s = None →
  let val' := eval N (<[s := v]> val) in
  ∃ f0 w' d, (∀ f, f0 ≤ f → run_client uc f (PNodeDown s [Data v] PRet) w = Ret tt w')
    ∧ w_log w' = w_log w ++ d ∧ settled_net N w0 k val' w' ∧ reaction uc N w0 s val' d
    ∧ ∀ c, c ∈ nw_nodes N → read_cache w' c = Some (val' c).
Proof.
  intros Hst Hset Hs Hsrc val'.
  destruct (owned_write_settles uc N w0 Hst k val s v w Hset Hs Hsrc)
    as (f0 & [] & w' & (d & Hl & Hset' & Hr) & Hrun).
  exists (S f0), w', d. split_and!; try done.
  - intros [|f] Hf; [lia|]. unfold run_client. simpl. unfold bind. by rewrite Hrun by lia.
  - intros c Hc. by eapply settled_cache.
Qed.

(** C2: refinement over whole client programs: any sequence of writes to sources
    runs to completion, and the caches of all nodes then hold the abstract
    spreadsheet of the assigned sources. *)
Theorem spreadsheet_writes N w0 k val ws w :
  net_static uc N w0 → settled_net N w0 (length ws + k) val w →
  (∀ s v, (s, v) ∈ ws → s ∈ nw_nodes N ∧ nw_fn N s = None) →
  let val' := eval N (assign ws val) in
  ∃ f0 w', (∀ f, f0 ≤ f → run_client uc f (write_prog ws) w = Ret tt w')
    ∧ settled_net N w0 k val' w' ∧ ∀ c, c ∈ nw_nodes N → read_cache w' c = Some (val' c).
Proof.
  intros Hst Hset Hws val'.
  destruct (writes_settle uc N w0 Hst ws k val w Hset Hws) as (f0 & [] & w' & Hset' & Hrun).
  exists (S f0), w'. split_and!; try done.
  - intros [|f] Hf; [lia|]. apply Hrun. lia.
  - intros c Hc. by eapply settled_cache.
Qed.
End Contract.
