(* ===== verification/SpreadsheetExample.v ===== *)
(** * The spreadsheet contract on a concrete network

    The diamond [s -> a, b -> d] over [Z], built by a client program; it is at
    rest, and the theorems of [Spreadsheet] apply to it. *)

From stdpp Require Import base option strings numbers sets gmap relations functions list.
From S2P Require Import Prelude Protocol Dispatcher Versioning Arena NodeState Receive NodeInv.
From S2P Require Import Phases Rewire RewireFacts Engine EngineRun EngineLogic EngineInv EngineQuiet.
From S2P Require Import EngineSpec Spreadsheet.

Definition sheet_fn (f : FnId) (vs : list Z) : Z :=
  let sum := foldr Z.add 0%Z vs in
  match f with 0 => (1 + sum)%Z | 1 => (2 * sum)%Z | _ => sum end.

Definition sheet_user : UserCode Z := mkUserCode
  (λ f ctx, match mapM latest (dep_records ctx) with
            | Some vs => PDown [Data (sheet_fn f vs)] PRet
            | None => PRet
            end)
  (λ _ _, PRet) (λ _, PRet) (λ _, 0%Z).

Definition sheet_build : Prog Z :=
  PNewNode 0 [] None (Some 3%Z) NodeOpts_default (λ s,
  PNewNode 0 [s] (Some 0) None NodeOpts_default (λ a,
  PNewNode 0 [s] (Some 1) None NodeOpts_default (λ b,
  PNewNode 0 [a; b] (Some 2) None NodeOpts_default (λ d,
  PSubscribe d 0 (λ _, PRet))))).

#[local] Instance sheet_data : CanonicalData Z :=
  {| data_bytes z := inr [z]; absent_seed_bytes := inr [] |}.

Definition sheet_world : World Z :=
  Eval vm_compute in
  match run_client sheet_user 40 sheet_build World_init with Ret _ w => w | _ => World_init end.

Definition sheet_net : Network Z := mkNetwork
  (ex_core <$> [0; 1; 2; 3])
  (λ c, match key_id (c_key c) with
        | 1 | 2 => [ex_core 0]
        | 3 => [ex_core 1; ex_core 2]
        | _ => []
        end)
  (λ c, match key_id (c_key c) with
        | 1 => Some (sheet_fn 0)
        | 2 => Some (sheet_fn 1)
        | 3 => Some (sheet_fn 2)
        | _ => None
        end)
  (λ c, key_id (c_key c)).

Definition sheet_val (c : Core) : Z :=
  match key_id (c_key c) with 0 => 3 | 1 => 4 | 2 => 6 | 3 => 10 | _ => 0 end.

Definition sheet_ph (c : Core) : Phase Z :=
  let deps := if decide (c ∈ nw_nodes sheet_net) then nw_deps sheet_net c else [] in
  mkPhase (sheet_val c) false false false (const false <$> deps) (sheet_val <$> deps) (const None <$> deps) 4.

Lemma sheet_nodes (P : Core → Prop) :
  P (ex_core 0) → P (ex_core 1) → P (ex_core 2) → P (ex_core 3) → ∀ c, c ∈ nw_nodes sheet_net → P c.
Proof. intros H0 H1 H2 H3 c. simpl. rewrite !elem_of_cons, elem_of_nil. naive_solver. Qed.


Lemma sheet_computes f : computes sheet_user f (sheet_fn f).
Proof.
  intros ctx vs H. simpl. assert (mapM latest (dep_records ctx) = Some vs) as ->; [|done].
  revert vs H. induction (dep_records ctx) as [|d ds IH]; intros [|v vs] H; simpl in *; try done.
  injection H as Hd H. rewrite Hd. simpl. by rewrite (IH vs H).
Qed.

(** The obligations of [installed] at a computed slot. *)
Ltac plain_slot_check := split; [reflexivity..|intros [|[|i]]; done|done].
Ltac sink_check :=
  intros s Hs; apply list_elem_of_In in Hs; vm_compute in Hs;
  repeat destruct Hs as [<-|Hs]; try done;
  first [exists 0; split_and!; [reflexivity|simpl; set_solver|reflexivity]
        |exists 1; split_and!; [reflexivity|simpl; set_solver|reflexivity]].
Ltac complete_check :=
  intros y j Hy; revert y Hy j; refine (sheet_nodes _ _ _ _ _); intros [|[|j]] Hj; try discriminate Hj;
  apply (bool_decide_unpack _); vm_compute; done.

Lemma sheet_installed c :
  c ∈ nw_nodes sheet_net → ∃ n0, installed sheet_user sheet_net sheet_world c n0.
Proof.
  revert c. refine (sheet_nodes _ _ _ _ _).
  all: eexists; split; [reflexivity|plain_slot_check|reflexivity|sink_check
    |apply (bool_decide_unpack _); vm_compute; done|complete_check|].
  all: first [reflexivity|eexists _, _; split_and!; [reflexivity..|apply sheet_computes]].
Qed.

Lemma sheet_static : net_static sheet_user sheet_net sheet_world.
Proof.
  split; [split|..].
  - intros c d Hc. revert c Hc d. refine (sheet_nodes _ _ _ _ _); intros d Hd; simpl in Hd;
      repeat (apply elem_of_cons in Hd as [->|Hd]); try (by apply elem_of_nil in Hd);
      (split; [simpl; set_solver|vm_compute; lia]).
  - refine (sheet_nodes _ _ _ _ _); done.
  - intros c F Hc. revert c Hc F. by refine (sheet_nodes _ _ _ _ _).
  - apply (bool_decide_unpack _). vm_compute. done.
  - apply sheet_installed.
  - done.
Qed.

(** Level-0 versions only count. *)
Lemma room_counter (n : NodeSlot Z) i :
  vs_policy (n_version n) = Level0 → vs_value (n_version n) = Some (V0 i) → (0 ≤ i < 2)%Z → room 4 n.
Proof.
  intros Hp Hv Hi vs Hvs. rewrite Hp, Hv. assert (i = 0 ∨ i = 1)%Z as [-> | ->] by lia.
  all: destruct vs as [|? [|? [|? [|? [|]]]]]; simpl in Hvs; try lia; by eexists.
Qed.

Lemma sheet_idle : idle sheet_net sheet_ph.
Proof.
  split; [done|..].
  - intros c j. unfold dirty_at. simpl. rewrite list_lookup_fmap. by destruct (_ !! j).
  - intros c. simpl. rewrite length_fmap. case_decide; [|done].
    by repeat case_match.
  - intros y j x [Hy Hj]. unfold sheet_ph. cbn [ph_in ph_val]. rewrite decide_True by done.
    by rewrite list_lookup_fmap, Hj.
  - intros y F Hy; revert y Hy F; refine (sheet_nodes _ _ _ _ _); intros F HF; vm_compute in HF; try done; injection HF as <-; vm_compute; done.
Qed.

Lemma sheet_settled : settled_net sheet_net sheet_world 4 sheet_val sheet_world.
Proof.
  exists sheet_ph. split_and!; [split; [split|..]| |by intros c _]; try apply sheet_idle; try done.
  - intros c n0 Hc Hn. exists n0. split; [done|]. revert c Hc n0 Hn. refine (sheet_nodes _ _ _ _ _).
    all: intros n0 Hn; vm_compute in Hn; injection Hn as <-; split; try reflexivity.
    all: by eapply room_counter.
  - by refine (sheet_nodes _ _ _ _ _).
Qed.

Lemma spreadsheet_write_witness :
  eval sheet_net (<[ex_core 0 := 5%Z]> sheet_val) (ex_core 3) = 16%Z
  ∧ ∃ f0 w' d,
      (∀ f, f0 ≤ f → run_client sheet_user f (PNodeDown (ex_core 0) [Data 5%Z] PRet) sheet_world
                     = Ret tt w')
      ∧ read_cache w' (ex_core 3) = Some 16%Z
      ∧ emits (ex_core 3) d = [Dirty; Data 16%Z] ∧ run_events (ex_core 3) d = 1
      ∧ w_log w' = w_log sheet_world ++ d.
Proof.
  split; [reflexivity|].
  destruct (spreadsheet_write sheet_user sheet_net sheet_world 3 sheet_val (ex_core 0) 5%Z sheet_world
              sheet_static sheet_settled) as (f0 & w' & d & Hrun & Hlog & _ & Hr & Hc);
    [apply (bool_decide_unpack _); vm_compute; done|reflexivity|].
  assert (tc (feeds sheet_net) (ex_core 0) (ex_core 3)) as Ht.
  { apply (tc_l _ _ (ex_core 1)); [|apply tc_once]; split; simpl; set_solver. }
  exists f0, w', d. split_and!; [done| | | |done].
  - apply (Hc (ex_core 3)). apply (bool_decide_unpack _); vm_compute; done.
  - apply (re_emits _ _ _ _ _ _ Hr). by apply tc_rtc.
  - by apply (re_runs _ _ _ _ _ _ Hr).
Defined.

Lemma spreadsheet_writes_witness :
  ∃ f0 w', (∀ f, f0 ≤ f →
      run_client sheet_user f (write_prog [(ex_core 0, 5%Z); (ex_core 0, 7%Z)]) sheet_world = Ret tt w')
    ∧ read_cache w' (ex_core 3) = Some 22%Z.
Proof.
  destruct (spreadsheet_writes sheet_user sheet_net sheet_world 2 sheet_val
    [(ex_core 0, 5%Z); (ex_core 0, 7%Z)] sheet_world sheet_static sheet_settled)
    as (f0 & w' & Hrun & _ & Hc).
  - intros s v Hs. apply list_elem_of_In in Hs. simpl in Hs.
    destruct Hs as [[= <- <-]|[[= <- <-]|[]]];
      (split; [apply (bool_decide_unpack _); vm_compute; done|reflexivity]).
  - exists f0, w'. split; [done|]. apply (Hc (ex_core 3)). apply (bool_decide_unpack _); vm_compute; done.
Defined.
