(* ===== verification/Scenarios.v ===== *)
(** * Whole runs of the engine

    Client programs run through the interpreter on small graphs, for all node
    fns and all values: what an observer of the last node receives.  Each run
    is evaluated symbolically, so the statements quantify over the user's
    functions.  The last section shows two behaviours the code's comments
    exclude. *)

From stdpp Require Import base option strings numbers gmap relations list.
From S2P Require Import Prelude Protocol Dispatcher Versioning Arena NodeState Receive NodeInv.
From S2P Require Import Rewire RewireFacts Engine EngineLogic EngineInv EngineFuel EngineQuiet.
From S2P Require Import EngineSpec.

Section Runs.
Context {V : Type} `{!CanonicalData V}.

(** What client sinks received, oldest first. *)
Definition sink_log (l : list (Event V)) : list (Msg V) :=
  omap (λ e, match e with EvSink _ m => Some m | _ => None end) l.

(** How often a node ran its fn. *)
Definition run_count (c : Core) (l : list (Event V)) : nat :=
  count_if (λ e, match e with EvRun c' => ptr_eq c c' | _ => false end) l.

(** The log of a run that returned. *)
Definition returned {A} (o : Outcome (World V) A) : option (list (Event V)) :=
  match o with Ret _ w => Some (w_log w) | _ => None end.

(** ** The diamond

    [s] feeds [a] and [b], which feed [d]: fns 0, 1 and 2. *)
Definition diamond_user (f g : V → V) (h : V → V → V) : UserCode V :=
  mkUserCode (λ fn ctx,
    match fn, ctx_data ctx 0, ctx_data ctx 1 with
    | 0, Some x, _ => PDown [Data (f x)] PRet
    | 1, Some x, _ => PDown [Data (g x)] PRet
    | 2, Some x, Some y => PDown [Data (h x y)] PRet
    | _, _, _ => PRet
    end) (λ _ _, PRet) (λ _, PRet) (λ _, 0%Z).

Definition diamond (v0 : V) (k : Core → Prog V) : Prog V :=
  PNewNode 0 [] None (Some v0) NodeOpts_default (λ s,
  PNewNode 0 [s] (Some 0) None NodeOpts_default (λ a,
  PNewNode 0 [s] (Some 1) None NodeOpts_default (λ b,
  PNewNode 0 [a; b] (Some 2) None NodeOpts_default (λ d,
  PSubscribe d 0 (λ _, k s))))).

(** A diamond is glitch free end to end: one write to the source makes the
    join run once, with both of its inputs from the new value, and its observer
    sees one DIRTY and one DATA; never a mix of the old and the new value. *)
Theorem diamond_glitch_free f g h v0 v1 :
  let o := run_client (diamond_user f g h) 40
             (diamond v0 (λ s, PNodeDown s [Data v1] PRet)) World_init in
  (sink_log <$> returned o) = Some [Start; Data (h (f v0) (g v0)); Dirty; Data (h (f v1) (g v1))]
  ∧ (run_count (ex_core 3) <$> returned o) = Some 2.
Proof. split; vm_compute; reflexivity. Qed.

(** A batch coalesces: several writes to two sources reach the observer of
    their join as one DIRTY and one DATA computed from the last write of each. *)
Theorem batch_coalesces f g h v0 v1 v2 v3 v4 :
  let p := PNewNode 0 [] None (Some v0) NodeOpts_default (λ s,
           PNewNode 0 [] None (Some v1) NodeOpts_default (λ t,
           PNewNode 0 [s; t] (Some 2) None NodeOpts_default (λ d,
           PSubscribe d 0 (λ _,
           PBatch (PNodeDown s [Data v2] (PNodeDown t [Data v3] (PNodeDown s [Data v4] PRet)))
             PRet)))) in
  (sink_log <$> returned (run_client (diamond_user f g h) 40 p World_init))
  = Some [Start; Data (h v0 v1); Dirty; Data (h v4 v3)].
Proof. vm_compute. reflexivity. Qed.

(** A batch whose body panics delivers none of its writes: the panic reaches
    the caller, the source keeps its old value, and the nodes its DIRTY reached
    settle again from the old value (a RESOLVED dep still recomputes a compute
    node), so the observer never sees anything of the new one. *)
Theorem batch_rolls_back f g h v0 v1 msg :
  match run_client (diamond_user f g h) 40
          (diamond v0 (λ s, PBatch (PNodeDown s [Data v1] (PPanic (PanicStr msg))) PRet)) World_init with
  | Unwind p w =>
      p = PanicStr msg
      ∧ sink_log (w_log w)
        = [Start; Data (h (f v0) (g v0)); Dirty; Data (h (f v0) (g v0))]
      ∧ (v_cache ∘ n_value <$> get_node w (ex_core 0)) = Some (Some v0)
      ∧ (v_status ∘ n_value <$> get_node w (ex_core 0)) = Some Status.Resolved
  | _ => False
  end.
Proof. vm_compute. done. Qed.

(** A paused node recomputes nothing while a lock is held, also when another
    lock is released; on the release of the last lock it recomputes once, from
    the latest value. *)
Theorem pause_coalesces f g h v0 v1 v2 :
  let d := ex_core 3 in
  let o := run_client (diamond_user f g h) 40
    (diamond v0 (λ s,
      PNodeUp d [Pause "a"%string] None (PNodeUp d [Pause "b"%string] None
      (PNodeDown s [Data v1] (PNodeUp d [Resume "a"%string] None
      (PNodeDown s [Data v2] (PNodeUp d [Resume "b"%string] None PRet))))))) World_init in
  (sink_log <$> returned o) = Some [Start; Data (h (f v0) (g v0)); Dirty; Data (h (f v2) (g v2))]
  ∧ (run_count (ex_core 3) <$> returned o) = Some 2.
Proof. split; vm_compute; reflexivity. Qed.

(** ** Panics and cycles *)

(** Fn 0 applies [f]; fn 1 panics; fn 2 writes back to the source. *)
Definition faulty_user (f : V → V) (msg : string) : UserCode V :=
  mkUserCode (λ fn ctx,
    match fn, ctx_data ctx 0 with
    | 0, Some x => PDown [Data (f x)] PRet
    | 1, Some x => PPanic (PanicStr msg)
    | 2, Some x => PNodeDown (ex_core 0) [Data (f x)] PRet
    | _, _ => PRet
    end) (λ _ _, PRet) (λ _, PRet) (λ _, 0%Z).

(** A panic of a node fn never reaches the client: it becomes one ERROR with
    the panic's message on that node, and the rest of the graph keeps working:
    a sibling subscribed afterwards still receives values. *)
Theorem fn_panic_becomes_error f msg v0 v1 :
  let p := PNewNode 0 [] None (Some v0) NodeOpts_default (λ s,
           PNewNode 0 [s] (Some 1) None NodeOpts_default (λ bad,
           PNewNode 0 [s] (Some 0) None NodeOpts_default (λ good,
           PSubscribe bad 0 (λ _, PSubscribe good 0 (λ _, PNodeDown s [Data v1] PRet))))) in
  (sink_log <$> returned (run_client (faulty_user f msg) 40 p World_init))
  = Some [Start; Error msg; Start; Data (f v0); Dirty; Data (f v1)].
Proof. vm_compute. reflexivity. Qed.

(** A fn that writes to its own source in the same wave is stopped with the
    feedback-cycle ERROR instead of looping; the client call returns. *)
Theorem feedback_is_an_error f msg v0 :
  let p := PNewNode 0 [] None (Some v0) NodeOpts_default (λ s,
           PNewNode 0 [s] (Some 2) None NodeOpts_default (λ a, PSubscribe a 0 (λ _, PRet))) in
  let o := run_client (faulty_user f msg) 40 p World_init in
  (sink_log <$> returned o) = Some [Start; Dirty; Error feedback_msg]
  ∧ (run_count (ex_core 1) <$> returned o) = Some 1.
Proof. split; vm_compute; reflexivity. Qed.

(** A live rewire: moving a subscribed node from one source to another
    recomputes it once from the new source, and from then on the old source no
    longer reaches it. *)
Theorem rewire_switches_source f msg v0 v1 v2 v3 :
  let p := PNewNode 0 [] None (Some v0) NodeOpts_default (λ s,
           PNewNode 0 [] None (Some v1) NodeOpts_default (λ t,
           PNewNode 0 [s] (Some 0) None NodeOpts_default (λ d,
           PSubscribe d 0 (λ _,
           PRewire d (RewireSet [t] 0)
             (PNodeDown s [Data v2] (PNodeDown t [Data v3] PRet)))))) in
  (sink_log <$> returned (run_client (faulty_user f msg) 40 p World_init))
  = Some [Start; Data (f v0); Dirty; Data (f v1); Dirty; Data (f v3)].
Proof. vm_compute. reflexivity. Qed.

(** ** Two behaviours the comments exclude *)

(** A sink that completes the node while it receives the node's DIRTY. *)
Definition completing_user : UserCode V :=
  mkUserCode (λ _ _, PRet)
    (λ _ m, match m with Dirty => PNodeDown (ex_core 0) [Complete] PRet | _ => PRet end)
    (λ _, PRet) (λ _, 0%Z).

(** [down] tests the terminal flag only on entry: when a sink completes the
    node during the DIRTY phase of a write, the DATA phase still delivers after
    the COMPLETE, replaces the cache and resets the status to settled. *)
Theorem data_after_complete v0 v1 :
  let p := PNewNode 0 [] None (Some v0) NodeOpts_default (λ s,
           PSubscribe s 0 (λ _, PNodeDown s [Data v1] PRet)) in
  match run_client completing_user 40 p World_init with
  | Ret _ w =>
      sink_log (w_log w) = [Start; Data v0; Dirty; Complete; Data v1]
      ∧ (n_value <$> get_node w (ex_core 0)) = Some (mkNodeValueState (Some v1) true Status.Settled true)
  | _ => False
  end.
Proof. vm_compute. done. Qed.

(** Fn 0 installs a deactivation hook that rewires node 2 onto node 3. *)
Definition hook_user : UserCode V :=
  mkUserCode (λ fn ctx,
    match fn, ctx_data ctx 0 with
    | 0, Some x => POnDeactivation 0 (PDown [Data x] PRet)
    | _, Some x => PDown [Data x] PRet
    | _, None => PRet
    end) (λ _ _, PRet) (λ _, PRewire (ex_core 2) (RewireSet [ex_core 3] 1) PRet) (λ _, 0%Z).

(** The cycle check of a rewire is made before the removed deps are
    detached, and detaching runs user hooks: a hook that rewires the added dep
    onto the owner passes its own check, and the two nodes end up depending on
    each other. *)
Theorem hook_defeats_cycle_check v0 :
  let p := PNewNode 0 [] None (Some v0) NodeOpts_default (λ x,
           PNewNode 0 [x] (Some 0) None NodeOpts_default (λ removed,
           PNewNode 0 [x] (Some 1) None NodeOpts_default (λ b,
           PNewNode 0 [removed] (Some 1) None NodeOpts_default (λ a,
           PSubscribe a 0 (λ _, PRewire a (RewireSet [b] 1) PRet))))) in
  match run_client hook_user 60 p World_init with
  | Ret _ w =>
      (n_deps <$> get_node w (ex_core 2)) = Some [ex_core 3]
      ∧ (n_deps <$> get_node w (ex_core 3)) = Some [ex_core 2]
  | _ => False
  end.
Proof. vm_compute. done. Qed.
End Runs.
