(* ===== verification/Operators.v ===== *)
(** * Operators (operators.rs)

    The operator factories: a body over the fn context and the options of the
    node it is built into.  A body is a [Prog] of [NodeState], so [Engine] runs
    it; the loops over a batch are written with the continuation of the loop.

    Values cross the context erased.  [Boxed T] is the erasure of a Rust type:
    [Rc::new] and [downcast].  The pure closures of a factory (a mapping, a
    predicate, a reducer) are functions; the effectful ones ([tap] and
    [on_first_data]) are programs over the public node API. *)

From stdpp Require Import base option strings numbers list.
From S2P Require Import Prelude Protocol Dispatcher Versioning Arena NodeState.

Local Open Scope nat_scope.

(** ** Erased values *)

Class Boxed (V T : Type) := {
  box : T → V;
  unbox : V → option T;                          (* downcast::<T>().ok() *)
  unbox_box : ∀ x, unbox (box x) = Some x
}.
Arguments box {V T _}.
Arguments unbox {V T _}.

(** ** Programs *)

Section Progs.
Context {V : Type}.

(** Running a program and then another: [PRet] is the end of the first. *)
Fixpoint prog_seq (p k : Prog V) : Prog V :=
  match p with
  | PRet => k
  | PPanic p => PPanic p
  | PDown msgs p => PDown msgs (prog_seq p k)
  | PUp msgs toward p => PUp msgs toward (prog_seq p k)
  | PUpNext msgs toward p => PUpNext msgs toward (prog_seq p k)
  | PDownNext msgs p => PDownNext msgs (prog_seq p k)
  | PRewireNext req p => PRewireNext req (prog_seq p k)
  | PStateGet f => PStateGet (λ s, prog_seq (f s) k)
  | PStateSet v p => PStateSet v (prog_seq p k)
  | PStatePersist on p => PStatePersist on (prog_seq p k)
  | POnInvalidate h p => POnInvalidate h (prog_seq p k)
  | POnDeactivation h p => POnDeactivation h (prog_seq p k)
  | PNodeDown c msgs p => PNodeDown c msgs (prog_seq p k)
  | PNodeUp c msgs toward p => PNodeUp c msgs toward (prog_seq p k)
  | PSubscribe c s f => PSubscribe c s (λ o, prog_seq (f o) k)
  | PUnsubscribe c i p => PUnsubscribe c i (prog_seq p k)
  | PRewire c req p => PRewire c req (prog_seq p k)
  | PBatch body p => PBatch body (prog_seq p k)
  | PBatchRollback p => PBatchRollback (prog_seq p k)
  | PNewNode g ds f initial o q => PNewNode g ds f initial o (λ c, prog_seq (q c) k)
  | PReadCache c f => PReadCache c (λ o, prog_seq (f o) k)
  end.

(** A [for] loop: [step] gets the accumulator, the item and the rest of the
    loop; a step that drops the rest returns from the body. *)
Fixpoint for_in {A S} (l : list A) (s : S) (step : S → A → (S → Prog V) → Prog V)
    (k : S → Prog V) : Prog V :=
  match l with
  | [] => k s
  | a :: l => step s a (λ s, for_in l s step k)
  end.

Section Typed.
Context {T : Type} `{!Boxed V T}.

(** [ctx.data::<T>(i)], [ctx.batch::<T>(i)] and [ctx.state_get::<T>()]. *)
Definition data (ctx : Ctx V) (i : nat) : option T := ctx_data ctx i ≫= unbox.
Definition batch_of (ctx : Ctx V) (i : nat) : list T := omap unbox (ctx_batch ctx i).
Definition state_get (k : option T → Prog V) : Prog V := PStateGet (λ s, k (s ≫= unbox)).
Definition state_set (x : T) (k : Prog V) : Prog V := PStateSet (box x) k.

(** [ctx.emit(x)]. *)
Definition emit (x : T) (k : Prog V) : Prog V := PDown [Data (box x)] k.
End Typed.

(** ** Factories *)

Record Operator := mkOperator { factory : string; body : Ctx V → Prog V; opts : NodeOpts }.

Definition with_opts (name : string) (o : NodeOpts) (b : Ctx V → Prog V) : Operator :=
  mkOperator name b
    (mkNodeOpts (Some (default name (opt_factory o))) (opt_pool o) (opt_pausable o) (opt_partial o)
       (opt_pull_id o) (opt_complete_when_deps_complete o) (opt_error_when_deps_error o)
       (opt_terminal_as_real_input o) (opt_versioning o)).

Definition operator_new (name : string) (b : Ctx V → Prog V) : Operator :=
  with_opts name NodeOpts_default b.

Definition is_default_node_opts (o : NodeOpts) : bool :=
  negb (if opt_factory o then true else false) && bool_decide (opt_pool o = Sync)
  && bool_decide (opt_pausable o = Pausable.On) && negb (opt_partial o)
  && negb (if opt_pull_id o then true else false)
  && opt_complete_when_deps_complete o && opt_error_when_deps_error o
  && negb (opt_terminal_as_real_input o) && negb (if opt_versioning o then true else false).

Definition or_else {A} (caller base : option A) : option A :=
  match caller with Some a => Some a | None => base end.

Definition merge_node_opts (base caller : NodeOpts) : NodeOpts :=
  if is_default_node_opts caller then base else
  let d := NodeOpts_default in
  mkNodeOpts (or_else (opt_factory caller) (opt_factory base))
    (if decide (opt_pool caller = opt_pool d) then opt_pool base else opt_pool caller)
    (if decide (opt_pausable caller = opt_pausable d) then opt_pausable base else opt_pausable caller)
    (opt_partial caller || opt_partial base)
    (or_else (opt_pull_id caller) (opt_pull_id base))
    (if eqb (opt_complete_when_deps_complete caller) (opt_complete_when_deps_complete d)
     then opt_complete_when_deps_complete base else opt_complete_when_deps_complete caller)
    (if eqb (opt_error_when_deps_error caller) (opt_error_when_deps_error d)
     then opt_error_when_deps_error base else opt_error_when_deps_error caller)
    (opt_terminal_as_real_input caller || opt_terminal_as_real_input base)
    (or_else (opt_versioning caller) (opt_versioning base)).

(** [init_node_in_arena_with_dispatcher]: the closure is registered under [f],
    whose code is [body op]. *)
Definition init_node (op : Operator) (f : FnId) (graph : nat) (deps : list Core) (caller : NodeOpts)
    (k : Core → Prog V) : Prog V :=
  let o := merge_node_opts (opts op) caller in
  PNewNode graph deps (Some f) None
    (mkNodeOpts (Some (default (factory op) (opt_factory o))) (opt_pool o) (opt_pausable o) (opt_partial o)
       (opt_pull_id o) (opt_complete_when_deps_complete o) (opt_error_when_deps_error o)
       (opt_terminal_as_real_input o) (opt_versioning o)) k.

(** [NodeOpts { complete_when_deps_complete: false, terminal_as_real_input: true, .. }],
    with [partial] and [error_when_deps_error] set or not. *)
Definition terminal_input (partial errors : bool) : NodeOpts :=
  mkNodeOpts None Sync Pausable.On partial None false errors true None.
Definition partial_opts : NodeOpts :=
  mkNodeOpts None Sync Pausable.On true None true true false None.

Definition is_complete (t : option DepTerminal) : bool :=
  match t with Some DepComplete => true | _ => false end.
End Progs.
Arguments Operator V : clear implicits.

(** ** The operators *)

Module Op.
Section Ops.
Context {V : Type}.
Implicit Types ctx : Ctx V.

Section Map.
Context {S T : Type} `{!Boxed V S, !Boxed V T}.

Definition map (f : S → T) : Operator V :=
  operator_new "map" (λ ctx,
    for_in (batch_of ctx 0) tt (λ _ x next, emit (f x) (next tt)) (λ _, PRet)).

Definition scan (reducer : T → S → T) (seed : T) : Operator V :=
  operator_new "scan" (λ ctx,
    state_get (T := T) (λ st,
    for_in (batch_of ctx 0) (default seed st)
      (λ acc (x : S) next, let acc := reducer acc x in emit acc (next acc))
      (λ acc, state_set acc PRet))).

Definition reduce (reducer : T → S → T) (seed : T) : Operator V :=
  with_opts "reduce" (terminal_input false true) (λ ctx,
    state_get (T := T) (λ st,
    let acc := foldl reducer (default seed st) (batch_of ctx 0) in
    state_set acc
      (if is_complete (ctx_terminal ctx 0) then PDown [Data (box acc); Complete] PRet else PRet))).
End Map.

Section Same.
Context {S : Type} `{!Boxed V S, !Boxed V nat, !Boxed V bool}.

Definition filter (pred : S → bool) : Operator V :=
  operator_new "filter" (λ ctx,
    for_in (batch_of ctx 0) tt
      (λ _ x next, if pred x then emit x (next tt) else next tt) (λ _, PRet)).

Definition take (n : nat) : Operator V :=
  operator_new "take" (λ ctx,
    if n =? 0 then PDown [Complete] PRet
    else state_get (T := nat) (λ st,
      let count := default 0 st in
      if n <=? count then PRet
      else
        for_in (batch_of ctx 0) count
          (λ count (x : S) next,
             if n <=? count then state_set count PRet         (* break *)
             else let count := count + 1 in
                  if n <=? count then PDown [Data (box x); Complete] (next count)
                  else PDown [Data (box x)] (next count))
          (λ count, state_set count PRet))).

Definition distinct_until_changed (eq : S → S → bool) : Operator V :=
  operator_new "distinctUntilChanged" (λ ctx,
    state_get (T := S) (λ last,
    for_in (batch_of ctx 0) last
      (λ last x next,
         if match last with Some prev => eq prev x | None => false end then next last
         else emit x (next (Some x)))
      (λ last, match last with Some x => state_set x PRet | None => PRet end))).

(** The deps are visited in order, each batch in order. *)
Definition merge : Operator V :=
  with_opts "merge" partial_opts (λ ctx,
    for_in (seq 0 (ctx_dep_len ctx)) tt
      (λ _ i next, for_in (batch_of ctx i) tt (λ _ (x : S) next, emit x (next tt)) next)
      (λ _, PRet)).

Definition pairwise `{!Boxed V (S * S)} : Operator V :=
  operator_new "pairwise" (λ ctx,
    state_get (T := S) (λ prev,
    for_in (batch_of ctx 0) prev
      (λ prev x next,
         match prev with
         | Some p => emit (p, x) (next (Some x))
         | None => next (Some x)
         end)
      (λ prev, match prev with Some x => state_set x PRet | None => PRet end))).

Definition skip (n : nat) : Operator V :=
  operator_new "skip" (λ ctx,
    state_get (T := nat) (λ st,
    for_in (batch_of ctx 0) (default 0 st)
      (λ count (x : S) next, if count <? n then next (count + 1) else emit x (next count))
      (λ count, state_set count PRet))).

Definition take_while (pred : S → bool) : Operator V :=
  operator_new "takeWhile" (λ ctx,
    for_in (batch_of ctx 0) tt
      (λ _ x next, if pred x then emit x (next tt) else PDown [Complete] PRet) (λ _, PRet)).

Definition first (pred : S → bool) : Operator V :=
  operator_new "first" (λ ctx,
    for_in (batch_of ctx 0) tt
      (λ _ x next, if pred x then PDown [Data (box x); Complete] PRet else next tt) (λ _, PRet)).

Definition first_any : Operator V := first (λ _, true).

Definition last (pred : S → bool) : Operator V :=
  with_opts "last" (terminal_input false true) (λ ctx,
    for_in (batch_of ctx 0) tt
      (λ _ x next, if pred x then state_set x (next tt) else next tt)
      (λ _,
         if is_complete (ctx_terminal ctx 0) then
           state_get (T := S) (λ st,
             match st with
             | Some x => PDown [Data (box x); Complete] PRet
             | None => PDown [Complete] PRet
             end)
         else PRet)).

Definition last_any : Operator V := last (λ _, true).

Definition find (pred : S → bool) : Operator V :=
  with_opts "find" (terminal_input false true) (λ ctx,
    for_in (batch_of ctx 0) tt
      (λ _ x next, if pred x then PDown [Data (box x); Complete] PRet else next tt)
      (λ _, if is_complete (ctx_terminal ctx 0) then PDown [Complete] PRet else PRet)).

Definition element_at (index : nat) : Operator V :=
  with_opts "elementAt" (terminal_input false true) (λ ctx,
    state_get (T := nat) (λ st,
    for_in (batch_of ctx 0) (default 0 st)
      (λ count (x : S) next,
         if count =? index then PDown [Data (box x); Complete] PRet else next (count + 1))
      (λ count, state_set count
         (if is_complete (ctx_terminal ctx 0) then PDown [Complete] PRet else PRet)))).

Definition tap (f : S → Prog V) : Operator V :=
  operator_new "tap" (λ ctx,
    for_in (batch_of ctx 0) tt (λ _ x next, prog_seq (f x) (emit x (next tt))) (λ _, PRet)).

Definition on_first_data_where (f : S → Prog V) (where_pred : S → bool) : Operator V :=
  operator_new "onFirstData" (λ ctx,
    state_get (T := bool) (λ st,
    for_in (batch_of ctx 0) (default false st)
      (λ fired x next,
         if negb fired && where_pred x then prog_seq (f x) (emit x (next true))
         else emit x (next fired))
      (λ fired, state_set fired PRet))).

Definition on_first_data (f : S → Prog V) : Operator V := on_first_data_where f (λ _, true).
Definition tap_first (f : S → Prog V) : Operator V := on_first_data f.

(** [settle_by]: the state of the node. *)
Record SettleState := mkSettleState {
  st_last : option S;
  quiet : nat;
  waves : nat;
  done_ : bool
}.

(** The constructor panics on a zero count; the body runs once per wave. *)
Definition settle_by_ok (quiet_waves : nat) (max_waves : option nat) : bool :=
  (0 <? quiet_waves) && match max_waves with Some max => 0 <? max | None => true end.

Definition settle_by `{!Boxed V SettleState} (quiet_waves : nat) (max_waves : option nat)
    (equals : S → S → bool) : Operator V :=
  operator_new "settle" (λ ctx,
    state_get (T := SettleState) (λ st,
    let st := default (mkSettleState None 0 0 false) st in
    if done_ st then PRet else
    for_in (batch_of ctx 0) (st_last st, false)
      (λ '(last, saw_change) next_v next,
         let saw_change :=
           saw_change || match last with Some prev => negb (equals prev next_v) | None => true end in
         emit next_v (next (Some next_v, saw_change)))
      (λ '(last, saw_change),
         let waves := waves st + 1 in
         let quiet := if saw_change then 0 else quiet st + 1 in
         let settled := (if last then true else false) && (quiet_waves <=? quiet) in
         let exhausted := match max_waves with Some max => max <=? waves | None => false end in
         if settled || exhausted then
           state_set (mkSettleState last quiet waves true) (PDown [Complete] PRet)
         else state_set (mkSettleState last quiet waves false) PRet))).

Definition settle `{!Boxed V SettleState} `{!EqDecision S} (quiet_waves : nat)
    (max_waves : option nat) : Operator V :=
  settle_by quiet_waves max_waves (λ a b, bool_decide (a = b)).

Definition rescue (recover : string → S) : Operator V :=
  with_opts "rescue" (terminal_input false false) (λ ctx,
    for_in (batch_of ctx 0) tt (λ _ (x : S) next, emit x (next tt))
      (λ _, match ctx_terminal ctx 0 with
            | Some DepComplete => PDown [Complete] PRet
            | Some (DepError e) => emit (recover e) PRet
            | None => PRet
            end)).

Definition catch_error (recover : string → S) : Operator V := rescue recover.

Definition valve : Operator V :=
  with_opts "valve" (terminal_input true true) (λ ctx,
    match ctx_terminal ctx 0 with
    | Some DepComplete => PDown [Complete] PRet
    | Some (DepError e) => PDown [Error e] PRet
    | None =>
        if negb (default false (data ctx 1)) then PRet else
        match batch_of ctx 0 with
        | [] =>
            match batch_of (T := bool) ctx 1, data (T := S) ctx 0 with
            | _ :: _, Some latest => emit latest PRet
            | _, _ => PRet
            end
        | source_batch => for_in source_batch tt (λ _ (x : S) next, emit x (next tt)) (λ _, PRet)
        end
    end).
End Same.
End Ops.
Arguments SettleState : clear implicits.
End Op.
