(* ===== verification/Combinators.v ===== *)
(** * Static-dep combinators (combinators.rs)

    Operators over several deps, written as in [Operators].  The state a body
    keeps between runs is a record of its own, boxed in [ctx.state]. *)

From stdpp Require Import base option strings numbers list.
From S2P Require Import Prelude Protocol Dispatcher Versioning Arena NodeState Operators.

Local Open Scope nat_scope.

(** [dep_has_data]: DATA of any type, by the raw projection. *)
Definition dep_has_data {V} (ctx : Ctx V) (i : nat) : bool :=
  match dep_records ctx !! i with
  | Some r => existsb (existsb (λ d, match d with WData _ => true | WSentinel => false end)) (wave_data r)
  | None => false
  end.

(** [Vec::resize] and [resize_with]. *)
Definition resize {A} (n : nat) (x : A) (l : list A) : list A :=
  take n l ++ replicate (n - length l) x.

Module Comb.
Section Comb.
Context {V : Type}.
Implicit Types ctx : Ctx V.

Section Homogeneous.
Context {T : Type} `{!Boxed V T, !Boxed V (list T)}.

(** [let Some(value) = ctx.data(i) else return], for every dep. *)
Definition combine : Operator V :=
  with_opts "combine" partial_opts (λ ctx,
    for_in (seq 0 (ctx_dep_len ctx)) []
      (λ values i next,
         match data (T := T) ctx i with
         | Some v => next (values ++ [v])
         | None => PRet
         end)
      (λ values, emit values PRet)).

Definition combine_latest : Operator V := combine.

(** *** zip *)

Record ZipState := mkZipState { queues : list (list T); complete : list bool }.

(** The values and terminals of the run, queued per dep. *)
Definition zip_take_in ctx (n : nat) (st : ZipState) : ZipState :=
  foldl (λ st i,
    mkZipState (alter (λ q, q ++ batch_of ctx i) i (queues st))
      (if is_complete (ctx_terminal ctx i) then <[i := true]> (complete st) else complete st))
    st (seq 0 n).

(** One pass of the [while] loop: the fronts of the queues, if none is empty. *)
Definition pop_fronts (qs : list (list T)) : option (list T * list (list T)) :=
  if forallb (λ q, match q with [] => false | _ => true end) qs
  then Some (omap head qs, tail <$> qs) else None.

(** The loop empties the shortest queue, so its length is enough fuel. *)
Fixpoint zip_loop (fuel : nat) (qs : list (list T)) (k : list (list T) → Prog V) : Prog V :=
  match fuel with
  | 0 => k qs
  | S fuel =>
      match pop_fronts qs with
      | Some (tuple, qs) => emit tuple (zip_loop fuel qs k)
      | None => k qs
      end
  end.

Definition zip_should_complete (st : ZipState) : bool :=
  existsb (λ '(i, done), done && match queues st !! i with Some [] => true | _ => false end)
    (imap pair (complete st)).

Definition zip `{!Boxed V ZipState} : Operator V :=
  with_opts "zip" (terminal_input true true) (λ ctx,
    let n := ctx_dep_len ctx in
    if n =? 0 then PDown [Complete] PRet else
    state_get (T := ZipState) (λ st,
    let st := default (mkZipState (replicate n []) (replicate n false)) st in
    let st := if length (queues st) =? n then st
              else mkZipState (resize n [] (queues st)) (resize n false (complete st)) in
    let st := zip_take_in ctx n st in
    zip_loop (foldr (λ q m, S (length q) + m) 0 (queues st)) (queues st) (λ qs,
    let st := mkZipState qs (complete st) in
    state_set st
      (if zip_should_complete st then PDown [Complete] PRet else PRet)))).

(** *** concat *)

Record ConcatState := mkConcatState { phase : nat; pending : list T; second_done : bool }.

Definition forward (l : list T) (k : Prog V) : Prog V :=
  for_in l tt (λ _ x next, emit x (next tt)) (λ _, k).

Definition concat `{!Boxed V ConcatState} : Operator V :=
  with_opts "concat" (terminal_input true true) (λ ctx,
    state_get (T := ConcatState) (λ st,
    let st := default (mkConcatState 0 [] false) st in
    if phase st =? 0 then
      forward (batch_of ctx 0)
        (let pending := pending st ++ batch_of ctx 1 in
         let second_done := second_done st || is_complete (ctx_terminal ctx 1) in
         if is_complete (ctx_terminal ctx 0) then
           forward pending
             (let finish := state_set (mkConcatState 1 [] second_done) PRet in
              if second_done then PDown [Complete] finish else finish)
         else state_set (mkConcatState 0 pending second_done) PRet)
    else
      forward (batch_of ctx 1)
        (let finish := state_set st PRet in
         if is_complete (ctx_terminal ctx 1) then PDown [Complete] finish else finish))).

(** *** race *)

Record RaceState := mkRaceState { winner : option nat; terminals : list bool }.

Definition note_terminals ctx (n : nat) (ts : list bool) : list bool :=
  foldl (λ ts i, if ctx_terminal ctx i then <[i := true]> ts else ts) ts (seq 0 n).

(** The first dep with a non-empty batch. *)
Fixpoint first_firing ctx (deps : list nat) : option (nat * list T) :=
  match deps with
  | [] => None
  | i :: deps =>
      match batch_of ctx i with
      | [] => first_firing ctx deps
      | values => Some (i, values)
      end
  end.

Definition race `{!Boxed V RaceState} : Operator V :=
  with_opts "race" (terminal_input true false) (λ ctx,
    let n := ctx_dep_len ctx in
    state_get (T := RaceState) (λ st,
    let st := default (mkRaceState None (replicate n false)) st in
    let ts := note_terminals ctx n (resize n false (terminals st)) in
    match winner st with
    | Some w =>
        forward (batch_of ctx w)
          (let st := mkRaceState (Some w) ts in
           match ctx_terminal ctx w with
           | Some DepComplete => state_set st (PDown [Complete] PRet)
           | Some (DepError e) => state_set st (PDown [Error e] PRet)
           | None => state_set st PRet
           end)
    | None =>
        match first_firing ctx (seq 0 n) with
        | Some (i, values) => forward values (state_set (mkRaceState (Some i) ts) PRet)
        | None =>
            let st := mkRaceState None ts in
            if forallb id ts then state_set st (PDown [Complete] PRet) else state_set st PRet
        end
    end)).

(** *** buffer *)

Definition buffer : Operator V :=
  with_opts "buffer" (terminal_input true true) (λ ctx,
    state_get (T := list T) (λ st,
    let buf := default [] st ++ batch_of ctx 0 in
    if is_complete (ctx_terminal ctx 0) then
      let finish := state_set (T := list T) [] (PDown [Complete] PRet) in
      match buf with [] => finish | _ => emit buf finish end
    else if dep_has_data ctx 1 then emit buf (state_set (T := list T) [] PRet)
    else state_set buf PRet)).

(** [buffer_count] panics on a zero count. *)
Definition buffer_count (count : nat) : Operator V :=
  with_opts "bufferCount" (terminal_input false true) (λ ctx,
    state_get (T := list T) (λ st,
    for_in (batch_of ctx 0) (default [] st)
      (λ buf x next,
         let buf := buf ++ [x] in
         if count <=? length buf then emit buf (next []) else next buf)
      (λ buf,
         if is_complete (ctx_terminal ctx 0) then
           let finish := state_set (T := list T) [] (PDown [Complete] PRet) in
           match buf with [] => finish | _ => emit buf finish end
         else state_set buf PRet))).

(** *** sample *)

Record SampleState := mkSampleState { sm_last : option T; source_done : bool }.

Definition sample `{!Boxed V SampleState} : Operator V :=
  with_opts "sample" (terminal_input true false) (λ ctx,
    for_in [0; 1] tt
      (λ _ dep next,
         match ctx_terminal ctx dep with
         | Some (DepError e) => PDown [Error e] PRet
         | _ => next tt
         end)
      (λ _,
    state_get (T := SampleState) (λ st,
    let st := default (mkSampleState None false) st in
    let last := foldl (λ _ x, Some x) (sm_last st) (batch_of ctx 0) in
    let st := if is_complete (ctx_terminal ctx 0) then mkSampleState None true
              else mkSampleState last (source_done st) in
    if is_complete (ctx_terminal ctx 1) then state_set st (PDown [Complete] PRet) else
    let finish := state_set st PRet in
    if dep_has_data ctx 1 && negb (source_done st) then
      match sm_last st with Some v => emit v finish | None => finish end
    else finish))).

(** *** take_until *)

Definition take_until : Operator V :=
  with_opts "takeUntil" (terminal_input true true) (λ ctx,
    if dep_has_data ctx 1 then PDown [Complete] PRet
    else forward (batch_of ctx 0)
           (if is_complete (ctx_terminal ctx 0) then PDown [Complete] PRet else PRet)).
End Homogeneous.

(** Dep 0 drives, dep 1 is read. *)
Definition with_latest_from {A B} `{!Boxed V A, !Boxed V B, !Boxed V (A * B)} : Operator V :=
  with_opts "withLatestFrom" (terminal_input false true) (λ ctx,
    if is_complete (ctx_terminal ctx 0) then PDown [Complete] PRet else
    match data (T := B) ctx 1 with
    | None => PRet
    | Some secondary =>
        for_in (batch_of ctx 0) tt (λ _ (x : A) next, emit (x, secondary) (next tt)) (λ _, PRet)
    end).
End Comb.
Arguments ZipState : clear implicits.
Arguments ConcatState : clear implicits.
Arguments SampleState : clear implicits.
End Comb.
