(* ===== verification/OperatorFacts.v ===== *)
(** * What the operators compute

    [run_body] is the abstract run of an operator body: the state a node keeps,
    the messages it has emitted, and whether it is terminal.  A stream of runs
    is a list of contexts; [implements op f] says that over every such stream the
    node emits [f] of the values that arrived, however they were grouped into
    runs.  [completing op f] says it for a source that completes, whose last run
    sees the completion.  [OperatorRun] shows that the engine runs a body as
    [run_body] does. *)

From stdpp Require Import base option strings numbers list.
From S2P Require Import Prelude Protocol Dispatcher Versioning Arena NodeState Operators Combinators.

Local Open Scope nat_scope.

Section Run.
Context {V : Type}.
Implicit Types ctx : Ctx V.

Record OpState := mkOpState { os_state : option V; os_terminal : bool; os_out : list (Msg V) }.

Definition os_init : OpState := mkOpState None false [].

(** The waves an operator sends. *)
Definition plain_wave (msgs : Wave V) : bool :=
  match msgs with
  | [Data _] | [Complete] | [Error _] | [Data _; Complete] => true
  | _ => false
  end.

Definition ends_stream (msgs : Wave V) : bool := existsb is_terminal_msg msgs.

(** [down] on a terminal node does nothing. *)
Definition send (msgs : Wave V) (s : OpState) : OpState :=
  if os_terminal s then s
  else mkOpState (os_state s) (ends_stream msgs) (os_out s ++ msgs).

Definition store (v : V) (s : OpState) : OpState := mkOpState (Some v) (os_terminal s) (os_out s).

Fixpoint run_body (p : Prog V) (s : OpState) : option OpState :=
  match p with
  | PRet => Some s
  | PDown msgs k => if plain_wave msgs then run_body k (send msgs s) else None
  | PStateGet k => run_body (k (os_state s)) s
  | PStateSet v k => run_body k (store v s)
  | _ => None
  end.

(** A terminal node does not run. *)
Definition feed1 (op : Operator V) (s : option OpState) ctx : option OpState :=
  s ← s; if os_terminal s then Some s else run_body (body op ctx) s.
Definition feed (op : Operator V) (ctxs : list (Ctx V)) : option OpState :=
  foldl (feed1 op) (Some os_init) ctxs.

Definition emitted (s : option OpState) : option (list (Msg V)) := os_out <$> s.

Lemma foldl_none op ctxs : foldl (feed1 op) None ctxs = None.
Proof. by induction ctxs. Qed.

(** The values dep 0 delivers over the runs, of a live source. *)
Definition live_runs {S} `{!Boxed V S} (ctxs : list (Ctx V)) (runs : list (list S)) : Prop :=
  Forall2 (λ ctx xs, batch_of ctx 0 = xs ∧ ctx_terminal ctx 0 = None) ctxs runs.

Definition implements {S} `{!Boxed V S} (op : Operator V) (f : list S → list (Msg V)) : Prop :=
  ∀ ctxs runs, live_runs ctxs runs → ctxs ≠ [] → emitted (feed op ctxs) = Some (f (concat runs)).

(** The same for a source that completes: with its last values or after them. *)
Definition completing {S} `{!Boxed V S} (op : Operator V) (f : list S → list (Msg V)) : Prop :=
  ∀ ctxs runs ctx xs, live_runs ctxs runs → batch_of ctx 0 = xs → ctx_terminal ctx 0 = Some DepComplete →
    emitted (feed op (ctxs ++ [ctx])) = Some (f (concat runs ++ xs)).

(** ** Invariants

    An operator is followed by an invariant of its state, indexed by the values
    consumed so far.  A step consumes the values of one run. *)
Definition step_ok {S} `{!Boxed V S} (op : Operator V) (I : list S → OpState → Prop) : Prop :=
  ∀ ctx xs0 xs s, I xs0 s → os_terminal s = false → batch_of ctx 0 = xs → ctx_terminal ctx 0 = None →
    ∃ s', run_body (body op ctx) s = Some s' ∧ I (xs0 ++ xs) s'.

(** A terminal state stays described whatever else arrives. *)
Definition sealed {S} (I : list S → OpState → Prop) : Prop :=
  ∀ xs0 xs s, I xs0 s → os_terminal s = true → I (xs0 ++ xs) s.

Lemma feed_inv {S} `{!Boxed V S} op (I : list S → OpState → Prop) ctxs runs :
  I [] os_init → step_ok op I → sealed I → live_runs ctxs runs →
  ∃ s, feed op ctxs = Some s ∧ I (concat runs) s.
Proof.
  intros H0 Hstep Hseal Hruns. unfold feed.
  cut (∀ xs0 s0, I xs0 s0 → ∃ s, foldl (feed1 op) (Some s0) ctxs = Some s ∧ I (xs0 ++ concat runs) s).
  { intros Hc. apply (Hc [] os_init H0). }
  clear H0. induction Hruns as [|ctx xs ctxs runs [Hb Ht] _ IH]; intros xs0 s0 Hs; simpl.
  - exists s0. by rewrite app_nil_r.
  - destruct (os_terminal s0) eqn:Hterm.
    + rewrite assoc_L by apply _. by apply IH, Hseal.
    + destruct (Hstep ctx xs0 xs s0 Hs Hterm Hb Ht) as (s1 & -> & Hs1).
      rewrite assoc_L by apply _. by apply IH.
Qed.
End Run.
Arguments OpState V : clear implicits.

(** ** Running loops *)

Section Loops.
Context {V : Type}.
Implicit Types s : OpState V.

(** [p] ends from [s] in a state that satisfies [Q]. *)
Definition ends_in (p : Prog V) s (Q : OpState V → Prop) : Prop :=
  ∃ s', run_body p s = Some s' ∧ Q s'.

Lemma ends_ret s (Q : OpState V → Prop) : Q s → ends_in PRet s Q.
Proof. intros H. by exists s. Qed.

Lemma ends_down msgs k s (Q : OpState V → Prop) :
  plain_wave msgs = true → ends_in k (send msgs s) Q → ends_in (PDown msgs k) s Q.
Proof. intros Hp (s' & Hr & HQ). exists s'. simpl. by rewrite Hp. Qed.

Lemma ends_get {T} `{!Boxed V T} (k : option T → Prog V) s (Q : OpState V → Prop) :
  ends_in (k (os_state s ≫= unbox)) s Q → ends_in (state_get k) s Q.
Proof. done. Qed.

Lemma ends_set {T} `{!Boxed V T} (x : T) k s (Q : OpState V → Prop) :
  ends_in k (store (box x) s) Q → ends_in (state_set x k) s Q.
Proof. done. Qed.

Lemma ends_emit {T} `{!Boxed V T} (x : T) k s (Q : OpState V → Prop) :
  ends_in k (send [Data (box x)] s) Q → ends_in (emit x k) s Q.
Proof. by apply ends_down. Qed.

(** The rule of a [for] loop: [J] describes the state after a prefix of the
    items; a step goes on with the rest or returns. *)
Lemma ends_for {A B} (J : list A → B → OpState V → Prop) (Q : OpState V → Prop)
    (step : B → A → (B → Prog V) → Prog V) (k : B → Prog V) (l : list A) b s :
  J [] b s →
  (∀ pre a rest b s next, l = pre ++ a :: rest → J pre b s →
     (∀ b' s', J (pre ++ [a]) b' s' → ends_in (next b') s' Q) → ends_in (step b a next) s Q) →
  (∀ b s, J l b s → ends_in (k b) s Q) →
  ends_in (for_in l b step k) s Q.
Proof.
  intros H0 Hstep Hk.
  cut (∀ l2 pre b s, l = pre ++ l2 → J pre b s → ends_in (for_in l2 b step k) s Q).
  { intros Hc. by apply (Hc l []). }
  intros l2. induction l2 as [|a l2 IH]; intros pre b1 s1 Hl HJ; simpl.
  - apply Hk. by rewrite Hl, app_nil_r.
  - eapply Hstep; [exact Hl|exact HJ|]. intros b' s' HJ'. eapply IH; [|exact HJ'].
    by rewrite <- app_assoc.
Qed.

Lemma send_live msgs s :
  os_terminal s = false → send msgs s = mkOpState (os_state s) (ends_stream msgs) (os_out s ++ msgs).
Proof. intros H. unfold send. by rewrite H. Qed.

Lemma send_sealed msgs s : os_terminal s = true → send msgs s = s.
Proof. intros H. unfold send. by rewrite H. Qed.
End Loops.

(** One structural step of a run. *)
Ltac ends_step :=
  lazymatch goal with
  | |- ends_in PRet _ _ => apply ends_ret
  | |- ends_in (PDown _ _) _ _ => apply ends_down; [done|]
  | |- ends_in (emit _ _) _ _ => apply ends_emit
  | |- ends_in (state_get _) _ _ => apply ends_get
  | |- ends_in (state_set _ _) _ _ => apply ends_set
  | |- context [send _ _] => rewrite !send_live by done
  end.

(** ** The functions on lists *)

Section Specs.
Context {V S T : Type} `{!Boxed V S, !Boxed V T}.
Implicit Types xs : list S.

Definition datas (xs : list T) : list (Msg V) := (λ x, Data (box x)) <$> xs.

Fixpoint scanned (reducer : T → S → T) (acc : T) xs : list T :=
  match xs with
  | [] => []
  | x :: xs => reducer acc x :: scanned reducer (reducer acc x) xs
  end.

Fixpoint deduped (eq : S → S → bool) (last : option S) xs : list S :=
  match xs with
  | [] => []
  | x :: xs =>
      if match last with Some prev => eq prev x | None => false end then deduped eq last xs
      else x :: deduped eq (Some x) xs
  end.

(** The longest prefix that satisfies [pred], and whether anything is left. *)
Fixpoint prefix_while (pred : S → bool) xs : list S * bool :=
  match xs with
  | [] => ([], false)
  | x :: xs => if pred x then let '(l, b) := prefix_while pred xs in (x :: l, b) else ([], true)
  end.

Lemma scanned_snoc reducer acc xs x :
  scanned reducer acc (xs ++ [x]) = scanned reducer acc xs ++ [reducer (foldl reducer acc xs) x].
Proof. revert acc. induction xs as [|y xs IH]; intros acc; simpl; [done|]. by rewrite IH. Qed.

(** What [deduped] compares the next value with. *)
Fixpoint dedup_last (eq : S → S → bool) (last : option S) xs : option S :=
  match xs with
  | [] => last
  | x :: xs =>
      if match last with Some prev => eq prev x | None => false end then dedup_last eq last xs
      else dedup_last eq (Some x) xs
  end.

Lemma deduped_snoc eq last xs x :
  deduped eq last (xs ++ [x])
  = deduped eq last xs
    ++ (if match dedup_last eq last xs with Some prev => eq prev x | None => false end then [] else [x]).
Proof.
  revert last. induction xs as [|y xs IH]; intros last; simpl.
  - by destruct (match last with Some _ => _ | None => _ end).
  - destruct (match last with Some _ => _ | None => _ end); [apply IH|]. by rewrite IH.
Qed.

Lemma dedup_last_snoc eq last xs x :
  dedup_last eq last (xs ++ [x])
  = if match dedup_last eq last xs with Some prev => eq prev x | None => false end
    then dedup_last eq last xs else Some x.
Proof.
  revert last. induction xs as [|y xs IH]; intros last; simpl; [done|].
  destruct (match last with Some _ => _ | None => _ end); apply IH.
Qed.

Lemma prefix_while_snoc pred xs x :
  prefix_while pred (xs ++ [x])
  = let '(l, stopped) := prefix_while pred xs in
    if stopped then (l, true) else if pred x then (l ++ [x], false) else (l, true).
Proof.
  induction xs as [|y xs IH]; simpl; [done|]. destruct (pred y); [|done].
  rewrite IH. destruct (prefix_while pred xs) as [l []]; [done|]. by destruct (pred x).
Qed.

(** The first value that satisfies [pred]. *)
Definition first_match (pred : S → bool) xs : option S := head (List.filter pred xs).
Definition last_match (pred : S → bool) xs : option S := last (List.filter pred xs).
End Specs.

(** ** The operators that live as long as their source *)

Section Streams.
Context {V : Type}.
Implicit Types s : OpState V.

(** What is known of a node after consuming [xs]: its output is [f xs], and
    either it is terminal and nothing can change that, or its state is [st xs]. *)
Definition follows {S} (f : list S → list (Msg V)) (st : list S → option V → Prop) (xs : list S) s : Prop :=
  os_out s = f xs ∧
  if os_terminal s then os_out s ≠ [] ∧ ∀ ys, f (xs ++ ys) = f xs else st xs (os_state s).

Lemma follows_sealed {S} (f : list S → list (Msg V)) st : sealed (follows f st).
Proof.
  intros xs0 xs s [Ho Ht] Hterm. rewrite Hterm in Ht. destruct Ht as [Hne Ht]. split; [by rewrite Ht|].
  rewrite Hterm. split; [done|]. intros ys. by rewrite <- app_assoc, !Ht.
Qed.

Lemma follows_implements {S} `{!Boxed V S} op (f : list S → list (Msg V)) st :
  f [] = [] → st [] None →
  (∀ ctx xs0 xs s, follows f st xs0 s → os_terminal s = false → batch_of ctx 0 = xs →
     ctx_terminal ctx 0 = None → ends_in (body op ctx) s (follows f st (xs0 ++ xs))) →
  implements op f.
Proof.
  intros Hf Hst Hstep ctxs runs Hruns _.
  destruct (feed_inv op (follows f st) ctxs runs) as (s & Hs & Ho & _); [done..|apply follows_sealed|done|].
  unfold emitted. by rewrite Hs, <- Ho.
Qed.

(** The rule of a body that is one loop over the batch of dep 0, from inside a
    run: [R] describes the accumulator, and the state, from the values consumed. *)
Lemma ends_batch {S B} (f : list S → list (Msg V)) (R : list S → B → option V → Prop)
    (Q : OpState V → Prop) (step : B → S → (B → Prog V) → Prog V) (k : B → Prog V) xs0 xs b s :
  os_out s = f xs0 → os_terminal s = false → R xs0 b (os_state s) →
  (∀ pre x rest b s next, xs = pre ++ x :: rest → os_out s = f (xs0 ++ pre) → os_terminal s = false →
     R (xs0 ++ pre) b (os_state s) →
     (∀ b' s', os_out s' = f ((xs0 ++ pre) ++ [x]) → os_terminal s' = false →
        R ((xs0 ++ pre) ++ [x]) b' (os_state s') → ends_in (next b') s' Q) →
     ends_in (step b x next) s Q) →
  (∀ b s, os_out s = f (xs0 ++ xs) → os_terminal s = false → R (xs0 ++ xs) b (os_state s) →
     ends_in (k b) s Q) →
  ends_in (for_in xs b step k) s Q.
Proof.
  intros Ho Ht HR Hstep Hk.
  apply (ends_for (λ pre b s, os_out s = f (xs0 ++ pre) ∧ os_terminal s = false
                              ∧ R (xs0 ++ pre) b (os_state s))).
  - by rewrite app_nil_r.
  - intros pre x rest b1 s1 next Hl (?&?&?) Hn. eapply Hstep; try done. intros b' s'.
    rewrite <- (assoc_L (++)). intros ???. by apply Hn.
  - intros b1 s1 (?&?&?). by apply Hk.
Qed.

Lemma datas_snoc {T} `{!Boxed V T} (xs : list T) x : datas (xs ++ [x]) = datas xs ++ [Data (box x : V)].
Proof. unfold datas. by rewrite fmap_app. Qed.

Lemma filter_snoc {S} (pred : S → bool) xs x :
  List.filter pred (xs ++ [x]) = List.filter pred xs ++ if pred x then [x] else [].
Proof. rewrite List.filter_app. simpl. by destruct (pred x). Qed.

Section Ops.
Context {S T : Type} `{!Boxed V S, !Boxed V T, !Boxed V nat, !Boxed V bool, !Boxed V (S * S)}.

Lemma map_stream (f : S → T) : implements (Op.map f) (λ xs : list S, datas (f <$> xs)).
Proof.
  apply (follows_implements _ _ (λ _ _, True)); [done..|]. intros ctx xs0 xs s [Ho _] Ht Hb _. simpl.
  rewrite Hb. apply (ends_batch (λ xs, datas (f <$> xs)) (λ _ _ _, True) _ _ _ xs0); try done.
  - intros pre x rest b s1 next _ Ho1 Ht1 _ Hn. repeat ends_step. apply Hn; [|done..]. simpl.
    rewrite Ho1. unfold datas. by rewrite !fmap_app.
  - intros b s1 Ho1 Ht1 _. ends_step. split; [done|]. by rewrite Ht1.
Qed.

Lemma filter_stream (pred : S → bool) :
  implements (Op.filter pred) (λ xs : list S, datas (List.filter pred xs)).
Proof.
  apply (follows_implements _ _ (λ _ _, True)); [done..|]. intros ctx xs0 xs s [Ho _] Ht Hb _. simpl.
  rewrite Hb. apply (ends_batch (λ xs, datas (List.filter pred xs)) (λ _ _ _, True) _ _ _ xs0); try done.
  - intros pre x rest b s1 next _ Ho1 Ht1 _ Hn. rewrite filter_snoc in Hn.
    destruct (pred x); repeat ends_step; apply Hn; try done; simpl; rewrite ?app_nil_r; [|done].
    by rewrite datas_snoc, Ho1.
  - intros b s1 Ho1 Ht1 _. ends_step. split; [done|]. by rewrite Ht1.
Qed.

Lemma scan_stream (reducer : T → S → T) (seed : T) :
  implements (Op.scan reducer seed) (λ xs : list S, datas (scanned reducer seed xs)).
Proof.
  apply (follows_implements _ _ (λ xs st, default seed (st ≫= unbox) = foldl reducer seed xs)); [done..|].
  intros ctx xs0 xs s [Ho Hst] Ht Hb _. rewrite Ht in Hst. simpl. ends_step. rewrite Hb, Hst.
  apply (ends_batch (λ xs, datas (scanned reducer seed xs)) (λ xs acc _, acc = foldl reducer seed xs)
           _ _ _ xs0); try done.
  - intros pre x rest acc s1 next _ Ho1 Ht1 -> Hn. repeat ends_step.
    apply Hn; simpl; [|done|by rewrite !foldl_app]. by rewrite scanned_snoc, datas_snoc, Ho1.
  - intros acc s1 Ho1 Ht1 ->. repeat ends_step. split; [done|]. simpl. rewrite Ht1. simpl. by rewrite unbox_box.
Qed.

Lemma distinct_stream (eq : S → S → bool) :
  implements (Op.distinct_until_changed eq) (λ xs : list S, datas (deduped eq None xs)).
Proof.
  apply (follows_implements _ _ (λ xs st, st ≫= unbox = dedup_last eq None xs)); [done..|].
  intros ctx xs0 xs s [Ho Hst] Ht Hb _. rewrite Ht in Hst. simpl. ends_step. rewrite Hb.
  apply (ends_batch (λ xs, datas (deduped eq None xs))
    (λ xs last st, last = dedup_last eq None xs ∧ (last = None → st ≫= unbox (T := S) = None)) _ _ _ xs0); try done.
  - intros pre x rest last s1 next _ Ho1 Ht1 [-> Hn1] Hn.
    rewrite deduped_snoc, dedup_last_snoc in Hn.
    destruct (match dedup_last eq None (xs0 ++ pre) with Some _ => _ | None => _ end).
    + apply Hn; [by rewrite app_nil_r|done..].
    + repeat ends_step. apply Hn; [|done..]. by rewrite datas_snoc, Ho1.
  - intros last s1 Ho1 Ht1 [-> Hn]. destruct (dedup_last eq None (xs0 ++ xs)) as [y|] eqn:Hy; repeat ends_step.
    all: split; [done|]; simpl; rewrite Ht1; simpl; rewrite Hy; first [by rewrite unbox_box|by apply Hn].
Qed.

Lemma skip_stream n : implements (Op.skip (S := S) n) (λ xs : list S, datas (drop n xs)).
Proof.
  apply (follows_implements _ _ (λ xs st, default 0 (st ≫= unbox) = min n (length xs))).
  { by rewrite drop_nil. } { by rewrite Nat.min_0_r. }
  intros ctx xs0 xs s [Ho Hst] Ht Hb _. rewrite Ht in Hst. simpl. ends_step. rewrite Hb, Hst.
  apply (ends_batch (λ xs, datas (drop n xs)) (λ xs count _, count = min n (length xs)) _ _ _ xs0); try done.
  - intros pre x rest count s1 next _ Ho1 Ht1 -> Hn. rewrite length_app, drop_app in Hn. simpl in Hn.
    destruct (min n (length (xs0 ++ pre)) <? n) eqn:Hlt.
    + apply Nat.ltb_lt in Hlt. apply Hn; [|done|lia]. rewrite skipn_all2 with (l := [x]) by (simpl; lia).
      by rewrite app_nil_r.
    + apply Nat.ltb_ge in Hlt. repeat ends_step. apply Hn; [|done|simpl; lia].
      replace (n - length (xs0 ++ pre)) with 0 by lia. rewrite drop_0, datas_snoc. simpl. by rewrite Ho1.
  - intros count s1 Ho1 Ht1 ->. repeat ends_step. split; [done|]. simpl. rewrite Ht1. simpl. by rewrite unbox_box.
Qed.

Lemma pairwise_stream : implements (Op.pairwise (S := S)) (λ xs : list S, datas (zip xs (tail xs))).
Proof.
  assert (∀ (xs : list S) x, zip (xs ++ [x]) (tail (xs ++ [x]))
                  = zip xs (tail xs) ++ match last xs with Some p => [(p, x)] | None => [] end) as Hz.
  { intros xs x. induction xs as [|y [|z xs] IH]; [done|done|]. simpl in *. by rewrite IH. }
  apply (follows_implements _ _ (λ xs st, st ≫= unbox = last xs)); [done..|].
  intros ctx xs0 xs s [Ho Hst] Ht Hb _. rewrite Ht in Hst. simpl. ends_step. rewrite Hb.
  apply (ends_batch (λ xs, datas (zip xs (tail xs)))
    (λ xs prev st, prev = last xs ∧ (prev = None → st ≫= unbox (T := S) = None)) _ _ _ xs0); try done.
  - intros pre x rest prev s1 next _ Ho1 Ht1 [-> Hn1] Hn. rewrite Hz, last_snoc in Hn.
    destruct (last (xs0 ++ pre)) as [p|].
    + repeat ends_step. apply Hn; [|done..]. by rewrite datas_snoc, Ho1.
    + apply Hn; [by rewrite app_nil_r|done..].
  - intros prev s1 Ho1 Ht1 [-> Hn]. destruct (last (xs0 ++ xs)) as [y|] eqn:Hy; repeat ends_step.
    all: split; [done|]; simpl; rewrite Ht1; simpl; rewrite Hy; first [by rewrite unbox_box|by apply Hn].
Qed.

(** *** Operators that end the stream themselves *)

Definition taken (n : nat) (xs : list S) : list (Msg V) :=
  datas (take n xs) ++ if n <=? length xs then [Complete] else [].

Lemma taken_full n xs ys : n ≤ length xs → taken n (xs ++ ys) = taken n xs.
Proof.
  intros H. unfold taken. rewrite take_app_le by done. rewrite length_app.
  by rewrite !(proj2 (Nat.leb_le _ _)) by lia.
Qed.

Lemma taken_nonempty n xs : n ≤ length xs → taken n xs ≠ [].
Proof. intros H. unfold taken. rewrite (proj2 (Nat.leb_le _ _)) by done. by destruct (datas _). Qed.

Lemma take_stream n : implements (Op.take (S := S) n) (taken n).
Proof.
  destruct n as [|n].
  - intros ctxs runs Hruns Hne. destruct ctxs as [|ctx ctxs]; [done|]. simpl.
    assert (∀ s, os_terminal s = true → feed (Op.take (S := S) 0) ctxs = feed (Op.take (S := S) 0) ctxs →
              foldl (feed1 (Op.take (S := S) 0)) (Some s) ctxs = Some s) as Hs.
    { intros s Hs _. clear Hruns Hne. induction ctxs as [|c ctxs IH]; [done|]. simpl. by rewrite Hs. }
    unfold feed. simpl. by rewrite Hs.
  - assert (0 < Datatypes.S n) as H0 by lia. revert H0. generalize (Datatypes.S n) as m. clear n. intros m H0.
    apply (follows_implements _ _ (λ xs st, length xs < m ∧ default 0 (st ≫= unbox) = length xs)).
    { unfold taken. by destruct m; [lia|]. } { simpl. split; [lia|done]. }
    intros ctx xs0 xs s [Ho Hst] Ht Hb _. rewrite Ht in Hst. destruct Hst as [Hlt Hst].
    unfold Op.take. cbn [operator_new with_opts body]. rewrite (proj2 (Nat.eqb_neq m 0)) by lia.
    ends_step. rewrite Hb, Hst. rewrite (proj2 (Nat.leb_gt _ _)) by done.
    apply (ends_for (λ pre count s, os_out s = taken m (xs0 ++ pre) ∧
             os_terminal s = (m <=? length (xs0 ++ pre)) ∧ count = min m (length (xs0 ++ pre)))).
    + rewrite app_nil_r, Ho, Ht. split_and!; [done| |lia]. symmetry. by apply Nat.leb_gt.
    + intros pre x rest count s1 next Hl (Ho1 & Ht1 & ->) Hn.
      destruct (m <=? length (xs0 ++ pre)) eqn:Hm; rewrite ?Hm in Ht1.
      * apply Nat.leb_le in Hm. rewrite (proj2 (Nat.leb_le m _)) by lia. repeat ends_step.
        assert (∀ ys, taken m ((xs0 ++ xs) ++ ys) = taken m (xs0 ++ pre)) as Hf.
        { intros ys. rewrite Hl, (assoc_L (++)), <- (assoc_L (++)). by apply taken_full. }
        split; simpl; [by rewrite <- (app_nil_r (xs0 ++ xs)), Hf|]. rewrite Ht1, Ho1.
        split; [by apply taken_nonempty|]. intros ys. rewrite Hf, <- (Hf []). by rewrite app_nil_r.
      * apply Nat.leb_gt in Hm. rewrite (proj2 (Nat.leb_gt m _)) by lia.
        replace (min m (length (xs0 ++ pre)) + 1) with (length (xs0 ++ pre ++ [x]))
          by (rewrite !length_app in *; simpl; lia).
        assert (datas (take m (xs0 ++ pre ++ [x])) = os_out s1 ++ [Data (box x : V)]) as Hd.
        { rewrite Ho1. unfold taken. rewrite (proj2 (Nat.leb_gt m _)) by done.
          rewrite app_nil_r, !take_ge by (rewrite ?length_app in *; simpl in *; lia).
          by rewrite (assoc_L (++)), datas_snoc. }
        destruct (m <=? length (xs0 ++ pre ++ [x])) eqn:Hm'; repeat ends_step; apply Hn; simpl.
        all: split_and!; [|done|rewrite !length_app in *; simpl in *; first [apply Nat.leb_le in Hm'|apply Nat.leb_gt in Hm']; lia].
        all: unfold taken; rewrite Hm', Hd; rewrite <- ?(assoc_L (++)), ?app_nil_r; done.
    + intros count s1 (Ho1 & Ht1 & ->). repeat ends_step. split; [done|]. simpl. rewrite Ht1.
      destruct (m <=? length (xs0 ++ xs)) eqn:Hm; [apply Nat.leb_le in Hm|apply Nat.leb_gt in Hm].
      * rewrite Ho1. split; [by apply taken_nonempty|]. intros ys. by apply taken_full.
      * split; [done|]. simpl. rewrite unbox_box. simpl. lia.
Qed.

Definition taken_while (pred : S → bool) (xs : list S) : list (Msg V) :=
  let '(l, stopped) := prefix_while pred xs in datas l ++ if stopped then [Complete] else [].

Lemma prefix_while_app pred (xs ys : list S) l :
  prefix_while pred xs = (l, true) → prefix_while pred (xs ++ ys) = (l, true).
Proof.
  revert l. induction xs as [|x xs IH]; intros l; simpl; [done|]. destruct (pred x); [|done].
  destruct (prefix_while pred xs) as [l1 b] eqn:H1. intros [= <- ->]. by rewrite (IH l1).
Qed.

Lemma take_while_stream (pred : S → bool) : implements (Op.take_while pred) (taken_while pred).
Proof.
  apply (follows_implements _ _ (λ xs _, (prefix_while pred xs).2 = false)); [done..|].
  intros ctx xs0 xs s [Ho Hst] Ht Hb _. rewrite Ht in Hst. simpl. rewrite Hb.
  apply (ends_batch (taken_while pred) (λ xs _ _, (prefix_while pred xs).2 = false) _ _ _ xs0); try done.
  - intros pre x rest b s1 next Hl Ho1 Ht1 HR Hn. unfold taken_while at 1 in Hn. unfold taken_while in Ho1.
    pose proof (prefix_while_snoc pred (xs0 ++ pre) x) as Hs.
    rewrite Hs in Hn. destruct (prefix_while pred (xs0 ++ pre)) as [l st] eqn:Hp. simpl in HR. subst st.
    destruct (pred x); repeat ends_step.
    + apply Hn; [|done..]. simpl. by rewrite app_nil_r, datas_snoc, Ho1, app_nil_r.
    + assert (∀ ys, taken_while pred ((xs0 ++ xs) ++ ys) = datas l ++ [Complete]) as Hf.
      { intros ys. unfold taken_while. rewrite Hl.
        replace ((xs0 ++ pre ++ x :: rest) ++ ys) with (((xs0 ++ pre) ++ [x]) ++ rest ++ ys)
          by (by rewrite <- !(assoc_L (++))).
        by rewrite (prefix_while_app _ _ _ _ Hs). }
      split; simpl; [by rewrite <- (app_nil_r (xs0 ++ xs)), Hf, Ho1, app_nil_r|].
      split; [by destruct (os_out s1)|]. intros ys. rewrite Hf, <- (Hf []). by rewrite app_nil_r.
  - intros b s1 Ho1 Ht1 HR. repeat ends_step. split; [done|]. by rewrite Ht1.
Qed.

Definition firsts (pred : S → bool) (xs : list S) : list (Msg V) :=
  match first_match pred xs with Some x => [Data (box x); Complete] | None => [] end.

Lemma first_match_app pred (xs ys : list S) :
  first_match pred (xs ++ ys) = match first_match pred xs with Some x => Some x | None => first_match pred ys end.
Proof. unfold first_match. rewrite List.filter_app. by destruct (List.filter pred xs). Qed.

Lemma first_match_hit pred (xs0 pre rest ys : list S) x :
  first_match pred (xs0 ++ pre) = None → pred x = true →
  first_match pred ((xs0 ++ pre ++ x :: rest) ++ ys) = Some x.
Proof.
  intros Hn Hx. replace ((xs0 ++ pre ++ x :: rest) ++ ys) with ((xs0 ++ pre) ++ x :: rest ++ ys)
    by (by rewrite <- !(assoc_L (++))).
  rewrite first_match_app, Hn. unfold first_match. simpl. by rewrite Hx.
Qed.

Lemma first_match_miss pred (xs : list S) x :
  first_match pred xs = None → pred x = false → first_match pred (xs ++ [x]) = None.
Proof. intros Hn Hx. rewrite first_match_app, Hn. unfold first_match. simpl. by rewrite Hx. Qed.

Lemma first_stream (pred : S → bool) : implements (Op.first pred) (firsts pred).
Proof.
  apply (follows_implements _ _ (λ xs _, first_match pred xs = None)); [done..|].
  intros ctx xs0 xs s [Ho Hst] Ht Hb _. rewrite Ht in Hst. simpl. rewrite Hb.
  apply (ends_batch (firsts pred) (λ xs _ _, first_match pred xs = None) _ _ _ xs0); try done.
  - intros pre x rest b s1 next Hl Ho1 Ht1 HR Hn. unfold firsts in Ho1. rewrite HR in Ho1.
    destruct (pred x) eqn:Hx; repeat ends_step.
    + assert (∀ ys, firsts pred ((xs0 ++ xs) ++ ys) = [Data (box x); Complete]) as Hf.
      { intros ys. unfold firsts. rewrite Hl. by rewrite first_match_hit. }
      split; simpl; [by rewrite <- (app_nil_r (xs0 ++ xs)), Hf, Ho1|].
      split; [by destruct (os_out s1)|]. intros ys. rewrite Hf, <- (Hf []). by rewrite app_nil_r.
    + pose proof (first_match_miss pred _ x HR Hx) as Hm. apply Hn; [|done..]. unfold firsts. by rewrite Hm.
  - intros b s1 Ho1 Ht1 HR. repeat ends_step. split; [done|]. by rewrite Ht1.
Qed.

(** *** Operators that answer when the source completes *)

Lemma follows_completes op (f g : list S → list (Msg V)) st :
  f [] = [] → st [] None →
  (∀ ctx xs0 xs s, follows f st xs0 s → os_terminal s = false → batch_of ctx 0 = xs →
     ctx_terminal ctx 0 = None → ends_in (body op ctx) s (follows f st (xs0 ++ xs))) →
  (∀ ctx xs0 xs s, follows f st xs0 s → os_terminal s = false → batch_of ctx 0 = xs →
     ctx_terminal ctx 0 = Some DepComplete → ends_in (body op ctx) s (λ s', os_out s' = g (xs0 ++ xs))) →
  (∀ xs ys, f xs ≠ [] → (∀ zs, f (xs ++ zs) = f xs) → g (xs ++ ys) = f xs) →
  completing op g.
Proof.
  intros Hf Hst Hstep Hlast Hg ctxs runs ctx xs Hruns Hb Ht.
  destruct (feed_inv op (follows f st) ctxs runs) as (s & Hs & Hs1); [done..|apply follows_sealed|done|].
  unfold feed in *. rewrite foldl_app, Hs. simpl. destruct (os_terminal s) eqn:Hterm.
  - destruct Hs1 as [Ho Hr]. rewrite Hterm in Hr. destruct Hr as [Hne Hr]. simpl.
    rewrite Ho in Hne. by rewrite Hg, Ho.
  - destruct (Hlast ctx (concat runs) xs s Hs1 Hterm Hb Ht) as (s' & Hr & Ho). rewrite Hr. simpl. by rewrite Ho.
Qed.

(** The rule for an operator that is live until then. *)
Lemma live_completes op (f g : list S → list (Msg V)) (st : list S → option V → Prop) :
  f [] = [] → st [] None →
  (∀ ctx xs0 xs s, os_out s = f xs0 → os_terminal s = false → st xs0 (os_state s) → batch_of ctx 0 = xs →
     ctx_terminal ctx 0 = None →
     ends_in (body op ctx) s (λ s', os_out s' = f (xs0 ++ xs) ∧ os_terminal s' = false ∧ st (xs0 ++ xs) (os_state s'))) →
  (∀ ctx xs0 xs s, os_out s = f xs0 → os_terminal s = false → st xs0 (os_state s) → batch_of ctx 0 = xs →
     ctx_terminal ctx 0 = Some DepComplete → ends_in (body op ctx) s (λ s', os_out s' = g (xs0 ++ xs))) →
  completing op g.
Proof.
  intros Hf Hst Hstep Hlast ctxs runs ctx xs Hruns Hb Ht.
  destruct (feed_inv op (λ xs s, os_out s = f xs ∧ os_terminal s = false ∧ st xs (os_state s)) ctxs runs)
    as (s & Hs & Ho & Hterm & Hs1); [done| | |done|].
  - intros ctx1 xs0 xs1 s (?&?&?) _. by apply Hstep.
  - intros xs0 xs1 s (_&Hl&_) Hl1. by rewrite Hl in Hl1.
  - unfold feed in *. rewrite foldl_app, Hs. simpl. rewrite Hterm.
    destruct (Hlast ctx (concat runs) xs s Ho Hterm Hs1 Hb Ht) as (s' & Hr & Ho'). rewrite Hr. simpl. by rewrite Ho'.
Qed.

Definition reduced (reducer : T → S → T) (seed : T) (xs : list S) : list (Msg V) :=
  [Data (box (foldl reducer seed xs)); Complete].

Lemma reduce_stream (reducer : T → S → T) (seed : T) :
  completing (Op.reduce reducer seed) (reduced reducer seed).
Proof.
  apply (follows_completes _ (λ _, []) _ (λ xs st, default seed (st ≫= unbox) = foldl reducer seed xs)).
  1, 2: done.
  - intros ctx xs0 xs s [Ho Hst] Ht Hb Hc. rewrite Ht in Hst. simpl. rewrite Hc. simpl. repeat ends_step.
    split; [done|]. simpl. rewrite Ht. simpl. by rewrite unbox_box, Hst, Hb, foldl_app.
  - intros ctx xs0 xs s [Ho Hst] Ht Hb Hc. rewrite Ht in Hst. simpl. rewrite Hc. simpl. repeat ends_step.
    simpl. rewrite Ho, Hst, Hb. unfold reduced. by rewrite foldl_app.
  - intros xs ys Hne. by destruct Hne.
Qed.

Definition lasts (pred : S → bool) (xs : list S) : list (Msg V) :=
  match last_match pred xs with Some x => [Data (box x); Complete] | None => [Complete] end.

Lemma last_match_snoc pred (xs : list S) x :
  last_match pred (xs ++ [x]) = if pred x then Some x else last_match pred xs.
Proof.
  unfold last_match. rewrite filter_snoc. destruct (pred x); [apply last_snoc|by rewrite app_nil_r].
Qed.

Lemma last_stream (pred : S → bool) : completing (Op.last pred) (lasts pred).
Proof.
  assert (∀ ctx xs0 xs s k (Q : OpState V → Prop),
    os_out s = [] → os_terminal s = false → os_state s ≫= unbox = last_match pred xs0 →
    (∀ s, os_out s = [] → os_terminal s = false → os_state s ≫= unbox = last_match pred (xs0 ++ xs) →
       ends_in k s Q) → batch_of ctx 0 = xs →
    ends_in (for_in (batch_of ctx 0) tt
      (λ _ (x : S) next, if pred x then state_set x (next tt) else next tt) (λ _, k)) s Q) as Hloop.
  { intros ctx xs0 xs s k Q Ho Ht Hs Hk ->.
    apply (ends_batch (λ _, []) (λ xs _ st, st ≫= unbox = last_match pred xs) _ _ _ xs0); try done.
    intros pre x rest b s1 next _ Ho1 Ht1 HR Hn. rewrite last_match_snoc in Hn.
    destruct (pred x); repeat ends_step; apply Hn; try done. simpl. by rewrite unbox_box. }
  apply (follows_completes _ (λ _, []) _ (λ xs st, st ≫= unbox = last_match pred xs)).
  1, 2: done.
  3: by intros xs ys Hne; destruct Hne.
  all: intros ctx xs0 xs s [Ho Hst] Ht Hb Hc; rewrite Ht in Hst; simpl; rewrite Hc; simpl.
  all: apply (Hloop _ xs0 xs); [done..| |done]; intros s1 Ho1 Ht1 Hs1.
  - repeat ends_step. split; [done|]. by rewrite Ht1.
  - ends_step. unfold lasts. rewrite Hs1. destruct (last_match pred (xs0 ++ xs)); repeat ends_step; simpl.
    all: by rewrite Ho1.
Qed.

Definition found (pred : S → bool) (xs : list S) : list (Msg V) :=
  match first_match pred xs with Some x => [Data (box x); Complete] | None => [Complete] end.

Lemma find_stream (pred : S → bool) : completing (Op.find pred) (found pred).
Proof.
  assert (∀ xs ys x, first_match pred xs = Some x → found pred (xs ++ ys) = [Data (box x); Complete]) as Hf.
  { intros xs ys x Hx. unfold found. by rewrite first_match_app, Hx. }
  apply (follows_completes _ (firsts pred) _ (λ xs _, first_match pred xs = None)); [done..| | |].
  3:{ intros xs ys. unfold firsts at 1 2. destruct (first_match pred xs) as [x|] eqn:Hx; [|done].
      intros _ _. unfold firsts. rewrite Hx. by apply Hf. }
  all: intros ctx xs0 xs s [Ho Hst] Ht Hb Hc; rewrite Ht in Hst; simpl; rewrite Hc, Hb; simpl.
  all: apply (ends_batch (firsts pred) (λ xs _ _, first_match pred xs = None) _ _ _ xs0); try done.
  1, 3: intros pre x rest b s1 next Hl Ho1 Ht1 HR Hn; unfold firsts in Ho1; rewrite HR in Ho1;
    destruct (pred x) eqn:Hx; repeat ends_step;
    [|pose proof (first_match_miss pred _ x HR Hx) as Hm; apply Hn; [|done..]; unfold firsts; by rewrite Hm].
  - assert (∀ ys, firsts pred ((xs0 ++ xs) ++ ys) = [Data (box x); Complete]) as Hfs.
    { intros ys. unfold firsts. rewrite Hl. by rewrite first_match_hit. }
    split; simpl; [by rewrite <- (app_nil_r (xs0 ++ xs)), Hfs, Ho1|]. rewrite Ho1. split; [done|].
    intros ys. rewrite Hfs, <- (Hfs []). by rewrite app_nil_r.
  - simpl. rewrite Ho1. unfold found. rewrite Hl, <- (app_nil_r (xs0 ++ _)). by rewrite first_match_hit.
  - intros b s1 Ho1 Ht1 HR. repeat ends_step. split; [done|]. by rewrite Ht1.
  - intros b s1 Ho1 Ht1 HR. repeat ends_step. simpl. rewrite Ho1. unfold firsts, found. by rewrite HR.
Qed.

(** The value at [index], and the count of the values before it. *)
Definition elem (index : nat) (xs : list S) : list (Msg V) :=
  match xs !! index with Some x => [Data (box x); Complete] | None => [] end.
Definition elem_or_end (index : nat) (xs : list S) : list (Msg V) :=
  match xs !! index with Some x => [Data (box x); Complete] | None => [Complete] end.

Lemma elem_hit index (xs0 pre rest ys : list S) x :
  length (xs0 ++ pre) = index → ((xs0 ++ pre ++ x :: rest) ++ ys) !! index = Some x.
Proof.
  intros <-. replace ((xs0 ++ pre ++ x :: rest) ++ ys) with ((xs0 ++ pre) ++ x :: rest ++ ys)
    by (by rewrite <- !(assoc_L (++))).
  by apply list_lookup_middle.
Qed.

Lemma element_at_stream index :
  completing (Op.element_at (S := S) index) (elem_or_end index).
Proof.
  apply (follows_completes _ (elem index) _ (λ xs st, length xs ≤ index ∧ default 0 (st ≫= unbox) = length xs)).
  1: done.
  1: by split; [simpl; lia|].
  3:{ intros xs ys. unfold elem, elem_or_end. destruct (xs !! index) as [x|] eqn:Hx; [|done].
      intros _ _. by rewrite (lookup_app_l_Some _ _ _ _ Hx). }
  all: intros ctx xs0 xs s [Ho Hst] Ht Hb Hc; rewrite Ht in Hst; destruct Hst as [Hle Hst].
  all: simpl; rewrite Hc, Hb; simpl; ends_step; rewrite Hst.
  all: apply (ends_batch (elem index) (λ xs c _, length xs ≤ index ∧ c = length xs) _ _ _ xs0); try done.
  1, 3: intros pre x rest c s1 next Hl Ho1 Ht1 [Hle1 ->] Hn; unfold elem in Ho1;
    rewrite lookup_ge_None_2 in Ho1 by done;
    destruct (Nat.eqb_spec (length (xs0 ++ pre)) index) as [Hx|Hx]; repeat ends_step;
    [|apply Hn; [unfold elem; rewrite lookup_ge_None_2; [done|]|done|split]; rewrite ?length_app in *; simpl in *; lia].
  - assert (∀ ys, elem index ((xs0 ++ xs) ++ ys) = [Data (box x); Complete]) as Hfs.
    { intros ys. unfold elem. rewrite Hl. by rewrite elem_hit. }
    split; simpl; [by rewrite <- (app_nil_r (xs0 ++ xs)), Hfs, Ho1|]. rewrite Ho1. split; [done|].
    intros ys. rewrite Hfs, <- (Hfs []). by rewrite app_nil_r.
  - simpl. rewrite Ho1. unfold elem_or_end. rewrite Hl, <- (app_nil_r (xs0 ++ _)). by rewrite elem_hit.
  - intros c s1 Ho1 Ht1 [Hle1 ->]. repeat ends_step. split; [done|]. simpl. rewrite Ht1. simpl.
    by rewrite unbox_box.
  - intros c s1 Ho1 Ht1 [Hle1 ->]. repeat ends_step. simpl. rewrite Ho1. unfold elem, elem_or_end.
    by rewrite lookup_ge_None_2.
Qed.
End Ops.
End Streams.
