(* ===== verification/CombinatorFacts.v ===== *)
(** * What the combinators compute

    [buffer_count] as the other completing operators of [OperatorFacts], and
    [zip] over any number of deps: the [k]-th tuple holds the [k]-th value of
    every dep, however the values were grouped into runs. *)

From stdpp Require Import base option strings numbers list.
From S2P Require Import Prelude Protocol Dispatcher Versioning Arena NodeState Operators Combinators OperatorFacts.

Local Open Scope nat_scope.

Section Combinators.
Context {V S : Type} `{!Boxed V S, !Boxed V (list S)}.
Implicit Types s : OpState V.

(** *** [buffer_count] *)

(** The full chunks of [count] values, and what is left. *)
Definition chunk1 (count : nat) (st : list (list S) * list S) (x : S) : list (list S) * list S :=
  let '(full, buf) := st in
  if count <=? length (buf ++ [x]) then (full ++ [buf ++ [x]], []) else (full, buf ++ [x]).
Definition chunks (count : nat) (xs : list S) : list (list S) * list S := foldl (chunk1 count) ([], []) xs.

Lemma chunks_snoc count xs x : chunks count (xs ++ [x]) = chunk1 count (chunks count xs) x.
Proof. unfold chunks. by rewrite foldl_app. Qed.

(** The chunks are the values, in order, [count] at a time. *)
Lemma chunks_spec count xs :
  0 < count →
  let '(full, buf) := chunks count xs in
  xs = concat full ++ buf ∧ Forall (λ c, length c = count) full ∧ length buf < count.
Proof.
  intros Hc. induction xs as [|x xs IH] using rev_ind; [by repeat constructor|].
  rewrite chunks_snoc. destruct (chunks count xs) as [full buf]. destruct IH as (-> & Hf & Hb). simpl.
  rewrite length_app. simpl. destruct (Nat.leb_spec count (length buf + 1)).
  - rewrite concat_app. simpl. rewrite !app_nil_r, <- (assoc_L (++)). split_and!; [done| |lia].
    apply Forall_app. split; [done|]. constructor; [|done]. rewrite length_app. simpl. lia.
  - rewrite <- (assoc_L (++)). split_and!; [done|done|rewrite length_app; simpl; lia].
Qed.

Definition buffered (count : nat) (xs : list S) : list (Msg V) :=
  let '(full, buf) := chunks count xs in
  datas full ++ (match buf with [] => [] | _ => [Data (box buf)] end) ++ [Complete].

Lemma buffer_count_stream count :
  completing (Comb.buffer_count (T := S) count) (buffered count).
Proof.
  apply (live_completes _ (λ xs, datas (chunks count xs).1) _
           (λ xs st, default [] (st ≫= unbox) = (chunks count xs).2)).
  1, 2: done.
  all: intros ctx xs0 xs s Ho Ht Hst Hb Hc; simpl; rewrite Hc, Hb; simpl; ends_step; rewrite Hst.
  all: apply (ends_batch (λ xs, datas (chunks count xs).1) (λ xs buf _, buf = (chunks count xs).2) _ _ _ xs0);
    try done.
  1, 3: intros pre x rest buf s1 next _ Ho1 Ht1 -> Hn; rewrite chunks_snoc in Hn;
    destruct (chunks count (xs0 ++ pre)) as [full buf]; simpl in *;
    destruct (count <=? length (buf ++ [x])); repeat ends_step; apply Hn; try done;
    simpl; by rewrite datas_snoc, Ho1.
  - intros buf s1 Ho1 Ht1 ->. repeat ends_step. split_and!; [done|done|]. simpl. by rewrite unbox_box.
  - intros buf s1 Ho1 Ht1 ->. unfold buffered. destruct (chunks count (xs0 ++ xs)) as [full buf]. simpl in *.
    destruct buf; repeat ends_step; unfold send; simpl; rewrite ?Ht1; simpl; rewrite Ho1;
      by rewrite <- ?(assoc_L (++)).
Qed.
(** *** [zip] *)

(** The values every dep has delivered; the [k]-th values make the [k]-th tuple. *)
Definition add_run (cols run : list (list S)) : list (list S) := zip_with (++) cols run.
Definition shortest (cols : list (list S)) : nat :=
  match cols with [] => 0 | c :: cols => foldr (λ c m, min (length c) m) (length c) cols end.
Definition tuple (cols : list (list S)) (k : nat) : list S := omap (λ c, c !! k) cols.
Definition tuples (cols : list (list S)) : list (list S) := tuple cols <$> seq 0 (shortest cols).

(** The runs of a live [zip] over [n] deps. *)
Definition zip_runs (n : nat) (ctxs : list (Ctx V)) (runs : list (list (list S))) : Prop :=
  Forall2 (λ ctx run, ctx_dep_len ctx = n ∧ length run = n
             ∧ ∀ i, i < n → run !! i = Some (batch_of ctx i) ∧ ctx_terminal ctx i = None) ctxs runs.

Lemma shortest_lt cols k : k < shortest cols ↔ cols ≠ [] ∧ Forall (λ c, k < length c) cols.
Proof.
  destruct cols as [|c cols]; simpl; [split; [lia|by intros []]|].
  rewrite Forall_cons. trans (k < length c ∧ Forall (λ c, k < length c) cols); [|by split; [intros [? ?]|intros [_ [? ?]]]].
  induction cols as [|d cols IH]; simpl.
  - split; [by split|by intros []].
  - rewrite Forall_cons. rewrite Nat.min_glb_lt_iff, IH. split; [intros (?&?&?)|intros (?&?&?)]; done.
Qed.

Lemma pop_fronts_drop cols m :
  cols ≠ [] →
  Comb.pop_fronts (drop m <$> cols)
  = if decide (m < shortest cols) then Some (tuple cols m, drop (Datatypes.S m) <$> cols) else None.
Proof.
  intros Hne. unfold Comb.pop_fronts.
  assert (forallb (λ q : list S, match q with [] => false | _ => true end) (drop m <$> cols)
          = bool_decide (Forall (λ c, m < length c) cols)) as Hb.
  { clear Hne. induction cols as [|c cols IH]; [done|]. csimpl. rewrite IH.
    destruct (drop m c) as [|x l] eqn:Hd; pose proof (f_equal length Hd) as Hl; rewrite length_drop in Hl; simpl in *.
    - rewrite bool_decide_eq_false_2; [done|]. intros H%Forall_cons. lia.
    - apply bool_decide_ext. rewrite Forall_cons. intuition lia. }
  rewrite Hb. clear Hb.
  destruct (decide _) as [Hm|Hm].
  - apply shortest_lt in Hm as [_ Hm]. rewrite bool_decide_eq_true_2 by done. f_equal. f_equal.
    + unfold tuple. clear Hne. induction Hm as [|c cols Hc _ IH]; [done|]. csimpl. rewrite IH.
      by rewrite head_lookup, lookup_drop, Nat.add_0_r.
    + rewrite <- list_fmap_compose. apply list_fmap_ext. intros i c _. simpl.
      rewrite <- Nat.add_1_r, <- drop_drop. by destruct (drop m c).
  - rewrite bool_decide_eq_false_2; [done|]. intros H. by apply Hm, shortest_lt.
Qed.

(** The loop emits the tuples from [m] on. *)
Lemma zip_loop_ends cols fuel m k s (Q : OpState V → Prop) :
  cols ≠ [] → shortest cols - m < fuel → m ≤ shortest cols → os_terminal s = false →
  (∀ s', os_out s' = os_out s ++ datas (tuple cols <$> seq m (shortest cols - m)) →
     os_terminal s' = false → os_state s' = os_state s →
     ends_in (k (drop (shortest cols) <$> cols)) s' Q) →
  ends_in (Comb.zip_loop fuel (drop m <$> cols) k) s Q.
Proof.
  intros Hne. revert m s. induction fuel as [|fuel IH]; intros m s Hf Hm Ht Hk; [lia|]. simpl.
  rewrite pop_fronts_drop by done. destruct (decide _) as [Hlt|Hge].
  - repeat ends_step. apply IH; [lia..|done|]. simpl. intros s' Ho Ht' Hs'. apply Hk; [|done..].
    rewrite Ho, <- (assoc_L (++)). f_equal.
    replace (shortest cols - m) with (Datatypes.S (shortest cols - Datatypes.S m)) by lia. done.
  - replace m with (shortest cols) by lia. apply Hk; [|done..].
    replace (shortest cols - m) with 0 by lia. by rewrite app_nil_r.
Qed.

Lemma shortest_add_run cols run : length run = length cols → shortest cols ≤ shortest (add_run cols run).
Proof.
  intros Hl. destruct (decide (shortest cols ≤ shortest (add_run cols run))) as [?|H]; [done|]. exfalso.
  apply Nat.nle_gt, shortest_lt in H as [Hne H].
  assert (shortest (add_run cols run) < shortest (add_run cols run)) as Hlt; [|lia].
  apply shortest_lt. split; [by destruct cols, run|]. unfold add_run in H |- *.
  apply Forall_lookup_2. intros i c Hc. apply lookup_zip_with_Some in Hc as (x & y & -> & Hx & _).
  rewrite Forall_lookup in H. apply H in Hx. rewrite length_app. lia.
Qed.

Lemma tuple_add_run cols run k :
  length run = length cols → k < shortest cols → tuple (add_run cols run) k = tuple cols k.
Proof.
  intros Hl [_ Hk]%shortest_lt. unfold tuple, add_run. revert run Hl.
  induction Hk as [|c cols Hc _ IH]; intros [|r run] Hl; try done. simpl in *. rewrite IH by lia.
  by rewrite lookup_app_l by done.
Qed.

Lemma tuples_add_run cols run :
  length run = length cols →
  tuples (add_run cols run)
  = tuples cols ++ (tuple (add_run cols run) <$> seq (shortest cols) (shortest (add_run cols run) - shortest cols)).
Proof.
  intros Hl. pose proof (shortest_add_run cols run Hl) as Hle. unfold tuples.
  replace (shortest (add_run cols run))
    with (shortest cols + (shortest (add_run cols run) - shortest cols)) at 1 by lia.
  rewrite seq_app, fmap_app. f_equal. apply list_fmap_ext. intros i k Hk. simpl.
  apply lookup_seq in Hk as [-> Hk]. by apply tuple_add_run.
Qed.

Lemma drop_add_run m cols run :
  length run = length cols → cols ≠ [] → m ≤ shortest cols →
  zip_with (++) (drop m <$> cols) run = drop m <$> add_run cols run.
Proof.
  intros Hl Hne Hm. apply list_eq. intros i. unfold add_run.
  rewrite list_lookup_fmap, !lookup_zip_with, list_lookup_fmap.
  destruct (cols !! i) as [c|] eqn:Hc; [|done]. simpl. destruct (run !! i) as [r|]; [|done]. simpl.
  destruct (decide (m = 0)) as [->|H0]; [by rewrite !drop_0|].
  assert (m - 1 < shortest cols) as [_ Hf]%shortest_lt by lia.
  rewrite Forall_lookup in Hf. apply Hf in Hc. by rewrite drop_app_le by lia.
Qed.

Lemma zip_take_in_live ctx n (run : list (list S)) st :
  length run = n → length (Comb.queues st) = n →
  (∀ i, i < n → run !! i = Some (batch_of ctx i) ∧ ctx_terminal ctx i = None) →
  Comb.zip_take_in ctx n st = Comb.mkZipState (zip_with (++) (Comb.queues st) run) (Comb.complete st).
Proof.
  intros Hr Hq Hctx. unfold Comb.zip_take_in.
  cut (∀ k, k ≤ n →
    let st' := foldl (λ st i,
      Comb.mkZipState (alter (λ q : list S, q ++ batch_of ctx i) i (Comb.queues st))
        (if is_complete (ctx_terminal ctx i) then <[i := true]> (Comb.complete st) else Comb.complete st))
      st (seq 0 k) in
    Comb.complete st' = Comb.complete st ∧
    ∀ i, Comb.queues st' !! i
         = if decide (i < k) then zip_with (++) (Comb.queues st) run !! i else Comb.queues st !! i).
  { intros Hc. destruct (Hc n (le_n _)) as [Hc1 Hc2]. destruct (foldl _ _ _) as [qs cs]. simpl in *. subst cs.
    f_equal. apply list_eq. intros i. rewrite Hc2. destruct (decide _); [done|].
    rewrite lookup_zip_with, !lookup_ge_None_2 by lia. done. }
  intros k. induction k as [|k IH]; intros Hk; [done|]. rewrite seq_S, foldl_app. simpl.
  destruct IH as [IH1 IH2]; [lia|]. destruct (Hctx k) as [Hb Ht]; [lia|]. rewrite Ht. simpl. split; [done|].
  intros i. destruct (decide (i = k)) as [->|Hi].
  - rewrite list_lookup_alter_eq, IH2. rewrite decide_False, decide_True by lia.
    by rewrite lookup_zip_with, Hb; destruct (Comb.queues st !! k).
  - rewrite list_lookup_alter_ne by done. rewrite IH2.
    destruct (decide (i < k)), (decide (i < Datatypes.S k)); try lia; done.
Qed.

Lemma not_complete qs n : Comb.zip_should_complete (Comb.mkZipState (T := S) qs (replicate n false)) = false.
Proof.
  unfold Comb.zip_should_complete. simpl. apply not_true_is_false. intros H.
  apply existsb_exists in H as ([i b] & Hin & Hb). apply list_elem_of_In, elem_of_lookup_imap in Hin as (j & c & [= <- <-] & Hl).
  apply lookup_replicate in Hl as [-> _]. done.
Qed.

Context `{!Boxed V (Comb.ZipState S)}.

(** One run of [zip] over live deps. *)
Lemma zip_step n ctx run cols s :
  n ≠ 0 → length cols = n → os_out s = datas (tuples cols) → os_terminal s = false →
  default (Comb.mkZipState (replicate n []) (replicate n false)) (os_state s ≫= unbox)
    = Comb.mkZipState (drop (shortest cols) <$> cols) (replicate n false) →
  ctx_dep_len ctx = n → length run = n →
  (∀ i, i < n → run !! i = Some (batch_of ctx i) ∧ ctx_terminal ctx i = None) →
  ends_in (body (Comb.zip (T := S)) ctx) s (λ s',
    let cols := add_run cols run in
    os_out s' = datas (tuples cols) ∧ os_terminal s' = false ∧
    os_state s' ≫= unbox = Some (Comb.mkZipState (drop (shortest cols) <$> cols) (replicate n false))).
Proof.
  intros Hn Hc Ho Ht Hst Hlen Hr Hctx. simpl. rewrite Hlen, (proj2 (Nat.eqb_neq n 0)) by done.
  ends_step. rewrite Hst. simpl. rewrite length_fmap, Hc, Nat.eqb_refl.
  rewrite (zip_take_in_live ctx n run) by (simpl; rewrite ?length_fmap; done). simpl.
  assert (cols ≠ []) as Hne by (by destruct cols).
  rewrite drop_add_run by (done || lia).
  assert (add_run cols run ≠ []) as Hne2 by (unfold add_run; destruct cols, run; done).
  apply zip_loop_ends; [done| |by apply shortest_add_run; lia|done|].
  - clear -Hne2. set (l := add_run cols run) in *. generalize (shortest cols) as m. intros m. clearbody l.
    destruct l as [|c l]; [done|]. csimpl. rewrite length_drop.
    assert (∀ k, foldr (λ c m, min (length c) m) k l ≤ k) as H by (clear; intros k; induction l; simpl; lia).
    specialize (H (length c)). lia.
  - intros s1 Ho1 Ht1 Hs1. repeat ends_step. rewrite not_complete. ends_step.
    split_and!; [|done|simpl; by rewrite unbox_box]. simpl. rewrite Ho1, Ho.
    rewrite tuples_add_run by lia. unfold datas. by rewrite fmap_app.
Qed.

Lemma feed1_step (op : Operator V) ctx s s' :
  os_terminal s = false → run_body (body op ctx) s = Some s' → feed1 op (Some s) ctx = Some s'.
Proof. intros Ht Hr. simpl. by rewrite Ht. Qed.

Lemma zip_stream n ctxs runs :
  n ≠ 0 → zip_runs n ctxs runs →
  emitted (feed (Comb.zip (T := S)) ctxs) = Some (datas (tuples (foldl add_run (replicate n []) runs))).
Proof.
  intros Hn Hruns. unfold feed.
  cut (∀ cols s, length cols = n → os_out s = datas (tuples cols) → os_terminal s = false →
    default (Comb.mkZipState (replicate n []) (replicate n false)) (os_state s ≫= unbox)
      = Comb.mkZipState (drop (shortest cols) <$> cols) (replicate n false) →
    emitted (foldl (feed1 (Comb.zip (T := S))) (Some s) ctxs) = Some (datas (tuples (foldl add_run cols runs)))).
  { intros Hc. apply Hc; [by rewrite length_replicate| |done|].
    - destruct n as [|n]; [done|]. simpl. unfold tuples. simpl.
      assert (foldr (λ (c : list S) m, min (length c) m) 0 (replicate n []) = 0) as H
        by (clear; induction n; simpl; lia).
      by rewrite H.
    - simpl. f_equal. by rewrite fmap_replicate, drop_nil. }
  induction Hruns as [|ctx run ctxs runs (Hl & Hr & Hctx) _ IH]; intros cols s Hc Ho Ht Hst.
  - simpl. by rewrite Ho.
  - destruct (zip_step n ctx run cols s) as (s1 & Hs1 & Ho1 & Ht1 & Hst1); [done..|].
    cbn [foldl]. rewrite (feed1_step _ _ _ _ Ht Hs1). apply IH; [|done..|by rewrite Hst1].
    unfold add_run. rewrite length_zip_with. lia.
Qed.
End Combinators.
