(* ===== verification/OperatorRun.v ===== *)
(** * The engine runs an operator body as [run_body] does

    [run_body] of [OperatorFacts] is the abstract run of a body.  Here the
    interpreter of [Engine] runs the same program on a node inside its own run:
    it emits the same messages in the same order to every subscriber, leaves
    the same state, and the node is terminal in the same cases. *)

From stdpp Require Import base option strings numbers sets gmap relations list.
From S2P Require Import Prelude Protocol Dispatcher Versioning Arena NodeState Receive NodeInv.
From S2P Require Import Rewire RewireFacts Engine EngineLogic EngineInv EngineQuiet EngineSpec.
From S2P Require Import Operators Combinators OperatorFacts CombinatorFacts.

Local Open Scope Z_scope.
Local Open Scope rx_scope.

Section OperatorRun.
Context {V : Type} `{!CanonicalData V} (uc : UserCode V).
Implicit Types w : World V.
Implicit Types n : NodeSlot V.

(** A node in its run, as [guarded_invoke] leaves it for the body: not paused,
    not a pull node, watched by observers, under a delivery scope or with
    nothing deferred. *)
Record running (c : Core) w n : Prop := {
  ru_node : get_node w c = Some n;
  ru_inside : inside_run_wave (n_wave n) = true;
  ru_owed : pull_dirty_owed (n_aux n) = false;
  ru_paused : paused n = false;
  ru_pull : cfg_pull_id (n_config n) = None;
  ru_pool : match handle (n_call n) with
            | Some h => is_some (Dispatcher.pool_kind (w_disp w) (pool_id h)) = true
            | None => True
            end;
  ru_observers : Forall (observer uc) (snapshot_subscribers n);
  ru_calm : (0 < w_delivery_depth w)%nat ∨ w_deferred_actions w = []
}.

Definition values (msgs : Wave V) : list V := omap (λ m, match m with Data v => Some v | _ => None end) msgs.

(** What the ghost log records of the emission of one message. *)
Definition events (c : Core) n (m : Msg V) : list (Event V) :=
  EvEmit c m :: (sink_event m <$> snapshot_subscribers n).

(** What a run leaves alone, and what [os_state], [os_terminal] stand for. *)
Record same_node n n' : Prop := {
  sn_subs : snapshot_subscribers n' = snapshot_subscribers n;
  sn_policy : vs_policy (n_version n') = vs_policy (n_version n);
  sn_call : n_call n' = n_call n;
  sn_inside : inside_run_wave (n_wave n') = inside_run_wave (n_wave n);
  sn_paused : paused n' = paused n;
  sn_config : n_config n' = n_config n;
  sn_owed : pull_dirty_owed (n_aux n) = false → pull_dirty_owed (n_aux n') = false
}.

#[local] Instance same_node_po : PreOrder same_node.
Proof. split; [by split|]. intros n1 n2 n3 [] []. split; try congruence. tauto. Qed.

Lemma running_update c w n f :
  running c w n → same_node n (f n) → running c (upd_node c f w) (f n).
Proof.
  intros [Hn ? ? ? ? Hp ? ?] []. split; try congruence; [by rewrite get_node_upd_same, Hn|tauto| |done].
  by rewrite sn_call0.
Qed.

Lemma running_frame c w w' n :
  running c w n → get_node w' c = get_node w c → w_disp w' = w_disp w →
  ((0 < w_delivery_depth w')%nat ∨ w_deferred_actions w' = []) → running c w' n.
Proof. intros [Hn ? ? ? ? Hp ? ?] Hg Hd Hc. split; try done; by rewrite ?Hg, ?Hd. Qed.

Lemma running_async c w n : running c w n → ∃ b, is_async_node c w = Ret b w.
Proof.
  intros [Hn _ _ _ _ Hp _ _]. unfold is_async_node. rewrite (bind_ret _ _ _ _ _ (node_run _ _ _ Hn)).
  unfold bind, gets. destruct (handle (n_call n)); [|by eexists].
  destruct (Dispatcher.pool_kind _ _); [by eexists|done].
Qed.

(** ** One message *)

Definition absorbed (m : Msg V) (nv : option NodeVersion) n : NodeSlot V := (collect_down m nv n).1.

Definition plain_msg (m : Msg V) : bool :=
  match m with Data _ | Complete | Error _ => true | _ => false end.

Lemma absorbed_same m nv n : plain_msg m = true → same_node n (absorbed m nv n).
Proof. destruct m; try done; intros _; unfold absorbed; simpl; try case_match; by split. Qed.

Lemma absorbed_terminal m nv n :
  plain_msg m = true → v_terminal (n_value n) = false →
  v_terminal (n_value (absorbed m nv n)) = is_terminal_msg m.
Proof. destruct m; try done; intros _ Ht; unfold absorbed; simpl; rewrite ?Ht; done. Qed.

Lemma absorbed_state m nv n : plain_msg m = true → a_state (n_aux (absorbed m nv n)) = a_state (n_aux n).
Proof. destruct m; try done; intros _; unfold absorbed; simpl; by repeat case_match. Qed.

Lemma absorbed_version m nv n :
  plain_msg m = true → v_terminal (n_value n) = false →
  vs_value (n_version (absorbed m nv n)) = match m with Data _ => nv | _ => vs_value (n_version n) end.
Proof. destruct m; try done; intros _ Ht; unfold absorbed; simpl; by rewrite ?Ht. Qed.

Lemma emit_plain fuel c m nv n w :
  get_node w c = Some n → v_terminal (n_value n) = false → plain_msg m = true →
  next_version_for n m w = Ret nv w → Forall (observer uc) (snapshot_subscribers n) →
  emit_message uc (exec uc (S fuel)) c m w
  = Ret tt (append_log (events c n m) (upd_node c (λ _, absorbed m nv n) w)).
Proof.
  intros Hn Ht Hp Hv Hs. unfold emit_message, collect_down_action.
  assert ((collect_down m nv n).2 = Some (DownEmit m (snapshot_subscribers n))) as Ha
    by (destruct m; simpl in *; rewrite ?Ht; done).
  rewrite (bind_ret _ _ w (Some (DownEmit m (snapshot_subscribers n)))
    (append_log [EvEmit c m] (upd_node c (λ _, absorbed m nv n) w))).
  - cbn [apply_down_action]. rewrite deliver_observers by done. by rewrite append_log_app.
  - rewrite (bind_ret _ _ _ _ _ (node_run _ _ _ Hn)), (bind_ret _ _ _ _ _ Hv).
    unfold commit_down. rewrite (bind_ret _ _ _ _ _ (with_slot_run c _ n w Hn)), Ha. done.
Qed.

(** ** A wave *)

(** Plain messages, a terminal only at the end. *)
Fixpoint plain_msgs (msgs : Wave V) : bool :=
  match msgs with
  | [] => true
  | m :: msgs => plain_msg m && (negb (is_terminal_msg m) || is_nil msgs) && plain_msgs msgs
  end.

Lemma plain_wave_msgs (msgs : Wave V) : plain_wave msgs = true → plain_msgs msgs = true ∧ shape_wave msgs = msgs
  ∧ tier3_exclusive msgs = true.
Proof. destruct msgs as [|[] [|[] []]]; try done; by intros _. Qed.

(** What a wave does to the node: the messages, and the versions they advance. *)
Record sent (c : Core) (msgs : Wave V) (nv : option NodeVersion) w n w' n' : Prop := {
  se_running : running c w' n';
  se_same : same_node n n';
  se_state : a_state (n_aux n') = a_state (n_aux n);
  se_terminal : v_terminal (n_value n') = v_terminal (n_value n) || ends_stream msgs;
  se_version : vs_value (n_version n') = nv;
  se_log : w_log w' = w_log w ++ (msgs ≫= events c n);
  se_frame : w_delivery_depth w' = w_delivery_depth w ∧ w_deferred_actions w' = w_deferred_actions w
}.

Lemma emit_msgs fuel c msgs nv w n :
  running c w n → v_terminal (n_value n) = false → plain_msgs msgs = true →
  advance_all (vs_policy (n_version n)) (vs_value (n_version n)) (values msgs) = inr nv →
  ∃ w' n', for_each msgs (emit_message uc (exec uc (S fuel)) c) w = Ret tt w' ∧ sent c msgs nv w n w' n'.
Proof.
  revert w n. induction msgs as [|m msgs IH]; intros w n Hr Ht Hp Hv.
  - exists w, n. split; [done|]. simpl in Hv. simplify_eq. split; try done; [by rewrite orb_false_r|].
    by rewrite app_nil_r.
  - simpl in Hp. apply andb_true_iff in Hp as [[Hm Hlast]%andb_true_iff Hp].
    assert (∃ nv1, next_version_for n m w = Ret nv1 w
      ∧ (let nv2 := match m with Data _ => nv1 | _ => vs_value (n_version n) end in
         advance_all (vs_policy (n_version n)) nv2 (values msgs) = inr nv)) as (nv1 & Hv1 & Hv2).
    { destruct m; try done; simpl in Hv |- *; [|by eexists..].
      destruct (advance_node_version _ _ _) as [|nv1]; [done|]. by exists nv1. }
    pose proof (emit_plain fuel c m nv1 n w (ru_node _ _ _ Hr) Ht Hm Hv1 (ru_observers _ _ _ Hr)) as He.
    pose proof (absorbed_same m nv1 n Hm) as Hsame.
    set (n1 := absorbed m nv1 n) in *. set (w1 := append_log _ _) in *.
    assert (running c w1 n1) as Hr1.
    { apply (running_frame c (upd_node c (λ _, n1) w)); [by apply (running_update c w n (λ _, n1))|done..|].
      apply (ru_calm _ _ _ Hr). }
    cbn [for_each]. rewrite (bind_ret _ _ _ _ _ He).
    destruct (is_terminal_msg m) eqn:Hterm; simpl in Hlast.
    + destruct msgs; [|done]. exists w1, n1. split; [done|]. split; try done.
      * by apply absorbed_state.
      * unfold n1. rewrite absorbed_terminal by done. rewrite Ht. simpl. by rewrite Hterm.
      * unfold n1. rewrite absorbed_version by done. simpl in Hv2. congruence.
      * cbn [mbind list_bind]. by rewrite app_nil_r.
    + destruct (IH w1 n1) as (w2 & n2 & He2 & [Hr2 Hs2 Ha2 Ht2 Hv2' Hl2 Hf2]); [done| |done| |].
      * unfold n1. by rewrite absorbed_terminal.
      * unfold n1 at 2. rewrite absorbed_version by done. by rewrite (sn_policy _ _ Hsame).
      * exists w2, n2. split; [done|]. split; try done.
        -- by etrans.
        -- rewrite Ha2. by apply absorbed_state.
        -- rewrite Ht2. unfold n1. rewrite absorbed_terminal by done. rewrite Ht. simpl. by rewrite Hterm.
        -- rewrite Hl2. cbn [mbind list_bind]. change (w_log w1) with (w_log w ++ events c n m).
           rewrite <- (assoc_L (++)). f_equal. f_equal. unfold events. by rewrite (sn_subs _ _ Hsame).
Qed.

Lemma version_compatible p cur (v : V) nv :
  advance_node_version cur p v = inr nv → assert_node_version_data_compatible p v = inr tt.
Proof.
  destruct p; try done. simpl. unfold hash_node_data. destruct (next_counter cur); [done|]. destruct (data_bytes v); done.
Qed.

Lemma assert_versions_advance n msgs nv w cur :
  advance_all (vs_policy (n_version n)) cur (values msgs) = inr nv → assert_versions n msgs w = Ret tt w.
Proof.
  unfold assert_versions. revert cur. induction msgs as [|m msgs IH]; intros cur Hv; [done|]. cbn [for_each].
  rewrite (bind_ret _ _ w tt w).
  - destruct m; try (by apply (IH cur)). simpl in Hv. destruct (advance_node_version _ _ _) as [|nv1]; [done|].
    by apply (IH nv1).
  - destruct m; try done. simpl in Hv. destruct (advance_node_version _ _ _) as [|nv1] eqn:Ha; [done|].
    by rewrite (version_compatible _ _ _ _ Ha).
Qed.

Lemma pin_once_rest (c : Core) w :
  w_log (pin_once c w) = w_log w ∧ w_disp (pin_once c w) = w_disp w
  ∧ w_deferred_actions (pin_once c w) = w_deferred_actions w
  ∧ w_delivery_depth (pin_once c w) = w_delivery_depth w.
Proof. unfold pin_once. by repeat case_match. Qed.

(** [down] in the node's own run goes straight to the delivery of the wave. *)
Lemma down_running rec c msgs nv w n :
  running c w n → v_terminal (n_value n) = false → plain_wave msgs = true →
  advance_all (vs_policy (n_version n)) (vs_value (n_version n)) (values msgs) = inr nv →
  down uc rec c msgs w
  = bind (with_delivery_scope rec (for_each msgs (emit_message uc rec c))) (λ _, ret tt) (pin_once c w)
  ∧ running c (pin_once c w) n.
Proof.
  intros Hr Ht (Hp & Hshape & Hx)%plain_wave_msgs Hv.
  destruct (pin_once_rest c w) as (_ & Hd & Ha & Hde).
  assert (get_node (pin_once c w) c = get_node w c) as Hg by apply frame_get_node, frame_pin_once.
  assert (running c (pin_once c w) n) as Hr1.
  { apply (running_frame c w); [done..|]. rewrite Ha, Hde. apply (ru_calm _ _ _ Hr). }
  split; [|done]. unfold down. rewrite (bind_ret _ _ _ _ _ (node_run _ _ _ (ru_node _ _ _ Hr))), Ht.
  unfold wave_register. rewrite (bind_ret _ _ w tt (pin_once c w)) by done. set (w1 := pin_once c w) in *.
  pose proof (node_run _ _ _ (ru_node _ _ _ Hr1)) as Hnode. rewrite (bind_ret _ _ _ _ _ Hnode), Hshape.
  rewrite (bind_ret _ _ _ _ _ (assert_versions_advance n msgs nv w1 _ Hv)).
  rewrite (ru_inside _ _ _ Hr). rewrite (bind_ret _ _ w1 (Some msgs) w1) by done.
  rewrite (bind_ret _ _ w1 (Some msgs) w1).
  2:{ unfold buffer_on_pause. destruct (running_async c w1 n Hr1) as [b Hb].
      rewrite (bind_ret _ _ _ _ _ Hb), (bind_ret _ _ _ _ _ Hnode).
      unfold should_buffer_on_pause, pull_quiet. rewrite (ru_paused _ _ _ Hr), (ru_pull _ _ _ Hr).
      by destruct (pausable (n_config n)). }
  unfold emit_wave. rewrite Hx. rewrite (bind_ret _ _ w1 tt w1) by done.
  rewrite (bind_ret _ _ _ _ _ Hnode), (ru_owed _ _ _ Hr). cbn [negb orb]. rewrite andb_false_r. done.
Qed.

(** A wave sent in the node's own run: every message to every subscriber, in
    order. *)
Lemma send_running fuel c msgs nv w n :
  running c w n → v_terminal (n_value n) = false → plain_wave msgs = true →
  advance_all (vs_policy (n_version n)) (vs_value (n_version n)) (values msgs) = inr nv →
  ∃ w' n', exec uc (2 + fuel) (TDown c msgs) w = Ret tt w' ∧ sent c msgs nv w n w' n'.
Proof.
  intros Hr Ht Hp Hv. destruct (down_running (exec uc (S fuel)) c msgs nv w n) as [Hd Hr1]; [done..|].
  destruct (plain_wave_msgs msgs Hp) as (Hp' & _ & _). destruct (pin_once_rest c w) as (Hl1 & _ & Ha1 & Hde1).
  set (w1 := pin_once c w) in *.
  assert (running c (enter_delivery w1) n) as Hr2 by (apply (running_frame c w1); [done..|left; simpl; lia]).
  destruct (emit_msgs fuel c msgs nv (enter_delivery w1) n) as (w3 & n3 & He & [Hr3 Hs3 Ha3 Ht3 Hv3 Hl3 [Hde3 Hda3]]);
    [done..|].
  set (w4 := leave_delivery (w_current_delivery_id w1) w3).
  assert (w_delivery_depth w4 = w_delivery_depth w ∧ w_deferred_actions w4 = w_deferred_actions w) as [Hf1 Hf2].
  { split; simpl; [by rewrite Hde3; simpl; rewrite Hde1|by rewrite Hda3; simpl; rewrite Ha1]. }
  exists w4, n3. split.
  - change (exec uc (2 + fuel) (TDown c msgs) w) with (down uc (exec uc (S fuel)) c msgs w). rewrite Hd. rewrite (bind_ret _ _ w1 tt w4); [done|]. unfold with_delivery_scope.
    rewrite (bind_ret _ _ w1 (w_current_delivery_id w1) w1) by done.
    rewrite (bind_ret _ _ w1 tt (enter_delivery w1)) by done.
    rewrite (bind_ret _ _ _ (inl tt) w3) by (unfold catch_unwind; by rewrite He).
    rewrite (bind_ret _ _ w3 tt w4) by done.
    rewrite (bind_ret _ _ w4 (delivery_in_flight w4) w4) by done.
    unfold delivery_in_flight. rewrite Hf1. destruct (ru_calm _ _ _ Hr) as [Hd0|Hd0].
    + by rewrite bool_decide_true.
    + case_bool_decide; [done|]. cbn [negb when Nat.add exec exec_task]. unfold drain_deferred_runs.
      rewrite (bind_ret _ _ w4 [] w4) by (unfold gets; by rewrite Hf2, Hd0). done.
  - split; try done.
    + apply (running_frame c w3); [done..|]. rewrite Hf1, Hf2. apply (ru_calm _ _ _ Hr).
    + simpl. rewrite Hl3. simpl. by rewrite Hl1.
Qed.

(** ** A body *)

(** The node holds the state of an abstract run. *)
Definition holds n (s : OpState V) : Prop :=
  a_state (n_aux n) = os_state s ∧ v_terminal (n_value n) = os_terminal s.

Lemma run_body_out p (os os' : OpState V) : run_body p os = Some os' → ∃ l, os_out os' = os_out os ++ l.
Proof.
  revert os. induction p; intros os; simpl; try done.
  - intros [= ->]. exists []. by rewrite app_nil_r.
  - destruct (plain_wave msgs); [|done]. intros [l Hl]%IHp. unfold send in Hl.
    destruct (os_terminal os); [by exists l|]. exists (msgs ++ l). by rewrite Hl, (assoc_L (++)).
  - intros Hr. by apply H in Hr.
  - intros Hr. by apply IHp in Hr.
Qed.

Lemma advance_all_app p cur (l k : list V) nv :
  advance_all p cur (l ++ k) = inr nv →
  ∃ nv1, advance_all p cur l = inr nv1 ∧ advance_all p nv1 k = inr nv.
Proof.
  revert cur. induction l as [|v l IH]; intros cur; simpl; [by exists cur|].
  destruct (advance_node_version cur p v); [done|]. apply IH.
Qed.

Lemma run_prog_sound fuel c p os os' l nv w n :
  running c w n → holds n os → run_body p os = Some os' → os_out os' = os_out os ++ l →
  advance_all (vs_policy (n_version n)) (vs_value (n_version n)) (values l) = inr nv →
  ∃ w' n', run_prog uc (exec uc (2 + fuel)) (Some c) p w = Ret tt w'
    ∧ running c w' n' ∧ holds n' os' ∧ same_node n n' ∧ vs_value (n_version n') = nv
    ∧ w_log w' = w_log w ++ (l ≫= events c n).
Proof.
  revert os l w n. induction p; intros os l w n Hr Hh Hb Ho Hv; simpl in Hb; try done.
  - simplify_eq. apply (f_equal length) in Ho as Hl. rewrite length_app in Hl. destruct l; [|simpl in Hl; lia].
    exists w, n. simpl in Hv. simplify_eq. split_and!; try done. by rewrite app_nil_r.
  - destruct (plain_wave msgs) eqn:Hp; [|done]. cbn [run_prog].
    unfold self_or_panic at 1. rewrite (bind_ret _ _ w c w) by done.
    unfold send in Hb. destruct Hh as [Hh1 Hh2]. destruct (os_terminal os) eqn:Ht; rewrite ?Ht in Hb.
    + rewrite (bind_ret _ _ w tt w); [apply (IHp os l); try done; by rewrite <- Ht in Hh2|].
      cbn [Nat.add exec exec_task]. unfold down.
      rewrite (bind_ret _ _ _ _ _ (node_run _ _ _ (ru_node _ _ _ Hr))). by rewrite Hh2.
    + destruct (run_body_out _ _ _ Hb) as [l2 Hl2]. simpl in Hl2.
      rewrite Ho, <- (assoc_L (++)) in Hl2. apply app_inv_head in Hl2. subst l.
      unfold values in Hv. rewrite omap_app in Hv.
      apply advance_all_app in Hv as (nv1 & Hv1 & Hv2).
      destruct (send_running fuel c msgs nv1 w n) as (w1 & n1 & He & [Hr1 Hs1 Ha1 Ht1 Hnv1 Hl1 _]); [done..|].
      rewrite (bind_ret _ _ _ _ _ He).
      destruct (IHp (mkOpState (os_state os) (ends_stream msgs) (os_out os ++ msgs)) l2 w1 n1)
        as (w2 & n2 & He2 & Hr2 & Hh2' & Hs2 & Hnv2 & Hl2); try done.
      * split; simpl; [congruence|by rewrite Ht1, Hh2].
      * by rewrite Ho, (assoc_L (++)).
      * by rewrite (sn_policy _ _ Hs1), Hnv1.
      * exists w2, n2. split_and!; try done; [by etrans|].
        rewrite Hl2, Hl1, bind_app, <- (assoc_L (++)). f_equal. f_equal. apply list_bind_ext; [|done].
        intros m. unfold events. by rewrite (sn_subs _ _ Hs1).
  - cbn [run_prog]. unfold self_or_panic at 1. rewrite (bind_ret _ _ w c w) by done.
    rewrite (bind_ret _ _ _ _ _ (node_run _ _ _ (ru_node _ _ _ Hr))).
    destruct Hh as [Hh1 Hh2]. rewrite Hh1. by apply (H _ os l).
  - cbn [run_prog]. unfold self_or_panic at 1. rewrite (bind_ret _ _ w c w) by done.
    rewrite (bind_ret _ _ _ _ _ (upd_run _ _ _ _ (ru_node _ _ _ Hr))).
    set (f := on_aux (set_a_state (λ _, Some v))).
    assert (same_node n (f n)) as Hs by done.
    destruct (IHp (store v os) l (upd_node c f w) (f n)) as (w2 & n2 & He2 & Hr2 & Hh2' & Hs2 & Hnv2 & Hl2); try done.
    + by apply running_update.
    + by destruct Hh.
    + exists w2, n2. split_and!; try done. by etrans.
Qed.

(** The body of an operator, run by the engine on a live node inside its run,
    does what [run_body] says. *)
Theorem engine_runs_body fuel c p s s' nv w n :
  running c w n → holds n s → os_out s = [] → run_body p s = Some s' →
  advance_all (vs_policy (n_version n)) (vs_value (n_version n)) (values (os_out s')) = inr nv →
  ∃ w' n', exec uc (3 + fuel) (TProg (Some c) p) w = Ret tt w'
    ∧ running c w' n' ∧ holds n' s' ∧ vs_value (n_version n') = nv
    ∧ w_log w' = w_log w ++ (os_out s' ≫= events c n).
Proof.
  intros Hr Hh Ho Hb Hv.
  destruct (run_prog_sound fuel c p s s' (os_out s') nv w n) as (w' & n' & He & ? & ? & _ & ? & ?);
    [done..|by rewrite Ho|done|]. by exists w', n'.
Qed.
End OperatorRun.

(** ** The streams of the operators *)

Section Streams.
Context {V S T : Type} `{!Boxed V S, !Boxed V T, !Boxed V nat, !Boxed V bool, !Boxed V (S * S)}.

(** C17: over a live source, and however its values are grouped into runs, the
    stateless and the stateful operators emit exactly their list functions:
    [take] and [take_while] and [first] complete at the right value and then
    ignore the rest, [distinct_until_changed] compares with the last emitted
    value, [pairwise] and [skip] and [scan] carry their state across runs. *)
Theorem operators_implement_lists (f : S → T) (reducer : T → S → T) (seed : T) (pred : S → bool)
    (eq : S → S → bool) (n : nat) :
  implements (V := V) (S := S) (Op.map f) (λ xs, datas (f <$> xs))
  ∧ implements (V := V) (S := S) (Op.filter pred) (λ xs, datas (List.filter pred xs))
  ∧ implements (V := V) (S := S) (Op.scan reducer seed) (λ xs, datas (scanned reducer seed xs))
  ∧ implements (V := V) (S := S) (Op.distinct_until_changed eq) (λ xs, datas (deduped eq None xs))
  ∧ implements (V := V) (S := S) (Op.skip (S := S) n) (λ xs : list S, datas (drop n xs))
  ∧ implements (V := V) (S := S) (Op.pairwise (S := S)) (λ xs : list S, datas (zip xs (tail xs)))
  ∧ implements (V := V) (S := S) (Op.take (S := S) n) (taken n)
  ∧ implements (V := V) (S := S) (Op.take_while pred) (taken_while pred)
  ∧ implements (V := V) (S := S) (Op.first pred) (firsts pred).
Proof.
  split_and!;
    [apply map_stream|apply filter_stream|apply scan_stream|apply distinct_stream|apply skip_stream
    |apply pairwise_stream|apply take_stream|apply take_while_stream|apply first_stream].
Qed.

Context `{!Boxed V (list S)}.

(** The operators that answer at the end of their source: whatever the
    grouping of the values into runs, and also for the values that arrive with
    the completion, they emit their list function and then complete, once. *)
Theorem completing_operators_implement_lists (reducer : T → S → T) (seed : T) (pred : S → bool)
    (index count : nat) :
  completing (V := V) (S := S) (Op.reduce reducer seed) (reduced reducer seed)
  ∧ completing (V := V) (S := S) (Op.last pred) (lasts pred)
  ∧ completing (V := V) (S := S) (Op.find pred) (found pred)
  ∧ completing (V := V) (S := S) (Op.element_at (S := S) index) (elem_or_end index)
  ∧ completing (V := V) (S := S) (Comb.buffer_count (T := S) count) (buffered count).
Proof.
  split_and!;
    [apply reduce_stream|apply last_stream|apply find_stream|apply element_at_stream|apply buffer_count_stream].
Qed.

Context `{!Boxed V (Comb.ZipState S)}.

(** [zip] over any number of live deps pairs the [k]-th values of its deps:
    after any sequence of runs, in which each dep delivers any number of values,
    it has emitted one tuple per index that every dep has reached, in order. *)
Theorem zip_pairs_by_index n ctxs runs :
  n ≠ 0%nat → zip_runs n ctxs runs →
  emitted (feed (Comb.zip (T := S)) ctxs) = Some (datas (V := V) (tuples (foldl add_run (replicate n []) runs))).
Proof. apply zip_stream. Qed.
End Streams.

(** ** Witnesses *)

Section Witnesses.
#[local] Existing Instance ex_values.


#[local] Instance boxed_Z : Boxed Z Z := {| box := id; unbox := Some; unbox_box _ := eq_refl |}.

(** A node over a source, watched by an observer, with its run begun. *)
Definition ex_map_run : World Z :=
  upd_node (ex_core 1) begin_run
    (world_of (run_client ex_user 30 (PNewNode 0%nat [] None (Some 5) NodeOpts_default (λ s,
      PNewNode 0%nat [s] (Some 0%nat) None NodeOpts_default (λ d,
      PSubscribe d 0%nat (λ _, PRet)))) World_init)).

Definition ex_batch_ctx : Ctx Z :=
  mkCtx (ex_core 1) [mkDepRecord [[WData 5; WData 6]] None (Some 6) None] None.

Lemma engine_runs_body_witness :
  ∃ w', exec ex_user 3%nat (TProg (Some (ex_core 1)) (body (Op.map (λ x : Z, x + 1)) ex_batch_ctx)) ex_map_run
        = Ret tt w'
    ∧ w_log w' = w_log ex_map_run ++ [EvEmit (ex_core 1) (Data 6); EvSink 0%nat (Data 6);
                                      EvEmit (ex_core 1) (Data 7); EvSink 0%nat (Data 7)].
Proof.
  let r := eval vm_compute in (get_node ex_map_run (ex_core 1)) in
  match r with Some ?x => set (n := x) end.
  edestruct (engine_runs_body ex_user 0%nat (ex_core 1) (body (Op.map (λ x : Z, x + 1)) ex_batch_ctx) os_init
    (mkOpState None false [Data 6; Data 7]) (Some (V0 2)) ex_map_run n) as (w' & n' & H1 & _ & _ & _ & H2).
  - split; [vm_compute; reflexivity..| | |].
    + vm_compute. reflexivity.
    + vm_compute. repeat constructor.
    + right. vm_compute. reflexivity.
  - split; vm_compute; reflexivity.
  - reflexivity.
  - vm_compute. reflexivity.
  - vm_compute. reflexivity.
  - exists w'. split; [exact H1|]. rewrite H2. reflexivity.
Defined.
End Witnesses.
