(* ===== verification/OperatorScenarios.v ===== *)
(** * Operators in the engine: whole scenarios

    A dynamically typed value, the operators instantiated at it, and client
    programs run end to end by the interpreter: what a subscriber of the
    operator sees, for every value sent. *)

From stdpp Require Import base option strings numbers list.
From S2P Require Import Prelude Protocol Dispatcher Versioning Arena NodeState Receive Engine.
From S2P Require Import Operators Combinators OperatorFacts CombinatorFacts OperatorRun.

Local Open Scope nat_scope.

(** The values an example needs: [Rc<dyn Any>] with the types used. *)
Inductive Dyn :=
| DNat (n : nat) | DBool (b : bool) | DPair (p : nat * nat) | DList (l : list nat)
| DRace (r : Comb.RaceState) | DZip (z : Comb.ZipState nat).

#[local] Instance dyn_nat : Boxed Dyn nat :=
  {| box := DNat; unbox v := match v with DNat n => Some n | _ => None end; unbox_box _ := eq_refl |}.
#[local] Instance dyn_bool : Boxed Dyn bool :=
  {| box := DBool; unbox v := match v with DBool b => Some b | _ => None end; unbox_box _ := eq_refl |}.
#[local] Instance dyn_pair : Boxed Dyn (nat * nat) :=
  {| box := DPair; unbox v := match v with DPair p => Some p | _ => None end; unbox_box _ := eq_refl |}.
#[local] Instance dyn_list : Boxed Dyn (list nat) :=
  {| box := DList; unbox v := match v with DList l => Some l | _ => None end; unbox_box _ := eq_refl |}.
#[local] Instance dyn_race : Boxed Dyn Comb.RaceState :=
  {| box := DRace; unbox v := match v with DRace r => Some r | _ => None end; unbox_box _ := eq_refl |}.
#[local] Instance dyn_zip : Boxed Dyn (Comb.ZipState nat) :=
  {| box := DZip; unbox v := match v with DZip z => Some z | _ => None end; unbox_box _ := eq_refl |}.
#[local] Instance dyn_data : CanonicalData Dyn := {| data_bytes _ := inr []; absent_seed_bytes := inr [] |}.

(** The only fn of a scenario is the operator's body, under identity 0. *)
Definition op_code (op : Operator Dyn) : UserCode Dyn :=
  mkUserCode (λ _ ctx, body op ctx) (λ _ _, PRet) (λ _, PRet) (λ _, 0%Z).

Definition seen (sink : SinkId) (l : list (Event Dyn)) : list (Msg Dyn) :=
  omap (λ e, match e with EvSink s m => if s =? sink then Some m else None | _ => None end) l.

(** What a subscriber of [op] over two sources sees when the first source sends
    [first], then the second [second], then the first [third]. *)
Definition over_two (op : Operator Dyn) (first second third : Wave Dyn) : option (list (Msg Dyn)) :=
  let source k := PNewNode 0 [] None None NodeOpts_default k in
  let p := source (λ a, source (λ b, init_node op 0 0 [a; b] NodeOpts_default (λ r,
             PSubscribe r 7 (λ _, PNodeDown a first (PNodeDown b second (PNodeDown a third PRet)))))) in
  match run_client (op_code op) 60 p World_init with
  | Ret _ w => Some (seen 7 (w_log w))
  | _ => None
  end.


(** A source that ends with its last value in one wave.  Over any values,
    [race] emits the value of the winner and never completes, although it does
    when the completion comes in a later wave; [with_latest_from] and [valve]
    complete without the value that came with the completion, although they
    emit it when it comes alone; [take_until] does both. *)
Theorem same_wave_terminal (x y : nat) :
  over_two (Comb.race (T := nat)) [Data (DNat x); Complete] [Data (DNat y); Complete] []
    = Some [Start; Dirty; Data (DNat x); Dirty; Resolved]
  ∧ over_two (Comb.race (T := nat)) [Data (DNat x)] [Data (DNat y); Complete] [Complete]
    = Some [Start; Dirty; Data (DNat x); Dirty; Resolved; Complete]
  ∧ over_two (Comb.with_latest_from (A := nat) (B := nat)) [] [Data (DNat y)] [Data (DNat x); Complete]
    = Some [Start; Dirty; Complete]
  ∧ over_two (Comb.with_latest_from (A := nat) (B := nat)) [] [Data (DNat y)] [Data (DNat x)]
    = Some [Start; Dirty; Data (DPair (x, y))]
  ∧ over_two (Op.valve (S := nat)) [] [Data (DBool true)] [Data (DNat x); Complete]
    = Some [Start; Dirty; Resolved; Dirty; Complete]
  ∧ over_two (Op.valve (S := nat)) [] [Data (DBool true)] [Data (DNat x)]
    = Some [Start; Dirty; Resolved; Dirty; Data (DNat x)]
  ∧ over_two (Comb.take_until (T := nat)) [] [] [Data (DNat x); Complete]
    = Some [Start; Dirty; Data (DNat x); Complete].
Proof. split_and!; vm_compute; reflexivity. Qed.

(** ** Witness of [zip_pairs_by_index]: two runs over two deps *)

Definition delivered (l : list nat) : DepRecord Dyn := mkDepRecord [WData ∘ DNat <$> l] None None None.
Definition ex_zip_ctx (a b : list nat) : Ctx Dyn :=
  mkCtx (mkCore 0 (mkNodeKey 2 0)) [delivered a; delivered b] None.

Lemma zip_pairs_by_index_witness :
  emitted (feed (Comb.zip (T := nat)) [ex_zip_ctx [1; 2; 3] [4]; ex_zip_ctx [] [5]])
  = Some [Data (DList [1; 4]); Data (DList [2; 5])].
Proof.
  refine (eq_trans (zip_pairs_by_index (V := Dyn) 2 _ [[[1; 2; 3]; [4]]; [[]; [5]]] _ _) _); [discriminate| |].
  - do 2 (constructor; [split_and!; [done..|intros [|[|i]] Hi; [done..|lia]]|]). constructor.
  - vm_compute. reflexivity.
Defined.
