(* ===== verification/Pages.v ===== *)
(** * Pages (messaging.rs, work_queue.rs)

    The projections of the message bus and of the work queue answer a page at a
    time: at most a limit of items, and the cursor to ask for the next ones with.
    [walk] is the client that keeps asking; [walk_covers] says it sees every item
    once, in order, for any projection that filters a sorted list by its cursor. *)

From Stdlib Require Import Sorted.
From stdpp Require Import base option numbers list.

Local Open Scope nat_scope.

(** A page: its items, the cursor of the next one, and whether there is one. *)
Record Page (A C : Type) := mkPage { pg_items : list A; pg_next : option C; pg_more : bool }.
Arguments mkPage {A C} _ _ _.
Arguments pg_items {A C} _.
Arguments pg_next {A C} _.
Arguments pg_more {A C} _.

Definition page_of {A C} (limit : nat) (cursor : A → C) (all : list A) : Page A C :=
  let page := take limit all in
  let more := bool_decide (limit < length all) in
  mkPage page (if more then cursor <$> last page else None) more.

(** Ask for a page, and for the one after its cursor as long as there is one. *)
Fixpoint walk {A C} (fuel : nat) (page : option C → option (Page A C)) (after : option C) : option (list A) :=
  match fuel with
  | O => None
  | S fuel =>
      p ← page after;
      if pg_more p then (rest ← walk fuel page (pg_next p); Some (pg_items p ++ rest)) else Some (pg_items p)
  end.

Section Walk.
Context {A C : Type} (lt : C → C → bool) (cursor : A → C).
Context (lt_asym : ∀ x y, lt x y = true → lt y x = false) (lt_irrefl : ∀ x, lt x x = false).

Definition after_cursor (after : option C) (x : A) : bool :=
  match after with Some a => lt a (cursor x) | None => true end.

Lemma after_last (l : list A) k x :
  StronglySorted (λ x y, lt (cursor x) (cursor y) = true) l → last (take k l) = Some x →
  List.filter (after_cursor (Some (cursor x))) l = drop k l.
Proof.
  revert k. induction l as [|y l IH]; intros k Hs; [by rewrite take_nil|]. destruct k as [|k]; [done|].
  apply StronglySorted_inv in Hs as [Hs Hy]. simpl. destruct (take k l) as [|z zs] eqn:Ht.
  - intros [= ->]. rewrite lt_irrefl.
    assert (drop k l = l) as -> by (destruct k, l; try done; simpl in Ht; done).
    clear -Hy. induction Hy as [|z l Hz _ IH]; [done|]. simpl. by rewrite Hz, IH.
  - intros Hx. change (last (z :: zs) = Some x) in Hx. rewrite (IH k Hs); [|by rewrite Ht].
    rewrite lt_asym; [done|]. rewrite Forall_forall in Hy. apply Hy.
    apply (subseteq_take k l). rewrite Ht. apply last_Some in Hx as [l' ->].
    apply elem_of_app. right. by left.
Qed.

(** A projection that filters a sorted list by its cursor. *)
Lemma walk_covers (l : list A) limit (page : option C → option (Page A C)) fuel :
  StronglySorted (λ x y, lt (cursor x) (cursor y) = true) l →
  (∀ after, page after = Some (page_of (S limit) cursor (List.filter (after_cursor after) l))) →
  (length l < fuel) → walk fuel page None = Some l.
Proof.
  intros Hs Hp.
  cut (∀ k after, (k ≤ length l) → List.filter (after_cursor after) l = drop k l →
    ∀ fuel, (length l - k < fuel) → walk fuel page after = Some (drop k l)).
  { intros Hc Hf. apply (Hc 0 None); [lia| |lia]. by clear; induction l as [|x l IH]; [|simpl; rewrite IH]. }
  intros k after Hk Ha f. revert k after Hk Ha. induction f as [|f IH]; intros k after Hk Ha Hf; [lia|].
  cbn [walk]. rewrite Hp. cbn [mbind option_bind]. rewrite Ha. cbn [page_of pg_more pg_next pg_items].
  rewrite length_drop. case_bool_decide as Hlt.
  - destruct (last (take (S limit) (drop k l))) as [x|] eqn:Hlast.
    2:{ apply last_None in Hlast. apply (f_equal length) in Hlast. rewrite length_take, length_drop in Hlast.
        cbn [length] in Hlast. lia. }
    cbn [fmap option_fmap option_map].
    assert (last (take (k + S limit) l) = Some x) as Hlast'.
    { rewrite <- (take_drop k l), take_app, last_app, length_take, Nat.min_l by lia.
      replace (k + S limit - k) with (S limit) by lia.
      rewrite Hlast. done. }
    rewrite (IH (k + S limit)); [|lia|by apply after_last|lia]. simpl.
    by rewrite <- drop_drop, take_drop.
  - by rewrite take_ge by (rewrite length_drop; lia).
Qed.
End Walk.
