(* ===== verification/MessageBus.v ===== *)
(** * The message bus (messaging.rs)

    A bus is a set of retained topic logs with independent subscription cursors.
    Every change goes through one reducer ([reduce_message_bus_command]) that the
    runtime node of the bus folds over its commands; the projections are pages
    read from the state.  The reducer is written in the state monad of [Prelude];
    the clock is a closure that may answer differently, or panic, at every call,
    so its readings are numbered ([ticks]). *)

From Stdlib Require Import Ascii String.
From stdpp Require Import base option strings numbers gmap list.
From S2P Require Import Prelude BTree Text Json Storage Pages.

Local Open Scope rx_scope.
Local Open Scope N_scope.

Module Bus.

(** ** Data *)

Record DataIssue := mkDataIssue {
  di_kind : string;
  di_code : string;
  di_message : string;
  di_severity : string;
  di_source : string;
  di_topic : option string;
  di_details : option string
}.

Record MessageEnvelope (T : Type) := mkEnvelope {
  me_topic : string;
  me_seq : N;
  me_payload : T;
  me_key : option string;
  me_timestamp_ms : N;
  me_command_id : option string;
  me_idempotency_key : option string
}.
Arguments mkEnvelope {T} _ _ _ _ _ _ _.
Arguments me_topic {T} _.
Arguments me_seq {T} _.
Arguments me_payload {T} _.
Arguments me_key {T} _.
Arguments me_timestamp_ms {T} _.
Arguments me_command_id {T} _.
Arguments me_idempotency_key {T} _.

Inductive MessageBusTopicPolicy := Strict | CreateAsFact.
#[export] Instance topic_policy_eq : EqDecision MessageBusTopicPolicy.
Proof. solve_decision. Defined.

Record MessageBusRetentionPolicy := mkRetention {
  max_messages : option nat;
  max_age_ms : option N
}.

Inductive MessageBusDedupeAction := DedupeStatus | DedupeIssue.
#[export] Instance dedupe_action_eq : EqDecision MessageBusDedupeAction.
Proof. solve_decision. Defined.

(** The part of the state no command changes.  [now k] is what the [k]-th call
    of the clock returns, [None] when it panics. *)
Record BusConfig := mkBusConfig {
  now : nat → option N;
  retention : MessageBusRetentionPolicy;
  dedupe_command_id : MessageBusDedupeAction
}.

Inductive MessageBusCommand (T : Type) :=
| EnsureTopic (topic : string) (command_id : option string)
| CloseTopic (topic : string) (command_id : option string)
| Publish (topic : string) (payload : T) (key command_id idempotency_key : option string)
| TopicPolicy (policy : MessageBusTopicPolicy) (command_id : option string)
| Ack (topic subscription_id : string) (seq : N) (command_id : option string)
| Seek (topic subscription_id : string) (next_seq : N) (command_id : option string)
| CloseSubscription (topic subscription_id : string) (command_id : option string).
Arguments EnsureTopic {T} _ _.
Arguments CloseTopic {T} _ _.
Arguments Publish {T} _ _ _ _ _.
Arguments TopicPolicy {T} _ _.
Arguments Ack {T} _ _ _ _.
Arguments Seek {T} _ _ _ _.
Arguments CloseSubscription {T} _ _ _.

Definition command_topic {T} (c : MessageBusCommand T) : option string :=
  match c with
  | EnsureTopic t _ | CloseTopic t _ | Publish t _ _ _ _ | Ack t _ _ _ | Seek t _ _ _
  | CloseSubscription t _ _ => Some t
  | TopicPolicy _ _ => None
  end.

Definition command_id {T} (c : MessageBusCommand T) : option string :=
  match c with
  | EnsureTopic _ i | CloseTopic _ i | Publish _ _ _ i _ | TopicPolicy _ i | Ack _ _ _ i
  | Seek _ _ _ i | CloseSubscription _ _ i => i
  end.

Definition command_subscription_id {T} (c : MessageBusCommand T) : option string :=
  match c with
  | Ack _ s _ _ | Seek _ s _ _ | CloseSubscription _ s _ => Some s
  | _ => None
  end.

Inductive MessageBusStatusKind :=
| TopicCreated | TopicClosed | MessagePublished | RetentionTrimmed | DuplicateCommand
| SubscriptionOpened | SubscriptionAcked | SubscriptionSought | SubscriptionClosed.
#[export] Instance status_kind_eq : EqDecision MessageBusStatusKind.
Proof. solve_decision. Defined.

(** [StatusFields]: the optional fields of a status. *)
Record StatusFields := mkStatusFields {
  sf_topic : option string;
  sf_seq : option N;
  sf_head_seq : option N;
  sf_subscription_id : option string;
  sf_next_seq : option N;
  sf_command_id : option string;
  sf_details : option string
}.

Record MessageBusStatus := mkStatus {
  bs_kind : MessageBusStatusKind;
  bs_fields : StatusFields;
  bs_issue_code : option string;
  bs_timestamp_ms : N
}.

Record MessageBusDeadLetterEntry (T : Type) := mkDeadLetter {
  dl_entry_seq : N;
  dl_topic : option string;
  dl_command : option (MessageBusCommand T);
  dl_message : option (MessageEnvelope T);
  dl_issue : DataIssue;
  dl_timestamp_ms : N
}.
Arguments mkDeadLetter {T} _ _ _ _ _ _.
Arguments dl_entry_seq {T} _.
Arguments dl_topic {T} _.
Arguments dl_command {T} _.
Arguments dl_message {T} _.
Arguments dl_issue {T} _.
Arguments dl_timestamp_ms {T} _.

Record TopicState (T : Type) := mkTopicState {
  ts_closed : bool;
  ts_head_seq : N;
  ts_next_seq : N;
  ts_messages : list (MessageEnvelope T)
}.
Arguments mkTopicState {T} _ _ _ _.
Arguments ts_closed {T} _.
Arguments ts_head_seq {T} _.
Arguments ts_next_seq {T} _.
Arguments ts_messages {T} _.

Definition make_topic_state {T} : TopicState T := mkTopicState false 1 1 [].

Record SubscriptionState := mkSubscription {
  sub_topic : string;
  sub_id : string;
  sub_next_seq : N;
  sub_closed : bool;
  sub_retention_gap : bool
}.

Record MessageBusState (T : Type) := mkBusState {
  ticks : nat;                                    (* calls of [now] so far *)
  topic_policy : MessageBusTopicPolicy;
  topics : BTree string (TopicState T);
  subscriptions : BTree string SubscriptionState;
  seen_command_ids : gset string;
  seen_idempotency_keys : gset string;
  dead_letters : list (MessageBusDeadLetterEntry T);
  dead_letter_seq : N
}.
Arguments mkBusState {T} _ _ _ _ _ _ _ _.
Arguments ticks {T} _.
Arguments topic_policy {T} _.
Arguments topics {T} _.
Arguments subscriptions {T} _.
Arguments seen_command_ids {T} _.
Arguments seen_idempotency_keys {T} _.
Arguments dead_letters {T} _.
Arguments dead_letter_seq {T} _.

Inductive RuntimeEvent (T : Type) :=
| EMessage (m : MessageEnvelope T)
| EStatus (s : MessageBusStatus)
| EIssue (i : DataIssue).
Arguments EMessage {T} _.
Arguments EStatus {T} _.
Arguments EIssue {T} _.

Inductive MessageBusSubscriptionFrom := Earliest | Latest | FromSeq (seq : N).

Section Setters.
Context {T : Type}.
Implicit Types s : MessageBusState T.

Definition set_ticks f s := mkBusState (f (ticks s)) (topic_policy s) (topics s) (subscriptions s)
  (seen_command_ids s) (seen_idempotency_keys s) (dead_letters s) (dead_letter_seq s).
Definition set_topic_policy f s := mkBusState (ticks s) (f (topic_policy s)) (topics s) (subscriptions s)
  (seen_command_ids s) (seen_idempotency_keys s) (dead_letters s) (dead_letter_seq s).
Definition set_topics f s := mkBusState (ticks s) (topic_policy s) (f (topics s)) (subscriptions s)
  (seen_command_ids s) (seen_idempotency_keys s) (dead_letters s) (dead_letter_seq s).
Definition set_subscriptions f s := mkBusState (ticks s) (topic_policy s) (topics s) (f (subscriptions s))
  (seen_command_ids s) (seen_idempotency_keys s) (dead_letters s) (dead_letter_seq s).
Definition set_seen_command_ids f s := mkBusState (ticks s) (topic_policy s) (topics s) (subscriptions s)
  (f (seen_command_ids s)) (seen_idempotency_keys s) (dead_letters s) (dead_letter_seq s).
Definition set_seen_idempotency_keys f s := mkBusState (ticks s) (topic_policy s) (topics s) (subscriptions s)
  (seen_command_ids s) (f (seen_idempotency_keys s)) (dead_letters s) (dead_letter_seq s).
Definition push_dead_letter e s := mkBusState (ticks s) (topic_policy s) (topics s) (subscriptions s)
  (seen_command_ids s) (seen_idempotency_keys s) (dead_letters s ++ [e]) (dl_entry_seq e).
End Setters.

Definition no_fields : StatusFields := mkStatusFields None None None None None None None.

(** ** The reducer *)

Section Reducer.
Context {T : Type} `{!TupleText} (cfg : BusConfig).
Abbreviation MB := (M (MessageBusState T)).
Abbreviation Event := (RuntimeEvent T).

Definition subscription_key (topic subscription_id : string) : string :=
  canonical_tuple_key [topic; subscription_id].
Definition idempotency_key_for (topic idempotency_key : string) : string :=
  canonical_tuple_key [topic; idempotency_key].

Definition timestamp_or_zero : MB N :=
  let! k := gets ticks in
  modify (set_ticks S) ;;;
  ret (default 0 (now cfg k)).

Definition status_fact (kind : MessageBusStatusKind) (fields : StatusFields) : MB MessageBusStatus :=
  let! t := timestamp_or_zero in ret (mkStatus kind fields None t).

Definition status_event (kind : MessageBusStatusKind) (fields : StatusFields) : MB Event :=
  let! s := status_fact kind fields in ret (EStatus s).

Definition issue_of (code message : string) (topic : option string) : DataIssue :=
  mkDataIssue "issue" code message "error" "messageBus" topic None.

(** The topic of an issue is the command's, or else the message's. *)
Definition issue_events (command : option (MessageBusCommand T)) (message : option (MessageEnvelope T))
    (code issue_message : string) : MB (list Event) :=
  let topic := match command ≫= command_topic with
               | Some t => Some t
               | None => me_topic <$> message
               end in
  let issue := issue_of code issue_message topic in
  let! seq := gets dead_letter_seq in
  let! t := timestamp_or_zero in
  modify (push_dead_letter (mkDeadLetter (seq + 1) topic command message issue t)) ;;;
  ret [EIssue issue].

Definition reject_command (command : MessageBusCommand T) (reason : string) : MB (list Event) :=
  issue_events (Some command) None "malformed-command" reason.

Definition duplicate_command_events (command : MessageBusCommand T) (message : string) : MB (list Event) :=
  let! status := status_event DuplicateCommand
    (mkStatusFields (command_topic command) None None None None (command_id command) None) in
  if decide (dedupe_command_id cfg = DedupeIssue)
  then issue_events (Some command) None "duplicate-command" message
  else ret [status].

Definition ensure_topic (topic : string) (cid : option string) : MB (list Event) :=
  modify (set_topics (λ m, match bt_get topic m with
                           | Some _ => m
                           | None => bt_insert topic make_topic_state m
                           end)) ;;;
  let! s := status_event TopicCreated (mkStatusFields (Some topic) None None None None cid None) in
  ret [s].

Definition upd_topic (topic : string) (f : TopicState T → TopicState T) : MB unit :=
  modify (set_topics (λ m, match bt_get topic m with
                           | Some t => bt_insert topic (f t) m
                           | None => m
                           end)).

Definition upd_sub (key : string) (f : SubscriptionState → SubscriptionState) : MB unit :=
  modify (set_subscriptions (λ m, match bt_get key m with
                                  | Some t => bt_insert key (f t) m
                                  | None => m
                                  end)).

Definition close_topic (topic : string) (cid : option string) : MB (list Event) :=
  let! m := gets topics in
  match bt_get topic m with
  | None => issue_events (Some (CloseTopic topic cid)) None "unknown-topic" "unknown topic"
  | Some _ =>
      upd_topic topic (λ t, mkTopicState true (ts_head_seq t) (ts_next_seq t) (ts_messages t)) ;;;
      let! s := status_event TopicClosed (mkStatusFields (Some topic) None None None None cid None) in
      ret [s]
  end.

(** [retain] by age. *)
Definition retain_young (now_ms : N) (l : list (MessageEnvelope T)) : list (MessageEnvelope T) :=
  match max_age_ms (retention cfg) with
  | Some max_age => List.filter (λ m, now_ms - me_timestamp_ms m <=? max_age) l
  | None => l
  end.

(** The open subscriptions of the topic that a new head overtakes. *)
Definition overtaken (topic : string) (head : N) (s : SubscriptionState) : bool :=
  negb (sub_closed s) && bool_decide (sub_topic s = topic) && (sub_next_seq s <? head)
  && negb (sub_retention_gap s).

Definition flag_gap (s : SubscriptionState) : SubscriptionState :=
  mkSubscription (sub_topic s) (sub_id s) (sub_next_seq s) (sub_closed s) true.

Definition set_messages (l : list (MessageEnvelope T)) (t : TopicState T) : TopicState T :=
  mkTopicState (ts_closed t) (ts_head_seq t) (ts_next_seq t) l.
Definition set_head_seq (h : N) (t : TopicState T) : TopicState T :=
  mkTopicState (ts_closed t) h (ts_next_seq t) (ts_messages t).

Definition trim_retention (topic_name : string) : MB (list Event) :=
  let! now_ms := timestamp_or_zero in
  let! m := gets topics in
  match bt_get topic_name m with
  | None => ret []
  | Some topic =>
      let before_head := ts_head_seq topic in
      let messages := retain_young now_ms (ts_messages topic) in
      upd_topic topic_name (set_messages messages) ;;;
      if bool_decide (max_messages (retention cfg) = Some 0%nat) then
        issue_events None None "policy-rejected" "retention.maxMessages must be positive"
      else
        let messages :=
          match max_messages (retention cfg) with
          | Some max => drop (length messages - max) messages
          | None => messages
          end in
        upd_topic topic_name (set_messages messages) ;;;
        let head_seq := match messages with m :: _ => me_seq m | [] => ts_next_seq topic end in
        upd_topic topic_name (set_head_seq head_seq) ;;;
        if head_seq =? before_head then ret []
        else
          let trim_count := head_seq - before_head in
          let! s := status_event RetentionTrimmed
            (mkStatusFields (Some topic_name) None (Some head_seq) None None None
               (Some ("trimCount=" +:+ u64_string trim_count))) in
          let! subs := gets subscriptions in
          let affected := List.filter (λ ks, overtaken topic_name head_seq ks.2) subs in
          modify (set_subscriptions (λ subs,
            (λ ks, if overtaken topic_name head_seq ks.2 then (ks.1, flag_gap ks.2) else ks) <$> subs)) ;;;
          fold_each affected (λ events ks,
            let! e := issue_events None None "retention-gap"
              ("subscription '" +:+ sub_id ks.2 +:+ "' is before retained headSeq") in
            ret (events ++ e)) [s]
  end.

Definition publish_known (topic : string) (payload : T) (key cid idempotency_key : option string)
    (events : list Event) : MB (list Event) :=
  let! m := gets topics in
  match bt_get topic m with
  | None => issue_events None None "unknown-topic" "unknown topic"
  | Some topic_state =>
      if ts_closed topic_state then
        issue_events (Some (Publish topic payload key cid idempotency_key)) None "closed-topic" "closed topic"
      else
        let! timestamp_ms := timestamp_or_zero in
        let message := mkEnvelope topic (ts_next_seq topic_state) payload key timestamp_ms cid idempotency_key in
        upd_topic topic (λ t, mkTopicState (ts_closed t) (ts_head_seq t) (ts_next_seq t + 1) (ts_messages t)) ;;;
        match idempotency_key with
        | Some k => modify (set_seen_idempotency_keys (λ ks, {[idempotency_key_for topic k]} ∪ ks))
        | None => ret tt
        end ;;;
        upd_topic topic (λ t, set_messages (ts_messages t ++ [message]) t) ;;;
        let! s := status_event MessagePublished
          (mkStatusFields (Some topic) (Some (me_seq message)) None None None cid None) in
        let! trimmed := trim_retention topic in
        ret (events ++ [EMessage message; s] ++ trimmed)
  end.

Definition publish_message (topic : string) (payload : T) (key cid idempotency_key : option string)
    : MB (list Event) :=
  let! s := gets id in
  match bt_get topic (topics s) with
  | Some _ => publish_known topic payload key cid idempotency_key []
  | None =>
      if decide (topic_policy s = CreateAsFact) then
        let! events := ensure_topic topic cid in
        publish_known topic payload key cid idempotency_key events
      else
        issue_events (Some (Publish topic payload key cid idempotency_key)) None
          "unknown-topic" "unknown topic"
  end.

(** The lookups a cursor command starts with. *)
Definition with_cursor (topic subscription_id : string)
    (k : TopicState T → SubscriptionState → MB (list Event)) : MB (list Event) :=
  let! s := gets id in
  match bt_get topic (topics s) with
  | None => issue_events None None "unknown-topic" "unknown topic"
  | Some topic_state =>
      match bt_get (subscription_key topic subscription_id) (subscriptions s) with
      | None => issue_events None None "unknown-subscription" "unknown subscription"
      | Some sub => k topic_state sub
      end
  end.

Definition ack_subscription (topic subscription_id : string) (seq : N) (cid : option string)
    : MB (list Event) :=
  with_cursor topic subscription_id (λ topic_state sub,
    if sub_closed sub then issue_events None None "subscription-closed" "subscription is closed"
    else if sub_retention_gap sub then
      issue_events None None "retention-gap" "subscription must seek before ack"
    else if seq <? sub_next_seq sub then
      issue_events None None "source-cursor-stale" "ack is behind subscription cursor"
    else if ts_next_seq topic_state <=? seq then
      issue_events None None "cursor-out-of-range" "ack is beyond topic tail"
    else
      upd_sub (subscription_key topic subscription_id)
        (λ s, mkSubscription (sub_topic s) (sub_id s) (seq + 1) (sub_closed s) (sub_retention_gap s)) ;;;
      let! e := status_event SubscriptionAcked
        (mkStatusFields (Some topic) None None (Some subscription_id) (Some (seq + 1)) cid None) in
      ret [e]).

Definition seek_subscription (topic subscription_id : string) (next_seq : N) (cid : option string)
    : MB (list Event) :=
  with_cursor topic subscription_id (λ topic_state sub,
    if sub_closed sub then issue_events None None "subscription-closed" "subscription is closed"
    else if next_seq <? ts_head_seq topic_state then
      issue_events None None "retention-gap" "seek is before retained headSeq"
    else if ts_next_seq topic_state <? next_seq then
      issue_events None None "cursor-out-of-range" "seek is beyond topic tail"
    else
      upd_sub (subscription_key topic subscription_id)
        (λ s, mkSubscription (sub_topic s) (sub_id s) next_seq (sub_closed s) false) ;;;
      let! e := status_event SubscriptionSought
        (mkStatusFields (Some topic) None None (Some subscription_id) (Some next_seq) cid None) in
      ret [e]).

Definition close_subscription (topic subscription_id : string) (cid : option string) : MB (list Event) :=
  with_cursor topic subscription_id (λ _ sub,
    upd_sub (subscription_key topic subscription_id)
      (λ s, mkSubscription (sub_topic s) (sub_id s) (sub_next_seq s) true (sub_retention_gap s)) ;;;
    let! e := status_event SubscriptionClosed
      (mkStatusFields (Some topic) None None (Some subscription_id) (Some (sub_next_seq sub)) cid None) in
    ret [e]).

Definition validate_topic_key (topic owner : string) : option string :=
  if bool_decide (topic = ""%string)
  then Some (owner +:+ ": topic must be a non-empty string") else None.

Definition dispatch (command : MessageBusCommand T) : MB (list Event) :=
  match command with
  | EnsureTopic topic cid => ensure_topic topic cid
  | CloseTopic topic cid => close_topic topic cid
  | TopicPolicy policy _ => modify (set_topic_policy (λ _, policy)) ;;; ret []
  | Publish topic payload key cid idem => publish_message topic payload key cid idem
  | Ack topic sub seq cid => ack_subscription topic sub seq cid
  | Seek topic sub next_seq cid => seek_subscription topic sub next_seq cid
  | CloseSubscription topic sub cid => close_subscription topic sub cid
  end.

(** The idempotency key of a [Publish], as it is recorded. *)
Definition publish_key (command : MessageBusCommand T) : option string :=
  match command with
  | Publish topic _ _ _ (Some k) => Some (idempotency_key_for topic k)
  | _ => None
  end.

Definition reduce_message_bus_command (command : MessageBusCommand T) : MB (list Event) :=
  match command_topic command ≫= λ t, validate_topic_key t "messageBus" with
  | Some error => reject_command command error
  | None =>
      if bool_decide (command_subscription_id command = Some ""%string) then
        reject_command command "subscriptionId must be a non-empty string"
      else
        let! s := gets id in
        let cid := command_id command in
        if match cid with Some i => bool_decide (i ∈ seen_command_ids s) | None => false end then
          duplicate_command_events command "duplicate commandId"
        else
          match cid with
          | Some i => modify (set_seen_command_ids (λ ids, {[i]} ∪ ids))
          | None => ret tt
          end ;;;
          if match publish_key command with
             | Some k => bool_decide (k ∈ seen_idempotency_keys s)
             | None => false
             end
          then duplicate_command_events command "duplicate idempotencyKey"
          else dispatch command
  end.

(** The runtime node: one reduction per command of its batch, in order; it emits
    the events of each. *)
Definition runtime (commands : list (MessageBusCommand T)) : MB (list Event) :=
  fold_each commands (λ events c, let! e := reduce_message_bus_command c in ret (events ++ e)) [].

(** ** Construction and subscriptions *)

Definition unique_topics_ok (l : list string) : bool :=
  forallb (λ t, negb (bool_decide (t = ""%string))) l && bool_decide (NoDup l).

(** [with_options] panics on an empty or a repeated topic. *)
Definition bus_new (policy : MessageBusTopicPolicy) (initial : list string) : option (MessageBusState T) :=
  if unique_topics_ok initial then
    Some (mkBusState 0 policy (bt_of_list ((λ t, (t, make_topic_state)) <$> sort_by key_cmp initial))
            [] ∅ ∅ [] 0)
  else None.

Definition ensure_subscription (topic subscription_id : string) (from : MessageBusSubscriptionFrom)
    : MB (SubscriptionState * bool * option DataIssue) :=
  let key := subscription_key topic subscription_id in
  let! s := gets id in
  match bt_get key (subscriptions s) with
  | Some existing => ret (existing, false, None)
  | None =>
      let topic_range := (λ t, (ts_head_seq t, ts_next_seq t)) <$> bt_get topic (topics s) in
      let next_seq :=
        match from with
        | Earliest => from_option fst 1 topic_range
        | Latest => from_option snd 1 topic_range
        | FromSeq seq => seq
        end in
      let issue :=
        match topic_range with
        | Some (head_seq, tail_seq) =>
            if (next_seq <? head_seq) || (tail_seq <? next_seq) then
              Some (mkDataIssue "issue" "cursor-out-of-range"
                ("subscription start seq " +:+ u64_string next_seq +:+ " is outside retained range "
                   +:+ u64_string head_seq +:+ "..=" +:+ u64_string tail_seq)
                "error" "messageBus" (Some topic) (Some ("subscriptionId=" +:+ subscription_id)))
            else None
        | None => None
        end in
      let next_seq := match issue with Some _ => from_option fst 1 topic_range | None => next_seq end in
      match issue with
      | Some issue =>
          let! seq := gets dead_letter_seq in
          let! t := timestamp_or_zero in
          modify (push_dead_letter (mkDeadLetter (seq + 1) (Some topic) None None issue t))
      | None => ret tt
      end ;;;
      let sub := mkSubscription topic subscription_id next_seq false
                   match topic_range with Some (head_seq, _) => next_seq <? head_seq | None => false end in
      modify (set_subscriptions (bt_insert key sub)) ;;;
      ret (sub, true, issue)
  end.

Definition from_debug (from : MessageBusSubscriptionFrom) : string :=
  match from with
  | Earliest => "Earliest"
  | Latest => "Latest"
  | FromSeq n => "Seq(" +:+ u64_string n +:+ ")"
  end.

(** [subscription]: the facts it sets on the status and issue nodes. *)
Definition subscription (topic subscription_id : string) (from : MessageBusSubscriptionFrom)
    : MB (SubscriptionState * list Event) :=
  match validate_topic_key topic "messageBus.subscription" with
  | Some error => panic (PanicStr error)
  | None => ret tt
  end ;;;
  assert_or (negb (bool_decide (subscription_id = ""%string)))
    "messageBus.subscriptionId: must be a non-empty string" ;;;
  let! r := ensure_subscription topic subscription_id from in
  let '(sub, opened, issue) := r in
  let! status :=
    (if opened : bool then
       let! e := status_event SubscriptionOpened
         (mkStatusFields (Some (sub_topic sub)) None None (Some (sub_id sub)) (Some (sub_next_seq sub)) None
            (Some ("from=" +:+ from_debug from))) in
       ret [e]
     else ret []) in
  ret (sub, status ++ match issue with Some i => [EIssue i] | None => [] end).

(** Which statuses make the cursor node of a subscription emit. *)
Definition cursor_moves (sub : SubscriptionState) (status : MessageBusStatus) : bool :=
  let f := bs_fields status in
  bool_decide (sf_topic f = Some (sub_topic sub))
  && (bool_decide (sf_subscription_id f = Some (sub_id sub))
      && match bs_kind status with
         | SubscriptionOpened | SubscriptionAcked | SubscriptionSought | SubscriptionClosed => true
         | _ => false
         end
      || bool_decide (bs_kind status = RetentionTrimmed)).

(** [to_topic]: one [Publish] per value of the source. *)
Definition to_topic_commands (topic : string) (values : list T) : list (MessageBusCommand T) :=
  (λ v, Publish topic v None None None) <$> values.
End Reducer.
Arguments bus_new {T} _ _.

(** ** Projections *)

Section Pages.
Context {T : Type} `{!TupleText}.
Implicit Types s : MessageBusState T.

(** [positive_limit] panics on zero: no page. *)
Definition positive_limit (limit : option nat) : option nat :=
  match default 100%nat limit with O => None | S n => Some (S n) end.

Record MessageBusCatalogEntry := mkCatalogEntry {
  ce_topic : string;
  ce_closed : bool;
  ce_head_seq : N;
  ce_next_seq : N;
  ce_message_count : nat
}.

Definition catalog_page s (limit : option nat) (after_topic : option string) (include_closed : bool)
    : option (Page MessageBusCatalogEntry string) :=
  limit ← positive_limit limit;
  Some (page_of limit ce_topic
    ((λ '(t, v), mkCatalogEntry t (ts_closed v) (ts_head_seq v) (ts_next_seq v) (length (ts_messages v)))
     <$> List.filter (λ '(t, v), (include_closed || negb (ts_closed v))
                        && match after_topic with Some after => key_lt after t | None => true end)
           (topics s))).

Record MessageBusTopicPage := mkTopicPage {
  tp_topic : string;
  tp_from_seq : N;
  tp_through_seq : option N;
  tp_page : Page (MessageEnvelope T) N
}.

Definition messages_from (start : N) (t : option (TopicState T)) : list (MessageEnvelope T) :=
  match t with Some t => List.filter (λ m, start <=? me_seq m) (ts_messages t) | None => [] end.

Definition topic_page s (topic_name : string) (limit : option nat) (after_seq : option N)
    : option MessageBusTopicPage :=
  let t := bt_get topic_name (topics s) in
  let start := match after_seq with Some seq => seq + 1 | None => from_option ts_head_seq 1 t end in
  limit ← positive_limit limit;
  let page := page_of limit me_seq (messages_from start t) in
  Some (mkTopicPage topic_name start (me_seq <$> last (pg_items page)) page).

Record MessageBusCursor := mkCursor {
  cu_topic : string;
  cu_subscription_id : string;
  cu_next_seq : N;
  cu_closed : bool;
  cu_retention_gap : bool;
  cu_head_seq : N
}.

(** The state's record of the subscription, or the one the projection captured. *)
Definition current_sub s (sub : SubscriptionState) : SubscriptionState :=
  default sub (bt_get (subscription_key (sub_topic sub) (sub_id sub)) (subscriptions s)).

Definition cursor_snapshot s (sub : SubscriptionState) : MessageBusCursor :=
  let sub := current_sub s sub in
  mkCursor (sub_topic sub) (sub_id sub) (sub_next_seq sub) (sub_closed sub) (sub_retention_gap sub)
    (from_option ts_head_seq 1 (bt_get (sub_topic sub) (topics s))).

Record MessageBusAvailablePage := mkAvailablePage {
  ap_cursor : MessageBusCursor;
  ap_from_seq : N;
  ap_through_seq : option N;
  ap_page : Page (MessageEnvelope T) N
}.

Definition available_page s (sub_key : SubscriptionState) (limit : option nat) (after_seq : option N)
    : option MessageBusAvailablePage :=
  let sub := current_sub s sub_key in
  let start := match after_seq with Some seq => seq + 1 | None => sub_next_seq sub end in
  let all := if sub_retention_gap sub then [] else messages_from start (bt_get (sub_topic sub) (topics s)) in
  limit ← positive_limit limit;
  let page := page_of limit me_seq all in
  Some (mkAvailablePage (cursor_snapshot s sub) start (me_seq <$> last (pg_items page)) page).

Definition dead_letter_page s (limit : option nat) (after_entry_seq : option N) (topic code : option string)
    : option (Page (MessageBusDeadLetterEntry T) N) :=
  limit ← positive_limit limit;
  Some (page_of limit dl_entry_seq
    (List.filter (λ e,
       match after_entry_seq with Some after => after <? dl_entry_seq e | None => true end
       && match topic with Some t => bool_decide (dl_topic e = Some t) | None => true end
       && match code with Some c => bool_decide (di_code (dl_issue e) = c) | None => true end)
       (dead_letters s))).
End Pages.
Arguments MessageBusTopicPage : clear implicits.
Arguments MessageBusAvailablePage : clear implicits.
End Bus.
