(* ===== verification/MessageBusFacts.v ===== *)
(** * What the message bus guarantees

    [bus_inv s pub] relates a state to everything published so far: [pub t] are
    the messages of topic [t], in order.  The reducer keeps it for every command
    ([reduce_inv]), so it holds of every run; the theorems read it off: sequence
    numbers count, the retained log is a suffix of what was published, a message
    is published once per command id and per idempotency key, and a subscription
    that is not flagged has lost nothing. *)

From Stdlib Require Import Ascii String Sorted.
From stdpp Require Import base option strings numbers gmap sorting list.
From S2P Require Import Prelude BTree Text Json Storage Pages MessageBus.
Import Bus.

Local Open Scope rx_scope.
Local Open Scope N_scope.

Section Facts.
Context {T : Type} `{!TupleText} (cfg : BusConfig).
Implicit Types s : MessageBusState T.
Implicit Types m : MessageEnvelope T.
Abbreviation Pub := (string → list (MessageEnvelope T)).

(** ** Runs of the small steps *)

Definition tick s : MessageBusState T := set_ticks S s.
Definition reading s : N := default 0 (now cfg (ticks s)).

Lemma timestamp_run s : timestamp_or_zero cfg s = Ret (reading s) (tick s).
Proof. done. Qed.

Lemma status_event_run kind fields s :
  status_event cfg kind fields s = Ret (EStatus (mkStatus kind fields None (reading s))) (tick s).
Proof. done. Qed.

Definition issue_topic (command : option (MessageBusCommand T)) (message : option (MessageEnvelope T)) :
    option string :=
  match command ≫= command_topic with Some t => Some t | None => me_topic <$> message end.

(** The state after an issue: one more dead letter. *)
Definition with_dead_letter s command message (issue : DataIssue) : MessageBusState T :=
  push_dead_letter
    (mkDeadLetter (dead_letter_seq s + 1) (issue_topic command message) command message issue (reading s))
    (tick s).

Lemma issue_events_run command message code text s :
  issue_events cfg command message code text s
  = Ret [EIssue (issue_of code text (issue_topic command message))]
      (with_dead_letter s command message (issue_of code text (issue_topic command message))).
Proof. done. Qed.

Definition is_message (e : RuntimeEvent T) : option (MessageEnvelope T) :=
  match e with EMessage m => Some m | _ => None end.

(** The messages of a topic among some events. *)
Definition published (t : string) (events : list (RuntimeEvent T)) : list (MessageEnvelope T) :=
  List.filter (λ m, bool_decide (me_topic m = t)) (omap is_message events).

Lemma published_app t e1 e2 : published t (e1 ++ e2) = published t e1 ++ published t e2.
Proof. unfold published. by rewrite omap_app, List.filter_app. Qed.

(** ** The invariant *)

Record topic_inv (t : string) (pub : list (MessageEnvelope T)) (st : TopicState T) : Prop := {
  ti_next : ts_next_seq st = N.of_nat (length pub) + 1;
  ti_head : 1 ≤ ts_head_seq st ≤ ts_next_seq st;
  ti_retained : ts_messages st `sublist_of` pub;
  ti_after_head : Forall (λ m, ts_head_seq st ≤ me_seq m) (ts_messages st);
  ti_suffix : max_age_ms (retention cfg) = None → ts_messages st = drop (N.to_nat (ts_head_seq st - 1)) pub
}.

(** Numbered from one, on its own topic. *)
Definition numbered (t : string) (pub : list (MessageEnvelope T)) : Prop :=
  ∀ k m, pub !! k = Some m → me_seq m = N.of_nat k + 1 ∧ me_topic m = t.

Record bus_inv s (pub : Pub) : Prop := {
  bi_topics : bt_wf (topics s);
  bi_known t st : bt_get t (topics s) = Some st → topic_inv t (pub t) st;
  bi_unknown t : bt_get t (topics s) = None → pub t = [];
  bi_numbered t : numbered t (pub t);
  bi_subs : bt_wf (subscriptions s);
  bi_sub_key k sub : bt_get k (subscriptions s) = Some sub → k = subscription_key (sub_topic sub) (sub_id sub);
  bi_sub_gap k sub st :
    bt_get k (subscriptions s) = Some sub → sub_closed sub = false → sub_retention_gap sub = false →
    bt_get (sub_topic sub) (topics s) = Some st → ts_head_seq st ≤ N.max 1 (sub_next_seq sub);
  bi_ids t m i : m ∈ pub t → me_command_id m = Some i → i ∈ seen_command_ids s;
  bi_keys t m k : m ∈ pub t → me_idempotency_key m = Some k → idempotency_key_for t k ∈ seen_idempotency_keys s;
  bi_ids_once t : NoDup (omap me_command_id (pub t));
  bi_keys_once t : NoDup (omap me_idempotency_key (pub t));
  bi_dead : imap (λ k e, (N.of_nat k + 1)) (dead_letters s) = dl_entry_seq <$> dead_letters s;
  bi_dead_seq : dead_letter_seq s = N.of_nat (length (dead_letters s))
}.

(** The invariant does not look at the clock. *)
Lemma inv_tick s pub : bus_inv s pub → bus_inv (tick s) pub.
Proof. by intros []. Qed.

Lemma inv_push_dead_letter s pub e :
  bus_inv s pub → dl_entry_seq e = dead_letter_seq s + 1 → bus_inv (push_dead_letter e s) pub.
Proof.
  intros [] He. split; try done; simpl.
  - rewrite imap_app, fmap_app, bi_dead0. simpl. by rewrite He, bi_dead_seq0, Nat.add_0_r.
  - rewrite He, bi_dead_seq0, length_app. simpl. lia.
Qed.

Lemma inv_dead_letter s pub command message issue :
  bus_inv s pub → bus_inv (with_dead_letter s command message issue) pub.
Proof. intros Hi. by apply inv_push_dead_letter; [apply inv_tick|]. Qed.

Lemma inv_seen_command s pub i : bus_inv s pub → bus_inv (set_seen_command_ids (λ ids, {[i]} ∪ ids) s) pub.
Proof. intros []. split; try done. simpl. intros t m j Hm Hj. apply elem_of_union_r. by eapply bi_ids0. Qed.

Lemma inv_policy s pub p : bus_inv s pub → bus_inv (set_topic_policy (λ _, p) s) pub.
Proof. by intros []. Qed.

Lemma inv_pub_ext s pub pub' : bus_inv s pub → (∀ t, pub' t = pub t) → bus_inv s pub'.
Proof. intros [] He. split; intros; rewrite ?He in *; eauto. Qed.

(** ** Numbered logs *)

Lemma numbered_elem t pub m : numbered t pub → m ∈ pub →
  1 ≤ me_seq m ≤ N.of_nat (length pub) ∧ me_topic m = t ∧ pub !! N.to_nat (me_seq m - 1) = Some m.
Proof.
  intros Hn [k Hk]%list_elem_of_lookup_1. pose proof (lookup_lt_Some _ _ _ Hk). destruct (Hn _ _ Hk) as [Hs Ht].
  split_and!; [lia..|done|]. by replace (N.to_nat (me_seq m - 1)) with k by lia.
Qed.

Lemma numbered_snoc t pub m :
  numbered t pub → me_seq m = N.of_nat (length pub) + 1 → me_topic m = t → numbered t (pub ++ [m]).
Proof.
  intros Hn Hs Ht k m' Hk. apply lookup_app_Some in Hk as [Hk|[Hl Hk]]; [by apply Hn|].
  apply list_lookup_singleton_Some in Hk as [Hk ->]. split; [lia|done].
Qed.

Lemma sublist_elem {A} (l k : list A) x : l `sublist_of` k → x ∈ l → x ∈ k.
Proof. intros Hs Hx. by eapply sublist_subseteq. Qed.

(** What follows a retained message has a greater number. *)
Lemma sublist_head_least t pub m l :
  numbered t pub → m :: l `sublist_of` pub → Forall (λ m', me_seq m ≤ me_seq m') (m :: l).
Proof.
  intros Hn (k1 & k2 & -> & Hs)%sublist_cons_l.
  assert (me_seq m = N.of_nat (length k1) + 1) as Hm by (by apply (Hn (length k1)), list_lookup_middle).
  constructor; [lia|]. apply Forall_forall. intros m' Hm'.
  apply (sublist_elem _ _ _ Hs), list_elem_of_lookup_1 in Hm' as [j Hj].
  destruct (Hn (length k1 + Datatypes.S j)%nat m') as [Hs' _]; [|lia].
  rewrite lookup_app_r by lia. by replace (length k1 + Datatypes.S j - length k1)%nat with (Datatypes.S j) by lia.
Qed.

(** Reading a suffix by its first number. *)
Lemma filter_from t pub start :
  numbered t pub →
  List.filter (λ m, start <=? me_seq m) pub = drop (N.to_nat (start - 1)) pub.
Proof.
  intros Hn.
  cut (∀ l k, (∀ j m, l !! j = Some m → me_seq m = N.of_nat (k + j) + 1) →
    List.filter (λ m, start <=? me_seq m) l = drop (N.to_nat (start - 1) - k) l).
  { intros Hc. rewrite (Hc pub 0%nat); [by rewrite Nat.sub_0_r|]. intros j m Hj. by destruct (Hn j m Hj). }
  clear Hn. intros l. induction l as [|m l IH]; intros k Hk; [by rewrite drop_nil|]. simpl.
  pose proof (Hk 0%nat m eq_refl) as Hm. rewrite Nat.add_0_r in Hm.
  assert (∀ j m', l !! j = Some m' → me_seq m' = N.of_nat (Datatypes.S k + j) + 1) as Hk'.
  { intros j m' Hj. rewrite (Hk (Datatypes.S j) m' Hj). lia. }
  destruct (N.leb_spec start (me_seq m)) as [Hle|Hlt].
  - replace (N.to_nat (start - 1) - k)%nat with 0%nat by lia. rewrite (IH _ Hk'), drop_0.
    by replace (N.to_nat (start - 1) - Datatypes.S k)%nat with 0%nat by lia.
  - rewrite (IH _ Hk'). by replace (N.to_nat (start - 1) - k)%nat with
      (Datatypes.S (N.to_nat (start - 1) - Datatypes.S k)) by lia.
Qed.

Lemma filter_none {A} (p : A → bool) l : Forall (λ x, p x = false) l → List.filter p l = [].
Proof. induction 1 as [|x l Hx _ IH]; [done|]. simpl. by rewrite Hx. Qed.

(** A filter over a suffix is a suffix from the later of the two starts. *)
Lemma filter_drop t pub start i :
  numbered t pub → N.of_nat i + 1 ≤ N.max 1 start →
  List.filter (λ m, start <=? me_seq m) (drop i pub) = drop (N.to_nat (start - 1)) pub.
Proof.
  intros Hn Hi. rewrite <- (filter_from t) by done. rewrite <- (take_drop i pub) at 2.
  rewrite List.filter_app, (filter_none _ (take i pub)); [done|].
  apply Forall_forall. intros m [k Hk]%list_elem_of_lookup_1. apply lookup_take_Some in Hk as [Hk Hki].
  destruct (Hn k m Hk) as [Hs _]. apply N.leb_gt. lia.
Qed.

(** ** One topic changes *)

Definition upd_topic_state s t (st : TopicState T) : MessageBusState T :=
  set_topics (bt_insert t st) s.

Lemma upd_topic_run t f s st :
  bt_get t (topics s) = Some st → upd_topic t f s = Ret tt (upd_topic_state s t (f st)).
Proof. intros Hg. unfold upd_topic, modify, upd_topic_state, set_topics. by rewrite Hg. Qed.

Lemma upd_topic_twice s t st st' : upd_topic_state (upd_topic_state s t st) t st' = upd_topic_state s t st'.
Proof. unfold upd_topic_state, set_topics. simpl. by rewrite bt_insert_insert. Qed.

Lemma get_upd_topic s t st : bt_get t (topics (upd_topic_state s t st)) = Some st.
Proof. apply bt_get_insert. Qed.

(** A new state of topic [t], and subscriptions with more flags. *)
Definition flagged (f : SubscriptionState → SubscriptionState) : Prop :=
  ∀ sub, f sub = sub ∨ f sub = flag_gap sub.

Definition map_subs (f : SubscriptionState → SubscriptionState) s : MessageBusState T :=
  set_subscriptions (λ subs, (λ ks, (ks.1, f ks.2)) <$> subs) s.

Lemma inv_topic s pub t st st' f :
  bus_inv s pub → bt_get t (topics s) = Some st → topic_inv t (pub t) st' → flagged f →
  (∀ sub, sub_topic sub = t → sub_closed (f sub) = false → sub_retention_gap (f sub) = false →
     ts_head_seq st ≤ N.max 1 (sub_next_seq sub) → ts_head_seq st' ≤ N.max 1 (sub_next_seq sub)) →
  bus_inv (map_subs f (upd_topic_state s t st')) pub.
Proof.
  intros [] Hg Ht Hf Hh. split; try done; simpl.
  - by apply bt_insert_wf.
  - intros t' st2. rewrite bt_lookup_insert. case_decide; [intros [= <-]; by subst|apply bi_known0].
  - intros t'. rewrite bt_lookup_insert. case_decide; [done|apply bi_unknown0].
  - by apply bt_map_wf.
  - intros k sub. rewrite bt_get_map. intros (sub0 & Hs & ->)%fmap_Some.
    apply bi_sub_key0 in Hs as ->. by destruct (Hf sub0) as [->| ->].
  - intros k sub st2. rewrite bt_get_map. intros (sub0 & Hs & ->)%fmap_Some Hc Hgap.
    assert (sub_topic (f sub0) = sub_topic sub0 ∧ sub_next_seq (f sub0) = sub_next_seq sub0
            ∧ sub_closed sub0 = false ∧ sub_retention_gap sub0 = false) as (Et & En & Ec & Eg)
      by (destruct (Hf sub0) as [E|E]; rewrite E in *; done).
    rewrite Et, En, bt_lookup_insert. case_decide as Htt.
    + intros [= <-]. apply Hh; [done..|]. apply (bi_sub_gap0 k); [done..|by rewrite Htt].
    + by apply (bi_sub_gap0 k).
Qed.

Lemma map_subs_id s : map_subs (λ sub, sub) s = s.
Proof.
  unfold map_subs, set_subscriptions. destruct s. simpl. f_equal.
  rewrite <- (list_fmap_id subscriptions0) at 2. apply list_fmap_ext. by intros ? [].
Qed.

(** The same with the subscriptions as they are. *)
Lemma inv_same_head s pub t st st' :
  bus_inv s pub → bt_get t (topics s) = Some st → topic_inv t (pub t) st' → ts_head_seq st' = ts_head_seq st →
  bus_inv (upd_topic_state s t st') pub.
Proof.
  intros Hi Hg Ht Hh. rewrite <- (map_subs_id (upd_topic_state s t st')).
  apply (inv_topic s pub t st); [done..|by left|]. by rewrite Hh.
Qed.

(** ** Steps that publish nothing *)

Definition quiet (op : M (MessageBusState T) (list (RuntimeEvent T))) s (pub : Pub) : Prop :=
  total op s (λ ev s', bus_inv s' pub ∧ omap is_message ev = []).

Lemma quiet_ret s pub ev : bus_inv s pub → omap is_message ev = [] → quiet (ret ev) s pub.
Proof. done. Qed.

Lemma quiet_issue command message code text s pub :
  bus_inv s pub → quiet (issue_events cfg command message code text) s pub.
Proof. intros Hi. split; [by apply inv_dead_letter|done]. Qed.

Lemma quiet_status kind fields s pub :
  bus_inv s pub →
  quiet (let! e := status_event cfg kind fields in ret [e]) s pub.
Proof. intros Hi. split; [by apply inv_tick|done]. Qed.

Lemma quiet_bind {A} (m : M (MessageBusState T) A) (k : A → M (MessageBusState T) (list (RuntimeEvent T)))
    s pub a s' :
  m s = Ret a s' → quiet (k a) s' pub → quiet (let! x := m in k x) s pub.
Proof. intros Hm Hk. by eapply total_step. Qed.

Lemma quiet_issues {A} (l : list A) (text : A → string) acc s pub :
  bus_inv s pub → omap is_message acc = [] →
  quiet (fold_each l (λ events x,
    let! e := issue_events cfg None None "retention-gap" (text x) in ret (events ++ e)) acc) s pub.
Proof.
  revert acc s. induction l as [|x l IH]; intros acc s Hi Ha; [done|]. cbn [fold_each].
  eapply quiet_bind.
  { rewrite (bind_step _ _ _ _ _ (issue_events_run _ _ _ _ s)). done. }
  apply IH; [by apply inv_dead_letter|]. by rewrite omap_app, Ha.
Qed.

(** *** Retention *)

Lemma young_sublist now_ms (l : list (MessageEnvelope T)) : retain_young cfg now_ms l `sublist_of` l.
Proof.
  unfold retain_young. destruct (max_age_ms _); [|done]. induction l as [|m l IH]; simpl; [done|].
  destruct (_ <=? _); [by apply sublist_skip|by apply sublist_cons].
Qed.

Lemma retained_inv t pub st l :
  topic_inv t pub st → numbered t pub → l `sublist_of` ts_messages st →
  (max_age_ms (retention cfg) = None → ∃ j, l = drop j (ts_messages st)) →
  topic_inv t pub (mkTopicState (ts_closed st)
    (match l with m :: _ => me_seq m | [] => ts_next_seq st end) (ts_next_seq st) l)
  ∧ ts_head_seq st ≤ match l with m :: _ => me_seq m | [] => ts_next_seq st end.
Proof.
  intros [Hnext Hhead Hret Hafter Hsuf] Hn Hl Hd.
  assert (l `sublist_of` pub) as Hlp by (by etrans).
  assert (ts_head_seq st ≤ match l with m :: _ => me_seq m | [] => ts_next_seq st end
          ≤ ts_next_seq st) as Hle.
  { destruct l as [|m l]; [lia|]. split.
    - rewrite Forall_forall in Hafter. apply Hafter. eapply sublist_elem; [exact Hl|by left].
    - destruct (numbered_elem t pub m Hn); [|lia]. eapply sublist_elem; [exact Hlp|by left]. }
  split; [|lia]. split; simpl; [done|lia|done| |].
  - destruct l as [|m l]; [done|]. by apply (sublist_head_least t pub).
  - intros Hage. destruct (Hd Hage) as [j ->]. rewrite (Hsuf Hage), drop_drop.
    set (i := (N.to_nat (ts_head_seq st - 1) + j)%nat).
    destruct (drop i pub) as [|m l'] eqn:Hdrop.
    + rewrite Hnext, drop_ge by lia. done.
    + assert (pub !! i = Some m) as Hm by (by rewrite <- (Nat.add_0_r i), <- lookup_drop, Hdrop).
      destruct (Hn i m Hm) as [-> _]. by replace (N.to_nat (N.of_nat i + 1 - 1)) with i by lia.
Qed.

(** Age only, as the rejected policy leaves it. *)
Lemma young_inv t pub st now_ms :
  topic_inv t pub st → topic_inv t pub (set_messages (retain_young cfg now_ms (ts_messages st)) st).
Proof.
  intros []. split; simpl; try done.
  - etrans; [apply young_sublist|done].
  - apply Forall_forall. intros m Hm. rewrite Forall_forall in ti_after_head0. apply ti_after_head0.
    eapply sublist_elem; [apply young_sublist|done].
  - intros Hage. rewrite <- (ti_suffix0 Hage). unfold retain_young. by rewrite Hage.
Qed.

Lemma trim_quiet t s pub : bus_inv s pub → quiet (trim_retention cfg t) s pub.
Proof.
  intros Hi. unfold trim_retention.
  eapply quiet_bind; [apply timestamp_run|]. apply (inv_tick s pub) in Hi as Hi1. set (s1 := tick s) in *.
  eapply quiet_bind; [done|]. cbv beta.
  destruct (bt_get t (topics s1)) as [st|] eqn:Hg; [|by apply quiet_ret].
  eapply quiet_bind; [by apply (upd_topic_run t _ _ st)|].
  set (young := retain_young cfg (reading s) (ts_messages st)).
  set (s2 := upd_topic_state s1 t (set_messages young st)).
  case_bool_decide.
  { apply quiet_issue, (inv_same_head s1 pub t st); [done..| |done]. by apply young_inv, (bi_known s1 pub). }
  eapply quiet_bind; [apply (upd_topic_run t _ s2 _ (get_upd_topic _ _ _))|].
  set (l := match max_messages (retention cfg) with
            | Some max => drop (length young - max) young
            | None => young
            end).
  unfold s2. rewrite upd_topic_twice.
  eapply quiet_bind; [apply (upd_topic_run t _ _ _ (get_upd_topic _ _ _))|]. rewrite upd_topic_twice.
  set (head := match l with m :: _ => me_seq m | [] => ts_next_seq st end).
  destruct (retained_inv t (pub t) st l) as [Ht Hh].
  { by apply (bi_known s1 pub). } { apply (bi_numbered _ _ Hi). }
  { subst l. destruct (max_messages _); [etrans; [apply sublist_drop|]|]; apply young_sublist. }
  { intros Hage. subst l young. unfold retain_young. rewrite Hage.
    destruct (max_messages _); [by eexists|]. by exists 0%nat. }
  fold head in Ht, Hh.
  change (set_head_seq head (set_messages l (set_messages young st)))
    with (mkTopicState (ts_closed st) head (ts_next_seq st) l).
  set (st' := mkTopicState _ _ _ _) in *.
  destruct (N.eqb_spec head (ts_head_seq st)) as [He|Hne].
  { apply quiet_ret; [|done]. by apply (inv_same_head s1 pub t st). }
  eapply quiet_bind; [apply status_event_run|]. eapply quiet_bind; [done|]. cbv beta.
  eapply quiet_bind; [done|]. apply quiet_issues; [|done].
  set (s3 := tick (upd_topic_state s1 t st')).
  assert (set_subscriptions (λ subs,
      (λ ks, if overtaken t head ks.2 then (ks.1, flag_gap ks.2) else ks) <$> subs) s3
    = tick (map_subs (λ sub, if overtaken t head sub then flag_gap sub else sub) (upd_topic_state s1 t st'))) as ->.
  { unfold map_subs, set_subscriptions, tick, set_ticks. simpl. f_equal. apply list_fmap_ext.
    intros ? [k sub] _. simpl. by destruct (overtaken _ _ _). }
  apply inv_tick, (inv_topic s1 pub t st); [done..| |].
  - intros sub. destruct (overtaken _ _ _); [by right|by left].
  - intros sub Hst Hc Hgap Hle. simpl. destruct (overtaken t head sub) eqn:Ho; [done|].
    unfold overtaken in Ho. rewrite Hc, Hgap, bool_decide_true in Ho by done. simpl in Ho.
    rewrite andb_true_r in Ho. apply N.ltb_ge in Ho. lia.
Qed.

(** *** Publishing *)

Lemma inv_seen_key s pub k : bus_inv s pub → bus_inv (set_seen_idempotency_keys (λ ks, {[k]} ∪ ks) s) pub.
Proof. intros []. split; try done. simpl. intros t m j Hm Hj. apply elem_of_union_r. by eapply bi_keys0. Qed.

Definition extend (pub : Pub) (t : string) m : Pub := λ t', pub t' ++ if decide (t' = t) then [m] else [].

Lemma NoDup_omap_snoc {A B} (f : A → option B) (l : list A) x :
  NoDup (omap f l) → (∀ b y, f x = Some b → y ∈ l → f y ≠ Some b) → NoDup (omap f (l ++ [x])).
Proof.
  intros Hl Hx. rewrite omap_app. apply NoDup_app. split; [done|]. simpl.
  destruct (f x) as [b|] eqn:Hfx; [|split; [by intros ?? ?%elem_of_nil|constructor]].
  split; [|apply NoDup_singleton]. intros b' (y & Hy & Hb)%list_elem_of_omap ->%list_elem_of_singleton.
  by apply (Hx b y).
Qed.

Lemma inv_publish s pub t st m :
  bus_inv s pub → bt_get t (topics s) = Some st → me_topic m = t → me_seq m = ts_next_seq st →
  (∀ i, me_command_id m = Some i → i ∈ seen_command_ids s ∧ ∀ m', m' ∈ pub t → me_command_id m' ≠ Some i) →
  (∀ k, me_idempotency_key m = Some k →
     idempotency_key_for t k ∈ seen_idempotency_keys s ∧ ∀ m', m' ∈ pub t → me_idempotency_key m' ≠ Some k) →
  bus_inv (upd_topic_state s t
    (mkTopicState (ts_closed st) (ts_head_seq st) (ts_next_seq st + 1) (ts_messages st ++ [m])))
    (extend pub t m).
Proof.
  intros [] Hg Hmt Hms Hid Hkey. destruct (bi_known0 t st Hg) as [Hnext Hhead Hret Hafter Hsuf].
  split; try done; simpl; unfold extend.
  - by apply bt_insert_wf.
  - intros t' st'. rewrite bt_lookup_insert. case_decide as Htt.
    + intros [= <-]. subst t'. rewrite decide_True by done. split; simpl.
      * rewrite Hnext, length_app. simpl. lia.
      * lia.
      * by apply sublist_app.
      * apply Forall_app. split; [done|]. apply Forall_singleton. lia.
      * intros Hage. rewrite (Hsuf Hage), drop_app_le by lia. done.
    + rewrite decide_False, app_nil_r by done. apply bi_known0.
  - intros t'. rewrite bt_lookup_insert. case_decide; [done|]. rewrite decide_False, app_nil_r by done. apply bi_unknown0.
  - intros t'. case_decide; [subst t'|rewrite app_nil_r; apply bi_numbered0].
    apply numbered_snoc; [done| |done]. by rewrite Hms.
  - intros k sub st'. rewrite bt_lookup_insert. intros Hs Hc Hgap. case_decide as Htt; [|by apply (bi_sub_gap0 k)].
    intros [= <-]. simpl. apply (bi_sub_gap0 k); [done..|by rewrite Htt].
  - intros t' m' i [Hm'|Hm']%elem_of_app; [by eapply bi_ids0|].
    case_decide; [|by apply elem_of_nil in Hm']. apply list_elem_of_singleton in Hm' as ->. intros Hi. by apply Hid.
  - intros t' m' k [Hm'|Hm']%elem_of_app; [by eapply bi_keys0|].
    case_decide; [|by apply elem_of_nil in Hm']. apply list_elem_of_singleton in Hm' as ->. subst t'.
    intros Hk. by apply Hkey.
  - intros t'. case_decide; [subst t'|rewrite app_nil_r; apply bi_ids_once0].
    apply NoDup_omap_snoc; [done|]. intros i m' Hi Hm'. by apply Hid.
  - intros t'. case_decide; [subst t'|rewrite app_nil_r; apply bi_keys_once0].
    apply NoDup_omap_snoc; [done|]. intros k m' Hk Hm'. by apply Hkey.
Qed.

(** What an operation may publish: the invariant follows the messages. *)
Definition publishes (op : M (MessageBusState T) (list (RuntimeEvent T))) s (pub : Pub) : Prop :=
  total op s (λ ev s', bus_inv s' (λ t, pub t ++ published t ev)).

Lemma quiet_publishes op s pub : quiet op s pub → publishes op s pub.
Proof.
  intros Hq. eapply total_conseq; [exact Hq|]. intros ev s' [Hi He]. eapply inv_pub_ext; [exact Hi|].
  intros t. unfold published. by rewrite He, app_nil_r.
Qed.

(** A command id that is recorded but not used by any message yet. *)
Definition fresh_id s (pub : Pub) (cid : option string) : Prop :=
  ∀ i, cid = Some i → i ∈ seen_command_ids s ∧ ∀ t m, m ∈ pub t → me_command_id m ≠ Some i.

Definition fresh_key s (t : string) (key : option string) : Prop :=
  ∀ k, key = Some k → idempotency_key_for t k ∉ seen_idempotency_keys s.

Lemma publish_known_inv t payload key cid idem events s pub :
  bus_inv s pub → fresh_id s pub cid → fresh_key s t idem → omap is_message events = [] →
  publishes (publish_known cfg t payload key cid idem events) s pub.
Proof.
  intros Hi Hid Hkey He. unfold publish_known, publishes.
  eapply total_step; [done|]. cbv beta.
  destruct (bt_get t (topics s)) as [st|] eqn:Hg; [|by apply quiet_publishes, quiet_issue].
  destruct (ts_closed st) eqn:Hc; [by apply quiet_publishes, quiet_issue|].
  eapply total_step; [apply timestamp_run|]. apply (inv_tick s pub) in Hi as Hi1. set (s1 := tick s) in *.
  set (m := mkEnvelope t (ts_next_seq st) payload key (reading s) cid idem).
  eapply total_step; [by apply (upd_topic_run t _ s1 st)|].
  set (s2 := upd_topic_state s1 t _).
  set (mark := (match idem with Some k => set_seen_idempotency_keys (λ ks, {[idempotency_key_for t k]} ∪ ks) | None => λ s, s end)
              : MessageBusState T → MessageBusState T).
  eapply (total_step _ _ _ tt (mark s2)); [by unfold mark; destruct idem|].
  eapply total_step.
  { apply (upd_topic_run t _ _ (mkTopicState (ts_closed st) (ts_head_seq st) (ts_next_seq st + 1) (ts_messages st))).
    unfold mark, s2. destruct idem; apply get_upd_topic. }
  set (st' := mkTopicState (ts_closed st) (ts_head_seq st) (ts_next_seq st + 1) (ts_messages st ++ [m])).
  set (s3 := upd_topic_state (mark s2) t _).
  assert (s3 = upd_topic_state (mark s1) t st') as E3.
  { unfold s3, s2, mark. destruct idem; unfold upd_topic_state, set_topics, set_seen_idempotency_keys; simpl;
      by rewrite bt_insert_insert. }
  assert (bus_inv (mark s1) pub) as Hi2 by (unfold mark; destruct idem; [by apply inv_seen_key|done]).
  assert (bus_inv s3 (extend pub t m)) as Hi3.
  { rewrite E3. apply inv_publish; try done.
    - by unfold mark; destruct idem.
    - intros i Hmi. simpl in Hmi. destruct (Hid i Hmi) as [H1 H2]. split; [by unfold mark; destruct idem|].
      intros m'. apply H2.
    - intros k Hk. simpl in Hk. subst idem. split; [unfold mark; simpl; set_solver|].
      intros m' Hm' Hk'. apply (Hkey k eq_refl). by apply (bi_keys _ _ Hi1 t m'). }
  clearbody s3. eapply total_step; [apply status_event_run|].
  eapply total_bind, total_conseq; [by apply (trim_quiet t (tick s3) (extend pub t m)), inv_tick|].
  intros trimmed s4 [Hi4 Ht4]. apply total_ret. eapply inv_pub_ext; [exact Hi4|]. intros t'.
  rewrite !published_app. unfold published at 1 3. rewrite He, Ht4. simpl. rewrite app_nil_r.
  unfold extend, published. simpl. destruct (decide (t' = t)) as [->|Hne].
  - by rewrite bool_decide_true.
  - rewrite bool_decide_false; [done|]. intros E. by apply Hne.
Qed.

Lemma inv_ensure t s pub :
  bus_inv s pub →
  bus_inv (set_topics (λ ts, match bt_get t ts with Some _ => ts | None => bt_insert t make_topic_state ts end) s) pub.
Proof.
  intros Hi. destruct (bt_get t (topics s)) eqn:Hg.
  { unfold set_topics. rewrite Hg. by destruct s. }
  destruct Hi. split; try done; simpl; rewrite Hg.
  - by apply bt_insert_wf.
  - intros t' st. rewrite bt_lookup_insert. case_decide; [|apply bi_known0]. intros [= <-]. subst.
    rewrite bi_unknown0 by done. by split; simpl; [lia|lia|..].
  - intros t'. rewrite bt_lookup_insert. case_decide; [done|apply bi_unknown0].
  - intros k sub st Hs Hc Hgap. rewrite bt_lookup_insert. case_decide; [|by apply (bi_sub_gap0 k)].
    intros [= <-]. simpl. lia.
Qed.

Lemma ensure_quiet t cid s pub : bus_inv s pub → quiet (ensure_topic cfg t cid) s pub.
Proof. intros Hi. eapply quiet_bind; [done|]. by apply quiet_status, inv_ensure. Qed.

Lemma ensure_run t cid s :
  let s1 := set_topics (λ ts, match bt_get t ts with Some _ => ts | None => bt_insert t make_topic_state ts end) s in
  ensure_topic cfg t cid s
  = Ret [EStatus (mkStatus TopicCreated (mkStatusFields (Some t) None None None None cid None) None (reading s1))]
      (tick s1).
Proof. done. Qed.

Lemma publish_inv t payload key cid idem s pub :
  bus_inv s pub → fresh_id s pub cid → fresh_key s t idem →
  publishes (publish_message cfg t payload key cid idem) s pub.
Proof.
  intros Hi Hid Hkey. unfold publish_message, publishes. eapply total_step; [done|]. unfold id at 1.
  destruct (bt_get t (topics s)); [by apply publish_known_inv|].
  destruct (decide _); [|by apply quiet_publishes, quiet_issue].
  eapply total_step; [apply ensure_run|]. apply publish_known_inv; [by apply inv_tick, inv_ensure|done..].
Qed.

(** *** Cursors *)

Lemma subscription_key_inj t i t' i' : subscription_key t i = subscription_key t' i' → t = t' ∧ i = i'.
Proof.
  unfold subscription_key, canonical_tuple_key. intros He%(f_equal parse_tuple).
  rewrite !parse_tuple_text in He. by injection He.
Qed.

Definition upd_sub_state s key (sub : SubscriptionState) : MessageBusState T :=
  set_subscriptions (bt_insert key sub) s.

Lemma upd_sub_run key f s sub :
  bt_get key (subscriptions s) = Some sub → upd_sub key f s = Ret tt (upd_sub_state s key (f sub)).
Proof. intros Hg. unfold upd_sub, modify, upd_sub_state, set_subscriptions. by rewrite Hg. Qed.

Lemma inv_sub s pub sub :
  bus_inv s pub →
  (sub_closed sub = false → sub_retention_gap sub = false → ∀ st, bt_get (sub_topic sub) (topics s) = Some st →
     ts_head_seq st ≤ N.max 1 (sub_next_seq sub)) →
  bus_inv (upd_sub_state s (subscription_key (sub_topic sub) (sub_id sub)) sub) pub.
Proof.
  intros [] Hsub. split; try done; simpl.
  - by apply bt_insert_wf.
  - intros k sub'. rewrite bt_lookup_insert. case_decide; [by intros [= <-]|apply bi_sub_key0].
  - intros k sub' st. rewrite bt_lookup_insert. case_decide; [intros [= <-] ???; by apply Hsub|apply bi_sub_gap0].
Qed.

(** A cursor command on a known subscription of a known topic. *)
Lemma cursor_quiet t i k s pub :
  bus_inv s pub →
  (∀ st sub, bt_get t (topics s) = Some st → bt_get (subscription_key t i) (subscriptions s) = Some sub →
     sub_topic sub = t → sub_id sub = i → quiet (k st sub) s pub) →
  quiet (with_cursor cfg t i k) s pub.
Proof.
  intros Hi Hk. unfold with_cursor. eapply quiet_bind; [done|]. unfold id at 1.
  destruct (bt_get t (topics s)) as [st|] eqn:Ht; [|by apply quiet_issue].
  change (subscriptions (id s)) with (subscriptions s).
  destruct (bt_get _ (subscriptions s)) as [sub|] eqn:Hs; [|by apply quiet_issue].
  apply (bi_sub_key _ _ Hi) in Hs as He. apply subscription_key_inj in He as [-> ->]. by apply Hk.
Qed.

(** Replacing the subscription and reporting it. *)
Lemma moved_quiet t i f kind fields s pub sub :
  bus_inv s pub → bt_get (subscription_key t i) (subscriptions s) = Some sub →
  sub_topic (f sub) = t → sub_id (f sub) = i →
  (sub_closed (f sub) = false → sub_retention_gap (f sub) = false → ∀ st, bt_get t (topics s) = Some st →
     ts_head_seq st ≤ N.max 1 (sub_next_seq (f sub))) →
  quiet (upd_sub (subscription_key t i) f ;;; let! e := status_event cfg kind fields in ret [e]) s pub.
Proof.
  intros Hi Hs Et Ei Hgap. eapply quiet_bind; [by apply (upd_sub_run _ _ _ sub)|]. apply quiet_status.
  rewrite <- Et at 1. rewrite <- Ei at 1. apply inv_sub; [done|]. by rewrite Et.
Qed.

Ltac issue_or := repeat (case_match; [by apply quiet_issue|]).

Lemma ack_quiet t i seq cid s pub : bus_inv s pub → quiet (ack_subscription cfg t i seq cid) s pub.
Proof.
  intros Hi. apply cursor_quiet; [done|]. intros st sub Ht Hs Et Ei.
  destruct (sub_closed sub) eqn:Hc; [by apply quiet_issue|].
  destruct (sub_retention_gap sub) eqn:Hg; [by apply quiet_issue|].
  destruct (N.ltb_spec seq (sub_next_seq sub)); [by apply quiet_issue|].
  destruct (_ <=? _); [by apply quiet_issue|]. apply (moved_quiet t i _ _ _ _ _ sub); [done..|]. simpl.
  intros _ _ st' Hst'. pose proof (bi_sub_gap _ _ Hi _ _ st' Hs Hc Hg). rewrite Et in *. specialize (H1 Hst'). lia.
Qed.

Lemma seek_quiet t i next cid s pub : bus_inv s pub → quiet (seek_subscription cfg t i next cid) s pub.
Proof.
  intros Hi. apply cursor_quiet; [done|]. intros st sub Ht Hs Et Ei.
  destruct (sub_closed sub); [by apply quiet_issue|].
  destruct (N.ltb_spec next (ts_head_seq st)); [by apply quiet_issue|].
  destruct (_ <? _); [by apply quiet_issue|]. apply (moved_quiet t i _ _ _ _ _ sub); [done..|]. simpl.
  intros _ _ st' Hst'. simplify_eq. lia.
Qed.

Lemma close_sub_quiet t i cid s pub : bus_inv s pub → quiet (close_subscription cfg t i cid) s pub.
Proof.
  intros Hi. apply cursor_quiet; [done|]. intros st sub Ht Hs Et Ei. by apply (moved_quiet t i _ _ _ _ _ sub).
Qed.

Lemma close_topic_quiet t cid s pub : bus_inv s pub → quiet (close_topic cfg t cid) s pub.
Proof.
  intros Hi. unfold close_topic. eapply quiet_bind; [done|]. cbv beta.
  destruct (bt_get t (topics s)) as [st|] eqn:Hg; [|by apply quiet_issue].
  eapply quiet_bind; [by apply (upd_topic_run t _ s st)|]. apply quiet_status.
  apply (inv_same_head s pub t st); [done..| |done]. by destruct (bi_known s pub Hi t st Hg).
Qed.

(** *** The reducer *)

Lemma dispatch_inv c s pub :
  bus_inv s pub → fresh_id s pub (command_id c) →
  (∀ k, publish_key c = Some k → k ∉ seen_idempotency_keys s) → publishes (dispatch cfg c) s pub.
Proof.
  intros Hi Hid Hkey. destruct c; simpl.
  - by apply quiet_publishes, ensure_quiet.
  - by apply quiet_publishes, close_topic_quiet.
  - apply publish_inv; [done..|]. intros k ->. by apply Hkey.
  - apply quiet_publishes. split; [by apply inv_policy|done].
  - by apply quiet_publishes, ack_quiet.
  - by apply quiet_publishes, seek_quiet.
  - by apply quiet_publishes, close_sub_quiet.
Qed.

Lemma duplicate_quiet c text s pub : bus_inv s pub → quiet (duplicate_command_events cfg c text) s pub.
Proof.
  intros Hi. unfold duplicate_command_events. eapply quiet_bind; [apply status_event_run|].
  destruct (decide _); [by apply quiet_issue, inv_tick|]. apply quiet_ret; [by apply inv_tick|done].
Qed.

Lemma reduce_inv c s pub : bus_inv s pub → publishes (reduce_message_bus_command cfg c) s pub.
Proof.
  intros Hi. unfold reduce_message_bus_command.
  destruct (command_topic c ≫= _); [by apply quiet_publishes, quiet_issue|].
  case_bool_decide; [by apply quiet_publishes, quiet_issue|].
  eapply total_step; [done|]. unfold id at 1.
  destruct (match command_id c with Some _ => _ | None => _ end) eqn:Hseen; [by apply quiet_publishes, duplicate_quiet|].
  set (s1 := match command_id c with Some i => set_seen_command_ids (λ ids, {[i]} ∪ ids) s | None => s end).
  eapply (total_step _ _ _ tt s1); [by unfold s1; destruct (command_id c)|].
  assert (bus_inv s1 pub) as Hi1 by (unfold s1; destruct (command_id c); [by apply inv_seen_command|done]).
  destruct (match publish_key c with Some _ => _ | None => _ end) eqn:Hk; [by apply quiet_publishes, duplicate_quiet|].
  apply dispatch_inv; [done|..].
  - intros i Hc. unfold s1. rewrite Hc in *. apply bool_decide_eq_false in Hseen. split; [simpl; set_solver|].
    intros t m Hm Hmi. apply Hseen. by apply (bi_ids _ _ Hi t m).
  - intros k Hc. rewrite Hc in Hk. apply bool_decide_eq_false in Hk.
    unfold s1. by destruct (command_id c).
Qed.

Lemma runtime_inv cs s pub : bus_inv s pub → publishes (runtime cfg cs) s pub.
Proof.
  intros Hi. unfold runtime, publishes.
  cut (∀ acc pub0, bus_inv s (λ t, pub0 t ++ published t acc) →
    total (fold_each cs (λ events c, let! e := reduce_message_bus_command cfg c in ret (events ++ e)) acc) s
      (λ ev s', bus_inv s' (λ t, pub0 t ++ published t ev))).
  { intros Hc. apply Hc. eapply inv_pub_ext; [exact Hi|]. intros t. by rewrite app_nil_r. }
  clear Hi pub. revert s. induction cs as [|c cs IH]; intros s acc pub0 Hi; [done|]. cbn [fold_each].
  apply total_bind, total_bind. eapply total_conseq; [by apply (reduce_inv c s)|].
  intros ev s' Hi'. apply total_ret. apply IH. eapply inv_pub_ext; [exact Hi'|]. intros t. simpl.
  by rewrite published_app, (assoc_L (++)).
Qed.

Lemma new_inv policy initial s : bus_new policy initial = Some s → bus_inv s (λ _, []).
Proof.
  unfold bus_new, unique_topics_ok. destruct (forallb _ _); [|done]. case_bool_decide as Hnd; [|done]. intros [= <-].
  set (l := (λ t : string, (t, make_topic_state (T := T))) <$> sort_by key_cmp initial).
  assert (∀ t st, bt_get t (bt_of_list l) = Some st → st = make_topic_state) as Hl.
  { intros t st. rewrite bt_get_of_list.
    - intros (x & He & _)%bt_get_elem%list_elem_of_fmap. congruence.
    - unfold l. rewrite <- list_fmap_compose, (list_fmap_ext _ id), list_fmap_id by done.
      by rewrite sort_by_perm. }
  split; simpl; intros; try done; try (by apply NoDup_nil); try (exfalso; by eapply not_elem_of_nil).
  - apply bt_of_list_wf.
  - rewrite (Hl _ _ ltac:(eassumption)). by split; simpl; [lia|lia|..].
  - constructor.
Qed.

(** ** Subscriptions *)

Lemma ensure_subscription_inv t i from s pub :
  bus_inv s pub → total (ensure_subscription cfg t i from) s (λ _ s', bus_inv s' pub).
Proof.
  intros Hi. unfold ensure_subscription. eapply total_step; [done|]. unfold id at 1.
  destruct (bt_get (subscription_key t i) (subscriptions s)) eqn:Hs; [done|]. change (topics (id s)) with (topics s).
  set (rng := (λ st, _) <$> bt_get t (topics s)). set (start := match from with Earliest => _ | Latest => _ | _ => _ end).
  set (issue := match rng with Some _ => _ | None => _ end).
  set (next := match issue with Some _ => from_option fst 1 rng | None => start end).
  assert (∀ st, bt_get t (topics s) = Some st → ts_head_seq st ≤ N.max 1 next) as Hnext.
  { intros st Hst. unfold next, issue, rng. rewrite Hst. simpl.
    destruct (N.ltb_spec start (ts_head_seq st)); simpl; [lia|]. destruct (_ <? start); simpl; lia. }
  clearbody next issue rng.
  assert (∀ gap s1, bus_inv s1 pub → topics s1 = topics s →
    bus_inv (upd_sub_state s1 (subscription_key t i) (mkSubscription t i next false gap)) pub) as Hdone.
  { intros gap s1 Hi1 Ht. apply (inv_sub s1 pub (mkSubscription t i next false gap) Hi1). simpl. rewrite Ht. auto. }
  destruct issue as [iss|].
  - eapply total_step; [done|]. apply Hdone; [|done]. by apply inv_push_dead_letter; [apply inv_tick|].
  - eapply total_step; [done|]. by apply Hdone.
Qed.

Definition valid_step (x : string * string * MessageBusSubscriptionFrom + MessageBusCommand T) : Prop :=
  match x with inl (t, i, _) => t ≠ ""%string ∧ i ≠ ""%string | inr _ => True end.

Lemma subscription_inv t i from s pub :
  bus_inv s pub → t ≠ ""%string → i ≠ ""%string →
  total (subscription cfg t i from) s (λ r s', bus_inv s' pub ∧ omap is_message r.2 = []).
Proof.
  intros Hi Ht Hid. unfold subscription, validate_topic_key.
  rewrite bool_decide_false by done. eapply total_step; [done|]. rewrite bool_decide_false by done.
  eapply total_step; [done|]. eapply total_bind, total_conseq; [by apply ensure_subscription_inv|].
  intros [[sub opened] issue] s1 Hi1. simpl. destruct opened.
  - eapply total_step; [done|]. split; [by apply inv_tick|]. by destruct issue.
  - eapply total_step; [done|]. split; [done|]. by destruct issue.
Qed.

(** ** Histories: commands and new subscriptions, in the order the bus meets them *)

Definition bus_step (x : string * string * MessageBusSubscriptionFrom + MessageBusCommand T) :
    M (MessageBusState T) (list (RuntimeEvent T)) :=
  match x with
  | inl (t, i, from) => let! r := subscription cfg t i from in ret r.2
  | inr c => reduce_message_bus_command cfg c
  end.

Definition history xs : M (MessageBusState T) (list (RuntimeEvent T)) :=
  fold_each xs (λ events x, let! e := bus_step x in ret (events ++ e)) [].

Lemma history_inv xs s :
  Forall valid_step xs → bus_inv s (λ _, []) →
  total (history xs) s (λ ev s', bus_inv s' (λ t, published t ev)).
Proof.
  intros Hv Hi. unfold history.
  cut (∀ acc, bus_inv s (λ t, published t acc) →
    total (fold_each xs (λ events x, let! e := bus_step x in ret (events ++ e)) acc) s
      (λ ev s', bus_inv s' (λ t, published t ev))); [by intros Hc; apply Hc|].
  clear Hi. revert s. induction Hv as [|x xs Hx _ IH]; intros s acc Hi; [done|]. cbn [fold_each].
  apply total_bind, total_bind.
  apply (total_conseq _ _ (λ ev s', bus_inv s' (λ t, published t acc ++ published t ev))).
  - destruct x as [[[t i] from]|c]; simpl.
    + destruct Hx. eapply total_bind, total_conseq; [by apply subscription_inv|].
      intros r s' [Hi' Hr]. apply total_ret. eapply inv_pub_ext; [exact Hi'|]. intros t'. unfold published at 2.
      by rewrite Hr, app_nil_r.
    + by apply reduce_inv.
  - intros ev s' Hi'. apply total_ret, IH. eapply inv_pub_ext; [exact Hi'|]. intros t. by rewrite published_app.
Qed.

(** ** Properties *)

(** Numbers, retention and deduplication of one topic. *)
Definition log_correct (st : option (TopicState T)) (t : string) (pub : list (MessageEnvelope T)) : Prop :=
  numbered t pub
  ∧ NoDup (omap me_command_id pub) ∧ NoDup (omap me_idempotency_key pub)
  ∧ match st with
    | None => pub = []
    | Some st => ts_next_seq st = N.of_nat (length pub) + 1
        ∧ ts_messages st `sublist_of` pub
        ∧ (max_age_ms (retention cfg) = None → ts_messages st = drop (N.to_nat (ts_head_seq st - 1)) pub)
    end.

(** C21: every history runs to its end, and leaves each topic numbered from
    one without a gap, each command id and idempotency key published at most
    once, and the log a part of what was published (a suffix, without an age
    limit). *)
Theorem bus_log_correct policy initial s xs :
  bus_new policy initial = Some s → Forall valid_step xs →
  ∃ ev s', history xs s = Ret ev s' ∧ ∀ t, log_correct (bt_get t (topics s')) t (published t ev).
Proof.
  intros Hs Hv. pose proof (history_inv xs s Hv (new_inv _ _ _ Hs)) as Ht. unfold total in Ht.
  destruct (history xs s) as [ev s'| |]; try done. exists ev, s'. split; [done|]. intros t. destruct Ht.
  split_and!; [done..|]. destruct (bt_get t (topics s')) eqn:Hg; [|auto]. by destruct (bi_known0 t _ Hg).
Qed.

(** The page of an open subscription without a gap. *)
Lemma available_items s pub t i sub st limit page :
  bus_inv s pub → max_age_ms (retention cfg) = None →
  bt_get (subscription_key t i) (subscriptions s) = Some sub → sub_closed sub = false →
  sub_retention_gap sub = false → bt_get t (topics s) = Some st →
  available_page s sub (Some limit) None = Some page →
  pg_items (ap_page page) = take limit (drop (N.to_nat (sub_next_seq sub - 1)) (pub t)).
Proof.
  intros Hi Hage Hsub Hopen Hgap Hst Hpage.
  apply (bi_sub_key _ _ Hi) in Hsub as He. apply subscription_key_inj in He as [-> ->].
  pose proof (bi_sub_gap _ _ Hi _ _ st Hsub Hopen Hgap Hst) as Hhead.
  destruct (bi_known _ _ Hi _ _ Hst) as [_ Hpos _ _ Hsuf].
  assert (current_sub s sub = sub) as Hcur by (unfold current_sub; by rewrite Hsub).
  revert Hpage. unfold available_page. rewrite Hcur, Hgap, Hst. cbn [messages_from].
  destruct limit as [|limit]; [done|]. cbn [positive_limit default]. intros [= <-]. simpl. unfold page_of. simpl. f_equal.
  rewrite (Hsuf Hage). apply (filter_drop (sub_topic sub)); [by apply (bi_numbered _ _ Hi)|lia].
Qed.

(** C22: without an age limit, the page of an open subscription that is not
    flagged with a retention gap starts with the very next message: it is the
    first messages published from its cursor on. *)
Theorem subscriber_misses_nothing policy initial s xs ev s' t i sub st limit page :
  bus_new policy initial = Some s → Forall valid_step xs → history xs s = Ret ev s' →
  max_age_ms (retention cfg) = None →
  bt_get (subscription_key t i) (subscriptions s') = Some sub → sub_closed sub = false →
  sub_retention_gap sub = false → bt_get t (topics s') = Some st →
  available_page s' sub (Some limit) None = Some page →
  pg_items (ap_page page) = take limit (drop (N.to_nat (sub_next_seq sub - 1)) (published t ev)).
Proof.
  intros Hs Hv Hrun. pose proof (history_inv xs s Hv (new_inv _ _ _ Hs)) as Ht. unfold total in Ht. rewrite Hrun in Ht.
  by apply (available_items s' (λ t, published t ev)).
Qed.

(** ** Paging *)

Lemma filter_andb {A} (p q : A → bool) l : List.filter (λ x, p x && q x) l = List.filter p (List.filter q l).
Proof. induction l as [|x l IH]; [done|]. simpl. destruct (q x); simpl; destruct (p x); simpl; by rewrite IH. Qed.

Lemma filter_fmap {A B} (p : B → bool) (f : A → B) l : List.filter p (f <$> l) = f <$> List.filter (λ x, p (f x)) l.
Proof. induction l as [|x l IH]; [done|]. simpl. unfold fmap in *. simpl. rewrite IH. by destruct (p (f x)). Qed.

Lemma filter_sorted {A} (R : A → A → Prop) (p : A → bool) l : StronglySorted R l → StronglySorted R (List.filter p l).
Proof.
  induction 1 as [|x l _ IH Hx]; [constructor|]. simpl. destruct (p x); [|done]. constructor; [done|].
  rewrite Forall_forall in *. intros y Hy. apply Hx. apply list_elem_of_In, filter_In in Hy as [Hy _]. by apply list_elem_of_In.
Qed.

Lemma filter_same {A} (p q : A → bool) l : (∀ x, x ∈ l → p x = q x) → List.filter p l = List.filter q l.
Proof.
  induction l as [|x l IH]; intros Hl; [done|]. simpl. rewrite (Hl x) by left.
  rewrite IH; [done|]. intros y Hy. apply Hl. by right.
Qed.

Lemma seq_sorted {A} (num : A → N) (l : list A) :
  (∀ k x, l !! k = Some x → num x = N.of_nat k + 1) → StronglySorted (λ x y, (num x <? num y) = true) l.
Proof.
  cut (∀ l j, (∀ k x, l !! k = Some x → num x = N.of_nat (j + k) + 1) → StronglySorted (λ x y, (num x <? num y) = true) l).
  { intros Hc Hl. by apply (Hc l 0%nat). }
  clear l. intros l. induction l as [|x l IH]; intros j Hl; [constructor|]. constructor.
  - apply (IH (Datatypes.S j)). intros k y Hk. rewrite (Hl (Datatypes.S k) y Hk). lia.
  - apply Forall_forall. intros y [k Hk]%list_elem_of_lookup_1.
    rewrite (Hl 0%nat x eq_refl), (Hl (Datatypes.S k) y Hk). apply N.ltb_lt. lia.
Qed.

Lemma sublist_sorted {A} (R : A → A → Prop) (l k : list A) : l `sublist_of` k → StronglySorted R k → StronglySorted R l.
Proof.
  induction 1 as [|x l k Hs IH|x l k Hs IH]; [done|..]; intros [Hk Hx]%StronglySorted_inv; [|by apply IH].
  constructor; [by apply IH|]. rewrite Forall_forall in *. intros y Hy. apply Hx. by eapply sublist_elem.
Qed.

Lemma ltb_asym x y : (x <? y) = true → (y <? x) = false.
Proof. rewrite N.ltb_lt, N.ltb_ge. lia. Qed.

Lemma dead_letters_sorted s pub :
  bus_inv s pub → StronglySorted (λ x y, (dl_entry_seq x <? dl_entry_seq y) = true) (dead_letters s).
Proof.
  intros Hi. apply seq_sorted. intros k e Hk. pose proof (f_equal (lookup k) (bi_dead _ _ Hi)) as He.
  rewrite list_lookup_imap, list_lookup_fmap, Hk in He. by injection He.
Qed.

(** Asking page by page, whatever the size of the page, reads the whole
    retained log of a topic, the whole catalog and all the dead letters, in
    order and each item once. *)
Theorem bus_pages_cover policy initial s xs ev s' limit fuel :
  bus_new policy initial = Some s → Forall valid_step xs → history xs s = Ret ev s' →
  (∀ t st, bt_get t (topics s') = Some st → (length (ts_messages st) < fuel)%nat →
     walk fuel (λ after, option_map tp_page (topic_page s' t (Some (Datatypes.S limit)) after)) None = Some (ts_messages st))
  ∧ ((length (topics s') < fuel)%nat →
     option_map (map ce_topic) (walk fuel (λ after, catalog_page s' (Some (Datatypes.S limit)) after true) None)
     = Some (topics s').*1)
  ∧ ((length (dead_letters s') < fuel)%nat →
     walk fuel (λ after, dead_letter_page s' (Some (Datatypes.S limit)) after None None) None
     = Some (dead_letters s')).
Proof.
  intros Hs Hv Hrun. pose proof (history_inv xs s Hv (new_inv _ _ _ Hs)) as Hi. unfold total in Hi.
  rewrite Hrun in Hi. split_and!.
  - intros t st Hst Hf. destruct (bi_known _ _ Hi _ _ Hst).
    apply (walk_covers N.ltb me_seq ltb_asym N.ltb_irrefl _ limit); [|intros after|done].
    + eapply sublist_sorted; [exact ti_retained0|]. apply seq_sorted. intros k m Hk.
      by apply (bi_numbered _ _ Hi t).
    + unfold topic_page. rewrite Hst. cbn. do 2 f_equal. apply filter_same. intros m Hm. destruct after as [a|]; simpl.
      * destruct (N.leb_spec (a + 1) (me_seq m)), (N.ltb_spec a (me_seq m)); lia || done.
      * rewrite Forall_forall in ti_after_head0. by apply N.leb_le, ti_after_head0.
  - intros Hf. set (entry := λ tv : string * TopicState T, mkCatalogEntry tv.1 (ts_closed tv.2) (ts_head_seq tv.2)
      (ts_next_seq tv.2) (length (ts_messages tv.2))).
    rewrite (walk_covers key_lt ce_topic) with (l := entry <$> topics s') (limit := limit).
    + simpl. by rewrite map_map.
    + intros x y. unfold key_lt. destruct (key_cmp x y) eqn:E; try done. intros _.
      destruct (key_cmp y x) eqn:E'; try done. apply key_cmp_gt in E. congruence.
    + intros x. unfold key_lt. by rewrite key_cmp_refl.
    + pose proof (bi_topics _ _ Hi) as Hw. unfold bt_wf in Hw. clear -Hw.
      induction Hw as [|x l _ IH Hx]; simpl; [constructor|]. constructor; [done|]. apply Forall_fmap.
      eapply Forall_impl; [exact Hx|]. intros y Hy. unfold key_lt. simpl in *. by rewrite Hy.
    + intros after. unfold catalog_page. cbn. do 2 f_equal. rewrite filter_fmap.
      rewrite (filter_same _ (λ x, after_cursor key_lt ce_topic after (entry x))).
      * apply list_fmap_ext. by intros ? [].
      * intros [t v] _. by destruct after.
    + by rewrite length_fmap.
  - intros Hf. apply (walk_covers N.ltb dl_entry_seq ltb_asym N.ltb_irrefl _ limit); [|intros after|done].
    + by eapply dead_letters_sorted.
    + unfold dead_letter_page. cbn. do 2 f_equal. apply filter_same. intros e _.
      rewrite !andb_true_r. by destruct after.
Qed.
End Facts.
