(* ===== verification/MessageBusScenarios.v ===== *)
(** * The message bus: concrete histories

    The witnesses of the properties of [MessageBusFacts], and a history that
    shows a hole in the retention of messages. *)

From Stdlib Require Import Ascii String.
From stdpp Require Import base option strings numbers gmap list.
From S2P Require Import Prelude BTree Text Json Storage Pages MessageBus DurabilityExample MessageBusFacts.
Import Bus.

Local Open Scope rx_scope.
Local Open Scope N_scope.

#[local] Existing Instance escaped_tuples.

(** The clock reads 0 until the sixth reading, and 100 from then on. *)
Definition late_clock (k : nat) : option N := Some (if (k <? 5)%nat then 0 else 100).

Definition config (max : option nat) (age : option N) : BusConfig :=
  mkBusConfig late_clock (mkRetention max age) DedupeStatus.

Definition strict_bus : MessageBusState nat := mkBusState 0 Strict [] [] ∅ ∅ [] 0.

Definition publish_a (payload : nat) (cid : option string) : MessageBusCommand nat :=
  Publish "a" payload None cid None.

(** A topic, a subscription from its start, and two messages; the second command
    id comes twice. *)
Definition two_messages : list (string * string * MessageBusSubscriptionFrom + MessageBusCommand nat) :=
  [ inr (EnsureTopic "a" None); inl ("a", "r", Earliest)%string;
    inr (publish_a 1 (Some "c1"%string)); inr (publish_a 2 (Some "c2"%string)); inr (publish_a 2 (Some "c2"%string));
    inr (Ack "a" "r" 1 None) ].

Definition after (cfg : BusConfig) xs : list (RuntimeEvent nat) * MessageBusState nat :=
  match history cfg xs strict_bus with Ret ev s => (ev, s) | _ => ([], strict_bus) end.

Definition kept_two := after (config (Some 5%nat) None) two_messages.

Lemma two_messages_valid : Forall valid_step two_messages.
Proof. repeat constructor; discriminate. Qed.

Lemma bus_log_correct_witness :
  ∃ ev s', history (config None (Some 10)) two_messages strict_bus = Ret ev s'
    ∧ ∀ t, log_correct (config None (Some 10)) (bt_get t (topics s')) t (published t ev).
Proof. apply (bus_log_correct _ Strict [] strict_bus); [reflexivity|apply two_messages_valid]. Defined.

Lemma subscriber_misses_nothing_witness :
  let ev := kept_two.1 in
  let s := kept_two.2 in
  let sub := mkSubscription "a" "r" 2 false false in
  option_map (λ p, me_payload <$> pg_items (ap_page p)) (available_page s sub (Some 10%nat) None)
  = Some (me_payload <$> take 10 (drop 1 (published "a" ev))).
Proof.
  intros ev s sub. destruct (available_page s sub (Some 10%nat) None) as [page|] eqn:Hp; [|vm_compute in Hp; discriminate].
  pose proof (subscriber_misses_nothing (config (Some 5%nat) None) Strict [] strict_bus two_messages ev s "a" "r" sub
    (default make_topic_state (bt_get "a"%string (topics s))) 10%nat page) as Hm.
  simpl option_map. rewrite Hm; [reflexivity|reflexivity|apply two_messages_valid|vm_compute; reflexivity..|exact Hp].
Defined.

Lemma bus_pages_cover_witness :
  let s := kept_two.2 in
  option_map (map me_payload)
    (walk 3%nat (λ after, option_map tp_page (topic_page s "a" (Some 1%nat) after)) None) = Some [1; 2]%nat.
Proof.
  intros s.
  pose proof (bus_pages_cover (config (Some 5%nat) None) Strict [] strict_bus two_messages kept_two.1 s 0 3) as Hp.
  destruct Hp as [Ht _]; [reflexivity|apply two_messages_valid|vm_compute; reflexivity|].
  rewrite (Ht "a"%string (default make_topic_state (bt_get "a"%string (topics s)))); vm_compute; [reflexivity..|lia].
Defined.

(** With an age limit and a message limit of zero, the publication of the
    second message removes the first by age and then rejects the policy before
    the head moves: a subscription at the first message is not flagged, and its
    page starts with the second.  With the age limit alone it is flagged. *)
Theorem zero_limit_hides_loss :
  let run cfg := after cfg [ inr (EnsureTopic "a" None); inl ("a", "r", Earliest)%string;
                             inr (publish_a 1 None); inr (publish_a 2 None) ] in
  let bad := run (config (Some 0%nat) (Some 10)) in
  let good := run (config None (Some 10)) in
  let sub s := bt_get (subscription_key "a" "r") (subscriptions s) in
  me_payload <$> published "a" bad.1 = [1; 2]%nat
  ∧ sub bad.2 = Some (mkSubscription "a" "r" 1 false false)
  ∧ option_map (λ p, me_payload <$> pg_items (ap_page p))
      (available_page bad.2 (mkSubscription "a" "r" 1 false false) None None) = Some [2]%nat
  ∧ sub good.2 = Some (mkSubscription "a" "r" 1 false true).
Proof. vm_compute. repeat split. Qed.
