(* ===== verification/Resilience.v ===== *)
(** * Retry, breaker and rate limit policies (resilience.rs)

    Passive policies: the delays of a retry policy on machine integers that
    saturate, and the bodies of the status nodes and of the rate limiter, as
    functions from the node's state and a batch to what the run emits and the
    state it leaves. *)

From Stdlib Require Import Ascii String.
From stdpp Require Import base option strings numbers list.
From S2P Require Import Prelude.

Local Open Scope N_scope.

Definition u32_max : N := 2 ^ 32 - 1.
Definition u64_max : N := 2 ^ 64 - 1.
Definition sat32 (n : N) : N := N.min n u32_max.
Definition sat64 (n : N) : N := N.min n u64_max.

(** ** Backoff and retry *)

Inductive BackoffPolicy :=
| BackoffNone
| Constant (delay_ms : N)
| Linear (initial_ms step_ms : N) (max_ms : option N)
| Exponential (initial_ms factor : N) (max_ms : option N)
| Fibonacci (unit_ms : N) (max_ms : option N).

Definition cap (value : N) (max : option N) : N :=
  match max with Some max => N.min value max | None => value end.

(** The loop keeps [(prev, curr)]. *)
Definition fibonacci_step (p : N * N) : N * N := (p.2, sat32 (p.1 + p.2)).
Definition fibonacci (n : N) : N :=
  if n =? 0 then 0 else if n =? 1 then 1 else (N.iter (n - 1) fibonacci_step (0, 1)).2.

Definition delay_ms (p : BackoffPolicy) (attempt : N) : N :=
  match p with
  | BackoffNone => 0
  | Constant d => d
  | Linear initial step max => cap (sat64 (initial + sat64 (step * (attempt - 1)))) max
  | Exponential initial factor max =>
      let multiplier := sat32 (factor ^ (attempt - 1)) in
      cap (sat64 (initial * multiplier)) max
  | Fibonacci unit max => cap (sat64 (unit * fibonacci attempt)) max
  end.

Record RetryPolicy := mkRetryPolicy { max_attempts : N; backoff : BackoffPolicy }.

Definition should_retry (p : RetryPolicy) (failed_attempt : N) : bool := failed_attempt <? max_attempts p.

Definition next_delay_ms (p : RetryPolicy) (next_attempt : N) : option N :=
  if (next_attempt =? 0) || (max_attempts p <? next_attempt) then None
  else Some (delay_ms (backoff p) next_attempt).

(** ** Status of a retry *)

Inductive RetryState := Idle | Running | Waiting | Succeeded | Failed | RetryExhausted.

Record RetryStatus := mkRetryStatus {
  rs_attempt : N;
  rs_max_attempts : N;
  rs_delay_ms : option N;
  rs_state : RetryState
}.

Inductive RetryEvent :=
| Attempt (attempt : N)
| Retry (attempt delay : N) (error : string)
| Success (attempt : N)
| Failure (attempt : N) (error : string)
| Exhausted (attempt : N) (error : string).

Definition retry_status (policy : RetryPolicy) (event : RetryEvent) : RetryStatus :=
  match event with
  | Attempt a => mkRetryStatus a (max_attempts policy) None Running
  | Retry a d _ => mkRetryStatus a (max_attempts policy) (Some d) Waiting
  | Success a => mkRetryStatus a (max_attempts policy) None Succeeded
  | Failure a _ => mkRetryStatus a (max_attempts policy) (next_delay_ms policy (sat32 (a + 1)))
                     (if should_retry policy a then Failed else RetryExhausted)
  | Exhausted a _ => mkRetryStatus a (max_attempts policy) None RetryExhausted
  end.

(** One run: the status of the last event of the batch. *)
Definition retry_status_node (policy : RetryPolicy) (batch : list RetryEvent) : RetryStatus :=
  foldl (λ _ e, retry_status policy e) (mkRetryStatus 0 (max_attempts policy) None Idle) batch.

(** ** Breaker *)

(** The body never sets [HalfOpen]. *)
Inductive BreakerState := Closed | Open | HalfOpen.

Record BreakerStatus := mkBreakerStatus {
  br_state : BreakerState;
  br_failures : N;
  br_opened_at_ms : option N
}.

Definition breaker_closed : BreakerStatus := mkBreakerStatus Closed 0 None.

(** [now k] is what the [k]-th call of the clock returns. *)
Definition breaker_event (threshold : N) (now : nat → N) (st : nat * BreakerStatus) (event : RetryEvent)
    : nat * BreakerStatus :=
  let '(ticks, status) := st in
  match event with
  | Success _ => (ticks, breaker_closed)
  | Failure _ _ | Exhausted _ _ =>
      let failures := sat32 (br_failures status + 1) in
      if threshold <=? failures
      then (S ticks, mkBreakerStatus Open failures (Some (now ticks)))
      else (ticks, mkBreakerStatus (br_state status) failures (br_opened_at_ms status))
  | Attempt _ | Retry _ _ _ => (ticks, status)
  end.

(** One run; the status it emits is the state it leaves. *)
Definition breaker_status_node (threshold : N) (now : nat → N) (st : nat * option BreakerStatus)
    (batch : list RetryEvent) : nat * BreakerStatus :=
  foldl (breaker_event threshold now) (st.1, default breaker_closed st.2) batch.

(** ** Rate limit *)

Inductive RateLimitEventKind := Allowed | Dropped.
#[export] Instance rate_limit_kind_eq : EqDecision RateLimitEventKind.
Proof. solve_decision. Defined.

Record RateLimitStatus := mkRateLimitStatus {
  rl_allowed : N;
  rl_dropped : N;
  rl_remaining : N;
  rl_reset_at_ms : N
}.

Record RateLimitEvent (T : Type) := mkRateLimitEvent {
  rl_kind : RateLimitEventKind;
  rl_value : T;
  rl_status : RateLimitStatus
}.
Arguments mkRateLimitEvent {T} _ _ _.
Arguments rl_kind {T} _.
Arguments rl_value {T} _.
Arguments rl_status {T} _.

Record RateLimitState := mkRateLimitState {
  rl_count : N;
  rl_reset : N;
  rl_n_allowed : N;
  rl_n_dropped : N
}.

Section RateLimit.
Context {T : Type} (max window_ms : N).

Definition rate_limit_value (st : RateLimitState) (value : T) : RateLimitState * RateLimitEvent T :=
  let '(kind, st) :=
    if rl_count st <? max
    then (Allowed, mkRateLimitState (sat32 (rl_count st + 1)) (rl_reset st) (sat64 (rl_n_allowed st + 1)) (rl_n_dropped st))
    else (Dropped, mkRateLimitState (rl_count st) (rl_reset st) (rl_n_allowed st) (sat64 (rl_n_dropped st + 1))) in
  (st, mkRateLimitEvent kind value
         (mkRateLimitStatus (rl_n_allowed st) (rl_n_dropped st) (max - rl_count st) (rl_reset st))).

Fixpoint rate_limit_values (st : RateLimitState) (batch : list T) : RateLimitState * list (RateLimitEvent T) :=
  match batch with
  | [] => (st, [])
  | v :: batch =>
      let '(st, e) := rate_limit_value st v in
      let '(st, es) := rate_limit_values st batch in
      (st, e :: es)
  end.

(** The state a run of the events node starts from: a window that is over is
    replaced. *)
Definition rate_limit_window (current : N) (st : option RateLimitState) : RateLimitState :=
  let st := default (mkRateLimitState 0 (sat64 (current + window_ms)) 0 0) st in
  if rl_reset st <=? current
  then mkRateLimitState 0 (sat64 (current + window_ms)) (rl_n_allowed st) (rl_n_dropped st)
  else st.

Definition rate_limit_run (current : N) (st : option RateLimitState) (batch : list T)
    : RateLimitState * list (RateLimitEvent T) :=
  rate_limit_values (rate_limit_window current st) batch.

(** The projections of the events. *)
Definition rate_limit_allowed (events : list (RateLimitEvent T)) : list T :=
  rl_value <$> List.filter (λ e, bool_decide (rl_kind e = Allowed)) events.
Definition rate_limit_dropped (events : list (RateLimitEvent T)) : list T :=
  rl_value <$> List.filter (λ e, bool_decide (rl_kind e = Dropped)) events.

(** Several runs: a clock reading and a batch each. *)
Fixpoint rate_limit_runs (st : option RateLimitState) (runs : list (N * list T)) : list (RateLimitEvent T) :=
  match runs with
  | [] => []
  | (current, batch) :: runs =>
      let '(st, events) := rate_limit_run current st batch in
      events ++ rate_limit_runs (Some st) runs
  end.
End RateLimit.

(** ** Delays *)

(** The Fibonacci numbers, two at a time. *)
Fixpoint fib2 (n : nat) : N * N := match n with O => (0, 1) | S n => let '(a, b) := fib2 n in (b, a + b) end.
Definition fib (n : nat) : N := (fib2 n).1.

Lemma fib2_fib n : fib2 n = (fib n, fib (S n)).
Proof. unfold fib. simpl. by destruct (fib2 n). Qed.

Lemma fib_step n : fib (S (S n)) = fib n + fib (S n).
Proof. unfold fib at 1. cbn [fib2]. by rewrite fib2_fib. Qed.

Lemma fibonacci_loop k :
  Nat.iter k fibonacci_step (0, 1) = (sat32 (fib k), sat32 (fib (S k))).
Proof.
  induction k as [|k IH]; [done|]. simpl. rewrite IH. unfold fibonacci_step. simpl. f_equal.
  rewrite fib_step. unfold sat32. lia.
Qed.

Lemma fibonacci_spec n : fibonacci n = sat32 (fib (N.to_nat n)).
Proof.
  unfold fibonacci. destruct (N.eqb_spec n 0) as [->|]; [done|]. destruct (N.eqb_spec n 1) as [->|]; [done|].
  rewrite N2Nat.inj_iter, fibonacci_loop. simpl. do 2 f_equal. lia.
Qed.

Lemma fib_mono n m : (n ≤ m)%nat → fib n ≤ fib m.
Proof.
  induction 1 as [|m _ IH]; [done|]. etrans; [exact IH|]. clear IH n.
  destruct m as [|m]; [done|]. rewrite fib_step. lia.
Qed.

Lemma cap_mono a b max : a ≤ b → cap a max ≤ cap b max.
Proof. destruct max; simpl; lia. Qed.

Definition backoff_max (p : BackoffPolicy) : option N :=
  match p with
  | BackoffNone | Constant _ => None
  | Linear _ _ m | Exponential _ _ m | Fibonacci _ m => m
  end.

(** The parameters are machine integers, and an exponential grows. *)
Definition backoff_ok (p : BackoffPolicy) : Prop :=
  match p with
  | Constant d => d ≤ u64_max
  | Exponential _ factor _ => 1 ≤ factor
  | _ => True
  end.

Lemma cap_le a max : cap a max ≤ a ∧ match max with Some m => cap a max ≤ m | None => True end.
Proof. destruct max; simpl; split; lia || done. Qed.

(** The delays of a retry policy fit 64 bits and the policy's maximum, and a
    later attempt never waits less than an earlier one; the Fibonacci loop
    computes the Fibonacci numbers, saturated at 32 bits. *)
Theorem backoff_bounded_monotone p :
  backoff_ok p →
  (∀ a, delay_ms p a ≤ u64_max ∧ match backoff_max p with Some m => delay_ms p a ≤ m | None => True end)
  ∧ (∀ a b, a ≤ b → delay_ms p a ≤ delay_ms p b)
  ∧ (∀ n, fibonacci n = N.min (fib (N.to_nat n)) u32_max).
Proof.
  intros Hp. split_and!; [intros a|intros a b Hab|apply fibonacci_spec].
  - destruct p as [|d|i s m|i f m|u m]; simpl in *; try done;
      match goal with |- cap (sat64 ?x) m ≤ _ ∧ _ => destruct (cap_le (sat64 x) m) as [Hc Hm] end;
      (split; [|done]; etrans; [exact Hc|unfold sat64; lia]).
  - destruct p as [|d|i s m|i f m|u m]; simpl in *; try done; apply cap_mono.
    + unfold sat64. assert (s * (a - 1) ≤ s * (b - 1)) by (apply N.mul_le_mono_l; lia). lia.
    + assert (f ^ (a - 1) ≤ f ^ (b - 1)) by (apply N.pow_le_mono_r; lia).
      assert (i * sat32 (f ^ (a - 1)) ≤ i * sat32 (f ^ (b - 1))) by (apply N.mul_le_mono_l; unfold sat32; lia).
      unfold sat64. lia.
    + rewrite !fibonacci_spec. pose proof (fib_mono (N.to_nat a) (N.to_nat b) ltac:(lia)).
      assert (u * sat32 (fib (N.to_nat a)) ≤ u * sat32 (fib (N.to_nat b))) by (apply N.mul_le_mono_l; unfold sat32; lia).
      unfold sat64. lia.
Qed.

Lemma backoff_bounded_monotone_witness :
  delay_ms (Exponential 10 2 (Some 50)) 3 ≤ delay_ms (Exponential 10 2 (Some 50)) 4.
Proof.
  destruct (backoff_bounded_monotone (Exponential 10 2 (Some 50))) as (_ & Hm & _); [vm_compute; discriminate|].
  apply Hm. vm_compute. discriminate.
Defined.

(** ** Rate limit *)

Section RateLimitFacts.
Context {T : Type} (max window_ms : N).
Implicit Types st : RateLimitState.

(** The events let through in the window that ends at [r]. *)
Definition admitted (r : N) (events : list (RateLimitEvent T)) : nat :=
  length (List.filter (λ e, bool_decide (rl_kind e = Allowed) && (rl_reset_at_ms (rl_status e) =? r)) events).

Lemma admitted_app r e1 e2 : admitted r (e1 ++ e2) = (admitted r e1 + admitted r e2)%nat.
Proof. unfold admitted. by rewrite List.filter_app, length_app. Qed.

Lemma admitted_cons r e (events : list (RateLimitEvent T)) :
  admitted r (e :: events)
  = ((if bool_decide (rl_kind e = Allowed) && (rl_reset_at_ms (rl_status e) =? r)%N then 1 else 0) + admitted r events)%nat.
Proof. unfold admitted. simpl. by destruct (_ && _). Qed.

Definition rl_ok st : Prop := rl_count st ≤ max.

(** A batch: every value becomes one event, in order, in the window of the
    state, and the count goes up by what is let through. *)
Lemma rate_limit_values_spec (batch : list T) st :
  max ≤ u32_max → rl_ok st →
  let '(st', events) := rate_limit_values max st batch in
  rl_reset st' = rl_reset st ∧ rl_ok st' ∧ rl_value <$> events = batch
  ∧ rl_count st' = rl_count st + N.of_nat (admitted (rl_reset st) events)
  ∧ (∀ r, r ≠ rl_reset st → admitted r events = 0%nat).
Proof.
  intros Hmax. revert st. induction batch as [|v batch IH]; intros st Hok; simpl; [split_and!; try done; cbn; lia|].
  unfold rate_limit_value, rl_ok in *. destruct (N.ltb_spec (rl_count st) max) as [Hlt|Hge]; cbn.
  - set (st1 := mkRateLimitState _ _ _ _). specialize (IH st1). cbn in IH.
    assert (sat32 (rl_count st + 1) = rl_count st + 1) as Hc by (unfold sat32; lia).
    destruct (rate_limit_values max st1 batch) as [st' events]. destruct IH as (Hr & Ho & Hv & Hn & Hd); [lia|].
    split_and!; [done..|by rewrite fmap_cons, Hv| |].
    + rewrite Hn, admitted_cons. simpl. rewrite N.eqb_refl. lia.
    + intros r Hne. rewrite admitted_cons, Hd by done. simpl. by rewrite (proj2 (N.eqb_neq _ _)).
  - set (st1 := mkRateLimitState _ _ _ _). specialize (IH st1). cbn in IH.
    destruct (rate_limit_values max st1 batch) as [st' events]. destruct IH as (Hr & Ho & Hv & Hn & Hd); [done|].
    split_and!; [done..|by rewrite fmap_cons, Hv|done|]. intros r Hne. by apply Hd.
Qed.

(** A window that is over is followed by a later one. *)
Lemma rate_limit_window_spec current (st : RateLimitState) :
  current + window_ms ≤ u64_max → 0 < window_ms → rl_ok st →
  let st' := rate_limit_window window_ms current (Some st) in
  rl_ok st' ∧ (st' = st ∨ rl_count st' = 0 ∧ rl_reset st < rl_reset st').
Proof.
  intros Hc Hw Hok. unfold rate_limit_window. simpl. destruct (N.leb_spec (rl_reset st) current); [|auto].
  split; [unfold rl_ok; simpl; lia|]. right. simpl. unfold sat64. split; [done|]. lia.
Qed.

Lemma rate_limit_runs_spec (runs : list (N * list T)) st r :
  max ≤ u32_max → 0 < window_ms → Forall (λ run, run.1 + window_ms ≤ u64_max) runs → rl_ok st →
  let events := rate_limit_runs max window_ms (Some st) runs in
  rl_value <$> events = mjoin runs.*2
  ∧ (admitted r events ≤ N.to_nat (if r <? rl_reset st then 0 else if r =? rl_reset st then max - rl_count st else max)%N)%nat.
Proof.
  intros Hmax Hw Hruns. revert st. induction Hruns as [|[current batch] runs Hc _ IH]; intros st Hok.
  { split; [done|]. cbn. lia. }
  cbn [rate_limit_runs]. unfold rate_limit_run. destruct (rate_limit_window_spec current st Hc Hw Hok) as [Hok1 Hwin].
  set (st1 := rate_limit_window window_ms current (Some st)) in *. clearbody st1.
  pose proof (rate_limit_values_spec batch st1 Hmax Hok1) as Hv. destruct (rate_limit_values max st1 batch) as [st2 events].
  destruct Hv as (Hr & Hok2 & Hvals & Hn & Hd). destruct (IH st2 Hok2) as [Hvs Had]. unfold rl_ok in *.
  split; [rewrite fmap_app, Hvals, Hvs; done|]. rewrite admitted_app. rewrite Hr in Had.
  destruct (decide (r = rl_reset st1)) as [->|Hne].
  - rewrite N.ltb_irrefl, N.eqb_refl in Had.
    destruct Hwin as [->|[Hz Hlt]]; [rewrite N.ltb_irrefl, N.eqb_refl; lia|].
    rewrite (proj2 (N.ltb_ge _ _)), (proj2 (N.eqb_neq _ _)) by lia. lia.
  - rewrite (Hd r Hne). rewrite (proj2 (N.eqb_neq r (rl_reset st1))) in Had by done.
    destruct (N.ltb_spec r (rl_reset st1)), (N.ltb_spec r (rl_reset st)), (N.eqb_spec r (rl_reset st));
      destruct Hwin as [->|[Hz Hlt]]; lia.
Qed.

(** Whatever the clock reads, the rate limiter turns every value into one
    event, allowed or dropped, in order, and lets at most [max] values through
    in one window, over any number of runs. *)
Theorem rate_limit_per_window (runs : list (N * list T)) r :
  0 < max ≤ u32_max → 0 < window_ms → Forall (λ run, run.1 + window_ms ≤ u64_max) runs →
  let events := rate_limit_runs max window_ms None runs in
  rl_value <$> events = mjoin runs.*2 ∧ (admitted r events ≤ N.to_nat max)%nat.
Proof.
  intros Hmax Hw Hruns. destruct runs as [|[current batch] runs]; [split; [done|cbn; lia]|].
  set (st := mkRateLimitState 0 (sat64 (current + window_ms)) 0 0).
  change (rate_limit_runs max window_ms None ((current, batch) :: runs))
    with (rate_limit_runs max window_ms (Some st) ((current, batch) :: runs)).
  destruct (rate_limit_runs_spec ((current, batch) :: runs) st r) as [Hv Ha]; [lia|done..|unfold rl_ok; simpl; lia|].
  split; [done|]. etrans; [exact Ha|]. destruct (r <? rl_reset st), (r =? rl_reset st); lia.
Qed.
End RateLimitFacts.

Lemma rate_limit_per_window_witness :
  let runs := [(0, [1; 2; 3]); (101, [4])]%nat in
  rl_value <$> rate_limit_runs 2 100 None [(0, [1; 2; 3]%nat); (101, [4]%nat)] = [1; 2; 3; 4]%nat.
Proof.
  destruct (rate_limit_per_window 2 100 [(0, [1; 2; 3]%nat); (101, [4]%nat)] 100) as [Hv _];
    [vm_compute; split; [reflexivity|discriminate]|reflexivity| |exact Hv].
  repeat constructor; vm_compute; discriminate.
Defined.

(** ** Breaker *)

(** The failures since the last success. *)
Fixpoint failures_since (events : list RetryEvent) (n : N) : N :=
  match events with
  | [] => n
  | Success _ :: events => failures_since events 0
  | (Failure _ _ | Exhausted _ _) :: events => failures_since events (n + 1)
  | _ :: events => failures_since events n
  end.

Lemma failures_since_app e1 e2 n : failures_since (e1 ++ e2) n = failures_since e2 (failures_since e1 n).
Proof. revert n. induction e1 as [|[] e1 IH]; intros n; simpl; auto. Qed.

Definition breaker_is (threshold n : N) (b : BreakerStatus) : Prop :=
  br_failures b = sat32 n ∧ br_state b = (if threshold <=? sat32 n then Open else Closed)
  ∧ (br_opened_at_ms b ≠ None ↔ threshold <= sat32 n).

Lemma breaker_events threshold now events st n :
  0 < threshold → breaker_is threshold n st.2 →
  breaker_is threshold (failures_since events n) (foldl (breaker_event threshold now) st events).2.
Proof.
  intros Ht. revert st n. induction events as [|e events IH]; intros [ticks b] n Hb; [done|].
  assert (∀ n, sat32 (sat32 n + 1) = sat32 (n + 1)) as Hsat by (intros k; unfold sat32; lia).
  assert (breaker_is threshold (n + 1) (breaker_event threshold now (ticks, b) (Failure 0 "")).2) as Hfail.
  { destruct Hb as [Hf [Hs Ho]]. simpl in *. rewrite Hf, Hsat. destruct (N.leb_spec threshold (sat32 (n + 1))) as [Hle|Hlt].
    - split_and!; [done|by rewrite (proj2 (N.leb_le _ _))|done].
    - assert (sat32 n < threshold) by (unfold sat32 in *; lia).
      split_and!; [done| |]; simpl; [rewrite Hs, !(proj2 (N.leb_gt _ _)) by lia; done|rewrite Ho; lia]. }
  destruct e; simpl foldl; simpl failures_since; try (by apply IH). apply IH. simpl. unfold breaker_is, sat32. simpl.
  rewrite (proj2 (N.leb_gt _ _)) by lia. split_and!; [done..|]. split; [done|lia].
Qed.

(** The runs of the node, each from the state the last one left. *)
Definition breaker_runs (threshold : N) (now : nat → N) (batches : list (list RetryEvent)) : nat * option BreakerStatus :=
  foldl (λ st batch, let st' := breaker_status_node threshold now st batch in (st'.1, Some st'.2)) (0%nat, None) batches.

(** After any runs the breaker counts the failures since the last success
    (saturated), and it is open, with the time it opened, exactly when they have
    reached the threshold. *)
Theorem breaker_opens_at_threshold threshold now batches status :
  0 < threshold → (breaker_runs threshold now batches).2 = Some status →
  let n := failures_since (mjoin batches) 0 in
  br_failures status = sat32 n ∧ br_state status = (if threshold <=? sat32 n then Open else Closed)
  ∧ (br_opened_at_ms status ≠ None ↔ threshold <= sat32 n).
Proof.
  intros Ht. unfold breaker_runs. set (run := λ st batch, _).
  cut (∀ st n, breaker_is threshold n (default breaker_closed st.2) →
    breaker_is threshold (failures_since (mjoin batches) n) (default breaker_closed (foldl run st batches).2)).
  { intros Hc He. specialize (Hc (0%nat, None) 0). rewrite He in Hc. apply Hc. unfold breaker_is, sat32. simpl.
    rewrite (proj2 (N.leb_gt _ _)) by lia. split_and!; [done..|]. split; [done|lia]. }
  induction batches as [|batch batches IH]; intros st n Hb; [done|]. cbn [foldl mjoin list_join].
  rewrite failures_since_app. apply IH. simpl. by apply (breaker_events threshold now batch (st.1, _)).
Qed.

Lemma breaker_opens_at_threshold_witness :
  br_state (default breaker_closed (breaker_runs 2 (λ _, 7) [[Success 1; Failure 1 "x"]; [Failure 2 "y"]]).2) = Open.
Proof.
  destruct (breaker_opens_at_threshold 2 (λ _, 7) [[Success 1; Failure 1 "x"]; [Failure 2 "y"]]
    (mkBreakerStatus Open 2 (Some 7))) as (_ & Hs & _); [reflexivity|reflexivity|].
  transitivity (br_state (mkBreakerStatus Open 2 (Some 7))); [reflexivity|]. rewrite Hs. reflexivity.
Defined.
