(* ===== verification/WorkQueue.v ===== *)
(** * The work queue (work_queue.rs)

    Work is admitted from a message bus subscription, claimed under a lease by a
    worker, and released, completed, failed (with a retry policy), cancelled,
    rescheduled or expired by commands.  Every change appends a numbered record.
    The reducers are programs over [RuntimeState]; a borrow that the source
    expects to succeed panics in the model when it does not. *)

From Stdlib Require Import Ascii String.
From stdpp Require Import base option strings numbers gmap list.
From S2P Require Import Prelude BTree Text Json Storage Pages MessageBus Resilience.

Local Open Scope rx_scope.
Local Open Scope N_scope.

(** Iteration over a [HashSet]: the elements, in an order of its own. *)
Class HashOrder := {
  hash_iter : gset string → list string;
  hash_iter_perm s : hash_iter s ≡ₚ elements s
}.

Module Queue.

(** ** Data *)

Record WorkQueueSubmit (T : Type) := mkSubmit {
  sb_payload : T;
  sb_work_id : option string;
  sb_priority : option Z;
  sb_tags : list string;
  sb_requirements : list string;
  sb_not_before_ms : option N;
  sb_deadline_ms : option N
}.
Arguments mkSubmit {T} _ _ _ _ _ _ _.
Arguments sb_payload {T} _.
Arguments sb_work_id {T} _.
Arguments sb_priority {T} _.
Arguments sb_tags {T} _.
Arguments sb_requirements {T} _.
Arguments sb_not_before_ms {T} _.
Arguments sb_deadline_ms {T} _.

(** The fields every command has: [command_id], [queue_id], [idempotency_key]. *)
Record CommandMeta := mkMeta {
  cm_command_id : string;
  cm_queue_id : option string;
  cm_idempotency_key : option string
}.

(** What a worker shows for its lease: work, lease, attempt, worker. *)
Record LeaseRef := mkLeaseRef {
  lr_work_id : string;
  lr_lease_id : string;
  lr_attempt : N;
  lr_worker_id : string
}.

Inductive WorkQueueCommand (T : Type) :=
| Submit (m : CommandMeta) (payload : T)
| Claim (m : CommandMeta) (worker_id : string) (requested_work_ids : list string) (limit : option nat)
    (lease_duration_ms now_ms : option N)
| RenewLease (m : CommandMeta) (l : LeaseRef) (lease_duration_ms lease_expires_at_ms now_ms : option N)
| Release (m : CommandMeta) (l : LeaseRef) (reason : option string) (now_ms : option N)
| Complete (m : CommandMeta) (l : LeaseRef) (result : option string) (now_ms : option N)
| Fail (m : CommandMeta) (l : LeaseRef) (error : option string) (retryable : option bool) (now_ms : option N)
| Cancel (m : CommandMeta) (work_id : string) (reason : option string) (now_ms : option N)
| Schedule (m : CommandMeta) (work_id : string) (schedule_id : option string) (not_before_ms : N)
    (deadline_ms : option N) (reason : option string) (now_ms : option N)
| ExpireLeases (m : CommandMeta) (work_ids : list string) (limit : option nat) (now_ms : option N).
Arguments Submit {T} _ _.
Arguments Claim {T} _ _ _ _ _ _.
Arguments RenewLease {T} _ _ _ _ _.
Arguments Release {T} _ _ _ _.
Arguments Complete {T} _ _ _ _.
Arguments Fail {T} _ _ _ _ _.
Arguments Cancel {T} _ _ _ _.
Arguments Schedule {T} _ _ _ _ _ _ _.
Arguments ExpireLeases {T} _ _ _ _.

Section CommandFields.
Context {T : Type}.
Implicit Types c : WorkQueueCommand T.

Definition meta c : CommandMeta :=
  match c with
  | Submit m _ | Claim m _ _ _ _ _ | RenewLease m _ _ _ _ | Release m _ _ _ | Complete m _ _ _
  | Fail m _ _ _ _ | Cancel m _ _ _ | Schedule m _ _ _ _ _ _ | ExpireLeases m _ _ _ => m
  end.
Definition command_id c : string := cm_command_id (meta c).
Definition queue_id c : option string := cm_queue_id (meta c).
Definition idempotency_key c : option string := cm_idempotency_key (meta c).

Definition now_ms c : option N :=
  match c with
  | Submit _ _ => None
  | Claim _ _ _ _ _ n | RenewLease _ _ _ _ n | Release _ _ _ n | Complete _ _ _ n | Fail _ _ _ _ n
  | Cancel _ _ _ n | Schedule _ _ _ _ _ _ n | ExpireLeases _ _ _ n => n
  end.
End CommandFields.

Record WorkQueueMessageBusRef := mkBusRef { mb_topic : string; mb_seq : N; mb_subscription_id : string }.

Inductive WorkQueueDerivedState :=
| Scheduled | Ready | Leased | RetryWait | Completed | Canceled | DeadLettered.
#[export] Instance derived_state_eq : EqDecision WorkQueueDerivedState.
Proof. solve_decision. Defined.

(** A record: its number and queue, and what happened. *)
Inductive RecordBody (T : Type) :=
| WorkAdmitted (work_id : string) (payload : T) (message_bus : WorkQueueMessageBusRef) (priority : option Z)
    (tags requirements : list string) (not_before_ms deadline_ms : option N) (recorded_at_ms : N)
| AdmissionDeduped (work_id : string) (message_bus : WorkQueueMessageBusRef) (reason existing_work_id : string)
    (recorded_at_ms : N)
| WorkScheduled (work_id command_id : string) (schedule_id : option string) (not_before_ms : N)
    (deadline_ms : option N) (reason : option string) (recorded_at_ms : N)
| WorkClaimed (l : LeaseRef) (command_id : string) (claimed_at_ms lease_expires_at_ms : N)
| LeaseRenewed (l : LeaseRef) (command_id : string) (previous_lease_expires_at_ms lease_expires_at_ms renewed_at_ms : N)
| WorkReleased (l : LeaseRef) (command_id : string) (released_at_ms : N) (reason : option string)
| LeaseExpired (l : LeaseRef) (command_id : option string) (lease_expires_at_ms expired_at_ms : N)
| AttemptCompleted (l : LeaseRef) (command_id : string) (result : option string) (recorded_at_ms : N)
| WorkCompleted (l : LeaseRef) (command_id : string) (result : option string) (recorded_at_ms : N)
| AttemptFailed (l : LeaseRef) (command_id : string) (error : option string) (retryable : option bool)
    (recorded_at_ms : N)
| RetryScheduled (work_id command_id : string) (retry_at_ms delay_ms : N) (reason : option string) (recorded_at_ms : N)
| WorkDeadLettered (work_id command_id reason : string) (exhausted_attempts : option N) (recorded_at_ms : N)
| WorkCanceled (work_id command_id : string) (reason : option string) (canceled_at_ms : N)
    (canceled_lease_id : option string) (attempt : option N).
Arguments WorkAdmitted {T} _ _ _ _ _ _ _ _ _.
Arguments AdmissionDeduped {T} _ _ _ _ _.
Arguments WorkScheduled {T} _ _ _ _ _ _ _.
Arguments WorkClaimed {T} _ _ _ _.
Arguments LeaseRenewed {T} _ _ _ _ _.
Arguments WorkReleased {T} _ _ _ _.
Arguments LeaseExpired {T} _ _ _ _.
Arguments AttemptCompleted {T} _ _ _ _.
Arguments WorkCompleted {T} _ _ _ _.
Arguments AttemptFailed {T} _ _ _ _ _.
Arguments RetryScheduled {T} _ _ _ _ _ _.
Arguments WorkDeadLettered {T} _ _ _ _ _.
Arguments WorkCanceled {T} _ _ _ _ _ _.

Record WorkQueueRecord (T : Type) := mkRecord {
  record_seq : N;
  record_queue_id : string;
  rc_body : RecordBody T
}.
Arguments mkRecord {T} _ _ _.
Arguments record_seq {T} _.
Arguments record_queue_id {T} _.
Arguments rc_body {T} _.

Section RecordFields.
Context {T : Type}.

Definition body_work_id (b : RecordBody T) : string :=
  match b with
  | WorkAdmitted w _ _ _ _ _ _ _ _ | AdmissionDeduped w _ _ _ _ | WorkScheduled w _ _ _ _ _ _
  | RetryScheduled w _ _ _ _ _ | WorkDeadLettered w _ _ _ _ | WorkCanceled w _ _ _ _ _ => w
  | WorkClaimed l _ _ _ | LeaseRenewed l _ _ _ _ | WorkReleased l _ _ _ | LeaseExpired l _ _ _
  | AttemptCompleted l _ _ _ | WorkCompleted l _ _ _ | AttemptFailed l _ _ _ _ => lr_work_id l
  end.
Definition record_work_id (r : WorkQueueRecord T) : string := body_work_id (rc_body r).

Definition admission_message_bus (r : WorkQueueRecord T) : option WorkQueueMessageBusRef :=
  match rc_body r with
  | WorkAdmitted _ _ mb _ _ _ _ _ _ | AdmissionDeduped _ mb _ _ _ => Some mb
  | _ => None
  end.

Definition with_record_seq (r : WorkQueueRecord T) (next : N) : WorkQueueRecord T :=
  mkRecord next (record_queue_id r) (rc_body r).
End RecordFields.

Inductive WorkQueueStatusKind :=
| CommandAccepted | CommandRejected | AdmissionAccepted | AdmissionRejected | ProjectionReady
| ProjectionPartial | MaintenanceApplied | MaintenanceNoop | PolicyWarning.

Record StatusFields := mkFields {
  qf_work_id : option string;
  qf_command_id : option string;
  qf_record_seq : option N;
  qf_issue_code : option string;
  qf_details : option string
}.

Record WorkQueueStatus := mkQueueStatus {
  qs_kind : WorkQueueStatusKind;
  qs_queue_id : string;
  qs_fields : StatusFields;
  qs_as_of_record_seq : option N;
  qs_timestamp_ms : N
}.

Inductive QueueEvent (T : Type) :=
| QRecord (r : WorkQueueRecord T)
| QStatus (s : WorkQueueStatus)
| QIssue (i : Bus.DataIssue).
Arguments QRecord {T} _.
Arguments QStatus {T} _.
Arguments QIssue {T} _.

Record WorkState (T : Type) := mkWork {
  w_id : string;
  w_payload : T;
  w_state : WorkQueueDerivedState;
  w_admission_seq : N;
  w_priority : option Z;
  w_tags : list string;
  w_requirements : list string;
  w_not_before_ms : option N;
  w_retry_at_ms : option N;
  w_deadline_ms : option N;
  w_attempt : N;
  w_lease_id : option string;
  w_worker_id : option string;
  w_lease_expires_at_ms : option N
}.
Arguments mkWork {T} _ _ _ _ _ _ _ _ _ _ _ _ _ _.
Arguments w_id {T} _.
Arguments w_payload {T} _.
Arguments w_state {T} _.
Arguments w_admission_seq {T} _.
Arguments w_priority {T} _.
Arguments w_tags {T} _.
Arguments w_requirements {T} _.
Arguments w_not_before_ms {T} _.
Arguments w_retry_at_ms {T} _.
Arguments w_deadline_ms {T} _.
Arguments w_attempt {T} _.
Arguments w_lease_id {T} _.
Arguments w_worker_id {T} _.
Arguments w_lease_expires_at_ms {T} _.

Record RuntimeState (T : Type) := mkRuntime {
  q_record_seq : N;
  q_lease_seq : N;
  works : BTree string (WorkState T);
  source_seqs : gset string;
  command_ids : gset string;
  idempotency_keys : gset string;
  records : list (WorkQueueRecord T);
  dead_letters : list (WorkQueueRecord T)
}.
Arguments mkRuntime {T} _ _ _ _ _ _ _ _.
Arguments q_record_seq {T} _.
Arguments q_lease_seq {T} _.
Arguments works {T} _.
Arguments source_seqs {T} _.
Arguments command_ids {T} _.
Arguments idempotency_keys {T} _.
Arguments records {T} _.
Arguments dead_letters {T} _.

Definition queue_default {T} : RuntimeState T := mkRuntime 0 0 [] ∅ ∅ ∅ [] [].

Record RuntimeOptions := mkOptions {
  o_queue_id : string;
  o_subscription_id : string;
  o_lease_duration_ms : N;
  o_retry : RetryPolicy
}.

Section Setters.
Context {T : Type}.
Implicit Types s : RuntimeState T.
Implicit Types w : WorkState T.

Definition set_lease_seq f s := mkRuntime (q_record_seq s) (f (q_lease_seq s)) (works s) (source_seqs s)
  (command_ids s) (idempotency_keys s) (records s) (dead_letters s).
Definition set_works f s := mkRuntime (q_record_seq s) (q_lease_seq s) (f (works s)) (source_seqs s)
  (command_ids s) (idempotency_keys s) (records s) (dead_letters s).
Definition set_source_seqs f s := mkRuntime (q_record_seq s) (q_lease_seq s) (works s) (f (source_seqs s))
  (command_ids s) (idempotency_keys s) (records s) (dead_letters s).
Definition set_command_ids f s := mkRuntime (q_record_seq s) (q_lease_seq s) (works s) (source_seqs s)
  (f (command_ids s)) (idempotency_keys s) (records s) (dead_letters s).
Definition set_idempotency_keys f s := mkRuntime (q_record_seq s) (q_lease_seq s) (works s) (source_seqs s)
  (command_ids s) (f (idempotency_keys s)) (records s) (dead_letters s).
Definition push_record r s := mkRuntime (record_seq r) (q_lease_seq s) (works s) (source_seqs s)
  (command_ids s) (idempotency_keys s) (records s ++ [r]) (dead_letters s).
Definition push_dead r s := mkRuntime (q_record_seq s) (q_lease_seq s) (works s) (source_seqs s)
  (command_ids s) (idempotency_keys s) (records s) (dead_letters s ++ [r]).

Definition set_state st w := mkWork (w_id w) (w_payload w) st (w_admission_seq w) (w_priority w) (w_tags w)
  (w_requirements w) (w_not_before_ms w) (w_retry_at_ms w) (w_deadline_ms w) (w_attempt w) (w_lease_id w)
  (w_worker_id w) (w_lease_expires_at_ms w).
Definition set_lease attempt lease worker expires w := mkWork (w_id w) (w_payload w) (w_state w) (w_admission_seq w)
  (w_priority w) (w_tags w) (w_requirements w) (w_not_before_ms w) (w_retry_at_ms w) (w_deadline_ms w) attempt lease
  worker expires.
Definition clear_lease w := set_lease (w_attempt w) None None None w.
Definition set_expiry e w := set_lease (w_attempt w) (w_lease_id w) (w_worker_id w) (Some e) w.
Definition set_retry_at t w := mkWork (w_id w) (w_payload w) (w_state w) (w_admission_seq w) (w_priority w) (w_tags w)
  (w_requirements w) (w_not_before_ms w) (Some t) (w_deadline_ms w) (w_attempt w) (w_lease_id w)
  (w_worker_id w) (w_lease_expires_at_ms w).
Definition set_window not_before deadline w := mkWork (w_id w) (w_payload w) (w_state w) (w_admission_seq w)
  (w_priority w) (w_tags w) (w_requirements w) (Some not_before) (w_retry_at_ms w) deadline (w_attempt w) (w_lease_id w)
  (w_worker_id w) (w_lease_expires_at_ms w).

Definition is_ready w (now : N) : bool :=
  match w_state w with
  | Scheduled => match w_not_before_ms w with Some t => t <=? now | None => false end
  | RetryWait => match w_retry_at_ms w with Some t => t <=? now | None => false end
  | Ready => true
  | _ => false
  end.

Definition is_ready_for_projection w (now : option N) : bool :=
  match w_state w with
  | Scheduled | RetryWait => match now with Some n => is_ready w n | None => false end
  | Ready => true
  | _ => false
  end.

Definition is_expired w (now : N) : bool :=
  bool_decide (w_state w = Leased) && match w_lease_expires_at_ms w with Some e => e <=? now | None => false end.
End Setters.

Definition is_terminal (st : WorkQueueDerivedState) : bool :=
  match st with Completed | Canceled | DeadLettered => true | _ => false end.

(** ** The reducers *)

Section Reducer.
Context {T : Type} `{!TupleText} `{!HashOrder} (opts : RuntimeOptions).
Abbreviation MQ := (M (RuntimeState T)).
Abbreviation Event := (QueueEvent T).

(** An early return of events. *)
Definition or_return {A} (m : MQ (Result (list Event) A)) (k : A → MQ (list Event)) : MQ (list Event) :=
  let! r := m in match r with Ok a => k a | Err events => ret events end.

(** [works.get_mut(id).expect(..)] and a change of the work. *)
Definition upd_work (id : string) (f : WorkState T → WorkState T) : MQ unit :=
  let! m := gets works in
  let! w := expect (bt_get id m) "checked lease" in
  modify (set_works (bt_insert id (f w))).

Definition status_event (kind : WorkQueueStatusKind) (timestamp : N) (fields : StatusFields) : Event :=
  QStatus (mkQueueStatus kind (o_queue_id opts) fields None timestamp).

Definition append_record (body : RecordBody T) : MQ (WorkQueueRecord T) :=
  let! seq := gets q_record_seq in
  let record := with_record_seq (mkRecord 0 (o_queue_id opts) body) (seq + 1) in
  modify (push_record record) ;;;
  ret record.

Definition reject_queue_command_by_id (cid : option string) (code message : string) (now : N) : list Event :=
  [ QIssue (Bus.mkDataIssue "issue" code message "error" "workQueue" None
              (Some ("queueId=" +:+ o_queue_id opts)));
    status_event CommandRejected now (mkFields None cid None (Some code) None) ].

Definition reject_queue_command (c : WorkQueueCommand T) (code message : string) (now : N) : list Event :=
  reject_queue_command_by_id (Some (command_id c)) code message now.

Definition checked_timestamp (cid : option string) (now delta : N) (message : string) : Result (list Event) N :=
  if now + delta <=? u64_max then Ok (now + delta)
  else Err (reject_queue_command_by_id cid "clock-overflow" message now).

Definition accepted (r : WorkQueueRecord T) (work_id cid : option string) (now : N) : list Event :=
  [ QRecord r; status_event CommandAccepted now (mkFields work_id cid (Some (record_seq r)) None None) ].

(** The lease a work holds, with defaults for what it does not. *)
Definition lease_of (w : WorkState T) : LeaseRef :=
  mkLeaseRef (w_id w) (default ""%string (w_lease_id w)) (w_attempt w) (default ""%string (w_worker_id w)).

Definition materialize_lease_expired (w : WorkState T) (cid : option string) (now : N)
    (rejection : option (string * string)) : MQ (list Event) :=
  let! m := gets works in
  match bt_get (w_id w) m with
  | None => ret []
  | Some current =>
      modify (set_works (bt_insert (w_id w) (clear_lease (set_state Ready current)))) ;;;
      let! record := append_record
        (LeaseExpired (lease_of w) cid (default now (w_lease_expires_at_ms w)) now) in
      ret (QRecord record
             :: match rejection with
                | Some (code, message) => reject_queue_command_by_id cid code message now
                | None => []
                end)
  end.

(** Lease checks, in the order of the source. *)
Definition current_lease (l : LeaseRef) (cid : option string) (now : N) : MQ (Result (list Event) unit) :=
  let reject code message := ret (Err (reject_queue_command_by_id cid code message now)) in
  let! m := gets works in
  match bt_get (lr_work_id l) m with
  | None => reject "unknown-work" "unknown work"
  | Some w =>
      if is_terminal (w_state w) then reject "terminal-work" "work is terminal"
      else if negb (bool_decide (w_state w = Leased)) then reject "lease-not-current" "work is not leased"
      else if negb (bool_decide (w_lease_id w = Some (lr_lease_id l))) then reject "stale-lease" "lease is not current"
      else if negb (w_attempt w =? lr_attempt l) then reject "attempt-mismatch" "attempt mismatch"
      else if negb (bool_decide (w_worker_id w = Some (lr_worker_id l))) then reject "worker-mismatch" "worker mismatch"
      else if is_expired w now then
        let! events := materialize_lease_expired w cid now None in
        ret (Err (events ++ reject_queue_command_by_id cid "lease-expired" "lease expired" now))
      else ret (Ok tt)
  end.

(** [attempt + 1] on 32 bits; overflow is an arithmetic panic. *)
Definition next_attempt (attempt : N) : MQ N :=
  if attempt + 1 <=? u32_max then ret (attempt + 1) else panic (PanicStr "attempt to add with overflow").

Definition candidate_cmp (a b : N * string) : comparison :=
  match N.compare a.1 b.1 with Eq => key_cmp a.2 b.2 | c => c end.

Definition wanted (requested : gset string) (w : WorkState T) : bool :=
  bool_decide (requested = ∅) || bool_decide (w_id w ∈ requested).

Definition bt_values (m : BTree string (WorkState T)) : list (WorkState T) := m.*2.

Definition claim_miss_event (cid : string) (claimed : gset string) (now : N) (m : BTree string (WorkState T))
    (work_id : string) : list Event :=
  if bool_decide (work_id ∈ claimed) then []
  else match bt_get work_id m with
       | None => reject_queue_command_by_id (Some cid) "unknown-work" ("unknown work '" +:+ work_id +:+ "'") now
       | Some w =>
           if is_ready w now then []
           else
             let code := if is_terminal (w_state w) then "terminal-work"%string
                         else if decide (w_state w = Leased) then "already-leased"%string
                         else "not-ready"%string in
             reject_queue_command_by_id (Some cid) code ("requested work '" +:+ work_id +:+ "' is not claimable") now
       end.

Definition claim_miss_events (cid : string) (requested claimed : gset string) (now : N) : MQ (list Event) :=
  let! m := gets works in
  ret (mjoin (claim_miss_event cid claimed now m <$> hash_iter requested)).

(** The leases that are over, of the given works, in order. *)
Definition expire_each (ids : list string) (cid : string) (now : N) : MQ (list Event) :=
  fold_each ids (λ events id,
    let! m := gets works in
    match bt_get id m with
    | Some w => let! e := materialize_lease_expired w (Some cid) now None in ret (events ++ e)
    | None => ret events
    end) [].

Definition expired_ids (m : BTree string (WorkState T)) (requested : gset string) (now : N) : list string :=
  w_id <$> List.filter (λ w, wanted requested w && is_expired w now) (bt_values m).

Definition claim_candidates (m : BTree string (WorkState T)) (requested : gset string) (now : N) : list (N * string) :=
  sort_by candidate_cmp
    ((λ w, (w_admission_seq w, w_id w)) <$>
       List.filter (λ w, is_ready w now) (List.filter (wanted requested) (bt_values m))).

Definition claim_one (cid worker_id : string) (now expires : N) (work_id : string) : MQ (list Event) :=
  modify (set_lease_seq (λ n, n + 1)) ;;;
  let! lease_seq := gets q_lease_seq in
  let! m := gets works in
  let! w := expect (bt_get work_id m) "candidate work id came from state" in
  modify (set_works (bt_insert work_id (set_state Leased w))) ;;;
  let! attempt := next_attempt (w_attempt w) in
  let lease_id := compound_tuple_key "work-queue-lease" [w_id w; u64_string lease_seq] in
  modify (set_works (bt_insert work_id
    (set_lease attempt (Some lease_id) (Some worker_id) (Some expires) (set_state Leased w)))) ;;;
  let! record := append_record (WorkClaimed (mkLeaseRef work_id lease_id attempt worker_id) cid now expires) in
  ret (accepted record (Some work_id) (Some cid) now).

Definition claim_work (m : CommandMeta) (worker_id : string) (requested_work_ids : list string) (limit : option nat)
    (duration : option N) (now : N) : MQ (list Event) :=
  let cid := cm_command_id m in
  let limit := default (Nat.max (length requested_work_ids) 1) limit in
  assert_or (negb (Nat.eqb limit 0)) "workQueue: limit must be positive" ;;;
  let requested : gset string := list_to_set requested_work_ids in
  let! m0 := gets works in
  let! events := expire_each (expired_ids m0 requested now) cid now in
  let! m1 := gets works in
  let candidates := (take limit (claim_candidates m1 requested now)).*2 in
  if bool_decide (candidates = []) then
    if bool_decide (requested = ∅) then
      ret (events ++ reject_queue_command_by_id (Some cid) "not-ready" "no ready work" now)
    else
      let! misses := claim_miss_events cid requested ∅ now in ret (events ++ misses)
  else
    match checked_timestamp (Some cid) now (default (o_lease_duration_ms opts) duration)
            "lease duration overflows timestamp" with
    | Err events => ret events
    | Ok expires =>
        let! events := fold_each candidates (λ events id,
          let! e := claim_one cid worker_id now expires id in ret (events ++ e)) events in
        if bool_decide (requested = ∅) then ret events
        else
          let! misses := claim_miss_events cid requested (list_to_set candidates) now in ret (events ++ misses)
    end.

(** The reducers of the commands that show a lease. *)
Definition renew_lease (m : CommandMeta) (l : LeaseRef) (duration expires_at : option N) (now : N) : MQ (list Event) :=
  let cid := cm_command_id m in
  or_return (current_lease l (Some cid) now) (λ _,
    let! ws := gets works in
    let! w := expect (bt_get (lr_work_id l) ws) "checked lease" in
    let! previous := expect (w_lease_expires_at_ms w) "checked lease expiry" in
    match match expires_at with
          | Some value => Ok value
          | None => checked_timestamp (Some cid) now (default (o_lease_duration_ms opts) duration)
                      "lease renewal duration overflows timestamp"
          end with
    | Err events => ret events
    | Ok next =>
        upd_work (lr_work_id l) (set_expiry next) ;;;
        let! record := append_record (LeaseRenewed l cid previous next now) in
        ret (accepted record (Some (lr_work_id l)) (Some cid) now)
    end).

Definition release_work (m : CommandMeta) (l : LeaseRef) (reason : option string) (now : N) : MQ (list Event) :=
  let cid := cm_command_id m in
  or_return (current_lease l (Some cid) now) (λ _,
    upd_work (lr_work_id l) clear_lease ;;;
    upd_work (lr_work_id l) (set_state Ready) ;;;
    let! record := append_record (WorkReleased l cid now reason) in
    ret (accepted record (Some (lr_work_id l)) (Some cid) now)).

Definition complete_work (m : CommandMeta) (l : LeaseRef) (result : option string) (now : N) : MQ (list Event) :=
  let cid := cm_command_id m in
  or_return (current_lease l (Some cid) now) (λ _,
    upd_work (lr_work_id l) (λ w, clear_lease (set_state Completed w)) ;;;
    let! attempt_record := append_record (AttemptCompleted l cid result now) in
    let! record := append_record (WorkCompleted l cid result now) in
    ret (QRecord attempt_record :: accepted record (Some (lr_work_id l)) (Some cid) now)).

Definition fail_work (m : CommandMeta) (l : LeaseRef) (error : option string) (retryable : option bool) (now : N)
    : MQ (list Event) :=
  let cid := cm_command_id m in
  let id := lr_work_id l in
  or_return (current_lease l (Some cid) now) (λ _,
    let! ws := gets works in
    let! w := expect (bt_get id ws) "checked lease" in
    let retry := default true retryable && should_retry (o_retry opts) (w_attempt w) in
    let delay := if retry then default 0 (next_delay_ms (o_retry opts) (sat32 (w_attempt w + 1))) else 0 in
    match (if retry then checked_timestamp (Some cid) now delay "retry delay overflows timestamp" else Ok now) with
    | Err events => ret events
    | Ok retry_at =>
        let! failed := append_record (AttemptFailed l cid error retryable now) in
        if retry then
          upd_work id (λ w, clear_lease (set_retry_at retry_at (set_state (if 0 <? delay then RetryWait else Ready) w))) ;;;
          let! record := append_record (RetryScheduled id cid retry_at delay (Some "retry-policy"%string) now) in
          ret (QRecord failed :: accepted record (Some id) (Some cid) now)
        else
          upd_work id (λ w, clear_lease (set_state DeadLettered w)) ;;;
          let! record := append_record (WorkDeadLettered id cid "attempts-exhausted" (Some (lr_attempt l)) now) in
          modify (push_dead record) ;;;
          ret (QRecord failed :: accepted record (Some id) (Some cid) now)
    end).

(** [get_mut] of a work that must exist and not be terminal. *)
Definition with_open_work (id cid : string) (now : N) (k : WorkState T → MQ (list Event)) : MQ (list Event) :=
  let! ws := gets works in
  match bt_get id ws with
  | None => ret (reject_queue_command_by_id (Some cid) "unknown-work" "unknown work" now)
  | Some w =>
      if is_terminal (w_state w)
      then ret (reject_queue_command_by_id (Some cid) "terminal-work" "work is terminal" now)
      else k w
  end.

Definition cancel_work (m : CommandMeta) (id : string) (reason : option string) (now : N) : MQ (list Event) :=
  let cid := cm_command_id m in
  with_open_work id cid now (λ w,
    modify (set_works (bt_insert id (clear_lease (set_state Canceled w)))) ;;;
    let! record := append_record (WorkCanceled id cid reason now (w_lease_id w)
                                    (if 0 <? w_attempt w then Some (w_attempt w) else None)) in
    ret (accepted record (Some id) (Some cid) now)).

Definition schedule_work (m : CommandMeta) (id : string) (schedule_id : option string) (not_before : N)
    (deadline : option N) (reason : option string) (now : N) : MQ (list Event) :=
  let cid := cm_command_id m in
  with_open_work id cid now (λ w,
    if decide (w_state w = Leased) then
      ret (reject_queue_command_by_id (Some cid) "schedule-conflict"
             "leased work cannot be scheduled without release or cancel" now)
    else
      modify (set_works (bt_insert id (set_window not_before deadline (set_state Scheduled w)))) ;;;
      let! record := append_record (WorkScheduled id cid schedule_id not_before deadline reason now) in
      ret (accepted record (Some id) (Some cid) now)).

Definition expire_leases (m : CommandMeta) (work_ids : list string) (limit : option nat) (now : N) : MQ (list Event) :=
  let cid := cm_command_id m in
  let requested : gset string := list_to_set work_ids in
  assert_or (negb (bool_decide (limit = Some 0%nat))) "workQueue: limit must be positive" ;;;
  let! ws := gets works in
  let all := expired_ids ws requested now in
  let expired := match limit with Some n => take n all | None => all end in
  if bool_decide (expired = []) then
    ret [status_event MaintenanceNoop now (mkFields None (Some cid) None None None)]
  else
    let! events := expire_each expired cid now in
    ret (events ++ [status_event MaintenanceApplied now
           (mkFields None (Some cid) None None (Some ("expired=" +:+ u64_string (N.of_nat (length expired)))))]).

Definition zero (n : option N) : bool := bool_decide (n = Some 0).
Definition empty (s : string) : bool := bool_decide (s = ""%string).

Definition lease_malformed (l : LeaseRef) : bool :=
  empty (lr_work_id l) || empty (lr_lease_id l) || empty (lr_worker_id l) || (lr_attempt l =? 0).

Definition validate_queue_command (c : WorkQueueCommand T) : option (string * string) :=
  let malformed (b : bool) message := if b then Some ("malformed-command"%string, message) else None in
  if empty (command_id c) then Some ("malformed-command", "commandId must be non-empty")%string
  else if match queue_id c with Some q => negb (bool_decide (q = o_queue_id opts)) | None => false end
  then Some ("queue-mismatch", "command queueId does not match this queue")%string
  else
    match c with
    | Claim _ worker ids limit duration _ =>
        if empty worker then Some ("malformed-command", "claim workerId is required")%string
        else malformed (bool_decide (limit = Some 0%nat) || zero duration || existsb empty ids) "claim options are malformed"%string
    | RenewLease _ l duration _ _ => malformed (lease_malformed l || zero duration) "lease command is malformed"%string
    | Release _ l _ _ | Complete _ l _ _ | Fail _ l _ _ _ => malformed (lease_malformed l) "lease command is malformed"%string
    | Cancel _ id _ _ | Schedule _ id _ _ _ _ _ => malformed (empty id) "workId must be non-empty"%string
    | ExpireLeases _ ids limit _ =>
        malformed (bool_decide (limit = Some 0%nat) || existsb empty ids) "expire-leases options are malformed"%string
    | Submit _ _ => None
    end.

Definition dispatch (c : WorkQueueCommand T) (now : N) : MQ (list Event) :=
  match c with
  | Submit m _ => ret [status_event CommandAccepted now
                         (mkFields None (Some (cm_command_id m)) None None (Some "submit uses messageBus"%string))]
  | Claim m worker ids limit duration _ => claim_work m worker ids limit duration now
  | RenewLease m l duration expires _ => renew_lease m l duration expires now
  | Release m l reason _ => release_work m l reason now
  | Complete m l result _ => complete_work m l result now
  | Fail m l error retryable _ => fail_work m l error retryable now
  | Cancel m id reason _ => cancel_work m id reason now
  | Schedule m id schedule_id not_before deadline reason _ => schedule_work m id schedule_id not_before deadline reason now
  | ExpireLeases m ids limit _ => expire_leases m ids limit now
  end.

Definition seen_key (s : RuntimeState T) (c : WorkQueueCommand T) : bool :=
  match idempotency_key c with Some k => bool_decide (k ∈ idempotency_keys s) | None => false end.

Definition reduce_queue_command (c : WorkQueueCommand T) (now : N) : MQ (list Event) :=
  match validate_queue_command c with
  | Some (code, message) => ret (reject_queue_command c code message now)
  | None =>
      let! s := gets id in
      if bool_decide (command_id c ∈ command_ids s) then
        ret (reject_queue_command c "duplicate-command" "duplicate commandId" now)
      else if seen_key s c then
        ret (reject_queue_command c "duplicate-command" "duplicate idempotencyKey" now)
      else
        modify (set_command_ids (λ ids, {[command_id c]} ∪ ids)) ;;;
        match idempotency_key c with
        | Some k => modify (set_idempotency_keys (λ ks, {[k]} ∪ ks))
        | None => ret tt
        end ;;;
        dispatch c now
  end.

(** *** Admission *)

Definition source_key (message : Bus.MessageEnvelope (WorkQueueSubmit T)) : string :=
  canonical_tuple_key [Bus.me_topic message; u64_string (Bus.me_seq message)].

Definition admitted_id (message : Bus.MessageEnvelope (WorkQueueSubmit T)) : string :=
  match sb_work_id (Bus.me_payload message) with
  | Some id => id
  | None => compound_tuple_key "work-queue-work" [o_queue_id opts; Bus.me_topic message; u64_string (Bus.me_seq message)]
  end.

Definition admitted_work (id : string) (submit : WorkQueueSubmit T) (seq now : N) : WorkState T :=
  mkWork id (sb_payload submit)
    (if match sb_not_before_ms submit with Some t => now <? t | None => false end then Scheduled else Ready)
    seq (sb_priority submit) (sb_tags submit) (sb_requirements submit) (sb_not_before_ms submit) None
    (sb_deadline_ms submit) 0 None None None.

Definition admit_message (message : Bus.MessageEnvelope (WorkQueueSubmit T)) (now : N) : MQ (list Event) :=
  let source := source_key message in
  let! s := gets id in
  if bool_decide (source ∈ source_seqs s) then ret []
  else
    modify (set_source_seqs (λ ks, {[source]} ∪ ks)) ;;;
    let submit := Bus.me_payload message in
    let work_id := admitted_id message in
    let bus := mkBusRef (Bus.me_topic message) (Bus.me_seq message) (o_subscription_id opts) in
    match bt_get work_id (works s) with
    | Some _ =>
        let! record := append_record (AdmissionDeduped work_id bus "duplicate-work" work_id now) in
        ret [ QRecord record;
              status_event AdmissionRejected now
                (mkFields (Some work_id) None (Some (record_seq record)) (Some "duplicate-work"%string) None) ]
    | None =>
        modify (set_works (bt_insert work_id (admitted_work work_id submit (Bus.me_seq message) now))) ;;;
        let! record := append_record
          (WorkAdmitted work_id (sb_payload submit) bus (sb_priority submit) (sb_tags submit) (sb_requirements submit)
             (sb_not_before_ms submit) (sb_deadline_ms submit) now) in
        ret [ QRecord record;
              status_event AdmissionAccepted now (mkFields (Some work_id) None (Some (record_seq record)) None None) ]
    end.

(** An admission record acknowledges its message on the bus. *)
Definition admission_ack_command (r : WorkQueueRecord T) : option (Bus.MessageBusCommand (WorkQueueSubmit T)) :=
  mb ← admission_message_bus r;
  Some (Bus.Ack (mb_topic mb) (mb_subscription_id mb) (mb_seq mb)
          (Some (compound_tuple_key "work-queue-admission-ack"
             [record_queue_id r; mb_topic mb; mb_subscription_id mb; u64_string (mb_seq mb)]))).

Definition should_poll_admission (status : Bus.MessageBusStatus) (topic subscription_id : string) : bool :=
  let f := Bus.bs_fields status in
  bool_decide (Bus.sf_topic f = Some topic)
  && match Bus.bs_kind status with
     | Bus.MessagePublished | Bus.RetentionTrimmed => true
     | Bus.SubscriptionAcked | Bus.SubscriptionSought => bool_decide (Bus.sf_subscription_id f = Some subscription_id)
     | _ => false
     end.

(** What the runtime node meets: a message of an admission page, or a command,
    with what the clock reads then; a command may bring its own time. *)
Inductive QueueInput :=
| Admit (message : Bus.MessageEnvelope (WorkQueueSubmit T)) (clock : N)
| Run (c : WorkQueueCommand T) (clock : N).

Definition queue_input (i : QueueInput) : MQ (list Event) :=
  match i with
  | Admit message clock => admit_message message clock
  | Run c clock => reduce_queue_command c (default clock (now_ms c))
  end.

Definition runtime (inputs : list QueueInput) : MQ (list Event) :=
  fold_each inputs (λ events i, let! e := queue_input i in ret (events ++ e)) [].
End Reducer.
Arguments Admit {T} _ _.
Arguments Run {T} _ _.

(** ** Projections *)

Section Pages.
Context {T : Type}.
Implicit Types s : RuntimeState T.

Record WorkQueueAvailableItem := mkItem {
  ai_work_id : string;
  ai_state : WorkQueueDerivedState;
  ai_payload : T;
  ai_admission_seq : N;
  ai_priority : option Z;
  ai_tags : list string;
  ai_requirements : list string;
  ai_not_before_ms : option N;
  ai_retry_at_ms : option N;
  ai_deadline_ms : option N
}.

Definition available_item (w : WorkState T) : WorkQueueAvailableItem :=
  mkItem (w_id w) (w_state w) (w_payload w) (w_admission_seq w) (w_priority w) (w_tags w) (w_requirements w)
    (w_not_before_ms w) (w_retry_at_ms w) (w_deadline_ms w).

Definition item_cmp (a b : WorkQueueAvailableItem) : comparison :=
  candidate_cmp (ai_admission_seq a, ai_work_id a) (ai_admission_seq b, ai_work_id b).

Definition after_item (after_seq : option N) (after_id : option string) (w : WorkState T) : bool :=
  match after_seq, after_id with
  | Some seq, Some id => match candidate_cmp (seq, id) (w_admission_seq w, w_id w) with Lt => true | _ => false end
  | Some seq, None => seq <? w_admission_seq w
  | None, Some id => key_lt id (w_id w)
  | None, None => true
  end.

(** The positive limit panics on zero: no page.  The cursor of the next page is
    the pair of the last item's admission number and id. *)
Definition available_page s (limit : option nat) (after_seq : option N) (after_id : option string) (now : option N)
    : option (Page WorkQueueAvailableItem (N * string) * N) :=
  let limit := default 100%nat limit in
  if Nat.eqb limit 0 then None
  else
    let items := sort_by item_cmp (available_item <$>
      List.filter (after_item after_seq after_id)
        (List.filter (λ w, is_ready_for_projection w now) (bt_values (works s)))) in
    Some (page_of limit (λ i, (ai_admission_seq i, ai_work_id i)) items, q_record_seq s).

Record WorkQueueActiveLease := mkActiveLease {
  al_lease_id : string;
  al_attempt : N;
  al_worker_id : string;
  al_lease_expires_at_ms : N
}.

Record WorkQueueWorkSnapshot := mkSnapshot {
  ws_work_id : string;
  ws_state : option WorkQueueDerivedState;
  ws_payload : option T;
  ws_active_lease : option WorkQueueActiveLease;
  ws_records : list (WorkQueueRecord T);
  ws_as_of_record_seq : N
}.

Definition active_lease (w : WorkState T) : option WorkQueueActiveLease :=
  if decide (w_state w = Leased) then
    lease_id ← w_lease_id w; worker_id ← w_worker_id w; expires ← w_lease_expires_at_ms w;
    Some (mkActiveLease lease_id (w_attempt w) worker_id expires)
  else None.

Definition work_snapshot s (work_id : string) : WorkQueueWorkSnapshot :=
  let w := bt_get work_id (works s) in
  mkSnapshot work_id (w_state <$> w) (w_payload <$> w) (w ≫= active_lease)
    (List.filter (λ r, bool_decide (record_work_id r = work_id)) (records s)) (q_record_seq s).

Definition dead_letter_page s (limit : option nat) (after_seq : option N) (after_work_id : option string)
    : option (Page (WorkQueueRecord T) N * N) :=
  let limit := default 100%nat limit in
  if Nat.eqb limit 0 then None
  else
    Some (page_of limit record_seq
      (List.filter (λ r, match after_seq with Some after => after <? record_seq r | None => true end
                         && match after_work_id with Some after => key_lt after (record_work_id r) | None => true end)
         (dead_letters s)), q_record_seq s).
End Pages.
Arguments WorkQueueAvailableItem : clear implicits.
Arguments WorkQueueWorkSnapshot : clear implicits.

(** ** The handle *)

Section Handle.
Context {T : Type} `{!TupleText}.

Record WorkQueueSubmitOptions := mkSubmitOptions {
  so_command_id : option string;
  so_idempotency_key : option string;
  so_work_id : option string;
  so_priority : option Z;
  so_tags : list string;
  so_requirements : list string;
  so_not_before_ms : option N;
  so_deadline_ms : option N
}.

Record WorkQueueClaimOptions := mkClaimOptions {
  co_command_id : option string;
  co_queue_id : option string;
  co_idempotency_key : option string;
  co_worker_id : string;
  co_requested_work_ids : list string;
  co_limit : option nat;
  co_lease_duration_ms : option N;
  co_now_ms : option N
}.

(** The handle: what it is called, its count of the commands it named itself,
    the values it set on the commands node and the commands it gave the bus. *)
Record WorkQueue := mkWorkQueue {
  h_queue_id : string;
  h_topic : string;
  h_command_seq : N;
  h_commands : list (WorkQueueCommand T);
  h_published : list (Bus.MessageBusCommand (WorkQueueSubmit T))
}.

Definition next_command_id (kind : string) : M WorkQueue string :=
  let! h := gets id in
  let next := h_command_seq h + 1 in
  modify (λ h, mkWorkQueue (h_queue_id h) (h_topic h) next (h_commands h) (h_published h)) ;;;
  ret (compound_tuple_key "work-queue-command" [h_queue_id h; kind; u64_string next]).

Definition id_or_next (cid : option string) (kind : string) : M WorkQueue string :=
  match cid with Some id => ret id | None => next_command_id kind end.

Definition publish_command (c : WorkQueueCommand T) : M WorkQueue (WorkQueueCommand T) :=
  modify (λ h, mkWorkQueue (h_queue_id h) (h_topic h) (h_command_seq h) (h_commands h ++ [c]) (h_published h)) ;;;
  ret c.

Definition submit (payload : T) (opts : WorkQueueSubmitOptions) : M WorkQueue (Bus.MessageBusCommand (WorkQueueSubmit T)) :=
  let! cid := id_or_next (so_command_id opts) "submit" in
  let! h := gets id in
  let c := Bus.Publish (h_topic h)
    (mkSubmit payload (so_work_id opts) (so_priority opts) (so_tags opts) (so_requirements opts)
       (so_not_before_ms opts) (so_deadline_ms opts)) None (Some cid) (so_idempotency_key opts) in
  modify (λ h, mkWorkQueue (h_queue_id h) (h_topic h) (h_command_seq h) (h_commands h) (h_published h ++ [c])) ;;;
  ret c.

Definition claim (opts : WorkQueueClaimOptions) : M WorkQueue (WorkQueueCommand T) :=
  let! cid := id_or_next (co_command_id opts) "claim" in
  publish_command (Claim (mkMeta cid (co_queue_id opts) (co_idempotency_key opts)) (co_worker_id opts)
    (co_requested_work_ids opts) (co_limit opts) (co_lease_duration_ms opts) (co_now_ms opts)).

(** The metadata of a command made from its id alone. *)
Definition only_id (cid : string) : CommandMeta := mkMeta cid None None.

Definition renew (work_id lease_id : string) (attempt : N) (worker_id cid : string) : M WorkQueue (WorkQueueCommand T) :=
  publish_command (RenewLease (only_id cid) (mkLeaseRef work_id lease_id attempt worker_id) None None None).

Definition release (work_id lease_id : string) (attempt : N) (worker_id cid : string) : M WorkQueue (WorkQueueCommand T) :=
  publish_command (Release (only_id cid) (mkLeaseRef work_id lease_id attempt worker_id) None None).

Definition complete (work_id lease_id : string) (attempt : N) (worker_id cid : string) (result : option string)
    : M WorkQueue (WorkQueueCommand T) :=
  publish_command (Complete (only_id cid) (mkLeaseRef work_id lease_id attempt worker_id) result None).

Definition fail (work_id lease_id : string) (attempt : N) (worker_id cid : string) (retryable : option bool)
    : M WorkQueue (WorkQueueCommand T) :=
  publish_command (Fail (only_id cid) (mkLeaseRef work_id lease_id attempt worker_id) None retryable None).

Definition cancel (work_id cid : string) (reason : option string) : M WorkQueue (WorkQueueCommand T) :=
  publish_command (Cancel (only_id cid) work_id reason None).

Definition schedule (work_id : string) (not_before : N) (cid : string) : M WorkQueue (WorkQueueCommand T) :=
  publish_command (Schedule (only_id cid) work_id None not_before None None None).

Definition expire (cid : string) : M WorkQueue (WorkQueueCommand T) :=
  publish_command (ExpireLeases (only_id cid) [] None None).

(** [work_queue] refuses empty names, a zero lease and a policy without attempts. *)
Definition options_ok (topic subscription_id : string) (opts : RuntimeOptions) : bool :=
  negb (empty (o_queue_id opts)) && negb (empty topic) && negb (empty subscription_id)
  && (0 <? o_lease_duration_ms opts) && (0 <? max_attempts (o_retry opts)).
End Handle.
Arguments WorkQueue : clear implicits.
End Queue.
