(* ===== verification/WorkQueueFacts.v ===== *)
(** * What the work queue guarantees

    The queue is explained by its records alone: [replay] rebuilds the works from
    the record log, [legal] says when a record may follow a log, and every run of
    the runtime keeps both ([queue_ok]).  Exclusive leases, fencing of stale
    workers, final states and bounded retries are then facts of legal logs. *)

From Stdlib Require Import Ascii String.
From stdpp Require Import base option strings numbers gmap sorting list.
From S2P Require Import Prelude BTree Text Json Storage Pages MessageBus Resilience WorkQueue StorageFacts.
Import Queue.

Local Open Scope rx_scope.
Local Open Scope N_scope.

Section Facts.
Context {T : Type} `{!TupleText} `{!HashOrder} (opts : RuntimeOptions).
Implicit Types s : RuntimeState T.
Implicit Types w : WorkState T.
Implicit Types r : WorkQueueRecord T.
Implicit Types rs : list (WorkQueueRecord T).
Abbreviation Works := (BTree string (WorkState T)).

(** ** The log *)

Definition upd_at (id : string) (f : WorkState T → WorkState T) (m : Works) : Works :=
  match bt_get id m with Some w => bt_insert id (f w) m | None => m end.

(** What a record does to the works. *)
Definition apply_body (m : Works) (b : RecordBody T) : Works :=
  match b with
  | WorkAdmitted id payload bus priority tags requirements not_before deadline now =>
      bt_insert id (admitted_work id (mkSubmit payload None priority tags requirements not_before deadline)
                      (mb_seq bus) now) m
  | AdmissionDeduped _ _ _ _ _ | AttemptCompleted _ _ _ _ | AttemptFailed _ _ _ _ _ => m
  | WorkScheduled id _ _ not_before deadline _ _ => upd_at id (λ w, set_window not_before deadline (set_state Scheduled w)) m
  | WorkClaimed l _ _ expires =>
      upd_at (lr_work_id l) (λ w, set_lease (lr_attempt l) (Some (lr_lease_id l)) (Some (lr_worker_id l)) (Some expires)
                                    (set_state Leased w)) m
  | LeaseRenewed l _ _ expires _ => upd_at (lr_work_id l) (set_expiry expires) m
  | WorkReleased l _ _ _ | LeaseExpired l _ _ _ => upd_at (lr_work_id l) (λ w, clear_lease (set_state Ready w)) m
  | WorkCompleted l _ _ _ => upd_at (lr_work_id l) (λ w, clear_lease (set_state Completed w)) m
  | RetryScheduled id _ retry_at delay _ _ =>
      upd_at id (λ w, clear_lease (set_retry_at retry_at (set_state (if 0 <? delay then RetryWait else Ready) w))) m
  | WorkDeadLettered id _ _ _ _ => upd_at id (λ w, clear_lease (set_state DeadLettered w)) m
  | WorkCanceled id _ _ _ _ _ => upd_at id (λ w, clear_lease (set_state Canceled w)) m
  end.

Definition replay rs : Works := foldl (λ m r, apply_body m (rc_body r)) [] rs.

Lemma replay_snoc rs r : replay (rs ++ [r]) = apply_body (replay rs) (rc_body r).
Proof. unfold replay. by rewrite foldl_app. Qed.

(** The lease a work is under, as a worker shows it, and until when. *)
Definition leased_as (m : Works) (l : LeaseRef) (expires : N) : Prop :=
  ∃ w, bt_get (lr_work_id l) m = Some w ∧ w_state w = Leased ∧ w_lease_id w = Some (lr_lease_id l)
       ∧ w_attempt w = lr_attempt l ∧ w_worker_id w = Some (lr_worker_id l) ∧ w_lease_expires_at_ms w = Some expires.

Definition held (m : Works) (l : LeaseRef) (now : N) : Prop := ∃ expires, leased_as m l expires ∧ now < expires.

Definition claim_of r : option LeaseRef := match rc_body r with WorkClaimed l _ _ _ => Some l | _ => None end.
Definition is_dead r : bool := match rc_body r with WorkDeadLettered _ _ _ _ _ => true | _ => false end.

(** The claims of a work. *)
Definition claims (id : string) rs : nat :=
  length (List.filter (λ r, match claim_of r with Some l => bool_decide (lr_work_id l = id) | None => false end) rs).

Lemma claims_app id rs1 rs2 : claims id (rs1 ++ rs2) = (claims id rs1 + claims id rs2)%nat.
Proof. unfold claims. by rewrite List.filter_app, length_app. Qed.

Definition lease_name (id : string) (seq : N) : string := compound_tuple_key "work-queue-lease" [id; u64_string seq].

(** When a record may follow a log. *)
Definition legal rs (b : RecordBody T) : Prop :=
  let m := replay rs in
  match b with
  | WorkAdmitted id _ _ _ _ _ _ _ _ => bt_get id m = None
  | AdmissionDeduped id _ _ _ _ => bt_get id m ≠ None
  | WorkScheduled id _ _ _ _ _ _ => ∃ w, bt_get id m = Some w ∧ is_terminal (w_state w) = false ∧ w_state w ≠ Leased
  | WorkClaimed l _ now expires =>
      (∃ w, bt_get (lr_work_id l) m = Some w ∧ is_ready w now = true ∧ lr_attempt l = w_attempt w + 1)
      ∧ ∀ r l', r ∈ rs → claim_of r = Some l' → lr_lease_id l' ≠ lr_lease_id l
  | LeaseRenewed l _ previous _ now => leased_as m l previous ∧ now < previous
  | LeaseExpired l _ expires now => leased_as m l expires ∧ expires ≤ now
  | WorkReleased l _ now _ | AttemptCompleted l _ _ now | AttemptFailed l _ _ _ now => held m l now
  | WorkCompleted l cid result now =>
      held m l now ∧ ∃ r, last rs = Some r ∧ rc_body r = AttemptCompleted l cid result now
  | RetryScheduled id cid _ _ _ now =>
      ∃ l error retryable r, last rs = Some r ∧ rc_body r = AttemptFailed l cid error retryable now ∧ lr_work_id l = id
        ∧ held m l now ∧ retryable ≠ Some false ∧ lr_attempt l < max_attempts (o_retry opts)
  | WorkDeadLettered id cid _ exhausted now =>
      ∃ l error retryable r, last rs = Some r ∧ rc_body r = AttemptFailed l cid error retryable now ∧ lr_work_id l = id
        ∧ held m l now ∧ exhausted = Some (lr_attempt l)
        ∧ (retryable = Some false ∨ max_attempts (o_retry opts) <= lr_attempt l)
  | WorkCanceled id _ _ _ lease attempt =>
      ∃ w, bt_get id m = Some w ∧ is_terminal (w_state w) = false ∧ lease = w_lease_id w
           ∧ attempt = if 0 <? w_attempt w then Some (w_attempt w) else None
  end.

(** A log: every record is legal after the ones before it, numbered from one, of
    this queue, and every claim has a lease name of its own. *)
Inductive log_ok : N → list (WorkQueueRecord T) → Prop :=
| log_nil n : log_ok n []
| log_snoc n rs b :
    log_ok n rs → legal rs b → (∀ l cid now e, b = WorkClaimed l cid now e → lr_lease_id l = lease_name (lr_work_id l) n) →
    log_ok n (rs ++ [mkRecord (N.of_nat (length rs) + 1) (o_queue_id opts) b])
| log_more n n' rs : log_ok n rs → n ≤ n' → log_ok n' rs.

(** *** What the replay of a log looks like *)

Definition work_ok w : Prop :=
  if decide (w_state w = Leased)
  then is_Some (w_lease_id w) ∧ is_Some (w_worker_id w) ∧ is_Some (w_lease_expires_at_ms w)
  else w_lease_id w = None ∧ w_worker_id w = None ∧ w_lease_expires_at_ms w = None.

Record works_ok rs (m : Works) : Prop := {
  wk_wf : bt_wf m;
  wk_work id w : bt_get id m = Some w → w_id w = id ∧ work_ok w ∧ w_attempt w = N.of_nat (claims id rs);
  wk_unknown id : bt_get id m = None → claims id rs = 0%nat
}.

Lemma get_upd_at id id' f (m : Works) :
  bt_get id (upd_at id' f m) = if decide (id = id') then f <$> bt_get id m else bt_get id m.
Proof.
  unfold upd_at. destruct (decide (id = id')) as [<-|Hne]; destruct (bt_get _ m) eqn:Hg; try done.
  - by rewrite bt_get_insert.
  - by rewrite bt_get_insert_ne.
Qed.

Lemma upd_at_wf id f (m : Works) : bt_wf m → bt_wf (upd_at id f m).
Proof. unfold upd_at. destruct (bt_get id m); [apply bt_insert_wf|done]. Qed.

Lemma exists_last_or_nil {A} (l : list A) : l = [] ∨ ∃ l' x, l = l' ++ [x].
Proof. destruct l as [|x l] using rev_ind; eauto. Qed.

Lemma lease_name_inj id n id' n' : lease_name id n = lease_name id' n' → id = id' ∧ n = n'.
Proof. intros [= -> He%u64_string_inj]%compound_tuple_key_inj. done. Qed.

(** A change of one work, recorded by a record that claims nothing else. *)
Lemma works_upd rs r id f m :
  works_ok rs m → (∀ id', id' ≠ id → claims id' [r] = 0%nat) → (bt_get id m = None → claims id [r] = 0%nat) →
  (∀ w, bt_get id m = Some w → work_ok w →
     w_id (f w) = w_id w ∧ work_ok (f w) ∧ w_attempt (f w) = w_attempt w + N.of_nat (claims id [r])) →
  works_ok (rs ++ [r]) (upd_at id f m).
Proof.
  intros [] Hother Hnone Hf. split; [by apply upd_at_wf|..].
  - intros id' w. rewrite get_upd_at, claims_app. case_decide as He; [subst id'|].
    + intros (w0 & Hg & ->)%fmap_Some. destruct (wk_work0 _ _ Hg) as (Hid & Hok & Ha).
      destruct (Hf _ Hg Hok) as (-> & ? & ->). split_and!; [done..|lia].
    + intros Hg. rewrite Hother by done. destruct (wk_work0 _ _ Hg) as (? & ? & ->). split_and!; [done..|lia].
  - intros id'. rewrite get_upd_at, claims_app. case_decide as He; [subst id'|].
    + intros Hg%fmap_None. rewrite (wk_unknown0 _ Hg), Hnone by done. done.
    + intros Hg. rewrite (wk_unknown0 _ Hg), Hother by done. done.
Qed.

Lemma works_same rs r m : works_ok rs m → (∀ id, claims id [r] = 0%nat) → works_ok (rs ++ [r]) m.
Proof.
  intros [] Hr. split; [done|..].
  - intros id w Hg. rewrite claims_app, Hr, Nat.add_0_r. by apply wk_work0.
  - intros id Hg. rewrite claims_app, Hr, Nat.add_0_r. by apply wk_unknown0.
Qed.

Lemma work_ok_clear st w : st ≠ Leased → work_ok (clear_lease (set_state st w)).
Proof. intros Hst. unfold work_ok. simpl. by rewrite decide_False. Qed.

Lemma works_cleared rs r id f st m :
  works_ok rs m → (∀ id', claims id' [r] = 0%nat) → st ≠ Leased → (∀ w, w_attempt (f w) = w_attempt w ∧ w_id (f w) = w_id w) →
  (∀ w, w_state (f w) = st) → works_ok (rs ++ [r]) (upd_at id (λ w, clear_lease (f w)) m).
Proof.
  intros Hm Hr Hst Hf Hs. apply works_upd; [done|by intros|done|]. intros w _ Hok. rewrite Hr. destruct (Hf w) as [Ha Hi].
  split_and!; [done| |simpl; lia]. unfold work_ok. simpl. by rewrite Hs, decide_False.
Qed.

Lemma works_moved rs r id st m :
  works_ok rs m → (∀ id', claims id' [r] = 0%nat) → st ≠ Leased →
  works_ok (rs ++ [r]) (upd_at id (λ w, clear_lease (set_state st w)) m).
Proof. intros Hm Hr Hst. by apply (works_cleared _ _ _ (set_state st) st). Qed.

Lemma apply_ok rs r : works_ok rs (replay rs) → legal rs (rc_body r) → works_ok (rs ++ [r]) (replay (rs ++ [r])).
Proof.
  intros Hm Hl. rewrite replay_snoc. destruct r as [seq q b]. simpl in *. destruct b; simpl in *;
    try (by apply works_same); try (by apply works_moved).
  - destruct Hm. split; [by apply bt_insert_wf|..]; intros id; rewrite bt_lookup_insert, claims_app; case_decide as He.
    + intros w [= <-]. subst. rewrite wk_unknown0 by done. split_and!; [done| |done]. unfold work_ok. simpl.
      by destruct (match not_before_ms with Some _ => _ | None => _ end).
    + intros w Hw. rewrite Nat.add_0_r. by apply wk_work0.
    + done.
    + intros Hw. rewrite Nat.add_0_r. by apply wk_unknown0.
  - apply works_upd; [done|by intros|done|]. destruct Hl as (w & Hg & _ & Hns). intros w' Hg' Hok. simplify_eq.
    split_and!; [done| |by rewrite N.add_0_r]. unfold work_ok in *. simpl. by rewrite decide_False in *.
  - apply works_upd; [done|..].
    + intros id' Hne. unfold claims. simpl. by rewrite bool_decide_false.
    + destruct Hl as [(w & Hg & _) _]. congruence.
    + destruct Hl as [(w & Hg & _ & Ha) _]. intros w' Hg' _. simplify_eq. unfold claims. simpl.
      rewrite bool_decide_true by done. split_and!; [done| |simpl; lia]. by split_and!; eexists.
  - apply works_upd; [done|by intros|done|]. destruct Hl as [(w & Hg & Hs & Hlid & _ & Hwk & _) _]. intros w' Hg' Hok. simplify_eq.
    split_and!; [done| |by rewrite N.add_0_r]. unfold work_ok in *. simpl. rewrite decide_True in * by done. destruct Hok as (? & ? & _). by split_and!; [..|eexists].
  - by apply (works_cleared _ _ _ (λ w, set_retry_at retry_at_ms (set_state _ w)) (if 0 <? delay_ms then RetryWait else Ready));
      [..|destruct (0 <? delay_ms)| |].
Qed.

Lemma log_works n rs : log_ok n rs → works_ok rs (replay rs).
Proof.
  induction 1; [|by apply apply_ok|done]. split; [constructor|done..].
Qed.

Lemma log_numbered n rs k r :
  log_ok n rs → rs !! k = Some r → record_seq r = N.of_nat k + 1 ∧ record_queue_id r = o_queue_id opts.
Proof.
  intros Hl. revert k. induction Hl as [n|n rs b _ IH _ _|n n' rs _ IH _]; intros k Hk; [done| |by apply IH].
  apply lookup_app_Some in Hk as [Hk|[Hle Hk]]; [by apply IH|].
  apply list_lookup_singleton_Some in Hk as [Hk <-]. simpl. split; [lia|done].
Qed.

Lemma log_legal n rs before r later : log_ok n rs → rs = before ++ r :: later → legal before (rc_body r).
Proof.
  intros Hl. revert before r later. induction Hl as [n|n rs b Hl IH Hb _|n n' rs _ IH _]; intros before r later He.
  - by destruct before.
  - destruct (exists_last_or_nil later) as [->|(later' & x & ->)].
    + apply app_inj_tail in He as [-> <-]. done.
    + rewrite app_comm_cons, (assoc_L (++)) in He. apply app_inj_tail in He as [-> _]. by eapply IH.
  - by eapply IH.
Qed.

Lemma log_names n rs r l : log_ok n rs → r ∈ rs → claim_of r = Some l → ∃ k, k ≤ n ∧ lr_lease_id l = lease_name (lr_work_id l) k.
Proof.
  induction 1 as [n|n rs b Hl IH _ Hb|n n' rs _ IH Hle]; intros Hr Hc; [by apply elem_of_nil in Hr| |].
  - apply elem_of_app in Hr as [Hr|Hr]; [by apply IH|]. apply list_elem_of_singleton in Hr as ->.
    unfold claim_of in Hc. simpl in Hc. destruct b; try done. injection Hc as ->. exists n. split; [done|]. by eapply Hb.
  - destruct (IH Hr Hc) as (k & ? & ?). exists k. split; [lia|done].
Qed.

(** ** The state and its log *)

Record queue_ok s : Prop := {
  qo_log : log_ok (q_lease_seq s) (records s);
  qo_works : works s = replay (records s);
  qo_seq : q_record_seq s = N.of_nat (length (records s));
  qo_dead : dead_letters s = List.filter is_dead (records s)
}.

Lemma queue_works s : queue_ok s → works_ok (records s) (works s).
Proof. intros [Hl -> _ _]. by eapply log_works. Qed.

Definition next_record s (b : RecordBody T) : WorkQueueRecord T := mkRecord (q_record_seq s + 1) (o_queue_id opts) b.

Lemma append_run b s : append_record opts b s = Ret (next_record s b) (push_record (next_record s b) s).
Proof. done. Qed.

(** The state after a record: the log and the works together. *)
Definition logged s (b : RecordBody T) : RuntimeState T :=
  push_record (next_record s b) (set_works (λ m, apply_body m b) s).

Definition logged_dead s (b : RecordBody T) : RuntimeState T := push_dead (next_record s b) (logged s b).

Definition unclaimed (b : RecordBody T) : Prop := match b with WorkClaimed _ _ _ _ => False | _ => True end.
Definition undead (b : RecordBody T) : Prop := match b with WorkDeadLettered _ _ _ _ _ => False | _ => True end.

Lemma log_snoc_state s b :
  queue_ok s → legal (records s) b →
  (∀ l cid now e, b = WorkClaimed l cid now e → lr_lease_id l = lease_name (lr_work_id l) (q_lease_seq s)) →
  log_ok (q_lease_seq s) (records s ++ [next_record s b]).
Proof. intros [Hl _ Hs _] Hb Hn. unfold next_record. rewrite Hs. by apply log_snoc. Qed.

Lemma logged_ok s b :
  queue_ok s → legal (records s) b → undead b →
  (∀ l cid now e, b = WorkClaimed l cid now e → lr_lease_id l = lease_name (lr_work_id l) (q_lease_seq s)) →
  queue_ok (logged s b).
Proof.
  intros Hq Hb Hd Hn. pose proof (log_snoc_state _ _ Hq Hb Hn) as Hl. destruct Hq. split; simpl.
  - done.
  - by rewrite replay_snoc, qo_works0.
  - rewrite qo_seq0, length_app. simpl. lia.
  - rewrite List.filter_app, qo_dead0. simpl. destruct b; try done; by rewrite app_nil_r.
Qed.

Lemma logged_dead_ok s id cid reason ex now :
  queue_ok s → legal (records s) (WorkDeadLettered id cid reason ex now) →
  queue_ok (logged_dead s (WorkDeadLettered id cid reason ex now)).
Proof.
  intros Hq Hb. pose proof (log_snoc_state _ _ Hq Hb ltac:(done)) as Hl. destruct Hq. split; simpl.
  - done.
  - by rewrite replay_snoc, qo_works0.
  - rewrite qo_seq0, length_app. simpl. lia.
  - by rewrite List.filter_app, qo_dead0.
Qed.

Lemma lease_seq_ok s n : queue_ok s → q_lease_seq s ≤ n → queue_ok (set_lease_seq (λ _, n) s).
Proof. intros [] Hn. split; try done. simpl. by eapply log_more. Qed.

Lemma upd_work_run id f s w :
  bt_get id (works s) = Some w → upd_work id f s = Ret tt (set_works (upd_at id f) s).
Proof.
  intros Hg. unfold upd_work. rewrite (bind_step _ _ _ _ _ (eq_refl : gets works s = Ret (works s) s)).
  rewrite Hg. simpl. unfold modify, upd_at, set_works. by rewrite Hg.
Qed.

(** ** What an operation does to the log *)

Definition is_record (e : QueueEvent T) : option (WorkQueueRecord T) := match e with QRecord r => Some r | _ => None end.

(** From [s] the queue got to [s'] with the records [new]. *)
Definition grows s s' new : Prop := queue_ok s' ∧ records s' = records s ++ new.

Lemma grows_refl s : queue_ok s → grows s s [].
Proof. intros Hq. split; [done|by rewrite app_nil_r]. Qed.

Lemma grows_trans s1 s2 s3 n1 n2 : grows s1 s2 n1 → grows s2 s3 n2 → grows s1 s3 (n1 ++ n2).
Proof. intros [_ H1] [Hq H2]. split; [done|]. by rewrite H2, H1, (assoc_L (++)). Qed.

Lemma grows_logged s b :
  queue_ok s → legal (records s) b → undead b → unclaimed b → grows s (logged s b) [next_record s b].
Proof. intros Hq Hb Hd Hn. split; [|done]. apply logged_ok; [done..|]. by intros ???? ->. Qed.

(** The events hold the new records, unless [bad]; no work is claimed twice. *)
Definition step_ok s (bad : Prop) (ev : list (QueueEvent T)) s' : Prop :=
  ∃ new, grows s s' new ∧ (omap is_record ev = new ∨ bad) ∧ ∀ id, (claims id new ≤ 1)%nat.

Definition op_ok s (bad : Prop) (op : M (RuntimeState T) (list (QueueEvent T))) : Prop := total op s (step_ok s bad).

Lemma step_none s bad ev : queue_ok s → omap is_record ev = [] → step_ok s bad ev s.
Proof. intros Hq He. exists []. split_and!; [by apply grows_refl|by left|]. intros. cbn. lia. Qed.

Lemma reject_records cid code message now : omap is_record (reject_queue_command_by_id opts cid code message now) = [].
Proof. done. Qed.

Lemma claims_none id (b : RecordBody T) s : unclaimed b → claims id [next_record s b] = 0%nat.
Proof. by destruct b. Qed.

Lemma step_one s bad b wid cid now :
  queue_ok s → legal (records s) b → undead b → unclaimed b →
  step_ok s bad (accepted opts (next_record s b) wid cid now) (logged s b).
Proof.
  intros Hq Hb Hd Hn. exists [next_record s b]. split_and!; [by apply grows_logged|by left|].
  intros id. rewrite claims_none by done. lia.
Qed.

(** *** Leases *)

Lemma leased_work s l e : queue_ok s → leased_as (works s) l e → ∃ w, bt_get (lr_work_id l) (works s) = Some w
  ∧ w_state w = Leased ∧ lease_of w = l ∧ w_lease_expires_at_ms w = Some e.
Proof.
  intros Hq (w & Hg & Hs & Hl & Ha & Hw & He). exists w. split_and!; [done..| |done].
  destruct (wk_work _ _ (queue_works _ Hq) _ _ Hg) as (Hid & _). unfold lease_of. rewrite Hl, Hw, Ha, Hid. by destruct l.
Qed.

Lemma work_leased s id w :
  queue_ok s → bt_get id (works s) = Some w → w_state w = Leased →
  ∃ e, w_lease_expires_at_ms w = Some e ∧ leased_as (works s) (lease_of w) e.
Proof.
  intros Hq Hg Hs. destruct (wk_work _ _ (queue_works _ Hq) _ _ Hg) as (<- & Hok & _). unfold work_ok in Hok.
  rewrite decide_True in Hok by done. destruct Hok as ([li Hli] & [wk Hwk] & [e He]). exists e. split; [done|].
  exists w. unfold lease_of. simpl. by rewrite Hli, Hwk.
Qed.

Definition expired_body w (cid : option string) (now : N) : RecordBody T :=
  LeaseExpired (lease_of w) cid (default now (w_lease_expires_at_ms w)) now.

Lemma expire_run s id w cid now :
  queue_ok s → bt_get id (works s) = Some w → is_expired w now = true →
  materialize_lease_expired opts w cid now None s
  = Ret [QRecord (next_record s (expired_body w cid now))] (logged s (expired_body w cid now))
  ∧ legal (records s) (expired_body w cid now).
Proof.
  intros Hq Hg He. destruct (wk_work _ _ (queue_works _ Hq) _ _ Hg) as (Hid & _). subst id. split.
  - unfold materialize_lease_expired. rewrite (bind_step _ _ _ _ _ (eq_refl : gets works s = Ret (works s) s)).
    rewrite Hg. unfold logged, expired_body, apply_body, set_works, upd_at. simpl. by rewrite Hg.
  - unfold is_expired in He. apply andb_true_iff in He as [Hs%bool_decide_eq_true He].
    destruct (work_leased _ _ _ Hq Hg Hs) as (e & Hex & Hl). simpl. rewrite Hex in *. simpl.
    rewrite <- (qo_works _ Hq). split; [done|]. by apply N.leb_le.
Qed.

(** A lease check either rejects, perhaps after expiring the lease, or the lease
    is held. *)
Lemma current_lease_spec l cid now s (k : unit → M (RuntimeState T) (list (QueueEvent T))) bad :
  queue_ok s → (held (works s) l now → op_ok s bad (k tt)) →
  op_ok s bad (or_return (current_lease opts l (Some cid) now) k).
Proof.
  intros Hq Hk. unfold op_ok, or_return, current_lease. apply total_bind. eapply total_step; [done|]. cbv beta.
  destruct (bt_get (lr_work_id l) (works s)) as [w|] eqn:Hg; [|by apply step_none].
  destruct (is_terminal (w_state w)); [by apply step_none|].
  case_bool_decide as Hs; simpl; [|by apply step_none].
  case_bool_decide as Hlid; simpl; [|by apply step_none].
  destruct (N.eqb_spec (w_attempt w) (lr_attempt l)) as [Ha|]; simpl; [|by apply step_none].
  case_bool_decide as Hwk; simpl; [|by apply step_none].
  destruct (work_leased _ _ _ Hq Hg Hs) as (e & He & _).
  destruct (is_expired w now) eqn:Hx.
  - destruct (expire_run s _ w (Some cid) now Hq Hg Hx) as [Hrun Hlegal]. eapply total_step; [exact Hrun|].
    exists [next_record s (expired_body w (Some cid) now)]. split_and!; [by apply grows_logged|by left|].
    intros id. rewrite claims_none by done. lia.
  - apply Hk. exists e. split; [by exists w|]. unfold is_expired in Hx. rewrite bool_decide_true, He in Hx by done.
    simpl in Hx. by apply N.leb_gt.
Qed.

(** *** The commands that show a lease *)

Lemma held_work s l now : queue_ok s → held (works s) l now →
  ∃ w e, bt_get (lr_work_id l) (works s) = Some w ∧ w_lease_expires_at_ms w = Some e ∧ now < e
         ∧ w_attempt w = lr_attempt l ∧ leased_as (works s) l e.
Proof.
  intros Hq (e & Hl & He). pose proof Hl as (w & Hg & _ & _ & Ha & _ & Hx). by exists w, e.
Qed.

Lemma held_log s l now : queue_ok s → held (works s) l now → held (replay (records s)) l now.
Proof. intros Hq. by rewrite (qo_works _ Hq). Qed.

Ltac the_works := eapply total_step; [first [apply append_run|done]|]; cbv beta.

Ltac logs b := refine (step_one _ False b _ _ _ _ _ I I); [done|].

Lemma renew_ok m l d e now s : queue_ok s → op_ok s False (renew_lease opts m l d e now).
Proof.
  intros Hq. apply current_lease_spec; [done|]. intros Hh. unfold op_ok.
  destruct (held_work _ _ _ Hq Hh) as (w & x & Hg & Hx & Hlt & _ & Hl). the_works. rewrite Hg. the_works. rewrite Hx. the_works.
  assert (∀ next, total (upd_work (lr_work_id l) (set_expiry next) ;;;
    let! record := append_record opts (LeaseRenewed l (cm_command_id m) x next now) in
    ret (accepted opts record (Some (lr_work_id l)) (Some (cm_command_id m)) now)) s (step_ok s False)) as Hdone.
  { intros next. eapply total_step; [by eapply upd_work_run|]. the_works.
    logs (LeaseRenewed (T := T) l (cm_command_id m) x next now). simpl. by rewrite <- (qo_works _ Hq). }
  destruct e as [e|]; [apply Hdone|]. unfold checked_timestamp.
  destruct (_ <=? _); [apply Hdone|by apply step_none].
Qed.

Lemma release_ok m l reason now s : queue_ok s → op_ok s False (release_work opts m l reason now).
Proof.
  intros Hq. apply current_lease_spec; [done|]. intros Hh. destruct (held_work _ _ _ Hq Hh) as (w & x & Hg & _).
  eapply total_step; [by eapply upd_work_run|]. eapply total_step; [eapply upd_work_run|].
  { simpl. rewrite get_upd_at, decide_True, Hg by done. done. }
  the_works.
  assert (set_works (upd_at (lr_work_id l) (set_state Ready)) (set_works (upd_at (lr_work_id l) clear_lease) s)
          = set_works (λ ws, apply_body ws (WorkReleased (T := T) l (cm_command_id m) now reason)) s) as ->.
  { unfold set_works. f_equal. simpl. unfold upd_at at 2 3. rewrite Hg. unfold upd_at. by rewrite bt_get_insert, bt_insert_insert. }
  logs (WorkReleased (T := T) l (cm_command_id m) now reason). by apply held_log.
Qed.

Lemma complete_ok m l res now s : queue_ok s → op_ok s False (complete_work opts m l res now).
Proof.
  intros Hq. apply current_lease_spec; [done|]. intros Hh. destruct (held_work _ _ _ Hq Hh) as (w & x & Hg & _).
  eapply total_step; [by eapply upd_work_run|]. the_works. the_works.
  set (b1 := AttemptCompleted (T := T) l (cm_command_id m) res now). set (b2 := WorkCompleted (T := T) l (cm_command_id m) res now).
  assert (grows s (logged s b1) [next_record s b1]) as H1 by (apply grows_logged; try done; by apply held_log).
  assert (grows (logged s b1) (logged (logged s b1) b2) [next_record (logged s b1) b2]) as H2.
  { apply grows_logged; try done; [apply H1|]. simpl. split.
    - rewrite replay_snoc. simpl. by apply held_log.
    - exists (next_record s b1). by rewrite last_snoc. }
  exists ([next_record s b1] ++ [next_record (logged s b1) b2]). split_and!; [by eapply grows_trans|by left|].
  intros id. cbn. lia.
Qed.

Lemma next_delay_le p a : should_retry p a = true → a + 1 ≤ u32_max → next_delay_ms p (sat32 (a + 1)) = Some (delay_ms (backoff p) (a + 1)).
Proof.
  unfold should_retry, next_delay_ms, sat32. intros Hr%N.ltb_lt Ha. rewrite N.min_l by lia.
  rewrite (proj2 (N.eqb_neq _ _)), (proj2 (N.ltb_ge _ _)) by lia. done.
Qed.

Lemma fail_ok m l err retryable now s : queue_ok s → op_ok s False (fail_work opts m l err retryable now).
Proof.
  intros Hq. apply current_lease_spec; [done|]. intros Hh.
  destruct (held_work _ _ _ Hq Hh) as (w & x & Hg & _ & _ & Ha & _). unfold op_ok. the_works. rewrite Hg. the_works.
  cbv zeta. set (cid := cm_command_id m). set (id := lr_work_id l).
  set (b1 := AttemptFailed (T := T) l cid err retryable now).
  assert (grows s (logged s b1) [next_record s b1]) as H1 by (apply grows_logged; try done; by apply held_log).
  assert (held (replay (records s ++ [next_record s b1])) l now) as Hh1 by (rewrite replay_snoc; by apply held_log).
  assert (∀ b2 s2 ev, s2 = logged (logged s b1) b2 ∨ s2 = logged_dead (logged s b1) b2 → queue_ok s2 → unclaimed b2 →
    omap is_record ev = [next_record s b1; next_record (logged s b1) b2] → step_ok s False ev s2) as Hdone.
  { intros b2 s2 ev Hs2 Hq2 Hb2 Hev. exists ([next_record s b1] ++ [next_record (logged s b1) b2]). split_and!.
    - split; [done|]. by destruct Hs2 as [->| ->]; simpl; rewrite <- (assoc_L (++)).
    - by left.
    - intros id'. rewrite claims_app, !claims_none by done. lia. }
  destruct (default true retryable && should_retry (o_retry opts) (w_attempt w)) eqn:Hr.
  - apply andb_true_iff in Hr as [Hr1 Hr2]. unfold checked_timestamp. set (delay := default 0 _).
    clearbody delay. destruct (_ <=? _); [|by apply step_none].
    the_works. eapply total_step; [by apply (upd_work_run _ _ _ w)|]. the_works.
    set (b2 := RetryScheduled (T := T) id cid (now + delay) delay (Some "retry-policy"%string) now).
    refine (Hdone b2 _ _ _ _ _ _); [by left| |done|done]. apply (logged_ok (logged s b1) b2); [apply H1| |done|done]. exists l, err, retryable, (next_record s b1). split_and!; try done.
    + apply last_snoc.
    + by destruct retryable as [[]|].
    + apply N.ltb_lt in Hr2. by rewrite <- Ha.
  - the_works. eapply total_step; [by apply (upd_work_run _ _ _ w)|]. the_works. the_works.
    refine (Hdone (WorkDeadLettered id cid "attempts-exhausted" (Some (lr_attempt l)) now) _ _ _ _ _ _); [by right| |done|done].
    apply (logged_dead_ok (logged s b1)); [apply H1|].
    exists l, err, retryable, (next_record s b1). split_and!; try done; [apply last_snoc|].
    apply andb_false_iff in Hr as [Hr|Hr]; [left; by destruct retryable as [[]|]|right].
    apply N.ltb_ge in Hr. by rewrite <- Ha.
Qed.

(** *** Cancel, schedule, admission *)

Lemma open_work_spec id cid now k s :
  queue_ok s →
  (∀ w, bt_get id (works s) = Some w → is_terminal (w_state w) = false → op_ok s False (k w)) →
  op_ok s False (with_open_work opts id cid now k).
Proof.
  intros Hq Hk. unfold op_ok, with_open_work. the_works.
  destruct (bt_get id (works s)) as [w|] eqn:Hg; [|by apply step_none].
  destruct (is_terminal (w_state w)) eqn:Ht; [by apply step_none|]. by apply Hk.
Qed.

Lemma insert_upd id f w s : bt_get id (works s) = Some w →
  set_works (bt_insert id (f w)) s = set_works (upd_at id f) s.
Proof. intros Hg. unfold set_works, upd_at. by rewrite Hg. Qed.

Lemma cancel_ok m id reason now s : queue_ok s → op_ok s False (cancel_work opts m id reason now).
Proof.
  intros Hq. apply open_work_spec; [done|]. intros w Hg Ht. eapply total_step; [done|]. the_works.
  rewrite (insert_upd id (λ w, clear_lease (set_state Canceled w)) w) by done.
  logs (WorkCanceled (T := T) id (cm_command_id m) reason now (w_lease_id w) (if 0 <? w_attempt w then Some (w_attempt w) else None)).
  simpl. exists w. by rewrite <- (qo_works _ Hq).
Qed.

Lemma schedule_ok m id sid nb dl reason now s : queue_ok s → op_ok s False (schedule_work opts m id sid nb dl reason now).
Proof.
  intros Hq. apply open_work_spec; [done|]. intros w Hg Ht. unfold op_ok. destruct (decide _); [by apply step_none|].
  eapply total_step; [done|]. the_works. rewrite (insert_upd id (λ w, set_window nb dl (set_state Scheduled w)) w) by done.
  logs (WorkScheduled (T := T) id (cm_command_id m) sid nb dl reason now). simpl. exists w. by rewrite <- (qo_works _ Hq).
Qed.


Lemma admit_ok message now s : queue_ok s → op_ok s False (admit_message opts message now).
Proof.
  intros Hq. unfold op_ok, admit_message. the_works. case_bool_decide; [by apply step_none|].
  eapply total_step; [done|]. cbv zeta. unfold id. set (s1 := set_source_seqs _ s).
  assert (queue_ok s1) as Hq1 by (by destruct Hq). assert (records s1 = records s) as Hr by done.
  assert (∀ b ev, legal (records s) b → undead b → unclaimed b → omap is_record ev = [next_record s1 b] →
    step_ok s False ev (logged s1 b)) as Hdone.
  { intros b ev Hb Hd Hn He. exists [next_record s1 b]. rewrite <- Hr in Hb. split_and!; [|by left|].
    - destruct (grows_logged s1 b) as [Hq2 Hg]; try done.
    - intros id. rewrite claims_none by done. lia. }
  change (works s) with (works s1). destruct (bt_get (admitted_id opts message) (works s1)) as [w|] eqn:Hg.
  - the_works. refine (Hdone (AdmissionDeduped _ _ _ _ _) _ _ I I _); [|done]. simpl. rewrite <- (qo_works _ Hq).
    change (works s) with (works s1). by rewrite Hg.
  - eapply total_step; [done|]. the_works.
    set (sb := Bus.me_payload message). set (mb := mkBusRef _ _ _). set (id := admitted_id opts message).
    refine (Hdone (WorkAdmitted id (sb_payload sb) mb (sb_priority sb) (sb_tags sb) (sb_requirements sb)
      (sb_not_before_ms sb) (sb_deadline_ms sb) now) _ _ I I _); [|done].
    simpl. by rewrite <- (qo_works _ Hq).
Qed.

(** *** Expiry *)

(** What a loop over works adds: records that claim nothing, all in the events. *)
Definition quiet_step s (ev : list (QueueEvent T)) s' : Prop :=
  grows s s' (omap is_record ev) ∧ ∀ id, claims id (omap is_record ev) = 0%nat.

Lemma quiet_step_ok s bad ev s' : quiet_step s ev s' → step_ok s bad ev s'.
Proof. intros [Hg Hc]. exists (omap is_record ev). split_and!; [done|by left|]. intros id. rewrite Hc. lia. Qed.

Lemma quiet_more s bad ev ev' s' : quiet_step s ev s' → omap is_record ev' = [] → step_ok s bad (ev ++ ev') s'.
Proof.
  intros Hq He. apply quiet_step_ok. unfold quiet_step in *. by rewrite omap_app, He, app_nil_r.
Qed.

Definition freed w : WorkState T := clear_lease (set_state Ready w).

(** The works of [ids] are ready again, the others as they were. *)
Definition frees (ids : list string) s s' : Prop :=
  ∀ id, bt_get id (works s') = if decide (id ∈ ids) then freed <$> bt_get id (works s) else bt_get id (works s).

Lemma expire_each_ok ids cid now s :
  queue_ok s → NoDup ids → (∀ id, id ∈ ids → ∃ w, bt_get id (works s) = Some w ∧ is_expired w now = true) →
  total (expire_each opts ids cid now) s (λ ev s', quiet_step s ev s' ∧ frees ids s s').
Proof.
  intros Hq Hnd Hids. unfold expire_each. set (step := λ events id, _).
  cut (∀ acc s1, quiet_step s acc s1 →
    (∀ id, id ∈ ids → ∃ w, bt_get id (works s1) = Some w ∧ is_expired w now = true) →
    total (fold_each ids step acc) s1 (λ ev s', quiet_step s ev s' ∧ frees ids s1 s')).
  { intros Hc. apply Hc; [|done]. split; [by apply grows_refl|done]. }
  clear Hids. induction Hnd as [|id ids Hni _ IH]; intros acc s1 Ha Hids.
  { split; [done|]. intros id. by rewrite decide_False by apply not_elem_of_nil. }
  cbn [fold_each].
  destruct (Hids id ltac:(by left)) as (w & Hg & Hx). destruct Ha as [[Hq1 Hr1] Hc1].
  destruct (expire_run s1 _ w (Some cid) now Hq1 Hg Hx) as [Hrun Hlegal].
  apply total_bind. unfold step at 1. the_works. rewrite Hg. eapply total_step; [exact Hrun|]. apply total_ret.
  set (b := expired_body w (Some cid) now) in *.
  destruct (wk_work _ _ (queue_works _ Hq1) _ _ Hg) as (Hwid & _).
  assert (∀ id', bt_get id' (works (logged s1 b)) = if decide (id' = id) then freed <$> bt_get id' (works s1) else bt_get id' (works s1)) as Hget.
  { intros id'. simpl. unfold lease_of. simpl. rewrite get_upd_at, Hwid. done. }
  eapply total_conseq; [apply IH|].
  - split.
    + rewrite omap_app. simpl. eapply grows_trans; [by split|]. by apply grows_logged.
    + intros id'. rewrite omap_app, claims_app, Hc1. simpl. by apply claims_none.
  - intros id' Hid'. destruct (Hids id' ltac:(by right)) as (w' & Hg' & Hx'). exists w'. split; [|done].
    rewrite Hget, decide_False; [done|]. by intros ->.
  - intros ev s' [Hqs Hf]. split; [done|]. intros id'. rewrite Hf, Hget. destruct (decide (id' = id)) as [->|Hne].
    + rewrite decide_False by done. by rewrite decide_True by (by left).
    + destruct (decide (id' ∈ ids)); [rewrite decide_True; [done|by right]|].
      rewrite decide_False; [done|]. by intros [?|?]%elem_of_cons.
Qed.

Lemma bt_values_elem (m : Works) w rs : works_ok rs m → w ∈ bt_values m ↔ bt_get (w_id w) m = Some w.
Proof.
  intros [Hwf Hw _]. unfold bt_values. rewrite list_elem_of_fmap. split.
  - intros ([id w'] & -> & Hin). simpl. apply bt_elem_get in Hin; [|done]. by destruct (Hw _ _ Hin) as (-> & _).
  - intros Hg%bt_get_elem. by eexists (_, _).
Qed.

Lemma bt_values_ids (m : Works) rs : works_ok rs m → w_id <$> bt_values m = m.*1.
Proof.
  intros [Hwf Hw _]. unfold bt_values. rewrite <- list_fmap_compose. apply list_fmap_ext. intros i [id w] Hi.
  apply list_elem_of_lookup_2, bt_elem_get in Hi; [|done]. simpl. by destruct (Hw _ _ Hi) as (-> & _).
Qed.

Lemma nodup_filter_ids (p : WorkState T → bool) (l : list (WorkState T)) : NoDup (w_id <$> l) → NoDup (w_id <$> List.filter p l).
Proof.
  induction l as [|w l IH]; [done|]. rewrite fmap_cons, NoDup_cons. intros [Hni Hnd]. simpl. destruct (p w); [|by apply IH].
  rewrite fmap_cons. apply NoDup_cons. split; [|by apply IH]. intros (w' & He & Hin)%list_elem_of_fmap. apply Hni.
  apply list_elem_of_fmap. exists w'. split; [done|]. apply list_elem_of_In in Hin. apply filter_In in Hin as [Hin _].
  by apply list_elem_of_In.
Qed.

Lemma filtered_ids (p : WorkState T → bool) s id :
  queue_ok s → id ∈ w_id <$> List.filter p (bt_values (works s)) → ∃ w, bt_get id (works s) = Some w ∧ p w = true.
Proof.
  intros Hq (w & -> & Hin)%list_elem_of_fmap. apply list_elem_of_In, filter_In in Hin as [Hin Hp].
  exists w. split; [|done]. apply list_elem_of_In in Hin. by apply (bt_values_elem _ _ _ (queue_works _ Hq)).
Qed.

Lemma filtered_nodup (p : WorkState T → bool) s : queue_ok s → NoDup (w_id <$> List.filter p (bt_values (works s))).
Proof.
  intros Hq. apply nodup_filter_ids. rewrite (bt_values_ids _ _ (queue_works _ Hq)). apply bt_wf_nodup.
  apply (wk_wf _ _ (queue_works _ Hq)).
Qed.

Lemma expired_ids_ok s requested now :
  queue_ok s → NoDup (expired_ids (works s) requested now)
  ∧ ∀ id, id ∈ expired_ids (works s) requested now → ∃ w, bt_get id (works s) = Some w ∧ is_expired w now = true.
Proof.
  intros Hq. split; [by apply filtered_nodup|]. intros id Hin. unfold expired_ids in Hin.
  apply filtered_ids in Hin as (w & Hg & Hx); [|done]. exists w. split; [done|]. by apply andb_true_iff in Hx as [_ Hx].
Qed.

Lemma expire_leases_ok m ids limit now s :
  queue_ok s → limit ≠ Some 0%nat → op_ok s False (expire_leases opts m ids limit now).
Proof.
  intros Hq Hlim. unfold op_ok, expire_leases. cbv zeta. rewrite bool_decide_false by done. eapply total_step; [done|].
  the_works. set (all := expired_ids _ _ _).
  destruct (expired_ids_ok s (list_to_set ids) now Hq) as [Hnd Hex]. fold all in Hnd, Hex.
  assert (match limit with Some n => take n all | None => all end `sublist_of` all) as Hsub
    by (destruct limit; [apply sublist_take|done]).
  set (expired := match limit with Some _ => _ | None => _ end) in *. clearbody expired.
  case_bool_decide; [by apply step_none|]. eapply total_bind, total_conseq.
  - apply expire_each_ok; [done|by eapply sublist_NoDup|]. intros id Hid. apply Hex. by eapply sublist_subseteq.
  - intros ev s' [Hs' _]. apply total_ret. by apply quiet_more.
Qed.

(** *** Claims *)

Definition claim_body id cid worker now expires (attempt n : N) : RecordBody T :=
  WorkClaimed (mkLeaseRef id (lease_name id n) attempt worker) cid now expires.

(** The state a claim logs into: one more lease name is used. *)
Definition next_lease s : RuntimeState T := set_lease_seq (λ n, n + 1) s.

Lemma claim_one_run s cid worker now expires id w :
  queue_ok s → bt_get id (works s) = Some w → is_ready w now = true → w_attempt w + 1 ≤ u32_max →
  let b := claim_body id cid worker now expires (w_attempt w + 1) (q_lease_seq s + 1) in
  claim_one opts cid worker now expires id s
  = Ret (accepted opts (next_record (next_lease s) b) (Some id) (Some cid) now) (logged (next_lease s) b)
  ∧ queue_ok (logged (next_lease s) b).
Proof.
  intros Hq Hg Hr Ha b. destruct (wk_work _ _ (queue_works _ Hq) _ _ Hg) as (Hid & _). split.
  - unfold claim_one, next_attempt. rewrite (bind_step _ _ _ tt (next_lease s)) by done.
    rewrite (bind_step _ _ _ (q_lease_seq s + 1) (next_lease s)) by done.
    rewrite (bind_step _ _ _ (works s) (next_lease s)) by done. rewrite Hg.
    rewrite (bind_step _ _ _ w (next_lease s)) by done.
    rewrite (bind_step _ _ _ tt (set_works (bt_insert id (set_state Leased w)) (next_lease s))) by done.
    rewrite (proj2 (N.leb_le _ _)) by done.
    rewrite (bind_step _ _ _ (w_attempt w + 1) (set_works (bt_insert id (set_state Leased w)) (next_lease s))) by done.
    rewrite Hid. set (s1 := set_works (λ m, apply_body m b) (next_lease s)).
    rewrite (bind_step _ _ _ tt s1); [done|]. unfold modify, s1, set_works. simpl. unfold upd_at. rewrite Hg.
    by rewrite bt_insert_insert.
  - assert (queue_ok (next_lease s)) as Hq1 by (apply (lease_seq_ok s (q_lease_seq s + 1)); [done|lia]).
    apply logged_ok; [done| |done|].
    + split.
      * exists w. simpl. rewrite <- (qo_works _ Hq). done.
      * intros r l' Hin Hc He. destruct (log_names _ _ _ _ (qo_log _ Hq) Hin Hc) as (k & Hk & Hn). simpl in He.
        rewrite Hn in He. apply lease_name_inj in He as [_ ->]. lia.
    + by intros l cid' now' e [= <- _ _ _].
Qed.

(** The claims made so far: all in the events, none of a work still to come. *)
Definition claim_step s (todo : list string) (ev : list (QueueEvent T)) s' : Prop :=
  grows s s' (omap is_record ev)
  ∧ ∀ id, (claims id (omap is_record ev) ≤ 1)%nat ∧ (id ∈ todo → claims id (omap is_record ev) = 0%nat).

(** The works some events claim. *)
Definition claimed (ev : list (QueueEvent T)) : list string :=
  omap (λ e, r ← is_record e; lr_work_id <$> claim_of r) ev.

Lemma claim_each_ok ids cid worker now expires s ev0 s0 :
  claim_step s ids ev0 s0 → NoDup ids →
  (∀ id, id ∈ ids → ∃ w, bt_get id (works s0) = Some w ∧ is_ready w now = true ∧ w_attempt w + 1 ≤ u32_max) →
  total (fold_each ids (λ events id, let! e := claim_one opts cid worker now expires id in ret (events ++ e)) ev0) s0
    (λ ev s', claim_step s [] ev s' ∧ claimed ev = claimed ev0 ++ ids).
Proof.
  intros Hs Hnd. revert ev0 s0 Hs. induction Hnd as [|id ids Hni _ IH]; intros ev0 s0 [Hg0 Hc0] Hids.
  { split; [|by rewrite app_nil_r]. split; [done|]. intros id. split; [apply Hc0|by intros ?%elem_of_nil]. }
  cbn [fold_each]. destruct (Hids id ltac:(by left)) as (w & Hg & Hr & Ha). pose proof Hg0 as [Hq0 Hrec].
  destruct (claim_one_run s0 cid worker now expires id w Hq0 Hg Hr Ha) as [Hrun Hq1].
  set (b := claim_body _ _ _ _ _ _ _) in *. apply total_bind. eapply total_step; [exact Hrun|]. apply total_ret.
  eapply total_conseq; [apply IH|].
  - split.
    + rewrite omap_app. simpl. eapply grows_trans; [exact Hg0|]. by split.
    + intros id'. rewrite omap_app, claims_app. simpl. unfold claims at 2 4. simpl. destruct (Hc0 id') as [H1 H2].
      case_bool_decide as He; simpl; [subst id'|].
      * rewrite H2 by (by left). split; [lia|done].
      * split; [lia|]. intros Hin. rewrite H2 by (by right). done.
  - intros id' Hin. destruct (Hids id' ltac:(by right)) as (w' & Hg' & ?). exists w'. split; [|done].
    simpl. rewrite get_upd_at, decide_False; [done|]. by intros ->.
  - intros ev s' [Hs' He]. split; [done|]. rewrite He. unfold claimed. rewrite omap_app, <- (assoc_L (++)). done.
Qed.

Lemma candidates_perm (m : Works) requested now :
  (claim_candidates m requested now).*2
  ≡ₚ w_id <$> List.filter (λ w, is_ready w now) (List.filter (wanted requested) (bt_values m)).
Proof. unfold claim_candidates. rewrite sort_by_perm, <- list_fmap_compose. done. Qed.

Lemma filter_filter {A} (p q : A → bool) l : List.filter p (List.filter q l) = List.filter (λ x, q x && p x) l.
Proof. induction l as [|x l IH]; [done|]. simpl. destruct (q x); simpl; [destruct (p x)|]; by rewrite IH. Qed.

Lemma candidates_ok s requested now limit :
  queue_ok s → let ids := (take limit (claim_candidates (works s) requested now)).*2 in
  NoDup ids ∧ ∀ id, id ∈ ids → ∃ w, bt_get id (works s) = Some w ∧ is_ready w now = true.
Proof.
  intros Hq ids. pose proof (candidates_perm (works s) requested now) as Hp. rewrite filter_filter in Hp.
  assert (ids `sublist_of` (claim_candidates (works s) requested now).*2) as Hsub.
  { unfold ids. rewrite fmap_take. apply sublist_take. }
  split.
  - eapply sublist_NoDup; [|exact Hsub]. rewrite Hp. by apply filtered_nodup.
  - intros id Hin. eapply sublist_subseteq in Hin; [|exact Hsub]. rewrite Hp in Hin.
    apply filtered_ids in Hin as (w & Hg & Hx); [|done]. exists w. split; [done|]. by apply andb_true_iff in Hx as [_ Hx].
Qed.

Definition duration_of (d : option N) : N := default (o_lease_duration_ms opts) d.

Lemma omap_join_nil {A} (f : A → list (QueueEvent T)) l :
  (∀ x, omap is_record (f x) = []) → omap is_record (mjoin (f <$> l)) = [].
Proof. intros Hf. induction l as [|x l IH]; [done|]. csimpl. by rewrite omap_app, Hf, IH. Qed.

Lemma claim_misses_run cid requested claimed now s :
  ∃ ev, claim_miss_events opts cid requested claimed now s = Ret ev s ∧ omap is_record ev = [].
Proof.
  eexists. split; [done|]. apply omap_join_nil. intros id. unfold claim_miss_event.
  case_bool_decide; [done|]. destruct (bt_get id (works s)) as [w|]; [|done]. by destruct (is_ready w now).
Qed.

Lemma claim_ok m worker ids limit d now s :
  queue_ok s → limit ≠ Some 0%nat → (∀ id, N.of_nat (claims id (records s)) < u32_max) →
  op_ok s (u64_max < now + duration_of d) (claim_work opts m worker ids limit d now).
Proof.
  intros Hq Hlim Hroom. unfold op_ok, claim_work. cbv zeta. set (n := default _ limit).
  assert (Nat.eqb n 0 = false) as ->.
  { apply Nat.eqb_neq. unfold n. destruct limit as [[|k]|]; simpl; [done|lia|lia]. }
  eapply total_step; [done|]. the_works.
  destruct (expired_ids_ok s (list_to_set ids) now Hq) as [Hnd Hex].
  eapply total_bind, total_conseq; [by apply expire_each_ok|]. intros ev s1 [Hs1 _]. the_works.
  pose proof Hs1 as [[Hq1 Hr1] Hc1]. set (requested := list_to_set ids).
  destruct (candidates_ok s1 requested now n Hq1) as [Hcnd Hcand].
  set (cands := (take n (claim_candidates (works s1) requested now)).*2) in *. clearbody cands.
  case_bool_decide as Hempty.
  - case_bool_decide; [by apply total_ret, quiet_more|].
    destruct (claim_misses_run (cm_command_id m) requested ∅ now s1) as (mi & Hrun & Hmi).
    eapply total_step; [exact Hrun|]. by apply total_ret, quiet_more.
  - unfold checked_timestamp. fold (duration_of d). destruct (N.leb_spec (now + duration_of d) u64_max) as [Hle|Hlt].
    + eapply total_bind, total_conseq.
      * apply (claim_each_ok _ _ _ _ _ s ev s1); [|done|].
        { split; [apply Hs1|]. intros id. rewrite Hc1. split; [lia|done]. }
        intros id Hin. destruct (Hcand id Hin) as (w & Hg & Hr). exists w. split_and!; [done..|].
        destruct (wk_work _ _ (queue_works _ Hq1) _ _ Hg) as (_ & _ & ->). rewrite Hr1, claims_app, Hc1, Nat.add_0_r.
        specialize (Hroom id). lia.
      * intros ev2 s2 [[Hg2 Hc2] _].
        assert (∀ ev3, omap is_record ev3 = [] → step_ok s (u64_max < now + duration_of d) (ev2 ++ ev3) s2) as Hend.
        { intros ev3 He3. exists (omap is_record ev2). rewrite omap_app, He3, app_nil_r. split_and!; [done|by left|]. apply Hc2. }
        case_bool_decide; [rewrite <- (app_nil_r ev2); by apply Hend|].
        destruct (claim_misses_run (cm_command_id m) requested (list_to_set cands) now s2) as (mi & Hrun & Hmi).
        eapply total_step; [exact Hrun|]. by apply total_ret, Hend.
    + exists (omap is_record ev). split_and!; [done|by right|]. intros id. rewrite Hc1. lia.
Qed.

(** *** The runtime *)

(** A claim whose lease would end after the last 64-bit time. *)
Definition overflowing (i : QueueInput (T := T)) : Prop :=
  match i with
  | Run (Claim m worker ids limit d t as c) clock => u64_max < default clock t + duration_of d
  | _ => False
  end.

Lemma dispatch_ok c clock s :
  queue_ok s → validate_queue_command opts c = None → (∀ id, N.of_nat (claims id (records s)) < u32_max) →
  op_ok s (overflowing (Run c clock)) (dispatch opts c (default clock (now_ms c))).
Proof.
  intros Hq Hv Hroom. unfold validate_queue_command in Hv.
  destruct (empty (command_id c)); [done|]. destruct (match queue_id c with Some _ => _ | None => _ end); [done|].
  destruct c as [m p|m worker ids limit d t|m l d e t|m l r t|m l r t|m l e r t|m id r t|m id sid nb dl r t|m ids limit t]; simpl.
  - by apply step_none.
  - destruct (empty worker); [done|]. destruct (bool_decide (limit = Some 0%nat)) eqn:Hl; [done|].
    apply bool_decide_eq_false in Hl. by apply claim_ok.
  - by apply renew_ok.
  - by apply release_ok.
  - by apply complete_ok.
  - by apply fail_ok.
  - by apply cancel_ok.
  - by apply schedule_ok.
  - destruct (bool_decide (limit = Some 0%nat)) eqn:Hl; [done|].
    apply bool_decide_eq_false in Hl. by apply expire_leases_ok.
Qed.

Lemma same_log_ok s s1 : queue_ok s → works s1 = works s → records s1 = records s → q_record_seq s1 = q_record_seq s →
  q_lease_seq s1 = q_lease_seq s → dead_letters s1 = dead_letters s → queue_ok s1.
Proof. intros [] Hw Hr Hs Hl Hd. split; by rewrite ?Hw, ?Hr, ?Hs, ?Hl, ?Hd. Qed.

Lemma reduce_ok c clock s :
  queue_ok s → (∀ id, N.of_nat (claims id (records s)) < u32_max) →
  op_ok s (overflowing (Run c clock)) (reduce_queue_command opts c (default clock (now_ms c))).
Proof.
  intros Hq Hroom. unfold reduce_queue_command. destruct (validate_queue_command opts c) as [[code msg]|] eqn:Hv; [by apply step_none|].
  unfold op_ok. the_works. unfold id. case_bool_decide; [by apply step_none|]. destruct (seen_key s c); [by apply step_none|].
  eapply total_step; [done|].
  set (s2 := match idempotency_key c with
             | Some k => set_idempotency_keys (λ ks, {[k]} ∪ ks) (set_command_ids (λ ids, {[command_id c]} ∪ ids) s)
             | None => set_command_ids (λ ids, {[command_id c]} ∪ ids) s end).
  eapply (total_step _ _ _ tt s2); [by unfold s2; destruct (idempotency_key c)|].
  assert (queue_ok s2) as Hq2 by (apply (same_log_ok s); [done|..]; by unfold s2; destruct (idempotency_key c)).
  assert (records s2 = records s) as Hr by (by unfold s2; destruct (idempotency_key c)).
  eapply total_conseq; [apply (dispatch_ok c clock s2); [done..|]; by rewrite Hr|].
  intros ev s' (new & [Hq' Hrec] & He & Hc). exists new. split_and!; [|done..]. split; [done|]. by rewrite Hrec, Hr.
Qed.

Lemma input_ok i s :
  queue_ok s → (∀ id, N.of_nat (claims id (records s)) < u32_max) → op_ok s (overflowing i) (queue_input opts i).
Proof. intros Hq Hroom. destruct i as [m clock|c clock]; [by apply admit_ok|by apply reduce_ok]. Qed.

Lemma default_ok : queue_ok queue_default.
Proof. split; try done. constructor. Qed.

(** A run from the empty queue: it returns, the state is explained by its log,
    and the events carry the log if no claim overflows. *)
Lemma runtime_ok inputs :
  N.of_nat (length inputs) < u32_max →
  total (runtime opts inputs) queue_default (λ ev s,
    queue_ok s ∧ (records s = omap is_record ev ∨ Exists overflowing inputs)
    ∧ ∀ id, (claims id (records s) ≤ length inputs)%nat).
Proof.
  intros Hlen. unfold runtime. set (step := λ events i, _).
  cut (∀ done acc s, inputs = done ++ drop (length done) inputs → queue_ok s →
    (records s = omap is_record acc ∨ Exists overflowing done) → (∀ id, (claims id (records s) ≤ length done)%nat) →
    total (fold_each (drop (length done) inputs) step acc) s (λ ev s,
      queue_ok s ∧ (records s = omap is_record ev ∨ Exists overflowing inputs)
      ∧ ∀ id, (claims id (records s) ≤ length inputs)%nat)).
  { intros Hc. apply (Hc [] [] queue_default); [done|apply default_ok|by left|]. intros id. cbn. lia. }
  intros done. remember (drop (length done) inputs) as todo eqn:Ht. clear Ht. revert done.
  induction todo as [|i todo IH]; intros done acc s He Hq Hr Hc.
  { rewrite app_nil_r in He. subst done. done. }
  cbn [fold_each]. apply total_bind. unfold step at 1. apply total_bind.
  assert (length done < length inputs)%nat as Hlt by (rewrite He, length_app; simpl; lia).
  eapply total_conseq; [apply input_ok; [done|]|].
  { intros id. specialize (Hc id). lia. }
  intros ev s' (new & [Hq' Hrec] & Hev & Hnew). apply total_ret.
  apply (IH (done ++ [i])); [by rewrite <- (assoc_L (++))|done|..].
  - rewrite omap_app, Exists_app, Exists_cons, Exists_nil, Hrec. destruct Hr as [->|]; [|tauto].
    destruct Hev as [->|]; tauto.
  - intros id. rewrite Hrec, claims_app, length_app. specialize (Hc id). specialize (Hnew id). simpl. lia.
Qed.

(** ** What legal logs say *)

(** The records that end the lease of a work. *)
Definition ends (id : string) r : bool :=
  match rc_body r with
  | WorkReleased l _ _ _ | LeaseExpired l _ _ _ | WorkCompleted l _ _ _ => bool_decide (lr_work_id l = id)
  | RetryScheduled id' _ _ _ _ _ | WorkDeadLettered id' _ _ _ _ | WorkCanceled id' _ _ _ _ _ => bool_decide (id' = id)
  | _ => false
  end.

(** The lease a worker showed. *)
Definition shown r : option LeaseRef :=
  match rc_body r with
  | LeaseRenewed l _ _ _ _ | WorkReleased l _ _ _ | LeaseExpired l _ _ _ | AttemptCompleted l _ _ _
  | WorkCompleted l _ _ _ | AttemptFailed l _ _ _ _ => Some l
  | _ => None
  end.

Definition open_claim rs l : Prop :=
  ∃ a r b, rs = a ++ r :: b ∧ claim_of r = Some l ∧ Forall (λ r, ends (lr_work_id l) r = false) b.

Lemma open_more rs l r : open_claim rs l → ends (lr_work_id l) r = false → open_claim (rs ++ [r]) l.
Proof.
  intros (a & r1 & b & -> & Hc & Hb) Hr. exists a, r1, (b ++ [r]). split_and!; [by rewrite <- (assoc_L (++))|done|].
  apply Forall_app. auto.
Qed.

Lemma leased_upd_ne m id f l e : id ≠ lr_work_id l → leased_as (upd_at id f m) l e → leased_as m l e.
Proof. intros Hne (w & Hg & Hw). rewrite get_upd_at, decide_False in Hg by done. by exists w. Qed.

(** A change that takes the work out of its lease. *)
Lemma leased_upd_not m id f l e : (∀ w, w_state (f w) ≠ Leased) → leased_as (upd_at id f m) l e → id ≠ lr_work_id l ∧ leased_as m l e.
Proof.
  intros Hf Hl. assert (id ≠ lr_work_id l) as Hne; [|split; [done|by apply leased_upd_ne in Hl]].
  intros ->. destruct Hl as (w & Hg & Hs & _). rewrite get_upd_at, decide_True in Hg by done.
  apply fmap_Some in Hg as (w0 & _ & ->). by apply Hf in Hs.
Qed.

Lemma leased_open_step rs r l e :
  (∀ e', leased_as (replay rs) l e' → open_claim rs l) → legal rs (rc_body r) →
  leased_as (replay (rs ++ [r])) l e → open_claim (rs ++ [r]) l.
Proof.
  intros IH Hb. rewrite replay_snoc. destruct r as [seq q b]. simpl in *.
  assert (∀ e', leased_as (replay rs) l e' → ends (lr_work_id l) (mkRecord seq q b) = false →
    open_claim (rs ++ [mkRecord seq q b]) l) as Hkeep by (intros e' He' Hr; apply open_more; eauto).
  assert (∀ id f, (∀ w, w_state (f w) ≠ Leased) → (id ≠ lr_work_id l → ends (lr_work_id l) (mkRecord seq q b) = false) →
    leased_as (upd_at id f (replay rs)) l e → open_claim (rs ++ [mkRecord seq q b]) l) as Hout.
  { intros id f Hf Hr Hl. apply leased_upd_not in Hl as [Hne Hl]; [|done]. by eapply Hkeep, Hr. }
  destruct b; simpl in *; intros Hl; try (by eapply Hkeep);
    try (eapply Hout; [|intros Hne; unfold ends; simpl; by rewrite ?bool_decide_false|exact Hl]; intros w; simpl; by try destruct (0 <? delay_ms)).
  - destruct Hl as (w & Hg & Hs & Hw). rewrite bt_lookup_insert in Hg. case_decide.
    + injection Hg as <-. unfold admitted_work in Hs. simpl in Hs. by destruct (match not_before_ms with Some _ => _ | None => _ end).
    + eapply Hkeep; [|done]. exists w. done.
  - destruct (decide (lr_work_id l0 = lr_work_id l)) as [He|Hne].
    + exists rs, (mkRecord seq q (WorkClaimed l0 command_id0 claimed_at_ms lease_expires_at_ms)), [].
      split_and!; [done| |done]. unfold claim_of. simpl. f_equal.
      destruct Hl as (w & Hg & _ & Hli & Ha & Hwk & _). rewrite get_upd_at, decide_True in Hg by done.
      apply fmap_Some in Hg as (w0 & _ & ->). simpl in *. destruct l0, l; simpl in *. congruence.
    + apply leased_upd_ne in Hl; [|done]. by eapply Hkeep.
  - destruct (decide (lr_work_id l0 = lr_work_id l)) as [He|Hne].
    + destruct Hl as (w & Hg & Hs & Hw). rewrite get_upd_at, decide_True in Hg by done.
      apply fmap_Some in Hg as (w0 & Hg & ->). simpl in *. destruct Hb as [(w1 & Hg1 & Hs1 & _ & _ & _ & Hx) _].
      rewrite He in Hg1. simplify_eq. eapply (Hkeep previous_lease_expires_at_ms); [|done]. exists w1. tauto.
    + apply leased_upd_ne in Hl; [|done]. by eapply Hkeep.
Qed.

Lemma leased_open n rs l e : log_ok n rs → leased_as (replay rs) l e → open_claim rs l.
Proof.
  intros Hl. revert e. induction Hl as [n|n rs b Hl IH Hb _|n n' rs _ IH _]; intros e He; [|by eapply leased_open_step|by eapply IH].
  by destruct He as (w & ? & _).
Qed.


Lemma log_prefix n a b : log_ok n (a ++ b) → log_ok n a.
Proof.
  intros Hl. remember (a ++ b) as rs eqn:He. revert a b He. induction Hl as [n|n rs bd Hl IH Hb Hn|n n' rs _ IH Hle]; intros a b He.
  - symmetry in He. apply app_eq_nil in He as [-> _]. constructor.
  - destruct (exists_last_or_nil b) as [->|(b' & x & ->)].
    + rewrite app_nil_r in He. subst a. by constructor.
    + rewrite (assoc_L (++)) in He. apply app_inj_tail in He as [He _]. by eapply IH.
  - eapply log_more; [by eapply IH|done].
Qed.

(** A lease stays with its work until a record ends it; meanwhile nobody else
    can claim the work. *)
Lemma leased_stays rs r l e :
  leased_as (replay rs) l e → legal rs (rc_body r) → ends (lr_work_id l) r = false →
  (∃ e', leased_as (replay (rs ++ [r])) l e') ∧ (∀ l', claim_of r = Some l' → lr_work_id l' ≠ lr_work_id l).
Proof.
  intros Hl Hb Hr. rewrite replay_snoc. destruct r as [seq q b]. unfold claim_of. simpl in *.
  assert (∀ id f, id ≠ lr_work_id l → ∃ e', leased_as (upd_at id f (replay rs)) l e') as Hother.
  { intros id f Hne. exists e. destruct Hl as (w & Hg & Hw). exists w. by rewrite get_upd_at, decide_False. }
  unfold ends in Hr. simpl in Hr. pose proof Hl as (w & Hg & Hs & Hli & Ha & Hwk & Hx).
  destruct b; simpl in *; try (apply bool_decide_eq_false in Hr); try (by split; [eauto|]); try (by split; [by apply Hother|]).
  - split; [|done]. exists e. exists w. rewrite bt_lookup_insert, decide_False; [done|]. intros He. by rewrite He, Hb in Hg.
  - split; [|done]. apply Hother. intros ->. destruct Hb as (w' & Hg' & _ & Hns). by simplify_eq.
  - assert (lr_work_id l0 ≠ lr_work_id l) as Hne.
    { intros He. destruct Hb as [(w' & Hg' & Hrdy & _) _]. rewrite He in Hg'. simplify_eq. unfold is_ready in Hrdy.
      by rewrite Hs in Hrdy. }
    split; [by apply Hother|]. by intros l' [= <-].
  - split; [|done]. destruct (decide (lr_work_id l0 = lr_work_id l)) as [He|Hne]; [|by apply Hother].
    exists lease_expires_at_ms. eexists. rewrite get_upd_at, decide_True, Hg by done. done.
Qed.

Lemma open_leased n a r b l :
  log_ok n (a ++ r :: b) → claim_of r = Some l → Forall (λ r, ends (lr_work_id l) r = false) b →
  (∃ e, leased_as (replay (a ++ r :: b)) l e) ∧ Forall (λ r, ∀ l', claim_of r = Some l' → lr_work_id l' ≠ lr_work_id l) b.
Proof.
  intros Hlog Hc. induction b as [|r' b IH] using rev_ind.
  - intros _. split; [|done]. assert (legal a (rc_body r)) as Hr by (by eapply log_legal).
    rewrite replay_snoc. destruct r as [seq q b0]. unfold claim_of in Hc. simpl in *. destruct b0; try done. injection Hc as ->.
    destruct Hr as [(w & Hg & _) _]. exists lease_expires_at_ms. eexists. simpl. rewrite get_upd_at, decide_True, Hg by done. done.
  - intros [Hb [Hr' _]%Forall_cons]%Forall_app. rewrite app_comm_cons, (assoc_L (++)) in Hlog |- *.
    destruct IH as [[e He] Hall]; [by eapply log_prefix|done|].
    assert (legal (a ++ r :: b) (rc_body r')) as Hlegal by (by eapply (log_legal n _ _ _ [])).
    destruct (leased_stays _ _ _ _ He Hlegal Hr') as [He' Hn]. split; [done|]. apply Forall_app. split; [done|].
    by apply Forall_cons.
Qed.

(** A final state. *)
Definition final (id : string) r : bool :=
  match rc_body r with
  | WorkCompleted l _ _ _ => bool_decide (lr_work_id l = id)
  | WorkDeadLettered id' _ _ _ _ | WorkCanceled id' _ _ _ _ _ => bool_decide (id' = id)
  | _ => false
  end.

Definition terminal_in (m : Works) id : Prop := ∃ w, bt_get id m = Some w ∧ is_terminal (w_state w) = true.

Lemma shown_leased rs r l : legal rs (rc_body r) → shown r = Some l → ∃ e, leased_as (replay rs) l e.
Proof.
  unfold shown. destruct (rc_body r); try done; simpl; intros Hb [= <-];
    try (by destruct Hb as [? _]; eexists); try (by destruct Hb as (e & ? & _); exists e).
  destruct Hb as [(e & ? & _) _]. by exists e.
Qed.

Lemma terminal_not_leased m id l e : terminal_in m id → leased_as m l e → lr_work_id l ≠ id.
Proof. intros (w & Hg & Ht) (w' & Hg' & Hs & _) <-. simplify_eq. by rewrite Hs in Ht. Qed.

Definition is_deduped r : bool := match rc_body r with AdmissionDeduped _ _ _ _ _ => true | _ => false end.

Lemma terminal_stays rs r id :
  terminal_in (replay rs) id → legal rs (rc_body r) →
  terminal_in (replay (rs ++ [r])) id ∧ (record_work_id r = id → is_deduped r = true).
Proof.
  intros Ht Hb. rewrite replay_snoc. unfold record_work_id, is_deduped.
  assert (∀ id' f, id' ≠ id → terminal_in (upd_at id' f (replay rs)) id) as Hother.
  { intros id' f Hne. destruct Ht as (w & Hg & Ht). exists w. by rewrite get_upd_at, decide_False. }
  assert (∀ l, shown r = Some l → lr_work_id l ≠ id) as Hshown.
  { intros l Hl. destruct (shown_leased _ _ _ Hb Hl) as [e He]. by eapply terminal_not_leased. }
  unfold shown in Hshown. pose proof Ht as (w & Hg & Hs).
  destruct (rc_body r); simpl in *;
    try (split; [by first [done|apply Hother, Hshown]|intros He; by destruct (Hshown _ eq_refl He)]).
  - split; [|intros <-; congruence]. exists w. rewrite bt_lookup_insert, decide_False; [done|]. intros ->. congruence.
  - split; [done|]. done.
  - destruct Hb as (w' & Hg' & Hns & _). assert (work_id ≠ id) by (intros ->; congruence). split; [by apply Hother|done].
  - destruct Hb as [(w' & Hg' & Hrdy & _) _]. assert (lr_work_id l ≠ id) as Hne; [|by split; [apply Hother|]].
    intros He. rewrite He in Hg'. assert (w' = w) as -> by congruence. unfold is_ready in Hrdy. by destruct (w_state w).
  - destruct Hb as (l & err & rt & r0 & _ & _ & Hid & (e & He & _) & _). subst work_id.
    pose proof (terminal_not_leased _ _ _ _ Ht He). split; [by apply Hother|done].
  - destruct Hb as (l & err & rt & r0 & _ & _ & Hid & (e & He & _) & _). subst work_id.
    pose proof (terminal_not_leased _ _ _ _ Ht He). split; [by apply Hother|done].
  - destruct Hb as (w' & Hg' & Hns & _). assert (work_id ≠ id) by (intros ->; congruence). split; [by apply Hother|done].
Qed.

Definition retries (id : string) rs : nat :=
  length (List.filter (λ r, match rc_body r with RetryScheduled id' _ _ _ _ _ => bool_decide (id' = id) | _ => false end) rs).

Lemma retries_snoc id rs r : retries id (rs ++ [r]) = (retries id rs + retries id [r])%nat.
Proof. unfold retries. by rewrite List.filter_app, length_app. Qed.

Definition leased_in (m : Works) id : Prop := ∃ w, bt_get id m = Some w ∧ w_state w = Leased.

Lemma leased_in_step rs r id :
  legal rs (rc_body r) → leased_in (replay (rs ++ [r])) id →
  (leased_in (replay rs) id ∧ retries id [r] = 0%nat) ∨ claims id [r] = 1%nat.
Proof.
  intros Hb. rewrite replay_snoc. unfold claims, retries, claim_of. simpl.
  assert (∀ id' f, leased_in (upd_at id' f (replay rs)) id → (∀ w, w_state (f w) ≠ Leased) → leased_in (replay rs) id ∧ id' ≠ id) as Hout.
  { intros id' f (w & Hg & Hs) Hf. rewrite get_upd_at in Hg. case_decide as He; [|split; [by exists w|done]].
    apply fmap_Some in Hg as (w0 & _ & ->). by apply Hf in Hs. }
  destruct (rc_body r); simpl in *; try (by left);
    try (intros Hl; apply Hout in Hl as [Hl Hne]; [left; by rewrite ?bool_decide_false|intros w; simpl; by try destruct (0 <? delay_ms)]).
  - intros (w & Hg & Hs). left. split; [|done]. rewrite bt_lookup_insert in Hg. case_decide; [|by exists w].
    injection Hg as <-. unfold admitted_work in Hs. simpl in Hs. by destruct (match not_before_ms with Some _ => _ | None => _ end).
  - intros (w & Hg & Hs). rewrite get_upd_at in Hg. case_decide as He; [right; by rewrite bool_decide_true|left].
    split; [by exists w|done].
  - intros (w & Hg & Hs). left. split; [|done]. rewrite get_upd_at in Hg. case_decide as He; [|by exists w].
    apply fmap_Some in Hg as (w0 & Hg & ->). by exists w0.
Qed.

Lemma retry_step rs r id :
  legal rs (rc_body r) → (retries id [r] = 0%nat) ∨
  ∃ l, lr_work_id l = id ∧ (∃ e, leased_as (replay rs) l e) ∧ lr_attempt l < max_attempts (o_retry opts) ∧ retries id [r] = 1%nat.
Proof.
  unfold retries. simpl. destruct (rc_body r); try by left. simpl. case_bool_decide as He; [|by left]. subst.
  intros (l & ? & ? & ? & _ & _ & Hid & (e & He & _) & _ & Hlt). right. exists l. eauto.
Qed.

Lemma log_retries n rs id :
  log_ok n rs →
  (leased_in (replay rs) id → (retries id rs < claims id rs)%nat) ∧ (retries id rs ≤ claims id rs)%nat
  ∧ N.of_nat (retries id rs) <= max_attempts (o_retry opts) - 1.
Proof.
  intros Hl. induction Hl as [n|n rs b Hl IH Hb _|n n' rs _ IH _]; [split_and!; [by intros (w & ? & _)|done|cbn; lia]| |done].
  destruct IH as (IHl & IHc & IHm). set (r := mkRecord _ _ b). change b with (rc_body r) in Hb.
  rewrite retries_snoc, claims_app. destruct (retry_step rs r id Hb) as [Hr|(lr & Hid & [e He] & Hlt & Hr)].
  - split_and!; [|lia|by rewrite Hr, Nat.add_0_r]. intros Hin. apply leased_in_step in Hin as [[Hin _]|Hc]; [|lia|done].
    specialize (IHl Hin). lia.
  - destruct He as (w & Hg & Hs & _ & Ha & _). rewrite Hid in Hg.
    assert (retries id rs < claims id rs)%nat as Hlt2 by (apply IHl; by exists w).
    destruct (wk_work _ _ (log_works _ _ Hl) _ _ Hg) as (_ & _ & Hatt). split_and!; [|lia|lia].
    intros Hin. apply leased_in_step in Hin as [[_ Hr0]|Hc]; [lia|lia|done].
Qed.

(** ** Properties *)

(** C19: every run of the runtime from the empty queue returns (for fewer than
    2^32 - 1 inputs); the works are the replay of the records, each record is
    numbered and legal after the ones before it, the dead letters are the
    dead-letter records, and the events carry exactly the records unless a claim
    overflows the clock. *)
Theorem queue_state_is_its_log inputs :
  N.of_nat (length inputs) < u32_max →
  ∃ ev s, runtime opts inputs queue_default = Ret ev s
    ∧ works s = replay (records s)
    ∧ (∀ before r later, records s = before ++ r :: later →
         record_seq r = N.of_nat (length before) + 1 ∧ legal before (rc_body r))
    ∧ dead_letters s = List.filter is_dead (records s)
    ∧ (¬ Exists overflowing inputs → omap is_record ev = records s).
Proof.
  intros Hlen. pose proof (runtime_ok inputs Hlen) as Ht. unfold total in Ht.
  destruct (runtime opts inputs queue_default) as [ev s| |]; try done. destruct Ht as (Hq & Hev & _).
  exists ev, s. split_and!; [done|apply Hq|..|apply Hq|].
  - intros before r later He. split; [|eapply log_legal; [apply Hq|done]].
    eapply log_numbered; [apply Hq|]. by rewrite He, list_lookup_middle.
  - intros Hno. destruct Hev as [->|]; done.
Qed.

(** A reachable log. *)
Definition queue_log rs : Prop :=
  ∃ inputs ev s, N.of_nat (length inputs) < u32_max ∧ runtime opts inputs queue_default = Ret ev s ∧ records s = rs.

Lemma queue_log_ok rs : queue_log rs → ∃ n, log_ok n rs.
Proof.
  intros (inputs & ev & s & Hlen & Hrun & <-). pose proof (runtime_ok inputs Hlen) as Ht. unfold total in Ht.
  rewrite Hrun in Ht. destruct Ht as [[Hl _ _ _] _]. eauto.
Qed.

(** C20: leases exclude and fence.  Between a claim of a work and anyone's next
    claim of it a record ends the lease; a renewal, release, completion, failure
    or expiry shows exactly the work, lease, attempt and worker of the latest
    claim, which nothing has ended since; and no two claims share a lease name. *)
Theorem leases_exclude_and_fence rs :
  queue_log rs →
  (∀ a r1 b r2 c l1 l2, rs = a ++ r1 :: b ++ r2 :: c → claim_of r1 = Some l1 → claim_of r2 = Some l2 →
     lr_work_id l2 = lr_work_id l1 → Exists (λ r, ends (lr_work_id l1) r = true) b ∧ lr_lease_id l1 ≠ lr_lease_id l2)
  ∧ (∀ before r later l, rs = before ++ r :: later → shown r = Some l → open_claim before l).
Proof.
  intros [n Hlog]%queue_log_ok. split.
  - intros a r1 b r2 c l1 l2 He H1 H2 Hid. split.
    + destruct (decide (Exists (λ r, ends (lr_work_id l1) r = true) b)) as [|Hne]; [done|].
      assert (Forall (λ r, ends (lr_work_id l1) r = false) (b ++ [r2])) as Hall.
      { apply Forall_app. split.
        - apply Forall_forall. intros r Hr. destruct (ends _ r) eqn:E; [|done]. destruct Hne. apply Exists_exists. eauto.
        - apply Forall_cons. split; [|done]. unfold claim_of in H2. unfold ends. by destruct (rc_body r2). }
      rewrite He in Hlog. replace (a ++ r1 :: b ++ r2 :: c) with ((a ++ r1 :: (b ++ [r2])) ++ c) in Hlog
        by (rewrite <- (assoc_L (++)); simpl; by rewrite <- (assoc_L (++))).
      apply log_prefix in Hlog. destruct (open_leased _ _ _ _ _ Hlog H1 Hall) as [_ Hc].
      apply Forall_app in Hc as [_ [Hc _]%Forall_cons]. by apply Hc in H2.
    + assert (legal (a ++ r1 :: b) (rc_body r2)) as Hb.
      { eapply (log_legal n _ _ _ c); [exact Hlog|]. by rewrite He, <- (assoc_L (++)). }
      unfold claim_of in H2. destruct (rc_body r2) eqn:Hr2; try done. injection H2 as ->.
      destruct Hb as [_ Hb]. apply (Hb r1); [|done]. apply elem_of_app. right. by left.
  - intros before r later l He Hs. assert (legal before (rc_body r)) as Hb by (by eapply log_legal).
    destruct (shown_leased _ _ _ Hb Hs) as [e Hl]. eapply leased_open; [|exact Hl]. eapply log_prefix. by rewrite <- He.
Qed.

(** C36: a completed, cancelled or dead-lettered work stays so: whatever comes
    after is at most a duplicate admission. *)
Theorem final_work_stays_final rs id before r later :
  queue_log rs → rs = before ++ r :: later → final id r = true →
  terminal_in (replay rs) id ∧ Forall (λ r', record_work_id r' = id → is_deduped r' = true) later.
Proof.
  intros [n Hlog]%queue_log_ok -> Hf.
  assert (terminal_in (replay (before ++ [r])) id) as Hfirst.
  { assert (legal before (rc_body r)) as Hb by (by eapply log_legal). rewrite replay_snoc. unfold final in Hf.
    destruct (rc_body r); try done; apply bool_decide_eq_true in Hf as <-; simpl in *.
    - destruct Hb as [(e & (w & Hg & _) & _) _]. eexists. rewrite get_upd_at, decide_True, Hg by done. done.
    - destruct Hb as (l & ? & ? & ? & _ & _ & <- & (e & (w & Hg & _) & _) & _). eexists.
      rewrite get_upd_at, decide_True, Hg by done. done.
    - destruct Hb as (w & Hg & _). eexists. rewrite get_upd_at, decide_True, Hg by done. done. }
  induction later as [|r' later IH] using rev_ind; [by split|].
  rewrite app_comm_cons, (assoc_L (++)) in Hlog |- *. destruct IH as [Ht Hall]; [by eapply log_prefix|].
  assert (legal (before ++ r :: later) (rc_body r')) as Hb by (by eapply (log_legal n _ _ _ [])).
  destruct (terminal_stays _ _ _ Ht Hb) as [Ht' Hr']. split; [done|]. apply Forall_app. split; [done|]. by apply Forall_cons.
Qed.

(** The retry policy bounds retries: a work is rescheduled after a failure
    at most [max_attempts - 1] times, and its attempt is the number of its
    claims. *)
Theorem retries_bounded rs id :
  queue_log rs →
  N.of_nat (retries id rs) <= max_attempts (o_retry opts) - 1
  ∧ ∀ w, bt_get id (replay rs) = Some w → w_attempt w = N.of_nat (claims id rs).
Proof.
  intros [n Hlog]%queue_log_ok. split; [by apply (log_retries n)|]. intros w Hg.
  by destruct (wk_work _ _ (log_works _ _ Hlog) _ _ Hg) as (_ & _ & ->).
Qed.

(** ** The order of claims *)

(** The time and the id order the works. *)
#[local] Instance candidate_ord : OrdKey (N * string).
Proof.
  refine {| key_cmp := candidate_cmp |}; unfold candidate_cmp.
  - intros [n x] [m y]. cbn [fst snd]. destruct (N.compare_spec n m) as [->|Hlt|Hgt].
    + rewrite key_cmp_eq. split; [by intros ->|by intros [= ->]].
    + split; [done|intros [= -> _]; lia].
    + split; [done|intros [= -> _]; lia].
  - intros [n x] [m y]. cbn [fst snd]. rewrite (N.compare_antisym n m). destruct (N.compare n m); [apply key_cmp_sym|done..].
  - intros [n x] [m y] [k z]. cbn [fst snd]. destruct (N.compare_spec n m), (N.compare_spec m k); try done; intros Hxy Hyz; subst.
    + rewrite N.compare_refl. by eapply key_cmp_trans.
    + by rewrite (proj2 (N.compare_lt_iff _ _)).
    + by rewrite (proj2 (N.compare_lt_iff _ _)).
    + rewrite (proj2 (N.compare_lt_iff _ _)); [done|lia].
Defined.

Section Sorted.
Context {A K : Type} `{!OrdKey K} (f : A → K).
Definition by_key (x y : A) : Prop := key_lt (f x) (f y) = true.

Lemma sort_by_key_sorted (l : list A) :
  NoDup (f <$> l) → StronglySorted by_key (sort_by (λ x y, key_cmp (f x) (f y)) l).
Proof.
  intros Hnd. set (cmp := λ x y : A, key_cmp (f x) (f y)).
  assert (StronglySorted (cmp_le cmp) (sort_by cmp l)) as Hs.
  { apply sort_by_sorted; [intros a b; apply key_cmp_sym|]. unfold cmp_le, cmp. intros a b c Hab Hbc Hac.
    destruct (key_cmp (f a) (f b)) eqn:E1; [|destruct (key_cmp (f b) (f c)) eqn:E2|done]; [| | |done].
    - apply key_cmp_eq in E1. by rewrite E1 in Hac.
    - apply key_cmp_eq in E2. rewrite E2 in E1. congruence.
    - rewrite (key_cmp_trans _ _ _ E1 E2) in Hac. done. }
  assert (NoDup (f <$> sort_by cmp l)) as Hnd' by (by rewrite sort_by_perm).
  induction Hs as [|x s Hs IH Hx]; [constructor|]. rewrite fmap_cons in Hnd'. apply NoDup_cons in Hnd' as [Hni Hnd'].
  constructor; [by apply IH|]. rewrite Forall_forall in *. intros y Hy. unfold by_key, key_lt. specialize (Hx y Hy).
  unfold cmp_le, cmp in Hx. destruct (key_cmp (f x) (f y)) eqn:E; [|done|done]. apply key_cmp_eq in E.
  destruct Hni. rewrite E. by apply list_elem_of_fmap_2.
Qed.

Lemma by_key_unique (l l' : list A) : StronglySorted by_key l → StronglySorted by_key l' → l ≡ₚ l' → l = l'.
Proof.
  apply StronglySorted_unique_strong. intros x y _ _. unfold by_key, key_lt. intros Hxy Hyx.
  destruct (key_cmp (f x) (f y)) eqn:E; try done. rewrite key_cmp_sym, E in Hyx. done.
Qed.
End Sorted.

(** The works a claim chooses from: expired leases among the wanted ones are over. *)
Definition freed_works (requested : gset string) (now : N) (m : Works) : Works :=
  (λ kv, (kv.1, if wanted requested kv.2 && is_expired kv.2 now then freed kv.2 else kv.2)) <$> m.

Lemma frees_works s s' requested now :
  queue_ok s → queue_ok s' → frees (expired_ids (works s) requested now) s s' → works s' = freed_works requested now (works s).
Proof.
  intros Hq Hq' Hf. apply bt_ext.
  - apply (wk_wf _ _ (queue_works _ Hq')).
  - apply (bt_map_wf (λ w, if wanted requested w && is_expired w now then freed w else w)), (wk_wf _ _ (queue_works _ Hq)).
  - intros id. rewrite Hf. unfold freed_works.
    rewrite (bt_get_map (λ w, if wanted requested w && is_expired w now then freed w else w)).
    destruct (bt_get id (works s)) as [w|] eqn:Hg; [|by case_decide]. simpl.
    destruct (wk_work _ _ (queue_works _ Hq) _ _ Hg) as (Hid & _).
    case_decide as Hin.
    + unfold expired_ids in Hin. apply filtered_ids in Hin as (w' & Hg' & Hp); [|done]. simplify_eq. by rewrite Hp.
    + destruct (wanted requested w && is_expired w now) eqn:Hp; [|done]. destruct Hin. unfold expired_ids.
      apply list_elem_of_fmap. exists w. split; [done|]. apply list_elem_of_In, filter_In. split; [|done].
      apply list_elem_of_In. apply (bt_values_elem _ _ _ (queue_works _ Hq)). by rewrite Hid.
Qed.

Lemma claimed_app e1 e2 : claimed (e1 ++ e2) = claimed e1 ++ claimed e2.
Proof. apply omap_app. Qed.

Lemma claimed_none ev : (∀ id, claims id (omap is_record ev) = 0%nat) → claimed ev = [].
Proof.
  induction ev as [|e ev IH]; intros Hc; [done|]. destruct e as [r|st|i]; [|by apply IH..].
  unfold claimed. csimpl. destruct (claim_of r) as [l|] eqn:E.
  - specialize (Hc (lr_work_id l)). unfold claims in Hc. simpl in Hc. rewrite E, bool_decide_true in Hc by done. done.
  - apply IH. intros id. specialize (Hc id). unfold claims in *. simpl in Hc. by rewrite E in Hc.
Qed.

Lemma claimed_no_records ev : omap is_record ev = [] → claimed ev = [].
Proof. intros He. apply claimed_none. by rewrite He. Qed.

Lemma claims_oldest_run m worker ids limit d now s :
  queue_ok s → limit ≠ Some 0%nat → (∀ id, N.of_nat (claims id (records s)) < u32_max) → now + duration_of d ≤ u64_max →
  let n := default (Nat.max (length ids) 1) limit in
  total (claim_work opts m worker ids limit d now) s (λ ev _,
    claimed ev = (take n (claim_candidates (freed_works (list_to_set ids) now (works s)) (list_to_set ids) now)).*2).
Proof.
  intros Hq Hlim Hroom Hd n. unfold claim_work. cbv zeta. fold n.
  assert (Nat.eqb n 0 = false) as ->.
  { apply Nat.eqb_neq. unfold n. destruct limit as [[|k]|]; simpl; [done|lia|lia]. }
  eapply total_step; [done|]. the_works.
  destruct (expired_ids_ok s (list_to_set ids) now Hq) as [Hnd Hex].
  eapply total_bind, total_conseq; [by apply expire_each_ok|]. intros ev s1 [Hs1 Hf]. the_works.
  pose proof Hs1 as [[Hq1 Hr1] Hc1]. set (requested := list_to_set ids) in *.
  rewrite <- (frees_works s s1) by done. destruct (candidates_ok s1 requested now n Hq1) as [Hcnd Hcand].
  set (cands := (take n (claim_candidates (works s1) requested now)).*2) in *. clearbody cands.
  assert (claimed ev = []) as Hev by (by apply claimed_none).
  case_bool_decide as Hempty.
  - subst cands. case_bool_decide.
    + apply total_ret. by rewrite claimed_app, Hev.
    + destruct (claim_misses_run (cm_command_id m) requested ∅ now s1) as (mi & Hrun & Hmi).
      eapply total_step; [exact Hrun|]. apply total_ret. by rewrite claimed_app, Hev, claimed_no_records.
  - unfold checked_timestamp. fold (duration_of d). rewrite (proj2 (N.leb_le _ _)) by done.
    eapply total_bind, total_conseq.
    + apply (claim_each_ok _ _ _ _ _ s ev s1); [|done|].
      { split; [apply Hs1|]. intros id. rewrite Hc1. split; [lia|done]. }
      intros id Hin. destruct (Hcand id Hin) as (w & Hg & Hr). exists w. split_and!; [done..|].
      destruct (wk_work _ _ (queue_works _ Hq1) _ _ Hg) as (_ & _ & ->). rewrite Hr1, claims_app, Hc1, Nat.add_0_r.
      specialize (Hroom id). lia.
    + intros ev2 s2 [_ Hcl]. rewrite Hev in Hcl. case_bool_decide; [by apply total_ret|].
      destruct (claim_misses_run (cm_command_id m) requested (list_to_set cands) now s2) as (mi & Hrun & Hmi).
      eapply total_step; [exact Hrun|]. apply total_ret. by rewrite claimed_app, Hcl, claimed_no_records, app_nil_r.
Qed.

Lemma sorted_impl {A} (R R' : A → A → Prop) l : StronglySorted R l → (∀ x y, R x y → R' x y) → StronglySorted R' l.
Proof. intros Hs HR. induction Hs as [|x l Hs IH Hx]; constructor; [done|]. eapply Forall_impl; eauto. Qed.

(** In any reachable queue a claim takes the works that were admitted first:
    among the wanted works, with their expired leases over, the ready ones in
    admission order (the id breaks ties), up to the limit. *)
Theorem claims_oldest_first inputs ev0 s m worker ids limit d now ev s' :
  N.of_nat (length inputs) < u32_max → runtime opts inputs queue_default = Ret ev0 s →
  limit ≠ Some 0%nat → now + duration_of d ≤ u64_max → claim_work opts m worker ids limit d now s = Ret ev s' →
  let free := freed_works (list_to_set ids) now (works s) in
  ∃ order : list (N * string),
    order ≡ₚ (λ w, (w_admission_seq w, w_id w)) <$>
               List.filter (λ w, is_ready w now) (List.filter (wanted (list_to_set ids)) (bt_values free))
    ∧ StronglySorted (λ x y, candidate_cmp x y = Lt) order
    ∧ claimed ev = (take (default (Nat.max (length ids) 1) limit) order).*2.
Proof.
  intros Hlen Hrun Hlim Hd Hclaim free. pose proof (runtime_ok inputs Hlen) as Ht. unfold total in Ht. rewrite Hrun in Ht.
  destruct Ht as (Hq & _ & Hc). exists (claim_candidates free (list_to_set ids) now). split_and!.
  - apply sort_by_perm.
  - destruct (expired_ids_ok s (list_to_set ids) now Hq) as [Hnd Hex].
    pose proof (expire_each_ok _ (cm_command_id m) now s Hq Hnd Hex) as Hx. unfold total in Hx.
    destruct (expire_each opts _ _ _ s) as [ev1 s1| |]; try done. destruct Hx as [[[Hq1 _] _] Hf].
    unfold free. rewrite <- (frees_works s s1) by done.
    set (l := (λ w, (w_admission_seq w, w_id w)) <$>
      List.filter (λ w, is_ready w now) (List.filter (wanted (list_to_set ids)) (bt_values (works s1)))).
    assert (NoDup ((λ x : N * string, x) <$> l)) as Hl.
    { rewrite list_fmap_id. apply (NoDup_fmap_1 snd). unfold l. rewrite <- list_fmap_compose, filter_filter.
      by apply filtered_nodup. }
    pose proof (sort_by_key_sorted (λ x : N * string, x) l Hl) as Hs. unfold claim_candidates. fold l.
    eapply sorted_impl; [exact Hs|]. intros x y Hxy. unfold by_key, key_lt in Hxy.
    change (key_cmp x y) with (candidate_cmp x y) in Hxy. by destruct (candidate_cmp x y).
  - pose proof (claims_oldest_run m worker ids limit d now s Hq Hlim) as Ho. unfold total in Ho.
    rewrite Hclaim in Ho. apply Ho; [|done]. intros id. specialize (Hc id). lia.
Qed.


(** ** Commands that come again *)

Definition any s : Prop := True.
Definition seen_le s s' : Prop := command_ids s ⊆ command_ids s' ∧ idempotency_keys s ⊆ idempotency_keys s'.

#[local] Instance seen_le_preorder : PreOrder seen_le.
Proof. split; [by intros s; split|]. intros s1 s2 s3 [] []. split; by etrans. Qed.

Ltac seen_auto :=
  repeat first [ok_step | apply ok_modify; intros ? _; split; [done|split; simpl; set_solver]].

Lemma dispatch_seen c now : ok any seen_le (dispatch opts c now).
Proof.
  destruct c; cbn [dispatch];
    unfold claim_work, renew_lease, release_work, complete_work, fail_work, cancel_work, schedule_work, expire_leases,
      or_return, with_open_work, current_lease, expire_each, materialize_lease_expired, claim_one, next_attempt,
      claim_miss_events, upd_work, append_record; cbv zeta; seen_auto.
Qed.

Lemma input_seen i : ok any seen_le (queue_input opts i).
Proof.
  destruct i as [m clock|c clock]; cbn [queue_input].
  - unfold admit_message, append_record. cbv zeta. seen_auto.
  - unfold reduce_queue_command. repeat first [apply dispatch_seen | progress seen_auto].
Qed.

Lemma runtime_seen inputs : ok any seen_le (runtime opts inputs).
Proof. unfold runtime. repeat first [apply input_seen | progress seen_auto]. Qed.

Lemma ret_seen {A} (m : M (RuntimeState T) A) s a s' : ok any seen_le m → m s = Ret a s' → seen_le s s'.
Proof. intros Hm He. specialize (Hm s I). unfold post in Hm. rewrite He in Hm. apply Hm. Qed.

(** The state in which a new command is dispatched. *)
Definition marked (c : WorkQueueCommand T) s : RuntimeState T :=
  match idempotency_key c with
  | Some k => set_idempotency_keys (λ ks, {[k]} ∪ ks) (set_command_ids (λ ids, {[command_id c]} ∪ ids) s)
  | None => set_command_ids (λ ids, {[command_id c]} ∪ ids) s
  end.

Lemma marked_id (c : WorkQueueCommand T) s : command_id c ∈ command_ids (marked c s).
Proof. unfold marked. destruct (idempotency_key c); simpl; set_solver. Qed.

Lemma marked_key (c : WorkQueueCommand T) s k : idempotency_key c = Some k → k ∈ idempotency_keys (marked c s).
Proof. intros Hk. unfold marked. rewrite Hk. simpl. set_solver. Qed.

(** A command is acted on once: after a well-formed command with a new id
    and a new idempotency key has run, and whatever comes next, a command with
    the same id or the same idempotency key is rejected and leaves the state as
    it is. *)
Theorem commands_run_once c now s ev s1 later ev1 s2 c' now' :
  validate_queue_command opts c = None → command_id c ∉ command_ids s → seen_key s c = false →
  reduce_queue_command opts c now s = Ret ev s1 → runtime opts later s1 = Ret ev1 s2 →
  (command_id c' = command_id c ∨ is_Some (idempotency_key c) ∧ idempotency_key c' = idempotency_key c) →
  ∃ ev', reduce_queue_command opts c' now' s2 = Ret ev' s2 ∧ omap is_record ev' = [].
Proof.
  intros Hv Hnew Hkey Hrun Hlater Hsame. pose proof (ret_seen _ _ _ _ (runtime_seen later) Hlater) as Hle.
  unfold reduce_queue_command in Hrun. rewrite Hv in Hrun. unfold bind at 1, gets, id in Hrun.
  rewrite bool_decide_false, Hkey in Hrun by done. unfold bind at 1, modify at 1 in Hrun.
  assert (dispatch opts c now (marked c s) = Ret ev s1) as Hd by (unfold marked; by destruct (idempotency_key c)).
  pose proof (ret_seen _ _ _ _ (dispatch_seen c now) Hd) as Hle0.
  assert (seen_le (marked c s) s2) as [Hids Hkeys] by (by etrans).
  assert (command_id c ∈ command_ids s2) as Hid by (apply Hids, marked_id).
  assert (∀ k, idempotency_key c = Some k → k ∈ idempotency_keys s2) as Hk
    by (intros k Hk; by apply Hkeys, marked_key).
  unfold reduce_queue_command. destruct (validate_queue_command opts c') as [[]|]; [by eexists|].
  unfold bind at 1, gets, id. case_bool_decide as Hc; [by eexists|].
  destruct Hsame as [He|[[k Hsk] He]]; [by rewrite He in Hc|].
  assert (seen_key s2 c' = true) as ->; [|by eexists]. unfold seen_key. rewrite He, Hsk. apply bool_decide_eq_true. auto.
Qed.

(** ** Paging *)

Definition item_key (i : WorkQueueAvailableItem T) : N * string := (ai_admission_seq i, ai_work_id i).

Lemma filter_by_key {A K} `{!OrdKey K} (f : A → K) p (l : list A) : StronglySorted (by_key f) l → StronglySorted (by_key f) (List.filter p l).
Proof.
  induction 1 as [|x l _ IH Hx]; [constructor|]. simpl. destruct (p x); [|done]. constructor; [done|].
  rewrite Forall_forall in *. intros y Hy. apply Hx. apply list_elem_of_In, filter_In in Hy as [Hy _]. by apply list_elem_of_In.
Qed.

Lemma filter_perm {A} (p : A → bool) l l' : l ≡ₚ l' → List.filter p l ≡ₚ List.filter p l'.
Proof.
  induction 1 as [|x l l' _ IH|x y l|l1 l2 l3 _ IH1 _ IH2]; simpl; [done| | |by etrans].
  - destruct (p x); by rewrite IH.
  - destruct (p x), (p y); try done. constructor.
Qed.

(** Sorting what a filter keeps, or filtering what is sorted. *)
Lemma sort_filter {A K} `{!OrdKey K} (f : A → K) p (l : list A) :
  NoDup (f <$> l) →
  sort_by (λ x y, key_cmp (f x) (f y)) (List.filter p l) = List.filter p (sort_by (λ x y, key_cmp (f x) (f y)) l).
Proof.
  intros Hnd. apply (by_key_unique f).
  - apply sort_by_key_sorted. clear -Hnd. induction l as [|x l IH]; [done|]. rewrite fmap_cons in Hnd.
    apply NoDup_cons in Hnd as [Hni Hnd]. simpl. destruct (p x); [|by apply IH]. rewrite fmap_cons. apply NoDup_cons.
    split; [|by apply IH]. intros (y & He & Hy)%list_elem_of_fmap. apply Hni. rewrite He. apply list_elem_of_fmap_2.
    apply list_elem_of_In, filter_In in Hy as [Hy _]. by apply list_elem_of_In.
  - by apply filter_by_key, sort_by_key_sorted.
  - rewrite sort_by_perm. apply filter_perm. by rewrite sort_by_perm.
Qed.

Lemma filter_fmap_item p (l : list (WorkState T)) :
  available_item <$> List.filter (λ w, p (available_item w)) l = List.filter p (available_item <$> l).
Proof. induction l as [|w l IH]; [done|]. csimpl. destruct (p (available_item w)); csimpl; by rewrite IH. Qed.

(** Asking page by page, with any page size, reads every available work of a
    reachable queue once, in admission order. *)
Theorem queue_pages_cover inputs ev s limit now fuel :
  N.of_nat (length inputs) < u32_max → runtime opts inputs queue_default = Ret ev s →
  (length (works s) < fuel)%nat →
  ∃ items, walk fuel (λ after, option_map fst (available_page s (Some (Datatypes.S limit)) (option_map fst after) (option_map snd after) now)) None
             = Some items
    ∧ items ≡ₚ available_item <$> List.filter (λ w, is_ready_for_projection w now) (bt_values (works s))
    ∧ StronglySorted (λ x y, key_lt (item_key x) (item_key y) = true) items.
Proof.
  intros Hlen Hrun Hf. pose proof (runtime_ok inputs Hlen) as Ht. unfold total in Ht. rewrite Hrun in Ht. destruct Ht as (Hq & _).
  set (all := List.filter (λ w, is_ready_for_projection w now) (bt_values (works s))).
  assert (NoDup (item_key <$> (available_item <$> all))) as Hnd.
  { apply (NoDup_fmap_1 snd). rewrite <- !list_fmap_compose. by apply filtered_nodup. }
  set (items := sort_by (λ x y, key_cmp (item_key x) (item_key y)) (available_item <$> all)).
  exists items. split_and!; [|apply sort_by_perm|by apply sort_by_key_sorted].
  apply (walk_covers key_lt item_key) with (limit := limit).
  - intros x y. unfold key_lt. rewrite (key_cmp_sym x y). by destruct (key_cmp x y).
  - intros x. unfold key_lt. by rewrite key_cmp_refl.
  - by apply sort_by_key_sorted.
  - intros after. unfold available_page. cbn [from_option id Nat.eqb option_map fst]. do 2 f_equal.
    change (sort_by item_cmp) with (sort_by (λ x y, key_cmp (item_key x) (item_key y))). unfold items.
    rewrite <- sort_filter by done. f_equal. fold all. rewrite <- filter_fmap_item. f_equal.
    apply List.filter_ext. intros w. destruct after as [[n i]|]; [|done]. done.
  - unfold items. rewrite (Permutation_length (sort_by_perm _ _)), length_fmap. eapply Nat.le_lt_trans; [apply List.filter_length_le|].
    unfold bt_values. by rewrite length_fmap.
Qed.
End Facts.
