(* ===== verification/WorkQueueScenarios.v ===== *)
(** * The work queue: concrete runs

    The witnesses of the properties of [WorkQueueFacts], and a run whose events
    miss a record of its log. *)

From Stdlib Require Import Ascii String Sorted.
From stdpp Require Import base option strings numbers gmap list.
From S2P Require Import Prelude BTree Text Json Storage Pages MessageBus Resilience DurabilityExample WorkQueue WorkQueueFacts.
Import Queue.

Local Open Scope rx_scope.
Local Open Scope N_scope.

#[local] Existing Instance escaped_tuples.

#[local] Instance sorted_hash : HashOrder.
Proof. by refine {| hash_iter := elements |}. Defined.

(** Leases of 10 ms, two attempts, 5 ms between them. *)
Definition queue_options : RuntimeOptions := mkOptions "q" "worker" 10 (mkRetryPolicy 2 (Constant 5)).

Definition message (seq : N) (id : string) : Bus.MessageEnvelope (WorkQueueSubmit nat) :=
  Bus.mkEnvelope "work" seq (mkSubmit (N.to_nat seq) (Some id) None [] [] None None) None 0 None None.

Definition with_id (id : string) : CommandMeta := mkMeta id None None.
Definition claim_by (id worker : string) (limit : option nat) (duration : option N) (at_ms : N) : QueueInput (T := nat) :=
  Run (Claim (with_id id) worker [] limit duration (Some at_ms)) 0.

Definition lease_a1 : LeaseRef := mkLeaseRef "a" (lease_name "a" 1) 1 "w1".
Definition lease_a2 : LeaseRef := mkLeaseRef "a" (lease_name "a" 2) 2 "w2".

(** Two works; [a] fails once, is claimed again by another worker, and done. *)
Definition story : list (QueueInput (T := nat)) :=
  [ Admit (message 1 "a") 0; Admit (message 2 "b") 0;
    claim_by "c1" "w1" (Some 1%nat) None 0;
    Run (Fail (with_id "c2") lease_a1 None None (Some 3)) 0;
    claim_by "c3" "w2" (Some 1%nat) None 9;
    claim_by "c4" "w2" (Some 1%nat) None 9;
    Run (Complete (with_id "c5") lease_a1 None (Some 10)) 0;
    Run (Release (with_id "c6") lease_a2 None (Some 12)) 0;
    Run (Cancel (with_id "c7") "a" None (Some 13)) 0;
    Admit (message 3 "a") 14 ].

Definition after_story : list (QueueEvent nat) * RuntimeState nat :=
  match runtime queue_options story queue_default with Ret ev s => (ev, s) | _ => ([], queue_default) end.

Definition story_log : list (WorkQueueRecord nat) := records after_story.2.

Lemma story_runs : runtime queue_options story queue_default = Ret after_story.1 after_story.2.
Proof. vm_compute. reflexivity. Qed.

Lemma story_reachable : queue_log queue_options story_log.
Proof. exists story, after_story.1, after_story.2. split; [reflexivity|]. split; [apply story_runs|reflexivity]. Qed.

Example story_ends : (λ w, (w_id w, w_state w, w_attempt w)) <$> bt_values (works after_story.2)
  = [("a"%string, Canceled, 2); ("b"%string, Leased, 1)].
Proof. vm_compute. reflexivity. Qed.

Lemma queue_state_is_its_log_witness :
  works after_story.2 = replay story_log ∧ omap is_record after_story.1 = story_log.
Proof.
  destruct (queue_state_is_its_log queue_options story) as (ev & s & Hrun & Hw & _ & _ & He); [reflexivity|].
  revert Hrun Hw He. rewrite story_runs. unfold story_log. generalize after_story. intros [ev0 s0] [= <- <-] Hw He.
  split; [exact Hw|]. apply He.
  intros Hx%Exists_exists. destruct Hx as (i & Hi & Ho). unfold story in Hi.
  repeat (apply elem_of_cons in Hi as [->|Hi]; [vm_compute in Ho; congruence || done|]). by apply elem_of_nil in Hi.
Defined.

Lemma leases_exclude_and_fence_witness :
  open_claim (take 7 story_log) lease_a2.
Proof.
  destruct (leases_exclude_and_fence queue_options story_log story_reachable) as [_ Hf].
  apply (Hf _ (nth 7 story_log (mkRecord 0 "" (WorkReleased lease_a1 "" 0 None))) (drop 8 story_log));
    vm_compute; reflexivity.
Defined.

Lemma final_work_stays_final_witness : terminal_in (replay story_log) "a".
Proof.
  refine (proj1 (final_work_stays_final queue_options story_log "a" (take 8 story_log)
    (nth 8 story_log (mkRecord 0 "" (WorkReleased lease_a1 "" 0 None))) (drop 9 story_log) story_reachable _ _));
    vm_compute; reflexivity.
Defined.

Lemma retries_bounded_witness : N.of_nat (retries "a" story_log) <= 2 - 1.
Proof. apply (proj1 (retries_bounded queue_options story_log "a" story_reachable)). Defined.

(** The claim of both works at the time their leases are over. *)
Lemma claims_oldest_first_witness :
  ∃ ev s', claim_work queue_options (with_id "c8") "w3" [] (Some 5%nat) None 40 after_story.2 = Ret ev s'
           ∧ ∃ order : list (N * string), StronglySorted (λ x y, candidate_cmp x y = Lt) order ∧ claimed ev = (take 5 order).*2.
Proof.
  destruct (claim_work queue_options (with_id "c8") "w3" [] (Some 5%nat) None 40 after_story.2) as [ev s'| |] eqn:Hc;
    [|vm_compute in Hc; discriminate..].
  exists ev, s'. split; [reflexivity|].
  destruct (claims_oldest_first queue_options story after_story.1 after_story.2 (with_id "c8") "w3" [] (Some 5%nat) None 40 ev s')
    as (order & _ & Hs & He); [reflexivity|apply story_runs|discriminate|vm_compute; discriminate|exact Hc|].
  exists order. split; [exact Hs|exact He].
Defined.

Lemma commands_run_once_witness :
  let c := Cancel (with_id "c9") "b" None (Some 50) in
  ∃ ev ev' s1, reduce_queue_command queue_options c 50 after_story.2 = Ret ev s1
    ∧ reduce_queue_command queue_options c 60 s1 = Ret ev' s1.
Proof.
  intros c. destruct (reduce_queue_command queue_options c 50 after_story.2) as [ev s1| |] eqn:Hc;
    [|vm_compute in Hc; discriminate..].
  destruct (commands_run_once queue_options c 50 after_story.2 ev s1 [] [] s1 c 60) as (ev' & He & _);
    [reflexivity|vm_compute; intros Hx; by apply (bool_decide_eq_true_2 _) in Hx|reflexivity|exact Hc|reflexivity|by left|].
  exists ev, ev', s1. split; [reflexivity|exact He].
Defined.

Lemma queue_pages_cover_witness :
  ∃ items, walk 5 (λ after, option_map fst (available_page after_story.2 (Some 1%nat) (option_map fst after)
                              (option_map snd after) (Some 50))) None = Some items.
Proof.
  destruct (queue_pages_cover queue_options story after_story.1 after_story.2 0 (Some 50) 5) as (items & He & _);
    [reflexivity|apply story_runs|vm_compute; lia|]. by exists items.
Defined.

(** A claim whose lease would overflow the clock has already expired the
    leases that were over: their records are in the log, and its events hold
    only the rejection, so the records node never shows them. *)
Theorem overflowing_claim_hides_expiry :
  let '(ev, s) := match runtime queue_options
      [ Admit (message 1 "a") 0; claim_by "c1" "w1" None None 0; claim_by "c2" "w2" None (Some u64_max) 20 ] queue_default
    with Ret ev s => (ev, s) | _ => ([], queue_default) end in
  omap is_record ev = take 2 (records s)
  ∧ rc_body <$> records s !! 2%nat = Some (LeaseExpired lease_a1 (Some "c2"%string) 10 20)
  ∧ length (records s) = 3%nat.
Proof. vm_compute. repeat split. Qed.
