(* ===== verification/WorkQueueAdmission.v ===== *)
(** * From the bus to the queue (work_queue.rs, messaging.rs)

    The admission loop of a work queue composed with the bus it reads: a page of
    its subscription, an admission per message, an acknowledgement per admission
    record, sent back to the bus.  [admission_poll] is one turn of the loop; the
    theorems say what a turn admits and that enough turns admit everything. *)

From Stdlib Require Import Ascii String.
From stdpp Require Import base option strings numbers gmap list.
From S2P Require Import Prelude BTree Text Json Storage StorageFacts Pages MessageBus MessageBusFacts Resilience WorkQueue WorkQueueFacts.
Import Queue.

Local Open Scope rx_scope.
Local Open Scope N_scope.

Section Admission.
Context {T : Type} `{!TupleText} `{!HashOrder} (cfg : Bus.BusConfig) (opts : RuntimeOptions) (topic : string).
Abbreviation Submit := (WorkQueueSubmit T).
Abbreviation BusState := (Bus.MessageBusState Submit).
Implicit Types m : Bus.MessageEnvelope Submit.

(** The page size of the admission loop. *)
Definition admission_limit : nat := 100.

Definition the_key : string := Bus.subscription_key topic (o_subscription_id opts).

(** One turn: pull a page, admit its messages, send the acknowledgements of the
    new records to the bus. *)
Definition admission_poll (clock : N) (bs : BusState) (qs : RuntimeState T) : option (BusState * RuntimeState T * list (QueueEvent T)) :=
  sub ← bt_get the_key (Bus.subscriptions bs);
  page ← Bus.available_page bs sub (Some admission_limit) None;
  match runtime opts ((λ m, Admit m clock) <$> pg_items (Bus.ap_page page)) qs with
  | Ret ev qs' =>
      match Bus.runtime cfg (omap admission_ack_command (omap is_record ev)) bs with
      | Ret _ bs' => Some (bs', qs', ev)
      | _ => None
      end
  | _ => None
  end.

(** [k] turns. *)
Fixpoint admission_loop (k : nat) (clock : N) (bs : BusState) (qs : RuntimeState T)
    : option (BusState * RuntimeState T * list (QueueEvent T)) :=
  match k with
  | O => Some (bs, qs, [])
  | S k =>
      '(bs, qs, ev) ← admission_poll clock bs qs;
      '(bs, qs, ev') ← admission_loop k clock bs qs;
      Some (bs, qs, ev ++ ev')
  end.

Definition bus_ref m : WorkQueueMessageBusRef := mkBusRef (Bus.me_topic m) (Bus.me_seq m) (o_subscription_id opts).

Definition ack_id (t : string) (seq : N) : string :=
  compound_tuple_key "work-queue-admission-ack" [o_queue_id opts; t; o_subscription_id opts; u64_string seq].

Definition ack_of m : Bus.MessageBusCommand Submit :=
  Bus.Ack (Bus.me_topic m) (o_subscription_id opts) (Bus.me_seq m) (Some (ack_id (Bus.me_topic m) (Bus.me_seq m))).

(** The admissions among some events. *)
Definition admissions (ev : list (QueueEvent T)) : list WorkQueueMessageBusRef :=
  omap admission_message_bus (omap is_record ev).

(** *** Admission *)

Lemma admit_fresh m clock (qs : RuntimeState T) :
  source_key m ∉ source_seqs qs →
  ∃ ev qs' r, admit_message opts m clock qs = Ret ev qs' ∧ omap is_record ev = [r]
    ∧ admission_message_bus r = Some (bus_ref m) ∧ record_queue_id r = o_queue_id opts
    ∧ source_seqs qs' = {[source_key m]} ∪ source_seqs qs.
Proof.
  intros Hf. unfold admit_message, bind at 1, gets, id. rewrite bool_decide_false by done.
  unfold bind at 1, modify at 1. destruct (bt_get (admitted_id opts m) (works qs)) eqn:Hg.
  - eexists _, _, _. split_and!; [reflexivity|done..].
  - eexists _, _, _. split_and!; [reflexivity|done..].
Qed.

Lemma admit_all (ms : list (Bus.MessageEnvelope Submit)) clock (qs : RuntimeState T) :
  NoDup (source_key <$> ms) → (∀ m, m ∈ ms → source_key m ∉ source_seqs qs) →
  ∃ ev qs', runtime opts ((λ m, Admit m clock) <$> ms) qs = Ret ev qs'
    ∧ admissions ev = bus_ref <$> ms
    ∧ omap admission_ack_command (omap is_record ev) = ack_of <$> ms
    ∧ source_seqs qs' = list_to_set (source_key <$> ms) ∪ source_seqs qs.
Proof.
  unfold runtime. intros Hnd Hf.
  cut (∀ acc, ∃ ev qs', fold_each ((λ m, Admit m clock) <$> ms) (λ events i, let! e := queue_input opts i in ret (events ++ e)) acc qs = Ret (acc ++ ev) qs'
    ∧ admissions ev = bus_ref <$> ms ∧ omap admission_ack_command (omap is_record ev) = ack_of <$> ms
    ∧ source_seqs qs' = list_to_set (source_key <$> ms) ∪ source_seqs qs); [intros Hc; apply (Hc [])|].
  revert qs Hf Hnd. induction ms as [|m ms IH]; intros qs Hf Hnd acc.
  { exists [], qs. rewrite app_nil_r. split_and!; [done..|clear; set_solver]. }
  rewrite fmap_cons in Hnd. apply NoDup_cons in Hnd as [Hni Hnd].
  destruct (admit_fresh m clock qs) as (ev1 & qs1 & r & Hrun & Hr & Hmb & Hq & Hss); [apply Hf; by left|].
  destruct (IH qs1) with (acc := acc ++ ev1) as (ev2 & qs2 & Hrun2 & Ha2 & Hack2 & Hss2); [|done|].
  { intros m' Hm'. rewrite Hss. intros [He%elem_of_singleton|Hin]%elem_of_union.
    - apply Hni. rewrite <- He. clear -Hm'. by apply list_elem_of_fmap_2.
    - by apply (Hf m'); [right|]. }
  exists (ev1 ++ ev2), qs2. rewrite fmap_cons. cbn [fold_each]. split_and!.
  - unfold bind at 1 2. cbn [queue_input]. rewrite Hrun. unfold ret at 1. by rewrite Hrun2, (assoc_L (++)).
  - unfold admissions in *. rewrite omap_app, Hr, omap_app, Ha2. simpl. by rewrite Hmb.
  - rewrite !omap_app, Hr, Hack2. csimpl. unfold admission_ack_command at 1. rewrite Hmb. csimpl. by rewrite Hq.
  - rewrite Hss2, Hss. csimpl. clear. set_solver.
Qed.

(** *** Acknowledgement *)

Definition cursor_of (bs : BusState) (next : N) : Prop :=
  bt_get the_key (Bus.subscriptions bs) = Some (Bus.mkSubscription topic (o_subscription_id opts) next false false).

Lemma ack_one (bs : BusState) next seq st :
  topic ≠ ""%string → o_subscription_id opts ≠ ""%string → cursor_of bs next → bt_get topic (Bus.topics bs) = Some st →
  next ≤ seq < Bus.ts_next_seq st → ack_id topic seq ∉ Bus.seen_command_ids bs →
  ∃ ev bs', Bus.reduce_message_bus_command cfg (Bus.Ack topic (o_subscription_id opts) seq (Some (ack_id topic seq))) bs = Ret ev bs'
    ∧ omap is_message ev = [] ∧ cursor_of bs' (seq + 1) ∧ Bus.topics bs' = Bus.topics bs
    ∧ Bus.seen_command_ids bs' = {[ack_id topic seq]} ∪ Bus.seen_command_ids bs.
Proof.
  intros Ht Hi Hc Hst Hseq Hnew. unfold Bus.reduce_message_bus_command, Bus.validate_topic_key. simpl.
  rewrite bool_decide_false by done. rewrite bool_decide_false by (by intros [= ?]).
  unfold bind at 1, gets at 1, id at 1. rewrite bool_decide_false by done. unfold bind at 1, modify at 1.
  unfold Bus.ack_subscription, Bus.with_cursor, bind at 1, gets at 1, id at 1. simpl. rewrite Hst. fold the_key.
  rewrite Hc. simpl. rewrite (proj2 (N.ltb_ge _ _)), (proj2 (N.leb_gt _ _)) by lia.
  eexists _, _. split; [|split; [|split; [|split]]].
  - erewrite bind_step; [|by eapply upd_sub_run]. reflexivity.
  - done.
  - unfold cursor_of. simpl. apply bt_get_insert.
  - done.
  - done.
Qed.

(** The acknowledgements of consecutive messages. *)
Lemma ack_all (ms : list (Bus.MessageEnvelope Submit)) (bs : BusState) next st :
  topic ≠ ""%string → o_subscription_id opts ≠ ""%string → cursor_of bs next → bt_get topic (Bus.topics bs) = Some st →
  (∀ k m, ms !! k = Some m → Bus.me_seq m = next + N.of_nat k ∧ Bus.me_topic m = topic) →
  next + N.of_nat (length ms) ≤ Bus.ts_next_seq st →
  (∀ m, m ∈ ms → ack_id topic (Bus.me_seq m) ∉ Bus.seen_command_ids bs) →
  ∃ ev bs', Bus.runtime cfg (ack_of <$> ms) bs = Ret ev bs'
    ∧ omap is_message ev = [] ∧ cursor_of bs' (next + N.of_nat (length ms)) ∧ Bus.topics bs' = Bus.topics bs
    ∧ Bus.seen_command_ids bs' = list_to_set ((λ m, ack_id topic (Bus.me_seq m)) <$> ms) ∪ Bus.seen_command_ids bs.
Proof.
  intros Ht Hi Hc Hst Hseq Hlen Hnew. unfold Bus.runtime.
  cut (∀ acc, ∃ ev bs', fold_each (ack_of <$> ms)
      (λ events c, let! e := Bus.reduce_message_bus_command cfg c in ret (events ++ e)) acc bs = Ret (acc ++ ev) bs'
    ∧ omap is_message ev = [] ∧ cursor_of bs' (next + N.of_nat (length ms)) ∧ Bus.topics bs' = Bus.topics bs
    ∧ Bus.seen_command_ids bs' = list_to_set ((λ m, ack_id topic (Bus.me_seq m)) <$> ms) ∪ Bus.seen_command_ids bs);
    [intros Hcut; apply (Hcut [])|].
  revert bs next Hc Hst Hseq Hlen Hnew. induction ms as [|m ms IH]; intros bs next Hc Hst Hseq Hlen Hnew acc.
  { exists [], bs. rewrite app_nil_r, N.add_0_r. split_and!; [done..|clear; set_solver]. }
  destruct (Hseq 0%nat m eq_refl) as [Hm Htm]. rewrite N.add_0_r in Hm. cbn [length] in Hlen.
  destruct (ack_one bs next (Bus.me_seq m) st) as (ev1 & bs1 & Hrun & Hmsg & Hc1 & Ht1 & Hs1);
    [done..|lia|apply Hnew; by left|].
  destruct (IH bs1 (next + 1)) with (acc := acc ++ ev1) as (ev2 & bs2 & Hrun2 & Hmsg2 & Hc2 & Ht2 & Hs2).
  - by rewrite Hm in Hc1.
  - by rewrite Ht1.
  - intros k m' Hk. destruct (Hseq (S k) m' Hk) as [-> ->]. split; [lia|done].
  - lia.
  - intros m' Hin. rewrite Hs1. intros [He%elem_of_singleton|Hin']%elem_of_union.
    + apply list_elem_of_lookup_1 in Hin as [k Hk]. destruct (Hseq (S k) m' Hk) as [Hm' _].
      unfold ack_id in He. apply compound_tuple_key_inj in He. injection He as He%u64_string_inj. lia.
    + apply (Hnew m'); [by right|done].
  - exists (ev1 ++ ev2), bs2. rewrite fmap_cons. cbn [fold_each]. unfold ack_of at 1. rewrite Htm. split_and!.
    + unfold bind at 1 2. rewrite Hrun. unfold ret at 1. by rewrite Hrun2, (assoc_L (++)).
    + by rewrite omap_app, Hmsg, Hmsg2.
    + cbn [length]. by replace (next + N.of_nat (S (length ms))) with (next + 1 + N.of_nat (length ms)) by lia.
    + by rewrite Ht2, Ht1.
    + rewrite Hs2, Hs1. csimpl. clear. set_solver.
Qed.

(** *** A turn, and many *)

(** The queue has seen nothing from [next] on, and acknowledged nothing there. *)
Record in_sync (pub : list (Bus.MessageEnvelope Submit)) (bs : BusState) (qs : RuntimeState T) (next : N) : Prop := {
  sy_cursor : cursor_of bs next;
  sy_range : 1 ≤ next ≤ N.of_nat (length pub) + 1;
  sy_fresh m : m ∈ pub → next ≤ Bus.me_seq m → source_key m ∉ source_seqs qs;
  sy_unacked m : m ∈ pub → next ≤ Bus.me_seq m → ack_id topic (Bus.me_seq m) ∉ Bus.seen_command_ids bs
}.

Lemma source_key_inj (m m' : Bus.MessageEnvelope Submit) :
  source_key m = source_key m' → Bus.me_topic m = Bus.me_topic m' ∧ Bus.me_seq m = Bus.me_seq m'.
Proof.
  unfold source_key, canonical_tuple_key. intros He%(f_equal parse_tuple). rewrite !parse_tuple_text in He.
  injection He as -> He%u64_string_inj. done.
Qed.

Section Loop.
Context (pub : string → list (Bus.MessageEnvelope Submit)) (clock : N).
Context (Htopic : topic ≠ ""%string) (Hsubid : o_subscription_id opts ≠ ""%string).
Context (Hage : Bus.max_age_ms (Bus.retention cfg) = None).

Lemma poll_step (bs : BusState) (qs : RuntimeState T) next st :
  bus_inv cfg bs pub → bt_get topic (Bus.topics bs) = Some st → in_sync (pub topic) bs qs next →
  let ms := take admission_limit (drop (N.to_nat (next - 1)) (pub topic)) in
  ∃ bs' qs' ev, admission_poll clock bs qs = Some (bs', qs', ev) ∧ admissions ev = bus_ref <$> ms
    ∧ bus_inv cfg bs' pub ∧ Bus.topics bs' = Bus.topics bs ∧ in_sync (pub topic) bs' qs' (next + N.of_nat (length ms)).
Proof.
  intros Hinv Hst [Hcur Hrange Hfresh Hunack] ms.
  assert (∀ k m, ms !! k = Some m → Bus.me_seq m = next + N.of_nat k ∧ Bus.me_topic m = topic ∧ m ∈ pub topic) as Hms.
  { intros k m Hk. apply lookup_take_Some in Hk as [Hk _]. rewrite lookup_drop in Hk.
    destruct (bi_numbered _ _ _ Hinv topic _ _ Hk) as [-> ->]. split_and!; [lia|done|by eapply list_elem_of_lookup_2]. }
  assert (∀ m, m ∈ ms → next ≤ Bus.me_seq m < next + N.of_nat (length ms) ∧ Bus.me_topic m = topic ∧ m ∈ pub topic) as Hin.
  { intros m [k Hk]%list_elem_of_lookup_1. pose proof (lookup_lt_Some _ _ _ Hk). destruct (Hms k m Hk) as (? & ? & ?).
    split_and!; [lia|lia|done..]. }
  assert (next + N.of_nat (length ms) ≤ N.of_nat (length (pub topic)) + 1) as Hend.
  { unfold ms. rewrite length_take, length_drop. lia. }
  destruct (admit_all ms clock qs) as (ev & qs' & Hrun & Hadm & Hack & Hss).
  { apply NoDup_alt. intros i j k Hi Hj. rewrite list_lookup_fmap in Hi, Hj.
    apply fmap_Some in Hi as (mi & Hi & ->). apply fmap_Some in Hj as (mj & Hj & Heq).
    apply source_key_inj in Heq as [_ Heq]. destruct (Hms _ _ Hi) as [Hsi _], (Hms _ _ Hj) as [Hsj _]. lia. }
  { intros m Hm. destruct (Hin m Hm) as (? & _ & ?). apply Hfresh; [done|lia]. }
  destruct (ack_all ms bs next st) as (bev & bs' & Hbrun & Hmsg & Hcur' & Htop & Hseen); try done.
  { intros k m Hk. by destruct (Hms k m Hk) as (? & ? & _). }
  { destruct (bi_known _ _ _ Hinv _ _ Hst) as [-> _ _ _ _]. done. }
  { intros m Hm. destruct (Hin m Hm) as (? & _ & ?). apply Hunack; [done|lia]. }
  exists bs', qs', ev. split_and!; [|done| |done|].
  - unfold admission_poll. rewrite Hcur. cbn [mbind option_bind].
    destruct (Bus.available_page bs _ (Some admission_limit) None) as [page|] eqn:Hpage; [|done].
    cbn [mbind option_bind].
    rewrite (available_items cfg bs pub topic (o_subscription_id opts) _ st admission_limit page) by done.
    change (take admission_limit (drop (N.to_nat (Bus.sub_next_seq (Bus.mkSubscription topic (o_subscription_id opts) next false false) - 1)) (pub topic)))
      with ms. by rewrite Hrun, Hack, Hbrun.
  - pose proof (runtime_inv cfg (ack_of <$> ms) bs pub Hinv) as Hi. unfold publishes, total in Hi. rewrite Hbrun in Hi.
    eapply inv_pub_ext; [exact Hi|]. intros t. unfold published. by rewrite Hmsg, app_nil_r.
  - split; [done|lia|..].
    + intros m Hm Hle. rewrite Hss. intros [Hx|Hx]%elem_of_union.
      * apply elem_of_list_to_set, list_elem_of_fmap in Hx as (m' & He & Hm').
        apply source_key_inj in He as [_ He]. destruct (Hin m' Hm') as (? & _). lia.
      * revert Hx. apply Hfresh; [done|lia].
    + intros m Hm Hle. rewrite Hseen. intros [Hx|Hx]%elem_of_union.
      * apply elem_of_list_to_set, list_elem_of_fmap in Hx as (m' & He & Hm').
        unfold ack_id in He. apply compound_tuple_key_inj in He. injection He as He%u64_string_inj.
        destruct (Hin m' Hm') as (? & _). lia.
      * revert Hx. apply Hunack; [done|lia].
Qed.

Lemma loop_steps k (bs : BusState) (qs : RuntimeState T) next st :
  bus_inv cfg bs pub → bt_get topic (Bus.topics bs) = Some st → in_sync (pub topic) bs qs next →
  (length (pub topic) + 1 - N.to_nat next ≤ admission_limit * k)%nat →
  ∃ bs' qs' ev, admission_loop k clock bs qs = Some (bs', qs', ev)
    ∧ admissions ev = bus_ref <$> drop (N.to_nat (next - 1)) (pub topic)
    ∧ cursor_of bs' (N.of_nat (length (pub topic)) + 1).
Proof.
  revert bs qs next. induction k as [|k IH]; intros bs qs next Hinv Hst Hsync Hk.
  - exists bs, qs, []. pose proof (sy_range _ _ _ _ Hsync). split_and!; [done|..].
    + by rewrite drop_ge by lia.
    + replace (N.of_nat (length (pub topic)) + 1) with next by lia. apply (sy_cursor _ _ _ _ Hsync).
  - destruct (poll_step bs qs next st Hinv Hst Hsync) as (bs1 & qs1 & ev1 & Hrun & Hadm & Hinv1 & Ht1 & Hsync1).
    set (ms := take admission_limit _) in *. pose proof (sy_range _ _ _ _ Hsync) as Hr.
    assert (length ms = (admission_limit `min` (length (pub topic) + 1 - N.to_nat next))%nat) as Hl.
    { unfold ms. rewrite length_take, length_drop. lia. }
    destruct (IH bs1 qs1 (next + N.of_nat (length ms))) as (bs2 & qs2 & ev2 & Hrun2 & Hadm2 & Hc2); [done|by rewrite Ht1|done|lia|].
    exists bs2, qs2, (ev1 ++ ev2). cbn [admission_loop]. rewrite Hrun. cbn [mbind option_bind]. rewrite Hrun2. split_and!; [done| |done].
    unfold admissions in *. rewrite !omap_app, Hadm, Hadm2, <- fmap_app. f_equal.
    transitivity (ms ++ drop admission_limit (drop (N.to_nat (next - 1)) (pub topic))); [f_equal|by apply take_drop].
    rewrite drop_drop. destruct (decide (length ms = admission_limit)) as [He|Hne].
    + f_equal. lia.
    + by rewrite !drop_ge by lia.
Qed.
End Loop.

End Admission.
