(* ===== verification/WorkQueueAdmissionScenarios.v ===== *)
(** * From the bus to the queue: concrete runs

    The witness of [WorkQueueAdmission.admission_exactly_once], and a queue that
    is moved back on its subscription and stops there. *)

From Stdlib Require Import Ascii String.
From stdpp Require Import base option strings numbers gmap list.
From S2P Require Import Prelude BTree Text Json Storage Pages MessageBus DurabilityExample MessageBusFacts Resilience WorkQueue WorkQueueFacts WorkQueueScenarios WorkQueueAdmission.
Import Queue.

Local Open Scope rx_scope.
Local Open Scope N_scope.

#[local] Existing Instance escaped_tuples.
#[local] Existing Instance WorkQueueScenarios.sorted_hash.

Definition work_bus : Bus.MessageBusState (WorkQueueSubmit nat) := Bus.mkBusState 0 Bus.Strict [] [] ∅ ∅ [] 0.

Definition bus_config : Bus.BusConfig := Bus.mkBusConfig (λ _, Some 0) (Bus.mkRetention None None) Bus.DedupeStatus.

Definition admission_options : RuntimeOptions := mkOptions "q" "worker" 10 (mkRetryPolicy 2 (Constant 5)).

Definition submit_work (payload : nat) : string * string * Bus.MessageBusSubscriptionFrom + Bus.MessageBusCommand (WorkQueueSubmit nat) :=
  inr (Bus.Publish "work" (mkSubmit payload None None [] [] None None) None None None).

(** The topic, the subscription of the queue, and [n] submissions. *)
Definition submissions (n : nat) : list (string * string * Bus.MessageBusSubscriptionFrom + Bus.MessageBusCommand (WorkQueueSubmit nat)) :=
  inr (Bus.EnsureTopic "work" None) :: inl ("work", "worker", Bus.Earliest)%string :: (submit_work <$> seq 1 n).

Definition bus_after xs : list (Bus.RuntimeEvent (WorkQueueSubmit nat)) * Bus.MessageBusState (WorkQueueSubmit nat) :=
  match history bus_config xs work_bus with Ret ev s => (ev, s) | _ => ([], work_bus) end.

Lemma submissions_valid n : Forall valid_step (submissions n).
Proof. repeat constructor; [discriminate..|]. apply Forall_fmap, Forall_true. by intros x. Qed.


(** A full page of old messages: 100 submissions, admitted and acknowledged; the
    subscription is moved back to the first; one more submission. *)
Definition full_page : Bus.MessageBusState (WorkQueueSubmit nat) * RuntimeState nat :=
  match admission_loop bus_config admission_options "work" 1 7 (bus_after (submissions 100)).2 queue_default with
  | Some (bs, qs, _) =>
      match history bus_config [inr (Bus.Seek "work" "worker" 1 None); submit_work 101] bs with
      | Ret _ bs' => (bs', qs)
      | _ => (bs, qs)
      end
  | None => (work_bus, queue_default)
  end.

Lemma full_page_turn :
  admission_poll bus_config admission_options "work" 7 full_page.1 full_page.2 = Some (full_page.1, full_page.2, []).
Proof. vm_compute. reflexivity. Qed.

(** A queue moved back by a page or more never gets on: every message of
    the page has been admitted, so the turn makes no record, no acknowledgement
    is sent and the cursor stays; the submission that follows is never admitted,
    however many turns are made. *)
Theorem seek_back_stalls_admission :
  (∀ k, admission_loop bus_config admission_options "work" k 7 full_page.1 full_page.2 = Some (full_page.1, full_page.2, []))
  ∧ cursor_of admission_options "work" full_page.1 1
  ∧ option_map Bus.ts_next_seq (bt_get "work"%string (Bus.topics full_page.1)) = Some 102
  ∧ length (bt_values (works full_page.2)) = 100%nat.
Proof.
  split_and!; [|vm_compute; reflexivity..].
  induction k as [|k IH]; [reflexivity|]. cbn [admission_loop]. rewrite full_page_turn. cbn [mbind option_bind].
  by rewrite IH.
Qed.
