(* ===== verification/Bridge.v ===== *)
(** * The wire bridge (adapters/bridge.rs)

    A bridge ends the local wave at a session boundary: commands become numbered
    outbound envelopes, envelopes from the other side become events.  Every event
    comes from one node ([events_node]) whose state is [BridgeState]; outbound,
    acks, status and the other nodes are projections of its events.  Envelopes that
    want a receipt stay pending until they are acknowledged, or until their retries
    are exhausted. *)

From Stdlib Require Import Ascii String.
From stdpp Require Import base option strings numbers gmap list.
From S2P Require Import Prelude Text Storage Protocol NodeState Resilience.

Local Open Scope rx_scope.
Local Open Scope N_scope.

Module Wire.

(** ** Envelopes *)

Inductive WireBridgeEnvelopeType := TStart | TData | TAck | TNack | TStatus | TError | TClose.
#[export] Instance envelope_type_eq : EqDecision WireBridgeEnvelopeType.
Proof. solve_decision. Defined.

Record WireBridgeMetadata := mkMetadata {
  md_seq : N;
  md_cursor : N;
  md_idempotency_key : string;
  md_attempt : N;
  md_max_attempts : N;
  md_timestamp_ms : option N;
  md_ack_for_seq : option N;
  md_request_id : option string
}.

Inductive WireBridgePayload (T : Type) :=
| PData (value : T)
| PError (error : string)
| PStatus (status : string)
| PClose (reason : option string).
Arguments PData {T} _.
Arguments PError {T} _.
Arguments PStatus {T} _.
Arguments PClose {T} _.

Record WireBridgeEnvelope (T : Type) := mkEnvelope {
  session_id : string;
  envelope_type : WireBridgeEnvelopeType;
  payload : option (WireBridgePayload T);
  metadata : WireBridgeMetadata
}.
Arguments mkEnvelope {T} _ _ _ _.
Arguments session_id {T} _.
Arguments envelope_type {T} _.
Arguments payload {T} _.
Arguments metadata {T} _.

Inductive WireBridgeEnvelopeError :=
| EmptySessionId | ZeroSeq | EmptyIdempotencyKey | ZeroAttempt | MaxAttemptsBeforeAttempt
| ZeroAckForSeq | MissingAckForSeq | MissingPayload | UnexpectedPayload | PayloadTypeMismatch.
#[export] Instance envelope_error_eq : EqDecision WireBridgeEnvelopeError.
Proof. solve_decision. Defined.

(** [Display]. *)
Definition envelope_error_string (e : WireBridgeEnvelopeError) : string :=
  "wireBridgeEnvelope: " +:+
  match e with
  | EmptySessionId => "session_id must be non-empty"
  | ZeroSeq => "seq must be positive"
  | EmptyIdempotencyKey => "idempotency_key must be non-empty"
  | ZeroAttempt => "attempt must be positive"
  | MaxAttemptsBeforeAttempt => "max_attempts must be >= attempt"
  | ZeroAckForSeq => "ack_for_seq must be positive"
  | MissingAckForSeq => "ack/nack requires ack_for_seq"
  | MissingPayload => "envelope type requires a payload"
  | UnexpectedPayload => "envelope type must not carry a payload"
  | PayloadTypeMismatch => "payload kind does not match envelope type"
  end.

Record WireBridgeEnvelopeInput (T : Type) := mkInput {
  in_session_id : string;
  in_envelope_type : WireBridgeEnvelopeType;
  in_seq : N;
  in_cursor : N;
  in_payload : option (WireBridgePayload T);
  in_idempotency_key : option string;
  in_attempt : N;
  in_max_attempts : N;
  in_timestamp_ms : option N;
  in_ack_for_seq : option N;
  in_request_id : option string
}.
Arguments mkInput {T} _ _ _ _ _ _ _ _ _ _ _.
Arguments in_session_id {T} _.
Arguments in_envelope_type {T} _.
Arguments in_seq {T} _.
Arguments in_cursor {T} _.
Arguments in_payload {T} _.
Arguments in_idempotency_key {T} _.
Arguments in_attempt {T} _.
Arguments in_max_attempts {T} _.
Arguments in_timestamp_ms {T} _.
Arguments in_ack_for_seq {T} _.
Arguments in_request_id {T} _.

Definition empty (s : string) : bool := bool_decide (s = ""%string).

Definition is_receipt (t : WireBridgeEnvelopeType) : bool := match t with TAck | TNack => true | _ => false end.

Definition should_track_ack (t : WireBridgeEnvelopeType) : bool :=
  match t with TStart | TData | TClose => true | _ => false end.

Definition validate_payload_for_type {T} (t : WireBridgeEnvelopeType) (payload : option (WireBridgePayload T))
    : Result WireBridgeEnvelopeError unit :=
  match t, payload with
  | TData, Some (PData _) | (TNack | TError), Some (PError _) | TStatus, Some (PStatus _) | TClose, Some (PClose _) => Ok tt
  | (TData | TNack | TError | TStatus | TClose), Some _ => Err PayloadTypeMismatch
  | (TData | TNack | TError | TStatus | TClose), None => Err MissingPayload
  | (TStart | TAck), Some _ => Err UnexpectedPayload
  | (TStart | TAck), None => Ok tt
  end.

Section Envelope.
Context {T : Type} `{!TupleText}.

Definition wire_bridge_idempotency_key (session_id : string) (seq : N) : string :=
  canonical_tuple_key [session_id; u64_string seq].

(** The checks of the two validators, each with the error of the first that fails. *)
Fixpoint first_error (checks : list (bool * WireBridgeEnvelopeError)) : Result WireBridgeEnvelopeError unit :=
  match checks with
  | [] => Ok tt
  | (bad, e) :: checks => if bad then Err e else first_error checks
  end.

Definition wire_bridge_envelope (i : WireBridgeEnvelopeInput T)
    : Result WireBridgeEnvelopeError (WireBridgeEnvelope T) :=
  rbind (first_error [
    (empty (in_session_id i), EmptySessionId);
    (in_seq i =? 0, ZeroSeq);
    (in_attempt i =? 0, ZeroAttempt);
    (in_max_attempts i <? in_attempt i, MaxAttemptsBeforeAttempt);
    (is_receipt (in_envelope_type i) && bool_decide (in_ack_for_seq i = None), MissingAckForSeq);
    (bool_decide (in_ack_for_seq i = Some 0), ZeroAckForSeq) ]) (λ _,
  rbind (validate_payload_for_type (in_envelope_type i) (in_payload i)) (λ _,
  let key := default (wire_bridge_idempotency_key (in_session_id i) (in_seq i)) (in_idempotency_key i) in
  if empty key then Err EmptyIdempotencyKey
  else Ok (mkEnvelope (in_session_id i) (in_envelope_type i) (in_payload i)
    (mkMetadata (in_seq i) (in_cursor i) key (in_attempt i) (in_max_attempts i) (in_timestamp_ms i)
       (in_ack_for_seq i) (in_request_id i))))).

Definition validate_inbound_envelope (e : WireBridgeEnvelope T) : Result WireBridgeEnvelopeError unit :=
  let m := metadata e in
  rbind (first_error [
    (empty (session_id e), EmptySessionId);
    (md_seq m =? 0, ZeroSeq);
    (empty (md_idempotency_key m), EmptyIdempotencyKey);
    (md_attempt m =? 0, ZeroAttempt);
    (md_max_attempts m <? md_attempt m, MaxAttemptsBeforeAttempt);
    (bool_decide (md_ack_for_seq m = Some 0), ZeroAckForSeq);
    (is_receipt (envelope_type e) && bool_decide (md_ack_for_seq m = None), MissingAckForSeq) ]) (λ _,
  validate_payload_for_type (envelope_type e) (payload e)).

Definition payload_error_string (payload : option (WireBridgePayload T)) (fallback : string) : string :=
  match payload with Some (PError error) => error | _ => fallback end.
End Envelope.

(** ** Commands and events *)

Inductive WireBridgeCommand (T : Type) :=
| CStart (idempotency_key request_id : option string)
| CSend (payload : T) (idempotency_key request_id : option string)
| CAck (ack_for_seq : N) (idempotency_key request_id : option string)
| CNack (ack_for_seq : N) (error : string) (idempotency_key request_id : option string)
| CClose (reason idempotency_key : option string)
| CAckTimeout (seq attempt : N) (observed_at_ms : option N).
Arguments CStart {T} _ _.
Arguments CSend {T} _ _ _.
Arguments CAck {T} _ _ _.
Arguments CNack {T} _ _ _ _.
Arguments CClose {T} _ _.
Arguments CAckTimeout {T} _ _ _.

Inductive WireBridgeReceipt := ReceiptAck | ReceiptNack.

Inductive WireBridgeEvent (O I : Type) :=
| EOutbound (envelope : WireBridgeEnvelope O)
| EInbound (envelope : WireBridgeEnvelope I)
| EAck (ack_for_seq : N) (envelope : WireBridgeEnvelope I) (outbound : WireBridgeEnvelope O)
| ENack (ack_for_seq : N) (envelope : WireBridgeEnvelope I) (outbound : WireBridgeEnvelope O) (error : string)
| ETimeout (seq attempt : N)
| ERetry (seq attempt delay_ms : N) (error : string)
| EExhausted (seq attempt : N) (error : string)
| ECursor (cursor : N)
| EDuplicate (seq cursor : N)
| EOutOfOrder (seq expected : N)
| ESessionMismatch (expected actual : string)
| ELateReceipt (receipt : WireBridgeReceipt) (ack_for_seq : N)
| EInvalid (error : string).
Arguments EOutbound {O I} _.
Arguments EInbound {O I} _.
Arguments EAck {O I} _ _ _.
Arguments ENack {O I} _ _ _ _.
Arguments ETimeout {O I} _ _.
Arguments ERetry {O I} _ _ _ _.
Arguments EExhausted {O I} _ _ _.
Arguments ECursor {O I} _.
Arguments EDuplicate {O I} _ _.
Arguments EOutOfOrder {O I} _ _.
Arguments ESessionMismatch {O I} _ _.
Arguments ELateReceipt {O I} _ _.
Arguments EInvalid {O I} _.

Inductive WireBridgeIngress (T : Type) :=
| IEnvelope (envelope : WireBridgeEnvelope T)
| IInvalid (error : string).
Arguments IEnvelope {T} _.
Arguments IInvalid {T} _.

(** ** State *)

Record PendingEnvelope (T : Type) := mkPending {
  pe_envelope : WireBridgeEnvelope T;
  timeout_reported_attempt : option N;
  retry_due_at_ms : option N
}.
Arguments mkPending {T} _ _ _.
Arguments pe_envelope {T} _.
Arguments timeout_reported_attempt {T} _.
Arguments retry_due_at_ms {T} _.

Record BridgeState (T : Type) := mkBridge {
  active : bool;
  cleanup_installed : bool;
  next_seq : N;
  cursor : N;
  remote_cursor : N;
  pending : gmap N (PendingEnvelope T)
}.
Arguments mkBridge {T} _ _ _ _ _ _.
Arguments active {T} _.
Arguments cleanup_installed {T} _.
Arguments next_seq {T} _.
Arguments cursor {T} _.
Arguments remote_cursor {T} _.
Arguments pending {T} _.

Definition bridge_state {T} : BridgeState T := mkBridge true false 1 0 0 ∅.

Section Setters.
Context {T : Type}.
Implicit Types s : BridgeState T.
Definition set_next_seq n s := mkBridge (active s) (cleanup_installed s) n (cursor s) (remote_cursor s) (pending s).
Definition set_cursors c r s := mkBridge (active s) (cleanup_installed s) (next_seq s) c r (pending s).
Definition set_pending (f : gmap N (PendingEnvelope T) → gmap N (PendingEnvelope T)) s := mkBridge (active s) (cleanup_installed s) (next_seq s) (cursor s) (remote_cursor s) (f (pending s)).

(** [active] is set by every run, and the cleanup hook is installed once. *)
Definition install_cleanup s := mkBridge true true (next_seq s) (cursor s) (remote_cursor s) (pending s).
(** The hook, when the node is deactivated. *)
Definition cleanup s : BridgeState T := mkBridge false false (next_seq s) (cursor s) (remote_cursor s) ∅.
End Setters.

Record OutboundSpec (T : Type) := mkSpec {
  sp_envelope_type : WireBridgeEnvelopeType;
  sp_payload : option (WireBridgePayload T);
  sp_idempotency_key : option string;
  sp_request_id : option string;
  sp_ack_for_seq : option N;
  sp_track_ack : bool;
  sp_clear_pending_first : bool
}.
Arguments mkSpec {T} _ _ _ _ _ _ _.
Arguments sp_envelope_type {T} _.
Arguments sp_payload {T} _.
Arguments sp_idempotency_key {T} _.
Arguments sp_request_id {T} _.
Arguments sp_ack_for_seq {T} _.
Arguments sp_track_ack {T} _.
Arguments sp_clear_pending_first {T} _.

Record WireBridgeOptions := mkOptions { o_session_id : string; o_retry : RetryPolicy }.

(** [opts.now_ms] at one moment; without a clock the time is 0. *)
Definition now_or_zero (clock : option N) : N := default 0 clock.

(** ** The events node *)

(** A loop that emits: the events of each turn, in order. *)
Definition run_each {St A E} (f : A → M St (list E)) (l : list A) : M St (list E) :=
  fold_each l (λ events a, let! e := f a in ret (events ++ e)) [].

Section Reducer.
Context {O I : Type} `{!TupleText} (opts : WireBridgeOptions).
Abbreviation MB := (M (BridgeState O)).
Abbreviation Event := (WireBridgeEvent O I).
Abbreviation policy := (o_retry opts).

Definition invalid (error : string) : MB (list Event) := ret [EInvalid error].

(** [now] is what the clock answers, once at most per command. *)
Definition emit_outbound (spec : OutboundSpec O) (now : N) : MB (list Event) :=
  let! s := gets id in
  if next_seq s =? u64_max then invalid (o_session_id opts +:+ ": next outbound seq exceeded u64::MAX")
  else
    match wire_bridge_envelope (mkInput (o_session_id opts) (sp_envelope_type spec) (next_seq s) (cursor s)
            (sp_payload spec) (sp_idempotency_key spec) 1 (max_attempts policy) (Some now)
            (sp_ack_for_seq spec) (sp_request_id spec)) with
    | Err error => invalid (envelope_error_string error)
    | Ok envelope =>
        when (sp_clear_pending_first spec) (modify (set_pending (λ _, ∅))) ;;;
        modify (set_next_seq (next_seq s + 1)) ;;;
        when (sp_track_ack spec)
          (modify (set_pending <[md_seq (metadata envelope) := mkPending envelope None None]>)) ;;;
        ret [EOutbound envelope]
    end.

Definition emit_retry_outbound (now : N) (current : WireBridgeEnvelope O) : MB (list Event) :=
  let m := metadata current in
  let! s := gets id in
  let! retry := match wire_bridge_envelope (mkInput (session_id current) (envelope_type current) (md_seq m) (cursor s)
        (payload current) (Some (md_idempotency_key m)) (sat32 (md_attempt m + 1)) (max_attempts policy) (Some now)
        (md_ack_for_seq m) (md_request_id m)) with
    | Ok retry => ret retry
    | Err _ => panic (PanicStr "retry envelope keeps validated metadata")
    end in
  modify (set_pending (alter (λ _, mkPending retry None None) (md_seq m))) ;;;
  ret [EOutbound retry].

Definition retry_due (p : PendingEnvelope O) (attempt : N) (observed_at_ms : option N) : option bool :=
  if decide (timeout_reported_attempt p = Some attempt) then
    match retry_due_at_ms p, observed_at_ms with
    | Some due, Some observed => if observed <? due then None else Some true
    | _, _ => Some true
    end
  else Some false.

(** What is pending, after its first timeout of an attempt is reported. *)
Definition report_timeout (attempt delay_ms : N) (observed_at_ms : option N) (p : PendingEnvelope O) : PendingEnvelope O :=
  mkPending (pe_envelope p) (Some attempt)
    (if 0 <? delay_ms then (λ ms, sat64 (ms + delay_ms)) <$> observed_at_ms else retry_due_at_ms p).

Definition timeout_error (seq : N) : string := o_session_id opts +:+ ": ack timeout for seq " +:+ u64_string seq.

(** The first timeout of an attempt: a report, and then exhaustion, a retry at
    once, or a retry that waits for a later timeout command. *)
Definition first_timeout (seq attempt : N) (observed_at_ms : option N) (now : N) (current : WireBridgeEnvelope O)
    : MB (list Event) :=
  if negb (should_retry policy attempt) then
    modify (set_pending (delete seq)) ;;;
    ret [ETimeout seq attempt; EExhausted seq attempt (timeout_error seq)]
  else
    let next_attempt := sat32 (attempt + 1) in
    let delay_ms := default 0 (next_delay_ms policy next_attempt) in
    modify (set_pending (alter (report_timeout attempt delay_ms observed_at_ms) seq)) ;;;
    let reported := [ETimeout seq attempt; ERetry seq next_attempt delay_ms (timeout_error seq)] in
    let! m := gets pending in
    match m !! seq ≫= retry_due_at_ms with
    | Some _ => ret reported
    | None => let! retry := emit_retry_outbound now current in ret (reported ++ retry)
    end.

Definition process_ack_timeout_command (seq attempt : N) (observed_at_ms : option N) (now : N) : MB (list Event) :=
  if seq =? 0 then invalid "wireBridge: ack-timeout command seq must be positive"
  else if attempt =? 0 then invalid "wireBridge: ack-timeout command attempt must be positive"
  else
    let! m := gets pending in
    match m !! seq with
    | None => ret []
    | Some p =>
        if negb (md_attempt (metadata (pe_envelope p)) =? attempt) then ret []
        else
          match retry_due p attempt observed_at_ms with
          | None => ret []
          | Some true => emit_retry_outbound now (pe_envelope p)
          | Some false => first_timeout seq attempt observed_at_ms now (pe_envelope p)
          end
    end.

Definition process_command (c : WireBridgeCommand O) (now : N) : MB (list Event) :=
  match c with
  | CStart key request => emit_outbound (mkSpec TStart None key request None true false) now
  | CSend value key request => emit_outbound (mkSpec TData (Some (PData value)) key request None true false) now
  | CAck seq key request =>
      if seq =? 0 then invalid "wireBridge: ack command ack_for_seq must be positive"
      else emit_outbound (mkSpec TAck None key request (Some seq) false false) now
  | CNack seq error key request =>
      if seq =? 0 then invalid "wireBridge: nack command ack_for_seq must be positive"
      else emit_outbound (mkSpec TNack (Some (PError error)) key request (Some seq) false false) now
  | CClose reason key => emit_outbound (mkSpec TClose (Some (PClose reason)) key None None true true) now
  | CAckTimeout seq attempt observed => process_ack_timeout_command seq attempt observed now
  end.

Definition process_ack (envelope : WireBridgeEnvelope I) : MB (list Event) :=
  let! ack_for_seq := expect (md_ack_for_seq (metadata envelope)) "validated ack has ack_for_seq" in
  let! m := gets pending in
  modify (set_pending (delete ack_for_seq)) ;;;
  ret [match m !! ack_for_seq with
       | Some p => EAck ack_for_seq envelope (pe_envelope p)
       | None => ELateReceipt ReceiptAck ack_for_seq
       end].

Definition process_nack (envelope : WireBridgeEnvelope I) : MB (list Event) :=
  let! ack_for_seq := expect (md_ack_for_seq (metadata envelope)) "validated nack has ack_for_seq" in
  let! m := gets pending in
  modify (set_pending (delete ack_for_seq)) ;;;
  ret [match m !! ack_for_seq with
       | Some p => ENack ack_for_seq envelope (pe_envelope p) (payload_error_string (payload envelope) "remote nack")
       | None => ELateReceipt ReceiptNack ack_for_seq
       end].

(** The event of an envelope that is not the next one, or the cursors after it. *)
Definition admit_inbound (s : BridgeState O) (m : WireBridgeMetadata) : Event + (N * N) :=
  let expected := sat64 (cursor s + 1) in
  if md_seq m <=? cursor s then inl (EDuplicate (md_seq m) (cursor s))
  else if expected <? md_seq m then inl (EOutOfOrder (md_seq m) expected)
  else if md_cursor m <? remote_cursor s then
    inl (EInvalid (o_session_id opts +:+ ": inbound cursor " +:+ u64_string (md_cursor m) +:+ " regressed below "
                     +:+ u64_string (remote_cursor s)))
  else inr (md_seq m, md_cursor m).

Definition process_envelope (envelope : WireBridgeEnvelope I) : MB (list Event) :=
  match validate_inbound_envelope envelope with
  | Err error => invalid (envelope_error_string error)
  | Ok _ =>
      if negb (bool_decide (session_id envelope = o_session_id opts)) then
        ret [ESessionMismatch (o_session_id opts) (session_id envelope)]
      else
        let! s := gets id in
        match admit_inbound s (metadata envelope) with
        | inl event => ret [event]
        | inr (seq, remote) =>
            modify (set_cursors seq remote) ;;;
            let! receipt := match envelope_type envelope with
              | TAck => process_ack envelope
              | TNack => process_nack envelope
              | _ => ret []
              end in
            ret (ECursor seq :: EInbound envelope :: receipt)
        end
  end.

Definition process_inbound (ingress : WireBridgeIngress I) : MB (list Event) :=
  match ingress with
  | IEnvelope envelope => process_envelope envelope
  | IInvalid error => invalid error
  end.

(** One run of the node.  DATA of another type than the dep should carry is
    [None]; a command comes with what the clock answers when it is processed. *)
Record BridgeBatch := mkBatch {
  b_inbound : list (option (WireBridgeIngress I));
  b_commands : list (option (WireBridgeCommand O) * N);
  b_inbound_terminal : option DepTerminal
}.

Definition terminal_error (t : DepTerminal) : string :=
  match t with
  | DepComplete => o_session_id opts +:+ ": inbound protocol COMPLETE is local misuse; remote completion must arrive as a DATA envelope fact"
  | DepError error => o_session_id opts +:+ ": inbound protocol ERROR " +:+ error +:+ " is local misuse; remote errors must arrive as DATA envelope facts"
  end.

Definition inbound_value (v : option (WireBridgeIngress I)) : MB (list Event) :=
  match v with
  | Some ingress => process_inbound ingress
  | None => invalid "wireBridge: inbound DATA must carry a wire bridge envelope"
  end.

Definition command_value (v : option (WireBridgeCommand O) * N) : MB (list Event) :=
  match v with
  | (Some c, now) => process_command c now
  | (None, _) => invalid "wireBridge: command DATA must carry a wire bridge command"
  end.

Definition events_node (b : BridgeBatch) : MB (list Event) :=
  modify install_cleanup ;;;
  let! inbound := run_each inbound_value (b_inbound b) in
  let! commands := run_each command_value (b_commands b) in
  ret (inbound ++ commands
         ++ match b_inbound_terminal b with Some t => [EInvalid (terminal_error t)] | None => [] end).
End Reducer.
Arguments mkBatch {O I} _ _ _.

(** ** Projections of the events *)

Inductive WireBridgeStatusState := Idle | Started | Open | Waiting | Closed | Errored | Exhausted.

Record WireBridgeStatus := mkStatus {
  st_session_id : string;
  st_state : WireBridgeStatusState;
  st_cursor : N;
  st_next_seq : N;
  st_pending : N;
  st_attempts : N;
  st_acked : N;
  st_nacked : N;
  st_errors : N;
  st_last_seq : option N;
  st_last_delay_ms : option N
}.

Record WireBridgeAck (I : Type) := mkAck { ack_for_seq : N; ack_envelope : WireBridgeEnvelope I }.
Arguments mkAck {I} _ _.
Record WireBridgeNack (I : Type) := mkNack { nack_for_seq : N; nack_envelope : WireBridgeEnvelope I; nack_error : string }.
Arguments mkNack {I} _ _ _.
Record WireBridgeAttempt := mkAttempt { at_seq : N; at_attempt : N; at_max_attempts : N }.

Section Projections.
Context {O I : Type}.
Abbreviation Event := (WireBridgeEvent O I).

Definition project_outbound (events : list Event) : list (WireBridgeEnvelope O) :=
  omap (λ e, match e with EOutbound envelope => Some envelope | _ => None end) events.

Definition project_acks (events : list Event) : list (WireBridgeAck I) :=
  omap (λ e, match e with EAck seq envelope _ => Some (mkAck seq envelope) | _ => None end) events.

Definition project_nacks (events : list Event) : list (WireBridgeNack I) :=
  omap (λ e, match e with ENack seq envelope _ error => Some (mkNack seq envelope error) | _ => None end) events.

Definition project_cursor (events : list Event) : list N :=
  omap (λ e, match e with ECursor cursor => Some cursor | _ => None end) events.

Definition project_attempts (events : list Event) : list WireBridgeAttempt :=
  omap (λ e, match e with
             | EOutbound envelope =>
                 let m := metadata envelope in
                 if should_track_ack (envelope_type envelope)
                 then Some (mkAttempt (md_seq m) (md_attempt m) (md_max_attempts m)) else None
             | _ => None
             end) events.

Definition receipt_debug (r : WireBridgeReceipt) : string := match r with ReceiptAck => "Ack" | ReceiptNack => "Nack" end.

Definition project_errors (name : string) (events : list Event) : list string :=
  omap (λ e, match e with
             | ENack _ _ _ error | EExhausted _ _ error | EInvalid error => Some error
             | EOutOfOrder seq expected =>
                 Some (name +:+ ": inbound seq " +:+ u64_string seq +:+ " arrived before expected seq " +:+ u64_string expected)
             | ESessionMismatch expected actual =>
                 Some (name +:+ ": inbound session " +:+ actual +:+ " did not match expected " +:+ expected)
             | ELateReceipt receipt seq =>
                 Some (name +:+ ": late " +:+ receipt_debug receipt +:+ " for unknown or completed ack_for_seq " +:+ u64_string seq)
             | EInbound envelope =>
                 if decide (envelope_type envelope = TError)
                 then Some (payload_error_string (payload envelope) "remote error envelope") else None
             | _ => None
             end) events.

Definition initial_status (session_id : string) : WireBridgeStatus :=
  mkStatus session_id Idle 0 1 0 0 0 0 0 None None.

(** The updates of a status; what a match arm leaves alone is kept. *)
Definition with_state st (c : WireBridgeStatus) := mkStatus (st_session_id c) st (st_cursor c) (st_next_seq c)
  (st_pending c) (st_attempts c) (st_acked c) (st_nacked c) (st_errors c) (st_last_seq c) (st_last_delay_ms c).
Definition with_cursor n (c : WireBridgeStatus) := mkStatus (st_session_id c) (st_state c) n (st_next_seq c)
  (st_pending c) (st_attempts c) (st_acked c) (st_nacked c) (st_errors c) (st_last_seq c) (st_last_delay_ms c).
Definition with_sent next pend att (c : WireBridgeStatus) := mkStatus (st_session_id c) (st_state c) (st_cursor c) next
  pend att (st_acked c) (st_nacked c) (st_errors c) (st_last_seq c) (st_last_delay_ms c).
Definition with_receipts pend ack nack err (c : WireBridgeStatus) := mkStatus (st_session_id c) (st_state c) (st_cursor c)
  (st_next_seq c) pend (st_attempts c) ack nack err (st_last_seq c) (st_last_delay_ms c).
Definition with_last_seq n (c : WireBridgeStatus) := mkStatus (st_session_id c) (st_state c) (st_cursor c) (st_next_seq c)
  (st_pending c) (st_attempts c) (st_acked c) (st_nacked c) (st_errors c) (Some n) (st_last_delay_ms c).
Definition with_last_delay n (c : WireBridgeStatus) := mkStatus (st_session_id c) (st_state c) (st_cursor c) (st_next_seq c)
  (st_pending c) (st_attempts c) (st_acked c) (st_nacked c) (st_errors c) (st_last_seq c) (Some n).
Definition one_error (c : WireBridgeStatus) : WireBridgeStatus :=
  with_receipts (st_pending c) (st_acked c) (st_nacked c) (sat64 (st_errors c + 1)) (with_state Errored c).

Definition reduce_status (c : WireBridgeStatus) (event : Event) : WireBridgeStatus :=
  match event with
  | EOutbound envelope =>
      let m := metadata envelope in
      let t := envelope_type envelope in
      let pend := if decide (t = TClose) then (if md_attempt m =? 1 then 1 else 0)
                  else if should_track_ack t && (md_attempt m =? 1) then sat64 (st_pending c + 1)
                  else st_pending c in
      let att := if should_track_ack t then sat64 (st_attempts c + 1) else st_attempts c in
      with_last_seq (md_seq m) $
        with_sent (N.max (st_next_seq c) (sat64 (md_seq m + 1))) pend att $
        with_state (match t with TStart => Started | TClose => Closed | _ => Open end) c
  | EAck _ envelope outbound =>
      with_last_seq (md_seq (metadata envelope)) $
        with_receipts (st_pending c - 1) (sat64 (st_acked c + 1)) (st_nacked c) (st_errors c) $
        with_state (if decide (envelope_type outbound = TClose) then Closed else Open) c
  | ENack _ envelope _ _ =>
      with_last_seq (md_seq (metadata envelope)) $
        with_receipts (st_pending c - 1) (st_acked c) (sat64 (st_nacked c + 1)) (sat64 (st_errors c + 1)) $
        with_state Errored c
  | ERetry seq _ delay_ms _ => with_last_delay delay_ms $ with_last_seq seq $ with_state Waiting c
  | EExhausted seq _ _ =>
      with_last_seq seq $
        with_receipts (st_pending c - 1) (st_acked c) (st_nacked c) (sat64 (st_errors c + 1)) $ with_state Exhausted c
  | ECursor cursor => with_cursor cursor c
  | EOutOfOrder seq _ => with_last_seq seq (one_error c)
  | ESessionMismatch _ _ | ELateReceipt _ _ | EInvalid _ => one_error c
  | EInbound envelope =>
      match envelope_type envelope with
      | TError => with_last_seq (md_seq (metadata envelope)) (one_error c)
      | TClose => with_last_seq (md_seq (metadata envelope)) (with_state Closed c)
      | _ => c
      end
  | ETimeout _ _ | EDuplicate _ _ => c
  end.

(** The status node: its state is the last status. *)
Definition project_status (session_id : string) (st : option WireBridgeStatus) (events : list Event) : WireBridgeStatus :=
  foldl reduce_status (default (initial_status session_id) st) events.
End Projections.

(** ** The ports *)

Section Ports.
Context {O I V : Type}.

(** What a DATA value of the inbound port is. *)
Inductive InboundValue :=
| AnEnvelope (envelope : WireBridgeEnvelope I)
| AnIngress (ingress : WireBridgeIngress I)
| AnotherValue.

Definition guard_msg (session_id : string) (downcast : V → InboundValue) (msg : Message V) : WireBridgeIngress I :=
  match msg with
  | Data value =>
      match downcast value with
      | AnEnvelope envelope => IEnvelope envelope
      | AnIngress ingress => ingress
      | AnotherValue => IInvalid "wireBridge: inbound DATA must carry a wire bridge envelope"
      end
  | Error error =>
      IInvalid (session_id +:+ ": inbound protocol ERROR " +:+ error +:+ " is local misuse; remote errors must arrive as DATA envelope facts")
  | Complete =>
      IInvalid (session_id +:+ ": inbound protocol COMPLETE is local misuse; remote completion must arrive as a DATA envelope fact")
  | other =>
      IInvalid (session_id +:+ ": inbound port accepts DATA envelope facts only; " +:+ kind_tag other +:+ " is local protocol traffic")
  end.

(** [down]: each message goes into the node as a wave of its own. *)
Definition inbound_down (session_id : string) (downcast : V → InboundValue) (msgs : list (Message V))
    : list (list (Message (WireBridgeIngress I))) :=
  (λ msg, [Data (guard_msg session_id downcast msg)]) <$> msgs.

(** The methods of the bundle: the command each sets. *)
Definition start : WireBridgeCommand O := CStart None None.
Definition send (value : O) (key request : option string) : WireBridgeCommand O := CSend value key request.
Definition ack (seq : N) (key request : option string) : WireBridgeCommand O := CAck seq key request.
Definition nack (seq : N) (error : string) (key request : option string) : WireBridgeCommand O := CNack seq error key request.
Definition close (reason key : option string) : WireBridgeCommand O := CClose reason key.
End Ports.

(** ** Sources of the command and the inbound node

    The node forwards what its sources emit; a change of the sources is a rewire
    of the node ([replace_deps]), which may panic, and then the old sources are
    wired again before the panic goes on. *)

Section Sources.
Context {W C : Type} (ptr_eq : C → C → bool) (replace_deps : list C → M W unit).

(** The sources and the rest of the world. *)
Abbreviation MS := (M (list C * W)).

Definition rewire_to (sources : list C) : MS unit := zoom snd (λ w p, (p.1, w)) (replace_deps sources).
Definition set_sources (sources : list C) : MS unit := modify (λ p, (sources, p.2)).

Definition or_back_to (previous : list C) (rewire : MS unit) : MS unit :=
  let! r := catch_unwind rewire in
  match r with
  | inl _ => ret tt
  | inr payload => set_sources previous ;;; rewire_to previous ;;; panic payload
  end.

Definition attach_source (source : C) : MS unit :=
  let! previous := gets fst in
  when (negb (existsb (λ candidate, ptr_eq candidate source) previous)) (set_sources (previous ++ [source])) ;;;
  let! sources := gets fst in
  or_back_to previous (rewire_to sources).

Definition detach_source (source : C) : MS unit :=
  let! previous := gets fst in
  if negb (existsb (λ candidate, ptr_eq candidate source) previous) then ret tt
  else
    let next := List.filter (λ candidate, negb (ptr_eq candidate source)) previous in
    set_sources next ;;;
    or_back_to previous (rewire_to next).
End Sources.
End Wire.
