(* ===== verification/BridgeFacts.v ===== *)
(** * The wire bridge: its session

    The events node refines a session machine ([bstep]): it sends the next
    envelope, reports a timeout, resends what is pending, gives up, or receives the
    next envelope, and never panics.  What the events of a session say follows by
    induction on its steps ([session]). *)

From Stdlib Require Import Ascii String.
From stdpp Require Import base option strings numbers gmap list.
From S2P Require Import Prelude Text Storage Protocol NodeState Resilience Bridge.
Import Wire.

Local Open Scope rx_scope.
Local Open Scope N_scope.

Section Session.
Context {O I : Type} `{!TupleText} (opts : WireBridgeOptions).
Abbreviation sid := (o_session_id opts).
Abbreviation policy := (o_retry opts).
Abbreviation Event := (WireBridgeEvent O I).
Abbreviation State := (BridgeState O).
Implicit Types s : State.
Implicit Types ev : list Event.

(** ** The session machine *)

(** What stays of an envelope when it is sent again. *)
Definition core {T} (e : WireBridgeEnvelope T) :=
  let m := metadata e in
  (session_id e, envelope_type e, payload e, md_seq m, (md_idempotency_key m, md_ack_for_seq m, md_request_id m)).

Definition seq_of {T} (e : WireBridgeEnvelope T) : N := md_seq (metadata e).
Definition attempt_of {T} (e : WireBridgeEnvelope T) : N := md_attempt (metadata e).

(** A valid envelope of this session. *)
Record envelope_ok {T} (e : WireBridgeEnvelope T) : Prop := {
  eo_session : session_id e = sid;
  eo_valid : validate_inbound_envelope e = Ok tt
}.

Definition resend {T} (cur now : N) (e : WireBridgeEnvelope T) : WireBridgeEnvelope T :=
  let m := metadata e in
  mkEnvelope (session_id e) (envelope_type e) (payload e)
    (mkMetadata (md_seq m) cur (md_idempotency_key m) (md_attempt m + 1) (max_attempts policy) (Some now)
       (md_ack_for_seq m) (md_request_id m)).

(** Events that neither send nor receive nor settle anything. *)
Definition quiet (e : Event) : bool :=
  match e with
  | EOutbound _ | EInbound _ | EAck _ _ _ | ENack _ _ _ _ | EExhausted _ _ _ | ECursor _ => false
  | _ => true
  end.

(** The next envelope of the other side. *)
Record accepts s (e : WireBridgeEnvelope I) : Prop := {
  ac_ok : envelope_ok e;
  ac_next : seq_of e = cursor s + 1;
  ac_bound : cursor s < u64_max;
  ac_cursor : remote_cursor s ≤ md_cursor (metadata e)
}.

Definition received s (e : WireBridgeEnvelope I) : State := set_cursors (seq_of e) (md_cursor (metadata e)) s.

Inductive bstep s : list Event → State → Prop :=
| step_run : bstep s [] (install_cleanup s)
| step_quiet ev : forallb quiet ev = true → bstep s ev s
| step_send e :
    envelope_ok e → seq_of e = next_seq s → attempt_of e = 1 → md_max_attempts (metadata e) = max_attempts policy →
    md_cursor (metadata e) = cursor s → next_seq s < u64_max →
    bstep s [EOutbound e]
      (set_pending (λ m, let m := if decide (envelope_type e = TClose) then ∅ else m in
                         if should_track_ack (envelope_type e) then <[seq_of e := mkPending e None None]> m else m)
         (set_next_seq (next_seq s + 1) s))
| step_wait k p delay observed ev :
    pending s !! k = Some p → should_retry policy (attempt_of (pe_envelope p)) = true → forallb quiet ev = true →
    bstep s ev (set_pending <[k := report_timeout (attempt_of (pe_envelope p)) delay observed p]> s)
| step_resend k p now ev :
    pending s !! k = Some p → should_retry policy (attempt_of (pe_envelope p)) = true → forallb quiet ev = true →
    let e := resend (cursor s) now (pe_envelope p) in
    bstep s (ev ++ [EOutbound e]) (set_pending <[k := mkPending e None None]> s)
| step_exhaust k p error :
    pending s !! k = Some p → should_retry policy (attempt_of (pe_envelope p)) = false →
    let a := attempt_of (pe_envelope p) in
    bstep s [ETimeout k a; EExhausted k a error] (set_pending (delete k) s)
| step_receive e :
    accepts s e → is_receipt (envelope_type e) = false →
    bstep s [ECursor (seq_of e); EInbound e] (received s e)
| step_settle e k last :
    accepts s e → is_receipt (envelope_type e) = true → md_ack_for_seq (metadata e) = Some k →
    match pending s !! k with
    | Some p => last = EAck k e (pe_envelope p) ∧ envelope_type e = TAck
                ∨ (∃ error, last = ENack k e (pe_envelope p) error ∧ envelope_type e = TNack)
    | None => quiet last = true
    end →
    bstep s [ECursor (seq_of e); EInbound e; last]
      (set_pending (delete k) (received s e)).

(** A session: the events of its steps, and its state. *)
Inductive session : list Event → State → Prop :=
| session_new : session [] bridge_state
| session_step ev s e s' : session ev s → bstep s e s' → session (ev ++ e) s'.

(** ** Well-formed states *)

Record pending_ok (n k : N) (p : PendingEnvelope O) : Prop := {
  po_envelope : envelope_ok (pe_envelope p);
  po_seq : seq_of (pe_envelope p) = k;
  po_sent : k < n;
  po_tracked : should_track_ack (envelope_type (pe_envelope p)) = true;
  po_max : md_max_attempts (metadata (pe_envelope p)) = max_attempts policy;
  po_reported a : timeout_reported_attempt p = Some a → a = attempt_of (pe_envelope p) ∧ should_retry policy a = true;
  po_due : timeout_reported_attempt p = None → retry_due_at_ms p = None
}.

Record bridge_ok s : Prop := {
  bo_next : 1 ≤ next_seq s ≤ u64_max;
  bo_cursor : cursor s ≤ u64_max;
  bo_pending k p : pending s !! k = Some p → pending_ok (next_seq s) k p
}.

Lemma bridge_new_ok : bridge_ok bridge_state.
Proof. split; simpl; [unfold u64_max; lia|unfold u64_max; lia|]. intros k p. by rewrite lookup_empty. Qed.

Lemma checks_ok {A} checks (k : unit → Result WireBridgeEnvelopeError A) a :
  rbind (first_error checks) k = Ok a ↔ Forall (λ c, c.1 = false) checks ∧ k tt = Ok a.
Proof.
  induction checks as [|[[] e] checks IH]; simpl.
  - rewrite Forall_nil. naive_solver.
  - rewrite Forall_cons. simpl. naive_solver.
  - rewrite IH, Forall_cons. simpl. naive_solver.
Qed.

Lemma receipt_check t (ack : option N) :
  is_receipt t && bool_decide (ack = None) = false ↔ (is_receipt t = true → ack ≠ None).
Proof. destruct (is_receipt t); simpl; [|done]. rewrite bool_decide_eq_false. naive_solver. Qed.

(** The two validators ask for the same. *)
Record valid_parts {T} (session : string) (t : WireBridgeEnvelopeType) (p : option (WireBridgePayload T))
    (seq attempt max : N) (ack : option N) (key : string) : Prop := {
  vp_session : session ≠ ""%string;
  vp_seq : seq ≠ 0;
  vp_attempt : attempt ≠ 0;
  vp_max : attempt ≤ max;
  vp_receipt : is_receipt t = true → ack ≠ None;
  vp_ack : ack ≠ Some 0;
  vp_payload : validate_payload_for_type t p = Ok tt;
  vp_key : key ≠ ""%string
}.

Lemma valid_inbound {T} (e : WireBridgeEnvelope T) :
  validate_inbound_envelope e = Ok tt ↔
  valid_parts (session_id e) (envelope_type e) (payload e) (seq_of e) (attempt_of e) (md_max_attempts (metadata e))
    (md_ack_for_seq (metadata e)) (md_idempotency_key (metadata e)).
Proof.
  unfold validate_inbound_envelope, seq_of, attempt_of, empty.
  rewrite checks_ok, !Forall_cons, Forall_nil. simpl. rewrite receipt_check, !bool_decide_eq_false, !N.eqb_neq, N.ltb_ge.
  split; [intros ((? & ? & ? & ? & ? & ? & ? & _) & ?); by split|]. intros []. by split_and!.
Qed.

Lemma valid_envelope (i : WireBridgeEnvelopeInput O) e :
  wire_bridge_envelope i = Ok e ↔
  let key := default (wire_bridge_idempotency_key (in_session_id i) (in_seq i)) (in_idempotency_key i) in
  valid_parts (in_session_id i) (in_envelope_type i) (in_payload i) (in_seq i) (in_attempt i) (in_max_attempts i)
    (in_ack_for_seq i) key
  ∧ e = mkEnvelope (in_session_id i) (in_envelope_type i) (in_payload i)
      (mkMetadata (in_seq i) (in_cursor i) key (in_attempt i) (in_max_attempts i) (in_timestamp_ms i)
         (in_ack_for_seq i) (in_request_id i)).
Proof.
  unfold wire_bridge_envelope. set (key := default _ _). unfold empty.
  rewrite checks_ok, !Forall_cons, Forall_nil. simpl. rewrite receipt_check, !bool_decide_eq_false, !N.eqb_neq, N.ltb_ge.
  destruct (validate_payload_for_type _ _) as [[]|err] eqn:Hp; simpl; [|split; [by intros [_ ?]|intros [[] _]; congruence]].
  case_bool_decide as Hk; [split; [by intros [_ ?]|by intros [[] _]]|]. split.
  - intros ((? & ? & ? & ? & ? & ? & _) & [= <-]). split; [|done]. by split.
  - intros [[] ->]. by split_and!.
Qed.

Lemma envelope_not_refused (i : WireBridgeEnvelopeInput O) err :
  valid_parts (in_session_id i) (in_envelope_type i) (in_payload i) (in_seq i) (in_attempt i) (in_max_attempts i)
    (in_ack_for_seq i) (default (wire_bridge_idempotency_key (in_session_id i) (in_seq i)) (in_idempotency_key i)) →
  wire_bridge_envelope i ≠ Err err.
Proof. intros Hv He. pose proof (proj2 (valid_envelope i _) (conj Hv eq_refl)) as Hok. congruence. Qed.

(** ** The node refines the machine *)

Definition step_ok s (e : list Event) s' : Prop := bstep s e s' ∧ bridge_ok s'.

Lemma pending_more n k p : pending_ok n k p → pending_ok (n + 1) k p.
Proof. intros []. split; try done. lia. Qed.

(** A step of the machine keeps the state well formed. *)
Lemma bstep_ok s e s' : bridge_ok s → bstep s e s' → bridge_ok s'.
Proof.
  intros Hb Hs. pose proof (bo_next _ Hb) as Hn. pose proof (bo_cursor _ Hb) as Hc.
  destruct Hs as [|ev Hq|e He Hseq Ha Hm Hcur Hlt|k p delay observed ev Hp Hr Hq|k p now ev Hp Hr Hq e|k p error Hp Hr a|
                  e He Hnr|e k last He Hr Hack Hlast].
  - by destruct Hb.
  - done.
  - split; simpl; [lia|done|]. intros k p Hk.
    assert (∀ m, m = ∅ ∨ m = pending s → m !! k = Some p → pending_ok (next_seq s + 1) k p) as Hold.
    { intros m [-> | ->] Hm'; [by rewrite lookup_empty in Hm'|]. apply pending_more. by apply Hb. }
    assert ((if decide (envelope_type e = TClose) then ∅ else pending s) = ∅
            ∨ (if decide (envelope_type e = TClose) then ∅ else pending s) = pending s) as Hcase by (case_decide; auto).
    destruct (should_track_ack (envelope_type e)) eqn:Ht; [|by eapply Hold].
    apply lookup_insert_Some in Hk as [[<- <-]|[_ Hk]]; [|by eapply Hold].
    split; simpl; try done. lia.
  - split; simpl; [done..|]. intros k' p' Hk.
    apply lookup_insert_Some in Hk as [[<- <-]|[_ Hk]]; [|by apply Hb].
    destruct (bo_pending _ Hb _ _ Hp). split; simpl; try done. by intros a [= <-].
  - split; simpl; [done..|]. intros k' p' Hk.
    apply lookup_insert_Some in Hk as [[<- <-]|[_ Hk]]; [|by apply Hb].
    destruct (bo_pending _ Hb _ _ Hp) as [[Hses Hval] Hsq Hsent Htr Hmax Hrep]. split; simpl; try done. split; [done|].
    apply valid_inbound in Hval as []. apply valid_inbound. unfold resend, seq_of, attempt_of in *. simpl. split; try done.
    + lia.
    + unfold should_retry in Hr. apply N.ltb_lt in Hr. lia.
  - split; simpl; [done..|]. intros k' p' Hk. apply lookup_delete_Some in Hk as [_ Hk]. by apply Hb.
  - destruct He. split; simpl; [done|lia|by apply Hb].
  - destruct He. split; simpl; [done|lia|]. intros k' p' Hk. apply lookup_delete_Some in Hk as [_ Hk]. by apply Hb.
Qed.

(** Each operation of the node returns, by a step of the machine. *)
Definition refines (op : M State (list Event)) s : Prop := total op s (bstep s).

Lemma quiet_refines s ev : forallb quiet ev = true → refines (ret ev) s.
Proof. intros Hq. by apply step_quiet. Qed.

Lemma invalid_refines s error : refines (invalid error) s.
Proof. by apply quiet_refines. Qed.

Lemma send_refines s spec now :
  bridge_ok s → sp_ack_for_seq spec ≠ Some 0 →
  sp_track_ack spec = should_track_ack (sp_envelope_type spec) →
  sp_clear_pending_first spec = bool_decide (sp_envelope_type spec = TClose) →
  refines (emit_outbound opts spec now) s.
Proof.
  intros Hb Hack Htr Hcl. unfold refines, emit_outbound. eapply total_step; [done|]. unfold id.
  destruct (N.eqb_spec (next_seq s) u64_max) as [|Hne]; [apply invalid_refines|].
  pose proof (bo_next _ Hb) as Hn.
  destruct (wire_bridge_envelope _) as [e|err] eqn:He; [|apply invalid_refines].
  apply valid_envelope in He as [Hv He]. simpl in *. set (key := default _ _) in *.
  assert (envelope_ok e) as Hok. { split; [by subst e|]. apply valid_inbound. by subst e. }
  assert (md_seq (metadata e) = next_seq s ∧ attempt_of e = 1 ∧ md_max_attempts (metadata e) = max_attempts policy
          ∧ md_cursor (metadata e) = cursor s ∧ envelope_type e = sp_envelope_type spec) as (Hs & Ha & Hm & Hc & Hty)
    by (by subst e).
  clearbody key. clear He Hv. rewrite Htr, Hcl, <- Hty.
  pose proof (step_send s e Hok Hs Ha Hm Hc ltac:(lia)) as Hstep. revert Hstep. unfold seq_of.
  unfold total, bind, when, modify, ret. destruct (envelope_type e); exact id.
Qed.

Lemma alter_insert_known {A} (f : A → A) (m : gmap N A) k x : m !! k = Some x → alter f k m = <[k := f x]> m.
Proof.
  intros Hk. apply map_eq. intros j. destruct (decide (j = k)) as [->|].
  - by rewrite lookup_insert_eq, lookup_alter_eq, Hk.
  - by rewrite lookup_insert_ne, lookup_alter_ne.
Qed.

Lemma resend_run s k p now :
  bridge_ok s → max_attempts policy ≤ u32_max → pending s !! k = Some p →
  should_retry policy (attempt_of (pe_envelope p)) = true →
  let e := resend (cursor s) now (pe_envelope p) in
  emit_retry_outbound (I := I) opts now (pe_envelope p) s = Ret [EOutbound e] (set_pending <[k := mkPending e None None]> s).
Proof.
  intros Hb Hmax Hp Hr. destruct (bo_pending _ Hb _ _ Hp) as [[Hses Hval] Hsq _ _ _ _].
  apply N.ltb_lt in Hr. unfold attempt_of, seq_of in *.
  unfold emit_retry_outbound, bind at 1, gets, id. destruct (wire_bridge_envelope _) as [e|err] eqn:He.
  - apply valid_envelope in He as [_ ->]. simpl. unfold bind, ret at 1, modify. rewrite Hsq.
    unfold set_pending, resend, sat32. rewrite (alter_insert_known _ _ _ _ Hp), N.min_l by lia. by rewrite Hsq.
  - exfalso. revert He. apply valid_inbound in Hval as []. apply envelope_not_refused. simpl.
    unfold seq_of, attempt_of, sat32 in *. rewrite N.min_l by lia. split; try done; lia.
Qed.

Lemma first_timeout_refines s seq observed now p :
  bridge_ok s → max_attempts policy ≤ u32_max → pending s !! seq = Some p →
  refines (first_timeout opts seq (attempt_of (pe_envelope p)) observed now (pe_envelope p)) s.
Proof.
  intros Hb Hmax Hp. set (a := attempt_of _). unfold refines, first_timeout.
  destruct (should_retry policy a) eqn:Hr; simpl.
  2: { by apply (step_exhaust s seq p). }
  eapply total_step; [done|]. set (delay := default 0 _). set (p' := report_timeout a delay observed p).
  unfold set_pending at 1. rewrite (alter_insert_known _ _ _ _ Hp). fold p'.
  set (s1 := mkBridge _ _ _ _ _ _).
  assert (∀ ev, forallb quiet ev = true → bstep s ev s1) as Hwait by (intros ev Hq; by apply step_wait).
  pose proof (bstep_ok _ _ _ Hb (Hwait [] eq_refl)) as Hb1.
  eapply total_step; [done|]. assert (pending s1 !! seq = Some p') as Hp1 by apply lookup_insert_eq. rewrite Hp1. simpl.
  destruct (if 0 <? delay then _ else _) as [due|] eqn:Hdue.
  - apply total_ret. by apply Hwait.
  - eapply total_step; [by apply (resend_run s1 seq p')|]. apply total_ret.
    replace (set_pending _ s1) with (set_pending <[seq := mkPending (resend (cursor s) now (pe_envelope p)) None None]> s)
      by (unfold s1, set_pending; simpl; by rewrite insert_insert_eq).
    by refine (step_resend s seq p now [_; _] Hp Hr _).
Qed.

Lemma timeout_refines s seq attempt observed now :
  bridge_ok s → max_attempts policy ≤ u32_max → refines (process_ack_timeout_command opts seq attempt observed now) s.
Proof.
  intros Hb Hmax. unfold process_ack_timeout_command. destruct (seq =? 0); [apply invalid_refines|].
  destruct (attempt =? 0); [apply invalid_refines|]. eapply total_step; [done|].
  destruct (pending s !! seq) as [p|] eqn:Hp; [|by apply quiet_refines].
  destruct (N.eqb_spec (md_attempt (metadata (pe_envelope p))) attempt) as [<-|]; simpl; [|by apply quiet_refines].
  unfold retry_due. case_decide as Hrep; [|by apply first_timeout_refines].
  assert (should_retry policy (attempt_of (pe_envelope p)) = true) as Hr by (by destruct (po_reported _ _ _ (bo_pending _ Hb _ _ Hp) _ Hrep)).
  destruct (match retry_due_at_ms p with Some due => _ | None => _ end) as [b|] eqn:Hdue; [|by apply quiet_refines].
  assert (b = true) as ->. { repeat case_match; congruence. }
  unfold total. rewrite (resend_run s seq p) by done. by apply (step_resend s seq p now []).
Qed.

Lemma command_refines s c now :
  bridge_ok s → max_attempts policy ≤ u32_max → refines (command_value opts (c, now)) s.
Proof.
  intros Hb Hmax. destruct c as [c|]; [|apply invalid_refines].
  destruct c; simpl; try (by apply send_refines); try (by apply timeout_refines).
  - destruct (N.eqb_spec ack_for_seq0 0); [apply invalid_refines|]. apply send_refines; try done. simpl. congruence.
  - destruct (N.eqb_spec ack_for_seq0 0); [apply invalid_refines|]. apply send_refines; try done. simpl. congruence.
Qed.

Lemma inbound_refines s v : bridge_ok s → refines (inbound_value opts v) s.
Proof.
  intros Hb. destruct v as [[e|error]|]; [|apply invalid_refines..]. simpl. unfold process_envelope.
  destruct (validate_inbound_envelope e) as [[]|err] eqn:Hv; [|apply invalid_refines].
  case_bool_decide as Hsid; simpl; [|by apply quiet_refines].
  eapply total_step; [done|]. unfold admit_inbound, id.
  destruct (N.leb_spec (md_seq (metadata e)) (cursor s)); [by apply quiet_refines|].
  destruct (N.ltb_spec (sat64 (cursor s + 1)) (md_seq (metadata e))); [by apply quiet_refines|].
  destruct (N.ltb_spec (md_cursor (metadata e)) (remote_cursor s)); [by apply quiet_refines|].
  assert (accepts s e) as Hacc. { unfold sat64 in *. pose proof (bo_cursor _ Hb). split; [done|unfold seq_of; lia|lia|done]. }
  assert (is_receipt (envelope_type e) = true → ∃ k, md_ack_for_seq (metadata e) = Some k) as Hk.
  { intros Hr. apply valid_inbound in Hv as [_ _ _ _ Hk _ _ _]. destruct (md_ack_for_seq (metadata e)); [by eexists|by destruct (Hk Hr)]. }
  eapply total_step; [done|]. fold (received s e).
  destruct (envelope_type e) eqn:Ht; try (eapply total_step; [done|]; apply total_ret, step_receive; [done|by rewrite Ht]).
  - destruct (Hk eq_refl) as [k Hack]. unfold process_ack. rewrite Hack. apply total_bind. do 3 (eapply total_step; [done|]).
    do 2 apply total_ret. eapply step_settle; [done|by rewrite Ht|done|]. simpl. destruct (pending s !! k); [by left|done].
  - destruct (Hk eq_refl) as [k Hack]. unfold process_nack. rewrite Hack. apply total_bind. do 3 (eapply total_step; [done|]).
    do 2 apply total_ret. eapply step_settle; [done|by rewrite Ht|done|]. simpl. destruct (pending s !! k); [right; by eexists|done].
Qed.

(** *** Runs *)

(** A property of the events so far and the state that every step of the machine
    keeps is kept by every operation of the node. *)
Section Kept.
Context (P : list Event → State → Prop).
Context (HP : ∀ ev s e s', bridge_ok s → P ev s → bstep s e s' → P (ev ++ e) s').

Definition holds ev s : Prop := P ev s ∧ bridge_ok s.

Lemma holds_step ev s e s' : holds ev s → bstep s e s' → holds (ev ++ e) s'.
Proof. intros [Hs Hb] Hstep. split; [by eapply HP|by eapply bstep_ok]. Qed.

Definition keeps (op : M State (list Event)) : Prop := ∀ ev s, holds ev s → total op s (λ e s', holds (ev ++ e) s').

Lemma refines_keeps op : (∀ s, bridge_ok s → refines op s) → keeps op.
Proof.
  intros Hop ev s Hs. eapply total_conseq; [apply Hop, Hs|]. intros e s' Hstep. by apply (holds_step ev s).
Qed.

Lemma run_each_keeps {A} (f : A → M State (list Event)) l : (∀ a, keeps (f a)) → keeps (run_each f l).
Proof.
  intros Hf ev s Hs. unfold run_each.
  cut (∀ acc, holds (ev ++ acc) s →
         total (fold_each l (λ events a, let! e := f a in ret (events ++ e)) acc) s (λ e s', holds (ev ++ e) s')).
  { intros Hc. apply Hc. by rewrite app_nil_r. }
  clear Hs. revert s. induction l as [|a l IH]; intros s acc Hs; [done|]. cbn [fold_each].
  apply total_bind, total_bind. eapply total_conseq; [by apply Hf|]. intros e s' Hs'. apply total_ret.
  apply IH. by rewrite (assoc_L (++)).
Qed.

Lemma node_keeps b : max_attempts policy ≤ u32_max → keeps (events_node opts b).
Proof.
  intros Hmax ev s Hs. unfold events_node. eapply total_step; [done|].
  assert (holds ev (install_cleanup s)) as Hs1.
  { rewrite <- (app_nil_r ev). apply (holds_step ev s); [done|constructor]. }
  apply total_bind. eapply total_conseq; [apply run_each_keeps, Hs1; intros v; apply refines_keeps; intros; by apply inbound_refines|].
  intros e1 s2 Hs2. simpl. apply total_bind.
  eapply total_conseq; [apply run_each_keeps, Hs2; intros []; apply refines_keeps; intros; by apply command_refines|].
  intros e2 s3 Hs3. simpl. apply total_ret. rewrite !(assoc_L (++)). apply (holds_step _ s3); [done|].
  apply step_quiet. by destruct (b_inbound_terminal b).
Qed.
End Kept.

Definition in_session : list Event → State → Prop := holds session.

Lemma session_kept ev s e s' : bridge_ok s → session ev s → bstep s e s' → session (ev ++ e) s'.
Proof. intros _ Hs Hstep. by eapply session_step. Qed.

Lemma node_continues b : max_attempts policy ≤ u32_max → keeps session (events_node opts b).
Proof. apply node_keeps, session_kept. Qed.

Lemma nodes_continue bs : max_attempts policy ≤ u32_max → keeps session (run_each (events_node opts) bs).
Proof. intros Hmax. apply run_each_keeps. intros b. by apply node_continues. Qed.

(** ** What the events say *)

Definition inb ev : list (WireBridgeEnvelope I) := omap (λ e, match e with EInbound e => Some e | _ => None end) ev.
Definition outb ev : list (WireBridgeEnvelope O) := project_outbound ev.
(** The envelopes sent for the first time. *)
Definition firsts ev : list (WireBridgeEnvelope O) := List.filter (λ e, attempt_of e =? 1) (outb ev).

Definition outcome (e : Event) : option N :=
  match e with EAck k _ _ | ENack k _ _ _ | EExhausted k _ _ => Some k | _ => None end.

Lemma outb_app ev ev' : outb (ev ++ ev') = outb ev ++ outb ev'.
Proof. apply omap_app. Qed.
Lemma inb_app ev ev' : inb (ev ++ ev') = inb ev ++ inb ev'.
Proof. apply omap_app. Qed.
Lemma firsts_app ev ev' : firsts (ev ++ ev') = firsts ev ++ firsts ev'.
Proof. unfold firsts. by rewrite outb_app, List.filter_app. Qed.

Lemma quiet_none ev : forallb quiet ev = true → outb ev = [] ∧ inb ev = [] ∧ project_cursor ev = [] ∧ omap outcome ev = [].
Proof.
  induction ev as [|e ev IH]; [done|]. simpl. intros [Hq Hqs]%andb_true_iff. destruct (IH Hqs) as (Ho & Hi & Hc & Hn).
  destruct e; try done; exact (conj Ho (conj Hi (conj Hc Hn))).
Qed.

(** The receiving side. *)
Record received_ok ev s : Prop := {
  ro_length : N.of_nat (length (inb ev)) = cursor s;
  ro_numbered i e : inb ev !! i = Some e → envelope_ok e ∧ seq_of e = N.of_nat i + 1;
  ro_cursor : project_cursor ev = seq_of <$> inb ev;
  ro_remote : remote_cursor s = 0 ∨ ∃ e, e ∈ inb ev ∧ md_cursor (metadata e) = remote_cursor s
}.

Lemma received_same ev e s s' :
  inb e = [] → project_cursor e = [] → cursor s' = cursor s → remote_cursor s' = remote_cursor s →
  received_ok ev s → received_ok (ev ++ e) s'.
Proof.
  intros Hi Hc Hcur Hrem [Hl Hn Hp Hr].
  split; rewrite ?inb_app, ?Hi, ?app_nil_r, ?Hcur, ?Hrem; try done.
  unfold project_cursor in *. by rewrite omap_app, Hc, app_nil_r.
Qed.

Lemma received_next ev e s e' s' :
  inb e' = [e] → project_cursor e' = [seq_of e] → accepts s e → cursor s' = seq_of e →
  remote_cursor s' = md_cursor (metadata e) → received_ok ev s → received_ok (ev ++ e') s'.
Proof.
  intros Hi Hc [Hok Hseq Hb Hle] Hcur Hrem [Hl Hn Hp Hr].
  split; rewrite ?inb_app, ?Hi.
  - rewrite length_app. simpl. lia.
  - intros i e0 [Hlt|[Hge Hl0]]%lookup_app_Some; [by apply Hn|].
    destruct (i - length (inb ev))%nat eqn:Hd; [|done]. injection Hl0 as <-. split; [done|]. lia.
  - unfold project_cursor in *. by rewrite omap_app, Hc, Hp, fmap_app.
  - right. exists e. split; [|done]. apply elem_of_app. right. by left.
Qed.

Lemma session_received ev s : session ev s → received_ok ev s.
Proof.
  induction 1 as [|ev s e s' Hs IH Hstep].
  { split; simpl; try done. by left. }
  destruct Hstep as [|ev' Hq|e He Hseq Ha Hm Hcur Hlt|k p delay observed ev' Hp Hr Hq|k p now ev' Hp Hr Hq e|k p error Hp Hr a|
                  e He Hnr|e k last He Hr Hack Hlast];
    try (destruct (quiet_none _ Hq) as (Hqo & Hqi & Hqc & Hqn)).
  - by apply (received_same ev _ s).
  - by apply (received_same ev _ s).
  - by apply (received_same ev _ s).
  - by apply (received_same ev _ s).
  - apply (received_same ev _ s); try done; [by rewrite inb_app, Hqi|].
    unfold project_cursor in *. by rewrite omap_app, Hqc.
  - by apply (received_same ev _ s).
  - by apply (received_next ev e s).
  - assert (inb [last] = [] ∧ project_cursor [last] = []) as [Hi Hc].
    { destruct (pending s !! k); [by destruct Hlast as [[-> _]|[? [-> _]]]|].
      destruct (quiet_none [last]) as (? & ? & ? & ?); [simpl; by rewrite Hlast|done]. }
    apply (received_next ev e s); try done.
    + change (inb ([ECursor (seq_of e); EInbound e] ++ [last]) = [e]). by rewrite inb_app, Hi.
    + change (project_cursor ([ECursor (seq_of e); EInbound e] ++ [last]) = [seq_of e]).
      unfold project_cursor in *. by rewrite omap_app, Hc.
Qed.

(** The sending side. *)
Definition send_key (e : WireBridgeEnvelope O) : N * N := (seq_of e, attempt_of e).

Record sent_ok ev s : Prop := {
  so_length : N.of_nat (length (firsts ev)) + 1 = next_seq s;
  so_numbered i e : firsts ev !! i = Some e → seq_of e = N.of_nat i + 1;
  so_copy e : e ∈ outb ev → envelope_ok e ∧ md_cursor (metadata e) ≤ cursor s ∧ attempt_of e ≤ max_attempts policy
              ∧ ∃ f, f ∈ firsts ev ∧ core f = core e;
  so_chain e : e ∈ outb ev → attempt_of e ≠ 1 → ∃ e', e' ∈ outb ev ∧ core e' = core e ∧ attempt_of e' + 1 = attempt_of e;
  so_pending k p : pending s !! k = Some p → pe_envelope p ∈ outb ev ∧ seq_of (pe_envelope p) = k
                   ∧ ∀ e, e ∈ outb ev → seq_of e = k → attempt_of e ≤ attempt_of (pe_envelope p);
  so_once : NoDup (send_key <$> outb ev)
}.

Lemma firsts_elem ev e : e ∈ firsts ev ↔ e ∈ outb ev ∧ attempt_of e = 1.
Proof. unfold firsts. rewrite <- N.eqb_eq, !list_elem_of_In. apply filter_In. Qed.

Lemma core_seq {T} (e f : WireBridgeEnvelope T) : core e = core f → seq_of e = seq_of f.
Proof. by intros [= _ _ _ ? _ _ _]. Qed.

Lemma sent_range ev s e : sent_ok ev s → e ∈ outb ev → seq_of e < next_seq s.
Proof.
  intros Hs He. destruct (so_copy _ _ Hs _ He) as (_ & _ & _ & f & Hf & Hc). rewrite <- (core_seq _ _ Hc).
  apply list_elem_of_lookup_1 in Hf as [i Hi]. rewrite (so_numbered _ _ Hs _ _ Hi).
  apply lookup_lt_Some in Hi. pose proof (so_length _ _ Hs). lia.
Qed.

(** Nothing is sent. *)
Lemma sent_same ev e s s' :
  outb e = [] → next_seq s' = next_seq s → cursor s ≤ cursor s' →
  (∀ k p, pending s' !! k = Some p → ∃ p', pending s !! k = Some p' ∧ pe_envelope p' = pe_envelope p) →
  sent_ok ev s → sent_ok (ev ++ e) s'.
Proof.
  intros Ho Hn Hc Hp [Hl Hnum Hcopy Hch Hpend Honce].
  assert (outb (ev ++ e) = outb ev) as He by (by rewrite outb_app, Ho, app_nil_r).
  assert (firsts (ev ++ e) = firsts ev) as Hf by (unfold firsts; by rewrite He).
  split; rewrite ?Hf, ?He, ?Hn; try done.
  - intros e' Hin. destruct (Hcopy e' Hin) as (? & ? & ? & ?). split_and!; try done. lia.
  - intros k p Hk. destruct (Hp _ _ Hk) as (p' & Hk' & <-). by apply Hpend.
Qed.

Lemma sent_first ev s e s' :
  envelope_ok e → seq_of e = next_seq s → attempt_of e = 1 → md_max_attempts (metadata e) = max_attempts policy →
  md_cursor (metadata e) = cursor s → next_seq s' = next_seq s + 1 → cursor s' = cursor s →
  (∀ k p, pending s' !! k = Some p → pending s !! k = Some p ∨ k = seq_of e ∧ pe_envelope p = e) →
  sent_ok ev s → sent_ok (ev ++ [EOutbound e]) s'.
Proof.
  intros He Hseq Ha Hm Hcur Hn Hc Hp Hsent. pose proof Hsent as [Hl Hnum Hcopy Hch Hpend Honce].
  assert (outb (ev ++ [EOutbound e]) = outb ev ++ [e]) as Ho by apply outb_app.
  assert (firsts (ev ++ [EOutbound e]) = firsts ev ++ [e]) as Hf.
  { rewrite firsts_app. unfold firsts at 2. simpl. by rewrite Ha. }
  assert (∀ e', e' ∈ outb ev → seq_of e' < next_seq s) as Hrange by (intros e'; by apply sent_range).
  split; rewrite ?Hf, ?Ho, ?Hn.
  - rewrite length_app. simpl. lia.
  - intros i e' [Hlt|[Hge Hl0]]%lookup_app_Some; [by apply Hnum|].
    destruct (i - length (firsts ev))%nat eqn:Hd; [|done]. injection Hl0 as <-. lia.
  - intros e' [Hin| ->%list_elem_of_singleton]%elem_of_app.
    + destruct (Hcopy e' Hin) as (? & ? & ? & f & ? & ?). split_and!; try done; [lia|]. exists f.
      split; [apply elem_of_app; by left|done].
    + destruct He as [Hses Hv]. pose proof Hv as []%valid_inbound. split_and!; [done|lia|lia|].
      exists e. split; [apply elem_of_app; right; by left|done].
  - intros e' [Hin| ->%list_elem_of_singleton]%elem_of_app Hne; [|done].
    destruct (Hch e' Hin Hne) as (e0 & ? & ? & ?). exists e0. split; [apply elem_of_app; by left|done].
  - intros k p Hk. destruct (Hp _ _ Hk) as [Hk'|[-> ->]].
    + destruct (Hpend _ _ Hk') as (Hin & Hs & Hmax). split_and!; [apply elem_of_app; by left|done|].
      intros e' [Hin'| ->%list_elem_of_singleton]%elem_of_app Hs'; [by apply Hmax|]. pose proof (Hrange _ Hin). lia.
    + split_and!; [apply elem_of_app; right; by left|done|].
      intros e' [Hin'| ->%list_elem_of_singleton]%elem_of_app Hs'; [|lia]. pose proof (Hrange _ Hin'). lia.
  - rewrite fmap_app. apply NoDup_app. split_and!; [done| |by apply NoDup_singleton].
    intros x (e' & -> & Hin)%list_elem_of_fmap Hx%list_elem_of_singleton. injection Hx as Hs' _.
    pose proof (Hrange _ Hin). lia.
Qed.

Lemma sent_again ev s k p now e' s' :
  pending s !! k = Some p → should_retry policy (attempt_of (pe_envelope p)) = true →
  let e := resend (cursor s) now (pe_envelope p) in
  envelope_ok e → outb e' = [e] → next_seq s' = next_seq s → cursor s' = cursor s →
  (∀ j q, pending s' !! j = Some q → j ≠ k ∧ pending s !! j = Some q ∨ j = k ∧ pe_envelope q = e) →
  sent_ok ev s → sent_ok (ev ++ e') s'.
Proof.
  intros Hk Hr e He Hoe Hn Hc Hp [Hl Hnum Hcopy Hch Hpend Honce].
  destruct (Hpend _ _ Hk) as (Hin & Hs & Hmax). apply N.ltb_lt in Hr.
  assert (outb (ev ++ e') = outb ev ++ [e]) as Ho by (by rewrite outb_app, Hoe).
  assert (attempt_of e = attempt_of (pe_envelope p) + 1) as Ha by done.
  destruct (Hcopy _ Hin) as ([_ Hv] & Hcur & Hamax & f & Hf & Hcf). pose proof Hv as []%valid_inbound.
  assert (firsts (ev ++ e') = firsts ev) as Hfe.
  { rewrite firsts_app. unfold firsts at 2. rewrite Hoe. cbn [List.filter]. rewrite (proj2 (N.eqb_neq _ _)) by lia. apply app_nil_r. }
  split; rewrite ?Hfe, ?Ho, ?Hn; try done.
  - intros e0 [Hin0| ->%list_elem_of_singleton]%elem_of_app; [by rewrite Hc; apply Hcopy|].
    split_and!; [done|simpl; lia|lia|]. by exists f.
  - intros e0 [Hin0| ->%list_elem_of_singleton]%elem_of_app Hne.
    + destruct (Hch e0 Hin0 Hne) as (e1 & ? & ? & ?). exists e1. split; [apply elem_of_app; by left|done].
    + exists (pe_envelope p). split; [apply elem_of_app; by left|]. by split.
  - intros j q Hj. destruct (Hp _ _ Hj) as [[Hjk Hj']|[-> ->]].
    + destruct (Hpend _ _ Hj') as (Hin' & Hs' & Hmax'). split_and!; [apply elem_of_app; by left|done|].
      intros e0 [Hin0| ->%list_elem_of_singleton]%elem_of_app Hs0; [by apply Hmax'|]. unfold seq_of in *. simpl in Hs0. congruence.
    + split_and!; [apply elem_of_app; right; by left|done|].
      intros e0 [Hin0| ->%list_elem_of_singleton]%elem_of_app Hs0; [|done]. rewrite Ha. pose proof (Hmax e0 Hin0 Hs0). lia.
  - rewrite fmap_app. apply NoDup_app. split_and!; [done| |by apply NoDup_singleton].
    intros x (e0 & -> & Hin0)%list_elem_of_fmap Hx%list_elem_of_singleton. injection Hx as Hs' Ha'.
    pose proof (Hmax e0 Hin0 (eq_trans Hs' Hs)). lia.
Qed.

Lemma session_sent ev s : session ev s → bridge_ok s → sent_ok ev s.
Proof.
  intros Hs _. assert (bridge_ok s ∧ sent_ok ev s) as [_ Hok]; [|done].
  induction Hs as [|ev s e s' Hs [Hb IH] Hstep].
  { split; [apply bridge_new_ok|]. split; simpl; try done; [by intros ? ?%elem_of_nil..|constructor]. }
  split; [by eapply bstep_ok|]. pose proof (bstep_ok _ _ _ Hb Hstep) as Hb'. revert Hb'.
  destruct Hstep as [|ev' Hq|e He Hseq Ha Hm Hcur Hlt|k p delay observed ev' Hp Hr Hq|k p now ev' Hp Hr Hq e|k p error Hp Hr a|
                  e He Hnr|e k last He Hr Hack Hlast]; intros Hb';
    try (destruct (quiet_none _ Hq) as (Hqo & Hqi & Hqc & Hqn)).
  - apply (sent_same ev _ s); [done..|simpl; lia| |done]. simpl. eauto.
  - apply (sent_same ev _ s); [done..|simpl; lia| |done]. simpl. eauto.
  - apply (sent_first ev s e); try done. simpl. intros k p Hk.
    assert (∀ m : gmap N (PendingEnvelope O), (if should_track_ack (envelope_type e) then <[seq_of e:=mkPending e None None]> m else m) !! k = Some p →
              m !! k = Some p ∨ k = seq_of e ∧ pe_envelope p = e) as Hins.
    { intros m. destruct (should_track_ack _); [|by left]. rewrite lookup_insert_Some. intros [[<- <-]|[_ ?]]; auto. }
    apply Hins in Hk as [Hk|]; [|by right]. left. by case_decide.
  - apply (sent_same ev _ s); [done..|simpl; lia| |done]. simpl. intros j q [[<- <-]|[_ Hj]]%lookup_insert_Some; eauto.
  - apply (sent_again ev s k p now); try done; [|by rewrite outb_app, Hqo|].
    + pose proof (bo_pending _ Hb' k _ (lookup_insert_eq _ _ _)) as []. done.
    + simpl. intros j q [[<- <-]|[Hne Hj]]%lookup_insert_Some; [by right|left]. by split.
  - apply (sent_same ev _ s); [done..|simpl; lia| |done]. simpl. intros j q [_ Hj]%lookup_delete_Some. eauto.
  - destruct He. apply (sent_same ev _ s); [done..|simpl; lia| |done]. simpl. eauto.
  - destruct He. apply (sent_same ev _ s); [|done|simpl; lia| |done].
    + destruct (pending s !! k); [by destruct Hlast as [[-> _]|[? [-> _]]]|].
      by destruct last.
    + simpl. intros j q [_ Hj]%lookup_delete_Some. eauto.
Qed.

(** What is settled. *)
Record settled_ok ev s : Prop := {
  sk_once : NoDup (omap outcome ev);
  sk_gone k : k ∈ omap outcome ev → pending s !! k = None ∧ k < next_seq s;
  sk_last i j x k e : ev !! i = Some x → outcome x = Some k → ev !! j = Some (EOutbound e) → seq_of e = k → (j < i)%nat
}.

Lemma outcome_elem ev i x k : ev !! i = Some x → outcome x = Some k → k ∈ omap outcome ev.
Proof. intros Hx Ho. apply list_elem_of_omap. exists x. split; [by eapply list_elem_of_lookup_2|done]. Qed.

Lemma outb_elem ev j e : ev !! j = Some (EOutbound e) → e ∈ outb ev.
Proof. intros Hj. apply list_elem_of_omap. eexists. split; [by eapply list_elem_of_lookup_2|done]. Qed.

(** A step that settles nothing, and sends only what is pending or new. *)
Lemma settled_open ev e s s' :
  omap outcome e = [] → next_seq s ≤ next_seq s' →
  (∀ x, x ∈ outb e → seq_of x = next_seq s ∨ is_Some (pending s !! seq_of x)) →
  (∀ k, is_Some (pending s' !! k) → k = next_seq s ∨ is_Some (pending s !! k)) →
  settled_ok ev s → settled_ok (ev ++ e) s'.
Proof.
  intros Hn Hle Hx Hp [Honce Hgone Hlast]. split; rewrite ?omap_app, ?Hn, ?app_nil_r.
  - done.
  - intros k Hk. destruct (Hgone k Hk) as [Hnone Hlt]. split; [|lia].
    destruct (pending s' !! k) as [p|] eqn:Hk'; [|done].
    destruct (Hp k) as [->|[p' Hp']]; [by eexists|lia|congruence].
  - intros i j x k e' [Hi|[Hi1 Hi2]]%lookup_app_Some Ho [Hj|[Hj1 Hj2]]%lookup_app_Some Hs.
    + by eapply Hlast.
    + exfalso. destruct (Hgone k) as [Hnone Hlt]; [by eapply outcome_elem|]. apply outb_elem, Hx in Hj2.
      rewrite Hs in Hj2. destruct Hj2 as [->|[? ?]]; [lia|congruence].
    + apply (outcome_elem _ _ _ k) in Hi2; [|done]. rewrite Hn in Hi2. by apply elem_of_nil in Hi2.
    + apply (outcome_elem _ _ _ k) in Hi2; [|done]. rewrite Hn in Hi2. by apply elem_of_nil in Hi2.
Qed.

(** A step that settles [k]. *)
Lemma settled_one ev e s s' k :
  omap outcome e = [k] → outb e = [] → next_seq s' = next_seq s → pending s' = delete k (pending s) →
  is_Some (pending s !! k) → k < next_seq s → settled_ok ev s → settled_ok (ev ++ e) s'.
Proof.
  intros Hn Ho Hnext Hp [p Hk] Hlt [Honce Hgone Hlast]. split; rewrite ?omap_app, ?Hn, ?Hnext, ?Hp.
  - apply NoDup_app. split_and!; [done| |by apply NoDup_singleton].
    intros x Hx ->%list_elem_of_singleton. destruct (Hgone _ Hx). congruence.
  - intros j [Hj| ->%list_elem_of_singleton]%elem_of_app; [|by rewrite lookup_delete_eq].
    destruct (Hgone j Hj). split; [|done]. rewrite lookup_delete_None. by right.
  - intros i j x k' e' [Hi|[Hi1 Hi2]]%lookup_app_Some Hox [Hj|[Hj1 Hj2]]%lookup_app_Some Hs.
    + by eapply Hlast.
    + apply outb_elem in Hj2. rewrite Ho in Hj2. by apply elem_of_nil in Hj2.
    + apply lookup_lt_Some in Hj. lia.
    + apply outb_elem in Hj2. rewrite Ho in Hj2. by apply elem_of_nil in Hj2.
Qed.

Lemma insert_some_pending (m : gmap N (PendingEnvelope O)) j k q : is_Some (<[j:=q]> m !! k) → k = j ∨ is_Some (m !! k).
Proof. intros [p [[<- _]|[_ Hk]]%lookup_insert_Some]; [by left|right; by eexists]. Qed.

Lemma session_settled ev s : session ev s → settled_ok ev s.
Proof.
  intros Hs. assert (bridge_ok s ∧ settled_ok ev s) as [_ Hok]; [|done].
  induction Hs as [|ev s e s' Hs [Hb IH] Hstep].
  { split; [apply bridge_new_ok|]. split; simpl; try done; [constructor|by intros ? ?%elem_of_nil]. }
  split; [by eapply bstep_ok|].
  destruct Hstep as [|ev' Hq|e He Hseq Ha Hm Hcur Hlt|k p delay observed ev' Hp Hr Hq|k p now ev' Hp Hr Hq e|k p error Hp Hr a|
                  e He Hnr|e k last He Hr Hack Hlast];
    try (destruct (quiet_none _ Hq) as (Hqo & Hqi & Hqc & Hqn)).
  - apply (settled_open ev _ s); [done|simpl; lia|by intros ? ?%elem_of_nil|by right|done].
  - apply (settled_open ev _ s); [done|simpl; lia|rewrite Hqo; by intros ? ?%elem_of_nil|by right|done].
  - apply (settled_open ev _ s); [done|simpl; lia|intros ? ->%list_elem_of_singleton; by left| |done].
    simpl. intros k. rewrite <- Hseq. destruct (should_track_ack _).
    + intros [->|Hk]%insert_some_pending; [by left|right]. case_decide; [by destruct Hk|done].
    + intros Hk. right. case_decide; [by destruct Hk|done].
  - apply (settled_open ev _ s); [done|simpl; lia|rewrite Hqo; by intros ? ?%elem_of_nil| |done].
    simpl. intros j [->|]%insert_some_pending; right; [by eexists|done].
  - apply (settled_open ev _ s); [by rewrite omap_app, Hqn|simpl; lia| | |done].
    + rewrite outb_app, Hqo. intros x ->%list_elem_of_singleton. right. exists p.
      by rewrite <- (po_seq _ _ _ (bo_pending _ Hb _ _ Hp)) in Hp.
    + simpl. intros j [->|]%insert_some_pending; right; [by eexists|done].
  - apply (settled_one ev _ s _ k); try done. apply (po_sent _ _ _ (bo_pending _ Hb _ _ Hp)).
  - apply (settled_open ev _ s); [done|simpl; lia|by intros ? ?%elem_of_nil|by right|done].
  - destruct (pending s !! k) as [p|] eqn:Hp.
    + apply (settled_one ev _ s _ k); [by destruct Hlast as [[-> _]|[? [-> _]]]..|done|done|by eexists| |done].
      apply (po_sent _ _ _ (bo_pending _ Hb _ _ Hp)).
    + destruct (quiet_none [last]) as (Hqo & _ & _ & Hqn); [simpl; by rewrite Hlast|].
      apply (settled_open ev _ s); [by simpl in *; rewrite Hqn|simpl; lia| | |done].
      * change (outb ([ECursor (seq_of e); EInbound e; last])) with (outb [last]). rewrite Hqo. by intros ? ?%elem_of_nil.
      * simpl. intros j [q [_ Hj]%lookup_delete_Some]. right. by eexists.
Qed.

(** *** The status node *)

(** The fields of a status that describe the state of the session. *)
Definition shows (c : WireBridgeStatus) : N * N * N := (st_next_seq c, st_cursor c, st_pending c).

Lemma quiet_shows ev c : forallb quiet ev = true → shows (foldl reduce_status c ev) = shows c.
Proof.
  revert c. induction ev as [|e ev IH]; intros c; [done|]. simpl. intros [Hq Hqs]%andb_true_iff. rewrite IH by done.
  by destruct e.
Qed.

Definition no_close_retry ev : Prop := ∀ e, e ∈ outb ev → envelope_type e = TClose → attempt_of e = 1.

Record status_ok ev s (c : WireBridgeStatus) : Prop := {
  ss_next : st_next_seq c = next_seq s;
  ss_cursor : st_cursor c = cursor s;
  ss_pending : no_close_retry ev → st_pending c = N.of_nat (size (pending s));
  ss_bound : N.of_nat (size (pending s)) < next_seq s
}.

(** Nothing of it moves. *)
Lemma status_same ev e s s' c c' :
  outb e = [] → next_seq s' = next_seq s → cursor s' = cursor s → size (pending s') = size (pending s) →
  shows c' = shows c → status_ok ev s c → status_ok (ev ++ e) s' c'.
Proof.
  intros Ho Hn Hc Hp [= H1 H2 H3] [Hn' Hc' Hp' Hb']. split; rewrite ?Hn, ?Hc, ?Hp; try congruence.
  intros Hno. rewrite H3. apply Hp'. intros e' Hin. apply Hno. by rewrite outb_app, Ho, app_nil_r.
Qed.

Lemma size_insert_same {A} (m : gmap N A) k x : is_Some (m !! k) → size (<[k:=x]> m) = size m.
Proof. intros [y Hk]. rewrite map_size_insert, Hk. simpl. lia. Qed.

Lemma size_delete_some {A} (m : gmap N A) k : is_Some (m !! k) → N.of_nat (size (delete k m)) = N.of_nat (size m) - 1.
Proof. intros [y Hk]. rewrite map_size_delete, Hk. simpl. lia. Qed.

Lemma status_gone ev e s s' c c' k :
  outb e = [] → next_seq s' = next_seq s → pending s' = delete k (pending s) → is_Some (pending s !! k) →
  st_next_seq c' = next_seq s → st_cursor c' = cursor s' → st_pending c' = st_pending c - 1 →
  status_ok ev s c → status_ok (ev ++ e) s' c'.
Proof.
  intros Ho Hn Hp Hk H1 H2 H3 [Hn' Hc' Hp' Hb']. apply size_delete_some in Hk. split; rewrite ?Hp; try congruence.
  - intros Hno. rewrite H3, Hp', Hk; [done|]. intros e' Hin. apply Hno. by rewrite outb_app, Ho, app_nil_r.
  - lia.
Qed.

Lemma status_first ev s e c :
  envelope_ok e → seq_of e = next_seq s → attempt_of e = 1 → next_seq s < u64_max → bridge_ok s → status_ok ev s c →
  status_ok (ev ++ [EOutbound e])
    (set_pending (λ m, let m := if decide (envelope_type e = TClose) then ∅ else m in
                       if should_track_ack (envelope_type e) then <[seq_of e := mkPending e None None]> m else m)
       (set_next_seq (next_seq s + 1) s))
    (reduce_status c (EOutbound (I := I) e)).
Proof.
  intros He Hseq Ha Hlt Hb [Hn' Hc' Hp' Hb']. unfold attempt_of in Ha.
  assert (pending s !! seq_of e = None) as Hnew.
  { destruct (pending s !! seq_of e) as [p|] eqn:Hp; [|done]. pose proof (po_sent _ _ _ (bo_pending _ Hb _ _ Hp)). lia. }
  unfold seq_of in *. simpl. rewrite Hseq, Ha in *. unfold sat64.
  split; simpl; rewrite ?N.min_l by lia.
  - lia.
  - done.
  - intros Hno. assert (no_close_retry ev) as Hno'.
    { intros e' Hin. apply Hno. rewrite outb_app. apply elem_of_app. by left. }
    specialize (Hp' Hno'). destruct (envelope_type e); simpl; rewrite ?N.min_l by lia; rewrite ?map_size_insert, ?Hnew, ?lookup_empty; simpl;
      rewrite ?map_size_empty; try lia; done.
  - destruct (envelope_type e); simpl; rewrite ?map_size_insert, ?Hnew, ?lookup_empty; simpl; rewrite ?map_size_empty; pose proof (bo_next _ Hb); lia.
Qed.

Lemma status_again ev ev' s k p now c :
  pending s !! k = Some p → bridge_ok s → forallb quiet ev' = true → status_ok ev s c →
  let e := resend (cursor s) now (pe_envelope p) in
  status_ok (ev ++ ev' ++ [EOutbound e]) (set_pending <[k := mkPending e None None]> s)
    (foldl reduce_status c (ev' ++ [EOutbound (I := I) e])).
Proof.
  intros Hk Hb Hq [Hn' Hc' Hp' Hb'] e. destruct (bo_pending _ Hb _ _ Hk) as [[_ Hv] Hsq Hsent Htr _ _].
  pose proof Hv as []%valid_inbound. rewrite foldl_app. simpl. set (c1 := foldl _ _ _).
  assert (shows c1 = shows c) as Hc1 by (by apply quiet_shows). injection Hc1 as Hc1 Hc2 Hc3.
  assert (attempt_of e =? 1 = false) as Hne by (apply N.eqb_neq; unfold e, resend, attempt_of in *; simpl; lia).
  unfold attempt_of, seq_of in Hne, Hsq. simpl in Hne.
  split; simpl; rewrite ?size_insert_same by (by eexists).
  - unfold sat64. rewrite Hsq. pose proof (bo_next _ Hb). lia.
  - congruence.
  - intros Hno. rewrite Hne, andb_false_r, Hc3, decide_False.
    + apply Hp'. intros e' Hin. apply Hno. rewrite outb_app. apply elem_of_app. by left.
    + intros Hcl. apply N.eqb_neq in Hne. apply Hne, (Hno e); [|done]. rewrite !outb_app. apply elem_of_app. right.
      apply elem_of_app. right. by left.
  - done.
Qed.

Lemma receive_shows c n (e : WireBridgeEnvelope I) :
  shows (reduce_status (reduce_status c (ECursor (O := O) (I := I) n)) (EInbound (O := O) e)) = (st_next_seq c, n, st_pending c).
Proof. unfold shows. simpl. by destruct (envelope_type e). Qed.

(** An envelope is received, and nothing settled. *)
Lemma status_receive ev e s s' c c' :
  outb e = [] → next_seq s' = next_seq s → pending s' = pending s →
  shows c' = (st_next_seq c, cursor s', st_pending c) → status_ok ev s c → status_ok (ev ++ e) s' c'.
Proof.
  intros Ho Hn Hp [= H1 H2 H3] [Hn' Hc' Hp' Hb']. split; rewrite ?Hn, ?Hp; try congruence.
  intros Hno. rewrite H3. apply Hp'. intros e' Hin. apply Hno. by rewrite outb_app, Ho, app_nil_r.
Qed.

Lemma session_status ev s : session ev s → status_ok ev s (project_status sid None ev).
Proof.
  intros Hs. assert (bridge_ok s ∧ status_ok ev s (project_status sid None ev)) as [_ Hok]; [|done].
  induction Hs as [|ev s e s' Hs [Hb IH] Hstep].
  { split; [apply bridge_new_ok|]. by split. }
  split; [by eapply bstep_ok|]. unfold project_status in *. rewrite foldl_app. set (c := foldl _ _ ev) in *.
  destruct Hstep as [|ev' Hq|e He Hseq Ha Hm Hcur Hlt|k p delay observed ev' Hp Hr Hq|k p now ev' Hp Hr Hq e|k p error Hp Hr a|
                  e He Hnr|e k last He Hr Hack Hlast];
    try (destruct (quiet_none _ Hq) as (Hqo & Hqi & Hqc & Hqn)).
  - by apply (status_same ev _ s _ c).
  - apply (status_same ev _ s _ c); try done. by apply quiet_shows.
  - by apply status_first.
  - apply (status_same ev _ s _ c); try done; [|by apply quiet_shows]. simpl. apply size_insert_same. by eexists.
  - by apply status_again.
  - destruct IH. apply (status_gone ev _ s _ c _ k); done.
  - apply (status_receive ev _ s _ c); try done. apply receive_shows.
  - destruct (pending s !! k) as [p|] eqn:Hp.
    + destruct IH. destruct Hlast as [[-> Ht]|[error [-> Ht]]]; simpl; rewrite Ht; apply (status_gone ev _ s _ c _ k); done.
    + destruct (quiet_none [last]) as (Hqo & _ & _ & _); [simpl; by rewrite Hlast|].
      apply (status_receive ev _ s _ c); try done; [by apply delete_id|].
      change [ECursor (seq_of e); EInbound e; last] with ([ECursor (seq_of e); EInbound e] ++ [last]).
      rewrite foldl_app, quiet_shows by (simpl; by rewrite Hlast). apply receive_shows.
Qed.

(** ** The properties of a session *)

(** Runs of the node from its first activation. *)
Definition runs_of bs ev s : Prop := run_each (events_node opts) bs bridge_state = Ret ev s.

Lemma runs_session bs ev s : max_attempts policy ≤ u32_max → runs_of bs ev s → in_session ev s.
Proof.
  intros Hmax Hrun. pose proof (nodes_continue bs Hmax [] bridge_state (conj session_new bridge_new_ok)) as Ht.
  unfold total in Ht. by rewrite Hrun in Ht.
Qed.

(** C12: the bridge refines its session machine.  Whatever commands, envelopes and
    values of other types its runs bring, in any order, no run panics (a retry
    always passes the checks again), and the events and the state are those of a
    session: numbered sends, resends of what is pending within the attempts of the
    policy, and accepted envelopes. *)
Theorem bridge_refines_session bs :
  max_attempts policy ≤ u32_max → ∃ ev s, runs_of bs ev s ∧ session ev s.
Proof.
  intros Hmax. pose proof (nodes_continue bs Hmax [] bridge_state (conj session_new bridge_new_ok)) as Ht.
  unfold total in Ht. unfold runs_of. destruct (run_each _ bs _) as [ev s| |]; [|done..]. exists ev, s. by destruct Ht.
Qed.

(** What a bridge sends.  The envelopes sent for the first time are numbered
    one by one; every other one is a copy of one of these with a later attempt, no
    attempt comes twice or without the one before it, and none is above the limit
    of the policy. *)
Theorem sends_numbered_and_bounded bs ev s :
  max_attempts policy ≤ u32_max → runs_of bs ev s →
  (∀ i e, firsts ev !! i = Some e → seq_of e = N.of_nat i + 1)
  ∧ (∀ e, e ∈ outb ev → attempt_of e ≤ max_attempts policy ∧ ∃ f, f ∈ firsts ev ∧ core f = core e)
  ∧ (∀ e, e ∈ outb ev → attempt_of e ≠ 1 → ∃ e', e' ∈ outb ev ∧ core e' = core e ∧ attempt_of e' + 1 = attempt_of e)
  ∧ NoDup (send_key <$> outb ev).
Proof.
  intros Hmax [Hs Hb]%runs_session; [|done]. destruct (session_sent _ _ Hs Hb) as [_ Hn Hc Hch _ Ho].
  split_and!; [done| |done..]. intros e He. by destruct (Hc e He) as (_ & _ & ? & ?).
Qed.

(** C25: an envelope is settled once and for all.  At most one of an
    acknowledgement, a refusal and an exhaustion comes for a sequence number, and
    nothing is sent under that number afterwards. *)
Theorem settled_once bs ev s :
  max_attempts policy ≤ u32_max → runs_of bs ev s →
  NoDup (omap outcome ev)
  ∧ ∀ i j x k e, ev !! i = Some x → outcome x = Some k → ev !! j = Some (EOutbound e) → seq_of e = k → (j < i)%nat.
Proof. intros Hmax [Hs _]%runs_session; [|done]. by destruct (session_settled _ _ Hs). Qed.

(** The status node shows the session.  Folded over the events, it has the
    next sequence number and the cursor of the events node, and, as long as no
    CLOSE was sent again, the number of its pending envelopes. *)
Theorem status_shows_session bs ev s :
  max_attempts policy ≤ u32_max → runs_of bs ev s →
  let c := project_status sid None ev in
  st_next_seq c = next_seq s ∧ st_cursor c = cursor s
  ∧ (no_close_retry ev → st_pending c = N.of_nat (size (pending s))).
Proof. intros Hmax [Hs _]%runs_session; [|done]. by destruct (session_status _ _ Hs). Qed.
End Session.
