(* ===== verification/BridgeLink.v ===== *)
(** * Two bridges and a channel (adapters/bridge.rs)

    Two bridges of one session, each the sender of what the other receives, over a
    channel that may lose, repeat, delay and reorder envelopes, and may carry
    anything of other sessions.  A link is a state of both with their events;
    [link_step] is a run of one of them. *)

From Stdlib Require Import Ascii String.
From stdpp Require Import base option strings numbers gmap list relations.
From S2P Require Import Prelude Text Storage Protocol NodeState Resilience Bridge BridgeFacts.
Import Wire.

Local Open Scope rx_scope.
Local Open Scope N_scope.

(** ** What a run receives came in its batch *)

Section Carried.
Context {O I : Type} `{!TupleText} (opts : WireBridgeOptions).
Abbreviation Event := (WireBridgeEvent O I).
Abbreviation State := (BridgeState O).
Implicit Types s : State.

Definition delivers (l : list (WireBridgeEnvelope I)) (op : M State (list Event)) : Prop :=
  ∀ s e s', op s = Ret e s' → ∀ x, x ∈ inb e → x ∈ l ∧ session_id x = o_session_id opts.

Lemma delivers_none l op : (∀ s e s', op s = Ret e s' → inb e = []) → delivers l op.
Proof. intros Hop s e s' Hrun x Hx. rewrite (Hop _ _ _ Hrun) in Hx. by apply elem_of_nil in Hx. Qed.

Lemma command_delivers v : delivers [] (command_value opts v).
Proof.
  apply delivers_none. intros s e s'. destruct v as [[c|] now]; [|by intros [= <- _]].
  assert (∀ spec s e s', emit_outbound (I := I) opts spec now s = Ret e s' → inb e = []) as Hout.
  { clear. intros spec s e s'. unfold emit_outbound, bind, gets, id, when, modify, ret, invalid, ret.
    repeat case_match; naive_solver. }
  assert (∀ cur s e s', emit_retry_outbound (I := I) opts now cur s = Ret e s' → inb e = []) as Hre.
  { clear. intros cur s e s'. unfold emit_retry_outbound, bind, gets, id, modify, ret, panic.
    repeat case_match; naive_solver. }
  destruct c; simpl; try apply Hout; try (case_match; [by intros [= <- _]|apply Hout]).
  unfold process_ack_timeout_command. repeat (case_match; [by intros [= <- _]|]).
  unfold bind at 1, gets at 1. destruct (pending s !! seq) as [p|]; [|by intros [= <- _]].
  case_match; [by intros [= <- _]|]. destruct (retry_due _ _ _) as [[]|]; [apply Hre| |by intros [= <- _]].
  unfold first_timeout. case_match; [by intros [= <- _]|]. unfold bind at 1 2, modify at 1, gets at 1.
  case_match; [by intros [= <- _]|]. unfold bind. destruct (emit_retry_outbound _ _ _ _) as [e2 s2| |] eqn:He; [|done..].
  intros [= <- _]. by apply Hre in He.
Qed.

Lemma inbound_delivers v : delivers (match v with Some (IEnvelope x) => [x] | _ => [] end) (inbound_value opts v).
Proof.
  destruct v as [[x|error]|]; [|by apply delivers_none; intros s e s' [= <- _]..].
  intros s e s'. simpl. unfold process_envelope. destruct (validate_inbound_envelope x) as [[]|]; [|by intros [= <- _] ? ?%elem_of_nil].
  case_bool_decide as Hsid; simpl; [|by intros [= <- _] ? ?%elem_of_nil].
  unfold bind at 1, gets at 1, id. destruct (admit_inbound _ s _) as [event|[seq remote]] eqn:Ha.
  - intros [= <- _] y Hy. unfold admit_inbound in Ha. repeat case_match; simplify_eq; by apply elem_of_nil in Hy.
  - unfold bind at 1, modify at 1. intros Hrun.
    assert (∃ receipt, e = ECursor seq :: EInbound x :: receipt ∧ inb receipt = []) as (receipt & -> & Hr).
    { revert Hrun. unfold process_ack, process_nack, bind, gets, modify, expect, ret, panic.
      repeat case_match; intros; simplify_eq; eexists; (split; [reflexivity|]); try done; repeat case_match; done. }
    intros y Hy. change (y ∈ x :: inb receipt) in Hy. rewrite Hr in Hy. by apply list_elem_of_singleton in Hy as ->; split; [left|].
Qed.

Definition envelopes (b : BridgeBatch (O := O) (I := I)) : list (WireBridgeEnvelope I) :=
  omap (λ v, match v with Some (IEnvelope e) => Some e | _ => None end) (b_inbound b).

Lemma run_each_delivers {A} (f : A → M State (list Event)) l envs :
  (∀ a, a ∈ l → delivers envs (f a)) → delivers envs (run_each f l).
Proof.
  intros Hf. unfold run_each.
  cut (∀ acc s e s', fold_each l (λ events a, let! e := f a in ret (events ++ e)) acc s = Ret e s' →
         ∀ x, x ∈ inb e → x ∈ inb acc ∨ x ∈ envs ∧ session_id x = o_session_id opts).
  { intros Hc s e s' Hrun x Hx. destruct (Hc _ _ _ _ Hrun x Hx) as [?%elem_of_nil|?]; done. }
  revert Hf. induction l as [|a l IH]; intros Hf acc s e s'; [by intros [= -> _] x; left|].
  cbn [fold_each]. unfold bind at 1 2. destruct (f a s) as [e1 s1| |] eqn:Ha; [|done..]. unfold ret at 1.
  intros Hrun x Hx. destruct (IH (λ a' Ha', Hf a' (list_elem_of_further _ _ _ Ha')) _ _ _ _ Hrun x Hx) as [Hin|]; [|by right].
  rewrite inb_app in Hin. apply elem_of_app in Hin as [?|Hin]; [by left|right].
  by apply (Hf a (list_elem_of_here _ _) _ _ _ Ha).
Qed.

Lemma node_delivers b : delivers (envelopes b) (events_node opts b).
Proof.
  intros s e s'. unfold events_node, bind at 1, modify at 1. unfold bind at 1.
  destruct (run_each (inbound_value opts) (b_inbound b) _) as [e1 s1| |] eqn:H1; [|done..]. unfold bind at 1.
  destruct (run_each (command_value opts) (b_commands b) s1) as [e2 s2| |] eqn:H2; [|done..]. intros [= <- _] x.
  rewrite !inb_app, !elem_of_app. intros [Hx|[Hx|Hx]].
  - refine (run_each_delivers _ _ _ _ _ _ _ H1 x Hx). intros v Hv s0 e0 s0' Hrun y Hy.
    destruct (inbound_delivers v _ _ _ Hrun y Hy) as [Hin Hsid]. split; [|done]. apply list_elem_of_omap. exists v.
    split; [done|]. destruct v as [[z|]|]; [|by apply elem_of_nil in Hin..]. by apply list_elem_of_singleton in Hin as ->.
  - refine (run_each_delivers _ _ _ _ _ _ _ H2 x Hx). intros v _ s0 e0 s0' Hrun y Hy.
    by destruct (command_delivers v _ _ _ Hrun y Hy) as [?%elem_of_nil _].
  - destruct (b_inbound_terminal b); by apply elem_of_nil in Hx.
Qed.
End Carried.

(** ** The link *)

Section Link.
Context {X Y : Type} `{!TupleText} (oa ob : WireBridgeOptions).
Context (Hsid : o_session_id oa = o_session_id ob).
Context (Hma : max_attempts (o_retry oa) ≤ u32_max) (Hmb : max_attempts (o_retry ob) ≤ u32_max).

Record Link := mkLink {
  l_a : BridgeState X;
  l_aev : list (WireBridgeEvent X Y);
  l_b : BridgeState Y;
  l_bev : list (WireBridgeEvent Y X)
}.

Definition link_new : Link := mkLink bridge_state [] bridge_state [].

(** The channel brings envelopes of the session only as the other side sent them. *)
Definition carried {O I} (sent : list (WireBridgeEnvelope I)) (b : BridgeBatch (O := O) (I := I)) : Prop :=
  ∀ e, e ∈ envelopes b → session_id e = o_session_id oa → e ∈ sent.

Inductive link_step (l : Link) : Link → Prop :=
| run_a b e s :
    carried (outb (l_bev l)) b → events_node oa b (l_a l) = Ret e s →
    link_step l (mkLink s (l_aev l ++ e) (l_b l) (l_bev l))
| run_b b e s :
    carried (outb (l_aev l)) b → events_node ob b (l_b l) = Ret e s →
    link_step l (mkLink (l_a l) (l_aev l) s (l_bev l ++ e)).

Definition reached (l : Link) : Prop := rtc link_step link_new l.

Record link_inv (l : Link) : Prop := {
  li_a : in_session oa (l_aev l) (l_a l);
  li_b : in_session ob (l_bev l) (l_b l);
  li_from_a e : e ∈ inb (l_bev l) → e ∈ outb (l_aev l);
  li_from_b e : e ∈ inb (l_aev l) → e ∈ outb (l_bev l)
}.

Lemma link_node_run {O I} (o : WireBridgeOptions) ev s (b : BridgeBatch (O := O) (I := I)) e s' :
  max_attempts (o_retry o) ≤ u32_max → in_session o ev s → events_node o b s = Ret e s' → in_session o (ev ++ e) s'.
Proof. intros Hmax Hs Hrun. pose proof (node_continues o b Hmax ev s Hs) as Ht. unfold total in Ht. by rewrite Hrun in Ht. Qed.

Lemma link_step_inv l l' : link_inv l → link_step l l' → link_inv l'.
Proof.
  intros [Ha Hb Hfa Hfb] [b e s Hc Hrun|b e s Hc Hrun].
  - split; simpl; [by eapply link_node_run|done| |].
    + intros x Hx. rewrite outb_app. apply elem_of_app. left. auto.
    + intros x Hx. rewrite inb_app in Hx. apply elem_of_app in Hx as [Hx|Hx]; [auto|].
      destruct (node_delivers oa b _ _ _ Hrun x Hx). auto.
  - split; simpl; [done|by eapply link_node_run| |].
    + intros x Hx. rewrite inb_app in Hx. apply elem_of_app in Hx as [Hx|Hx]; [auto|].
      destruct (node_delivers ob b _ _ _ Hrun x Hx). apply Hc; [done|congruence].
    + intros x Hx. rewrite outb_app. apply elem_of_app. left. auto.
Qed.

Lemma reached_inv l : reached l → link_inv l.
Proof.
  unfold reached. intros Hr. remember link_new as l0 eqn:Hl0.
  assert (link_inv l0) as Hi.
  { subst. split; simpl; [split; [constructor|apply bridge_new_ok]..| |]; by intros e ?%elem_of_nil. }
  clear Hl0. induction Hr as [|l0 l1 l Hstep _ IH]; [done|]. apply IH. by eapply link_step_inv.
Qed.

(** C10: a bridge delivers exactly once and in order.  Whatever the channel loses,
    repeats, delays or reorders, and whatever each side sends, resends or gives up,
    the envelopes a side has received are, in order and without a gap or a repeat,
    the first ones the other side sent. *)
Theorem delivery_is_prefix l :
  reached l → core <$> inb (l_bev l) = take (length (inb (l_bev l))) (core <$> firsts (l_aev l)).
Proof.
  intros [[Ha Hab] [Hb _] Hfa _]%reached_inv. apply list_eq. intros i.
  destruct (decide (i < length (inb (l_bev l)))%nat) as [Hi|Hi].
  2: { rewrite lookup_take_ge by lia. apply lookup_ge_None. rewrite length_fmap. lia. }
  rewrite lookup_take_lt by done. destruct (lookup_lt_is_Some_2 _ _ Hi) as [e He].
  destruct (session_received _ _ _ Hb) as [_ Hnum _ _]. destruct (Hnum _ _ He) as [_ Hseq].
  destruct (session_sent _ _ _ Ha Hab) as [_ Hfirst Hcopy _ _ _].
  destruct (Hcopy e) as (_ & _ & _ & f & Hf & Hcore); [by eapply Hfa, list_elem_of_lookup_2|].
  apply list_elem_of_lookup_1 in Hf as [j Hj]. pose proof (Hfirst _ _ Hj) as Hfj.
  rewrite (core_seq _ _ Hcore), Hseq in Hfj. assert (j = i) as -> by lia.
  rewrite !list_lookup_fmap, He, Hj. simpl. by rewrite Hcore.
Qed.

(** *** Progress *)

Definition timeout_now (k attempt now : N) : BridgeBatch (O := X) (I := Y) :=
  mkBatch [] [(Some (CAckTimeout k attempt None), now)] None.

(** A timeout without a time of its own resends at once, also when a later retry
    was announced. *)
Lemma timeout_resends ev (s : BridgeState X) k p now :
  in_session (I := Y) oa ev s → pending s !! k = Some p →
  should_retry (o_retry oa) (attempt_of (pe_envelope p)) = true →
  let e := resend oa (cursor s) now (pe_envelope p) in
  ∃ events s', process_ack_timeout_command (I := Y) oa k (attempt_of (pe_envelope p)) None now s = Ret events s'
    ∧ outb events = [e] ∧ cursor s' = cursor s.
Proof.
  intros [_ Hb] Hp Hr e. destruct (bo_pending _ _ Hb _ _ Hp) as [[_ Hv] Hsq Hsent _ _ Hrep Hdue].
  pose proof Hv as []%valid_inbound. unfold seq_of in Hsq. subst k.
  unfold process_ack_timeout_command, attempt_of. rewrite !(proj2 (N.eqb_neq _ _)) by done.
  unfold bind at 1, gets at 1. rewrite Hp, N.eqb_refl. simpl. unfold retry_due.
  case_decide as Hd.
  { assert (match retry_due_at_ms p with Some _ | _ => Some true end = Some true) as -> by (by destruct (retry_due_at_ms p)).
    eexists _, _. split; [by apply (resend_run oa _ _ _ _ Hb Hma Hp)|done]. }
  destruct (timeout_reported_attempt p) as [a|] eqn:Ha; [by destruct (Hrep _ eq_refl) as [-> _]|].
  unfold first_timeout, attempt_of in *. rewrite Hr. simpl. unfold bind at 1, modify. unfold bind at 1, gets, set_pending at 1 2.
  rewrite (alter_insert_known _ _ _ _ Hp). simpl. rewrite lookup_insert_eq. simpl. rewrite (Hdue eq_refl).
  set (delay := default 0 _).
  assert ((if 0 <? delay then None else None) = @None N) as -> by (by destruct (0 <? delay)).
  set (p' := report_timeout _ _ _ _). set (s1 := mkBridge _ _ _ _ _ _).
  assert (bridge_ok oa s1) as Hb1.
  { apply (bstep_ok (I := Y) oa s []); [done|]. by apply step_wait. }
  assert (pending s1 !! md_seq (metadata (pe_envelope p)) = Some p') as Hp1 by apply lookup_insert_eq.
  unfold bind. pose proof (resend_run (I := Y) oa s1 _ p' now Hb1 Hma Hp1 Hr) as Hrun. simpl in Hrun.
  change (pe_envelope p') with (pe_envelope p) in Hrun. rewrite Hrun. eexists _, _. by split.
Qed.

Lemma timeout_run ev (s : BridgeState X) k p now :
  in_session (I := Y) oa ev s → pending s !! k = Some p →
  should_retry (o_retry oa) (attempt_of (pe_envelope p)) = true →
  let e := resend oa (cursor s) now (pe_envelope p) in
  ∃ events s', events_node oa (timeout_now k (attempt_of (pe_envelope p)) now) s = Ret events s'
    ∧ e ∈ outb events ∧ cursor s' = cursor s.
Proof.
  intros Hs Hp Hr e.
  destruct (timeout_resends ev (install_cleanup s) k p now) as (events & s' & Hrun & Ho & Hc); [|done|done|].
  { rewrite <- (app_nil_r ev). apply (holds_step oa _ (session_kept oa) ev s); [done|constructor]. }
  exists events, s'. split; [|split; [by rewrite Ho; left|done]].
  unfold events_node, bind at 1, modify at 1. unfold bind at 1. simpl. unfold run_each. simpl. unfold bind, ret.
  rewrite Hrun. simpl. by rewrite app_nil_r.
Qed.

Definition deliver (e : WireBridgeEnvelope X) : BridgeBatch (O := Y) (I := X) := mkBatch [Some (IEnvelope e)] [] None.

Lemma deliver_run (s : BridgeState Y) e :
  accepts ob s e → is_receipt (envelope_type e) = false →
  ∃ events s', events_node ob (deliver e) s = Ret events s' ∧ cursor s' = seq_of e.
Proof.
  intros [[Hses Hv] Hseq Hb Hle] Hr. eexists [ECursor (seq_of e); EInbound e], _. split.
  - unfold events_node, bind at 1, modify at 1. unfold bind at 1, run_each. simpl. unfold bind at 1 2, process_envelope.
    rewrite Hv, bool_decide_true by done. simpl. unfold bind at 1, gets at 1, id, admit_inbound. simpl.
    unfold seq_of in *. rewrite Hseq. unfold sat64. rewrite N.min_l by lia.
    rewrite (proj2 (N.leb_gt _ _)), N.ltb_irrefl, (proj2 (N.ltb_ge _ _)) by lia.
    unfold bind, modify, ret. by destruct (envelope_type e).
  - done.
Qed.

(** C14: a retry makes progress.  While the next envelope a side waits for is
    pending at the other side and has an attempt left, one timeout and one
    delivery of what it sends are enough: the copy is accepted and the cursor
    moves on, whatever was lost or is still on its way. *)
Theorem retry_makes_progress l k p now :
  reached l → k = cursor (l_b l) + 1 → pending (l_a l) !! k = Some p →
  should_retry (o_retry oa) (attempt_of (pe_envelope p)) = true →
  let e := resend oa (cursor (l_a l)) now (pe_envelope p) in
  ∃ ea sa eb sb,
    events_node oa (timeout_now k (attempt_of (pe_envelope p)) now) (l_a l) = Ret ea sa ∧ e ∈ outb ea
    ∧ events_node ob (deliver e) (l_b l) = Ret eb sb ∧ cursor sb = k
    ∧ reached (mkLink sa (l_aev l ++ ea) sb (l_bev l ++ eb)).
Proof.
  intros Hreach Hk Hp Hr e. destruct (reached_inv _ Hreach) as [Ha Hb Hfa Hfb].
  destruct (timeout_run _ _ k p now Ha Hp Hr) as (ea & sa & Hrun & Hin & Hc). fold e in Hin.
  assert (reached (mkLink sa (l_aev l ++ ea) (l_b l) (l_bev l))) as Hreach1.
  { eapply rtc_r; [exact Hreach|]. refine (run_a _ _ _ _ _ Hrun). by intros x ?%elem_of_nil. }
  destruct (reached_inv _ Hreach1) as [[Ha1 Hab1] _ _ _]. simpl in Ha1.
  pose proof (session_sent _ _ _ Ha1 Hab1) as Hsent1. destruct Ha as [Ha Hab].
  destruct (bo_pending _ _ Hab _ _ Hp) as [_ Hsq Hlt Htr _ _ _].
  assert (e ∈ outb (l_aev l ++ ea)) as Hin1 by (rewrite outb_app; apply elem_of_app; by right).
  destruct (so_copy _ _ _ Hsent1 _ Hin1) as ([Hses Hv] & _ & _ & _).
  assert (accepts ob (l_b l) e) as Hacc.
  { split; [split; [congruence|done]|exact (eq_trans Hsq Hk)|pose proof (bo_next _ _ Hab); lia|].
    change (remote_cursor (l_b l) ≤ cursor (l_a l)). destruct Hb as [Hb _].
    destruct (ro_remote _ _ _ (session_received _ _ _ Hb)) as [-> |(x & Hx & <-)]; [lia|].
    by destruct (so_copy _ _ _ (session_sent _ _ _ Ha Hab) _ (Hfa _ Hx)) as (_ & ? & _). }
  destruct (deliver_run (l_b l) e Hacc) as (eb & sb & Hrunb & Hcb).
  { unfold e, resend. simpl. by destruct (envelope_type (pe_envelope p)). }
  exists ea, sa, eb, sb. split_and!; try done; [exact (eq_trans Hcb Hsq)|].
  eapply rtc_r; [exact Hreach1|]. refine (run_b (mkLink sa _ (l_b l) _) _ _ _ _ Hrunb).
  intros x ->%list_elem_of_singleton _. done.
Qed.

(** *** What is not pending is not sent again *)

(** Since it is not pending, nothing is sent under a number. *)
Definition abandoned (k : N) (e : list (WireBridgeEvent X Y)) (s : BridgeState X) : Prop :=
  pending s !! k = None ∧ k < next_seq s ∧ ∀ x, x ∈ outb e → seq_of x ≠ k.

Lemma step_abandoned (s : BridgeState X) e s' k :
  bridge_ok oa s → bstep oa s e s' → pending s !! k = None → k < next_seq s → abandoned k e s'.
Proof.
  intros Hb Hstep Hk Hlt.
  destruct Hstep as [|ev' Hq|e He Hseq Ha Hm Hcur Hl|j p delay observed ev' Hp Hr Hq|j p now ev' Hp Hr Hq e|j p error Hp Hr a|
                  e He Hnr|e j last He Hr Hack Hlast];
    try (destruct (quiet_none _ Hq) as (Hqo & _ & _ & _)); unfold abandoned; simpl.
  - split_and!; [done..|by intros x ?%elem_of_nil].
  - split_and!; [done..|rewrite Hqo; by intros x ?%elem_of_nil].
  - split_and!; [|lia|intros x ->%list_elem_of_singleton; lia].
    assert (∀ m : gmap N (PendingEnvelope X), m !! k = None →
              (if should_track_ack (envelope_type e) then <[seq_of e:=mkPending e None None]> m else m) !! k = None) as Hins.
    { intros m Hm'. destruct (should_track_ack _); [|done]. apply lookup_insert_None. split; [done|lia]. }
    apply Hins. by case_decide.
  - split_and!; [|done|rewrite Hqo; by intros x ?%elem_of_nil]. apply lookup_insert_None. split; [done|congruence].
  - split_and!; [apply lookup_insert_None; split; [done|congruence]|done|]. rewrite outb_app, Hqo.
    intros x ->%list_elem_of_singleton Hx. pose proof (po_seq _ _ _ _ (bo_pending _ _ Hb _ _ Hp)) as Hs.
    change (seq_of (pe_envelope p) = k) in Hx. congruence.
  - split_and!; [apply lookup_delete_None; by right|done|by intros x ?%elem_of_nil].
  - split_and!; [done..|by intros x ?%elem_of_nil].
  - split_and!; [apply lookup_delete_None; by right|done|].
    destruct (pending s !! j); [destruct Hlast as [[-> _]|[error [-> _]]]; by intros x ?%elem_of_nil|].
    destruct (quiet_none [last]) as (Hqo & _); [simpl; by rewrite Hlast|].
    intros x Hx. change (x ∈ outb [last]) in Hx. rewrite Hqo in Hx. by apply elem_of_nil in Hx.
Qed.

Lemma abandoned_kept k ev (s : BridgeState X) e s' :
  bridge_ok oa s → abandoned k ev s → bstep oa s e s' → abandoned k (ev ++ e) s'.
Proof.
  intros Hb (Hk & Hlt & Hall) Hst. destruct (step_abandoned _ _ _ k Hb Hst Hk Hlt) as (? & ? & Hall').
  split_and!; [done..|]. intros x. rewrite outb_app. intros [?|?]%elem_of_app; auto.
Qed.

Lemma node_abandoned k (s : BridgeState X) b e s' :
  bridge_ok oa s → pending s !! k = None → k < next_seq s → events_node oa b s = Ret e s' → abandoned k e s'.
Proof.
  intros Hb Hk Hlt Hrun. pose proof (node_keeps oa (abandoned k) (abandoned_kept k) b Hma [] s) as Ht.
  unfold holds, total in Ht. rewrite Hrun in Ht. apply Ht. split; [|done]. split_and!; [done..|by intros x ?%elem_of_nil].
Qed.

(** The steps of a link whose channel has lost every copy of an envelope. *)
Definition lost_step (lost : WireBridgeEnvelope X → Prop) (l l' : Link) : Prop :=
  (∃ b e s, carried (outb (l_bev l)) b ∧ events_node oa b (l_a l) = Ret e s
            ∧ l' = mkLink s (l_aev l ++ e) (l_b l) (l_bev l))
  ∨ (∃ b e s, carried (outb (l_aev l)) b ∧ (∀ x, x ∈ envelopes b → ¬ lost x) ∧ events_node ob b (l_b l) = Ret e s
              ∧ l' = mkLink (l_a l) (l_aev l) s (l_bev l ++ e)).

Lemma lost_is_step lost l l' : lost_step lost l l' → link_step l l'.
Proof. intros [(b & e & s & ? & ? & ->)|(b & e & s & ? & _ & ? & ->)]; by econstructor. Qed.

(** C39: what is lost and not pending is lost for good.  An envelope that is no
    longer pending at its sender (an acknowledgement or a refusal never was; one
    sent before a CLOSE, exhausted or settled is not) is never sent again; if the
    channel has lost its copies, the receiver waits for its number for ever and
    accepts nothing after it, whatever both sides do. *)
Theorem lost_unpending_wedges l k l' :
  reached l → pending (l_a l) !! k = None → k < next_seq (l_a l) → cursor (l_b l) < k →
  rtc (lost_step (λ x, x ∈ outb (l_aev l) ∧ seq_of x = k)) l l' → cursor (l_b l') < k.
Proof.
  intros Hreach Hk Hlt Hcur Hrtc. pose proof (reached_inv _ Hreach) as Hinv.
  set (lost := λ x, _) in Hrtc.
  cut (link_inv l' ∧ pending (l_a l') !! k = None ∧ k < next_seq (l_a l')
       ∧ (∀ x, x ∈ outb (l_aev l') → seq_of x = k → lost x) ∧ (∀ x, x ∈ inb (l_bev l') → seq_of x ≠ k)).
  { intros (Hi & _ & _ & _ & Hno). destruct (li_b _ Hi) as [Hb _]. destruct (session_received _ _ _ Hb) as [Hl Hn _ _].
    apply N.nle_gt. intros Hle. destruct (lookup_lt_is_Some_2 (inb (l_bev l')) (N.to_nat (k - 1))) as [e He]; [lia|].
    destruct (Hn _ _ He) as [_ Hs]. apply (Hno e); [by eapply list_elem_of_lookup_2|lia]. }
  assert (∀ x, x ∈ inb (l_bev l) → seq_of x ≠ k) as Hno.
  { destruct (li_b _ Hinv) as [Hb _]. destruct (session_received _ _ _ Hb) as [Hl Hn _ _].
    intros x [i Hi]%list_elem_of_lookup_1 Hs. destruct (Hn _ _ Hi) as [_ Hx]. apply lookup_lt_Some in Hi. lia. }
  assert (∀ x, x ∈ outb (l_aev l) → seq_of x = k → lost x) as Hlost by (by intros; split).
  clearbody lost. clear Hreach Hcur. induction Hrtc as [l|l l1 l' Hstep _ IH]; [done|].
  pose proof (link_step_inv _ _ Hinv (lost_is_step _ _ _ Hstep)) as Hinv1.
  destruct Hstep as [(b & e & s & Hc & Hrun & ->)|(b & e & s & Hc & Hnl & Hrun & ->)]; simpl in *.
  - destruct (li_a _ Hinv) as [_ Hab]. destruct (node_abandoned k _ _ _ _ Hab Hk Hlt Hrun) as (Hk1 & Hlt1 & Hno1).
    apply IH; try done. intros x. simpl. rewrite outb_app. intros [?|Hx]%elem_of_app Hs; [auto|by destruct (Hno1 x Hx)].
  - apply IH; try done. intros x. simpl. rewrite inb_app. intros [?|Hx]%elem_of_app Hs; [by eapply Hno|].
    destruct (node_delivers ob b _ _ _ Hrun x Hx) as [Hin Hxs]. apply (Hnl x Hin), Hlost; [|done]. apply Hc; [done|congruence].
Qed.
End Link.
