(* ===== verification/BridgeScenarios.v ===== *)
(** * The wire bridge: concrete sessions

    The witnesses of the properties of [BridgeFacts] and [BridgeLink], and a CLOSE
    that is sent again. *)

From Stdlib Require Import Ascii String.
From stdpp Require Import base option strings numbers gmap list relations.
From S2P Require Import Prelude Text Storage DurabilityExample Protocol NodeState Resilience Bridge BridgeFacts BridgeLink.
Import Wire.

Local Open Scope rx_scope.
Local Open Scope N_scope.

#[local] Existing Instance escaped_tuples.

Definition session_options : WireBridgeOptions := mkOptions "s" (mkRetryPolicy 3 BackoffNone).

(** A run of commands, all at one time. *)
Definition commands (l : list (WireBridgeCommand nat)) : BridgeBatch (O := nat) (I := nat) :=
  mkBatch [] ((λ c, (Some c, 5)) <$> l) None.

Definition after (bs : list (BridgeBatch (O := nat) (I := nat))) : list (WireBridgeEvent nat nat) * BridgeState nat :=
  match run_each (events_node session_options) bs bridge_state with Ret ev s => (ev, s) | _ => ([], bridge_state) end.

(** Two sends, the first of them twice; the first is exhausted after three attempts. *)
Definition two_sends : list (BridgeBatch (O := nat) (I := nat)) :=
  [ commands [CSend 7%nat None None; CSend 8%nat None None]; commands [CAckTimeout 1 1 None];
    commands [CAckTimeout 1 2 None; CAckTimeout 1 3 None] ].

Lemma two_sends_run : runs_of session_options two_sends (after two_sends).1 (after two_sends).2.
Proof. vm_compute. reflexivity. Qed.

Lemma options_bounded : max_attempts (o_retry session_options) ≤ u32_max.
Proof. vm_compute. discriminate. Qed.

Lemma bridge_refines_session_witness :
  3 ≤ u32_max ∧ ∃ ev s, runs_of session_options two_sends ev s ∧ session session_options ev s.
Proof. split; [vm_compute; discriminate|]. apply (bridge_refines_session session_options two_sends), options_bounded. Defined.

Lemma sends_numbered_and_bounded_witness :
  (send_key <$> outb (after two_sends).1) = [(1, 1); (2, 1); (1, 2); (1, 3)] ∧ NoDup (send_key <$> outb (after two_sends).1).
Proof.
  split; [vm_compute; reflexivity|].
  apply (sends_numbered_and_bounded session_options two_sends _ _ options_bounded two_sends_run).
Defined.

Lemma settled_once_witness : omap outcome (after two_sends).1 = [1] ∧ NoDup (omap outcome (after two_sends).1).
Proof.
  split; [vm_compute; reflexivity|]. apply (settled_once session_options two_sends _ _ options_bounded two_sends_run).
Defined.

Lemma status_shows_session_witness :
  st_pending (project_status "s" None (after two_sends).1) = N.of_nat (size (pending (after two_sends).2)).
Proof.
  apply (status_shows_session session_options two_sends _ _ options_bounded two_sends_run).
  intros e He Ht. exfalso. revert He Ht. generalize (eq_refl (envelope_type <$> outb (after two_sends).1)).
  set (l := outb _) at 2 3. intros Hl He Ht.
  apply (list_elem_of_fmap_2 envelope_type) in He. rewrite <- Hl, Ht in He. vm_compute in He.
  repeat (apply elem_of_cons in He as [He|He]; [discriminate|]). by apply elem_of_nil in He.
Defined.

(** The status loses a CLOSE that is sent again: the retry sets the count of
    pending envelopes to 0 while the CLOSE is still pending. *)
Theorem close_retry_hides_pending :
  let '(ev, s) := after [commands [CClose None None]; commands [CAckTimeout 1 1 None]] in
  size (pending s) = 1%nat ∧ st_pending (project_status "s" None ev) = 0
  ∧ st_pending (project_status "s" None (after [commands [CClose None None]]).1) = 1.
Proof. vm_compute. repeat split. Qed.

(** ** Two bridges *)

(** The left side sends [n] values, or runs other commands; nothing is delivered. *)
Definition left_ran (l : list (WireBridgeCommand nat)) : Link (X := nat) (Y := nat) :=
  let '(ev, s) := after [commands l] in mkLink s ev bridge_state [].

Lemma left_reached l : events_node session_options (commands l) bridge_state = Ret (after [commands l]).1 (after [commands l]).2 →
  reached session_options session_options (left_ran l).
Proof.
  unfold left_ran. destruct (after [commands l]) as [ev s]. intros Hrun. apply rtc_once.
  refine (run_a _ _ link_new (commands l) ev s _ Hrun). by intros e ?%elem_of_nil.
Qed.

Definition sent_three : Link (X := nat) (Y := nat) := left_ran [CSend 7%nat None None; CSend 8%nat None None; CSend 9%nat None None].

(** The second envelope comes first, then the first twice, then the second again. *)
Definition disorder : BridgeBatch (O := nat) (I := nat) :=
  mkBatch ((λ i, (λ e, IEnvelope e) <$> (outb (l_aev sent_three) !! i)) <$> [1; 0; 0; 1]%nat) [] None.

Definition after_disorder : Link (X := nat) (Y := nat) :=
  match events_node session_options disorder bridge_state with
  | Ret ev s => mkLink (l_a sent_three) (l_aev sent_three) s ev
  | _ => sent_three
  end.

Lemma sent_three_reached : reached session_options session_options sent_three.
Proof. apply (left_reached [CSend 7%nat None None; CSend 8%nat None None; CSend 9%nat None None]). vm_compute. reflexivity. Qed.

Lemma disorder_runs : events_node session_options disorder (l_b sent_three) = Ret (l_bev after_disorder) (l_b after_disorder).
Proof. vm_compute. reflexivity. Qed.

Lemma disorder_link : after_disorder
  = mkLink (l_a sent_three) (l_aev sent_three) (l_b after_disorder) (l_bev sent_three ++ l_bev after_disorder).
Proof. vm_compute. reflexivity. Qed.

Lemma disorder_reached : reached session_options session_options after_disorder.
Proof.
  rewrite disorder_link. unfold reached. apply (rtc_r _ sent_three); [exact sent_three_reached|].
  refine (run_b _ _ sent_three disorder _ _ _ disorder_runs).
  intros e He _. apply list_elem_of_omap in He as (v & Hv & He).
  apply list_elem_of_fmap in Hv as (i & -> & Hi). destruct (outb (l_aev sent_three) !! i) as [e'|] eqn:Hlook; [|discriminate].
  injection He as <-. by eapply list_elem_of_lookup_2.
Qed.

Lemma delivery_is_prefix_witness :
  core <$> inb (l_bev after_disorder) = take 2 (core <$> firsts (l_aev after_disorder)).
Proof.
  exact (delivery_is_prefix session_options session_options eq_refl options_bounded options_bounded after_disorder disorder_reached).
Defined.

Lemma retry_makes_progress_witness :
  ∃ ea sa eb sb, events_node session_options (timeout_now 3 1 6) (l_a after_disorder) = Ret ea sa ∧ cursor sb = 3
    ∧ reached session_options session_options (mkLink sa (l_aev after_disorder ++ ea) sb (l_bev after_disorder ++ eb)).
Proof.
  assert ((λ p, attempt_of (pe_envelope p)) <$> (pending (l_a after_disorder) !! 3) = Some 1) as Hl by (vm_compute; reflexivity).
  apply fmap_Some in Hl as (p & Hp & Ha). symmetry in Ha.
  destruct (retry_makes_progress session_options session_options eq_refl options_bounded options_bounded after_disorder 3 p 6)
    as (ea & sa & eb & sb & Hrun & _ & _ & Hc & Hr); [apply disorder_reached|vm_compute; reflexivity|exact Hp|rewrite Ha; reflexivity|].
  rewrite Ha in Hrun. exists ea, sa, eb, sb. split; [exact Hrun|]. split; [exact Hc|exact Hr].
Defined.

(** An acknowledgement and a value; the acknowledgement is lost, and the value is
    out of order however often it comes. *)
Definition ack_and_value : Link (X := nat) (Y := nat) := left_ran [CAck 1 None None; CSend 7%nat None None].

(** Only the value comes. *)
Definition value_alone : BridgeBatch (O := nat) (I := nat) :=
  mkBatch (Some ∘ IEnvelope <$> drop 1 (outb (l_aev ack_and_value))) [] None.
Definition after_value : Link (X := nat) (Y := nat) :=
  match events_node session_options value_alone (l_b ack_and_value) with
  | Ret e s => mkLink (l_a ack_and_value) (l_aev ack_and_value) s (l_bev ack_and_value ++ e)
  | _ => ack_and_value
  end.

Lemma value_seq : seq_of <$> drop 1 (outb (l_aev ack_and_value)) = [2].
Proof. vm_compute. reflexivity. Qed.

Lemma value_step :
  lost_step session_options session_options (λ x, x ∈ outb (l_aev ack_and_value) ∧ seq_of x = 1) ack_and_value after_value.
Proof.
  right. exists value_alone. eexists _, _. split_and!.
  - intros e He _. apply list_elem_of_omap in He as (v & Hv & He). apply list_elem_of_fmap in Hv as (x & -> & Hx).
    injection He as <-. rewrite <- (take_drop 1 (outb (l_aev ack_and_value))). apply elem_of_app. by right.
  - intros e He [_ Hs]. apply list_elem_of_omap in He as (v & Hv & He). apply list_elem_of_fmap in Hv as (x & -> & Hx).
    injection He as <-. apply (list_elem_of_fmap_2 seq_of) in Hx. rewrite value_seq, Hs in Hx. by apply list_elem_of_singleton in Hx.
  - vm_compute. reflexivity.
  - vm_compute. reflexivity.
Qed.

Lemma lost_unpending_wedges_witness : cursor (l_b after_value) = 0 ∧ cursor (l_b after_value) < 1.
Proof.
  split; [vm_compute; reflexivity|].
  apply (lost_unpending_wedges session_options session_options eq_refl options_bounded options_bounded ack_and_value 1 after_value).
  - apply left_reached. vm_compute. reflexivity.
  - vm_compute. reflexivity.
  - vm_compute. reflexivity.
  - vm_compute. reflexivity.
  - apply rtc_once, value_step.
Defined.
