(* ===== verification/RemoteCall.v ===== *)
(** * Remote calls over a bridge (adapters/bridge.rs)

    The caller's side ([remote_call]): a request is a DATA envelope, the responses
    node matches the responses that come in with the requests in flight, and the
    status and errors nodes follow the same events with a copy of the table of
    their own.  The answering side ([remote_responder]): a node reads the inbound
    port with a cursor of its own and calls the handler of the operation. *)

From Stdlib Require Import Ascii String.
From stdpp Require Import base option strings numbers gmap list.
From S2P Require Import Prelude Text Storage Protocol NodeState Resilience Bridge.
Import Wire.

Local Open Scope rx_scope.
Local Open Scope N_scope.

Module Remote.

(** ** Data *)

Record RemoteCallRequest (T : Type) := mkRequest { rq_operation : string; rq_request_id : string; rq_payload : T }.
Arguments mkRequest {T} _ _ _.
Arguments rq_operation {T} _.
Arguments rq_request_id {T} _.
Arguments rq_payload {T} _.

Inductive RemoteCallResponse (T : Type) :=
| RResult (operation request_id : string) (payload : T)
| RError (operation request_id error : string)
| RStatus (operation request_id status : string).
Arguments RResult {T} _ _ _.
Arguments RError {T} _ _ _.
Arguments RStatus {T} _ _ _.

Record RemoteCallResult (T : Type) := mkResult { rr_operation : string; rr_request_id : string; rr_payload : T }.
Arguments mkResult {T} _ _ _.
Arguments rr_operation {T} _.
Arguments rr_request_id {T} _.
Arguments rr_payload {T} _.

Record RemoteCallError := mkError { er_operation : option string; er_request_id : option string; er_error : string }.

Inductive RemoteCallStatusState := Idle | Requested | Responded | Errored | TimedOut | BridgeErrored.

Record RemoteCallStatus := mkStatus {
  cs_state : RemoteCallStatusState;
  cs_operation : option string;
  cs_request_id : option string;
  cs_pending : nat;
  cs_completed : N;
  cs_errors : N;
  cs_timeouts : N
}.

Record RemoteCallTimeout := mkTimeout { to_operation : option string; to_request_id : string; to_error : string }.

Definition remote_call_response_request_id {T} (r : RemoteCallResponse T) : string :=
  match r with RResult _ id _ | RError _ id _ | RStatus _ id _ => id end.
Definition remote_call_response_operation {T} (r : RemoteCallResponse T) : string :=
  match r with RResult op _ _ | RError op _ _ | RStatus op _ _ => op end.
Definition remote_call_response_is_terminal {T} (r : RemoteCallResponse T) : bool :=
  match r with RResult _ _ _ | RError _ _ _ => true | RStatus _ _ _ => false end.

(** [format!("{}\u{0}{}")]. *)
Definition call_key (operation request_id : string) : string := operation +:+ String zero "" +:+ request_id.
Definition remote_call_response_key {T} (r : RemoteCallResponse T) : string :=
  call_key (remote_call_response_operation r) (remote_call_response_request_id r).

(** ** The requests in flight *)

Record RemoteCallPendingRequest := mkPendingRequest { pr_operation : string; pr_request_id : string; pr_seq : option N }.
#[export] Instance pending_request_eq : EqDecision RemoteCallPendingRequest.
Proof. solve_decision. Defined.

Record RemoteCallPendingState := mkPendingState {
  request_ids : gset string;
  by_request_id : gmap string RemoteCallPendingRequest;
  by_seq : gmap N RemoteCallPendingRequest
}.

Definition pending_default : RemoteCallPendingState := mkPendingState ∅ ∅ ∅.

Section Pending.
Implicit Types p : RemoteCallPendingState.
Implicit Types r : RemoteCallPendingRequest.

Definition get_by_request_id (id : string) p : option RemoteCallPendingRequest := by_request_id p !! id.

(** The request gets its sequence number. *)
Definition bind_seq r (seq : N) : RemoteCallPendingRequest := mkPendingRequest (pr_operation r) (pr_request_id r) (Some seq).

Definition seq_taken p (seq : option N) : bool :=
  match seq with Some seq => bool_decide (is_Some (by_seq p !! seq)) | None => false end.

Definition pending_insert r p : bool * RemoteCallPendingState :=
  match by_request_id p !! pr_request_id r with
  | Some existing =>
      if bool_decide (pr_operation existing = pr_operation r) && bool_decide (pr_seq existing = None) then
        match pr_seq r with
        | Some seq =>
            if seq_taken p (Some seq) then (false, p)
            else (true, mkPendingState (request_ids p)
                          (<[pr_request_id r := bind_seq existing seq]> (by_request_id p))
                          (<[seq := bind_seq existing seq]> (by_seq p)))
        | None => (false, p)
        end
      else (false, p)
  | None =>
      if seq_taken p (pr_seq r) then (false, p)
      else (true, mkPendingState ({[pr_request_id r]} ∪ request_ids p)
                    (<[pr_request_id r := r]> (by_request_id p))
                    (match pr_seq r with Some seq => <[seq := r]> (by_seq p) | None => by_seq p end))
  end.

Definition remove_by_request_id (id : string) p : option RemoteCallPendingRequest * RemoteCallPendingState :=
  if negb (bool_decide (id ∈ request_ids p)) then (None, p)
  else
    let ids := request_ids p ∖ {[id]} in
    match by_request_id p !! id with
    | None => (None, mkPendingState ids (by_request_id p) (by_seq p))
    | Some r =>
        (Some r, mkPendingState ids (delete id (by_request_id p))
                   (match pr_seq r with Some seq => delete seq (by_seq p) | None => by_seq p end))
    end.

Definition remove_by_seq (seq : N) p : option RemoteCallPendingRequest * RemoteCallPendingState :=
  match by_seq p !! seq with
  | None => (None, p)
  | Some r => (Some r, mkPendingState (request_ids p ∖ {[pr_request_id r]}) (delete (pr_request_id r) (by_request_id p))
                         (delete seq (by_seq p)))
  end.

Definition remove_all_unbound p : RemoteCallPendingState :=
  let ids := pr_request_id <$> List.filter (λ r, bool_decide (pr_seq r = None)) (map_to_list (by_request_id p)).*2 in
  mkPendingState (request_ids p ∖ list_to_set ids) (foldr delete (by_request_id p) ids) (by_seq p).

Definition pending_len p : nat := size (request_ids p).
End Pending.

Definition pending_request_from_envelope {T} (e : WireBridgeEnvelope (RemoteCallRequest T)) : option RemoteCallPendingRequest :=
  match payload e with
  | Some (PData request) =>
      Some (mkPendingRequest (rq_operation request) (rq_request_id request) (Some (md_seq (metadata e))))
  | _ => None
  end.

Definition pending_request_from_command {T} (c : WireBridgeCommand (RemoteCallRequest T)) : option RemoteCallPendingRequest :=
  match c with
  | CSend payload _ _ => Some (mkPendingRequest (rq_operation payload) (rq_request_id payload) None)
  | _ => None
  end.

Definition remote_call_response_matches_pending {T} (r : RemoteCallResponse T) (q : RemoteCallPendingRequest) : bool :=
  bool_decide (remote_call_response_operation r = pr_operation q).

Definition remote_call_request_key (q : RemoteCallPendingRequest) : string := call_key (pr_operation q) (pr_request_id q).

(** ** The caller *)

Section Caller.
Context {Q R : Type}.
Abbreviation Command := (WireBridgeCommand (RemoteCallRequest Q)).
Abbreviation Event := (WireBridgeEvent (RemoteCallRequest Q) (RemoteCallResponse R)).

(** The calls of the bundle: what they set on the command and the timeouts node. *)
Definition call_with_options (operation request_id : string) (payload : Q) (key : option string)
    : M (list Command) (RemoteCallRequest Q) :=
  let request := mkRequest operation request_id payload in
  assert_or (negb (empty operation)) "remote_call: operation must be non-empty" ;;;
  assert_or (negb (empty request_id)) "remote_call: request_id must be non-empty" ;;;
  modify (λ sent, sent ++ [CSend request key (Some request_id)]) ;;;
  ret request.

Definition call (operation request_id : string) (payload : Q) : M (list Command) (RemoteCallRequest Q) :=
  call_with_options operation request_id payload None.

Definition timeout (request_id : string) (operation : option string) (error : string)
    : M (list RemoteCallTimeout) RemoteCallTimeout :=
  let t := mkTimeout operation request_id error in
  assert_or (negb (empty request_id)) "remote_call: timeout request_id must be non-empty" ;;;
  assert_or (negb (empty error)) "remote_call: timeout error must be non-empty" ;;;
  modify (λ l, l ++ [t]) ;;;
  ret t.

(** What a run of the responses node meets. *)
Record CallBatch := mkCallBatch {
  cb_commands : list Command;
  cb_events : list Event;
  cb_timeouts : list RemoteCallTimeout
}.

Definition bridge_problem (e : Event) : bool :=
  match e with EInvalid _ | ESessionMismatch _ _ | EOutOfOrder _ _ | ELateReceipt _ _ => true | _ => false end.

Definition inserted (p : RemoteCallPendingState) (r : RemoteCallPendingRequest) : RemoteCallPendingState := (pending_insert r p).2.

Definition outbound_request (e : Event) : option RemoteCallPendingRequest :=
  match e with EOutbound envelope => pending_request_from_envelope envelope | _ => None end.

(** A response that comes in: accepted if its request is in flight. *)
Definition accept_response (p : RemoteCallPendingState) (envelope : WireBridgeEnvelope (RemoteCallResponse R))
    : RemoteCallPendingState * list (RemoteCallResponse R) :=
  match payload envelope with
  | Some (PData response) =>
      let id := remote_call_response_request_id response in
      match get_by_request_id id p with
      | Some request =>
          if negb (remote_call_response_matches_pending response request) then (p, [])
          else (if remote_call_response_is_terminal response then (remove_by_request_id id p).2 else p, [response])
      | None => (p, [])
      end
  | _ => (p, [])
  end.

Definition responses_event (st : RemoteCallPendingState * list (RemoteCallResponse R)) (e : Event)
    : RemoteCallPendingState * list (RemoteCallResponse R) :=
  let '(p, ready) := st in
  match e with
  | EInvalid _ => (remove_all_unbound p, ready)
  | EInbound envelope => let '(p, accepted) := accept_response p envelope in (p, ready ++ accepted)
  | ENack _ _ outbound _ => ((remove_by_seq (md_seq (metadata outbound)) p).2, ready)
  | EExhausted seq _ _ => ((remove_by_seq seq p).2, ready)
  | _ => (p, ready)
  end.

(** One run of the responses node: the new table and the responses it emits. *)
Definition remote_call_responses_node (b : CallBatch) (p : RemoteCallPendingState)
    : RemoteCallPendingState * list (RemoteCallResponse R) :=
  let p := if existsb bridge_problem (cb_events b) then p
           else foldl inserted p (omap pending_request_from_command (cb_commands b)) in
  let p := foldl inserted p (omap outbound_request (cb_events b)) in
  let '(p, ready) := foldl responses_event (p, []) (cb_events b) in
  (foldl (λ p t, (remove_by_request_id (to_request_id t) p).2) p (cb_timeouts b), ready).

Definition remote_call_results_node (responses : list (RemoteCallResponse R)) : list (RemoteCallResult R) :=
  omap (λ r, match r with RResult op id payload => Some (mkResult op id payload) | _ => None end) responses.
End Caller.
Arguments mkCallBatch {Q R} _ _ _.
Arguments CallBatch : clear implicits.

(** ** The status node *)

Section Status.
Context {Q R : Type}.
Abbreviation Command := (WireBridgeCommand (RemoteCallRequest Q)).
Abbreviation Event := (WireBridgeEvent (RemoteCallRequest Q) (RemoteCallResponse R)).

Record RemoteCallStatusReducer := mkReducer {
  rd_status : RemoteCallStatus;
  rd_pending : RemoteCallPendingState;
  terminal_before_request : gset string
}.

Definition initial_remote_call_status : RemoteCallStatus := mkStatus Idle None None 0 0 0 0.
Definition reducer_default : RemoteCallStatusReducer := mkReducer initial_remote_call_status pending_default ∅.

Implicit Types d : RemoteCallStatusReducer.

Definition with_pending p d := mkReducer (rd_status d) p (terminal_before_request d).
Definition with_early f d := mkReducer (rd_status d) (rd_pending d) (f (terminal_before_request d)).
Definition on_status f d := mkReducer (f (rd_status d)) (rd_pending d) (terminal_before_request d).

Definition with_state st (c : RemoteCallStatus) := mkStatus st (cs_operation c) (cs_request_id c) (cs_pending c)
  (cs_completed c) (cs_errors c) (cs_timeouts c).
Definition with_names op id (c : RemoteCallStatus) := mkStatus (cs_state c) op id (cs_pending c)
  (cs_completed c) (cs_errors c) (cs_timeouts c).
Definition with_counts completed errors timeouts (c : RemoteCallStatus) := mkStatus (cs_state c) (cs_operation c)
  (cs_request_id c) (cs_pending c) completed errors timeouts.
Definition with_len n (c : RemoteCallStatus) := mkStatus (cs_state c) (cs_operation c) (cs_request_id c) n
  (cs_completed c) (cs_errors c) (cs_timeouts c).
Definition one_error (c : RemoteCallStatus) : RemoteCallStatus :=
  with_counts (cs_completed c) (sat64 (cs_errors c + 1)) (cs_timeouts c) c.

Definition requested (q : RemoteCallPendingRequest) : RemoteCallStatus → RemoteCallStatus :=
  λ c, with_names (Some (pr_operation q)) (Some (pr_request_id q)) (with_state Requested c).

Definition status_command d (c : Command) : RemoteCallStatusReducer :=
  match pending_request_from_command c with
  | None => d
  | Some request =>
      let d := on_status (requested request) d in
      if bool_decide (remote_call_request_key request ∈ terminal_before_request d) then d
      else with_pending (pending_insert request (rd_pending d)).2 d
  end.

Definition status_outbound d (e : Event) : RemoteCallStatusReducer :=
  match outbound_request e with
  | None => d
  | Some request =>
      let d := on_status (requested request) d in
      let key := remote_call_request_key request in
      if bool_decide (key ∈ terminal_before_request d) then with_early (λ s, s ∖ {[key]}) d
      else
        let '(fresh, p) := pending_insert request (rd_pending d) in
        let d := with_pending p d in
        if fresh then d else on_status (λ c, one_error (with_state Errored c)) d
  end.

(** A refusal or an exhaustion, of the request it names if there is one. *)
Definition bridge_error (request : option RemoteCallPendingRequest) (error : string) d : RemoteCallStatusReducer :=
  let d := on_status (with_state BridgeErrored) d in
  let d := match request with
           | Some q => on_status (with_names (Some (pr_operation q)) (Some (pr_request_id q))) d
           | None => d
           end in
  if empty error then d else on_status one_error d.

Definition status_inbound d (envelope : WireBridgeEnvelope (RemoteCallResponse R)) : RemoteCallStatusReducer :=
  match payload envelope with
  | Some (PData response) =>
      let id := remote_call_response_request_id response in
      let wrong op id := on_status (λ c, one_error (with_names (Some op) (Some id) (with_state Errored c))) d in
      match get_by_request_id id (rd_pending d) with
      | Some request =>
          if negb (remote_call_response_matches_pending response request) then wrong (pr_operation request) (pr_request_id request)
          else match response with
               | RStatus op id _ => on_status (with_names (Some op) (Some id)) d
               | _ => d
               end
      | None => wrong (remote_call_response_operation response) id
      end
  | _ => d
  end.

Definition status_event d (e : Event) : RemoteCallStatusReducer :=
  match e with
  | EInvalid _ =>
      on_status (λ c, one_error (with_state BridgeErrored c)) (with_pending (remove_all_unbound (rd_pending d)) d)
  | ESessionMismatch _ _ | EOutOfOrder _ _ | ELateReceipt _ _ => on_status (λ c, one_error (with_state BridgeErrored c)) d
  | ENack _ _ outbound error =>
      let '(removed, p) := remove_by_seq (md_seq (metadata outbound)) (rd_pending d) in
      bridge_error (match removed with Some q => Some q | None => pending_request_from_envelope outbound end) error
        (with_pending p d)
  | EExhausted seq _ error =>
      let '(removed, p) := remove_by_seq seq (rd_pending d) in bridge_error removed error (with_pending p d)
  | EInbound envelope => status_inbound d envelope
  | _ => d
  end.

(** A terminal response: if its request was not sent yet, its key is kept. *)
Definition finish (operation id : string) d : RemoteCallStatusReducer :=
  let '(removed, p) := remove_by_request_id id (rd_pending d) in
  let d := with_pending p d in
  if match removed with Some q => bool_decide (pr_seq q = None) | None => true end
  then with_early (λ s, {[call_key operation id]} ∪ s) d else d.

Definition status_response d (r : RemoteCallResponse R) : RemoteCallStatusReducer :=
  match r with
  | RResult _ _ _ => d
  | RError op id _ =>
      on_status (λ c, one_error (with_names (Some op) (Some id) (with_state Errored c))) (finish op id d)
  | RStatus op id _ =>
      if bool_decide (is_Some (get_by_request_id id (rd_pending d)))
      then on_status (with_names (Some op) (Some id)) d else d
  end.

Definition status_result d (r : RemoteCallResult R) : RemoteCallStatusReducer :=
  on_status (λ c, let c := with_names (Some (rr_operation r)) (Some (rr_request_id r)) (with_state Responded c) in
                  with_counts (sat64 (cs_completed c + 1)) (cs_errors c) (cs_timeouts c) c)
    (finish (rr_operation r) (rr_request_id r) d).

Definition status_timeout d (t : RemoteCallTimeout) : RemoteCallStatusReducer :=
  on_status (λ c, let c := with_names (to_operation t) (Some (to_request_id t)) (with_state TimedOut c) in
                  with_counts (cs_completed c) (sat64 (cs_errors c + 1)) (sat64 (cs_timeouts c + 1)) c)
    (with_pending (remove_by_request_id (to_request_id t) (rd_pending d)).2 d).

(** One run of the status node. *)
Definition remote_call_status_node (b : CallBatch Q R) (responses : list (RemoteCallResponse R))
    (results : list (RemoteCallResult R)) (st : option RemoteCallStatusReducer) : RemoteCallStatusReducer :=
  let d := default reducer_default st in
  let d := foldl status_command d (cb_commands b) in
  let d := foldl status_outbound d (cb_events b) in
  let d := foldl status_event d (cb_events b) in
  let d := foldl status_response d responses in
  let d := foldl status_result d results in
  let d := foldl status_timeout d (cb_timeouts b) in
  on_status (with_len (pending_len (rd_pending d))) d.
End Status.

(** ** The errors node *)

Section Errors.
Context {Q R : Type}.
Abbreviation Event := (WireBridgeEvent (RemoteCallRequest Q) (RemoteCallResponse R)).

(** What a run of the node carries: its table, the accepted responses not yet
    met among the events, and what it emits. *)
Record ErrorsRun := mkErrorsRun {
  er_pending : RemoteCallPendingState;
  er_accepted : gmap string nat;
  er_out : list RemoteCallError
}.

Definition emit_error (e : RemoteCallError) (x : ErrorsRun) : ErrorsRun :=
  mkErrorsRun (er_pending x) (er_accepted x) (er_out x ++ [e]).
Definition er_with_pending (p : RemoteCallPendingState) (x : ErrorsRun) : ErrorsRun :=
  mkErrorsRun p (er_accepted x) (er_out x).
Definition er_with_accepted (a : gmap string nat) (x : ErrorsRun) : ErrorsRun :=
  mkErrorsRun (er_pending x) a (er_out x).

Definition of_request (q : option RemoteCallPendingRequest) (error : string) : RemoteCallError :=
  mkError (pr_operation <$> q) (pr_request_id <$> q) error.

Definition errors_outbound (x : ErrorsRun) (e : Event) : ErrorsRun :=
  match outbound_request e with
  | None => x
  | Some request =>
      let '(fresh, p) := pending_insert request (er_pending x) in
      let x := er_with_pending p x in
      if fresh then x
      else emit_error (of_request (Some request)
             ("remote_call: duplicate in-flight request_id '" +:+ pr_request_id request +:+ "'")) x
  end.

Definition errors_response (x : ErrorsRun) (r : RemoteCallResponse R) : ErrorsRun :=
  let key := remote_call_response_key r in
  let x := er_with_accepted (<[key := S (default 0%nat (er_accepted x !! key))]> (er_accepted x)) x in
  match r with
  | RError op id error =>
      emit_error (mkError (Some op) (Some id) error) (er_with_pending (remove_by_request_id id (er_pending x)).2 x)
  | RResult _ id _ => er_with_pending (remove_by_request_id id (er_pending x)).2 x
  | RStatus _ _ _ => x
  end.

Definition errors_timeout (x : ErrorsRun) (t : RemoteCallTimeout) : ErrorsRun :=
  emit_error (mkError (to_operation t) (Some (to_request_id t)) (to_error t))
    (er_with_pending (remove_by_request_id (to_request_id t) (er_pending x)).2 x).

Definition remote_call_bridge_error_message (e : Event) : string :=
  match e with
  | ESessionMismatch expected actual => expected +:+ ": session mismatch: " +:+ actual
  | EOutOfOrder seq expected => "wireBridge: out-of-order seq " +:+ u64_string seq +:+ ", expected " +:+ u64_string expected
  | ELateReceipt receipt seq => "wireBridge: late " +:+ receipt_debug receipt +:+ " for seq " +:+ u64_string seq
  | EInvalid error => error
  | _ => "wireBridge: bridge error"
  end.

Definition errors_inbound (x : ErrorsRun) (envelope : WireBridgeEnvelope (RemoteCallResponse R)) : ErrorsRun :=
  match payload envelope with
  | Some (PData response) =>
      match er_accepted x !! remote_call_response_key response with
      | Some (S n) => er_with_accepted (<[remote_call_response_key response := n]> (er_accepted x)) x
      | _ =>
          let id := remote_call_response_request_id response in
          let op := remote_call_response_operation response in
          match get_by_request_id id (er_pending x) with
          | Some request =>
              if remote_call_response_matches_pending response request then x
              else emit_error (of_request (Some request)
                     ("remote_call: response operation '" +:+ op +:+ "' did not match pending operation '"
                        +:+ pr_operation request +:+ "'")) x
          | None => emit_error (mkError (Some op) (Some id) "remote_call: orphan response for unknown or completed request") x
          end
      end
  | _ => x
  end.

Definition errors_event (x : ErrorsRun) (e : Event) : ErrorsRun :=
  match e with
  | ENack _ _ outbound error =>
      let '(removed, p) := remove_by_seq (md_seq (metadata outbound)) (er_pending x) in
      emit_error (of_request (match removed with Some q => Some q | None => pending_request_from_envelope outbound end) error)
        (er_with_pending p x)
  | EExhausted seq _ error =>
      let '(removed, p) := remove_by_seq seq (er_pending x) in emit_error (of_request removed error) (er_with_pending p x)
  | EInvalid error => emit_error (mkError None None error) x
  | EInbound envelope => errors_inbound x envelope
  | ESessionMismatch _ _ | EOutOfOrder _ _ | ELateReceipt _ _ =>
      emit_error (mkError None None (remote_call_bridge_error_message e)) x
  | _ => x
  end.

Definition remote_call_errors_node (responses : list (RemoteCallResponse R)) (timeouts : list RemoteCallTimeout)
    (events : list Event) (p : RemoteCallPendingState) : RemoteCallPendingState * list RemoteCallError :=
  let x := foldl errors_outbound (mkErrorsRun p ∅ []) events in
  let x := foldl errors_response x responses in
  let x := foldl errors_timeout x timeouts in
  let x := foldl errors_event x events in
  (er_pending x, er_out x).
End Errors.

(** ** The responder *)

Inductive RemoteResponderEvent (Q R : Type) :=
| VRequest (request : RemoteCallRequest Q) (seq : N)
| VResponse (request_id operation : string) (command : WireBridgeCommand (RemoteCallResponse R))
| VRejected (request_id operation : option string) (error : string) (command : option (WireBridgeCommand (RemoteCallResponse R)))
| VInvalid (error : string).
Arguments VRequest {Q R} _ _.
Arguments VResponse {Q R} _ _ _.
Arguments VRejected {Q R} _ _ _ _.
Arguments VInvalid {Q R} _.

Inductive RemoteResponderStatusState := SIdle | SResponded | SRejected | SErrored.

Record RemoteResponderStatus := mkResponderStatus {
  rs_state : RemoteResponderStatusState;
  rs_operation : option string;
  rs_request_id : option string;
  rs_handled : N;
  rs_rejected : N;
  rs_errors : N
}.

(** What a handler does: it answers, fails, or panics with a payload. *)
Inductive Handled (R : Type) :=
| HOk (payload : R)
| HErr (error : string)
| HPanic (p : Payload).
Arguments HOk {R} _.
Arguments HErr {R} _.
Arguments HPanic {R} _.

Record RemoteResponderCursor := mkCursor { rc_cursor : N; rc_remote_cursor : N }.
Definition cursor_default : RemoteResponderCursor := mkCursor 0 0.

Inductive RemoteResponderInbound (Q : Type) :=
| NRequest (request : RemoteCallRequest Q) (seq : N)
| NConsumed
| NInvalid (error : string).
Arguments NRequest {Q} _ _.
Arguments NConsumed {Q}.
Arguments NInvalid {Q} _.

Section Responder.
Context {Q R : Type}.
Abbreviation Handlers := (gmap string (RemoteCallRequest Q → Handled R)).
Abbreviation VEvent := (RemoteResponderEvent Q R).
Abbreviation VCommand := (WireBridgeCommand (RemoteCallResponse R)).

Definition remote_responder_handler (operation : string) (handle : RemoteCallRequest Q → Handled R)
    : Result string (string * (RemoteCallRequest Q → Handled R)) :=
  if empty operation then Err "remote_responder_handler: operation must be non-empty"%string else Ok (operation, handle).

(** The table of the handlers; an operation that comes twice is an assertion. *)
Definition normalize_remote_handlers (handlers : list (string * (RemoteCallRequest Q → Handled R))) : Result string Handlers :=
  try_fold (λ out h, if bool_decide (is_Some (out !! h.1))
                     then Err ("remote_responder: duplicate operation '" +:+ h.1 +:+ "'")
                     else Ok (<[h.1 := h.2]> out)) ∅ handlers.

Definition reduce_remote_responder_ingress (session : string) (ingress : WireBridgeIngress (RemoteCallRequest Q))
    (c : RemoteResponderCursor) : RemoteResponderInbound Q * RemoteResponderCursor :=
  match ingress with
  | IInvalid error => (NInvalid error, c)
  | IEnvelope envelope =>
      let m := metadata envelope in
      let seq := md_seq m in
      let expected := sat64 (rc_cursor c + 1) in
      match validate_inbound_envelope envelope with
      | Err error => (NInvalid (envelope_error_string error), c)
      | Ok _ =>
          if negb (bool_decide (session_id envelope = session)) then
            (NInvalid (session +:+ ": remoteResponder session mismatch: " +:+ session_id envelope), c)
          else if seq <=? rc_cursor c then
            (NInvalid ("remoteResponder: duplicate request seq " +:+ u64_string seq +:+ " at cursor " +:+ u64_string (rc_cursor c)), c)
          else if expected <? seq then
            (NInvalid ("remoteResponder: out-of-order request seq " +:+ u64_string seq +:+ ", expected " +:+ u64_string expected), c)
          else if md_cursor m <? rc_remote_cursor c then
            (NInvalid (session +:+ ": remoteResponder inbound cursor " +:+ u64_string (md_cursor m) +:+ " regressed below "
                         +:+ u64_string (rc_remote_cursor c)), c)
          else
            let c := mkCursor seq (md_cursor m) in
            if negb (bool_decide (envelope_type envelope = TData)) then (NConsumed, c)
            else
              match payload envelope with
              | Some (PData request) => (NRequest request seq, c)
              | _ => (NInvalid "remoteResponder: request envelope must carry request DATA", c)
              end
      end
  end.

(** [message.contains(part)]. *)
Definition contains (message part : string) : bool := match String.index 0 part message with Some _ => true | None => false end.

Definition panic_message (p : Payload) : option string := match p with PanicStr message => Some message | _ => None end.

Definition is_graph_invariant_panic (message : string) : bool :=
  existsb (contains message) ["R-reentrancy"; "R-rewire"; "D22"; "same graph"; "different graph"]%string.

(** The response to a request; the panic of a graph invariant goes on. *)
Definition respond (request : RemoteCallRequest Q) (h : Handled R) : Payload + RemoteCallResponse R :=
  let op := rq_operation request in
  let id := rq_request_id request in
  match h with
  | HOk payload => inr (RResult op id payload)
  | HErr error => inr (RError op id error)
  | HPanic p =>
      match panic_message p with
      | Some message =>
          if is_graph_invariant_panic message then inl p
          else inr (RError op id ("remoteResponder: handler threw: " +:+ message))
      | None => inr (RError op id "remoteResponder: handler threw")
      end
  end.

Definition remote_responder_rejected_event (request : RemoteCallRequest Q) (error : string) : VEvent :=
  VRejected (Some (rq_request_id request)) (Some (rq_operation request)) error
    (Some (CSend (RError (rq_operation request) (rq_request_id request) error) None (Some (rq_request_id request)))).

Definition unknown_operation (operation : string) : string := "remoteResponder: unknown operation '" +:+ operation +:+ "'".

(** A value of the inbound node: the events it makes, after the cursor is moved. *)
Definition responder_value (session : string) (handlers : Handlers) (reject_unknown : bool)
    (v : option (WireBridgeIngress (RemoteCallRequest Q))) : M RemoteResponderCursor (list VEvent) :=
  match v with
  | None => ret [VInvalid "remoteResponder: inbound DATA must carry a wire bridge ingress fact"]
  | Some ingress =>
      let! c := gets id in
      let '(r, c) := reduce_remote_responder_ingress session ingress c in
      modify (λ _, c) ;;;
      match r with
      | NConsumed => ret []
      | NInvalid error => ret [VInvalid error]
      | NRequest request seq =>
          match handlers !! rq_operation request with
          | None =>
              ret (VRequest request seq ::
                   if reject_unknown
                   then [remote_responder_rejected_event request (unknown_operation (rq_operation request))] else [])
          | Some handler =>
              match respond request (handler request) with
              | inl p => panic p
              | inr response =>
                  ret [VRequest request seq;
                       VResponse (rq_request_id request) (rq_operation request)
                         (CSend response (Some (session +:+ ":" +:+ rq_request_id request +:+ ":response"))
                            (Some (rq_request_id request)))]
              end
          end
      end
  end.

(** One run of the node: the cursor is kept in a local variable and stored at the
    end, so a panic leaves the stored one as it was. *)
Definition remote_responder_events_node (session : string) (handlers : Handlers) (reject_unknown : bool)
    (batch : list (option (WireBridgeIngress (RemoteCallRequest Q)))) : M (option RemoteResponderCursor) (list VEvent) :=
  let! stored := gets id in
  match run_each (responder_value session handlers reject_unknown) batch (default cursor_default stored) with
  | Ret events c => modify (λ _, Some c) ;;; ret events
  | Unwind p _ => panic p
  | OutOfFuel => no_fuel
  end.

Definition remote_responder_response_commands_node (events : list VEvent) : list VCommand :=
  omap (λ e, match e with VResponse _ _ command => Some command | VRejected _ _ _ command => command | _ => None end) events.

Definition remote_responder_requests_node (events : list VEvent) : list (RemoteCallRequest Q) :=
  omap (λ e, match e with VRequest request _ => Some request | _ => None end) events.

Definition response_command_error (c : VCommand) : option string :=
  match c with CSend (RError _ _ error) _ _ => Some error | _ => None end.

Definition initial_remote_responder_status : RemoteResponderStatus := mkResponderStatus SIdle None None 0 0 0.

Definition responder_status (s : RemoteResponderStatus) (e : VEvent) : RemoteResponderStatus :=
  match e with
  | VResponse id op command =>
      if bool_decide (is_Some (response_command_error command))
      then mkResponderStatus SRejected (Some op) (Some id) (rs_handled s) (sat64 (rs_rejected s + 1)) (rs_errors s)
      else mkResponderStatus SResponded (Some op) (Some id) (sat64 (rs_handled s + 1)) (rs_rejected s) (rs_errors s)
  | VRejected id op _ _ => mkResponderStatus SRejected op id (rs_handled s) (sat64 (rs_rejected s + 1)) (rs_errors s)
  | VInvalid _ => mkResponderStatus SErrored (rs_operation s) (rs_request_id s) (rs_handled s) (rs_rejected s) (sat64 (rs_errors s + 1))
  | VRequest request _ =>
      mkResponderStatus (rs_state s) (Some (rq_operation request)) (Some (rq_request_id request)) (rs_handled s)
        (rs_rejected s) (rs_errors s)
  end.

Definition remote_responder_status_node (st : option RemoteResponderStatus) (events : list VEvent) : RemoteResponderStatus :=
  foldl responder_status (default initial_remote_responder_status st) events.

Definition remote_responder_errors_node (events : list VEvent) : list RemoteCallError :=
  omap (λ e, match e with
             | VResponse id op command => (λ error, mkError (Some op) (Some id) error) <$> response_command_error command
             | VRejected id op error _ => Some (mkError op id error)
             | VInvalid error => Some (mkError None None error)
             | VRequest _ _ => None
             end) events.
End Responder.

(** ** Wiring the responder

    [attach] and [detach] change the sources of the bridge's command node
    ([Wire.attach_source], [Wire.detach_source]); [release_nodes] releases nodes of
    the graph.  All three may panic. *)

Section Wiring.
Context {W : Type} (attach detach release_nodes : M W unit).

(** The end of [remote_responder]: a failed attachment releases the new nodes. *)
Definition wire_responder : M W unit :=
  let! r := catch_unwind attach in
  match r with
  | inl _ => ret tt
  | inr p => release_nodes ;;; panic p
  end.

(** A step on the graph, beside the bundle's [released] flag. *)
Definition on_graph {A} (m : M W A) : M (bool * W) A := zoom snd (λ w s, (s.1, w)) m.

(** [RemoteResponderBundle::release], with its [released] flag. *)
Definition release : M (bool * W) unit :=
  let! released := gets (λ s : bool * W, s.1) in
  if released then ret tt
  else
    on_graph detach ;;;
    let! r := on_graph (catch_unwind release_nodes) in
    match r with
    | inl _ => modify (λ s, (true, s.2))
    | inr p => on_graph attach ;;; panic p
    end.
End Wiring.
End Remote.
