(* ===== verification/RemoteCallFacts.v ===== *)
(** * Remote calls: the tables, the answers, the round trip

    The three nodes of a caller keep tables of the requests in flight that stay
    consistent, and a response that is let through belongs to a request.  The
    responder walks the session with its bridge and answers every request of it
    once.  Put together, a call over two quiet bridges comes back with what the
    handler returned. *)

From Stdlib Require Import Ascii String.
From stdpp Require Import base option strings numbers gmap list fin_map_dom.
From S2P Require Import Prelude Text Storage Protocol NodeState Resilience Bridge BridgeFacts RemoteCall.
Import Wire Remote.

Local Open Scope rx_scope.
Local Open Scope N_scope.

Lemma foldl_keeps {A B} (P : A → Prop) (f : A → B → A) l a : (∀ a b, P a → P (f a b)) → P a → P (foldl f a l).
Proof. intros Hf. revert a. induction l as [|b l IH]; [done|]. intros a Ha. by apply IH, Hf. Qed.

(** ** The tables *)

(** The two maps and the set hold the same requests. *)
Record table_ok (p : RemoteCallPendingState) : Prop := {
  tk_ids : request_ids p = dom (by_request_id p);
  tk_name id r : by_request_id p !! id = Some r → pr_request_id r = id;
  tk_seq k r : by_seq p !! k = Some r ↔ by_request_id p !! pr_request_id r = Some r ∧ pr_seq r = Some k
}.

Lemma table_default : table_ok pending_default.
Proof. split; [set_solver|done|]. intros k r. simpl. rewrite !lookup_empty. naive_solver. Qed.

Lemma insert_table r p : table_ok p → table_ok (pending_insert r p).2.
Proof.
  intros Hp. pose proof Hp as [Hids Hname Hseq]. unfold pending_insert.
  destruct (by_request_id p !! pr_request_id r) as [old|] eqn:Hold.
  - case_bool_decide; [|done]. case_bool_decide as Hnone; [|done]. simpl.
    destruct (pr_seq r) as [k|]; [|done]. unfold seq_taken. case_bool_decide as Hfree; [done|].
    apply eq_None_not_Some in Hfree. pose proof (Hname _ _ Hold) as Hn. split; simpl.
    + rewrite dom_insert_lookup_L by (by exists old). done.
    + intros id x [[<- <-]|[_ Hx]]%lookup_insert_Some; [done|eauto].
    + intros j x. rewrite !lookup_insert_Some, Hseq. unfold bind_seq. split.
      * intros [[<- <-]|[Hj [Hx Hs]]]; [simpl; rewrite Hn; split; [by left|done]|]. split; [|done]. right. split; [|done].
        intros He. rewrite <- He in Hx. simplify_eq.
      * intros [[[He <-]|[He Hx]] Hs]; [simpl in Hs; left; naive_solver|]. right. split; [|done].
        intros ->. assert (by_seq p !! j = Some x) by (by apply Hseq). congruence.
  - destruct (seq_taken p (pr_seq r)) eqn:Ht; [done|]. split; simpl.
    + by rewrite dom_insert_L, Hids.
    + intros id x [[<- <-]|[_ Hx]]%lookup_insert_Some; eauto.
    + intros j x. rewrite lookup_insert_Some. destruct (pr_seq r) as [k|] eqn:Hk; simpl in Ht.
      * apply bool_decide_eq_false, eq_None_not_Some in Ht. rewrite lookup_insert_Some, Hseq. split.
        -- intros [[<- <-]|[Hj [Hx Hs]]]; [tauto|]. split; [|done]. right. split; [|done]. congruence.
        -- intros [[[He <-]|[He Hx]] Hs]; [left; naive_solver|]. right. split; [|done].
           intros ->. assert (by_seq p !! j = Some x) by (by apply Hseq). congruence.
      * rewrite Hseq. split; [intros [Hx Hs]; split; [right; split; [congruence|done]|done]|].
        intros [[[He <-]|[He Hx]] Hs]; [congruence|done].
Qed.

Lemma remove_table_req r p :
  table_ok p → by_request_id p !! pr_request_id r = Some r →
  table_ok (mkPendingState (request_ids p ∖ {[pr_request_id r]}) (delete (pr_request_id r) (by_request_id p))
              (match pr_seq r with Some seq => delete seq (by_seq p) | None => by_seq p end)).
Proof.
  intros [Hids Hname Hseq] Hr. split; simpl.
  - by rewrite dom_delete_L, Hids.
  - intros id x [_ Hx]%lookup_delete_Some. eauto.
  - intros j x. rewrite lookup_delete_Some.
    assert (∀ x, by_request_id p !! pr_request_id x = Some x → pr_request_id r = pr_request_id x → x = r) as Huniq.
    { intros y Hy He. rewrite <- He in Hy. congruence. }
    destruct (pr_seq r) as [k|] eqn:Hk; rewrite ?lookup_delete_Some, ?Hseq; [|naive_solver congruence].
    split.
    + intros (Hj & Hx & Hs). split_and!; try done. intros He. rewrite (Huniq x) in Hs; naive_solver congruence.
    + intros ([He Hx] & Hs). split_and!; try done. intros ->. apply He.
      assert (by_seq p !! j = Some x) as H1 by (by apply Hseq). assert (by_seq p !! j = Some r) as H2 by (by apply Hseq).
      congruence.
Qed.

Lemma remove_request_table id p : table_ok p → table_ok (remove_by_request_id id p).2.
Proof.
  intros Hp. unfold remove_by_request_id. case_bool_decide as Hin; [|done]. simpl.
  rewrite (tk_ids _ Hp), elem_of_dom in Hin. destruct Hin as [r Hr]. rewrite Hr. simpl.
  pose proof (tk_name _ Hp _ _ Hr) as <-. by apply remove_table_req.
Qed.

Lemma remove_seq_table k p : table_ok p → table_ok (remove_by_seq k p).2.
Proof.
  intros Hp. unfold remove_by_seq. destruct (by_seq p !! k) as [r|] eqn:Hk; [|done]. simpl.
  apply (tk_seq _ Hp) in Hk as [Hr Hs]. pose proof (remove_table_req r p Hp Hr) as Ht. by rewrite Hs in Ht.
Qed.

Lemma unbound_elem id p : table_ok p →
  id ∈ (pr_request_id <$> List.filter (λ r, bool_decide (pr_seq r = None)) (map_to_list (by_request_id p)).*2)
  ↔ ∃ r, by_request_id p !! id = Some r ∧ pr_seq r = None.
Proof.
  intros Hp. rewrite list_elem_of_fmap. setoid_rewrite list_elem_of_In. setoid_rewrite filter_In.
  setoid_rewrite <- list_elem_of_In. setoid_rewrite bool_decide_eq_true. split.
  - intros (r & -> & Hr & Hs). exists r. split; [|done].
    apply list_elem_of_fmap in Hr as ([i r'] & -> & Hr%elem_of_map_to_list). simpl in *.
    pose proof (tk_name _ Hp _ _ Hr). by subst.
  - intros (r & Hr & Hs). exists r. split_and!; [by rewrite (tk_name _ Hp _ _ Hr)| |done].
    apply list_elem_of_fmap. exists (id, r). split; [done|]. by apply elem_of_map_to_list.
Qed.

Lemma remove_unbound_table p : table_ok p → table_ok (remove_all_unbound p).
Proof.
  intros Hp. unfold remove_all_unbound. set (ids := pr_request_id <$> _).
  assert (∀ id, id ∈ ids ↔ ∃ r, by_request_id p !! id = Some r ∧ pr_seq r = None) as Hin by (intros; by apply unbound_elem).
  pose proof Hp as [Hids Hname Hseq]. split; simpl.
  - apply set_eq. intros id. rewrite elem_of_dom, elem_of_difference, elem_of_list_to_set, Hids, elem_of_dom.
    unfold is_Some. setoid_rewrite lookup_foldr_delete_Some. naive_solver.
  - intros id r [_ Hr]%lookup_foldr_delete_Some. eauto.
  - intros k r. rewrite lookup_foldr_delete_Some, Hseq, Hin. split; [|naive_solver].
    intros [Hr Hs]. split; [|done]. split; [|done]. intros (x & Hx & Hn). congruence.
Qed.
#[local] Hint Resolve table_default insert_table remove_request_table remove_seq_table remove_unbound_table : remote.

(** ** The caller's nodes *)

Section Caller.
Context {Q R : Type}.
Abbreviation Event := (WireBridgeEvent (RemoteCallRequest Q) (RemoteCallResponse R)).
Abbreviation Table := RemoteCallPendingState.
Implicit Types b : CallBatch Q R.
Implicit Types p : Table.

Lemma accept_cases p (envelope : WireBridgeEnvelope (RemoteCallResponse R)) :
  accept_response p envelope = (p, []) ∨
  ∃ r q, by_request_id p !! remote_call_response_request_id r = Some q ∧ remote_call_response_operation r = pr_operation q
    ∧ accept_response p envelope
      = (if remote_call_response_is_terminal r then (remove_by_request_id (remote_call_response_request_id r) p).2 else p, [r]).
Proof.
  unfold accept_response, get_by_request_id, remote_call_response_matches_pending.
  destruct (payload envelope) as [[r| | |]|]; try by left.
  destruct (by_request_id p !! _) as [q|] eqn:Hq; [|by left]. case_bool_decide; simpl; [|by left].
  right. exists r, q. by destruct (remote_call_response_is_terminal r).
Qed.

Lemma inserted_table l p : table_ok p → table_ok (foldl inserted p l).
Proof. apply (foldl_keeps table_ok). intros x r. apply insert_table. Qed.

Lemma timeouts_table (l : list RemoteCallTimeout) p :
  table_ok p → table_ok (foldl (λ p t, (remove_by_request_id (to_request_id t) p).2) p l).
Proof. apply (foldl_keeps table_ok). intros x t. apply remove_request_table. Qed.

Lemma responses_event_table st e : table_ok st.1 → table_ok (responses_event (Q := Q) (R := R) st e).1.
Proof.
  destruct st as [p ready]. simpl. intros Hp. destruct e; simpl; auto with remote.
  destruct (accept_cases p envelope) as [->|(r & q & _ & _ & ->)]; [done|].
  destruct (remote_call_response_is_terminal r); simpl; auto with remote.
Qed.

Lemma responses_table b p : table_ok p → table_ok (remote_call_responses_node b p).1.
Proof.
  intros Hp. unfold remote_call_responses_node. set (p1 := if existsb _ _ then _ else _).
  assert (table_ok p1) as H1.
  { unfold p1. destruct (existsb _ _); [done|]. by apply inserted_table. }
  set (p2 := foldl inserted p1 _). assert (table_ok p2) as H2 by (by apply inserted_table).
  pose proof (foldl_keeps (λ st, table_ok st.1) responses_event (cb_events b) (p2, [])
                responses_event_table H2) as H3.
  destruct (foldl responses_event (p2, []) (cb_events b)) as [p3 ready]. simpl in *. by apply timeouts_table.
Qed.

Lemma early_table f (d : RemoteCallStatusReducer) : rd_pending (with_early f d) = rd_pending d.
Proof. done. Qed.

Lemma finish_table op id d : table_ok (rd_pending d) → table_ok (rd_pending (finish op id d)).
Proof.
  intros Hp. unfold finish. pose proof (remove_request_table id (rd_pending d) Hp) as Hr.
  destruct (remove_by_request_id id (rd_pending d)) as [removed q]. simpl in Hr.
  destruct removed as [r|]; [case_bool_decide|]; done.
Qed.

Lemma bridge_error_table request error d : rd_pending (bridge_error request error d) = rd_pending d.
Proof. unfold bridge_error. by destruct request, (empty error). Qed.

Lemma status_command_table d (c : WireBridgeCommand (RemoteCallRequest Q)) :
  table_ok (rd_pending d) → table_ok (rd_pending (status_command d c)).
Proof.
  intros Hp. unfold status_command. destruct (pending_request_from_command c); [|done].
  case_bool_decide; simpl; auto with remote.
Qed.

Lemma status_outbound_table d (e : Event) : table_ok (rd_pending d) → table_ok (rd_pending (status_outbound d e)).
Proof.
  intros Hp. unfold status_outbound. destruct (outbound_request e) as [r|]; [|done]. case_bool_decide; [done|].
  simpl. pose proof (insert_table r (rd_pending d) Hp) as Hi. by destruct (pending_insert r (rd_pending d)) as [[] q].
Qed.

Lemma status_event_table d (e : Event) : table_ok (rd_pending d) → table_ok (rd_pending (status_event d e)).
Proof.
  intros Hp. destruct e; simpl; auto with remote.
  - unfold status_inbound. destruct (payload envelope) as [[r| | |]|]; try done.
    destruct (get_by_request_id _ _); [|done]. destruct (remote_call_response_matches_pending _ _); [|done]. by destruct r.
  - pose proof (remove_seq_table (md_seq (metadata outbound)) _ Hp) as Hr.
    destruct (remove_by_seq _ _) as [x q]. by rewrite bridge_error_table.
  - pose proof (remove_seq_table seq _ Hp) as Hr. destruct (remove_by_seq _ _) as [x q]. by rewrite bridge_error_table.
Qed.

Lemma status_table b responses results st :
  (∀ d, st = Some d → table_ok (rd_pending d)) → table_ok (rd_pending (remote_call_status_node b responses results st)).
Proof.
  intros Hst. unfold remote_call_status_node. simpl.
  repeat lazymatch goal with |- table_ok (rd_pending (foldl _ _ _)) => apply (foldl_keeps (λ d, table_ok (rd_pending d))) end.
  - intros d t Hd. unfold status_timeout. simpl. auto with remote.
  - intros d r Hd. unfold status_result. simpl. by apply finish_table.
  - intros d [| |] Hd; simpl; [done|by apply finish_table|]. by case_bool_decide.
  - apply status_event_table.
  - apply status_outbound_table.
  - apply status_command_table.
  - destruct st; simpl; [by apply Hst|apply table_default].
Qed.

Lemma errors_event_table (x : ErrorsRun) (e : Event) : table_ok (er_pending x) → table_ok (er_pending (errors_event x e)).
Proof.
  intros Hp. destruct e; simpl; try done.
  - unfold errors_inbound. destruct (payload envelope) as [[r| | |]|]; try done.
    destruct (er_accepted x !! _) as [[|n]|]; try done; destruct (get_by_request_id _ _); try done;
      by destruct (remote_call_response_matches_pending _ _).
  - pose proof (remove_seq_table (md_seq (metadata outbound)) _ Hp) as Hr. by destruct (remove_by_seq _ _).
  - pose proof (remove_seq_table seq _ Hp) as Hr. by destruct (remove_by_seq _ _).
Qed.

Lemma errors_table responses timeouts (events : list Event) p :
  table_ok p → table_ok (remote_call_errors_node responses timeouts events p).1.
Proof.
  intros Hp. unfold remote_call_errors_node. simpl.
  repeat lazymatch goal with |- table_ok (er_pending (foldl _ _ _)) => apply (foldl_keeps (λ x, table_ok (er_pending x))) end; try done.
  - apply errors_event_table.
  - intros x t Hx. unfold errors_timeout. simpl. auto with remote.
  - intros x [| |] Hx; unfold errors_response; simpl; auto with remote.
  - intros x e Hx. unfold errors_outbound. destruct (outbound_request e) as [r|]; [|done].
    pose proof (insert_table r (er_pending x) Hx) as Hi. by destruct (pending_insert r (er_pending x)) as [[] q].
Qed.

(** *** What a response needs *)

(** The requests a run of the responses node is told of. *)
Definition asks b : list RemoteCallPendingRequest :=
  omap pending_request_from_command (cb_commands b) ++ omap outbound_request (cb_events b).

Definition asks_for (id : string) (l : list RemoteCallPendingRequest) : nat :=
  length (List.filter (λ q, bool_decide (pr_request_id q = id)) l).

(** The results and errors that answer an id. *)
Definition answers_to (id : string) (out : list (RemoteCallResponse R)) : nat :=
  length (List.filter (λ r, remote_call_response_is_terminal r && bool_decide (remote_call_response_request_id r = id)) out).

Definition in_flight (id : string) p : nat := match by_request_id p !! id with Some _ => 1 | None => 0 end.

(** The runs of the node over a history. *)
Definition responses_run (st : Table * list (RemoteCallResponse R)) b : Table * list (RemoteCallResponse R) :=
  let '(p, out) := remote_call_responses_node b st.1 in (p, st.2 ++ out).
Definition responses_runs (bs : list (CallBatch Q R)) : Table * list (RemoteCallResponse R) :=
  foldl responses_run (pending_default, []) bs.

Record accounts (l : list RemoteCallPendingRequest) (out : list (RemoteCallResponse R)) p : Prop := {
  ac_table : table_ok p;
  ac_held id q : by_request_id p !! id = Some q →
    ∃ a, a ∈ l ∧ pr_request_id a = id ∧ pr_operation a = pr_operation q;
  ac_out r : r ∈ out → ∃ a, a ∈ l ∧ pr_request_id a = remote_call_response_request_id r
                            ∧ pr_operation a = remote_call_response_operation r;
  ac_count id : (answers_to id out + in_flight id p ≤ asks_for id l)%nat
}.

Lemma accounts_new : accounts [] [] pending_default.
Proof. split; [apply table_default|done|by intros r ?%elem_of_nil|]. intros id. unfold in_flight. simpl. by rewrite lookup_empty. Qed.

Lemma asks_for_app id l l' : asks_for id (l ++ l') = (asks_for id l + asks_for id l')%nat.
Proof. unfold asks_for. by rewrite List.filter_app, length_app. Qed.

Lemma answers_to_app id o o' : answers_to id (o ++ o') = (answers_to id o + answers_to id o')%nat.
Proof. unfold answers_to. by rewrite List.filter_app, length_app. Qed.

Lemma accounts_more l l' out p : accounts l out p → accounts (l ++ l') out p.
Proof.
  intros [Ht Hh Ho Hc]. split; [done| | |].
  - intros id q Hq. destruct (Hh _ _ Hq) as (a & Ha & Hr). exists a. split; [set_solver|done].
  - intros r Hr. destruct (Ho _ Hr) as (a & Ha & He). exists a. split; [set_solver|done].
  - intros id. rewrite asks_for_app. pose proof (Hc id). lia.
Qed.

Lemma in_flight_sub id p p' : by_request_id p' ⊆ by_request_id p → (in_flight id p' ≤ in_flight id p)%nat.
Proof.
  intros Hs. unfold in_flight. destruct (by_request_id p' !! id) as [q|] eqn:Hq; [|lia].
  by rewrite (lookup_weaken _ _ _ _ Hq Hs).
Qed.

Lemma accounts_less l out p p' : table_ok p' → by_request_id p' ⊆ by_request_id p → accounts l out p → accounts l out p'.
Proof.
  intros Ht' Hs [Ht Hh Ho Hc]. split; [done| |done|].
  - intros id q Hq. by apply Hh, (lookup_weaken _ _ _ _ Hq Hs).
  - intros id. pose proof (Hc id). pose proof (in_flight_sub id _ _ Hs). lia.
Qed.

Lemma insert_other r p id : id ≠ pr_request_id r → by_request_id (pending_insert r p).2 !! id = by_request_id p !! id.
Proof.
  intros Hne. unfold pending_insert. destruct (by_request_id p !! pr_request_id r).
  - destruct (_ && _); [|done]. destruct (pr_seq r); [|done]. destruct (seq_taken _ _); [done|]. simpl.
    by rewrite lookup_insert_ne.
  - destruct (seq_taken _ _); [done|]. simpl. by rewrite lookup_insert_ne.
Qed.

Lemma insert_held r p q :
  by_request_id (pending_insert r p).2 !! pr_request_id r = Some q →
  pr_operation q = pr_operation r ∨ by_request_id p !! pr_request_id r = Some q.
Proof.
  intros Hq. destruct (decide (by_request_id (pending_insert r p).2 = by_request_id p)) as [He|Hne]; [right; by rewrite <- He|left].
  revert Hq Hne. unfold pending_insert. destruct (by_request_id p !! pr_request_id r) as [old|].
  - case_bool_decide as Hop; [|by intros _ []]. destruct (bool_decide (pr_seq old = None)); [|by intros _ []].
    destruct (pr_seq r) as [k|]; [|by intros _ []]. destruct (seq_taken p _); [by intros _ []|]. simpl.
    rewrite lookup_insert_eq. by intros [= <-] _.
  - destruct (seq_taken p _); [by intros _ []|]. simpl. rewrite lookup_insert_eq. by intros [= <-] _.
Qed.

Lemma accounts_ask l out p r : accounts l out p → accounts (l ++ [r]) out (pending_insert r p).2.
Proof.
  intros [Ht Hh Ho Hc]. pose proof (accounts_more _ [r] _ _ (Build_accounts _ _ _ Ht Hh Ho Hc)) as [_ Hh' Ho' _].
  split; [by apply insert_table| |done|].
  - intros id q Hq. destruct (decide (id = pr_request_id r)) as [->|Hne].
    + apply insert_held in Hq as [Hop|Hq]; [|by apply Hh']. exists r. split; [set_solver|done].
    + rewrite insert_other in Hq by done. by apply Hh'.
  - intros id. rewrite asks_for_app. unfold asks_for at 2. simpl. pose proof (Hc id) as Hid. unfold in_flight in *.
    case_bool_decide as Hr; simpl.
    + destruct (by_request_id p !! id), (by_request_id (pending_insert r p).2 !! id); lia.
    + rewrite insert_other by done. lia.
Qed.

Lemma accounts_asks l out p rs : accounts l out p → accounts (l ++ rs) out (foldl inserted p rs).
Proof.
  revert l p. induction rs as [|r rs IH]; intros l p Hp; [by rewrite app_nil_r|].
  simpl. replace (l ++ r :: rs) with ((l ++ [r]) ++ rs) by (by rewrite <- app_assoc). by apply IH, accounts_ask.
Qed.

Lemma remove_request_sub id p : by_request_id (remove_by_request_id id p).2 ⊆ by_request_id p.
Proof.
  unfold remove_by_request_id. case_bool_decide; [|done]. simpl. destruct (by_request_id p !! id); [|done]. apply delete_subseteq.
Qed.

Lemma remove_seq_sub k p : by_request_id (remove_by_seq k p).2 ⊆ by_request_id p.
Proof. unfold remove_by_seq. destruct (by_seq p !! k); [|done]. apply delete_subseteq. Qed.

Lemma remove_unbound_sub p : by_request_id (remove_all_unbound p) ⊆ by_request_id p.
Proof.
  unfold remove_all_unbound. simpl. apply map_subseteq_spec. intros i x. rewrite lookup_foldr_delete_Some. by intros [].
Qed.

Lemma remove_request_gone id p : table_ok p → by_request_id (remove_by_request_id id p).2 !! id = None.
Proof.
  intros Hp. unfold remove_by_request_id. case_bool_decide as Hin; rewrite (tk_ids _ Hp) in Hin; simpl.
  - apply elem_of_dom in Hin as [q Hq]. rewrite Hq. simpl. apply lookup_delete_eq.
  - by apply not_elem_of_dom in Hin.
Qed.

Lemma accounts_response l out p envelope :
  accounts l out p → let st := accept_response p envelope in accounts l (out ++ st.2) st.1.
Proof.
  intros Hp. destruct (accept_cases p envelope) as [->|(r & q & Hq & Hop & ->)]; simpl; [by rewrite app_nil_r|].
  destruct Hp as [Ht Hh Ho Hc].
  assert (∀ x, x ∈ out ++ [r] → ∃ a, a ∈ l ∧ pr_request_id a = remote_call_response_request_id x
                                       ∧ pr_operation a = remote_call_response_operation x) as Hout.
  { intros x [Hx| ->%list_elem_of_singleton]%elem_of_app; [by apply Ho|]. rewrite Hop. by apply Hh. }
  destruct (remote_call_response_is_terminal r) eqn:Hterm.
  - set (id0 := remote_call_response_request_id r) in *. pose proof (remove_request_sub id0 p) as Hsub.
    split; [by apply remove_request_table| |done|].
    + intros id x Hx. by apply Hh, (lookup_weaken _ _ _ _ Hx Hsub).
    + intros id. rewrite answers_to_app. pose proof (Hc id) as Hid. pose proof (in_flight_sub id _ _ Hsub) as Hle.
      unfold answers_to at 2. simpl. rewrite Hterm. fold id0. simpl. case_bool_decide as He; simpl; [|lia]. subst id.
      unfold in_flight in *. rewrite (remove_request_gone id0 p Ht). rewrite Hq in Hid. lia.
  - split; [done..|]. intros id. rewrite answers_to_app. unfold answers_to at 2. simpl. rewrite Hterm. simpl.
    pose proof (Hc id). lia.
Qed.

Lemma accounts_event l out p ready e :
  accounts l (out ++ ready) p → let st := responses_event (Q := Q) (p, ready) e in accounts l (out ++ st.2) st.1.
Proof.
  intros Hp. pose proof (ac_table _ _ _ Hp) as Ht. destruct e; try exact Hp.
  - pose proof (accounts_response _ _ _ envelope Hp) as Ha. simpl.
    destruct (accept_response p envelope) as [p' accepted]. simpl in *. by rewrite app_assoc.
  - eapply accounts_less, Hp; [by apply remove_seq_table|apply remove_seq_sub].
  - eapply accounts_less, Hp; [by apply remove_seq_table|apply remove_seq_sub].
  - eapply accounts_less, Hp; [by apply remove_unbound_table|apply remove_unbound_sub].
Qed.

Lemma accounts_run l out p b :
  accounts l out p → let st := remote_call_responses_node b p in accounts (l ++ asks b) (out ++ st.2) st.1.
Proof.
  intros Hp. unfold remote_call_responses_node, asks. set (p1 := if existsb _ _ then _ else _). rewrite app_assoc.
  assert (accounts (l ++ omap pending_request_from_command (cb_commands b)) out p1) as H1.
  { unfold p1. destruct (existsb _ _); [by apply accounts_more|by apply accounts_asks]. }
  apply (accounts_asks _ _ _ (omap outbound_request (cb_events b))) in H1. set (p2 := foldl inserted p1 _) in *.
  set (l' := (l ++ _) ++ _) in *.
  pose proof (foldl_keeps (λ st, accounts l' (out ++ st.2) st.1) responses_event (cb_events b) (p2, [])) as Hf.
  simpl in Hf. rewrite app_nil_r in Hf. specialize (Hf (λ '(p, ready) e Hst, accounts_event l' out p ready e Hst) H1).
  destruct (foldl responses_event (p2, []) (cb_events b)) as [p3 ready]. simpl in *.
  apply (foldl_keeps (accounts l' (out ++ ready))); [|done]. intros p4 t H4.
  eapply accounts_less, H4; [by apply remove_request_table, (ac_table _ _ _ H4)|apply remove_request_sub].
Qed.

Lemma accounts_runs (bs : list (CallBatch Q R)) :
  accounts (bs ≫= asks) (responses_runs bs).2 (responses_runs bs).1.
Proof.
  unfold responses_runs. cut (∀ l st, accounts l st.2 st.1 →
    accounts (l ++ (bs ≫= asks)) (foldl responses_run st bs).2 (foldl responses_run st bs).1).
  { intros Hc. apply (Hc [] (pending_default, [])), accounts_new. }
  induction bs as [|b bs IH]; intros l st Hst; [simpl; by rewrite app_nil_r|].
  simpl. rewrite app_assoc. apply IH. pose proof (accounts_run _ _ _ b Hst) as Hr. unfold responses_run.
  by destruct (remote_call_responses_node b st.1).
Qed.
End Caller.

(** *** Properties *)

(** The tables of the requests in flight stay consistent.  Whatever commands,
    events, responses and timeouts a run of the responses, status or errors node
    meets, its set of ids, its map by id and its map by sequence number hold the
    same requests after it if they did before, each under its own id and number;
    and the status shows as pending just the requests of the map. *)
Theorem remote_tables_consistent {Q R} (b : CallBatch Q R) responses results p d :
  table_ok p → table_ok (rd_pending d) →
  let d' := remote_call_status_node b responses results (Some d) in
  table_ok (remote_call_responses_node b p).1
  ∧ table_ok (rd_pending d') ∧ cs_pending (rd_status d') = size (by_request_id (rd_pending d'))
  ∧ table_ok (remote_call_errors_node responses (cb_timeouts b) (cb_events b) p).1.
Proof.
  intros Hp Hd d'. assert (table_ok (rd_pending d')) as Hd'.
  { apply status_table. by intros d0 [= <-]. }
  split_and!; [by apply responses_table|done| |by apply errors_table].
  change (pending_len (rd_pending d') = size (by_request_id (rd_pending d'))).
  unfold pending_len. by rewrite (tk_ids _ Hd'), size_dom.
Qed.


(** ** The responder *)

(** *** Loops that emit *)

Lemma run_each_cons {St A E} (f : A → M St (list E)) a l s :
  run_each f (a :: l) s = (let! e := f a in let! es := run_each f l in ret (e ++ es)) s.
Proof.
  assert (∀ l acc s, fold_each l (λ events a, let! e := f a in ret (events ++ e)) acc s
                     = (let! es := run_each f l in ret (acc ++ es)) s) as Hacc.
  { clear. induction l as [|a l IH]; intros acc s; [unfold bind, ret, run_each; simpl; unfold ret; by rewrite app_nil_r|].
    unfold run_each. simpl. unfold bind, ret. destruct (f a s) as [e s1| |]; [|done..]. rewrite !IH. unfold bind, ret.
    destruct (run_each f l s1); [|done..]. by rewrite app_assoc. }
  unfold run_each at 1. simpl. unfold bind at 1 2 4, ret. destruct (f a s) as [e s1| |]; [|done..]. by rewrite Hacc.
Qed.

Lemma run_each_inv {St A E} (f : A → M St (list E)) a l s ev s' :
  run_each f (a :: l) s = Ret ev s' →
  ∃ e s1 es, f a s = Ret e s1 ∧ run_each f l s1 = Ret es s' ∧ ev = e ++ es.
Proof.
  rewrite run_each_cons. unfold bind, ret. destruct (f a s) as [e s1| |]; [|done..].
  destruct (run_each f l s1) as [es s2| |] eqn:Hl; [|done..]. intros [= <- <-]. by exists e, s1, es.
Qed.

Lemma run_each_step {St A E} (f : A → M St (list E)) a l s e s1 es s' :
  f a s = Ret e s1 → run_each f l s1 = Ret es s' → run_each f (a :: l) s = Ret (e ++ es) s'.
Proof. intros Ha Hl. rewrite run_each_cons. unfold bind, ret. by rewrite Ha, Hl. Qed.

Section Responder.
Context {Q R : Type} `{!TupleText} (opts : WireBridgeOptions).
Abbreviation sid := (o_session_id opts).
Abbreviation Ingress := (WireBridgeIngress (RemoteCallRequest Q)).
Abbreviation BEvent := (WireBridgeEvent (RemoteCallResponse R) (RemoteCallRequest Q)).
Abbreviation BState := (BridgeState (RemoteCallResponse R)).
Abbreviation Handlers := (gmap string (RemoteCallRequest Q → Handled R)).
Implicit Types s : BState.
Implicit Types c : RemoteResponderCursor.

(** The responder is where its bridge is. *)
Definition in_step s c : Prop := cursor s = rc_cursor c ∧ remote_cursor s = rc_remote_cursor c.

(** The requests among the events of the bridge. *)
Definition inbound_request (e : BEvent) : option (RemoteCallRequest Q) :=
  match e with
  | EInbound envelope => match payload envelope with Some (PData request) => Some request | _ => None end
  | _ => None
  end.

Definition ingress_request (r : RemoteResponderInbound Q) : option (RemoteCallRequest Q) :=
  match r with NRequest request _ => Some request | _ => None end.

Lemma data_payload {T} t (p : option (WireBridgePayload T)) :
  validate_payload_for_type t p = Ok tt → t = TData ↔ ∃ v, p = Some (PData v).
Proof. destruct t, p as [[]|]; try done; intros _; split; try done; naive_solver. Qed.

Lemma request_events k e (receipt : list BEvent) :
  omap inbound_request (ECursor k :: EInbound e :: receipt) = option_list (inbound_request (EInbound e)) ++ omap inbound_request receipt.
Proof. simpl. by destruct (payload e) as [[]|]. Qed.

Lemma envelope_followed s c (envelope : WireBridgeEnvelope (RemoteCallRequest Q)) ev s' :
  in_step s c → process_envelope (I := RemoteCallRequest Q) opts envelope s = Ret ev s' →
  let '(r, c') := reduce_remote_responder_ingress sid (IEnvelope envelope) c in
  in_step s' c' ∧ omap inbound_request ev = option_list (ingress_request r).
Proof.
  intros [Hc Hr]. unfold process_envelope, reduce_remote_responder_ingress.
  destruct (validate_inbound_envelope envelope) as [[]|error] eqn:Hv; [|by intros [= <- <-]].
  case_bool_decide as Hs; simpl; [|by intros [= <- <-]].
  unfold bind at 1, gets, id. unfold admit_inbound. rewrite <- Hc, <- Hr.
  destruct (md_seq (metadata envelope) <=? cursor s); [by intros [= <- <-]|].
  destruct (sat64 (cursor s + 1) <? md_seq (metadata envelope)); [by intros [= <- <-]|].
  destruct (md_cursor (metadata envelope) <? remote_cursor s); [by intros [= <- <-]|].
  apply valid_inbound in Hv. pose proof (data_payload _ _ (vp_payload _ _ _ _ _ _ _ _ Hv)) as Hdata.
  intros Hrun.
  assert (∃ receipt m, ev = ECursor (md_seq (metadata envelope)) :: EInbound envelope :: receipt
    ∧ s' = set_pending (λ _, m) (set_cursors (md_seq (metadata envelope)) (md_cursor (metadata envelope)) s)
    ∧ omap inbound_request receipt = []) as (receipt & m & -> & -> & Hrec).
  { revert Hrun. unfold bind, modify, process_ack, process_nack, expect, gets, ret.
    destruct (envelope_type envelope); simpl; try (by intros [= <- <-]; eexists [], (pending s); destruct s);
      (destruct (md_ack_for_seq (metadata envelope)) as [k|]; simpl; [|done]); intros [= <- <-]; eexists _, _;
      (split; [done|]); (split; [done|]); by destruct (pending s !! k). }
  rewrite request_events, Hrec, app_nil_r. case_bool_decide as Ht; simpl.
  - apply Hdata in Ht as [v Hp]. by rewrite Hp.
  - destruct (payload envelope) as [[v| | |]|]; try done. destruct Ht. apply Hdata. by exists v.
Qed.

(** What the handlers answer: the response to a request that has a handler. *)
Definition reply (request : RemoteCallRequest Q) (h : Handled R) : RemoteCallResponse R :=
  let op := rq_operation request in
  let id := rq_request_id request in
  match h with
  | HOk v => RResult op id v
  | HErr error => RError op id error
  | HPanic (PanicStr message) => RError op id ("remoteResponder: handler threw: " +:+ message)
  | HPanic _ => RError op id "remoteResponder: handler threw"
  end.

(** No handler panics with the message of a graph invariant. *)
Definition calm (handlers : Handlers) : Prop :=
  ∀ op handler request message, handlers !! op = Some handler → handler request = HPanic (PanicStr message) →
    is_graph_invariant_panic message = false.

Definition answer (handlers : Handlers) (reject_unknown : bool) (request : RemoteCallRequest Q)
    : option (WireBridgeCommand (RemoteCallResponse R)) :=
  let op := rq_operation request in
  let id := rq_request_id request in
  match handlers !! op with
  | Some handler => Some (CSend (reply request (handler request)) (Some (sid +:+ ":" +:+ id +:+ ":response")) (Some id))
  | None => if reject_unknown then Some (CSend (RError op id (unknown_operation op)) None (Some id)) else None
  end.

Lemma respond_calm handlers op handler request :
  calm handlers → handlers !! op = Some handler → respond request (handler request) = inr (reply request (handler request)).
Proof.
  intros Hc Hh. unfold respond, reply. pose proof (λ m, Hc op handler request m Hh) as Hm. destruct (handler request) as [| |[|message|]] eqn:He; try done.
  simpl. by rewrite (Hm message eq_refl).
Qed.

(** The events of the responder, for the events of the bridge. *)
Record answers handlers reject_unknown (ev : list BEvent) (vs : list (RemoteResponderEvent Q R)) : Prop := {
  an_requests : remote_responder_requests_node vs = omap inbound_request ev;
  an_commands : remote_responder_response_commands_node vs = omap (answer handlers reject_unknown) (omap inbound_request ev)
}.

Lemma answers_nil handlers reject : answers handlers reject [] [].
Proof. done. Qed.

Lemma answers_app handlers reject ev vs ev' vs' :
  answers handlers reject ev vs → answers handlers reject ev' vs' → answers handlers reject (ev ++ ev') (vs ++ vs').
Proof.
  unfold remote_responder_requests_node, remote_responder_response_commands_node.
  intros [H1 H2] [H3 H4]; split.
  - unfold remote_responder_requests_node in *. by rewrite !omap_app, H1, H3.
  - unfold remote_responder_response_commands_node in *. by rewrite !omap_app, H2, H4.
Qed.

Lemma value_followed handlers reject v s c ev s' :
  calm handlers → in_step s c → inbound_value (I := RemoteCallRequest Q) opts v s = Ret ev s' →
  ∃ vs c', responder_value sid handlers reject v c = Ret vs c' ∧ in_step s' c' ∧ answers handlers reject ev vs.
Proof.
  intros Hcalm Hin. destruct v as [ingress|]; [|by intros [= <- <-]; eexists _, c].
  destruct ingress as [envelope|error]; [|by intros [= <- <-]; eexists _, c].
  intros Hrun. pose proof (envelope_followed s c envelope ev s' Hin Hrun) as Hf.
  cbn [responder_value]. unfold bind at 1, gets, id.
  destruct (reduce_remote_responder_ingress sid (IEnvelope envelope) c) as [r c']. destruct Hf as [Hin' Hreq].
  unfold bind, modify. destruct r as [request seq| |error]; simpl in Hreq; [|by eexists _, _; split_and!; try done; split; rewrite Hreq..].
  unfold remote_responder_rejected_event.
  destruct (handlers !! rq_operation request) as [handler|] eqn:Hh.
  - rewrite (respond_calm handlers (rq_operation request)) by done. eexists _, _. split_and!; try done.
    split; rewrite Hreq; [done|]. simpl. unfold answer. by rewrite Hh.
  - eexists _, _. split_and!; try done. split; rewrite Hreq; simpl; unfold answer; rewrite ?Hh; by destruct reject.
Qed.

Lemma values_followed handlers reject l s c ev s' :
  calm handlers → in_step s c → run_each (inbound_value (I := RemoteCallRequest Q) opts) l s = Ret ev s' →
  ∃ vs c', run_each (responder_value sid handlers reject) l c = Ret vs c' ∧ in_step s' c' ∧ answers handlers reject ev vs.
Proof.
  intros Hcalm. revert s c ev s'. induction l as [|v l IH]; intros s c ev s' Hin; [by intros [= <- <-]; eexists _, _|].
  intros (e & s1 & es & Hv & Hl & ->)%run_each_inv.
  destruct (value_followed handlers reject _ _ _ _ _ Hcalm Hin Hv) as (vs & c1 & Hr & Hin1 & Ha).
  destruct (IH _ _ _ _ Hin1 Hl) as (vs' & c2 & Hr' & Hin2 & Ha'). exists (vs ++ vs'), c2.
  split_and!; [by apply (run_each_step _ _ _ _ _ c1)|done|by apply answers_app].
Qed.

(** A command neither moves the cursors nor brings a request. *)
Definition silent (op : M BState (list BEvent)) : Prop := ∀ s ev s',
  op s = Ret ev s' → cursor s' = cursor s ∧ remote_cursor s' = remote_cursor s ∧ omap inbound_request ev = [].

Lemma emit_silent spec now : silent (emit_outbound opts spec now).
Proof.
  intros s ev s'. unfold emit_outbound, bind at 1, gets, id. destruct (next_seq s =? u64_max); [by intros [= <- <-]|].
  destruct (wire_bridge_envelope _); [|by intros [= <- <-]]. unfold bind, when, modify, ret.
  destruct (sp_clear_pending_first spec), (sp_track_ack spec); by intros [= <- <-].
Qed.

Lemma retry_silent now current : silent (emit_retry_outbound opts now current).
Proof.
  intros s ev s'. unfold emit_retry_outbound, bind, gets, id. destruct (wire_bridge_envelope _); [|done]. by intros [= <- <-].
Qed.

Lemma first_timeout_silent seq attempt observed now current : silent (first_timeout opts seq attempt observed now current).
Proof.
  intros s ev s'. unfold first_timeout. destruct (negb _); [by intros [= <- <-]|].
  unfold bind at 1, modify. unfold bind at 1, gets. destruct (_ ≫= _); [by intros [= <- <-]|].
  unfold bind. destruct (emit_retry_outbound _ _ _ _) as [e s1| |] eqn:He; [|done..].
  intros [= <- <-]. apply retry_silent in He as (Hc & Hr & Ho). by split_and!.
Qed.

Lemma command_silent v : silent (command_value opts v).
Proof.
  destruct v as [[c|] now]; [|by intros s ev s' [= <- <-]]. destruct c; simpl; try apply emit_silent.
  - destruct (_ =? 0); [by intros s ev s' [= <- <-]|apply emit_silent].
  - destruct (_ =? 0); [by intros s ev s' [= <- <-]|apply emit_silent].
  - unfold process_ack_timeout_command. destruct (_ =? 0); [by intros s ev s' [= <- <-]|].
    destruct (_ =? 0); [by intros s ev s' [= <- <-]|]. intros s ev s'. unfold bind, gets.
    destruct (pending s !! seq) as [p|]; [|by intros [= <- <-]]. destruct (negb _); [by intros [= <- <-]|].
    destruct (retry_due p attempt observed_at_ms) as [[]|]; [apply retry_silent|apply first_timeout_silent|by intros [= <- <-]].
Qed.

Lemma commands_silent l : silent (run_each (command_value opts) l).
Proof.
  induction l as [|v l IH]; [by intros s ev s' [= <- <-]|].
  intros s ev s' (e & s1 & es & Hv & Hl & ->)%run_each_inv.
  apply command_silent in Hv as (Hc & Hr & Ho). apply IH in Hl as (Hc' & Hr' & Ho').
  split_and!; [congruence..|]. by rewrite omap_app, Ho, Ho'.
Qed.

(** The cursor the node stores; the first run starts a new one. *)
Definition stored (c : option RemoteResponderCursor) : RemoteResponderCursor := default cursor_default c.

Lemma node_followed handlers reject b s (c : option RemoteResponderCursor) ev s' :
  calm handlers → in_step s (stored c) → events_node (I := RemoteCallRequest Q) opts b s = Ret ev s' →
  ∃ vs (c' : option RemoteResponderCursor), remote_responder_events_node sid handlers reject (b_inbound b) c = Ret vs c'
           ∧ in_step s' (stored c') ∧ answers handlers reject ev vs.
Proof.
  intros Hcalm Hin. unfold events_node, bind at 1, modify.
  unfold bind at 1. destruct (run_each (inbound_value opts) (b_inbound b) (install_cleanup s)) as [e1 s1| |] eqn:Hi; [|done..].
  unfold bind. destruct (run_each (command_value opts) (b_commands b) s1) as [e2 s2| |] eqn:Hc; [|done..].
  intros [= <- <-]. destruct (values_followed handlers reject _ (install_cleanup s) (stored c) _ _ Hcalm Hin Hi) as (vs & c1 & Hr & [H1 H2] & Ha).
  apply commands_silent in Hc as (Hc & Hrc & Ho). exists vs, (Some c1).
  unfold stored in Hr. unfold remote_responder_events_node, bind, gets, id. unfold id in Hr. rewrite Hr. split_and!; [done|split; simpl; congruence|].
  rewrite <- (app_nil_r vs). apply answers_app; [done|].
  assert (omap inbound_request (e2 ++ match b_inbound_terminal b with Some t => [EInvalid (terminal_error opts t)] | None => [] end) = []) as He.
  { rewrite omap_app, Ho. by destruct (b_inbound_terminal b). }
  split; by rewrite He.
Qed.

Lemma nodes_followed handlers reject bs s (c : option RemoteResponderCursor) ev s' :
  calm handlers → in_step s (stored c) → run_each (events_node (I := RemoteCallRequest Q) opts) bs s = Ret ev s' →
  ∃ vs (c' : option RemoteResponderCursor), run_each (remote_responder_events_node sid handlers reject) (b_inbound <$> bs) c = Ret vs c'
           ∧ in_step s' (stored c') ∧ answers handlers reject ev vs.
Proof.
  intros Hcalm. revert s c ev s'. induction bs as [|b bs IH]; intros s c ev s' Hin; [by intros [= <- <-]; eexists _, _|].
  intros (e & s1 & es & Hv & Hl & ->)%run_each_inv.
  destruct (node_followed handlers reject _ _ _ _ _ Hcalm Hin Hv) as (vs & c1 & Hr & Hin1 & Ha).
  destruct (IH _ _ _ _ Hin1 Hl) as (vs' & c2 & Hr' & Hin2 & Ha'). exists (vs ++ vs'), c2.
  split_and!; [by apply (run_each_step _ _ _ _ _ c1)|done|by apply answers_app].
Qed.

End Responder.

(** ** A call and its answer *)

(** *** One envelope *)

Section Envelope.
Context {X Y : Type} `{!TupleText} (opts : WireBridgeOptions).
Implicit Types s : BridgeState X.

(** What a send makes of a value. *)
Definition data_envelope s (v : X) (key request_id : option string) (now : N) : WireBridgeEnvelope X :=
  mkEnvelope (o_session_id opts) TData (Some (PData v))
    (mkMetadata (next_seq s) (cursor s) (default (wire_bridge_idempotency_key (o_session_id opts) (next_seq s)) key) 1
       (max_attempts (o_retry opts)) (Some now) None request_id).

Definition after_send s (e : WireBridgeEnvelope X) : BridgeState X :=
  mkBridge true true (next_seq s + 1) (cursor s) (remote_cursor s) (<[next_seq s := mkPending e None None]> (pending s)).

Definition after_receipt (s : BridgeState Y) (e : WireBridgeEnvelope X) : BridgeState Y :=
  mkBridge true true (next_seq s) (md_seq (metadata e)) (md_cursor (metadata e)) (pending s).

Definition sendable s (key : option string) : Prop :=
  o_session_id opts ≠ ""%string ∧ 1 ≤ max_attempts (o_retry opts) ∧ 1 ≤ next_seq s < u64_max
  ∧ default (wire_bridge_idempotency_key (o_session_id opts) (next_seq s)) key ≠ ""%string.

Lemma sent_valid s v key request_id now : sendable s key →
  validate_inbound_envelope (data_envelope s v key request_id now) = Ok tt.
Proof.
  intros (Hsid & Hmax & Hnext & Hkey). apply valid_inbound. unfold seq_of, attempt_of. simpl. split; simpl; try done; lia.
Qed.

Lemma send_runs s v key request_id now : sendable s key →
  let e := data_envelope s v key request_id now in
  events_node (I := Y) opts (mkBatch [] [(Some (CSend v key request_id), now)] None) s = Ret [EOutbound e] (after_send s e).
Proof.
  intros Hs e. pose proof (sent_valid s v key request_id now Hs) as Hv. destruct Hs as (Hsid & Hmax & Hnext & Hkey).
  unfold events_node, bind at 1, modify at 1. unfold bind at 1, run_each. simpl. unfold emit_outbound, bind, gets, id, ret. simpl.
  rewrite (proj2 (N.eqb_neq _ _)) by lia.
  assert (wire_bridge_envelope (mkInput (o_session_id opts) TData (next_seq s) (cursor s) (Some (PData v)) key 1
            (max_attempts (o_retry opts)) (Some now) None request_id) = Ok e) as ->; [|done].
  apply valid_envelope. simpl. split; [|done]. apply valid_inbound in Hv. exact Hv.
Qed.

Lemma receive_runs (s : BridgeState Y) (e : WireBridgeEnvelope X) :
  validate_inbound_envelope e = Ok tt → session_id e = o_session_id opts → envelope_type e = TData →
  md_seq (metadata e) = cursor s + 1 → cursor s < u64_max → remote_cursor s ≤ md_cursor (metadata e) →
  events_node opts (mkBatch [Some (IEnvelope e)] [] None) s = Ret [ECursor (md_seq (metadata e)); EInbound e] (after_receipt s e).
Proof.
  intros Hv Hsid Ht Hseq Hb Hcur.
  unfold events_node, bind at 1, modify at 1. unfold bind at 1, run_each. simpl. unfold bind at 1 2, process_envelope.
  rewrite Hv, bool_decide_true by done. simpl. unfold bind at 1, gets at 1, id, admit_inbound. simpl.
  rewrite Hseq. unfold sat64. rewrite N.min_l by lia.
  rewrite (proj2 (N.leb_gt _ _)), N.ltb_irrefl, (proj2 (N.ltb_ge _ _)) by lia.
  unfold bind, modify, ret. rewrite Ht. simpl. unfold after_receipt. by rewrite Hseq.
Qed.
End Envelope.

(** *** Both sides *)

Section RoundTrip.
Context {Q R : Type} `{!TupleText} (caller responder : WireBridgeOptions).
Abbreviation Handlers := (gmap string (RemoteCallRequest Q → Handled R)).
Abbreviation Req := (RemoteCallRequest Q).
Abbreviation Resp := (RemoteCallResponse R).

Record Peers := mkPeers {
  p_caller : BridgeState Req;
  p_table : RemoteCallPendingState;
  p_responder : BridgeState Resp;
  p_cursor : option RemoteResponderCursor
}.

Definition delivered {X} (envelopes : list (WireBridgeEnvelope X)) : list (option (WireBridgeIngress X)) :=
  (λ e, Some (IEnvelope e)) <$> envelopes.

Definition returned {St A} (r : Outcome St A) : option (A * St) := match r with Ret a s => Some (a, s) | _ => None end.

(** A call whose envelope is delivered, whose answer is sent at once, and whose
    answer is delivered.  The clocks show [now] and [later]. *)
Definition exchange (handlers : Handlers) (operation id : string) (payload : Q) (now later : N) (w : Peers)
    : option (list (RemoteCallResult R) * Peers) :=
  '(_, commands) ← returned (call operation id payload []);
  '(sent, a) ← returned (events_node (I := Resp) caller (mkBatch [] ((λ c, (Some c, now)) <$> commands) None) (p_caller w));
  let '(table, early) := remote_call_responses_node (mkCallBatch commands sent []) (p_table w) in
  let wire := delivered (project_outbound sent) in
  '(_, b) ← returned (events_node (O := Resp) responder (mkBatch wire [] None) (p_responder w));
  '(answered, c) ← returned (remote_responder_events_node (o_session_id responder) handlers true wire (p_cursor w));
  let replies := (λ c, (Some c, later)) <$> remote_responder_response_commands_node answered in
  '(replied, b) ← returned (events_node (I := Req) responder (mkBatch [] replies None) b);
  '(heard, a) ← returned (events_node (O := Req) caller (mkBatch (delivered (project_outbound replied)) [] None) a);
  let '(table, late) := remote_call_responses_node (mkCallBatch [] heard []) table in
  Some (remote_call_results_node (early ++ late), mkPeers a table b c).

(** Nothing is on its way: each side waits for the next envelope of the other, the
    responder is in step, and the table is consistent. *)
Record quiet_peers (w : Peers) : Prop := {
  qp_there : next_seq (p_caller w) = cursor (p_responder w) + 1;
  qp_back : next_seq (p_responder w) = cursor (p_caller w) + 1;
  qp_seen : remote_cursor (p_responder w) ≤ cursor (p_caller w);
  qp_seen_back : remote_cursor (p_caller w) ≤ cursor (p_responder w);
  qp_step : in_step (p_responder w) (stored (p_cursor w));
  qp_table : table_ok (p_table w);
  qp_bound k : is_Some (by_seq (p_table w) !! k) → k < next_seq (p_caller w)
}.


Lemma fresh_id p id : table_ok p → by_request_id p !! id = None → id ∉ request_ids p.
Proof. intros Hp Hid. rewrite (tk_ids _ Hp). by apply not_elem_of_dom. Qed.

(** A request goes into the table, gets its number and leaves it again. *)
Definition asked (p : RemoteCallPendingState) (operation id : string) (seq : option N) : RemoteCallPendingState :=
  mkPendingState ({[id]} ∪ request_ids p) (<[id := mkPendingRequest operation id seq]> (by_request_id p))
    (match seq with Some k => <[k := mkPendingRequest operation id seq]> (by_seq p) | None => by_seq p end).

Lemma ask_inserts p operation id : by_request_id p !! id = None →
  inserted p (mkPendingRequest operation id None) = asked p operation id None.
Proof. intros Hid. unfold inserted, pending_insert. simpl. by rewrite Hid. Qed.

Lemma number_inserts p operation id k : by_seq p !! k = None →
  inserted (asked p operation id None) (mkPendingRequest operation id (Some k)) = asked p operation id (Some k).
Proof.
  intros Hk. unfold inserted, pending_insert, asked. simpl. rewrite lookup_insert_eq. simpl.
  rewrite !bool_decide_true by done. simpl. rewrite bool_decide_false by (rewrite Hk; by intros []).
  simpl. unfold bind_seq. simpl. by rewrite insert_insert_eq.
Qed.

Lemma answer_removes p operation id k :
  table_ok p → by_request_id p !! id = None → by_seq p !! k = None →
  (remove_by_request_id id (asked p operation id (Some k))).2 = p.
Proof.
  intros Hp Hid Hk. pose proof (fresh_id p id Hp Hid) as Hin. unfold remove_by_request_id, asked. simpl.
  rewrite bool_decide_true by set_solver. simpl. rewrite lookup_insert_eq. simpl. destruct p as [ids m n]; simpl in *. f_equal.
  - set_solver.
  - by apply delete_insert_id.
  - by apply delete_insert_id.
Qed.


Lemma answer_table p operation id v k n (e : WireBridgeEnvelope Resp) :
  table_ok p → by_request_id p !! id = None → by_seq p !! k = None → Wire.payload e = Some (PData (RResult operation id v)) →
  remote_call_responses_node (Q := Q) (mkCallBatch [] [ECursor n; EInbound e] []) (asked p operation id (Some k))
  = (p, [RResult operation id v]).
Proof.
  intros Hp Hid Hk He. unfold remote_call_responses_node. simpl. unfold accept_response, get_by_request_id. rewrite He. simpl.
  rewrite lookup_insert_eq. unfold remote_call_response_matches_pending. simpl. rewrite bool_decide_true by done. simpl.
  by rewrite answer_removes.
Qed.

Lemma value_responds (handlers : Handlers) handler request v (e : WireBridgeEnvelope Req) (c : RemoteResponderCursor) :
  validate_inbound_envelope e = Ok tt → session_id e = o_session_id responder → envelope_type e = TData →
  Wire.payload e = Some (PData request) → md_seq (metadata e) = rc_cursor c + 1 → rc_cursor c < u64_max →
  rc_remote_cursor c ≤ md_cursor (metadata e) →
  handlers !! rq_operation request = Some handler → handler request = HOk v →
  let id := rq_request_id request in
  responder_value (o_session_id responder) handlers true (Some (IEnvelope e)) c
  = Ret [VRequest request (md_seq (metadata e));
         VResponse id (rq_operation request) (CSend (RResult (rq_operation request) id v)
           (Some (o_session_id responder +:+ ":" +:+ id +:+ ":response")) (Some id))]
      (mkCursor (md_seq (metadata e)) (md_cursor (metadata e))).
Proof.
  intros Hv Hsid Ht Hp Hseq Hb Hcur Hh Hok id. unfold responder_value, bind, gets, Datatypes.id. simpl.
  rewrite Hv, !bool_decide_true by done. simpl. rewrite Hseq. unfold sat64. rewrite N.min_l by lia.
  rewrite (proj2 (N.leb_gt _ _)), N.ltb_irrefl, (proj2 (N.ltb_ge _ _)) by lia. simpl. rewrite Hp. simpl.
  rewrite Hh. unfold respond. by rewrite Hok.
Qed.

Lemma responder_node_one handlers v (c : option RemoteResponderCursor) vs c' :
  responder_value (Q := Q) (R := R) (o_session_id responder) handlers true v (stored c) = Ret vs c' →
  remote_responder_events_node (o_session_id responder) handlers true [v] c = Ret vs (Some c').
Proof.
  intros Hv. unfold remote_responder_events_node, bind, gets. change (id c) with c. fold (stored c).
  rewrite (run_each_step _ _ [] _ _ _ [] _ Hv eq_refl). unfold modify, ret. by rewrite app_nil_r.
Qed.

(** C11: a remote call comes back.  Between two bridges of one session with nothing
    on its way, a call of an operation whose handler answers it, under an id that is
    not in flight, whose envelope and response are delivered, makes the caller's
    results node emit just that answer; afterwards nothing is on its way again and
    the table of the requests in flight is what it was. *)
Theorem remote_call_roundtrip handlers handler operation id payload v now later w :
  quiet_peers w → by_request_id (p_table w) !! id = None →
  o_session_id caller = o_session_id responder → o_session_id caller ≠ ""%string →
  wire_bridge_idempotency_key (o_session_id caller) (next_seq (p_caller w)) ≠ ""%string →
  1 ≤ max_attempts (o_retry caller) → 1 ≤ max_attempts (o_retry responder) →
  next_seq (p_caller w) < u64_max → next_seq (p_responder w) < u64_max →
  operation ≠ ""%string → id ≠ ""%string →
  handlers !! operation = Some handler → handler (mkRequest operation id payload) = HOk v →
  ∃ w', exchange handlers operation id payload now later w = Some ([mkResult operation id v], w')
        ∧ quiet_peers w' ∧ p_table w' = p_table w.
Proof.
  intros Hq Hid Hsid Hne Hkey Hma Hmr Hna Hnr Hop Hide Hh Hok. destruct w as [a p b c].
  destruct Hq as [Hthere Hback Hseen Hseenb Hstep Htab Hbound]. simpl in *. destruct Hstep as [Hc Hrc].
  assert (by_seq p !! next_seq a = None) as Hfree.
  { apply eq_None_not_Some. intros Hs. apply Hbound in Hs. lia. }
  set (request := mkRequest operation id payload) in *.
  assert (sendable caller a None) as Hsa by (split_and!; simpl; try done; lia).
  set (e := data_envelope caller a request None (Some id) now).
  pose proof (sent_valid caller a request None (Some id) now Hsa) as Hva. fold e in Hva.
  set (key := Some (o_session_id responder +:+ ":" +:+ id +:+ ":response")).
  assert (sendable responder (after_receipt b e) key) as Hsb.
  { split_and!; simpl; try done; try lia; [congruence|]. by destruct (o_session_id responder). }
  set (e' := data_envelope responder (after_receipt b e) (RResult operation id v) key (Some id) later).
  pose proof (sent_valid responder _ (RResult operation id v) key (Some id) later Hsb) as Hvb. fold e' in Hvb.
  assert (md_seq (metadata e) = rc_cursor (stored c) + 1) as Hn1 by (simpl; rewrite <- Hc; lia).
  assert (rc_cursor (stored c) < u64_max) as Hn2 by lia.
  assert (rc_remote_cursor (stored c) ≤ md_cursor (metadata e)) as Hn3 by (simpl; rewrite <- Hrc; lia).
  unfold exchange. simpl. unfold call, call_with_options, assert_or, bind, modify, ret, empty.
  rewrite !bool_decide_false by done. simpl. fold request.
  rewrite (send_runs (Y := Resp) caller a request None (Some id) now Hsa). simpl. fold e.
  rewrite ask_inserts, number_inserts by done.
  unfold delivered at 1. simpl.
  rewrite (receive_runs responder b e Hva) by (done || simpl; lia). simpl.
  rewrite (responder_node_one _ _ c _ _ (value_responds handlers handler request v e (stored c) Hva Hsid eq_refl eq_refl Hn1 Hn2 Hn3 Hh Hok)). simpl.
  fold key. rewrite (send_runs (Y := Req) responder (after_receipt b e) _ key (Some id) later Hsb). simpl. fold e'.
  unfold delivered. simpl.
  rewrite (receive_runs caller (after_send a e) e' Hvb) by (done || simpl; lia). simpl.
  rewrite (answer_table p operation id v (next_seq a) _ e') by done. simpl.
  eexists. split; [done|]. split; [|done]. split; simpl; try done; try lia.
  intros k Hk. apply Hbound in Hk. lia.
Qed.
End RoundTrip.
