(* ===== verification/RemoteCallScenarios.v ===== *)
(** * Remote calls: concrete runs

    The witnesses of the properties of [RemoteCallFacts], a request that is sent
    again, and a handler that is aborted. *)

From Stdlib Require Import Ascii String.
From stdpp Require Import base option strings numbers gmap list.
From S2P Require Import Prelude Text Storage DurabilityExample Protocol NodeState Resilience Bridge BridgeFacts RemoteCall RemoteCallFacts.
Import Wire Remote.

Local Open Scope rx_scope.
Local Open Scope N_scope.

#[local] Existing Instance escaped_tuples.

Definition call_options : WireBridgeOptions := mkOptions "s" (mkRetryPolicy 3 BackoffNone).

(** Doubles a number; anything else is unknown. *)
Definition double_handlers : gmap string (RemoteCallRequest nat → Handled nat) :=
  {[ "double"%string := (λ r, HOk (2 * rq_payload r)%nat) ]}.

Abbreviation CallEvent := (WireBridgeEvent (RemoteCallRequest nat) (RemoteCallResponse nat)).
Abbreviation CallCommand := (WireBridgeCommand (RemoteCallRequest nat)).

(** ** The witnesses *)

Definition new_peers : Peers (Q := nat) (R := nat) := mkPeers bridge_state pending_default bridge_state None.

Lemma new_peers_quiet : quiet_peers new_peers.
Proof. split; simpl; try done; try lia; [apply table_default|]. intros k [x Hx]. by rewrite lookup_empty in Hx. Qed.

Lemma remote_call_roundtrip_witness :
  ∃ w', exchange call_options call_options double_handlers "double" "a" 21%nat 5 6 new_peers
          = Some ([mkResult "double" "a" 42%nat], w')
        ∧ quiet_peers w' ∧ p_table w' = pending_default.
Proof.
  refine (remote_call_roundtrip call_options call_options double_handlers (λ r, HOk (2 * rq_payload r)%nat) "double" "a" 21%nat
            42%nat 5 6 new_peers new_peers_quiet _ _ _ _ _ _ _ _ _ _ _ _);
    solve [reflexivity | discriminate | vm_compute; discriminate | apply lookup_singleton_eq].
Defined.

(** A request that comes in, one of an operation nobody knows, and a repeated one. *)
Definition request_envelope (seq : N) (operation id : string) : WireBridgeEnvelope (RemoteCallRequest nat) :=
  mkEnvelope "s" TData (Some (PData (mkRequest operation id 4%nat))) (mkMetadata seq 0 "k" 1 3 None None (Some id)).

Definition three_requests : list (BridgeBatch (O := RemoteCallResponse nat) (I := RemoteCallRequest nat)) :=
  [ mkBatch (delivered [request_envelope 1 "double" "a"; request_envelope 2 "halve" "b"]) [] None;
    mkBatch (delivered [request_envelope 1 "double" "a"]) [] None ].

Definition answered_run : list (WireBridgeEvent (RemoteCallResponse nat) (RemoteCallRequest nat)) * BridgeState (RemoteCallResponse nat) :=
  match run_each (events_node call_options) three_requests bridge_state with Ret ev s => (ev, s) | _ => ([], bridge_state) end.

Lemma double_calm : calm double_handlers.
Proof. unfold double_handlers. intros op handler request message Hh. apply lookup_singleton_Some in Hh as [<- <-]. done. Qed.


(** ** A request that is sent again *)

Definition caller_runs (bs : list BridgeBatch) : list (list CallEvent) :=
  (fix go s bs := match bs with
     | [] => []
     | b :: bs => match events_node call_options b s with Ret ev s => ev :: go s bs | _ => [] end
     end) bridge_state bs.

Definition the_call : CallCommand := CSend (mkRequest "double" "a" 21%nat) None (Some "a"%string).

(** The call, a timeout of its envelope, the response, and another timeout. *)
Definition call_runs : list (CallBatch nat nat) :=
  let response := mkEnvelope "s" TData (Some (PData (RResult "double" "a" 42%nat))) (mkMetadata 1 1 "k" 1 3 None None None) in
  let runs := [ ([], [the_call]); ([], [CAckTimeout 1 1 None]); ([response], []); ([], [CAckTimeout 1 2 None]) ] in
  zip_with (λ r ev, mkCallBatch r.2 ev []) runs
    (caller_runs ((λ r, mkBatch (delivered r.1) ((λ c, (Some c, 5)) <$> r.2) None) <$> runs)).

(** The status after each of them, and the errors. *)
Definition call_statuses (bs : list (CallBatch nat nat)) : list (RemoteCallStatusState * nat * N) :=
  (fix go p d bs := match bs with
     | [] => []
     | b :: bs =>
         let '(p, out) := remote_call_responses_node b p in
         let d := remote_call_status_node b out (remote_call_results_node out) d in
         let c := rd_status d in
         (cs_state c, cs_pending c, cs_errors c) :: go p (Some d) bs
     end) pending_default None bs.

Definition call_errors (bs : list (CallBatch nat nat)) : list (list string) :=
  (fix go p q bs := match bs with
     | [] => []
     | b :: bs =>
         let '(p, out) := remote_call_responses_node b p in
         let '(q, errors) := remote_call_errors_node out [] (cb_events b) q in
         (er_error <$> errors) :: go p q bs
     end) pending_default pending_default bs.

(** A request that is sent again is taken for a second request.  The bridge
    resends the envelope of an unacknowledged request under its own sequence number;
    the status node then counts an error and the errors node reports a duplicate in
    flight, and a copy that follows the response puts the completed request back into
    the tables: it is shown as pending and nothing is left to answer it. *)
Theorem resent_request_is_duplicate :
  call_statuses call_runs = [(Requested, 1%nat, 0); (Errored, 1%nat, 1); (Responded, 0%nat, 1); (Requested, 1%nat, 1)]
  ∧ call_errors call_runs = [[]; ["remote_call: duplicate in-flight request_id 'a'"%string]; []; []]
  ∧ pending_len (responses_runs call_runs).1 = 1%nat
  ∧ (responses_runs call_runs).2 = [RResult "double" "a" 42%nat].
Proof. vm_compute. repeat split. Qed.

Lemma remote_tables_consistent_witness :
  size (by_request_id (responses_runs call_runs).1) = 1%nat
  ∧ table_ok (remote_call_responses_node (mkCallBatch (R := nat) [the_call] [] []) (responses_runs call_runs).1).1.
Proof.
  split; [vm_compute; reflexivity|].
  refine (proj1 (remote_tables_consistent (mkCallBatch (R := nat) [the_call] [] []) [] [] _ reducer_default _ _)).
  - apply (ac_table _ _ _ (accounts_runs call_runs)).
  - apply table_default.
Defined.

(** ** A handler that is aborted *)

(** The abort of a host boundary becomes graph DATA.  A handler that unwinds with
    the payload [HostBoundaryAbort] is answered with an ERROR response that is sent to
    the other side; only panics with a message of a graph invariant go on. *)
Theorem aborted_handler_is_answered (request : RemoteCallRequest nat) :
  respond (R := nat) request (HPanic HostBoundaryAbort)
  = inr (RError (rq_operation request) (rq_request_id request) "remoteResponder: handler threw")
  ∧ respond (R := nat) request (HPanic (PanicStr "R-reentrancy: a node may not write to itself"))
    = inl (PanicStr "R-reentrancy: a node may not write to itself").
Proof. split; vm_compute; reflexivity. Qed.
