(* ===== verification/Protobuf.v ===== *)
(** * The protobuf form of envelopes (adapters/bridge_protobuf.rs)

    The canonical protobuf bytes of a bridge envelope: the writer and the reader of
    fields, the encoders, the parsers, the two validators, and the decoder, which
    parses, validates, encodes again and compares.  A [Vec<u8>] is a list of bytes
    and a [usize] has 64 bits. *)

From Stdlib Require Import Ascii String.
From stdpp Require Import base option strings numbers list.
From S2P Require Import Prelude Text Resilience Bridge.

Local Open Scope rx_scope.
Local Open Scope N_scope.

Module Proto.

(** ** Errors and data *)

Inductive CanonicalProtobufErrorCategory :=
| UnknownField | DuplicateSingular | NoncanonicalBytes | InvalidOneof | MissingRequired | InvalidWireEdge
| DefaultEmission | Malformed.
#[export] Instance category_eq : EqDecision CanonicalProtobufErrorCategory.
Proof. solve_decision. Defined.

(** [CanonicalProtobufErrorCategory::as_str]. *)
Definition category_str (c : CanonicalProtobufErrorCategory) : string :=
  match c with
  | UnknownField => "unknown_field"
  | DuplicateSingular => "duplicate_singular"
  | NoncanonicalBytes => "noncanonical_bytes"
  | InvalidOneof => "invalid_oneof"
  | MissingRequired => "missing_required"
  | InvalidWireEdge => "invalid_wire_edge"
  | DefaultEmission => "default_emission"
  | Malformed => "malformed"
  end.

Record CanonicalProtobufError := mkProtoError { category : CanonicalProtobufErrorCategory; pe_message : string }.

(** [Display]. *)
Definition proto_error_string (e : CanonicalProtobufError) : string := category_str (category e) +:+ ": " +:+ pe_message e.

Abbreviation PResult A := (Result CanonicalProtobufError A).
Definition fail {A} (c : CanonicalProtobufErrorCategory) (message : string) : PResult A := Err (mkProtoError c message).

Record CanonicalWireBridgeMetadata := mkCanonicalMetadata {
  cm_seq : N;
  cm_cursor : N;
  cm_idempotency_key : string;
  cm_attempt : N;
  cm_max_attempts : N;
  cm_timestamp_ms : option N;
  cm_ack_for_seq : option N;
  cm_request_id : option string
}.

Inductive CanonicalWireEdgeKind := Dirty | Data.
#[export] Instance kind_eq : EqDecision CanonicalWireEdgeKind.
Proof. solve_decision. Defined.

Record CanonicalWireEdgeFrame := mkFrame {
  fr_kind : CanonicalWireEdgeKind;
  fr_edge_id : string;
  fr_cause_id : string;
  fr_value : option bytes
}.
#[export] Instance frame_eq : EqDecision CanonicalWireEdgeFrame.
Proof. solve_decision. Defined.

Inductive CanonicalWireBridgeDataBody :=
| BValue (value : bytes)
| BWireEdge (frame : CanonicalWireEdgeFrame).

Inductive CanonicalWireBridgePayload :=
| PbStart
| PbData (body : CanonicalWireBridgeDataBody)
| PbAck
| PbNack (error : option bytes)
| PbStatus (status : bytes)
| PbError (error : bytes)
| PbClose (reason : option bytes).

Record CanonicalWireBridgeEnvelope := mkCanonicalEnvelope {
  ce_session_id : string;
  ce_metadata : CanonicalWireBridgeMetadata;
  ce_payload : CanonicalWireBridgePayload
}.

(** ** The writer *)

Definition byte (n : N) : ascii := ascii_of_N n.

(** [value & 0x7f], with the high bit set while more follows. *)
Fixpoint varint_loop (fuel : nat) (value : N) : bytes :=
  match fuel with
  | O => []
  | S fuel =>
      let low := N.land value 127 in
      let rest := N.shiftr value 7 in
      if rest =? 0 then [byte low] else byte (N.lor low 128) :: varint_loop fuel rest
  end.

(** A u64 has at most ten groups of seven bits. *)
Definition write_varint (value : N) : bytes := varint_loop 10 value.

Definition tag (field_no wire_type : N) : bytes := write_varint (N.lor (N.shiftl field_no 3) wire_type).

Definition varint_field (field_no value : N) : bytes := tag field_no 0 ++ write_varint value.
Definition bytes_field_of (field_no : N) (value : bytes) : bytes :=
  tag field_no 2 ++ write_varint (N.of_nat (length value)) ++ value.
Definition string_field (field_no : N) (value : string) : bytes := bytes_field_of field_no (bytes_of value).
Definition message_field (field_no : N) (value : bytes) : bytes := bytes_field_of field_no value.

(** ** The reader *)

Record Reader := mkReader { r_bytes : bytes; r_offset : N }.
Definition new_reader (b : bytes) : Reader := mkReader b 0.
Definition done (r : Reader) : bool := r_offset r =? N.of_nat (length (r_bytes r)).

(** [bytes.get(offset)]; an offset past the end is not converted. *)
Definition get_byte (r : Reader) : option ascii :=
  if r_offset r <? N.of_nat (length (r_bytes r)) then r_bytes r !! N.to_nat (r_offset r) else None.
Definition advance (n : N) (r : Reader) : Reader := mkReader (r_bytes r) (r_offset r + n).

(** The loop of [varint]: [turns] bytes are left of ten, [idx] were read. *)
Fixpoint read_varint_loop (turns : nat) (idx shift result : N) : M Reader (PResult N) :=
  match turns with
  | O => ret (fail Malformed "varint exceeds 64 bits")
  | S turns =>
      let! r := gets id in
      match get_byte r with
      | None => ret (fail Malformed "truncated varint")
      | Some c =>
          modify (advance 1) ;;;
          let b := N_of_ascii c in
          if (idx =? 9) && negb (N.land b 254 =? 0) then ret (fail Malformed "varint exceeds 64 bits")
          else
            let result := N.lor result (N.shiftl (N.land b 127) shift) in
            if N.land b 128 =? 0 then ret (Ok result) else read_varint_loop turns (idx + 1) (shift + 7) result
      end
  end.

Definition read_varint : M Reader (PResult N) := read_varint_loop 10 0 0 0.

Definition read_bytes : M Reader (PResult bytes) :=
  mrbind read_varint (λ len,
    let! r := gets id in
    let finish := r_offset r + len in
    if u64_max <? finish then ret (fail Malformed "length-delimited field length overflows")
    else if N.of_nat (length (r_bytes r)) <? finish then ret (fail Malformed "length-delimited field is truncated")
    else
      modify (advance len) ;;;
      ret (Ok (take (N.to_nat len) (drop (N.to_nat (r_offset r)) (r_bytes r))))).

(** ** Fields *)

Inductive FieldValue := Varint (value : N) | Bytes (value : bytes).
Record Field := mkField { f_no : N; f_wire_type : N; f_value : FieldValue }.

Definition as_bytes (f : Field) : PResult bytes :=
  match f_value f with
  | Bytes value => Ok value
  | Varint _ => fail Malformed "expected length-delimited field"
  end.

(** [allowed.iter().find_map(..)]. *)
Definition expected_wire_type (allowed : list (N * N)) (field_no : N) : option N :=
  snd <$> List.find (λ a, a.1 =? field_no) allowed.

Definition in_field (message_name : string) (field_no : N) (what : string) : string :=
  message_name +:+ " field " +:+ u64_string field_no +:+ what.

(** A turn of [read_fields]. *)
Definition read_field (allowed : list (N * N)) (message_name : string) (seen : list N) : M Reader (PResult Field) :=
  mrbind read_varint (λ key,
  let field_no := N.shiftr key 3 in
  let wire_type := N.land key 7 in
  if u32_max <? field_no then ret (fail Malformed "field number is too large")
  else
    match expected_wire_type allowed field_no with
    | None => ret (fail UnknownField (message_name +:+ " contains unknown field " +:+ u64_string field_no))
    | Some expected =>
        if (field_no =? 0) || negb (wire_type =? expected)
        then ret (fail Malformed (in_field message_name field_no " has wrong wire type"))
        else if bool_decide (field_no ∈ seen)
        then ret (fail DuplicateSingular (in_field message_name field_no " is duplicated"))
        else if wire_type =? 0 then mrbind read_varint (λ v, ret (Ok (mkField field_no wire_type (Varint v))))
        else if wire_type =? 2 then mrbind read_bytes (λ v, ret (Ok (mkField field_no wire_type (Bytes v))))
        else ret (fail Malformed "unsupported wire type")
    end).

(** The loop; a turn that does not fail reads at least one byte. *)
Fixpoint read_fields_loop (fuel : nat) (allowed : list (N * N)) (message_name : string) (fields : list Field)
    : M Reader (PResult (list Field)) :=
  match fuel with
  | O => no_fuel
  | S fuel =>
      let! r := gets id in
      if done r then ret (Ok fields)
      else mrbind (read_field allowed message_name (f_no <$> fields)) (λ f, read_fields_loop fuel allowed message_name (fields ++ [f]))
  end.

Definition read_fields (b : bytes) (allowed : list (N * N)) (message_name : string) : PResult (list Field) :=
  match read_fields_loop (S (length b)) allowed message_name [] (new_reader b) with
  | Ret r _ => r
  | _ => fail Malformed "unreachable"
  end.

Definition uint_field (fields : list Field) (no : N) : option N :=
  head (omap (λ f, match f_value f with Varint v => if f_no f =? no then Some v else None | _ => None end) fields).
Definition bytes_field (fields : list Field) (no : N) : option bytes :=
  head (omap (λ f, match f_value f with Bytes v => if f_no f =? no then Some v else None | _ => None end) fields).

(** [std::str::from_utf8]: no overlong forms, no surrogates, nothing above
    U+10FFFF. *)
Definition between (lo hi : N) (c : ascii) : bool := (lo <=? N_of_ascii c) && (N_of_ascii c <=? hi).
Definition continuation (c : ascii) : bool := between 128 191 c.

Fixpoint from_utf8 (l : bytes) : bool :=
  match l with
  | [] => true
  | a :: l1 =>
      if between 0 127 a then from_utf8 l1
      else
        match l1 with
        | [] => false
        | b :: l2 =>
            if between 194 223 a then continuation b && from_utf8 l2
            else
              match l2 with
              | [] => false
              | c :: l3 =>
                  if between 224 239 a then
                    between (if N_of_ascii a =? 224 then 160 else 128) (if N_of_ascii a =? 237 then 159 else 191) b
                    && continuation c && from_utf8 l3
                  else
                    match l3 with
                    | [] => false
                    | d :: l4 =>
                        between 240 244 a
                        && between (if N_of_ascii a =? 240 then 144 else 128) (if N_of_ascii a =? 244 then 143 else 191) b
                        && continuation c && continuation d && from_utf8 l4
                    end
              end
        end
  end.

Definition utf8_string (b : bytes) (field : string) : PResult string :=
  if negb (from_utf8 b) then fail Malformed (field +:+ " is not valid utf-8")
  else if bool_decide (b = []) then fail MissingRequired (field +:+ " must be non-empty")
  else Ok (str_of b).

Definition uint32 (value : N) (field : string) : PResult N :=
  if u32_max <? value then fail Malformed (field +:+ " exceeds uint32") else Ok value.

(** ** Validation *)

Definition validate_wire_edge_frame (f : CanonicalWireEdgeFrame) : PResult unit :=
  if Wire.empty (fr_edge_id f) || Wire.empty (fr_cause_id f)
  then fail MissingRequired "WireEdgeFrame edge_id/cause_id must be non-empty"
  else
    match fr_kind f, fr_value f with
    | Dirty, Some _ => fail InvalidWireEdge "DIRTY WireEdgeFrame must not carry value"
    | Data, None => fail InvalidWireEdge "DATA WireEdgeFrame requires value"
    | _, _ => Ok tt
    end.

Definition is_ack_or_nack (p : CanonicalWireBridgePayload) : bool :=
  match p with PbAck | PbNack _ => true | _ => false end.

Definition validate_payload_bytes (p : CanonicalWireBridgePayload) : PResult unit :=
  match p with
  | PbNack (Some []) => fail DefaultEmission "nack optional bytes default value was emitted"
  | PbStatus [] => fail MissingRequired "status payload bytes must be non-empty"
  | PbError [] => fail MissingRequired "error payload bytes must be non-empty"
  | PbClose (Some []) => fail DefaultEmission "close optional bytes default value was emitted"
  | _ => Ok tt
  end.

Definition validate_wire_bridge_envelope (e : CanonicalWireBridgeEnvelope) : PResult unit :=
  let m := ce_metadata e in
  if Wire.empty (ce_session_id e) || (cm_seq m =? 0) || (cm_attempt m =? 0) || (cm_max_attempts m <? cm_attempt m)
     || Wire.empty (cm_idempotency_key m)
  then fail MissingRequired "WireBridgeEnvelope required semantics are invalid"
  else if is_ack_or_nack (ce_payload e) && bool_decide (cm_ack_for_seq m = None)
  then fail MissingRequired "ACK/NACK requires metadata.ack_for_seq"
  else if bool_decide (cm_timestamp_ms m = Some 0) || bool_decide (cm_ack_for_seq m = Some 0)
          || bool_decide (cm_request_id m = Some ""%string)
  then fail DefaultEmission "optional metadata default value was emitted"
  else
    let? _ := match ce_payload e with PbData (BWireEdge frame) => validate_wire_edge_frame frame | _ => Ok tt end in
    validate_payload_bytes (ce_payload e).

(** ** Encoding *)

Definition optional_field {A} (write : A → bytes) (value : option A) : bytes :=
  match value with Some v => write v | None => [] end.

Definition encode_metadata (m : CanonicalWireBridgeMetadata) : bytes :=
  varint_field 1 (cm_seq m) ++ varint_field 2 (cm_cursor m) ++ string_field 3 (cm_idempotency_key m)
  ++ varint_field 4 (cm_attempt m) ++ varint_field 5 (cm_max_attempts m)
  ++ optional_field (varint_field 6) (cm_timestamp_ms m) ++ optional_field (varint_field 7) (cm_ack_for_seq m)
  ++ optional_field (string_field 8) (cm_request_id m).

Definition kind_code (k : CanonicalWireEdgeKind) : N := match k with Dirty => 1 | Data => 2 end.

Definition encode_wire_edge_frame (f : CanonicalWireEdgeFrame) : bytes :=
  varint_field 1 (kind_code (fr_kind f)) ++ string_field 2 (fr_edge_id f) ++ string_field 3 (fr_cause_id f)
  ++ optional_field (bytes_field_of 4) (fr_value f).

Definition encode_canonical_wire_edge_frame (f : CanonicalWireEdgeFrame) : PResult bytes :=
  let? _ := validate_wire_edge_frame f in Ok (encode_wire_edge_frame f).

Definition encode_data_payload (body : CanonicalWireBridgeDataBody) : PResult bytes :=
  match body with
  | BValue value => Ok (bytes_field_of 1 value)
  | BWireEdge frame => let? inner := encode_canonical_wire_edge_frame frame in Ok (message_field 2 inner)
  end.

Definition encode_required_bytes_message (field_no : N) (value : bytes) : bytes := bytes_field_of field_no value.

Definition encode_optional_bytes_message (field_no : N) (value : option bytes) : PResult bytes :=
  match value with
  | Some [] => fail DefaultEmission "optional bytes default value must be omitted"
  | Some value => Ok (bytes_field_of field_no value)
  | None => Ok []
  end.

(** The number of the payload's field and the bytes of its message. *)
Definition encode_payload (p : CanonicalWireBridgePayload) : PResult (N * bytes) :=
  match p with
  | PbStart => Ok (3, [])
  | PbData body => let? b := encode_data_payload body in Ok (4, b)
  | PbAck => Ok (5, [])
  | PbNack error => let? b := encode_optional_bytes_message 1 error in Ok (6, b)
  | PbStatus status => Ok (7, encode_required_bytes_message 1 status)
  | PbError error => Ok (8, encode_required_bytes_message 1 error)
  | PbClose reason => let? b := encode_optional_bytes_message 1 reason in Ok (9, b)
  end.

Definition encode_canonical_wire_bridge_envelope (e : CanonicalWireBridgeEnvelope) : PResult bytes :=
  let? _ := validate_wire_bridge_envelope e in
  let? p := encode_payload (ce_payload e) in
  Ok (string_field 1 (ce_session_id e) ++ message_field 2 (encode_metadata (ce_metadata e)) ++ message_field p.1 p.2).

(** ** Parsing *)

Definition require_empty_message (b : bytes) (name : string) : PResult unit :=
  match b with [] => Ok tt | _ => fail UnknownField (name +:+ " payload must be empty") end.

Definition payload_message (name : string) : string := "WireBridge" +:+ name +:+ "Payload".

Definition parse_required_bytes_payload (b : bytes) (name : string) : PResult bytes :=
  let? fields := read_fields b [(1, 2)] (payload_message name) in
  match bytes_field fields 1 with
  | None => fail MissingRequired (name +:+ " payload missing required bytes")
  | Some [] => fail MissingRequired (name +:+ " payload bytes must be non-empty")
  | Some value => Ok value
  end.

Definition parse_optional_bytes_payload (b : bytes) (name : string) : PResult (option bytes) :=
  let? fields := read_fields b [(1, 2)] (payload_message name) in
  match bytes_field fields 1 with
  | Some [] => fail DefaultEmission (name +:+ " optional bytes default value was emitted")
  | value => Ok value
  end.

Definition parse_wire_edge_frame (b : bytes) : PResult CanonicalWireEdgeFrame :=
  let? fields := read_fields b [(1, 0); (2, 2); (3, 2); (4, 2)] "WireEdgeFrame" in
  match uint_field fields 1, bytes_field fields 2, bytes_field fields 3 with
  | Some kind, Some edge, Some cause =>
      let? edge_id := utf8_string edge "edge_id" in
      let? cause_id := utf8_string cause "cause_id" in
      if kind =? 1 then
        match bytes_field fields 4 with
        | Some _ => fail InvalidWireEdge "DIRTY WireEdgeFrame must not carry value"
        | None => Ok (mkFrame Dirty edge_id cause_id None)
        end
      else if kind =? 2 then
        match bytes_field fields 4 with
        | Some value => Ok (mkFrame Data edge_id cause_id (Some value))
        | None => fail InvalidWireEdge "DATA WireEdgeFrame requires value"
        end
      else fail InvalidWireEdge "WireEdgeFrame kind is invalid"
  | _, _, _ => fail MissingRequired "WireEdgeFrame missing required fields"
  end.

Definition parse_data_payload (b : bytes) : PResult CanonicalWireBridgeDataBody :=
  let? fields := read_fields b [(1, 2); (2, 2)] "WireBridgeDataPayload" in
  match bytes_field fields 1, bytes_field fields 2 with
  | Some _, Some _ => fail InvalidOneof "WireBridgeDataPayload body has multiple cases"
  | Some value, None => Ok (BValue value)
  | None, Some wire_edge => let? frame := parse_wire_edge_frame wire_edge in Ok (BWireEdge frame)
  | None, None => fail MissingRequired "WireBridgeDataPayload missing body"
  end.

(** [value.map(..).transpose()]. *)
Definition transpose {A B} (f : A → PResult B) (value : option A) : PResult (option B) :=
  match value with Some a => let? b := f a in Ok (Some b) | None => Ok None end.

Definition parse_metadata (b : bytes) : PResult CanonicalWireBridgeMetadata :=
  let? fields := read_fields b [(1, 0); (2, 0); (3, 2); (4, 0); (5, 0); (6, 0); (7, 0); (8, 2)] "WireBridgeMetadata" in
  match uint_field fields 1, uint_field fields 2, bytes_field fields 3, uint_field fields 4, uint_field fields 5 with
  | Some seq, Some cursor, Some key, Some attempt, Some max_attempts =>
      let timestamp_ms := uint_field fields 6 in
      let ack_for_seq := uint_field fields 7 in
      let request_id := bytes_field fields 8 in
      if bool_decide (timestamp_ms = Some 0) || bool_decide (ack_for_seq = Some 0) || bool_decide (request_id = Some [])
      then fail DefaultEmission "optional metadata default value was emitted"
      else
        let? key := utf8_string key "idempotency_key" in
        let? attempt := uint32 attempt "attempt" in
        let? max_attempts := uint32 max_attempts "max_attempts" in
        let? request_id := transpose (λ v, utf8_string v "request_id") request_id in
        Ok (mkCanonicalMetadata seq cursor key attempt max_attempts timestamp_ms ack_for_seq request_id)
  | _, _, _, _, _ => fail MissingRequired "WireBridgeMetadata missing required fields"
  end.

Definition parse_envelope_payload (field_no : N) (b : bytes) : PResult CanonicalWireBridgePayload :=
  match field_no with
  | 3 => let? _ := require_empty_message b "start" in Ok PbStart
  | 4 => let? body := parse_data_payload b in Ok (PbData body)
  | 5 => let? _ := require_empty_message b "ack" in Ok PbAck
  | 6 => let? error := parse_optional_bytes_payload b "nack" in Ok (PbNack error)
  | 7 => let? status := parse_required_bytes_payload b "status" in Ok (PbStatus status)
  | 8 => let? error := parse_required_bytes_payload b "error" in Ok (PbError error)
  | 9 => let? reason := parse_optional_bytes_payload b "close" in Ok (PbClose reason)
  | _ => fail UnknownField "unknown envelope payload field"
  end.

Definition parse_wire_bridge_envelope (b : bytes) : PResult CanonicalWireBridgeEnvelope :=
  let? fields := read_fields b [(1, 2); (2, 2); (3, 2); (4, 2); (5, 2); (6, 2); (7, 2); (8, 2); (9, 2)] "WireBridgeEnvelope" in
  let payload_fields := List.filter (λ f, (3 <=? f_no f) && (f_no f <=? 9)) fields in
  match bytes_field fields 1, bytes_field fields 2, payload_fields with
  | Some session, Some metadata, [payload_field] =>
      let? payload_bytes := as_bytes payload_field in
      let? session_id := utf8_string session "session_id" in
      let? metadata := parse_metadata metadata in
      let? payload := parse_envelope_payload (f_no payload_field) payload_bytes in
      Ok (mkCanonicalEnvelope session_id metadata payload)
  | Some _, Some _, _ :: _ => fail InvalidOneof "WireBridgeEnvelope payload oneof has multiple cases"
  | _, _, _ => fail MissingRequired "WireBridgeEnvelope missing required fields"
  end.

(** ** Decoding: what is read must be what would be written *)

Definition decode_canonical_wire_edge_frame (b : bytes) : PResult CanonicalWireEdgeFrame :=
  let? frame := parse_wire_edge_frame b in
  let? _ := validate_wire_edge_frame frame in
  if bool_decide (encode_wire_edge_frame frame = b) then Ok frame
  else fail NoncanonicalBytes "WireEdgeFrame bytes are not canonical deterministic protobuf".

Definition decode_canonical_wire_bridge_envelope (b : bytes) : PResult CanonicalWireBridgeEnvelope :=
  let? envelope := parse_wire_bridge_envelope b in
  let? _ := validate_wire_bridge_envelope envelope in
  let? canonical := encode_canonical_wire_bridge_envelope envelope in
  if bool_decide (canonical = b) then Ok envelope
  else fail NoncanonicalBytes "WireBridgeEnvelope bytes are not canonical deterministic protobuf".

(** ** Envelopes with the metadata of the bridge *)

Inductive WireBridgeProtobufDataBody :=
| PValue (value : bytes)
| PWireEdge (frame : CanonicalWireEdgeFrame).

Inductive WireBridgeProtobufPayload :=
| PpStart
| PpData (body : WireBridgeProtobufDataBody)
| PpAck
| PpNack (error : option bytes)
| PpStatus (status : bytes)
| PpError (error : bytes)
| PpClose (reason : option bytes).

Record WireBridgeProtobufEnvelope := mkProtobufEnvelope {
  pb_session_id : string;
  pb_metadata : Wire.WireBridgeMetadata;
  pb_payload : WireBridgeProtobufPayload
}.

Inductive WireBridgeProtobufStatusKind := Valid | Invalid.

Record WireBridgeProtobufIssue := mkIssue { is_category : CanonicalProtobufErrorCategory; is_message : string }.

(** [From<CanonicalProtobufError>]. *)
Definition issue_of (e : CanonicalProtobufError) : WireBridgeProtobufIssue := mkIssue (category e) (proto_error_string e).

Record WireBridgeProtobufDecode := mkDecode {
  de_envelope : option WireBridgeProtobufEnvelope;
  de_status : WireBridgeProtobufStatusKind;
  de_issues : list WireBridgeProtobufIssue
}.

Record WireBridgeProtobufEncode := mkEncode {
  en_bytes : option bytes;
  en_status : WireBridgeProtobufStatusKind;
  en_issues : list WireBridgeProtobufIssue
}.

Definition canonical_to_protobuf_envelope (e : CanonicalWireBridgeEnvelope) : WireBridgeProtobufEnvelope :=
  let m := ce_metadata e in
  mkProtobufEnvelope (ce_session_id e)
    (Wire.mkMetadata (cm_seq m) (cm_cursor m) (cm_idempotency_key m) (cm_attempt m) (cm_max_attempts m)
       (cm_timestamp_ms m) (cm_ack_for_seq m) (cm_request_id m))
    match ce_payload e with
    | PbStart => PpStart
    | PbData (BValue value) => PpData (PValue value)
    | PbData (BWireEdge frame) => PpData (PWireEdge frame)
    | PbAck => PpAck
    | PbNack error => PpNack error
    | PbStatus status => PpStatus status
    | PbError error => PpError error
    | PbClose reason => PpClose reason
    end.

Definition protobuf_to_canonical_envelope (e : WireBridgeProtobufEnvelope) : PResult CanonicalWireBridgeEnvelope :=
  let m := pb_metadata e in
  let canonical :=
    mkCanonicalEnvelope (pb_session_id e)
      (mkCanonicalMetadata (Wire.md_seq m) (Wire.md_cursor m) (Wire.md_idempotency_key m) (Wire.md_attempt m)
         (Wire.md_max_attempts m) (Wire.md_timestamp_ms m) (Wire.md_ack_for_seq m) (Wire.md_request_id m))
      match pb_payload e with
      | PpStart => PbStart
      | PpData (PValue value) => PbData (BValue value)
      | PpData (PWireEdge frame) => PbData (BWireEdge frame)
      | PpAck => PbAck
      | PpNack error => PbNack error
      | PpStatus status => PbStatus status
      | PpError error => PbError error
      | PpClose reason => PbClose reason
      end in
  let? _ := validate_wire_bridge_envelope canonical in
  Ok canonical.

Definition decode_wire_bridge_protobuf_bytes (b : bytes) : WireBridgeProtobufDecode :=
  match decode_canonical_wire_bridge_envelope b with
  | Ok envelope => mkDecode (Some (canonical_to_protobuf_envelope envelope)) Valid []
  | Err error => mkDecode None Invalid [issue_of error]
  end.

Definition encode_wire_bridge_protobuf_bytes (e : WireBridgeProtobufEnvelope) : WireBridgeProtobufEncode :=
  match (let? canonical := protobuf_to_canonical_envelope e in encode_canonical_wire_bridge_envelope canonical) with
  | Ok b => mkEncode (Some b) Valid []
  | Err error => mkEncode None Invalid [issue_of error]
  end.
End Proto.
