(* ===== verification/ProtobufFacts.v ===== *)
(** * The protobuf form: reading what was written

    A reader that stands before written fields reads them back; so every parser
    inverts its encoder, and the canonical bytes and the valid envelopes are the same
    things.  Reading ends on any input. *)

From Stdlib Require Import Ascii String.
From stdpp Require Import base option strings numbers list.
From S2P Require Import Prelude Text Resilience Bridge Protobuf.
Import Proto.

Local Open Scope rx_scope.
Local Open Scope N_scope.

(** ** Bits *)

Lemma lor_disjoint a b : N.land a b = 0 → N.lor a b = a + b.
Proof. intros Hab. by rewrite <- N.lxor_lor, N.add_nocarry_lxor. Qed.

Lemma lor_shift a b n : a < 2 ^ n → N.lor a (N.shiftl b n) = a + b * 2 ^ n.
Proof.
  intros Ha. rewrite <- N.shiftl_mul_pow2. apply lor_disjoint. apply N.bits_inj. intros k.
  rewrite N.land_spec, N.bits_0. destruct (N.lt_ge_cases k n) as [Hk|Hk].
  - by rewrite N.shiftl_spec_low, andb_false_r.
  - assert (N.testbit a k = false) as ->; [|done]. destruct (decide (a = 0)) as [->|Hz]; [apply N.bits_0|].
    apply N.bits_above_log2. apply (N.lt_le_trans _ n); [|done]. apply N.log2_lt_pow2; lia.
Qed.

(** A fact of the 256 bytes. *)
Lemma every_byte (f : N → bool) : forallb f (N.of_nat <$> seq 0 256) = true → ∀ b, b < 256 → f b = true.
Proof. intros Hf b Hb. rewrite forallb_forall in Hf. apply Hf, list_elem_of_In, list_elem_of_fmap.
  exists (N.to_nat b). rewrite elem_of_seq. lia. Qed.

Lemma low_bits n : N.land n 127 = n mod 128.
Proof. exact (N.land_ones n 7). Qed.

Lemma high_bit b : b < 256 → (N.land b 128 =? 0) = (b <? 128).
Proof.
  intros Hb. pose proof (every_byte (λ b, eqb (N.land b 128 =? 0) (b <? 128)) ltac:(vm_compute; reflexivity) b Hb) as He.
  by apply eqb_prop in He.
Qed.

Lemma byte_code n : n < 256 → N_of_ascii (byte n) = n.
Proof. intros Hn. by apply N_ascii_embedding. Qed.

(** ** The position of a reader *)

(** What is left to read. *)
Definition rests (r : Reader) (rest : bytes) : Prop :=
  r_offset r ≤ N.of_nat (length (r_bytes r)) ∧ drop (N.to_nat (r_offset r)) (r_bytes r) = rest.

Lemma rests_new b : rests (new_reader b) b.
Proof. split; [simpl; lia|done]. Qed.

Lemma rests_length r rest : rests r rest → r_offset r + N.of_nat (length rest) = N.of_nat (length (r_bytes r)).
Proof. intros [Hle <-]. rewrite length_drop. lia. Qed.

Lemma rests_advance r l rest : rests r (l ++ rest) → rests (advance (N.of_nat (length l)) r) rest.
Proof.
  intros Hr. pose proof (rests_length _ _ Hr) as Hl. rewrite length_app in Hl. destruct Hr as [Hle Hd]. split; simpl; [lia|].
  replace (N.to_nat (r_offset r + N.of_nat (length l))) with (N.to_nat (r_offset r) + length l)%nat by lia.
  by rewrite <- drop_drop, Hd, drop_app_length.
Qed.

Lemma rests_get r c rest : rests r (c :: rest) → get_byte r = Some c.
Proof.
  intros Hr. pose proof (rests_length _ _ Hr) as Hl. simpl in Hl. destruct Hr as [Hle Hd]. unfold get_byte.
  rewrite (proj2 (N.ltb_lt _ _)) by lia. rewrite <- (Nat.add_0_r (N.to_nat _)), <- lookup_drop, Hd. done.
Qed.

Lemma rests_done r rest : rests r rest → done r = bool_decide (rest = []).
Proof.
  intros Hr. pose proof (rests_length _ _ Hr) as Hl. unfold done. destruct rest as [|c rest]; simpl in Hl.
  - rewrite bool_decide_true by done. apply N.eqb_eq. lia.
  - rewrite bool_decide_false by done. apply N.eqb_neq. lia.
Qed.

(** ** Varints *)

Lemma varint_read turns idx v result r rest :
  idx + N.of_nat turns = 10 → v < 2 ^ (7 * N.of_nat turns) → (0 < turns)%nat → result < 2 ^ (7 * idx) →
  v * 2 ^ (7 * idx) < 2 ^ 64 → rests r (varint_loop turns v ++ rest) →
  ∃ r', read_varint_loop turns idx (7 * idx) result r = Ret (Ok (result + v * 2 ^ (7 * idx))) r'
        ∧ rests r' rest ∧ r_bytes r' = r_bytes r.
Proof.
  revert idx v result r. induction turns as [|turns IH]; intros idx v result r Hidx Hv Hpos Hres Hbound Hr; [lia|].
  assert (idx = 9 → v < 2) as H9.
  { intros ->. change (7 * 9) with 63 in Hbound. change (2 ^ 64) with (2 * 2 ^ 63) in Hbound. nia. }
  pose proof (N.div_mod v 128 ltac:(lia)) as Hdm. pose proof (N.mod_lt v 128 ltac:(lia)) as Hlow.
  cbn [varint_loop read_varint_loop] in *. rewrite low_bits in Hr. rewrite N.shiftr_div_pow2 in Hr. change (2 ^ 7) with 128 in Hr.
  unfold bind, gets, id. destruct (N.eqb_spec (v / 128) 0) as [Hz|Hz].
  - simpl in Hr. rewrite (rests_get _ _ _ Hr). unfold modify, ret. rewrite byte_code by lia.
    assert ((idx =? 9) && negb (N.land (v mod 128) 254 =? 0) = false) as ->.
    { destruct (N.eqb_spec idx 9) as [Hi|]; [|done]. specialize (H9 Hi).
      assert (v = 0 ∨ v = 1) as [-> | ->] by lia; done. }
    rewrite high_bit by lia. rewrite (proj2 (N.ltb_lt _ _)) by lia. rewrite low_bits, N.mod_mod, lor_shift by (done || lia).
    replace (v mod 128) with v by lia. eexists. split; [done|]. split; [|done].
    exact (rests_advance r [_] rest Hr).
  - simpl in Hr. rewrite (rests_get _ _ _ Hr). unfold modify, ret.
    assert (N.lor (v mod 128) 128 = v mod 128 + 128) as Hlor by exact (lor_shift (v mod 128) 1 7 Hlow).
    rewrite Hlor, byte_code in * by lia.
    assert ((idx =? 9) = false) as ->.
    { apply N.eqb_neq. intros Hi. specialize (H9 Hi). rewrite N.div_small in Hz by lia. lia. }
    simpl. rewrite high_bit by lia. rewrite (proj2 (N.ltb_ge (v mod 128 + 128) 128) (N.le_add_l _ _)). rewrite low_bits.
    replace ((v mod 128 + 128) mod 128) with (v mod 128) by (change (v mod 128 + 128) with (v mod 128 + 1 * 128); rewrite N.Div0.mod_add; symmetry; by apply N.mod_small).
    rewrite lor_shift by done.
    assert (7 * idx + 7 = 7 * (idx + 1)) as He by lia. rewrite He.
    assert (2 ^ (7 * (idx + 1)) = 128 * 2 ^ (7 * idx)) as Hp by (rewrite <- He, N.pow_add_r; change (2 ^ 7) with 128; lia).
    assert (2 ^ (7 * N.of_nat (S turns)) = 128 * 2 ^ (7 * N.of_nat turns)) as Hpt.
    { replace (7 * N.of_nat (S turns)) with (7 + 7 * N.of_nat turns) by lia. by rewrite N.pow_add_r. }
    destruct (IH (idx + 1) (v / 128) (result + v mod 128 * 2 ^ (7 * idx)) (advance 1 r)) as (r' & Hrun & Hr' & Hb).
    + lia.
    + apply N.Div0.div_lt_upper_bound. lia.
    + destruct turns; [|lia]. exfalso. change (2 ^ (7 * N.of_nat 1)) with 128 in Hv. rewrite N.div_small in Hz; lia.
    + rewrite Hp. nia.
    + rewrite Hp, N.mul_assoc. apply (N.le_lt_trans _ (v * 2 ^ (7 * idx))); [|done]. apply N.mul_le_mono_r.
      rewrite N.mul_comm. apply N.Div0.mul_div_le.
    + exact (rests_advance r [_] _ Hr).
    + exists r'. split_and!; [|done|done]. rewrite Hrun. do 2 f_equal. rewrite Hp.
      assert (v * 2 ^ (7 * idx) = (128 * (v / 128) + v mod 128) * 2 ^ (7 * idx)) as -> by (by rewrite <- Hdm).
      generalize (2 ^ (7 * idx)) (v / 128) (v mod 128). intros. lia.
Qed.

Lemma varint_reads v r rest : v ≤ u64_max → rests r (write_varint v ++ rest) →
  ∃ r', read_varint r = Ret (Ok v) r' ∧ rests r' rest ∧ r_bytes r' = r_bytes r.
Proof.
  intros Hv Hr. destruct (varint_read 10 0 v 0 r rest) as (r' & Hrun & Hr' & Hb); try done; try lia.
  - change (2 ^ (7 * N.of_nat 10)) with (2 ^ 70). apply (N.le_lt_trans _ u64_max); [done|reflexivity].
  - change (2 ^ (7 * 0)) with 1. unfold u64_max in Hv. lia.
  - exists r'. split_and!; [|done|done]. change (2 ^ (7 * 0)) with 1 in Hrun.
    rewrite N.add_0_l, N.mul_1_r in Hrun. exact Hrun.
Qed.

Lemma varint_some v : write_varint v ≠ [].
Proof. unfold write_varint. cbn [varint_loop]. by destruct (N.shiftr v 7 =? 0). Qed.

#[local] Opaque write_varint.

(** ** Fields *)

Lemma tag_key no wt : wt < 8 → N.lor (N.shiftl no 3) wt = no * 8 + wt.
Proof. intros Hw. rewrite N.lor_comm, lor_shift by (by change (2 ^ 3) with 8). change (2 ^ 3) with 8. lia. Qed.

Lemma key_no no wt : wt < 8 → N.shiftr (no * 8 + wt) 3 = no.
Proof. intros Hw. rewrite N.shiftr_div_pow2. change (2 ^ 3) with 8. rewrite N.div_add_l, N.div_small by lia. lia. Qed.

Lemma key_type no wt : wt < 8 → N.land (no * 8 + wt) 7 = wt.
Proof.
  intros Hw. change 7 with (N.ones 3). rewrite N.land_ones. change (2 ^ 3) with 8. rewrite N.add_comm, N.Div0.mod_add.
  by apply N.mod_small.
Qed.

Definition code_of (v : FieldValue) : N := match v with Varint _ => 0 | Bytes _ => 2 end.

(** What the writer writes for a field. *)
Definition written (f : Field) : bytes :=
  match f_value f with Varint v => varint_field (f_no f) v | Bytes v => bytes_field_of (f_no f) v end.

Definition written_all (fs : list Field) : bytes := fs ≫= written.

Record field_ok (allowed : list (N * N)) (f : Field) : Prop := {
  fk_no : 0 < f_no f < 2 ^ 29;
  fk_type : f_wire_type f = code_of (f_value f);
  fk_allowed : expected_wire_type allowed (f_no f) = Some (code_of (f_value f));
  fk_value v : f_value f = Varint v → v ≤ u64_max
}.

Lemma tag_some no wt l : tag no wt ++ l ≠ [].
Proof. unfold tag. pose proof (varint_some (N.lor (N.shiftl no 3) wt)). by destruct (write_varint _). Qed.

Lemma written_some f l : written f ++ l ≠ [].
Proof.
  unfold written, varint_field, bytes_field_of. destruct (f_value f); rewrite <- !app_assoc; apply tag_some.
Qed.

Lemma bytes_read v r rest : N.of_nat (length (r_bytes r)) ≤ u64_max →
  rests r (write_varint (N.of_nat (length v)) ++ v ++ rest) →
  ∃ r', read_bytes r = Ret (Ok v) r' ∧ rests r' rest ∧ r_bytes r' = r_bytes r.
Proof.
  intros Hmax Hr. pose proof (rests_length _ _ Hr) as Hl. rewrite !length_app in Hl.
  destruct (varint_reads (N.of_nat (length v)) r (v ++ rest)) as (r1 & Hrun & Hr1 & Hb1); [lia|done|].
  pose proof (rests_length _ _ Hr1) as Hl1. rewrite length_app in Hl1. unfold read_bytes.
  rewrite (mrbind_step _ _ _ _ _ Hrun). unfold bind, gets, id.
  rewrite (proj2 (N.ltb_ge u64_max _)) by (rewrite Hb1 in Hl1; lia). rewrite (proj2 (N.ltb_ge _ _)) by lia.
  unfold modify, ret. exists (advance (N.of_nat (length v)) r1). split_and!; [|by apply rests_advance|done].
  destruct Hr1 as [_ ->]. by rewrite Nat2N.id, take_app_length.
Qed.

Lemma field_read allowed name seen f r rest :
  N.of_nat (length (r_bytes r)) ≤ u64_max → field_ok allowed f → f_no f ∉ seen → rests r (written f ++ rest) →
  ∃ r', read_field allowed name seen r = Ret (Ok f) r' ∧ rests r' rest ∧ r_bytes r' = r_bytes r.
Proof.
  intros Hmax [Hno Hty Hal Hval] Hseen Hr. change (2 ^ 29) with 536870912 in Hno.
  assert (∃ l, written f = tag (f_no f) (code_of (f_value f)) ++ l) as [l Hl].
  { unfold written, varint_field, bytes_field_of. destruct (f_value f); by eexists. }
  assert (code_of (f_value f) < 8) as Hcode by (by destruct (f_value f)).
  assert (rests r (write_varint (f_no f * 8 + code_of (f_value f)) ++ l ++ rest)) as Hr0.
  { rewrite <- tag_key by done. rewrite Hl, <- app_assoc in Hr. exact Hr. }
  destruct (varint_reads (f_no f * 8 + code_of (f_value f)) r (l ++ rest)) as (r1 & Hrun & Hr1 & Hb1); [unfold u64_max; lia|done|].
  unfold read_field. rewrite (mrbind_step _ _ _ _ _ Hrun). rewrite key_no, key_type by done.
  rewrite (proj2 (N.ltb_ge u32_max _)) by (unfold u32_max; lia). rewrite Hal, N.eqb_refl.
  rewrite (proj2 (N.eqb_neq (f_no f) 0)) by lia. rewrite bool_decide_false by done. simpl.
  unfold written, varint_field, bytes_field_of in Hl. destruct f as [no wt value]. simpl in *. subst wt.
  destruct value as [v|v]; simpl in *; apply app_inv_head in Hl as <-.
  - destruct (varint_reads v r1 rest) as (r2 & Hrun2 & Hr2 & Hb2); [by apply Hval|done|].
    exists r2. rewrite (mrbind_step _ _ _ _ _ Hrun2). split_and!; [done|done|congruence].
  - rewrite <- app_assoc in Hr1. destruct (bytes_read v r1 rest) as (r2 & Hrun2 & Hr2 & Hb2); [congruence|done|].
    exists r2. rewrite (mrbind_step _ _ _ _ _ Hrun2). split_and!; [done|done|congruence].
Qed.

Lemma fields_read allowed name fs : ∀ fuel acc r,
  N.of_nat (length (r_bytes r)) ≤ u64_max → Forall (field_ok allowed) fs → NoDup (f_no <$> acc ++ fs) →
  (length fs < fuel)%nat → rests r (written_all fs) →
  ∃ r', read_fields_loop fuel allowed name acc r = Ret (Ok (acc ++ fs)) r'.
Proof.
  induction fs as [|f fs IH]; intros fuel acc r Hmax Hok Hnd Hfuel Hr; (destruct fuel as [|fuel]; [simpl in Hfuel; lia|]).
  - exists r. cbn [read_fields_loop]. unfold bind, gets, id. rewrite (rests_done _ _ Hr). by rewrite app_nil_r.
  - apply Forall_cons in Hok as [Hf Hok]. unfold written_all in Hr. simpl in Hr.
    cbn [read_fields_loop]. unfold bind, gets, id. rewrite (rests_done _ _ Hr), bool_decide_false by apply written_some.
    destruct (field_read allowed name (f_no <$> acc) f r (written_all fs)) as (r1 & Hrun & Hr1 & Hb1); [done|done| |done|].
    { rewrite fmap_app in Hnd. apply NoDup_app in Hnd as (_ & Hd & _). intros Hin. apply (Hd _ Hin). left. }
    rewrite (mrbind_step _ _ _ _ _ Hrun). destruct (IH fuel (acc ++ [f]) r1) as [r2 Hrun2]; [congruence|done| |simpl in Hfuel; lia|done|].
    { by rewrite <- app_assoc. }
    exists r2. by rewrite Hrun2, <- app_assoc.
Qed.

Lemma written_length fs : (length fs ≤ length (written_all fs))%nat.
Proof.
  induction fs as [|f fs IH]; [done|]. change (written_all (f :: fs)) with (written f ++ written_all fs). rewrite length_app.
  pose proof (written_some f []) as Hs. rewrite app_nil_r in Hs. destruct (written f); [done|]. cbn [length]. lia.
Qed.

(** The reader inverts the writer. *)
Lemma read_fields_written allowed name fs :
  N.of_nat (length (written_all fs)) ≤ u64_max → Forall (field_ok allowed) fs → NoDup (f_no <$> fs) →
  read_fields (written_all fs) allowed name = Ok fs.
Proof.
  intros Hmax Hok Hnd. unfold read_fields. pose proof (written_length fs) as Hl.
  destruct (fields_read allowed name fs (S (length (written_all fs))) [] (new_reader (written_all fs))) as [r' ->];
    [done|done|done|lia|apply rests_new|done].
Qed.

(** ** Messages *)

(** A [Vec<u8>] is shorter than 2^64. *)
Definition fits (b : bytes) : Prop := N.of_nat (length b) ≤ u64_max.

Lemma fits_part l b l' : fits (l ++ b ++ l') → fits b.
Proof. unfold fits. rewrite !length_app. lia. Qed.

Lemma fits_inner no b l l' : fits (l ++ bytes_field_of no b ++ l') → fits b.
Proof. unfold bytes_field_of. rewrite <- !app_assoc, app_assoc, app_assoc. apply fits_part. Qed.

(** A Rust [String] is valid UTF-8. *)
Definition text_ok (s : string) : Prop := from_utf8 (bytes_of s) = true.

Lemma utf8_reads s field : text_ok s → s ≠ ""%string → utf8_string (bytes_of s) field = Ok s.
Proof.
  intros Hs Hne. unfold utf8_string. rewrite Hs. simpl. rewrite bool_decide_false.
  - by rewrite str_of_bytes.
  - by destruct s.
Qed.

Definition vfield (no v : N) : Field := mkField no 0 (Varint v).
Definition bfield (no : N) (b : bytes) : Field := mkField no 2 (Bytes b).

(** Solves [Forall (field_ok allowed) fs] and [NoDup] for written-out lists. *)
Ltac one_field_ok :=
  split; [split; reflexivity|reflexivity|reflexivity|
    intros ? [=]; subst; first [assumption | unfold u32_max, u64_max in *; lia]].
Ltac fields_ok := repeat first [by apply Forall_nil | apply Forall_cons; split; [one_field_ok|]].
Ltac numbers_distinct := apply (bool_decide_unpack _); vm_compute; exact I.

Record metadata_typed (m : CanonicalWireBridgeMetadata) : Prop := {
  mt_seq : cm_seq m ≤ u64_max;
  mt_cursor : cm_cursor m ≤ u64_max;
  mt_attempt : cm_attempt m ≤ u32_max;
  mt_max : cm_max_attempts m ≤ u32_max;
  mt_key : text_ok (cm_idempotency_key m);
  mt_time t : cm_timestamp_ms m = Some t → t ≤ u64_max;
  mt_ack a : cm_ack_for_seq m = Some a → a ≤ u64_max;
  mt_request r : cm_request_id m = Some r → text_ok r
}.

Definition metadata_fields (m : CanonicalWireBridgeMetadata) : list Field :=
  [vfield 1 (cm_seq m); vfield 2 (cm_cursor m); bfield 3 (bytes_of (cm_idempotency_key m)); vfield 4 (cm_attempt m);
   vfield 5 (cm_max_attempts m)]
  ++ option_list (vfield 6 <$> cm_timestamp_ms m) ++ option_list (vfield 7 <$> cm_ack_for_seq m)
  ++ option_list (bfield 8 ∘ bytes_of <$> cm_request_id m).

Lemma metadata_written m : encode_metadata m = written_all (metadata_fields m).
Proof.
  unfold encode_metadata, metadata_fields. destruct m as [? ? ? ? ? [] [] []]; simpl; unfold written_all; simpl;
    unfold string_field; rewrite <- ?app_assoc, ?app_nil_r; reflexivity.
Qed.

Lemma metadata_parsed m : metadata_typed m → fits (encode_metadata m) → cm_idempotency_key m ≠ ""%string →
  cm_timestamp_ms m ≠ Some 0 → cm_ack_for_seq m ≠ Some 0 → cm_request_id m ≠ Some ""%string →
  parse_metadata (encode_metadata m) = Ok m.
Proof.
  intros [Hs Hc Ha Hx Hk Ht Hq Hr] Hfits Hne Ht0 Ha0 Hr0. unfold parse_metadata. rewrite metadata_written in *.
  rewrite read_fields_written; [|done| |].
  - destruct m as [seq cursor key attempt max ts ack rid]. simpl in *.
    assert (∀ x, rid = Some x → text_ok x ∧ x ≠ ""%string) as Hx' by (intros x ->; split; [by apply Hr|congruence]).
    assert (bytes_of <$> rid ≠ Some []) as Hrb by (destruct rid as [[|c r]|]; simpl; congruence).
    assert (transpose (λ v, utf8_string v "request_id") (bytes_of <$> rid) = Ok rid) as Htr.
    { destruct rid as [r|]; [|done]. simpl. destruct (Hx' r eq_refl). by rewrite utf8_reads. }
    assert (∀ fs, fs = metadata_fields (mkCanonicalMetadata seq cursor key attempt max ts ack rid) →
              uint_field fs 6 = ts ∧ uint_field fs 7 = ack ∧ bytes_field fs 8 = bytes_of <$> rid) as Hopt.
    { intros fs ->. by destruct ts, ack, rid. }
    destruct (Hopt _ eq_refl) as (H6 & H7 & H8). cbn [rbind]. rewrite H6, H7, H8.
    rewrite !bool_decide_false by done. simpl. rewrite utf8_reads by done. simpl. unfold uint32.
    rewrite !(proj2 (N.ltb_ge u32_max _)) by done. simpl. by rewrite Htr.
  - destruct m as [seq cursor key attempt max ts ack rid]. simpl in *.
    destruct ts as [t|], ack as [a|], rid as [r|]; unfold metadata_fields; simpl; try specialize (Ht _ eq_refl); try specialize (Hq _ eq_refl); fields_ok.
  - destruct m as [seq cursor key attempt max ts ack rid]. destruct ts, ack, rid; numbers_distinct.
Qed.

Record frame_typed (f : CanonicalWireEdgeFrame) : Prop := {
  ft_edge : text_ok (fr_edge_id f);
  ft_cause : text_ok (fr_cause_id f)
}.

Definition frame_fields (f : CanonicalWireEdgeFrame) : list Field :=
  [vfield 1 (kind_code (fr_kind f)); bfield 2 (bytes_of (fr_edge_id f)); bfield 3 (bytes_of (fr_cause_id f))]
  ++ option_list (bfield 4 <$> fr_value f).

Lemma frame_written f : encode_wire_edge_frame f = written_all (frame_fields f).
Proof.
  unfold encode_wire_edge_frame. destruct f as [? ? ? []]; unfold written_all; simpl; unfold string_field;
    rewrite <- ?app_assoc, ?app_nil_r; reflexivity.
Qed.

Lemma frame_valid f : validate_wire_edge_frame f = Ok tt →
  fr_edge_id f ≠ ""%string ∧ fr_cause_id f ≠ ""%string ∧ (fr_kind f = Dirty ↔ fr_value f = None).
Proof.
  unfold validate_wire_edge_frame, Wire.empty. do 2 case_bool_decide; simpl; try done.
  destruct f as [[] ? ? []]; simpl in *; try done; intros _; split_and!; try done; by split.
Qed.

Lemma frame_parsed f : frame_typed f → fits (encode_wire_edge_frame f) → validate_wire_edge_frame f = Ok tt →
  parse_wire_edge_frame (encode_wire_edge_frame f) = Ok f.
Proof.
  intros [He Hc] Hfits (Hne & Hnc & Hkind)%frame_valid. unfold parse_wire_edge_frame. rewrite frame_written in *.
  rewrite read_fields_written; [|done| |].
  - destruct f as [kind edge cause value]. simpl in *.
    destruct kind, value as [v|]; simpl; try (by destruct Hkind as [Hd Hn]; try discriminate (Hd eq_refl); discriminate (Hn eq_refl));
      rewrite !utf8_reads by done; done.
  - destruct f as [kind edge cause value]. destruct kind, value; unfold frame_fields; simpl; fields_ok.
  - destruct f as [kind edge cause value]. destruct value; numbers_distinct.
Qed.

(** ** Payloads and envelopes *)

Lemma one_bytes_read no b name : (no = 1 ∨ no = 2) → fits (bytes_field_of no b) →
  read_fields (bytes_field_of no b) [(1, 2); (2, 2)] name = Ok [bfield no b].
Proof.
  intros Hno Hfits. assert (bytes_field_of no b = written_all [bfield no b]) as Hw by (unfold written_all; simpl; by rewrite app_nil_r).
  rewrite Hw in *. apply read_fields_written; [done| |destruct Hno as [-> | ->]; numbers_distinct].
  destruct Hno as [-> | ->]; fields_ok.
Qed.

Lemma one_field_read b name : fits (bytes_field_of 1 b) →
  read_fields (bytes_field_of 1 b) [(1, 2)] name = Ok [bfield 1 b].
Proof.
  intros Hfits. assert (bytes_field_of 1 b = written_all [bfield 1 b]) as Hw by (unfold written_all; simpl; by rewrite app_nil_r).
  rewrite Hw in *. apply read_fields_written; [done|fields_ok|numbers_distinct].
Qed.

Definition payload_typed (p : CanonicalWireBridgePayload) : Prop :=
  match p with PbData (BWireEdge frame) => frame_typed frame | _ => True end.

Lemma data_parsed body b :
  encode_data_payload body = Ok b → fits b → payload_typed (PbData body) → parse_data_payload b = Ok body.
Proof.
  unfold parse_data_payload. destruct body as [value|frame]; simpl.
  - intros [= <-] Hfits _. by rewrite one_bytes_read by (by left || done).
  - unfold encode_canonical_wire_edge_frame. destruct (validate_wire_edge_frame frame) as [[]|] eqn:Hv; [|done].
    intros [= <-] Hfits Ht. unfold message_field in *. rewrite one_bytes_read by (by right || done). simpl.
    rewrite frame_parsed; [done..| |done].
    apply (fits_inner 2 _ [] []). by rewrite app_nil_r.
Qed.

Lemma optional_parsed no value b name :
  encode_optional_bytes_message 1 value = Ok b → fits b → no = 1 → parse_optional_bytes_payload b name = Ok value.
Proof.
  intros He Hfits ->. unfold parse_optional_bytes_payload. destruct value as [[|c v]|]; simpl in He; simplify_eq.
  - by rewrite one_field_read.
  - done.
Qed.

Lemma required_parsed value name : value ≠ [] → fits (bytes_field_of 1 value) →
  parse_required_bytes_payload (encode_required_bytes_message 1 value) name = Ok value.
Proof.
  intros Hne Hfits. unfold parse_required_bytes_payload, encode_required_bytes_message. rewrite one_field_read by done.
  simpl. by destruct value.
Qed.

Lemma payload_parsed p no b :
  encode_payload p = Ok (no, b) → fits b → payload_typed p → validate_payload_bytes p = Ok tt →
  parse_envelope_payload no b = Ok p ∧ 3 ≤ no ≤ 9.
Proof.
  destruct p as [|body| |error|status|error|reason]; simpl; intros He Hfits Ht Hv.
  - injection He as <- <-. done.
  - destruct (encode_data_payload body) as [b'|] eqn:Hb; simplify_eq/=. by rewrite (data_parsed _ _ Hb).
  - injection He as <- <-. done.
  - destruct (encode_optional_bytes_message 1 error) as [b'|] eqn:Hb; simplify_eq/=. by rewrite (optional_parsed 1 _ _ _ Hb).
  - injection He as <- <-. simpl. rewrite required_parsed; [done| |done]. by intros ->.
  - injection He as <- <-. simpl. rewrite required_parsed; [done| |done]. by intros ->.
  - destruct (encode_optional_bytes_message 1 reason) as [b'|] eqn:Hb; simplify_eq/=. by rewrite (optional_parsed 1 _ _ _ Hb).
Qed.

(** What the Rust types say of an envelope. *)
Record envelope_typed (e : CanonicalWireBridgeEnvelope) : Prop := {
  et_session : text_ok (ce_session_id e);
  et_metadata : metadata_typed (ce_metadata e);
  et_payload : payload_typed (ce_payload e)
}.

Record envelope_valid (e : CanonicalWireBridgeEnvelope) : Prop := {
  ev_session : ce_session_id e ≠ ""%string;
  ev_seq : cm_seq (ce_metadata e) ≠ 0;
  ev_attempt : cm_attempt (ce_metadata e) ≠ 0;
  ev_max : cm_attempt (ce_metadata e) ≤ cm_max_attempts (ce_metadata e);
  ev_key : cm_idempotency_key (ce_metadata e) ≠ ""%string;
  ev_receipt : is_ack_or_nack (ce_payload e) = true → cm_ack_for_seq (ce_metadata e) ≠ None;
  ev_time : cm_timestamp_ms (ce_metadata e) ≠ Some 0;
  ev_ack : cm_ack_for_seq (ce_metadata e) ≠ Some 0;
  ev_request : cm_request_id (ce_metadata e) ≠ Some ""%string;
  ev_frame frame : ce_payload e = PbData (BWireEdge frame) → validate_wire_edge_frame frame = Ok tt;
  ev_bytes : validate_payload_bytes (ce_payload e) = Ok tt
}.

Lemma valid_envelope_iff e : validate_wire_bridge_envelope e = Ok tt ↔ envelope_valid e.
Proof.
  unfold validate_wire_bridge_envelope, Wire.empty.
  destruct (bool_decide (ce_session_id e = "")%string || (cm_seq (ce_metadata e) =? 0) || (cm_attempt (ce_metadata e) =? 0)
    || (cm_max_attempts (ce_metadata e) <? cm_attempt (ce_metadata e)) || bool_decide (cm_idempotency_key (ce_metadata e) = "")%string) eqn:H1.
  { split; [done|]. intros [Hs Hq Ha Hm Hk _ _ _ _ _ _]. apply N.eqb_neq in Hq, Ha. apply N.ltb_ge in Hm.
    rewrite Hq, Ha, Hm, !bool_decide_false in H1 by done. done. }
  apply orb_false_iff in H1 as [[[[Hs%bool_decide_eq_false Hq%N.eqb_neq]%orb_false_iff Ha%N.eqb_neq]%orb_false_iff
    Hm%N.ltb_ge]%orb_false_iff Hk%bool_decide_eq_false].
  destruct (is_ack_or_nack (ce_payload e) && bool_decide (cm_ack_for_seq (ce_metadata e) = None)) eqn:H2.
  { apply andb_true_iff in H2 as [Hr Hn%bool_decide_eq_true]. split; [done|]. intros He. by destruct (ev_receipt _ He Hr). }
  assert (is_ack_or_nack (ce_payload e) = true → cm_ack_for_seq (ce_metadata e) ≠ None) as Hr.
  { intros Hr. by rewrite Hr in H2; apply bool_decide_eq_false in H2. }
  destruct (bool_decide (cm_timestamp_ms (ce_metadata e) = Some 0) || bool_decide (cm_ack_for_seq (ce_metadata e) = Some 0)
    || bool_decide (cm_request_id (ce_metadata e) = Some ""%string)) eqn:H3.
  { split; [done|]. intros [_ _ _ _ _ _ Ht Hack Hrid _ _]. by rewrite !bool_decide_false in H3 by done. }
  apply orb_false_iff in H3 as [[Ht%bool_decide_eq_false Hack%bool_decide_eq_false]%orb_false_iff Hrid%bool_decide_eq_false].
  split.
  - intros Hrest. split; try done.
    + intros frame Hp. rewrite Hp in Hrest. simpl in Hrest. by destruct (validate_wire_edge_frame frame) as [[]|].
    + destruct (ce_payload e) as [|[|frame]| | | | |]; simpl in *; try done.
  - intros [_ _ _ _ _ _ _ _ _ Hf Hb]. destruct (ce_payload e) as [|[|frame]| | | | |]; simpl in *; try done.
    by rewrite (Hf frame eq_refl).
Qed.

Definition envelope_fields (e : CanonicalWireBridgeEnvelope) (no : N) (b : bytes) : list Field :=
  [bfield 1 (bytes_of (ce_session_id e)); bfield 2 (encode_metadata (ce_metadata e)); bfield no b].

Lemma in_payload_range no : 3 ≤ no ≤ 9 → no = 3 ∨ no = 4 ∨ no = 5 ∨ no = 6 ∨ no = 7 ∨ no = 8 ∨ no = 9.
Proof. lia. Qed.

Lemma envelope_parsed e b :
  encode_canonical_wire_bridge_envelope e = Ok b → fits b → envelope_typed e → parse_wire_bridge_envelope b = Ok e.
Proof.
  unfold encode_canonical_wire_bridge_envelope. destruct (validate_wire_bridge_envelope e) as [[]|] eqn:Hv; [|done].
  apply valid_envelope_iff in Hv as [Hs _ _ _ Hk _ Ht Ha Hr _ Hb]. cbn [rbind].
  destruct (encode_payload (ce_payload e)) as [[no inner]|] eqn:Hp; [|done]. cbn [rbind fst snd]. intros Heq Hfits [Hts Htm Htp].
  assert (b = bytes_field_of 1 (bytes_of (ce_session_id e)) ++ bytes_field_of 2 (encode_metadata (ce_metadata e)) ++ bytes_field_of no inner)
    as -> by (symmetry; exact (f_equal (λ r, match r with Ok x => x | Err _ => b end) Heq)).
  clear Heq.
  assert (fits (encode_metadata (ce_metadata e))) as Hfm by (by apply (fits_inner 2 _ (bytes_field_of 1 (bytes_of (ce_session_id e))) (bytes_field_of no inner))).
  assert (fits inner) as Hfi.
  { apply (fits_inner no _ (bytes_field_of 1 (bytes_of (ce_session_id e)) ++ bytes_field_of 2 (encode_metadata (ce_metadata e))) []).
    by rewrite app_nil_r, <- app_assoc. }
  destruct (payload_parsed _ _ _ Hp Hfi Htp Hb) as [Hparse Hno].
  assert (bytes_field_of 1 (bytes_of (ce_session_id e)) ++ bytes_field_of 2 (encode_metadata (ce_metadata e)) ++ bytes_field_of no inner
          = written_all (envelope_fields e no inner)) as Hw by (unfold written_all; simpl; by rewrite app_nil_r).
  rewrite Hw in *. unfold parse_wire_bridge_envelope. rewrite read_fields_written; [|done| |].
  - cbn [rbind]. assert (List.filter (λ f, (3 <=? f_no f) && (f_no f <=? 9)) (envelope_fields e no inner) = [bfield no inner]) as ->.
    { unfold envelope_fields. simpl. by rewrite (proj2 (N.leb_le 3 no)), (proj2 (N.leb_le no 9)) by lia. }
    simpl. rewrite utf8_reads by done. simpl. rewrite metadata_parsed by done. simpl. rewrite Hparse. simpl. by destruct e.
  - apply in_payload_range in Hno. unfold envelope_fields.
    repeat destruct Hno as [-> | Hno]; try (rewrite Hno); fields_ok.
  - apply in_payload_range in Hno. repeat destruct Hno as [-> | Hno]; try (rewrite Hno); numbers_distinct.
Qed.

Lemma encoded_valid e b : encode_canonical_wire_bridge_envelope e = Ok b → validate_wire_bridge_envelope e = Ok tt.
Proof. unfold encode_canonical_wire_bridge_envelope. by destruct (validate_wire_bridge_envelope e) as [[]|]. Qed.

Lemma valid_encodes e : validate_wire_bridge_envelope e = Ok tt → ∃ b, encode_canonical_wire_bridge_envelope e = Ok b.
Proof.
  intros Hv. unfold encode_canonical_wire_bridge_envelope. rewrite Hv. cbn [rbind].
  apply valid_envelope_iff in Hv as [_ _ _ _ _ _ _ _ _ Hf Hb].
  destruct (ce_payload e) as [|[|frame]| |[[|]|]| | |[[|]|]]; simpl in *; try done; try (by eexists).
  unfold encode_canonical_wire_edge_frame. rewrite (Hf _ eq_refl). by eexists.
Qed.

(** ** Reading ends *)

Lemma varint_loop_ends turns idx shift result r :
  ∃ x r', read_varint_loop turns idx shift result r = Ret x r' ∧ r_bytes r' = r_bytes r ∧ r_offset r ≤ r_offset r'
          ∧ (∀ v, x = Ok v → r_offset r < r_offset r' ≤ N.of_nat (length (r_bytes r))).
Proof.
  revert idx shift result r. induction turns as [|turns IH]; intros idx shift result r.
  { eexists _, r. split_and!; try done. }
  cbn [read_varint_loop]. unfold bind, gets, id. unfold get_byte.
  destruct (N.ltb_spec (r_offset r) (N.of_nat (length (r_bytes r)))) as [Hlt|]; [|by eexists _, r; split_and!].
  destruct (r_bytes r !! N.to_nat (r_offset r)) as [c|]; [|by eexists _, r; split_and!].
  unfold modify. destruct (_ && _); [eexists _, _; split_and!; try done; simpl; lia|].
  destruct (N.land (N_of_ascii c) 128 =? 0); [eexists _, _; split_and!; try done; simpl; lia|].
  destruct (IH (idx + 1) (shift + 7) (N.lor result (N.shiftl (N.land (N_of_ascii c) 127) shift)) (advance 1 r))
    as (x & r' & Hrun & Hb & Hle & Hx). simpl in *.
  exists x, r'. split_and!; [done|done|lia|]. intros v Hv. destruct (Hx v Hv). lia.
Qed.

(** A reader that stands within its bytes. *)
Definition inside (r : Reader) : Prop := r_offset r ≤ N.of_nat (length (r_bytes r)).

Lemma field_ends allowed name seen r : inside r →
  ∃ x r', read_field allowed name seen r = Ret x r' ∧ r_bytes r' = r_bytes r
          ∧ (∀ f, x = Ok f → r_offset r < r_offset r' ∧ inside r').
Proof.
  intros Hin. unfold read_field, read_varint.
  destruct (varint_loop_ends 10 0 0 0 r) as (x & r1 & Hrun & Hb & Hle & Hx). unfold mrbind at 1, bind at 1. rewrite Hrun.
  destruct x as [key|]; [|by eexists _, r1]. destruct (Hx key eq_refl) as [Hlt Hin1].
  destruct (u32_max <? _); [by eexists _, r1|]. destruct (expected_wire_type _ _); [|by eexists _, r1].
  destruct (_ || _); [by eexists _, r1|]. destruct (bool_decide _); [by eexists _, r1|].
  destruct (N.land key 7 =? 0).
  - destruct (varint_loop_ends 10 0 0 0 r1) as (y & r2 & Hrun2 & Hb2 & Hle2 & Hy). unfold mrbind, bind. rewrite Hrun2.
    destruct y as [v|]; [|by eexists _, r2; split_and!; try congruence]. destruct (Hy v eq_refl).
    eexists _, r2. split_and!; [done|congruence|]. intros f _. unfold inside. rewrite Hb2, Hb in *. lia.
  - destruct (N.land key 7 =? 2); [|by eexists _, r1].
    destruct (varint_loop_ends 10 0 0 0 r1) as (y & r2 & Hrun2 & Hb2 & Hle2 & Hy). unfold read_bytes, read_varint, mrbind, bind.
    rewrite Hrun2. destruct y as [len|]; [|by eexists _, r2; split_and!; try congruence]. destruct (Hy len eq_refl) as [Hlt2 Hin2].
    unfold gets, id, ret, modify. destruct (u64_max <? r_offset r2 + len); [by eexists _, r2; split_and!; try congruence|].
    destruct (N.ltb_spec (N.of_nat (length (r_bytes r2))) (r_offset r2 + len)); [by eexists _, r2; split_and!; try congruence|].
    eexists _, _. split_and!; [done|simpl; congruence|]. intros f _. unfold inside. simpl. split; lia.
Qed.

Lemma fields_loop_ends allowed name fuel : ∀ acc r,
  inside r → N.of_nat (length (r_bytes r)) < r_offset r + N.of_nat fuel →
  ∃ x r', read_fields_loop fuel allowed name acc r = Ret x r'.
Proof.
  induction fuel as [|fuel IH]; intros acc r Hin Hfuel; [unfold inside in Hin; lia|].
  cbn [read_fields_loop]. unfold bind, gets, id. destruct (done r); [by eexists _, r|].
  destruct (field_ends allowed name (f_no <$> acc) r Hin) as (x & r1 & Hrun & Hb & Hx).
  unfold mrbind, bind. rewrite Hrun. destruct x as [f|]; [|by eexists _, r1]. destruct (Hx f eq_refl) as [Hlt Hin1].
  apply IH; [done|]. rewrite Hb. lia.
Qed.

(** *** Properties *)

(** Reading ends.  On any bytes, for any table of allowed fields, the loop of the
    reader returns within one turn per byte and one more: fields or an error, never
    a panic. *)
Theorem reading_ends allowed name b :
  ∃ x r, read_fields_loop (S (length b)) allowed name [] (new_reader b) = Ret x r ∧ read_fields b allowed name = x.
Proof.
  destruct (fields_loop_ends allowed name (S (length b)) [] (new_reader b)) as (x & r & Hrun).
  - unfold inside. simpl. lia.
  - simpl. lia.
  - exists x, r. split; [done|]. unfold read_fields. by rewrite Hrun.
Qed.

(** C4: the canonical bytes and the valid envelopes are the same things.  Decoding
    inverts encoding, for an envelope with the numbers and strings its Rust types
    allow and bytes of a length a vector can have; what decodes, encodes to the same
    bytes again, so no envelope has two forms; and an envelope can be encoded just if
    it passes the validator. *)
Theorem canonical_bytes_are_envelopes e b :
  (envelope_typed e → fits b → encode_canonical_wire_bridge_envelope e = Ok b → decode_canonical_wire_bridge_envelope b = Ok e)
  ∧ (decode_canonical_wire_bridge_envelope b = Ok e → encode_canonical_wire_bridge_envelope e = Ok b)
  ∧ ((∃ x, encode_canonical_wire_bridge_envelope e = Ok x) ↔ validate_wire_bridge_envelope e = Ok tt).
Proof.
  split_and!.
  - intros Ht Hfits He. unfold decode_canonical_wire_bridge_envelope. rewrite (envelope_parsed _ _ He Hfits Ht). simpl.
    rewrite (encoded_valid _ _ He). simpl. rewrite He. simpl. by rewrite bool_decide_true.
  - unfold decode_canonical_wire_bridge_envelope. destruct (parse_wire_bridge_envelope b) as [e'|]; [|done]. simpl.
    destruct (validate_wire_bridge_envelope e') as [[]|]; [|done]. simpl.
    destruct (encode_canonical_wire_bridge_envelope e') as [b'|] eqn:He; [|done]. simpl. case_bool_decide; [|done].
    intros [= ->]. by subst.
  - split; [intros [x Hx]; by apply (encoded_valid e x)|apply valid_encodes].
Qed.

(** Frames of edge groups have one canonical form: decoding inverts encoding, and
    what decodes, encodes to the same bytes again. *)
Theorem canonical_frames f b :
  (frame_typed f → fits b → encode_canonical_wire_edge_frame f = Ok b → decode_canonical_wire_edge_frame b = Ok f)
  ∧ (decode_canonical_wire_edge_frame b = Ok f → encode_canonical_wire_edge_frame f = Ok b).
Proof.
  unfold encode_canonical_wire_edge_frame, decode_canonical_wire_edge_frame. split.
  - intros Ht Hfits. destruct (validate_wire_edge_frame f) as [[]|] eqn:Hv; [|done]. simpl. intros [= <-].
    rewrite frame_parsed by done. simpl. rewrite Hv. simpl. by rewrite bool_decide_true.
  - destruct (parse_wire_edge_frame b) as [f'|]; [|done]. simpl. destruct (validate_wire_edge_frame f') as [[]|] eqn:Hv; [|done].
    simpl. case_bool_decide; [|done]. intros [= ->]. rewrite Hv. simpl. by subst.
Qed.
