(* ===== verification/ProtobufScenarios.v ===== *)
(** * The protobuf form: bridge envelopes and concrete bytes

    Which envelopes of a bridge can be encoded, and the witnesses of the properties
    of [ProtobufFacts]. *)

From Stdlib Require Import Ascii String.
From stdpp Require Import base option strings numbers gmap list.
From S2P Require Import Prelude Text Storage DurabilityExample Protocol NodeState Resilience Bridge BridgeFacts.
From S2P Require Import RemoteCall RemoteCallFacts Protobuf ProtobufFacts.
Import Wire Proto.

Local Open Scope rx_scope.
Local Open Scope N_scope.

(** The conversion a host makes: the session and the metadata are shared. *)
Definition semantic_to_protobuf {T} (e : WireBridgeEnvelope T) (value : bytes) : WireBridgeProtobufEnvelope :=
  mkProtobufEnvelope (session_id e) (metadata e) (PpData (PValue value)).

(** A bridge without a clock sends envelopes that have no protobuf form.  The
    envelope a bridge makes of a value can be encoded just if the clock did not show
    0 and the request id, if there is one, is not empty; without a clock the time
    is 0. *)
Theorem sent_envelope_encodes {X Y} `{!TupleText} (opts : WireBridgeOptions) (s : BridgeState X) v key request_id clock value :
  sendable opts s key →
  let now := now_or_zero clock in
  let e := data_envelope opts s v key request_id now in
  events_node (I := Y) opts (mkBatch [] [(Some (CSend v key request_id), now)] None) s = Ret [EOutbound e] (after_send s e)
  ∧ (is_Some (en_bytes (encode_wire_bridge_protobuf_bytes (semantic_to_protobuf e value)))
     ↔ (∃ t, clock = Some t ∧ t ≠ 0) ∧ request_id ≠ Some ""%string).
Proof.
  intros Hs now e. split; [by apply send_runs|]. destruct Hs as (Hsid & Hmax & Hnext & Hkey).
  set (c := mkCanonicalEnvelope (o_session_id opts)
    (mkCanonicalMetadata (next_seq s) (cursor s) (default (wire_bridge_idempotency_key (o_session_id opts) (next_seq s)) key) 1
       (max_attempts (o_retry opts)) (Some now) None request_id) (PbData (BValue value))).
  assert (validate_wire_bridge_envelope c = Ok tt ↔ (∃ t, clock = Some t ∧ t ≠ 0) ∧ request_id ≠ Some ""%string) as Hiff.
  { rewrite valid_envelope_iff. split.
    - intros [_ _ _ _ _ _ Ht _ Hr _ _]. simpl in *. split; [|done]. unfold now, now_or_zero in Ht.
      destruct clock as [t|]; simpl in Ht; [|done]. exists t. split; [done|congruence].
    - intros [(t & -> & Ht) Hr]. split; simpl; try done; try lia. unfold now. simpl. congruence. }
  rewrite <- Hiff. unfold encode_wire_bridge_protobuf_bytes, protobuf_to_canonical_envelope. simpl. fold now. fold c.
  destruct (validate_wire_bridge_envelope c) as [[]|error] eqn:Hv; simpl; [|by split; [intros []|]].
  destruct (valid_encodes c Hv) as [b ->]. simpl. by split.
Qed.

#[local] Existing Instance escaped_tuples.

Definition wire_options : WireBridgeOptions := mkOptions "s" (mkRetryPolicy 3 BackoffNone).

Lemma sent_envelope_encodes_witness :
  ¬ is_Some (en_bytes (encode_wire_bridge_protobuf_bytes
      (semantic_to_protobuf (data_envelope wire_options bridge_state 7%nat (Some "k"%string) None 0) ["a"%char])))
  ∧ is_Some (en_bytes (encode_wire_bridge_protobuf_bytes
      (semantic_to_protobuf (data_envelope wire_options bridge_state 7%nat (Some "k"%string) None 5) ["a"%char]))).
Proof.
  assert (sendable wire_options (bridge_state (T := nat)) (Some "k"%string)) as Hs.
  { unfold sendable. simpl. split_and!; try discriminate; vm_compute; reflexivity || discriminate. }
  split.
  - intros Hb. apply (sent_envelope_encodes (Y := nat) wire_options bridge_state 7%nat (Some "k"%string) None None ["a"%char] Hs) in Hb.
    destruct Hb as [(t & Ht & _) _]. discriminate Ht.
  - apply (sent_envelope_encodes (Y := nat) wire_options bridge_state 7%nat (Some "k"%string) None (Some 5) ["a"%char] Hs).
    split; [exists 5; split; [reflexivity|discriminate]|discriminate].
Defined.

(** ** Concrete bytes *)

Definition hello : CanonicalWireBridgeEnvelope :=
  mkCanonicalEnvelope "s" (mkCanonicalMetadata 300 7 "key" 1 3 (Some 5) None (Some "r"%string))
    (PbData (BWireEdge (mkFrame Data "e" "c" (Some (bytes_of "hello"))))).

Definition hello_bytes : bytes := match encode_canonical_wire_bridge_envelope hello with Ok b => b | Err _ => [] end.

Example hello_decodes : decode_canonical_wire_bridge_envelope hello_bytes = Ok hello.
Proof. vm_compute. reflexivity. Qed.

(** The same fields in another order, and a varint that is longer than it needs to be,
    are read but not accepted. *)
Definition overlong : bytes := byte 10 :: byte 129 :: byte 0 :: drop 2 hello_bytes.

Example overlong_refused :
  parse_wire_bridge_envelope overlong = Ok hello
  ∧ category <$> match decode_canonical_wire_bridge_envelope overlong with Err e => Some e | Ok _ => None end
    = Some NoncanonicalBytes.
Proof. vm_compute. by split. Qed.

Lemma canonical_bytes_are_envelopes_witness :
  decode_canonical_wire_bridge_envelope hello_bytes = Ok hello ∧ N.of_nat (length hello_bytes) = 43.
Proof.
  split; [|vm_compute; reflexivity].
  apply (proj1 (canonical_bytes_are_envelopes hello hello_bytes)).
  - split; [reflexivity| |split; reflexivity].
    split; [vm_compute; discriminate..|reflexivity| | |].
    + intros t Ht. assert (t = 5) as -> by (cbn in Ht; congruence). vm_compute. discriminate.
    + intros a Ha. discriminate Ha.
    + intros q Hq. assert (q = "r"%string) as -> by (cbn in Hq; congruence). reflexivity.
  - vm_compute. discriminate.
  - vm_compute. reflexivity.
Defined.
