(* ===== verification/WireEdge.v ===== *)
(** * Wire edge groups (adapters/bridge.rs)

    A group carries several edges over one bridge so that the values of one cause
    arrive together.  The events node of the sending group makes a cohort of frames
    when every edge is_some a fresh value (one DIRTY frame per edge, then one DATA frame
    per edge), and reads the frames that come in; the gate of the receiving group
    collects the frames of one cause and releases their values at once. *)

From Stdlib Require Import Ascii String.
From stdpp Require Import base option strings numbers gmap list.
From S2P Require Import Prelude Text Storage Versioning Protocol NodeState Resilience Bridge Protobuf.
Import Wire Proto.

Local Open Scope rx_scope.
Local Open Scope N_scope.

Module Edge.

(** ** Data *)

Record WireEdgeGroupEdge := mkEdge { edge_id : string; outbound : option Core }.

(** [WireEdgeGroupEdge::inbound], [outbound]. *)
Definition inbound_edge (edge_id : string) : WireEdgeGroupEdge := mkEdge edge_id None.
Definition outbound_edge (edge_id : string) (node : Core) : WireEdgeGroupEdge := mkEdge edge_id (Some node).

Record WireEdgeGroupOptions := mkGroupOptions { wo_name : option string; wo_edges : list WireEdgeGroupEdge }.
Definition options_new (edges : list WireEdgeGroupEdge) : WireEdgeGroupOptions := mkGroupOptions None edges.
Definition options_named (name : string) (edges : list WireEdgeGroupEdge) : WireEdgeGroupOptions := mkGroupOptions (Some name) edges.

Inductive WireEdgeGroupIssueCode :=
| MissingSnapshot | UnknownEdge | DuplicateDirty | DuplicateData | DataBeforeDirty | CompetingCause | MalformedFrame
| IncompleteCause.
#[export] Instance issue_code_eq : EqDecision WireEdgeGroupIssueCode.
Proof. solve_decision. Defined.

Definition issue_code_str (c : WireEdgeGroupIssueCode) : string :=
  match c with
  | MissingSnapshot => "wire-edge-group-missing-snapshot"
  | UnknownEdge => "wire-edge-group-unknown-edge"
  | DuplicateDirty => "wire-edge-group-duplicate-dirty"
  | DuplicateData => "wire-edge-group-duplicate-data"
  | DataBeforeDirty => "wire-edge-group-data-before-dirty"
  | CompetingCause => "wire-edge-group-competing-cause"
  | MalformedFrame => "wire-edge-group-malformed-frame"
  | IncompleteCause => "wire-edge-group-incomplete-cause"
  end.

Record WireEdgeGroupIssue := mkIssue {
  i_code : WireEdgeGroupIssueCode;
  i_message : string;
  i_edge_id : option string;
  i_cause_id : option string;
  i_active_cause_id : option string
}.

Inductive WireEdgeGroupStatusState := GIdle | GCollecting | GReleased | GIssues.
#[export] Instance group_state_eq : EqDecision WireEdgeGroupStatusState.
Proof. solve_decision. Defined.

Record WireEdgeGroupStatus := mkGroupStatus {
  g_state : WireEdgeGroupStatusState;
  g_expected_edges : list string;
  g_active_cause_id : option string;
  g_dirty : nat;
  g_data : nat;
  g_released : N;
  g_issues : N;
  g_last_issue : option WireEdgeGroupIssue
}.

Abbreviation Body := WireBridgeProtobufDataBody.

Inductive WireEdgeGroupEvent :=
| GeOutbound (command : WireBridgeCommand Body)
| GeFrame (frame : CanonicalWireEdgeFrame)
| GeIssue (issue : WireEdgeGroupIssue)
| GeBridgeEnd.

Inductive WireEdgeGroupGate :=
| GgIssue (issue : WireEdgeGroupIssue)
| GgProgress (cause_id : string) (dirty data : nat)
| GgRelease (cause_id : string) (count : nat).

Record WireEdgeGroupReleaseCohort := mkCohort { co_cause_id : string; co_values : gmap string bytes }.

Record WireEdgeGroupPendingOutbound := mkPendingOut { po_value : bytes; po_version : option NodeVersion }.

Record WireEdgeGroupOutState := mkOutState {
  next_cause : N;
  emitted_once : bool;
  pending : gmap string WireEdgeGroupPendingOutbound;
  last_emitted_versions : gmap string (option NodeVersion)
}.

(** [wire_edge_group_out_state]: the state before the first run. *)
Definition wire_edge_group_out_state : WireEdgeGroupOutState := mkOutState 1 false ∅ ∅.

Definition set_pending (f : gmap string WireEdgeGroupPendingOutbound → gmap string WireEdgeGroupPendingOutbound)
    (s : WireEdgeGroupOutState) : WireEdgeGroupOutState :=
  mkOutState (next_cause s) (emitted_once s) (f (pending s)) (last_emitted_versions s).

Definition WIRE_EDGE_GROUP_CAUSE_TOMBSTONE_LIMIT : nat := 1024.

Record WireEdgeGroupCauseTombstones := mkTombstones { seen : gset string; order : list string; limit : nat }.

(** [Default]. *)
Definition tombstones_default : WireEdgeGroupCauseTombstones := mkTombstones ∅ [] WIRE_EDGE_GROUP_CAUSE_TOMBSTONE_LIMIT.

(** The loop of [insert]: the oldest are dropped while there are too many. *)
Fixpoint evict (limit : nat) (order : list string) (seen : gset string) : list string * gset string :=
  match order with
  | [] => ([], seen)
  | evicted :: rest => if (limit <? length order)%nat then evict limit rest (seen ∖ {[evicted]}) else (order, seen)
  end.

Definition tombstones_insert (cause_id : string) (t : WireEdgeGroupCauseTombstones) : WireEdgeGroupCauseTombstones :=
  if bool_decide (cause_id ∈ seen t) then t
  else
    let r := evict (limit t) (order t ++ [cause_id]) ({[cause_id]} ∪ seen t) in
    mkTombstones r.2 r.1 (limit t).

Definition tombstones_contains (t : WireEdgeGroupCauseTombstones) (cause_id : string) : bool := bool_decide (cause_id ∈ seen t).

Record WireEdgeGroupGateState := mkGateState {
  active_cause_id : option string;
  dirty : gset string;
  data : gmap string bytes;
  failed : WireEdgeGroupCauseTombstones;
  released : WireEdgeGroupCauseTombstones
}.

(** [wire_edge_group_gate_state]: the state before the first run. *)
Definition wire_edge_group_gate_state : WireEdgeGroupGateState := mkGateState None ∅ ∅ tombstones_default tombstones_default.

Definition set_active_cause_id (f : option string → option string) (s : WireEdgeGroupGateState) : WireEdgeGroupGateState :=
  mkGateState (f (active_cause_id s)) (dirty s) (data s) (failed s) (released s).
Definition set_dirty (f : gset string → gset string) (s : WireEdgeGroupGateState) : WireEdgeGroupGateState :=
  mkGateState (active_cause_id s) (f (dirty s)) (data s) (failed s) (released s).
Definition set_data (f : gmap string bytes → gmap string bytes) (s : WireEdgeGroupGateState) : WireEdgeGroupGateState :=
  mkGateState (active_cause_id s) (dirty s) (f (data s)) (failed s) (released s).
Definition set_failed (f : WireEdgeGroupCauseTombstones → WireEdgeGroupCauseTombstones) (s : WireEdgeGroupGateState)
    : WireEdgeGroupGateState :=
  mkGateState (active_cause_id s) (dirty s) (data s) (f (failed s)) (released s).
Definition set_released (f : WireEdgeGroupCauseTombstones → WireEdgeGroupCauseTombstones) (s : WireEdgeGroupGateState)
    : WireEdgeGroupGateState :=
  mkGateState (active_cause_id s) (dirty s) (data s) (failed s) (f (released s)).

(** ** The options of a group *)

(** A turn of the loop over the edges: the ids seen, and which directions. *)
Definition normalize_edge {S} (r : gset string * bool * bool) (edge : WireEdgeGroupEdge) : M S (gset string * bool * bool) :=
  let '(ids, has_inbound, has_outbound) := r in
  assert_or (negb (empty (edge_id edge))) "wire_edge_group: edge_id must be non-empty" ;;;
  assert_or (negb (bool_decide (edge_id edge ∈ ids))) ("wire_edge_group: duplicate edge_id '" +:+ edge_id edge +:+ "'") ;;;
  ret ({[edge_id edge]} ∪ ids, has_inbound || negb (is_some (outbound edge)), has_outbound || is_some (outbound edge)).

Definition normalize_wire_edge_group_edges {S} (edges : list WireEdgeGroupEdge) : M S (list WireEdgeGroupEdge) :=
  assert_or (negb (bool_decide (edges = []))) "wire_edge_group: edges must be non-empty" ;;;
  let! r := fold_each edges normalize_edge (∅, false, false) in
  assert_or (negb (r.1.2 && r.2)) "wire_edge_group: inbound and outbound edges must be declared in separate groups" ;;;
  ret edges.

(** [version] is [Node::version] at this moment. *)
Definition validate_wire_edge_group_outbound_versions {S} (version : Core → option NodeVersion) (edges : list WireEdgeGroupEdge)
    : M S unit :=
  for_each edges (λ edge,
    match outbound edge with
    | Some node =>
        assert_or (is_some (version node))
          ("wire_edge_group: outbound edge '" +:+ edge_id edge +:+ "' requires node runtime versioning for D561 fresh-source admission")
    | None => ret tt
    end).

(** What [wire_edge_group] computes of its options before it makes nodes: the
    expected ids and the deps of the events node, by the index of their edge. *)
Definition expected_ids (edges : list WireEdgeGroupEdge) : list string := edge_id <$> edges.
Definition outbound_deps (edges : list WireEdgeGroupEdge) : list (nat * Core) :=
  omap id (imap (λ i edge, pair i <$> outbound edge) edges).

Definition group_shape {S} (version : Core → option NodeVersion) (opts : WireEdgeGroupOptions)
    : M S (string * list WireEdgeGroupEdge * list string * list (nat * Core)) :=
  let name := default "wireEdgeGroup"%string (wo_name opts) in
  let! edges := normalize_wire_edge_group_edges (wo_edges opts) in
  validate_wire_edge_group_outbound_versions version edges ;;;
  ret (name, edges, expected_ids edges, outbound_deps edges).

(** ** The events node *)

Definition wire_edge_group_issue (code : WireEdgeGroupIssueCode) (message : string) (edge cause active : option string)
    : WireEdgeGroupIssue := mkIssue code message edge cause active.

Definition wire_edge_group_send (frame : CanonicalWireEdgeFrame) : WireBridgeCommand Body := CSend (PWireEdge frame) None None.

(** A run of the node: its state, whether an edge asks for a cohort, and what it emits. *)
Record OutRun := mkOutRun { or_state : WireEdgeGroupOutState; or_triggered : bool; or_out : list WireEdgeGroupEvent }.

Section Events.
Context `{!TupleText} (name : string) (edges : list WireEdgeGroupEdge) (expected_session : string).
Context (version : Core → option NodeVersion).

Definition wire_edge_group_should_admit_outbound_data (s : WireEdgeGroupOutState) (id : string) (v : option NodeVersion) : bool :=
  if negb (emitted_once s) then true
  else
    match v with
    | None => false
    | Some v =>
        if bool_decide (po_version <$> pending s !! id = Some (Some v)) then false
        else negb (bool_decide (last_emitted_versions s !! id = Some (Some v)))
    end.

Definition not_bytes (edge : WireEdgeGroupEdge) : WireEdgeGroupEvent :=
  GeIssue (wire_edge_group_issue MalformedFrame (name +:+ ": outbound edge " +:+ edge_id edge +:+ " must emit Vec<u8> bytes")
    (Some (edge_id edge)) None None).

(** One item of a wave of an outbound dep; a value that is no [Vec<u8>] is [None]. *)
Definition outbound_item (edge : WireEdgeGroupEdge) (r : OutRun) (item : WaveData (option bytes)) : OutRun :=
  let s := or_state r in
  match item with
  | WData (Some value) =>
      let v := outbound edge ≫= version in
      if wire_edge_group_should_admit_outbound_data s (edge_id edge) v
      then mkOutRun (set_pending <[edge_id edge := mkPendingOut value v]> s) true (or_out r)
      else r
  | WData None => mkOutRun (set_pending (delete (edge_id edge)) s) (or_triggered r) (or_out r ++ [not_bytes edge])
  | WSentinel => mkOutRun (set_pending (delete (edge_id edge)) s) true (or_out r)
  end.

Definition outbound_edge_waves (r : OutRun) (e : WireEdgeGroupEdge * list (list (WaveData (option bytes)))) : OutRun :=
  foldl (outbound_item e.1) r (concat e.2).

Definition missing_snapshot (id : string) : WireEdgeGroupEvent :=
  GeIssue (wire_edge_group_issue MissingSnapshot (name +:+ ": missing outbound snapshot for edge " +:+ id) (Some id) None None).

Definition cause_id (n : N) : string := compound_tuple_key "wire-edge-group-cause" [name; u64_string n].

Definition dirty_frame (cause : string) (edge : WireEdgeGroupEdge) : CanonicalWireEdgeFrame :=
  mkFrame Dirty (edge_id edge) cause None.
Definition data_frame (cause : string) (edge : WireEdgeGroupEdge) (value : bytes) : CanonicalWireEdgeFrame :=
  mkFrame Data (edge_id edge) cause (Some value).

Definition emit_wire_edge_group_outbound (s : WireEdgeGroupOutState) : WireEdgeGroupOutState * list WireEdgeGroupEvent :=
  let missing := edge_id <$> List.filter (λ edge, negb (is_some (pending s !! edge_id edge))) edges in
  if negb (bool_decide (missing = [])) then (s, missing_snapshot <$> missing)
  else
    let cause := cause_id (next_cause s) in
    let values := omap (λ edge, pair edge <$> pending s !! edge_id edge) edges in
    (mkOutState (sat64 (next_cause s + 1)) true ∅
       (foldl (λ m e, <[edge_id e.1 := po_version e.2]> m) ∅ values),
     (GeOutbound ∘ wire_edge_group_send ∘ dirty_frame cause <$> edges)
     ++ ((λ e, GeOutbound (wire_edge_group_send (data_frame cause e.1 (po_value e.2)))) <$> values)).

(** *** Frames that come in *)

Definition malformed (message : string) (edge cause : option string) : WireEdgeGroupIssue :=
  wire_edge_group_issue MalformedFrame (name +:+ message) edge cause None.

Definition validate_wire_edge_group_frame (f : CanonicalWireEdgeFrame) : option WireEdgeGroupIssue :=
  if empty (fr_edge_id f) then Some (malformed ": wire-edge frame edge_id must be non-empty" None (Some (fr_cause_id f)))
  else if empty (fr_cause_id f) then Some (malformed ": wire-edge frame cause_id must be non-empty" (Some (fr_edge_id f)) None)
  else
    match fr_kind f, fr_value f with
    | Dirty, Some _ =>
        Some (malformed ": DIRTY wire-edge frame must not carry value bytes" (Some (fr_edge_id f)) (Some (fr_cause_id f)))
    | Data, None => Some (malformed ": DATA wire-edge frame requires value bytes" (Some (fr_edge_id f)) (Some (fr_cause_id f)))
    | _, _ => None
    end.

Definition frame_event (f : CanonicalWireEdgeFrame) : WireEdgeGroupEvent :=
  match validate_wire_edge_group_frame f with None => GeFrame f | Some issue => GeIssue issue end.

Definition wire_edge_group_frame_event (ingress : WireBridgeIngress Body) : option WireEdgeGroupEvent :=
  match ingress with
  | IInvalid error => Some (GeIssue (malformed (": bridge invalid wire-edge ingress: " +:+ error) None None))
  | IEnvelope envelope =>
      match validate_inbound_envelope envelope with
      | Err error =>
          Some (GeIssue (malformed (": bridge invalid wire-edge envelope: " +:+ envelope_error_string error) None None))
      | Ok _ =>
          if negb (bool_decide (session_id envelope = expected_session)) then
            Some (GeIssue (malformed (": bridge session " +:+ session_id envelope +:+ " did not match expected " +:+ expected_session)
                    None None))
          else
            match envelope_type envelope with
            | TClose | TError => Some GeBridgeEnd
            | TData =>
                match payload envelope with
                | Some (PData (PWireEdge frame)) => Some (frame_event frame)
                | Some (PData (PValue _)) => None
                | _ => Some (GeIssue (malformed ": wire-edge payload must be a wire_edge frame" None None))
                end
            | TStart | TAck | TNack | TStatus => None
            end
      end
  end.

(** A run: the waves of the outbound deps by the edges they belong to, then the
    inbound batch. *)
Definition wire_edge_group_events_fn (outbound_indexes : list nat) (waves : list (list (list (WaveData (option bytes)))))
    (inbound : list (WireBridgeIngress Body)) (s : WireEdgeGroupOutState) : WireEdgeGroupOutState * list WireEdgeGroupEvent :=
  let by_edge := omap (λ d, edge ← edges !! d.2; waves ← waves !! d.1; Some (edge, waves)) (imap pair outbound_indexes) in
  let r := foldl outbound_edge_waves (mkOutRun s false []) by_edge in
  let e := if or_triggered r then emit_wire_edge_group_outbound (or_state r) else (or_state r, []) in
  (e.1, or_out r ++ e.2 ++ omap wire_edge_group_frame_event inbound).
End Events.

(** The commands node. *)
Definition wire_edge_group_commands (events : list WireEdgeGroupEvent) : list (WireBridgeCommand Body) :=
  omap (λ e, match e with GeOutbound command => Some command | _ => None end) events.

(** ** The gate *)

(** What a run of the gate does in order: it emits, and it sets the release node. *)
Inductive GateOut :=
| Emitted (e : WireEdgeGroupGate)
| ReleaseSet (c : WireEdgeGroupReleaseCohort).

Record GateRun := mkGateRun { gr_state : WireEdgeGroupGateState; gr_out : list GateOut }.

Section Gate.
Context (name : string) (expected_ids : list string).

(** [release.set] runs what is below the release node; it may unwind. *)
Context (set_unwinds : list GateOut → WireEdgeGroupReleaseCohort → option Payload).

Abbreviation MG := (M GateRun).

Definition get_gate : MG WireEdgeGroupGateState := gets gr_state.
Definition put_gate (f : WireEdgeGroupGateState → WireEdgeGroupGateState) : MG unit :=
  modify (λ r, mkGateRun (f (gr_state r)) (gr_out r)).
Definition did (o : GateOut) : MG unit := modify (λ r, mkGateRun (gr_state r) (gr_out r ++ [o])).
Definition emit (e : WireEdgeGroupGate) : MG unit := did (Emitted e).
Definition emit_issue (code : WireEdgeGroupIssueCode) (message : string) (edge cause active : option string) : MG unit :=
  emit (GgIssue (wire_edge_group_issue code message edge cause active)).

Definition release_set (c : WireEdgeGroupReleaseCohort) : MG unit :=
  let! before := gets gr_out in
  did (ReleaseSet c) ;;;
  match set_unwinds before c with Some p => panic p | None => ret tt end.

Definition wire_edge_group_gate_reset : MG unit :=
  put_gate (set_active_cause_id (λ _, None) ∘ set_dirty (λ _, ∅) ∘ set_data (λ _, ∅)).

Definition wire_edge_group_gate_fail (cause : option string) : MG unit :=
  match cause with Some c => put_gate (set_failed (tombstones_insert c)) | None => ret tt end ;;;
  wire_edge_group_gate_reset.

Definition emit_wire_edge_group_competing_cause (edge : option string) (cause active : string) : MG unit :=
  emit_issue CompetingCause (name +:+ ": competing cause " +:+ cause +:+ " arrived while " +:+ active +:+ " is active")
    edge (Some cause) (Some active) ;;;
  emit_issue IncompleteCause (name +:+ ": active cause " +:+ active +:+ " is incomplete") None (Some active) None ;;;
  wire_edge_group_gate_fail (Some active) ;;;
  put_gate (set_failed (tombstones_insert cause)).

Definition fail_wire_edge_group_issue_cause (issue : WireEdgeGroupIssue) : MG unit :=
  match i_cause_id issue with
  | None => ret tt
  | Some cause =>
      let! s := get_gate in
      match active_cause_id s with
      | Some active =>
          if negb (bool_decide (active = cause)) then emit_wire_edge_group_competing_cause (i_edge_id issue) cause active
          else wire_edge_group_gate_fail (Some cause)
      | None => put_gate (set_failed (tombstones_insert cause))
      end
  end.

Definition wire_edge_group_progress (cause : string) : MG unit :=
  let! s := get_gate in
  emit (GgProgress cause (size (dirty s)) (size (data s))).

Definition emit_replayed_wire_edge_group_cause (f : CanonicalWireEdgeFrame) : MG unit :=
  emit_issue (match fr_kind f with Dirty => DuplicateDirty | Data => DuplicateData end)
    (name +:+ ": cause " +:+ fr_cause_id f +:+ " was already released") (Some (fr_edge_id f)) (Some (fr_cause_id f)) None.

(** An issue of a frame that fails its cause. *)
Definition refuse (f : CanonicalWireEdgeFrame) (code : WireEdgeGroupIssueCode) (message : string) : MG unit :=
  emit_issue code message (Some (fr_edge_id f)) (Some (fr_cause_id f)) None ;;;
  wire_edge_group_gate_fail (Some (fr_cause_id f)).

Definition reduce_dirty (f : CanonicalWireEdgeFrame) (active : option string) : MG unit :=
  when (negb (is_some active)) (put_gate (set_active_cause_id (λ _, Some (fr_cause_id f)))) ;;;
  let! s := get_gate in
  put_gate (set_dirty (union {[fr_edge_id f]})) ;;;
  if bool_decide (fr_edge_id f ∈ dirty s)
  then refuse f DuplicateDirty (name +:+ ": duplicate DIRTY for edge " +:+ fr_edge_id f)
  else wire_edge_group_progress (fr_cause_id f).

(** The values of the expected edges, of those there are. *)
Definition cohort_values (values : gmap string bytes) : gmap string bytes :=
  foldl (λ m id, match values !! id with Some v => <[id := v]> m | None => m end) ∅ expected_ids.

Definition release_cohort (f : CanonicalWireEdgeFrame) (value : bytes) : MG unit :=
  let! s := get_gate in
  let values := cohort_values (<[fr_edge_id f := value]> (data s)) in
  emit (GgRelease (fr_cause_id f) (size values)) ;;;
  release_set (mkCohort (fr_cause_id f) values) ;;;
  put_gate (set_released (tombstones_insert (fr_cause_id f))) ;;;
  wire_edge_group_gate_reset.

Definition reduce_data (f : CanonicalWireEdgeFrame) : MG unit :=
  let! s := get_gate in
  if negb (is_some (active_cause_id s))
  then refuse f DataBeforeDirty (name +:+ ": DATA for edge " +:+ fr_edge_id f +:+ " arrived without an active cause")
  else if negb (bool_decide (fr_edge_id f ∈ dirty s))
  then refuse f DataBeforeDirty (name +:+ ": DATA for edge " +:+ fr_edge_id f +:+ " arrived before DIRTY")
  else if is_some (data s !! fr_edge_id f)
  then refuse f DuplicateData (name +:+ ": duplicate DATA for edge " +:+ fr_edge_id f)
  else
    let value := default [] (fr_value f) in
    if (size (dirty s) =? length expected_ids)%nat && (S (size (data s)) =? length expected_ids)%nat
    then release_cohort f value
    else
      put_gate (set_data <[fr_edge_id f := value]>) ;;;
      wire_edge_group_progress (fr_cause_id f).

(** The end of [reduce_wire_edge_group_frame], for a frame of the active cause or
    of the next one. *)
Definition reduce_current (f : CanonicalWireEdgeFrame) (active : option string) : MG unit :=
  if negb (bool_decide (fr_edge_id f ∈ expected_ids))
  then refuse f UnknownEdge (name +:+ ": unknown edge " +:+ fr_edge_id f)
  else
    match fr_kind f with
    | Dirty => reduce_dirty f active
    | Data => reduce_data f
    end.

Definition reduce_wire_edge_group_frame (f : CanonicalWireEdgeFrame) : MG unit :=
  let! s := get_gate in
  if tombstones_contains (failed s) (fr_cause_id f) then
    emit_issue IncompleteCause (name +:+ ": cause " +:+ fr_cause_id f +:+ " was already failed closed")
      (Some (fr_edge_id f)) (Some (fr_cause_id f)) None
  else if tombstones_contains (released s) (fr_cause_id f) then emit_replayed_wire_edge_group_cause f
  else
    match active_cause_id s with
    | Some active =>
        if negb (bool_decide (active = fr_cause_id f))
        then emit_wire_edge_group_competing_cause (Some (fr_edge_id f)) (fr_cause_id f) active
        else reduce_current f (active_cause_id s)
    | None => reduce_current f (active_cause_id s)
    end.

Definition gate_event (event : WireEdgeGroupEvent) : MG unit :=
  match event with
  | GeIssue issue => emit (GgIssue issue) ;;; fail_wire_edge_group_issue_cause issue
  | GeOutbound _ => ret tt
  | GeBridgeEnd =>
      let! s := get_gate in
      match active_cause_id s with
      | Some cause =>
          emit_issue IncompleteCause (name +:+ ": cause " +:+ cause +:+ " ended before all expected edge frames arrived")
            None (Some cause) None ;;;
          wire_edge_group_gate_fail (Some cause)
      | None => ret tt
      end
  | GeFrame frame => reduce_wire_edge_group_frame frame
  end.

(** A run of the gate over the batch of the events node. *)
Definition wire_edge_group_gate_fn (events : list WireEdgeGroupEvent) : MG unit := for_each events gate_event.
End Gate.

(** ** The other nodes *)

(** The issues node: what it emits for its two batches. *)
Definition wire_edge_group_issues (events : list WireEdgeGroupEvent) (gates : list WireEdgeGroupGate) : list WireEdgeGroupIssue :=
  omap (λ e, match e with GeIssue issue => Some issue | _ => None end) events
  ++ omap (λ g, match g with GgIssue issue => Some issue | _ => None end) gates.

(** The node of an inbound edge. *)
Definition inbound_edge_values (id : string) (cohorts : list WireEdgeGroupReleaseCohort) : list bytes :=
  omap (λ c, co_values c !! id) cohorts.

Definition status_default (expected_ids : list string) : WireEdgeGroupStatus :=
  mkGroupStatus GIdle expected_ids None 0 0 0 0 None.

Definition status_event (s : WireEdgeGroupStatus) (event : WireEdgeGroupEvent) : WireEdgeGroupStatus :=
  match event with
  | GeIssue issue =>
      mkGroupStatus GIssues (g_expected_edges s) (g_active_cause_id s) (g_dirty s) (g_data s) (g_released s)
        (sat64 (g_issues s + 1)) (Some issue)
  | _ => s
  end.

Definition status_gate (s : WireEdgeGroupStatus) (gate : WireEdgeGroupGate) : WireEdgeGroupStatus :=
  match gate with
  | GgIssue issue =>
      mkGroupStatus GIssues (g_expected_edges s) None 0 0 (g_released s) (sat64 (g_issues s + 1)) (Some issue)
  | GgProgress cause dirty data =>
      mkGroupStatus GCollecting (g_expected_edges s) (Some cause) dirty data (g_released s) (g_issues s) (g_last_issue s)
  | GgRelease _ count =>
      mkGroupStatus GReleased (g_expected_edges s) None 0 0 (sat64 (g_released s + N.of_nat count)) (g_issues s) (g_last_issue s)
  end.

(** A run of the status node; it keeps what it emits. *)
Definition wire_edge_group_status_fn (expected_ids : list string) (events : list WireEdgeGroupEvent) (gates : list WireEdgeGroupGate)
    (state : option WireEdgeGroupStatus) : WireEdgeGroupStatus :=
  foldl status_gate (foldl status_event (default (status_default expected_ids) state) events) gates.

(** ** Wiring and release *)

Section Bundle.
Context {W : Type} (attach detach release_topology : M W unit).

(** [Graph::retain] of the gate: the guard it returns is called at most once. *)
Context (retain : M W (M W unit)).

(** The end of [wire_edge_group]: the commands become a source of the bridge, and a
    group without outbound edges keeps its gate active. *)
Definition wire_group (inbound_only : bool) : M W (option (M W unit)) :=
  let! r := catch_unwind attach in
  match r with
  | inl _ =>
      if inbound_only then (let! guard := retain in ret (Some guard)) else ret None
  | inr p => release_topology ;;; panic p
  end.

Record Bundle := mkBundle { gate_retain : option (M W unit); bundle_released : bool }.

Definition on_graph {A} (m : M W A) : M (Bundle * W) A := zoom snd (λ w s, (s.1, w)) m.
Definition put_bundle (b : Bundle) : M (Bundle * W) unit := modify (λ s, (b, s.2)).

(** [WireEdgeGroupBundle::release]. *)
Definition release : M (Bundle * W) unit :=
  let! b := gets fst in
  if bundle_released b then ret tt
  else
    on_graph detach ;;;
    put_bundle (mkBundle None false) ;;;
    let! r := catch_unwind (on_graph (match gate_retain b with Some guard => guard | None => ret tt end ;;; release_topology)) in
    match r with
    | inl _ => let! b := gets fst in put_bundle (mkBundle (gate_retain b) true)
    | inr p =>
        on_graph attach ;;;
        match gate_retain b with
        | Some _ => let! guard := on_graph retain in put_bundle (mkBundle (Some guard) false)
        | None => ret tt
        end ;;;
        panic p
    end.
End Bundle.
End Edge.
