(* ===== verification/WireEdgeFacts.v ===== *)
(** * Facts about wire edge groups

    What the gate does with one event is a step of a machine ([gstep]) on the cause
    it collects; the theorems about runs go by induction over these steps.  The
    sending side is the list of its cohorts. *)

From Stdlib Require Import Ascii String.
From stdpp Require Import base option strings numbers gmap list.
From S2P Require Import Prelude Text Storage StorageFacts Versioning Protocol NodeState Resilience Bridge BridgeFacts Protobuf WireEdge.
Import Wire Proto Edge.

Local Open Scope rx_scope.

(** ** Tombstones: the last causes, at most as many as the limit *)

Record remembers (t : WireEdgeGroupCauseTombstones) (history : list string) : Prop := {
  rm_limit : limit t = WIRE_EDGE_GROUP_CAUSE_TOMBSTONE_LIMIT;
  rm_order : order t = drop (length history - limit t) history;
  rm_seen c : c ∈ seen t ↔ c ∈ order t;
  rm_once : NoDup (order t)
}.

Lemma remembers_nothing : remembers tombstones_default [].
Proof. split; [done|done|set_solver|constructor]. Qed.

(** Without duplicates the loop drops what is too much and forgets it. *)
Lemma evict_drops limit order seen :
  NoDup order → (∀ c, c ∈ seen ↔ c ∈ order) →
  let r := evict limit order seen in r.1 = drop (length order - limit) order ∧ ∀ c, c ∈ r.2 ↔ c ∈ r.1.
Proof.
  revert seen. induction order as [|x l IH]; intros seen Hn Hs; [done|]. cbn [evict length].
  destruct (Nat.ltb_spec limit (S (length l))).
  - apply NoDup_cons in Hn as [Hx Hn]. destruct (IH (seen ∖ {[x]}) Hn) as [Hd Hc].
    { intros c. rewrite elem_of_difference, Hs, elem_of_cons, elem_of_singleton. naive_solver. }
    split; [|done]. cbn. rewrite Hd. replace (S (length l) - limit) with (S (length l - limit)) by lia. done.
  - replace (S (length l) - limit) with 0 by lia. done.
Qed.


(** The cause of an insertion is new; the history grows by it. *)
Lemma tombstones_insert_new t h c : remembers t h → c ∉ seen t → remembers (tombstones_insert c t) (h ++ [c]).
Proof.
  intros [Hl Ho Hs Hn] Hc. unfold tombstones_insert. rewrite bool_decide_false by done.
  destruct (evict_drops (limit t) (order t ++ [c]) ({[c]} ∪ seen t)) as [Hd Hin].
  { apply NoDup_app. split_and!; [done| |apply NoDup_singleton]. intros x Hx ->%list_elem_of_singleton. by apply Hc, Hs. }
  { intros x. rewrite elem_of_union, elem_of_singleton, Hs, elem_of_app, list_elem_of_singleton. naive_solver. }
  assert (NoDup (order t ++ [c])) as Hnd.
  { apply NoDup_app. split_and!; [done| |apply NoDup_singleton]. intros x Hx ->%list_elem_of_singleton. by apply Hc, Hs. }
  split; cbn; [done| |done|].
  - rewrite Hd, Ho, !length_app, length_drop. simpl.
    replace (drop (length h - limit t) h ++ [c]) with (drop (length h - limit t) (h ++ [c])) by (rewrite drop_app_le by lia; done).
    rewrite drop_drop. f_equal. lia.
  - rewrite Hd. rewrite <- (take_drop (length (order t ++ [c]) - limit t) (order t ++ [c])) in Hnd.
    by apply NoDup_app in Hnd as (_ & _ & ?).
Qed.

(** Inserting forgets, but adds only the cause. *)
Lemma evict_seen limit order seen : (evict limit order seen).2 ⊆ seen.
Proof.
  revert seen. induction order as [|x l IH]; intros seen; cbn [evict]; [done|]. destruct (_ <? _); [|done].
  etrans; [apply IH|]. set_solver.
Qed.

Lemma tombstones_insert_seen c t : seen (tombstones_insert c t) ⊆ {[c]} ∪ seen t.
Proof.
  unfold tombstones_insert. case_bool_decide; [set_solver|]. cbn. apply evict_seen.
Qed.

Lemma contains_false t c : tombstones_contains t c = false ↔ c ∉ seen t.
Proof. unfold tombstones_contains. by rewrite bool_decide_eq_false. Qed.
Lemma contains_true t c : tombstones_contains t c = true ↔ c ∈ seen t.
Proof. unfold tombstones_contains. by rewrite bool_decide_eq_true. Qed.

(** ** One event *)

(** What an operation of the gate leaves, when it returns and when it unwinds. *)
Definition gate_after (m : M GateRun unit) (r : GateRun) : GateRun :=
  match m r with Ret _ r' | Unwind _ r' => r' | OutOfFuel => r end.

Definition is_issue (o : GateOut) : Prop := match o with Emitted (GgIssue _) => True | _ => False end.

(** The gate with nothing collected. *)
Definition idle (st : WireEdgeGroupGateState) : Prop := active_cause_id st = None ∧ dirty st = ∅ ∧ data st = ∅.

Definition forget (st : WireEdgeGroupGateState) : WireEdgeGroupGateState := mkGateState None ∅ ∅ (failed st) (released st).

Section Gate.
Context (name : string) (expected : list string).
Context (set_unwinds : list GateOut → WireEdgeGroupReleaseCohort → option Payload).
Abbreviation St := WireEdgeGroupGateState.
Abbreviation Event := WireEdgeGroupEvent.
Abbreviation gate_event := (gate_event name expected set_unwinds).
Implicit Types (st : St) (r : GateRun) (f : CanonicalWireEdgeFrame) (c : string).

Definition fresh st c : Prop := c ∉ seen (failed st) ∧ c ∉ seen (released st).
Definition opens st c : Prop := active_cause_id st = None ∨ active_cause_id st = Some c.
Definition ready st : Prop := size (dirty st) = length expected ∧ S (size (data st)) = length expected.

Definition cohort_of st f : WireEdgeGroupReleaseCohort :=
  mkCohort (fr_cause_id f) (cohort_values expected (<[fr_edge_id f := default [] (fr_value f)]> (data st))).

Inductive gstep st : Event → St → list GateOut → Prop :=
| g_issues e outs : Forall is_issue outs → gstep st e st outs
| g_fails e outs cs :
    cs ≠ [] → Forall is_issue outs →
    gstep st e (forget (set_failed (λ t, foldr tombstones_insert t cs) st)) outs
| g_marks e outs c :
    active_cause_id st = None → Forall is_issue outs → gstep st e (set_failed (tombstones_insert c) st) outs
| g_dirty f :
    fr_kind f = Dirty → fresh st (fr_cause_id f) → opens st (fr_cause_id f) → fr_edge_id f ∈ expected → fr_edge_id f ∉ dirty st →
    let st' := mkGateState (Some (fr_cause_id f)) ({[fr_edge_id f]} ∪ dirty st) (data st) (failed st) (released st) in
    gstep st (GeFrame f) st' [Emitted (GgProgress (fr_cause_id f) (size (dirty st')) (size (data st')))]
| g_data f :
    fr_kind f = Data → fresh st (fr_cause_id f) → active_cause_id st = Some (fr_cause_id f) → fr_edge_id f ∈ expected →
    fr_edge_id f ∈ dirty st → data st !! fr_edge_id f = None → ¬ ready st →
    let st' := set_data <[fr_edge_id f := default [] (fr_value f)]> st in
    gstep st (GeFrame f) st' [Emitted (GgProgress (fr_cause_id f) (size (dirty st')) (size (data st')))]
| g_release f st' :
    fr_kind f = Data → fresh st (fr_cause_id f) → active_cause_id st = Some (fr_cause_id f) → fr_edge_id f ∈ expected →
    fr_edge_id f ∈ dirty st → data st !! fr_edge_id f = None → ready st →
    st' = st ∧ (∃ out, set_unwinds out (cohort_of st f) ≠ None) ∨ st' = forget (set_released (tombstones_insert (fr_cause_id f)) st) →
    gstep st (GeFrame f) st'
      [Emitted (GgRelease (fr_cause_id f) (size (co_values (cohort_of st f)))); ReleaseSet (cohort_of st f)].

(** An operation is a step of the machine: in what it leaves and in what it adds to
    what the gate did. *)
Definition steps_by (e : Event) (m : M GateRun unit) : Prop :=
  ∀ r, ∃ st' outs, gstep (gr_state r) e st' outs ∧ gate_after m r = mkGateRun st' (gr_out r ++ outs).

Ltac run_gate := unfold emit_issue, emit, did, put_gate, get_gate, bind, gets, modify, ret, when, id, compose; cbn.

Lemma refuse_steps e f code message : steps_by e (refuse f code message).
Proof.
  intros [st out]. eexists _, _. split; [apply (g_fails _ _ _ [fr_cause_id f])|].
  3: { unfold refuse, wire_edge_group_gate_fail, wire_edge_group_gate_reset. run_gate. reflexivity. }
  - done.
  - by repeat constructor.
Qed.

Lemma competing_steps e edge cause active : steps_by e (emit_wire_edge_group_competing_cause name edge cause active).
Proof.
  intros [st out]. eexists _, _. split; [apply (g_fails _ _ _ [cause; active])|].
  3: { unfold emit_wire_edge_group_competing_cause, wire_edge_group_gate_fail, wire_edge_group_gate_reset. run_gate.
       rewrite <- app_assoc. reflexivity. }
  - done.
  - by repeat constructor.
Qed.

(** *** The frames that are taken *)

Lemma reduce_taken f r :
  fresh (gr_state r) (fr_cause_id f) → opens (gr_state r) (fr_cause_id f) → fr_edge_id f ∈ expected →
  gate_event (GeFrame f) r
  = match fr_kind f with
    | Dirty => reduce_dirty name f (active_cause_id (gr_state r)) r
    | Data => reduce_data name expected set_unwinds f r
    end.
Proof.
  intros [Hf Hr] Ho He. cbn [Edge.gate_event]. unfold reduce_wire_edge_group_frame, bind at 1, get_gate, gets.
  rewrite (proj2 (contains_false _ _) Hf), (proj2 (contains_false _ _) Hr). unfold reduce_current.
  rewrite (bool_decide_true (fr_edge_id f ∈ expected)) by done. simpl.
  destruct Ho as [Ho|Ho]; rewrite Ho; [by destruct (fr_kind f)|]. rewrite bool_decide_true by done. simpl. by destruct (fr_kind f).
Qed.

Lemma dirty_taken f st out :
  fr_kind f = Dirty → fresh st (fr_cause_id f) → opens st (fr_cause_id f) → fr_edge_id f ∈ expected → fr_edge_id f ∉ dirty st →
  let st' := mkGateState (Some (fr_cause_id f)) ({[fr_edge_id f]} ∪ dirty st) (data st) (failed st) (released st) in
  gate_event (GeFrame f) (mkGateRun st out)
  = Ret tt (mkGateRun st' (out ++ [Emitted (GgProgress (fr_cause_id f) (size (dirty st')) (size (data st')))])).
Proof.
  intros Hk Hf Ho He Hd st'. rewrite reduce_taken by done. rewrite Hk. unfold reduce_dirty, wire_edge_group_progress. cbn.
  destruct Ho as [Ho|Ho]; rewrite Ho; run_gate; rewrite bool_decide_false by done; [done|].
  unfold st'. cbn. rewrite <- Ho. done.
Qed.

Lemma data_checked f st out :
  fr_kind f = Data → fresh st (fr_cause_id f) → active_cause_id st = Some (fr_cause_id f) → fr_edge_id f ∈ expected →
  fr_edge_id f ∈ dirty st → data st !! fr_edge_id f = None →
  gate_event (GeFrame f) (mkGateRun st out)
  = (if (size (dirty st) =? length expected)%nat && (S (size (data st)) =? length expected)%nat
     then release_cohort expected set_unwinds f (default [] (fr_value f))
     else put_gate (set_data <[fr_edge_id f := default [] (fr_value f)]>) ;;; wire_edge_group_progress (fr_cause_id f))
      (mkGateRun st out).
Proof.
  intros Hk Hf Ha He Hd Hn. rewrite reduce_taken by (unfold opens; auto). rewrite Hk. unfold reduce_data, bind at 1, get_gate, gets. cbn.
  rewrite Ha, bool_decide_true, Hn by done. done.
Qed.

Lemma data_taken f st out :
  fr_kind f = Data → fresh st (fr_cause_id f) → active_cause_id st = Some (fr_cause_id f) → fr_edge_id f ∈ expected →
  fr_edge_id f ∈ dirty st → data st !! fr_edge_id f = None → ¬ ready st →
  let st' := set_data <[fr_edge_id f := default [] (fr_value f)]> st in
  gate_event (GeFrame f) (mkGateRun st out)
  = Ret tt (mkGateRun st' (out ++ [Emitted (GgProgress (fr_cause_id f) (size (dirty st')) (size (data st')))])).
Proof.
  intros Hk Hf Ha He Hd Hn Hr st'. rewrite data_checked by done.
  destruct ((size (dirty st) =? length expected)%nat && (S (size (data st)) =? length expected)%nat) eqn:Hb.
  - exfalso. apply Hr. apply andb_true_iff in Hb as [?%Nat.eqb_eq ?%Nat.eqb_eq]. done.
  - unfold wire_edge_group_progress. run_gate. done.
Qed.

(** What a release leaves, as the set of the release node returns or unwinds. *)
Definition after_set f st out : GateRun :=
  let done := [Emitted (GgRelease (fr_cause_id f) (size (co_values (cohort_of st f)))); ReleaseSet (cohort_of st f)] in
  mkGateRun
    match set_unwinds (out ++ [Emitted (GgRelease (fr_cause_id f) (size (co_values (cohort_of st f))))]) (cohort_of st f) with
    | Some _ => st
    | None => forget (set_released (tombstones_insert (fr_cause_id f)) st)
    end (out ++ done).

Lemma released_taken f st out :
  fr_kind f = Data → fresh st (fr_cause_id f) → active_cause_id st = Some (fr_cause_id f) → fr_edge_id f ∈ expected →
  fr_edge_id f ∈ dirty st → data st !! fr_edge_id f = None → ready st →
  gate_after (gate_event (GeFrame f)) (mkGateRun st out) = after_set f st out.
Proof.
  intros Hk Hf Ha He Hd Hn [Hr1 Hr2]. unfold gate_after. rewrite data_checked by done.
  rewrite (proj2 (Nat.eqb_eq _ _) Hr1), (proj2 (Nat.eqb_eq _ _) Hr2). cbn [andb].
  unfold release_cohort, release_set, after_set, wire_edge_group_gate_reset, cohort_of. run_gate.
  destruct (set_unwinds _ _) as [p|]; cbn; rewrite <- app_assoc; reflexivity.
Qed.

(** *** Every event *)

Lemma frame_steps f : steps_by (GeFrame f) (gate_event (GeFrame f)).
Proof.
  intros [st out].
  assert (∀ m o, gate_event (GeFrame f) (mkGateRun st out) = m (mkGateRun st out) → steps_by (GeFrame f) m →
            o = gate_after (gate_event (GeFrame f)) (mkGateRun st out) →
            ∃ st' outs, gstep st (GeFrame f) st' outs ∧ o = mkGateRun st' (out ++ outs)) as Hby.
  { intros m o He Hm ->. destruct (Hm (mkGateRun st out)) as (st' & outs & Hs & Ha). exists st', outs. split; [done|].
    cbn in Ha. rewrite <- Ha. unfold gate_after. by rewrite He. }
  destruct (decide (fr_cause_id f ∈ seen (failed st))) as [Hf|Hf].
  { eexists _, _. split; [apply g_issues|].
    2: { unfold gate_after. cbn [Edge.gate_event]. unfold reduce_wire_edge_group_frame. run_gate. rewrite (proj2 (contains_true _ _) Hf). run_gate. done. }
    by repeat constructor. }
  destruct (decide (fr_cause_id f ∈ seen (released st))) as [Hr|Hr].
  { eexists _, _. split; [apply g_issues|].
    2: { unfold gate_after. cbn [Edge.gate_event]. unfold reduce_wire_edge_group_frame, emit_replayed_wire_edge_group_cause.
         run_gate. rewrite (proj2 (contains_false _ _) Hf), (proj2 (contains_true _ _) Hr). run_gate. done. }
    by repeat constructor. }
  assert (fresh st (fr_cause_id f)) as Hfr by done.
  destruct (decide (opens st (fr_cause_id f))) as [Ho|Ho].
  2: { destruct (active_cause_id st) as [a|] eqn:Ha; [|by destruct Ho; left].
       eapply Hby; [|apply (competing_steps _ (Some (fr_edge_id f)) (fr_cause_id f) a)|reflexivity].
       cbn [Edge.gate_event]. unfold reduce_wire_edge_group_frame, bind at 1, get_gate, gets. cbn.
       rewrite (proj2 (contains_false _ _) Hf), (proj2 (contains_false _ _) Hr), Ha, bool_decide_false; [done|].
       intros ->. apply Ho. by right. }
  destruct (decide (fr_edge_id f ∈ expected)) as [He|He]; [|eapply Hby; [|apply refuse_steps|reflexivity]].
  2: { cbn [Edge.gate_event]. unfold reduce_wire_edge_group_frame, bind at 1, get_gate, gets. cbn.
       rewrite (proj2 (contains_false _ _) Hf), (proj2 (contains_false _ _) Hr). unfold reduce_current.
       rewrite (bool_decide_false (fr_edge_id f ∈ expected)) by done. simpl.
       destruct Ho as [-> | ->]; [reflexivity|]. rewrite bool_decide_true by done. reflexivity. }
  destruct (fr_kind f) eqn:Hk.
  - destruct (decide (fr_edge_id f ∈ dirty st)) as [Hd|Hd].
    + eexists _, _. split; [apply (g_fails _ _ _ [fr_cause_id f])|].
      3: { unfold gate_after. rewrite reduce_taken by done. rewrite Hk. unfold reduce_dirty, refuse, wire_edge_group_gate_fail, wire_edge_group_gate_reset.
           cbn. destruct Ho as [Ho|Ho]; rewrite Ho; run_gate; rewrite bool_decide_true by done; run_gate; reflexivity. }
      { done. }
      { by repeat constructor. }
    + eexists _, _. split; [by apply g_dirty|]. unfold gate_after. by rewrite dirty_taken.
  - assert (∀ code message, gate_event (GeFrame f) (mkGateRun st out) = refuse f code message (mkGateRun st out) →
        ∃ st' outs, gstep st (GeFrame f) st' outs ∧ gate_after (gate_event (GeFrame f)) (mkGateRun st out) = mkGateRun st' (out ++ outs)) as Href.
    { intros code message Heq. by eapply Hby; [|apply (refuse_steps _ f)|]. }
    destruct (active_cause_id st) as [a|] eqn:Ha.
    2: { eapply Href. rewrite reduce_taken, Hk by done. unfold reduce_data, bind at 1, get_gate, gets. cbn. rewrite Ha. reflexivity. }
    destruct Ho as [Ho|Ho]; [congruence|]. assert (a = fr_cause_id f) as -> by congruence.
    destruct (decide (fr_edge_id f ∈ dirty st)) as [Hd|Hd].
    2: { eapply Href. rewrite reduce_taken, Hk by (done || by right). unfold reduce_data, bind at 1, get_gate, gets. cbn.
         rewrite Ha, bool_decide_false by done. reflexivity. }
    destruct (data st !! fr_edge_id f) eqn:Hn.
    { eapply Href. rewrite reduce_taken, Hk by (done || by right). unfold reduce_data, bind at 1, get_gate, gets. cbn.
      rewrite Ha, bool_decide_true, Hn by done. reflexivity. }
    destruct (decide (ready st)) as [Hrd|Hrd].
    + eexists _, _. split; [|by apply released_taken]. apply g_release; try done. unfold after_set.
      destruct (set_unwinds _ _) eqn:Hu; [left|by right]. split; [done|]. eexists. by rewrite Hu.
    + eexists _, _. split; [by apply g_data|]. unfold gate_after. by rewrite data_taken.
Qed.

Lemma event_steps e : steps_by e (gate_event e).
Proof.
  destruct e as [command|f|issue|]; [|apply frame_steps| |].
  - intros [st out]. exists st, []. split; [by apply g_issues|]. cbn. by rewrite app_nil_r.
  - intros [st out]. cbn [Edge.gate_event]. unfold fail_wire_edge_group_issue_cause.
    destruct (i_cause_id issue) as [c|].
    2: { eexists _, _. split; [apply g_issues|unfold gate_after; run_gate; reflexivity]. by repeat constructor. }
    destruct (active_cause_id st) as [a|] eqn:Ha.
    2: { eexists _, _. split; [by apply (g_marks st _ [Emitted (GgIssue issue)] c); repeat constructor|].
         unfold gate_after. run_gate. rewrite Ha. run_gate. reflexivity. }
    destruct (decide (a = c)) as [->|Hne].
    + eexists _, _. split; [apply (g_fails st _ [Emitted (GgIssue issue)] [c]); [done|by repeat constructor]|].
      unfold gate_after, wire_edge_group_gate_fail, wire_edge_group_gate_reset. run_gate. rewrite Ha, bool_decide_true by done. run_gate. reflexivity.
    + eexists _, _. split; [apply (g_fails st _ _ [c; a])|].
      3: { unfold gate_after, emit_wire_edge_group_competing_cause, wire_edge_group_gate_fail, wire_edge_group_gate_reset. run_gate.
           rewrite Ha, bool_decide_false by done. run_gate. rewrite <- !app_assoc. reflexivity. }
      { done. }
      { by repeat constructor. }
  - intros [st out]. destruct (active_cause_id st) as [a|] eqn:Ha.
    + eexists _, _. split; [apply (g_fails st _ _ [a])|].
      3: { unfold gate_after, wire_edge_group_gate_fail, wire_edge_group_gate_reset. run_gate. rewrite Ha. run_gate. reflexivity. }
      { done. }
      { by repeat constructor. }
    + exists st, []. split; [by apply g_issues|]. unfold gate_after. run_gate. rewrite Ha. run_gate. by rewrite app_nil_r.
Qed.

(** ** Runs *)

Definition gate_new : GateRun := mkGateRun wire_edge_group_gate_state [].

(** The events one after the other. *)
Definition gate_history (events : list Event) r : GateRun := foldl (λ r e, gate_after (gate_event e) r) r events.

(** Runs of the node, a batch each; a run that unwinds leaves what it did. *)
Definition gate_runs (batches : list (list Event)) r : GateRun :=
  foldl (λ r b, gate_after (wire_edge_group_gate_fn name expected set_unwinds b) r) r batches.

Lemma gate_history_app l l' r : gate_history (l ++ l') r = gate_history l' (gate_history l r).
Proof. apply foldl_app. Qed.

Lemma history_cons e l r : gate_history (e :: l) r = gate_history l (gate_after (gate_event e) r).
Proof. done. Qed.

Lemma run_is_history b r :
  ∃ k, gate_after (wire_edge_group_gate_fn name expected set_unwinds b) r = gate_history (take k b) r.
Proof.
  revert r. induction b as [|e b IH]; intros r; [by exists 0|]. unfold wire_edge_group_gate_fn in *. cbn [for_each].
  destruct (gate_event e r) as [[] r1|p r1|] eqn:He.
  - destruct (IH r1) as [k Hk]. destruct (for_each b gate_event r1) eqn:Hb.
    3: { exists 0. unfold gate_after, bind. by rewrite He, Hb. }
    all: exists (S k); cbn [take]; rewrite history_cons; unfold gate_after at 2; rewrite He, <- Hk;
      unfold gate_after, bind; by rewrite He, Hb.
  - exists 1. cbn [take]. rewrite history_cons, take_0. unfold gate_after, bind. cbn. by rewrite He.
  - exists 0. unfold gate_after, bind. by rewrite He.
Qed.

(** Part of every batch is processed: all of it, unless the run unwinds. *)
Lemma runs_are_history batches r :
  ∃ parts, Forall2 prefix parts batches ∧ gate_runs batches r = gate_history (concat parts) r.
Proof.
  revert r. induction batches as [|b batches IH]; intros r; [by exists []|]. cbn [gate_runs foldl].
  destruct (run_is_history b r) as [k Hk]. destruct (IH (gate_history (take k b) r)) as (parts & Hp & Hr).
  exists (take k b :: parts). split; [constructor; [apply prefix_take|done]|].
  change (concat (take k b :: parts)) with (take k b ++ concat parts). rewrite gate_history_app, <- Hr, <- Hk. done.
Qed.

(** *** Rule induction over a history *)

Lemma history_ind (P : list Event → GateRun → Prop) r0 :
  P [] r0 →
  (∀ h e st out st' outs, P h (mkGateRun st out) → gstep st e st' outs → P (h ++ [e]) (mkGateRun st' (out ++ outs))) →
  ∀ h, P h (gate_history h r0).
Proof.
  intros H0 Hs h. induction h as [|e h IH] using rev_ind; [done|]. rewrite gate_history_app. cbn.
  destruct (gate_history h r0) as [st out]. destruct (event_steps e (mkGateRun st out)) as (st' & outs & Hst & Heq).
  cbn in Hst, Heq |- *. rewrite Heq. by apply (Hs h e st).
Qed.

(** *** What a cohort is made of *)

Definition frames_of c (events : list Event) : list CanonicalWireEdgeFrame :=
  omap (λ e, match e with GeFrame f => if bool_decide (fr_cause_id f = c) then Some f else None | _ => None end) events.

Lemma frames_of_app c l l' : frames_of c (l ++ l') = frames_of c l ++ frames_of c l'.
Proof. apply omap_app. Qed.

Lemma frames_of_other c l e : frames_of c l `sublist_of` frames_of c (l ++ [e]).
Proof. rewrite frames_of_app. by apply sublist_inserts_r. Qed.

Definition key_of f : CanonicalWireEdgeKind * string := (fr_kind f, fr_edge_id f).

(** Frames taken one after the other: one DIRTY and one DATA at most of an expected
    edge, the DIRTY first, and the values they carry. *)
Record taken (fs : list CanonicalWireEdgeFrame) (dirties : gset string) (values : gmap string bytes) : Prop := {
  tk_once : NoDup (key_of <$> fs);
  tk_expected f : f ∈ fs → fr_edge_id f ∈ expected;
  tk_dirty id : id ∈ dirties ↔ ∃ f, f ∈ fs ∧ key_of f = (Dirty, id);
  tk_data id v : values !! id = Some v ↔ ∃ f, f ∈ fs ∧ key_of f = (Data, id) ∧ default [] (fr_value f) = v;
  tk_order l f l' : fs = l ++ f :: l' → fr_kind f = Data → ∃ g, g ∈ l ∧ key_of g = (Dirty, fr_edge_id f)
}.

(** A complete cohort: one DIRTY and then one DATA of every expected edge. *)
Definition complete_cohort (fs : list CanonicalWireEdgeFrame) (values : gmap string bytes) : Prop :=
  taken fs (list_to_set expected) values ∧ dom values = list_to_set expected.

Lemma taken_nothing : taken [] ∅ ∅.
Proof.
  split; [constructor|set_solver| | |by intros [] ? ?].
  - intros id. split; [set_solver|]. by intros (f & ?%elem_of_nil & _).
  - intros id v. rewrite lookup_empty. split; [done|]. by intros (f & ?%elem_of_nil & _).
Qed.

Lemma snoc_split {A} (l : list A) x l1 y l2 : l ++ [x] = l1 ++ y :: l2 → (l1 = l ∧ y = x) ∨ ∃ l2', l = l1 ++ y :: l2'.
Proof.
  destruct l2 as [|z l2 _] using rev_ind; [intros [? [=]]%app_inj_tail; subst; by left|].
  rewrite app_comm_cons, app_assoc. intros [-> _]%app_inj_tail. right. by exists l2.
Qed.

Lemma taken_dirty fs d m f :
  taken fs d m → fr_kind f = Dirty → fr_edge_id f ∈ expected → fr_edge_id f ∉ d → taken (fs ++ [f]) ({[fr_edge_id f]} ∪ d) m.
Proof.
  intros [Hn He Hd Hm Ho] Hk Hex Hnew. split.
  - rewrite fmap_app. apply NoDup_app. split_and!; [done| |apply NoDup_singleton].
    intros k (g & -> & Hg)%list_elem_of_fmap Hin%list_elem_of_singleton. apply Hnew, Hd. exists g. split; [done|].
    rewrite Hin. unfold key_of. by rewrite Hk.
  - intros g [?| ->%list_elem_of_singleton]%elem_of_app; auto.
  - intros id. rewrite elem_of_union, elem_of_singleton, Hd. split.
    + intros [->|(g & ? & ?)]; [|exists g; split; [by apply elem_of_app; left|done]].
      exists f. split; [apply elem_of_app; right; by apply list_elem_of_singleton|]. unfold key_of. by rewrite Hk.
    + intros (g & [?| ->%list_elem_of_singleton]%elem_of_app & Hkey); [right; eauto|left]. unfold key_of in Hkey. congruence.
  - intros id v. rewrite Hm. split.
    + intros (g & ? & ?). exists g. split; [by apply elem_of_app; left|done].
    + intros (g & [?| ->%list_elem_of_singleton]%elem_of_app & Hkey & Hv); [eauto|]. unfold key_of in Hkey. congruence.
  - intros l g l' [[-> ->]|[l2 ->]]%snoc_split Hg; [congruence|]. by eapply Ho.
Qed.

Lemma taken_data fs d m f :
  taken fs d m → fr_kind f = Data → fr_edge_id f ∈ expected → fr_edge_id f ∈ d → m !! fr_edge_id f = None →
  taken (fs ++ [f]) d (<[fr_edge_id f := default [] (fr_value f)]> m).
Proof.
  intros [Hn He Hd Hm Ho] Hk Hex Hin Hnew.
  assert (∀ g, g ∈ fs → key_of g ≠ (Data, fr_edge_id f)) as Hno.
  { intros g Hg Hkey. assert (m !! fr_edge_id f = Some (default [] (fr_value g))) by (apply Hm; eauto). congruence. }
  split.
  - rewrite fmap_app. apply NoDup_app. split_and!; [done| |apply NoDup_singleton].
    intros k (g & -> & Hg)%list_elem_of_fmap Heq%list_elem_of_singleton. apply (Hno g Hg). rewrite Heq. unfold key_of. by rewrite Hk.
  - intros g [?| ->%list_elem_of_singleton]%elem_of_app; auto.
  - intros id. rewrite Hd. split.
    + intros (g & ? & ?). exists g. split; [by apply elem_of_app; left|done].
    + intros (g & [?| ->%list_elem_of_singleton]%elem_of_app & Hkey); [eauto|]. unfold key_of in Hkey. congruence.
  - intros id v. destruct (decide (id = fr_edge_id f)) as [->|Hne].
    + rewrite lookup_insert_eq. split.
      * intros [= <-]. exists f. split_and!; [apply elem_of_app; right; by apply list_elem_of_singleton|unfold key_of; by rewrite Hk|done].
      * intros (g & [?| ->%list_elem_of_singleton]%elem_of_app & Hkey & <-); [by apply Hno in Hkey|done].
    + rewrite lookup_insert_ne by done. rewrite Hm. split.
      * intros (g & ? & ?). exists g. split; [by apply elem_of_app; left|done].
      * intros (g & [?| ->%list_elem_of_singleton]%elem_of_app & Hkey & Hv); [eauto|]. unfold key_of in Hkey. congruence.
  - intros l g l' [[-> ->]|[l2 ->]]%snoc_split Hg; [by apply Hd in Hin|]. by eapply Ho.
Qed.

Lemma cohort_values_lookup l (m : gmap string bytes) id :
  cohort_values l m !! id = if bool_decide (id ∈ l) then m !! id else None.
Proof.
  unfold cohort_values. cut (∀ acc : gmap string bytes, foldl (λ (m' : gmap string bytes) id, match m !! id with Some v => <[id := v]> m' | None => m' end) acc l !! id
    = match (if bool_decide (id ∈ l) then m !! id else None) with Some v => Some v | None => acc !! id end).
  { intros ->. rewrite lookup_empty. by repeat case_match. }
  induction l as [|x l IH]; intros acc; [done|]. cbn [foldl]. rewrite IH. destruct (decide (id ∈ l)).
  - rewrite !bool_decide_true by (done || by right). destruct (m !! id) eqn:Hid; [done|].
    destruct (m !! x) eqn:Hx; [|done]. rewrite lookup_insert_ne by congruence. done.
  - rewrite bool_decide_false by done. destruct (decide (id = x)) as [->|Hne].
    + rewrite bool_decide_true by left. destruct (m !! x) eqn:Hx; [by rewrite lookup_insert_eq|done].
    + rewrite bool_decide_false by (rewrite elem_of_cons; tauto). destruct (m !! x); [|done]. by rewrite lookup_insert_ne.
Qed.

Lemma cohort_values_all (m : gmap string bytes) : dom m ⊆ list_to_set expected → cohort_values expected m = m.
Proof.
  intros Hd. apply map_eq. intros id. rewrite cohort_values_lookup. case_bool_decide as Hin; [done|].
  symmetry. apply not_elem_of_dom. intros Hid%Hd. by apply elem_of_list_to_set in Hid.
Qed.

Section Distinct.
Context (Hdistinct : NoDup expected).

Lemma taken_within fs d m : taken fs d m → d ⊆ list_to_set expected ∧ dom m ⊆ d.
Proof.
  intros [_ He Hd Hm Ho]. split.
  - intros id (f & Hf & Hk)%Hd. apply elem_of_list_to_set. assert (id = fr_edge_id f) as -> by (unfold key_of in Hk; congruence). auto.
  - intros id [v Hv]%elem_of_dom. apply Hm in Hv as (f & (l & l' & Hfs)%list_elem_of_split & Hk & _).
    assert (fr_kind f = Data ∧ fr_edge_id f = id) as [Hkd <-] by (unfold key_of in Hk; split; congruence).
    destruct (Ho _ _ _ Hfs Hkd) as (g & Hg & Hgk). apply Hd. exists g. split; [|done]. rewrite Hfs. by apply elem_of_app; left.
Qed.

(** The counts the gate compares are enough: all frames of the cohort are there. *)
Lemma ready_complete fs st f :
  taken fs (dirty st) (data st) → fr_kind f = Data → fr_edge_id f ∈ expected → fr_edge_id f ∈ dirty st →
  data st !! fr_edge_id f = None → ready st → complete_cohort (fs ++ [f]) (co_values (cohort_of st f)).
Proof.
  intros Ht Hk He Hd Hn [Hsd Hsm]. pose proof (taken_data _ _ _ _ Ht Hk He Hd Hn) as Ht'.
  destruct (taken_within _ _ _ Ht') as [Hin Hdom].
  assert (size (list_to_set (C := gset string) expected) = length expected) as Hsize by by apply size_list_to_set.
  assert (dirty st = list_to_set expected) as Hall by (apply set_subseteq_size_eq; [done|lia]).
  unfold cohort_of. cbn [co_values]. rewrite cohort_values_all by set_solver. rewrite Hall in Ht', Hdom. split; [done|].
  apply set_subseteq_size_eq; [done|]. rewrite size_dom, map_size_insert, Hn. lia.
Qed.

(** *** What holds after any events *)

Definition collected (h : list Event) st : Prop :=
  match active_cause_id st with
  | None => dirty st = ∅ ∧ data st = ∅
  | Some c => ∃ fs, fs `sublist_of` frames_of c h ∧ taken fs (dirty st) (data st)
  end.

Definition released_ok (h : list Event) (outs : list GateOut) : Prop :=
  ∀ c values, ReleaseSet (mkCohort c values) ∈ outs → ∃ fs, fs `sublist_of` frames_of c h ∧ complete_cohort fs values.

Lemma is_issue_not_set outs co : Forall is_issue outs → ReleaseSet co ∉ outs.
Proof. intros Hall Hin. by apply (Forall_forall _ _) with (x := ReleaseSet co) in Hall. Qed.

Lemma frames_of_snoc c h f : fr_cause_id f = c → frames_of c (h ++ [GeFrame f]) = frames_of c h ++ [f].
Proof. intros Hc. rewrite frames_of_app. simpl. by rewrite bool_decide_true. Qed.

Lemma step_collected h e st st' outs : collected h st → gstep st e st' outs → collected (h ++ [e]) st'.
Proof.
  assert (collected h st → ∀ e, collected (h ++ [e]) st) as Hkeep.
  { unfold collected. destruct (active_cause_id st); [|done]. intros (fs & Hs & Ht) e'. exists fs. split; [|done].
    etrans; [done|apply frames_of_other]. }
  intros Hc Hst. destruct Hst as [e outs|e outs cs|e outs c Ha|f Hk Hfr Ho He Hd|f Hk Hfr Ha He Hd Hn Hr|f st' Hk Hfr Ha He Hd Hn Hr [[-> _]|Hst']].
  - by apply Hkeep.
  - done.
  - unfold collected in *. cbn. by rewrite Ha in *.
  - assert (∃ fs, fs `sublist_of` frames_of (fr_cause_id f) h ∧ taken fs (dirty st) (data st)) as (fs & Hs & Ht).
    { unfold collected in Hc. destruct Ho as [Ho|Ho]; rewrite Ho in Hc; [|done]. destruct Hc as [-> ->]. exists []. split; [apply sublist_nil_l|apply taken_nothing]. }
    unfold collected. cbn. exists (fs ++ [f]). split; [rewrite frames_of_snoc by done; by apply sublist_app|by apply taken_dirty].
  - unfold collected in *. rewrite Ha in Hc. destruct Hc as (fs & Hs & Ht). cbn. rewrite Ha. exists (fs ++ [f]).
    split; [rewrite frames_of_snoc by done; by apply sublist_app|by apply taken_data].
  - by apply Hkeep.
  - by subst st'.
Qed.

Lemma step_released h e st out st' outs :
  collected h st → released_ok h out → gstep st e st' outs → released_ok (h ++ [e]) (out ++ outs).
Proof.
  intros Hc Hr Hst c values [Hin|Hin]%elem_of_app.
  { destruct (Hr _ _ Hin) as (fs & Hs & Ht). exists fs. split; [|done]. etrans; [done|apply frames_of_other]. }
  destruct Hst as [e outs Hi|e outs cs _ Hi|e outs c' Ha Hi|f|f|f st' Hk Hfr Ha He Hd Hn Hrd _];
    try (exfalso; by apply (is_issue_not_set _ _ Hi Hin)); try (apply list_elem_of_singleton in Hin; done).
  apply elem_of_cons in Hin as [?|Hin%list_elem_of_singleton]; [done|]. injection Hin as -> ->.
  unfold collected in Hc. rewrite Ha in Hc. destruct Hc as (fs & Hs & Ht). exists (fs ++ [f]).
  split; [rewrite frames_of_snoc by done; by apply sublist_app|by apply ready_complete].
Qed.

Lemma history_correct h :
  let r := gate_history h gate_new in collected h (gr_state r) ∧ released_ok h (gr_out r).
Proof.
  apply (history_ind (λ h r, collected h (gr_state r) ∧ released_ok h (gr_out r))).
  - split; [done|]. by intros c values ?%elem_of_nil.
  - intros h' e st out st' outs [Hc Hr] Hst. cbn in *. split; [by eapply step_collected|by eapply step_released].
Qed.

(** *** Causes are released once *)

Definition causes (outs : list GateOut) : list string :=
  omap (λ o, match o with ReleaseSet c => Some (co_cause_id c) | _ => None end) outs.

Lemma causes_app l l' : causes (l ++ l') = causes l ++ causes l'.
Proof. apply omap_app. Qed.

Lemma causes_issues outs : Forall is_issue outs → causes outs = [].
Proof. induction 1 as [|[[]|] outs ?? IH]; done. Qed.

Definition once (l : list string) : Prop :=
  ∀ i j c, l !! i = Some c → l !! j = Some c → i < j → WIRE_EDGE_GROUP_CAUSE_TOMBSTONE_LIMIT < j - i.

Lemma once_snoc l c t : once l → remembers t l → c ∉ seen t → once (l ++ [c]).
Proof.
  intros Ho [Hl Hord Hs _] Hc i j x Hi Hj Hlt.
  assert (i < length l) as Hil by (apply lookup_lt_Some in Hj; rewrite length_app in Hj; simpl in Hj; lia).
  rewrite lookup_app_l in Hi by done. destruct (decide (j < length l)).
  - rewrite lookup_app_l in Hj by done. eauto.
  - rewrite lookup_app_r in Hj by lia. assert (j - length l = 0) as Hz by (apply lookup_lt_Some in Hj; simpl in Hj; lia).
    rewrite Hz in Hj. injection Hj as <-. destruct (decide (WIRE_EDGE_GROUP_CAUSE_TOMBSTONE_LIMIT < j - i)) as [|Hge]; [done|].
    exfalso. apply Hc, Hs. rewrite Hord, Hl. apply list_elem_of_lookup. exists (i - (length l - WIRE_EDGE_GROUP_CAUSE_TOMBSTONE_LIMIT)).
    rewrite lookup_drop, <- Hi. f_equal. lia.
Qed.

Lemma history_once h :
  (∀ out co, set_unwinds out co = None) →
  let r := gate_history h gate_new in remembers (released (gr_state r)) (causes (gr_out r)) ∧ once (causes (gr_out r)).
Proof.
  intros Hq. apply (history_ind (λ _ r, remembers (released (gr_state r)) (causes (gr_out r)) ∧ once (causes (gr_out r)))).
  { split; [apply remembers_nothing|]. by intros i j c Hi. }
  intros h' e st out st' outs [Hr Ho] Hst. cbn in *. rewrite causes_app.
  destruct Hst as [e outs Hi|e outs cs _ Hi|e outs c' _ Hi|f|f|f st' Hk [_ Hfr] Ha He Hd Hn Hrd [[_ [out' Hu]]|Hst']];
    rewrite ?(causes_issues _ Hi); cbn; rewrite ?app_nil_r; try done.
  { by rewrite Hq in Hu. }
  subst st'. cbn. split; [by apply tombstones_insert_new|by eapply once_snoc].
Qed.
End Distinct.

(** ** Whole cohorts *)

Section Cohorts.
Context (Hdistinct : NoDup expected) (edges : list WireEdgeGroupEdge) (Hids : expected = edge_id <$> edges).
Abbreviation n := (length edges).

Definition cohort_frames c (vs : list bytes) : list CanonicalWireEdgeFrame :=
  (dirty_frame c <$> edges) ++ zip_with (data_frame c) edges vs.

Definition cohort c (vs : list bytes) : WireEdgeGroupReleaseCohort := mkCohort c (list_to_map (zip expected vs)).

(** The gate after the first [k] frames of a cohort. *)
Definition partial st c (vs : list bytes) (k : nat) : St :=
  mkGateState (if (k =? 0)%nat then None else Some c) (list_to_set (take k expected))
    (list_to_map (take (k - n) (zip expected vs))) (failed st) (released st).

Definition is_progress (o : GateOut) : Prop := match o with Emitted (GgProgress _ _ _) => True | _ => False end.

Lemma length_expected : length expected = n.
Proof. by rewrite Hids, length_fmap. Qed.

Lemma cohort_length c vs : length vs = n → length (cohort_frames c vs) = 2 * n.
Proof. intros Hl. unfold cohort_frames. rewrite length_app, length_fmap, length_zip_with. lia. Qed.

Lemma cohort_frame c vs k f :
  length vs = n → cohort_frames c vs !! k = Some f →
  (k < n ∧ fr_kind f = Dirty ∧ fr_cause_id f = c ∧ expected !! k = Some (fr_edge_id f))
  ∨ (n ≤ k < 2 * n ∧ fr_kind f = Data ∧ fr_cause_id f = c
     ∧ zip expected vs !! (k - n) = Some (fr_edge_id f, default [] (fr_value f))).
Proof.
  intros Hl. unfold cohort_frames. intros Hk. apply lookup_app_Some in Hk as [Hk|[Hge Hk]].
  - left. rewrite list_lookup_fmap in Hk. destruct (edges !! k) as [edge|] eqn:He; [|done]. injection Hk as <-. cbn.
    split_and!; [by apply lookup_lt_Some in He|done..|]. by rewrite Hids, list_lookup_fmap, He.
  - right. rewrite length_fmap in Hge, Hk. pose proof (lookup_lt_Some _ _ _ Hk) as Hlt. rewrite length_zip_with in Hlt.
    apply lookup_zip_with_Some in Hk as (edge & v & -> & He & Hv). cbn. split_and!; [lia..|done|done|].
    apply lookup_zip_with_Some. exists (edge_id edge), v. split_and!; [done|by rewrite Hids, list_lookup_fmap, He|done].
Qed.

Lemma zip_distinct (vs : list bytes) j : length vs = n → NoDup (take j (zip expected vs)).*1.
Proof.
  intros Hl. rewrite fmap_take, fst_zip by (rewrite length_expected; lia). eapply sublist_NoDup; [done|apply sublist_take].
Qed.

Lemma partial_dirty_size st c vs k : size (dirty (partial st c vs k)) = min k n.
Proof.
  cbn. rewrite size_list_to_set by (eapply sublist_NoDup; [done|apply sublist_take]). by rewrite length_take, length_expected.
Qed.

Lemma partial_data_size st c (vs : list bytes) k : length vs = n → size (data (partial st c vs k)) = min (k - n) n.
Proof.
  intros Hl. cbn. rewrite map_size_list_to_map by by apply zip_distinct. rewrite length_take, length_zip, length_expected. lia.
Qed.

Lemma partial_zero st c vs : idle st → partial st c vs 0 = st.
Proof. intros (Ha & Hd & Hm). destruct st; cbn in *. subst. done. Qed.

Lemma not_taken_before {A} (l : list A) k x : NoDup l → l !! k = Some x → x ∉ take k l.
Proof.
  intros Hn Hk (j & Hj)%list_elem_of_lookup. pose proof (lookup_lt_Some _ _ _ Hj) as Hlt. rewrite length_take in Hlt.
  rewrite lookup_take_lt in Hj by lia. pose proof (NoDup_lookup _ _ _ _ Hn Hk Hj). lia.
Qed.

Lemma partial_dirty st c vs k f :
  expected !! k = Some (fr_edge_id f) → length vs = n →
  mkGateState (Some c) ({[fr_edge_id f]} ∪ dirty (partial st c vs k)) (data (partial st c vs k))
    (failed (partial st c vs k)) (released (partial st c vs k))
  = partial st c vs (S k).
Proof.
  intros Hk Hl. pose proof (lookup_lt_Some _ _ _ Hk) as Hlt. rewrite length_expected in Hlt. unfold partial. cbn [Nat.eqb]. f_equal; cbn.
  - rewrite (take_S_r _ _ _ Hk), list_to_set_app_L. cbn. set_solver.
  - replace (k - n) with 0 by lia. replace (S k - n) with 0 by lia. done.
Qed.

Lemma partial_data st c vs k f :
  n ≤ k < 2 * n → 0 < k → length vs = n → zip expected vs !! (k - n) = Some (fr_edge_id f, default [] (fr_value f)) →
  set_data <[fr_edge_id f := default [] (fr_value f)]> (partial st c vs k) = partial st c vs (S k).
Proof.
  intros Hk H0 Hl Hz. unfold partial, set_data. cbn. destruct k as [|k]; [lia|]. cbn [Nat.eqb]. f_equal.
  - rewrite !take_ge by (rewrite length_expected; lia). done.
  - replace (S (S k) - n) with (S (S k - n)) by lia. rewrite (take_S_r _ _ _ Hz), list_to_map_snoc; [done|].
    pose proof (zip_distinct vs n Hl) as Hnd. rewrite take_ge in Hnd by (rewrite length_zip, length_expected; lia).
    rewrite fmap_take. apply not_taken_before; [done|]. by rewrite list_lookup_fmap, Hz.
Qed.

(** *** Frame by frame *)

Lemma frame_taken st c vs k f out :
  idle st → fresh st c → length vs = n → cohort_frames c vs !! k = Some f → S k < 2 * n →
  ∃ o, is_progress o ∧ gate_event (GeFrame f) (mkGateRun (partial st c vs k) out) = Ret tt (mkGateRun (partial st c vs (S k)) (out ++ [o])).
Proof.
  intros Hi Hf Hl Hk Hlt. destruct (cohort_frame _ _ _ _ Hl Hk) as [(Hkn & Hkd & Hc & He)|(Hkn & Hkd & Hc & Hz)].
  - subst c. pose proof (partial_dirty st (fr_cause_id f) vs k f He Hl) as Hst. pose proof (dirty_taken f (partial st (fr_cause_id f) vs k) out) as Ht.
    cbn zeta in Ht. rewrite Hst in Ht. eexists. split; [|apply Ht; [done|done|..]].
    + done.
    + unfold opens, partial. cbn. destruct k; [by left|by right].
    + by apply list_elem_of_lookup_2 in He.
    + cbn. rewrite elem_of_list_to_set. by apply not_taken_before.
  - assert (0 < k) as H0 by lia. assert (expected !! (k - n) = Some (fr_edge_id f)) as He.
    { apply lookup_zip_with_Some in Hz as (id & v & [= -> _] & ? & _). done. }
    subst c. pose proof (partial_data st (fr_cause_id f) vs k f Hkn H0 Hl Hz) as Hst.
    pose proof (data_taken f (partial st (fr_cause_id f) vs k) out) as Ht.
    cbn zeta in Ht. rewrite Hst in Ht. eexists. split; [|apply Ht; [done|done|..]].
    + done.
    + cbn. destruct k; [lia|done].
    + by apply list_elem_of_lookup_2 in He.
    + cbn. rewrite elem_of_list_to_set, take_ge by (rewrite length_expected; lia). by apply list_elem_of_lookup_2 in He.
    + cbn. apply not_elem_of_list_to_map_1. rewrite fmap_take. apply not_taken_before; [|by rewrite list_lookup_fmap, Hz].
      pose proof (zip_distinct vs n Hl) as Hnd. by rewrite take_ge in Hnd by (rewrite length_zip, length_expected; lia).
    + intros [_ Hr]. rewrite partial_data_size, length_expected in Hr by done. lia.
Qed.

Lemma frames_taken st c vs k out :
  idle st → fresh st c → length vs = n → k < 2 * n →
  ∃ outs, Forall is_progress outs
    ∧ gate_history (GeFrame <$> take k (cohort_frames c vs)) (mkGateRun st out) = mkGateRun (partial st c vs k) (out ++ outs).
Proof.
  intros Hi Hf Hl. induction k as [|k IH]; intros Hk.
  { exists []. split; [constructor|]. rewrite partial_zero, app_nil_r by done. done. }
  destruct IH as (outs & Hp & Hrun); [lia|]. destruct (lookup_lt_is_Some_2 (cohort_frames c vs) k) as [f Hfk]; [rewrite cohort_length; lia|].
  destruct (frame_taken st c vs k f (out ++ outs) Hi Hf Hl Hfk Hk) as (o & Ho & He).
  exists (outs ++ [o]). split; [apply Forall_app; by repeat constructor|].
  rewrite (take_S_r _ _ _ Hfk), fmap_app, gate_history_app, Hrun. change (GeFrame <$> [f]) with [GeFrame f].
  rewrite history_cons. unfold gate_after. rewrite He, app_assoc. done.
Qed.

Lemma last_frame st c vs f out :
  idle st → fresh st c → length vs = n → 0 < n → cohort_frames c vs !! (2 * n - 1) = Some f →
  cohort_of (partial st c vs (2 * n - 1)) f = cohort c vs
  ∧ gate_after (gate_event (GeFrame f)) (mkGateRun (partial st c vs (2 * n - 1)) out) = after_set f (partial st c vs (2 * n - 1)) out.
Proof.
  intros Hi Hf Hl Hn Hk. destruct (cohort_frame _ _ _ _ Hl Hk) as [(? & _)|(Hkn & Hkd & Hc & Hz)]; [lia|].
  assert (expected !! (2 * n - 1 - n) = Some (fr_edge_id f)) as He.
  { apply lookup_zip_with_Some in Hz as (id & v & [= -> _] & ? & _). done. }
  split.
  - unfold cohort_of, cohort. rewrite Hc. f_equal. pose proof (partial_data st c vs (2 * n - 1) f Hkn ltac:(lia) Hl Hz) as Hpd.
    apply (f_equal data) in Hpd. cbn [data set_data] in Hpd. change (λ x, x) with (@id (gmap string bytes)) in Hpd.
    rewrite Hpd. cbn [data partial]. rewrite (take_ge (zip _ _)) by (rewrite length_zip, length_expected; lia).
    apply cohort_values_all. intros id [v Hv]%elem_of_dom. apply elem_of_list_to_map_2 in Hv. apply elem_of_list_to_set.
    apply elem_of_zip_l in Hv. done.
  - apply released_taken; [done|by rewrite Hc| |by apply list_elem_of_lookup_2 in He|..].
    + rewrite Hc. unfold partial. cbn [active_cause_id]. by rewrite (proj2 (Nat.eqb_neq _ _)) by lia.
    + unfold partial. cbn [dirty]. rewrite elem_of_list_to_set, take_ge by (rewrite length_expected; lia). by apply list_elem_of_lookup_2 in He.
    + unfold partial. cbn [data]. apply not_elem_of_list_to_map_1. rewrite fmap_take. apply not_taken_before; [|by rewrite list_lookup_fmap, Hz].
      pose proof (zip_distinct vs n Hl) as Hnd. by rewrite take_ge in Hnd by (rewrite length_zip, length_expected; lia).
    + split; [rewrite partial_dirty_size, length_expected; lia|rewrite partial_data_size, length_expected; lia].
Qed.

(** *** Cohort by cohort *)

Definition sets (outs : list GateOut) : list WireEdgeGroupReleaseCohort :=
  omap (λ o, match o with ReleaseSet c => Some c | _ => None end) outs.

Lemma sets_app l l' : sets (l ++ l') = sets l ++ sets l'.
Proof. apply omap_app. Qed.

Lemma sets_progress outs : Forall is_progress outs → sets outs = [].
Proof. induction 1 as [|[[]|] outs ?? IH]; done. Qed.

Lemma sets_issues outs : Forall is_issue outs → sets outs = [].
Proof. induction 1 as [|[[]|] outs ?? IH]; done. Qed.

Lemma progress_no_issue outs : Forall is_progress outs → Forall (λ o, ¬ is_issue o) outs.
Proof. intros Hall. eapply Forall_impl; [done|]. intros [[]|]; cbn; tauto. Qed.

Lemma cohort_taken st c vs out :
  (∀ out co, set_unwinds out co = None) → idle st → fresh st c → length vs = n → 0 < n →
  ∃ outs, Forall (λ o, ¬ is_issue o) outs ∧ sets outs = [cohort c vs]
    ∧ gate_history (GeFrame <$> cohort_frames c vs) (mkGateRun st out)
      = mkGateRun (forget (set_released (tombstones_insert c) st)) (out ++ outs).
Proof.
  intros Hq Hi Hf Hl Hn. destruct (lookup_lt_is_Some_2 (cohort_frames c vs) (2 * n - 1)) as [f Hk]; [rewrite cohort_length; lia|].
  destruct (frames_taken st c vs (2 * n - 1) out Hi Hf Hl) as (outs & Hp & Hrun); [lia|].
  destruct (last_frame st c vs f (out ++ outs) Hi Hf Hl Hn Hk) as [Hco Hlast]. unfold after_set in Hlast. rewrite Hq, Hco in Hlast.
  assert (fr_cause_id f = c) as Hc by (destruct (cohort_frame _ _ _ _ Hl Hk) as [(? & ? & ? & _)|(? & ? & ? & _)]; done).
  exists (outs ++ [Emitted (GgRelease c (size (co_values (cohort c vs)))); ReleaseSet (cohort c vs)]). split_and!.
  - apply Forall_app. split; [by apply progress_no_issue|]. repeat constructor; intros [].
  - by rewrite sets_app, (sets_progress _ Hp).
  - rewrite <- (take_ge (cohort_frames c vs) (S (2 * n - 1))) by (rewrite cohort_length; lia).
    rewrite (take_S_r _ _ _ Hk), fmap_app, gate_history_app, Hrun. change (GeFrame <$> [f]) with [GeFrame f].
    rewrite history_cons, Hlast, Hc, <- app_assoc. done.
Qed.

Lemma fresh_after st c c' : c' ≠ c → fresh st c' → fresh (forget (set_released (tombstones_insert c) st)) c'.
Proof. intros Hne [Hf Hr]. split; [done|]. cbn. intros Hin%tombstones_insert_seen. set_solver. Qed.

(** Any part of the frames of a sequence of cohorts releases those that are complete. *)
Lemma cohorts_taken cs : (∀ out co, set_unwinds out co = None) → 0 < n → Forall (λ x : string * list bytes, length x.2 = n) cs → NoDup cs.*1 →
  ∀ st out k, idle st → (∀ c, c ∈ cs.*1 → fresh st c) →
  ∃ st' outs, gate_history (GeFrame <$> take k (cs ≫= λ x, cohort_frames x.1 x.2)) (mkGateRun st out) = mkGateRun st' (out ++ outs)
    ∧ Forall (λ o, ¬ is_issue o) outs ∧ sets outs = take (k / (2 * n)) ((λ x, cohort x.1 x.2) <$> cs).
Proof.
  intros Hq Hn Hl. induction Hl as [|[c vs] cs Hlen _ IH]; intros Hnd st out k Hi Hf.
  { exists st, []. cbn [mbind list_bind]. rewrite take_nil, app_nil_r. split_and!; [done|by apply Forall_nil|by rewrite fmap_nil, take_nil]. }
  cbn in Hnd, Hlen. apply NoDup_cons in Hnd as [Hc Hnd]. rewrite bind_cons. cbn [fst snd].
  pose proof (cohort_length c vs Hlen) as Hcl. destruct (decide (k < 2 * n)) as [Hlt|Hge].
  - rewrite take_app_le by lia. destruct (frames_taken st c vs k out Hi) as (outs & Hp & Hrun); [apply Hf; left|done|done|].
    exists (partial st c vs k), outs. split_and!; [done|by apply progress_no_issue|]. by rewrite (sets_progress _ Hp), Nat.div_small.
  - rewrite take_app_ge, Hcl, fmap_app, gate_history_app by lia.
    destruct (cohort_taken st c vs out Hq Hi) as (outs & Hni & Hs & Hrun); [apply Hf; left|done|done|].
    destruct (IH Hnd (forget (set_released (tombstones_insert c) st)) (out ++ outs) (k - 2 * n)) as (st' & outs' & Hrun' & Hni' & Hs').
    { done. }
    { intros c' Hc'. apply fresh_after; [by intros ->|]. apply Hf. by right. }
    exists st', (outs ++ outs'). rewrite Hrun, Hrun', <- app_assoc. split_and!; [done|by apply Forall_app|].
    rewrite sets_app, Hs, Hs'. replace (k / (2 * n)) with (S ((k - 2 * n) / (2 * n))); [done|].
    replace k with ((k - 2 * n) + 1 * (2 * n)) at 2 by lia. rewrite Nat.div_add by lia. lia.
Qed.

(** *** A frame that comes again *)

Lemma failed_refused f r :
  fr_cause_id f ∈ seen (failed (gr_state r)) →
  ∃ o, is_issue o ∧ gate_event (GeFrame f) r = Ret tt (mkGateRun (gr_state r) (gr_out r ++ [o])).
Proof.
  intros Hin. eexists. split.
  2: { cbn [Edge.gate_event]. unfold reduce_wire_edge_group_frame. run_gate. rewrite (proj2 (contains_true _ _) Hin). run_gate. reflexivity. }
  done.
Qed.

Lemma all_refused fs c r :
  Forall (λ f, fr_cause_id f = c) fs → c ∈ seen (failed (gr_state r)) →
  ∃ outs, Forall is_issue outs ∧ gate_history (GeFrame <$> fs) r = mkGateRun (gr_state r) (gr_out r ++ outs).
Proof.
  intros Hall. revert r. induction Hall as [|f fs Hc _ IH]; intros r Hin.
  { exists []. rewrite app_nil_r. destruct r. by split. }
  subst c. destruct (failed_refused f r Hin) as (o & Ho & He).
  destruct (IH (mkGateRun (gr_state r) (gr_out r ++ [o])) Hin) as (outs & Hi & Hrun). exists (o :: outs). split; [by constructor|].
  rewrite fmap_cons, history_cons. unfold gate_after. rewrite He, Hrun. cbn. by rewrite <- app_assoc.
Qed.

Lemma repeated_frame st c vs k i f out :
  idle st → fresh st c → length vs = n → i < k < 2 * n → cohort_frames c vs !! i = Some f →
  ∃ o, is_issue o ∧ gate_event (GeFrame f) (mkGateRun (partial st c vs k) out)
    = Ret tt (mkGateRun (forget (set_failed (tombstones_insert c) st)) (out ++ [o])).
Proof.
  intros Hi Hf Hl Hk Hfi. destruct (cohort_frame _ _ _ _ Hl Hfi) as [(Hin & Hkd & Hc & He)|(Hin & Hkd & Hc & Hz)].
  - assert (fr_edge_id f ∈ dirty (partial st c vs k)) as Hd.
    { cbn. apply elem_of_list_to_set, list_elem_of_lookup. exists i. rewrite lookup_take_lt by lia. done. }
    eexists. split; [|rewrite reduce_taken].
    + shelve.
    + rewrite Hkd. unfold reduce_dirty, refuse, wire_edge_group_gate_fail, wire_edge_group_gate_reset. cbn [active_cause_id partial gr_state].
      destruct k; [lia|]. cbn [Nat.eqb]. run_gate. rewrite bool_decide_true by done. rewrite Hc. run_gate. reflexivity.
    + rewrite Hc. done.
    + rewrite Hc. unfold opens, partial. cbn. destruct k; [lia|by right].
    + by apply list_elem_of_lookup_2 in He.
    Unshelve. exact I.
  - assert (expected !! (i - n) = Some (fr_edge_id f)) as He.
    { apply lookup_zip_with_Some in Hz as (id & v & [= -> _] & ? & _). done. }
    assert (is_Some (data (partial st c vs k) !! fr_edge_id f)) as [v Hv].
    { exists (default [] (fr_value f)). unfold partial. cbn [data]. apply elem_of_list_to_map_1; [by apply zip_distinct|].
      apply list_elem_of_lookup. exists (i - n). by rewrite lookup_take_lt by lia. }
    eexists. split; [|rewrite reduce_taken].
    + shelve.
    + rewrite Hkd. unfold reduce_data, refuse, wire_edge_group_gate_fail, wire_edge_group_gate_reset, bind at 1, get_gate, gets.
      cbn [active_cause_id partial gr_state]. destruct k; [lia|]. cbn [Nat.eqb is_some negb].
      rewrite bool_decide_true, Hv by (cbn; rewrite elem_of_list_to_set, take_ge by (rewrite length_expected; lia); by apply list_elem_of_lookup_2 in He).
      rewrite Hc. run_gate. reflexivity.
    + rewrite Hc. done.
    + rewrite Hc. unfold opens, partial. cbn. destruct k; [lia|by right].
    + by apply list_elem_of_lookup_2 in He.
    Unshelve. exact I.
Qed.
End Cohorts.

(** The tombstones always remember some history. *)
Lemma insert_remembers t h c : remembers t h → ∃ h', remembers (tombstones_insert c t) h' ∧ c ∈ seen (tombstones_insert c t).
Proof.
  intros Hr. destruct (decide (c ∈ seen t)) as [Hin|Hin].
  - exists h. unfold tombstones_insert. rewrite bool_decide_true by done. done.
  - exists (h ++ [c]). pose proof (tombstones_insert_new _ _ _ Hr Hin) as Hn. split; [done|].
    destruct Hn as [Hl Ho Hs _]. apply Hs. rewrite Ho, Hl, length_app, list_elem_of_lookup. cbn [length].
    exists (length h - (length h + 1 - WIRE_EDGE_GROUP_CAUSE_TOMBSTONE_LIMIT)). rewrite lookup_drop.
    unfold WIRE_EDGE_GROUP_CAUSE_TOMBSTONE_LIMIT.
    replace (length h + 1 - 1024 + (length h - (length h + 1 - 1024))) with (length h) by lia. by rewrite lookup_app_r, Nat.sub_diag by lia.
Qed.

Lemma history_failed h : ∃ hist, remembers (failed (gr_state (gate_history h gate_new))) hist.
Proof.
  apply (history_ind (λ _ r, ∃ hist, remembers (failed (gr_state r)) hist)); [by eexists; apply remembers_nothing|].
  intros h' e st out st' outs [hist Hr] Hst. cbn in *.
  destruct Hst as [|e outs cs _ _|e outs c _ _| | |f st' ? ? ? ? ? ? ? [[-> _]| ->]]; cbn; try by exists hist.
  - clear -Hr. induction cs as [|c cs [h1 IH]]; [by exists hist|]. cbn. destruct (insert_remembers _ _ c IH) as (h2 & ? & _). by exists h2.
  - destruct (insert_remembers _ _ c Hr) as (h2 & ? & _). by exists h2.
Qed.
End Gate.

(** ** Groups with valid edges *)

(** The edges of a group that was made: [wire_edge_group] panics on others. *)
Definition valid_edges (edges : list WireEdgeGroupEdge) : Prop := normalize_wire_edge_group_edges edges tt = Ret edges tt.

Lemma normalize_loop l acc r :
  fold_each l normalize_edge acc tt = Ret r tt →
  NoDup (edge_id <$> l) ∧ Forall (λ edge, edge_id edge ≠ ""%string ∧ edge_id edge ∉ acc.1.1) l ∧ r.1.1 = list_to_set (edge_id <$> l) ∪ acc.1.1.
Proof.
  revert acc. induction l as [|edge l IH]; intros [[ids hi] ho].
  { intros [= <-]. split_and!; [constructor|constructor|cbn; set_solver]. }
  cbn [fold_each]. unfold bind at 1, normalize_edge, assert_or, bind at 1. destruct (empty (edge_id edge)) eqn:He; [done|]. cbn.
  unfold bind at 1. case_bool_decide as Hin; [done|]. cbn. intros (Hn & Hall & Hr)%IH. cbn in *. split_and!.
  - constructor; [|done]. intros (e' & Heq & He')%list_elem_of_fmap. rewrite Forall_forall in Hall. destruct (Hall _ He') as [_ Hnot].
    rewrite <- Heq in Hnot. set_solver.
  - constructor; [split; [|done]|].
    + intros Heq. by rewrite Heq in He.
    + eapply Forall_impl; [done|]. intros e' [? Hnot]. split; [done|]. set_solver.
  - rewrite Hr. set_solver.
Qed.

Lemma valid_edges_spec edges :
  valid_edges edges → NoDup (expected_ids edges) ∧ (∀ edge, edge ∈ edges → edge_id edge ≠ ""%string) ∧ 0 < length edges.
Proof.
  unfold valid_edges, normalize_wire_edge_group_edges, bind at 1, assert_or at 1. case_bool_decide as Hne; [done|]. cbn.
  unfold bind at 1. destruct (fold_each edges normalize_edge _ tt) as [r [] | |] eqn:Hf; [|done..]. intros _.
  apply normalize_loop in Hf as (Hn & Hall & _). split_and!; [done| |].
  - intros edge Hin. rewrite Forall_forall in Hall. by apply Hall.
  - destruct edges; [done|]. cbn. lia.
Qed.

(** C24: a cohort is released whole.  Whatever events the gate gets, in whatever
    batches, and whether sets of the release node unwind or not: the values it
    releases for a cause are those of frames it processed, one DIRTY and then one
    DATA for every expected edge and no others. *)
Theorem cohorts_complete name edges set_unwinds batches c values :
  valid_edges edges →
  ReleaseSet (mkCohort c values) ∈ gr_out (gate_runs name (expected_ids edges) set_unwinds batches gate_new) →
  ∃ parts fs, Forall2 prefix parts batches ∧ fs `sublist_of` frames_of c (concat parts)
    ∧ complete_cohort (expected_ids edges) fs values.
Proof.
  intros (Hn & _)%valid_edges_spec. destruct (runs_are_history name (expected_ids edges) set_unwinds batches gate_new) as (parts & Hp & ->).
  intros Hin. destruct (history_correct name _ set_unwinds Hn (concat parts)) as [_ Hr].
  destruct (Hr _ _ Hin) as (fs & Hs & Hc). by exists parts, fs.
Qed.

(** C37: a cause is released once, as far as the gate remembers.  While no set of the
    release node unwinds, between two releases of one cause there are at least 1024
    releases of others. *)
Theorem released_once name edges batches i j c :
  let released := causes (gr_out (gate_runs name (expected_ids edges) (λ _ _, None) batches gate_new)) in
  i < j → j - i ≤ 1024 → released !! i = Some c → released !! j ≠ Some c.
Proof.
  destruct (runs_are_history name (expected_ids edges) (λ _ _, None) batches gate_new) as (parts & _ & ->).
  destruct (history_once name (expected_ids edges) (λ _ _, None) (concat parts)) as [_ Ho]; [done|].
  intros released Hlt Hle Hi Hj. specialize (Ho _ _ _ Hi Hj Hlt). unfold WIRE_EDGE_GROUP_CAUSE_TOMBSTONE_LIMIT in Ho. lia.
Qed.

