(* ===== verification/WireEdgeLink.v ===== *)
(** * The sending side of a wire edge group, and both sides together

    A run of the events node of a sending group makes nothing or the frames of one
    cohort, under a cause of its own.  What the gate of the receiving group makes of
    a part of these frames closes the round trip. *)

From Stdlib Require Import Ascii String.
From stdpp Require Import base option strings numbers gmap list.
From S2P Require Import Prelude Text Storage StorageFacts Versioning Protocol NodeState Resilience Bridge BridgeFacts Protobuf WireEdge.
From S2P Require Import WireEdgeFacts.
Import Wire Proto Edge.

Local Open Scope rx_scope.

Section Sender.
Context `{!TupleText} (name : string) (edges : list WireEdgeGroupEdge) (session : string) (outbound_indexes : list nat).
Implicit Types (s : WireEdgeGroupOutState) (r : OutRun).

(** What a run of the node has of its deps, with the versions of the source nodes at
    that moment. *)
Record GroupInput := mkGroupInput {
  gi_version : Core → option NodeVersion;
  gi_waves : list (list (list (WaveData (option bytes))));
  gi_inbound : list (WireBridgeIngress Body)
}.

Definition group_run (x : GroupInput) s : WireEdgeGroupOutState * list WireEdgeGroupEvent :=
  wire_edge_group_events_fn name edges session (gi_version x) outbound_indexes (gi_waves x) (gi_inbound x) s.

Definition group_runs (l : list GroupInput) s : WireEdgeGroupOutState * list WireEdgeGroupEvent :=
  foldl (λ p x, let q := group_run x p.1 in (q.1, p.2 ++ q.2)) (s, []) l.

(** *** Taking the values of a run *)

Lemma commands_app l l' : wire_edge_group_commands (l ++ l') = wire_edge_group_commands l ++ wire_edge_group_commands l'.
Proof. apply omap_app. Qed.

(** What every item does to a property of the state is what the run does. *)
Lemma items_keep (P : OutRun → Prop) version by_edge r :
  (∀ edge r item, P r → P (outbound_item name version edge r item)) → P r → P (foldl (outbound_edge_waves name version) r by_edge).
Proof.
  intros Hitem. revert r. induction by_edge as [|[edge waves] l IH]; intros r Hr; [done|]. cbn [foldl]. apply IH.
  unfold outbound_edge_waves. cbn. revert r Hr. induction (concat waves) as [|item items IHi]; intros r Hr; [done|].
  cbn [foldl]. apply IHi. by apply Hitem.
Qed.

Record quiet_run s r : Prop := {
  qr_cause : next_cause (or_state r) = next_cause s;
  qr_once : emitted_once (or_state r) = emitted_once s;
  qr_last : last_emitted_versions (or_state r) = last_emitted_versions s;
  qr_commands : wire_edge_group_commands (or_out r) = []
}.

Lemma item_quiet s version edge r item : quiet_run s r → quiet_run s (outbound_item name version edge r item).
Proof.
  intros [Hc Ho Hl Hm]. destruct item as [[value|]|]; cbn; [case_match|..]; split; cbn; try done.
  by rewrite commands_app, Hm.
Qed.

Lemma frame_events_commands inbound : wire_edge_group_commands (omap (wire_edge_group_frame_event name session) inbound) = [].
Proof.
  induction inbound as [|x l IH]; [done|]. cbn [omap list_omap]. fold (omap (wire_edge_group_frame_event name session) l).
  destruct (wire_edge_group_frame_event name session x) as [e|] eqn:He; [|done].
  assert (wire_edge_group_commands [e] = []) as H1.
  { revert He. unfold wire_edge_group_frame_event, frame_event. repeat case_match; intros; simplify_eq; done. }
  change (e :: omap (wire_edge_group_frame_event name session) l) with ([e] ++ omap (wire_edge_group_frame_event name session) l).
  by rewrite commands_app, H1, IH.
Qed.

(** *** Making a cohort *)

Lemma no_missing s :
  edge_id <$> List.filter (λ edge, negb (is_some (pending s !! edge_id edge))) edges = [] →
  ∃ ps, Forall2 (λ edge p, pending s !! edge_id edge = Some p) edges ps
    ∧ omap (λ edge, pair edge <$> pending s !! edge_id edge) edges = zip edges ps.
Proof.
  induction edges as [|edge l IH]; [by exists []|]. cbn [List.filter]. destruct (pending s !! edge_id edge) as [p|] eqn:Hp; [|done].
  cbn [is_some negb]. intros (ps & Hf & Hz)%IH. exists (p :: ps). split; [by constructor|]. cbn. rewrite Hp. cbn. by rewrite Hz.
Qed.

Lemma cohort_commands cause (ps : list WireEdgeGroupPendingOutbound) :
  length ps = length edges →
  wire_edge_group_commands
    ((GeOutbound ∘ wire_edge_group_send ∘ dirty_frame cause <$> edges)
     ++ ((λ e, GeOutbound (wire_edge_group_send (data_frame cause e.1 (po_value e.2)))) <$> zip edges ps))
  = wire_edge_group_send <$> cohort_frames edges cause (po_value <$> ps).
Proof.
  intros _. rewrite commands_app. unfold cohort_frames. rewrite fmap_app. f_equal.
  - induction edges as [|edge l IH]; [done|]. cbn. f_equal. done.
  - revert ps. induction edges as [|edge l IH]; intros [|p ps]; [done..|]. cbn. f_equal. apply IH.
Qed.

Lemma missing_commands ids : wire_edge_group_commands (missing_snapshot name <$> ids) = [].
Proof. induction ids as [|id ids IH]; [done|exact IH]. Qed.

(** A run makes no commands, or those of one cohort: the values that were pending for
    its edges, under the next cause. *)
Lemma run_cohort x s :
  (wire_edge_group_commands (group_run x s).2 = [] ∧ next_cause (group_run x s).1 = next_cause s)
  ∨ ∃ vs, length vs = length edges
    ∧ wire_edge_group_commands (group_run x s).2 = wire_edge_group_send <$> cohort_frames edges (cause_id name (next_cause s)) vs
    ∧ next_cause (group_run x s).1 = sat64 (next_cause s + 1).
Proof.
  unfold group_run, wire_edge_group_events_fn. set (by_edge := omap _ _). set (r := foldl _ _ by_edge).
  assert (quiet_run s r) as [Hc _ _ Hm].
  { apply (items_keep (quiet_run s)); [intros; by apply item_quiet|by split]. }
  cbn [fst snd]. destruct (or_triggered r).
  2: { left. cbn. by rewrite !commands_app, Hm, frame_events_commands. }
  unfold emit_wire_edge_group_outbound. case_bool_decide as Hmiss; cbn [negb].
  - destruct (no_missing _ Hmiss) as (ps & Hf & ->). right. exists (po_value <$> ps). pose proof (Forall2_length _ _ _ Hf) as Hlen.
    split_and!; [by rewrite length_fmap| |cbn; by rewrite Hc].
    cbn [fst snd]. rewrite (commands_app (or_out r)), Hm, (commands_app _ (omap _ _)), frame_events_commands, app_nil_r, Hc.
    by rewrite cohort_commands.
  - left. cbn [fst snd]. split; [|done]. rewrite !commands_app, Hm, frame_events_commands, app_nil_r. cbn.
    apply missing_commands.
Qed.

(** *** The frames of a sequence of runs *)

Definition frames_sent (events : list WireEdgeGroupEvent) : list CanonicalWireEdgeFrame :=
  omap (λ c, match c with CSend (PWireEdge f) _ _ => Some f | _ => None end) (wire_edge_group_commands events).

Lemma frames_sent_app l l' : frames_sent (l ++ l') = frames_sent l ++ frames_sent l'.
Proof. unfold frames_sent. by rewrite commands_app, omap_app. Qed.

Lemma frames_of_sends (fs : list CanonicalWireEdgeFrame) :
  omap (λ c : WireBridgeCommand Body, match c with CSend (PWireEdge f) _ _ => Some f | _ => None end) (wire_edge_group_send <$> fs) = fs.
Proof. induction fs as [|f fs IH]; [done|]. cbn. by rewrite IH. Qed.

(** Cohorts under consecutive causes. *)
Definition numbered (first : N) (cohorts : list (list bytes)) : list (string * list bytes) :=
  imap (λ i vs, (cause_id name (first + N.of_nat i), vs)) cohorts.

Lemma numbered_cons first vs cohorts : numbered first (vs :: cohorts) = (cause_id name first, vs) :: numbered (first + 1) cohorts.
Proof.
  unfold numbered. cbn. f_equal; [by rewrite N.add_0_r|]. apply imap_ext. intros i x _. cbn. f_equal. f_equal. lia.
Qed.

Lemma numbered_distinct first cohorts : NoDup (numbered first cohorts).*1.
Proof.
  apply NoDup_alt. intros i j c Hi Hj. rewrite list_lookup_fmap in Hi, Hj. unfold numbered in *. rewrite list_lookup_imap in Hi, Hj.
  destruct (cohorts !! i); [|done]. destruct (cohorts !! j); [|done]. cbn in *. assert (cause_id name (first + N.of_nat i) = cause_id name (first + N.of_nat j)) as Hc by congruence.
  unfold cause_id in Hc. apply compound_tuple_key_inj in Hc. injection Hc as Hc%u64_string_inj. lia.
Qed.

Lemma runs_cohorts l s :
  (next_cause s + N.of_nat (length l) ≤ u64_max)%N →
  ∃ cohorts, Forall (λ vs, length vs = length edges) cohorts ∧ length cohorts ≤ length l
    ∧ next_cause (group_runs l s).1 = (next_cause s + N.of_nat (length cohorts))%N
    ∧ frames_sent (group_runs l s).2 = numbered (next_cause s) cohorts ≫= λ x, cohort_frames edges x.1 x.2.
Proof.
  induction l as [|x l IH] using rev_ind; intros Hb.
  { exists []. split_and!; [constructor|done|cbn; lia|done]. }
  rewrite length_app in Hb. cbn in Hb. destruct IH as (cohorts & Hf & Hle & Hn & Hs); [lia|].
  unfold group_runs. rewrite foldl_snoc. fold (group_runs l s). cbn [fst snd]. rewrite frames_sent_app, Hs, length_app. cbn [length].
  destruct (run_cohort x (group_runs l s).1) as [[Hc Hsame]|(vs & Hl & Hc & Hnext)].
  - exists cohorts. unfold frames_sent. rewrite Hc, Hsame, app_nil_r. split_and!; [done|lia|done|done].
  - exists (cohorts ++ [vs]). unfold frames_sent. rewrite Hc, Hnext, Hn, frames_of_sends, length_app. cbn [length]. split_and!.
    + apply Forall_app. by repeat constructor.
    + lia.
    + unfold sat64. lia.
    + unfold numbered. rewrite imap_app, bind_app. f_equal. cbn. by rewrite Nat.add_0_r, app_nil_r.
Qed.
End Sender.

(** ** The receiving side, while no set of the release node unwinds *)

Section Quiet.
Context (name : string) (expected : list string).
Abbreviation never := (λ (_ : list GateOut) (_ : WireEdgeGroupReleaseCohort), @None Payload).

Definition returns {A} (m : M GateRun A) : Prop := ∀ r, ∃ a r', m r = Ret a r'.

Lemma returns_bind {A B} (m : M GateRun A) (k : A → M GateRun B) : returns m → (∀ a, returns (k a)) → returns (bind m k).
Proof. intros Hm Hk r. destruct (Hm r) as (a & r' & Hr). destruct (Hk a r') as (b & r'' & Hb). exists b, r''. unfold bind. by rewrite Hr. Qed.

Ltac returns_auto :=
  repeat (first [ apply returns_bind; [|intros ?] | progress cbn beta iota | case_split ]);
  try (intros ?; by eexists _, _).

Lemma event_returns e : returns (gate_event name expected never e).
Proof.
  destruct e as [command|f|issue|]; cbn [gate_event];
    unfold reduce_wire_edge_group_frame, reduce_current, reduce_dirty, reduce_data, release_cohort, release_set, refuse,
      emit_replayed_wire_edge_group_cause, fail_wire_edge_group_issue_cause, emit_wire_edge_group_competing_cause, wire_edge_group_gate_fail,
      wire_edge_group_gate_reset, wire_edge_group_progress, emit_issue, emit, did, put_gate, get_gate, when; returns_auto.
Qed.

Lemma run_returns b r : ∃ r', wire_edge_group_gate_fn name expected never b r = Ret tt r' ∧ r' = gate_history name expected never b r.
Proof.
  revert r. induction b as [|e b IH]; intros r; [by exists r|]. unfold wire_edge_group_gate_fn in *. cbn [for_each]. unfold bind.
  destruct (event_returns e r) as ([] & r1 & He). rewrite He. destruct (IH r1) as (r' & Hr & ->). exists (gate_history name expected never b r1).
  split; [done|]. rewrite history_cons. unfold gate_after. by rewrite He.
Qed.

Lemma runs_all batches r : gate_runs name expected never batches r = gate_history name expected never (concat batches) r.
Proof.
  revert r. induction batches as [|b l IH]; intros r; [done|]. cbn [gate_runs foldl concat]. rewrite gate_history_app.
  destruct (run_returns b r) as (r' & Hr & ->). unfold gate_after at 2. rewrite Hr. apply IH.
Qed.
End Quiet.

(** ** Both sides *)

Section Group.
Context `{!TupleText}.

(** What came in at the inbound port of the receiving bridge for some frames. *)
Definition carries (session : string) (f : CanonicalWireEdgeFrame) (e : WireBridgeEnvelope Body) : Prop :=
  validate_inbound_envelope e = Ok tt ∧ session_id e = session ∧ envelope_type e = TData ∧ payload e = Some (PData (PWireEdge f)).

Definition sendable_frame f : Prop :=
  fr_edge_id f ≠ ""%string ∧ fr_cause_id f ≠ ""%string
  ∧ match fr_kind f with Dirty => fr_value f = None | Data => is_Some (fr_value f) end.

Lemma carried_frame name session f e :
  carries session f e → sendable_frame f → wire_edge_group_frame_event name session (IEnvelope e) = Some (GeFrame f).
Proof.
  intros (Hv & Hs & Ht & Hp) (He & Hc & Hk). cbn. rewrite Hv, Hs, Ht, Hp, bool_decide_true by done. cbn. unfold frame_event, validate_wire_edge_group_frame.
  destruct (fr_edge_id f); [done|]. destruct (fr_cause_id f); [done|]. cbn. destruct (fr_kind f); [by rewrite Hk|].
  destruct Hk as [v ->]. done.
Qed.

Lemma carried_frames name session fs es :
  Forall2 (carries session) fs es → Forall sendable_frame fs →
  omap (wire_edge_group_frame_event name session) (IEnvelope <$> es) = GeFrame <$> fs.
Proof.
  induction 1 as [|f e fs es Hc _ IH]; [done|]. intros [Hf Hfs]%Forall_cons. rewrite fmap_cons. cbn [omap list_omap].
  rewrite (carried_frame name session f e Hc Hf). fold (omap (wire_edge_group_frame_event name session) (IEnvelope <$> es)). by rewrite IH.
Qed.

Lemma cause_not_empty name k : cause_id name k ≠ ""%string.
Proof. done. Qed.

Lemma cohort_sendable edges name k vs : valid_edges edges → Forall sendable_frame (cohort_frames edges (cause_id name k) vs).
Proof.
  intros (_ & Hids & _)%valid_edges_spec. apply Forall_app. split; apply Forall_forall; intros f.
  - intros (edge & -> & He)%list_elem_of_fmap. split_and!; [by apply Hids|apply cause_not_empty|done].
  - intros (i & (edge & v & -> & He & _)%lookup_zip_with_Some)%list_elem_of_lookup.
    split_and!; [by eapply Hids, list_elem_of_lookup_2|apply cause_not_empty|by eexists].
Qed.

(** The events of a receiving group for the envelopes its port got, in batches. *)
Definition port_events name session (batches : list (list (WireBridgeEnvelope Body))) : list (list WireEdgeGroupEvent) :=
  (λ es : list (WireBridgeEnvelope Body), omap (wire_edge_group_frame_event name session) (IEnvelope <$> es)) <$> batches.

End Group.

(** ** Which values a group sends *)

Section Fresh.
Context `{!TupleText} (name : string) (edges : list WireEdgeGroupEdge) (session : string) (outbound_indexes : list nat).
Implicit Types (s : WireEdgeGroupOutState) (r : OutRun).

(** Once a cohort was sent, what is pending has a version that was not sent last. *)
Definition fresh_pending s : Prop :=
  emitted_once s = true → ∀ id p, pending s !! id = Some p → is_Some (po_version p) ∧ last_emitted_versions s !! id ≠ Some (po_version p).

Lemma item_fresh version edge r item : fresh_pending (or_state r) → fresh_pending (or_state (outbound_item name version edge r item)).
Proof.
  intros Hf. assert (∀ id, fresh_pending (set_pending (delete id) (or_state r))) as Hdel.
  { intros id Ho id' p Hp. cbn in Ho, Hp |- *. apply lookup_delete_Some in Hp as [Hne Hp]. by apply Hf. }
  destruct item as [[value|]|]; cbn; [|apply Hdel..]. case_match eqn:Hadm; [|done]. cbn. intros Ho id p. cbn in *.
  intros [[<- <-]|[Hne Hp]]%lookup_insert_Some; [|by apply Hf]. cbn. unfold wire_edge_group_should_admit_outbound_data in Hadm.
  rewrite Ho in Hadm. cbn in Hadm. destruct (outbound edge ≫= version) as [v|]; [|done].
  case_bool_decide; [done|]. case_bool_decide; [done|]. split; [done|]. congruence.
Qed.

Lemma last_versions l ps : NoDup (edge_id <$> l) → length ps = length l →
  ∀ i edge p, l !! i = Some edge → ps !! i = Some p →
  foldl (λ m (e : WireEdgeGroupEdge * WireEdgeGroupPendingOutbound), <[edge_id e.1 := po_version e.2]> m)
    (∅ : gmap string (option NodeVersion)) (zip l ps) !! edge_id edge = Some (po_version p).
Proof.
  generalize (∅ : gmap string (option NodeVersion)) as m. revert ps.
  induction l as [|e l IH]; intros [|q ps] m Hn Hl i edge p Hi Hp; try done. rewrite fmap_cons in Hn. apply NoDup_cons in Hn as [Hne Hn].
  cbn in Hl |- *. destruct i as [|i]; [|by eapply IH; [done|lia|..]]. injection Hi as <-. injection Hp as <-.
  assert (∀ k (m' : gmap string (option NodeVersion)), edge_id k ∉ edge_id <$> l →
    foldl (λ m (e : WireEdgeGroupEdge * WireEdgeGroupPendingOutbound), <[edge_id e.1 := po_version e.2]> m) m' (zip l ps) !! edge_id k
    = m' !! edge_id k) as Hkeep; [|rewrite Hkeep by done; by rewrite lookup_insert_eq].
  clear. intros k. revert ps. induction l as [|e l IH]; intros ps m' Hk; [done|]. destruct ps as [|q ps]; [done|]. cbn.
  rewrite IH by (intros Hin; apply Hk; rewrite fmap_cons; by right). rewrite lookup_insert_ne; [done|].
  intros Heq. apply Hk. rewrite fmap_cons, Heq. left.
Qed.

(** What a run leaves: as before, or a cohort was made and the versions of its values
    are the last ones. *)
Lemma run_fresh x s : fresh_pending s → NoDup (edge_id <$> edges) →
  let s' := (group_run name edges session outbound_indexes x s).1 in
  fresh_pending s'
  ∧ (wire_edge_group_commands (group_run name edges session outbound_indexes x s).2 ≠ [] → emitted_once s = true →
     ∀ edge, edge ∈ edges → ∃ v, last_emitted_versions s' !! edge_id edge = Some (Some v)
       ∧ last_emitted_versions s !! edge_id edge ≠ Some (Some v)).
Proof.
  intros Hf Hn. unfold group_run, wire_edge_group_events_fn. set (by_edge := omap _ _). set (r := foldl _ _ by_edge).
  assert (quiet_run s r ∧ fresh_pending (or_state r)) as [[Hc Ho Hl Hm] Hfr].
  { apply (items_keep name (λ r, quiet_run s r ∧ fresh_pending (or_state r))).
    - intros edge r' item [Hq Hf']. split; [by apply item_quiet|by apply item_fresh].
    - by split. }
  cbn [fst snd]. destruct (or_triggered r).
  2: { split; [done|]. cbn. rewrite !commands_app, Hm, frame_events_commands. done. }
  unfold emit_wire_edge_group_outbound. case_bool_decide as Hmiss; cbn [negb fst snd].
  2: { split; [done|]. rewrite !commands_app, Hm, frame_events_commands, app_nil_r. cbn. by rewrite missing_commands. }
  destruct (no_missing edges _ Hmiss) as (ps & Hps & ->). split; [by intros _ id p|]. intros _ Hon edge Hin.
  apply list_elem_of_lookup in Hin as (i & Hi). destruct (Forall2_lookup_l _ _ _ _ _ Hps Hi) as (p & Hpi & Hp).
  rewrite <- Ho in Hon. destruct (Hfr Hon _ _ Hp) as [[v Hv] Hne]. exists v. cbn [last_emitted_versions].
  rewrite (last_versions edges ps Hn) with (i := i) (p := p); [|by symmetry; eapply Forall2_length|done|done].
  rewrite Hv in *. split; [done|]. by rewrite <- Hl.
Qed.
End Fresh.

Section Sent.
Context `{!TupleText} (name : string) (session : string).

Lemma runs_fresh edges indexes l : NoDup (edge_id <$> edges) →
  fresh_pending (group_runs name edges session indexes l wire_edge_group_out_state).1.
Proof.
  intros Hn. induction l as [|x l IH] using rev_ind; [by intros ?|]. unfold group_runs. rewrite foldl_snoc.
  by apply (run_fresh name edges session indexes x).
Qed.

(** After the first cohort nothing is sent twice.  A cohort that is not the first
    has, for every edge, a version of the source that is not the one sent last. *)
Theorem cohorts_are_fresh edges indexes l x :
  valid_edges edges →
  let s := (group_runs name edges session indexes l wire_edge_group_out_state).1 in
  let run := group_run name edges session indexes x s in
  wire_edge_group_commands run.2 ≠ [] → emitted_once s = true →
  ∀ edge, edge ∈ edges → ∃ v, last_emitted_versions run.1 !! edge_id edge = Some (Some v)
    ∧ last_emitted_versions s !! edge_id edge ≠ Some (Some v).
Proof.
  intros (Hn & _)%valid_edges_spec s run. destruct (run_fresh name edges session indexes x s) as [_ Hf]; [by apply runs_fresh|done|]. exact Hf.
Qed.

(** *** Several values in one run *)

Lemma values_taken version edge values : ∀ s out v,
  outbound edge ≫= version = Some v →
  (emitted_once s = false ∨ po_version <$> pending s !! edge_id edge = Some (Some v)) →
  foldl (outbound_item name version edge) (mkOutRun s true out) (WData ∘ Some <$> values)
  = mkOutRun match last values with
             | Some x => if emitted_once s then s else set_pending <[edge_id edge := mkPendingOut x (Some v)]> s
             | None => s
             end true out.
Proof.
  induction values as [|x values IH]; intros s out v Hv Hs; [done|]. rewrite fmap_cons. cbn [foldl]. unfold compose at 1.
  cbn [outbound_item or_state]. unfold wire_edge_group_should_admit_outbound_data. rewrite Hv. destruct (emitted_once s) eqn:Ho; cbn [negb].
  - destruct Hs as [|Hs]; [done|]. rewrite bool_decide_true by done. rewrite (IH s out v Hv) by by right. rewrite Ho.
    by destruct (last (x :: values)), (last values).
  - rewrite (IH _ out v Hv) by by left. cbn [emitted_once set_pending]. rewrite Ho. destruct values as [|y values]; [done|].
    change (last (x :: y :: values)) with (last (y :: values)). destruct (last (y :: values)) as [z|] eqn:Hz.
    + unfold set_pending. cbn. by rewrite insert_insert_eq.
    + by apply last_None in Hz.
Qed.

Lemma run_taken version edge x values s v :
  outbound edge ≫= version = Some v → last_emitted_versions s !! edge_id edge ≠ Some (Some v) → pending s = ∅ →
  foldl (outbound_item name version edge) (mkOutRun s false []) (WData ∘ Some <$> x :: values)
  = mkOutRun (set_pending <[edge_id edge := mkPendingOut (if emitted_once s then x else default x (last (x :: values))) (Some v)]> s) true [].
Proof.
  intros Hv Hl Hp. rewrite fmap_cons. cbn [foldl]. unfold compose at 1. cbn [outbound_item or_state or_out].
  assert (wire_edge_group_should_admit_outbound_data s (edge_id edge) (Some v) = true) as Hadm.
  { unfold wire_edge_group_should_admit_outbound_data. rewrite Hp, lookup_empty. destruct (emitted_once s); [|done]. cbn.
    rewrite !bool_decide_false by done. done. }
  rewrite Hv, Hadm, (values_taken version edge values _ _ v Hv) by (right; cbn; by rewrite lookup_insert_eq). cbn [emitted_once set_pending]. f_equal.
  destruct (emitted_once s); [by destruct (last values)|]. destruct values as [|y values]; [done|].
  change (last (x :: y :: values)) with (last (y :: values)). destruct (last (y :: values)) as [z|] eqn:Hz.
  - unfold set_pending. cbn. by rewrite insert_insert_eq.
  - by apply last_None in Hz.
Qed.

(** The value a group sends may be an old one.  When the source node of an edge
    has several values in one run, all of them are looked at with the version the
    node has now: the first cohort takes the last of them, every later cohort the
    first, and the newer values of that run are never sent. *)
Theorem later_cohorts_take_the_first id node v x values s :
  last_emitted_versions s !! id ≠ Some (Some v) → pending s = ∅ →
  let group := [mkEdge id (Some node)] in
  let run := group_run name group session [0] (mkGroupInput (λ _, Some v) [[WData ∘ Some <$> x :: values]] []) s in
  frames_sent run.2 = cohort_frames group (cause_id name (next_cause s)) [if emitted_once s then x else default x (last (x :: values))]
  ∧ pending run.1 = ∅.
Proof.
  intros Hl Hp. cbn zeta. unfold group_run, wire_edge_group_events_fn.
  cbn [imap omap list_omap gi_waves gi_version gi_inbound lookup list_lookup fst snd mbind option_bind foldl].
  unfold outbound_edge_waves. cbn [fst snd concat]. rewrite app_nil_r.
  rewrite (run_taken (λ _, Some v) (mkEdge id (Some node)) x values s v) by done.
  cbn [or_out or_state or_triggered edge_id]. set (y := if emitted_once s then x else _).
  unfold emit_wire_edge_group_outbound. cbn [List.filter edge_id set_pending pending omap list_omap fmap list_fmap option_fmap option_map next_cause].
  rewrite lookup_insert_eq. done.
Qed.
End Sent.
