(* ===== verification/WireEdgeScenarios.v ===== *)
(** * Wire edge groups: runs

    Concrete groups: the witnesses of the theorems of [WireEdgeFacts] and
    [WireEdgeLink], a release that unwinds and is made good, and the count of issues. *)

From Stdlib Require Import Ascii String.
From stdpp Require Import base option strings numbers gmap list.
From S2P Require Import Prelude Text Storage DurabilityExample Versioning Arena Protocol NodeState Resilience Bridge BridgeFacts Protobuf.
From S2P Require Import WireEdge WireEdgeFacts WireEdgeLink.
Import Wire Proto Edge.

Local Open Scope rx_scope.

#[local] Existing Instance escaped_tuples.

Definition two : list WireEdgeGroupEdge := [inbound_edge "a"; inbound_edge "b"].
Definition one : list WireEdgeGroupEdge := [inbound_edge "a"].
Definition byte_value (n : N) : bytes := [byte n].
Definition values : list bytes := [byte_value 1; byte_value 2].

Definition gate_of (edges : list WireEdgeGroupEdge) : list WireEdgeGroupEvent → GateRun → GateRun :=
  gate_history "group" (expected_ids edges) (λ _ _, None).

Lemma cohorts_complete_witness :
  ∃ parts fs, Forall2 prefix parts [GeFrame <$> cohort_frames two "c" values]
    ∧ fs `sublist_of` frames_of "c" (concat parts) ∧ complete_cohort ["a"; "b"]%string fs {["a"%string := byte_value 1; "b"%string := byte_value 2]}.
Proof.
  apply (cohorts_complete "group" two (λ _ _, None)); [vm_compute; reflexivity|].
  apply list_elem_of_lookup. exists 4. vm_compute. reflexivity.
Defined.

(** *** What is remembered *)

(** A cohort of one edge, by the number of its cause. *)
Definition single (n : N) : list WireEdgeGroupEvent := GeFrame <$> cohort_frames one (u64_string n) [byte_value 0].

Lemma released_once_witness :
  causes (gr_out (gate_runs "group" (expected_ids one) (λ _ _, None) [[3%N; 4%N] ≫= single] gate_new)) !! 1 ≠ Some "3"%string.
Proof.
  apply (released_once "group" one [[3%N; 4%N] ≫= single] 0 1 "3"); [lia|lia|]. vm_compute. reflexivity.
Defined.

(** *** A frame that comes again *)


(** *** A set that unwinds *)

(** The first set of the release node unwinds: the cause stays open, and the last
    frame, when it comes again, releases it. *)
Example unwound_release_is_made_good :
  let once := λ (out : list GateOut) (_ : WireEdgeGroupReleaseCohort),
    if bool_decide (causes out = []) then Some PanicOther else None in
  let r := gate_runs "group" (expected_ids two) once
             ((λ f, [GeFrame f]) <$> cohort_frames two "c" values ++ [mkFrame Data "b" "c" (Some (byte_value 2))]) gate_new in
  sets (gr_out r) = [cohort ["a"; "b"]%string "c" values; cohort ["a"; "b"]%string "c" values]
  ∧ active_cause_id (gr_state r) = None ∧ causes (gr_out r) = ["c"; "c"]%string.
Proof. vm_compute. split_and!; reflexivity. Qed.

(** *** Issues are counted twice *)

(** One envelope without a frame: the events node makes one issue, the gate passes it
    on, and the status and the issues node take it from both. *)
Example one_issue_counts_twice :
  let issue := malformed "group" ": bridge invalid wire-edge ingress: bad" None None in
  let events := omap (wire_edge_group_frame_event "group" "s") [IInvalid "bad"] in
  let gates := omap (λ o, match o with Emitted g => Some g | _ => None end) (gr_out (gate_of two events gate_new)) in
  events = [GeIssue issue]
  ∧ g_issues (wire_edge_group_status_fn (expected_ids two) events gates None) = 2%N
  ∧ wire_edge_group_issues events gates = [issue; issue].
Proof. vm_compute. split_and!; reflexivity. Qed.

(** While a cause is collected, an issue that belongs to none clears it from the
    status, although the gate keeps it. *)
Example status_forgets_the_cause :
  let events := (GeFrame <$> take 1 (cohort_frames two "c" values)) ++ omap (wire_edge_group_frame_event "group" "s") [IInvalid "bad"] in
  let r := gate_of two events gate_new in
  let gates := omap (λ o, match o with Emitted g => Some g | _ => None end) (gr_out r) in
  active_cause_id (gr_state r) = Some "c"%string
  ∧ g_active_cause_id (wire_edge_group_status_fn (expected_ids two) events gates None) = None.
Proof. vm_compute. split; reflexivity. Qed.

(** *** Sending *)

Definition source (i : nat) : Core := mkCore 0 (mkNodeKey i 0).
Definition two_out : list WireEdgeGroupEdge := [outbound_edge "a" (source 0); outbound_edge "b" (source 1)].

(** A run in which both sources have a value, under the version [v]. *)
Definition both (v : Z) (x y : N) : GroupInput :=
  mkGroupInput (λ _, Some (V0 v)) [[[WData (Some (byte_value x))]]; [[WData (Some (byte_value y))]]] [].

Definition sent_twice : list CanonicalWireEdgeFrame :=
  frames_sent (group_runs "out" two_out "s" [0; 1] [both 1 1 2; both 2 3 4] wire_edge_group_out_state).2.

Definition envelope_of (f : CanonicalWireEdgeFrame) : WireBridgeEnvelope Body :=
  mkEnvelope "s" TData (Some (PData (PWireEdge f))) (mkMetadata 1 0 "k" 1 3 None None None).


Lemma cohorts_are_fresh_witness :
  ∃ v, last_emitted_versions (group_runs "out" two_out "s" [0; 1] [both 1 1 2; both 2 3 4] wire_edge_group_out_state).1 !! "a"%string = Some (Some v)
    ∧ v ≠ V0 1.
Proof.
  destruct (cohorts_are_fresh "out" "s" two_out [0; 1] [both 1 1 2] (both 2 3 4)) with (edge := outbound_edge "a" (source 0)) as (v & Hv & Hne).
  - vm_compute. reflexivity.
  - vm_compute. discriminate.
  - vm_compute. reflexivity.
  - left.
  - exists v. split; [exact Hv|]. intros ->. apply Hne. vm_compute. reflexivity.
Defined.

(** A source with two values in one run: the first cohort has the second of them, the
    next cohort of such a source the first. *)
Lemma later_cohorts_take_the_first_witness :
  let run := λ s, frames_sent (group_run "out" [outbound_edge "a" (source 0)] "s" [0]
    (mkGroupInput (λ _, Some (V0 7)) [[[WData (Some (byte_value 5)); WData (Some (byte_value 6))]]] []) s).2 in
  fr_value <$> run wire_edge_group_out_state = [None; Some (byte_value 6)]
  ∧ fr_value <$> run (mkOutState 2 true ∅ ∅) = [None; Some (byte_value 5)].
Proof.
  assert (∀ s, last_emitted_versions s = ∅ → last_emitted_versions s !! "a"%string ≠ Some (Some (V0 7))) as Hnew.
  { intros s ->. rewrite lookup_empty. discriminate. }
  split.
  - etrans; [apply f_equal; exact (proj1 (later_cohorts_take_the_first "out" "s" "a" (source 0) (V0 7) (byte_value 5) [byte_value 6]
      wire_edge_group_out_state (Hnew wire_edge_group_out_state eq_refl) eq_refl))|]. vm_compute. reflexivity.
  - etrans; [apply f_equal; exact (proj1 (later_cohorts_take_the_first "out" "s" "a" (source 0) (V0 7) (byte_value 5) [byte_value 6]
      (mkOutState 2 true ∅ ∅) (Hnew (mkOutState 2 true ∅ ∅) eq_refl) eq_refl))|]. vm_compute. reflexivity.
Defined.
