(* ===== verification/FileBackend.v ===== *)
(** * The file backend and codec-backed tiers (storage.rs)

    A directory, the calls of [std::fs] the backend makes on it, and the backend's
    operations over them: one file per key, a write through a temporary file that
    is renamed or linked into place.  On top of a byte backend, the key-value tier
    that encodes its values.

    [Disk] is the state of the one directory a backend works in.  Each call of the
    file system meets its fate ([Fate]): it works, it fails with an error, or the
    process dies in it (an unwinding that nothing in the backend catches); the list
    of fates is part of the state and arbitrary, and an exhausted list means that
    everything works.  The temporary names draw on the clock and the process id. *)

From Stdlib Require Import Ascii String.
From stdpp Require Import base gmap list option numbers strings.
From S2P Require Import Prelude.
From S2P Require Import BTree.
From S2P Require Import Text.
From S2P Require Import Json.
From S2P Require Import Storage.
From S2P Require Import AppendLog.
From S2P Require Import CollectionStorage.

Local Open Scope rx_scope.

(** ** Byte backends *)

(** [dyn ByteStorageBackend]. *)
Record ByteStorageBackend (S : Type) := mkByteStorageBackend {
  bs_get : string → M S (StorageResult (option bytes));
  bs_put : string → bytes → M S (StorageResult unit);
  bs_put_if_absent : string → bytes → M S (StorageResult bool);
  bs_delete : string → M S (StorageResult unit);
  bs_list : string → M S (StorageResult (list string))
}.
Arguments mkByteStorageBackend {S}. Arguments bs_get {S}. Arguments bs_put {S}.
Arguments bs_put_if_absent {S}. Arguments bs_delete {S}. Arguments bs_list {S}.

(** The default body of [ByteStorageBackend::put_if_absent]. *)
Definition byte_put_if_absent_default {S} (key : string) (value : bytes) : M S (StorageResult bool) :=
  ret (Err (Unsupported "byteStorage" "put-if-absent")).

(** ** The file system *)

(** [io::ErrorKind], as far as the backend looks at it. *)
Inductive ErrorKind := NotFound | AlreadyExists | OtherKind.

Record IoError := mkIoError { io_kind : ErrorKind; io_text : string }.
Definition IoResult (A : Type) : Type := Result IoError A.

(** What becomes of a call.  [done] is how much of its work is on the disk when it
    fails or the process dies: the bytes written for a write; nothing or all for
    the other calls, and a failing call other than a write has done nothing. *)
Inductive Fate :=
| Works
| Fails (done : nat) (text : string)
| Dies (done : nat).

(** What the backend uses of [std::fs], the process and the clock. *)
Class FileSystem := {
  utf8 : bytes → bool;                          (* OsStr::to_str and String::from_utf8 succeed *)
  io_message : ErrorKind → string;              (* Display of an io::Error *)
  read_order : list bytes → list bytes;         (* the order read_dir lists a directory in *)
  process_id : N;                               (* std::process::id *)
  utf8_ascii b : forallb is_ascii b = true → utf8 b = true;
  read_order_perm l : read_order l ≡ₚ l
}.

(** The files of a directory by name. *)
Notation FileMap := (@gmap bytes (@list_eq_dec ascii Ascii.eq_dec)
  (@list_countable ascii Ascii.eq_dec Ascii.countable) bytes).

(** The directory, absent at first; what the next calls and clock readings will be;
    [NEXT_STORE_ID]. *)
Record Disk := mkDisk {
  dk_files : option FileMap;
  dk_fates : list Fate;
  dk_clock : list N;
  dk_next_id : Z
}.

Definition set_files (d : option FileMap) (s : Disk) : Disk :=
  mkDisk d (dk_fates s) (dk_clock s) (dk_next_id s).
Definition set_fates (l : list Fate) (s : Disk) : Disk :=
  mkDisk (dk_files s) l (dk_clock s) (dk_next_id s).

Module Files.
Section Files.
Context `{!FileSystem}.

(** The process dies. *)
Definition killed : Payload := PanicOther.

Definition next_fate : M Disk Fate := λ s,
  match dk_fates s with [] => Ret Works s | f :: l => Ret f (set_fates l s) end.

(** A call whose effect, done or not done, is [f]. *)
Definition syscall {A} (f : option FileMap → IoResult A * option FileMap) : M Disk (IoResult A) :=
  let! fate := next_fate in
  match fate with
  | Works => let! r := gets (λ s, (f (dk_files s)).1) in modify (λ s, set_files (f (dk_files s)).2 s) ;;; ret r
  | Fails _ text => ret (Err (mkIoError OtherKind text))
  | Dies done => when (0 <? done) (modify (λ s, set_files (f (dk_files s)).2 s)) ;;; panic killed
  end.

Definition io_error {A} (k : ErrorKind) : IoResult A := Err (mkIoError k (io_message k)).

Definition file_at (d : option FileMap) (name : bytes) : option bytes := fs ← d; fs !! name.

(** [fs::read]. *)
Definition fs_read (name : bytes) : M Disk (IoResult bytes) :=
  syscall (λ d, (match file_at d name with Some b => Ok b | None => io_error NotFound end, d)).

(** [fs::create_dir_all] of the backend's directory. *)
Definition create_dir_all : M Disk (IoResult unit) :=
  syscall (λ d, (Ok tt, Some (default ∅ d))).

(** [OpenOptions::new().write(true).create_new(true).open(name)]. *)
Definition create_new (name : bytes) : M Disk (IoResult unit) :=
  syscall (λ d, match d with
                | None => (io_error NotFound, d)
                | Some fs =>
                    match fs !! name with
                    | Some _ => (io_error AlreadyExists, d)
                    | None => (Ok tt, Some (<[name := []]> fs))
                    end
                end).

(** [file.write_all(value)] of a file just created: what is written of it when the
    call ends. *)
Definition write_all (name value : bytes) : M Disk (IoResult unit) :=
  let written (n : nat) := modify (λ s, set_files (insert name (take n value) <$> dk_files s) s) in
  let! fate := next_fate in
  match fate with
  | Works => written (length value) ;;; ret (Ok tt)
  | Fails done text => written done ;;; ret (Err (mkIoError OtherKind text))
  | Dies done => written done ;;; panic killed
  end.

(** [file.sync_all()]: what is on the disk after a power failure is not modelled. *)
Definition sync_all : M Disk (IoResult unit) := syscall (λ d, (Ok tt, d)).

(** [fs::rename], which replaces its target. *)
Definition rename (from to : bytes) : M Disk (IoResult unit) :=
  syscall (λ d, match file_at d from with
                | None => (io_error NotFound, d)
                | Some b => (Ok tt, (λ fs : FileMap, <[to := b]> (base.delete from fs)) <$> d)
                end).

(** [fs::hard_link], which does not. *)
Definition hard_link (from to : bytes) : M Disk (IoResult unit) :=
  syscall (λ d, match file_at d from with
                | None => (io_error NotFound, d)
                | Some b =>
                    match file_at d to with
                    | Some _ => (io_error AlreadyExists, d)
                    | None => (Ok tt, insert to b <$> d)
                    end
                end).

(** [fs::remove_file]. *)
Definition remove_file (name : bytes) : M Disk (IoResult unit) :=
  syscall (λ d, match file_at d name with
                | None => (io_error NotFound, d)
                | Some _ => (Ok tt, (λ fs : FileMap, base.delete name fs) <$> d)
                end).

(** [fs::read_dir]; reading an entry of what it returns is a call of its own. *)
Definition read_dir : M Disk (IoResult (list bytes)) :=
  syscall (λ d, (match d with
                 | None => io_error NotFound
                 | Some fs => Ok (read_order (map_to_list fs).*1)
                 end, d)).

Definition next_entry (name : bytes) : M Disk (IoResult bytes) := syscall (λ d, (Ok name, d)).

(** ** The backend *)

Record FileBackendOptions := mkFileBackendOptions { opt_namespace : string; opt_extension : string }.

Definition default_options : FileBackendOptions := mkFileBackendOptions "" ".bin".
Definition with_namespace (ns : string) (o : FileBackendOptions) : FileBackendOptions :=
  mkFileBackendOptions ns (opt_extension o).
Definition with_extension (ext : string) (o : FileBackendOptions) : FileBackendOptions :=
  mkFileBackendOptions (opt_namespace o) ext.

Record FileBackend := mkFileBackend { dir : string; namespace : string; extension : string }.

(** They accept everything. *)
Definition validate_namespace (label value : string) : StorageResult unit := Ok tt.
Definition validate_logical_key (label value : string) : StorageResult unit := Ok tt.
Definition validate_list_prefix (label value : string) : StorageResult unit := Ok tt.

Definition file_backend (path : string) (opts : FileBackendOptions) : StorageResult FileBackend :=
  let? _ := validate_namespace "fileBackend" (opt_namespace opts) in
  let? _ := validate_extension (bytes_of (opt_extension opts)) in
  Ok (mkFileBackend path (opt_namespace opts) (opt_extension opts)).

(** [.map_err(|err| StorageError::backend(format!("{label}: {err}")))]. *)
Definition io_backend (label : string) (e : IoError) : StorageError :=
  Backend (label +:+ ": " +:+ io_text e).

Definition io {A} (label : string) (m : M Disk (IoResult A)) : M Disk (StorageResult A) :=
  let! r := m in ret (map_err (io_backend label) r).

(** The clock before the epoch reads zero. *)
Definition clock_nanos : M Disk N := λ s,
  match dk_clock s with
  | [] => Ret 0%N s
  | n :: l => Ret n (mkDisk (dk_files s) (dk_fates s) l (dk_next_id s))
  end.

(** [NEXT_STORE_ID.fetch_add(1)]. *)
Definition next_store_id : M Disk Z := λ s,
  Ret (dk_next_id s) (mkDisk (dk_files s) (dk_fates s) (dk_clock s) ((dk_next_id s + 1) mod 2 ^ 64)%Z).

(** [.{file_name}.{pid}.{nanos}.{id}.tmp]. *)
Definition temp_name (file_name : bytes) (nanos : N) (id : Z) : bytes :=
  bytes_of "." ++ file_name ++ bytes_of "." ++ dec_of_N process_id ++ bytes_of "." ++ dec_of_N nanos
    ++ bytes_of "." ++ dec_of_Z id ++ bytes_of ".tmp".

Definition temp_file_path (file_name : bytes) : M Disk bytes :=
  let! nanos := clock_nanos in
  let! id := next_store_id in
  ret (temp_name file_name nanos id).

(** [file.write_all(value).and_then(|_| file.sync_all())]. *)
Definition write_and_sync (tmp value : bytes) : M Disk (IoResult unit) :=
  let!? _ := write_all tmp value in sync_all.

(** The loop of [write_temp_file] with [n] passes left. *)
Fixpoint write_temp_loop (n : nat) (file_name value : bytes) (label : string) :
    M Disk (StorageResult bytes) :=
  match n with
  | 0 => ret (Err (Backend (label +:+ ": could not allocate a unique temporary file")))
  | S n =>
      let! tmp := temp_file_path file_name in
      let! opened := create_new tmp in
      match opened with
      | Err (mkIoError AlreadyExists _) => write_temp_loop n file_name value label
      | Err error => ret (Err (io_backend label error))
      | Ok _ =>
          let! written := write_and_sync tmp value in
          match written with
          | Err error => remove_file tmp ;;; ret (Err (io_backend label error))
          | Ok _ => ret (Ok tmp)
          end
      end
  end.

Definition write_temp_file (file_name value : bytes) (label : string) : M Disk (StorageResult bytes) :=
  write_temp_loop 16 file_name value label.

Section Backend.
Context `{!TupleText} (b : FileBackend).

Definition storage_key (key : string) : StorageResult string :=
  let? _ := validate_logical_key "fileBackend" key in
  Ok (storage_physical_key (namespace b) key).

(** The name of the file of a key in the directory; it is ASCII without a
    separator, so [file_name] and [to_str] of the path give it back. *)
Definition path_for (key : string) : StorageResult bytes :=
  let? key := storage_key key in
  Ok (bytes_of "k-" ++ key_to_file_stem (bytes_of key) ++ bytes_of (extension b)).

Definition get (key : string) : M Disk (StorageResult (option bytes)) :=
  let!? path := ret (path_for key) in
  let! r := fs_read path in
  ret match r with
      | Ok bytes => Ok (Some bytes)
      | Err (mkIoError NotFound _) => Ok None
      | Err error => Err (io_backend "fileBackend.get" error)
      end.

Definition put (key : string) (value : bytes) : M Disk (StorageResult unit) :=
  let!? _ := io "fileBackend.put" create_dir_all in
  let!? file_path := ret (path_for key) in
  let!? tmp := write_temp_file file_path value "fileBackend.put" in
  let! renamed := rename tmp file_path in
  match renamed with
  | Err error => remove_file tmp ;;; ret (Err (io_backend "fileBackend.put" error))
  | Ok _ => ret (Ok tt)
  end.

Definition put_if_absent (key : string) (value : bytes) : M Disk (StorageResult bool) :=
  let!? _ := io "fileBackend.put_if_absent" create_dir_all in
  let!? file_path := ret (path_for key) in
  let!? tmp := write_temp_file file_path value "fileBackend.put_if_absent" in
  let! linked := hard_link tmp file_path in
  remove_file tmp ;;;
  ret match linked with
      | Ok _ => Ok true
      | Err (mkIoError AlreadyExists _) => Ok false
      | Err error => Err (io_backend "fileBackend.put_if_absent" error)
      end.

Definition delete (key : string) : M Disk (StorageResult unit) :=
  let!? path := ret (path_for key) in
  let! r := remove_file path in
  ret match r with
      | Ok _ => Ok tt
      | Err (mkIoError NotFound _) => Ok tt
      | Err error => Err (io_backend "fileBackend.delete" error)
      end.

(** The loop over the entries. *)
Fixpoint list_entries (entries : Datatypes.list bytes) (prefix : string) :
    M Disk (StorageResult (Datatypes.list string)) :=
  match entries with
  | [] => ret (Ok [])
  | entry :: entries =>
      let!? filename := io "fileBackend.list" (next_entry entry) in
      if negb (utf8 filename) then list_entries entries prefix else
      let!? key := ret (key_from_filename utf8 (namespace b) (bytes_of (extension b)) filename) in
      let!? keys := list_entries entries prefix in
      ret (Ok match key with
              | Some key => if has_prefix prefix key then key :: keys else keys
              | None => keys
              end)
  end.

Definition list (prefix : string) : M Disk (StorageResult (Datatypes.list string)) :=
  let!? _ := ret (validate_list_prefix "fileBackend" prefix) in
  let! r := read_dir in
  match r with
  | Err (mkIoError NotFound _) => ret (Ok [])
  | Err error => ret (Err (io_backend "fileBackend.list" error))
  | Ok entries =>
      let!? keys := list_entries entries prefix in
      ret (Ok (sort_by String.compare keys))
  end.

Definition backend : ByteStorageBackend Disk := mkByteStorageBackend get put put_if_absent delete list.
End Backend.
End Files.
End Files.

(** ** Codec-backed tiers *)

(** [Codec<T>]. *)
Class Codec (T : Type) := {
  codec_encode : T → JsonCodecResult bytes;
  codec_decode : bytes → JsonCodecResult T
}.

(** The default bodies of the versioned half of [KvStorageTier]. *)
Definition kv_get_versioned_default {S T} (key : string) : M S (StorageResult (KvVersionedRead T)) :=
  ret (Err (Unsupported "kvStorage" "versioned get/set-if-match")).
Definition kv_set_if_match_default {S T} (key : string) (value : T) (generation : KvGeneration) :
    M S (StorageResult bool) :=
  ret (Err (Unsupported "kvStorage" "versioned get/set-if-match")).

Module CodecKv.
Section CodecKv.
Context {S T : Type} `{!Codec T} (backend : ByteStorageBackend S).

Definition get (key : string) : M S (StorageResult (option T)) :=
  let!? found := bs_get backend key in
  ret match found with
      | None => Ok None
      | Some bytes => let? v := map_err storage_json_error (codec_decode bytes) in Ok (Some v)
      end.

Definition set (key : string) (value : T) : M S (StorageResult unit) :=
  let!? bytes := ret (map_err storage_json_error (codec_encode value)) in
  bs_put backend key bytes.

Definition put_if_absent (key : string) (value : T) : M S (StorageResult bool) :=
  let!? bytes := ret (map_err storage_json_error (codec_encode value)) in
  bs_put_if_absent backend key bytes.

Definition delete (key : string) : M S (StorageResult unit) := bs_delete backend key.
Definition list (prefix : string) : M S (StorageResult (list string)) := bs_list backend prefix.

(** [codec_kv_storage(backend, codec)]. *)
Definition codec_kv_storage : KvStorageTier S T :=
  mkKvStorageTier get set put_if_absent delete list false kv_get_versioned_default kv_set_if_match_default.
End CodecKv.
End CodecKv.

Section FileTiers.
Context `{!FileSystem, !TupleText} {T : Type} `{!Codec T}.

Definition file_kv (path : string) (opts : Files.FileBackendOptions) : StorageResult (KvStorageTier Disk T) :=
  let? b := Files.file_backend path opts in
  Ok (CodecKv.codec_kv_storage (Files.backend b)).

Record FileAppendLogOptions := mkFileAppendLogOptions {
  log_backend : Files.FileBackendOptions;
  log_prefix : string
}.

Definition default_log_options : FileAppendLogOptions := mkFileAppendLogOptions Files.default_options "event-log".
Definition with_backend (o : Files.FileBackendOptions) (l : FileAppendLogOptions) : FileAppendLogOptions :=
  mkFileAppendLogOptions o (log_prefix l).
Definition with_prefix (prefix : string) (l : FileAppendLogOptions) : FileAppendLogOptions :=
  mkFileAppendLogOptions (log_backend l) prefix.

(** The tier and the prefix the log of [AppendLog] works on. *)
Definition file_append_log (path : string) (opts : FileAppendLogOptions) :
    StorageResult (KvStorageTier Disk T * string) :=
  let? kv := file_kv path (log_backend opts) in
  Ok (kv, log_prefix opts).
End FileTiers.
