(* ===== verification/FileBackendFacts.v ===== *)
(** * Facts about the file backend

    Backends of several namespaces work in one directory.  Their operations are
    atomic and survive a crash: whatever calls of the file system fail and
    wherever the process dies, each operation has either happened whole or not at
    all, an answer says that it has and an error that it has not, and the files
    are those of one map from namespaces and keys to contents ([explains]). *)

From Stdlib Require Import Ascii String Sorted.
From stdpp Require Import base gmap list option numbers strings.
From S2P Require Import Prelude.
From S2P Require Import BTree.
From S2P Require Import Text.
From S2P Require Import Json.
From S2P Require Import Storage.
From S2P Require Import StorageFacts.
From S2P Require Import CollectionStorage.
From S2P Require Import FileBackend.

Import Files.

Local Open Scope rx_scope.

(** What a directory holds: namespace and key to content. *)
Notation Contents := (@gmap (string * string) (@prod_eq_dec string String.eq_dec string String.eq_dec)
  (@prod_countable string String.eq_dec String.countable string String.eq_dec String.countable) bytes).

Lemma sort_strings_sorted l : StronglySorted (cmp_le String.compare) (sort_by String.compare l).
Proof.
  apply sort_by_sorted; [intros a b; apply String.compare_antisym|]. unfold cmp_le. intros a b c Hab Hbc.
  destruct (String.compare a b) eqn:E1; [|destruct (String.compare b c) eqn:E2|done]; [| | |done].
  - apply String.compare_eq_iff in E1. by subst.
  - apply String.compare_eq_iff in E2. subst. by rewrite E1.
  - by rewrite (string_compare_trans _ _ _ E1 E2).
Qed.

(** ** Judgements on the files of a disk

    [ends m d Q E]: from the files [d], whatever the fates, [m] returns in [Q] or
    the process dies in [E]. *)
Section Ends.
Context `{!FileSystem}.

Definition ends {A} (m : M Disk A) (d : option FileMap) (Q : A → option FileMap → Prop)
    (E : option FileMap → Prop) : Prop :=
  ∀ s, dk_files s = d →
  match m s with
  | Ret a s' => Q a (dk_files s')
  | Unwind p s' => p = killed ∧ E (dk_files s')
  | OutOfFuel => False
  end.

Lemma ends_return {A} (a : A) (d : option FileMap) (Q : A → option FileMap → Prop) E : Q a d → ends (ret a) d Q E.
Proof. intros HQ s Hs. simpl. by rewrite Hs. Qed.

Lemma ends_bind {A B} (m : M Disk A) (k : A → M Disk B) (d : option FileMap) Q R E E' :
  ends m d R E' → (∀ d', E' d' → E d') → (∀ a d', R a d' → ends (k a) d' Q E) →
  ends (bind m k) d Q E.
Proof.
  intros Hm HE Hk s Hs. specialize (Hm s Hs). unfold bind. destruct (m s) as [a s'|p s'|]; [|naive_solver|done].
  by apply (Hk a (dk_files s') Hm).
Qed.

Lemma ends_conseq {A} (m : M Disk A) (d : option FileMap) Q Q' E E' :
  ends m d Q E → (∀ a d', Q a d' → Q' a d') → (∀ d', E d' → E' d') → ends m d Q' E'.
Proof. intros Hm HQ HE s Hs. specialize (Hm s Hs). destruct (m s); naive_solver. Qed.

Lemma ends_mrbind {X A B} (m : M Disk (Result X A)) (k : A → M Disk (Result X B)) (d : option FileMap) Q R E E' :
  ends m d R E' → (∀ d', E' d' → E d') → (∀ e d', R (Err e) d' → Q (Err e) d') →
  (∀ a d', R (Ok a) d' → ends (k a) d' Q E) → ends (mrbind m k) d Q E.
Proof.
  intros Hm HE Herr Hk. unfold mrbind. eapply ends_bind; [exact Hm|exact HE|].
  intros [a|e] d' HR; [by apply Hk|]. apply ends_return. by apply Herr.
Qed.

Lemma next_fate_ends (d : option FileMap) (Q : Fate → option FileMap → Prop) E : (∀ f, Q f d) → ends next_fate d Q E.
Proof. intros HQ s Hs. unfold next_fate. destruct (dk_fates s); simpl; rewrite Hs; apply HQ. Qed.

(** A call is done, fails without an effect, or the process dies before or after it. *)
Lemma syscall_ends {A} (f : option FileMap → IoResult A * option FileMap) (d : option FileMap)
    (Q : IoResult A → option FileMap → Prop) (E : option FileMap → Prop) :
  Q (f d).1 (f d).2 → (∀ text, Q (Err (mkIoError OtherKind text)) d) → E d → E (f d).2 →
  ends (syscall f) d Q E.
Proof.
  intros HQ Hf Hd Hd'. unfold syscall. eapply ends_bind with (R := λ _ d', d' = d) (E' := E); [by apply next_fate_ends|done|].
  intros fate ? -> s Hs. destruct fate as [|n text|n]; simpl.
  - unfold bind, gets, modify. simpl. by rewrite Hs.
  - rewrite Hs. apply Hf.
  - unfold bind, when, panic, modify, ret. destruct (0 <? n); simpl; rewrite Hs; done.
Qed.

Lemma syscall_bind {A B} (f : option FileMap → IoResult A * option FileMap) (k : IoResult A → M Disk B)
    (d : option FileMap) Q E :
  ends (k (f d).1) (f d).2 Q E → (∀ text, ends (k (Err (mkIoError OtherKind text))) d Q E) → E d →
  E (f d).2 → ends (bind (syscall f) k) d Q E.
Proof.
  intros H1 H2 H3 H4. eapply ends_bind with (R := λ r d', ends (k r) d' Q E) (E' := E); [|done..].
  by apply syscall_ends.
Qed.

Lemma ends_ok {X A B} (a : A) (k : A → M Disk (Result X B)) d Q E :
  ends (k a) d Q E → ends (mrbind (ret (Ok a)) k) d Q E.
Proof. done. Qed.

Lemma io_ends {A} label (m : M Disk (IoResult A)) (d : option FileMap) (Q : StorageResult A → option FileMap → Prop) E :
  ends m d (λ r, Q (map_err (io_backend label) r)) E → ends (io label m) d Q E.
Proof. intros Hm. unfold io. eapply ends_bind; [exact Hm|done|]. intros r d' HQ. by apply ends_return. Qed.

(** ** What a backend sees

    The temporary files begin with a dot; the files of keys do not. *)
Definition visible (f : bytes) : Prop := starts_with (bytes_of ".") f = false.

Definition same_visible (d d' : option FileMap) : Prop := ∀ f, visible f → file_at d' f = file_at d f.

Definition updated (f : bytes) (o : option bytes) (d d' : option FileMap) : Prop :=
  ∀ g, visible g → file_at d' g = if decide (g = f) then o else file_at d g.

#[export] Instance same_visible_preorder : PreOrder same_visible.
Proof. split; [done|]. intros d1 d2 d3 H12 H23 f Hf. by rewrite H23, H12. Qed.

Lemma updated_after f o (d1 d2 d3 : option FileMap) : same_visible d1 d2 → updated f o d2 d3 → updated f o d1 d3.
Proof. intros H12 H23 g Hg. by rewrite H23, H12. Qed.

Lemma same_updated f o (d1 d2 d3 : option FileMap) : updated f o d1 d2 → same_visible d2 d3 → updated f o d1 d3.
Proof. intros H12 H23 g Hg. by rewrite H23, H12. Qed.

Lemma file_at_insert g (v : bytes) (d : option FileMap) f :
  is_Some d → file_at (insert g v <$> d) f = if decide (f = g) then Some v else file_at d f.
Proof.
  intros [fs ->]. unfold file_at. simpl. case_decide as Hf.
  - subst. by rewrite lookup_insert_eq.
  - by rewrite lookup_insert_ne.
Qed.

Lemma file_at_delete g (d : option FileMap) f :
  file_at ((λ fs : FileMap, base.delete g fs) <$> d) f = if decide (f = g) then None else file_at d f.
Proof.
  destruct d as [fs|]; simpl; [|by case_decide]. case_decide as Hf.
  - subst. by rewrite lookup_delete_eq.
  - by rewrite lookup_delete_ne.
Qed.

Lemma file_at_is_Some (d : option FileMap) f v : file_at d f = Some v → is_Some d.
Proof. destruct d; [by eexists|done]. Qed.

Lemma temp_hidden f nanos id : ¬ visible (temp_name f nanos id).
Proof. done. Qed.

Lemma hidden_ne f g : visible f → ¬ visible g → f ≠ g.
Proof. by intros Hf Hg ->. Qed.

Lemma remove_temp_ends tmp (d : option FileMap) :
  ¬ visible tmp → ends (remove_file tmp) d (λ _, same_visible d) (same_visible d).
Proof.
  intros Ht. assert (same_visible d ((λ fs : FileMap, base.delete tmp fs) <$> d)) as Hdel.
  { intros f Hf. rewrite file_at_delete, decide_False by by apply hidden_ne. done. }
  unfold remove_file. apply syscall_ends; try done; by destruct (file_at d tmp).
Qed.

Lemma create_dir_all_ends (d : option FileMap) :
  ends create_dir_all d (λ r d', same_visible d d' ∧ (r = Ok tt → is_Some d')) (same_visible d).
Proof.
  assert (same_visible d (Some (default ∅ d))) as Hs by (intros f _; by destruct d).
  unfold create_dir_all. apply syscall_ends; simpl; [by eauto|done..|done].
Qed.

(** *** Temporary files *)

Lemma create_new_ends tmp (d : option FileMap) :
  ¬ visible tmp →
  ends (create_new tmp) d (λ r d', same_visible d d' ∧ (r = Ok tt → is_Some d')) (same_visible d).
Proof.
  intros Ht. unfold create_new.
  assert (∀ fs : FileMap, same_visible (Some fs) (Some (<[tmp := []]> fs))) as Hi.
  { intros fs f Hf. simpl. rewrite lookup_insert_ne; [done|]. by apply not_eq_sym, hidden_ne. }
  apply syscall_ends; destruct d as [fs|]; simpl; try done; destruct (fs !! tmp); simpl; try done; by eauto.
Qed.

Lemma write_ends tmp v (d : option FileMap) :
  ¬ visible tmp → is_Some d →
  ends (write_and_sync tmp v) d
    (λ r d', same_visible d d' ∧ (r = Ok tt → file_at d' tmp = Some v)) (same_visible d).
Proof.
  intros Ht Hd. assert (∀ n, same_visible d (insert tmp (take n v) <$> d)) as Hw.
  { intros n f Hf. rewrite file_at_insert, decide_False by (done || by apply hidden_ne). done. }
  unfold write_and_sync.
  eapply ends_mrbind with (R := λ r d', same_visible d d' ∧ (r = Ok tt → file_at d' tmp = Some v))
    (E' := same_visible d); [|done|by intros e d' [Hs _]|].
  - unfold write_all. eapply ends_bind with (R := λ _ d', d' = d); [by apply next_fate_ends|done|].
    intros fate ? -> s Hs. destruct fate; unfold bind, modify; simpl; rewrite Hs; [|by auto..].
    split; [apply Hw|]. intros _. rewrite file_at_insert, decide_True, firstn_all by done. done.
  - intros [] d' [Hs Ha]. unfold sync_all. apply syscall_ends; simpl; try done; by auto.
Qed.

Lemma write_temp_ends n f v label (d : option FileMap) :
  ends (write_temp_loop n f v label) d
    (λ r d', same_visible d d' ∧ ∀ tmp, r = Ok tmp → ¬ visible tmp ∧ file_at d' tmp = Some v)
    (same_visible d).
Proof.
  revert d. induction n as [|n IH]; intros d; [by apply ends_return|]. cbn [write_temp_loop].
  eapply ends_bind with (R := λ tmp d', ¬ visible tmp ∧ d' = d) (E' := same_visible d); [|done|].
  { intros s Hs. unfold temp_file_path, bind, clock_nanos, next_store_id, ret.
    destruct (dk_clock s); simpl; by rewrite Hs. }
  intros tmp ? [Ht ->]. eapply ends_bind; [by apply create_new_ends|done|].
  intros [[]|[k text]] d' [Hs Hd].
  - eapply ends_bind; [apply write_ends; [done|by apply Hd]|intros d'' H''; by etrans|].
    intros [[]|e] d'' [Hs' Ha].
    + apply ends_return. split; [by etrans|]. intros ? [= <-]. by auto.
    + eapply ends_bind; [by apply remove_temp_ends|intros d3 H3; etrans; [|exact H3]; by etrans|].
      intros r d3 H3. apply ends_return. split; [|done]. etrans; [|exact H3]. by etrans.
  - destruct k; [by apply ends_return| |by apply ends_return].
    eapply ends_conseq; [apply IH| |]; simpl.
    + intros r d'' [H'' Hr]. split; [by etrans|done].
    + intros d'' H''. by etrans.
Qed.
End Ends.

(** ** The operations, one by one *)
Section Backend.
Context `{!FileSystem, !TupleText} (path ext : string).

Notation backend_of ns := (mkFileBackend path ns ext).
Notation name ns k := (file_name ns (bytes_of ext) k).

(** The keys that are Rust strings. *)
Definition key_ok (ns k : string) : Prop := utf8 (bytes_of (storage_physical_key ns k)) = true.

Lemma path_for_name ns k : path_for (backend_of ns) k = Ok (name ns k).
Proof. done. Qed.

Lemma name_visible ns k : visible (name ns k).
Proof. done. Qed.

Lemma name_utf8 ns k : forallb is_ascii (bytes_of ext) = true → utf8 (name ns k) = true.
Proof.
  intros He. apply utf8_ascii. unfold file_name. rewrite !forallb_app, He, andb_true_r.
  apply andb_true_iff. split; [done|].
  induction (bytes_of (storage_physical_key ns k)) as [|c l IH]; [done|].
  change (key_to_file_stem (c :: l)) with (stem_char c ++ key_to_file_stem l).
  rewrite forallb_app, IH, andb_true_r. by destruct c as [[] [] [] [] [] [] [] []].
Qed.

Lemma name_inj ns k ns' k' : key_ok ns k → key_ok ns' k' → name ns k = name ns' k' → ns = ns' ∧ k = k'.
Proof.
  intros Hk Hk' He. pose proof (file_name_round_trip utf8 ns ns (bytes_of ext) k Hk) as H1.
  rewrite He, file_name_round_trip, (decide_True (P := ns = ns)) in H1 by done. by case_decide; simplify_eq.
Qed.

Lemma get_ends ns k d :
  ends (get (backend_of ns) k) d (λ r d', d' = d ∧ ∀ o, r = Ok o → o = file_at d (name ns k)) (eq d).
Proof.
  unfold get. rewrite path_for_name. apply ends_ok. unfold fs_read. apply syscall_bind; simpl; [| |done..].
  - apply ends_return. split; [done|]. intros o. by destruct (file_at d (name ns k)); intros [= <-].
  - intros text. by apply ends_return.
Qed.

(** The write of a value through a temporary file, up to the call that makes it
    visible. *)
Lemma staged_ends {A} label ns k v d (last : bytes → M Disk (StorageResult A)) Q E :
  (∀ tmp d', same_visible d d' → ¬ visible tmp → file_at d' tmp = Some v → ends (last tmp) d' Q E) →
  (∀ e d', same_visible d d' → Q (Err e) d') → (∀ d', same_visible d d' → E d') →
  ends (mrbind (io label create_dir_all) (λ _, mrbind (write_temp_file (name ns k) v label) last)) d Q E.
Proof.
  intros Hlast Herr HE. eapply ends_mrbind with (R := λ _ d', same_visible d d') (E' := same_visible d).
  - apply io_ends. eapply ends_conseq; [apply create_dir_all_ends|by intros r d' [? _]|done].
  - done.
  - intros e d' Hd. by apply Herr.
  - intros _ d' Hd. eapply ends_mrbind; [apply write_temp_ends|..].
    + intros d'' H''. apply HE. by etrans.
    + intros e d'' [H'' _]. apply Herr. by etrans.
    + intros tmp d'' [H'' Ht]. destruct (Ht tmp eq_refl). apply Hlast; [by etrans|done..].
Qed.

Lemma put_ends ns k v d :
  ends (put (backend_of ns) k v) d
    (λ r d', match r with Ok _ => updated (name ns k) (Some v) d d' | Err _ => same_visible d d' end)
    (λ d', same_visible d d' ∨ updated (name ns k) (Some v) d d').
Proof.
  unfold put. rewrite path_for_name. apply (staged_ends "fileBackend.put" ns k); [|done|by auto].
  intros tmp d' Hd Ht Ha. unfold rename.
  assert (updated (name ns k) (Some v) d (insert (name ns k) v <$> ((λ fs : FileMap, base.delete tmp fs) <$> d'))) as Hu.
  { intros f Hf. rewrite file_at_insert, file_at_delete by (rewrite fmap_is_Some; by eapply file_at_is_Some).
    rewrite (decide_False (P := f = tmp)) by by apply hidden_ne. case_decide; [done|by apply Hd]. }
  rewrite <-option_fmap_compose in Hu.
  apply syscall_bind; cbn beta; rewrite ?Ha; cbn [fst snd]; [by apply ends_return| |by auto..].
  intros text. eapply ends_bind; [by apply remove_temp_ends|intros d2 H2; left; by etrans|].
  intros r d2 H2. apply ends_return. by etrans.
Qed.

Lemma put_if_absent_ends ns k v d :
  ends (put_if_absent (backend_of ns) k v) d
    (λ r d', match r with
             | Ok true => file_at d (name ns k) = None ∧ updated (name ns k) (Some v) d d'
             | Ok false => is_Some (file_at d (name ns k)) ∧ same_visible d d'
             | Err _ => same_visible d d'
             end)
    (λ d', same_visible d d' ∨ file_at d (name ns k) = None ∧ updated (name ns k) (Some v) d d').
Proof.
  unfold put_if_absent. rewrite path_for_name. apply (staged_ends "fileBackend.put_if_absent" ns k); [|done|by auto].
  intros tmp d' Hd Ht Ha. unfold hard_link.
  assert (updated (name ns k) (Some v) d (insert (name ns k) v <$> d')) as Hu.
  { intros f Hf. rewrite file_at_insert by by eapply file_at_is_Some. case_decide; [done|by apply Hd]. }
  pose proof (Hd _ (name_visible ns k)) as Hn. rewrite <-Hn in *.
  apply syscall_bind; cbn beta; rewrite ?Ha; [| |by auto|].
  - destruct (file_at d' (name ns k)) eqn:Hp; cbn [fst snd].
    + eapply ends_bind; [by apply remove_temp_ends|intros d2 H2; left; by etrans|].
      intros r d2 H2. apply ends_return. split; [done|by etrans].
    + eapply ends_bind; [by apply remove_temp_ends|intros d2 H2; right; split; [done|by eapply same_updated]|].
      intros r d2 H2. apply ends_return. split; [done|by eapply same_updated].
  - intros text. eapply ends_bind; [by apply remove_temp_ends|intros d2 H2; left; by etrans|].
    intros r d2 H2. apply ends_return. by etrans.
  - destruct (file_at d' (name ns k)) eqn:Hp; cbn [fst snd]; auto.
Qed.

Lemma delete_ends ns k d :
  ends (delete (backend_of ns) k) d
    (λ r d', match r with Ok _ => updated (name ns k) None d d' | Err _ => d' = d end)
    (λ d', d' = d ∨ updated (name ns k) None d d').
Proof.
  unfold delete. rewrite path_for_name. apply ends_ok. unfold remove_file.
  assert (updated (name ns k) None d ((λ fs : FileMap, base.delete (name ns k) fs) <$> d)) as Hu.
  { intros f Hf. by rewrite file_at_delete. }
  apply syscall_bind; cbn beta; [|by intros text; apply ends_return|by auto|].
  - destruct (file_at d (name ns k)) eqn:Hp; apply ends_return; [done|].
    intros f Hf. cbn [snd]. case_decide as Hn; [by rewrite Hn|done].
  - destruct (file_at d (name ns k)); cbn [snd]; auto.
Qed.

(** *** Listing *)
Definition decoded (ns prefix : string) (f : bytes) : option string :=
  if utf8 f then
    match key_from_filename utf8 ns (bytes_of ext) f with
    | Ok (Some k) => if has_prefix prefix k then Some k else None
    | _ => None
    end
  else None.

Lemma list_entries_ends ns prefix fs d :
  ends (list_entries (backend_of ns) fs prefix) d
    (λ r d', d' = d ∧ ∀ l, r = Ok l → l = omap (decoded ns prefix) fs) (eq d).
Proof.
  induction fs as [|f fs IH]; [by apply ends_return; split; [|intros l [= <-]]|]. cbn [list_entries].
  eapply ends_mrbind with (R := λ r d', d' = d ∧ (∀ g, r = Ok g → g = f)) (E' := eq d); [|done|by intros e ? [-> _]|].
  { apply io_ends. unfold next_entry. apply syscall_ends; simpl; try done. split; [done|]. by intros g [= <-]. }
  intros g ? [-> Hg]. rewrite (Hg g eq_refl). clear g Hg.
  assert (omap (decoded ns prefix) (f :: fs)
          = match decoded ns prefix f with Some k => k :: omap (decoded ns prefix) fs | None => omap (decoded ns prefix) fs end) as ->
    by done.
  unfold decoded at 1. destruct (utf8 f) eqn:Hu; cbn [negb]; [|exact IH].
  simpl namespace. simpl extension. destruct (key_from_filename utf8 ns (bytes_of ext) f) as [o|e]; [|by apply ends_return].
  apply ends_ok. eapply ends_mrbind; [exact IH|done|by intros e d' [-> _]|].
  intros l d' [-> Hl]. rewrite (Hl l eq_refl). apply ends_return. split; [done|]. intros ? [= <-].
  destruct o as [k|]; [|done]. by destruct (has_prefix prefix k).
Qed.

(** ** One directory is one map *)


Record represents (d : option FileMap) (m : Contents) : Prop := mkRepresents {
  rep_file ns k : key_ok ns k → file_at d (name ns k) = m !! (ns, k);
  rep_keys ns k : is_Some (m !! (ns, k)) → key_ok ns k;
  rep_names ns f :
    is_Some (file_at d f) → visible f → utf8 f = true →
    key_from_filename utf8 ns (bytes_of ext) f = Ok None ∨ ∃ k, key_ok ns k ∧ f = name ns k
}.

Lemma represents_empty : represents None ∅.
Proof. split; [done|by intros ns k []|by intros ns f []]. Qed.

Lemma represents_same d d' m : represents d m → same_visible d d' → represents d' m.
Proof.
  intros [H1 H2 H3] Hs. split; [|done|].
  - intros ns k Hk. rewrite Hs by apply name_visible. by apply H1.
  - intros ns f Hf Hv. rewrite Hs in Hf by done. by apply H3.
Qed.

Lemma represents_updated ns k o d d' m :
  represents d m → key_ok ns k → updated (name ns k) o d d' → represents d' (partial_alter (λ _, o) (ns, k) m).
Proof.
  intros [H1 H2 H3] Hk Hu. split.
  - intros ns' k' Hk'. rewrite Hu by apply name_visible. case_decide as Hn.
    + apply name_inj in Hn as [-> ->]; [|done..]. by rewrite lookup_partial_alter_eq.
    + rewrite lookup_partial_alter_ne; [by apply H1|]. intros [= <- <-]. done.
  - intros ns' k'. destruct (decide ((ns, k) = (ns', k'))) as [[= <- <-]|Hn]; [done|].
    rewrite lookup_partial_alter_ne by done. apply H2.
  - intros ns' f Hf Hv Hu8. rewrite Hu in Hf by done. case_decide as Hn; [|by apply H3]. subst f.
    rewrite file_name_round_trip by done. case_decide; [|by left]. subst ns'. right. by exists k.
Qed.

Hypothesis Hext : validate_extension (bytes_of ext) = Ok tt.

Lemma ext_ascii : forallb is_ascii (bytes_of ext) = true.
Proof.
  unfold validate_extension in Hext. case_match eqn:Hv; [|done].
  apply andb_true_iff in Hv as [_ Hv]. rewrite forallb_forall in *. intros c Hc. specialize (Hv c Hc).
  revert Hv. by destruct c as [[] [] [] [] [] [] [] []].
Qed.

Lemma decoded_name ns prefix k : key_ok ns k → decoded ns prefix (name ns k) = if has_prefix prefix k then Some k else None.
Proof. intros Hk. unfold decoded. by rewrite name_utf8, file_name_round_trip, decide_True by (done || apply ext_ascii). Qed.

Lemma decoded_inv d m ns prefix f k :
  represents d m → is_Some (file_at d f) → decoded ns prefix f = Some k →
  key_ok ns k ∧ f = name ns k ∧ has_prefix prefix k = true.
Proof.
  intros [_ _ H3] Hf Hd. assert (visible f) as Hv.
  { unfold visible. destruct (starts_with (bytes_of ".") f) eqn:Hs; [|done].
    revert Hd. unfold decoded, key_from_filename. rewrite Hs. by destruct (utf8 f). }
  assert (utf8 f = true) as Hu by (revert Hd; unfold decoded; by destruct (utf8 f)).
  destruct (H3 ns f Hf Hv Hu) as [Hn|(k' & Hk & ->)].
  - revert Hd. unfold decoded. by rewrite Hu, Hn.
  - rewrite decoded_name in Hd by done. destruct (has_prefix prefix k') eqn:Hp; by simplify_eq.
Qed.

(** The answer of a listing. *)
Definition keys_of (m : Contents) (ns prefix : string) (l : Datatypes.list string) : Prop :=
  NoDup l ∧ StronglySorted (cmp_le String.compare) l ∧
  ∀ k, k ∈ l ↔ is_Some (m !! (ns, k)) ∧ has_prefix prefix k = true.

Lemma decoded_keys (fs : FileMap) m ns prefix names :
  represents (Some fs) m → names ≡ₚ (map_to_list fs).*1 →
  NoDup (omap (decoded ns prefix) names) ∧
  ∀ k, k ∈ omap (decoded ns prefix) names ↔ is_Some (m !! (ns, k)) ∧ has_prefix prefix k = true.
Proof.
  intros Hr Hp.
  assert (∀ f, f ∈ names ↔ is_Some (file_at (Some fs) f)) as Hin.
  { intros f. rewrite Hp, list_elem_of_fmap. simpl. split.
    - intros ([g v] & -> & Hg%elem_of_map_to_list). by eexists.
    - intros [v Hv]. exists (f, v). by rewrite elem_of_map_to_list. }
  split.
  - assert (NoDup names) as Hnd by (rewrite Hp; apply NoDup_fst_map_to_list).
    assert (∀ f, f ∈ names → is_Some (file_at (Some fs) f)) as Hsub by (intros f Hf; by apply Hin).
    clear Hin Hp. induction Hnd as [|f names Hf Hnd IH]; [constructor|]. simpl.
    destruct (decoded ns prefix f) as [k|] eqn:Hk; [|apply IH; intros g Hg; apply Hsub; by right].
    constructor; [|apply IH; intros g Hg; apply Hsub; by right].
    intros (g & Hg & Hgk)%list_elem_of_omap.
    apply (decoded_inv (Some fs) m) in Hk as (_ & -> & _); [|done|apply Hsub; by left].
    apply (decoded_inv (Some fs) m) in Hgk as (_ & -> & _); [|done|apply Hsub; by right]. done.
  - intros k. rewrite list_elem_of_omap. split.
    + intros (f & Hf & Hk). apply Hin in Hf. apply (decoded_inv (Some fs) m) in Hk as (Hk & -> & Hpk); [|done..].
      split; [|done]. by rewrite <-(rep_file _ _ Hr).
    + intros [Hm Hpk]. pose proof (rep_keys _ _ Hr _ _ Hm) as Hk. exists (name ns k). split.
      * apply Hin. by rewrite (rep_file _ _ Hr).
      * rewrite decoded_name, Hpk by done. done.
Qed.

Lemma list_ends ns prefix d m :
  represents d m →
  ends (list (backend_of ns) prefix) d (λ r d', d' = d ∧ ∀ l, r = Ok l → keys_of m ns prefix l) (eq d).
Proof.
  intros Hr. unfold list. apply ends_ok. unfold read_dir. apply syscall_bind; cbn beta; cbn [fst snd]; [| |done..].
  - destruct d as [fs|]; cbn.
    + eapply ends_mrbind; [apply list_entries_ends|done|by intros e d' [-> _]|].
      intros l d' [-> Hl]. rewrite (Hl l eq_refl). apply ends_return. split; [done|]. intros ? [= <-].
      destruct (decoded_keys fs m ns prefix _ Hr (read_order_perm _)) as [Hnd Hk].
      split_and!; [by rewrite sort_by_perm|apply sort_strings_sorted|]. intros k. by rewrite sort_by_perm.
    + apply ends_return. split; [done|]. intros ? [= <-]. split_and!; [constructor..|].
      intros k. split; [by intros []%elem_of_nil|]. intros [Hm _].
      rewrite <-(rep_file _ _ Hr) in Hm by by eapply rep_keys. by destruct Hm.
  - intros text. by apply ends_return.
Qed.

(** *** All of them *)

Inductive BkOp :=
| OpGet (ns k : string)
| OpPut (ns k : string) (v : bytes)
| OpPutIfAbsent (ns k : string) (v : bytes)
| OpDelete (ns k : string)
| OpList (ns prefix : string).

Inductive BkAnswer :=
| AValue (o : option bytes)
| ADone
| AStored (b : bool)
| AKeys (l : Datatypes.list string).

Definition op_ok (op : BkOp) : Prop :=
  match op with
  | OpGet ns k | OpPut ns k _ | OpPutIfAbsent ns k _ | OpDelete ns k => key_ok ns k
  | OpList _ _ => True
  end.

Definition bk_run (op : BkOp) : M Disk (StorageResult BkAnswer) :=
  match op with
  | OpGet ns k => let!? o := get (backend_of ns) k in ret (Ok (AValue o))
  | OpPut ns k v => let!? _ := put (backend_of ns) k v in ret (Ok ADone)
  | OpPutIfAbsent ns k v => let!? stored := put_if_absent (backend_of ns) k v in ret (Ok (AStored stored))
  | OpDelete ns k => let!? _ := delete (backend_of ns) k in ret (Ok ADone)
  | OpList ns prefix => let!? l := list (backend_of ns) prefix in ret (Ok (AKeys l))
  end.

(** The same operations of a map. *)
Definition bk_next (op : BkOp) (m : Contents) : Contents :=
  match op with
  | OpGet _ _ | OpList _ _ => m
  | OpPut ns k v => <[(ns, k) := v]> m
  | OpPutIfAbsent ns k v => match m !! (ns, k) with Some _ => m | None => <[(ns, k) := v]> m end
  | OpDelete ns k => base.delete (ns, k) m
  end.

Definition bk_answer (op : BkOp) (m : Contents) (a : BkAnswer) : Prop :=
  match op, a with
  | OpGet ns k, AValue o => o = m !! (ns, k)
  | OpPut _ _ _, ADone | OpDelete _ _, ADone => True
  | OpPutIfAbsent ns k _, AStored stored => stored = bool_decide (m !! (ns, k) = None)
  | OpList ns prefix, AKeys l => keys_of m ns prefix l
  | _, _ => False
  end.

(** An operation happens whole or not at all. *)
Lemma op_atomic op d m :
  represents d m → op_ok op →
  ends (bk_run op) d
    (λ r d', match r with
             | Ok a => bk_answer op m a ∧ represents d' (bk_next op m)
             | Err _ => represents d' m
             end)
    (λ d', represents d' m ∨ represents d' (bk_next op m)).
Proof.
  intros Hr Hk. pose proof (represents_same d) as Hs. pose proof (represents_updated) as Hu.
  destruct op as [ns k|ns k v|ns k v|ns k|ns prefix]; simpl in Hk; cbn [bk_run].
  - eapply ends_mrbind; [apply get_ends|intros d' <-; by left|by intros e d' [-> _]|].
    intros o d' [-> Ho]. apply ends_return. split; [|done]. simpl. by rewrite (Ho o eq_refl), (rep_file _ _ Hr).
  - eapply ends_mrbind; [apply put_ends|intros d' [Hc|Hc]; [left|right]| |intros [] d' Hc; apply ends_return; split; [done|]];
      [by eapply Hs|by eapply Hu|by intros e d' Hc; eapply Hs|by eapply Hu].
  - pose proof (rep_file _ _ Hr ns k Hk) as Hm.
    assert (∀ d', file_at d (name ns k) = None → updated (name ns k) (Some v) d d' →
              represents d' (bk_next (OpPutIfAbsent ns k v) m)) as Hnew.
    { intros d' Hn Hc. simpl. rewrite <-Hm, Hn. by eapply Hu. }
    eapply ends_mrbind; [apply put_if_absent_ends| | |].
    + intros d' [Hc|[Hn Hc]]; [left; by eapply Hs|right; by apply Hnew].
    + intros e d' Hc. by eapply Hs.
    + intros [] d' Hc; apply ends_return; destruct Hc as [Hn Hc]; split.
      * simpl. by rewrite <-Hm, bool_decide_eq_true_2.
      * by apply Hnew.
      * simpl. rewrite <-Hm. destruct Hn as [? ->]. by rewrite bool_decide_eq_false_2.
      * simpl. rewrite <-Hm. destruct Hn as [? ->]. by eapply Hs.
  - eapply ends_mrbind; [apply delete_ends|intros d' [->|Hc]; [by left|right; by eapply Hu]|by intros e d' ->|].
    intros [] d' Hc. apply ends_return. split; [done|]. by eapply Hu.
  - eapply ends_mrbind; [by apply list_ends|intros d' <-; by left|by intros e d' [-> _]|].
    intros l d' [-> Hl]. apply ends_return. split; [|done]. by apply Hl.
Qed.

(** ** Histories

    Operations by anyone, one after the other; after a death of the process the
    next operation is made by a new one. *)
Inductive Ended := Answered (r : StorageResult BkAnswer) | Died.

Definition bk_ended (o : Outcome Disk (StorageResult BkAnswer)) (s : Disk) : Ended * Disk :=
  match o with Ret r s' => (Answered r, s') | Unwind _ s' => (Died, s') | OutOfFuel => (Died, s) end.

Fixpoint bk_history (ops : Datatypes.list BkOp) (s : Disk) : Datatypes.list (BkOp * Ended) * Disk :=
  match ops with
  | [] => ([], s)
  | op :: ops =>
      let '(e, s') := bk_ended (bk_run op s) s in
      let '(h, s'') := bk_history ops s' in
      ((op, e) :: h, s'')
  end.

(** What a history may be over a map: answered operations have happened and give
    the map's answers, refused ones have not happened, and one the process died in
    has or has not. *)
Inductive explains : Contents → Datatypes.list (BkOp * Ended) → Contents → Prop :=
| explains_nil m : explains m [] m
| explains_ok m m' op a h :
    bk_answer op m a → explains (bk_next op m) h m' → explains m ((op, Answered (Ok a)) :: h) m'
| explains_err m m' op e h : explains m h m' → explains m ((op, Answered (Err e)) :: h) m'
| explains_lost m m' op h : explains m h m' → explains m ((op, Died) :: h) m'
| explains_kept m m' op h : explains (bk_next op m) h m' → explains m ((op, Died) :: h) m'.

(** C5: The file backend is an atomic map that survives crashes.  On one
    directory, any operations of backends of any namespaces run, whatever calls of
    the file system fail (a write half done included) and wherever processes die:
    the history is one of a single map from namespace and key to content, in which
    an answered operation has happened whole and answers as the map does (a
    conditional put stores just if the key is absent, a listing is the sorted keys
    of its namespace and prefix), an operation that ends in an error has not
    happened, and one the process died in has happened whole or not at all; and
    the files left are those of that map, so the next process finds it. *)
Theorem file_backend_atomic ops s m :
  represents (dk_files s) m → Forall op_ok ops →
  ∃ m', explains m (bk_history ops s).1 m' ∧ represents (dk_files (bk_history ops s).2) m'.
Proof.
  intros Hr Hops. revert s m Hr. induction Hops as [|op ops Hop Hops IH]; intros s m Hr.
  { exists m. split; [constructor|done]. }
  cbn [bk_history]. pose proof (op_atomic op _ m Hr Hop s eq_refl) as He.
  destruct (bk_run op s) as [r s'|p s'|]; cbn [bk_ended]; [| |done].
  - destruct r as [a|e].
    + destruct He as [Ha Hr']. destruct (IH s' _ Hr') as (m' & Hm & Hs). destruct (bk_history ops s') as [h s''].
      exists m'. split; [by constructor|done].
    + destruct (IH s' _ He) as (m' & Hm & Hs). destruct (bk_history ops s') as [h s''].
      exists m'. split; [by constructor|done].
  - destruct He as [_ [Hr'|Hr']]; destruct (IH s' _ Hr') as (m' & Hm & Hs);
      destruct (bk_history ops s') as [h s'']; exists m'; (split; [|done]).
    + by apply explains_lost.
    + by apply explains_kept.
Qed.

(** ** When the calls work

    No call fails, and no temporary file was left behind. *)
Definition healthy (s : Disk) : Prop :=
  dk_fates s = [] ∧ ∀ f, is_Some (file_at (dk_files s) f) → visible f.

Lemma syscall_works {A} (f : option FileMap → IoResult A * option FileMap) s :
  dk_fates s = [] → syscall f s = Ret (f (dk_files s)).1 (set_files (f (dk_files s)).2 s).
Proof. intros Hf. unfold syscall, bind, next_fate. by rewrite Hf. Qed.

Definition quiet (s : Disk) (fs : FileMap) : Prop := dk_fates s = [] ∧ dk_files s = Some fs.

Lemma quiet_healthy s fs : quiet s fs → (∀ f, is_Some (fs !! f) → visible f) → healthy s.
Proof. intros [Hf Hd] Hv. split; [done|]. rewrite Hd. exact Hv. Qed.

Lemma create_dir_works label s :
  healthy s → ∃ fs s', io label create_dir_all s = Ret (Ok tt) s' ∧ quiet s' fs ∧
    (∀ f, file_at (dk_files s) f = fs !! f).
Proof.
  intros [Hf _]. exists (default ∅ (dk_files s)). eexists. unfold io, bind, create_dir_all. rewrite syscall_works by done.
  split; [done|]. split; [done|]. by destruct (dk_files s).
Qed.

Lemma write_temp_works f v label s fs :
  quiet s fs → (∀ g, is_Some (fs !! g) → visible g) →
  ∃ tmp s', write_temp_file f v label s = Ret (Ok tmp) s' ∧ ¬ visible tmp ∧ quiet s' (<[tmp := v]> fs).
Proof.
  intros [Hf Hd] Hv. unfold write_temp_file. cbn [write_temp_loop].
  assert (∃ nanos id s', temp_file_path f s = Ret (temp_name f nanos id) s' ∧ quiet s' fs) as (nanos & id & s1 & H1 & Hf1 & Hd1).
  { unfold temp_file_path, bind, clock_nanos, next_store_id, ret. destruct (dk_clock s); by eexists _, _, _. }
  assert (fs !! temp_name f nanos id = None) as Hn.
  { apply eq_None_not_Some. intros Hs%Hv. by apply temp_hidden in Hs. }
  eexists _, _. split; [|split; [apply temp_hidden|]].
  - etrans; [apply bind_step; exact H1|]. cbn beta. etrans.
    { apply bind_step. unfold create_new. rewrite syscall_works, Hd1 by done. cbn beta. by rewrite Hn. }
    cbn [fst snd]. etrans.
    { apply bind_step. unfold write_and_sync, mrbind, write_all, bind, next_fate, modify, ret. simpl. rewrite Hf1.
      unfold sync_all. by rewrite syscall_works. }
    reflexivity.
  - split; [done|]. simpl. by rewrite firstn_all, insert_insert_eq.
Qed.

Lemma temp_removed (fs : FileMap) tmp v : (∀ g, is_Some (fs !! g) → visible g) → ¬ visible tmp → base.delete tmp (<[tmp := v]> fs) = fs.
Proof. intros Hv Ht. apply delete_insert_id. apply eq_None_not_Some. by intros Hs%Hv. Qed.

Lemma put_works ns k v s :
  healthy s → ∃ s', put (backend_of ns) k v s = Ret (Ok tt) s' ∧ healthy s'.
Proof.
  intros Hh. destruct (create_dir_works "fileBackend.put" s Hh) as (fs & s1 & H1 & Hq1 & Hfs).
  assert (∀ g, is_Some (fs !! g) → visible g) as Hv by (intros g; rewrite <-Hfs; apply Hh).
  destruct (write_temp_works (name ns k) v "fileBackend.put" s1 fs Hq1 Hv) as (tmp & s2 & H2 & Ht & Hf2 & Hd2).
  unfold put. rewrite path_for_name. eexists. split.
  - etrans; [apply mrbind_step; exact H1|]. etrans; [apply mrbind_step; reflexivity|].
    etrans; [apply mrbind_step; exact H2|]. cbn beta. etrans.
    { apply bind_step. unfold rename. rewrite syscall_works, Hd2 by done. simpl file_at. rewrite lookup_insert_eq. reflexivity. }
    reflexivity.
  - eapply quiet_healthy; [by split|]. intros f. rewrite temp_removed by done.
    destruct (decide (f = name ns k)) as [->|Hn]; [done|]. rewrite lookup_insert_ne by done. apply Hv.
Qed.

Lemma put_if_absent_works ns k v s :
  healthy s → ∃ b s', put_if_absent (backend_of ns) k v s = Ret (Ok b) s' ∧ healthy s'.
Proof.
  intros Hh. destruct (create_dir_works "fileBackend.put_if_absent" s Hh) as (fs & s1 & H1 & Hq1 & Hfs).
  assert (∀ g, is_Some (fs !! g) → visible g) as Hv by (intros g; rewrite <-Hfs; apply Hh).
  destruct (write_temp_works (name ns k) v "fileBackend.put_if_absent" s1 fs Hq1 Hv) as (tmp & s2 & H2 & Ht & Hf2 & Hd2).
  unfold put_if_absent. rewrite path_for_name. assert (tmp ≠ name ns k) as Hne by by intros ->.
  destruct (fs !! name ns k) as [old|] eqn:Hold; eexists _, _; (split;
    [etrans; [apply mrbind_step; exact H1|]; etrans; [apply mrbind_step; reflexivity|];
     etrans; [apply mrbind_step; exact H2|]; cbn beta; etrans;
     [apply bind_step; unfold hard_link; rewrite syscall_works, Hd2 by done; simpl file_at;
      rewrite lookup_insert_eq, lookup_insert_ne, Hold by done; reflexivity|];
     etrans; [apply bind_step; unfold remove_file; rewrite syscall_works by done; simpl dk_files; rewrite ?Hd2; simpl file_at;
       rewrite ?(lookup_insert_ne _ (name ns k) tmp), lookup_insert_eq by done; reflexivity|]; reflexivity
    |eapply quiet_healthy; [by split|]]).
  - by rewrite temp_removed.
  - rewrite insert_insert_ne by done. intros f. destruct (decide (f = tmp)) as [->|Hft]; [rewrite lookup_delete_eq; by intros []|].
    rewrite lookup_delete_ne, lookup_insert_ne by done.
    destruct (decide (f = name ns k)) as [->|Hn]; [done|]. rewrite lookup_insert_ne by done. apply Hv.
Qed.

Lemma list_entries_works ns prefix fs s m :
  represents (dk_files s) m → dk_fates s = [] → (∀ f, f ∈ fs → is_Some (file_at (dk_files s) f)) →
  ∃ l, list_entries (backend_of ns) fs prefix s = Ret (Ok l) s.
Proof.
  intros Hr Hf. induction fs as [|f fs IH]; intros Hsub; [by eexists|]. cbn [list_entries].
  destruct IH as [l IH]; [intros g Hg; apply Hsub; by right|].
  assert (set_files (dk_files s) s = s) as Hs by by destruct s.
  assert (io "fileBackend.list" (next_entry f) s = Ret (Ok f) s) as H1.
  { unfold io, bind, next_entry. rewrite syscall_works by done. cbn [fst snd]. by rewrite Hs. }
  erewrite mrbind_step by exact H1. destruct (utf8 f) eqn:Hu; cbn [negb]; [|by exists l].
  assert (∃ o, key_from_filename utf8 ns (bytes_of ext) f = Ok o) as [o Ho].
  { destruct (starts_with (bytes_of ".") f) eqn:Hv.
    - exists None. unfold key_from_filename. by rewrite Hv.
    - destruct (rep_names _ _ Hr ns f) as [Hn|(k & Hk & ->)]; [apply Hsub; by left|done..|by eexists|].
      rewrite file_name_round_trip by done. by eexists. }
  simpl namespace. simpl extension. rewrite Ho. eexists.
  etrans; [by apply mrbind_step|]. etrans; [apply mrbind_step; exact IH|]. reflexivity.
Qed.

Lemma set_files_id s : set_files (dk_files s) s = s.
Proof. by destruct s. Qed.

Lemma get_works ns k s : dk_fates s = [] → get (backend_of ns) k s = Ret (Ok (file_at (dk_files s) (name ns k))) s.
Proof.
  intros Hf. unfold get. rewrite path_for_name. etrans; [apply mrbind_step; reflexivity|]. etrans.
  { apply bind_step. unfold fs_read. rewrite syscall_works by done. cbn [fst snd]. by rewrite set_files_id. }
  by destruct (file_at (dk_files s) (name ns k)).
Qed.

Lemma delete_works ns k s :
  healthy s → ∃ s', delete (backend_of ns) k s = Ret (Ok tt) s' ∧ healthy s'.
Proof.
  intros [Hf Hv]. exists (set_files ((λ fs : FileMap, base.delete (name ns k) fs) <$> dk_files s) s). split.
  - unfold delete. rewrite path_for_name. etrans; [apply mrbind_step; reflexivity|]. etrans.
    { apply bind_step. unfold remove_file. rewrite syscall_works by done. reflexivity. }
    destruct (file_at (dk_files s) (name ns k)) eqn:Hn; cbn [fst snd]; [done|]. unfold ret. cbn. f_equal. f_equal.
    destruct (dk_files s) as [fs|]; [|done]. simpl. f_equal. symmetry. by apply delete_id.
  - split; [done|]. intros f. simpl. rewrite file_at_delete. case_decide; [by intros []|]. apply Hv.
Qed.

Lemma list_works ns prefix s m :
  healthy s → represents (dk_files s) m → ∃ l, list (backend_of ns) prefix s = Ret (Ok l) s.
Proof.
  intros [Hf _] Hr. unfold list.
  assert (∃ r, read_dir s = Ret r s ∧
    match r with Ok fs => ∀ f, f ∈ fs → is_Some (file_at (dk_files s) f) | Err e => io_kind e = NotFound end) as (r & H1 & H2).
  { eexists. split.
    - unfold read_dir. rewrite syscall_works by done. cbn [fst snd]. by rewrite set_files_id.
    - destruct (dk_files s) as [fs|]; [|done]. intros f. rewrite read_order_perm, list_elem_of_fmap.
      intros ([g v] & -> & Hg%elem_of_map_to_list). by eexists. }
  destruct r as [fs|[k text]].
  - destruct (list_entries_works ns prefix fs s m Hr Hf H2) as [l Hl]. eexists.
    etrans; [apply mrbind_step; reflexivity|]. etrans; [apply bind_step; exact H1|]. cbn iota.
    etrans; [apply mrbind_step; exact Hl|]. reflexivity.
  - simpl in H2. subst k. eexists. etrans; [apply mrbind_step; reflexivity|]. etrans; [apply bind_step; exact H1|]. reflexivity.
Qed.

(** An operation on a healthy directory is answered and leaves it healthy. *)
Lemma op_works op s m :
  healthy s → represents (dk_files s) m → ∃ a s', bk_run op s = Ret (Ok a) s' ∧ healthy s'.
Proof.
  intros Hh Hr. destruct op as [ns k|ns k v|ns k v|ns k|ns prefix]; cbn [bk_run].
  - eexists _, s. split; [|done]. etrans; [apply mrbind_step, get_works, Hh|]. reflexivity.
  - destruct (put_works ns k v s Hh) as (s' & H1 & H2). eexists _, s'. split; [|done]. etrans; [apply mrbind_step, H1|]. reflexivity.
  - destruct (put_if_absent_works ns k v s Hh) as (b & s' & H1 & H2). eexists _, s'. split; [|done]. etrans; [apply mrbind_step, H1|]. reflexivity.
  - destruct (delete_works ns k s Hh) as (s' & H1 & H2). eexists _, s'. split; [|done]. etrans; [apply mrbind_step, H1|]. reflexivity.
  - destruct (list_works ns prefix s m Hh Hr) as (l & H1). eexists _, s. split; [|done]. etrans; [apply mrbind_step, H1|]. reflexivity.
Qed.

(** A file backend answers.  In a directory without left-over temporary files,
    while the calls of the file system work, every operation of every backend
    returns an answer and no error, and leaves no temporary file behind. *)
Theorem file_backend_answers ops s m :
  healthy s → represents (dk_files s) m → Forall op_ok ops →
  Forall (λ oe, ∃ a, oe.2 = Answered (Ok a)) (bk_history ops s).1 ∧ healthy (bk_history ops s).2.
Proof.
  intros Hh Hr Hops. revert s m Hh Hr. induction Hops as [|op ops Hop Hops IH]; intros s m Hh Hr.
  { by split; [constructor|]. }
  cbn [bk_history]. pose proof (op_atomic op _ m Hr Hop s eq_refl) as He.
  destruct (op_works op s m Hh Hr) as (a & s' & Hs & Hh'). rewrite Hs in *. cbn [bk_ended]. destruct He as [_ He].
  destruct (IH s' _ Hh' He) as [H1 H2]. destruct (bk_history ops s') as [h s'']. split; [|done].
  constructor; [by eexists|done].
Qed.
End Backend.
