(* ===== verification/ReadThrough.v ===== *)
(** * Tiered read-through lookups (storage.rs)

    [tiered_read_through]: a key is looked up in one tier after the other, then by
    a loader; what is found is promoted to the earlier tiers.  The tiers and the
    user's callbacks work on the state [S] the stores live in.  A callback is run
    under [catch_unwind], so what it does stays done and how it ends does not
    matter; the loader and the tiers are not. *)

From Stdlib Require Import Ascii String.
From stdpp Require Import base gmap list option numbers strings.
From S2P Require Import Prelude.
From S2P Require Import Storage.

Local Open Scope rx_scope.

Record ReadThroughLookupTier := mkLookupTier { index : Z; name : option string }.

Inductive ReadThroughOutcome := OHit | OMiss | OError.

Record ReadThroughLookupFact (T : Type) := mkLookupFact {
  outcome : ReadThroughOutcome;
  f_key : string;
  f_tier : ReadThroughLookupTier;
  f_value : option T;
  f_generation : option KvGeneration;
  f_error : option StorageError
}.
Arguments mkLookupFact {T}. Arguments outcome {T}. Arguments f_key {T}. Arguments f_tier {T}.
Arguments f_value {T}. Arguments f_generation {T}. Arguments f_error {T}.

Record ReadThroughPromotionFact := mkPromotionFact {
  p_tier : ReadThroughLookupTier;
  p_ok : bool;
  p_error : option StorageError
}.

Inductive TieredReadThroughStatus := SHit | SMiss | SError.

Record TieredReadThroughResult (T : Type) := mkReadThroughResult {
  status : TieredReadThroughStatus;
  key : string;
  value : option T;
  hit_tier : option ReadThroughLookupTier;
  facts : list (ReadThroughLookupFact T);
  promotions : list ReadThroughPromotionFact
}.
Arguments mkReadThroughResult {T}. Arguments status {T}. Arguments key {T}. Arguments value {T}.
Arguments hit_tier {T}. Arguments facts {T}. Arguments promotions {T}.

Inductive PromotionPolicy := AllEarlier | Disabled | Indices (indices : list nat).

Record ReadThroughMissContext := mkMissContext { miss_key : string; miss_tier : ReadThroughLookupTier }.

Inductive ReadThroughErrorStage := Lookup | Promotion.

Record ReadThroughErrorContext := mkErrorContext {
  err_key : string;
  err_tier : ReadThroughLookupTier;
  stage : ReadThroughErrorStage;
  error : StorageError
}.

Module ReadThrough.
Section ReadThrough.
Context {S T : Type}.

Record TieredReadThroughOptions := mkReadThroughOptions {
  opt_key : string;
  tiers : list (KvStorageTier S T);
  tier_names : list string;
  load : option (string → M S (StorageResult (option T)));
  promote_to : PromotionPolicy;
  on_miss : option (ReadThroughMissContext → M S unit);
  on_error : option (ReadThroughErrorContext → M S unit)
}.

Definition new_options (key : string) (tiers : list (KvStorageTier S T)) : TieredReadThroughOptions :=
  mkReadThroughOptions key tiers [] None AllEarlier None None.

(** [tier_names.get(index.max(0) as usize)]. *)
Definition lookup_tier (index : Z) (tier_names : list string) : ReadThroughLookupTier :=
  mkLookupTier index (tier_names !! Z.to_nat (Z.max index 0)).

Definition loader_tier : ReadThroughLookupTier := mkLookupTier (-1) (Some "load").

(** The first fact of the tier decides. *)
Definition generation_for_tier (facts : list (ReadThroughLookupFact T)) (i : nat) : option KvGeneration :=
  fact ← head (List.filter (λ fact, index (f_tier fact) =? Z.of_nat i)%Z facts);
  f_generation fact.

(** The loop over the indices of a policy. *)
Fixpoint chosen_targets (tier_count max_promote : nat) (indices out : list nat) : list nat :=
  match indices with
  | [] => out
  | i :: indices =>
      chosen_targets tier_count max_promote indices
        (if (i <? tier_count) && (i <? max_promote) && negb (existsb (Nat.eqb i) out) then out ++ [i] else out)
  end.

Definition build_promotion_targets (tier_count hit_index : nat) (promote_to : PromotionPolicy) : list nat :=
  if tier_count =? 0 then [] else
  let max_promote := Nat.min hit_index tier_count in
  match promote_to with
  | Disabled => []
  | AllEarlier => seq 0 max_promote
  | Indices indices => chosen_targets tier_count max_promote indices []
  end.

Definition call_on_miss (on_miss : option (ReadThroughMissContext → M S unit)) (key : string)
    (tier : ReadThroughLookupTier) : M S unit :=
  match on_miss with
  | Some f => catch_unwind (f (mkMissContext key tier)) ;;; ret tt
  | None => ret tt
  end.

Definition call_on_error (on_error : option (ReadThroughErrorContext → M S unit)) (key : string)
    (tier : ReadThroughLookupTier) (stage : ReadThroughErrorStage) (error : StorageError) : M S unit :=
  match on_error with
  | Some f => catch_unwind (f (mkErrorContext key tier stage error)) ;;; ret tt
  | None => ret tt
  end.

(** What one tier answers: a value, and a generation if it is versioned. *)
Definition read_tier (tier : KvStorageTier S T) (key : string) :
    M S (StorageResult (option T * option KvGeneration)) :=
  if kv_supports_versioned tier then
    let!? r := kv_get_versioned tier key in
    ret (Ok match r with Hit value generation => (Some value, Some generation) | Miss generation => (None, Some generation) end)
  else let!? found := kv_get tier key in ret (Ok (found, None)).

Section Lookup.
Context (opts : TieredReadThroughOptions).

(** What is known after a lookup: the facts, and the tier and value of the hit. *)
Definition Found : Type := list (ReadThroughLookupFact T) * option (ReadThroughLookupTier * T).

(** The handling of one answer, by a tier or by the loader. *)
Definition note_answer (info : ReadThroughLookupTier) (facts : list (ReadThroughLookupFact T))
    (read : StorageResult (option T * option KvGeneration)) : M S Found :=
  let key := opt_key opts in
  match read with
  | Ok (Some found, generation) =>
      ret (facts ++ [mkLookupFact OHit key info (Some found) generation None], Some (info, found))
  | Ok (None, generation) =>
      call_on_miss (on_miss opts) key info ;;;
      ret (facts ++ [mkLookupFact OMiss key info None generation None], None)
  | Err e =>
      call_on_error (on_error opts) key info Lookup e ;;;
      ret (facts ++ [mkLookupFact OError key info None None (Some e)], None)
  end.

(** The loop over the tiers, from index [i] on. *)
Fixpoint lookup_loop (tiers : list (KvStorageTier S T)) (i : nat)
    (facts : list (ReadThroughLookupFact T)) : M S Found :=
  match tiers with
  | [] => ret (facts, None)
  | tier :: tiers =>
      let info := lookup_tier (Z.of_nat i) (tier_names opts) in
      let! read := read_tier tier (opt_key opts) in
      let! (facts, hit) := note_answer info facts read in
      match hit with
      | Some _ => ret (facts, hit)
      | None => lookup_loop tiers (Datatypes.S i) facts
      end
  end.

Definition load_value (found : Found) : M S Found :=
  match found.2, load opts with
  | None, Some load =>
      let! loaded := load (opt_key opts) in
      note_answer loader_tier found.1 (let? v := loaded in Ok (v, None))
  | _, _ => ret found
  end.

(** One promotion. *)
Definition promote (facts : list (ReadThroughLookupFact T)) (found : T) (i : nat) :
    M S (list ReadThroughPromotionFact) :=
  match tiers opts !! i with
  | None => panic (PanicStr "index out of bounds")
  | Some tier =>
      let info := lookup_tier (Z.of_nat i) (tier_names opts) in
      let! write :=
        if kv_supports_versioned tier then
          match generation_for_tier facts i with
          | Some generation => kv_set_if_match tier (opt_key opts) found generation
          | None =>
              ret (Err (Backend "tiered_read_through: versioned promotion target was not observed with a generation"))
          end
        else let!? _ := kv_set tier (opt_key opts) found in ret (Ok true) in
      match write with
      | Ok ok => ret [mkPromotionFact info ok None]
      | Err e =>
          call_on_error (on_error opts) (opt_key opts) info Promotion e ;;;
          ret [mkPromotionFact info false (Some e)]
      end
  end.

Definition promote_all (facts : list (ReadThroughLookupFact T)) (found : T) (targets : list nat) :
    M S (list ReadThroughPromotionFact) :=
  fold_each targets (λ promotions i, let! p := promote facts found i in ret (promotions ++ p)) [].

Definition source_index (source : ReadThroughLookupTier) : nat :=
  if (index source <? 0)%Z then length (tiers opts) else Z.to_nat (index source).

Definition result_status (found : Found) : TieredReadThroughStatus :=
  match found.2 with
  | Some _ => SHit
  | None =>
      if existsb (λ fact, match outcome fact with OError => true | _ => false end) found.1 then SError else SMiss
  end.

Definition tiered_read_through : M S (TieredReadThroughResult T) :=
  let! found := lookup_loop (tiers opts) 0 [] in
  let! found := load_value found in
  let! promotions :=
    match found.2 with
    | Some (source, v) =>
        promote_all found.1 v (build_promotion_targets (length (tiers opts)) (source_index source) (promote_to opts))
    | None => ret []
    end in
  ret (mkReadThroughResult (result_status found) (opt_key opts) (snd <$> found.2) (fst <$> found.2)
         found.1 promotions).

Definition read_through_kv : M S (TieredReadThroughResult T) := tiered_read_through.
End Lookup.
End ReadThrough.
Arguments TieredReadThroughOptions : clear implicits.
End ReadThrough.
