(* ===== verification/ReadThroughFacts.v ===== *)
(** * Facts about read-through lookups

    Whatever the tiers are: they are asked in order, up to the first hit; errors
    and callbacks do not stop a lookup; what is promoted is what was found, to
    tiers asked before.  Over in-memory tiers: a promotion never overwrites a
    write that came after its tier was asked. *)

From Stdlib Require Import Ascii String.
From stdpp Require Import base gmap list option numbers strings.
From S2P Require Import Prelude.
From S2P Require Import Text.
From S2P Require Import Storage.
From S2P Require Import StorageFacts.
From S2P Require Import ReadThrough.

Import ReadThrough.

Local Open Scope rx_scope.

(** ** Promotion targets *)

Lemma chosen_targets_spec tier_count max indices out :
  NoDup out → Forall (λ i, i < tier_count ∧ i < max) out →
  NoDup (chosen_targets tier_count max indices out) ∧
  Forall (λ i, i < tier_count ∧ i < max) (chosen_targets tier_count max indices out) ∧
  ∀ i, i ∈ chosen_targets tier_count max indices out ↔
       i ∈ out ∨ i ∈ indices ∧ i < tier_count ∧ i < max.
Proof.
  revert out. induction indices as [|j indices IH]; intros out Hnd Hall; simpl.
  { split_and!; [done..|]. intros i. rewrite elem_of_nil. naive_solver. }
  assert (existsb (Nat.eqb j) out = true ↔ j ∈ out) as Hex.
  { rewrite existsb_exists. setoid_rewrite <-list_elem_of_In. setoid_rewrite Nat.eqb_eq. naive_solver. }
  destruct ((j <? tier_count) && (j <? max) && negb (existsb (Nat.eqb j) out)) eqn:Hj.
  - apply andb_true_iff in Hj as [[H1%Nat.ltb_lt H2%Nat.ltb_lt]%andb_true_iff H3%negb_true_iff].
    destruct (IH (out ++ [j])) as (Hn & Ha & Hin).
    + apply NoDup_app. split_and!; [done| |apply NoDup_singleton]. intros i Hi ->%list_elem_of_singleton.
      apply Hex in Hi. congruence.
    + apply Forall_app. split; [done|]. by repeat constructor.
    + split_and!; [done..|]. intros i. rewrite Hin, elem_of_app, list_elem_of_singleton, elem_of_cons. naive_solver.
  - destruct (IH out) as (Hn & Ha & Hin); [done..|]. split_and!; [done..|]. intros i. rewrite Hin, elem_of_cons.
    split; [naive_solver|]. intros [Hi|[[->|Hi] [H1 H2]]]; [by left| |by right].
    left. apply Hex. apply Nat.ltb_lt in H1, H2. rewrite H1, H2 in Hj. simpl in Hj. by apply negb_false_iff in Hj.
Qed.

Definition policy_allows (p : PromotionPolicy) (i : nat) : Prop :=
  match p with AllEarlier => True | Disabled => False | Indices l => i ∈ l end.

(** The targets: the tiers before the source that the policy allows, each once. *)
Lemma promotion_targets_spec tier_count hit policy :
  NoDup (build_promotion_targets tier_count hit policy) ∧
  ∀ i, i ∈ build_promotion_targets tier_count hit policy ↔ i < hit ∧ i < tier_count ∧ policy_allows policy i.
Proof.
  unfold build_promotion_targets. destruct (Nat.eqb_spec tier_count 0) as [->|Hn].
  { split; [constructor|]. intros i. rewrite elem_of_nil. lia. }
  destruct policy as [| |l]; simpl.
  - split; [apply NoDup_seq|]. intros i. rewrite elem_of_seq. lia.
  - split; [constructor|]. intros i. rewrite elem_of_nil. naive_solver.
  - destruct (chosen_targets_spec tier_count (Nat.min hit tier_count) l []) as (H1 & _ & H3); [constructor..|].
    split; [done|]. intros i. rewrite H3, elem_of_nil. split; [intros [[]|(Hi & H4 & H5)]|intros (H4 & H5 & Hi)].
    + split_and!; [lia..|done].
    + right. split_and!; [done|lia..].
Qed.

(** ** Any tiers *)

Section Shape.
Context {S T : Type} (opts : TieredReadThroughOptions S T).

Notation fact_index f := (index (f_tier f)).
Notation missed := (λ f : ReadThroughLookupFact T, f_value f = None ∧ outcome f ≠ OHit).

(** A list of facts and what they found. *)
Definition concludes (facts : list (ReadThroughLookupFact T)) (hit : option (ReadThroughLookupTier * T)) : Prop :=
  match hit with
  | None => Forall missed facts
  | Some (info, v) =>
      ∃ facts' f, facts = facts' ++ [f] ∧ Forall missed facts' ∧
        outcome f = OHit ∧ f_tier f = info ∧ f_value f = Some v
  end.

Lemma call_on_miss_post (f : option (ReadThroughMissContext → M S unit)) key tier s (Q : unit → S → Prop) E :
  (∀ s', Q tt s') → post (call_on_miss f key tier) s Q E.
Proof.
  intros HQ. destruct f as [f|]; [|apply HQ]. unfold call_on_miss. apply post_bind, post_catch. unfold post.
  by destruct (f _ s); try apply HQ.
Qed.

Lemma call_on_error_post (f : option (ReadThroughErrorContext → M S unit)) key tier st e s (Q : unit → S → Prop) E :
  (∀ s', Q tt s') → post (call_on_error f key tier st e) s Q E.
Proof.
  intros HQ. destruct f as [f|]; [|apply HQ]. unfold call_on_error. apply post_bind, post_catch. unfold post.
  by destruct (f _ s); try apply HQ.
Qed.

Lemma note_answer_post info facts r s :
  Forall missed facts →
  post (note_answer opts info facts r) s
    (λ fh _, concludes fh.1 fh.2 ∧ (∃ f, fh.1 = facts ++ [f] ∧ f_tier f = info) ∧
             ∀ hit, fh.2 = Some hit → hit.1 = info) (λ _ _, True).
Proof.
  intros Hm. unfold note_answer. destruct r as [[[v|] g]|e].
  - unfold post, ret. simpl. split_and!; [by eexists _, _|by eexists|]. by intros ? [= <-].
  - apply post_bind, call_on_miss_post. intros s'. unfold post, ret. simpl. split_and!; [|by eexists|done].
    apply Forall_app. by repeat constructor.
  - apply post_bind, call_on_error_post. intros s'. unfold post, ret. simpl. split_and!; [|by eexists|done].
    apply Forall_app. by repeat constructor.
Qed.

(** The tiers from [i] on have been asked, up to the last fact. *)
Lemma lookup_loop_post tiers i facts s :
  Forall missed facts →
  post (lookup_loop opts tiers i facts) s
    (λ fh _, concludes fh.1 fh.2 ∧
       match fh.2 with
       | None => (λ f, fact_index f) <$> fh.1 = ((λ f, fact_index f) <$> facts) ++ (Z.of_nat <$> seq i (length tiers))
       | Some (info, _) => ∃ k, k < length tiers ∧ index info = Z.of_nat (i + k) ∧
           (λ f, fact_index f) <$> fh.1 = ((λ f, fact_index f) <$> facts) ++ (Z.of_nat <$> seq i (k + 1))
       end) (λ _ _, True).
Proof.
  revert i facts s. induction tiers as [|tier tiers IH]; intros i facts s Hm.
  { unfold post. simpl. split; [done|]. by rewrite app_nil_r. }
  cbn [lookup_loop]. apply post_bind. unfold post at 1. destruct (read_tier tier (opt_key opts) s) as [r s1| |]; [|done..].
  apply post_bind. eapply post_conseq; [by apply note_answer_post| |done].
  intros [facts1 hit] s2 (Hc & (f & Hf & Ht) & Hh). simpl in Hc, Hf, Hh. destruct hit as [[info v]|].
  - unfold post, ret. simpl. split; [done|]. exists 0. specialize (Hh _ eq_refl). simpl in Hh. subst info. rewrite Nat.add_0_r.
    split; [lia|]. split; [done|]. rewrite Hf, fmap_app. simpl. by rewrite Ht.
  - eapply post_conseq; [by apply IH| |done]. intros [facts2 hit2] s3. simpl. intros [Hc2 Hh2]. split; [done|].
    assert ((λ f, fact_index f) <$> facts1 = ((λ f, fact_index f) <$> facts) ++ [Z.of_nat i]) as Hf1.
    { rewrite Hf, fmap_app. simpl. by rewrite Ht. }
    destruct hit2 as [[info v]|].
    + destruct Hh2 as (k & Hk & Hi & Heq). exists (Datatypes.S k). split; [lia|]. split; [lia|].
      rewrite Heq, Hf1, <-app_assoc. done.
    + by rewrite Hh2, Hf1, <-app_assoc.
Qed.

Lemma promote_post facts v i s :
  i < length (tiers opts) →
  post (promote opts facts v i) s (λ ps _, ∃ p, ps = [p] ∧ index (p_tier p) = Z.of_nat i) (λ _ _, True).
Proof.
  intros Hi. unfold promote. destruct (lookup_lt_is_Some_2 _ _ Hi) as [tier ->]. apply post_bind.
  unfold post at 1. destruct (_ s) as [[b|e] s'| |]; [|..|done|done].
  - unfold post, ret. by eexists.
  - apply post_bind, call_on_error_post. intros s''. unfold post, ret. by eexists.
Qed.

Lemma promote_all_post facts v targets s :
  Forall (λ i, i < length (tiers opts)) targets →
  post (promote_all opts facts v targets) s (λ ps _, (λ p, index (p_tier p)) <$> ps = Z.of_nat <$> targets) (λ _ _, True).
Proof.
  unfold promote_all. intros Hall.
  enough (∀ acc s, post (fold_each targets (λ ps i, let! p := promote opts facts v i in ret (ps ++ p)) acc) s
            (λ ps _, (λ p, index (p_tier p)) <$> ps = ((λ p, index (p_tier p)) <$> acc) ++ (Z.of_nat <$> targets)) (λ _ _, True))
    as Hgen by by apply (Hgen []).
  clear s. induction Hall as [|i targets Hi Hall IH]; intros acc s; simpl; [unfold post; simpl; by rewrite app_nil_r|].
  apply post_bind, post_bind. eapply post_conseq; [by apply promote_post| |done].
  intros ? s' (p & -> & Hp). unfold post at 1, ret. eapply post_conseq; [apply IH| |done].
  intros ps s''. simpl. intros ->. rewrite fmap_app, <-app_assoc. simpl. by rewrite Hp.
Qed.

(** The indices a lookup asks when it ends at the tier of index [source]: the
    tiers up to it, or all and then the loader, whose index is -1. *)
Definition asked (source : nat) : list Z :=
  if source <? length (tiers opts) then Z.of_nat <$> seq 0 (source + 1)
  else (Z.of_nat <$> seq 0 (length (tiers opts))) ++ [(-1)%Z].

Definition read_through_says (r : TieredReadThroughResult T) : Prop :=
  match value r with
  | Some v =>
      status r = SHit ∧
      (∃ info, hit_tier r = Some info ∧ concludes (facts r) (Some (info, v)) ∧
         let source := source_index opts info in
         (λ f, fact_index f) <$> facts r = asked source ∧
         (λ p, index (p_tier p)) <$> promotions r
         = Z.of_nat <$> build_promotion_targets (length (tiers opts)) source (promote_to opts))
  | None =>
      hit_tier r = None ∧ promotions r = [] ∧ Forall missed (facts r) ∧
      (λ f, fact_index f) <$> facts r
      = (Z.of_nat <$> seq 0 (length (tiers opts))) ++ (if load opts then [(-1)%Z] else []) ∧
      (status r = SError ∧ Exists (λ f, outcome f = OError) (facts r) ∨
       status r = SMiss ∧ Forall (λ f, outcome f = OMiss) (facts r))
  end.

Lemma no_hit_status facts :
  Forall missed facts →
  result_status (facts, None) = SError ∧ Exists (λ f, outcome f = OError) facts ∨
  result_status (facts, None) = SMiss ∧ Forall (λ f, outcome f = OMiss) facts.
Proof.
  intros Hm. unfold result_status. simpl. induction Hm as [|f facts [_ Hf] Hm IH]; simpl; [right; by split|].
  destruct (outcome f) eqn:Ho; [done| |left; split; [done|by left]]. simpl.
  destruct IH as [[-> IH]|[-> IH]]; [left|right]; (split; [done|]); by constructor.
Qed.

(** A lookup that returns says what it did, whatever the tiers, the loader and
    the callbacks do: the tiers were asked in their order, each once, up to the
    first one that had the key, and the loader after all of them; a tier that
    failed or a callback that panicked did not end the lookup; the result is the
    value of the last one asked; and exactly the tiers before it that the policy
    allows were offered it, each once. *)
Theorem read_through_in_order s : post (tiered_read_through opts) s (λ r _, read_through_says r) (λ _ _, True).
Proof.
  unfold tiered_read_through. apply post_bind. eapply post_conseq; [by apply lookup_loop_post| |done].
  intros [facts hit] s1 [Hc Hh]. simpl in Hc, Hh. apply post_bind.
  apply (post_conseq _ _ (λ fh _, concludes fh.1 fh.2 ∧ match fh.2 with
    | Some (info, _) => source_index opts info ≤ length (tiers opts) ∧ (λ f, fact_index f) <$> fh.1 = asked (source_index opts info)
    | None => (λ f, fact_index f) <$> fh.1 = (Z.of_nat <$> seq 0 (length (tiers opts))) ++ (if load opts then [(-1)%Z] else [])
    end) _ (λ _ _, True)); [| |done].
  - unfold load_value. simpl. destruct hit as [[info v]|].
    + destruct Hh as (k & Hk & Hi & Hf). unfold post, ret. simpl. split; [done|].
      assert (source_index opts info = k) as ->.
      { unfold source_index. rewrite Hi, (proj2 (Z.ltb_ge _ _)) by lia. simpl. lia. }
      split; [lia|]. unfold asked. by rewrite (proj2 (Nat.ltb_lt _ _)).
    + destruct (load opts) as [ld|]; [|unfold post, ret; simpl; by rewrite app_nil_r].
      apply post_bind. unfold post at 1. destruct (ld (opt_key opts) s1) as [r s2| |]; [|done..].
      eapply post_conseq; [by apply note_answer_post| |done]. intros [facts1 hit1] s3. simpl.
      intros (Hc1 & (f & -> & Ht) & Hi). split; [done|]. rewrite fmap_app, Hh. simpl. rewrite Ht.
      destruct hit1 as [[info v]|]; [|done]. specialize (Hi _ eq_refl). simpl in Hi. subst info.
      unfold source_index, asked. simpl. split; [done|]. by rewrite Nat.ltb_irrefl.
  - clear. intros [facts hit] s2 [Hc Hh]. simpl in Hc, Hh. apply post_bind. simpl. destruct hit as [[info v]|].
    + eapply post_conseq; [apply promote_all_post| |done].
      * apply Forall_forall. intros i Hi. by apply promotion_targets_spec in Hi as (_ & ? & _).
      * intros ps s3 Hps. unfold post, ret, read_through_says. simpl. split; [done|]. exists info. destruct Hh. done.
    + unfold post, ret, read_through_says. simpl. split_and!; [done..|]. by apply no_hit_status.
Qed.
End Shape.

(** ** In-memory tiers

    A family of in-memory stores, each a tier. *)
Section Stores.
Context {T : Type}.

Notation Stores := (nat → MemoryKv.MemoryKv T).

Definition at_store {A} (i : nat) (m : M (MemoryKv.MemoryKv T) A) : M Stores A :=
  zoom (λ s : Stores, s i) (λ t s j, if decide (j = i) then t else s j) m.

Definition memory_tier (i : nat) : KvStorageTier Stores T :=
  let t := MemoryKv.tier in
  mkKvStorageTier (λ k, at_store i (kv_get t k)) (λ k v, at_store i (kv_set t k v))
    (λ k v, at_store i (kv_put_if_absent t k v)) (λ k, at_store i (kv_delete t k))
    (λ p, at_store i (kv_list t p)) true (λ k, at_store i (kv_get_versioned t k))
    (λ k v g, at_store i (kv_set_if_match t k v g)).

(** Code that uses the stores through their operations, and ends. *)
Definition acts {A} (m : M Stores A) : Prop :=
  ∀ s, match m s with
       | Ret _ s' | Unwind _ s' => ∀ i, ∃ ops, s' i = kv_run ops (s i)
       | OutOfFuel => False
       end.

Lemma kv_run_app (ops ops' : list (KvOp T)) s : kv_run (ops ++ ops') s = kv_run ops' (kv_run ops s).
Proof.
  revert s. induction ops as [|op ops IH]; intros s; [done|]. cbn [app kv_run].
  destruct (kv_step_cases op s) as [[-> _]|[(k & s' & -> & _)|(s' & -> & _)]]; apply IH.
Qed.

Lemma acts_ret {A} (a : A) : acts (ret a).
Proof. intros s i. by exists []. Qed.

Lemma set_if_match_runs key (v : T) g s :
  MemoryKv.set_if_match key v g s
  = Ret (Ok (MemoryKv.gen_matches key g s))
      (if MemoryKv.gen_matches key g s then
         MemoryKv.mkMemoryKv (MemoryKv.store_id s) (MemoryKv.epoch s)
           (<[key := MemoryKv.mkMemoryEntry v (MemoryKv.next_version s)]> (MemoryKv.entries s))
           (base.delete key (MemoryKv.tombstones s)) (MemoryKv.next_version s + 1)
       else s).
Proof. unfold MemoryKv.set_if_match, bind, gets. by destruct (MemoryKv.gen_matches key g s). Qed.

Section Run.
Context (opts : TieredReadThroughOptions Stores T) (n : nat).
Hypothesis Htiers : tiers opts = memory_tier <$> seq 0 n.
Hypothesis Hmiss : ∀ f c, on_miss opts = Some f → acts (f c).
Hypothesis Herror : ∀ f c, on_error opts = Some f → acts (f c).
Hypothesis Hload : ∀ f k, load opts = Some f → acts (f k).

Notation key := (opt_key opts).

(** The stores when tier [j] is asked, in a lookup from [s0]: those the tiers
    before it were left in. *)
Definition asked_at (s0 : Stores) (j : nat) (s : Stores) : Prop :=
  ∃ facts, lookup_loop opts (take j (tiers opts)) 0 [] s0 = Ret (facts, None) s.

(** Tier [j] was asked and had nothing, and [after] happened to its store since. *)
Definition asked_store (s0 : Stores) (j : nat) (g : option KvGeneration) (s : Stores) : Prop :=
  ∃ sa after,
    asked_at s0 j sa ∧ kv_inv (sa j) ∧ g = Some (MemoryKv.generation_for key (sa j)) ∧
    view (sa j) !! key = None ∧ s j = kv_run after (sa j).

(** The stores before index [i] have been asked and had nothing. *)
Record looked (s0 : Stores) (i : nat) (facts : list (ReadThroughLookupFact T)) (s : Stores) : Prop := {
  looked_no_fact j : i ≤ j → generation_for_tier facts j = None ∧
    List.filter (λ f, index (f_tier f) =? Z.of_nat j)%Z facts = [];
  looked_asked j : j < i → asked_store s0 j (generation_for_tier facts j) s;
  looked_other j : i ≤ j → ∃ before, s j = kv_run before (s0 j)
}.

Lemma looked_step s0 i facts s s' :
  looked s0 i facts s → (∀ j, ∃ ops, s' j = kv_run ops (s j)) → looked s0 i facts s'.
Proof.
  intros [H1 H2 H3] Hs. split; [done|..].
  - intros j Hj. destruct (H2 j Hj) as (sa & a & Hg & Hn & Hr & Hv & Ha). destruct (Hs j) as [ops Ho].
    exists sa, (a ++ ops). by rewrite kv_run_app, <-Ha.
  - intros j Hj. destruct (H3 j Hj) as [b Hb]. destruct (Hs j) as [ops Ho]. exists (b ++ ops). by rewrite kv_run_app, <-Hb.
Qed.

Lemma generation_app facts f j :
  List.filter (λ f, index (f_tier f) =? Z.of_nat j)%Z facts = [] ∨ index (f_tier f) ≠ Z.of_nat j →
  generation_for_tier (facts ++ [f]) j
  = if (index (f_tier f) =? Z.of_nat j)%Z then f_generation f else generation_for_tier (T := T) facts j.
Proof.
  unfold generation_for_tier. rewrite List.filter_app. simpl. intros Hor.
  destruct (index (f_tier f) =? Z.of_nat j)%Z eqn:Hi; [|by rewrite app_nil_r].
  destruct Hor as [->|Hne]; [done|]. by apply Z.eqb_eq in Hi.
Qed.

Lemma looked_fact s0 i facts f s :
  looked s0 i facts s → index (f_tier f) = Z.of_nat i → asked_store s0 i (f_generation f) s →
  looked s0 (S i) (facts ++ [f]) s.
Proof.
  intros [H1 H2 H3] Hi Ha. split.
  - intros j Hj. destruct (H1 j ltac:(lia)) as [Hg Hf]. rewrite generation_app by by left.
    rewrite (proj2 (Z.eqb_neq _ _)) by lia. split; [done|]. rewrite List.filter_app, Hf. simpl.
    by rewrite (proj2 (Z.eqb_neq _ _)) by lia.
  - intros j Hj. destruct (decide (j = i)) as [->|Hn].
    + rewrite generation_app by (left; by apply H1). by rewrite (proj2 (Z.eqb_eq _ _)).
    + rewrite generation_app by (right; lia). rewrite (proj2 (Z.eqb_neq _ _)) by lia. apply H2. lia.
  - intros j Hj. apply H3. lia.
Qed.

Lemma read_memory_tier i s :
  read_tier (memory_tier i) key s
  = Ret (Ok (view (s i) !! key, Some (MemoryKv.generation_for key (s i))))
      (λ j, if decide (j = i) then s i else s j).
Proof.
  unfold read_tier, mrbind, bind. simpl. unfold at_store, zoom, MemoryKv.get_versioned, gets. rewrite view_lookup.
  unfold MemoryKv.generation_for, MemoryKv.current_version. by destruct (MemoryKv.entries (s i) !! key).
Qed.

Lemma looked_same s0 i facts s s' : looked s0 i facts s → (∀ j, s' j = s j) → looked s0 i facts s'.
Proof. intros Hl Hs. eapply looked_step; [done|]. intros j. by exists []. Qed.

Lemma call_on_miss_returns (f : option (ReadThroughMissContext → M Stores unit)) c t s p s' :
  call_on_miss f c t s ≠ Unwind p s'.
Proof. destruct f as [f|]; [|done]. unfold call_on_miss, bind, catch_unwind. by destruct (f _ s). Qed.

Lemma call_on_error_returns (f : option (ReadThroughErrorContext → M Stores unit)) c t st e s p s' :
  call_on_error f c t st e s ≠ Unwind p s'.
Proof. destruct f as [f|]; [|done]. unfold call_on_error, bind, catch_unwind. by destruct (f _ s). Qed.

Lemma call_on_miss_acts c t : acts (call_on_miss (on_miss opts) c t).
Proof.
  unfold call_on_miss. destruct (on_miss opts) as [f|] eqn:Hf; [|apply acts_ret]. intros s.
  pose proof (Hmiss f (mkMissContext c t) eq_refl s) as Ha. unfold bind, catch_unwind. by destruct (f _ s).
Qed.

Lemma call_on_error_acts c t st e : acts (call_on_error (on_error opts) c t st e).
Proof.
  unfold call_on_error. destruct (on_error opts) as [f|] eqn:Hf; [|apply acts_ret]. intros s.
  pose proof (Herror f (mkErrorContext c t st e) eq_refl s) as Ha. unfold bind, catch_unwind. by destruct (f _ s).
Qed.

Lemma lookup_loop_app l l' i facts s :
  lookup_loop opts (l ++ l') i facts s
  = match lookup_loop opts l i facts s with
    | Ret (facts, None) s => lookup_loop opts l' (i + length l) facts s
    | o => o
    end.
Proof.
  revert i facts s. induction l as [|tier l IH]; intros i facts s; [simpl; by rewrite Nat.add_0_r|].
  cbn [app lookup_loop]. unfold bind. destruct (read_tier tier key s) as [r s1| |]; [|done..].
  destruct (note_answer _ _ _ r s1) as [[facts1 [hit|]] s2| |]; [done| |done..].
  rewrite IH. simpl. by rewrite Nat.add_succ_r.
Qed.

(** The outcome of the loop over the tiers. *)
Definition loop_end (s0 : Stores) (fh : Found) (s : Stores) : Prop :=
  match fh.2 with
  | None => looked s0 n fh.1 s
  | Some (info, v) => ∃ i, i < n ∧ index info = Z.of_nat i ∧ looked s0 i (removelast fh.1) s ∧
      (∀ j, j < i → generation_for_tier fh.1 j = generation_for_tier (removelast fh.1) j) ∧
      ∃ sa, asked_at s0 i sa ∧ view (sa i) !! key = Some v
  end.

(** One tier. *)
Lemma lookup_one s0 i facts s :
  (∀ j, kv_inv (s0 j)) → i < n → looked s0 i facts s → asked_at s0 i s →
  total (lookup_loop opts [memory_tier i] i facts) s
    (λ fh s', match fh.2 with Some _ => loop_end s0 fh s' | None => looked s0 (S i) fh.1 s' end).
Proof.
  intros Hinv Hi Hl Hat. cbn [lookup_loop].
  eapply total_step; [apply read_memory_tier|]. set (s1 := λ j : nat, if decide (j = i) then s i else s j).
  assert (looked s0 i facts s1) as Hl1.
  { eapply looked_same; [done|]. intros j. unfold s1. by case_decide; subst. }
  assert (s1 i = s i) as Hs1 by (unfold s1; by rewrite decide_True).
  destruct (looked_other _ _ _ _ Hl i (le_n i)) as [b Hb].
  unfold note_answer. destruct (view (s i) !! key) as [v|] eqn:Hv.
  - apply total_bind, total_ret, total_ret. unfold loop_end. cbn [fst snd].
    exists i. rewrite removelast_last. split_and!; [done..| |by exists s].
    intros j Hj. rewrite generation_app by (right; simpl; lia). simpl. by rewrite (proj2 (Z.eqb_neq _ _)) by lia.
  - apply total_bind. apply total_bind. unfold total at 1.
    pose proof (call_on_miss_acts key (lookup_tier (Z.of_nat i) (tier_names opts)) s1) as Ha.
    destruct (call_on_miss _ _ _ s1) as [[] s2|p s2|] eqn:Hc; [|exfalso|done].
    + do 2 apply total_ret. cbn [snd fst]. apply looked_fact; [by eapply looked_step|done|]. cbn [f_generation].
      destruct (Ha i) as [ops Ho]. exists s, ops. split_and!; [done| |done|done|by rewrite Ho, Hs1].
      rewrite Hb. by apply (kv_run_spec key b).
    + by apply call_on_miss_returns in Hc.
Qed.

Lemma lookup_loop_stores s0 i k facts s :
  (∀ j, kv_inv (s0 j)) → i + k = n → looked s0 i facts s →
  lookup_loop opts (take i (tiers opts)) 0 [] s0 = Ret (facts, None) s →
  total (lookup_loop opts (memory_tier <$> seq i k) i facts) s (loop_end s0).
Proof.
  intros Hinv. revert i facts s. induction k as [|k IH]; intros i facts s Hik Hl Hrun.
  { apply total_ret. unfold loop_end. simpl. by rewrite <-Hik, Nat.add_0_r. }
  assert (asked_at s0 i s) as Hat by by exists facts.
  assert (tiers opts !! i = Some (memory_tier i)) as Hti by (rewrite Htiers, list_lookup_fmap, lookup_seq_lt by lia; done).
  assert (length (take i (tiers opts)) = i) as Hlen by (rewrite length_take, Htiers, length_fmap, length_seq; lia).
  cbn [seq]. rewrite fmap_cons.
  assert (total (lookup_loop opts [memory_tier i] i facts) s
            (λ fh s', match fh.2 with Some _ => loop_end s0 fh s' | None => looked s0 (S i) fh.1 s' end)) as Hone.
  { apply lookup_one; [done|lia|done..]. }
  change (memory_tier i :: ?l) with ([memory_tier i] ++ l). unfold total in *. rewrite lookup_loop_app.
  pose proof (lookup_loop_app (take i (tiers opts)) [memory_tier i] 0 [] s0) as Happ.
  rewrite <-(take_S_r _ _ _ Hti), Hrun, Hlen, Nat.add_0_l in Happ.
  destruct (lookup_loop opts [memory_tier i] i facts s) as [[facts1 [hit|]] s1| |]; [done| |done..].
  cbn [snd fst] in *. rewrite Nat.add_1_r. apply IH; [lia|exact Hone|exact Happ].
Qed.

(** *** Promotions *)

(** What a promotion of [v] to tier [i] did, in a lookup from [s0] whose promotions
    began at [s]: the store is written just if no one has written the key since it
    was asked, and what was written in between stays. *)
Definition promoted (v : T) (s0 s : Stores) (i : nat) (p : ReadThroughPromotionFact) (s' : Stores) : Prop :=
  ∃ sa after,
    asked_at s0 i sa ∧ view (sa i) !! key = None ∧ s i = kv_run after (sa i) ∧
    p_ok p = negb (any_write key after (sa i)) ∧
    view (s' i) = if p_ok p then <[key := v]> (view (s i)) else view (s i).

Lemma promote_store facts v i (s0 s s1 : Stores) :
  i < n → s1 i = s i → asked_store s0 i (generation_for_tier facts i) s →
  total (promote opts facts v i) s1 (λ ps s', ∃ p, ps = [p] ∧ promoted v s0 s i p s' ∧ ∀ j, j ≠ i → s' j = s1 j).
Proof.
  intros Hi Hs1 (sa & after & Hat & Hinv & Hg & Hn & Hs). unfold promote.
  rewrite Htiers, list_lookup_fmap, lookup_seq_lt by done.
  simpl. rewrite Hg. apply total_bind. unfold total at 1, at_store, zoom. rewrite set_if_match_runs.
  apply total_ret. eexists. split; [done|]. split; [|by intros j Hj; rewrite decide_False].
  exists sa, after. rewrite decide_True, Hs1 by done. split_and!; [done..| |].
  - destruct (set_if_match_detects key after (sa i) (Miss (MemoryKv.generation_for key (sa i))) v Hinv) as (s' & Hd).
    + unfold MemoryKv.get_versioned, gets. rewrite view_lookup in Hn. by destruct (MemoryKv.entries _ !! key).
    + simpl in Hd. rewrite <-Hs, set_if_match_runs in Hd. by injection Hd.
  - simpl. destruct (MemoryKv.gen_matches _ _ _); [|done]. unfold view. simpl. by rewrite fmap_insert.
Qed.

Lemma promote_stores facts v m (s0 s : Stores) :
  m ≤ n → (∀ i, i < m → asked_store s0 i (generation_for_tier facts i) s) →
  total (promote_all opts facts v (seq 0 m)) s
    (λ ps s', length ps = m ∧ ∀ i, i < m → ∃ p, ps !! i = Some p ∧ promoted v s0 s i p s').
Proof.
  intros Hm Ha. unfold promote_all.
  enough (∀ k i acc s1, i + k = m → length acc = i → (∀ j, i ≤ j → s1 j = s j) →
            (∀ j, j < i → ∃ p, acc !! j = Some p ∧ promoted v s0 s j p s1) →
            total (fold_each (seq i k) (λ ps i, let! p := promote opts facts v i in ret (ps ++ p)) acc) s1
              (λ ps s', length ps = m ∧ ∀ i, i < m → ∃ p, ps !! i = Some p ∧ promoted v s0 s i p s')) as Hgen.
  { apply (Hgen m 0 []); [done|done|done|lia]. }
  intros k. induction k as [|k IH]; intros i acc s1 Hik Hlen Hsame Hdone.
  { apply total_ret. simpl. split; [lia|]. intros j Hj. apply Hdone. lia. }
  cbn [seq fold_each]. apply total_bind, total_bind. eapply total_conseq.
  { apply (promote_store facts v i s0 s s1); [lia|by apply Hsame|]. apply Ha. lia. }
  intros ? s2 (p & -> & Hp & Hother). apply total_ret. apply IH; [lia|rewrite length_app; simpl; lia|..].
  - intros j Hj. rewrite Hother by lia. apply Hsame. lia.
  - intros j Hj. destruct (decide (j = i)) as [->|Hji].
    + exists p. rewrite lookup_app_r, Hlen, Nat.sub_diag by lia. done.
    + destruct (Hdone j ltac:(lia)) as (q & Hq & Hpr). exists q. rewrite lookup_app_l by lia. split; [done|].
      destruct Hpr as (sa & after & ?). exists sa, after. by rewrite Hother.
Qed.

(** What is known when the promotions begin. *)
Definition ready (s0 : Stores) (fh : Found) (s : Stores) : Prop :=
  match fh.2 with
  | None => True
  | Some (info, v) =>
      let src := source_index opts info in
      src ≤ n ∧ (∀ j, j < src → asked_store s0 j (generation_for_tier fh.1 j) s) ∧
      (src < n → ∃ sa, asked_at s0 src sa ∧ view (sa src) !! key = Some v)
  end.

Lemma tier_count : length (tiers opts) = n.
Proof. by rewrite Htiers, length_fmap, length_seq. Qed.

Lemma note_loader_post s0 facts r s :
  looked s0 n facts s → (∀ o g, r = Ok (o, g) → g = None) →
  total (note_answer opts loader_tier facts r) s (ready s0).
Proof.
  intros Hl Hr. assert (∀ f s', f_tier f = loader_tier → looked s0 n facts s' → ∀ j, j < n →
    asked_store s0 j (generation_for_tier (facts ++ [f]) j) s') as Hgen.
  { intros f s' Hf Hl' j Hj. rewrite generation_app by (rewrite Hf; simpl; right; lia). rewrite Hf.
    rewrite (proj2 (Z.eqb_neq _ _)) by (simpl; lia). by apply Hl'. }
  unfold note_answer. destruct r as [[[v|] g]|e].
  - apply total_ret. unfold ready. cbn [fst snd].
    assert (source_index opts loader_tier = n) as -> by apply tier_count. split; [done|]. split; [|lia]. intros j Hj. by apply Hgen.
  - apply total_bind. unfold total at 1.
    pose proof (call_on_miss_acts key loader_tier s) as Ha.
    destruct (call_on_miss _ _ _ s) as [[] s2|p s2|] eqn:Hc; [by apply total_ret|by apply call_on_miss_returns in Hc|done].
  - apply total_bind. unfold total at 1.
    pose proof (call_on_error_acts key loader_tier Lookup e s) as Ha.
    destruct (call_on_error _ _ _ _ _ s) as [[] s2|p s2|] eqn:Hc; [by apply total_ret|by apply call_on_error_returns in Hc|done].
Qed.

Hypothesis Hpolicy : promote_to opts = AllEarlier.

(** The result of a lookup over in-memory stores. *)
Definition read_through_stores (s0 : Stores) (r : TieredReadThroughResult T) (s' : Stores) : Prop :=
  match value r, hit_tier r with
  | Some v, Some info =>
      let src := source_index opts info in
      src ≤ n ∧ (src < n → ∃ sa, asked_at s0 src sa ∧ view (sa src) !! key = Some v) ∧
      length (promotions r) = src ∧
      ∃ fh s, bind (lookup_loop opts (tiers opts) 0 []) (load_value opts) s0 = Ret fh s ∧ ∀ i, i < src → ∃ p, promotions r !! i = Some p ∧ promoted v s0 s i p s'
  | Some _, None => False
  | None, _ => promotions r = []
  end.

End Run.
End Stores.
