(* ===== verification/Envelopes.v ===== *)
(** * Content-addressed storage, WAL frames and change envelopes (storage.rs)

    A cache keyed by the hash of the canonical JSON of its context; the frames of
    a write-ahead log with their checksums; the envelopes of changes, and the
    frames of observed events.  The codecs check a value before it is written and
    after it is read.

    SHA-256 is a parameter ([Sha256]), and so are the user types ([Serde]) and the
    texts of serde's errors ([DeriveErrors]); what serde derives for the structs
    here is written out ([wal_frame_value], [wal_frame_from], and so on).  The
    fields of a JSON object are in the order of their names. *)

From Stdlib Require Import Ascii String.
From stdpp Require Import base gmap list option numbers strings.
From S2P Require Import Prelude.
From S2P Require Import BTree.
From S2P Require Import Text.
From S2P Require Import Json.
From S2P Require Import Storage.
From S2P Require Import AppendLog.
From S2P Require Import CollectionStorage.

Local Open Scope rx_scope.

(** [Sha256::digest]. *)
Class Sha256 := {
  sha256 : bytes → bytes;
  length_sha256 b : length (sha256 b) = 32
}.

(** What serde says of a field that is missing or of another type. *)
Class DeriveErrors := {
  missing_field : string → string;
  invalid_type : string → Value → string
}.

Definition sha256_hex `{!Sha256} (b : bytes) : bytes :=
  sha256 b ≫= λ c, [hex_nibble (N_of_ascii c / 16); hex_nibble (N_of_ascii c mod 16)].

Definition is_sha256_hex (value : bytes) : bool :=
  (length value =? 64) &&
  forallb (λ c, is_digit c || ((97 <=? N_of_ascii c) && (N_of_ascii c <=? 102))%N) value.

(** [Value::as_object], [Value::as_str] and [Value::as_u64]. *)
Definition value_as_object (v : Value) : option (list (string * Value)) :=
  match v with Obj map => Some map | _ => None end.
Definition value_as_str (v : Value) : option string := match v with Str s => Some s | _ => None end.
Definition value_as_u64 (v : Value) : option N :=
  match v with Num n => Z.to_N <$> as_u64 n | _ => None end.

(** A [u64] as a [Value]. *)
Definition u64_value (n : N) : Value := num (Z.of_N n).

Definition invalid {A} (message : string) : JsonCodecResult A := Err (Validation message).

(** ** Content-addressed storage *)

Inductive ContentAddressedMode := Read | Write | ReadWrite | ReadStrict.

#[export] Instance mode_eq_dec : EqDecision ContentAddressedMode.
Proof. solve_decision. Defined.

Module ContentAddressed.
Section ContentAddressed.
Context {S Ctx V : Type}.

(** [ContentAddressedKvOptions], which [content_addressed_kv] turns into
    [ContentAddressedKv] field by field. *)
Record ContentAddressedKv := mkContentAddressedKv {
  kv : KvStorageTier S V;
  key_context : Ctx → JsonCodecResult Value;
  key_prefix : option string;
  mode : ContentAddressedMode
}.

Definition from_key_context (kv : KvStorageTier S V) (f : Ctx → JsonCodecResult Value) : ContentAddressedKv :=
  mkContentAddressedKv kv f None ReadWrite.
Definition with_key_context (f : Ctx → JsonCodecResult Value) (c : ContentAddressedKv) : ContentAddressedKv :=
  mkContentAddressedKv (kv c) f (key_prefix c) (mode c).
Definition with_key_prefix (prefix : string) (c : ContentAddressedKv) : ContentAddressedKv :=
  mkContentAddressedKv (kv c) (key_context c) (Some prefix) (mode c).
Definition with_mode (m : ContentAddressedMode) (c : ContentAddressedKv) : ContentAddressedKv :=
  mkContentAddressedKv (kv c) (key_context c) (key_prefix c) m.

Context `{!SerdeJson, !Sha256, !TupleText} (c : ContentAddressedKv).

Definition key_for (ctx : Ctx) : StorageResult string :=
  let? context := map_err storage_json_error (key_context c ctx) in
  let? bytes := map_err storage_json_error (strict_canonical_json_bytes context) in
  let hex := str_of (sha256_hex bytes) in
  Ok match key_prefix c with
     | Some prefix => content_addressed_storage_key prefix hex
     | None => hex
     end.

Definition lookup (ctx : Ctx) : M S (StorageResult (option V)) :=
  if bool_decide (mode c = Write) then ret (Ok None) else
  let!? key := ret (key_for ctx) in
  let!? value := kv_get (kv c) key in
  if negb (is_some value) && bool_decide (mode c = ReadStrict) then ret (Err (ContentAddressedMiss key))
  else ret (Ok value).

Definition store (ctx : Ctx) (value : V) : M S (StorageResult unit) :=
  if bool_decide (mode c = Read) then ret (Ok tt) else
  let!? key := ret (key_for ctx) in
  kv_set (kv c) key value.

Definition forget (ctx : Ctx) : M S (StorageResult unit) :=
  if bool_decide (mode c = Read) || bool_decide (mode c = Write) then ret (Ok tt) else
  let!? key := ret (key_for ctx) in
  kv_delete (kv c) key.
End ContentAddressed.
Arguments ContentAddressedKv : clear implicits.
End ContentAddressed.

(** [ContentAddressedKvOptions::new]: the context is its own key. *)
Definition content_addressed_new {S V} (kv : KvStorageTier S V) : ContentAddressed.ContentAddressedKv S Value V :=
  ContentAddressed.from_key_context kv Ok.

(** ** Changes *)

Inductive ChangeLifecycle := Spec | Data | Ownership.

(** [rename_all = "lowercase"]. *)
Definition lifecycle_name (l : ChangeLifecycle) : string :=
  match l with Spec => "spec" | Data => "data" | Ownership => "ownership" end.

Definition lifecycle_of (s : string) : option ChangeLifecycle :=
  if bool_decide (s = "spec") then Some Spec
  else if bool_decide (s = "data") then Some Data
  else if bool_decide (s = "ownership") then Some Ownership
  else None.

(** A clock reading in nanoseconds since the epoch, if it is not before it. *)
Definition now_ns (now : option N) : string := str_of (dec_of_N (default 0%N now)).

(** [assert_non_negative_decimal_integer_string] of a [String]. *)
Definition assert_decimal (value label : string) : JsonCodecResult string :=
  let? b := assert_non_negative_decimal_integer_string (bytes_of value) label in Ok (str_of b).

(** A field of a struct that serde reads. *)
Definition read_field `{!DeriveErrors} {A} (map : list (string * Value)) (name : string)
    (read : Value → Result string A) : Result string A :=
  match bt_get name map with Some v => read v | None => Err (missing_field name) end.

Definition typed `{!DeriveErrors} {A} (name : string) (f : Value → option A) (v : Value) : Result string A :=
  match f v with Some a => Ok a | None => Err (invalid_type name v) end.

(** [Option<A>]: absent and null are [None]. *)
Definition read_optional `{!DeriveErrors} {A} (map : list (string * Value)) (name : string)
    (f : Value → option A) : Result string (option A) :=
  match bt_get name map with
  | None | Some Null => Ok None
  | Some v => let? a := typed name f v in Ok (Some a)
  end.

Definition lifecycle_value (v : Value) : option ChangeLifecycle := s ← value_as_str v; lifecycle_of s.

(** ** WAL frames *)

Definition WAL_KEY_SEGMENT : string := "wal".
Definition WAL_FRAME_SEQ_PAD : nat := 20.
Definition WAL_FORMAT_VERSION : N := 1.

Record WalFrameBody (T : Type) := mkWalFrameBody {
  wb_t : string;
  wb_lifecycle : ChangeLifecycle;
  wb_path : string;
  wb_change : T;
  wb_frame_seq : N;
  wb_frame_t_ns : string;
  wb_format_version : N
}.
Arguments mkWalFrameBody {T}. Arguments wb_t {T}. Arguments wb_lifecycle {T}. Arguments wb_path {T}.
Arguments wb_change {T}. Arguments wb_frame_seq {T}. Arguments wb_frame_t_ns {T}. Arguments wb_format_version {T}.

(** [WalFrame]: the fields of a body and the checksum. *)
Record WalFrame (T : Type) := mkWalFrame { wf_body : WalFrameBody T; wf_checksum : string }.
Arguments mkWalFrame {T}. Arguments wf_body {T}. Arguments wf_checksum {T}.

Record WalFrameOptions (T : Type) := mkWalFrameOptions {
  wo_path : string;
  wo_change : T;
  wo_frame_seq : N;
  wo_lifecycle : ChangeLifecycle;
  wo_frame_t_ns : option string
}.
Arguments mkWalFrameOptions {T}. Arguments wo_path {T}. Arguments wo_change {T}. Arguments wo_frame_seq {T}.
Arguments wo_lifecycle {T}. Arguments wo_frame_t_ns {T}.

Definition wal_frame_prefix (namespace : string) : string :=
  if bool_decide (namespace = "") then WAL_KEY_SEGMENT else namespace +:+ "/" +:+ WAL_KEY_SEGMENT.

Definition wal_frame_key (prefix : string) (frame_seq : N) : string :=
  prefix +:+ "/" +:+ str_of (dec_padded WAL_FRAME_SEQ_PAD frame_seq).

Module Wal.
Section Wal.
Context `{!SerdeJson, !Sha256, !DeriveErrors} {T : Type} `{!Serde T}.

Definition new_options (path : string) (change : T) (frame_seq : N) : WalFrameOptions T :=
  mkWalFrameOptions path change frame_seq Data None.
Definition with_lifecycle (l : ChangeLifecycle) (o : WalFrameOptions T) : WalFrameOptions T :=
  mkWalFrameOptions (wo_path o) (wo_change o) (wo_frame_seq o) l (wo_frame_t_ns o).
Definition with_frame_t_ns (t : string) (o : WalFrameOptions T) : WalFrameOptions T :=
  mkWalFrameOptions (wo_path o) (wo_change o) (wo_frame_seq o) (wo_lifecycle o) (Some t).

(** [serde_json::to_value] of a body and of a frame. *)
Definition wal_body_value (b : WalFrameBody T) : Result string Value :=
  let? change := to_value (wb_change b) in
  Ok (Obj [("change", change);
           ("format_version", u64_value (wb_format_version b));
           ("frame_seq", u64_value (wb_frame_seq b));
           ("frame_t_ns", Str (wb_frame_t_ns b));
           ("lifecycle", Str (lifecycle_name (wb_lifecycle b)));
           ("path", Str (wb_path b));
           ("t", Str (wb_t b))]).

Definition wal_frame_value (f : WalFrame T) : Result string Value :=
  let b := wf_body f in
  let? change := to_value (wb_change b) in
  Ok (Obj [("change", change);
           ("checksum", Str (wf_checksum f));
           ("format_version", u64_value (wb_format_version b));
           ("frame_seq", u64_value (wb_frame_seq b));
           ("frame_t_ns", Str (wb_frame_t_ns b));
           ("lifecycle", Str (lifecycle_name (wb_lifecycle b)));
           ("path", Str (wb_path b));
           ("t", Str (wb_t b))]).

(** [serde_json::from_value]. *)
Definition wal_frame_from (v : Value) : Result string (WalFrame T) :=
  match v with
  | Obj map =>
      let? change := read_field map "change" from_value in
      let? checksum := read_field map "checksum" (typed "checksum" value_as_str) in
      let? format_version := read_field map "format_version" (typed "format_version" value_as_u64) in
      let? frame_seq := read_field map "frame_seq" (typed "frame_seq" value_as_u64) in
      let? frame_t_ns := read_field map "frame_t_ns" (typed "frame_t_ns" value_as_str) in
      let? lifecycle := read_field map "lifecycle" (typed "lifecycle" lifecycle_value) in
      let? path := read_field map "path" (typed "path" value_as_str) in
      let? t := read_field map "t" (typed "t" value_as_str) in
      Ok (mkWalFrame (mkWalFrameBody t lifecycle path change frame_seq frame_t_ns format_version) checksum)
  | v => Err (invalid_type "WalFrame" v)
  end.

Definition known_field (key : string) : bool :=
  existsb (λ k, bool_decide (k = key))
    ["t"; "lifecycle"; "path"; "change"; "frame_seq"; "frame_t_ns"; "format_version"; "checksum"].

(** The loop over the keys of a frame. *)
Fixpoint assert_known_fields (keys : list string) : JsonCodecResult unit :=
  match keys with
  | [] => Ok tt
  | key :: keys =>
      if known_field key then assert_known_fields keys
      else invalid ("walFrameCodec: unknown field " +:+ key)
  end.

Definition assert_wal_frame_body_value (value : Value) (label : string) : JsonCodecResult unit :=
  match value_as_object value with
  | None => invalid (label +:+ ": frame must be an object")
  | Some record =>
      let? _ := assert_known_fields record.*1 in
      if bool_decide (bt_get "t" record ≫= value_as_str ≠ Some "c") then invalid "walFrameCodec: t must be c"
      else if negb (is_some (bt_get "lifecycle" record ≫= lifecycle_value)) then
        invalid "walFrameCodec: lifecycle must be spec, data, or ownership"
      else if match bt_get "path" record ≫= value_as_str with Some path => bool_decide (path = "") | None => true end then
        invalid "walFrameCodec: path must be a non-empty string"
      else if negb (is_some (bt_get "change" record)) then invalid "walFrameCodec: change payload is required"
      else if negb (is_some (bt_get "frame_seq" record ≫= value_as_u64)) then
        invalid "walFrameCodec: frame_seq must be a non-negative integer"
      else
        match bt_get "frame_t_ns" record ≫= value_as_str with
        | None => invalid "walFrameCodec: frame_t_ns must be a canonical non-negative decimal integer string"
        | Some frame_t_ns =>
            let? _ := assert_decimal frame_t_ns "walFrameCodec: frame_t_ns" in
            if bool_decide (bt_get "format_version" record ≫= value_as_u64 ≠ Some WAL_FORMAT_VERSION) then
              invalid ("walFrameCodec: format_version must be " +:+ u64_string WAL_FORMAT_VERSION)
            else Ok tt
        end
  end.

Definition assert_wal_frame_value (value : Value) : JsonCodecResult unit :=
  let? _ := assert_wal_frame_body_value value "walFrameCodec" in
  match value_as_object value with
  | None => invalid "walFrameCodec: frame must be an object"
  | Some record =>
      match bt_get "checksum" record with
      | None => invalid "walFrameCodec: checksum is required"
      | Some checksum =>
          match value_as_str checksum with
          | Some checksum =>
              if is_sha256_hex (bytes_of checksum) then Ok tt
              else invalid "walFrameCodec: checksum must be a lowercase sha256 hex string"
          | None => invalid "walFrameCodec: checksum must be a lowercase sha256 hex string"
          end
      end
  end.

Definition assert_wal_frame_body (b : WalFrameBody T) : JsonCodecResult unit :=
  if bool_decide (wb_t b ≠ "c") then invalid "walFrameCodec: t must be c"
  else if bool_decide (wb_path b = "") then invalid "walFrameCodec: path must be a non-empty string"
  else
    let? _ := assert_decimal (wb_frame_t_ns b) "walFrameCodec: frame_t_ns" in
    if bool_decide (wb_format_version b ≠ WAL_FORMAT_VERSION) then
      invalid ("walFrameCodec: format_version must be " +:+ u64_string WAL_FORMAT_VERSION)
    else
      let? value := map_err Encode (wal_body_value b) in
      assert_wal_frame_body_value value "walFrameCodec".

Definition wal_frame_checksum (b : WalFrameBody T) : StorageResult string :=
  let? _ := map_err storage_json_error (assert_wal_frame_body b) in
  let? value := map_err Backend (wal_body_value b) in
  let? _ := map_err storage_json_error (assert_wal_frame_body_value value "walFrameCodec") in
  let? bytes := map_err storage_json_error (strict_canonical_json_bytes value) in
  Ok (str_of (sha256_hex bytes)).

Definition wal_frame (now : option N) (opts : WalFrameOptions T) : StorageResult (WalFrame T) :=
  let? frame_t_ns :=
    match wo_frame_t_ns opts with
    | Some value => map_err storage_json_error (assert_decimal value "walFrameCodec: frame_t_ns")
    | None => Ok (now_ns now)
    end in
  let body := mkWalFrameBody "c" (wo_lifecycle opts) (wo_path opts) (wo_change opts) (wo_frame_seq opts)
                frame_t_ns WAL_FORMAT_VERSION in
  let? checksum := wal_frame_checksum body in
  Ok (mkWalFrame body checksum).

Definition assert_wal_frame (f : WalFrame T) : JsonCodecResult unit :=
  let? _ := assert_wal_frame_body (wf_body f) in
  if is_sha256_hex (bytes_of (wf_checksum f)) then Ok tt
  else invalid "walFrameCodec: checksum must be a lowercase sha256 hex string".

Definition verify_wal_frame_checksum (f : WalFrame T) : StorageResult bool :=
  let? _ := map_err storage_json_error (assert_wal_frame f) in
  let? checksum := wal_frame_checksum (wf_body f) in
  Ok (bool_decide (checksum = wf_checksum f)).

(** [WalFrameCodec]. *)
Definition encode (f : WalFrame T) : JsonCodecResult bytes :=
  let? _ := assert_wal_frame f in
  let? value := map_err Encode (wal_frame_value f) in
  let? _ := assert_wal_frame_value value in
  strict_canonical_json_bytes value.

Definition decode (utf8 : bytes → option string) (b : bytes) : M Scanner (JsonCodecResult (WalFrame T)) :=
  let!? value := strict_json_decode utf8 b in
  let!? _ := ret (assert_wal_frame_value value) in
  ret (map_err Decode (wal_frame_from value)).
End Wal.
End Wal.

(** ** Change envelopes *)

Record ChangeEnvelope (T : Type) := mkChangeEnvelope {
  ce_lifecycle : ChangeLifecycle;
  ce_structure : string;
  ce_version : Value;
  ce_t_ns : string;
  ce_seq : option N;
  ce_change : T
}.
Arguments mkChangeEnvelope {T}. Arguments ce_lifecycle {T}. Arguments ce_structure {T}. Arguments ce_version {T}.
Arguments ce_t_ns {T}. Arguments ce_seq {T}. Arguments ce_change {T}.

Record ChangeEnvelopeOptions := mkChangeEnvelopeOptions {
  eo_lifecycle : ChangeLifecycle;
  eo_structure : string;
  eo_version : Value;
  eo_t_ns : option string;
  eo_seq : option N
}.

(** The entry of an optional field; none is not written. *)
Definition optional_entry {A} (name : string) (f : A → Value) (o : option A) : list (string * Value) :=
  match o with Some a => [(name, f a)] | None => [] end.

Module Envelope.
Definition new_options (structure : string) : ChangeEnvelopeOptions :=
  mkChangeEnvelopeOptions Data structure (u64_value 1) None None.
Definition with_lifecycle (l : ChangeLifecycle) (o : ChangeEnvelopeOptions) : ChangeEnvelopeOptions :=
  mkChangeEnvelopeOptions l (eo_structure o) (eo_version o) (eo_t_ns o) (eo_seq o).
Definition with_version (v : Value) (o : ChangeEnvelopeOptions) : ChangeEnvelopeOptions :=
  mkChangeEnvelopeOptions (eo_lifecycle o) (eo_structure o) v (eo_t_ns o) (eo_seq o).
Definition with_t_ns (t : string) (o : ChangeEnvelopeOptions) : ChangeEnvelopeOptions :=
  mkChangeEnvelopeOptions (eo_lifecycle o) (eo_structure o) (eo_version o) (Some t) (eo_seq o).
Definition with_seq (n : N) (o : ChangeEnvelopeOptions) : ChangeEnvelopeOptions :=
  mkChangeEnvelopeOptions (eo_lifecycle o) (eo_structure o) (eo_version o) (eo_t_ns o) (Some n).

Section Envelope.
Context `{!SerdeJson, !DeriveErrors} {T : Type}.

Definition assert_change_envelope (e : ChangeEnvelope T) : JsonCodecResult unit :=
  if bool_decide (ce_structure e = "") then invalid "changeEnvelopeCodec: structure must be a non-empty string"
  else
    let? _ := assert_decimal (ce_t_ns e) "changeEnvelopeCodec: t_ns" in
    match ce_version e with
    | Num _ | Str _ => Ok tt
    | _ => invalid "changeEnvelopeCodec: version must be a finite number or string"
    end.

Definition assert_change_envelope_value (value : Value) (label : string) : JsonCodecResult unit :=
  match value_as_object value with
  | None => invalid (label +:+ ": frame must be an object")
  | Some record =>
      if negb (is_some (bt_get "lifecycle" record ≫= lifecycle_value)) then
        invalid "changeEnvelopeCodec: lifecycle must be spec, data, or ownership"
      else if match bt_get "structure" record ≫= value_as_str with Some s => bool_decide (s = "") | None => true end then
        invalid "changeEnvelopeCodec: structure must be a non-empty string"
      else if match bt_get "version" record with Some (Num _ | Str _) => false | _ => true end then
        invalid "changeEnvelopeCodec: version must be a finite number or string"
      else
        match bt_get "t_ns" record ≫= value_as_str with
        | None => invalid "changeEnvelopeCodec: t_ns must be a canonical non-negative decimal integer string"
        | Some t_ns =>
            let? _ := assert_decimal t_ns "changeEnvelopeCodec: t_ns" in
            if match bt_get "seq" record with Some seq => negb (is_some (value_as_u64 seq)) | None => false end then
              invalid "changeEnvelopeCodec: seq must be a non-negative integer when present"
            else if negb (is_some (bt_get "change" record)) then
              invalid "changeEnvelopeCodec: change payload is required"
            else Ok tt
        end
  end.

(** [envelope_change], at a reading of the clock. *)
Definition envelope_change (now : option N) (change : T) (opts : ChangeEnvelopeOptions) :
    StorageResult (ChangeEnvelope T) :=
  if bool_decide (eo_structure opts = "") then
    backend "changeEnvelopeCodec: structure must be a non-empty string"
  else
    let? t_ns :=
      match eo_t_ns opts with
      | Some value => map_err storage_json_error (assert_decimal value "changeEnvelopeCodec: t_ns")
      | None => Ok (now_ns now)
      end in
    let envelope := mkChangeEnvelope (eo_lifecycle opts) (eo_structure opts) (eo_version opts) t_ns
                      (eo_seq opts) change in
    let? _ := map_err storage_json_error (assert_change_envelope envelope) in
    Ok envelope.

Context `{!Serde T}.

Definition change_envelope_value (e : ChangeEnvelope T) : Result string Value :=
  let? change := to_value (ce_change e) in
  Ok (Obj ([("change", change); ("lifecycle", Str (lifecycle_name (ce_lifecycle e)))]
           ++ optional_entry "seq" u64_value (ce_seq e)
           ++ [("structure", Str (ce_structure e)); ("t_ns", Str (ce_t_ns e)); ("version", ce_version e)])).

Definition change_envelope_from (v : Value) : Result string (ChangeEnvelope T) :=
  match v with
  | Obj map =>
      let? change := read_field map "change" from_value in
      let? lifecycle := read_field map "lifecycle" (typed "lifecycle" lifecycle_value) in
      let? seq := read_optional map "seq" value_as_u64 in
      let? structure := read_field map "structure" (typed "structure" value_as_str) in
      let? t_ns := read_field map "t_ns" (typed "t_ns" value_as_str) in
      let? version := read_field map "version" Ok in
      Ok (mkChangeEnvelope lifecycle structure version t_ns seq change)
  | v => Err (invalid_type "ChangeEnvelope" v)
  end.

(** [ChangeEnvelopeCodec]. *)
Definition encode (e : ChangeEnvelope T) : JsonCodecResult bytes :=
  let? _ := assert_change_envelope e in
  let? value := map_err Encode (change_envelope_value e) in
  strict_canonical_json_bytes value.

Definition decode (utf8 : bytes → option string) (b : bytes) : M Scanner (JsonCodecResult (ChangeEnvelope T)) :=
  let!? value := strict_json_decode utf8 b in
  let!? _ := ret (assert_change_envelope_value value "changeEnvelopeCodec") in
  ret (map_err Decode (change_envelope_from value)).
End Envelope.
End Envelope.

(** ** Observed events *)

(** [ObserveEventFrame]: the fields of an envelope and three more. *)
Record ObserveEventFrame (T : Type) := mkObserveEventFrame {
  oe_envelope : ChangeEnvelope T;
  oe_observe_seq : N;
  oe_path : string;
  oe_stream : option string
}.
Arguments mkObserveEventFrame {T}. Arguments oe_envelope {T}. Arguments oe_observe_seq {T}.
Arguments oe_path {T}. Arguments oe_stream {T}.

Record ObserveEventFrameOptions := mkObserveEventFrameOptions { oo_stream : option string }.

Module Observe.
Definition with_stream (stream : string) (o : ObserveEventFrameOptions) : ObserveEventFrameOptions :=
  mkObserveEventFrameOptions (Some stream).

Section Observe.
Context `{!SerdeJson, !DeriveErrors} {T : Type}.

Definition observe_event_frame (now : option N) (observe_seq : N) (path : string) (change : T)
    (opts : ObserveEventFrameOptions) : StorageResult (ObserveEventFrame T) :=
  let? envelope := Envelope.envelope_change now change
                     (Envelope.with_seq observe_seq (Envelope.new_options "observe-event")) in
  Ok (mkObserveEventFrame envelope observe_seq path (oo_stream opts)).

(** The assertion looks at the envelope of the frame without its change. *)
Definition assert_observe_event_frame (f : ObserveEventFrame T) : JsonCodecResult unit :=
  let e := oe_envelope f in
  let? _ := Envelope.assert_change_envelope
              (mkChangeEnvelope (ce_lifecycle e) (ce_structure e) (ce_version e) (ce_t_ns e) (ce_seq e) tt) in
  if bool_decide (ce_structure e ≠ "observe-event") then
    invalid "observeEventFrameCodec: structure must be observe-event"
  else Ok tt.

Definition assert_observe_event_frame_value (value : Value) : JsonCodecResult unit :=
  let? _ := Envelope.assert_change_envelope_value value "observeEventFrameCodec" in
  match value_as_object value with
  | None => invalid "observeEventFrameCodec: frame must be an object"
  | Some record =>
      if bool_decide (bt_get "structure" record ≫= value_as_str ≠ Some "observe-event") then
        invalid "observeEventFrameCodec: structure must be observe-event"
      else if negb (is_some (bt_get "observeSeq" record ≫= value_as_u64)) then
        invalid "observeEventFrameCodec: observeSeq must be a non-negative integer"
      else if negb (is_some (bt_get "path" record ≫= value_as_str)) then
        invalid "observeEventFrameCodec: path must be a string"
      else if match bt_get "stream" record with Some stream => negb (is_some (value_as_str stream)) | None => false end then
        invalid "observeEventFrameCodec: stream must be a string when present"
      else Ok tt
  end.

Context `{!Serde T}.

Definition observe_event_value (f : ObserveEventFrame T) : Result string Value :=
  let e := oe_envelope f in
  let? change := to_value (ce_change e) in
  Ok (Obj ([("change", change); ("lifecycle", Str (lifecycle_name (ce_lifecycle e)));
            ("observeSeq", u64_value (oe_observe_seq f)); ("path", Str (oe_path f))]
           ++ optional_entry "seq" u64_value (ce_seq e)
           ++ optional_entry "stream" Str (oe_stream f)
           ++ [("structure", Str (ce_structure e)); ("t_ns", Str (ce_t_ns e)); ("version", ce_version e)])).

Definition observe_event_from (v : Value) : Result string (ObserveEventFrame T) :=
  match v with
  | Obj map =>
      let? e := Envelope.change_envelope_from v in
      let? observe_seq := read_field map "observeSeq" (typed "observeSeq" value_as_u64) in
      let? path := read_field map "path" (typed "path" value_as_str) in
      let? stream := read_optional map "stream" value_as_str in
      Ok (mkObserveEventFrame e observe_seq path stream)
  | v => Err (invalid_type "ObserveEventFrame" v)
  end.

(** [ObserveEventFrameCodec]. *)
Definition encode (f : ObserveEventFrame T) : JsonCodecResult bytes :=
  let? _ := assert_observe_event_frame f in
  let? value := map_err Encode (observe_event_value f) in
  strict_canonical_json_bytes value.

Definition decode (utf8 : bytes → option string) (b : bytes) : M Scanner (JsonCodecResult (ObserveEventFrame T)) :=
  let!? value := strict_json_decode utf8 b in
  let!? _ := ret (assert_observe_event_frame_value value) in
  ret (map_err Decode (observe_event_from value)).

Definition read_observe_event_log_page {S} (log : AppendLogTier S (ObserveEventFrame T)) (opts : AppendLogReadOptions) :
    M S (StorageResult (AppendLogPage (ObserveEventFrame T))) :=
  read_append_log_page log opts.
End Observe.
End Observe.
