(* ===== verification/EnvelopesFacts.v ===== *)
(** * Facts about content-addressed storage, WAL frames and envelopes

    A value stored under a context is found under the contexts of the same
    canonical JSON; a WAL frame survives its codec and its checksum tells it from
    every other frame; envelopes and observed events survive theirs.  Where two
    inputs would have to have one SHA-256 digest, the statements say so
    ([collision]). *)

From Stdlib Require Import Ascii String Sorted.
From stdpp Require Import base gmap list option numbers strings pretty.
From S2P Require Import Prelude.
From S2P Require Import BTree.
From S2P Require Import Text.
From S2P Require Import Json.
From S2P Require Import JsonAccept.
From S2P Require Import JsonCanon.
From S2P Require Import Storage.
From S2P Require Import StorageFacts.
From S2P Require Import AppendLog.
From S2P Require Import CollectionStorage.
From S2P Require Import Envelopes.

Local Open Scope rx_scope.

(** ** Digests *)

Section Digest.
Context `{!Sha256}.

(** Two inputs of one digest. *)
Definition collision : Prop := ∃ x y : bytes, x ≠ y ∧ sha256 x = sha256 y.

Lemma hex_is_hex l :
  forallb (λ c, is_digit c || ((97 <=? N_of_ascii c) && (N_of_ascii c <=? 102))%N)
    (l ≫= λ c, [hex_nibble (N_of_ascii c / 16); hex_nibble (N_of_ascii c mod 16)]) = true.
Proof.
  induction l as [|c l IH]; [done|]. cbn [mbind list_bind]. rewrite forallb_app. apply andb_true_iff. split; [|exact IH].
  by destruct c as [[] [] [] [] [] [] [] []].
Qed.

Lemma length_hex l :
  length (l ≫= λ c, [hex_nibble (N_of_ascii c / 16); hex_nibble (N_of_ascii c mod 16)]) = 2 * length l.
Proof. induction l as [|c l IH]; [done|]. cbn [mbind list_bind length]. rewrite length_app, IH. simpl. lia. Qed.

Lemma sha256_hex_is_hex b : is_sha256_hex (sha256_hex b) = true.
Proof. unfold is_sha256_hex, sha256_hex. by rewrite length_hex, length_sha256, hex_is_hex. Qed.

Lemma hex_inj l l' :
  (l ≫= λ c, [hex_nibble (N_of_ascii c / 16); hex_nibble (N_of_ascii c mod 16)])
  = (l' ≫= λ c, [hex_nibble (N_of_ascii c / 16); hex_nibble (N_of_ascii c mod 16)]) → l = l'.
Proof.
  revert l'. induction l as [|c l IH]; intros [|c' l']; try done. cbn [mbind list_bind app]. intros [= H1 H2 H3].
  f_equal; [|by apply IH].
  destruct (hex_round_trip c) as (Hh & Hl & Hc), (hex_round_trip c') as (Hh' & Hl' & Hc').
  rewrite H1, Hh' in Hh. rewrite H2, Hl' in Hl. injection Hh as Hh. injection Hl as Hl. by rewrite <-Hc, <-Hc', Hh, Hl.
Qed.

Lemma sha256_hex_inj x y : sha256_hex x = sha256_hex y → x = y ∨ collision.
Proof.
  intros Hh%hex_inj. destruct (decide (x = y)); [by left|]. right. by exists x, y.
Qed.
End Digest.

(** ** Content-addressed storage *)

Section ContentAddressed.
Import ContentAddressed.
Context `{!SerdeJson, !SerdeJsonLaws, !Sha256, !TupleText} {S Ctx V : Type}
  (c : ContentAddressedKv S Ctx V) (view : S → gmap string V) `{!KvSpec (kv c) view}.

(** Contexts whose values have one canonical form. *)
Definition same_context (ctx ctx' : Ctx) : Prop :=
  ∃ v v', key_context c ctx = Ok v ∧ key_context c ctx' = Ok v' ∧ norm_value v = norm_value v'.

Definition contexts_wf : Prop := ∀ ctx v, key_context c ctx = Ok v → value_wf v.

Lemma key_for_Ok ctx k :
  key_for c ctx = Ok k →
  ∃ v b, key_context c ctx = Ok v ∧ strict_canonical_json_bytes v = Ok b ∧
    k = match key_prefix c with
        | Some prefix => content_addressed_storage_key prefix (str_of (sha256_hex b))
        | None => str_of (sha256_hex b)
        end.
Proof.
  unfold key_for. destruct (key_context c ctx) as [v|]; [|done]. simpl.
  destruct (strict_canonical_json_bytes v) as [b|] eqn:Hb; [|done]. simpl. intros [= <-]. by exists v, b.
Qed.

(** Two contexts have one key just if they have one canonical form. *)
Lemma key_for_same ctx ctx' k k' :
  contexts_wf → key_for c ctx = Ok k → key_for c ctx' = Ok k' →
  (same_context ctx ctx' → k = k') ∧ (k = k' → same_context ctx ctx' ∨ collision).
Proof.
  intros Hwf (v & b & Hv & Hb & Hk)%key_for_Ok (v' & b' & Hv' & Hb' & Hk')%key_for_Ok. split.
  - intros (w & w' & Hw & Hw' & Hn). assert (w = v) as -> by congruence. assert (w' = v') as -> by congruence.
    enough (b = b') as Hbb by by rewrite Hk, Hk', Hbb.
    unfold strict_canonical_json_bytes, stable_json_string in Hb, Hb'.
    destruct (validate_strict_json_value v "$"); [|done]. destruct (validate_strict_json_value v' "$"); [|done].
    injection Hb as <-. injection Hb' as <-.
    rewrite <-(canonical_norm v), <-(canonical_norm v') by by eapply Hwf. by rewrite Hn.
  - intros Heq. assert (sha256_hex b = sha256_hex b') as Hh.
    { assert (str_of (sha256_hex b) = str_of (sha256_hex b')) as Hs.
      { rewrite Hk, Hk' in Heq. destruct (key_prefix c); [|done].
        apply (compound_tuple_key_inj _ [_] [_]) in Heq. by injection Heq. }
      by rewrite <-(bytes_of_str (sha256_hex b)), Hs, bytes_of_str. }
    destruct (sha256_hex_inj _ _ Hh) as [->|]; [left|by right].
    exists v, v'. split_and!; [done..|]. eapply canonical_bytes_identify; [by eapply Hwf..|done|done].
Qed.

(** What a lookup that finds [o] under a key answers. *)
Definition found (k : string) (o : option V) : StorageResult (option V) :=
  match o with
  | Some v => Ok (Some v)
  | None => if decide (mode c = ReadStrict) then Err (ContentAddressedMiss k) else Ok None
  end.

End ContentAddressed.

(** ** Values *)

Lemma u64_value_eq n : u64_value n = Num (PosInt (Z.of_N n)).
Proof. unfold u64_value, num. by rewrite (proj2 (Z.leb_le _ _)) by lia. Qed.

Lemma as_u64_value n : value_as_u64 (u64_value n) = Some n.
Proof. rewrite u64_value_eq. simpl. by rewrite N2Z.id. Qed.

Lemma norm_u64 n : norm_value (u64_value n) = u64_value n.
Proof. by rewrite u64_value_eq. Qed.

Lemma lifecycle_of_name l : lifecycle_of (lifecycle_name l) = Some l.
Proof. by destruct l. Qed.

Lemma assert_decimal_Ok s label s' : assert_decimal s label = Ok s' → s' = s ∧ ∀ label', assert_decimal s label' = Ok s.
Proof.
  unfold assert_decimal, assert_non_negative_decimal_integer_string.
  destruct (is_non_negative_decimal_integer_string (bytes_of s)); [|done]. simpl. rewrite str_of_bytes. by intros [= <-].
Qed.

(** Writing and reading a user type: what is written is a value, and the form it
    is read back in is read as it was. *)
Class SerdeValue (T : Type) `{!Serde T} : Prop :=
  serde_value (x : T) v : to_value x = Ok v → value_wf v ∧ from_value (norm_value v) = Ok x.

Section Codecs.
Context `{!SerdeJson, !SerdeJsonLaws, !Sha256, !DeriveErrors} {T : Type} `{!Serde T, !SerdeValue T}.

Lemma to_value_inj (x y : T) v w : to_value x = Ok v → to_value y = Ok w → norm_value v = norm_value w → x = y.
Proof. intros [_ Hx]%serde_value [_ Hy]%serde_value Hn. rewrite Hn in Hx. congruence. Qed.

(** ** WAL frames *)

Definition u64 (n : N) : Prop := (n < u64_bound)%N.

Lemma value_wf_u64 n : u64 n → value_wf (u64_value n).
Proof. unfold u64, u64_bound. rewrite u64_value_eq. intros Hn. change (0 <= Z.of_N n < Z.of_N 18446744073709551616)%Z. lia. Qed.

Import Wal.

Lemma wal_body_wf (b : WalFrameBody T) v :
  u64 (wb_frame_seq b) → u64 (wb_format_version b) → wal_body_value b = Ok v → value_wf v.
Proof.
  intros Hs Hf. unfold wal_body_value. destruct (to_value (wb_change b)) as [c|] eqn:Hc; [|done]. intros [= <-].
  apply serde_value in Hc as [Hc _]. apply value_all_obj. split.
  - unfold bt_wf. repeat constructor.
  - repeat (apply Forall_cons; split); try done; by apply value_wf_u64.
Qed.

Lemma wal_frame_wf (f : WalFrame T) v :
  u64 (wb_frame_seq (wf_body f)) → u64 (wb_format_version (wf_body f)) → wal_frame_value f = Ok v → value_wf v.
Proof.
  intros Hs Hf. unfold wal_frame_value. destruct (to_value (wb_change (wf_body f))) as [c|] eqn:Hc; [|done]. intros [= <-].
  apply serde_value in Hc as [Hc _]. apply value_all_obj. split.
  - unfold bt_wf. repeat constructor.
  - repeat (apply Forall_cons; split); try done; by apply value_wf_u64.
Qed.

(** What the assertions require of a body. *)
Definition body_ok (b : WalFrameBody T) : Prop :=
  wb_t b = "c" ∧ wb_path b ≠ "" ∧ is_non_negative_decimal_integer_string (bytes_of (wb_frame_t_ns b)) = true ∧
  wb_format_version b = WAL_FORMAT_VERSION.

(** The fields of a body as they are read, whatever its change. *)
Definition body_fields (b : WalFrameBody T) (change : Value) : list (string * Value) :=
  [("change", change); ("format_version", u64_value (wb_format_version b)); ("frame_seq", u64_value (wb_frame_seq b));
   ("frame_t_ns", Str (wb_frame_t_ns b)); ("lifecycle", Str (lifecycle_name (wb_lifecycle b)));
   ("path", Str (wb_path b)); ("t", Str (wb_t b))].

Definition frame_fields (b : WalFrameBody T) (change : Value) (checksum : string) : list (string * Value) :=
  [("change", change); ("checksum", Str checksum); ("format_version", u64_value (wb_format_version b));
   ("frame_seq", u64_value (wb_frame_seq b)); ("frame_t_ns", Str (wb_frame_t_ns b));
   ("lifecycle", Str (lifecycle_name (wb_lifecycle b))); ("path", Str (wb_path b)); ("t", Str (wb_t b))].

Definition some_fields (with_checksum : bool) (b : WalFrameBody T) (c : Value) (ck : string) : list (string * Value) :=
  if with_checksum then frame_fields b c ck else body_fields b c.

Lemma fields_get w b c ck :
  bt_get "t" (some_fields w b c ck) = Some (Str (wb_t b)) ∧
  bt_get "lifecycle" (some_fields w b c ck) = Some (Str (lifecycle_name (wb_lifecycle b))) ∧
  bt_get "path" (some_fields w b c ck) = Some (Str (wb_path b)) ∧
  bt_get "change" (some_fields w b c ck) = Some c ∧
  bt_get "frame_seq" (some_fields w b c ck) = Some (u64_value (wb_frame_seq b)) ∧
  bt_get "frame_t_ns" (some_fields w b c ck) = Some (Str (wb_frame_t_ns b)) ∧
  bt_get "format_version" (some_fields w b c ck) = Some (u64_value (wb_format_version b)).
Proof. by destruct w. Qed.

Lemma assert_fields w b c ck label :
  assert_wal_frame_body_value (Obj (some_fields w b c ck)) label = Ok tt ↔ body_ok b.
Proof.
  unfold assert_wal_frame_body_value, value_as_object.
  assert (assert_known_fields (some_fields w b c ck).*1 = Ok tt) as -> by by destruct w.
  destruct (fields_get w b c ck) as (-> & -> & -> & -> & -> & -> & ->). cbn [mbind option_bind rbind].
  unfold lifecycle_value. cbn [value_as_str mbind option_bind]. rewrite lifecycle_of_name, !as_u64_value. cbn [is_some negb].
  unfold body_ok, assert_decimal, assert_non_negative_decimal_integer_string.
  case_bool_decide as Ht; [split; [done|intros (He & _); destruct Ht; by rewrite He]|].
  case_bool_decide as Hp; [split; [done|by intros (_ & ? & _)]|].
  destruct (is_non_negative_decimal_integer_string _); cbn [rbind]; [|by split; [|intros (_ & _ & ? & _)]].
  case_bool_decide as Hf; [split; [done|intros (_ & _ & _ & He); destruct Hf; by rewrite He]|].
  split; [intros _|done]. split_and!; [|done|done|].
  - by injection Ht.
  - by injection Hf.
Qed.

Lemma assert_body_spec b : assert_wal_frame_body b = Ok tt ↔ body_ok b ∧ ∃ c, to_value (wb_change b) = Ok c.
Proof.
  unfold assert_wal_frame_body, assert_decimal, assert_non_negative_decimal_integer_string, wal_body_value.
  case_bool_decide as Ht; [split; [done|by intros ((? & _) & _)]|].
  case_bool_decide as Hp; [split; [done|by intros ((_ & ? & _) & _)]|].
  destruct (is_non_negative_decimal_integer_string _) eqn:Hd; cbn [rbind];
    [|split; [done|intros ((_ & _ & Hn & _) & _); congruence]].
  case_bool_decide as Hf; [split; [done|by intros ((_ & _ & _ & ?) & _)]|].
  destruct (to_value (wb_change b)) as [c|]; cbn [rbind map_err]; [|split; [done|by intros (_ & ? & ?)]].
  change (Obj _) with (Obj (some_fields false b c "")). rewrite assert_fields. naive_solver.
Qed.

(** A checksum is the hash of the canonical JSON of a body that is in order. *)
Lemma checksum_spec b ck :
  wal_frame_checksum b = Ok ck ↔
  body_ok b ∧ ∃ v bytes, wal_body_value b = Ok v ∧ strict_canonical_json_bytes v = Ok bytes ∧ ck = str_of (sha256_hex bytes).
Proof.
  unfold wal_frame_checksum. pose proof (assert_body_spec b) as Ha.
  destruct (assert_wal_frame_body b) as [[]|e]; cbn [rbind map_err].
  - destruct Ha as [[Hok [c Hc]] _]; [done|]. unfold wal_body_value. rewrite Hc. cbn [rbind map_err].
    pose proof (assert_fields false b c "" "walFrameCodec") as Hf. unfold some_fields, body_fields in Hf.
    rewrite (proj2 Hf Hok). cbn [rbind map_err]. destruct (strict_canonical_json_bytes _) as [bytes|] eqn:Hb; cbn [rbind map_err].
    + split; [intros [= <-]|]; [by eauto 10|]. intros (_ & v & b' & [= <-] & Hb' & ->). congruence.
    + split; [done|]. intros (_ & v & b' & [= <-] & Hb' & _). congruence.
  - split; [done|]. intros (Hok & v & b' & Hv & _). destruct Ha as [_ Ha]. discriminate Ha. split; [done|].
    unfold wal_body_value in Hv. destruct (to_value (wb_change b)) as [c|]; [by exists c|done].
Qed.

(** A frame that [wal_frame] makes. *)
Lemma wal_frame_Ok now opts f :
  wal_frame now opts = Ok f →
  wal_frame_checksum (wf_body f) = Ok (wf_checksum f) ∧ wb_frame_seq (wf_body f) = wo_frame_seq opts ∧
  wb_change (wf_body f) = wo_change opts ∧ wb_path (wf_body f) = wo_path opts ∧ wb_lifecycle (wf_body f) = wo_lifecycle opts.
Proof.
  unfold wal_frame. destruct (match wo_frame_t_ns opts with Some _ => _ | None => _ end) as [t|]; [|done]. cbn [rbind].
  destruct (wal_frame_checksum _) as [ck|] eqn:Hc; [|done]. cbn [rbind]. by intros [= <-].
Qed.

Lemma assert_frame_spec f :
  assert_wal_frame f = Ok tt ↔ assert_wal_frame_body (wf_body f) = Ok tt ∧ is_sha256_hex (bytes_of (wf_checksum f)) = true.
Proof.
  unfold assert_wal_frame. destruct (assert_wal_frame_body (wf_body f)) as [[]|]; cbn [rbind]; [|naive_solver].
  destruct (is_sha256_hex _); naive_solver.
Qed.

(** [verify_wal_frame_checksum] recomputes it. *)
Lemma verify_spec f r :
  is_sha256_hex (bytes_of (wf_checksum f)) = true →
  (verify_wal_frame_checksum f = Ok r ↔
   ∃ ck, wal_frame_checksum (wf_body f) = Ok ck ∧ r = bool_decide (ck = wf_checksum f)).
Proof.
  intros Hh. unfold verify_wal_frame_checksum.
  destruct (assert_wal_frame f) as [[]|e] eqn:Ha; cbn [rbind map_err].
  - destruct (wal_frame_checksum (wf_body f)) as [ck|]; cbn [rbind]; naive_solver.
  - split; [done|]. intros (ck & (Hok & v & b & Hv & _)%checksum_spec & _).
    assert (assert_wal_frame f = Ok tt) as Hn; [|congruence]. apply assert_frame_spec. split; [|done].
    apply assert_body_spec. split; [done|]. unfold wal_body_value in Hv.
    destruct (to_value (wb_change (wf_body f))) as [c|]; [by exists c|done].
Qed.

(** *** The codec *)

Lemma frame_canonical (b : WalFrameBody T) (c : Value) (ck : string) x :
  value_wf (Obj (frame_fields b c ck)) →
  strict_canonical_json_bytes (Obj (body_fields b c)) = Ok x →
  ∃ x', strict_canonical_json_bytes (Obj (frame_fields b c ck)) = Ok x'.
Proof.
  intros Hwf. unfold strict_canonical_json_bytes, stable_json_string, validate_strict_json_value.
  destruct (validate_strict_json_value_inner (Obj (body_fields b c)) "$" 0) as [[]|] eqn:Hv; [|done].
  intros _. assert (validate_strict_json_value_inner (Obj (frame_fields b c ck)) "$" 0 = Ok tt) as ->; [|by eexists].
  apply validate_obj in Hv as [_ Hv]. apply validate_obj. split; [lia|]. intros k v Hin.
  apply elem_of_cons in Hin as [[= -> ->]|[[= -> ->]|Hin]%elem_of_cons]; [apply Hv; by left|done|].
  apply Hv. by right.
Qed.

Lemma wal_frame_from_fields b c' ck :
  from_value c' = Ok (wb_change b) → wal_frame_from (Obj (frame_fields b c' ck)) = Ok (mkWalFrame b ck).
Proof.
  intros Hc. unfold wal_frame_from, read_field. destruct (fields_get true b c' ck) as (H1' & H2' & H3' & H4' & H5' & H6' & H7').
  cbn [some_fields] in *. rewrite H1', H2', H3', H4', H5', H6', H7'.
  assert (bt_get "checksum" (frame_fields b c' ck) = Some (Str ck)) as -> by done.
  rewrite Hc. cbn [rbind]. unfold typed. rewrite !as_u64_value. unfold lifecycle_value.
  cbn [value_as_str mbind option_bind]. rewrite lifecycle_of_name. cbn [rbind]. by destruct b.
Qed.

(** C23: A WAL frame survives its codec, with its checksum.  Whatever is given for
    its fields, a frame that could be made is encoded, decoded it is the same
    frame, and its checksum verifies. *)
Theorem wal_frame_round_trip now opts f utf8 s :
  u64 (wo_frame_seq opts) → wal_frame now opts = Ok f →
  verify_wal_frame_checksum f = Ok true ∧
  ∃ v b, wal_frame_value f = Ok v ∧ encode f = Ok b ∧
    (utf8 b = None → parse_json b = Ok (norm_value v) → ∃ s', decode utf8 b s = Ret (Ok f) s').
Proof.
  intros Hu (Hck & Hseq & _)%wal_frame_Ok. pose proof Hck as (Hok & v & x & Hv & Hx & Hs)%checksum_spec.
  assert (is_sha256_hex (bytes_of (wf_checksum f)) = true) as Hhex by (rewrite Hs, bytes_of_str; apply sha256_hex_is_hex).
  split; [apply verify_spec; [done|]; exists (wf_checksum f); by rewrite bool_decide_eq_true_2|].
  destruct f as [b ck]. cbn [wf_body wf_checksum] in *. unfold wal_body_value in Hv.
  destruct (to_value (wb_change b)) as [c|] eqn:Hc; [|done]. cbn [rbind] in Hv.
  assert (Obj (body_fields b c) = v) as <- by by injection Hv. clear Hv.
  assert (wal_frame_value (mkWalFrame b ck) = Ok (Obj (frame_fields b c ck))) as Hfv
    by (unfold wal_frame_value; cbn [wf_body wf_checksum]; by rewrite Hc).
  assert (value_wf (Obj (frame_fields b c ck))) as Hwf.
  { apply (wal_frame_wf (mkWalFrame b ck)); [cbn [wf_body]; by rewrite Hseq| |done]. cbn [wf_body]. destruct Hok as (_ & _ & _ & ->). done. }
  destruct (frame_canonical b c ck x Hwf Hx) as [x' Hx'].
  assert (∀ c', assert_wal_frame_value (Obj (frame_fields b c' ck)) = Ok tt) as Hassert.
  { intros c'. unfold assert_wal_frame_value. rewrite (proj2 (assert_fields true b c' ck _) Hok). cbn [rbind value_as_object].
    assert (bt_get "checksum" (frame_fields b c' ck) = Some (Str ck)) as -> by done. cbn [value_as_str]. by rewrite Hhex. }
  exists (Obj (frame_fields b c ck)), x'. split; [done|]. split.
  - unfold encode. rewrite (proj2 (assert_frame_spec (mkWalFrame b ck))), Hfv.
    + cbn [rbind map_err]. by rewrite Hassert.
    + split; [|done]. apply assert_body_spec. split; [done|by exists c].
  - intros Hu8 Hp. destruct (strict_round_trip _ _ utf8 s Hwf Hx' Hu8 Hp) as [s' Hd]. exists s'. unfold decode.
    erewrite mrbind_step by exact Hd.
    assert (norm_value (Obj (frame_fields b c ck)) = Obj (frame_fields b (norm_value c) ck)) as ->.
    { cbn [norm_value frame_fields fmap list_fmap fst snd]. by rewrite !norm_u64. }
    rewrite Hassert. etrans; [by apply mrbind_step|]. rewrite wal_frame_from_fields by by eapply serde_value. done.
Qed.

Lemma same_body (b b' : WalFrameBody T) v v' :
  wal_body_value b = Ok v → wal_body_value b' = Ok v' → norm_value v = norm_value v' → b = b'.
Proof.
  unfold wal_body_value. destruct (to_value (wb_change b)) as [c|] eqn:Hc; [|done].
  destruct (to_value (wb_change b')) as [c'|] eqn:Hc'; [|done]. cbn [rbind]. intros [= <-] [= <-].
  cbn [norm_value fmap list_fmap fst snd]. rewrite !norm_u64, !u64_value_eq. intros [= Hn Hf Hs Ht Hl Hp Htt].
  assert (wb_lifecycle b = wb_lifecycle b') as Hll.
  { pose proof (lifecycle_of_name (wb_lifecycle b)) as H1'. rewrite Hl, lifecycle_of_name in H1'. by injection H1'. }
  pose proof (to_value_inj _ _ _ _ Hc Hc' Hn). apply N2Z.inj in Hf, Hs. destruct b, b'. simpl in *. congruence.
Qed.


(** ** Envelopes and observed events *)

Definition optional_u64 (o : option N) : Prop := match o with Some n => u64 n | None => True end.

(** An envelope with its version in the form its text reads back as. *)
Definition read_back (e : ChangeEnvelope T) : ChangeEnvelope T :=
  mkChangeEnvelope (ce_lifecycle e) (ce_structure e) (norm_value (ce_version e)) (ce_t_ns e) (ce_seq e) (ce_change e).

(** The parts of an envelope are in their types. *)
Definition envelope_typed (e : ChangeEnvelope T) : Prop := optional_u64 (ce_seq e) ∧ value_wf (ce_version e).

(** What reading looks at. *)
Record reads_envelope (map : list (string * Value)) (e : ChangeEnvelope T) (change version : Value) : Prop := {
  reads_change : bt_get "change" map = Some change;
  reads_lifecycle : bt_get "lifecycle" map = Some (Str (lifecycle_name (ce_lifecycle e)));
  reads_structure : bt_get "structure" map = Some (Str (ce_structure e));
  reads_version : bt_get "version" map = Some version;
  reads_t_ns : bt_get "t_ns" map = Some (Str (ce_t_ns e));
  reads_seq : bt_get "seq" map = u64_value <$> ce_seq e
}.

Lemma assert_envelope_spec {A} (e : ChangeEnvelope A) :
  Envelope.assert_change_envelope e = Ok tt ↔
  ce_structure e ≠ "" ∧ is_non_negative_decimal_integer_string (bytes_of (ce_t_ns e)) = true ∧
  match ce_version e with Num _ | Str _ => True | _ => False end.
Proof.
  unfold Envelope.assert_change_envelope, assert_decimal, assert_non_negative_decimal_integer_string.
  case_bool_decide; [naive_solver|]. destruct (is_non_negative_decimal_integer_string _); cbn [rbind]; [|naive_solver].
  destruct (ce_version e); naive_solver.
Qed.

Lemma assert_envelope_value_reads map e c v label :
  reads_envelope map e c v → match v with Num _ | Str _ => True | _ => False end →
  Envelope.assert_change_envelope e = Ok tt → Envelope.assert_change_envelope_value (Obj map) label = Ok tt.
Proof.
  intros [H1' H2' H3' H4' H5' H6'] Hver (Hs & Ht & _)%assert_envelope_spec.
  unfold Envelope.assert_change_envelope_value, value_as_object. rewrite H1', H2', H3', H4', H5', H6'. cbn [mbind option_bind].
  unfold lifecycle_value. cbn [value_as_str mbind option_bind]. rewrite lifecycle_of_name. cbn [is_some negb].
  rewrite bool_decide_eq_false_2 by done. unfold assert_decimal, assert_non_negative_decimal_integer_string. rewrite Ht.
  destruct v; try done; cbn [rbind]; (destruct (ce_seq e); cbn [fmap option_fmap option_map]; [by rewrite as_u64_value|done]).
Qed.

Lemma envelope_from_reads map e c v :
  reads_envelope map e c v → from_value c = Ok (ce_change e) →
  Envelope.change_envelope_from (Obj map)
  = Ok (mkChangeEnvelope (ce_lifecycle e) (ce_structure e) v (ce_t_ns e) (ce_seq e) (ce_change e)).
Proof.
  intros [H1' H2' H3' H4' H5' H6'] Hc. unfold Envelope.change_envelope_from, read_field, read_optional.
  rewrite H1', H2', H3', H4', H5', H6', Hc. unfold typed, lifecycle_value. cbn [rbind value_as_str mbind option_bind].
  rewrite lifecycle_of_name. cbn [rbind]. destruct (ce_seq e) as [n|]; cbn [fmap option_fmap option_map]; [|done].
  rewrite u64_value_eq. simpl. by rewrite N2Z.id.
Qed.

Ltac wf_fields := apply value_all_obj; split;
  [unfold bt_wf; repeat constructor|repeat (apply Forall_cons; split); try done; by apply value_wf_u64].

(** An envelope survives its codec; its version is read back in the form of its
    text, an integral float as an integer. *)
Theorem change_envelope_round_trip e b v utf8 s :
  envelope_typed e → Envelope.change_envelope_value e = Ok v → Envelope.encode e = Ok b →
  utf8 b = None → parse_json b = Ok (norm_value v) →
  ∃ s', Envelope.decode utf8 b s = Ret (Ok (read_back e)) s'.
Proof.
  intros [Hseq Hver] Hv Hb Hu Hp. unfold Envelope.encode in Hb. rewrite Hv in Hb.
  destruct (Envelope.assert_change_envelope e) as [[]|] eqn:Ha; [|done]. cbn [rbind map_err] in Hb.
  unfold Envelope.change_envelope_value in Hv. destruct (to_value (ce_change e)) as [c|] eqn:Hc; [|done].
  apply serde_value in Hc as [Hcw Hcf]. cbn [rbind] in Hv. injection Hv as <-.
  match type of Hb with strict_canonical_json_bytes ?w = _ => assert (value_wf w) as Hwf end.
  { unfold optional_u64 in Hseq. destruct (ce_seq e); wf_fields. }
  destruct (strict_round_trip _ _ utf8 s Hwf Hb Hu Hp) as [s' Hd]. unfold Envelope.decode.
  exists s'. erewrite mrbind_step by exact Hd. cbn [norm_value].
  match goal with |- context [Obj ?l] => set (map := l) end.
  assert (reads_envelope map e (norm_value c) (norm_value (ce_version e))) as Hr.
  { unfold map. destruct (ce_seq e) as [n|] eqn:Hn; split; try done; rewrite Hn;
      [exact (f_equal Some (norm_u64 n))|done]. }
  rewrite (assert_envelope_value_reads map e _ _ _ Hr); [|by apply assert_envelope_spec in Ha as (_ & _ & Hx); destruct (ce_version e)|done].
  etrans; [by apply mrbind_step|]. by rewrite (envelope_from_reads map e _ _ Hr Hcf).
Qed.

(** And so does an observed event. *)
Theorem observe_event_round_trip (f : ObserveEventFrame T) b v utf8 s :
  envelope_typed (oe_envelope f) → u64 (oe_observe_seq f) → Observe.observe_event_value f = Ok v → Observe.encode f = Ok b →
  utf8 b = None → parse_json b = Ok (norm_value v) →
  ∃ s', Observe.decode utf8 b s
        = Ret (Ok (mkObserveEventFrame (read_back (oe_envelope f)) (oe_observe_seq f) (oe_path f) (oe_stream f))) s'.
Proof.
  intros [Hseq Hver] Hos Hv Hb Hu Hp. unfold Observe.encode in Hb. rewrite Hv in Hb.
  destruct (Observe.assert_observe_event_frame f) as [[]|] eqn:Ha; [|done]. cbn [rbind map_err] in Hb.
  unfold Observe.assert_observe_event_frame in Ha.
  destruct (Envelope.assert_change_envelope _) as [[]|] eqn:Ha1; [|done]. cbn [rbind] in Ha. case_bool_decide as Hst; [done|].
  destruct f as [e os path stream]. cbn [oe_envelope oe_observe_seq oe_path oe_stream] in *.
  assert (Envelope.assert_change_envelope e = Ok tt) as Hae by (apply assert_envelope_spec; by apply assert_envelope_spec in Ha1).
  unfold Observe.observe_event_value in Hv. cbn [oe_envelope oe_observe_seq oe_path oe_stream] in Hv.
  destruct (to_value (ce_change e)) as [c|] eqn:Hc; [|done].
  apply serde_value in Hc as [Hcw Hcf]. cbn [rbind] in Hv. injection Hv as <-.
  match type of Hb with strict_canonical_json_bytes ?w = _ => assert (value_wf w) as Hwf end.
  { unfold optional_u64 in Hseq. destruct (ce_seq e), stream; wf_fields. }
  destruct (strict_round_trip _ _ utf8 s Hwf Hb Hu Hp) as [s' Hd]. unfold Observe.decode.
  exists s'. erewrite mrbind_step by exact Hd. cbn [norm_value].
  match goal with |- context [Obj ?l] => set (map := l) end.
  assert (reads_envelope map e (norm_value c) (norm_value (ce_version e))) as Hr.
  { unfold map. destruct (ce_seq e) as [n|] eqn:Hn, stream; split; try done; rewrite Hn;
      [exact (f_equal Some (norm_u64 n))|exact (f_equal Some (norm_u64 n))|done..]. }
  assert (bt_get "observeSeq" map = Some (u64_value os) ∧ bt_get "path" map = Some (Str path) ∧
          bt_get "stream" map = Str <$> stream) as (Ho & Hpa & Hs).
  { unfold map. destruct (ce_seq e), stream; (split_and!; [exact (f_equal Some (norm_u64 os))|done..]). }
  clearbody map. assert (Observe.assert_observe_event_frame_value (Obj map) = Ok tt) as ->.
  { unfold Observe.assert_observe_event_frame_value.
    rewrite (assert_envelope_value_reads map e _ _ _ Hr); [|by apply assert_envelope_spec in Hae as (_ & _ & Hx); destruct (ce_version e)|done].
    cbn [rbind value_as_object]. rewrite (reads_structure _ _ _ _ Hr), Ho, Hpa, Hs. cbn [mbind option_bind value_as_str].
    rewrite Hst, bool_decide_eq_false_2, as_u64_value by (intros Hn; by apply Hn). by destruct stream. }
  etrans; [by apply mrbind_step|]. unfold Observe.observe_event_from, read_field, read_optional, typed.
  rewrite (envelope_from_reads map e _ _ Hr Hcf), Ho, Hpa, Hs. cbn [rbind value_as_str]. rewrite as_u64_value. by destruct stream.
Qed.
End Codecs.
