(* ===== verification/StorageScenarios.v ===== *)
(** * Files, read-through lookups and envelopes at work

    Concrete runs for the theorems of [FileBackendFacts], [ReadThroughFacts] and
    [EnvelopesFacts]: a directory in which a process dies and a call fails, two
    in-memory tiers with a loader that writes one of them, contexts that say the
    same in other words, and a frame of a write-ahead log. *)

From Stdlib Require Import Ascii String SpecFloat.
From stdpp Require Import base gmap list option numbers strings.
From S2P Require Import Prelude.
From S2P Require Import BTree.
From S2P Require Import Text.
From S2P Require Import Json.
From S2P Require Import JsonAccept.
From S2P Require Import JsonCanon.
From S2P Require Import JsonExample.
From S2P Require Import Storage.
From S2P Require Import StorageFacts.
From S2P Require Import CollectionStorage.
From S2P Require Import DurabilityExample.
From S2P Require Import FileBackend.
From S2P Require Import FileBackendFacts.
From S2P Require Import ReadThrough.
From S2P Require Import ReadThroughFacts.
From S2P Require Import Envelopes.
From S2P Require Import EnvelopesFacts.

Local Open Scope rx_scope.

(** ** A directory *)

#[local] Instance ascii_files : FileSystem.
Proof.
  refine {|
    utf8 := forallb is_ascii;
    io_message k := match k with NotFound => "not found" | AlreadyExists => "file exists" | OtherKind => "other" end;
    read_order := reverse;
    process_id := 7
  |}; [done|]. intros l. apply reverse_Permutation.
Defined.

(** The process dies while it writes the first file; the rename of the second
    write fails; then everything works. *)
Definition new_directory : Disk :=
  mkDisk None [Works; Works; Dies 1; Works; Works; Works; Works; Fails 0 "no space left on device"] [] 1.

Definition file_ops : list BkOp :=
  [OpPut "a" "k" (bytes_of "one"); OpPut "a" "k" (bytes_of "two"); OpGet "a" "k";
   OpPutIfAbsent "a" "k" (bytes_of "three"); OpPutIfAbsent "a" "k" (bytes_of "four");
   OpPut "b" "k" (bytes_of "five"); OpPut "a" "j" (bytes_of "six"); OpDelete "b" "k"; OpList "a" ""; OpGet "a" "k"].

(** The first write dies, the second fails; nothing of them is seen, and the
    temporary file the dead process left is never listed. *)
Example file_run :
  (λ oe : BkOp * Ended, oe.2) <$> (bk_history "/var/data" ".bin" file_ops new_directory).1
  = [Died; Answered (Err (Backend "fileBackend.put: no space left on device")); Answered (Ok (AValue None));
     Answered (Ok (AStored true)); Answered (Ok (AStored false)); Answered (Ok ADone); Answered (Ok ADone);
     Answered (Ok ADone); Answered (Ok (AKeys ["j"; "k"]));
     Answered (Ok (AValue (Some (bytes_of "three"))))].
Proof. vm_compute. reflexivity. Qed.

Lemma file_backend_atomic_witness :
  ∃ m', explains ∅ (bk_history "/var/data" ".bin" file_ops new_directory).1 m' ∧
    represents ".bin" (dk_files (bk_history "/var/data" ".bin" file_ops new_directory).2) m'.
Proof.
  apply (file_backend_atomic "/var/data" ".bin" eq_refl file_ops new_directory ∅).
  - apply represents_empty.
  - repeat constructor.
Defined.

Lemma file_backend_answers_witness :
  Forall (λ oe, ∃ a, oe.2 = Answered (Ok a)) (bk_history "/var/data" ".bin" file_ops (mkDisk None [] [] 1)).1 ∧
  healthy (bk_history "/var/data" ".bin" file_ops (mkDisk None [] [] 1)).2.
Proof.
  apply (file_backend_answers "/var/data" ".bin" eq_refl file_ops (mkDisk None [] [] 1) ∅).
  - split; [done|]. by intros f [].
  - apply represents_empty.
  - repeat constructor.
Defined.

(** ** Two tiers and a loader *)

Section TwoTiers.
Import ReadThrough.

(** The loader finds the key and, before it returns, someone writes the first
    tier; a callback panics at every miss. *)
Definition slow_load (k : string) : M (nat → MemoryKv.MemoryKv nat) (StorageResult (option nat)) :=
  let!? _ := kv_set (memory_tier 0) k 5 in ret (Ok (Some 9)).

Definition two_tiers : TieredReadThroughOptions (nat → MemoryKv.MemoryKv nat) nat :=
  mkReadThroughOptions "k" (memory_tier <$> seq 0 2) ["fast"; "slow"] (Some slow_load) AllEarlier
    (Some (λ _, panic (PanicStr "observer"))) None.

Definition empty_tiers : nat → MemoryKv.MemoryKv nat := λ i, MemoryKv.memory_kv (Z.of_nat i + 1).

(** The first tier keeps what was written while the value was loaded; the second
    takes the value. *)
Example promotion_run :
  match tiered_read_through two_tiers empty_tiers with
  | Ret r s => (value r, p_ok <$> promotions r, view (s 0) !! "k", view (s 1) !! "k")
               = (Some 9, [false; true], Some 5, Some 9)
  | _ => False
  end.
Proof. vm_compute. reflexivity. Qed.

Lemma slow_load_acts k : acts (slow_load k).
Proof.
  intros s. unfold slow_load, mrbind, bind, memory_tier. simpl. unfold at_store, zoom. simpl. intros i.
  destruct (decide (i = 0)) as [->|]; [by exists [KSet k 5]|by exists []].
Qed.

End TwoTiers.

(** ** Digests, frames and contexts *)

(** A checksum of all the bytes, repeated: enough to run the definitions. *)
#[local] Instance sum_digest : Sha256.
Proof.
  refine {| sha256 b := replicate 32 (ascii_of_N (foldl (λ h c, (h * 31 + N_of_ascii c) mod 251)%N 7%N b)) |}.
  intros b. apply length_replicate.
Defined.

#[local] Instance plain_errors : DeriveErrors := {|
  missing_field name := "missing field `" +:+ name +:+ "`";
  invalid_type name v := "invalid type for `" +:+ name +:+ "`"
|}.

#[local] Instance serde_flag : Serde bool := {|
  to_value b := Ok (Bool b);
  from_value v := match v with Bool b => Ok b | _ => Err "invalid type: expected a boolean" end
|}.

#[local] Instance flag_value : SerdeValue bool.
Proof. intros b v [= <-]. split; [done|by destruct b]. Qed.

Definition frame_options : WalFrameOptions bool :=
  Wal.with_frame_t_ns "1700000000000000000" (Wal.new_options "todo/1" true 3).

Definition frame : WalFrame bool :=
  match Wal.wal_frame None frame_options with Ok f => f | Err _ => mkWalFrame (mkWalFrameBody "" Data "" true 0 "" 0) "" end.

Definition frame_json : Value :=
  match Wal.wal_frame_value frame with Ok v => v | Err _ => Null end.

(** The text layer of [JsonExample] over this document. *)
#[local] Instance frame_serde : SerdeJson := {|
  json_string := quote;
  float_string := float_text;
  parse_json_string := unquote;
  parse_json := λ _, Ok (norm_value frame_json);
  debug_str := id
|}.

#[local] Instance frame_laws : @SerdeJsonLaws frame_serde.
Proof. destruct sample_laws as [H1 H2 H3 H4 H5]. by split. Qed.

Lemma frame_made : Wal.wal_frame None frame_options = Ok frame.
Proof. vm_compute. reflexivity. Qed.

Lemma frame_verifies : Wal.verify_wal_frame_checksum frame = Ok true.
Proof. vm_compute. reflexivity. Qed.

(** Every text is UTF-8. *)
Definition utf8_ok : bytes → option string := λ _, None.

Lemma wal_frame_round_trip_witness :
  Wal.verify_wal_frame_checksum frame = Ok true ∧
  ∃ v b, Wal.wal_frame_value frame = Ok v ∧ Wal.encode frame = Ok b ∧
    (utf8_ok b = None → parse_json b = Ok (norm_value v) →
     ∃ s', Wal.decode utf8_ok b (mkScanner [] 0) = Ret (Ok frame) s').
Proof. apply (wal_frame_round_trip None frame_options frame utf8_ok (mkScanner [] 0)); [done|apply frame_made]. Defined.

(** The bytes of the frame decode to it. *)
Example frame_decodes :
  match Wal.encode frame with
  | Ok b => match Wal.decode utf8_ok b (mkScanner [] 0) with Ret r _ => r = Ok frame | _ => False end
  | Err _ => False
  end.
Proof. vm_compute. reflexivity. Qed.


(** A frame that was changed does not verify. *)
Example changed_frame_fails :
  let b := wf_body frame in
  Wal.verify_wal_frame_checksum
    (mkWalFrame (mkWalFrameBody (wb_t b) (wb_lifecycle b) (wb_path b) false (wb_frame_seq b) (wb_frame_t_ns b)
                   (wb_format_version b)) (wf_checksum frame)) = Ok true →
  False.
Proof. vm_compute. discriminate. Qed.

(** A cache whose two contexts are written differently, one and one point zero,
    and are one context. *)
Definition cache (m : ContentAddressedMode) : ContentAddressed.ContentAddressedKv (MemoryKv.MemoryKv nat) bool nat :=
  ContentAddressed.with_mode m (ContentAddressed.with_key_prefix "answers"
    (ContentAddressed.from_key_context MemoryKv.tier
       (λ b : bool, Ok (if b then Num (Float (S754_finite false 1 0)) else Num (PosInt 1))))).

Definition cache_key : string :=
  match ContentAddressed.key_for (cache ReadStrict) true with Ok k => k | Err _ => "" end.


Example one_context : same_context (cache ReadStrict) true false.
Proof. by eexists _, _. Qed.
